(* ===== verification/_CoqProject ===== *)
-Q . S2P
Prelude.v
Action.v
Proto.v
Schema.v
Channels.v
Messages.v
Triggers.v
Seats.v
Auth.v
Grants.v
Deliveries.v
SessionFence.v
Observations.v
Invocations.v
Settlement.v
Sessions.v
Evidence.v
Conversation.v
HarnessClient.v
Supervisor.v
Controller.v
WorkerTurns.v
Worker.v
Rpc.v
Sandbox.v
Egress.v
WorkerFile.v
SeatSupervisor.v
Projection.v
AcpSession.v
AcpHost.v
StreamBroker.v
HttpCore.v
ChannelStream.v
HttpRoutes.v
Lifecycle.v
Safety.v
System.v
ControllerInv.v
Fence.v
Attempts.v
AtMostOnce.v
Preserve.v
WorkerInv.v
Scenario.v
Integrity.v
MessageProps.v
ChannelProps.v
SessionInv.v
SessionProps.v
DeliveryProps.v
ObservationProps.v
Decoding.v
Recovery.v
RecoveryProps.v
EvidencePages.v
EvidenceProps.v
SupervisorProps.v
AuthProps.v
StreamBrokerProps.v
TriggerProps.v
SeatProps.v
GrantProps.v
HarnessProps.v
ResultProps.v
ControllerProps.v
WorkerProps.v
WorkerSettle.v
WorkerTurnProps.v
RpcProps.v
EgressProps.v
WorkerFileProps.v
SeatSupervisorProps.v
ProjectionProps.v
ChannelStreamProps.v
StreamSocketProps.v
HttpProps.v
AcpHostProps.v
AcpTurnProps.v
Correctness.v
