(* ===== verification/Prelude.v ===== *)
(** * fleetd: a verification development

    fleetd is a coordination daemon for agents.  Agents and people post immutable
    messages to channels; every inbox member addressed by a message gets a durable
    delivery; a worker leases deliveries, reserves an invocation (one attempt) on
    each, arms it immediately before the first effectful request, runs a turn of a
    plugin process on a native session it owns, and completes the attempt with a
    result message.  All durable state lives in one SQLite database, and every
    operation on it is one immediate transaction; above it, the worker and the
    turn controller are asynchronous loops over the store and the plugin.  What
    makes the daemon correct is that an attempt that may have had effects is never
    repeated without an operator's decision, that every write of a superseded
    worker is refused, that replays of lost responses are harmless, and that no
    failure of a plugin, a process or a transaction leaves work stuck or an
    authority held.  This library models those parts and proves these facts of
    every state the operations can reach and of every run of the loops.

    ** Files and what they model

    Foundations.
    - Prelude: errors and results (crates/kernel/src/error.rs), 64-bit bounds,
      strings, ordering and list lemmas, the notations of [fleet_scope].
    - Action: [action S E A], a state passed through steps that may fail without
      undoing what they did; [within] (every run moves along a preorder) and
      [fails_with], with their rules.
    - Proto: the enums and structs of crates/proto/src (model.rs, session.rs,
      harness_acp.rs, operations.rs, trigger.rs), the stored spelling of each enum
      with its parser as instances of the class [StoredEnum], and the JSON
      interfaces [SerdeJson] and [JsonTree] with their laws.
    - Schema: the tables of crates/kernel/migrations as records, the class [Table]
      with the CHECK, UNIQUE, FOREIGN KEY and trigger rules of each, the store
      monad [M] and its statements (select, insert, update), and the laws and
      tactics that invert a successful run ([m_inv]).

    Operations on the store.
    - Channels, Messages: crates/kernel/src/store (agent.rs, channel.rs,
      membership.rs, message.rs and the helpers of mod.rs).
    - Triggers: store/trigger.rs and crates/execution/src/trigger.rs.
    - Seats: crates/execution/src/seat_configuration.rs.
    - Auth: crates/kernel/src/auth (tokens, principals, authentication, the agent,
      operator and trigger credentials); entropy, base64 and SHA-256 are the class
      [TokenCodec].
    - Deliveries: crates/kernel/src/delivery.rs, the delivery row's transitions,
      block records and inbox reads.
    - SessionFence, Sessions: crates/execution/src/session_binding.rs; the first
      holds the owner fence and the helpers other modules call, the second the
      operations.
    - Observations, Evidence: crates/execution/src/operations.rs: worker
      generations, the event fold and its digest chain, health and seat state; the
      paged listings, the trace of an invocation and the joined seat view; and
      health.rs.
    - Invocations: crates/execution/src/invocation.rs, reserve, arm, complete,
      recover.
    - Settlement: crates/execution/src/settlement.rs, the agent-facing claim,
      acknowledge, retry, block and resolve.
    - Conversation: crates/conversation/src/lib.rs, summaries and unread state.

    The loops above the store.
    - Grants: crates/execution/src/message_grant.rs and permission.rs.
    - HarnessClient: crates/plugin-host/src/harness_acp.rs, the typed client over a
      plugin process (class [PluginProcess]) and its frames ([HarnessFrames]).
    - Supervisor: crates/plugin-host/src/supervisor.rs and protocol.rs, the parts
      of sandbox.rs and crates/proto/src/plugin.rs they use; the operating system
      and the exchange over the pipes are the class [PluginOs].
    - Controller: crates/execution/src/controller.rs, the run of one managed turn,
      over any instance of [Harness] and [ManagedTurnGrant].
    - WorkerTurns, Worker: crates/execution/src/worker.rs; the first holds the
      configuration, the adapter and the view of the channel, the second the loops.

    The plugin host, the files and the export.
    - Rpc: crates/plugin-host/src/rpc.rs, the JSON-RPC peer of a plugin: pending
      calls, frames, notifications, and the step relation of a connection.
    - Sandbox: crates/plugin-host/src/sandbox.rs, the text of the profiles.
    - WorkerFile: src/cli/worker.rs, the seat file and the configuration it becomes.
    - SeatSupervisor: src/cli/worker_supervisor.rs, the profile catalog, a round of
      reconciliation and the supervision loop.
    - Egress, Projection: crates/otlp/src/config.rs, projection.rs and sink.rs: the
      egress configuration, the spans of a turn and the bounded queue before them.

    The ACP host.
    - AcpSession: crates/acp-host/src (config.rs; initialize.rs, session.rs and
      transcript.rs of runtime/) and [segment_transcript] of proto/src/harness_acp.rs:
      the host's errors, the checks of its configuration, the sessions it opens, adopts
      and closes with the endpoints granted to them, and the replay of a conversation.
    - AcpHost: mod.rs, turn.rs, update.rs, permission.rs and launch.rs of runtime/: what
      a turn keeps of its updates, permission requests, the monitor of a turn and its
      deadlines; [host_act], one step of one task, and [run_host], the tasks interleaved.

    The HTTP surface.
    - StreamBroker: crates/http/src/browser_stream_edge.rs (the protocol constants,
      grants, cursors and frames, and the upgrade policy of a loopback listener) and
      stream_grant_broker.rs (the single-use grants and the slots of the active
      streams).
    - HttpCore: error.rs, guard.rs and the authentication of lib.rs in
      crates/http/src, and the world a handler runs over.
    - ChannelStream: crates/http/src/channel_stream.rs and streams.rs, replay and
      live continuation on the native and the browser wire, and the life of a
      browser socket.
    - HttpRoutes: the handlers of agents.rs, channels.rs, messages.rs, deliveries.rs,
      invocations.rs, operations.rs, triggers.rs, seats.rs and the issue of a grant in
      streams.rs, one definition per route over the operations above, and [serve].

    Specifications and invariants.
    - Lifecycle: the abstract specification.  For each table, the moves a row may
      make (class [Lifecycle]); [evolves], the refinement relation between stores;
      [wf], the well-formedness SQLite enforces; [safe], closed under the monad.
    - Safety: one [safe] lemma per operation.
    - System: [transition], one constructor per operation that changes the store;
      [reaches], [worker_run] (no operator decision) and [reachable].
    - Fence, Attempts, AtMostOnce, SessionInv, Integrity, Recovery: the inductive
      invariants (live attempts own their deliveries; what a certainty means; an
      armed attempt is the last one at its message; bindings, turns and attempts
      agree; stored values decode; tokens, blocks and results).
    - Preserve: [preserves I m] and the automation that proves an invariant by
      walking the program of every operation.
    - ControllerInv, WorkerInv: every step of the controller and of the worker is
      one of a few moves of the world; [within] for each part of them.
    - Scenario: a JSON instance satisfying the laws, concrete runs of the store, and
      the theorems applied to them.  The runs of a whole worker, of the supervisor and
      of the ACP host stand with their theorems, in WorkerTurnProps,
      SeatSupervisorProps and AcpTurnProps.

    Properties: MessageProps, ChannelProps, SessionProps, DeliveryProps,
    ObservationProps, Decoding, RecoveryProps, EvidencePages, EvidenceProps,
    SupervisorProps, AuthProps, TriggerProps, SeatProps, GrantProps, HarnessProps,
    ResultProps, ControllerProps, WorkerProps, WorkerSettle, WorkerTurnProps,
    RpcProps, EgressProps, WorkerFileProps, SeatSupervisorProps, ProjectionProps,
    AcpHostProps, AcpTurnProps, StreamBrokerProps, ChannelStreamProps,
    StreamSocketProps, HttpProps, Correctness.

    ** What the theorems show

    - At most once.  Unless an operator decides on a parked delivery, a worker starts at
      most one turn for a message, whatever its harness, its restarts, the leases and
      the other workers do (WorkerProps.message_dispatched_once).  Below it: a prompt is sent only under
      a durable arm (ControllerProps); claims and reservations never touch a message
      with an armed attempt, and an armed attempt stays the last one of its message
      (Correctness, AtMostOnce); recovery parks expired armed attempts; a retry of
      an armed attempt is refused; a blocked delivery waits for an operator;
      not_started is only recorded for attempts never armed.
    - Nothing is left behind.  A step of the worker ends what it reserved, with the
      exceptions named (WorkerSettle); recovery always completes where sessions are
      held, and a claim then hands out what waits (RecoveryProps); no grant outlives its
      turn (ControllerProps); a process given up has had its group killed, but for one
      failing start that is named (SupervisorProps); a
      cancelled worker stops, and a bounded one within its bound (WorkerProps).
    - Ownership.  A live attempt holds the lease of its delivery; there is one per
      message and agent; an active turn, its binding and its attempt agree; a
      session runs one turn; a superseded owner epoch is refused; epochs grow; an
      acquisition displaces only idle owners (Correctness, SessionProps).
    - Refinement and finality.  Every operation moves rows only along their
      lifecycles and keeps the schema's constraints; terminal attempts, settled
      deliveries and the message log never change (Correctness); an outcome is
      durable before the controller reports it (ControllerProps).
    - Evidence.  A turn's events are numbered without gaps and folded exactly
      (HarnessProps, ObservationProps); no stored row fails to decode; traces, seats
      and health agree with the rows they are read from, and following a cursor
      reads every row once (Decoding, EvidenceProps, EvidencePages).
    - Replays.  Appending, completing, acknowledging, opening a direct pair,
      publishing under a grant and recording a terminal give the stored answer and
      change nothing, however much ran in between; resolving a block and recording
      an event do so when repeated at once.  Where the answer is a message, its payload
      has to read back as itself ([reparses]); one that does not makes the replay a
      conflict (MessageProps.inexact_replay_conflicts).
    - Authority.  Tokens authenticate exactly until they are replaced or revoked; a
      retired trigger creates no work; a grant bounds what an agent publishes;
      consent needs one unambiguous option (AuthProps, TriggerProps, GrantProps,
      ResultProps).
    - Streams.  A stream sends exactly the log of its channel from its cursor on,
      whatever the store becomes and however it ends; a wake-up makes it catch up;
      its replays end; on the browser wire a message frame always follows a look at an
      active credential, while a native stream never looks again
      (ChannelStreamProps, StreamSocketProps.native_stream_outlives_revocation).  A browser's grant is used once, in its
      scope, whatever redemptions race, and the bounds are exactly what is in use
      (StreamBrokerProps); nothing is streamed before every check, no socket
      panics, and every path gives back the permit and the slot (StreamSocketProps); a grant has one
      spelling, and an upgrade passes exactly with the three header values the
      listener's address gives (StreamBrokerProps).
    - Turns of the runtime.  Of an orderly host, whatever the order of its tasks, the
      harness client at the other end of the pipe admits every notification of a turn,
      to its terminal (AcpTurnProps.host_turn_admitted); where a host is not orderly
      the divergences are theorems too ([overtaken_terminal_refused],
      [lost_number_refused]).  A runtime's permission request is answered with an
      option only for the call that resolved it under the fence of its turn; the message
      content kept of a turn is bounded by its policy, its usage is not
      ([usage_not_bounded]); the endpoints of a session are exactly the granted
      ones, all loopback (AcpTurnProps, AcpHostProps).
    - Requests.  A request is made by someone its route admits or nothing but time
      passes; it is at most one operation, committed only for a success - three routes
      answer with a read after it -; the message an append or a completion creates is
      announced after the commit, the one a firing of a trigger creates is not
      (HttpProps).
    - Supervision.  No agent has two workers of the supervisor, a round leaves
      exactly the seats that are asked for, each running as its configuration and its
      profile say, and a cancelled supervisor ends
      (SeatSupervisorProps); the calls of a plugin are answered once (RpcProps).
    - Containment.  A sandbox profile grants the declared roots only
      (SupervisorProps); below the full level telemetry carries of the updates only what
      the level discloses - the call identifier of a tool, at the metadata level its
      kind and status -, and it goes to no plain-text host (ProjectionProps, EgressProps);
      the queue only loses offers.
    - Function.  What an append stores and delivers, what a completion publishes,
      what a claim grants, how cursors page and advance, what a result payload says,
      what a prompt carries, and what an accepted configuration guarantees.

    ** Conventions

    A value the code draws from its environment is an argument: [Uuid::new_v4()]
    results ([uuid], [uuids], [token]) and [now_ms()] results ([now], [at_ms]).
    The only assumption on them is that the lease token of a claim or reservation
    is new to the store ([fresh_token]: no delivery is leased under it or was last
    settled under it, and no block was recorded with it). serde_json and SQLite's
    json_each are the class [SerdeJson]. Parsing need not invert printing:
    serde_json is built without float_roundtrip, so a theorem about what is read
    back of a payload takes it to be one that reads back as itself ([reparses]),
    or is about the stored text ([holds_message]); the laws [SerdeJsonLaws] say
    only that an encoded value parses and that lists of strings and the empty
    object read back exactly. SHA-256 is a function parameter about which nothing
    is assumed. An operation is [Db → result (A * Db)]: an error carries no state,
    which is the rollback. Reads and writes of one operation run on one state,
    because BEGIN IMMEDIATE serializes writers; the two statements that write a
    plugin generation are transactions of their own. A read outside a transaction
    that follows one is an action after it, with the rest of the system in
    between, where it can make a difference ([Worker.record_plugin_generation],
    [HttpRoutes.retire_trigger]); the look that tells the cases of a lease that
    was not found apart, which the code takes after the rollback, is taken on the
    state that was rolled back to; and a read model that reads several times takes
    a store per read ([dbs]), with any operations between them. A table is the
    list of its rows in rowid order; agent_deliveries is WITHOUT ROWID and its
    order is not used where the code sorts. Enum columns are typed, with the
    stored spelling given by [spelling]. The u32 fields of a plugin's description
    are the type [U32]; the inputs of the operations are bounded as the code
    bounds them ([i64_try_from], [in_i64], saturating arithmetic); counters SQLite
    increments itself are integers, with the overflow of the AUTOINCREMENT keys
    modelled as the refused insert it is. Loops of the store are folds over rows
    fetched before, so every definition is total and no fuel is needed.

    The controller and the worker run over a [World]: the store, the harness, the
    grants, the number of awaits passed and a log of effects.  At every await
    ([tick]) the rest of the system runs: [env_db] and [env_grants] give the store
    and the grants it leaves, constrained only to be runs of the operations.  What a
    select chooses is an argument: a [Schedule] says when a deadline or an
    interruption wins, [lost] which calls the caller abandons, [cancelled] from
    which await the token is cancelled, [polls] what the interruption watch sees.
    A panic of the code is a value of the error type.  The loops of the controller
    are recursive on the awaits its schedule leaves; those of the worker take fuel,
    and [cancelled_worker_stops] shows that any fuel beyond the await of the
    cancellation is enough.

    A handler of the HTTP surface runs over an [HttpWorld]: the store, the grant
    broker, the permits before authentication, the awaits passed and a log of what
    the request did; [env_db], [env_broker] and [env_permits] are the rest of the
    daemon at each await.  A stream takes the list of what its select chose and
    fuel for the pages of its replays; [replay_terminates] shows that one unit for
    every 500 messages behind the cursor is enough.  The switch of a browser socket's
    protocol and every frame it waits for before the redemption are awaits.  Racing redemptions are the step
    relation [broker_step], a step per critical section of the broker.

    The ACP host is one locked state ([Host]) and a step ([HostStep]) for every
    section of a task that runs under the lock; a run is a list of steps in any order,
    with the replies of the runtime, the clock and the identifiers as arguments.  A
    notification is first made and then sent, in a step of its own ([h_pending]).  A
    handler that fails may end the connection to the runtime; the model lets the host
    go on, which allows more runs.

    ** Not modelled

    The MCP surface and the command line translate requests to the operations above.
    What axum and serde extract from the bytes of a request is the argument of a
    route; the OpenAPI document, the serving of the browser's files and the WebSocket
    framing are libraries or data.  The pipes of a plugin process and the lines of its
    protocol, the launch of an ACP runtime, the OTLP encoder, the operator token file,
    the commit hint's datagram socket, the inference host and the plugins are I/O or
    adapters of other systems.  The author-review
    workflow and the soak tool are programs built on the daemon.  The periodic tasks
    (heartbeat, expiry reaper) are timers around operations that are modelled, and
    are part of what the rest of the system may run. *)

From stdpp Require Export base tactics list strings pretty option relations sorting.
From Stdlib Require Export ZArith Lia.

#[global] Set Default Goal Selector "!".

Declare Scope fleet_scope.
Delimit Scope fleet_scope with fleet.
Open Scope fleet_scope.
Open Scope Z_scope.

(** ** Decidable tests used as SQL and Rust conditions *)

Notation "x ==? y" := (bool_decide (x = y)) (at level 70) : fleet_scope.
Notation "x !=? y" := (negb (bool_decide (x = y))) (at level 70) : fleet_scope.

(** ** Errors and results (crates/kernel/src/error.rs) *)

(** What SQLite reports when a statement is refused.  [sqlx::Error] is reduced
    to the distinctions the source makes or could make: uniqueness, foreign
    keys, CHECK constraints, a RAISE(ABORT) of a trigger, an exhausted
    AUTOINCREMENT key, and a row that cannot be decoded. *)
Inductive DbError :=
| UniqueViolation
| ForeignKeyViolation
| CheckViolation
| Aborted (reason : string)
| Full
| RowNotFound
| Decode (reason : string).

Inductive FleetError :=
| NotFound (entity : string) (id : string)
| NotMember (agent_id : string) (channel_id : string)
| Invalid (reason : string)
| Unauthorized
| Forbidden (reason : string)
| Conflict (reason : string)
| ResourceExhausted (reason : string)
| LeaseConflict (reason : string)
| Database (error : DbError)
| Serialization
| Credential (reason : string).

(** [error.to_string()].  [source_text] is the text of the library error a
    variant wraps. *)
Definition error_to_string (source_text : FleetError → string) (error : FleetError) : string :=
  match error with
  | NotFound entity id => entity +:+ " not found: " +:+ id
  | NotMember agent_id channel_id =>
      "agent " +:+ agent_id +:+ " is not a member of channel " +:+ channel_id
  | Invalid reason => "invalid input: " +:+ reason
  | Unauthorized => "authentication required"
  | Forbidden reason => "forbidden: " +:+ reason
  | Conflict reason => "conflict: " +:+ reason
  | ResourceExhausted reason => "resource exhausted: " +:+ reason
  | LeaseConflict reason => "lease conflict: " +:+ reason
  | Database _ => "database error: " +:+ source_text error
  | Serialization => "serialization error: " +:+ source_text error
  | Credential reason => "credential error: " +:+ reason
  end.

Inductive result (A : Type) :=
| Ok (a : A)
| Err (e : FleetError).
Arguments Ok {A} _.
Arguments Err {A} _.

#[global] Instance DbError_eq_dec : EqDecision DbError.
Proof. solve_decision. Defined.
#[global] Instance FleetError_eq_dec : EqDecision FleetError.
Proof. solve_decision. Defined.

Definition is_ok {A} (r : result A) : bool :=
  match r with Ok _ => true | Err _ => false end.

Definition rbind {A B} (r : result A) (k : A → result B) : result B :=
  match r with Ok a => k a | Err e => Err e end.

Notation "'let?' x ':=' r 'in' k" := (rbind r (λ x, k))
  (at level 10, x name, r at level 100, k at level 200) : fleet_scope.
Notation "r ';?' k" := (rbind r (λ _, k))
  (at level 199, k at level 200, right associativity) : fleet_scope.

(** [o.ok_or_else(|| e)?] *)
Definition ok_or {A} (o : option A) (e : FleetError) : result A :=
  match o with Some a => Ok a | None => Err e end.

(** [rows.iter().map(f).collect::<Result<_, _>>()] *)
Fixpoint collect {A B} (f : A → result B) (l : list A) : result (list B) :=
  match l with
  | [] => Ok []
  | a :: l => let? b := f a in let? bs := collect f l in Ok (b :: bs)
  end.

(** [guard b e] fails with [e] unless [b]; [refuse b e] fails when [b]. *)
Definition guard (b : bool) (e : FleetError) : result unit :=
  if b then Ok tt else Err e.
Definition refuse (b : bool) (e : FleetError) : result unit :=
  if b then Err e else Ok tt.

(** ** Machine integers

    [i64], [u64] and [u32] values are integers [Z]; every operation of the
    source that can leave the range is one of the functions below. *)

Definition i64_min : Z := -9223372036854775808.
Definition i64_max : Z := 9223372036854775807.
(** A [u32]. *)
Record U32 := mk_u32 { u32_value : Z; u32_fits : (0 <=? u32_value) && (u32_value <=? 4294967295) = true }.
Definition in_i64 (x : Z) : bool := (i64_min <=? x)%Z && (x <=? i64_max)%Z.

(** [i64::checked_add] *)
Definition checked_add_i64 (x y : Z) : option Z :=
  if in_i64 (x + y) then Some (x + y) else None.
(** [u64::checked_add] *)
Definition u64_max : Z := 18446744073709551615.
Definition checked_add_u64 (x y : Z) : option Z :=
  if (x + y <=? u64_max)%Z then Some (x + y) else None.
(** [i64::try_from] of an unsigned value *)
Definition i64_try_from (x : Z) : option Z :=
  if (x <=? i64_max)%Z then Some x else None.
(** [i64::saturating_add] and the like *)
Definition saturate_i64 (x : Z) : Z := Z.max i64_min (Z.min i64_max x).
Definition saturating_add_u64 (x y : Z) : Z := Z.min u64_max (x + y).
(** [Ord::clamp] *)
Definition clamp (x lo hi : Z) : Z := Z.max lo (Z.min hi x).

(** ** Strings

    A Rust [String] is its UTF-8 bytes; [str::len] is [String.length]. *)

Definition str_len (s : string) : Z := Z.of_nat (String.length s).

(** The encodings of the code points with the Unicode property White_Space,
    the ones [str::trim] removes. *)
Definition is_ws1 (a : Ascii.ascii) : bool :=
  let n := Ascii.N_of_ascii a in ((9 <=? n) && (n <=? 13) || (n =? 32))%N.
Definition is_ws2 (a b : Ascii.ascii) : bool :=
  let n := Ascii.N_of_ascii a in let m := Ascii.N_of_ascii b in
  ((n =? 0xC2) && ((m =? 0x85) || (m =? 0xA0)))%N.
Definition is_ws3 (a b c : Ascii.ascii) : bool :=
  let n := Ascii.N_of_ascii a in let m := Ascii.N_of_ascii b in
  let k := Ascii.N_of_ascii c in
  (((n =? 0xE1) && (m =? 0x9A) && (k =? 0x80))
   || ((n =? 0xE2) && (m =? 0x80)
       && (((0x80 <=? k) && (k <=? 0x8A)) || (k =? 0xA8) || (k =? 0xA9) || (k =? 0xAF)))
   || ((n =? 0xE2) && (m =? 0x81) && (k =? 0x9F))
   || ((n =? 0xE3) && (m =? 0x80) && (k =? 0x80)))%N.

(** [value.trim().is_empty()] *)
Fixpoint is_blank (s : string) : bool :=
  match s with
  | EmptyString => true
  | String a s1 =>
      if is_ws1 a then is_blank s1 else
      match s1 with
      | EmptyString => false
      | String b s2 =>
          if is_ws2 a b then is_blank s2 else
          match s2 with
          | EmptyString => false
          | String c s3 => if is_ws3 a b c then is_blank s3 else false
          end
      end
  end.

(** ** ORDER BY

    A stable insertion sort over a boolean order, the meaning given to
    [ORDER BY] and to [slice::sort]. *)

Fixpoint sort_insert {A} (leb : A → A → bool) (a : A) (l : list A) : list A :=
  match l with
  | [] => [a]
  | b :: l' => if leb a b then a :: l else b :: sort_insert leb a l'
  end.
Definition sort_by {A} (leb : A → A → bool) (l : list A) : list A :=
  foldr (sort_insert leb) [] l.

(** Lexicographic composition of two orders given by their keys. *)
Definition lex_leb {A} (ltb1 leb1 : A → A → bool) (leb2 : A → A → bool) (a b : A) : bool :=
  ltb1 a b || (leb1 a b && leb2 a b).
Definition by_Z {A} (key : A → Z) (a b : A) : bool := (key a <=? key b)%Z.
Definition by_Z_desc {A} (key : A → Z) (a b : A) : bool := (key b <=? key a)%Z.
Definition by_str {A} (key : A → string) (a b : A) : bool := String.leb (key a) (key b).
Definition by_str_desc {A} (key : A → string) (a b : A) : bool := String.leb (key b) (key a).
(** [ORDER BY k1, k2] *)
Definition then_by {A} (o1 o2 : A → A → bool) (a b : A) : bool :=
  o1 a b && (negb (o1 b a) || o2 a b).

(** [LIMIT n] *)
Definition limit {A} (n : Z) (l : list A) : list A := take (Z.to_nat n) l.

(** [FROM la JOIN lb ON on], in the order of the left table *)
Definition join {A B} (on : A → B → bool) (la : list A) (lb : list B) : list (A * B) :=
  flat_map (λ a, map (pair a) (List.filter (on a) lb)) la.
(** [MAX(key)]: NULL over no rows *)
Definition max_by {A} (key : A → Z) (l : list A) : option Z :=
  foldr (λ a acc, match acc with None => Some (key a) | Some m => Some (Z.max (key a) m) end)
    None l.
(** [COALESCE(o, v)] *)
Definition coalesce {A} (o : option A) (v : A) : A := match o with Some a => a | None => v end.

(** ** List lemmas *)

Section sort.
Context {A : Type} (leb : A → A → bool).

Lemma sort_insert_perm a l : sort_insert leb a l ≡ₚ a :: l.
Proof.
  induction l as [|b l IH]; [done|]. simpl. destruct (leb a b); [done|].
  rewrite IH. apply Permutation_swap.
Qed.

Lemma sort_by_perm l : sort_by leb l ≡ₚ l.
Proof.
  induction l as [|a l IH]; [done|]. simpl. by rewrite sort_insert_perm, IH.
Qed.

Lemma elem_of_sort_by a l : a ∈ sort_by leb l ↔ a ∈ l.
Proof. by rewrite sort_by_perm. Qed.

(** A list already in order is left as it is. *)
Lemma sort_by_id l :
  StronglySorted (λ a b, leb a b = true) l → sort_by leb l = l.
Proof.
  induction 1 as [|a l Hs IH Hall]; [done|]. simpl. rewrite IH.
  destruct l as [|b l]; [done|]. simpl. apply Forall_cons in Hall as [Hab _]. by rewrite Hab.
Qed.

Context (total : ∀ a b, leb a b = true ∨ leb b a = true).
Context (trans : ∀ a b c, leb a b = true → leb b c = true → leb a c = true).

Lemma sort_insert_sorted a l :
  StronglySorted (λ a b, leb a b = true) l →
  StronglySorted (λ a b, leb a b = true) (sort_insert leb a l).
Proof using total trans.
  induction 1 as [|b l Hs IH Hall]; simpl; [repeat constructor|].
  destruct (leb a b) eqn:Hab.
  - constructor; [by constructor|]. constructor; [done|].
    eapply Forall_impl; [done|]. intros c Hc. by apply trans with b.
  - constructor; [done|]. rewrite sort_insert_perm. constructor; [|done].
    destruct (total a b); congruence.
Qed.

Lemma sort_by_sorted l : StronglySorted (λ a b, leb a b = true) (sort_by leb l).
Proof using total trans.
  induction l as [|a l IH]; simpl; [constructor|]. by apply sort_insert_sorted.
Qed.
End sort.

(** ** The order of strings *)

Lemma ascii_compare_trans c a b c' :
  Ascii.compare a b = c → Ascii.compare b c' = c → Ascii.compare a c' = c.
Proof.
  unfold Ascii.compare. destruct c; rewrite ?N.compare_eq_iff, ?N.compare_lt_iff, ?N.compare_gt_iff; lia.
Qed.
Lemma string_compare_lt_trans a b c :
  String.compare a b = Lt → String.compare b c = Lt → String.compare a c = Lt.
Proof.
  revert b c. induction a as [|x a IH]; intros [|y b] [|z c]; simpl; try done.
  destruct (Ascii.compare x y) eqn:Hxy; intros H1; [| |done];
    destruct (Ascii.compare y z) eqn:Hyz; intros H2; try done.
  - rewrite (ascii_compare_trans Eq x y z) by done. by eapply IH.
  - apply Ascii.compare_eq_iff in Hxy as ->. by rewrite Hyz.
  - apply Ascii.compare_eq_iff in Hyz as ->. by rewrite Hxy.
  - by rewrite (ascii_compare_trans Lt x y z).
Qed.
Lemma string_compare_refl a : String.compare a a = Eq.
Proof.
  pose proof (String.compare_antisym a a) as H. by destruct (String.compare a a).
Qed.
Lemma string_ltb_trans a b c : String.ltb a b = true → String.ltb b c = true → String.ltb a c = true.
Proof.
  unfold String.ltb. destruct (String.compare a b) eqn:H1; try done.
  destruct (String.compare b c) eqn:H2; try done. by rewrite (string_compare_lt_trans a b c).
Qed.
Lemma string_ltb_irrefl a : String.ltb a a = false.
Proof. unfold String.ltb. by rewrite string_compare_refl. Qed.
Lemma string_leb_ltb a b : String.leb a b = bool_decide (a = b) || String.ltb a b.
Proof.
  unfold String.leb, String.ltb. destruct (String.compare a b) eqn:H.
  - apply String.compare_eq_iff in H as ->. by rewrite bool_decide_true.
  - by rewrite orb_true_r.
  - rewrite bool_decide_false; [done|]. intros ->. by rewrite string_compare_refl in H.
Qed.
Lemma string_ltb_total a b : a = b ∨ String.ltb a b = true ∨ String.ltb b a = true.
Proof.
  unfold String.ltb. rewrite (String.compare_antisym b a).
  destruct (String.compare a b) eqn:H; simpl; [left; by apply String.compare_eq_iff|tauto..].
Qed.

Lemma elem_of_list_filter {A} (p : A → bool) (l : list A) a :
  a ∈ List.filter p l ↔ p a = true ∧ a ∈ l.
Proof. rewrite !list_elem_of_In, filter_In. tauto. Qed.

Lemma limit_subseteq {A} n (l : list A) a : a ∈ limit n l → a ∈ l.
Proof. unfold limit. rewrite elem_of_take, list_elem_of_lookup. naive_solver. Qed.

Lemma existsb_app_l {A} (p : A → bool) l l' : existsb p l = true → existsb p (l ++ l') = true.
Proof. rewrite existsb_app. by intros ->. Qed.
Lemma elem_of_join {A B} (on : A → B → bool) la lb a b :
  (a, b) ∈ join on la lb ↔ a ∈ la ∧ b ∈ lb ∧ on a b = true.
Proof.
  unfold join. rewrite list_elem_of_In, in_flat_map. split.
  - intros (a' & Ha & Hb). apply in_map_iff in Hb as (b' & [= -> ->] & Hb).
    apply filter_In in Hb. by rewrite !list_elem_of_In.
  - rewrite !list_elem_of_In. intros (Ha & Hb & Hon). exists a. split; [done|].
    apply in_map, filter_In. auto.
Qed.

Lemma max_by_upper {A} (key : A → Z) l a :
  a ∈ l → ∃ m, max_by key l = Some m ∧ key a ≤ m.
Proof.
  induction l as [|b l IH]; [by intros ?%not_elem_of_nil|].
  intros [->|Ha]%elem_of_cons; simpl; fold (max_by key l).
  - destruct (max_by key l); eexists; split; try done; lia.
  - destruct (IH Ha) as (m & Hm & ?). rewrite Hm.
    eexists; split; [done|lia].
Qed.

Lemma max_by_elem {A} (key : A → Z) l m :
  max_by key l = Some m → ∃ a, a ∈ l ∧ key a = m.
Proof.
  revert m. induction l as [|b l IH]; simpl; [done|]. intros m.
  fold (max_by key l). destruct (max_by key l) as [m'|] eqn:Hm; intros [= <-].
  - destruct (Z.max_spec (key b) m') as [[_ ->]|[_ ->]]; [|set_solver].
    destruct (IH m') as (a & ? & ?); [done|]. exists a. set_solver.
  - exists b. set_solver.
Qed.
