(* ===== verification/Action.v ===== *)
(** * Effectful drivers

    The code above the store (the harness client, the turn controller) is
    asynchronous Rust whose failures do not undo what was done before them.  An
    action takes a state and returns the state it leaves together with a value or
    an error. *)

From S2P Require Import Prelude.

Definition action (S E A : Type) : Type := S → S * (A + E).

Definition done_with {S E A} (a : A) : action S E A := λ s, (s, inl a).
Definition throw {S E A} (e : E) : action S E A := λ s, (s, inr e).
Definition andthen {S E A B} (m : action S E A) (k : A → action S E B) : action S E B :=
  λ s, match m s with
       | (s', inl a) => k a s'
       | (s', inr e) => (s', inr e)
       end.
(** A fallible function of no state: [f(...)?]. *)
Definition try_ {S E A} (r : A + E) : action S E A := λ s, (s, r).
(** [.map_err(f)] *)
Definition map_err {S E E' A} (f : E → E') (m : action S E A) : action S E' A :=
  λ s, match m s with
       | (s', inl a) => (s', inl a)
       | (s', inr e) => (s', inr (f e))
       end.
(** The result as a value: [match m.await { Ok(..) => .., Err(..) => .. }]. *)
Definition attempt {S E E' A} (m : action S E A) : action S E' (A + E) :=
  λ s, let (s', r) := m s in (s', inl r).
Definition act {S E} (f : S → S) : action S E unit := λ s, (f s, inl tt).
Definition look {S E A} (f : S → A) : action S E A := λ s, (s, inl (f s)).

Notation "'let!' x ':=' m 'in' k" := (andthen m (λ x, k))
  (at level 10, x name, m at level 100, k at level 200) : fleet_scope.
Notation "m ';!' k" := (andthen m (λ _, k))
  (at level 199, k at level 200, right associativity) : fleet_scope.

(** A check of the pure kind: fail with [e] when [b]. *)
Definition reject {E} (b : bool) (e : E) : unit + E := if b then inr e else inl tt.
Definition both {A E} (r : A + E) (k : unit + E) : unit + E :=
  match r with inl _ => k | inr e => inr e end.
Notation "r ';:' k" := (both r k)
  (at level 199, k at level 200, right associativity) : fleet_scope.

Lemma both_ok {A E} (r : A + E) (k : unit + E) u : (r ;: k) = inl u → (∃ a, r = inl a) ∧ k = inl u.
Proof. destruct r; simpl; [eauto|done]. Qed.
Lemma reject_ok {E} b (e : E) u : reject b e = inl u → b = false.
Proof. by destruct b. Qed.

(** ** Reasoning *)

(** [within R m]: whatever [m] returns, the state moves along [R]. *)
Definition within {S E A} (R : S → S → Prop) (m : action S E A) : Prop :=
  ∀ s s' r, m s = (s', r) → R s s'.

Section within.
Context {S : Type} (R : S → S → Prop) {HR : PreOrder R}.

Lemma within_done {E A} (a : A) : within R (done_with a : action S E A).
Proof using HR. intros s s' r [= <- <-]. reflexivity. Qed.
Lemma within_throw {E A} (e : E) : within R (throw e : action S E A).
Proof using HR. intros s s' r [= <- <-]. reflexivity. Qed.
Lemma within_try {E A} (x : A + E) : within R (try_ x : action S E A).
Proof using HR. intros s s' r [= <- <-]. reflexivity. Qed.
Lemma within_look {E A} (f : S → A) : within R (look f : action S E A).
Proof using HR. intros s s' r [= <- <-]. reflexivity. Qed.
Lemma within_andthen {E A B} (m : action S E A) (k : A → action S E B) :
  within R m → (∀ a, within R (k a)) → within R (andthen m k).
Proof using HR.
  intros Hm Hk s s' r H. unfold andthen in H. destruct (m s) as [s1 [a|e]] eqn:Hs.
  - etrans; [by eapply Hm|by eapply Hk].
  - injection H as <- <-. by eapply Hm.
Qed.
Lemma within_map_err {E E' A} (f : E → E') (m : action S E A) :
  within R m → within R (map_err f m).
Proof.
  intros Hm s s' r H. unfold map_err in H. destruct (m s) as [s1 [a|e]] eqn:Hs;
    injection H as <- <-; by eapply Hm.
Qed.
Lemma within_attempt {E E' A} (m : action S E A) :
  within R m → within R (attempt m : action S E' (A + E)).
Proof.
  intros Hm s s' r H. unfold attempt in H. destruct (m s) as [s1 x] eqn:Hs.
  injection H as <- <-. by eapply Hm.
Qed.
End within.

(** [fails_with Q m]: every error of [m] satisfies [Q]. *)
Definition fails_with {S E A} (Q : E → Prop) (m : action S E A) : Prop :=
  ∀ s s' e, m s = (s', inr e) → Q e.

Lemma fails_done {S E A} (Q : E → Prop) (a : A) : fails_with Q (done_with a : action S E A).
Proof. by intros s s' e [=]. Qed.
Lemma fails_look {S E A} (Q : E → Prop) (f : S → A) : fails_with Q (look f : action S E A).
Proof. by intros s s' e [=]. Qed.
Lemma fails_act {S E} (Q : E → Prop) (f : S → S) : fails_with Q (act f : action S E unit).
Proof. by intros s s' e [=]. Qed.
Lemma fails_attempt {S E E' A} (Q : E' → Prop) (m : action S E A) :
  fails_with Q (attempt m : action S E' (A + E)).
Proof. intros s s' e H. unfold attempt in H. by destruct (m s). Qed.
Lemma fails_throw {S E A} (Q : E → Prop) (e : E) : Q e → fails_with Q (throw e : action S E A).
Proof. intros He s s' e' [= _ <-]. done. Qed.
Lemma fails_try {S E A} (Q : E → Prop) (r : A + E) :
  (∀ e, r = inr e → Q e) → fails_with Q (try_ r : action S E A).
Proof. intros He s s' e' [= _ ->]. auto. Qed.
Lemma fails_andthen {S E A B} (Q : E → Prop) (m : action S E A) (k : A → action S E B) :
  fails_with Q m → (∀ a, fails_with Q (k a)) → fails_with Q (andthen m k).
Proof.
  intros Hm Hk s s' e H. unfold andthen in H. destruct (m s) as [s1 [a|e']] eqn:Hs.
  - by eapply Hk.
  - injection H as <- <-. by eapply Hm.
Qed.

(** ** Inversion of runs *)

Lemma andthen_run {S E A B} (m : action S E A) (k : A → action S E B) s s' r :
  andthen m k s = (s', r) →
  (∃ a s1, m s = (s1, inl a) ∧ k a s1 = (s', r)) ∨ (∃ e, m s = (s', inr e) ∧ r = inr e).
Proof.
  unfold andthen. destruct (m s) as [s1 [a|e]]; intros H; [left; eauto|right].
  injection H as <- <-. eauto.
Qed.
Lemma attempt_run {S E E' A} (m : action S E A) s s' (r : (A + E) + E') :
  attempt m s = (s', r) → ∃ x, m s = (s', x) ∧ r = inl x.
Proof. unfold attempt. destruct (m s). intros [= <- <-]. eauto. Qed.
Lemma map_err_run {S E E' A} (f : E → E') (m : action S E A) s s' r :
  map_err f m s = (s', r) →
  (∃ a, m s = (s', inl a) ∧ r = inl a) ∨ (∃ e, m s = (s', inr e) ∧ r = inr (f e)).
Proof. unfold map_err. destruct (m s) as [s1 [a|e]]; intros [= <- <-]; eauto. Qed.

Ltac a_step :=
  match goal with
  | H : (_, _) = (_, _) |- _ => injection H as ? ?; subst
  | H : inl _ = inl _ |- _ => injection H as ?; subst
  | H : inr _ = inr _ |- _ => injection H as ?; subst
  | H : inl _ = inr _ |- _ => discriminate H
  | H : inr _ = inl _ |- _ => discriminate H
  | H : done_with _ _ = _ |- _ => unfold done_with in H
  | H : throw _ _ = _ |- _ => unfold throw in H
  | H : try_ _ _ = _ |- _ => unfold try_ in H
  | H : look _ _ = _ |- _ => unfold look in H
  | H : act _ _ = _ |- _ => unfold act in H
  | H : attempt _ _ = _ |- _ => apply attempt_run in H as (? & ? & ?); subst
  | H : map_err _ _ _ = _ |- _ =>
      apply map_err_run in H as [(? & ? & ?)|(? & ? & ?)]; subst
  | H : andthen _ _ _ = _ |- _ =>
      apply andthen_run in H as [(? & ? & ? & ?)|(? & ? & ?)]; subst
  end.
Ltac a_inv := repeat a_step.
