(* ===== verification/Proto.v ===== *)
(** * Wire and storage vocabulary (crates/proto/src/model.rs, session.rs,
      harness_acp.rs, trigger.rs)

    The enums the durable rows and the wire share, with their stored spelling,
    and the request and response structs of the operations.  The round trip
    between an enum and its stored spelling is stated once, against the class
    [StoredEnum] that every enum of this file implements. *)

From S2P Require Import Prelude.

(** ** Stored enums *)

(** What every stored enum offers: the exact spelling of a variant and the
    list [ALL] its parser searches. *)
Class StoredEnum (A : Type) := {
  as_str : A → string;
  ALL : list A;
  as_str_inj :: Inj (=) (=) as_str;
  ALL_complete : ∀ v : A, v ∈ ALL;
}.

(** [Self::ALL.iter().find(|variant| variant.as_str() == value)] *)
Definition parse {A} `{StoredEnum A} (value : string) : option A :=
  List.find (λ variant, as_str variant ==? value) ALL.

Module DeliveryState.
Inductive t := Pending | Leased | Blocked | Acknowledged | Dead.
#[global] Instance eq_dec : EqDecision t.
Proof. solve_decision. Defined.
Definition spelling (s : t) : string :=
  match s with
  | Pending => "pending" | Leased => "leased" | Blocked => "blocked"
  | Acknowledged => "acknowledged" | Dead => "dead"
  end.
#[global, program] Instance stored : StoredEnum t :=
  { as_str := spelling; ALL := [Pending; Leased; Blocked; Acknowledged; Dead] }.
Next Obligation. intros [] []; by simpl. Qed.
Next Obligation. intros []; set_solver. Qed.
End DeliveryState.

Module InvocationState.
Inductive t := Reserved | DispatchArmed | Terminal.
#[global] Instance eq_dec : EqDecision t.
Proof. solve_decision. Defined.
Definition spelling (s : t) : string :=
  match s with
  | Reserved => "reserved" | DispatchArmed => "dispatch_armed" | Terminal => "terminal"
  end.
#[global, program] Instance stored : StoredEnum t :=
  { as_str := spelling; ALL := [Reserved; DispatchArmed; Terminal] }.
Next Obligation. intros [] []; by simpl. Qed.
Next Obligation. intros []; set_solver. Qed.
End InvocationState.

Module ExecutionCertainty.
Inductive t := NotStarted | OutcomeKnown | OutcomeUnknown.
#[global] Instance eq_dec : EqDecision t.
Proof. solve_decision. Defined.
Definition spelling (s : t) : string :=
  match s with
  | NotStarted => "not_started" | OutcomeKnown => "outcome_known"
  | OutcomeUnknown => "outcome_unknown"
  end.
#[global, program] Instance stored : StoredEnum t :=
  { as_str := spelling; ALL := [NotStarted; OutcomeKnown; OutcomeUnknown] }.
Next Obligation. intros [] []; by simpl. Qed.
Next Obligation. intros []; set_solver. Qed.
End ExecutionCertainty.

Module ConversationKind.
Inductive t := Shared | Direct.
#[global] Instance eq_dec : EqDecision t.
Proof. solve_decision. Defined.
Definition spelling (s : t) : string :=
  match s with
  | Shared => "shared"
  | Direct => "direct"
  end.
#[global, program] Instance stored : StoredEnum t :=
  { as_str := spelling; ALL := [Shared; Direct] }.
Next Obligation. intros [] []; by simpl. Qed.
Next Obligation. intros []; set_solver. Qed.
End ConversationKind.

Module MembershipDeliveryMode.
Inductive t := Inbox | StreamOnly.
#[global] Instance eq_dec : EqDecision t.
Proof. solve_decision. Defined.
Definition spelling (s : t) : string :=
  match s with
  | Inbox => "inbox"
  | StreamOnly => "stream_only"
  end.
#[global, program] Instance stored : StoredEnum t :=
  { as_str := spelling; ALL := [Inbox; StreamOnly] }.
Next Obligation. intros [] []; by simpl. Qed.
Next Obligation. intros []; set_solver. Qed.
End MembershipDeliveryMode.

Module SessionBindingState.
Inductive t := Opening | Ready | Active | Uncertain | Retired.
#[global] Instance eq_dec : EqDecision t.
Proof. solve_decision. Defined.
Definition spelling (s : t) : string :=
  match s with
  | Opening => "opening"
  | Ready => "ready"
  | Active => "active"
  | Uncertain => "uncertain"
  | Retired => "retired"
  end.
#[global, program] Instance stored : StoredEnum t :=
  { as_str := spelling; ALL := [Opening; Ready; Active; Uncertain; Retired] }.
Next Obligation. intros [] []; by simpl. Qed.
Next Obligation. intros []; set_solver. Qed.
End SessionBindingState.

Module SessionPersistence.
Inductive t := Confirmed | RuntimeClaimed | Unknown.
#[global] Instance eq_dec : EqDecision t.
Proof. solve_decision. Defined.
Definition spelling (s : t) : string :=
  match s with
  | Confirmed => "confirmed"
  | RuntimeClaimed => "runtime_claimed"
  | Unknown => "unknown"
  end.
#[global, program] Instance stored : StoredEnum t :=
  { as_str := spelling; ALL := [Confirmed; RuntimeClaimed; Unknown] }.
Next Obligation. intros [] []; by simpl. Qed.
Next Obligation. intros []; set_solver. Qed.
End SessionPersistence.

Module TriggerState.
Inductive t := Active | Retired.
#[global] Instance eq_dec : EqDecision t.
Proof. solve_decision. Defined.
Definition spelling (s : t) : string :=
  match s with
  | Active => "active"
  | Retired => "retired"
  end.
#[global, program] Instance stored : StoredEnum t :=
  { as_str := spelling; ALL := [Active; Retired] }.
Next Obligation. intros [] []; by simpl. Qed.
Next Obligation. intros []; set_solver. Qed.
End TriggerState.

Module AgentSeatDesiredState.
Inductive t := Running | Stopped.
#[global] Instance eq_dec : EqDecision t.
Proof. solve_decision. Defined.
Definition spelling (s : t) : string :=
  match s with
  | Running => "running"
  | Stopped => "stopped"
  end.
#[global, program] Instance stored : StoredEnum t :=
  { as_str := spelling; ALL := [Running; Stopped] }.
Next Obligation. intros [] []; by simpl. Qed.
Next Obligation. intros []; set_solver. Qed.
End AgentSeatDesiredState.

Module PluginGenerationDisposition.
Inductive t := Stopped | Restart | Fatal.
#[global] Instance eq_dec : EqDecision t.
Proof. solve_decision. Defined.
Definition spelling (s : t) : string :=
  match s with Stopped => "stopped" | Restart => "restart" | Fatal => "fatal" end.
#[global, program] Instance stored : StoredEnum t :=
  { as_str := spelling; ALL := [Stopped; Restart; Fatal] }.
Next Obligation. intros [] []; by simpl. Qed.
Next Obligation. intros []; set_solver. Qed.
End PluginGenerationDisposition.

Module PluginShutdownOutcome.
Inductive t := Graceful | Forced | Failed.
#[global] Instance eq_dec : EqDecision t.
Proof. solve_decision. Defined.
Definition spelling (s : t) : string :=
  match s with Graceful => "graceful" | Forced => "forced" | Failed => "failed" end.
#[global, program] Instance stored : StoredEnum t :=
  { as_str := spelling; ALL := [Graceful; Forced; Failed] }.
Next Obligation. intros [] []; by simpl. Qed.
Next Obligation. intros []; set_solver. Qed.
End PluginShutdownOutcome.

(** A stored spelling reads back as the variant that was written. *)
Lemma parse_as_str {A} `{StoredEnum A} (v : A) : parse (as_str v) = Some v.
Proof.
  unfold parse. destruct (List.find _ ALL) as [w|] eqn:Hfind.
  - apply find_some in Hfind as [_ Hw%bool_decide_eq_true]. f_equal. by apply as_str_inj.
  - eapply find_none in Hfind as Hv; [|by apply list_elem_of_In, ALL_complete].
    by rewrite bool_decide_eq_false in Hv.
Qed.

(** ** JSON

    [serde_json] and SQLite's [json_each] are not part of the repository: their
    types and functions are parameters of the model.  [Value] is
    [serde_json::Value]; [strings_to_json] is [to_string] at [Vec<String>] and
    [BTreeSet<String>]; [interfaces_to_json] is [to_string] at
    [Vec<PluginInterface>], an interface being its id and the text of its
    semantic version. *)
Class SerdeJson := {
  Value : Type;
  Value_eq_dec :: EqDecision Value;
  json_null : Value;
  empty_object : Value;
  to_json : Value → option string;
  from_json : string → option Value;
  strings_to_json : list string → option string;
  strings_from_json : string → option (list string);
  interfaces_to_json : list (string * string) → option string;
  interfaces_from_json : string → option (list (string * string));
  json_each : string → list string;
}.

(** The value reads back as itself.  serde_json documents this of null, booleans,
    strings, integers, and of arrays and objects of such values; without its feature
    [float_roundtrip], which the workspace does not enable, a floating-point number
    may read back as a neighbour. *)
Definition reparses `{SerdeJson} (v : Value) : Prop :=
  ∀ s, to_json v = Some s → from_json s = Some v.

(** What the source relies on: an encoded value parses (a [Value] is one that was
    parsed or built within the nesting limit of the parser), a list of strings or of
    interfaces and the empty object read back as themselves, and SQLite reads the
    members of an encoded array of strings. *)
Class SerdeJsonLaws (J : SerdeJson) := {
  encoded_parses : ∀ v s, to_json v = Some s → ∃ v', from_json s = Some v';
  empty_object_reparses : reparses empty_object;
  strings_from_to_json : ∀ l s, strings_to_json l = Some s → strings_from_json s = Some l;
  interfaces_from_to_json :
    ∀ l s, interfaces_to_json l = Some s → interfaces_from_json s = Some l;
  json_each_to_json : ∀ l s, strings_to_json l = Some s → json_each s = l;
}.

(** What the source uses of [serde_json::Value] as a tree: the [json!] builders
    of strings, booleans, numbers, null, arrays and objects, [Value::get],
    [Value::as_str], and [as_object_mut().insert], which is [None] where the
    value is not an object. *)
Class JsonTree `{J : SerdeJson} := {
  json_string : string → Value;
  json_bool : bool → Value;
  json_number : Z → Value;
  json_array : list Value → Value;
  json_object : list (string * Value) → Value;
  json_get : string → Value → option Value;
  json_as_str : Value → option string;
  json_insert : string → Value → Value → option Value;
}.
(** The first value of a key. *)
Fixpoint field {A} (k : string) (l : list (string * A)) : option A :=
  match l with
  | [] => None
  | (k', v) :: l => if k ==? k' then Some v else field k l
  end.
(** Objects built from distinct keys read back; an insertion into one replaces
    its key and keeps the others; strings read back as strings. *)
Class JsonTreeLaws `{JT : JsonTree} := {
  as_str_string : ∀ s, json_as_str (json_string s) = Some s;
  get_object : ∀ l k, NoDup (map fst l) → json_get k (json_object l) = field k l;
  insert_object : ∀ l k v, NoDup (map fst l) → field k l = None →
    json_insert k v (json_object l) = Some (json_object (l ++ [(k, v)]));
}.

(** ** Structs of model.rs *)

Record Agent `{SerdeJson} := {
  agent_id : string; agent_name : string; agent_metadata : Value; agent_created_at_ms : Z }.
Record CreateAgent `{SerdeJson} := { ca_name : string; ca_metadata : Value }.

Record Channel `{SerdeJson} := {
  channel_id : string;
  channel_name : string;
  channel_kind : ConversationKind.t;
  channel_metadata : Value;
  channel_created_at_ms : Z;
  channel_archived_at_ms : option Z;
}.
Record CreateChannelMember := {
  ccm_agent_id : string; ccm_delivery_mode : MembershipDeliveryMode.t }.
Record CreateChannel `{SerdeJson} := {
  cc_name : string;
  cc_metadata : Value;
  cc_member_ids : list string;
  cc_members : list CreateChannelMember;
}.
Record ChannelMember := {
  member_channel_id : string;
  member_agent_id : string;
  member_agent_name : string;
  member_joined_at_ms : Z;
  member_delivery_mode : MembershipDeliveryMode.t;
}.

Record Message `{SerdeJson} := {
  msg_seq : Z;
  msg_id : string;
  msg_channel_id : string;
  msg_sender_id : string;
  msg_recipient_id : option string;
  msg_kind : string;
  msg_payload : Value;
  msg_correlation_id : option string;
  msg_causation_id : option string;
  msg_created_at_ms : Z;
}.
Record CreateMessage `{SerdeJson} := {
  cm_sender_id : string;
  cm_idempotency_key : option string;
  cm_recipient_id : option string;
  cm_kind : string;
  cm_payload : Value;
  cm_correlation_id : option string;
  cm_causation_id : option string;
}.
Record MessagePage `{SerdeJson} := { page_messages : list Message; page_next_cursor : Z }.

Record ClaimDeliveries := { claim_limit : Z; claim_lease_duration_ms : Z }.
Record Delivery `{SerdeJson} := {
  delivery_message : Message;
  delivery_attempt : Z;
  delivery_lease_expires_at_ms : Z;
  delivery_last_error : option string;
}.
Record ClaimBatch `{SerdeJson} := {
  batch_lease_token : string;
  batch_lease_expires_at_ms : Z;
  batch_deliveries : list Delivery;
}.
Record RetryDelivery := {
  retry_lease_token : string; retry_after_ms : Z; retry_error : option string }.
Record BlockDelivery := { block_lease_token : string; block_reason : string }.
Record BlockedDelivery `{SerdeJson} := {
  blocked_block_id : Z;
  blocked_agent_id : string;
  blocked_message : Message;
  blocked_attempt : Z;
  blocked_reason : string;
  blocked_at_ms : Z;
}.
Inductive BlockResolution := Requeue | Abandon.
#[global] Instance BlockResolution_eq_dec : EqDecision BlockResolution.
Proof. solve_decision. Defined.
Record ResolveDeliveryBlock := {
  rdb_resolution : BlockResolution; rdb_retry_after_ms : Z; rdb_note : option string }.
Record DeliveryRecord `{SerdeJson} := {
  dr_agent_id : string;
  dr_message : Message;
  dr_state : DeliveryState.t;
  dr_attempt : Z;
  dr_available_at_ms : Z;
  dr_lease_expires_at_ms : option Z;
  dr_lease_expired : bool;
  dr_last_error : option string;
  dr_created_at_ms : Z;
  dr_acknowledged_at_ms : option Z;
  dr_unresolved_block_id : option Z;
}.

Record Invocation `{SerdeJson} := {
  inv_id : string;
  inv_agent_id : string;
  inv_message : Message;
  inv_delivery_attempt : Z;
  inv_lease_token : string;
  inv_lease_expires_at_ms : Z;
  inv_fence_token : string;
  inv_state : InvocationState.t;
  inv_reserved_at_ms : Z;
  inv_dispatch_armed_at_ms : option Z;
  inv_terminal_at_ms : option Z;
  inv_execution_certainty : option ExecutionCertainty.t;
  inv_terminal_reason : option string;
  inv_result_message_id : option string;
}.
Record ArmInvocation := { arm_lease_token : string; arm_fence_token : string }.
Record CompleteInvocation `{SerdeJson} := {
  complete_lease_token : string;
  complete_fence_token : string;
  complete_kind : string;
  complete_payload : Value;
}.
Record InvocationCompletion `{SerdeJson} := {
  completion_invocation : Invocation; completion_result : Message }.

(** ** Structs of session.rs and harness_acp.rs *)

Record Binding := {
  binding_id : string; binding_generation : Z; owner_epoch : Z }.
Record AcquireSessionBinding := {
  acq_lane_policy : string;
  acq_lane_key : string;
  acq_owner_instance_id : string;
  acq_profile_digest : string;
  acq_compatibility_digest : string;
  acq_working_directory : string;
  acq_additional_directories : list string;
}.
Inductive SessionAcquisitionMode := Create | Resume (session_ref : string).
Record SessionBinding := {
  sb_binding : Binding;
  sb_agent_id : string;
  sb_lane_policy : string;
  sb_lane_key : string;
  sb_owner_instance_id : string;
  sb_profile_digest : string;
  sb_compatibility_digest : string;
  sb_working_directory : string;
  sb_additional_directories : list string;
  sb_session_ref : option string;
  sb_state : SessionBindingState.t;
  sb_active_invocation_id : option string;
  sb_last_quiescent_invocation_id : option string;
  sb_session_persistence : option SessionPersistence.t;
  sb_uncertain_reason : option string;
  sb_retired_reason : option string;
  sb_created_at_ms : Z;
  sb_updated_at_ms : Z;
  sb_opened_at_ms : option Z;
  sb_retired_at_ms : option Z;
}.
Record SessionAcquisition := { sa_session : SessionBinding; sa_mode : SessionAcquisitionMode }.

(** ** Structs of trigger.rs *)

Record RegisterTrigger := {
  rt_name : string;
  rt_channel_id : string;
  rt_sender_id : string;
  rt_accepted_kinds : list string;
}.
Record Trigger := {
  trg_id : string;
  trg_name : string;
  trg_channel_id : string;
  trg_sender_id : string;
  trg_accepted_kinds : list string;
  trg_state : TriggerState.t;
  trg_created_at_ms : Z;
  trg_updated_at_ms : Z;
  trg_last_occurrence_id : option string;
  trg_last_fired_at_ms : option Z;
  trg_accepted_occurrences : Z;
  trg_retired_at_ms : option Z;
  trg_retired_reason : option string;
}.
Record TriggerOccurrence `{SerdeJson} := {
  occurrence_id : string;
  occurrence_recipient_id : string;
  occurrence_kind : string;
  occurrence_payload : Value;
}.
Record TriggerFired := {
  fired_trigger_id : string;
  fired_occurrence_id : string;
  fired_message_id : string;
  fired_created : bool;
}.

(** ** Credentials (model.rs, trigger.rs) *)

Record IssuedCredential := {
  issued_id : string; issued_token : string; issued_created_at_ms : Z }.
Record RegisteredAgent `{SerdeJson} := {
  registered_agent : Agent; registered_agent_credential : IssuedCredential }.
Record RegisteredTrigger := {
  registered_trigger : Trigger; registered_trigger_credential : IssuedCredential }.

(** ** Agent seats (operations.rs) *)

Record ConfigureAgentSeat := {
  cas_profile_id : string;
  cas_instructions : string;
  cas_desired_state : AgentSeatDesiredState.t;
}.
Record AgentSeatConfiguration := {
  asc_agent_id : string;
  asc_profile_id : string;
  asc_instructions : string;
  asc_desired_state : AgentSeatDesiredState.t;
  asc_revision : Z;
  asc_created_at_ms : Z;
  asc_updated_at_ms : Z;
}.

(** ** Frames of the harness interface (harness_acp.rs) *)

Record ExecutionFence := {
  fence_binding_id : string;
  fence_binding_generation : Z;
  fence_owner_epoch : Z;
  fence_invocation_id : string;
  fence_fence_token : string;
}.
#[global] Instance ExecutionFence_eq_dec : EqDecision ExecutionFence.
Proof. solve_decision. Defined.

Record TurnSource := {
  ts_agent_id : string;
  ts_message_id : string;
  ts_channel_id : string;
  ts_sender_id : string;
  ts_correlation_id : option string;
  ts_causation_id : option string;
}.
(** [PromptBlock::Text { text }], its only variant. *)
Inductive PromptBlock := PromptText (text : string).
Record ToolBudget := { tb_limit : Z; tb_required_enforcement : string }.
Record TurnPolicy := {
  tp_idle_timeout_ms : Z;
  tp_wall_timeout_ms : Z;
  tp_cancel_drain_timeout_ms : Z;
  tp_max_captured_output_bytes : Z;
  tp_permission_policy : string;
  tp_tool_budget : ToolBudget;
  tp_token_budget : option Z;
}.
Record StartTurn := {
  st_fence : ExecutionFence;
  st_session_ref : string;
  st_source : TurnSource;
  st_prompt : list PromptBlock;
  st_policy : TurnPolicy;
}.
Record EffectiveEnforcement := {
  ee_wall_timeout : string;
  ee_idle_timeout : string;
  ee_cancel_drain_timeout : string;
  ee_captured_output_bytes : string;
  ee_tool_budget : string;
  ee_token_budget : string;
}.
Record StartTurnResult := {
  str_accepted : bool; str_effective_enforcement : EffectiveEnforcement }.

Inductive PermissionOutcome := Selected (option_id : string) | Cancelled.
Record PermissionResolution := {
  pr_fence : ExecutionFence; pr_permission_id : string; pr_outcome : PermissionOutcome }.
Record CancelTurn := { ct_fence : ExecutionFence; ct_reason : string }.

Inductive HarnessExecutionCertainty := NotStarted | OutcomeKnown | OutcomeUnknown.
#[global] Instance HarnessExecutionCertainty_eq_dec : EqDecision HarnessExecutionCertainty.
Proof. solve_decision. Defined.
(** [impl From<HarnessExecutionCertainty> for ExecutionCertainty] *)
Definition certainty_from (value : HarnessExecutionCertainty) : ExecutionCertainty.t :=
  match value with
  | NotStarted => ExecutionCertainty.NotStarted
  | OutcomeKnown => ExecutionCertainty.OutcomeKnown
  | OutcomeUnknown => ExecutionCertainty.OutcomeUnknown
  end.

Record TurnEvent `{SerdeJson} := {
  te_fence : ExecutionFence;
  te_event_seq : Z;
  te_observed_at_ms : Z;
  te_classification : string;
  te_raw_update : Value;
}.
Record PermissionRequested `{SerdeJson} := {
  pq_fence : ExecutionFence;
  pq_permission_id : string;
  pq_event_seq : Z;
  pq_tool_call : Value;
  pq_options : list Value;
  pq_expires_at_ms : Z;
}.
Record AssistantMessage `{SerdeJson} := {
  am_message_id : option string;
  am_content : list Value;
  am_complete : bool;
  am_first_event_seq : Z;
  am_last_event_seq : Z;
}.
Record TurnTerminal `{SerdeJson} := {
  tt_fence : ExecutionFence;
  tt_last_event_seq : Z;
  tt_stop_reason : string;
  tt_runtime_stop_reason : option string;
  tt_execution_certainty : HarnessExecutionCertainty;
  tt_session_quiescent : bool;
  tt_session_persistence : SessionPersistence.t;
  tt_assistant_messages : list AssistantMessage;
  tt_usage : Value;
  tt_raw_prompt_response : Value;
}.
(** [terminal.fence.invocation_id] *)
Definition tt_invocation_id `{SerdeJson} (terminal : TurnTerminal) : string :=
  fence_invocation_id (tt_fence terminal).
Record TranscriptEntry `{SerdeJson} := {
  tre_session_ref : string;
  tre_entry_seq : Z;
  tre_observed_at_ms : Z;
  tre_classification : string;
  tre_raw_update : Value;
}.
Record TranscriptComplete := {
  trc_session_ref : string;
  trc_entry_count : Z;
  trc_observed_payload_bytes : Z;
  trc_truncated : bool;
  trc_failure : option string;
}.
Inductive HarnessAcpNotification `{SerdeJson} :=
| NTurnEvent (event : TurnEvent)
| NPermissionRequested (request : PermissionRequested)
| NTurnTerminal (terminal : TurnTerminal)
| NTranscriptEntry (entry : TranscriptEntry)
| NTranscriptComplete (complete : TranscriptComplete).
