(* ===== verification/Schema.v ===== *)
(** * Durable state (crates/kernel/migrations, crates/kernel/src/store/mod.rs)

    One record per table of the schema the migrations build, the CHECK,
    UNIQUE, FOREIGN KEY and trigger constraints SQLite enforces on it, and the
    statements the source runs against it: [select], [insert] and [update] in a
    state-and-error monad.  A transaction that fails leaves the database as it
    was: [M A] is [Db → result (A * Db)] and an error carries no state. *)

From S2P Require Import Prelude Proto.

(** ** Rows *)

Record AgentRow := {
  a_id : string; a_name : string; a_metadata_json : string; a_created_at_ms : Z }.

Record ChannelRow := {
  c_id : string;
  c_name : string;
  c_metadata_json : string;
  c_created_at_ms : Z;
  c_conversation_kind : ConversationKind.t;
  c_direct_pair_key : option string;
  c_archived_at_ms : option Z;
}.

Record MemberRow := {
  cm_channel_id : string;
  cm_agent_id : string;
  cm_joined_at_ms : Z;
  cm_delivery_mode : MembershipDeliveryMode.t;
  cm_read_through_seq : Z;
}.

Record MessageRow := {
  m_seq : Z;
  m_id : string;
  m_channel_id : string;
  m_sender_id : string;
  m_recipient_id : option string;
  m_kind : string;
  m_payload_json : string;
  m_correlation_id : option string;
  m_causation_id : option string;
  m_created_at_ms : Z;
  m_idempotency_key : option string;
}.

Record DeliveryRow := {
  d_message_seq : Z;
  d_agent_id : string;
  d_state : DeliveryState.t;
  d_attempt : Z;
  d_available_at_ms : Z;
  d_lease_token : option string;
  d_lease_expires_at_ms : option Z;
  d_last_error : option string;
  d_last_settled_lease_token : option string;
  d_last_settlement : option string;
  d_acknowledged_at_ms : option Z;
  d_created_at_ms : Z;
}.

Record BlockRow := {
  b_id : Z;
  b_message_seq : Z;
  b_agent_id : string;
  b_attempt : Z;
  b_lease_token : string;
  b_reason : string;
  b_blocked_at_ms : Z;
  b_resolved_at_ms : option Z;
  b_resolution : option string;
  b_resolution_note : option string;
  b_retry_after_ms : option Z;
}.

Record InvocationRow := {
  i_id : string;
  i_message_seq : Z;
  i_agent_id : string;
  i_delivery_attempt : Z;
  i_lease_token : string;
  i_lease_expires_at_ms : Z;
  i_fence_token : string;
  i_state : InvocationState.t;
  i_reserved_at_ms : Z;
  i_dispatch_armed_at_ms : option Z;
  i_terminal_at_ms : option Z;
  i_execution_certainty : option ExecutionCertainty.t;
  i_terminal_reason : option string;
  i_result_message_seq : option Z;
}.

Record BindingRow := {
  s_binding_id : string;
  s_binding_generation : Z;
  s_agent_id : string;
  s_lane_policy : string;
  s_lane_key : string;
  s_owner_epoch : Z;
  s_owner_instance_id : string;
  s_profile_digest : string;
  s_compatibility_digest : string;
  s_working_directory : string;
  s_additional_directories_json : string;
  s_session_ref : option string;
  s_state : SessionBindingState.t;
  s_active_invocation_id : option string;
  s_last_quiescent_invocation_id : option string;
  s_session_persistence : option SessionPersistence.t;
  s_uncertain_reason : option string;
  s_retired_reason : option string;
  s_created_at_ms : Z;
  s_updated_at_ms : Z;
  s_opened_at_ms : option Z;
  s_retired_at_ms : option Z;
}.

Module TurnState.
Inductive t := Active | Quiescent | Uncertain.
#[global] Instance eq_dec : EqDecision t.
Proof. solve_decision. Defined.
End TurnState.

Record TurnRow := {
  t_invocation_id : string;
  t_binding_id : string;
  t_binding_generation : Z;
  t_owner_epoch : Z;
  t_state : TurnState.t;
  t_started_at_ms : Z;
  t_terminal_at_ms : option Z;
  t_session_persistence : option SessionPersistence.t;
  t_uncertain_reason : option string;
}.

(** [plugin_generations]: the identity columns, written once when a generation
    is recorded, and the columns its lifecycle moves. *)
Module GenerationState.
Inductive t := Active | Stopped.
#[global] Instance eq_dec : EqDecision t.
Proof. solve_decision. Defined.
End GenerationState.

Record GenerationEvidence := {
  ge_plugin_id : string;
  ge_plugin_name : string;
  ge_plugin_version : string;
  ge_interfaces_json : string;
  ge_process_id : option Z;
  ge_driver_version : string;
  ge_acp_sdk_version : string;
  ge_acp_protocol_version : Z;
  ge_runtime_name : string;
  ge_runtime_version : string;
  ge_runtime_executable_digest : string;
  ge_agent_capabilities_json : string;
  ge_max_concurrent_turns : Z;
  ge_max_frame_bytes : Z;
  ge_profile_digest : string;
  ge_compatibility_digest : string;
  ge_raw_initialize_result_json : string;
}.

Record GenerationRow := {
  g_id : string;
  g_agent_id : string;
  g_evidence : GenerationEvidence;
  g_heartbeat_interval_ms : Z;
  g_state : GenerationState.t;
  g_started_at_ms : Z;
  g_last_heartbeat_at_ms : Z;
  g_stopped_at_ms : option Z;
  g_stop_disposition : option PluginGenerationDisposition.t;
  g_stop_reason : option string;
  g_shutdown_outcome : option PluginShutdownOutcome.t;
  g_shutdown_exit_code : option Z;
}.

Record EventCounts := {
  ec_prompt : Z; ec_assistant : Z; ec_reasoning : Z; ec_tool : Z; ec_plan : Z;
  ec_usage : Z; ec_metadata : Z; ec_permission : Z; ec_unknown : Z }.

Record ObservationRow := {
  o_invocation_id : string;
  o_generation_id : string;
  o_binding_id : string;
  o_binding_generation : Z;
  o_owner_epoch : Z;
  o_started_at_ms : Z;
  o_updated_at_ms : Z;
  o_first_event_at_ms : option Z;
  o_last_event_at_ms : option Z;
  o_event_count : Z;
  o_observed_payload_bytes : Z;
  o_last_event_seq : Z;
  o_last_event_digest : option string;
  o_event_chain_digest : option string;
  o_counts : EventCounts;
  o_terminal_at_ms : option Z;
  o_stop_reason : option string;
  o_runtime_stop_reason : option string;
  o_execution_certainty : option ExecutionCertainty.t;
  o_session_quiescent : option bool;
  o_session_persistence : option SessionPersistence.t;
  o_usage_json : option string;
}.

Record TriggerRow := {
  tr_id : string;
  tr_name : string;
  tr_channel_id : string;
  tr_sender_id : string;
  tr_accepted_kinds_json : string;
  tr_state : TriggerState.t;
  tr_created_at_ms : Z;
  tr_updated_at_ms : Z;
  tr_last_occurrence_id : option string;
  tr_last_fired_at_ms : option Z;
  tr_accepted_occurrences : Z;
  tr_retired_at_ms : option Z;
  tr_retired_reason : option string;
}.

Module PrincipalKind.
Inductive t := Operator | Agent | Trigger.
#[global] Instance eq_dec : EqDecision t.
Proof. solve_decision. Defined.
End PrincipalKind.

Record CredentialRow := {
  cr_id : string;
  cr_principal_kind : PrincipalKind.t;
  cr_agent_id : option string;
  cr_trigger_id : option string;
  cr_token_digest : string;
  cr_created_at_ms : Z;
  cr_revoked_at_ms : option Z;
}.

Record SeatRow := {
  sc_agent_id : string;
  sc_profile_id : string;
  sc_instructions : string;
  sc_desired_state : AgentSeatDesiredState.t;
  sc_revision : Z;
  sc_created_at_ms : Z;
  sc_updated_at_ms : Z;
}.

(** ** The database

    Tables are lists in rowid order.  [messages_autoinc] and [blocks_autoinc]
    are the [sqlite_sequence] entries of the two AUTOINCREMENT keys. *)
Record Db := mkDb {
  agents : list AgentRow;
  channels : list ChannelRow;
  channel_members : list MemberRow;
  messages : list MessageRow;
  agent_deliveries : list DeliveryRow;
  delivery_blocks : list BlockRow;
  invocations : list InvocationRow;
  session_bindings : list BindingRow;
  session_binding_turns : list TurnRow;
  plugin_generations : list GenerationRow;
  invocation_observations : list ObservationRow;
  triggers : list TriggerRow;
  auth_credentials : list CredentialRow;
  agent_seat_configurations : list SeatRow;
  messages_autoinc : Z;
  blocks_autoinc : Z;
}.

Definition empty_db : Db := mkDb [] [] [] [] [] [] [] [] [] [] [] [] [] [] 0 0.

Definition set_agents (v : list AgentRow) (db : Db) : Db :=
  mkDb v db.(channels) db.(channel_members) db.(messages) db.(agent_deliveries)
    db.(delivery_blocks) db.(invocations) db.(session_bindings) db.(session_binding_turns)
    db.(plugin_generations) db.(invocation_observations) db.(triggers) db.(auth_credentials)
    db.(agent_seat_configurations) db.(messages_autoinc) db.(blocks_autoinc).
Definition set_channels (v : list ChannelRow) (db : Db) : Db :=
  mkDb db.(agents) v db.(channel_members) db.(messages) db.(agent_deliveries)
    db.(delivery_blocks) db.(invocations) db.(session_bindings) db.(session_binding_turns)
    db.(plugin_generations) db.(invocation_observations) db.(triggers) db.(auth_credentials)
    db.(agent_seat_configurations) db.(messages_autoinc) db.(blocks_autoinc).
Definition set_channel_members (v : list MemberRow) (db : Db) : Db :=
  mkDb db.(agents) db.(channels) v db.(messages) db.(agent_deliveries) db.(delivery_blocks)
    db.(invocations) db.(session_bindings) db.(session_binding_turns)
    db.(plugin_generations) db.(invocation_observations) db.(triggers) db.(auth_credentials)
    db.(agent_seat_configurations) db.(messages_autoinc) db.(blocks_autoinc).
Definition set_messages (v : list MessageRow) (db : Db) : Db :=
  mkDb db.(agents) db.(channels) db.(channel_members) v db.(agent_deliveries)
    db.(delivery_blocks) db.(invocations) db.(session_bindings) db.(session_binding_turns)
    db.(plugin_generations) db.(invocation_observations) db.(triggers) db.(auth_credentials)
    db.(agent_seat_configurations) db.(messages_autoinc) db.(blocks_autoinc).
Definition set_agent_deliveries (v : list DeliveryRow) (db : Db) : Db :=
  mkDb db.(agents) db.(channels) db.(channel_members) db.(messages) v db.(delivery_blocks)
    db.(invocations) db.(session_bindings) db.(session_binding_turns)
    db.(plugin_generations) db.(invocation_observations) db.(triggers) db.(auth_credentials)
    db.(agent_seat_configurations) db.(messages_autoinc) db.(blocks_autoinc).
Definition set_delivery_blocks (v : list BlockRow) (db : Db) : Db :=
  mkDb db.(agents) db.(channels) db.(channel_members) db.(messages) db.(agent_deliveries) v
    db.(invocations) db.(session_bindings) db.(session_binding_turns)
    db.(plugin_generations) db.(invocation_observations) db.(triggers) db.(auth_credentials)
    db.(agent_seat_configurations) db.(messages_autoinc) db.(blocks_autoinc).
Definition set_invocations (v : list InvocationRow) (db : Db) : Db :=
  mkDb db.(agents) db.(channels) db.(channel_members) db.(messages) db.(agent_deliveries)
    db.(delivery_blocks) v db.(session_bindings) db.(session_binding_turns)
    db.(plugin_generations) db.(invocation_observations) db.(triggers) db.(auth_credentials)
    db.(agent_seat_configurations) db.(messages_autoinc) db.(blocks_autoinc).
Definition set_session_bindings (v : list BindingRow) (db : Db) : Db :=
  mkDb db.(agents) db.(channels) db.(channel_members) db.(messages) db.(agent_deliveries)
    db.(delivery_blocks) db.(invocations) v db.(session_binding_turns)
    db.(plugin_generations) db.(invocation_observations) db.(triggers) db.(auth_credentials)
    db.(agent_seat_configurations) db.(messages_autoinc) db.(blocks_autoinc).
Definition set_session_binding_turns (v : list TurnRow) (db : Db) : Db :=
  mkDb db.(agents) db.(channels) db.(channel_members) db.(messages) db.(agent_deliveries)
    db.(delivery_blocks) db.(invocations) db.(session_bindings) v db.(plugin_generations)
    db.(invocation_observations) db.(triggers) db.(auth_credentials)
    db.(agent_seat_configurations) db.(messages_autoinc) db.(blocks_autoinc).
Definition set_plugin_generations (v : list GenerationRow) (db : Db) : Db :=
  mkDb db.(agents) db.(channels) db.(channel_members) db.(messages) db.(agent_deliveries)
    db.(delivery_blocks) db.(invocations) db.(session_bindings) db.(session_binding_turns) v
    db.(invocation_observations) db.(triggers) db.(auth_credentials)
    db.(agent_seat_configurations) db.(messages_autoinc) db.(blocks_autoinc).
Definition set_invocation_observations (v : list ObservationRow) (db : Db) : Db :=
  mkDb db.(agents) db.(channels) db.(channel_members) db.(messages) db.(agent_deliveries)
    db.(delivery_blocks) db.(invocations) db.(session_bindings) db.(session_binding_turns)
    db.(plugin_generations) v db.(triggers) db.(auth_credentials)
    db.(agent_seat_configurations) db.(messages_autoinc) db.(blocks_autoinc).
Definition set_triggers (v : list TriggerRow) (db : Db) : Db :=
  mkDb db.(agents) db.(channels) db.(channel_members) db.(messages) db.(agent_deliveries)
    db.(delivery_blocks) db.(invocations) db.(session_bindings) db.(session_binding_turns)
    db.(plugin_generations) db.(invocation_observations) v db.(auth_credentials)
    db.(agent_seat_configurations) db.(messages_autoinc) db.(blocks_autoinc).
Definition set_auth_credentials (v : list CredentialRow) (db : Db) : Db :=
  mkDb db.(agents) db.(channels) db.(channel_members) db.(messages) db.(agent_deliveries)
    db.(delivery_blocks) db.(invocations) db.(session_bindings) db.(session_binding_turns)
    db.(plugin_generations) db.(invocation_observations) db.(triggers) v
    db.(agent_seat_configurations) db.(messages_autoinc) db.(blocks_autoinc).
Definition set_agent_seat_configurations (v : list SeatRow) (db : Db) : Db :=
  mkDb db.(agents) db.(channels) db.(channel_members) db.(messages) db.(agent_deliveries)
    db.(delivery_blocks) db.(invocations) db.(session_bindings) db.(session_binding_turns)
    db.(plugin_generations) db.(invocation_observations) db.(triggers) db.(auth_credentials)
    v db.(messages_autoinc) db.(blocks_autoinc).
Definition set_messages_autoinc (v : Z) (db : Db) : Db :=
  mkDb db.(agents) db.(channels) db.(channel_members) db.(messages) db.(agent_deliveries)
    db.(delivery_blocks) db.(invocations) db.(session_bindings) db.(session_binding_turns)
    db.(plugin_generations) db.(invocation_observations) db.(triggers) db.(auth_credentials)
    db.(agent_seat_configurations) v db.(blocks_autoinc).
Definition set_blocks_autoinc (v : Z) (db : Db) : Db :=
  mkDb db.(agents) db.(channels) db.(channel_members) db.(messages) db.(agent_deliveries)
    db.(delivery_blocks) db.(invocations) db.(session_bindings) db.(session_binding_turns)
    db.(plugin_generations) db.(invocation_observations) db.(triggers) db.(auth_credentials)
    db.(agent_seat_configurations) db.(messages_autoinc) v.

(** ** CHECK constraints

    An SQL CHECK passes when its expression is true or NULL; the functions
    below are that reading of each table's constraints. *)

Definition is_some {A} (o : option A) : bool := match o with Some _ => true | None => false end.
Definition is_none {A} (o : option A) : bool := negb (is_some o).

Definition check_delivery (d : DeliveryRow) : bool :=
  (0 <=? d_attempt d)
  && match d_last_settlement d with
     | None => true
     | Some v => (v ==? "acknowledged") || (v ==? "retry") || (v ==? "blocked")
     end
  && (if d_state d ==? DeliveryState.Leased
      then is_some (d_lease_token d) && is_some (d_lease_expires_at_ms d)
      else is_none (d_lease_token d) && is_none (d_lease_expires_at_ms d))
  && ((d_state d !=? DeliveryState.Acknowledged) || is_some (d_acknowledged_at_ms d)).

Definition check_block (b : BlockRow) : bool :=
  (0 <? b_attempt b)
  && match b_resolution b with
     | None => true
     | Some v => (v ==? "requeued") || (v ==? "abandoned")
     end
  && match b_retry_after_ms b with None => true | Some v => 0 <=? v end
  && ((is_none (b_resolved_at_ms b) && is_none (b_resolution b))
      || (is_some (b_resolved_at_ms b) && is_some (b_resolution b))).

(** The second CHECK compares [terminal_reason] with 'completed'; a NULL reason
    makes it NULL when a result is present, which SQLite accepts. *)
Definition check_invocation (i : InvocationRow) : bool :=
  (0 <? i_delivery_attempt i)
  && match i_state i with
     | InvocationState.Reserved =>
         is_none (i_dispatch_armed_at_ms i) && is_none (i_terminal_at_ms i)
         && is_none (i_execution_certainty i) && is_none (i_terminal_reason i)
     | InvocationState.DispatchArmed =>
         is_some (i_dispatch_armed_at_ms i) && is_none (i_terminal_at_ms i)
         && is_none (i_execution_certainty i) && is_none (i_terminal_reason i)
     | InvocationState.Terminal =>
         is_some (i_terminal_at_ms i) && is_some (i_execution_certainty i)
         && is_some (i_terminal_reason i)
     end
  && match i_terminal_reason i with
     | None => true
     | Some r => if r ==? "completed" then is_some (i_result_message_seq i)
                 else is_none (i_result_message_seq i)
     end.

Definition check_binding (s : BindingRow) : bool :=
  (0 <? s_binding_generation s) && (0 <? s_owner_epoch s)
  && match s_state s with
     | SessionBindingState.Opening =>
         is_none (s_session_ref s) && is_none (s_active_invocation_id s)
         && is_none (s_uncertain_reason s) && is_none (s_retired_reason s)
         && is_none (s_opened_at_ms s) && is_none (s_retired_at_ms s)
     | SessionBindingState.Ready =>
         is_some (s_session_ref s) && is_none (s_active_invocation_id s)
         && is_none (s_uncertain_reason s) && is_none (s_retired_reason s)
         && is_some (s_opened_at_ms s) && is_none (s_retired_at_ms s)
     | SessionBindingState.Active =>
         is_some (s_session_ref s) && is_some (s_active_invocation_id s)
         && is_none (s_uncertain_reason s) && is_none (s_retired_reason s)
         && is_some (s_opened_at_ms s) && is_none (s_retired_at_ms s)
     | SessionBindingState.Uncertain =>
         is_some (s_session_ref s) && is_some (s_active_invocation_id s)
         && is_some (s_uncertain_reason s) && is_none (s_retired_reason s)
         && is_some (s_opened_at_ms s) && is_none (s_retired_at_ms s)
     | SessionBindingState.Retired =>
         is_none (s_active_invocation_id s) && is_some (s_retired_reason s)
         && is_some (s_retired_at_ms s)
     end.

Definition check_turn (t : TurnRow) : bool :=
  (0 <? t_owner_epoch t)
  && match t_state t with
     | TurnState.Active =>
         is_none (t_terminal_at_ms t) && is_none (t_session_persistence t)
         && is_none (t_uncertain_reason t)
     | TurnState.Quiescent =>
         is_some (t_terminal_at_ms t) && is_some (t_session_persistence t)
         && is_none (t_uncertain_reason t)
     | TurnState.Uncertain =>
         is_some (t_terminal_at_ms t) && is_none (t_session_persistence t)
         && is_some (t_uncertain_reason t)
     end.

Definition check_generation (g : GenerationRow) : bool :=
  (0 <? ge_acp_protocol_version (g_evidence g))
  && (0 <? ge_max_concurrent_turns (g_evidence g))
  && (0 <? ge_max_frame_bytes (g_evidence g))
  && (0 <? g_heartbeat_interval_ms g)
  && match g_state g with
     | GenerationState.Active =>
         is_none (g_stopped_at_ms g) && is_none (g_stop_disposition g)
         && is_none (g_stop_reason g) && is_none (g_shutdown_outcome g)
         && is_none (g_shutdown_exit_code g)
     | GenerationState.Stopped =>
         is_some (g_stopped_at_ms g) && is_some (g_stop_disposition g)
         && is_some (g_stop_reason g) && is_some (g_shutdown_outcome g)
     end.

Definition check_counts (c : EventCounts) : bool :=
  (0 <=? ec_prompt c) && (0 <=? ec_assistant c) && (0 <=? ec_reasoning c)
  && (0 <=? ec_tool c) && (0 <=? ec_plan c) && (0 <=? ec_usage c)
  && (0 <=? ec_metadata c) && (0 <=? ec_permission c) && (0 <=? ec_unknown c).

(** The first conjunct is the width of an INTEGER column. *)
Definition check_observation (o : ObservationRow) : bool :=
  in_i64 (o_last_event_seq o)
  && (0 <? o_binding_generation o) && (0 <? o_owner_epoch o)
  && (0 <=? o_observed_payload_bytes o) && check_counts (o_counts o)
  && (((o_event_count o ==? 0) && is_none (o_first_event_at_ms o)
       && is_none (o_last_event_at_ms o) && (o_last_event_seq o ==? 0)
       && is_none (o_last_event_digest o) && is_none (o_event_chain_digest o))
      || ((0 <? o_event_count o) && is_some (o_first_event_at_ms o)
          && is_some (o_last_event_at_ms o) && (0 <? o_last_event_seq o)
          && is_some (o_last_event_digest o) && is_some (o_event_chain_digest o)))
  && ((is_none (o_terminal_at_ms o) && is_none (o_stop_reason o)
       && is_none (o_runtime_stop_reason o) && is_none (o_execution_certainty o)
       && is_none (o_session_quiescent o) && is_none (o_session_persistence o)
       && is_none (o_usage_json o))
      || (is_some (o_terminal_at_ms o) && is_some (o_stop_reason o)
          && is_some (o_execution_certainty o) && is_some (o_session_quiescent o)
          && is_some (o_session_persistence o) && is_some (o_usage_json o))).

Definition check_trigger (t : TriggerRow) : bool :=
  (((tr_accepted_occurrences t ==? 0) && is_none (tr_last_occurrence_id t)
    && is_none (tr_last_fired_at_ms t))
   || ((0 <? tr_accepted_occurrences t) && is_some (tr_last_occurrence_id t)
       && is_some (tr_last_fired_at_ms t)))
  && match tr_state t with
     | TriggerState.Active => is_none (tr_retired_at_ms t) && is_none (tr_retired_reason t)
     | TriggerState.Retired => is_some (tr_retired_at_ms t)
     end.

Definition check_credential (c : CredentialRow) : bool :=
  (String.length (cr_token_digest c) =? 32)%nat
  && match cr_principal_kind c with
     | PrincipalKind.Operator => is_none (cr_agent_id c) && is_none (cr_trigger_id c)
     | PrincipalKind.Agent => is_some (cr_agent_id c) && is_none (cr_trigger_id c)
     | PrincipalKind.Trigger => is_none (cr_agent_id c) && is_some (cr_trigger_id c)
     end.

Definition check_seat (c : SeatRow) : bool := 1 <=? sc_revision c.

(** ** UNIQUE constraints: two rows that cannot be stored together

    NULLs are distinct from each other in a UNIQUE index. *)

Definition both_eq {A} `{EqDecision A} (o1 o2 : option A) : bool :=
  match o1, o2 with Some a, Some b => a ==? b | _, _ => false end.

Definition conflict_agent (r1 r2 : AgentRow) : bool :=
  (a_id r1 ==? a_id r2) || (a_name r1 ==? a_name r2).
Definition conflict_channel (r1 r2 : ChannelRow) : bool :=
  (c_id r1 ==? c_id r2) || (c_name r1 ==? c_name r2)
  || both_eq (c_direct_pair_key r1) (c_direct_pair_key r2).
Definition conflict_member (r1 r2 : MemberRow) : bool :=
  (cm_channel_id r1 ==? cm_channel_id r2) && (cm_agent_id r1 ==? cm_agent_id r2).
Definition conflict_message (r1 r2 : MessageRow) : bool :=
  (m_seq r1 ==? m_seq r2) || (m_id r1 ==? m_id r2)
  || ((m_sender_id r1 ==? m_sender_id r2)
      && both_eq (m_idempotency_key r1) (m_idempotency_key r2)).
Definition conflict_delivery (r1 r2 : DeliveryRow) : bool :=
  (d_message_seq r1 ==? d_message_seq r2) && (d_agent_id r1 ==? d_agent_id r2).
Definition conflict_block (r1 r2 : BlockRow) : bool :=
  (b_id r1 ==? b_id r2)
  || ((b_message_seq r1 ==? b_message_seq r2) && (b_agent_id r1 ==? b_agent_id r2)
      && (b_lease_token r1 ==? b_lease_token r2)).
Definition conflict_invocation (r1 r2 : InvocationRow) : bool :=
  (i_id r1 ==? i_id r2) || (i_fence_token r1 ==? i_fence_token r2)
  || both_eq (i_result_message_seq r1) (i_result_message_seq r2)
  || ((i_message_seq r1 ==? i_message_seq r2) && (i_agent_id r1 ==? i_agent_id r2)
      && (i_delivery_attempt r1 ==? i_delivery_attempt r2)).
Definition same_lane (r1 r2 : BindingRow) : bool :=
  (s_agent_id r1 ==? s_agent_id r2) && (s_lane_policy r1 ==? s_lane_policy r2)
  && (s_lane_key r1 ==? s_lane_key r2).
(** The last disjunct is the partial index [session_bindings_current_lane]. *)
Definition conflict_binding (r1 r2 : BindingRow) : bool :=
  ((s_binding_id r1 ==? s_binding_id r2)
   && (s_binding_generation r1 ==? s_binding_generation r2))
  || (same_lane r1 r2 && (s_binding_generation r1 ==? s_binding_generation r2))
  || (same_lane r1 r2 && (s_state r1 !=? SessionBindingState.Retired)
      && (s_state r2 !=? SessionBindingState.Retired)).
Definition conflict_turn (r1 r2 : TurnRow) : bool :=
  t_invocation_id r1 ==? t_invocation_id r2.
Definition conflict_generation (r1 r2 : GenerationRow) : bool := g_id r1 ==? g_id r2.
Definition conflict_observation (r1 r2 : ObservationRow) : bool :=
  o_invocation_id r1 ==? o_invocation_id r2.
Definition conflict_trigger (r1 r2 : TriggerRow) : bool :=
  (tr_id r1 ==? tr_id r2) || (tr_name r1 ==? tr_name r2).
Definition conflict_credential (r1 r2 : CredentialRow) : bool :=
  (cr_id r1 ==? cr_id r2) || (cr_token_digest r1 ==? cr_token_digest r2).

Definition conflict_seat (r1 r2 : SeatRow) : bool := sc_agent_id r1 ==? sc_agent_id r2.

(** ** FOREIGN KEY constraints *)

Definition has_agent (db : Db) (id : string) : bool := existsb (λ r, a_id r ==? id) db.(agents).
Definition has_channel (db : Db) (id : string) : bool :=
  existsb (λ r, c_id r ==? id) db.(channels).
Definition has_message (db : Db) (seq : Z) : bool := existsb (λ r, m_seq r ==? seq) db.(messages).
Definition has_delivery (db : Db) (seq : Z) (agent : string) : bool :=
  existsb (λ r, (d_message_seq r ==? seq) && (d_agent_id r ==? agent)) db.(agent_deliveries).
Definition has_invocation (db : Db) (id : string) : bool :=
  existsb (λ r, i_id r ==? id) db.(invocations).
Definition has_binding (db : Db) (id : string) (generation : Z) : bool :=
  existsb (λ r, (s_binding_id r ==? id) && (s_binding_generation r ==? generation))
    db.(session_bindings).
Definition has_generation (db : Db) (id : string) : bool :=
  existsb (λ r, g_id r ==? id) db.(plugin_generations).
Definition has_trigger (db : Db) (id : string) : bool :=
  existsb (λ r, tr_id r ==? id) db.(triggers).
(** A NULL reference is not checked. *)
Definition opt_ref {A} (f : A → bool) (o : option A) : bool :=
  match o with None => true | Some a => f a end.

Definition fk_member (db : Db) (r : MemberRow) : bool :=
  has_channel db (cm_channel_id r) && has_agent db (cm_agent_id r).
Definition fk_message (db : Db) (r : MessageRow) : bool :=
  has_channel db (m_channel_id r) && has_agent db (m_sender_id r)
  && opt_ref (has_agent db) (m_recipient_id r).
Definition fk_delivery (db : Db) (r : DeliveryRow) : bool :=
  has_message db (d_message_seq r) && has_agent db (d_agent_id r).
Definition fk_block (db : Db) (r : BlockRow) : bool :=
  has_delivery db (b_message_seq r) (b_agent_id r).
Definition fk_invocation (db : Db) (r : InvocationRow) : bool :=
  has_delivery db (i_message_seq r) (i_agent_id r)
  && opt_ref (has_message db) (i_result_message_seq r).
Definition fk_binding (db : Db) (r : BindingRow) : bool :=
  has_agent db (s_agent_id r) && opt_ref (has_invocation db) (s_active_invocation_id r)
  && opt_ref (has_invocation db) (s_last_quiescent_invocation_id r).
Definition fk_turn (db : Db) (r : TurnRow) : bool :=
  has_invocation db (t_invocation_id r)
  && has_binding db (t_binding_id r) (t_binding_generation r).
Definition fk_generation (db : Db) (r : GenerationRow) : bool := has_agent db (g_agent_id r).
Definition fk_observation (db : Db) (r : ObservationRow) : bool :=
  has_invocation db (o_invocation_id r) && has_generation db (o_generation_id r)
  && has_binding db (o_binding_id r) (o_binding_generation r).
Definition fk_trigger (db : Db) (r : TriggerRow) : bool :=
  has_channel db (tr_channel_id r) && has_agent db (tr_sender_id r).
Definition fk_credential (db : Db) (r : CredentialRow) : bool :=
  opt_ref (has_agent db) (cr_agent_id r) && opt_ref (has_trigger db) (cr_trigger_id r).

Definition fk_seat (db : Db) (r : SeatRow) : bool := has_agent db (sc_agent_id r).

(** ** Triggers of 0010_conversation_lifecycle.sql *)

Definition before_insert_channel (_ : Db) (r : ChannelRow) : option string :=
  if ((c_conversation_kind r ==? ConversationKind.Shared) && is_some (c_direct_pair_key r))
     || ((c_conversation_kind r ==? ConversationKind.Direct) && is_none (c_direct_pair_key r))
  then Some "conversation kind and direct pair key disagree" else None.
Definition before_update_channel (old new : ChannelRow) : option string :=
  if (c_conversation_kind old !=? c_conversation_kind new)
     || (c_direct_pair_key old !=? c_direct_pair_key new)
  then Some "conversation identity is immutable"
  else if (c_conversation_kind old ==? ConversationKind.Direct)
          && ((c_name old !=? c_name new) || (c_archived_at_ms old !=? c_archived_at_ms new))
  then Some "direct conversation lifecycle is fixed" else None.
Definition before_insert_member (db : Db) (r : MemberRow) : option string :=
  if existsb (λ c, (c_id c ==? cm_channel_id r)
                   && (c_conversation_kind c ==? ConversationKind.Direct)) db.(channels)
     && (2 <=? length (List.filter (λ m, cm_channel_id m ==? cm_channel_id r)
                         db.(channel_members)))%nat
  then Some "direct conversation already has two members" else None.

(** ** Tables *)

(** What a statement needs to know of a table: where its rows are and which
    constraints SQLite enforces on them. *)
Class Table (R : Type) := {
  rows : Db → list R;
  with_rows : list R → Db → Db;
  check : R → bool;
  fk : Db → R → bool;
  conflict : R → R → bool;
  before_insert : Db → R → option string;
  before_update : R → R → option string;
}.

Definition no_check {R : Type} (_ : R) : bool := true.
Definition no_fk {R : Type} (_ : Db) (_ : R) : bool := true.
Definition no_before_insert {R : Type} (_ : Db) (_ : R) : option string := None.
Definition no_before_update {R : Type} (_ _ : R) : option string := None.

#[global] Instance agents_table : Table AgentRow :=
  Build_Table _ agents set_agents no_check no_fk conflict_agent
    no_before_insert no_before_update.
#[global] Instance channels_table : Table ChannelRow :=
  Build_Table _ channels set_channels no_check no_fk conflict_channel
    before_insert_channel before_update_channel.
#[global] Instance members_table : Table MemberRow :=
  Build_Table _ channel_members set_channel_members (λ r, 0 <=? cm_read_through_seq r)
    fk_member conflict_member before_insert_member no_before_update.
#[global] Instance messages_table : Table MessageRow :=
  Build_Table _ messages set_messages no_check fk_message conflict_message
    no_before_insert no_before_update.
#[global] Instance deliveries_table : Table DeliveryRow :=
  Build_Table _ agent_deliveries set_agent_deliveries check_delivery fk_delivery
    conflict_delivery no_before_insert no_before_update.
#[global] Instance blocks_table : Table BlockRow :=
  Build_Table _ delivery_blocks set_delivery_blocks check_block fk_block conflict_block
    no_before_insert no_before_update.
#[global] Instance invocations_table : Table InvocationRow :=
  Build_Table _ invocations set_invocations check_invocation fk_invocation
    conflict_invocation no_before_insert no_before_update.
#[global] Instance bindings_table : Table BindingRow :=
  Build_Table _ session_bindings set_session_bindings check_binding fk_binding
    conflict_binding no_before_insert no_before_update.
#[global] Instance turns_table : Table TurnRow :=
  Build_Table _ session_binding_turns set_session_binding_turns check_turn fk_turn
    conflict_turn no_before_insert no_before_update.
#[global] Instance generations_table : Table GenerationRow :=
  Build_Table _ plugin_generations set_plugin_generations check_generation fk_generation
    conflict_generation no_before_insert no_before_update.
#[global] Instance observations_table : Table ObservationRow :=
  Build_Table _ invocation_observations set_invocation_observations check_observation
    fk_observation conflict_observation no_before_insert no_before_update.
#[global] Instance triggers_table : Table TriggerRow :=
  Build_Table _ triggers set_triggers check_trigger fk_trigger conflict_trigger
    no_before_insert no_before_update.
#[global] Instance credentials_table : Table CredentialRow :=
  Build_Table _ auth_credentials set_auth_credentials check_credential fk_credential
    conflict_credential no_before_insert no_before_update.

#[global] Instance seats_table : Table SeatRow :=
  Build_Table _ agent_seat_configurations set_agent_seat_configurations check_seat fk_seat
    conflict_seat no_before_insert no_before_update.

(** Uniqueness does not depend on the order of the two rows. *)
Class ConflictSym (R : Type) `{Table R} :=
  conflict_sym : ∀ r1 r2 : R, conflict r1 r2 = conflict r2 r1.

Lemma eqb_sym {A} `{EqDecision A} (a b : A) : (a ==? b) = (b ==? a).
Proof. apply bool_decide_ext. split; congruence. Qed.
Lemma both_eq_sym {A} `{EqDecision A} (a b : option A) : both_eq a b = both_eq b a.
Proof. destruct a, b; simpl; try done. apply eqb_sym. Qed.

Ltac solve_conflict_sym :=
  intros r1 r2; simpl;
  unfold conflict_agent, conflict_channel, conflict_member, conflict_message,
    conflict_delivery, conflict_block, conflict_invocation, conflict_binding, same_lane,
    conflict_turn, conflict_generation, conflict_observation, conflict_trigger,
    conflict_credential, conflict_seat;
  repeat match goal with
  | |- context [bool_decide (?f r1 = ?f r2)] => rewrite (eqb_sym (f r1) (f r2))
  | |- context [both_eq (?f r1) (?f r2)] => rewrite (both_eq_sym (f r1) (f r2))
  end;
  try reflexivity; f_equal; rewrite <-!andb_assoc; do 3 f_equal; apply andb_comm.

#[global] Instance agents_sym : ConflictSym AgentRow.
Proof. solve_conflict_sym. Qed.
#[global] Instance channels_sym : ConflictSym ChannelRow.
Proof. solve_conflict_sym. Qed.
#[global] Instance members_sym : ConflictSym MemberRow.
Proof. solve_conflict_sym. Qed.
#[global] Instance messages_sym : ConflictSym MessageRow.
Proof. solve_conflict_sym. Qed.
#[global] Instance deliveries_sym : ConflictSym DeliveryRow.
Proof. solve_conflict_sym. Qed.
#[global] Instance blocks_sym : ConflictSym BlockRow.
Proof. solve_conflict_sym. Qed.
#[global] Instance invocations_sym : ConflictSym InvocationRow.
Proof. solve_conflict_sym. Qed.
#[global] Instance bindings_sym : ConflictSym BindingRow.
Proof. solve_conflict_sym. Qed.
#[global] Instance turns_sym : ConflictSym TurnRow.
Proof. solve_conflict_sym. Qed.
#[global] Instance generations_sym : ConflictSym GenerationRow.
Proof. solve_conflict_sym. Qed.
#[global] Instance observations_sym : ConflictSym ObservationRow.
Proof. solve_conflict_sym. Qed.
#[global] Instance triggers_sym : ConflictSym TriggerRow.
Proof. solve_conflict_sym. Qed.
#[global] Instance credentials_sym : ConflictSym CredentialRow.
Proof. solve_conflict_sym. Qed.
#[global] Instance seats_sym : ConflictSym SeatRow.
Proof. solve_conflict_sym. Qed.

(** ** The store monad *)

Definition M (A : Type) : Type := Db → result (A * Db).

Definition ret {A} (a : A) : M A := λ db, Ok (a, db).
Definition fail {A} (e : FleetError) : M A := λ _, Err e.
Definition bind {A B} (m : M A) (k : A → M B) : M B := λ db,
  match m db with Ok (a, db') => k a db' | Err e => Err e end.
(** A pure fallible computation, [f(..)?]. *)
Definition lift {A} (r : result A) : M A := λ db,
  match r with Ok a => Ok (a, db) | Err e => Err e end.
(** A read of the current state. *)
Definition gets {A} (f : Db → A) : M A := λ db, Ok (f db, db).
Definition modify (f : Db → Db) : M unit := λ db, Ok (tt, f db).

Declare Scope store_scope.
Delimit Scope store_scope with store.
Notation "'let*' x ':=' m 'in' k" := (bind m (λ x, k))
  (at level 10, x pattern, m at level 100, k at level 200) : store_scope.
Notation "m ';;' k" := (bind m (λ _, k))
  (at level 100, k at level 200, right associativity) : store_scope.
Open Scope store_scope.

(** A write transaction: [begin_immediate], the body, [commit] on success.  An
    error drops the transaction, which rolls it back.  [BEGIN IMMEDIATE]
    serializes writers, so a transaction sees one state. *)
Definition transaction {A} (m : M A) (db : Db) : Db * result A :=
  match m db with Ok (a, db') => (db', Ok a) | Err e => (db, Err e) end.

(** A loop over rows fetched beforehand, stopping at the first error. *)
Fixpoint for_each {A} (l : list A) (body : A → M unit) : M unit :=
  match l with
  | [] => ret tt
  | a :: l => body a ;; for_each l body
  end.
Fixpoint map_m {A B} (l : list A) (body : A → M B) : M (list B) :=
  match l with
  | [] => ret []
  | a :: l => let* b := body a in let* bs := map_m l body in ret (b :: bs)
  end.

(** ** Statements *)

Section statements.
Context {R : Type} `{Table R}.

(** [SELECT * FROM t WHERE p], in rowid order *)
Definition select (p : R → bool) : M (list R) := gets (λ db, List.filter p (rows db)).
(** [fetch_optional] *)
Definition fetch_optional (p : R → bool) : M (option R) := gets (λ db, List.find p (rows db)).
(** [SELECT COUNT( * ) FROM t WHERE p] *)
Definition count (p : R → bool) : M nat := gets (λ db, length (List.filter p (rows db))).

(** No two rows of the table conflict. *)
Fixpoint no_conflict (l : list R) : bool :=
  match l with
  | [] => true
  | r :: l => forallb (λ r', negb (conflict r r')) l && no_conflict l
  end.

(** [INSERT INTO t VALUES r] *)
Definition insert (r : R) : M unit := λ db,
  match before_insert db r with
  | Some reason => Err (Database (Aborted reason))
  | None =>
      if negb (check r) then Err (Database CheckViolation)
      else if negb (no_conflict (rows db ++ [r])) then Err (Database UniqueViolation)
      else if negb (fk db r) then Err (Database ForeignKeyViolation)
      else Ok (tt, with_rows (rows db ++ [r]) db)
  end.

Definition update_row (p : R → bool) (f : R → R) (r : R) : R := if p r then f r else r.
(** The first refusal a trigger raises for an updated row. *)
Definition update_refusal (p : R → bool) (f : R → R) (l : list R) : option string :=
  foldr (λ r acc, if p r then match before_update r (f r) with
                               | Some reason => Some reason
                               | None => acc
                               end else acc) None l.
Definition updated_ok (p : R → bool) (f : R → R) (ok : R → bool) (l : list R) : bool :=
  forallb (λ r, negb (p r) || ok (f r)) l.

(** [UPDATE t SET f WHERE p]; the value is [rows_affected()]. *)
Definition update (p : R → bool) (f : R → R) : M nat := λ db,
  let l := rows db in
  let l' := map (update_row p f) l in
  match update_refusal p f l with
  | Some reason => Err (Database (Aborted reason))
  | None =>
      if negb (updated_ok p f check l) then Err (Database CheckViolation)
      else if negb (no_conflict l') then Err (Database UniqueViolation)
      else if negb (updated_ok p f (fk db) l) then Err (Database ForeignKeyViolation)
      else Ok (length (List.filter p l), with_rows l' db)
  end.
End statements.

(** ** Laws of the monad and of the statements *)

Lemma bind_ok {A B} (m : M A) (k : A → M B) db b db' :
  bind m k db = Ok (b, db') ↔ ∃ a db1, m db = Ok (a, db1) ∧ k a db1 = Ok (b, db').
Proof. unfold bind. destruct (m db) as [[a db1]|e]; naive_solver. Qed.
Lemma ret_ok {A} (a b : A) db db' : ret a db = Ok (b, db') ↔ b = a ∧ db' = db.
Proof. unfold ret. naive_solver. Qed.
Lemma fail_ok {A} e (b : A) db db' : fail e db = Ok (b, db') ↔ False.
Proof. unfold fail. naive_solver. Qed.
Lemma lift_ok {A} (r : result A) b db db' : lift r db = Ok (b, db') ↔ r = Ok b ∧ db' = db.
Proof. unfold lift. destruct r; naive_solver. Qed.
Lemma gets_ok {A} (f : Db → A) b db db' : gets f db = Ok (b, db') ↔ b = f db ∧ db' = db.
Proof. unfold gets. naive_solver. Qed.
Lemma modify_ok f b db db' : modify f db = Ok (b, db') ↔ b = tt ∧ db' = f db.
Proof. unfold modify. destruct b. naive_solver. Qed.
Lemma rbind_ok {A B} (r : result A) (k : A → result B) b :
  rbind r k = Ok b ↔ ∃ a, r = Ok a ∧ k a = Ok b.
Proof. destruct r; naive_solver. Qed.
Lemma guard_ok b e u : guard b e = Ok u ↔ b = true.
Proof. destruct b, u; simpl; naive_solver. Qed.
Lemma refuse_ok b e u : refuse b e = Ok u ↔ b = false.
Proof. destruct b, u; simpl; naive_solver. Qed.
Lemma ok_or_ok {A} (o : option A) e a : ok_or o e = Ok a ↔ o = Some a.
Proof. destruct o; simpl; naive_solver. Qed.

Section statement_laws.
Context {R : Type} `{Table R}.

Lemma select_ok p (l : list R) db db' :
  select p db = Ok (l, db') ↔ l = List.filter p (rows db) ∧ db' = db.
Proof. unfold select, gets. naive_solver. Qed.
Lemma fetch_optional_ok p (o : option R) db db' :
  fetch_optional p db = Ok (o, db') ↔ o = List.find p (rows db) ∧ db' = db.
Proof. unfold fetch_optional, gets. naive_solver. Qed.
Lemma count_ok (p : R → bool) n db db' :
  count p db = Ok (n, db') ↔ n = length (List.filter p (rows db)) ∧ db' = db.
Proof. unfold count, gets. naive_solver. Qed.

Lemma insert_ok (r : R) u db db' :
  insert r db = Ok (u, db') ↔
  before_insert db r = None ∧ check r = true ∧ no_conflict (rows db ++ [r]) = true
  ∧ fk db r = true ∧ db' = with_rows (rows db ++ [r]) db.
Proof.
  unfold insert. destruct u, (before_insert db r), (check r),
    (no_conflict (rows db ++ [r])), (fk db r); simpl; naive_solver.
Qed.

Lemma updated_ok_forall p f ok (l : list R) :
  updated_ok p f ok l = true ↔ ∀ r, r ∈ l → p r = true → ok (f r) = true.
Proof.
  unfold updated_ok. rewrite forallb_forall.
  setoid_rewrite <-list_elem_of_In. split; intros Hall r Hr; specialize (Hall r Hr).
  - intros Hp. by rewrite Hp in Hall.
  - destruct (p r); simpl; auto.
Qed.

Lemma update_ok p f n db db' :
  update (R := R) p f db = Ok (n, db') →
  db' = with_rows (map (update_row p f) (rows db)) db
  ∧ n = length (List.filter p (rows db))
  ∧ (∀ r, r ∈ rows db → p r = true → check (f r) = true)
  ∧ no_conflict (map (update_row p f) (rows db)) = true
  ∧ (∀ r, r ∈ rows db → p r = true → fk db (f r) = true).
Proof.
  unfold update. destruct (update_refusal _ _ _); [done|].
  destruct (updated_ok p f check _) eqn:Hcheck; [|done].
  destruct (no_conflict _) eqn:Huniq; [|done].
  destruct (updated_ok p f (fk db) _) eqn:Hfk; [|done]. simpl. intros [= <- <-].
  rewrite updated_ok_forall in Hcheck, Hfk. auto.
Qed.

(** Two stored rows that conflict are the same row. *)
Lemma no_conflict_eq `{!ConflictSym R} (l : list R) a b :
  no_conflict l = true → a ∈ l → b ∈ l → conflict a b = true → a = b.
Proof.
  induction l as [|r l IH]; simpl; [by intros _ ?%not_elem_of_nil|].
  rewrite andb_true_iff, forallb_forall. intros [Hr Hl] Ha Hb Hab.
  setoid_rewrite <-list_elem_of_In in Hr.
  apply elem_of_cons in Ha as [->|Ha], Hb as [->|Hb]; [done|..|auto].
  - apply Hr in Hb. by rewrite Hab in Hb.
  - apply Hr in Ha. by rewrite conflict_sym, Hab in Ha.
Qed.

Lemma no_conflict_app (l1 l2 : list R) :
  no_conflict (l1 ++ l2) = true ↔
  no_conflict l1 = true ∧ no_conflict l2 = true
  ∧ ∀ a b, a ∈ l1 → b ∈ l2 → conflict a b = false.
Proof.
  induction l1 as [|r l1 IH]; simpl.
  - set_solver.
  - rewrite !andb_true_iff, IH, forallb_app, andb_true_iff, !forallb_forall.
    setoid_rewrite <-list_elem_of_In. setoid_rewrite negb_true_iff. set_solver.
Qed.
End statement_laws.

Arguments bind : simpl never.
Arguments ret : simpl never.
Arguments fail : simpl never.
Arguments lift : simpl never.
Arguments gets : simpl never.
Arguments modify : simpl never.
Arguments select : simpl never.
Arguments fetch_optional : simpl never.
Arguments count : simpl never.
Arguments insert : simpl never.
Arguments update : simpl never.
Arguments rows : simpl nomatch.

(** Rows of an updated table come from the rows of the table before. *)
Lemma elem_of_update_row {R} (p : R → bool) f (l : list R) r' :
  r' ∈ map (update_row p f) l ↔ ∃ r, r ∈ l ∧ r' = if p r then f r else r.
Proof.
  rewrite list_elem_of_In, in_map_iff. setoid_rewrite <-list_elem_of_In. unfold update_row.
  naive_solver.
Qed.

Lemma filter_singleton {A} (p : A → bool) (l : list A) :
  length (List.filter p l) = 1%nat → ∃ a, a ∈ l ∧ p a = true ∧ List.filter p l = [a].
Proof.
  destruct (List.filter p l) as [|a [|]] eqn:Hf; try done. intros _. exists a.
  assert (a ∈ List.filter p l) as Ha by (rewrite Hf; set_solver).
  apply elem_of_list_filter in Ha. naive_solver.
Qed.

Lemma filter_none {A} (p : A → bool) (l : list A) :
  (∀ a, a ∈ l → p a = false) → List.filter p l = [].
Proof.
  induction l as [|a l IH]; simpl; [done|]. intros Hp. rewrite Hp by set_solver.
  apply IH. set_solver.
Qed.

Lemma find_some_elem {A} (p : A → bool) (l : list A) a :
  List.find p l = Some a → a ∈ l ∧ p a = true.
Proof. intros [??]%find_some. by rewrite list_elem_of_In. Qed.
Lemma find_none_elem {A} (p : A → bool) (l : list A) a :
  List.find p l = None → a ∈ l → p a = false.
Proof. intros Hf Ha. eapply find_none; [done|]. by apply list_elem_of_In. Qed.

(** The first match is the only one. *)
Lemma find_unique {A} (p : A → bool) (l : list A) a :
  a ∈ l → p a = true → (∀ b, b ∈ l → p b = true → b = a) → List.find p l = Some a.
Proof.
  intros Ha Hp Hu. destruct (List.find p l) as [b|] eqn:Hf.
  - apply find_some_elem in Hf as [Hb Hpb]. by rewrite (Hu b).
  - by rewrite (find_none_elem _ _ _ Hf Ha) in Hp.
Qed.
Lemma head_unique {A} (l : list A) a : a ∈ l → (∀ b, b ∈ l → b = a) → head l = Some a.
Proof. destruct l as [|b l]; [by intros ?%not_elem_of_nil|]. intros _ Hu. cbn. f_equal. apply Hu. set_solver. Qed.

(** An UPDATE that matches nothing changes nothing. *)
Lemma update_refusal_none {R} `{Table R} (p : R → bool) f l :
  (∀ r, r ∈ l → p r = false) → update_refusal p f l = None.
Proof.
  induction l as [|r l IH]; cbn; [done|]. intros Hp. rewrite Hp by set_solver. apply IH. set_solver.
Qed.
Lemma map_update_id {R} (p : R → bool) (f : R → R) l :
  (∀ r, r ∈ l → p r = false) → map (update_row p f) l = l.
Proof.
  induction l as [|r l IH]; cbn; [done|]. intros Hp. unfold update_row at 1.
  rewrite Hp by set_solver. f_equal. apply IH. set_solver.
Qed.
Lemma update_none {R} `{Table R} (p : R → bool) f db :
  no_conflict (rows db) = true → with_rows (rows db) db = db →
  (∀ r, r ∈ rows db → p r = false) → update p f db = Ok (O, db).
Proof.
  intros Hu Hw Hp. unfold update.
  rewrite update_refusal_none, map_update_id, filter_none, Hu, Hw by done.
  assert (∀ ok, updated_ok p f ok (rows db) = true) as Hok.
  { intros ok. apply updated_ok_forall. intros r Hr Hpr. by rewrite Hp in Hpr. }
  by rewrite !Hok.
Qed.

(** Splits a boolean condition into its conjuncts, as propositions. *)
Ltac bool_facts :=
  cbv beta in *; repeat match goal with
  | H : _ && _ = true |- _ => apply andb_true_iff in H as [? ?]
  | H : _ || _ = false |- _ => apply orb_false_iff in H as [? ?]
  | H : negb _ = true |- _ => apply negb_true_iff in H
  | H : negb _ = false |- _ => apply negb_false_iff in H
  | H : bool_decide _ = true |- _ => apply bool_decide_eq_true in H
  | H : bool_decide _ = false |- _ => apply bool_decide_eq_false in H
  | H : (_ <=? _)%Z = true |- _ => apply Z.leb_le in H
  | H : (_ <=? _)%Z = false |- _ => apply Z.leb_gt in H
  | H : (_ <? _)%Z = true |- _ => apply Z.ltb_lt in H
  | H : (_ <? _)%Z = false |- _ => apply Z.ltb_ge in H
  end.

(** One step of reading off what a successful run did: the inversion of a
    monadic construct in a hypothesis [m db = Ok (a, db')]. *)
Ltac m_step :=
  match goal with
  | H : bind _ _ _ = Ok (_, _) |- _ =>
      let a := fresh "a" in let db := fresh "db" in let H1 := fresh H in
      apply bind_ok in H as (a & db & H1 & H)
  | H : ret _ _ = Ok (_, _) |- _ => apply ret_ok in H as [? ?]; subst
  | H : fail _ _ = Ok (_, _) |- _ => by apply fail_ok in H
  | H : lift _ _ = Ok (_, _) |- _ => apply lift_ok in H as [H ?]; subst
  | H : gets _ _ = Ok (_, _) |- _ => apply gets_ok in H as [? ?]; subst
  | H : modify _ _ = Ok (_, _) |- _ => apply modify_ok in H as [? ?]; subst
  | H : select _ _ = Ok (_, _) |- _ => apply select_ok in H as [? ?]; subst
  | H : fetch_optional _ _ = Ok (_, _) |- _ => apply fetch_optional_ok in H as [H ?]; subst
  | H : count _ _ = Ok (_, _) |- _ => apply count_ok in H as [? ?]; subst
  | H : rbind _ _ = Ok _ |- _ =>
      let a := fresh "a" in let H1 := fresh H in apply rbind_ok in H as (a & H1 & H)
  | H : guard _ _ = Ok _ |- _ => apply guard_ok in H
  | H : refuse _ _ = Ok _ |- _ => apply refuse_ok in H
  | H : ok_or _ _ = Ok _ |- _ => apply ok_or_ok in H
  | H : Ok _ = Ok _ |- _ => injection H; clear H; intros; subst
  | H : Err _ = Ok _ |- _ => discriminate H
  | H : List.find _ _ = Some _ |- _ => apply find_some_elem in H as [? ?]
  | x : unit |- _ => destruct x
  end.
Ltac m_inv := repeat m_step.

(** ** Decoding a list of rows *)

Lemma collect_elem {A B} (f : A → result B) l bs b :
  collect f l = Ok bs → b ∈ bs → ∃ a, a ∈ l ∧ f a = Ok b.
Proof.
  revert bs. induction l as [|a l IH]; intros bs H Hb; simpl in H; m_inv.
  - by apply not_elem_of_nil in Hb.
  - apply elem_of_cons in Hb as [->|Hb]; [set_solver|].
    destruct (IH _ H1 Hb) as (x & ? & ?). set_solver.
Qed.

(** ** Computations that leave some part of the store alone *)

Definition keeps {X A} (f : Db → X) (m : M A) : Prop :=
  ∀ db a db', m db = Ok (a, db') → f db' = f db.

Section keeps.
Context {X : Type} (f : Db → X).

Lemma keeps_bind {A B} (m : M A) (k : A → M B) :
  keeps f m → (∀ a, keeps f (k a)) → keeps f (bind m k).
Proof. intros Hm Hk db b db' (a & db1 & H1%Hm & H2%Hk)%bind_ok. congruence. Qed.
Lemma keeps_ret {A} (a : A) : keeps f (ret a).
Proof. intros ???. by intros [_ ->]%ret_ok. Qed.
Lemma keeps_fail {A} e : keeps f (fail (A := A) e).
Proof. intros ????. by m_inv. Qed.
Lemma keeps_lift {A} (r : result A) : keeps f (lift r).
Proof. intros ???. by intros [_ ->]%lift_ok. Qed.
Lemma keeps_gets {A} (g : Db → A) : keeps f (gets g).
Proof. intros ???. by intros [_ ->]%gets_ok. Qed.
Lemma keeps_for_each {A} (l : list A) body :
  (∀ a, keeps f (body a)) → keeps f (for_each l body).
Proof. intros Hb. induction l; simpl; [apply keeps_ret|by apply keeps_bind]. Qed.
Lemma keeps_map_m {A B} (l : list A) (body : A → M B) :
  (∀ a, keeps f (body a)) → keeps f (map_m l body).
Proof.
  intros Hb. induction l; simpl; [apply keeps_ret|]. apply keeps_bind; [done|]. intros b.
  apply keeps_bind; [done|]. intros bs. apply keeps_ret.
Qed.

Context {R : Type} `{Table R} (Hf : ∀ l db, f (with_rows l db) = f db).
Lemma keeps_insert (r : R) : keeps f (insert r).
Proof using Hf. intros db u db' (_ & _ & _ & _ & ->)%insert_ok. apply Hf. Qed.
Lemma keeps_update (p : R → bool) g : keeps f (update p g).
Proof using Hf. intros db n db' (-> & _)%update_ok. apply Hf. Qed.
End keeps.

Ltac keeps_step :=
  match goal with
  | |- keeps _ (bind _ _) => apply keeps_bind; [|intros ?]
  | |- keeps _ (ret _) => apply keeps_ret
  | |- keeps _ (fail _) => apply keeps_fail
  | |- keeps _ (lift _) => apply keeps_lift
  | |- keeps _ (gets _) => apply keeps_gets
  | |- keeps _ (select _) => apply keeps_gets
  | |- keeps _ (fetch_optional _) => apply keeps_gets
  | |- keeps _ (count _) => apply keeps_gets
  | |- keeps _ (for_each _ _) => apply keeps_for_each; intros ?
  | |- keeps _ (map_m _ _) => apply keeps_map_m; intros ?
  | |- keeps _ (insert _) => apply keeps_insert; reflexivity
  | |- keeps _ (update _ _) => apply keeps_update; reflexivity
  | |- keeps _ (if ?b then _ else _) => destruct b
  | |- keeps _ (match ?x with _ => _ end) => destruct x
  end.
Ltac keeps_tac := repeat keeps_step.
