(* ===== verification/Channels.v ===== *)
(** * Agents, channels and membership (crates/kernel/src/store/agent.rs,
      channel.rs, membership.rs and the helpers of store/mod.rs)

    [uuid] arguments are the [Uuid::new_v4()] values a call draws and [now]
    arguments are what [now_ms()] returns to it. *)

From S2P Require Import Prelude Proto Schema.

(** ** Helpers of store/mod.rs *)

Definition validate_name (entity name : string) : result unit :=
  refuse (is_blank name) (Invalid (entity +:+ " name must not be empty")).

Definition map_unique_conflict (m : M unit) (field : string) : M unit := λ db,
  match m db with
  | Err (Database UniqueViolation) => Err (Conflict (field +:+ " already exists"))
  | r => r
  end.

(** [ensure_exists(tx, "agents", "agent", id)] and its channel instance *)
Definition ensure_exists {R} `{Table R} (key : R → string) (entity id : string) : M unit :=
  let* n := count (λ r, key r ==? id) in
  lift (refuse (n ==? O) (NotFound entity id)).

Section store.
Context `{J : SerdeJson}.

Definition to_string (v : Value) : result string := ok_or (to_json v) Serialization.
Definition parse_json (s : string) : result Value := ok_or (from_json s) Serialization.

(** ** agent.rs *)

Definition create_agent (input : CreateAgent) (uuid : string) (now : Z) : M Agent :=
  lift (validate_name "agent" (ca_name input)) ;;
  let agent := {| agent_id := uuid; agent_name := ca_name input;
                  agent_metadata := ca_metadata input; agent_created_at_ms := now |} in
  let* metadata_json := lift (to_string (agent_metadata agent)) in
  map_unique_conflict
    (insert {| a_id := agent_id agent; a_name := agent_name agent;
               a_metadata_json := metadata_json;
               a_created_at_ms := agent_created_at_ms agent |}) "agent name" ;;
  ret agent.

Definition agent_from_row (r : AgentRow) : result Agent :=
  let? metadata := parse_json (a_metadata_json r) in
  Ok {| agent_id := a_id r; agent_name := a_name r; agent_metadata := metadata;
        agent_created_at_ms := a_created_at_ms r |}.

Definition list_agents : M (list Agent) :=
  let* rs := select (λ _ : AgentRow, true) in
  lift (collect agent_from_row (sort_by (then_by (by_Z a_created_at_ms) (by_str a_id)) rs)).

(** ** channel.rs *)

Definition channel_from_row (r : ChannelRow) : result Channel :=
  let? metadata := parse_json (c_metadata_json r) in
  Ok {| channel_id := c_id r; channel_name := c_name r;
        channel_kind := c_conversation_kind r; channel_metadata := metadata;
        channel_created_at_ms := c_created_at_ms r;
        channel_archived_at_ms := c_archived_at_ms r |}.

Definition channel_row (channel_id : string) : M ChannelRow :=
  let* row := fetch_optional (λ r : ChannelRow, c_id r ==? channel_id) in
  lift (ok_or row (NotFound "channel" channel_id)).

Definition require_mutable_shared_channel (channel : Channel) : result unit :=
  refuse (channel_kind channel !=? ConversationKind.Shared)
    (Conflict "direct conversation membership and name are immutable") ;?
  refuse (is_some (channel_archived_at_ms channel))
    (Conflict ("channel is archived: " +:+ channel_id channel)).

(** The [HashSet] loop that refuses a repeated member; returns the ids seen. *)
Fixpoint check_distinct (seen : list string) (members : list CreateChannelMember)
    : result (list string) :=
  match members with
  | [] => Ok seen
  | m :: members =>
      if bool_decide (ccm_agent_id m ∈ seen)
      then Err (Invalid ("duplicate initial channel member: " +:+ ccm_agent_id m))
      else check_distinct (ccm_agent_id m :: seen) members
  end.

Definition insert_member (channel_id : string) (joined_at_ms read_through_seq : Z)
    (member : CreateChannelMember) : M unit :=
  insert {| cm_channel_id := channel_id; cm_agent_id := ccm_agent_id member;
            cm_joined_at_ms := joined_at_ms;
            cm_delivery_mode := ccm_delivery_mode member;
            cm_read_through_seq := read_through_seq |}.

Definition create_channel_with_members (name : string) (metadata : Value)
    (members : list CreateChannelMember) (uuid : string) (now : Z) : M Channel :=
  lift (validate_name "channel" name) ;;
  lift (check_distinct [] members) ;;
  for_each members (λ m, ensure_exists a_id "agent" (ccm_agent_id m)) ;;
  let channel := {| channel_id := uuid; channel_name := name;
                    channel_kind := ConversationKind.Shared;
                    channel_metadata := metadata; channel_created_at_ms := now;
                    channel_archived_at_ms := None |} in
  let* metadata_json := lift (to_string (channel_metadata channel)) in
  map_unique_conflict
    (insert {| c_id := channel_id channel; c_name := channel_name channel;
               c_metadata_json := metadata_json;
               c_created_at_ms := channel_created_at_ms channel;
               c_conversation_kind := ConversationKind.Shared;
               c_direct_pair_key := None; c_archived_at_ms := None |})
    "channel name" ;;
  for_each members (insert_member (channel_id channel) (channel_created_at_ms channel) 0) ;;
  ret channel.

Definition inbox_member (agent_id : string) : CreateChannelMember :=
  {| ccm_agent_id := agent_id; ccm_delivery_mode := MembershipDeliveryMode.Inbox |}.

Definition create_channel (input : CreateChannel) (uuid : string) (now : Z) : M Channel :=
  let from_ids := map inbox_member (cc_member_ids input) in
  let* seen := lift (check_distinct [] from_ids) in
  lift (check_distinct seen (cc_members input)) ;;
  create_channel_with_members (cc_name input) (cc_metadata input)
    (from_ids ++ cc_members input) uuid now.

Definition list_channels : M (list Channel) :=
  let* rs := select (λ _ : ChannelRow, true) in
  lift (collect channel_from_row (sort_by (then_by (by_Z c_created_at_ms) (by_str c_id)) rs)).

Definition set_channel_name (name : string) (r : ChannelRow) : ChannelRow :=
  {| c_id := c_id r; c_name := name; c_metadata_json := c_metadata_json r;
     c_created_at_ms := c_created_at_ms r; c_conversation_kind := c_conversation_kind r;
     c_direct_pair_key := c_direct_pair_key r; c_archived_at_ms := c_archived_at_ms r |}.
Definition set_channel_archived (at_ms : Z) (r : ChannelRow) : ChannelRow :=
  {| c_id := c_id r; c_name := c_name r; c_metadata_json := c_metadata_json r;
     c_created_at_ms := c_created_at_ms r; c_conversation_kind := c_conversation_kind r;
     c_direct_pair_key := c_direct_pair_key r; c_archived_at_ms := Some at_ms |}.

Definition rename_channel (channel_id name : string) : M Channel :=
  lift (validate_name "channel" name) ;;
  let* row := channel_row channel_id in
  let* channel := lift (channel_from_row row) in
  lift (require_mutable_shared_channel channel) ;;
  map_unique_conflict
    (let* _ := update (λ r, c_id r ==? channel_id) (set_channel_name name) in ret tt)
    "channel name" ;;
  ret {| channel_id := Proto.channel_id channel; channel_name := name;
         channel_kind := channel_kind channel; channel_metadata := channel_metadata channel;
         channel_created_at_ms := channel_created_at_ms channel;
         channel_archived_at_ms := channel_archived_at_ms channel |}.

Definition archive_channel (channel_id : string) (now : Z) : M Channel :=
  let* row := channel_row channel_id in
  let* channel := lift (channel_from_row row) in
  lift (refuse (channel_kind channel !=? ConversationKind.Shared)
          (Conflict "direct conversations cannot be archived")) ;;
  match channel_archived_at_ms channel with
  | Some _ => ret channel
  | None =>
      let* _ := update (λ r, c_id r ==? channel_id) (set_channel_archived now) in
      ret {| channel_id := Proto.channel_id channel; channel_name := channel_name channel;
             channel_kind := channel_kind channel;
             channel_metadata := channel_metadata channel;
             channel_created_at_ms := channel_created_at_ms channel;
             channel_archived_at_ms := Some now |}
  end.

Definition direct_pair_key (first_agent_id second_agent_id : string) : string :=
  first_agent_id +:+ ":" +:+ second_agent_id.

(** The two participants in byte order of their ids. *)
Definition validate_direct_members (members : list CreateChannelMember)
    : result (CreateChannelMember * CreateChannelMember) :=
  match sort_by (by_str ccm_agent_id) members with
  | [m1; m2] =>
      refuse (ccm_agent_id m1 ==? ccm_agent_id m2)
        (Invalid "direct conversation participants must be distinct") ;?
      Ok (m1, m2)
  | _ => Err (Invalid "direct conversation requires exactly two participants")
  end.

Definition ensure_direct_modes_match (channel_id : string)
    (members : list CreateChannelMember) : M unit :=
  let* existing := select (λ m : MemberRow, cm_channel_id m ==? channel_id) in
  let stored := map (λ m, (cm_agent_id m, as_str (cm_delivery_mode m)))
                  (sort_by (by_str cm_agent_id) existing) in
  let requested := map (λ m, (ccm_agent_id m, as_str (ccm_delivery_mode m))) members in
  lift (refuse (stored !=? requested)
          (Conflict "direct conversation participant delivery modes are immutable")).

Definition insert_direct_pair (pair_key : string) (members : list CreateChannelMember)
    (uuid name_uuid : string) (now : Z) : M Channel :=
  let channel := {| channel_id := uuid; channel_name := "direct-" +:+ name_uuid;
                    channel_kind := ConversationKind.Direct;
                    channel_metadata := empty_object; channel_created_at_ms := now;
                    channel_archived_at_ms := None |} in
  let* metadata_json := lift (to_string (channel_metadata channel)) in
  insert {| c_id := channel_id channel; c_name := channel_name channel;
            c_metadata_json := metadata_json;
            c_created_at_ms := channel_created_at_ms channel;
            c_conversation_kind := ConversationKind.Direct;
            c_direct_pair_key := Some pair_key; c_archived_at_ms := None |} ;;
  for_each members (insert_member (channel_id channel) now 0) ;;
  ret channel.

Definition open_direct_in_transaction (pair_key : string)
    (members : list CreateChannelMember) (uuid name_uuid : string) (now : Z)
    : M (Channel * bool) :=
  let* existing := fetch_optional (λ r : ChannelRow, c_direct_pair_key r ==? Some pair_key) in
  match existing with
  | Some row =>
      let* channel := lift (channel_from_row row) in
      ensure_direct_modes_match (channel_id channel) members ;;
      ret (channel, false)
  | None =>
      let* channel := insert_direct_pair pair_key members uuid name_uuid now in
      ret (channel, true)
  end.

Definition open_direct_pair (input : list CreateChannelMember) (uuid name_uuid : string)
    (now : Z) : M (Channel * bool) :=
  let* members := lift (validate_direct_members input) in
  let pair_key := direct_pair_key (ccm_agent_id members.1) (ccm_agent_id members.2) in
  let members := [members.1; members.2] in
  for_each members (λ m, ensure_exists a_id "agent" (ccm_agent_id m)) ;;
  open_direct_in_transaction pair_key members uuid name_uuid now.

(** ** membership.rs *)

Definition ensure_member (channel_id agent_id : string) : M unit :=
  let* n := count (λ m, (cm_channel_id m ==? channel_id) && (cm_agent_id m ==? agent_id)) in
  lift (refuse (n ==? O) (NotMember agent_id channel_id)).

(** [SELECT MAX(seq) FROM messages WHERE channel_id = ?] *)
Definition max_channel_seq (channel_id : string) (db : Db) : option Z :=
  max_by m_seq (List.filter (λ m, m_channel_id m ==? channel_id) db.(messages)).

Definition add_member_with_mode (channel_id agent_id : string)
    (delivery_mode : MembershipDeliveryMode.t) (now : Z) : M unit :=
  let* row := channel_row channel_id in
  let* channel := lift (channel_from_row row) in
  lift (require_mutable_shared_channel channel) ;;
  ensure_exists a_id "agent" agent_id ;;
  let* existing := fetch_optional
    (λ m, (cm_channel_id m ==? channel_id) && (cm_agent_id m ==? agent_id)) in
  match existing with
  | Some m =>
      lift (refuse (as_str (cm_delivery_mode m) !=? as_str delivery_mode)
              (Conflict ("channel membership delivery mode is immutable: "
                         +:+ channel_id +:+ "/" +:+ agent_id)))
  | None =>
      let* latest := gets (max_channel_seq channel_id) in
      insert_member channel_id now (coalesce latest 0)
        {| ccm_agent_id := agent_id; ccm_delivery_mode := delivery_mode |}
  end.

Definition add_member (channel_id agent_id : string) (now : Z) : M unit :=
  add_member_with_mode channel_id agent_id MembershipDeliveryMode.Inbox now.

Definition channel_member_from_row (r : MemberRow * AgentRow) : ChannelMember :=
  {| member_channel_id := cm_channel_id r.1; member_agent_id := cm_agent_id r.1;
     member_agent_name := a_name r.2; member_joined_at_ms := cm_joined_at_ms r.1;
     member_delivery_mode := cm_delivery_mode r.1 |}.

Definition list_channel_members (channel_id : string) : M (list ChannelMember) :=
  ensure_exists c_id "channel" channel_id ;;
  let* rs := gets (λ db, List.filter (λ r, cm_channel_id r.1 ==? channel_id)
                     (join (λ m a, a_id a ==? cm_agent_id m)
                        db.(channel_members) db.(agents))) in
  ret (map channel_member_from_row
         (sort_by (then_by (by_Z (λ r, cm_joined_at_ms r.1)) (by_str (λ r, cm_agent_id r.1)))
            rs)).

Definition is_member (channel_id agent_id : string) : M bool :=
  ensure_exists c_id "channel" channel_id ;;
  let* n := count (λ m, (cm_channel_id m ==? channel_id) && (cm_agent_id m ==? agent_id)) in
  ret (n ==? 1%nat).

Definition set_read_through (seq : Z) (m : MemberRow) : MemberRow :=
  {| cm_channel_id := cm_channel_id m; cm_agent_id := cm_agent_id m;
     cm_joined_at_ms := cm_joined_at_ms m; cm_delivery_mode := cm_delivery_mode m;
     cm_read_through_seq := seq |}.

Definition advance_member_read_cursor (channel_id agent_id : string) (through_seq : Z) : M Z :=
  lift (refuse (through_seq <? 0)
          (Invalid "read cursor must be zero or a committed message sequence")) ;;
  ensure_exists c_id "channel" channel_id ;;
  ensure_member channel_id agent_id ;;
  let* latest_message_seq := gets (max_channel_seq channel_id) in
  lift (refuse (coalesce latest_message_seq 0 <? through_seq)
          (Invalid ("read cursor " +:+ pretty through_seq
                    +:+ " is beyond the latest message in channel " +:+ channel_id))) ;;
  (if 0 <? through_seq then
     let* belongs := gets (λ db, existsb (λ m, (m_channel_id m ==? channel_id)
                                               && (m_seq m ==? through_seq)) db.(messages)) in
     lift (guard belongs
             (Invalid ("read cursor " +:+ pretty through_seq
                       +:+ " is not a committed message in channel " +:+ channel_id)))
   else ret tt) ;;
  let* _ := update (λ m, (cm_channel_id m ==? channel_id) && (cm_agent_id m ==? agent_id)
                         && (cm_read_through_seq m <? through_seq))
              (set_read_through through_seq) in
  let* row := fetch_optional
    (λ m, (cm_channel_id m ==? channel_id) && (cm_agent_id m ==? agent_id)) in
  lift (let? m := ok_or row (Database RowNotFound) in Ok (cm_read_through_seq m)).

(** ** What a successful lookup found *)

Lemma channel_row_ok id c db db' :
  channel_row id db = Ok (c, db') → db' = db ∧ c ∈ db.(channels) ∧ c_id c = id.
Proof.
  unfold channel_row. intros H. m_inv. by bool_facts.
Qed.

Lemma channel_from_row_ok c ch :
  channel_from_row c = Ok ch →
  channel_id ch = c_id c ∧ channel_name ch = c_name c
  ∧ channel_kind ch = c_conversation_kind c
  ∧ channel_archived_at_ms ch = c_archived_at_ms c.
Proof. unfold channel_from_row. intros H. by m_inv. Qed.

Lemma require_mutable_ok ch u :
  require_mutable_shared_channel ch = Ok u →
  channel_kind ch = ConversationKind.Shared ∧ channel_archived_at_ms ch = None.
Proof.
  unfold require_mutable_shared_channel. intros H. m_inv. bool_facts.
  by destruct (channel_archived_at_ms ch).
Qed.
End store.
