(* ===== verification/Messages.v ===== *)
(** * Messages (crates/kernel/src/store/message.rs)

    Immutable messages, idempotent append, the delivery snapshot an append
    takes of the channel's inbox members, and the cursor reads. *)

From S2P Require Import Prelude Proto Schema Channels.

Definition MAX_IDEMPOTENCY_KEY_LENGTH : Z := 256.

Section messages.
Context `{J : SerdeJson}.

Record AppendMessageResult := { append_message : Message; append_created : bool }.

Definition validate_idempotency_key (key : option string) : result unit :=
  match key with
  | None => Ok tt
  | Some key =>
      refuse (is_blank key) (Invalid "idempotency key must not be empty") ;?
      refuse (MAX_IDEMPOTENCY_KEY_LENGTH <? str_len key)
        (Invalid "idempotency key must not exceed 256 bytes")
  end.

Definition message_from_row (r : MessageRow) : result Message :=
  let? payload := parse_json (m_payload_json r) in
  Ok {| msg_seq := m_seq r; msg_id := m_id r; msg_channel_id := m_channel_id r;
        msg_sender_id := m_sender_id r; msg_recipient_id := m_recipient_id r;
        msg_kind := m_kind r; msg_payload := payload;
        msg_correlation_id := m_correlation_id r; msg_causation_id := m_causation_id r;
        msg_created_at_ms := m_created_at_ms r |}.

(** Also [message_matches_result] of execution/src/invocation.rs, which is the
    same comparison. *)
Definition message_matches_input (message : Message) (channel_id : string)
    (input : CreateMessage) : bool :=
  (msg_channel_id message ==? channel_id)
  && (msg_sender_id message ==? cm_sender_id input)
  && (msg_recipient_id message ==? cm_recipient_id input)
  && (msg_kind message ==? cm_kind input)
  && (msg_payload message ==? cm_payload input)
  && (msg_correlation_id message ==? cm_correlation_id input)
  && (msg_causation_id message ==? cm_causation_id input).

(** The row an INSERT without the defaulted columns creates. *)
Definition new_delivery (message_seq : Z) (agent_id : string) (created_at_ms : Z) : DeliveryRow :=
  {| d_message_seq := message_seq; d_agent_id := agent_id;
     d_state := DeliveryState.Pending; d_attempt := 0;
     d_available_at_ms := created_at_ms; d_lease_token := None;
     d_lease_expires_at_ms := None; d_last_error := None;
     d_last_settled_lease_token := None; d_last_settlement := None;
     d_acknowledged_at_ms := None; d_created_at_ms := created_at_ms |}.

(** The members an INSERT ... SELECT of the snapshot reads. *)
Definition snapshot_members (channel_id sender_id : string) (recipient_id : option string)
    (db : Db) : list MemberRow :=
  List.filter
    (λ m, (cm_channel_id m ==? channel_id)
          && match recipient_id with
             | Some recipient_id => cm_agent_id m ==? recipient_id
             | None => cm_agent_id m !=? sender_id
             end
          && (cm_delivery_mode m ==? MembershipDeliveryMode.Inbox))
    db.(channel_members).

Definition insert_delivery_snapshot (channel_id sender_id : string)
    (recipient_id : option string) (message_seq created_at_ms : Z) : M unit :=
  let* members := gets (snapshot_members channel_id sender_id recipient_id) in
  for_each members (λ m, insert (new_delivery message_seq (cm_agent_id m) created_at_ms)).

(** The AUTOINCREMENT key of [messages] is one more than the largest
    ever used, and an exhausted key is an error. *)
Definition next_message_seq : M Z := λ db,
  if db.(messages_autoinc) =? i64_max then Err (Database Full)
  else Ok (db.(messages_autoinc) + 1,
           set_messages_autoinc (db.(messages_autoinc) + 1) db).

(** [INSERT INTO messages ...]; the value is [last_insert_rowid()]. *)
Definition insert_message_row (row : Z → MessageRow) : M Z :=
  let* message_seq := next_message_seq in
  insert (row message_seq) ;;
  ret message_seq.

Definition insert_message (channel_id : string) (input : CreateMessage) (uuid : string)
    (created_at_ms : Z) : M Message :=
  let* row := channel_row channel_id in
  let* channel := lift (channel_from_row row) in
  lift (refuse (is_some (channel_archived_at_ms channel))
          (Conflict ("channel is archived: " +:+ channel_id))) ;;
  ensure_member channel_id (cm_sender_id input) ;;
  match cm_recipient_id input with
  | Some recipient_id => ensure_member channel_id recipient_id
  | None => ret tt
  end ;;
  let* payload_json := lift (to_string (cm_payload input)) in
  let* message_seq := insert_message_row (λ message_seq,
    {| m_seq := message_seq; m_id := uuid; m_channel_id := channel_id;
       m_sender_id := cm_sender_id input; m_recipient_id := cm_recipient_id input;
       m_kind := cm_kind input; m_payload_json := payload_json;
       m_correlation_id := cm_correlation_id input;
       m_causation_id := cm_causation_id input; m_created_at_ms := created_at_ms;
       m_idempotency_key := cm_idempotency_key input |}) in
  insert_delivery_snapshot channel_id (cm_sender_id input) (cm_recipient_id input)
    message_seq created_at_ms ;;
  ret {| msg_seq := message_seq; msg_id := uuid; msg_channel_id := channel_id;
         msg_sender_id := cm_sender_id input; msg_recipient_id := cm_recipient_id input;
         msg_kind := cm_kind input; msg_payload := cm_payload input;
         msg_correlation_id := cm_correlation_id input;
         msg_causation_id := cm_causation_id input; msg_created_at_ms := created_at_ms |}.

(** [WHERE sender_id = ? AND idempotency_key = ?] *)
Definition sent_with_key (sender_id key : string) (m : MessageRow) : bool :=
  (m_sender_id m ==? sender_id) && (m_idempotency_key m ==? Some key).

Definition append_message_in_transaction (channel_id : string) (input : CreateMessage)
    (uuid : string) (created_at_ms : Z) : M AppendMessageResult :=
  lift (refuse (is_blank (cm_kind input)) (Invalid "message kind must not be empty")) ;;
  lift (validate_idempotency_key (cm_idempotency_key input)) ;;
  let* existing :=
    match cm_idempotency_key input with
    | Some key => fetch_optional (sent_with_key (cm_sender_id input) key)
    | None => ret None
    end in
  match existing with
  | Some row =>
      let* message := lift (message_from_row row) in
      lift (guard (message_matches_input message channel_id input)
              (Conflict "idempotency key was already used for a different message")) ;;
      ret {| append_message := message; append_created := false |}
  | None =>
      let* message := insert_message channel_id input uuid created_at_ms in
      ret {| append_message := message; append_created := true |}
  end.

(** [append_message_idempotent]: the transaction; [append_message] projects it. *)
Definition append_message_idempotent (channel_id : string) (input : CreateMessage)
    (uuid : string) (created_at_ms : Z) : Db → Db * result AppendMessageResult :=
  transaction (append_message_in_transaction channel_id input uuid created_at_ms).

Definition get_message (message_id : string) : M Message :=
  let* row := fetch_optional (λ m, m_id m ==? message_id) in
  lift (let? row := ok_or row (NotFound "message" message_id) in message_from_row row).

Definition list_messages (channel_id : string) (after limit_arg : Z) : M MessagePage :=
  lift (refuse (after <? 0) (Invalid "message cursor must not be negative")) ;;
  ensure_exists c_id "channel" channel_id ;;
  let* rs := select (λ m, (m_channel_id m ==? channel_id) && (after <? m_seq m)) in
  let* messages := lift (collect message_from_row
                           (limit (clamp limit_arg 1 500) (sort_by (by_Z m_seq) rs))) in
  ret {| page_messages := messages;
         page_next_cursor := match last messages with
                             | Some message => msg_seq message
                             | None => after
                             end |}.

Definition list_recent_messages_before (channel_id : string) (before limit_arg : Z)
    : M (list Message) :=
  lift (refuse (before <=? 0) (Invalid "message boundary must be greater than zero")) ;;
  ensure_exists c_id "channel" channel_id ;;
  let* rs := select (λ m, (m_channel_id m ==? channel_id) && (m_seq m <? before)) in
  let* messages := lift (collect message_from_row
                           (limit (clamp limit_arg 1 500) (sort_by (by_Z_desc m_seq) rs))) in
  ret (reverse messages).

Definition latest_channel_message_seq (channel_id : string) : M Z :=
  let* row := fetch_optional (λ c, c_id c ==? channel_id) in
  lift (ok_or row (NotFound "channel" channel_id)) ;;
  gets (λ db, coalesce (max_channel_seq channel_id db) 0).

(** ** What a successful append did *)

Lemma for_each_insert_deliveries {A} (f : A → DeliveryRow) (l : list A) db u db' :
  for_each l (λ a, insert (f a)) db = Ok (u, db') →
  db' = set_agent_deliveries (db.(agent_deliveries) ++ map f l) db.
Proof.
  revert db. induction l as [|a l IH]; intros db H; simpl in H; m_inv.
  - rewrite app_nil_r. by destruct db.
  - match goal with H : insert _ _ = Ok _ |- _ => apply insert_ok in H as (_ & _ & _ & _ & ->) end.
    apply IH in H as ->. simpl. by rewrite <-app_assoc.
Qed.

Lemma insert_message_row_ok row db seq db' :
  insert_message_row row db = Ok (seq, db') →
  seq = db.(messages_autoinc) + 1 ∧ db.(messages_autoinc) ≠ i64_max
  ∧ no_conflict (db.(messages) ++ [row seq]) = true
  ∧ fk_message db (row seq) = true
  ∧ db' = set_messages (db.(messages) ++ [row seq]) (set_messages_autoinc seq db).
Proof.
  unfold insert_message_row, next_message_seq. intros H. m_inv.
  destruct (messages_autoinc db =? i64_max) eqn:Hfull; [done|].
  match goal with H : Ok _ = Ok _ |- _ => injection H as <- <- end.
  match goal with H : insert _ _ = Ok _ |- _ => apply insert_ok in H as (_ & _ & ? & ? & ->) end.
  by apply Z.eqb_neq in Hfull.
Qed.

Lemma ensure_member_ok c a db u db' :
  ensure_member c a db = Ok (u, db') →
  db' = db ∧ ∃ m, m ∈ db.(channel_members) ∧ cm_channel_id m = c ∧ cm_agent_id m = a.
Proof.
  unfold ensure_member. intros H. m_inv. bool_facts. split; [done|].
  destruct (List.filter _ _) as [|m l] eqn:E; [done|].
  assert (m ∈ List.filter (λ m, (cm_channel_id m ==? c) && (cm_agent_id m ==? a))
                (rows db)) as Hm by (rewrite E; set_solver).
  apply elem_of_list_filter in Hm as [Hp Hm]. bool_facts. eauto.
Qed.

(** The message row an append stores for its input. *)
Definition stored_message (channel_id : string) (input : CreateMessage) (uuid payload_json : string)
    (created_at_ms seq : Z) : MessageRow :=
  {| m_seq := seq; m_id := uuid; m_channel_id := channel_id;
     m_sender_id := cm_sender_id input; m_recipient_id := cm_recipient_id input;
     m_kind := cm_kind input; m_payload_json := payload_json;
     m_correlation_id := cm_correlation_id input;
     m_causation_id := cm_causation_id input; m_created_at_ms := created_at_ms;
     m_idempotency_key := cm_idempotency_key input |}.

(** The message the caller gets back for it. *)
Definition returned_message (channel_id : string) (input : CreateMessage) (uuid : string)
    (created_at_ms seq : Z) : Message :=
  {| msg_seq := seq; msg_id := uuid; msg_channel_id := channel_id;
     msg_sender_id := cm_sender_id input; msg_recipient_id := cm_recipient_id input;
     msg_kind := cm_kind input; msg_payload := cm_payload input;
     msg_correlation_id := cm_correlation_id input;
     msg_causation_id := cm_causation_id input; msg_created_at_ms := created_at_ms |}.

Lemma insert_message_ok c input uuid at_ms db m db' :
  insert_message c input uuid at_ms db = Ok (m, db') →
  ∃ ch payload_json, ch ∈ db.(channels) ∧ c_id ch = c ∧ c_archived_at_ms ch = None
  ∧ (∃ mem, mem ∈ db.(channel_members) ∧ cm_channel_id mem = c
            ∧ cm_agent_id mem = cm_sender_id input)
  ∧ (∀ r, cm_recipient_id input = Some r →
          ∃ mem, mem ∈ db.(channel_members) ∧ cm_channel_id mem = c ∧ cm_agent_id mem = r)
  ∧ to_json (cm_payload input) = Some payload_json
  ∧ let seq := db.(messages_autoinc) + 1 in
    db.(messages_autoinc) ≠ i64_max
    ∧ m = returned_message c input uuid at_ms seq
    ∧ no_conflict (db.(messages) ++ [stored_message c input uuid payload_json at_ms seq]) = true
    ∧ db' = set_agent_deliveries
              (db.(agent_deliveries)
               ++ map (λ mem, new_delivery seq (cm_agent_id mem) at_ms)
                    (snapshot_members c (cm_sender_id input) (cm_recipient_id input) db))
              (set_messages
                 (db.(messages) ++ [stored_message c input uuid payload_json at_ms seq])
                 (set_messages_autoinc seq db)).
Proof.
  intros H. unfold insert_message in H. m_inv.
  match goal with H : channel_row _ _ = Ok _ |- _ => apply channel_row_ok in H as (-> & Hin & <-) end.
  match goal with H : channel_from_row _ = Ok _ |- _ =>
    apply channel_from_row_ok in H as (_ & _ & _ & Ha) end.
  match goal with H : ensure_member _ (cm_sender_id _) _ = Ok _ |- _ =>
    apply ensure_member_ok in H as [-> Hs] end.
  match goal with H : match cm_recipient_id input with _ => _ end ?x = Ok (_, ?y) |- _ =>
    assert (y = x ∧ ∀ r, cm_recipient_id input = Some r →
       ∃ mem, mem ∈ x.(channel_members) ∧ cm_channel_id mem = c_id a ∧ cm_agent_id mem = r)
      as [-> Hr] by (destruct (cm_recipient_id input); m_inv;
                     [apply ensure_member_ok in H as [? ?]; naive_solver|naive_solver]) end.
  match goal with H : insert_message_row _ _ = Ok _ |- _ =>
    apply insert_message_row_ok in H as (-> & Hmax & Hu & _ & ->) end.
  unfold insert_delivery_snapshot, to_string in *. m_inv.
  match goal with H : for_each _ _ _ = Ok _ |- _ => apply for_each_insert_deliveries in H as -> end.
  eexists a, _. split_and!; eauto. rewrite <-Ha. by destruct (channel_archived_at_ms _).
Qed.
Lemma message_from_row_ok r m :
  message_from_row r = Ok m →
  msg_seq m = m_seq r ∧ msg_id m = m_id r ∧ msg_channel_id m = m_channel_id r
  ∧ msg_sender_id m = m_sender_id r ∧ msg_recipient_id m = m_recipient_id r
  ∧ msg_kind m = m_kind r ∧ msg_correlation_id m = m_correlation_id r
  ∧ msg_causation_id m = m_causation_id r ∧ msg_created_at_ms m = m_created_at_ms r
  ∧ from_json (m_payload_json r) = Some (msg_payload m).
Proof. unfold message_from_row, parse_json. intros H. by m_inv. Qed.

End messages.
