(* ===== verification/Triggers.v ===== *)
(** * Inbound triggers (crates/kernel/src/store/trigger.rs,
      crates/execution/src/trigger.rs)

    The registry of things that create work on their own, and what one firing
    does under a registration: the message it may create and the record of it,
    in one transaction.  [sha256_hex] is the lowercase hexadecimal digest. *)

From S2P Require Import Prelude Proto Schema Channels Messages.

Definition MAX_ACCEPTED_KINDS : nat := 32.
Definition MAX_KIND_BYTES : Z := 256.
Definition MAX_OCCURRENCE_ID_BYTES : Z := 128.
Definition MAX_AGENT_ID_BYTES : Z := 256.
Definition MAX_PAYLOAD_BYTES : Z := 65536.

(** ** store/trigger.rs *)

(** The loop of [normalize_kinds] over the kinds already accepted. *)
Fixpoint distinct_kinds (sorted kinds : list string) : result (list string) :=
  match kinds with
  | [] => Ok sorted
  | kind :: kinds =>
      refuse (is_blank kind || (MAX_KIND_BYTES <? str_len kind))
        (Invalid "a declared message kind must contain between 1 and 256 bytes") ;?
      refuse (bool_decide (kind ∈ sorted)) (Invalid ("duplicate declared message kind " +:+ kind)) ;?
      distinct_kinds (sorted ++ [kind]) kinds
  end.

Definition normalize_kinds (kinds : list string) : result (list string) :=
  refuse (kinds ==? []) (Invalid "a trigger must declare at least one message kind") ;?
  refuse (MAX_ACCEPTED_KINDS <? length kinds)%nat
    (Invalid "a trigger may declare at most 32 message kinds") ;?
  let? sorted := distinct_kinds [] kinds in
  Ok (sort_by (by_str id) sorted).

Definition new_trigger (input : RegisterTrigger) (uuid : string) (now_ms : Z)
    : result Trigger :=
  validate_name "trigger" (rt_name input) ;?
  let? accepted_kinds := normalize_kinds (rt_accepted_kinds input) in
  Ok {| trg_id := uuid; trg_name := rt_name input; trg_channel_id := rt_channel_id input;
        trg_sender_id := rt_sender_id input; trg_accepted_kinds := accepted_kinds;
        trg_state := TriggerState.Active; trg_created_at_ms := now_ms;
        trg_updated_at_ms := now_ms; trg_last_occurrence_id := None;
        trg_last_fired_at_ms := None; trg_accepted_occurrences := 0;
        trg_retired_at_ms := None; trg_retired_reason := None |}.

(** The SET clause of [retire_trigger_row]. *)
Definition set_trigger_retired (reason : string) (now : Z) (t : TriggerRow) : TriggerRow :=
  {| tr_id := tr_id t; tr_name := tr_name t; tr_channel_id := tr_channel_id t;
     tr_sender_id := tr_sender_id t; tr_accepted_kinds_json := tr_accepted_kinds_json t;
     tr_state := TriggerState.Retired; tr_created_at_ms := tr_created_at_ms t;
     tr_updated_at_ms := now; tr_last_occurrence_id := tr_last_occurrence_id t;
     tr_last_fired_at_ms := tr_last_fired_at_ms t;
     tr_accepted_occurrences := tr_accepted_occurrences t;
     tr_retired_at_ms := Some now; tr_retired_reason := Some reason |}.
(** The SET clause of [record_trigger_occurrence]. *)
Definition set_trigger_fired (occurrence_id : string) (now : Z) (t : TriggerRow) : TriggerRow :=
  {| tr_id := tr_id t; tr_name := tr_name t; tr_channel_id := tr_channel_id t;
     tr_sender_id := tr_sender_id t; tr_accepted_kinds_json := tr_accepted_kinds_json t;
     tr_state := tr_state t; tr_created_at_ms := tr_created_at_ms t;
     tr_updated_at_ms := now; tr_last_occurrence_id := Some occurrence_id;
     tr_last_fired_at_ms := Some now;
     tr_accepted_occurrences := tr_accepted_occurrences t + 1;
     tr_retired_at_ms := tr_retired_at_ms t; tr_retired_reason := tr_retired_reason t |}.

(** [WHERE id = ? AND state = 'active'] *)
Definition active_trigger (trigger_id : string) (t : TriggerRow) : bool :=
  (tr_id t ==? trigger_id) && (tr_state t ==? TriggerState.Active).

Definition retire_trigger_row (trigger_id reason : string) (now_ms : Z) : M bool :=
  let* n := update (active_trigger trigger_id) (set_trigger_retired reason now_ms) in
  ret (0 <? n)%nat.
Definition record_trigger_occurrence (trigger_id occurrence_id : string) (now_ms : Z) : M bool :=
  let* n := update (active_trigger trigger_id) (set_trigger_fired occurrence_id now_ms) in
  ret (0 <? n)%nat.

Section triggers.
Context `{J : SerdeJson} (sha256_hex : string → string).

Definition trigger_from_row (t : TriggerRow) : result Trigger :=
  let? accepted_kinds := ok_or (strings_from_json (tr_accepted_kinds_json t)) Serialization in
  guard (0 <=? tr_accepted_occurrences t)
    (Invalid "stored trigger occurrence count is negative") ;?
  Ok {| trg_id := tr_id t; trg_name := tr_name t; trg_channel_id := tr_channel_id t;
        trg_sender_id := tr_sender_id t; trg_accepted_kinds := accepted_kinds;
        trg_state := tr_state t; trg_created_at_ms := tr_created_at_ms t;
        trg_updated_at_ms := tr_updated_at_ms t;
        trg_last_occurrence_id := tr_last_occurrence_id t;
        trg_last_fired_at_ms := tr_last_fired_at_ms t;
        trg_accepted_occurrences := tr_accepted_occurrences t;
        trg_retired_at_ms := tr_retired_at_ms t;
        trg_retired_reason := tr_retired_reason t |}.

Definition insert_trigger (trigger : Trigger) : M unit :=
  let* kinds_json := lift (ok_or (strings_to_json (trg_accepted_kinds trigger)) Serialization) in
  map_unique_conflict
    (insert {| tr_id := trg_id trigger; tr_name := trg_name trigger;
               tr_channel_id := trg_channel_id trigger; tr_sender_id := trg_sender_id trigger;
               tr_accepted_kinds_json := kinds_json; tr_state := trg_state trigger;
               tr_created_at_ms := trg_created_at_ms trigger;
               tr_updated_at_ms := trg_updated_at_ms trigger; tr_last_occurrence_id := None;
               tr_last_fired_at_ms := None; tr_accepted_occurrences := 0;
               tr_retired_at_ms := None; tr_retired_reason := None |})
    "trigger name".

Definition trigger_in_transaction (trigger_id : string) : M Trigger :=
  let* row := fetch_optional (λ t, tr_id t ==? trigger_id) in
  lift (let? row := ok_or row (NotFound "trigger" trigger_id) in trigger_from_row row).

(** [Store::get_trigger], the same read outside a transaction. *)
Definition get_trigger (trigger_id : string) : M Trigger :=
  let* row := fetch_optional (λ t, tr_id t ==? trigger_id) in
  lift (let? row := ok_or row (NotFound "trigger" trigger_id) in trigger_from_row row).

Definition list_triggers (channel_id : option string) : M (list Trigger) :=
  let* rs := select (λ t, match channel_id with
                          | Some channel_id => tr_channel_id t ==? channel_id
                          | None => true
                          end) in
  lift (collect trigger_from_row (sort_by (then_by (by_Z tr_created_at_ms) (by_str tr_id)) rs)).

(** ** execution/trigger.rs *)

Definition durable_key (trigger_id occurrence_id : string) : string :=
  "trigger:" +:+ trigger_id +:+ ":occurrence:" +:+ sha256_hex occurrence_id.

Definition validate_occurrence (occurrence : TriggerOccurrence) : result unit :=
  refuse (is_blank (occurrence_id occurrence)
          || (MAX_OCCURRENCE_ID_BYTES <? str_len (occurrence_id occurrence)))
    (Invalid "occurrence_id must contain between 1 and 128 bytes") ;?
  refuse (is_blank (occurrence_recipient_id occurrence)
          || (MAX_AGENT_ID_BYTES <? str_len (occurrence_recipient_id occurrence)))
    (Invalid "recipient_id must contain between 1 and 256 bytes") ;?
  let? payload_bytes := to_string (occurrence_payload occurrence) in
  refuse (MAX_PAYLOAD_BYTES <? str_len payload_bytes)
    (Invalid "payload must not exceed 65536 encoded bytes").

(** The message a firing appends. *)
Definition occurrence_message (trigger : Trigger) (key : string)
    (occurrence : TriggerOccurrence) : CreateMessage :=
  {| cm_sender_id := trg_sender_id trigger; cm_idempotency_key := Some key;
     cm_recipient_id := Some (occurrence_recipient_id occurrence);
     cm_kind := occurrence_kind occurrence; cm_payload := occurrence_payload occurrence;
     cm_correlation_id := None; cm_causation_id := None |}.

Definition fire (trigger_id : string) (occurrence : TriggerOccurrence) (uuid : string)
    (at_ms now : Z) : M TriggerFired :=
  lift (validate_occurrence occurrence) ;;
  let idempotency_key := durable_key trigger_id (occurrence_id occurrence) in
  let* trigger := trigger_in_transaction trigger_id in
  lift (refuse (trg_state trigger !=? TriggerState.Active)
          (Conflict ("trigger " +:+ trigger_id +:+ " is retired and may not create work"))) ;;
  lift (refuse (negb (bool_decide (occurrence_kind occurrence ∈ trg_accepted_kinds trigger)))
          (Forbidden ("trigger " +:+ trg_name trigger +:+ " did not declare the message kind "
                      +:+ occurrence_kind occurrence))) ;;
  lift (refuse (occurrence_recipient_id occurrence ==? trg_sender_id trigger)
          (Invalid "recipient_id must identify a peer, not the trigger's own sender")) ;;
  let* appended :=
    append_message_in_transaction (trg_channel_id trigger)
      (occurrence_message trigger idempotency_key occurrence) uuid at_ms in
  (if append_created appended then
     let* recorded := record_trigger_occurrence trigger_id (occurrence_id occurrence) now in
     lift (guard recorded
             (Conflict ("trigger " +:+ trigger_id +:+ " was retired while it was firing")))
   else ret tt) ;;
  ret {| fired_trigger_id := trigger_id; fired_occurrence_id := occurrence_id occurrence;
         fired_message_id := msg_id (append_message appended);
         fired_created := append_created appended |}.

(** ** What a run of these operations did *)

Lemma trigger_in_transaction_ok id t db db' :
  trigger_in_transaction id db = Ok (t, db') →
  db' = db ∧ ∃ row, row ∈ db.(triggers) ∧ tr_id row = id ∧ trigger_from_row row = Ok t.
Proof.
  unfold trigger_in_transaction. intros H. m_inv. bool_facts. split; [done|]. eauto.
Qed.

Lemma fire_ok id occurrence uuid at_ms now db r db' :
  fire id occurrence uuid at_ms now db = Ok (r, db') →
  ∃ row t app db1,
    row ∈ db.(triggers) ∧ tr_id row = id ∧ trigger_from_row row = Ok t
    ∧ validate_occurrence occurrence = Ok tt
    ∧ trg_state t = TriggerState.Active ∧ occurrence_kind occurrence ∈ trg_accepted_kinds t
    ∧ occurrence_recipient_id occurrence ≠ trg_sender_id t
    ∧ append_message_in_transaction (trg_channel_id t)
        (occurrence_message t (durable_key id (occurrence_id occurrence)) occurrence) uuid at_ms db
      = Ok (app, db1)
    ∧ (if append_created app
       then record_trigger_occurrence id (occurrence_id occurrence) now db1 = Ok (true, db')
       else db' = db1)
    ∧ r = {| fired_trigger_id := id; fired_occurrence_id := occurrence_id occurrence;
             fired_message_id := msg_id (append_message app);
             fired_created := append_created app |}.
Proof.
  unfold fire. intros H. m_inv.
  match goal with H : trigger_in_transaction _ _ = Ok _ |- _ =>
    apply trigger_in_transaction_ok in H as (-> & row & Hrow & Hid & Ht) end. bool_facts.
  match goal with H : append_message_in_transaction _ _ _ _ _ = Ok (?a, _) |- _ => rename a into app end.
  eexists row, _, app, _. do 8 (split; [eassumption|]).
  destruct (append_created app); m_inv; subst; by split.
Qed.
End triggers.
