(* ===== verification/Seats.v ===== *)
(** * Desired execution of agent seats
      (crates/execution/src/seat_configuration.rs)

    The one configuration row an agent has, its revision, and the operations
    that create, change and restart it. *)

From S2P Require Import Prelude Proto Schema.

Definition MAX_PROFILE_ID_BYTES : Z := 128.
Definition MAX_INSTRUCTIONS_BYTES : Z := 32768.

Definition seat_from_row (r : SeatRow) : result AgentSeatConfiguration :=
  guard (0 <=? sc_revision r) (Invalid "stored agent seat revision is invalid") ;?
  Ok {| asc_agent_id := sc_agent_id r; asc_profile_id := sc_profile_id r;
        asc_instructions := sc_instructions r; asc_desired_state := sc_desired_state r;
        asc_revision := sc_revision r; asc_created_at_ms := sc_created_at_ms r;
        asc_updated_at_ms := sc_updated_at_ms r |}.

(** [byte.is_ascii_alphanumeric() || matches!(byte, b'.' | b'_' | b'-')] *)
Definition profile_byte (a : Ascii.ascii) : bool :=
  let n := Ascii.N_of_ascii a in
  ((48 <=? n) && (n <=? 57) || (65 <=? n) && (n <=? 90) || (97 <=? n) && (n <=? 122)
   || (n =? 46) || (n =? 95) || (n =? 45))%N.
Fixpoint all_bytes (p : Ascii.ascii → bool) (s : string) : bool :=
  match s with EmptyString => true | String a s => p a && all_bytes p s end.

Definition validate_seat (requested : ConfigureAgentSeat) : result unit :=
  refuse (is_blank (cas_profile_id requested)
          || (MAX_PROFILE_ID_BYTES <? str_len (cas_profile_id requested))
          || negb (all_bytes profile_byte (cas_profile_id requested)))
    (Invalid "profile_id must contain 1 to 128 ASCII letters, digits, dots, dashes, or underscores") ;?
  refuse (MAX_INSTRUCTIONS_BYTES <? str_len (cas_instructions requested))
    (Invalid "instructions must not exceed 32768 bytes").

Definition list_seats : M (list AgentSeatConfiguration) :=
  let* rs := select (λ _ : SeatRow, true) in
  lift (collect seat_from_row (sort_by (by_str sc_agent_id) rs)).

(** [WHERE agent_id = ?] *)
Definition seat_of (agent_id : string) (r : SeatRow) : bool := sc_agent_id r ==? agent_id.

Definition get_seat (agent_id : string) : M (option AgentSeatConfiguration) :=
  let* row := fetch_optional (seat_of agent_id) in
  lift (match row with
        | Some row => let? c := seat_from_row row in Ok (Some c)
        | None => Ok None
        end).

(** [fetch_one] and [from_row] *)
Definition read_seat (agent_id : string) : M AgentSeatConfiguration :=
  let* row := fetch_optional (seat_of agent_id) in
  lift (let? row := ok_or row (Database RowNotFound) in seat_from_row row).

Definition new_seat (agent_id : string) (requested : ConfigureAgentSeat) (now : Z) : SeatRow :=
  {| sc_agent_id := agent_id; sc_profile_id := cas_profile_id requested;
     sc_instructions := cas_instructions requested;
     sc_desired_state := cas_desired_state requested; sc_revision := 1;
     sc_created_at_ms := now; sc_updated_at_ms := now |}.
(** The SET clause of the upsert. *)
Definition set_seat (requested : ConfigureAgentSeat) (now : Z) (r : SeatRow) : SeatRow :=
  {| sc_agent_id := sc_agent_id r; sc_profile_id := cas_profile_id requested;
     sc_instructions := cas_instructions requested;
     sc_desired_state := cas_desired_state requested; sc_revision := sc_revision r + 1;
     sc_created_at_ms := sc_created_at_ms r; sc_updated_at_ms := now |}.
(** The WHERE clause of the upsert: something differs. *)
Definition seat_differs (requested : ConfigureAgentSeat) (r : SeatRow) : bool :=
  (sc_profile_id r !=? cas_profile_id requested)
  || (sc_instructions r !=? cas_instructions requested)
  || (sc_desired_state r !=? cas_desired_state requested).

(** [INSERT .. ON CONFLICT(agent_id) DO UPDATE SET .. WHERE ..] *)
Definition upsert_seat (agent_id : string) (requested : ConfigureAgentSeat) (now : Z) : M unit :=
  let* existing := fetch_optional (seat_of agent_id) in
  match existing with
  | None => insert (new_seat agent_id requested now)
  | Some _ =>
      let* _ := update (λ r, seat_of agent_id r && seat_differs requested r)
                  (set_seat requested now) in
      ret tt
  end.

Definition configure (agent_id : string) (requested : ConfigureAgentSeat) (now : Z)
    : M AgentSeatConfiguration :=
  lift (validate_seat requested) ;;
  let* exists_ := count (λ r, a_id r ==? agent_id) in
  lift (refuse (exists_ ==? O) (NotFound "agent" agent_id)) ;;
  upsert_seat agent_id requested now ;;
  read_seat agent_id.

(** The SET clause of [restart]. *)
Definition set_restarted (now : Z) (r : SeatRow) : SeatRow :=
  {| sc_agent_id := sc_agent_id r; sc_profile_id := sc_profile_id r;
     sc_instructions := sc_instructions r; sc_desired_state := sc_desired_state r;
     sc_revision := sc_revision r + 1; sc_created_at_ms := sc_created_at_ms r;
     sc_updated_at_ms := now |}.

Definition restart (agent_id : string) (now : Z) : M AgentSeatConfiguration :=
  let* changed := update (λ r, seat_of agent_id r
                               && (sc_desired_state r ==? AgentSeatDesiredState.Running))
                    (set_restarted now) in
  if changed ==? O then
    let* state := fetch_optional (seat_of agent_id) in
    match state with
    | None => fail (NotFound "agent seat configuration" agent_id)
    | Some _ =>
        fail (Conflict ("agent seat " +:+ agent_id
                        +:+ " is stopped; start it before restarting"))
    end
  else read_seat agent_id.
