(* ===== verification/Auth.v ===== *)
(** * Credentials and authentication (crates/kernel/src/auth)

    Bearer tokens are stored only as digests.  [authenticate] is the one path
    from a raw token to a principal; each authority category has its own way of
    issuing, rotating and revoking.  The digest and the base64 codec of the
    tokens are parameters ([TokenCodec]); the random bytes of a token, the id of
    a credential and the time of issue are arguments. *)

From S2P Require Import Prelude Proto Schema Channels Messages Triggers.

(** ** token.rs *)

Definition OPERATOR_TOKEN_PREFIX : string := "fl_op_".
Definition AGENT_TOKEN_PREFIX : string := "fl_ag_".
Definition TRIGGER_TOKEN_PREFIX : string := "fl_tr_".
Definition TOKEN_BYTES : nat := 32.
Definition MAX_TOKEN_LENGTH : Z := 128.
Definition MAX_RETIREMENT_REASON_BYTES : Z := 512.

(** [Sha256::digest] as bytes, and [URL_SAFE_NO_PAD] of the base64 crate. *)
Class TokenCodec := {
  sha256 : string → string;
  b64_encode : string → string;
  b64_decode : string → option string;
}.
(** What their documentation says of them: a digest has 32 bytes, decoding
    undoes encoding, and n bytes are encoded in ceil(4n/3) characters. *)
Class TokenCodecLaws (C : TokenCodec) := {
  sha256_length : ∀ s, String.length (sha256 s) = 32%nat;
  b64_decode_encode : ∀ s, b64_decode (b64_encode s) = Some s;
  b64_encode_length : ∀ s, String.length (b64_encode s) = ((4 * String.length s + 2) / 3)%nat;
}.

(** [token.starts_with(prefix)] and the rest of the token after it *)
Fixpoint strip_prefix (prefix token : string) : option string :=
  match prefix, token with
  | EmptyString, _ => Some token
  | String a prefix, String b token => if a ==? b then strip_prefix prefix token else None
  | String _ _, EmptyString => None
  end.

Section auth.
Context `{J : SerdeJson} `{C : TokenCodec}.

Definition generate_token (prefix bytes : string) : string := prefix +:+ b64_encode bytes.

Definition issue_credential (prefix uuid bytes : string) (now : Z) : IssuedCredential :=
  {| issued_id := uuid; issued_token := generate_token prefix bytes;
     issued_created_at_ms := now |}.

Definition token_digest (token : string) : string := sha256 token.

Definition validate_token_shape (token prefix source : string) : result unit :=
  refuse (MAX_TOKEN_LENGTH <? str_len token)
    (Credential (source +:+ " contains an invalid credential")) ;?
  let? rest := ok_or (strip_prefix prefix token)
                 (Credential (source +:+ " contains an invalid credential")) in
  let? decoded := ok_or (b64_decode rest)
                    (Credential (source +:+ " contains invalid encoding")) in
  refuse (String.length decoded !=? TOKEN_BYTES)
    (Credential (source +:+ " contains invalid entropy")).

(** ** principal.rs *)

Inductive Principal :=
| POperator (credential_id : string)
| PAgent (credential_id agent_id : string)
| PTrigger (credential_id trigger_id : string).
#[global] Instance Principal_eq_dec : EqDecision Principal.
Proof. solve_decision. Defined.

Definition is_operator (p : Principal) : bool :=
  match p with POperator _ => true | _ => false end.
Definition principal_agent_id (p : Principal) : option string :=
  match p with PAgent _ agent_id => Some agent_id | _ => None end.
Definition principal_trigger_id (p : Principal) : option string :=
  match p with PTrigger _ trigger_id => Some trigger_id | _ => None end.
Definition principal_credential_id (p : Principal) : string :=
  match p with
  | POperator credential_id | PAgent credential_id _ | PTrigger credential_id _ => credential_id
  end.

(** ** mod.rs *)

Definition principal_from_row (credential_id : string) (c : CredentialRow) : result Principal :=
  match cr_principal_kind c, cr_agent_id c, cr_trigger_id c with
  | PrincipalKind.Operator, None, None => Ok (POperator credential_id)
  | PrincipalKind.Agent, Some agent_id, None => Ok (PAgent credential_id agent_id)
  | PrincipalKind.Trigger, None, Some trigger_id => Ok (PTrigger credential_id trigger_id)
  | _, _, _ => Err (Credential "credential principal invariant is invalid")
  end.

Definition authenticate (token : string) : M Principal :=
  lift (refuse ((token ==? "") || (MAX_TOKEN_LENGTH <? str_len token)) Unauthorized) ;;
  let digest := token_digest token in
  let* row := fetch_optional (λ c, (cr_token_digest c ==? digest)
                                   && is_none (cr_revoked_at_ms c)) in
  let* row := lift (ok_or row Unauthorized) in
  lift (principal_from_row (cr_id row) row).

Definition revalidate_principal (expected : Principal) : M bool :=
  let* row := fetch_optional (λ c, (cr_id c ==? principal_credential_id expected)
                                   && is_none (cr_revoked_at_ms c)) in
  match row with
  | None => ret false
  | Some row =>
      let* actual := lift (principal_from_row (principal_credential_id expected) row) in
      ret (actual ==? expected)
  end.

(** [SET revoked_at_ms = ?] *)
Definition set_revoked (now : Z) (c : CredentialRow) : CredentialRow :=
  {| cr_id := cr_id c; cr_principal_kind := cr_principal_kind c; cr_agent_id := cr_agent_id c;
     cr_trigger_id := cr_trigger_id c; cr_token_digest := cr_token_digest c;
     cr_created_at_ms := cr_created_at_ms c; cr_revoked_at_ms := Some now |}.

Definition new_credential (kind : PrincipalKind.t) (agent_id trigger_id : option string)
    (id digest : string) (now : Z) : CredentialRow :=
  {| cr_id := id; cr_principal_kind := kind; cr_agent_id := agent_id;
     cr_trigger_id := trigger_id; cr_token_digest := digest; cr_created_at_ms := now;
     cr_revoked_at_ms := None |}.

(** ** agent.rs *)

Definition insert_agent_credential (agent_id : string) (issued : IssuedCredential)
    (digest : string) : M unit :=
  insert (new_credential PrincipalKind.Agent (Some agent_id) None (issued_id issued) digest
            (issued_created_at_ms issued)).

Definition register_agent (input : CreateAgent) (credential_uuid bytes uuid : string) (now : Z)
    : M RegisteredAgent :=
  lift (validate_name "agent" (ca_name input)) ;;
  let issued := issue_credential AGENT_TOKEN_PREFIX credential_uuid bytes now in
  let digest := token_digest (issued_token issued) in
  let agent := {| agent_id := uuid; agent_name := ca_name input;
                  agent_metadata := ca_metadata input;
                  agent_created_at_ms := issued_created_at_ms issued |} in
  let* metadata_json := lift (to_string (agent_metadata agent)) in
  map_unique_conflict
    (insert {| a_id := agent_id agent; a_name := agent_name agent;
               a_metadata_json := metadata_json;
               a_created_at_ms := agent_created_at_ms agent |}) "agent name" ;;
  insert_agent_credential (agent_id agent) issued digest ;;
  ret {| registered_agent := agent; registered_agent_credential := issued |}.

(** The active credentials of an agent. *)
Definition active_agent_credential (agent_id : string) (c : CredentialRow) : bool :=
  (cr_principal_kind c ==? PrincipalKind.Agent) && (cr_agent_id c ==? Some agent_id)
  && is_none (cr_revoked_at_ms c).

Definition rotate_agent_credential (agent_id credential_uuid bytes : string) (now : Z)
    : M IssuedCredential :=
  let issued := issue_credential AGENT_TOKEN_PREFIX credential_uuid bytes now in
  let digest := token_digest (issued_token issued) in
  let* exists_ := count (λ r, a_id r ==? agent_id) in
  lift (refuse (exists_ ==? O) (NotFound "agent" agent_id)) ;;
  let* _ := update (active_agent_credential agent_id)
              (set_revoked (issued_created_at_ms issued)) in
  insert_agent_credential agent_id issued digest ;;
  ret issued.

(** ** operator.rs *)

Definition active_operator_credential (c : CredentialRow) : bool :=
  (cr_principal_kind c ==? PrincipalKind.Operator) && is_none (cr_revoked_at_ms c).

Definition rotate_operator_digest (digest uuid : string) (now : Z) : M unit :=
  let* _ := update active_operator_credential (set_revoked now) in
  insert (new_credential PrincipalKind.Operator None None uuid digest now).

(** [token] is the trimmed content of the private token file, which
    [ensure_token_file] creates when it is missing; the result says whether the
    credential was rotated. *)
Definition ensure_operator_credential (token uuid : string) (now : Z) : M bool :=
  lift (validate_token_shape token OPERATOR_TOKEN_PREFIX "operator token file") ;;
  let digest := token_digest token in
  let* row := fetch_optional (λ c, (cr_principal_kind c ==? PrincipalKind.Operator)
                                   && (cr_token_digest c ==? digest)) in
  match cr_revoked_at_ms <$> row with
  | Some None => ret false
  | Some (Some _) =>
      fail (Credential "operator token file holds a credential that was explicitly revoked; delete the file to provision a replacement")
  | None => rotate_operator_digest digest uuid now ;; ret true
  end.

(** ** trigger.rs *)

Definition active_trigger_credential (trigger_id : string) (c : CredentialRow) : bool :=
  (cr_principal_kind c ==? PrincipalKind.Trigger) && (cr_trigger_id c ==? Some trigger_id)
  && is_none (cr_revoked_at_ms c).

Definition revoke_trigger_credentials (trigger_id : string) (now_ms : Z) : M unit :=
  let* _ := update (active_trigger_credential trigger_id) (set_revoked now_ms) in
  ret tt.

Definition register_trigger (input : RegisterTrigger) (credential_uuid bytes uuid : string)
    (now : Z) : M RegisteredTrigger :=
  let issued := issue_credential TRIGGER_TOKEN_PREFIX credential_uuid bytes now in
  let digest := token_digest (issued_token issued) in
  let* trigger := lift (new_trigger input uuid (issued_created_at_ms issued)) in
  insert_trigger trigger ;;
  insert (new_credential PrincipalKind.Trigger None (Some (trg_id trigger)) (issued_id issued)
            digest (issued_created_at_ms issued)) ;;
  ret {| registered_trigger := trigger; registered_trigger_credential := issued |}.

(** The transaction of [retire_trigger], which reads the trigger back after it. *)
Definition retire_trigger_transaction (trigger_id reason : string) (now : Z) : M unit :=
  lift (refuse (is_blank reason || (MAX_RETIREMENT_REASON_BYTES <? str_len reason))
          (Invalid "a retirement reason must contain between 1 and 512 bytes")) ;;
  let* retired := retire_trigger_row trigger_id reason now in
  if (retired : bool) then revoke_trigger_credentials trigger_id now else ret tt.

(** [rotate_trigger_credential] reads the registration before it opens its
    transaction: the check is one step, the transaction another. *)
Definition rotate_trigger_check (trigger_id : string) : M unit :=
  let* trigger := get_trigger trigger_id in
  lift (refuse (trg_state trigger !=? TriggerState.Active)
          (Conflict ("trigger " +:+ trigger_id +:+ " is retired and cannot hold a credential"))).
Definition rotate_trigger_transaction (trigger_id : string) (issued : IssuedCredential)
    : M IssuedCredential :=
  let digest := token_digest (issued_token issued) in
  revoke_trigger_credentials trigger_id (issued_created_at_ms issued) ;;
  insert (new_credential PrincipalKind.Trigger None (Some trigger_id) (issued_id issued) digest
            (issued_created_at_ms issued)) ;;
  ret issued.
(** The whole call when nothing runs between the two. *)
Definition rotate_trigger_credential (trigger_id credential_uuid bytes : string) (now : Z)
    : M IssuedCredential :=
  let issued := issue_credential TRIGGER_TOKEN_PREFIX credential_uuid bytes now in
  rotate_trigger_check trigger_id ;;
  rotate_trigger_transaction trigger_id issued.
End auth.
