(* ===== verification/Grants.v ===== *)
(** * Invocation-scoped message grants (crates/execution/src/message_grant.rs)

    The broker holds at most one grant.  A grant fixes what a publish may say;
    the mutex is held through the durable append, so a publish is one step of the
    broker and one transaction of the store.  [sha256_hex] is the lowercase
    hexadecimal digest.  The file ends with the permission decisions of a turn
    (crates/execution/src/permission.rs). *)

From S2P Require Import Prelude Proto Schema Channels Messages.

(** ** The trait [ManagedTurnGrant] of controller.rs

    A capability that is armed for one invocation and revoked afterwards.
    [grant_holder] is the invocation it is armed for; the laws are what the
    controller relies on. *)

Class ManagedTurnGrant `{J : SerdeJson} (G : Type) := {
  grant_holder : G → option string;
  activate : Invocation → Z → G → G * (unit + string);
  deactivate : string → G → G;
}.
Class ManagedTurnGrantLaws `{J : SerdeJson} (G : Type) {MG : ManagedTurnGrant G} := {
  activate_holds : ∀ invocation now g g',
    activate invocation now g = (g', inl tt) → grant_holder g' = Some (inv_id invocation);
  activate_refused : ∀ invocation now g g' e,
    activate invocation now g = (g', inr e) → g' = g;
  activate_idle : ∀ invocation now g g',
    activate invocation now g = (g', inl tt) → grant_holder g = None;
  deactivate_revokes : ∀ id g, grant_holder (deactivate id g) ≠ Some id;
  deactivate_other : ∀ id g, grant_holder g ≠ Some id → deactivate id g = g;
}.

(** ** The message broker *)

Definition MAX_MESSAGES_PER_INVOCATION : Z := 8.
Definition MAX_OPERATION_ID_BYTES : Z := 128.
Definition MAX_AGENT_ID_BYTES : Z := 256.
Definition MAX_MESSAGE_KIND_BYTES : Z := 256.
Definition MAX_PAYLOAD_BYTES : Z := 65536.
Definition u32_max : Z := 4294967295.

Record ActiveMessageGrant := {
  ag_invocation_id : string;
  ag_sender_id : string;
  ag_channel_id : string;
  ag_source_message_id : string;
  ag_correlation_id : string;
  ag_expires_at_ms : Z;
  ag_published_messages : Z;
  ag_operations : list string;
}.
(** [MessageBrokerInner::active]; the store is the database state. *)
Definition MessageBroker : Type := option ActiveMessageGrant.

Section broker.
Context `{J : SerdeJson} (sha256_hex : string → string).

Record PublishMessageInput := {
  pm_operation_id : string; pm_recipient_id : string; pm_kind : string; pm_payload : Value }.
Record PublishMessageOutput := {
  po_message_id : string; po_seq : Z; po_created : bool; po_channel_id : string;
  po_correlation_id : string; po_causation_id : string }.

(** What a call of [publish] does: return, refuse with a caller-safe text, or
    panic in one of its two [expect]s. *)
Inductive PublishResult :=
| Published (output : PublishMessageOutput)
| Refused (reason : string)
| Panicked (reason : string).

Definition activate_message_grant (invocation : Invocation) (now : Z) (active : MessageBroker)
    : MessageBroker * (unit + string) :=
  if inv_lease_expires_at_ms invocation <=? now then
    (active, inr "invocation lease already expired")
  else match active with
  | Some _ => (active, inr "message grant already has an active invocation")
  | None =>
      (Some {| ag_invocation_id := inv_id invocation; ag_sender_id := inv_agent_id invocation;
               ag_channel_id := msg_channel_id (inv_message invocation);
               ag_source_message_id := msg_id (inv_message invocation);
               ag_correlation_id := match msg_correlation_id (inv_message invocation) with
                                    | Some correlation_id => correlation_id
                                    | None => msg_id (inv_message invocation)
                                    end;
               ag_expires_at_ms := inv_lease_expires_at_ms invocation;
               ag_published_messages := 0; ag_operations := [] |}, inl tt)
  end.

Definition deactivate_message_grant (invocation_id : string) (active : MessageBroker)
    : MessageBroker :=
  match active with
  | Some grant => if ag_invocation_id grant ==? invocation_id then None else active
  | None => active
  end.

Definition validate_publish_input (input : PublishMessageInput) : unit + string :=
  if is_blank (pm_operation_id input) || (MAX_OPERATION_ID_BYTES <? str_len (pm_operation_id input))
  then inr "operation_id must contain between 1 and 128 bytes" else
  if is_blank (pm_recipient_id input) || (MAX_AGENT_ID_BYTES <? str_len (pm_recipient_id input))
  then inr "recipient_id must contain between 1 and 256 bytes" else
  if is_blank (pm_kind input) || (MAX_MESSAGE_KIND_BYTES <? str_len (pm_kind input))
  then inr "kind must contain between 1 and 256 bytes" else
  match to_json (pm_payload input) with
  | None => inr "payload could not be encoded as JSON"
  | Some payload_bytes =>
      if MAX_PAYLOAD_BYTES <? str_len payload_bytes
      then inr "payload must not exceed 65536 encoded bytes" else inl tt
  end.

Definition public_fleet_error (error : FleetError) : string :=
  match error with
  | NotFound _ _ | NotMember _ _ | Invalid _ | Forbidden _ | Conflict _ =>
      error_to_string (λ _, "") error
  | _ => "Fleetd could not commit the durable message"
  end.

(** The idempotency key and the message of one operation under a grant. *)
Definition publish_key (grant : ActiveMessageGrant) (operation_id : string) : string :=
  "invocation:" +:+ ag_invocation_id grant +:+ ":publish:" +:+ sha256_hex operation_id.
Definition publish_message (grant : ActiveMessageGrant) (input : PublishMessageInput)
    : CreateMessage :=
  {| cm_sender_id := ag_sender_id grant;
     cm_idempotency_key := Some (publish_key grant (pm_operation_id input));
     cm_recipient_id := Some (pm_recipient_id input);
     cm_kind := pm_kind input; cm_payload := pm_payload input;
     cm_correlation_id := Some (ag_correlation_id grant);
     cm_causation_id := Some (ag_source_message_id grant) |}.

(** The two mutations of the grant after the append. *)
Definition record_operation (created : bool) (operation_id : string) (grant : ActiveMessageGrant)
    : ActiveMessageGrant :=
  {| ag_invocation_id := ag_invocation_id grant; ag_sender_id := ag_sender_id grant;
     ag_channel_id := ag_channel_id grant; ag_source_message_id := ag_source_message_id grant;
     ag_correlation_id := ag_correlation_id grant; ag_expires_at_ms := ag_expires_at_ms grant;
     ag_published_messages :=
       if created then Z.min u32_max (ag_published_messages grant + 1)
       else ag_published_messages grant;
     ag_operations :=
       if bool_decide (operation_id ∈ ag_operations grant) then ag_operations grant
       else operation_id :: ag_operations grant |}.

Definition publish_output (result : AppendMessageResult) : PublishResult :=
  let message := append_message result in
  match msg_correlation_id message, msg_causation_id message with
  | Some correlation_id, Some causation_id =>
      Published {| po_message_id := msg_id message; po_seq := msg_seq message;
                   po_created := append_created result; po_channel_id := msg_channel_id message;
                   po_correlation_id := correlation_id; po_causation_id := causation_id |}
  | None, _ => Panicked "broker always supplies correlation ID"
  | _, None => Panicked "broker always supplies causation ID"
  end.

(** One call: [uuid] and [at_ms] are drawn by the append. *)
Definition publish (input : PublishMessageInput) (now : Z) (uuid : string) (at_ms : Z)
    (active : MessageBroker) (db : Db) : MessageBroker * Db * PublishResult :=
  match validate_publish_input input with
  | inr reason => (active, db, Refused reason)
  | inl _ =>
  match active with
  | None => (active, db, Refused "no active Fleetd invocation grants message publishing")
  | Some grant =>
  if ag_expires_at_ms grant <=? now then
    (active, db, Refused "the active Fleetd invocation grant has expired")
  else if pm_recipient_id input ==? ag_sender_id grant then
    (active, db, Refused "recipient_id must identify a peer, not the sending agent")
  else
  let known_operation := bool_decide (pm_operation_id input ∈ ag_operations grant) in
  if negb known_operation && (MAX_MESSAGES_PER_INVOCATION <=? ag_published_messages grant) then
    (active, db, Refused "this invocation may publish at most 8 messages")
  else
  match append_message_idempotent (ag_channel_id grant) (publish_message grant input) uuid at_ms db with
  | (db', Err error) => (active, db', Refused (public_fleet_error error))
  | (db', Ok result) =>
      (Some (record_operation (append_created result) (pm_operation_id input) grant), db',
       publish_output result)
  end
  end
  end.

(** ** The broker is a managed turn grant *)

#[export] Instance message_broker_grant : ManagedTurnGrant MessageBroker := {|
  grant_holder active := ag_invocation_id <$> active;
  activate := activate_message_grant;
  deactivate := deactivate_message_grant;
|}.
#[export] Instance message_broker_laws : ManagedTurnGrantLaws MessageBroker.
Proof.
  split; simpl; unfold activate_message_grant, deactivate_message_grant.
  - intros i now g g'. by destruct (_ <=? _), g; intros [= <-].
  - intros i now g g' e. by destruct (_ <=? _), g; intros [= <-].
  - intros i now g g'. by destruct (_ <=? _), g; intros [= <-].
  - intros id [g|]; [|done]. simpl. case_bool_decide; [done|]. simpl. congruence.
  - intros id [g|]; [|done]. simpl. intros Hne. rewrite bool_decide_false; congruence.
Qed.

(** ** What a call did *)

Lemma publish_cases input now uuid at_ms active db :
  (∃ reason, publish input now uuid at_ms active db = (active, db, Refused reason))
  ∨ ∃ grant result db',
      active = Some grant ∧ validate_publish_input input = inl tt
      ∧ now < ag_expires_at_ms grant ∧ pm_recipient_id input ≠ ag_sender_id grant
      ∧ (pm_operation_id input ∈ ag_operations grant
         ∨ ag_published_messages grant < MAX_MESSAGES_PER_INVOCATION)
      ∧ append_message_in_transaction (ag_channel_id grant) (publish_message grant input) uuid at_ms db
        = Ok (result, db')
      ∧ publish input now uuid at_ms active db
        = (Some (record_operation (append_created result) (pm_operation_id input) grant), db',
           publish_output result).
Proof.
  unfold publish. destruct (validate_publish_input input) as [[]|]; [|by left; eauto].
  destruct active as [grant|]; [|by left; eauto].
  destruct (Z.leb_spec (ag_expires_at_ms grant) now); [by left; eauto|].
  case_bool_decide; [by left; eauto|]. cbv zeta.
  destruct (negb _ && _) eqn:Hb; [by left; eauto|].
  unfold append_message_idempotent, transaction.
  destruct (append_message_in_transaction _ _ _ _ _) as [[result db']|error] eqn:Happ; [|by left; eauto].
  right. exists grant, result, db'. split_and!; try done.
  apply andb_false_iff in Hb as [Hb|Hb]; [left|right; by apply Z.leb_gt].
  by apply negb_false_iff, bool_decide_eq_true in Hb.
Qed.
End broker.

(** ** Permission decisions (crates/execution/src/permission.rs) *)

Inductive PermissionPolicy := Deny | AllowOnce.
#[global] Instance PermissionPolicy_eq_dec : EqDecision PermissionPolicy.
Proof. solve_decision. Defined.
Definition policy_as_str (policy : PermissionPolicy) : string :=
  match policy with Deny => "deny" | AllowOnce => "allow_once" end.

Section permission.
Context `{J : SerdeJson} {JT : JsonTree}.

Record PermissionDecision := { decision_outcome : PermissionOutcome; decision_evidence : Value }.

Definition cancelled (policy : PermissionPolicy) (reason : string) : PermissionDecision :=
  {| decision_outcome := Cancelled;
     decision_evidence :=
       json_object [("policy", json_string (policy_as_str policy));
                    ("decision", json_string "cancelled"); ("reason", json_string reason)] |}.

(** The [filter_map] of [decide]: the identifier of an option of kind allow_once. *)
Definition allow_once_id (choice : Value) : option string :=
  if (json_get "kind" choice ≫= json_as_str) !=? Some "allow_once" then None
  else match json_get "optionId" choice ≫= json_as_str with
       | Some option_id => if is_blank option_id then None else Some option_id
       | None => None
       end.

Definition decide (policy : PermissionPolicy) (request : PermissionRequested)
    : PermissionDecision :=
  if policy ==? Deny then cancelled policy "policy_denied" else
  match omap allow_once_id (pq_options request) with
  | [] => cancelled policy "allow_once_option_missing"
  | [option_id] =>
      {| decision_outcome := Selected option_id;
         decision_evidence :=
           json_object [("policy", json_string (policy_as_str policy));
                        ("decision", json_string "selected");
                        ("option_kind", json_string "allow_once");
                        ("option_id", json_string option_id)] |}
  | _ => cancelled policy "allow_once_option_ambiguous"
  end.
End permission.
