(* ===== verification/Deliveries.v ===== *)
(** * The delivery row and its state machine (crates/kernel/src/delivery.rs)

    Every transition a delivery row can make, the validators of its inputs, the
    operator's block resolution and the read models over the inbox. *)

From S2P Require Import Prelude Proto Schema Channels Messages.

Definition MAX_CLAIM_LIMIT : Z := 100.
Definition MAX_LEASE_DURATION_MS : Z := 3600000.
Definition MAX_RETRY_DELAY_MS : Z := 86400000.
Definition MAX_ERROR_LENGTH : Z := 4096.

(** ** Validators *)

Definition validate_claim (input : ClaimDeliveries) : result unit :=
  refuse ((claim_limit input ==? 0) || (MAX_CLAIM_LIMIT <? claim_limit input))
    (Invalid "claim limit must be between 1 and 100") ;?
  refuse ((claim_lease_duration_ms input ==? 0)
          || (MAX_LEASE_DURATION_MS <? claim_lease_duration_ms input))
    (Invalid "lease duration must be between 1 and 3600000 milliseconds").

Definition validate_token (lease_token : string) : result unit :=
  refuse (is_blank lease_token) (Invalid "lease token must not be empty").

Definition validate_evidence (label : string) (value : option string) : result unit :=
  match value with
  | None => Ok tt
  | Some value =>
      refuse (MAX_ERROR_LENGTH <? str_len value)
        (Invalid (label +:+ " must not exceed 4096 bytes")) ;?
      refuse (is_blank value) (Invalid (label +:+ " must not be empty"))
  end.

Definition validate_retry (input : RetryDelivery) : result unit :=
  validate_token (retry_lease_token input) ;?
  refuse (MAX_RETRY_DELAY_MS <? retry_after_ms input)
    (Invalid "retry delay must not exceed 86400000 milliseconds") ;?
  refuse (match retry_error input with
          | Some error => MAX_ERROR_LENGTH <? str_len error
          | None => false
          end) (Invalid "retry error must not exceed 4096 bytes").

Definition validate_block (input : BlockDelivery) : result unit :=
  validate_token (block_lease_token input) ;?
  validate_evidence "block reason" (Some (block_reason input)).

Definition validate_resolution (block_id : Z) (input : ResolveDeliveryBlock) : result unit :=
  refuse (block_id <=? 0) (Invalid "delivery block ID must be positive") ;?
  refuse (MAX_RETRY_DELAY_MS <? rdb_retry_after_ms input)
    (Invalid "retry delay must not exceed 86400000 milliseconds") ;?
  refuse ((rdb_resolution input ==? Abandon) && (rdb_retry_after_ms input !=? 0))
    (Invalid "abandoned blocks cannot have a retry delay") ;?
  validate_evidence "resolution note" (rdb_note input).

Definition ensure_agent (agent_id : string) : M unit := ensure_exists a_id "agent" agent_id.

(** ** The exact row a settlement may touch *)

Inductive DeliveryKey := KeyMessageId (id : string) | KeySeq (seq : Z).
Inductive LeaseWindow := Live | Expired.
Record LeasedRow := {
  lr_key : DeliveryKey;
  lr_agent_id : string;
  lr_lease_token : string;
  lr_window : LeaseWindow;
  lr_now : Z;
}.

(** [(SELECT seq FROM messages WHERE id = ?)] *)
Definition seq_of_message_id (ms : list MessageRow) (id : string) : option Z :=
  m_seq <$> List.find (λ m, m_id m ==? id) ms.

Definition key_matches (ms : list MessageRow) (key : DeliveryKey) (d : DeliveryRow) : bool :=
  match key with
  | KeyMessageId id => Some (d_message_seq d) ==? seq_of_message_id ms id
  | KeySeq seq => d_message_seq d ==? seq
  end.
Definition window_matches (window : LeaseWindow) (now : Z) (d : DeliveryRow) : bool :=
  match d_lease_expires_at_ms d with
  | None => false
  | Some expiry => match window with Live => now <? expiry | Expired => expiry <=? now end
  end.
Definition leased_row_matches (ms : list MessageRow) (row : LeasedRow) (d : DeliveryRow) : bool :=
  key_matches ms (lr_key row) d && (d_agent_id d ==? lr_agent_id row)
  && (d_state d ==? DeliveryState.Leased) && (d_lease_token d ==? Some (lr_lease_token row))
  && window_matches (lr_window row) (lr_now row) d.

(** [UPDATE agent_deliveries SET {set} WHERE <this row>]; whether it moved. *)
Definition update_leased_row (row : LeasedRow) (set : DeliveryRow → DeliveryRow) : M bool :=
  let* ms := gets messages in
  let* n := update (leased_row_matches ms row) set in
  ret (n ==? 1%nat).

(** ** The SET clauses *)

Definition settle_acknowledged (lease_token : string) (now : Z) (d : DeliveryRow) : DeliveryRow :=
  {| d_message_seq := d_message_seq d; d_agent_id := d_agent_id d;
     d_state := DeliveryState.Acknowledged; d_attempt := d_attempt d;
     d_available_at_ms := d_available_at_ms d; d_lease_token := None;
     d_lease_expires_at_ms := None; d_last_error := d_last_error d;
     d_last_settled_lease_token := Some lease_token;
     d_last_settlement := Some "acknowledged"; d_acknowledged_at_ms := Some now;
     d_created_at_ms := d_created_at_ms d |}.

Definition settle_retry (available_at_ms : Z) (error : option string) (lease_token : string)
    (d : DeliveryRow) : DeliveryRow :=
  {| d_message_seq := d_message_seq d; d_agent_id := d_agent_id d;
     d_state := DeliveryState.Pending; d_attempt := d_attempt d;
     d_available_at_ms := available_at_ms; d_lease_token := None;
     d_lease_expires_at_ms := None; d_last_error := error;
     d_last_settled_lease_token := Some lease_token; d_last_settlement := Some "retry";
     d_acknowledged_at_ms := None; d_created_at_ms := d_created_at_ms d |}.

Definition settle_blocked (reason lease_token : string) (d : DeliveryRow) : DeliveryRow :=
  {| d_message_seq := d_message_seq d; d_agent_id := d_agent_id d;
     d_state := DeliveryState.Blocked; d_attempt := d_attempt d;
     d_available_at_ms := d_available_at_ms d; d_lease_token := None;
     d_lease_expires_at_ms := None; d_last_error := Some reason;
     d_last_settled_lease_token := Some lease_token; d_last_settlement := Some "blocked";
     d_acknowledged_at_ms := None; d_created_at_ms := d_created_at_ms d |}.

Definition lease_row (lease_token : string) (lease_expires_at_ms : Z) (d : DeliveryRow)
    : DeliveryRow :=
  {| d_message_seq := d_message_seq d; d_agent_id := d_agent_id d;
     d_state := DeliveryState.Leased; d_attempt := d_attempt d + 1;
     d_available_at_ms := d_available_at_ms d; d_lease_token := Some lease_token;
     d_lease_expires_at_ms := Some lease_expires_at_ms; d_last_error := d_last_error d;
     d_last_settled_lease_token := d_last_settled_lease_token d;
     d_last_settlement := d_last_settlement d;
     d_acknowledged_at_ms := d_acknowledged_at_ms d; d_created_at_ms := d_created_at_ms d |}.

(** [state = 'pending', last_error = COALESCE(?, last_error), ...] *)
Definition requeue_row (available_at_ms : Z) (note : option string) (d : DeliveryRow)
    : DeliveryRow :=
  {| d_message_seq := d_message_seq d; d_agent_id := d_agent_id d;
     d_state := DeliveryState.Pending; d_attempt := d_attempt d;
     d_available_at_ms := available_at_ms; d_lease_token := d_lease_token d;
     d_lease_expires_at_ms := d_lease_expires_at_ms d;
     d_last_error := match note with Some note => Some note | None => d_last_error d end;
     d_last_settled_lease_token := None; d_last_settlement := None;
     d_acknowledged_at_ms := d_acknowledged_at_ms d; d_created_at_ms := d_created_at_ms d |}.

Definition abandon_row (note : option string) (d : DeliveryRow) : DeliveryRow :=
  {| d_message_seq := d_message_seq d; d_agent_id := d_agent_id d;
     d_state := DeliveryState.Dead; d_attempt := d_attempt d;
     d_available_at_ms := d_available_at_ms d; d_lease_token := d_lease_token d;
     d_lease_expires_at_ms := d_lease_expires_at_ms d;
     d_last_error := match note with Some note => Some note | None => d_last_error d end;
     d_last_settled_lease_token := None; d_last_settlement := None;
     d_acknowledged_at_ms := d_acknowledged_at_ms d; d_created_at_ms := d_created_at_ms d |}.

(** ** Settlements *)

Definition mark_acknowledged (agent_id message_id lease_token : string) (now : Z) : M bool :=
  update_leased_row
    {| lr_key := KeyMessageId message_id; lr_agent_id := agent_id;
       lr_lease_token := lease_token; lr_window := Live; lr_now := now |}
    (settle_acknowledged lease_token now).

Definition mark_retry (agent_id message_id : string) (input : RetryDelivery)
    (available_at_ms now : Z) : M bool :=
  update_leased_row
    {| lr_key := KeyMessageId message_id; lr_agent_id := agent_id;
       lr_lease_token := retry_lease_token input; lr_window := Live; lr_now := now |}
    (settle_retry available_at_ms (retry_error input) (retry_lease_token input)).

Definition mark_blocked (agent_id message_id : string) (input : BlockDelivery) (now : Z)
    : M bool :=
  update_leased_row
    {| lr_key := KeyMessageId message_id; lr_agent_id := agent_id;
       lr_lease_token := block_lease_token input; lr_window := Live; lr_now := now |}
    (settle_blocked (block_reason input) (block_lease_token input)).

Definition block_expired_lease (agent_id : string) (message_seq : Z)
    (lease_token reason : string) (now : Z) : M bool :=
  update_leased_row
    {| lr_key := KeySeq message_seq; lr_agent_id := agent_id;
       lr_lease_token := lease_token; lr_window := Expired; lr_now := now |}
    (settle_blocked reason lease_token).

Definition acknowledge_leased_seq (agent_id : string) (message_seq : Z) (lease_token : string)
    (now : Z) : M bool :=
  update_leased_row
    {| lr_key := KeySeq message_seq; lr_agent_id := agent_id;
       lr_lease_token := lease_token; lr_window := Live; lr_now := now |}
    (settle_acknowledged lease_token now).

(** [settle_miss]: the settlement found no live lease; an identical earlier
    settlement under the same token is a success. *)
Definition settle_miss (agent_id message_id lease_token expected_settlement : string) : M unit :=
  let* rs := gets (λ db, List.filter (λ r, (d_agent_id r.1 ==? agent_id)
                                           && (m_id r.2 ==? message_id))
                     (join (λ d m, m_seq m ==? d_message_seq d)
                        db.(agent_deliveries) db.(messages))) in
  match head rs with
  | None => fail (NotFound "delivery" (agent_id +:+ "/" +:+ message_id))
  | Some (d, _) =>
      lift (guard ((d_last_settled_lease_token d ==? Some lease_token)
                   && (d_last_settlement d ==? Some expected_settlement))
              (LeaseConflict "lease is expired, invalid, or owned by another worker"))
  end.

(** ** Leasing *)

(** [state = 'pending' OR (state = 'leased' AND lease_expires_at_ms <= now)] *)
Definition claimable (agent_id : string) (now : Z) (d : DeliveryRow) : bool :=
  (d_agent_id d ==? agent_id) && (d_available_at_ms d <=? now)
  && ((d_state d ==? DeliveryState.Pending)
      || ((d_state d ==? DeliveryState.Leased)
          && match d_lease_expires_at_ms d with Some e => e <=? now | None => false end)).

Definition delivery_key (d : DeliveryRow) : Z * string := (d_message_seq d, d_agent_id d).

(** [FROM agent_deliveries d JOIN messages m ON m.seq = d.message_seq] *)
Definition deliveries_with_messages (db : Db) : list (DeliveryRow * MessageRow) :=
  join (λ d m, m_seq m ==? d_message_seq d) db.(agent_deliveries) db.(messages).

Section inbox.
Context `{J : SerdeJson}.

(** [? IS NULL OR m.kind IN (SELECT value FROM json_each(?))] *)
Definition kind_selected (message_kinds_json : option string) (m : MessageRow) : bool :=
  match message_kinds_json with
  | None => true
  | Some json => bool_decide (m_kind m ∈ json_each json)
  end.

(** The rows the subquery of [lease_claimable] returns, by primary key. *)
Definition claimable_keys (agent_id : string) (now limit_arg : Z)
    (message_kinds_json : option string) (db : Db) : list (Z * string) :=
  map (λ r, delivery_key r.1)
    (limit limit_arg
       (sort_by (by_Z (λ r, d_message_seq r.1))
          (List.filter (λ r, claimable agent_id now r.1 && kind_selected message_kinds_json r.2)
             (deliveries_with_messages db)))).

Definition lease_claimable (agent_id lease_token : string) (lease_expires_at_ms now limit_arg : Z)
    (message_kinds_json : option string) : M unit :=
  let* keys := gets (claimable_keys agent_id now limit_arg message_kinds_json) in
  let* _ := update (λ d, bool_decide (delivery_key d ∈ keys))
              (lease_row lease_token lease_expires_at_ms) in
  ret tt.

Definition delivery_from_row (r : DeliveryRow * MessageRow) : result Delivery :=
  let? message := message_from_row r.2 in
  let? expiry := ok_or (d_lease_expires_at_ms r.1)
                   (Database (Decode "lease_expires_at_ms")) in
  Ok {| delivery_message := message; delivery_attempt := d_attempt r.1;
        delivery_lease_expires_at_ms := expiry; delivery_last_error := d_last_error r.1 |}.

Definition leased_batch (agent_id lease_token : string) : M (list Delivery) :=
  let* rs := gets (λ db, List.filter
                     (λ r, (d_agent_id r.1 ==? agent_id)
                           && (d_state r.1 ==? DeliveryState.Leased)
                           && (d_lease_token r.1 ==? Some lease_token))
                     (deliveries_with_messages db)) in
  lift (collect delivery_from_row (sort_by (by_Z (λ r, m_seq r.2)) rs)).

(** ** Blocks *)

Definition new_block (id message_seq : Z) (agent_id : string) (attempt : Z)
    (lease_token reason : string) (blocked_at_ms : Z) : BlockRow :=
  {| b_id := id; b_message_seq := message_seq; b_agent_id := agent_id; b_attempt := attempt;
     b_lease_token := lease_token; b_reason := reason; b_blocked_at_ms := blocked_at_ms;
     b_resolved_at_ms := None; b_resolution := None; b_resolution_note := None;
     b_retry_after_ms := None |}.

Definition next_block_id : M Z := λ db,
  if db.(blocks_autoinc) =? i64_max then Err (Database Full)
  else Ok (db.(blocks_autoinc) + 1, set_blocks_autoinc (db.(blocks_autoinc) + 1) db).

(** [INSERT INTO delivery_blocks ... VALUES]; the value is [last_insert_rowid()]. *)
Definition record_block_id (message_seq : Z) (agent_id : string) (attempt : Z)
    (lease_token reason : string) (blocked_at_ms : Z) : M Z :=
  let* id := next_block_id in
  insert (new_block id message_seq agent_id attempt lease_token reason blocked_at_ms) ;;
  ret id.

Definition record_block (message_seq : Z) (agent_id : string) (attempt : Z)
    (lease_token reason : string) (blocked_at_ms : Z) : M unit :=
  let* _ := record_block_id message_seq agent_id attempt lease_token reason blocked_at_ms in
  ret tt.

Definition insert_block_record (agent_id message_id : string) (input : BlockDelivery)
    (blocked_at_ms : Z) : M Z :=
  let* rs := gets (λ db, List.filter
                     (λ r, (d_agent_id r.1 ==? agent_id) && (m_id r.2 ==? message_id)
                           && (d_state r.1 ==? DeliveryState.Blocked))
                     (deliveries_with_messages db)) in
  let* ids := map_m rs (λ r, record_block_id (d_message_seq r.1) (d_agent_id r.1)
                               (d_attempt r.1) (block_lease_token input)
                               (block_reason input) blocked_at_ms) in
  match ids with
  | [id] => ret id
  | _ => fail (LeaseConflict "blocked delivery changed before evidence was recorded")
  end.

(** [blocked_delivery_select] *)
Definition blocks_with_messages (db : Db) : list (BlockRow * MessageRow) :=
  join (λ b m, m_seq m ==? b_message_seq b) db.(delivery_blocks) db.(messages).

Definition blocked_delivery_from_row (r : BlockRow * MessageRow) : result BlockedDelivery :=
  let? message := message_from_row r.2 in
  Ok {| blocked_block_id := b_id r.1; blocked_agent_id := b_agent_id r.1;
        blocked_message := message; blocked_attempt := b_attempt r.1;
        blocked_reason := b_reason r.1; blocked_at_ms := b_blocked_at_ms r.1 |}.

Definition blocked_delivery_by_id (block_id : Z) : M BlockedDelivery :=
  let* row := gets (λ db, List.find (λ r, b_id r.1 ==? block_id) (blocks_with_messages db)) in
  match row with
  | Some row => lift (blocked_delivery_from_row row)
  | None => fail (NotFound "delivery block" (pretty block_id))
  end.

Definition blocked_delivery_by_lease (agent_id message_id lease_token : string)
    : M (option (BlockedDelivery * string)) :=
  let* row := gets (λ db, List.find (λ r, (b_agent_id r.1 ==? agent_id)
                                          && (m_id r.2 ==? message_id)
                                          && (b_lease_token r.1 ==? lease_token))
                            (blocks_with_messages db)) in
  match row with
  | Some row =>
      let* blocked := lift (blocked_delivery_from_row row) in
      ret (Some (blocked, b_reason row.1))
  | None => ret None
  end.

Definition list_blocked_deliveries (agent_id : option string) : M (list BlockedDelivery) :=
  let* rs := gets (λ db, List.filter
                     (λ r, is_none (b_resolved_at_ms r.1)
                           && match agent_id with
                              | Some agent_id => b_agent_id r.1 ==? agent_id
                              | None => true
                              end)
                     (blocks_with_messages db)) in
  lift (collect blocked_delivery_from_row
          (limit 500 (sort_by (then_by (by_Z (λ r, b_blocked_at_ms r.1))
                                 (by_Z (λ r, b_id r.1))) rs))).

(** ** Block resolution *)

Definition resolution_name (resolution : BlockResolution) : string :=
  match resolution with Requeue => "requeued" | Abandon => "abandoned" end.

Definition resolution_row (block_id : Z) : M (BlockRow * DeliveryRow) :=
  let* row := gets (λ db, List.find (λ r, b_id r.1 ==? block_id)
                (join (λ b d, (d_message_seq d ==? b_message_seq b)
                              && (d_agent_id d ==? b_agent_id b))
                   db.(delivery_blocks) db.(agent_deliveries))) in
  lift (ok_or row (NotFound "delivery block" (pretty block_id))).

Definition resolution_is_replay (b : BlockRow) (input : ResolveDeliveryBlock)
    (retry_after_ms : Z) : result bool :=
  if is_none (b_resolved_at_ms b) then Ok false
  else if (b_resolution b ==? Some (resolution_name (rdb_resolution input)))
          && (b_resolution_note b ==? rdb_note input)
          && (b_retry_after_ms b ==? Some retry_after_ms)
  then Ok true
  else Err (Conflict "delivery block was already resolved differently").

Definition resolve_delivery_row (b : BlockRow) (input : ResolveDeliveryBlock)
    (retry_after_ms now : Z) : M unit :=
  let is_row d := (d_message_seq d ==? b_message_seq b) && (d_agent_id d ==? b_agent_id b)
                  && (d_state d ==? DeliveryState.Blocked) in
  let* n :=
    match rdb_resolution input with
    | Requeue =>
        let* available_at_ms := lift (ok_or (checked_add_i64 now retry_after_ms)
                                        (Invalid "retry time overflowed")) in
        update is_row (requeue_row available_at_ms (rdb_note input))
    | Abandon => update is_row (abandon_row (rdb_note input))
    end in
  lift (guard (n ==? 1%nat) (Conflict "delivery block changed during resolution")).

Definition resolve_block_row (now : Z) (resolution : string) (note : option string)
    (retry_after_ms : Z) (b : BlockRow) : BlockRow :=
  {| b_id := b_id b; b_message_seq := b_message_seq b; b_agent_id := b_agent_id b;
     b_attempt := b_attempt b; b_lease_token := b_lease_token b; b_reason := b_reason b;
     b_blocked_at_ms := b_blocked_at_ms b; b_resolved_at_ms := Some now;
     b_resolution := Some resolution; b_resolution_note := note;
     b_retry_after_ms := Some retry_after_ms |}.

Definition resolve_delivery_block_transaction (block_id : Z) (input : ResolveDeliveryBlock)
    (now : Z) : M unit :=
  lift (validate_resolution block_id input) ;;
  let* retry_after_ms := lift (ok_or (i64_try_from (rdb_retry_after_ms input))
                                 (Invalid "retry delay is too large")) in
  let* row := resolution_row block_id in
  let* replay := lift (resolution_is_replay row.1 input retry_after_ms) in
  if replay : bool then ret tt else
  lift (refuse (d_state row.2 !=? DeliveryState.Blocked)
          (Conflict "delivery block is not the current unresolved block")) ;;
  resolve_delivery_row row.1 input retry_after_ms now ;;
  let* n := update (λ b, (b_id b ==? block_id) && is_none (b_resolved_at_ms b))
              (resolve_block_row now (resolution_name (rdb_resolution input))
                 (rdb_note input) retry_after_ms) in
  lift (guard (n ==? 1%nat) (Conflict "delivery block changed during resolution")).

(** ** Read models over the inbox *)

(** [LEFT JOIN delivery_blocks b ON ... AND b.resolved_at_ms IS NULL] *)
Definition unresolved_blocks (db : Db) (d : DeliveryRow) : list (option BlockRow) :=
  match List.filter (λ b, (b_message_seq b ==? d_message_seq d)
                          && (b_agent_id b ==? d_agent_id d)
                          && is_none (b_resolved_at_ms b)) db.(delivery_blocks) with
  | [] => [None]
  | bs => map Some bs
  end.

Definition delivery_record_from_row (now : Z) (r : DeliveryRow * MessageRow * option BlockRow)
    : result DeliveryRecord :=
  let '(d, m, b) := r in
  let? message := message_from_row m in
  Ok {| dr_agent_id := d_agent_id d; dr_message := message; dr_state := d_state d;
        dr_attempt := d_attempt d; dr_available_at_ms := d_available_at_ms d;
        dr_lease_expires_at_ms := d_lease_expires_at_ms d;
        dr_lease_expired := (d_state d ==? DeliveryState.Leased)
                            && match d_lease_expires_at_ms d with
                               | Some expiry => expiry <=? now
                               | None => false
                               end;
        dr_last_error := d_last_error d; dr_created_at_ms := d_created_at_ms d;
        dr_acknowledged_at_ms := d_acknowledged_at_ms d;
        dr_unresolved_block_id := b_id <$> b |}.

Definition list_deliveries (agent_id : option string) (state : option DeliveryState.t)
    (limit_arg now : Z) : M (list DeliveryRecord) :=
  lift (refuse ((limit_arg ==? 0) || (500 <? limit_arg))
          (Invalid "delivery list limit must be between 1 and 500")) ;;
  let* rs := gets (λ db, flat_map (λ r, map (pair r) (unresolved_blocks db r.1))
                     (List.filter
                        (λ r, match agent_id with
                              | Some agent_id => d_agent_id r.1 ==? agent_id
                              | None => true
                              end
                              && match state with
                                 | Some state => d_state r.1 ==? state
                                 | None => true
                                 end)
                        (deliveries_with_messages db))) in
  lift (collect (delivery_record_from_row now)
          (limit limit_arg (sort_by (then_by (by_Z (λ r, m_seq r.1.2))
                                       (by_str (λ r, d_agent_id r.1.1))) rs))).

Definition newest_claimable_delivery_message_after (agent_id channel_id : string) (after : Z)
    (message_kinds : list string) (now : Z) : M (option Message) :=
  lift (refuse (after <? 0) (Invalid "delivery message cursor must not be negative")) ;;
  lift (refuse (message_kinds ==? [])
          (Invalid "delivery message-kind selector must not be empty")) ;;
  let* json := lift (ok_or (strings_to_json message_kinds) Serialization) in
  let* rs := gets (λ db, List.filter
                     (λ r, claimable agent_id now r.1 && (m_channel_id r.2 ==? channel_id)
                           && (after <? m_seq r.2) && kind_selected (Some json) r.2)
                     (deliveries_with_messages db)) in
  match head (sort_by (by_Z_desc (λ r, m_seq r.2)) rs) with
  | Some r => let* message := lift (message_from_row r.2) in ret (Some message)
  | None => ret None
  end.

(** ** What a claim returns *)

(** The deliveries of a batch are the rows its token holds. *)
Lemma leased_batch_elem a t db batch db' del :
  leased_batch a t db = Ok (batch, db') → del ∈ batch →
  ∃ d m, d ∈ db.(agent_deliveries) ∧ m ∈ db.(messages) ∧ m_seq m = d_message_seq d
         ∧ d_agent_id d = a ∧ d_state d = DeliveryState.Leased ∧ d_lease_token d = Some t
         ∧ msg_seq (delivery_message del) = d_message_seq d
         ∧ delivery_attempt del = d_attempt d.
Proof.
  intros H Hdel. unfold leased_batch in H. m_inv.
  destruct (collect_elem _ _ _ _ H Hdel) as ([d m] & Hr & Hrow).
  apply elem_of_sort_by, elem_of_list_filter in Hr as [Hp Hj].
  apply elem_of_join in Hj as (Hd & Hm & Hon). bool_facts. simpl in *.
  unfold delivery_from_row in Hrow. m_inv.
  match goal with H : message_from_row _ = Ok _ |- _ => apply message_from_row_ok in H as (? & _) end.
  exists d, m. simpl in *. split_and!; try done; congruence.
Qed.
End inbox.
