(* ===== verification/SessionFence.v ===== *)
(** * The owner fence of a session binding (crates/execution/src/session_binding.rs)

    The four-column fence every write to [session_bindings] carries, the row
    lookups and validators built on it, and the helpers the invocation and
    settlement paths call to keep a bound turn and its binding in step. *)

From S2P Require Import Prelude Proto Schema Channels.

(** ** Bounds *)

Definition MAX_ID_BYTES : Z := 256.
Definition MAX_LANE_KEY_BYTES : Z := 4096.
Definition MAX_SESSION_REF_BYTES : Z := 4096.
Definition MAX_REASON_BYTES : Z := 4096.
Definition MAX_PATH_BYTES : Z := 4096.
Definition MAX_ADDITIONAL_DIRECTORIES : Z := 64.

Definition invalid_stored (message : string) : FleetError := Invalid ("stored " +:+ message).

Definition as_i64 (label : string) (value : Z) : result Z :=
  refuse (value ==? 0) (Invalid (label +:+ " must be greater than zero")) ;?
  ok_or (i64_try_from value) (Invalid (label +:+ " is too large")).

Definition positive_u64 (label : string) (value : Z) : result Z :=
  if 0 <? value then Ok value else Err (invalid_stored (label +:+ " is not positive")).

Definition validate_bounded (label value : string) (limit : Z) : result unit :=
  refuse (is_blank value) (Invalid (label +:+ " must not be empty")) ;?
  refuse (limit <? str_len value)
    (Invalid (label +:+ " must not exceed " +:+ pretty limit +:+ " bytes")).

Definition require_one (rows : nat) (message : string) : result unit :=
  guard (rows ==? 1%nat) (Conflict message).

(** ** OwnerFence *)

Record OwnerFence := {
  of_binding_id : string;
  of_binding_generation : Z;
  of_agent_id : string;
  of_owner_epoch : Z;
}.

(** [OwnerFence::new] *)
Definition owner_fence (agent_id : string) (binding : Binding) : result OwnerFence :=
  let? generation := as_i64 "binding generation" (binding_generation binding) in
  let? epoch := as_i64 "owner epoch" (owner_epoch binding) in
  Ok {| of_binding_id := binding_id binding; of_binding_generation := generation;
        of_agent_id := agent_id; of_owner_epoch := epoch |}.

(** [OwnerFence::PREDICATE] *)
Definition fence_matches (fence : OwnerFence) (s : BindingRow) : bool :=
  (s_binding_id s ==? of_binding_id fence)
  && (s_binding_generation s ==? of_binding_generation fence)
  && (s_agent_id s ==? of_agent_id fence)
  && (s_owner_epoch s ==? of_owner_epoch fence).

(** [UPDATE session_bindings SET {set} WHERE <fence> AND {state}], which has to
    touch exactly one row. *)
Definition fenced_update (fence : OwnerFence) (state : BindingRow → bool)
    (set : BindingRow → BindingRow) (message : string) : M unit :=
  let* n := update (λ s, fence_matches fence s && state s) set in
  lift (require_one n message).

(** ** The SET clauses *)

Definition set_opened (session_ref : string) (now : Z) (s : BindingRow) : BindingRow :=
  {| s_binding_id := s_binding_id s; s_binding_generation := s_binding_generation s;
     s_agent_id := s_agent_id s; s_lane_policy := s_lane_policy s; s_lane_key := s_lane_key s;
     s_owner_epoch := s_owner_epoch s; s_owner_instance_id := s_owner_instance_id s;
     s_profile_digest := s_profile_digest s;
     s_compatibility_digest := s_compatibility_digest s;
     s_working_directory := s_working_directory s;
     s_additional_directories_json := s_additional_directories_json s;
     s_session_ref := Some session_ref; s_state := SessionBindingState.Ready;
     s_active_invocation_id := s_active_invocation_id s;
     s_last_quiescent_invocation_id := s_last_quiescent_invocation_id s;
     s_session_persistence := s_session_persistence s;
     s_uncertain_reason := s_uncertain_reason s; s_retired_reason := s_retired_reason s;
     s_created_at_ms := s_created_at_ms s; s_updated_at_ms := now;
     s_opened_at_ms := Some now; s_retired_at_ms := s_retired_at_ms s |}.

Definition set_retired (reason : string) (now : Z) (s : BindingRow) : BindingRow :=
  {| s_binding_id := s_binding_id s; s_binding_generation := s_binding_generation s;
     s_agent_id := s_agent_id s; s_lane_policy := s_lane_policy s; s_lane_key := s_lane_key s;
     s_owner_epoch := s_owner_epoch s; s_owner_instance_id := s_owner_instance_id s;
     s_profile_digest := s_profile_digest s;
     s_compatibility_digest := s_compatibility_digest s;
     s_working_directory := s_working_directory s;
     s_additional_directories_json := s_additional_directories_json s;
     s_session_ref := s_session_ref s; s_state := SessionBindingState.Retired;
     s_active_invocation_id := None;
     s_last_quiescent_invocation_id := s_last_quiescent_invocation_id s;
     s_session_persistence := s_session_persistence s;
     s_uncertain_reason := s_uncertain_reason s; s_retired_reason := Some reason;
     s_created_at_ms := s_created_at_ms s; s_updated_at_ms := now;
     s_opened_at_ms := s_opened_at_ms s; s_retired_at_ms := Some now |}.

Definition set_adopted (owner_epoch : Z) (owner_instance_id : string) (now : Z)
    (s : BindingRow) : BindingRow :=
  {| s_binding_id := s_binding_id s; s_binding_generation := s_binding_generation s;
     s_agent_id := s_agent_id s; s_lane_policy := s_lane_policy s; s_lane_key := s_lane_key s;
     s_owner_epoch := owner_epoch; s_owner_instance_id := owner_instance_id;
     s_profile_digest := s_profile_digest s;
     s_compatibility_digest := s_compatibility_digest s;
     s_working_directory := s_working_directory s;
     s_additional_directories_json := s_additional_directories_json s;
     s_session_ref := s_session_ref s; s_state := s_state s;
     s_active_invocation_id := s_active_invocation_id s;
     s_last_quiescent_invocation_id := s_last_quiescent_invocation_id s;
     s_session_persistence := s_session_persistence s;
     s_uncertain_reason := s_uncertain_reason s; s_retired_reason := s_retired_reason s;
     s_created_at_ms := s_created_at_ms s; s_updated_at_ms := now;
     s_opened_at_ms := s_opened_at_ms s; s_retired_at_ms := s_retired_at_ms s |}.

Definition set_active (invocation_id : string) (now : Z) (s : BindingRow) : BindingRow :=
  {| s_binding_id := s_binding_id s; s_binding_generation := s_binding_generation s;
     s_agent_id := s_agent_id s; s_lane_policy := s_lane_policy s; s_lane_key := s_lane_key s;
     s_owner_epoch := s_owner_epoch s; s_owner_instance_id := s_owner_instance_id s;
     s_profile_digest := s_profile_digest s;
     s_compatibility_digest := s_compatibility_digest s;
     s_working_directory := s_working_directory s;
     s_additional_directories_json := s_additional_directories_json s;
     s_session_ref := s_session_ref s; s_state := SessionBindingState.Active;
     s_active_invocation_id := Some invocation_id;
     s_last_quiescent_invocation_id := s_last_quiescent_invocation_id s;
     s_session_persistence := s_session_persistence s;
     s_uncertain_reason := s_uncertain_reason s; s_retired_reason := s_retired_reason s;
     s_created_at_ms := s_created_at_ms s; s_updated_at_ms := now;
     s_opened_at_ms := s_opened_at_ms s; s_retired_at_ms := s_retired_at_ms s |}.

Definition set_ready (invocation_id : string) (persistence : SessionPersistence.t) (now : Z)
    (s : BindingRow) : BindingRow :=
  {| s_binding_id := s_binding_id s; s_binding_generation := s_binding_generation s;
     s_agent_id := s_agent_id s; s_lane_policy := s_lane_policy s; s_lane_key := s_lane_key s;
     s_owner_epoch := s_owner_epoch s; s_owner_instance_id := s_owner_instance_id s;
     s_profile_digest := s_profile_digest s;
     s_compatibility_digest := s_compatibility_digest s;
     s_working_directory := s_working_directory s;
     s_additional_directories_json := s_additional_directories_json s;
     s_session_ref := s_session_ref s; s_state := SessionBindingState.Ready;
     s_active_invocation_id := None;
     s_last_quiescent_invocation_id := Some invocation_id;
     s_session_persistence := Some persistence;
     s_uncertain_reason := s_uncertain_reason s; s_retired_reason := s_retired_reason s;
     s_created_at_ms := s_created_at_ms s; s_updated_at_ms := now;
     s_opened_at_ms := s_opened_at_ms s; s_retired_at_ms := s_retired_at_ms s |}.

Definition set_uncertain (reason : string) (now : Z) (s : BindingRow) : BindingRow :=
  {| s_binding_id := s_binding_id s; s_binding_generation := s_binding_generation s;
     s_agent_id := s_agent_id s; s_lane_policy := s_lane_policy s; s_lane_key := s_lane_key s;
     s_owner_epoch := s_owner_epoch s; s_owner_instance_id := s_owner_instance_id s;
     s_profile_digest := s_profile_digest s;
     s_compatibility_digest := s_compatibility_digest s;
     s_working_directory := s_working_directory s;
     s_additional_directories_json := s_additional_directories_json s;
     s_session_ref := s_session_ref s; s_state := SessionBindingState.Uncertain;
     s_active_invocation_id := s_active_invocation_id s;
     s_last_quiescent_invocation_id := s_last_quiescent_invocation_id s;
     s_session_persistence := s_session_persistence s;
     s_uncertain_reason := Some reason; s_retired_reason := s_retired_reason s;
     s_created_at_ms := s_created_at_ms s; s_updated_at_ms := now;
     s_opened_at_ms := s_opened_at_ms s; s_retired_at_ms := s_retired_at_ms s |}.

Definition turn_quiescent (persistence : SessionPersistence.t) (now : Z) (t : TurnRow)
    : TurnRow :=
  {| t_invocation_id := t_invocation_id t; t_binding_id := t_binding_id t;
     t_binding_generation := t_binding_generation t; t_owner_epoch := t_owner_epoch t;
     t_state := TurnState.Quiescent; t_started_at_ms := t_started_at_ms t;
     t_terminal_at_ms := Some now; t_session_persistence := Some persistence;
     t_uncertain_reason := t_uncertain_reason t |}.

Definition turn_uncertain (reason : string) (now : Z) (t : TurnRow) : TurnRow :=
  {| t_invocation_id := t_invocation_id t; t_binding_id := t_binding_id t;
     t_binding_generation := t_binding_generation t; t_owner_epoch := t_owner_epoch t;
     t_state := TurnState.Uncertain; t_started_at_ms := t_started_at_ms t;
     t_terminal_at_ms := Some now; t_session_persistence := t_session_persistence t;
     t_uncertain_reason := Some reason |}.

(** ** Lookups *)

(** [WHERE binding_id = ? AND binding_generation = ? AND agent_id = ?] *)
Definition exact_binding_row (agent_id : string) (binding : Binding) : M BindingRow :=
  let* generation := lift (as_i64 "binding generation" (binding_generation binding)) in
  let* row := fetch_optional (λ s, (s_binding_id s ==? binding_id binding)
                                   && (s_binding_generation s ==? generation)
                                   && (s_agent_id s ==? agent_id)) in
  lift (ok_or row (NotFound "session binding"
                     (binding_id binding +:+ ":" +:+ pretty (binding_generation binding)))).

Definition on_lane (agent_id lane_policy lane_key : string) (s : BindingRow) : bool :=
  (s_agent_id s ==? agent_id) && (s_lane_policy s ==? lane_policy)
  && (s_lane_key s ==? lane_key).

Definition current_binding_row (agent_id lane_policy lane_key : string)
    : M (option BindingRow) :=
  fetch_optional (λ s, on_lane agent_id lane_policy lane_key s
                       && (s_state s !=? SessionBindingState.Retired)).

(** [ORDER BY binding_generation DESC LIMIT 1] *)
Definition latest_binding_row (agent_id lane_policy lane_key : string)
    : M (option BindingRow) :=
  gets (λ db, head (sort_by (by_Z_desc s_binding_generation)
                      (List.filter (on_lane agent_id lane_policy lane_key)
                         db.(session_bindings)))).

Definition bound_turn_row (invocation_id : string) : M TurnRow :=
  let* row := fetch_optional (λ t, t_invocation_id t ==? invocation_id) in
  lift (ok_or row (NotFound "session binding turn" invocation_id)).

(** ** Validators *)

Definition validate_binding (binding : Binding) : result unit :=
  validate_bounded "binding ID" (binding_id binding) MAX_ID_BYTES ;?
  as_i64 "binding generation" (binding_generation binding) ;?
  as_i64 "owner epoch" (owner_epoch binding) ;?
  Ok tt.

Definition validate_owner (s : BindingRow) (binding : Binding) : result unit :=
  let stale := LeaseConflict "session binding owner fence is stale" in
  let? generation := as_i64 "binding generation" (binding_generation binding) in
  refuse (s_binding_generation s !=? generation) stale ;?
  let? epoch := as_i64 "owner epoch" (owner_epoch binding) in
  refuse (s_owner_epoch s !=? epoch) stale.

Definition validate_turn_fence (t : TurnRow) (binding : Binding) : result unit :=
  let stale := LeaseConflict "session turn fence does not match durable ownership" in
  refuse (t_binding_id t !=? binding_id binding) stale ;?
  let? generation := as_i64 "binding generation" (binding_generation binding) in
  refuse (t_binding_generation t !=? generation) stale ;?
  let? epoch := as_i64 "owner epoch" (owner_epoch binding) in
  refuse (t_owner_epoch t !=? epoch) stale.

Definition validate_session_reference (s : BindingRow) (session_ref : string) : result unit :=
  refuse (s_session_ref s !=? Some session_ref)
    (LeaseConflict "native session reference does not match durable binding").

Definition validate_binding_activation (s : BindingRow) (invocation_id : string)
    : result unit :=
  guard (((s_state s ==? SessionBindingState.Ready) && is_none (s_active_invocation_id s))
         || ((s_state s ==? SessionBindingState.Active)
             && (s_active_invocation_id s ==? Some invocation_id)))
    (Conflict "session binding is not ready for this invocation").

Definition validate_bound_turn (agent_id invocation_id : string) (binding : Binding)
    (allow_quiescent_replay : bool) : M unit :=
  let* turn := bound_turn_row invocation_id in
  lift (validate_turn_fence turn binding) ;;
  if allow_quiescent_replay && (t_state turn ==? TurnState.Quiescent) then ret tt else
  let* row := exact_binding_row agent_id binding in
  lift (validate_owner row binding) ;;
  lift (guard (((s_state row ==? SessionBindingState.Active)
                || (s_state row ==? SessionBindingState.Uncertain))
               && (s_active_invocation_id row ==? Some invocation_id))
          (Conflict "invocation does not own the current session binding state")).

(** ** Turn transitions *)

Definition activate_binding_turn (agent_id invocation_id : string) (binding : Binding)
    (now : Z) : M unit :=
  let* fence := lift (owner_fence agent_id binding) in
  let* existing := fetch_optional (λ t, t_invocation_id t ==? invocation_id) in
  match existing with
  | Some t =>
      lift (guard ((t_binding_id t ==? of_binding_id fence)
                   && (t_binding_generation t ==? of_binding_generation fence)
                   && (t_owner_epoch t ==? of_owner_epoch fence)
                   && (t_state t ==? TurnState.Active))
              (Conflict "invocation is already bound to different session ownership"))
  | None =>
      insert {| t_invocation_id := invocation_id; t_binding_id := of_binding_id fence;
                t_binding_generation := of_binding_generation fence;
                t_owner_epoch := of_owner_epoch fence; t_state := TurnState.Active;
                t_started_at_ms := now; t_terminal_at_ms := None;
                t_session_persistence := None; t_uncertain_reason := None |} ;;
      fenced_update fence
        (λ s, (s_state s ==? SessionBindingState.Ready) && is_none (s_active_invocation_id s))
        (set_active invocation_id now) "session binding changed while turn was armed"
  end.

(** [WHERE invocation_id = ? AND state = 'active'] *)
Definition active_turn (invocation_id : string) (t : TurnRow) : bool :=
  (t_invocation_id t ==? invocation_id) && (t_state t ==? TurnState.Active).

(** [state = 'active' AND active_invocation_id = ?] *)
Definition active_on (invocation_id : string) (s : BindingRow) : bool :=
  (s_state s ==? SessionBindingState.Active)
  && (s_active_invocation_id s ==? Some invocation_id).

Definition settle_quiescent_turn (agent_id invocation_id : string) (binding : Binding)
    (persistence : SessionPersistence.t) (now : Z) : M unit :=
  let* turn := bound_turn_row invocation_id in
  if t_state turn ==? TurnState.Quiescent then
    lift (refuse (t_session_persistence turn !=? Some persistence)
            (Conflict "session completion replay changed persistence evidence"))
  else
    lift (refuse (t_state turn !=? TurnState.Active)
            (Conflict "non-active session turn cannot become quiescent")) ;;
    let* n := update (active_turn invocation_id) (turn_quiescent persistence now) in
    lift (require_one n "session turn changed during completion") ;;
    let* fence := lift (owner_fence agent_id binding) in
    fenced_update fence (active_on invocation_id) (set_ready invocation_id persistence now)
      "session binding changed during completion".

Definition mark_turn_uncertain (agent_id invocation_id : string) (binding : Binding)
    (reason : string) (now : Z) : M unit :=
  let* n := update (active_turn invocation_id) (turn_uncertain reason now) in
  lift (require_one n "session turn changed while fencing uncertainty") ;;
  let* fence := lift (owner_fence agent_id binding) in
  fenced_update fence (active_on invocation_id) (set_uncertain reason now)
    "session binding changed while fencing uncertainty".

(** ** What the invocation and settlement paths ask of a bound session *)

Definition ensure_invocation_not_active_on_session (invocation_id : string) : M unit :=
  let* turn := fetch_optional (λ t, t_invocation_id t ==? invocation_id) in
  lift (refuse (match turn with
                | Some t => (t_state t ==? TurnState.Active)
                            || (t_state t ==? TurnState.Uncertain)
                | None => false
                end)
          (Conflict "session-bound invocation must be settled through its binding fence")).

(** [FROM invocations i JOIN messages m ON m.seq = i.message_seq WHERE
    i.agent_id = ? AND m.id = ? AND i.lease_token = ? AND i.state != 'terminal'] *)
Definition live_under_lease (agent_id message_id lease_token : string) (db : Db)
    : list InvocationRow :=
  map fst (List.filter (λ r, (i_agent_id r.1 ==? agent_id) && (m_id r.2 ==? message_id)
                             && (i_lease_token r.1 ==? lease_token)
                             && (i_state r.1 !=? InvocationState.Terminal))
             (join (λ i m, m_seq m ==? i_message_seq i) db.(invocations) db.(messages))).

Definition ensure_bound_turn_allows_delivery_settlement
    (agent_id message_id lease_token : string) (allow_uncertain_block : bool) : M unit :=
  let* rs := gets (λ db, join (λ i t, t_invocation_id t ==? i_id i)
                           (live_under_lease agent_id message_id lease_token db)
                           db.(session_binding_turns)) in
  match t_state ∘ snd <$> head rs with
  | None | Some TurnState.Quiescent => ret tt
  | Some TurnState.Uncertain =>
      lift (guard allow_uncertain_block
              (Conflict "session-bound invocation must be settled through its binding fence"))
  | Some TurnState.Active =>
      fail (Conflict "session-bound invocation must be settled through its binding fence")
  end.

(** [FROM session_binding_turns t JOIN session_bindings s ON ...] *)
Definition turns_with_bindings (db : Db) : list (TurnRow * BindingRow) :=
  join (λ t s, (s_binding_id s ==? t_binding_id t)
               && (s_binding_generation s ==? t_binding_generation t))
    db.(session_binding_turns) db.(session_bindings).

Definition mark_expired_session_turn_uncertain (invocation_id reason : string) (now : Z)
    : M unit :=
  let* row := gets (λ db, List.find (λ r, t_invocation_id r.1 ==? invocation_id)
                            (turns_with_bindings db)) in
  match row with
  | None => ret tt
  | Some (t, s) =>
      lift (refuse (s_active_invocation_id s !=? Some invocation_id)
              (Conflict "expired session turn is not the binding's active invocation")) ;;
      if (t_state t ==? TurnState.Uncertain)
         && (s_state s ==? SessionBindingState.Uncertain) then ret tt else
      lift (refuse ((t_state t !=? TurnState.Active)
                    || (s_state s !=? SessionBindingState.Active))
              (Conflict "expired invocation has inconsistent session binding state")) ;;
      let* generation := lift (positive_u64 "binding generation" (t_binding_generation t)) in
      let* epoch := lift (positive_u64 "owner epoch" (t_owner_epoch t)) in
      mark_turn_uncertain (s_agent_id s) invocation_id
        {| binding_id := t_binding_id t; binding_generation := generation;
           owner_epoch := epoch |} reason now
  end.
