(* ===== verification/Observations.v ===== *)
(** * Worker generations and invocation observations
      (crates/execution/src/operations.rs, crates/proto/src/operations.rs)

    The lifecycle of a plugin generation, the bounded fold of harness events
    into an invocation's counters and digest chain, the terminal summary, and
    the derived health of a generation and of an agent's seat.  SHA-256 is a
    parameter. *)

From S2P Require Import Prelude Proto Schema Channels.

Definition MAX_EVIDENCE_JSON_BYTES : Z := 1048576.
Definition MAX_STOP_REASON_BYTES : Z := 4096.
Definition MIN_STALE_AFTER_MS : Z := 15000.

(** ** Event classes *)

Module EventClass.
Inductive t := Prompt | Assistant | Reasoning | Tool | Plan | Usage | Metadata
  | Permission | Unknown.
#[global] Instance eq_dec : EqDecision t.
Proof. solve_decision. Defined.
Definition parse (classification : string) : t :=
  if classification ==? "user_message_content" then Prompt
  else if classification ==? "agent_message_content" then Assistant
  else if classification ==? "reasoning_content" then Reasoning
  else if (classification ==? "tool_call") || (classification ==? "tool_call_update") then Tool
  else if classification ==? "plan_update" then Plan
  else if classification ==? "usage" then Usage
  else if classification ==? "metadata" then Metadata
  else if classification ==? "permission_request" then Permission
  else Unknown.
End EventClass.

Definition no_counts : EventCounts :=
  {| ec_prompt := 0; ec_assistant := 0; ec_reasoning := 0; ec_tool := 0; ec_plan := 0;
     ec_usage := 0; ec_metadata := 0; ec_permission := 0; ec_unknown := 0 |}.

Definition event_increments (classification : string) : EventCounts :=
  let one (c : EventClass.t) := if EventClass.parse classification ==? c then 1 else 0 in
  {| ec_prompt := one EventClass.Prompt; ec_assistant := one EventClass.Assistant;
     ec_reasoning := one EventClass.Reasoning; ec_tool := one EventClass.Tool;
     ec_plan := one EventClass.Plan; ec_usage := one EventClass.Usage;
     ec_metadata := one EventClass.Metadata; ec_permission := one EventClass.Permission;
     ec_unknown := one EventClass.Unknown |}.

Definition add_counts (a b : EventCounts) : EventCounts :=
  {| ec_prompt := ec_prompt a + ec_prompt b; ec_assistant := ec_assistant a + ec_assistant b;
     ec_reasoning := ec_reasoning a + ec_reasoning b; ec_tool := ec_tool a + ec_tool b;
     ec_plan := ec_plan a + ec_plan b; ec_usage := ec_usage a + ec_usage b;
     ec_metadata := ec_metadata a + ec_metadata b;
     ec_permission := ec_permission a + ec_permission b;
     ec_unknown := ec_unknown a + ec_unknown b |}.

Definition total_counts (c : EventCounts) : Z :=
  ec_prompt c + ec_assistant c + ec_reasoning c + ec_tool c + ec_plan c + ec_usage c
  + ec_metadata c + ec_permission c + ec_unknown c.

(** ** Health of a generation *)

Inductive PluginGenerationHealth := HealthActive | HealthStale | HealthStopped.
#[global] Instance PluginGenerationHealth_eq_dec : EqDecision PluginGenerationHealth.
Proof. solve_decision. Defined.

Definition generation_health (state : GenerationState.t)
    (heartbeat_at_ms heartbeat_interval_ms now : Z) : PluginGenerationHealth :=
  if state ==? GenerationState.Stopped then HealthStopped else
  let heartbeat_interval_ms := coalesce (i64_try_from heartbeat_interval_ms) i64_max in
  let stale_after := Z.max (saturate_i64 (heartbeat_interval_ms * 3)) MIN_STALE_AFTER_MS in
  if stale_after <? saturate_i64 (now - heartbeat_at_ms) then HealthStale else HealthActive.

(** ** The seat of an agent *)

Inductive AgentSeatState :=
| Unmanaged | Idle | Working | Interrupted | RecoveryRequired | Offline.
Inductive AgentSeatReason :=
| NoWorkerObserved | SeatReady | ReadySession | OpeningSession | ReservedInvocation
| ActiveInvocation | ReservedGenerationUnavailable | ArmedGenerationUnavailable
| ArmedLeaseExpired | UncertainSession | SessionWithoutWorker | GenerationStale
| GenerationStopped.

Definition seat_state (session_state : option SessionBindingState.t)
    (invocation_state : option InvocationState.t)
    (health : option PluginGenerationHealth) (lease_expired : bool)
    : AgentSeatState * AgentSeatReason :=
  let working := health ==? Some HealthActive in
  match session_state, invocation_state with
  | Some SessionBindingState.Uncertain, _ => (RecoveryRequired, UncertainSession)
  | _, Some InvocationState.DispatchArmed =>
      if lease_expired then (Interrupted, ArmedLeaseExpired)
      else if negb working then (Interrupted, ArmedGenerationUnavailable)
      else (Working, ActiveInvocation)
  | _, Some InvocationState.Reserved =>
      if negb working then (Interrupted, ReservedGenerationUnavailable)
      else (Working, ReservedInvocation)
  | _, _ =>
      match health with
      | Some HealthActive =>
          match session_state with
          | Some SessionBindingState.Opening => (Working, OpeningSession)
          | Some SessionBindingState.Active => (Idle, ReadySession)
          | _ => (Idle, SeatReady)
          end
      | Some HealthStale => (Offline, GenerationStale)
      | Some HealthStopped => (Offline, GenerationStopped)
      | None =>
          match session_state with
          | Some SessionBindingState.Retired | None => (Unmanaged, NoWorkerObserved)
          | Some _ => (Interrupted, SessionWithoutWorker)
          end
      end
  end.

(** ** Digests *)

Definition byte_of (z : Z) : Ascii.ascii := Ascii.ascii_of_N (Z.to_N (z mod 256)).
(** [i64::to_be_bytes] *)
Definition to_be_bytes (x : Z) : string :=
  String.string_of_list_ascii
    (map (λ k, byte_of (Z.shiftr x (8 * k))) [7; 6; 5; 4; 3; 2; 1; 0]).
Definition zero_byte : string := String (byte_of 0) EmptyString.

(** ** Struct values of the operations *)

Section observations.
Context `{J : SerdeJson}.
(** The lowercase hexadecimal SHA-256 digest of a byte string. *)
Context (sha256_hex : string → string).

Record DescribeResult := {
  dsc_driver_version : string;
  dsc_acp_sdk_version : string;
  dsc_acp_protocol_version : U32;
  dsc_runtime_name : string;
  dsc_runtime_version : string;
  dsc_runtime_executable_digest : string;
  dsc_agent_capabilities : Value;
  dsc_max_concurrent_turns : U32;
  dsc_max_frame_bytes : Z;
  dsc_profile_digest : string;
  dsc_raw_initialize_result : Value;
}.
Record NewPluginGeneration := {
  ng_id : string;
  ng_agent_id : string;
  ng_plugin_id : string;
  ng_plugin_name : string;
  ng_plugin_version : string;
  ng_interfaces : list (string * string);
  ng_process_id : option U32;
  ng_description : DescribeResult;
  ng_compatibility_digest : string;
  ng_heartbeat_interval_ms : Z;
}.
Record StopPluginGeneration := {
  stop_disposition : PluginGenerationDisposition.t;
  stop_reason : string;
  stop_shutdown_outcome : PluginShutdownOutcome.t;
  stop_shutdown_exit_code : option Z;
}.
Record PluginGeneration := {
  pg_id : string;
  pg_agent_id : string;
  pg_plugin_id : string;
  pg_plugin_name : string;
  pg_plugin_version : string;
  pg_interfaces : list (string * string);
  pg_process_id : option Z;
  pg_driver_version : string;
  pg_acp_sdk_version : string;
  pg_acp_protocol_version : Z;
  pg_runtime_name : string;
  pg_runtime_version : string;
  pg_runtime_executable_digest : string;
  pg_agent_capabilities : Value;
  pg_max_concurrent_turns : Z;
  pg_max_frame_bytes : Z;
  pg_profile_digest : string;
  pg_compatibility_digest : string;
  pg_raw_initialize_result : Value;
  pg_heartbeat_interval_ms : Z;
  pg_state : GenerationState.t;
  pg_health : PluginGenerationHealth;
  pg_started_at_ms : Z;
  pg_last_heartbeat_at_ms : Z;
  pg_stopped_at_ms : option Z;
  pg_stop_disposition : option PluginGenerationDisposition.t;
  pg_stop_reason : option string;
  pg_shutdown_outcome : option PluginShutdownOutcome.t;
  pg_shutdown_exit_code : option Z;
}.
(** ** Generations *)

Definition validate_generation (g : NewPluginGeneration) : result unit :=
  refuse (is_blank (ng_id g) || is_blank (ng_agent_id g)
          || is_blank (ng_compatibility_digest g) || (ng_heartbeat_interval_ms g ==? 0)
          || (ng_interfaces g ==? []))
    (Invalid "generation identity, agent, interfaces, compatibility, and poll interval are required").

Definition validate_reason (reason : string) : result unit :=
  refuse (is_blank reason || (MAX_STOP_REASON_BYTES <? str_len reason))
    (Invalid "generation stop reason must contain between 1 and 4096 bytes").

Definition bounded_json (encoded : option string) (label : string) : result string :=
  let? encoded := ok_or encoded Serialization in
  refuse (MAX_EVIDENCE_JSON_BYTES <? str_len encoded)
    (Invalid (label +:+ " exceeds 1048576 bytes")) ;?
  Ok encoded.

Definition to_u64 (value : Z) (label : string) : result Z :=
  guard (0 <=? value) (Database (Decode ("stored " +:+ label +:+ " is negative"))) ;? Ok value.
Definition to_u32 (value : Z) (label : string) : result Z :=
  guard ((0 <=? value) && (value <=? 4294967295))
    (Database (Decode ("stored " +:+ label +:+ " is out of range"))) ;? Ok value.
Definition to_usize (value : Z) (label : string) : result Z :=
  guard (0 <=? value) (Database (Decode ("stored " +:+ label +:+ " is out of range"))) ;?
  Ok value.

Definition generation_from_row (now : Z) (g : GenerationRow) : result PluginGeneration :=
  let e := g_evidence g in
  let? interfaces := ok_or (interfaces_from_json (ge_interfaces_json e)) Serialization in
  let? interval := to_u64 (g_heartbeat_interval_ms g) "heartbeat interval" in
  let? process_id := match ge_process_id e with
                     | Some v => let? v := to_u32 v "process ID" in Ok (Some v)
                     | None => Ok None
                     end in
  let? protocol := to_u32 (ge_acp_protocol_version e) "ACP protocol version" in
  let? capabilities := parse_json (ge_agent_capabilities_json e) in
  let? turns := to_u32 (ge_max_concurrent_turns e) "maximum concurrent turns" in
  let? frame := to_usize (ge_max_frame_bytes e) "maximum frame bytes" in
  let? initialize := parse_json (ge_raw_initialize_result_json e) in
  Ok {| pg_id := g_id g; pg_agent_id := g_agent_id g; pg_plugin_id := ge_plugin_id e;
        pg_plugin_name := ge_plugin_name e; pg_plugin_version := ge_plugin_version e;
        pg_interfaces := interfaces; pg_process_id := process_id;
        pg_driver_version := ge_driver_version e; pg_acp_sdk_version := ge_acp_sdk_version e;
        pg_acp_protocol_version := protocol; pg_runtime_name := ge_runtime_name e;
        pg_runtime_version := ge_runtime_version e;
        pg_runtime_executable_digest := ge_runtime_executable_digest e;
        pg_agent_capabilities := capabilities; pg_max_concurrent_turns := turns;
        pg_max_frame_bytes := frame; pg_profile_digest := ge_profile_digest e;
        pg_compatibility_digest := ge_compatibility_digest e;
        pg_raw_initialize_result := initialize; pg_heartbeat_interval_ms := interval;
        pg_state := g_state g;
        pg_health := generation_health (g_state g) (g_last_heartbeat_at_ms g) interval now;
        pg_started_at_ms := g_started_at_ms g;
        pg_last_heartbeat_at_ms := g_last_heartbeat_at_ms g;
        pg_stopped_at_ms := g_stopped_at_ms g; pg_stop_disposition := g_stop_disposition g;
        pg_stop_reason := g_stop_reason g; pg_shutdown_outcome := g_shutdown_outcome g;
        pg_shutdown_exit_code := g_shutdown_exit_code g |}.

Definition plugin_generation (generation_id : string) (now : Z) : M PluginGeneration :=
  let* row := fetch_optional (λ g, g_id g ==? generation_id) in
  lift (let? row := ok_or row (NotFound "plugin generation" generation_id) in
        generation_from_row now row).

(** The arms of [match result]: which constraint the insert hit. *)
Definition map_generation_conflict (m : M unit) (agent_id generation_id : string) : M unit :=
  λ db, match m db with
        | Err (Database ForeignKeyViolation) => Err (NotFound "agent" agent_id)
        | Err (Database UniqueViolation) =>
            Err (Conflict ("plugin generation already exists: " +:+ generation_id))
        | r => r
        end.

(** The two writes of a generation are single statements on the pool, committed by
    themselves; what is read back after one of them is a read of its own. *)
Definition insert_plugin_generation (g : NewPluginGeneration) (now : Z) : M unit :=
  lift (validate_generation g) ;;
  let d := ng_description g in
  let* interfaces_json :=
    lift (bounded_json (interfaces_to_json (ng_interfaces g)) "plugin interfaces") in
  let* capabilities_json :=
    lift (bounded_json (to_json (dsc_agent_capabilities d)) "agent capabilities") in
  let* initialize_json :=
    lift (bounded_json (to_json (dsc_raw_initialize_result d)) "raw initialize result") in
  let* interval := lift (ok_or (i64_try_from (ng_heartbeat_interval_ms g))
                           (Invalid "heartbeat interval is too large")) in
  let* max_frame_bytes := lift (ok_or (i64_try_from (dsc_max_frame_bytes d))
                                  (Invalid "maximum frame size is too large")) in
  map_generation_conflict
    (insert {| g_id := ng_id g; g_agent_id := ng_agent_id g;
               g_evidence :=
                 {| ge_plugin_id := ng_plugin_id g; ge_plugin_name := ng_plugin_name g;
                    ge_plugin_version := ng_plugin_version g;
                    ge_interfaces_json := interfaces_json; ge_process_id := u32_value <$> ng_process_id g;
                    ge_driver_version := dsc_driver_version d;
                    ge_acp_sdk_version := dsc_acp_sdk_version d;
                    ge_acp_protocol_version := u32_value (dsc_acp_protocol_version d);
                    ge_runtime_name := dsc_runtime_name d;
                    ge_runtime_version := dsc_runtime_version d;
                    ge_runtime_executable_digest := dsc_runtime_executable_digest d;
                    ge_agent_capabilities_json := capabilities_json;
                    ge_max_concurrent_turns := u32_value (dsc_max_concurrent_turns d);
                    ge_max_frame_bytes := max_frame_bytes;
                    ge_profile_digest := dsc_profile_digest d;
                    ge_compatibility_digest := ng_compatibility_digest g;
                    ge_raw_initialize_result_json := initialize_json |};
               g_heartbeat_interval_ms := interval; g_state := GenerationState.Active;
               g_started_at_ms := now; g_last_heartbeat_at_ms := now;
               g_stopped_at_ms := None; g_stop_disposition := None; g_stop_reason := None;
               g_shutdown_outcome := None; g_shutdown_exit_code := None |})
    (ng_agent_id g) (ng_id g).

(** [WHERE id = ? AND state = 'active'] *)
Definition active_generation (generation_id : string) (g : GenerationRow) : bool :=
  (g_id g ==? generation_id) && (g_state g ==? GenerationState.Active).

Definition set_heartbeat (now : Z) (g : GenerationRow) : GenerationRow :=
  {| g_id := g_id g; g_agent_id := g_agent_id g; g_evidence := g_evidence g;
     g_heartbeat_interval_ms := g_heartbeat_interval_ms g; g_state := g_state g;
     g_started_at_ms := g_started_at_ms g; g_last_heartbeat_at_ms := now;
     g_stopped_at_ms := g_stopped_at_ms g; g_stop_disposition := g_stop_disposition g;
     g_stop_reason := g_stop_reason g; g_shutdown_outcome := g_shutdown_outcome g;
     g_shutdown_exit_code := g_shutdown_exit_code g |}.

Definition set_stopped (stop : StopPluginGeneration) (now : Z) (g : GenerationRow)
    : GenerationRow :=
  {| g_id := g_id g; g_agent_id := g_agent_id g; g_evidence := g_evidence g;
     g_heartbeat_interval_ms := g_heartbeat_interval_ms g;
     g_state := GenerationState.Stopped; g_started_at_ms := g_started_at_ms g;
     g_last_heartbeat_at_ms := now; g_stopped_at_ms := Some now;
     g_stop_disposition := Some (stop_disposition stop);
     g_stop_reason := Some (stop_reason stop);
     g_shutdown_outcome := Some (stop_shutdown_outcome stop);
     g_shutdown_exit_code := stop_shutdown_exit_code stop |}.

Definition heartbeat_plugin_generation (generation_id : string) (now : Z) : M unit :=
  let* n := update (active_generation generation_id) (set_heartbeat now) in
  lift (guard (n ==? 1%nat) (Conflict ("plugin generation is not active: " +:+ generation_id))).

(** The number of rows it changed. *)
Definition retire_plugin_generation (generation_id : string) (stop : StopPluginGeneration)
    (now : Z) : M nat :=
  lift (validate_reason (stop_reason stop)) ;;
  update (active_generation generation_id) (set_stopped stop now).
(** An exact replay of the stop. *)
Definition stopped_as (stop : StopPluginGeneration) (existing : PluginGeneration) : bool :=
  (pg_stop_disposition existing ==? Some (stop_disposition stop))
  && (pg_stop_reason existing ==? Some (stop_reason stop))
  && (pg_shutdown_outcome existing ==? Some (stop_shutdown_outcome stop))
  && (pg_shutdown_exit_code existing ==? stop_shutdown_exit_code stop).

(** ** Observations *)

Definition event_digest (event_seq observed_at_ms : Z) (classification raw : string) : string :=
  "sha256:" +:+ sha256_hex (to_be_bytes event_seq +:+ to_be_bytes observed_at_ms
                            +:+ classification +:+ zero_byte +:+ raw).

Definition chain_digest (previous : option string) (event : string) : string :=
  "sha256:" +:+ sha256_hex (coalesce previous "sha256:genesis" +:+ zero_byte +:+ event).

Definition new_observation (invocation_id generation_id : string) (binding : Binding)
    (now : Z) : ObservationRow :=
  {| o_invocation_id := invocation_id; o_generation_id := generation_id;
     o_binding_id := binding_id binding; o_binding_generation := binding_generation binding;
     o_owner_epoch := owner_epoch binding; o_started_at_ms := now; o_updated_at_ms := now;
     o_first_event_at_ms := None; o_last_event_at_ms := None; o_event_count := 0;
     o_observed_payload_bytes := 0; o_last_event_seq := 0; o_last_event_digest := None;
     o_event_chain_digest := None; o_counts := no_counts; o_terminal_at_ms := None;
     o_stop_reason := None; o_runtime_stop_reason := None; o_execution_certainty := None;
     o_session_quiescent := None; o_session_persistence := None; o_usage_json := None |}.

(** A uniqueness failure of the insert becomes a conflict. *)
Definition map_observation_conflict (m : M unit) (invocation_id : string) : M unit :=
  λ db, match m db with
        | Err (Database UniqueViolation) =>
            Err (Conflict ("invocation observation already exists: " +:+ invocation_id))
        | r => r
        end.

Definition begin_invocation_observation (agent_id invocation_id generation_id : string)
    (binding : Binding) (now : Z) : M unit :=
  let* _ := lift (ok_or (i64_try_from (binding_generation binding))
                    (Invalid "binding generation is too large")) in
  let* _ := lift (ok_or (i64_try_from (owner_epoch binding))
                    (Invalid "owner epoch is too large")) in
  let* gs := select (λ g, active_generation generation_id g && (g_agent_id g ==? agent_id)) in
  map_observation_conflict
    (for_each gs (λ g, insert (new_observation invocation_id (g_id g) binding now)))
    invocation_id ;;
  lift (guard (length gs ==? 1%nat)
          (Conflict ("plugin generation is not active for agent " +:+ agent_id +:+ ": "
                     +:+ generation_id))).

(** The SET clause of [apply_event_fold]. *)
Definition fold_event (now observed_at_ms payload_bytes event_seq : Z)
    (digest chain : string) (counts : EventCounts) (o : ObservationRow) : ObservationRow :=
  {| o_invocation_id := o_invocation_id o; o_generation_id := o_generation_id o;
     o_binding_id := o_binding_id o; o_binding_generation := o_binding_generation o;
     o_owner_epoch := o_owner_epoch o; o_started_at_ms := o_started_at_ms o;
     o_updated_at_ms := now;
     o_first_event_at_ms := Some (coalesce (o_first_event_at_ms o) observed_at_ms);
     o_last_event_at_ms := Some observed_at_ms; o_event_count := o_event_count o + 1;
     o_observed_payload_bytes := o_observed_payload_bytes o + payload_bytes;
     o_last_event_seq := event_seq; o_last_event_digest := Some digest;
     o_event_chain_digest := Some chain; o_counts := add_counts (o_counts o) counts;
     o_terminal_at_ms := o_terminal_at_ms o; o_stop_reason := o_stop_reason o;
     o_runtime_stop_reason := o_runtime_stop_reason o;
     o_execution_certainty := o_execution_certainty o;
     o_session_quiescent := o_session_quiescent o;
     o_session_persistence := o_session_persistence o; o_usage_json := o_usage_json o |}.

Definition apply_event_fold (generation_id invocation_id : string)
    (previous_seq event_seq observed_at_ms payload_bytes : Z) (digest chain : string)
    (counts : EventCounts) (now : Z) : M unit :=
  let* n := update (λ o, (o_invocation_id o ==? invocation_id)
                         && (o_generation_id o ==? generation_id)
                         && (o_last_event_seq o ==? previous_seq))
              (fold_event now observed_at_ms payload_bytes event_seq digest chain counts) in
  lift (guard (n ==? 1%nat) (Conflict "invocation observation changed concurrently")) ;;
  let* _ := update (active_generation generation_id) (set_heartbeat now) in
  ret tt.

(** [FROM invocation_observations o JOIN plugin_generations g] for one exact pair *)
Definition observation_with_generation (generation_id invocation_id : string) (db : Db)
    : option (ObservationRow * GenerationRow) :=
  List.find (λ r, (o_invocation_id r.1 ==? invocation_id)
                  && (o_generation_id r.1 ==? generation_id))
    (join (λ o g, g_id g ==? o_generation_id o)
       db.(invocation_observations) db.(plugin_generations)).

Definition record_invocation_event (generation_id invocation_id : string)
    (event_seq observed_at_ms : Z) (classification : string) (raw : Value) (now : Z) : M unit :=
  lift (refuse ((event_seq ==? 0) || (observed_at_ms <=? 0) || is_blank classification)
          (Invalid "invocation event sequence, time, and classification must be valid")) ;;
  let* event_seq := lift (ok_or (i64_try_from event_seq)
                            (Invalid "event sequence is too large")) in
  let* raw_bytes := lift (to_string raw) in
  let* raw_len := lift (ok_or (i64_try_from (str_len raw_bytes))
                          (Invalid "event payload is too large")) in
  let digest := event_digest event_seq observed_at_ms classification raw_bytes in
  let* row := gets (observation_with_generation generation_id invocation_id) in
  let* row := lift (ok_or row (NotFound "invocation observation" invocation_id)) in
  let o := row.1 in
  lift (refuse (g_state row.2 !=? GenerationState.Active)
          (Conflict "invocation generation is no longer active")) ;;
  lift (refuse (is_some (o_terminal_at_ms o))
          (Conflict "invocation observation is already terminal")) ;;
  if event_seq ==? o_last_event_seq o then
    lift (guard (o_last_event_digest o ==? Some digest)
            (Conflict "event sequence was reused with different evidence"))
  else
    let expected := saturate_i64 (o_last_event_seq o + 1) in
    lift (refuse (event_seq !=? expected)
            (Conflict ("event sequence is not contiguous: expected " +:+ pretty expected
                       +:+ ", received " +:+ pretty event_seq))) ;;
    apply_event_fold generation_id invocation_id (o_last_event_seq o) event_seq
      observed_at_ms raw_len digest (chain_digest (o_event_chain_digest o) digest)
      (event_increments classification) now.

Definition terminal_matches (o : ObservationRow) (terminal : TurnTerminal)
    (usage_json : string) : bool :=
  (o_stop_reason o ==? Some (tt_stop_reason terminal))
  && (o_runtime_stop_reason o ==? tt_runtime_stop_reason terminal)
  && (o_execution_certainty o ==? Some (certainty_from (tt_execution_certainty terminal)))
  && (o_session_quiescent o ==? Some (tt_session_quiescent terminal))
  && (o_session_persistence o ==? Some (tt_session_persistence terminal))
  && (o_usage_json o ==? Some usage_json).

Definition set_observation_terminal (terminal : TurnTerminal) (usage_json : string) (now : Z)
    (o : ObservationRow) : ObservationRow :=
  {| o_invocation_id := o_invocation_id o; o_generation_id := o_generation_id o;
     o_binding_id := o_binding_id o; o_binding_generation := o_binding_generation o;
     o_owner_epoch := o_owner_epoch o; o_started_at_ms := o_started_at_ms o;
     o_updated_at_ms := now; o_first_event_at_ms := o_first_event_at_ms o;
     o_last_event_at_ms := o_last_event_at_ms o; o_event_count := o_event_count o;
     o_observed_payload_bytes := o_observed_payload_bytes o;
     o_last_event_seq := o_last_event_seq o; o_last_event_digest := o_last_event_digest o;
     o_event_chain_digest := o_event_chain_digest o; o_counts := o_counts o;
     o_terminal_at_ms := Some now; o_stop_reason := Some (tt_stop_reason terminal);
     o_runtime_stop_reason := tt_runtime_stop_reason terminal;
     o_execution_certainty := Some (certainty_from (tt_execution_certainty terminal));
     o_session_quiescent := Some (tt_session_quiescent terminal);
     o_session_persistence := Some (tt_session_persistence terminal);
     o_usage_json := Some usage_json |}.

Definition record_invocation_terminal (generation_id : string) (terminal : TurnTerminal)
    (now : Z) : M unit :=
  let is_row o := (o_invocation_id o ==? tt_invocation_id terminal)
                  && (o_generation_id o ==? generation_id) in
  let* last_event_seq := lift (ok_or (i64_try_from (tt_last_event_seq terminal))
                                 (Invalid "terminal event sequence is too large")) in
  let* usage_json := lift (bounded_json (to_json (tt_usage terminal)) "terminal usage") in
  let* row := fetch_optional is_row in
  let* o := lift (ok_or row (NotFound "invocation observation" (tt_invocation_id terminal))) in
  lift (refuse (o_last_event_seq o !=? last_event_seq)
          (Conflict "terminal event sequence does not match durable observations")) ;;
  if is_some (o_terminal_at_ms o) then
    lift (guard (terminal_matches o terminal usage_json)
            (Conflict "invocation terminal was already recorded with different evidence"))
  else
    let* _ := update (λ o, is_row o && is_none (o_terminal_at_ms o))
                (set_observation_terminal terminal usage_json now) in
    let* _ := update (active_generation generation_id) (set_heartbeat now) in
    ret tt.
End observations.
