(* ===== verification/Invocations.v ===== *)
(** * Managed invocations (crates/execution/src/invocation.rs)

    Reserve, arm, complete, recover: the durable attempt a worker makes at one
    delivery.  [uuids k] is the [k]-th [Uuid::new_v4()] a reservation draws for
    its rows, two per row; the lease token is drawn before them. *)

From S2P Require Import Prelude Proto Schema Channels Messages Deliveries.
From S2P Require Import SessionFence.

(** ** The SET clauses *)

Definition set_armed (now : Z) (i : InvocationRow) : InvocationRow :=
  {| i_id := i_id i; i_message_seq := i_message_seq i; i_agent_id := i_agent_id i;
     i_delivery_attempt := i_delivery_attempt i; i_lease_token := i_lease_token i;
     i_lease_expires_at_ms := i_lease_expires_at_ms i; i_fence_token := i_fence_token i;
     i_state := InvocationState.DispatchArmed; i_reserved_at_ms := i_reserved_at_ms i;
     i_dispatch_armed_at_ms := Some now; i_terminal_at_ms := i_terminal_at_ms i;
     i_execution_certainty := i_execution_certainty i;
     i_terminal_reason := i_terminal_reason i;
     i_result_message_seq := i_result_message_seq i |}.

(** [state = 'terminal', terminal_at_ms = ?, execution_certainty = ?, terminal_reason = ?] *)
Definition set_terminal (now : Z) (certainty : ExecutionCertainty.t) (reason : string)
    (i : InvocationRow) : InvocationRow :=
  {| i_id := i_id i; i_message_seq := i_message_seq i; i_agent_id := i_agent_id i;
     i_delivery_attempt := i_delivery_attempt i; i_lease_token := i_lease_token i;
     i_lease_expires_at_ms := i_lease_expires_at_ms i; i_fence_token := i_fence_token i;
     i_state := InvocationState.Terminal; i_reserved_at_ms := i_reserved_at_ms i;
     i_dispatch_armed_at_ms := i_dispatch_armed_at_ms i; i_terminal_at_ms := Some now;
     i_execution_certainty := Some certainty; i_terminal_reason := Some reason;
     i_result_message_seq := i_result_message_seq i |}.

(** The same with [result_message_seq = ?]. *)
Definition set_completed (now result_message_seq : Z) (i : InvocationRow) : InvocationRow :=
  {| i_id := i_id i; i_message_seq := i_message_seq i; i_agent_id := i_agent_id i;
     i_delivery_attempt := i_delivery_attempt i; i_lease_token := i_lease_token i;
     i_lease_expires_at_ms := i_lease_expires_at_ms i; i_fence_token := i_fence_token i;
     i_state := InvocationState.Terminal; i_reserved_at_ms := i_reserved_at_ms i;
     i_dispatch_armed_at_ms := i_dispatch_armed_at_ms i; i_terminal_at_ms := Some now;
     i_execution_certainty := Some ExecutionCertainty.OutcomeKnown;
     i_terminal_reason := Some "completed";
     i_result_message_seq := Some result_message_seq |}.

Definition new_invocation (id : string) (message_seq : Z) (agent_id : string)
    (delivery_attempt : Z) (lease_token : string) (lease_expires_at_ms : Z)
    (fence_token : string) (reserved_at_ms : Z) : InvocationRow :=
  {| i_id := id; i_message_seq := message_seq; i_agent_id := agent_id;
     i_delivery_attempt := delivery_attempt; i_lease_token := lease_token;
     i_lease_expires_at_ms := lease_expires_at_ms; i_fence_token := fence_token;
     i_state := InvocationState.Reserved; i_reserved_at_ms := reserved_at_ms;
     i_dispatch_armed_at_ms := None; i_terminal_at_ms := None;
     i_execution_certainty := None; i_terminal_reason := None;
     i_result_message_seq := None |}.

(** ** Recovery of expired attempts *)

(** [d.state = 'leased' AND d.lease_token = i.lease_token AND
    d.lease_expires_at_ms <= now], for the delivery of the invocation *)
Definition expired_lease_of (now : Z) (i : InvocationRow) (d : DeliveryRow) : bool :=
  (d_message_seq d ==? i_message_seq i) && (d_agent_id d ==? i_agent_id i)
  && (d_state d ==? DeliveryState.Leased) && (d_lease_token d ==? Some (i_lease_token i))
  && match d_lease_expires_at_ms d with Some e => e <=? now | None => false end.

Definition terminalize_expired_reservations (agent_id : string) (now : Z) : M nat :=
  let* ds := gets agent_deliveries in
  update (λ i, (i_agent_id i ==? agent_id) && (i_state i ==? InvocationState.Reserved)
               && (i_lease_expires_at_ms i <=? now)
               && existsb (expired_lease_of now i) ds)
    (set_terminal now ExecutionCertainty.NotStarted "reservation_expired_before_dispatch").

Definition expired_reason (invocation_id : string) : string :=
  "invocation " +:+ invocation_id +:+ " lease expired after dispatch was armed".

Definition park_expired_armed_invocation (row : InvocationRow * DeliveryRow)
    (agent_id : string) (now : Z) : M unit :=
  let '(i, d) := row in
  let reason := expired_reason (i_id i) in
  let* moved := block_expired_lease agent_id (i_message_seq i) (i_lease_token i) reason now in
  lift (guard moved (Conflict "expired invocation delivery changed during recovery")) ;;
  record_block (i_message_seq i) agent_id (d_attempt d) (i_lease_token i) reason now ;;
  let* n := update (λ i', (i_id i' ==? i_id i)
                          && (i_state i' ==? InvocationState.DispatchArmed))
              (set_terminal now ExecutionCertainty.OutcomeUnknown
                 "lease_expired_after_dispatch_armed") in
  lift (guard (n ==? 1%nat) (Conflict "expired invocation changed during recovery")) ;;
  mark_expired_session_turn_uncertain (i_id i) reason now.

(** The expired armed attempts of an agent, in the order they are parked. *)
Definition expired_armed (agent_id : string) (now : Z) (db : Db)
    : list (InvocationRow * DeliveryRow) :=
  sort_by (then_by (by_Z (λ r, i_reserved_at_ms r.1)) (by_str (λ r, i_id r.1)))
    (List.filter (λ r, (i_agent_id r.1 ==? agent_id)
                       && (i_state r.1 ==? InvocationState.DispatchArmed)
                       && (i_lease_expires_at_ms r.1 <=? now))
       (join (expired_lease_of now) db.(invocations) db.(agent_deliveries))).

Definition recover_expired_invocations_transaction (agent_id : string) (now : Z) : M Z :=
  let* recovered := terminalize_expired_reservations agent_id now in
  let* rows := gets (expired_armed agent_id now) in
  for_each rows (λ row, park_expired_armed_invocation row agent_id now) ;;
  ret (saturating_add_u64 (Z.of_nat recovered) (Z.of_nat (length rows))).

(** The agents [recover_all_expired_invocations] finds with expired attempts. *)
Definition expired_agents (now : Z) (db : Db) : list string :=
  sort_by String.leb
    (remove_dups
       (map (λ r, i_agent_id r.1)
          (List.filter (λ r, (i_state r.1 !=? InvocationState.Terminal)
                             && (i_lease_expires_at_ms r.1 <=? now))
             (join (expired_lease_of now) db.(invocations) db.(agent_deliveries))))).

(** Its transaction over the agents read beforehand. *)
Fixpoint recover_agents (agent_ids : list string) (now recovered : Z) : M Z :=
  match agent_ids with
  | [] => ret recovered
  | agent_id :: agent_ids =>
      let* n := recover_expired_invocations_transaction agent_id now in
      recover_agents agent_ids now (saturating_add_u64 recovered n)
  end.

Definition recover_all_expired_invocations (now : Z) : M Z :=
  let* agent_ids := gets (expired_agents now) in
  if agent_ids ==? [] then ret 0 else recover_agents agent_ids now 0.

(** ** Fences *)

Definition validate_arm (invocation_id : string) (input : ArmInvocation) : result unit :=
  refuse (is_blank invocation_id) (Invalid "invocation ID must not be empty") ;?
  refuse (is_blank (arm_lease_token input)) (Invalid "lease token must not be empty") ;?
  refuse (is_blank (arm_fence_token input)) (Invalid "fence token must not be empty").

Definition validate_static_fence (i : InvocationRow) (lease_token fence_token : string)
    : result unit :=
  refuse ((i_lease_token i !=? lease_token) || (i_fence_token i !=? fence_token))
    (LeaseConflict "invocation lease or fence token is invalid").

Definition validate_live_lease (i : InvocationRow) (d : DeliveryRow) (lease_token : string)
    (now : Z) : result unit :=
  refuse ((i_lease_expires_at_ms i <=? now)
          || match d_lease_expires_at_ms d with None => true | Some expiry => expiry <=? now end
          || (d_state d !=? DeliveryState.Leased)
          || (d_lease_token d !=? Some lease_token))
    (LeaseConflict "invocation lease is expired or no longer owns the delivery").

Definition validate_invocation_fence (i : InvocationRow) (d : DeliveryRow)
    (input : ArmInvocation) (now : Z) : result unit :=
  validate_static_fence i (arm_lease_token input) (arm_fence_token input) ;?
  validate_live_lease i d (arm_lease_token input) now.

(** The invocation with its delivery and its input message. *)
Definition invocation_with_delivery (agent_id invocation_id : string)
    : M (InvocationRow * DeliveryRow * MessageRow) :=
  let* row := gets (λ db, List.find (λ r, (i_id r.1.1 ==? invocation_id)
                                          && (i_agent_id r.1.1 ==? agent_id))
                (join (λ r m, m_seq m ==? i_message_seq r.1)
                   (join (λ i d, (d_message_seq d ==? i_message_seq i)
                                 && (d_agent_id d ==? i_agent_id i))
                      db.(invocations) db.(agent_deliveries))
                   db.(messages))) in
  lift (ok_or row (NotFound "invocation" invocation_id)).

Section invocations.
Context `{J : SerdeJson}.

Definition validate_completion (invocation_id : string) (input : CompleteInvocation)
    : result unit :=
  refuse (is_blank invocation_id) (Invalid "invocation ID must not be empty") ;?
  refuse (is_blank (complete_lease_token input)) (Invalid "lease token must not be empty") ;?
  refuse (is_blank (complete_fence_token input)) (Invalid "fence token must not be empty") ;?
  refuse (is_blank (complete_kind input)) (Invalid "result kind must not be empty").

(** ** Read model *)

(** [invocation_select]: JOIN the input message, LEFT JOIN the result. *)
Definition invocations_with_messages (db : Db)
    : list (InvocationRow * MessageRow * option MessageRow) :=
  map (λ r, (r, match i_result_message_seq r.1 with
                | Some seq => List.find (λ m, m_seq m ==? seq) db.(messages)
                | None => None
                end))
    (join (λ i m, m_seq m ==? i_message_seq i) db.(invocations) db.(messages)).

Definition invocation_from_row (r : InvocationRow * MessageRow * option MessageRow)
    : result Invocation :=
  let '(i, m, rm) := r in
  let? message := message_from_row m in
  Ok {| inv_id := i_id i; inv_agent_id := i_agent_id i; inv_message := message;
        inv_delivery_attempt := i_delivery_attempt i; inv_lease_token := i_lease_token i;
        inv_lease_expires_at_ms := i_lease_expires_at_ms i;
        inv_fence_token := i_fence_token i; inv_state := i_state i;
        inv_reserved_at_ms := i_reserved_at_ms i;
        inv_dispatch_armed_at_ms := i_dispatch_armed_at_ms i;
        inv_terminal_at_ms := i_terminal_at_ms i;
        inv_execution_certainty := i_execution_certainty i;
        inv_terminal_reason := i_terminal_reason i;
        inv_result_message_id := m_id <$> rm |}.

(** Also [get_invocation]: the same query outside a transaction. *)
Definition invocation_by_id (invocation_id : string) : M Invocation :=
  let* row := gets (λ db, List.find (λ r, i_id r.1.1 ==? invocation_id)
                            (invocations_with_messages db)) in
  match row with
  | Some row => lift (invocation_from_row row)
  | None => fail (NotFound "invocation" invocation_id)
  end.

Definition list_invocations (agent_id : option string) : M (list Invocation) :=
  let* rs := gets (λ db, List.filter (λ r, match agent_id with
                                           | Some agent_id => i_agent_id r.1.1 ==? agent_id
                                           | None => true
                                           end) (invocations_with_messages db)) in
  lift (collect invocation_from_row
          (limit 500 (sort_by (then_by (by_Z_desc (λ r, i_reserved_at_ms r.1.1))
                                 (by_str_desc (λ r, i_id r.1.1))) rs))).

Definition message_by_seq (message_seq : Z) : M Message :=
  let* row := fetch_optional (λ m, m_seq m ==? message_seq) in
  lift (let? row := ok_or row (NotFound "message" (pretty message_seq)) in
        message_from_row row).

(** ** Reserve *)

Definition reserve_row (row : DeliveryRow * MessageRow) (agent_id lease_token : string)
    (lease_expires_at_ms reserved_at_ms : Z) (id fence_token : string) : M Invocation :=
  let '(d, m) := row in
  insert (new_invocation id (m_seq m) agent_id (d_attempt d) lease_token
            lease_expires_at_ms fence_token reserved_at_ms) ;;
  let* message := lift (message_from_row m) in
  ret {| inv_id := id; inv_agent_id := agent_id; inv_message := message;
         inv_delivery_attempt := d_attempt d; inv_lease_token := lease_token;
         inv_lease_expires_at_ms := lease_expires_at_ms; inv_fence_token := fence_token;
         inv_state := InvocationState.Reserved; inv_reserved_at_ms := reserved_at_ms;
         inv_dispatch_armed_at_ms := None; inv_terminal_at_ms := None;
         inv_execution_certainty := None; inv_terminal_reason := None;
         inv_result_message_id := None |}.

Fixpoint reserve_rows (rows : list (DeliveryRow * MessageRow)) (agent_id lease_token : string)
    (lease_expires_at_ms reserved_at_ms : Z) (uuids : nat → string) (k : nat)
    : M (list Invocation) :=
  match rows with
  | [] => ret []
  | row :: rows =>
      let* i := reserve_row row agent_id lease_token lease_expires_at_ms reserved_at_ms
                  (uuids k) (uuids (S k)) in
      let* rest := reserve_rows rows agent_id lease_token lease_expires_at_ms reserved_at_ms
                   uuids (S (S k)) in
      ret (i :: rest)
  end.

(** The rows a fresh lease token holds, oldest message first. *)
Definition leased_rows (agent_id lease_token : string) (db : Db)
    : list (DeliveryRow * MessageRow) :=
  sort_by (by_Z (λ r, m_seq r.2))
    (List.filter (λ r, (d_agent_id r.1 ==? agent_id)
                       && (d_state r.1 ==? DeliveryState.Leased)
                       && (d_lease_token r.1 ==? Some lease_token))
       (deliveries_with_messages db)).

Definition reserve_invocations_filtered (agent_id : string) (input : ClaimDeliveries)
    (message_kinds : option (list string)) (now : Z) (lease_token : string)
    (uuids : nat → string) : M (list Invocation) :=
  lift (validate_claim input) ;;
  ensure_agent agent_id ;;
  let* lease_duration := lift (ok_or (i64_try_from (claim_lease_duration_ms input))
                                 (Invalid "lease duration is too large")) in
  let* lease_expires_at_ms := lift (ok_or (checked_add_i64 now lease_duration)
                                      (Invalid "lease expiry overflowed")) in
  let* message_kinds_json :=
    lift (match message_kinds with
          | Some kinds => let? json := ok_or (strings_to_json kinds) Serialization in
                          Ok (Some json)
          | None => Ok None
          end) in
  recover_expired_invocations_transaction agent_id now ;;
  lease_claimable agent_id lease_token lease_expires_at_ms now (claim_limit input)
    message_kinds_json ;;
  let* rows := gets (leased_rows agent_id lease_token) in
  reserve_rows rows agent_id lease_token lease_expires_at_ms now uuids 0.

Definition reserve_invocations (agent_id : string) (input : ClaimDeliveries) (now : Z)
    (lease_token : string) (uuids : nat → string) : M (list Invocation) :=
  reserve_invocations_filtered agent_id input None now lease_token uuids.

Definition reserve_invocations_by_kind (agent_id : string) (input : ClaimDeliveries)
    (message_kinds : list string) (now : Z) (lease_token : string) (uuids : nat → string)
    : M (list Invocation) :=
  lift (refuse (message_kinds ==? [])
          (Invalid "invocation message-kind selector must not be empty")) ;;
  reserve_invocations_filtered agent_id input (Some message_kinds) now lease_token uuids.

(** ** Arm *)

Definition arm_invocation_transaction (agent_id invocation_id : string)
    (input : ArmInvocation) (now : Z) : M Invocation :=
  lift (validate_arm invocation_id input) ;;
  let* row := invocation_with_delivery agent_id invocation_id in
  let '(i, d, _) := row in
  lift (validate_invocation_fence i d input now) ;;
  match i_state i with
  | InvocationState.Reserved =>
      let* n := update (λ i', (i_id i' ==? invocation_id) && (i_agent_id i' ==? agent_id)
                              && (i_state i' ==? InvocationState.Reserved))
                  (set_armed now) in
      lift (guard (n ==? 1%nat) (Conflict "invocation changed while dispatch was armed"))
  | InvocationState.DispatchArmed => ret tt
  | InvocationState.Terminal => fail (Conflict "terminal invocation cannot be dispatched")
  end ;;
  invocation_by_id invocation_id.

(** ** Complete *)

Definition result_key (invocation_id : string) : string :=
  "invocation/" +:+ invocation_id +:+ "/result".

Definition result_input (agent_id invocation_id : string) (m : MessageRow)
    (input : CompleteInvocation) : CreateMessage :=
  {| cm_sender_id := agent_id; cm_idempotency_key := Some (result_key invocation_id);
     cm_recipient_id := Some (m_sender_id m); cm_kind := complete_kind input;
     cm_payload := complete_payload input; cm_correlation_id := m_correlation_id m;
     cm_causation_id := Some (m_id m) |}.

Definition ensure_result_key_unused (agent_id invocation_id : string) : M unit :=
  let* n := count (sent_with_key agent_id (result_key invocation_id)) in
  lift (guard (n ==? O)
          (Conflict "invocation result key was already used outside completion")).

Definition acknowledge_invocation_delivery (i : InvocationRow) (agent_id lease_token : string)
    (now : Z) : M unit :=
  let* moved := acknowledge_leased_seq agent_id (i_message_seq i) lease_token now in
  lift (guard moved (LeaseConflict "invocation no longer owns its input delivery")).

Definition completed_replay (invocation_id : string) (i : InvocationRow) (m : MessageRow)
    (expected : CreateMessage) : M InvocationCompletion :=
  match i_result_message_seq i with
  | None => fail (Conflict "terminal invocation was not completed with a result")
  | Some result_seq =>
      lift (refuse (i_terminal_reason i !=? Some "completed")
              (Conflict "terminal invocation was not completed with a result")) ;;
      let* result := message_by_seq result_seq in
      lift (guard (message_matches_input result (m_channel_id m) expected)
              (Conflict "invocation was already completed with a different result")) ;;
      let* invocation := invocation_by_id invocation_id in
      ret {| completion_invocation := invocation; completion_result := result |}
  end.

Definition complete_invocation_transaction (agent_id invocation_id : string)
    (input : CompleteInvocation) (now : Z) (allow_active_session_binding : bool)
    (uuid : string) (created_at_ms : Z) : M (InvocationCompletion * bool) :=
  lift (validate_completion invocation_id input) ;;
  (if allow_active_session_binding then ret tt
   else ensure_invocation_not_active_on_session invocation_id) ;;
  let* row := invocation_with_delivery agent_id invocation_id in
  let '(i, d, m) := row in
  lift (validate_static_fence i (complete_lease_token input) (complete_fence_token input)) ;;
  let expected := result_input agent_id invocation_id m input in
  if i_state i ==? InvocationState.Terminal then
    let* completion := completed_replay invocation_id i m expected in
    ret (completion, false)
  else
    lift (refuse (i_state i !=? InvocationState.DispatchArmed)
            (Conflict "invocation must be armed before completion")) ;;
    lift (validate_live_lease i d (complete_lease_token input) now) ;;
    ensure_result_key_unused agent_id invocation_id ;;
    let* result_message := insert_message (m_channel_id m) expected uuid created_at_ms in
    acknowledge_invocation_delivery i agent_id (complete_lease_token input) now ;;
    let* n := update (λ i', (i_id i' ==? invocation_id) && (i_agent_id i' ==? agent_id)
                            && (i_state i' ==? InvocationState.DispatchArmed))
                (set_completed now (msg_seq result_message)) in
    lift (guard (n ==? 1%nat) (Conflict "invocation changed during completion")) ;;
    let* invocation := invocation_by_id invocation_id in
    ret ({| completion_invocation := invocation; completion_result := result_message |}, true).

Definition complete_invocation (agent_id invocation_id : string) (input : CompleteInvocation)
    (now : Z) (uuid : string) (created_at_ms : Z) : M (InvocationCompletion * bool) :=
  complete_invocation_transaction agent_id invocation_id input now false uuid created_at_ms.
End invocations.

(** ** What the delivery settlements ask of the attempt *)

Definition ensure_retry_is_safe (agent_id message_id lease_token : string) : M unit :=
  let* live := gets (live_under_lease agent_id message_id lease_token) in
  lift (refuse (i_state <$> head live ==? Some InvocationState.DispatchArmed)
          (Conflict "dispatch-armed invocation must be blocked or acknowledged")).

(** [WHERE agent_id = ? AND message_seq = (SELECT seq ...) AND lease_token = ? AND
    state != 'terminal'] *)
Definition live_attempt (ms : list MessageRow) (agent_id message_id lease_token : string)
    (i : InvocationRow) : bool :=
  (i_agent_id i ==? agent_id) && (Some (i_message_seq i) ==? seq_of_message_id ms message_id)
  && (i_lease_token i ==? lease_token) && (i_state i !=? InvocationState.Terminal).

Definition terminalize_invocation (agent_id message_id lease_token : string)
    (certainty : ExecutionCertainty.t) (reason : string) (now : Z) : M unit :=
  ensure_bound_turn_allows_delivery_settlement agent_id message_id lease_token
    ((certainty ==? ExecutionCertainty.OutcomeUnknown) && (reason ==? "blocked")) ;;
  let* ms := gets messages in
  let* _ := update (live_attempt ms agent_id message_id lease_token)
              (set_terminal now certainty reason) in
  ret tt.
