(* ===== verification/Settlement.v ===== *)
(** * Delivery settlement above the kernel (crates/execution/src/settlement.rs)

    Claim, acknowledge, retry, block and resolve: each moves a delivery row, the
    attempt made at it and the session bound to that attempt in one
    transaction. *)

From S2P Require Import Prelude Proto Schema Channels Messages Deliveries.
From S2P Require Import SessionFence Invocations.

(** [transaction.rollback()] followed by work on the committed state: the
    [otherwise] branch runs on the state before [m]. *)
Definition or_rollback {A} (m : M bool) (settled otherwise : M A) : M A := λ db,
  match m db with
  | Ok (true, db') => settled db'
  | Ok (false, _) => otherwise db
  | Err e => Err e
  end.

(** ** Retirement of a session with its delivery block (session_binding.rs) *)

(** The query of [retire_uncertain_session_for_delivery_block]. *)
Definition block_session (block_id : Z) (db : Db)
    : option (InvocationRow * TurnRow * BindingRow) :=
  head
    (flat_map
       (λ b, flat_map
          (λ i, flat_map
             (λ t, map (λ s, (i, t, s))
                (List.filter (λ s, (s_binding_id s ==? t_binding_id t)
                                   && (s_binding_generation s ==? t_binding_generation t))
                   db.(session_bindings)))
             (List.filter (λ t, t_invocation_id t ==? i_id i) db.(session_binding_turns)))
          (List.filter (λ i, (i_message_seq i ==? b_message_seq b)
                             && (i_agent_id i ==? b_agent_id b)
                             && (i_lease_token i ==? b_lease_token b)) db.(invocations)))
       (List.filter (λ b, b_id b ==? block_id) db.(delivery_blocks))).

Definition resolved_block_reason (block_id : Z) (resolution : BlockResolution) : string :=
  "operator_resolved_delivery_block_" +:+ pretty block_id +:+ "_"
  +:+ resolution_name resolution.

Definition retire_uncertain_session_for_delivery_block (block_id : Z)
    (resolution : BlockResolution) (now : Z) : M bool :=
  let* row := gets (block_session block_id) in
  match row with
  | None => ret false
  | Some (i, t, s) =>
      let reason := resolved_block_reason block_id resolution in
      if s_state s ==? SessionBindingState.Retired then
        lift (guard (s_retired_reason s ==? Some reason)
                (Conflict "delivery block session was already retired differently")) ;;
        ret true
      else
        lift (refuse ((i_state i !=? InvocationState.Terminal)
                      || (i_execution_certainty i !=? Some ExecutionCertainty.OutcomeUnknown)
                      || (t_state t !=? TurnState.Uncertain)
                      || (s_state s !=? SessionBindingState.Uncertain)
                      || (s_active_invocation_id s !=? Some (i_id i)))
                (Conflict "delivery block does not identify one recoverable uncertain session")) ;;
        fenced_update
          {| of_binding_id := s_binding_id s; of_binding_generation := s_binding_generation s;
             of_agent_id := s_agent_id s; of_owner_epoch := s_owner_epoch s |}
          (λ s', (s_state s' ==? SessionBindingState.Uncertain)
                 && (s_active_invocation_id s' ==? Some (i_id i)))
          (set_retired reason now) "uncertain session changed during operator recovery" ;;
        ret true
  end.

Section settlement.
Context `{J : SerdeJson}.

Definition claim_deliveries (agent_id : string) (input : ClaimDeliveries) (now : Z)
    (lease_token : string) : M ClaimBatch :=
  lift (validate_claim input) ;;
  let* lease_duration := lift (ok_or (i64_try_from (claim_lease_duration_ms input))
                                 (Invalid "lease duration is too large")) in
  let* lease_expires_at_ms := lift (ok_or (checked_add_i64 now lease_duration)
                                      (Invalid "lease expiry overflowed")) in
  ensure_agent agent_id ;;
  recover_expired_invocations_transaction agent_id now ;;
  lease_claimable agent_id lease_token lease_expires_at_ms now (claim_limit input) None ;;
  let* deliveries := leased_batch agent_id lease_token in
  ret {| batch_lease_token := lease_token; batch_lease_expires_at_ms := lease_expires_at_ms;
         batch_deliveries := deliveries |}.

Definition acknowledge_delivery (agent_id message_id lease_token : string) (now : Z) : M unit :=
  lift (validate_token lease_token) ;;
  or_rollback (mark_acknowledged agent_id message_id lease_token now)
    (terminalize_invocation agent_id message_id lease_token
       ExecutionCertainty.OutcomeKnown "acknowledged" now)
    (settle_miss agent_id message_id lease_token "acknowledged").

Definition retry_delivery (agent_id message_id : string) (input : RetryDelivery) (now : Z)
    : M unit :=
  lift (validate_retry input) ;;
  let* retry_delay := lift (ok_or (i64_try_from (retry_after_ms input))
                              (Invalid "retry delay is too large")) in
  let* available_at_ms := lift (ok_or (checked_add_i64 now retry_delay)
                                  (Invalid "retry time overflowed")) in
  ensure_retry_is_safe agent_id message_id (retry_lease_token input) ;;
  or_rollback (mark_retry agent_id message_id input available_at_ms now)
    (terminalize_invocation agent_id message_id (retry_lease_token input)
       ExecutionCertainty.NotStarted "retry" now)
    (settle_miss agent_id message_id (retry_lease_token input) "retry").

Definition block_delivery (agent_id message_id : string) (input : BlockDelivery) (now : Z)
    : M (BlockedDelivery * bool) :=
  lift (validate_block input) ;;
  or_rollback (mark_blocked agent_id message_id input now)
    (let* block_id := insert_block_record agent_id message_id input now in
     terminalize_invocation agent_id message_id (block_lease_token input)
       ExecutionCertainty.OutcomeUnknown "blocked" now ;;
     let* blocked := blocked_delivery_by_id block_id in
     ret (blocked, true))
    (let* existing := blocked_delivery_by_lease agent_id message_id
                        (block_lease_token input) in
     match existing with
     | Some (blocked, reason) =>
         lift (refuse (reason !=? block_reason input)
                 (Conflict "lease was already blocked with different evidence")) ;;
         ret (blocked, false)
     | None =>
         settle_miss agent_id message_id (block_lease_token input) "blocked" ;;
         fail (LeaseConflict "blocked settlement evidence is missing")
     end).

Definition resolve_delivery_block (block_id : Z) (input : ResolveDeliveryBlock) (now : Z)
    : M unit :=
  resolve_delivery_block_transaction block_id input now ;;
  let* _ := retire_uncertain_session_for_delivery_block block_id (rdb_resolution input) now in
  ret tt.
End settlement.
