(* ===== verification/Sessions.v ===== *)
(** * Session bindings (crates/execution/src/session_binding.rs)

    Acquisition, adoption and rotation of a session lane, and the operations
    that move a binding, its turn and the invocation on it together. *)

From S2P Require Import Prelude Proto Schema Channels Messages Deliveries.
From S2P Require Import SessionFence Observations Invocations.

(** [Path::new(value).is_absolute()] on Unix *)
Definition is_absolute (value : string) : bool :=
  match value with
  | String c _ => bool_decide (c = Ascii.ascii_of_N 47)
  | EmptyString => false
  end.

Definition validate_absolute_path (label value : string) : result unit :=
  validate_bounded label value MAX_PATH_BYTES ;?
  guard (is_absolute value) (Invalid (label +:+ " must be an absolute path")).

Fixpoint validate_directories (directories : list string) : result unit :=
  match directories with
  | [] => Ok tt
  | directory :: directories =>
      validate_absolute_path "additional directory" directory ;?
      validate_directories directories
  end.

Definition validate_acquisition (agent_id : string) (input : AcquireSessionBinding)
    : result unit :=
  validate_bounded "agent ID" agent_id MAX_ID_BYTES ;?
  validate_bounded "lane policy" (acq_lane_policy input) MAX_ID_BYTES ;?
  validate_bounded "lane key" (acq_lane_key input) MAX_LANE_KEY_BYTES ;?
  validate_bounded "owner instance ID" (acq_owner_instance_id input) MAX_ID_BYTES ;?
  validate_bounded "profile digest" (acq_profile_digest input) MAX_ID_BYTES ;?
  validate_bounded "compatibility digest" (acq_compatibility_digest input) MAX_ID_BYTES ;?
  validate_absolute_path "working directory" (acq_working_directory input) ;?
  refuse (MAX_ADDITIONAL_DIRECTORIES <? Z.of_nat (length (acq_additional_directories input)))
    (Invalid "additional directories must not exceed 64 entries") ;?
  validate_directories (acq_additional_directories input).

Definition configuration_matches (b : SessionBinding) (input : AcquireSessionBinding) : bool :=
  (sb_profile_digest b ==? acq_profile_digest input)
  && (sb_compatibility_digest b ==? acq_compatibility_digest input)
  && (sb_working_directory b ==? acq_working_directory input)
  && (sb_additional_directories b ==? acq_additional_directories input).

Definition acquisition_for_owned (existing : SessionBinding) : result SessionAcquisition :=
  let? mode :=
    match sb_state existing with
    | SessionBindingState.Opening => Ok Create
    | SessionBindingState.Ready =>
        let? session_ref := ok_or (sb_session_ref existing)
                              (invalid_stored "ready binding omitted session reference") in
        Ok (Resume session_ref)
    | SessionBindingState.Active =>
        Err (Conflict "session binding already has an active invocation")
    | SessionBindingState.Uncertain => Err (Conflict "session binding is uncertain")
    | SessionBindingState.Retired => Err (Conflict "session binding is retired")
    end in
  Ok {| sa_session := existing; sa_mode := mode |}.

Section sessions.
Context `{J : SerdeJson}.

Definition binding_from_row (s : BindingRow) : result SessionBinding :=
  let? generation := positive_u64 "binding generation" (s_binding_generation s) in
  let? epoch := positive_u64 "owner epoch" (s_owner_epoch s) in
  let? directories := ok_or (strings_from_json (s_additional_directories_json s))
                        Serialization in
  Ok {| sb_binding := {| binding_id := s_binding_id s; binding_generation := generation;
                         owner_epoch := epoch |};
        sb_agent_id := s_agent_id s; sb_lane_policy := s_lane_policy s;
        sb_lane_key := s_lane_key s; sb_owner_instance_id := s_owner_instance_id s;
        sb_profile_digest := s_profile_digest s;
        sb_compatibility_digest := s_compatibility_digest s;
        sb_working_directory := s_working_directory s;
        sb_additional_directories := directories; sb_session_ref := s_session_ref s;
        sb_state := s_state s; sb_active_invocation_id := s_active_invocation_id s;
        sb_last_quiescent_invocation_id := s_last_quiescent_invocation_id s;
        sb_session_persistence := s_session_persistence s;
        sb_uncertain_reason := s_uncertain_reason s;
        sb_retired_reason := s_retired_reason s; sb_created_at_ms := s_created_at_ms s;
        sb_updated_at_ms := s_updated_at_ms s; sb_opened_at_ms := s_opened_at_ms s;
        sb_retired_at_ms := s_retired_at_ms s |}.

Definition binding_by_identity (agent_id : string) (binding : Binding) : M SessionBinding :=
  let* row := exact_binding_row agent_id binding in lift (binding_from_row row).

Definition get_session_binding (id : string) (generation : Z) : M SessionBinding :=
  let* generation := lift (as_i64 "binding generation" generation) in
  let* row := fetch_optional (λ s, (s_binding_id s ==? id)
                                   && (s_binding_generation s ==? generation)) in
  lift (let? row := ok_or row (NotFound "session binding"
                                 (id +:+ "/" +:+ pretty generation)) in
        binding_from_row row).

Definition list_session_bindings (agent_id : option string) : M (list SessionBinding) :=
  let* rs := select (λ s, match agent_id with
                          | Some agent_id => s_agent_id s ==? agent_id
                          | None => true
                          end) in
  lift (collect binding_from_row
          (limit 500 (sort_by (then_by (by_Z_desc s_updated_at_ms)
                                 (then_by (by_str s_binding_id)
                                    (by_Z_desc s_binding_generation))) rs))).

(** ** Acquisition *)

Definition new_binding (id : string) (generation : Z) (agent_id : string)
    (input : AcquireSessionBinding) (directories_json : string) (now : Z) : BindingRow :=
  {| s_binding_id := id; s_binding_generation := generation; s_agent_id := agent_id;
     s_lane_policy := acq_lane_policy input; s_lane_key := acq_lane_key input;
     s_owner_epoch := 1; s_owner_instance_id := acq_owner_instance_id input;
     s_profile_digest := acq_profile_digest input;
     s_compatibility_digest := acq_compatibility_digest input;
     s_working_directory := acq_working_directory input;
     s_additional_directories_json := directories_json; s_session_ref := None;
     s_state := SessionBindingState.Opening; s_active_invocation_id := None;
     s_last_quiescent_invocation_id := None; s_session_persistence := None;
     s_uncertain_reason := None; s_retired_reason := None; s_created_at_ms := now;
     s_updated_at_ms := now; s_opened_at_ms := None; s_retired_at_ms := None |}.

Definition insert_binding (id : string) (generation : Z) (agent_id : string)
    (input : AcquireSessionBinding) (directories_json : string) (now : Z)
    : M SessionAcquisition :=
  let* generation_i64 := lift (as_i64 "binding generation" generation) in
  insert (new_binding id generation_i64 agent_id input directories_json now) ;;
  let* session := binding_by_identity agent_id
                    {| binding_id := id; binding_generation := generation;
                       owner_epoch := 1 |} in
  ret {| sa_session := session; sa_mode := Create |}.

Definition insert_after_latest_retired (agent_id : string) (input : AcquireSessionBinding)
    (directories_json : string) (now : Z) (uuid : string) : M SessionAcquisition :=
  let* latest := latest_binding_row agent_id (acq_lane_policy input) (acq_lane_key input) in
  match latest with
  | None => insert_binding uuid 1 agent_id input directories_json now
  | Some row =>
      let* latest := lift (binding_from_row row) in
      lift (refuse (sb_state latest !=? SessionBindingState.Retired)
              (Conflict "non-retired session binding was omitted from the current lane")) ;;
      let* generation :=
        lift (ok_or (checked_add_u64 (binding_generation (sb_binding latest)) 1)
                (Conflict "binding generation overflowed")) in
      insert_binding (binding_id (sb_binding latest)) generation agent_id input
        directories_json now
  end.

Definition rotate_binding (existing : SessionBinding) (agent_id : string)
    (input : AcquireSessionBinding) (directories_json : string) (now : Z) (reason : string)
    : M SessionAcquisition :=
  let* fence := lift (owner_fence agent_id (sb_binding existing)) in
  let* generation :=
    lift (ok_or (checked_add_u64 (binding_generation (sb_binding existing)) 1)
            (Conflict "binding generation overflowed")) in
  fenced_update fence
    (λ s, (s_state s ==? SessionBindingState.Opening)
          || (s_state s ==? SessionBindingState.Ready))
    (set_retired reason now) "session binding changed during rotation" ;;
  insert_binding (binding_id (sb_binding existing)) generation agent_id input
    directories_json now.

Definition adopt_binding (existing : SessionBinding) (owner_instance_id : string) (now : Z)
    : M SessionAcquisition :=
  let old := sb_binding existing in
  let* fence := lift (owner_fence (sb_agent_id existing) old) in
  let* epoch := lift (ok_or (checked_add_u64 (owner_epoch old) 1)
                        (Conflict "owner epoch overflowed")) in
  let* epoch_i64 := lift (as_i64 "owner epoch" epoch) in
  fenced_update fence (λ s, s_state s ==? SessionBindingState.Ready)
    (set_adopted epoch_i64 owner_instance_id now)
    "session binding changed during adoption" ;;
  let* session := binding_by_identity (sb_agent_id existing)
                    {| binding_id := binding_id old;
                       binding_generation := binding_generation old;
                       owner_epoch := epoch |} in
  let* session_ref := lift (ok_or (sb_session_ref session)
                              (invalid_stored "adopted ready binding omitted session reference")) in
  ret {| sa_session := session; sa_mode := Resume session_ref |}.

Definition acquire_existing (row : BindingRow) (agent_id : string)
    (input : AcquireSessionBinding) (directories_json : string) (now : Z)
    : M SessionAcquisition :=
  let* existing := lift (binding_from_row row) in
  if sb_owner_instance_id existing ==? acq_owner_instance_id input then
    lift (guard (configuration_matches existing input)
            (Conflict "session acquisition replay changed immutable configuration")) ;;
    lift (acquisition_for_owned existing)
  else
    match sb_state existing with
    | SessionBindingState.Opening =>
        rotate_binding existing agent_id input directories_json now
          "opening_superseded_by_new_owner"
    | SessionBindingState.Ready =>
        if configuration_matches existing input
        then adopt_binding existing (acq_owner_instance_id input) now
        else rotate_binding existing agent_id input directories_json now
               "incompatible_profile_rotation"
    | SessionBindingState.Active => fail (Conflict "active session binding cannot be adopted")
    | SessionBindingState.Uncertain =>
        fail (Conflict "uncertain session binding requires explicit reconciliation or retirement")
    | SessionBindingState.Retired =>
        fail (Conflict "retired binding was selected as the current lane")
    end.

Definition acquire_session_binding (agent_id : string) (input : AcquireSessionBinding)
    (now : Z) (uuid : string) : M SessionAcquisition :=
  lift (validate_acquisition agent_id input) ;;
  ensure_agent agent_id ;;
  let* directories_json := lift (ok_or (strings_to_json (acq_additional_directories input))
                                   Serialization) in
  let* current := current_binding_row agent_id (acq_lane_policy input) (acq_lane_key input) in
  match current with
  | None => insert_after_latest_retired agent_id input directories_json now uuid
  | Some row => acquire_existing row agent_id input directories_json now
  end.

(** ** Opening, arming, completing, fencing, retiring *)

Definition record_session_opened (agent_id : string) (binding : Binding)
    (session_ref : string) (now : Z) : M SessionBinding :=
  lift (validate_binding binding) ;;
  lift (validate_bounded "session reference" session_ref MAX_SESSION_REF_BYTES) ;;
  let* fence := lift (owner_fence agent_id binding) in
  let* row := exact_binding_row agent_id binding in
  lift (validate_owner row binding) ;;
  match s_state row with
  | SessionBindingState.Opening =>
      fenced_update fence (λ s, s_state s ==? SessionBindingState.Opening)
        (set_opened session_ref now) "session binding changed while opening"
  | SessionBindingState.Ready =>
      lift (guard (s_session_ref row ==? Some session_ref)
              (Conflict "session opening was replayed with a different native reference"))
  | state =>
      fail (Conflict ("session reference cannot be recorded while binding is "
                      +:+ as_str state))
  end ;;
  binding_by_identity agent_id binding.

Record BoundInvocation := { bi_invocation : Invocation; bi_session : SessionBinding }.

Definition arm_session_invocation (agent_id invocation_id : string) (binding : Binding)
    (session_ref generation_id : string) (input : ArmInvocation) (now : Z)
    : M BoundInvocation :=
  lift (validate_binding binding) ;;
  lift (validate_bounded "session reference" session_ref MAX_SESSION_REF_BYTES) ;;
  let* row := exact_binding_row agent_id binding in
  lift (validate_owner row binding) ;;
  lift (validate_session_reference row session_ref) ;;
  lift (validate_binding_activation row invocation_id) ;;
  let* invocation := arm_invocation_transaction agent_id invocation_id input now in
  activate_binding_turn agent_id invocation_id binding now ;;
  begin_invocation_observation agent_id invocation_id generation_id binding now ;;
  let* session := binding_by_identity agent_id binding in
  ret {| bi_invocation := invocation; bi_session := session |}.

Definition complete_session_invocation (agent_id invocation_id : string) (binding : Binding)
    (persistence : SessionPersistence.t) (input : CompleteInvocation) (now : Z)
    (uuid : string) (created_at_ms : Z) : M (InvocationCompletion * bool) :=
  lift (validate_binding binding) ;;
  validate_bound_turn agent_id invocation_id binding true ;;
  let* completion := complete_invocation_transaction agent_id invocation_id input now true
                       uuid created_at_ms in
  settle_quiescent_turn agent_id invocation_id binding persistence now ;;
  ret completion.

Definition mark_session_invocation_uncertain (agent_id invocation_id : string)
    (binding : Binding) (reason : string) (now : Z) : M SessionBinding :=
  lift (validate_binding binding) ;;
  lift (validate_bounded "uncertain reason" reason MAX_REASON_BYTES) ;;
  validate_bound_turn agent_id invocation_id binding false ;;
  let* row := exact_binding_row agent_id binding in
  match s_state row with
  | SessionBindingState.Uncertain =>
      lift (refuse (s_uncertain_reason row !=? Some reason)
              (Conflict "session uncertainty was already recorded with different evidence"))
  | SessionBindingState.Active =>
      mark_turn_uncertain agent_id invocation_id binding reason now
  | state =>
      fail (Conflict ("session turn cannot become uncertain while binding is "
                      +:+ as_str state))
  end ;;
  binding_by_identity agent_id binding.

Definition retire_session_binding (agent_id : string) (binding : Binding) (reason : string)
    (now : Z) : M SessionBinding :=
  lift (validate_binding binding) ;;
  lift (validate_bounded "retirement reason" reason MAX_REASON_BYTES) ;;
  let* fence := lift (owner_fence agent_id binding) in
  let* row := exact_binding_row agent_id binding in
  lift (validate_owner row binding) ;;
  lift (refuse (s_state row ==? SessionBindingState.Active)
          (Conflict "active session binding must become uncertain before retirement")) ;;
  (if s_state row ==? SessionBindingState.Retired then
     lift (refuse (s_retired_reason row !=? Some reason)
             (Conflict "session binding was already retired for a different reason"))
   else
     fenced_update fence
       (λ s, (s_state s !=? SessionBindingState.Active)
             && (s_state s !=? SessionBindingState.Retired))
       (set_retired reason now) "session binding changed during retirement") ;;
  binding_by_identity agent_id binding.
End sessions.
