(* ===== verification/Evidence.v ===== *)
(** * The operator's read models
      (crates/execution/src/operations.rs, crates/execution/src/health.rs)

    The cursor-addressed evidence listings, the trace of one invocation, the seat
    of every agent and the fleet health report.  A read model runs no
    transaction: where it reads more than once, each read has the store of its
    own moment, [dbs k]. *)

From S2P Require Import Prelude Proto Schema Channels Messages Deliveries.
From S2P Require Import Observations Invocations SessionFence Sessions.

(** ** Pages *)

Definition MAX_EVIDENCE_PAGE : Z := 500.

Record EvidenceCursor := { changed_at_ms : Z; cursor_id : string }.
Inductive EvidenceOrder := Newest | Oldest.
Record EvidencePage := {
  page_agent_id : option string;
  page_after : option EvidenceCursor;
  page_limit : Z;
  page_settled : bool;
  page_order : EvidenceOrder;
}.
Definition newest_page (agent_id : option string) : EvidencePage :=
  {| page_agent_id := agent_id; page_after := None; page_limit := MAX_EVIDENCE_PAGE;
     page_settled := false; page_order := Newest |}.
Definition validate_page (page : EvidencePage) : result Z :=
  refuse match page_after page with Some after => changed_at_ms after <? 0 | None => false end
    (Invalid "evidence cursor must not be negative") ;?
  Ok (clamp (page_limit page) 1 MAX_EVIDENCE_PAGE).

(** The columns of one evidence table a page is addressed by. *)
Record EvidenceColumns (R : Type) := {
  col_agent : R → string;
  col_changed : R → Z;
  col_id : R → string;
  col_settled : R → bool;
}.
Arguments col_agent {R} _ _.
Arguments col_changed {R} _ _.
Arguments col_id {R} _ _.
Arguments col_settled {R} _ _.

Section pages.
Context {R : Type} (columns : EvidenceColumns R).

(** [(changed, id) < (?, ?)] as SQLite compares row values *)
Definition before_cursor (c : EvidenceCursor) (r : R) : bool :=
  (col_changed columns r <? changed_at_ms c)
  || ((col_changed columns r ==? changed_at_ms c) && String.ltb (col_id columns r) (cursor_id c)).
Definition after_cursor (c : EvidenceCursor) (r : R) : bool :=
  (changed_at_ms c <? col_changed columns r)
  || ((col_changed columns r ==? changed_at_ms c) && String.ltb (cursor_id c) (col_id columns r)).

(** The WHERE clause [evidence_sql] writes. *)
Definition evidence_selects (page : EvidencePage) (r : R) : bool :=
  match page_agent_id page with Some agent_id => col_agent columns r ==? agent_id | None => true end
  && (negb (page_settled page) || col_settled columns r)
  && match page_after page, page_order page with
     | Some after, Newest => before_cursor after r
     | Some after, Oldest => after_cursor after r
     | None, _ => true
     end.
(** Its ORDER BY clause. *)
Definition evidence_order (order : EvidenceOrder) : R → R → bool :=
  match order with
  | Newest => then_by (by_Z_desc (col_changed columns)) (by_str_desc (col_id columns))
  | Oldest => then_by (by_Z (col_changed columns)) (by_str (col_id columns))
  end.
Definition evidence_rows (page : EvidencePage) (limit_arg : Z) (l : list R) : list R :=
  limit limit_arg
    (sort_by (evidence_order (page_order page)) (List.filter (evidence_selects page) l)).
End pages.

Definition GENERATION_COLUMNS : EvidenceColumns GenerationRow :=
  {| col_agent := g_agent_id; col_changed := g_last_heartbeat_at_ms; col_id := g_id;
     col_settled := λ g, g_state g ==? GenerationState.Stopped |}.

(** [observation_select]: an observation, its invocation, its input message and
    the result message where there is one. *)
Definition ObservedRow : Type := ObservationRow * InvocationRow * MessageRow * option MessageRow.
Definition OBSERVATION_COLUMNS : EvidenceColumns ObservedRow :=
  {| col_agent := λ r, i_agent_id r.1.1.2; col_changed := λ r, o_updated_at_ms r.1.1.1;
     col_id := λ r, o_invocation_id r.1.1.1; col_settled := λ r, is_some (o_terminal_at_ms r.1.1.1) |}.

(** The matches of a LEFT JOIN: one NULL where there is none. *)
Definition left_matches {A} (on : A → bool) (l : list A) : list (option A) :=
  match List.filter on l with [] => [None] | rs => map Some rs end.

(** Each row decoded at its own reading of the clock. *)
Definition collect_at {A B} (f : Z → A → result B) (nows : nat → Z) (l : list A)
    : result (list B) :=
  collect (λ p, f (nows p.1) p.2) (combine (seq 0 (length l)) l).

Section evidence.
Context `{J : SerdeJson}.

Definition list_plugin_generations (page : EvidencePage) (nows : nat → Z)
    : M (list PluginGeneration) :=
  let* limit_arg := lift (validate_page page) in
  let* rs := gets (λ db, evidence_rows GENERATION_COLUMNS page limit_arg db.(plugin_generations)) in
  lift (collect_at generation_from_row nows rs).

Record InvocationObservation := {
  io_invocation_id : string;
  io_agent_id : string;
  io_source_message_id : string;
  io_result_message_id : option string;
  io_generation_id : string;
  io_binding_id : string;
  io_binding_generation : Z;
  io_owner_epoch : Z;
  io_started_at_ms : Z;
  io_updated_at_ms : Z;
  io_first_event_at_ms : option Z;
  io_last_event_at_ms : option Z;
  io_event_count : Z;
  io_observed_payload_bytes : Z;
  io_last_event_seq : Z;
  io_event_chain_digest : option string;
  io_counts : EventCounts;
  io_terminal_at_ms : option Z;
  io_stop_reason : option string;
  io_runtime_stop_reason : option string;
  io_execution_certainty : option ExecutionCertainty.t;
  io_session_quiescent : option bool;
  io_session_persistence : option SessionPersistence.t;
  io_usage : option Value;
}.

Definition observed_rows (db : Db) : list ObservedRow :=
  flat_map (λ r, map (pair r)
      (match i_result_message_seq r.1.2 with
       | Some seq => left_matches (λ m, m_seq m ==? seq) db.(messages)
       | None => [None]
       end))
    (join (λ r source, m_seq source ==? i_message_seq r.2)
       (join (λ o i, i_id i ==? o_invocation_id o) db.(invocation_observations) db.(invocations))
       db.(messages)).

Definition counts_from_row (c : EventCounts) : result EventCounts :=
  let? prompt := to_u64 (ec_prompt c) "prompt events" in
  let? assistant := to_u64 (ec_assistant c) "assistant events" in
  let? reasoning := to_u64 (ec_reasoning c) "reasoning events" in
  let? tool := to_u64 (ec_tool c) "tool events" in
  let? plan := to_u64 (ec_plan c) "plan events" in
  let? usage := to_u64 (ec_usage c) "usage events" in
  let? metadata := to_u64 (ec_metadata c) "metadata events" in
  let? permission := to_u64 (ec_permission c) "permission events" in
  let? unknown := to_u64 (ec_unknown c) "unknown events" in
  Ok {| ec_prompt := prompt; ec_assistant := assistant; ec_reasoning := reasoning;
        ec_tool := tool; ec_plan := plan; ec_usage := usage; ec_metadata := metadata;
        ec_permission := permission; ec_unknown := unknown |}.

Definition observation_from_row (r : ObservedRow) : result InvocationObservation :=
  let '(o, i, source, result_row) := r in
  let? generation := to_u64 (o_binding_generation o) "binding generation" in
  let? epoch := to_u64 (o_owner_epoch o) "owner epoch" in
  let? count := to_u64 (o_event_count o) "event count" in
  let? bytes := to_u64 (o_observed_payload_bytes o) "observed payload bytes" in
  let? last := to_u64 (o_last_event_seq o) "last event sequence" in
  let? counts := counts_from_row (o_counts o) in
  let? usage := match o_usage_json o with
                | Some json => let? v := parse_json json in Ok (Some v)
                | None => Ok None
                end in
  Ok {| io_invocation_id := o_invocation_id o; io_agent_id := i_agent_id i;
        io_source_message_id := m_id source; io_result_message_id := m_id <$> result_row;
        io_generation_id := o_generation_id o; io_binding_id := o_binding_id o;
        io_binding_generation := generation; io_owner_epoch := epoch;
        io_started_at_ms := o_started_at_ms o; io_updated_at_ms := o_updated_at_ms o;
        io_first_event_at_ms := o_first_event_at_ms o;
        io_last_event_at_ms := o_last_event_at_ms o; io_event_count := count;
        io_observed_payload_bytes := bytes; io_last_event_seq := last;
        io_event_chain_digest := o_event_chain_digest o; io_counts := counts;
        io_terminal_at_ms := o_terminal_at_ms o; io_stop_reason := o_stop_reason o;
        io_runtime_stop_reason := o_runtime_stop_reason o;
        io_execution_certainty := o_execution_certainty o;
        io_session_quiescent := o_session_quiescent o;
        io_session_persistence := o_session_persistence o; io_usage := usage |}.

Definition list_invocation_observations (page : EvidencePage) : M (list InvocationObservation) :=
  let* limit_arg := lift (validate_page page) in
  let* rs := gets (λ db, evidence_rows OBSERVATION_COLUMNS page limit_arg (observed_rows db)) in
  lift (collect observation_from_row rs).

Definition invocation_observation (invocation_id : string) : M (option InvocationObservation) :=
  let* row := gets (λ db, List.find (λ r, o_invocation_id r.1.1.1 ==? invocation_id)
                            (observed_rows db)) in
  match row with
  | Some row => let* o := lift (observation_from_row row) in ret (Some o)
  | None => ret None
  end.

(** ** The trace of one invocation *)

Record InvocationTrace := {
  trace_invocation : Invocation;
  trace_observation : option InvocationObservation;
  trace_session : option SessionBinding;
  trace_plugin_generation : option PluginGeneration;
  trace_result : option Message;
}.

(** A read on one store. *)
Definition read_at {A} (m : M A) (db : Db) : result A :=
  let? r := m db in Ok r.1.

Definition invocation_trace (invocation_id : string) (dbs : nat → Db) (now : Z)
    : result InvocationTrace :=
  let? invocation := read_at (invocation_by_id invocation_id) (dbs 0%nat) in
  let? observation := read_at (invocation_observation invocation_id) (dbs 1%nat) in
  let? evidence :=
    match observation with
    | Some o =>
        let? session := read_at (get_session_binding (io_binding_id o) (io_binding_generation o))
                          (dbs 2%nat) in
        let? generation := read_at (plugin_generation (io_generation_id o) now) (dbs 3%nat) in
        Ok (Some session, Some generation)
    | None => Ok (None, None)
    end in
  let? message := match inv_result_message_id invocation with
                  | Some message_id =>
                      let? m := read_at (get_message message_id) (dbs 4%nat) in Ok (Some m)
                  | None => Ok None
                  end in
  Ok {| trace_invocation := invocation; trace_observation := observation;
        trace_session := evidence.1; trace_plugin_generation := evidence.2;
        trace_result := message |}.

(** ** Agent seats *)

Record AgentSeat := {
  seat_agent_id : string;
  seat_status : AgentSeatState;
  seat_reason : AgentSeatReason;
  seat_generation_id : option string;
  seat_generation_health : option PluginGenerationHealth;
  seat_binding_id : option string;
  seat_binding_generation : option Z;
  seat_owner_epoch : option Z;
  seat_session_state : option SessionBindingState.t;
  seat_invocation_id : option string;
  seat_invocation_state : option InvocationState.t;
  seat_source_message_id : option string;
  seat_delivery_state : option DeliveryState.t;
  seat_lease_expires_at_ms : option Z;
  seat_lease_expired : bool;
  seat_last_progress_at_ms : option Z;
  seat_unresolved_block_id : option Z;
}.
(** One row of [agent_seat_select]. *)
Record SeatEvidence := {
  se_agent : AgentRow;
  se_binding : option BindingRow;
  se_invocation : option InvocationRow;
  se_observation : option ObservationRow;
  se_generation : option GenerationRow;
  se_source : option MessageRow;
  se_delivery : option DeliveryRow;
  se_block : option BlockRow;
}.

(** The binding of the lane an agent used last, retired ones after the others. *)
Definition retired_rank (s : BindingRow) : Z :=
  if s_state s ==? SessionBindingState.Retired then 1 else 0.
Definition current_seat_binding (db : Db) (agent_id : string) : option BindingRow :=
  head (sort_by (then_by (by_Z retired_rank)
                   (then_by (by_Z_desc s_updated_at_ms)
                      (then_by (by_str s_binding_id) (by_Z_desc s_binding_generation))))
          (List.filter (λ s, s_agent_id s ==? agent_id) db.(session_bindings))).
Definition live_seat_invocation (db : Db) (agent_id : string) : option InvocationRow :=
  head (sort_by (then_by (by_Z_desc i_reserved_at_ms) (by_str_desc i_id))
          (List.filter (λ i, (i_agent_id i ==? agent_id) && (i_state i !=? InvocationState.Terminal))
             db.(invocations))).
Definition latest_seat_generation (db : Db) (agent_id : string) : option GenerationRow :=
  head (sort_by (then_by (by_Z_desc g_started_at_ms) (by_str g_id))
          (List.filter (λ g, g_agent_id g ==? agent_id) db.(plugin_generations))).

(** A LEFT JOIN on a key that may be NULL. *)
Definition left_join_key {A K} `{EqDecision K} (key : A → K) (k : option K) (l : list A)
    : list (option A) :=
  match k with Some k => left_matches (λ a, key a ==? k) l | None => [None] end.
Definition or_else {A} (o1 o2 : option A) : option A :=
  match o1 with Some a => Some a | None => o2 end.

Definition seat_rows_of (db : Db) (agent : AgentRow) : list SeatEvidence :=
  let binding := current_seat_binding db (a_id agent) in
  flat_map (λ invocation : option InvocationRow,
  flat_map (λ observation : option ObservationRow,
  flat_map (λ generation : option GenerationRow,
  flat_map (λ source : option MessageRow,
  flat_map (λ delivery : option DeliveryRow,
  map (λ block : option BlockRow,
         {| se_agent := agent; se_binding := binding; se_invocation := invocation;
            se_observation := observation; se_generation := generation; se_source := source;
            se_delivery := delivery; se_block := block |})
    match delivery with
    | Some d => left_matches (λ b, (b_message_seq b ==? d_message_seq d)
                                   && (b_agent_id b ==? d_agent_id d)
                                   && is_none (b_resolved_at_ms b)) db.(delivery_blocks)
    | None => [None]
    end)
    match invocation with
    | Some i => left_matches (λ d, (d_message_seq d ==? i_message_seq i)
                                   && (d_agent_id d ==? i_agent_id i)) db.(agent_deliveries)
    | None => [None]
    end)
    (left_join_key m_seq (i_message_seq <$> invocation) db.(messages)))
    (left_join_key g_id
       (or_else (o_generation_id <$> observation)
          (g_id <$> latest_seat_generation db (a_id agent))) db.(plugin_generations)))
    (left_join_key o_invocation_id (i_id <$> invocation) db.(invocation_observations)))
    (left_join_key i_id
       (or_else (binding ≫= s_active_invocation_id) (i_id <$> live_seat_invocation db (a_id agent)))
       db.(invocations)).
Definition seat_rows (agent_id : option string) (db : Db) : list SeatEvidence :=
  limit 500
    (sort_by (then_by (by_Z (λ r, a_created_at_ms (se_agent r))) (by_str (λ r, a_id (se_agent r))))
       (flat_map (seat_rows_of db)
          (List.filter (λ a, match agent_id with Some id => a_id a ==? id | None => true end)
             db.(agents)))).

Definition optional_u64 (value : option Z) (label : string) : result (option Z) :=
  match value with
  | Some value => let? v := to_u64 value label in Ok (Some v)
  | None => Ok None
  end.

Definition generation_health_from_seat_row (now : Z) (r : SeatEvidence)
    : result (option PluginGenerationHealth) :=
  match se_generation r with
  | None => Ok None
  | Some g =>
      let? interval := to_u64 (g_heartbeat_interval_ms g) "heartbeat interval" in
      Ok (Some (generation_health (g_state g) (g_last_heartbeat_at_ms g) interval now))
  end.

Definition seat_lease_is_expired (now : Z) (r : SeatEvidence) : bool :=
  match i_lease_expires_at_ms <$> se_invocation r with Some expiry => expiry <=? now | None => false end
  || ((d_state <$> se_delivery r ==? Some DeliveryState.Leased)
      && match se_delivery r ≫= d_lease_expires_at_ms with
         | Some expiry => expiry <=? now
         | None => false
         end).

(** [now] is read once for the listing, [health_now] once for the row. *)
Definition agent_seat_from_row (now health_now : Z) (r : SeatEvidence) : result AgentSeat :=
  let? health := generation_health_from_seat_row health_now r in
  let session_state := s_state <$> se_binding r in
  let invocation_state := i_state <$> se_invocation r in
  let lease_expired := seat_lease_is_expired now r in
  let '(status, reason) := seat_state session_state invocation_state health lease_expired in
  let? generation := optional_u64 (s_binding_generation <$> se_binding r) "binding generation" in
  let? epoch := optional_u64 (s_owner_epoch <$> se_binding r) "owner epoch" in
  Ok {| seat_agent_id := a_id (se_agent r); seat_status := status; seat_reason := reason;
        seat_generation_id := g_id <$> se_generation r; seat_generation_health := health;
        seat_binding_id := s_binding_id <$> se_binding r;
        seat_binding_generation := generation; seat_owner_epoch := epoch;
        seat_session_state := session_state; seat_invocation_id := i_id <$> se_invocation r;
        seat_invocation_state := invocation_state;
        seat_source_message_id := m_id <$> se_source r;
        seat_delivery_state := d_state <$> se_delivery r;
        seat_lease_expires_at_ms := i_lease_expires_at_ms <$> se_invocation r;
        seat_lease_expired := lease_expired;
        seat_last_progress_at_ms :=
          or_else (se_observation r ≫= o_last_event_at_ms)
            (or_else (o_updated_at_ms <$> se_observation r)
               (or_else (se_invocation r ≫= i_dispatch_armed_at_ms)
                  (i_reserved_at_ms <$> se_invocation r)));
        seat_unresolved_block_id := b_id <$> se_block r |}.

Definition list_agent_seats (agent_id : option string) (now : Z) (health_nows : nat → Z)
    : M (list AgentSeat) :=
  let* rs := gets (seat_rows agent_id) in
  lift (collect_at (agent_seat_from_row now) health_nows rs).

(** ** Fleet health *)

Record DeliveryCensus := {
  census_inspected : nat;
  census_pending : nat;
  census_leased : nat;
  census_expired_leases : nat;
  census_blocked : nat;
  census_acknowledged : nat;
  census_dead : nat;
}.
Definition empty_census (inspected : nat) : DeliveryCensus :=
  {| census_inspected := inspected; census_pending := 0; census_leased := 0;
     census_expired_leases := 0; census_blocked := 0; census_acknowledged := 0;
     census_dead := 0 |}.
(** The body of the census loop. *)
Definition census_record (c : DeliveryCensus) (record : DeliveryRecord) : DeliveryCensus :=
  let '(Build_DeliveryCensus inspected pending leased expired blocked acknowledged dead) := c in
  match dr_state record with
  | DeliveryState.Pending =>
      Build_DeliveryCensus inspected (S pending) leased expired blocked acknowledged dead
  | DeliveryState.Leased =>
      Build_DeliveryCensus inspected pending (S leased)
        (if dr_lease_expired record then S expired else expired) blocked acknowledged dead
  | DeliveryState.Blocked =>
      Build_DeliveryCensus inspected pending leased expired (S blocked) acknowledged dead
  | DeliveryState.Acknowledged =>
      Build_DeliveryCensus inspected pending leased expired blocked (S acknowledged) dead
  | DeliveryState.Dead =>
      Build_DeliveryCensus inspected pending leased expired blocked acknowledged (S dead)
  end.
Definition census (records : list DeliveryRecord) : DeliveryCensus :=
  fold_left census_record records (empty_census (length records)).

(** The filter of [newest_per] over a set of keys already seen. *)
Fixpoint newest_per_from {T} (key : T → string) (seen : list string) (rows : list T) : list T :=
  match rows with
  | [] => []
  | row :: rows =>
      if bool_decide (key row ∈ seen) then newest_per_from key seen rows
      else row :: newest_per_from key (key row :: seen) rows
  end.
Definition newest_per {T} (rows : list T) (key : T → string) : list T := newest_per_from key [] rows.

Record FleetHealth := {
  health_agent_id : option string;
  health_plugin_generations : list PluginGeneration;
  health_session_bindings : list SessionBinding;
  health_active_invocations : list Invocation;
  health_deliveries : DeliveryCensus;
  health_delivery_records : list DeliveryRecord;
}.

Definition fleet_health (agent_id : option string) (delivery_limit : Z) (dbs : nat → Db)
    (nows : nat → Z) (now : Z) : result FleetHealth :=
  let? generations := read_at (list_plugin_generations (newest_page agent_id) nows) (dbs 0%nat) in
  let? sessions := read_at (list_session_bindings agent_id) (dbs 1%nat) in
  let? invocations := read_at (list_invocations agent_id) (dbs 2%nat) in
  let? records := read_at (list_deliveries agent_id None delivery_limit now) (dbs 3%nat) in
  Ok {| health_agent_id := agent_id;
        health_plugin_generations := newest_per generations pg_agent_id;
        health_session_bindings := newest_per sessions (λ s, binding_id (sb_binding s));
        health_active_invocations :=
          List.filter (λ i, inv_state i !=? InvocationState.Terminal) invocations;
        health_deliveries := census records; health_delivery_records := records |}.
End evidence.
