(* ===== verification/Conversation.v ===== *)
(** * Conversations: how a channel reads to its participants
      (crates/conversation/src/lib.rs)

    A read model over channels, memberships and the message log: the summary of a
    conversation and the exact unread state of a participant.  It writes nothing;
    a read that follows another has the store of its own moment, [dbs k]. *)

From stdpp Require Import gmap.
From S2P Require Import Prelude Proto Schema Channels Evidence.

Section conversation.
Context `{J : SerdeJson}.

Record ConversationSummary := {
  cs_id : string;
  cs_name : string;
  cs_kind : ConversationKind.t;
  cs_metadata : Value;
  cs_created_at_ms : Z;
  cs_archived_at_ms : option Z;
  cs_members : list ChannelMember;
  cs_latest_message_seq : option Z;
  cs_latest_message_at_ms : option Z;
}.
Record ConversationAttention := {
  ca_channel_id : string;
  ca_read_through_seq : Z;
  ca_latest_message_seq : option Z;
  ca_unread_count : Z;
  ca_addressed_unread_count : Z;
  ca_first_unread_seq : option Z;
  ca_first_addressed_unread_seq : option Z;
}.

(** ** Summaries *)

(** The correlated lookups of [summary_select]: the newest message of a channel. *)
Definition newest_message (db : Db) (channel_id : string) : option MessageRow :=
  head (sort_by (by_Z_desc m_seq)
          (List.filter (λ m, m_channel_id m ==? channel_id) db.(messages))).
Definition summary_from_row (r : ChannelRow * option MessageRow) (members : list ChannelMember)
    : result ConversationSummary :=
  let? channel := channel_from_row r.1 in
  Ok {| cs_id := channel_id channel; cs_name := channel_name channel;
        cs_kind := channel_kind channel; cs_metadata := channel_metadata channel;
        cs_created_at_ms := channel_created_at_ms channel;
        cs_archived_at_ms := channel_archived_at_ms channel; cs_members := members;
        cs_latest_message_seq := m_seq <$> r.2; cs_latest_message_at_ms := m_created_at_ms <$> r.2 |}.

(** [? OR c.archived_at_ms IS NULL] *)
Definition listed (include_archived : bool) (c : ChannelRow) : bool :=
  include_archived || is_none (c_archived_at_ms c).
Definition summary_rows (include_archived : bool) (db : Db)
    : list (ChannelRow * option MessageRow) :=
  map (λ c, (c, newest_message db (c_id c)))
    (sort_by (then_by (by_Z c_created_at_ms) (by_str c_id))
       (List.filter (listed include_archived) db.(channels))).

(** [grouped.entry(channel_id).or_default().push(member)] *)
Definition push_member (grouped : gmap string (list ChannelMember)) (member : ChannelMember)
    : gmap string (list ChannelMember) :=
  <[member_channel_id member :=
      default [] (grouped !! member_channel_id member) ++ [member]]> grouped.
Definition members_by_conversation (include_archived : bool) (db : Db)
    : gmap string (list ChannelMember) :=
  fold_left push_member
    (map (λ r, channel_member_from_row r.1)
       (sort_by (then_by (by_str (λ r, cm_channel_id r.1.1))
                   (then_by (by_Z (λ r, cm_joined_at_ms r.1.1)) (by_str (λ r, cm_agent_id r.1.1))))
          (List.filter (λ r, listed include_archived r.2)
             (join (λ r c, c_id c ==? cm_channel_id r.1)
                (join (λ m a, a_id a ==? cm_agent_id m) db.(channel_members) db.(agents))
                db.(channels)))))
    ∅.
(** [members.remove(&channel_id).unwrap_or_default()] for each row in turn. *)
Fixpoint summaries (rows : list (ChannelRow * option MessageRow))
    (members : gmap string (list ChannelMember)) : result (list ConversationSummary) :=
  match rows with
  | [] => Ok []
  | row :: rows =>
      let? s := summary_from_row row (default [] (members !! c_id row.1)) in
      let? rest := summaries rows (delete (c_id row.1) members) in
      Ok (s :: rest)
  end.
Definition list_conversations (include_archived : bool) (dbs : nat → Db)
    : result (list ConversationSummary) :=
  summaries (summary_rows include_archived (dbs 0%nat))
    (members_by_conversation include_archived (dbs 1%nat)).

Definition summary (channel_id : string) (dbs : nat → Db) : result ConversationSummary :=
  let? row := ok_or (List.find (λ c, c_id c ==? channel_id) (channels (dbs 0%nat)))
                (NotFound "channel" channel_id) in
  let? members := read_at (list_channel_members channel_id) (dbs 1%nat) in
  summary_from_row (row, newest_message (dbs 0%nat) channel_id) members.

(** ** Attention *)

(** [m.seq > cm.read_through_seq AND m.sender_id <> cm.agent_id] *)
Definition unread (cm : MemberRow) (m : MessageRow) : bool :=
  (cm_read_through_seq cm <? m_seq m) && (m_sender_id m !=? cm_agent_id cm).
Definition addressed_unread (cm : MemberRow) (m : MessageRow) : bool :=
  unread cm m && (m_recipient_id m ==? Some (cm_agent_id cm)).
(** The LEFT JOIN of one membership.  GROUP BY names the channel and the cursor,
    and the WHERE clause the agent: a group is one membership. *)
Definition attention_group (db : Db) (cm : MemberRow) : list (option MessageRow) :=
  left_matches (λ m, m_channel_id m ==? cm_channel_id cm) db.(messages).
(** [SUM(CASE WHEN p THEN 1 ELSE 0 END)] *)
Definition sum_case (p : MessageRow → bool) (group : list (option MessageRow)) : Z :=
  foldr (λ m total, (match m with Some m => if p m then 1 else 0 | None => 0 end) + total) 0 group.
(** [MIN(CASE WHEN p THEN m.seq END)] and [MAX(m.seq)] skip NULL. *)
Definition min_case (p : MessageRow → bool) (group : list (option MessageRow)) : option Z :=
  foldr (λ m least, match m with
                    | Some m => if p m then
                                  Some (match least with Some l => Z.min (m_seq m) l | None => m_seq m end)
                                else least
                    | None => least
                    end) None group.
Definition attention_from_group (cm : MemberRow) (group : list (option MessageRow))
    : ConversationAttention :=
  {| ca_channel_id := cm_channel_id cm; ca_read_through_seq := cm_read_through_seq cm;
     ca_latest_message_seq := max_by m_seq (omap id group);
     ca_unread_count := sum_case (unread cm) group;
     ca_addressed_unread_count := sum_case (addressed_unread cm) group;
     ca_first_unread_seq := min_case (unread cm) group;
     ca_first_addressed_unread_seq := min_case (addressed_unread cm) group |}.

Definition attention (agent_id : string) (db : Db) : list ConversationAttention :=
  map (λ cm, attention_from_group cm (attention_group db cm))
    (sort_by (then_by (by_Z cm_joined_at_ms) (by_str cm_channel_id))
       (List.filter (λ cm, cm_agent_id cm ==? agent_id) db.(channel_members))).

Definition attention_for (agent_id channel_id : string) : M ConversationAttention :=
  let* row := fetch_optional (λ cm, (cm_agent_id cm ==? agent_id)
                                    && (cm_channel_id cm ==? channel_id)) in
  let* cm := lift (ok_or row (NotMember agent_id channel_id)) in
  gets (λ db, attention_from_group cm (attention_group db cm)).
End conversation.
