(* ===== verification/HarnessClient.v ===== *)
(** * The typed harness client (crates/plugin-host/src/harness_acp.rs)

    [HarnessAcpClient] is what stands between the controller and a plugin
    process: it bounds what is sent, and it admits only notifications that carry
    the fence of the active turn and extend its evidence without a gap.  The
    plugin process, its pipes and the JSON-RPC framing are the class
    [PluginProcess]: one field per call the client issues, about whose answers
    nothing is assumed.  Decoding of the received parameters is the class
    [HarnessFrames]. *)

From stdpp Require Import gmap.
From S2P Require Import Prelude Action Proto Schema Observations Sessions.

(** ** Errors (crates/plugin-host/src/supervisor.rs) *)

Inductive PluginError :=
| InvalidSpec (reason : string)
| InvalidManifest (reason : string)
| IdentityMismatch (expected actual : string)
| ProtocolVersion (expected actual : Z)
| MissingInterface (interface : string)
| Protocol (reason : string)
| Transport (reason : string)
| Timeout (method : string) (timeout_ms : Z)
| Remote (method : string) (code : Z) (message : string)
| Exited (code : option Z)
| Unhealthy (reason : string)
| ShutdownRejected
| Io (reason : string)
| Json.

Definition MAX_FLEET_ID_BYTES : Z := 256.
Definition MAX_SESSION_REF_BYTES : Z := 4096.
Definition MAX_FRAME_BYTES : Z := 1048576.
Definition MAX_CAPTURE_BYTES : Z := 524288.

Definition validation : Type := unit + PluginError.

Definition validate_id (kind value : string) : validation :=
  reject (is_blank value || (MAX_FLEET_ID_BYTES <? str_len value))
    (Protocol (kind +:+ " must contain between 1 and 256 bytes")).
Definition validate_positive (kind : string) (value : Z) : validation :=
  reject (value ==? 0) (Protocol (kind +:+ " must be greater than zero")).
Definition validate_session_ref (session_ref : string) : validation :=
  reject ((session_ref ==? "") || (MAX_SESSION_REF_BYTES <? str_len session_ref))
    (Protocol "session_ref must contain between 1 and 4096 bytes").
Definition validate_absolute_path (kind value : string) : validation :=
  reject (negb (is_absolute value)) (Protocol (kind +:+ " must be an absolute path")).

Definition validate_binding (binding : Binding) : validation :=
  validate_id "binding_id" (binding_id binding) ;:
  validate_positive "binding_generation" (binding_generation binding) ;:
  validate_positive "owner_epoch" (owner_epoch binding).
Definition validate_fence (fence : ExecutionFence) : validation :=
  validate_id "binding_id" (fence_binding_id fence) ;:
  validate_positive "binding_generation" (fence_binding_generation fence) ;:
  validate_positive "owner_epoch" (fence_owner_epoch fence) ;:
  validate_id "invocation_id" (fence_invocation_id fence) ;:
  validate_id "fence_token" (fence_fence_token fence).
Definition validate_optional_id (kind : string) (value : option string) : validation :=
  match value with Some value => validate_id kind value | None => inl tt end.
Definition validate_turn_source (source : TurnSource) : validation :=
  validate_id "source agent_id" (ts_agent_id source) ;:
  validate_id "source message_id" (ts_message_id source) ;:
  validate_id "source channel_id" (ts_channel_id source) ;:
  validate_id "source sender_id" (ts_sender_id source) ;:
  validate_optional_id "source correlation_id" (ts_correlation_id source) ;:
  validate_optional_id "source causation_id" (ts_causation_id source).
Definition validate_effective_enforcement (enforcement : EffectiveEnforcement) : validation :=
  reject ((ee_wall_timeout enforcement !=? "hard")
          || (ee_idle_timeout enforcement !=? "hard")
          || (ee_cancel_drain_timeout enforcement !=? "hard")
          || (ee_captured_output_bytes enforcement !=? "hard")
          || (ee_tool_budget enforcement !=? "observe_then_cancel")
          || (ee_token_budget enforcement !=? "unavailable"))
    (Protocol "driver did not provide the required effective enforcement").

(** The checks [start_turn] makes of its request before it is sent. *)
Definition validate_start_turn (request : StartTurn) : validation :=
  let policy := st_policy request in
  validate_fence (st_fence request) ;:
  validate_session_ref (st_session_ref request) ;:
  validate_turn_source (st_source request) ;:
  reject (match st_prompt request with [] => true | _ => false end)
    (Protocol "turn prompt must contain at least one block") ;:
  reject ((tp_idle_timeout_ms policy ==? 0) || (tp_wall_timeout_ms policy ==? 0)
          || (tp_cancel_drain_timeout_ms policy ==? 0)
          || (tp_max_captured_output_bytes policy ==? 0)
          || (MAX_CAPTURE_BYTES <? tp_max_captured_output_bytes policy))
    (Protocol "turn policy bounds are invalid") ;:
  reject ((tp_permission_policy policy !=? "controller")
          || (tb_required_enforcement (tp_tool_budget policy) !=? "observe_then_cancel")
          || is_some (tp_token_budget policy))
    (Protocol "turn requests unsupported enforcement").

(** ** Requests of the session calls (crates/proto/src/harness_acp.rs) *)

Record ResolvedMcpHttpHeader := { header_name : string; header_value : string }.
Inductive ResolvedMcpEndpoint := Http (url : string) (headers : list ResolvedMcpHttpHeader).
Record ResolvedMcpGrant := { mcp_name : string; mcp_endpoint : ResolvedMcpEndpoint }.
Inductive OpenSessionMode := OpenCreate | OpenResume (session_ref : string).
Record OpenSession := {
  os_binding : Binding;
  os_mode : OpenSessionMode;
  os_working_directory : string;
  os_additional_directories : list string;
  os_mcp_grants : list string;
  os_resolved_mcp_grants : list ResolvedMcpGrant;
  os_profile_digest : string;
}.
(** The three fields of the binding are one record here and in [StartTranscript]. *)
Record CloseSession := {
  cs_binding : Binding; cs_session_ref : string; cs_reason : string }.
Record StartTranscript := { str_binding : Binding; str_session_ref : string }.

Section client.
Context `{J : SerdeJson}.

Record OpenSessionResult := {
  osr_session_ref : string;
  osr_profile_digest : string;
  osr_resumed : bool;
  osr_effective_config : Value;
  osr_raw_session_result : Value;
}.
(** [PluginNotification] of proto/plugin.rs *)
Record PluginNotification := { pn_method : string; pn_params : Value }.

Class PluginProcess (P : Type) := {
  call_describe : action P PluginError DescribeResult;
  call_open_session : OpenSession → action P PluginError OpenSessionResult;
  call_start_turn : StartTurn → action P PluginError StartTurnResult;
  call_resolve_permission : PermissionResolution → action P PluginError bool;
  call_cancel_turn : CancelTurn → action P PluginError bool;
  call_start_transcript : StartTranscript → action P PluginError bool;
  call_close_session : CloseSession → action P PluginError (bool * bool);
  receive_notification : action P PluginError PluginNotification;
}.
(** [serde_json::from_value] at each frame type. *)
Class HarnessFrames := {
  turn_event_from_value : Value → option TurnEvent;
  permission_from_value : Value → option PermissionRequested;
  terminal_from_value : Value → option TurnTerminal;
  transcript_entry_from_value : Value → option TranscriptEntry;
  transcript_complete_from_value : Value → option TranscriptComplete;
}.

(** [serde_json::to_value] of the frames the source serializes. *)
Definition fence_to_value `{!JsonTree} (fence : ExecutionFence) : Value :=
  json_object
    [("binding_id", json_string (fence_binding_id fence));
     ("binding_generation", json_number (fence_binding_generation fence));
     ("owner_epoch", json_number (fence_owner_epoch fence));
     ("invocation_id", json_string (fence_invocation_id fence));
     ("fence_token", json_string (fence_fence_token fence))].
Definition turn_event_to_value `{!JsonTree} (event : TurnEvent) : Value :=
  json_object
    [("fence", fence_to_value (te_fence event));
     ("event_seq", json_number (te_event_seq event));
     ("observed_at_ms", json_number (te_observed_at_ms event));
     ("classification", json_string (te_classification event));
     ("raw_update", te_raw_update event)].
(** The fields of a permission request, which the controller extends. *)
Definition permission_fields `{!JsonTree} (request : PermissionRequested)
    : list (string * Value) :=
  [("fence", fence_to_value (pq_fence request));
   ("permission_id", json_string (pq_permission_id request));
   ("event_seq", json_number (pq_event_seq request));
   ("tool_call", pq_tool_call request);
   ("options", json_array (pq_options request));
   ("expires_at_ms", json_number (pq_expires_at_ms request))].
Definition permission_to_value `{!JsonTree} (request : PermissionRequested) : Value :=
  json_object (permission_fields request).

(** ** The client *)

Record ActiveTurn := {
  at_fence : ExecutionFence;
  at_last_event_seq : Z;
  at_seen : gmap Z string;
}.
Record HarnessAcpClient (P : Type) := {
  hc_process : P;
  hc_active_turn : option ActiveTurn;
}.
Arguments hc_process {P} _.
Arguments hc_active_turn {P} _.

(** [HarnessAcpClient::new]: the manifest must declare fleetd.harness-acp@0.1.0. *)
Definition HARNESS_ACP_INTERFACE_ID : string := "fleetd.harness-acp".
Definition new_client {P} (interfaces : list (string * string)) (process : P)
    : HarnessAcpClient P + PluginError :=
  if bool_decide ((HARNESS_ACP_INTERFACE_ID, "0.1.0") ∈ interfaces)
  then inl {| hc_process := process; hc_active_turn := None |}
  else inr (MissingInterface (HARNESS_ACP_INTERFACE_ID +:+ "@0.1.0")).

Context {P : Type} {PP : PluginProcess P} {HF : HarnessFrames} {JT : JsonTree}.
(** The SHA-256 digest of a byte string. *)
Context (sha256 : string → string).

Definition client_action (A : Type) : Type := action (HarnessAcpClient P) PluginError A.

(** A call of the plugin process. *)
Definition protocol_call {A} (m : action P PluginError A) : client_action A :=
  λ c, let (p, r) := m (hc_process c) in
       ({| hc_process := p; hc_active_turn := hc_active_turn c |}, r).
Definition set_active_turn (turn : option ActiveTurn) : client_action unit :=
  act (λ c, {| hc_process := hc_process c; hc_active_turn := turn |}).

Definition validate_description (result : DescribeResult) : validation :=
  validate_id "driver version" (dsc_driver_version result) ;:
  validate_id "ACP SDK version" (dsc_acp_sdk_version result) ;:
  validate_id "runtime name" (dsc_runtime_name result) ;:
  validate_id "runtime version" (dsc_runtime_version result) ;:
  validate_id "runtime executable digest" (dsc_runtime_executable_digest result) ;:
  validate_id "profile digest" (dsc_profile_digest result) ;:
  reject ((u32_value (dsc_acp_protocol_version result) !=? 1)
          || (u32_value (dsc_max_concurrent_turns result) ==? 0) || (dsc_max_frame_bytes result ==? 0)
          || (MAX_FRAME_BYTES <? dsc_max_frame_bytes result))
    (Protocol "driver reported unusable ACP limits").

Definition describe : client_action DescribeResult :=
  let! result := protocol_call call_describe in
  try_ (validate_description result) ;!
  done_with result.

Fixpoint validate_directories (directories : list string) : validation :=
  match directories with
  | [] => inl tt
  | directory :: directories =>
      validate_absolute_path "additional_directory" directory ;: validate_directories directories
  end.

Definition open_session (request : OpenSession) : client_action OpenSessionResult :=
  try_ (validate_binding (os_binding request)) ;!
  try_ (validate_id "profile_digest" (os_profile_digest request)) ;!
  try_ (validate_absolute_path "working_directory" (os_working_directory request)) ;!
  try_ (validate_directories (os_additional_directories request)) ;!
  try_ (match os_mode request with
        | OpenResume session_ref => validate_session_ref session_ref
        | OpenCreate => inl tt
        end) ;!
  let! result := protocol_call (call_open_session request) in
  try_ (validate_session_ref (osr_session_ref result)) ;!
  try_ (reject (osr_profile_digest result !=? os_profile_digest request)
          (Protocol "session profile digest does not match request")) ;!
  try_ (match os_mode request with
        | OpenCreate =>
            reject (osr_resumed result) (Protocol "created session was reported as resumed")
        | OpenResume session_ref =>
            reject (negb (osr_resumed result) || (osr_session_ref result !=? session_ref))
              (Protocol "resumed session did not preserve its native reference")
        end) ;!
  done_with result.

Definition start_turn (request : StartTurn) : client_action StartTurnResult :=
  let! active := look hc_active_turn in
  try_ (reject (is_some active) (Protocol "a harness turn is already active")) ;!
  try_ (validate_start_turn request) ;!
  let! result := protocol_call (call_start_turn request) in
  try_ (reject (negb (str_accepted result))
          (Protocol "driver returned an unaccepted turn as success")) ;!
  try_ (validate_effective_enforcement (str_effective_enforcement result)) ;!
  set_active_turn (Some {| at_fence := st_fence request; at_last_event_seq := 0; at_seen := ∅ |}) ;!
  done_with result.

Definition validate_active_fence (active_turn : option ActiveTurn) (fence : ExecutionFence)
    : ActiveTurn + PluginError :=
  match validate_fence fence with
  | inr e => inr e
  | inl _ =>
      match active_turn with
      | None => inr (Protocol "no harness turn is active")
      | Some active =>
          if at_fence active ==? fence then inl active
          else inr (Protocol "notification or request fence does not match active turn")
      end
  end.

Definition resolve_permission (request : PermissionResolution) : client_action unit :=
  let! active_turn := look hc_active_turn in
  let! _ := try_ (validate_active_fence active_turn (pr_fence request)) in
  try_ (validate_id "permission_id" (pr_permission_id request)) ;!
  let! accepted := protocol_call (call_resolve_permission request) in
  try_ (reject (negb accepted) (Protocol "driver rejected permission resolution")).

Definition cancel_turn (reason : string) : client_action unit :=
  let! active_turn := look hc_active_turn in
  let! active := try_ (match active_turn with
                       | Some active => inl active
                       | None => inr (Protocol "no harness turn is active")
                       end) in
  try_ (validate_id "cancellation reason" reason) ;!
  let! accepted :=
    protocol_call (call_cancel_turn {| ct_fence := at_fence active; ct_reason := reason |}) in
  try_ (reject (negb accepted) (Protocol "driver rejected turn cancellation")).

(** The state [admit_event] leaves for an event it accepts. *)
Definition admit_event (active_turn : option ActiveTurn) (fence : ExecutionFence) (event_seq : Z)
    (raw : Value) : ActiveTurn + PluginError :=
  match validate_active_fence active_turn fence with
  | inr e => inr e
  | inl active =>
  match validate_positive "event_seq" event_seq with
  | inr e => inr e
  | inl _ =>
  match to_json raw with
  | None => inr Json
  | Some bytes =>
  let digest := sha256 bytes in
  match at_seen active !! event_seq with
  | Some previous =>
      if previous ==? digest then inl active
      else inr (Protocol "event sequence was reused with different content")
  | None =>
  match checked_add_u64 (at_last_event_seq active) 1 with
  | None => inr (Protocol "event sequence overflowed")
  | Some expected =>
  if event_seq !=? expected then
    inr (Protocol ("event sequence is not contiguous: expected " +:+ pretty expected
                   +:+ ", received " +:+ pretty event_seq))
  else inl {| at_fence := at_fence active; at_last_event_seq := event_seq;
              at_seen := <[event_seq := digest]> (at_seen active) |}
  end
  end
  end
  end
  end.

Fixpoint validate_message_bounds (last_event_seq : Z) (messages : list AssistantMessage)
    : validation :=
  match messages with
  | [] => inl tt
  | message :: messages =>
      reject ((am_first_event_seq message ==? 0)
              || (am_last_event_seq message <? am_first_event_seq message)
              || (last_event_seq <? am_last_event_seq message))
        (Protocol "assistant message references invalid turn event bounds") ;:
      validate_message_bounds last_event_seq messages
  end.

Definition validate_terminal (active_turn : option ActiveTurn) (terminal : TurnTerminal)
    : validation :=
  match validate_active_fence active_turn (tt_fence terminal) with
  | inr e => inr e
  | inl active =>
      reject (tt_last_event_seq terminal !=? at_last_event_seq active)
        (Protocol ("terminal event sequence does not match admitted evidence: expected "
                   +:+ pretty (at_last_event_seq active) +:+ ", received "
                   +:+ pretty (tt_last_event_seq terminal))) ;:
      validate_id "terminal stop reason" (tt_stop_reason terminal) ;:
      reject (tt_execution_certainty terminal ==? NotStarted)
        (Protocol "an accepted turn cannot terminate with not-started certainty") ;:
      reject (tt_session_quiescent terminal && (tt_execution_certainty terminal ==? OutcomeUnknown))
        (Protocol "outcome-unknown terminal evidence cannot claim a quiescent session") ;:
      validate_message_bounds (tt_last_event_seq terminal) (tt_assistant_messages terminal)
  end.

(** [serde_json::from_value(params)?] *)
Definition decode {A} (decoded : option A) : client_action A :=
  match decoded with Some a => done_with a | None => throw Json end.

Definition next_notification : client_action HarnessAcpNotification :=
  let! notification := protocol_call receive_notification in
  let method := pn_method notification in
  if method ==? "harness.acp.turn.event" then
    let! event := decode (turn_event_from_value (pn_params notification)) in
    try_ (validate_id "event classification" (te_classification event)) ;!
    let! active_turn := look hc_active_turn in
    let! active := try_ (admit_event active_turn (te_fence event) (te_event_seq event)
                           (turn_event_to_value event)) in
    set_active_turn (Some active) ;!
    done_with (NTurnEvent event)
  else if method ==? "harness.acp.permission.requested" then
    let! request := decode (permission_from_value (pn_params notification)) in
    try_ (validate_id "permission_id" (pq_permission_id request)) ;!
    let! active_turn := look hc_active_turn in
    let! active := try_ (admit_event active_turn (pq_fence request) (pq_event_seq request)
                           (permission_to_value request)) in
    set_active_turn (Some active) ;!
    done_with (NPermissionRequested request)
  else if method ==? "harness.acp.session.transcript.entry" then
    let! entry := decode (transcript_entry_from_value (pn_params notification)) in
    try_ (validate_id "entry classification" (tre_classification entry)) ;!
    done_with (NTranscriptEntry entry)
  else if method ==? "harness.acp.session.transcript.complete" then
    let! complete := decode (transcript_complete_from_value (pn_params notification)) in
    done_with (NTranscriptComplete complete)
  else if method ==? "harness.acp.turn.terminal" then
    let! terminal := decode (terminal_from_value (pn_params notification)) in
    let! active_turn := look hc_active_turn in
    try_ (validate_terminal active_turn terminal) ;!
    set_active_turn None ;!
    done_with (NTurnTerminal terminal)
  else
    throw (Protocol ("unexpected notification for harness client: " +:+ method)).

Definition start_transcript (request : StartTranscript) : client_action bool :=
  let! active_turn := look hc_active_turn in
  try_ (reject (is_some active_turn)
          (Protocol "cannot replay a transcript while a turn is active")) ;!
  try_ (validate_binding (str_binding request)) ;!
  try_ (validate_session_ref (str_session_ref request)) ;!
  let! accepted := protocol_call (call_start_transcript request) in
  try_ (reject (negb accepted)
          (Protocol "harness refused a transcript replay without an error")) ;!
  done_with accepted.

Definition close_session (request : CloseSession) : client_action (bool * bool) :=
  let! active_turn := look hc_active_turn in
  try_ (reject (is_some active_turn) (Protocol "cannot close a session with an active turn")) ;!
  try_ (validate_binding (cs_binding request)) ;!
  try_ (validate_session_ref (cs_session_ref request)) ;!
  try_ (validate_id "close reason" (cs_reason request)) ;!
  protocol_call (call_close_session request).
End client.

Arguments hc_process {_} _.
Arguments hc_active_turn {_} _.
