(* ===== verification/Supervisor.v ===== *)
(** * Plugin processes (crates/plugin-host/src/{supervisor,protocol,sandbox}.rs)

    What the host checks before it launches a plugin, how it negotiates the
    manifest the plugin answers with, and how it ends the process.  The operating
    system and the JSON-RPC exchange are the class [PluginOs]; about what a plugin
    answers nothing is assumed. *)

From S2P Require Import Prelude Action Proto Schema Observations Sessions HarnessClient.

(** ** The manifest (crates/proto/src/plugin.rs)

    A [semver::Version] is its text. *)

Record PluginIdentity := { pid_id : string; pid_name : string; pid_version : string }.
Record PluginInterface := { if_id : string; if_version : string }.
Record PluginManifest := {
  mf_protocol_version : Z;
  mf_plugin : PluginIdentity;
  mf_interfaces : list PluginInterface;
}.
#[global] Instance PluginInterface_eq_dec : EqDecision PluginInterface.
Proof. solve_decision. Defined.

Definition LIFECYCLE_PROTOCOL_VERSION : Z := 1.

Definition identifier_byte (c : Ascii.ascii) : bool :=
  let n := Ascii.N_of_ascii c in
  (((97 <=? n) && (n <=? 122)) || ((48 <=? n) && (n <=? 57)))%N.
Definition separator_byte (c : Ascii.ascii) : bool :=
  (Ascii.N_of_ascii c =? 46)%N || (Ascii.N_of_ascii c =? 45)%N.
(** The scan of [validate_identifier]. *)
Fixpoint identifier_bytes (previous_was_separator : bool) (identifier : string) : bool :=
  match identifier with
  | EmptyString => negb previous_was_separator
  | String c identifier =>
      if identifier_byte c then identifier_bytes false identifier
      else if separator_byte c && negb previous_was_separator then identifier_bytes true identifier
      else false
  end.
Definition validate_identifier (kind identifier : string) : unit + string :=
  reject ((identifier ==? "") || (128 <? str_len identifier))
    (kind +:+ " identifier must contain between 1 and 128 bytes") ;:
  reject (negb (identifier_bytes true identifier))
    (kind +:+ " identifier contains unsupported characters: " +:+ identifier).

Definition interface_display (interface : PluginInterface) : string :=
  if_id interface +:+ "@" +:+ if_version interface.
Definition validate_interface (interface : PluginInterface) : unit + string :=
  validate_identifier "plugin interface" (if_id interface).
Fixpoint validate_interfaces (seen interfaces : list PluginInterface) : unit + string :=
  match interfaces with
  | [] => inl tt
  | interface :: interfaces =>
      validate_interface interface ;:
      reject (bool_decide (interface ∈ seen))
        ("duplicate plugin interface " +:+ interface_display interface) ;:
      validate_interfaces (interface :: seen) interfaces
  end.
Definition validate_shape (manifest : PluginManifest) : unit + string :=
  let plugin := mf_plugin manifest in
  validate_identifier "plugin" (pid_id plugin) ;:
  reject (is_blank (pid_name plugin) || (128 <? str_len (pid_name plugin)))
    "plugin name must contain between 1 and 128 bytes" ;:
  reject (mf_interfaces manifest ==? [])
    "plugin must expose at least one operational interface" ;:
  validate_interfaces [] (mf_interfaces manifest).
Definition declares (manifest : PluginManifest) (interface : PluginInterface) : bool :=
  bool_decide (interface ∈ mf_interfaces manifest).

(** [.map_err(f)] of a pure check *)
Definition check_err {E E' : Type} (f : E → E') (r : unit + E) : unit + E' :=
  match r with inl _ => inl tt | inr e => inr (f e) end.

Fixpoint require_interfaces (manifest : PluginManifest) (required : list PluginInterface)
    : unit + PluginError :=
  match required with
  | [] => inl tt
  | interface :: required =>
      reject (negb (declares manifest interface))
        (MissingInterface (interface_display interface)) ;:
      require_interfaces manifest required
  end.
Definition negotiate (manifest : PluginManifest) (expected_id : string)
    (required : list PluginInterface) : unit + PluginError :=
  reject (mf_protocol_version manifest !=? LIFECYCLE_PROTOCOL_VERSION)
    (ProtocolVersion LIFECYCLE_PROTOCOL_VERSION (mf_protocol_version manifest)) ;:
  reject (pid_id (mf_plugin manifest) !=? expected_id)
    (IdentityMismatch expected_id (pid_id (mf_plugin manifest))) ;:
  check_err InvalidManifest (validate_shape manifest) ;:
  require_interfaces manifest required.

(** ** The sandbox as the supervisor uses it (sandbox.rs) *)

Inductive MacOsSeatbeltPosture := Strict | WriteScoped.
Definition posture_as_str (posture : MacOsSeatbeltPosture) : string :=
  match posture with Strict => "strict" | WriteScoped => "write_scoped" end.
Record MacOsSeatbeltSandbox := {
  sbx_posture : MacOsSeatbeltPosture;
  sbx_profile : string;
  sbx_profile_digest : string;
}.
Definition security_scope (sandbox : MacOsSeatbeltSandbox) : string :=
  match sbx_posture sandbox with
  | Strict => "deny_default_declared_reach"
  | WriteScoped => "writes_scoped_reads_and_network_unrestricted"
  end.
Definition MACOS_SANDBOX_EXEC : string := "/usr/bin/sandbox-exec".
Definition launch_command (sandbox : MacOsSeatbeltSandbox) (executable : string)
    (arguments : list string) : string * list string :=
  (MACOS_SANDBOX_EXEC, ["-p"; sbx_profile sandbox; executable] ++ arguments).

(** ** The specification *)

(** A [Duration] is its number of nanoseconds. *)
Definition Duration : Type := Z.

Section supervisor.
Context `{J : SerdeJson}.

Record PluginSpec := {
  ps_id : string;
  ps_executable : string;
  ps_args : list string;
  ps_config : Value;
  ps_required_interfaces : list PluginInterface;
  ps_initialize_timeout : Duration;
  ps_request_timeout : Duration;
  ps_shutdown_timeout : Duration;
  ps_sandbox : option MacOsSeatbeltSandbox;
}.
Definition sandbox_profile_digest (spec : PluginSpec) : option string :=
  option_map sbx_profile_digest (ps_sandbox spec).

(** [Path::is_file] *)
Context (is_file : string → bool).

Fixpoint validate_required (interfaces : list PluginInterface) : unit + PluginError :=
  match interfaces with
  | [] => inl tt
  | interface :: interfaces =>
      check_err InvalidSpec (validate_interface interface) ;: validate_required interfaces
  end.
Definition validate_spec (spec : PluginSpec) : unit + PluginError :=
  check_err InvalidSpec (validate_identifier "plugin" (ps_id spec)) ;:
  reject (negb (is_absolute (ps_executable spec)))
    (InvalidSpec "plugin executable must be an absolute path") ;:
  reject (negb (is_file (ps_executable spec)))
    (InvalidSpec ("plugin executable does not exist: " +:+ ps_executable spec)) ;:
  reject ((ps_initialize_timeout spec ==? 0) || (ps_request_timeout spec ==? 0)
          || (ps_shutdown_timeout spec ==? 0))
    (InvalidSpec "plugin lifecycle timeouts must be greater than zero") ;:
  validate_required (ps_required_interfaces spec).

(** ** The process *)

Record PluginExit := { pe_success : bool; pe_code : option Z }.
Inductive ShutdownOutcome := Graceful (exit : PluginExit) | Forced (exit : PluginExit).

(** One child process and the JSON-RPC exchange over its pipes.  [rpc_*] are
    [RpcPeer::call] at the method with its timeout; [os_wait_timeout] is
    [timeout(d, child.wait())], [None] when the deadline passed first. *)
Class PluginOs (C : Type) := {
  os_spawn : string → list string → C + PluginError;
  (** [Child::id] *)
  os_id : C → option U32;
  rpc_initialize : string → Value → Duration → action C PluginError PluginManifest;
  rpc_health : Duration → action C PluginError string;
  rpc_shutdown : Duration → action C PluginError bool;
  os_try_wait : action C PluginError (option PluginExit);
  os_wait : action C PluginError PluginExit;
  os_wait_timeout : Duration → action C PluginError (option PluginExit);
  os_start_kill : C → C;
  (** SIGKILL to the process group of the child, where it has one. *)
  os_kill_group : C → C;
}.
Context {C : Type} {OS : PluginOs C}.

Record Supervised := {
  sp_manifest : PluginManifest;
  sp_request_timeout : Duration;
  sp_shutdown_timeout : Duration;
}.

Definition check_health (timeout : Duration) : action C PluginError unit :=
  let! status := rpc_health timeout in
  try_ (reject (status !=? "ok") (Unhealthy status)).
Definition initialize (instance_id : string) (spec : PluginSpec)
    : action C PluginError PluginManifest :=
  let! manifest := rpc_initialize instance_id (ps_config spec) (ps_initialize_timeout spec) in
  try_ (negotiate manifest (ps_id spec) (ps_required_interfaces spec)) ;!
  check_health (ps_request_timeout spec) ;!
  done_with manifest.
Definition terminate : action C PluginError PluginExit :=
  let! exited := os_try_wait in
  match exited with
  | Some status => act os_kill_group ;! done_with status
  | None => act os_kill_group ;! act os_start_kill ;! os_wait
  end.

(** [start]: the child it spawned, if any, and what it returns.  [instance_id] is
    the identifier [initialize] draws. *)
Definition launch (spec : PluginSpec) : string * list string :=
  match ps_sandbox spec with
  | Some sandbox => launch_command sandbox (ps_executable spec) (ps_args spec)
  | None => (ps_executable spec, ps_args spec)
  end.
Definition start (spec : PluginSpec) (instance_id : string)
    : option C * (Supervised + PluginError) :=
  match validate_spec spec with
  | inr error => (None, inr error)
  | inl _ =>
  match os_spawn (launch spec).1 (launch spec).2 with
  | inr error => (None, inr error)
  | inl child =>
  match initialize instance_id spec child with
  | (child, inr error) => (Some (terminate child).1, inr error)
  | (child, inl manifest) =>
      (Some child,
       inl {| sp_manifest := manifest; sp_request_timeout := ps_request_timeout spec;
              sp_shutdown_timeout := ps_shutdown_timeout spec |})
  end
  end
  end.

Definition health (process : Supervised) : action C PluginError unit :=
  let! exited := os_try_wait in
  match exited with
  | Some status => act os_kill_group ;! throw (Exited (pe_code status))
  | None => check_health (sp_request_timeout process)
  end.
Definition wait_for_exit : action C PluginError PluginExit :=
  let! status := os_wait in act os_kill_group ;! done_with status.

(** [drop]: what every owner leaves behind. *)
Definition drop_process (child : C) : C :=
  let (child', exited) := os_try_wait child in
  let child' := os_kill_group child' in
  match exited with inl (Some _) => child' | _ => os_start_kill child' end.

(** [shutdown(self)], before the process is dropped. *)
Definition shutdown_requested (process : Supervised) : action C PluginError ShutdownOutcome :=
  let! accepted := attempt (rpc_shutdown (sp_request_timeout process)) in
  match accepted with
  | inl true =>
      let! exited := attempt (os_wait_timeout (sp_shutdown_timeout process)) in
      match exited with
      | inl (Some status) => act os_kill_group ;! done_with (Graceful status)
      | inr error => throw error
      | inl None => let! status := terminate in done_with (Forced status)
      end
  | inl false => let! _ := attempt terminate in throw ShutdownRejected
  | inr error => let! _ := attempt terminate in throw error
  end.
Definition shutdown (process : Supervised) : action C PluginError ShutdownOutcome :=
  λ child, let (child', r) := shutdown_requested process child in (drop_process child', r).
End supervisor.
