(* ===== verification/Controller.v ===== *)
(** * The managed turn controller (crates/execution/src/controller.rs)

    [run] drives one reserved invocation: arm it durably, activate its grants,
    start the harness turn, drain its evidence into the store, and settle.  It is
    an action over a [World]: the store, the harness, the grants, and a log of the
    effects it has outside the store, each with the store and the grants as they
    were at that moment.

    Between any two awaits anything may happen elsewhere: [env_db] and [env_grants]
    give the store and the grants their state at the [n]th await, and [clock],
    [later] and [uuid] the times and the identifier an operation draws there.  The wall deadline and the
    cancel-drain deadline are the number of awaits a drain completes before it is
    dropped; [lost n] says whether an operation dropped at await [n] had taken
    effect.  Every drain is therefore total. *)

From S2P Require Import Prelude Action Proto Schema Messages Deliveries.
From S2P Require Import SessionFence Observations Invocations Settlement Sessions.
From S2P Require Import Grants HarnessClient.

(** ** bounded_reason *)

Definition is_continuation (b : Ascii.ascii) : bool :=
  let n := Ascii.N_of_ascii b in ((0x80 <=? n) && (n <? 0xC0))%N.
(** [str::is_char_boundary] *)
Definition is_char_boundary (s : string) (i : nat) : bool :=
  match i with
  | O => true
  | _ => match String.get i s with
         | Some b => negb (is_continuation b)
         | None => (i =? String.length s)%nat
         end
  end.
(** [while !reason.is_char_boundary(end) { end -= 1; }] *)
Fixpoint floor_boundary (s : string) (n : nat) : nat :=
  if is_char_boundary s n then n else match n with S n => floor_boundary s n | O => O end.
Definition REASON_LIMIT : nat := 4096.
Definition bounded_reason (reason : string) : string :=
  if (String.length reason <=? REASON_LIMIT)%nat then reason
  else String.substring 0 (floor_boundary reason REASON_LIMIT) reason.

(** ** Stop reasons *)

Inductive ManagedTurnInterruption := WorkerShutdown | NewerMessage (message_id : string).
Inductive HostStopReason :=
| StopWallDeadline
| StopWorkerShutdown
| StopNewerMessage (message_id : string).

Definition stop_as_str (reason : HostStopReason) : string :=
  match reason with
  | StopWallDeadline => "host_wall_deadline"
  | StopWorkerShutdown => "host_worker_shutdown"
  | StopNewerMessage _ => "host_newer_message"
  end.
Definition cancel_reason (reason : HostStopReason) : string :=
  match reason with
  | StopWallDeadline => "wall_deadline"
  | StopWorkerShutdown => "worker_shutdown"
  | StopNewerMessage _ => "newer_message"
  end.
Definition is_interruption (reason : HostStopReason) : bool :=
  match reason with StopWallDeadline => false | _ => true end.
Definition interruption (reason : HostStopReason) : option ManagedTurnInterruption :=
  match reason with
  | StopWorkerShutdown => Some WorkerShutdown
  | StopNewerMessage message_id => Some (NewerMessage message_id)
  | StopWallDeadline => None
  end.
Definition stop_from (value : ManagedTurnInterruption) : HostStopReason :=
  match value with
  | WorkerShutdown => StopWorkerShutdown
  | NewerMessage message_id => StopNewerMessage message_id
  end.

Inductive TurnResultCapture := Transcript | FinalAssistantJson.

(** ** The harness as the controller sees it *)

Class Harness `{J : SerdeJson} (H : Type) := {
  h_describe : action H PluginError DescribeResult;
  h_start_turn : StartTurn → action H PluginError StartTurnResult;
  h_next_notification : action H PluginError HarnessAcpNotification;
  h_cancel_turn : string → action H PluginError unit;
  h_resolve_permission : PermissionResolution → action H PluginError unit;
}.
#[export] Instance harness_client `{J : SerdeJson} {P} `{!PluginProcess P} `{!HarnessFrames}
    `{!JsonTree} (sha256 : string → string) : Harness (HarnessAcpClient P) := {|
  h_describe := describe;
  h_start_turn := start_turn;
  h_next_notification := next_notification sha256;
  h_cancel_turn := cancel_turn;
  h_resolve_permission := resolve_permission;
|}.

(** ** Terminal payloads *)

Section payload.
Context `{J : SerdeJson} {JT : JsonTree}.

Definition message_id_value (message_id : option string) : Value :=
  match message_id with Some id => json_string id | None => json_null end.

(** The selection loop over event bounds. *)
Fixpoint bounds_increase (previous_last : Z) (messages : list AssistantMessage) : bool :=
  match messages with
  | [] => true
  | message :: messages =>
      negb ((am_first_event_seq message ==? 0)
            || (am_last_event_seq message <? am_first_event_seq message)
            || (am_first_event_seq message <=? previous_last))
      && bounds_increase (am_last_event_seq message) messages
  end.
(** The loop over message identities. *)
Fixpoint distinct_ids (ids : list string) (messages : list AssistantMessage) : bool :=
  match messages with
  | [] => true
  | message :: messages =>
      match am_message_id message with
      | None => false
      | Some id => negb (bool_decide (id ∈ ids)) && distinct_ids (id :: ids) messages
      end
  end.
Definition select_final_assistant_message (messages : list AssistantMessage)
    : (AssistantMessage * string) + string :=
  match last messages with
  | None => inr "no_assistant_message"
  | Some final_message =>
      if negb (bounds_increase 0 messages) then inr "invalid_message_event_bounds" else
      if length messages ==? 1%nat then inl (final_message, "only_assistant_message") else
      if negb (distinct_ids [] messages) then inr "ambiguous_message_boundary" else
      inl (final_message, "last_identified_assistant_message")
  end.

(** The text of a message all of whose blocks are text. *)
Fixpoint text_of (content : list Value) : option string :=
  match content with
  | [] => Some ""
  | block :: content =>
      if (json_get "type" block ≫= json_as_str) !=? Some "text" then None else
      match json_get "text" block ≫= json_as_str with
      | None => None
      | Some fragment => text ← text_of content; Some (fragment +:+ text)
      end
  end.
Definition unavailable (reason : string) : Value :=
  json_object [("status", json_string "unavailable"); ("reason", json_string reason)].
Definition capture_final_assistant_json (messages : list AssistantMessage) : Value :=
  match select_final_assistant_message messages with
  | inr reason => unavailable reason
  | inl (message, selection) =>
  if negb (am_complete message) then unavailable "incomplete_final_message" else
  match text_of (am_content message) with
  | None => unavailable "unsupported_final_content"
  | Some text =>
  if is_blank text then unavailable "empty_final_message" else
  match from_json text with
  | None => unavailable "malformed_final_json"
  | Some value =>
      json_object
        [("status", json_string "captured");
         ("source", json_object
            [("selection", json_string selection);
             ("message_id", message_id_value (am_message_id message));
             ("first_event_seq", json_number (am_first_event_seq message));
             ("last_event_seq", json_number (am_last_event_seq message))]);
         ("value", value)]
  end
  end
  end.

Definition assistant_message_to_value (message : AssistantMessage) : Value :=
  json_object
    [("message_id", message_id_value (am_message_id message));
     ("content", json_array (am_content message));
     ("complete", json_bool (am_complete message));
     ("first_event_seq", json_number (am_first_event_seq message));
     ("last_event_seq", json_number (am_last_event_seq message))].

Definition transcript_complete (terminal : TurnTerminal) : bool :=
  forallb am_complete (tt_assistant_messages terminal).
Definition runtime_stop_reason (terminal : TurnTerminal) (host_stop_reason : option HostStopReason)
    : option string :=
  if is_some host_stop_reason then
    match tt_runtime_stop_reason terminal with
    | Some reason => Some reason
    | None => Some (tt_stop_reason terminal)
    end
  else tt_runtime_stop_reason terminal.
Definition terminal_success (terminal : TurnTerminal) (host_stop_reason : option HostStopReason)
    : bool :=
  negb (is_some host_stop_reason)
  && is_none (runtime_stop_reason terminal host_stop_reason)
  && (tt_stop_reason terminal ==? "end_turn")
  && transcript_complete terminal.
Definition result_status (terminal : TurnTerminal) (host_stop_reason : option HostStopReason)
    : string :=
  if match host_stop_reason with Some reason => is_interruption reason | None => false end
  then "interrupted"
  else if terminal_success terminal host_stop_reason then "completed" else "failed".

(** [payload.as_object_mut().expect(..).insert(key, value)]; [None] is the panic. *)
Definition insert_string (key : string) (value : option string) (payload : option Value)
    : option Value :=
  match value with
  | None => payload
  | Some value => payload ← payload; json_insert key (json_string value) payload
  end.

Definition payload_fields (invocation_id : string) (result_capture : TurnResultCapture)
    (result_context : Value) (terminal : TurnTerminal) (host_stop_reason : option HostStopReason)
    : list (string * Value) :=
  let effective_stop_reason :=
    match host_stop_reason with
    | Some reason => stop_as_str reason
    | None => tt_stop_reason terminal
    end in
  let assistant_messages :=
    json_array (map assistant_message_to_value (tt_assistant_messages terminal)) in
  match result_capture with
  | Transcript =>
      [("status", json_string (result_status terminal host_stop_reason));
       ("invocation_id", json_string invocation_id);
       ("stop_reason", json_string effective_stop_reason);
       ("output_complete", json_bool (transcript_complete terminal));
       ("assistant_messages", assistant_messages);
       ("usage", tt_usage terminal);
       ("session_persistence", json_string (as_str (tt_session_persistence terminal)));
       ("result_context", result_context)]
  | FinalAssistantJson =>
      let structured_result := capture_final_assistant_json (tt_assistant_messages terminal) in
      let structured_captured :=
        (json_get "status" structured_result ≫= json_as_str) ==? Some "captured" in
      [("status", json_string
          (if result_status terminal host_stop_reason ==? "interrupted" then "interrupted"
           else if terminal_success terminal host_stop_reason && structured_captured
           then "completed" else "failed"));
       ("invocation_id", json_string invocation_id);
       ("stop_reason", json_string effective_stop_reason);
       ("transcript_complete", json_bool (transcript_complete terminal));
       ("assistant_messages", assistant_messages);
       ("structured_result", structured_result);
       ("usage", tt_usage terminal);
       ("session_persistence", json_string (as_str (tt_session_persistence terminal)));
       ("result_context", result_context)]
  end.
Definition terminal_payload (invocation_id : string) (result_capture : TurnResultCapture)
    (result_context : Value) (terminal : TurnTerminal) (host_stop_reason : option HostStopReason)
    : option Value :=
  insert_string "interrupted_by_message_id"
    (match host_stop_reason with Some (StopNewerMessage message_id) => Some message_id | _ => None end)
    (insert_string "runtime_stop_reason" (runtime_stop_reason terminal host_stop_reason)
       (Some (json_object
          (payload_fields invocation_id result_capture result_context terminal host_stop_reason)))).
End payload.

(** ** Trajectory offers (crates/execution/src/trajectory.rs) *)

Record TrajectoryTurn := {
  tj_invocation_id : string;
  tj_agent_id : string;
  tj_channel_id : string;
  tj_source_message_id : string;
  tj_generation_id : string;
  tj_binding_id : string;
  tj_binding_generation : Z;
  tj_owner_epoch : Z;
  tj_correlation_id : option string;
  tj_causation_id : option string;
  tj_opened_at_ms : Z;
}.

Section controller.
Context `{J : SerdeJson} {JT : JsonTree}.
Context {H : Type} {HH : Harness H} {G : Type} {MG : ManagedTurnGrant G}.

Record TrajectoryUpdate := {
  tu_invocation_id : string;
  tu_event_seq : Z;
  tu_observed_at_ms : Z;
  tu_classification : string;
  tu_raw_update : Value;
}.
Inductive TrajectoryClose :=
| CloseTerminal (stop_reason : string) (runtime_stop_reason : option string)
    (certainty : ExecutionCertainty.t) (session_quiescent : bool) (usage : Value)
| CloseParked (reason : string).
Record TrajectoryOutcome := {
  to_invocation_id : string; to_closed_at_ms : Z; to_close : TrajectoryClose }.

(** ** The world of a turn *)

Inductive Effect :=
| StartedTurn (request : StartTurn)
| CancelledTurn (reason : string)
| ResolvedPermission (resolution : PermissionResolution)
| OpenedTrajectory (turn : TrajectoryTurn)
| ObservedTrajectory (update : TrajectoryUpdate)
| ClosedTrajectory (outcome : TrajectoryOutcome).
(** An effect, with the store and the grants at its moment. *)
Record Entry := { entry_effect : Effect; entry_db : Db; entry_grants : list G }.
Record World := {
  w_db : Db;
  w_harness : H;
  w_grants : list G;
  w_awaits : nat;
  w_log : list Entry;
}.

Definition set_db (db : Db) (w : World) : World :=
  {| w_db := db; w_harness := w_harness w; w_grants := w_grants w; w_awaits := w_awaits w;
     w_log := w_log w |}.
Definition set_harness (h : H) (w : World) : World :=
  {| w_db := w_db w; w_harness := h; w_grants := w_grants w; w_awaits := w_awaits w;
     w_log := w_log w |}.
Definition set_grants (gs : list G) (w : World) : World :=
  {| w_db := w_db w; w_harness := w_harness w; w_grants := gs; w_awaits := w_awaits w;
     w_log := w_log w |}.
Definition add_entry (effect : Effect) (w : World) : World :=
  {| w_db := w_db w; w_harness := w_harness w; w_grants := w_grants w; w_awaits := w_awaits w;
     w_log := w_log w ++ [{| entry_effect := effect; entry_db := w_db w;
                             entry_grants := w_grants w |}] |}.

Record ManagedTurn := {
  mt_invocation : Invocation;
  mt_generation_id : string;
  mt_binding : Binding;
  mt_session_ref : string;
  mt_prompt : list PromptBlock;
  mt_policy : TurnPolicy;
  mt_result_kind : string;
  mt_result_capture : TurnResultCapture;
  mt_result_context : Value;
  mt_permission_policy : PermissionPolicy;
  (** What the interruption signal carries, where there is one. *)
  mt_interruption : option ManagedTurnInterruption;
}.
(** How the races of the turn go: the awaits each drain completes, and whether the
    interruption signal came before the wall deadline. *)
Record Schedule := {
  initial_awaits : nat; interrupted : bool; cancel_awaits : nat }.

Inductive ManagedTurnOutcome :=
| Completed (completion : InvocationCompletion)
| Interrupted (completion : InvocationCompletion) (interruption : ManagedTurnInterruption)
| Blocked (blocked : BlockedDelivery).
(** The last constructor of each error type is a panic of the code. *)
Inductive ManagedTurnError :=
| TurnInvalid (reason : string)
| TurnFleet (error : FleetError)
| HarnessBeforeArm (error : PluginError)
| TurnPanicked (reason : string).
Inductive TurnDrainError :=
| UnexpectedNotification (what : string)
| DrainPlugin (error : PluginError)
| DrainEvidence (error : FleetError)
| DrainPanicked (reason : string).

(** ** The environment *)

Context (sha256_hex : string → string).
Context (plugin_error_text : PluginError → string) (source_text : FleetError → string).
Context (clock later : nat → Z) (uuid : nat → string).
Context (env_db : nat → Db → Db) (env_grants : nat → list G → list G).
Context (lost : nat → bool).
(** Whether a trajectory sink is attached. *)
Context (sink : bool).

Definition turn_action (E A : Type) : Type := action World E A.

Definition fleet_error_text : FleetError → string := error_to_string source_text.
Definition drain_error_text (error : TurnDrainError) : string :=
  match error with
  | UnexpectedNotification what => "harness sent " +:+ what +:+ " while a turn was draining"
  | DrainPlugin error => "harness protocol failed: " +:+ plugin_error_text error
  | DrainEvidence error => "durable invocation evidence failed: " +:+ fleet_error_text error
  | DrainPanicked reason => reason
  end.
Definition turn_error_text (error : ManagedTurnError) : string :=
  match error with
  | TurnInvalid reason => "managed turn input is invalid: " +:+ reason
  | TurnFleet error => "managed turn persistence failed: " +:+ fleet_error_text error
  | HarnessBeforeArm error =>
      "managed harness failed before dispatch was armed: " +:+ plugin_error_text error
  | TurnPanicked reason => reason
  end.

(** Time passes: one await. *)
Definition tick (w : World) : World :=
  {| w_db := env_db (w_awaits w) (w_db w); w_harness := w_harness w;
     w_grants := env_grants (w_awaits w) (w_grants w); w_awaits := S (w_awaits w);
     w_log := w_log w |}.
Definition pass {E} : turn_action E unit := act tick.

Definition record_effect {E} (effect : Effect) : turn_action E unit :=
  act (add_entry effect).
(** [now_ms()] *)
Definition read_clock {E} : turn_action E Z := look (λ w, clock (w_awaits w)).

(** One operation of the store: a transaction at the time of its await. *)
Definition on_store {E A} (wrap : FleetError → E) (op : Z → Z → string → M A) : turn_action E A :=
  λ w, match op (clock (w_awaits w)) (later (w_awaits w)) (uuid (w_awaits w)) (w_db w) with
       | Ok (a, db) => (set_db db w, inl a)
       | Err e => (w, inr (wrap e))
       end.
Definition store {E A} (wrap : FleetError → E) (op : Z → Z → string → M A) : turn_action E A :=
  pass ;! on_store wrap op.
(** One call of the harness. *)
Definition on_harness {E A} (wrap : PluginError → E) (call : action H PluginError A)
    : turn_action E A :=
  λ w, let (h, r) := call (w_harness w) in
       (set_harness h w, match r with inl a => inl a | inr e => inr (wrap e) end).
(** An operation whose future is dropped: it may or may not have taken effect. *)
Definition abandoned {E E' A} (op : turn_action E A) : turn_action E' unit :=
  λ w, if lost (w_awaits w) then ((op w).1, inl tt) else (tick w, inl tt).

(** ** Trajectory *)

Definition offer {E} (effect : Z → Effect) : turn_action E unit :=
  if sink then let! now := read_clock in record_effect (effect now) else done_with tt.
Definition open_trajectory {E} (invocation : Invocation) (generation_id : string)
    (binding : Binding) : turn_action E unit :=
  offer (λ now, OpenedTrajectory
    {| tj_invocation_id := inv_id invocation; tj_agent_id := inv_agent_id invocation;
       tj_channel_id := msg_channel_id (inv_message invocation);
       tj_source_message_id := msg_id (inv_message invocation);
       tj_generation_id := generation_id; tj_binding_id := binding_id binding;
       tj_binding_generation := binding_generation binding;
       tj_owner_epoch := owner_epoch binding;
       tj_correlation_id := msg_correlation_id (inv_message invocation);
       tj_causation_id := msg_causation_id (inv_message invocation); tj_opened_at_ms := now |}).
Definition close_trajectory {E} (invocation_id : string) (close : TrajectoryClose)
    : turn_action E unit :=
  offer (λ now, ClosedTrajectory
    {| to_invocation_id := invocation_id; to_closed_at_ms := now; to_close := close |}).
Definition closing_on_error {A} (invocation_id : string) (result : A + ManagedTurnError)
    : turn_action ManagedTurnError A :=
  match result with
  | inl a => done_with a
  | inr (TurnPanicked reason) => throw (TurnPanicked reason)
  | inr error =>
      close_trajectory invocation_id
        (CloseParked ("managed turn failed after arming: " +:+ turn_error_text error)) ;!
      throw error
  end.

(** ** Grants *)

Definition on_grant {E A} (i : nat) (missing : A) (f : Z → G → G * A) : turn_action E A :=
  pass ;! λ w,
    match w_grants w !! i with
    | Some g =>
        let (g', a) := f (clock (w_awaits w)) g in
        (set_grants (<[i := g']> (w_grants w)) w, inl a)
    | None => (w, inl missing)
    end.
(** [for grant in grants[..k].iter().rev() { grant.deactivate(id) }] *)
Fixpoint revoke_grants {E} (k : nat) (invocation_id : string) : turn_action E unit :=
  match k with
  | O => done_with tt
  | S k =>
      on_grant k tt (λ _ g, (deactivate invocation_id g, tt)) ;! revoke_grants k invocation_id
  end.
(** The activation loop over [k] more grants from index [i]: the index and the text
    of the first refusal. *)
Fixpoint activate_grants {E} (k i : nat) (invocation : Invocation)
    : turn_action E (option (nat * string)) :=
  match k with
  | O => done_with None
  | S k =>
      let! r := on_grant i (inl tt) (λ now g, activate invocation now g) in
      match r with
      | inl _ => activate_grants k (S i) invocation
      | inr error => done_with (Some (i, error))
      end
  end.

(** ** Blocking *)

Definition block (invocation : Invocation) (binding : Binding) (reason : string)
    : turn_action ManagedTurnError BlockedDelivery :=
  let reason := bounded_reason reason in
  let! _ := store TurnFleet (λ now _ _,
    mark_session_invocation_uncertain (inv_agent_id invocation) (inv_id invocation) binding
      reason now) in
  let! blocked := store TurnFleet (λ now _ _,
    block_delivery (inv_agent_id invocation) (msg_id (inv_message invocation))
      {| block_lease_token := inv_lease_token invocation; block_reason := reason |} now) in
  close_trajectory (inv_id invocation) (CloseParked reason) ;!
  done_with blocked.1.

Definition block_after_arm (invocation : Invocation) (binding : Binding) (reason : string)
    : turn_action ManagedTurnError ManagedTurnOutcome :=
  let! blocked := block invocation binding reason in done_with (Blocked blocked).

(** ** Draining *)

Definition record_event (generation_id : string) (fence : ExecutionFence) (seq observed_at_ms : Z)
    (classification : string) (raw : Value) : turn_action TurnDrainError unit :=
  store DrainEvidence (λ now _ _,
    record_invocation_event sha256_hex generation_id (fence_invocation_id fence) seq
      observed_at_ms classification raw now).
Definition observe (fence : ExecutionFence) (seq observed_at_ms : Z) (classification : string)
    (raw : Value) : turn_action TurnDrainError unit :=
  offer (λ _, ObservedTrajectory
    {| tu_invocation_id := fence_invocation_id fence; tu_event_seq := seq;
       tu_observed_at_ms := observed_at_ms; tu_classification := classification;
       tu_raw_update := raw |}).
Definition resolve (resolution : PermissionResolution) : turn_action TurnDrainError unit :=
  pass ;! record_effect (ResolvedPermission resolution) ;!
  on_harness DrainPlugin (h_resolve_permission resolution).

(** [drain_turn] for [awaits] completed awaits: [None] when it is dropped. *)
Fixpoint drain_turn (generation_id : string) (fence : ExecutionFence) (policy : PermissionPolicy)
    (awaits : nat) : turn_action TurnDrainError (option TurnTerminal) :=
  match awaits with
  | O => pass ;! done_with None
  | S awaits =>
  let! notification := pass ;! on_harness DrainPlugin h_next_notification in
  match notification with
  | NTurnEvent event =>
      let record := record_event generation_id fence (te_event_seq event)
                      (te_observed_at_ms event) (te_classification event) (te_raw_update event) in
      match awaits with
      | O => abandoned record ;! done_with None
      | S awaits =>
          record ;!
          observe fence (te_event_seq event) (te_observed_at_ms event) (te_classification event)
            (te_raw_update event) ;!
          drain_turn generation_id fence policy awaits
      end
  | NPermissionRequested permission =>
      let decision := decide policy permission in
      match json_insert "controller_resolution" (decision_evidence decision)
              (permission_to_value permission) with
      | None => throw (DrainPanicked "permission requests serialize as objects")
      | Some raw =>
      let! observed_at_ms := read_clock in
      let record := record_event generation_id fence (pq_event_seq permission) observed_at_ms
                      "permission_request" raw in
      let resolution := {| pr_fence := fence; pr_permission_id := pq_permission_id permission;
                           pr_outcome := decision_outcome decision |} in
      match awaits with
      | O => abandoned record ;! done_with None
      | S awaits =>
          record ;!
          observe fence (pq_event_seq permission) observed_at_ms "permission_request" raw ;!
          match awaits with
          | O => abandoned (resolve resolution) ;! done_with None
          | S awaits =>
              resolve resolution ;! drain_turn generation_id fence policy awaits
          end
      end
      end
  | NTranscriptEntry _ => throw (UnexpectedNotification "a transcript entry")
  | NTranscriptComplete _ => throw (UnexpectedNotification "a transcript completion")
  | NTurnTerminal terminal =>
      let record := store DrainEvidence (λ now _ _,
                      record_invocation_terminal generation_id terminal now) in
      match awaits with
      | O => abandoned record ;! done_with None
      | S _ => record ;! done_with (Some terminal)
      end
  end
  end.

Inductive TerminalDrain :=
| DrainedTerminal (terminal : TurnTerminal) (host_stop_reason : option HostStopReason)
| DrainedBlocked (blocked : BlockedDelivery).

Definition blocked_drain (invocation : Invocation) (binding : Binding) (reason : string)
    : turn_action ManagedTurnError TerminalDrain :=
  let! blocked := block invocation binding reason in done_with (DrainedBlocked blocked).

(** What a drain error does to the turn. *)
Definition fail_drain (invocation : Invocation) (binding : Binding) (prefix : string)
    (error : TurnDrainError) : turn_action ManagedTurnError TerminalDrain :=
  match error with
  | DrainPanicked reason => throw (TurnPanicked reason)
  | _ => blocked_drain invocation binding (prefix +:+ drain_error_text error)
  end.

Definition cancel_and_drain (turn : ManagedTurn) (fence : ExecutionFence) (awaits : nat)
    (host_stop_reason : HostStopReason) : turn_action ManagedTurnError TerminalDrain :=
  let invocation := mt_invocation turn in
  let binding := mt_binding turn in
  let! cancelled :=
    attempt (pass ;! record_effect (CancelledTurn (cancel_reason host_stop_reason)) ;!
             on_harness id (h_cancel_turn (cancel_reason host_stop_reason))) in
  match cancelled with
  | inr error =>
      blocked_drain invocation binding
        ("host " +:+ cancel_reason host_stop_reason +:+ " cancellation failed: "
         +:+ plugin_error_text error)
  | inl _ =>
  let! drained := attempt (drain_turn (mt_generation_id turn) fence (mt_permission_policy turn) awaits) in
  match drained with
  | inl (Some terminal) => done_with (DrainedTerminal terminal (Some host_stop_reason))
  | inr error => fail_drain invocation binding "cancel drain failed: " error
  | inl None => blocked_drain invocation binding "cancel drain deadline exceeded"
  end
  end.

Definition await_terminal (turn : ManagedTurn) (fence : ExecutionFence) (schedule : Schedule)
    : turn_action ManagedTurnError TerminalDrain :=
  let! initial := attempt (drain_turn (mt_generation_id turn) fence (mt_permission_policy turn)
                             (initial_awaits schedule)) in
  match initial with
  | inl (Some terminal) => done_with (DrainedTerminal terminal None)
  | inr error => fail_drain (mt_invocation turn) (mt_binding turn) "turn evidence failed: " error
  | inl None =>
      cancel_and_drain turn fence (cancel_awaits schedule)
        match mt_interruption turn with
        | Some stop => if interrupted schedule then stop_from stop else StopWallDeadline
        | None => StopWallDeadline
        end
  end.

(** ** Settlement *)

Definition certainty_debug (certainty : HarnessExecutionCertainty) : string :=
  match certainty with
  | NotStarted => "NotStarted"
  | OutcomeKnown => "OutcomeKnown"
  | OutcomeUnknown => "OutcomeUnknown"
  end.

Definition settle_terminal (turn : ManagedTurn) (terminal : TurnTerminal)
    (host_stop_reason : option HostStopReason) : turn_action ManagedTurnError ManagedTurnOutcome :=
  let invocation := mt_invocation turn in
  let binding := mt_binding turn in
  if (tt_execution_certainty terminal ==? OutcomeUnknown) || negb (tt_session_quiescent terminal)
  then
    let! blocked := block invocation binding
      ("terminal outcome is not safely settleable: certainty="
       +:+ certainty_debug (tt_execution_certainty terminal) +:+ ", quiescent="
       +:+ (if tt_session_quiescent terminal then "true" else "false")) in
    done_with (Blocked blocked)
  else
  match terminal_payload (inv_id invocation) (mt_result_capture turn) (mt_result_context turn)
          terminal host_stop_reason with
  | None => throw (TurnPanicked "managed result payloads are objects")
  | Some payload =>
  let! completion := store TurnFleet (λ now at_ms uuid,
    complete_session_invocation (inv_agent_id invocation) (inv_id invocation) binding
      (tt_session_persistence terminal)
      {| complete_lease_token := inv_lease_token invocation;
         complete_fence_token := inv_fence_token invocation;
         complete_kind := mt_result_kind turn; complete_payload := payload |} now uuid at_ms) in
  close_trajectory (inv_id invocation)
    (CloseTerminal (tt_stop_reason terminal) (tt_runtime_stop_reason terminal)
       (certainty_from (tt_execution_certainty terminal)) (tt_session_quiescent terminal)
       (tt_usage terminal)) ;!
  done_with match host_stop_reason ≫= interruption with
            | Some interruption => Interrupted completion.1 interruption
            | None => Completed completion.1
            end
  end.

(** ** run *)

Definition validate_turn (turn : ManagedTurn) : unit + ManagedTurnError :=
  reject (inv_state (mt_invocation turn) !=? InvocationState.Reserved)
    (TurnInvalid "invocation must be reserved before managed dispatch") ;:
  reject (is_blank (mt_generation_id turn)) (TurnInvalid "plugin generation ID must not be empty") ;:
  reject (inv_agent_id (mt_invocation turn) ==? msg_sender_id (inv_message (mt_invocation turn)))
    (TurnInvalid "managed invocation cannot answer its own source message") ;:
  reject (is_blank (mt_result_kind turn) || match mt_prompt turn with [] => true | _ => false end)
    (TurnInvalid "result kind and prompt must not be empty").

Definition start_turn_request (turn : ManagedTurn) : StartTurn :=
  let invocation := mt_invocation turn in
  let message := inv_message invocation in
  {| st_fence := {| fence_binding_id := binding_id (mt_binding turn);
                    fence_binding_generation := binding_generation (mt_binding turn);
                    fence_owner_epoch := owner_epoch (mt_binding turn);
                    fence_invocation_id := inv_id invocation;
                    fence_fence_token := inv_fence_token invocation |};
     st_session_ref := mt_session_ref turn;
     st_source := {| ts_agent_id := inv_agent_id invocation; ts_message_id := msg_id message;
                     ts_channel_id := msg_channel_id message;
                     ts_sender_id := msg_sender_id message;
                     ts_correlation_id := msg_correlation_id message;
                     ts_causation_id := msg_causation_id message |};
     st_prompt := mt_prompt turn; st_policy := mt_policy turn |}.

(** The turn after its grants are active. *)
Definition dispatch (turn : ManagedTurn) (grants : nat) (schedule : Schedule)
    : turn_action ManagedTurnError ManagedTurnOutcome :=
  let invocation := mt_invocation turn in
  let request := start_turn_request turn in
  let! started := attempt (pass ;! record_effect (StartedTurn request) ;!
                           on_harness id (h_start_turn request)) in
  match started with
  | inr error =>
      revoke_grants grants (inv_id invocation) ;!
      block_after_arm invocation (mt_binding turn)
        ("turn start failed: " +:+ plugin_error_text error)
  | inl _ =>
  let! terminal_result := attempt (await_terminal turn (st_fence request) schedule) in
  match terminal_result with
  | inr (TurnPanicked reason) => throw (TurnPanicked reason)
  | _ =>
  revoke_grants grants (inv_id invocation) ;!
  let! drained := closing_on_error (inv_id invocation) terminal_result in
  match drained with
  | DrainedBlocked blocked => done_with (Blocked blocked)
  | DrainedTerminal terminal host_stop_reason =>
      let! settled := attempt (settle_terminal turn terminal host_stop_reason) in
      closing_on_error (inv_id invocation) settled
  end
  end
  end.

(** [run] up to the durable arm. *)
Definition arm_turn (turn : ManagedTurn) : turn_action ManagedTurnError BoundInvocation :=
  let invocation := mt_invocation turn in
  try_ (validate_turn turn) ;!
  let! _ := pass ;! on_harness HarnessBeforeArm h_describe in
  store TurnFleet (λ now _ _,
    arm_session_invocation (inv_agent_id invocation) (inv_id invocation) (mt_binding turn)
      (mt_session_ref turn) (mt_generation_id turn)
      {| arm_lease_token := inv_lease_token invocation;
         arm_fence_token := inv_fence_token invocation |} now).
(** [run] after it. *)
Definition run_armed (turn : ManagedTurn) (schedule : Schedule)
    : turn_action ManagedTurnError ManagedTurnOutcome :=
  let invocation := mt_invocation turn in
  open_trajectory invocation (mt_generation_id turn) (mt_binding turn) ;!
  let! grants := look (λ w, length (w_grants w)) in
  let! refused := activate_grants grants 0 invocation in
  match refused with
  | Some (activated, error) =>
      revoke_grants activated (inv_id invocation) ;!
      block_after_arm invocation (mt_binding turn)
        ("invocation grant activation failed: " +:+ error)
  | None => dispatch turn grants schedule
  end.
Definition run (turn : ManagedTurn) (schedule : Schedule)
    : turn_action ManagedTurnError ManagedTurnOutcome :=
  let! _ := arm_turn turn in run_armed turn schedule.
End controller.
