(* ===== verification/WorkerTurns.v ===== *)
(** * What a worker asks of a turn (crates/execution/src/worker.rs, first part)

    The kinds of message a seat may reserve, the adapter that turns a reserved
    message into a prompt with a bounded view of its channel, and the checks of a
    worker's configuration. *)

From S2P Require Import Prelude Action Proto Schema Messages Invocations Sessions HarnessClient.
From S2P Require Import Grants Controller Supervisor.

Definition MAX_LEASE_DURATION_MS : Z := 3600000.
Definition MAX_POLL_INTERVAL_MS : Z := 60000.
Definition MAX_RETRY_DELAY_MS : Z := 86400000.
Definition MAX_TURN_CAPTURE_BYTES : Z := 524288.
Definition LEASE_MARGIN_MS : Z := 60000.
Definition MAX_ACCEPTED_MESSAGE_KINDS : nat := 128.
Definition MAX_MESSAGE_KIND_BYTES : Z := 256.
Definition GENERATION_HEARTBEAT_INTERVAL_MS : Z := 5000.
Definition MAX_CHANNEL_CONTEXT_MEMBERS : nat := 64.
Definition MAX_CHANNEL_CONTEXT_MESSAGES : nat := 32.
Definition MAX_CHANNEL_CONTEXT_HISTORY_BYTES : Z := 65536.
Definition MAX_STANDING_INSTRUCTIONS_BYTES : Z := 32768.

(** ** Inbound acceptance *)

(** A [BTreeSet<String>] is the list of its members in order. *)
Record InboundAcceptance := {
  ia_schema_version : Z; ia_message_kinds : list string }.

Definition kind_unbounded (kind : string) : bool :=
  is_blank kind || (MAX_MESSAGE_KIND_BYTES <? str_len kind).

Fixpoint exact_kinds (exact supplied : list string) : list string + string :=
  match supplied with
  | [] => inl exact
  | kind :: supplied =>
      if kind_unbounded kind then
        inr ("accepted message kind must contain between 1 and " +:+ pretty MAX_MESSAGE_KIND_BYTES
             +:+ " bytes") else
      if bool_decide (kind ∈ exact) then inr ("duplicate accepted message kind " +:+ kind) else
      exact_kinds (sort_insert String.leb kind exact) supplied
  end.
Definition exact_v1 (supplied : list string) : InboundAcceptance + string :=
  if supplied ==? [] then inr "inbound acceptance must contain at least one message kind" else
  if (MAX_ACCEPTED_MESSAGE_KINDS <? length supplied)%nat then
    inr ("inbound acceptance exceeds " +:+ pretty MAX_ACCEPTED_MESSAGE_KINDS +:+ " message kinds")
  else
  match exact_kinds [] supplied with
  | inl exact => inl {| ia_schema_version := 1; ia_message_kinds := exact |}
  | inr error => inr error
  end.

(** ** Prepared turns *)

Section turns.
Context `{J : SerdeJson} {JT : JsonTree}.

Record PreparedTurn := {
  pt_lane_policy : string;
  pt_lane_key : string;
  pt_prompt : list PromptBlock;
  pt_result_kind : string;
  pt_result_capture : TurnResultCapture;
  pt_result_context : Value;
}.
Record ChannelTurnContext := {
  ctx_members : list ChannelMember;
  ctx_members_truncated : bool;
  ctx_recent_history : list Message;
  ctx_recent_history_truncated : bool;
}.

Class TurnAdapter (T : Type) := {
  inbound_acceptance : T → InboundAcceptance;
  prepare : T → Invocation → PreparedTurn + string;
  prepare_with_channel_context :
    T → Invocation → ChannelTurnContext → PreparedTurn + string;
}.
(** The default method of the trait. *)
Definition prepare_without_context {T} (prepare : T → Invocation → PreparedTurn + string)
    (adapter : T) (invocation : Invocation) (_ : ChannelTurnContext) : PreparedTurn + string :=
  prepare adapter invocation.

(** ** The envelope adapter *)

Record EnvelopeTurnAdapter := {
  ea_result_kind : string;
  ea_inbound_acceptance : InboundAcceptance;
  ea_standing_instructions : option string;
}.
Definition new_envelope_adapter (result_kind : string) (message_kinds : list string)
    : EnvelopeTurnAdapter + string :=
  if kind_unbounded result_kind then
    inr ("result kind must contain between 1 and " +:+ pretty MAX_MESSAGE_KIND_BYTES +:+ " bytes")
  else
  match exact_v1 message_kinds with
  | inl acceptance =>
      inl {| ea_result_kind := result_kind; ea_inbound_acceptance := acceptance;
             ea_standing_instructions := None |}
  | inr error => inr error
  end.
Definition with_standing_instructions (adapter : EnvelopeTurnAdapter) (instructions : string)
    : EnvelopeTurnAdapter + string :=
  if MAX_STANDING_INSTRUCTIONS_BYTES <? str_len instructions then
    inr ("standing instructions must not exceed " +:+ pretty MAX_STANDING_INSTRUCTIONS_BYTES
         +:+ " bytes")
  else
  inl {| ea_result_kind := ea_result_kind adapter;
         ea_inbound_acceptance := ea_inbound_acceptance adapter;
         ea_standing_instructions :=
           if is_blank instructions then None else Some instructions |}.

(** [serde_json::to_value] of an optional string, a member and a message *)
Definition optional_string (value : option string) : Value :=
  match value with Some s => json_string s | None => json_null end.
Definition member_to_value (member : ChannelMember) : Value :=
  json_object
    [("channel_id", json_string (member_channel_id member));
     ("agent_id", json_string (member_agent_id member));
     ("agent_name", json_string (member_agent_name member));
     ("joined_at_ms", json_number (member_joined_at_ms member));
     ("delivery_mode", json_string (as_str (member_delivery_mode member)))].
Definition message_to_value (message : Message) : Value :=
  json_object
    [("seq", json_number (msg_seq message));
     ("id", json_string (msg_id message));
     ("channel_id", json_string (msg_channel_id message));
     ("sender_id", json_string (msg_sender_id message));
     ("recipient_id", optional_string (msg_recipient_id message));
     ("kind", json_string (msg_kind message));
     ("payload", msg_payload message);
     ("correlation_id", optional_string (msg_correlation_id message));
     ("causation_id", optional_string (msg_causation_id message));
     ("created_at_ms", json_number (msg_created_at_ms message))].

Definition newline : string := String (Ascii.ascii_of_nat 10) "".
Definition blank_line : string := newline +:+ newline.
Definition envelope (invocation : Invocation) (context : ChannelTurnContext) : Value :=
  json_object
    [("invocation", json_object
        [("id", json_string (inv_id invocation));
         ("delivery_attempt", json_number (inv_delivery_attempt invocation))]);
     ("channel", json_object
        [("id", json_string (msg_channel_id (inv_message invocation)));
         ("members", json_array (map member_to_value (ctx_members context)));
         ("members_truncated", json_bool (ctx_members_truncated context));
         ("recent_history", json_array (map message_to_value (ctx_recent_history context)));
         ("recent_history_truncated", json_bool (ctx_recent_history_truncated context))]);
     ("message", message_to_value (inv_message invocation))].

(** [serde_json::to_string_pretty] and the text of its error *)
Context (to_json_pretty : Value → string + string).

Definition prepare_envelope (adapter : EnvelopeTurnAdapter) (invocation : Invocation)
    (context : ChannelTurnContext) : PreparedTurn + string :=
  match to_json_pretty (envelope invocation context) with
  | inr error => inr ("message envelope could not be encoded: " +:+ error)
  | inl encoded =>
      let standing :=
        match ea_standing_instructions adapter with
        | None => ""
        | Some instructions =>
            blank_line +:+ "Your standing instructions for this agent identity are:" +:+ newline
            +:+ instructions
        end in
      inl {| pt_lane_policy := "per-channel";
             pt_lane_key := msg_channel_id (inv_message invocation);
             pt_prompt :=
               [PromptText
                  ("You are participating in a durable Fleetd channel. The channel members and "
                   +:+ "recent shared history below are context; the message field is the exact "
                   +:+ "message that woke you. Act on its request and make your final response "
                   +:+ "suitable to return to the sending member. When another member should act "
                   +:+ "and a Fleetd messaging tool is available, address a durable message using "
                   +:+ "that member's exact agent_id from channel.members. Do not claim a peer "
                   +:+ "response you have not received, and do not invent authority absent from the "
                   +:+ "request." +:+ standing +:+ blank_line +:+ encoded)];
             pt_result_kind := ea_result_kind adapter;
             pt_result_capture := Transcript;
             pt_result_context := json_null |}
  end.
Definition no_context : ChannelTurnContext :=
  {| ctx_members := []; ctx_members_truncated := false; ctx_recent_history := [];
     ctx_recent_history_truncated := false |}.
#[export] Instance envelope_turn_adapter : TurnAdapter EnvelopeTurnAdapter := {|
  inbound_acceptance := ea_inbound_acceptance;
  prepare adapter invocation := prepare_envelope adapter invocation no_context;
  prepare_with_channel_context := prepare_envelope;
|}.

(** ** The view of the channel *)

(** One pass of either loop of [bounded_context_members]: the members taken so far
    ([included] is the set of their identifiers). *)
Definition include_member (bounded : list ChannelMember) (member : ChannelMember)
    : list ChannelMember :=
  if bool_decide (member_agent_id member ∈ map member_agent_id bounded) then bounded
  else bounded ++ [member].
Fixpoint include_priorities (members bounded : list ChannelMember) (priorities : list string)
    : list ChannelMember :=
  match priorities with
  | [] => bounded
  | priority_id :: priorities =>
      include_priorities members
        match List.find (λ member, member_agent_id member ==? priority_id) members with
        | Some member => include_member bounded member
        | None => bounded
        end priorities
  end.
Fixpoint include_members (bounded members : list ChannelMember) : list ChannelMember :=
  match members with
  | [] => bounded
  | member :: members =>
      if (length bounded =? MAX_CHANNEL_CONTEXT_MEMBERS)%nat then bounded
      else include_members (include_member bounded member) members
  end.
Definition priority_ids (invocation : Invocation) : list string :=
  inv_agent_id invocation :: msg_sender_id (inv_message invocation)
  :: match msg_recipient_id (inv_message invocation) with Some id => [id] | None => [] end.
Definition bounded_context_members (members : list ChannelMember) (invocation : Invocation)
    : list ChannelMember * bool :=
  let bounded :=
    include_members (include_priorities members [] (priority_ids invocation)) members in
  (bounded, (length bounded <? length members)%nat).

(** [serde_json::to_vec(&message).map_or(..)] *)
Definition message_bytes (message : Message) : Z :=
  match to_json (message_to_value message) with
  | Some bytes => str_len bytes
  | None => MAX_CHANNEL_CONTEXT_HISTORY_BYTES + 1
  end.
(** The loop over the messages newest first, onto the retained ones. *)
Definition usize_max : Z := u64_max.
Fixpoint retain_history (newest_first retained : list Message) (encoded_bytes : Z)
    (truncated : bool) : list Message * bool :=
  match newest_first with
  | [] => (retained, truncated)
  | message :: newest_first =>
      let next_bytes := encoded_bytes + message_bytes message in
      if usize_max <? next_bytes then (retained, true)
      else if MAX_CHANNEL_CONTEXT_HISTORY_BYTES <? next_bytes then (retained, true)
      else retain_history newest_first (message :: retained) next_bytes truncated
  end.
Definition bounded_context_history (history : list Message) : list Message * bool :=
  let start := (length history - MAX_CHANNEL_CONTEXT_MESSAGES)%nat in
  retain_history (reverse (drop start history)) [] 0
    (MAX_CHANNEL_CONTEXT_MESSAGES <? length history)%nat.

(** ** Configuration *)

Record ContinuousWorkerConfig := {
  cw_agent_id : string;
  cw_plugin : PluginSpec;
  cw_working_directory : string;
  cw_additional_directories : list string;
  cw_mcp_grants : list string;
  (** The harness half of each grant; the authorities are the grants of the world. *)
  cw_turn_grants : list ResolvedMcpGrant;
  cw_compatibility_digest : option string;
  cw_lease_duration : Duration;
  cw_poll_interval : Duration;
  cw_interrupt_on_new_message : bool;
  cw_interrupt_poll_interval : Duration;
  cw_restart_backoff : Duration;
  cw_pre_arm_retry_delay : Duration;
  cw_turn_policy : TurnPolicy;
  cw_permission_policy : PermissionPolicy;
  (** Whether a trajectory sink is attached. *)
  cw_trajectory_sink : bool;
}.

Inductive ContinuousWorkerError :=
| InvalidConfig (reason : string)
| AdapterRejected (reason : string)
| PreArmSettlement (context : string) (source : FleetError)
| OperationalEvidence (context : string) (source : FleetError).

(** [u64::try_from(duration.as_millis()).ok()] *)
Definition duration_ms (duration : Duration) : option Z :=
  let ms := duration / 1000000 in if ms <=? u64_max then Some ms else None.

Definition validation_of_config : Type := unit + ContinuousWorkerError.
Definition invalid (message : string) : ContinuousWorkerError := InvalidConfig message.
Definition invalid_if (b : bool) (message : string) : validation_of_config :=
  reject b (invalid message).

(** [Path::is_dir] *)
Context (is_dir : string → bool).

Definition validate_directory (label directory : string) : validation_of_config :=
  invalid_if (negb (is_absolute directory) || negb (is_dir directory))
    (label +:+ " must be an existing absolute directory: " +:+ directory).
Fixpoint validate_additional (directories : list string) : validation_of_config :=
  match directories with
  | [] => inl tt
  | directory :: directories =>
      validate_directory "additional directory" directory ;: validate_additional directories
  end.
Definition PUBLISH_DURABLE_MESSAGE_GRANT : string := "fleet.messaging.send".
Fixpoint validate_mcp_grants (seen grants : list string) : validation_of_config :=
  match grants with
  | [] => inl tt
  | grant :: grants =>
      invalid_if (grant !=? PUBLISH_DURABLE_MESSAGE_GRANT) ("unsupported MCP grant: " +:+ grant) ;:
      invalid_if (bool_decide (grant ∈ seen)) ("duplicate MCP grant: " +:+ grant) ;:
      validate_mcp_grants (grant :: seen) grants
  end.

(** [ok_or_else(..)?] on the way to a check *)
Definition required {A} (value : option A) (message : string) (k : A → validation_of_config)
    : validation_of_config :=
  match value with Some a => k a | None => inr (invalid message) end.

Definition policy_unsupported (policy : TurnPolicy) : bool :=
  (tp_idle_timeout_ms policy ==? 0) || (tp_wall_timeout_ms policy ==? 0)
  || (tp_cancel_drain_timeout_ms policy ==? 0) || (tp_max_captured_output_bytes policy ==? 0)
  || (MAX_TURN_CAPTURE_BYTES <? tp_max_captured_output_bytes policy)
  || (tp_permission_policy policy !=? "controller")
  || (tb_limit (tp_tool_budget policy) ==? 0)
  || (tb_required_enforcement (tp_tool_budget policy) !=? "observe_then_cancel")
  || is_some (tp_token_budget policy).

Definition validate_config (config : ContinuousWorkerConfig) : validation_of_config :=
  invalid_if (is_blank (cw_agent_id config) || (256 <? str_len (cw_agent_id config)))
    "agent ID must contain between 1 and 256 bytes" ;:
  validate_directory "working directory" (cw_working_directory config) ;:
  validate_additional (cw_additional_directories config) ;:
  validate_mcp_grants [] (cw_mcp_grants config) ;:
  invalid_if (match cw_compatibility_digest config with
              | Some digest => is_blank digest
              | None => false
              end)
    "compatibility digest must not be empty when supplied" ;:
  invalid_if ((cw_permission_policy config ==? AllowOnce)
              && is_none (sandbox_profile_digest (cw_plugin config)))
    "allow_once permission policy requires an OS-sandboxed plugin process" ;:
  invalid_if ((cw_poll_interval config ==? 0) || (cw_interrupt_poll_interval config ==? 0)
              || (cw_restart_backoff config ==? 0))
    ("poll interval, interruption poll interval, and restart backoff must be greater than "
     +:+ "zero") ;:
  required (duration_ms (cw_poll_interval config)) "poll interval is too large" (λ poll_ms,
  required (duration_ms (cw_restart_backoff config)) "restart backoff is too large" (λ restart_ms,
  required (duration_ms (cw_interrupt_poll_interval config))
    "interruption poll interval is too large" (λ interrupt_poll_ms,
  invalid_if (MAX_POLL_INTERVAL_MS <? poll_ms)
    "poll interval must not exceed 60,000 milliseconds" ;:
  invalid_if (MAX_POLL_INTERVAL_MS <? interrupt_poll_ms)
    "interruption poll interval must not exceed 60,000 milliseconds" ;:
  invalid_if (MAX_RETRY_DELAY_MS <? restart_ms)
    "restart backoff must not exceed 86,400,000 milliseconds" ;:
  required (duration_ms (cw_lease_duration config)) "lease duration is too large" (λ lease_ms,
  required (duration_ms (cw_pre_arm_retry_delay config)) "retry delay is too large" (λ retry_ms,
  invalid_if ((lease_ms ==? 0) || (MAX_LEASE_DURATION_MS <? lease_ms))
    "lease duration must be between 1 and 3,600,000 milliseconds" ;:
  invalid_if (MAX_RETRY_DELAY_MS <? retry_ms)
    "pre-arm retry delay must not exceed 86,400,000 milliseconds" ;:
  let policy := cw_turn_policy config in
  required (wall ← checked_add_u64 (tp_wall_timeout_ms policy) (tp_cancel_drain_timeout_ms policy);
            checked_add_u64 wall LEASE_MARGIN_MS)
    "turn deadline bounds overflow" (λ required_lease,
  invalid_if (lease_ms <? required_lease)
    ("lease duration must cover wall timeout, cancel drain, and " +:+ pretty LEASE_MARGIN_MS
     +:+ "ms margin (" +:+ pretty required_lease +:+ "ms required)") ;:
  invalid_if (policy_unsupported policy)
    "turn policy requests unsupported or unbounded enforcement")))))).

Definition validate_prepared_turn (prepared : PreparedTurn) : unit + string :=
  reject (is_blank (pt_lane_policy prepared) || is_blank (pt_lane_key prepared)
          || is_blank (pt_result_kind prepared)
          || match pt_prompt prepared with [] => true | _ => false end)
    "lane policy, lane key, result kind, and prompt must not be empty".

(** ** The compatibility class of a generation *)

Definition byte_string (n : Z) : string :=
  String (Ascii.ascii_of_N (Z.to_N (Z.land n 255))) "".
Definition nul : string := byte_string 0.
(** [u32::to_be_bytes] *)
Definition to_be_bytes (n : Z) : string :=
  byte_string (Z.shiftr n 24) +:+ byte_string (Z.shiftr n 16) +:+ byte_string (Z.shiftr n 8)
  +:+ byte_string n.
Definition digest_input (base : string) (mcp_grants : list string) (acceptance : InboundAcceptance)
    (sandbox : option string) (permission_policy : PermissionPolicy) : string :=
  "fleetd-worker-compatibility-v4" +:+ nul +:+ base
  +:+ nul +:+ "sandbox" +:+ nul +:+ coalesce sandbox "unsandboxed"
  +:+ nul +:+ "permission-policy" +:+ nul +:+ policy_as_str permission_policy
  +:+ foldr (λ grant rest, nul +:+ grant +:+ rest)
        (nul +:+ "inbound-schema" +:+ nul +:+ to_be_bytes (ia_schema_version acceptance)
         +:+ foldr (λ kind rest, nul +:+ "kind" +:+ nul +:+ kind +:+ rest) ""
               (ia_message_kinds acceptance)) mcp_grants.
Definition worker_compatibility_digest (sha256_hex : string → string) (base : string)
    (mcp_grants : list string) (acceptance : InboundAcceptance) (sandbox : option string)
    (permission_policy : PermissionPolicy) : string :=
  "sha256:" +:+ sha256_hex (digest_input base mcp_grants acceptance sandbox permission_policy).

(** ** Reports *)

Record WorkerReport := {
  wr_plugin_generations : Z;
  wr_operational_restarts : Z;
  wr_reservations : Z;
  wr_completed : Z;
  wr_interrupted : Z;
  wr_blocked : Z;
  wr_pre_arm_retries : Z;
  wr_idle_polls : Z;
}.
Definition settled_turns (report : WorkerReport) : Z :=
  saturating_add_u64 (saturating_add_u64 (wr_completed report) (wr_interrupted report))
    (wr_blocked report).
Definition limit_reached (report : WorkerReport) (limit : option Z) : bool :=
  match limit with Some limit => limit <=? settled_turns report | None => false end.

(** [bounded] *)
Definition BOUNDED_LIMIT : nat := 4096.
Definition bounded (value : string) : string :=
  if (String.length value <=? BOUNDED_LIMIT)%nat then value
  else String.substring 0 (floor_boundary value BOUNDED_LIMIT) value.
End turns.
