(* ===== verification/Worker.v ===== *)
(** * The continuous worker (crates/execution/src/worker.rs)

    [run_until] drives plugin generations, and each generation drives one agent's
    inbox: reserve one message, prepare it, resolve its lane to a native session,
    run the managed turn, report.  The state is the controller's [World] with the
    report of the run and the sessions the generation has opened.

    An error of an action is what ends the loop it runs in: a [GenerationExit] for
    a generation, a [RunEnd] for the run.  The loops return in no other way, so the
    type of their values is empty.  Both errors have a constructor for a panic and
    one for the fuel of their loop being spent.  Cancellation is an oracle on the
    awaits passed ([is_cancelled]); [start_process n] is what [PluginProcess::start]
    gives at await [n]; [polls n] is what the interruption watch of a turn that
    starts at await [n] sees until it is dropped; the heartbeat task of a generation
    is part of the rest of the system ([env_db]). *)

From stdpp Require Import gmap.
From S2P Require Import Prelude Action Proto Schema Channels Messages Deliveries.
From S2P Require Import SessionFence Observations Invocations Settlement Sessions.
From S2P Require Import Grants HarnessClient Controller Supervisor WorkerTurns.

Inductive LaneIdentity := Lane (policy key : string).
#[global] Instance LaneIdentity_eq_dec : EqDecision LaneIdentity.
Proof. solve_decision. Defined.
#[global] Instance LaneIdentity_countable : Countable LaneIdentity.
Proof.
  refine (inj_countable' (λ lane, match lane with Lane policy key => (policy, key) end)
            (λ p, Lane p.1 p.2) _).
  by intros [].
Defined.

Record OpenedSession := { op_binding : Binding; op_session_ref : string }.
Record GenerationIdentity := {
  gi_owner_instance_id : string;
  gi_profile_digest : string;
  gi_compatibility_digest : string;
}.

Section worker.
Context `{J : SerdeJson} {JT : JsonTree}.
Context {P H : Type} {HH : Harness H} {G : Type} {MG : ManagedTurnGrant G}.
Context {T : Type} {TA : TurnAdapter T}.

Inductive GenerationExit :=
| Stopped
| Restart (reason : string)
| Fatal (error : ContinuousWorkerError)
| GenerationPanicked (reason : string)
| GenerationOutOfFuel.
Inductive LaneOpenError := LaneFleet (error : FleetError) | LanePlugin (error : PluginError).
Inductive TurnControl := Continue | ForgetLane (lane : LaneIdentity).
Inductive RunEnd :=
| RunFinished (report : WorkerReport)
| RunFailed (error : ContinuousWorkerError)
| RunPanicked (reason : string)
| RunOutOfFuel.

(** What the worker uses of a process beyond the turn: [into_harness_acp] of the
    process that was started, the manifest and process id of its client, and the
    calls that open, close and shut down. *)
Class WorkerHarness := {
  into_harness_acp : P → H + PluginError;
  wh_manifest : H → PluginManifest;
  wh_process_id : H → option U32;
  wh_open_session : OpenSession → action H PluginError OpenSessionResult;
  wh_close_session : CloseSession → action H PluginError (bool * bool);
  wh_shutdown : action H PluginError ShutdownOutcome;
}.
Context {WH : WorkerHarness}.

(** ** State *)

Record WState := {
  ws_world : World (H := H) (G := G);
  ws_report : WorkerReport;
  ws_sessions : gmap LaneIdentity OpenedSession;
}.
Definition set_world (w : World) (s : WState) : WState :=
  {| ws_world := w; ws_report := ws_report s; ws_sessions := ws_sessions s |}.
Definition set_report (report : WorkerReport) (s : WState) : WState :=
  {| ws_world := ws_world s; ws_report := report; ws_sessions := ws_sessions s |}.
Definition set_sessions (sessions : gmap LaneIdentity OpenedSession) (s : WState) : WState :=
  {| ws_world := ws_world s; ws_report := ws_report s; ws_sessions := sessions |}.

Definition worker_action (E A : Type) : Type := action WState E A.

Definition in_world {E A} (m : turn_action (H := H) (G := G) E A) : worker_action E A :=
  λ s, let (w, r) := m (ws_world s) in (set_world w s, r).
Definition count_report {E} (f : WorkerReport → WorkerReport) : worker_action E unit :=
  act (λ s, set_report (f (ws_report s)) s).

(** [report.x = report.x.saturating_add(1)] *)
Definition zero_report : WorkerReport :=
  {| wr_plugin_generations := 0; wr_operational_restarts := 0; wr_reservations := 0;
     wr_completed := 0; wr_interrupted := 0; wr_blocked := 0; wr_pre_arm_retries := 0;
     wr_idle_polls := 0 |}.
Definition one_more (n : Z) : Z := saturating_add_u64 n 1.
Definition count_generation (r : WorkerReport) : WorkerReport :=
  {| wr_plugin_generations := one_more (wr_plugin_generations r);
     wr_operational_restarts := wr_operational_restarts r; wr_reservations := wr_reservations r;
     wr_completed := wr_completed r; wr_interrupted := wr_interrupted r;
     wr_blocked := wr_blocked r; wr_pre_arm_retries := wr_pre_arm_retries r;
     wr_idle_polls := wr_idle_polls r |}.
Definition count_restart (r : WorkerReport) : WorkerReport :=
  {| wr_plugin_generations := wr_plugin_generations r;
     wr_operational_restarts := one_more (wr_operational_restarts r);
     wr_reservations := wr_reservations r; wr_completed := wr_completed r;
     wr_interrupted := wr_interrupted r; wr_blocked := wr_blocked r;
     wr_pre_arm_retries := wr_pre_arm_retries r; wr_idle_polls := wr_idle_polls r |}.
Definition count_reservation (r : WorkerReport) : WorkerReport :=
  {| wr_plugin_generations := wr_plugin_generations r;
     wr_operational_restarts := wr_operational_restarts r;
     wr_reservations := one_more (wr_reservations r); wr_completed := wr_completed r;
     wr_interrupted := wr_interrupted r; wr_blocked := wr_blocked r;
     wr_pre_arm_retries := wr_pre_arm_retries r; wr_idle_polls := wr_idle_polls r |}.
Definition count_completed (r : WorkerReport) : WorkerReport :=
  {| wr_plugin_generations := wr_plugin_generations r;
     wr_operational_restarts := wr_operational_restarts r; wr_reservations := wr_reservations r;
     wr_completed := one_more (wr_completed r); wr_interrupted := wr_interrupted r;
     wr_blocked := wr_blocked r; wr_pre_arm_retries := wr_pre_arm_retries r;
     wr_idle_polls := wr_idle_polls r |}.
Definition count_interrupted (r : WorkerReport) : WorkerReport :=
  {| wr_plugin_generations := wr_plugin_generations r;
     wr_operational_restarts := wr_operational_restarts r; wr_reservations := wr_reservations r;
     wr_completed := wr_completed r; wr_interrupted := one_more (wr_interrupted r);
     wr_blocked := wr_blocked r; wr_pre_arm_retries := wr_pre_arm_retries r;
     wr_idle_polls := wr_idle_polls r |}.
Definition count_blocked (r : WorkerReport) : WorkerReport :=
  {| wr_plugin_generations := wr_plugin_generations r;
     wr_operational_restarts := wr_operational_restarts r; wr_reservations := wr_reservations r;
     wr_completed := wr_completed r; wr_interrupted := wr_interrupted r;
     wr_blocked := one_more (wr_blocked r); wr_pre_arm_retries := wr_pre_arm_retries r;
     wr_idle_polls := wr_idle_polls r |}.
Definition count_pre_arm_retry (r : WorkerReport) : WorkerReport :=
  {| wr_plugin_generations := wr_plugin_generations r;
     wr_operational_restarts := wr_operational_restarts r; wr_reservations := wr_reservations r;
     wr_completed := wr_completed r; wr_interrupted := wr_interrupted r;
     wr_blocked := wr_blocked r; wr_pre_arm_retries := one_more (wr_pre_arm_retries r);
     wr_idle_polls := wr_idle_polls r |}.
Definition count_idle_poll (r : WorkerReport) : WorkerReport :=
  {| wr_plugin_generations := wr_plugin_generations r;
     wr_operational_restarts := wr_operational_restarts r; wr_reservations := wr_reservations r;
     wr_completed := wr_completed r; wr_interrupted := wr_interrupted r;
     wr_blocked := wr_blocked r; wr_pre_arm_retries := wr_pre_arm_retries r;
     wr_idle_polls := one_more (wr_idle_polls r) |}.

(** ** The environment *)

Context (sha256_hex : string → string).
Context (plugin_error_text : PluginError → string) (source_text : FleetError → string).
Context (clock later : nat → Z) (uuid : nat → string).
(** The lease token and the identifiers a reservation draws at an await. *)
Context (lease_token : nat → Db → string) (uuids : nat → nat → string).
Context (env_db : nat → Db → Db) (env_grants : nat → list G → list G).
Context (lost : nat → bool).
Context (cancelled : nat → bool).
(** Whether a sleep that ends together with a cancellation is the one [select!] takes. *)
Context (sleep_first : nat → bool).
Context (start_process : nat → P + PluginError).
Context (schedules : nat → Schedule).
(** One pass of the interruption watch: whether the token is cancelled when it
    looks, the store and time it reads, and whether cancellation ends its sleep. *)
Record Poll := {
  poll_cancelled : bool; poll_db : Db; poll_now : Z; poll_woken : bool }.
Context (polls : nat → list Poll).
Context (config : ContinuousWorkerConfig) (adapter : T).

Notation fleet_error_text := (fleet_error_text source_text).

Definition pass {E} : worker_action E unit := in_world (Controller.pass env_db env_grants).
Definition store {E A} (wrap : FleetError → E) (op : Z → Z → string → M A) : worker_action E A :=
  in_world (Controller.store clock later uuid env_db env_grants wrap op).
Definition harness {E A} (wrap : PluginError → E) (call : action H PluginError A)
    : worker_action E A :=
  pass ;! in_world (on_harness wrap call).
Definition is_cancelled {E} : worker_action E bool :=
  look (λ s, cancelled (w_awaits (ws_world s))).
Definition wait_or_cancel {E} : worker_action E bool :=
  pass ;!
  look (λ s, let n := w_awaits (ws_world s) in cancelled n && negb (sleep_first n)).

(** [error.to_string()] *)
Definition worker_error_text (error : ContinuousWorkerError) : string :=
  match error with
  | InvalidConfig reason => "continuous worker configuration is invalid: " +:+ reason
  | AdapterRejected reason => "turn adapter rejected a reserved message: " +:+ reason
  | PreArmSettlement context source =>
      "failed to safely release an unarmed reservation after " +:+ context +:+ ": "
      +:+ fleet_error_text source
  | OperationalEvidence context source =>
      "durable operational evidence failed during " +:+ context +:+ ": "
      +:+ fleet_error_text source
  end.
Definition lane_error_text (error : LaneOpenError) : string :=
  match error with
  | LaneFleet error => fleet_error_text error
  | LanePlugin error => plugin_error_text error
  end.
Definition is_plugin (error : LaneOpenError) : bool :=
  match error with LanePlugin _ => true | LaneFleet _ => false end.

(** ** Releasing an unarmed reservation *)

Definition retry_unarmed (invocation : Invocation) (context : string) (retry_after_ms : Z)
    : worker_action ContinuousWorkerError unit :=
  store (PreArmSettlement context) (λ now _ _,
    retry_delivery (inv_agent_id invocation) (msg_id (inv_message invocation))
      {| retry_lease_token := inv_lease_token invocation; retry_after_ms := retry_after_ms;
         retry_error := Some (bounded context) |} now).
(** [duration_ms(..).expect(..)] *)
Definition expect_ms {A} (duration : Duration) (message : string)
    (k : Z → worker_action GenerationExit A) : worker_action GenerationExit A :=
  match duration_ms duration with Some ms => k ms | None => throw (GenerationPanicked message) end.
Definition release_or_exit (invocation : Invocation) (reason : string)
    : worker_action GenerationExit unit :=
  expect_ms (cw_pre_arm_retry_delay config) "validated retry delay" (λ retry_ms,
    map_err Fatal (retry_unarmed invocation reason retry_ms)) ;!
  count_report count_pre_arm_retry.
Definition stop_unarmed {A} (invocation : Invocation) : worker_action GenerationExit A :=
  map_err Fatal (retry_unarmed invocation "worker cancelled before dispatch" 0) ;!
  count_report count_pre_arm_retry ;!
  throw Stopped.

(** ** Preparing *)

Definition channel_turn_context (invocation : Invocation)
    : worker_action FleetError ChannelTurnContext :=
  let message := inv_message invocation in
  let! members := store id (λ _ _ _, list_channel_members (msg_channel_id message)) in
  let (members, members_truncated) := bounded_context_members members invocation in
  let! history := store id (λ _ _ _,
    list_recent_messages_before (msg_channel_id message) (msg_seq message)
      (Z.of_nat MAX_CHANNEL_CONTEXT_MESSAGES + 1)) in
  let (recent_history, recent_history_truncated) := bounded_context_history history in
  done_with {| ctx_members := members; ctx_members_truncated := members_truncated;
               ctx_recent_history := recent_history;
               ctx_recent_history_truncated := recent_history_truncated |}.

Definition prepare_reserved (invocation : Invocation) : worker_action GenerationExit PreparedTurn :=
  let! context := attempt (channel_turn_context invocation) in
  match context with
  | inr error =>
      let reason := "channel context could not be read before arm: " +:+ fleet_error_text error in
      release_or_exit invocation reason ;! throw (Restart reason)
  | inl context =>
  match prepare_with_channel_context adapter invocation context with
  | inr error =>
      release_or_exit invocation ("adapter rejected message: " +:+ error) ;!
      throw (Fatal (AdapterRejected error))
  | inl prepared =>
  match validate_prepared_turn prepared with
  | inr error =>
      release_or_exit invocation ("adapter output is invalid: " +:+ error) ;!
      throw (Fatal (AdapterRejected error))
  | inl _ => done_with prepared
  end
  end
  end.

(** ** Lanes *)

Definition open_lane (invocation : Invocation) (lane : LaneIdentity) (generation : GenerationIdentity)
    : worker_action LaneOpenError OpenedSession :=
  let 'Lane policy key := lane in
  let! acquisition := store LaneFleet (λ now _ u,
    acquire_session_binding (inv_agent_id invocation)
      {| acq_lane_policy := policy; acq_lane_key := key;
         acq_owner_instance_id := gi_owner_instance_id generation;
         acq_profile_digest := gi_profile_digest generation;
         acq_compatibility_digest := gi_compatibility_digest generation;
         acq_working_directory := cw_working_directory config;
         acq_additional_directories := cw_additional_directories config |} now u) in
  let mode := match sa_mode acquisition with
              | Create => OpenCreate
              | Resume session_ref => OpenResume session_ref
              end in
  let binding := sb_binding (sa_session acquisition) in
  let! opened := harness LanePlugin (wh_open_session
    {| os_binding := binding; os_mode := mode;
       os_working_directory := cw_working_directory config;
       os_additional_directories := cw_additional_directories config;
       os_mcp_grants := cw_mcp_grants config;
       os_resolved_mcp_grants := cw_turn_grants config;
       os_profile_digest := gi_profile_digest generation |}) in
  let! _ := store LaneFleet (λ now _ _,
    record_session_opened (inv_agent_id invocation) binding (osr_session_ref opened) now) in
  done_with {| op_binding := binding; op_session_ref := osr_session_ref opened |}.

Definition resolve_lane (invocation : Invocation) (lane : LaneIdentity)
    (generation : GenerationIdentity) : worker_action GenerationExit (option OpenedSession) :=
  let! sessions := look ws_sessions in
  match sessions !! lane with
  | Some opened => done_with (Some opened)
  | None =>
  let! opened := attempt (open_lane invocation lane generation) in
  match opened with
  | inl opened =>
      act (λ s, set_sessions (<[lane := opened]> (ws_sessions s)) s) ;! done_with (Some opened)
  | inr error =>
      let reason := "session acquisition failed before arm: " +:+ lane_error_text error in
      release_or_exit invocation reason ;!
      if is_plugin error then throw (Restart reason) else done_with None
  end
  end.

(** ** Interruption *)

Fixpoint turn_interruption (agent_id channel_id : string) (after : Z) (accepted_kinds : list string)
    (watch : bool) (polls : list Poll) : option ManagedTurnInterruption :=
  match polls with
  | [] => None
  | poll :: polls =>
      if poll_cancelled poll then Some WorkerShutdown else
      let found :=
        if watch then
          match newest_claimable_delivery_message_after agent_id channel_id after accepted_kinds
                  (poll_now poll) (poll_db poll) with
          | Ok (found, _) => found
          | Err _ => None
          end
        else None in
      match found with
      | Some message => Some (NewerMessage (msg_id message))
      | None =>
          if poll_woken poll then Some WorkerShutdown
          else turn_interruption agent_id channel_id after accepted_kinds watch polls
      end
  end.

Definition ROTATE_REASON : string := "newer channel message interrupted quiescent turn".
Definition rotate_interrupted_lane (lane : LaneIdentity) (session : OpenedSession)
    : worker_action GenerationExit TurnControl :=
  let binding := op_binding session in
  let! _ := store (λ source, Fatal (OperationalEvidence
                ("retire interrupted session binding " +:+ binding_id binding +:+ " generation "
                 +:+ pretty (binding_generation binding)) source))
              (λ now _ _, retire_session_binding (cw_agent_id config) binding ROTATE_REASON now) in
  let! close := attempt (harness id (wh_close_session
    {| cs_binding := binding; cs_session_ref := op_session_ref session;
       cs_reason := "newer_message" |})) in
  match close with
  | inl (ownership_retired, _) =>
      if ownership_retired then done_with (ForgetLane lane)
      else throw (Restart "harness did not retire the interrupted native session")
  | inr error =>
      throw (Restart ("interrupted native session could not be closed: "
                      +:+ plugin_error_text error))
  end.

(** ** The turn *)

Definition managed_error (invocation : Invocation) (error : ManagedTurnError)
    : worker_action GenerationExit TurnControl :=
  match error with
  | HarnessBeforeArm error =>
      let reason := "harness failed before arm: " +:+ plugin_error_text error in
      release_or_exit invocation reason ;! throw (Restart reason)
  | TurnInvalid error =>
      release_or_exit invocation ("managed turn input was invalid: " +:+ error) ;!
      throw (Fatal (AdapterRejected error))
  | TurnFleet error =>
      throw (Restart ("managed turn persistence failed at an uncertain phase: "
                      +:+ fleet_error_text error))
  | TurnPanicked reason => throw (GenerationPanicked reason)
  end.

Definition managed_turn (invocation : Invocation) (prepared : PreparedTurn) (session : OpenedSession)
    (generation_id : string) (interruption : option ManagedTurnInterruption) : ManagedTurn :=
  {| mt_invocation := invocation; mt_generation_id := generation_id;
     mt_binding := op_binding session; mt_session_ref := op_session_ref session;
     mt_prompt := pt_prompt prepared; mt_policy := cw_turn_policy config;
     mt_result_kind := pt_result_kind prepared; mt_result_capture := pt_result_capture prepared;
     mt_result_context := pt_result_context prepared;
     mt_permission_policy := cw_permission_policy config; mt_interruption := interruption |}.
Definition run_turn (turn : ManagedTurn) (schedule : Schedule)
    : worker_action ManagedTurnError ManagedTurnOutcome :=
  in_world (run sha256_hex plugin_error_text source_text clock later uuid env_db env_grants lost
              (cw_trajectory_sink config) turn schedule).

Definition execute_turn (invocation : Invocation) (prepared : PreparedTurn) (lane : LaneIdentity)
    (session : OpenedSession) (generation_id : string) : worker_action GenerationExit TurnControl :=
  let channel_id := msg_channel_id (inv_message invocation) in
  let! baseline := attempt (store id (λ _ _ _, latest_channel_message_seq channel_id)) in
  match baseline with
  | inr error =>
      let reason := "turn interruption baseline could not be read: " +:+ fleet_error_text error in
      release_or_exit invocation reason ;! throw (Restart reason)
  | inl interrupt_after_seq =>
  let! at_await := look (λ s, w_awaits (ws_world s)) in
  let interruption :=
    turn_interruption (inv_agent_id invocation) channel_id interrupt_after_seq
      (ia_message_kinds (inbound_acceptance adapter)) (cw_interrupt_on_new_message config)
      (polls at_await) in
  let! result :=
    attempt (run_turn (managed_turn invocation prepared session generation_id interruption)
               (schedules at_await)) in
  match result with
  | inl (Completed _) => count_report count_completed ;! done_with Continue
  | inl (Interrupted _ interruption) =>
      count_report count_interrupted ;!
      match interruption with
      | WorkerShutdown => done_with Continue
      | NewerMessage _ => rotate_interrupted_lane lane session
      end
  | inl (Blocked blocked) =>
      count_report count_blocked ;!
      throw (Restart ("invocation " +:+ inv_id invocation +:+ " was conservatively blocked: "
                      +:+ blocked_reason blocked))
  | inr error => managed_error invocation error
  end
  end.

(** ** A generation *)

Definition reserve_one : worker_action GenerationExit (list Invocation) :=
  expect_ms (cw_lease_duration config) "validated lease duration" (λ lease_ms,
    pass ;! λ s,
      let n := w_awaits (ws_world s) in
      in_world (on_store clock later uuid
        (λ error, Restart ("invocation reservation failed: " +:+ fleet_error_text error))
        (λ now _ _ db,
           reserve_invocations_by_kind (cw_agent_id config)
             {| claim_limit := 1; claim_lease_duration_ms := lease_ms |}
             (ia_message_kinds (inbound_acceptance adapter)) now (lease_token n db) (uuids n) db)) s).

(** The body of the loop of [drive_generation]: what follows a reservation, and the
    whole. *)
Definition drive_invocation (generation : GenerationIdentity) (invocation : Invocation)
    : worker_action GenerationExit unit :=
  let! prepared := prepare_reserved invocation in
  let! stop := is_cancelled in
  if stop then stop_unarmed invocation else
  let lane := Lane (pt_lane_policy prepared) (pt_lane_key prepared) in
  let! opened := resolve_lane invocation lane generation in
  match opened with
  | None => done_with tt
  | Some session =>
  let! stop := is_cancelled in
  if stop then stop_unarmed invocation else
  let! control := execute_turn invocation prepared lane session (gi_owner_instance_id generation) in
  match control with
  | Continue => done_with tt
  | ForgetLane lane => act (λ s, set_sessions (delete lane (ws_sessions s)) s)
  end
  end.
Definition drive_step (generation : GenerationIdentity) (max_settled_turns : option Z)
    : worker_action GenerationExit unit :=
  let! stop := is_cancelled in
  let! report := look ws_report in
  if stop || limit_reached report max_settled_turns then throw Stopped else
  let! reservation := reserve_one in
  match reservation with
  | [] =>
      count_report count_idle_poll ;!
      let! stop := wait_or_cancel in
      if stop then throw Stopped else done_with tt
  | invocation :: _ => count_report count_reservation ;! drive_invocation generation invocation
  end.
Fixpoint drive_generation (fuel : nat) (generation : GenerationIdentity)
    (max_settled_turns : option Z) : worker_action GenerationExit Empty_set :=
  match fuel with
  | O => throw GenerationOutOfFuel
  | S fuel =>
      drive_step generation max_settled_turns ;! drive_generation fuel generation max_settled_turns
  end.

Definition generation_exit_evidence (exit : GenerationExit)
    : PluginGenerationDisposition.t * string :=
  match exit with
  | Restart reason => (PluginGenerationDisposition.Restart, bounded reason)
  | Fatal error => (PluginGenerationDisposition.Fatal, bounded (worker_error_text error))
  | _ => (PluginGenerationDisposition.Stopped, "worker stopped routing work")
  end.
Definition shutdown_generation {A} (exit : GenerationExit) : worker_action GenerationExit A :=
  let! _ := attempt (harness id wh_shutdown) in throw exit.
(** [operations::record_plugin_generation] and [stop_plugin_generation]: a committed
    statement, then a read of the row at a later await. *)
Definition record_plugin_generation (g : NewPluginGeneration)
    : worker_action FleetError PluginGeneration :=
  store id (λ now _ _, insert_plugin_generation g now) ;!
  store id (λ _ read_now _, plugin_generation (ng_id g) read_now).
Definition stop_plugin_generation (generation_id : string) (stop : StopPluginGeneration)
    : worker_action FleetError PluginGeneration :=
  let! changed := store id (λ now _ _, retire_plugin_generation generation_id stop now) in
  let! existing := store id (λ _ read_now _, plugin_generation generation_id read_now) in
  if (changed ==? O) && negb (stopped_as stop existing)
  then throw (Conflict ("plugin generation already stopped with different evidence: "
                        +:+ generation_id))
  else done_with existing.

Definition stop_generation {A} (generation_id : string) (exit : GenerationExit)
    : worker_action GenerationExit A :=
  (if cw_trajectory_sink config then pass else done_with tt) ;!
  let (disposition, reason) := generation_exit_evidence exit in
  let! shutdown := attempt (harness id wh_shutdown) in
  let '(shutdown_outcome, shutdown_exit_code, reason) :=
    match shutdown with
    | inl (Graceful evidence) => (PluginShutdownOutcome.Graceful, pe_code evidence, reason)
    | inl (Forced evidence) => (PluginShutdownOutcome.Forced, pe_code evidence, reason)
    | inr error =>
        (PluginShutdownOutcome.Failed, None,
         bounded (reason +:+ "; shutdown failed: " +:+ plugin_error_text error))
    end in
  let! _ := map_err (λ source, Fatal (OperationalEvidence
                ("plugin generation stop " +:+ generation_id) source))
              (stop_plugin_generation generation_id
                 {| stop_disposition := disposition; stop_reason := reason;
                    stop_shutdown_outcome := shutdown_outcome;
                    stop_shutdown_exit_code := shutdown_exit_code |}) in
  throw exit.

Definition new_generation (harness : H) (generation_id compatibility_digest : string)
    (description : DescribeResult) : NewPluginGeneration :=
  let plugin := mf_plugin (wh_manifest harness) in
  {| ng_id := generation_id; ng_agent_id := cw_agent_id config; ng_plugin_id := pid_id plugin;
     ng_plugin_name := pid_name plugin; ng_plugin_version := pid_version plugin;
     ng_interfaces := map (λ interface, (if_id interface, if_version interface))
                        (mf_interfaces (wh_manifest harness));
     ng_process_id := wh_process_id harness; ng_description := description;
     ng_compatibility_digest := compatibility_digest;
     ng_heartbeat_interval_ms := GENERATION_HEARTBEAT_INTERVAL_MS |}.

Definition run_generation (fuel : nat) (max_settled_turns : option Z)
    : worker_action GenerationExit Empty_set :=
  pass ;!
  let! started := look (λ s, start_process (w_awaits (ws_world s))) in
  match started with
  | inr error => throw (Restart ("plugin startup failed: " +:+ plugin_error_text error))
  | inl process =>
  count_report count_generation ;!
  match into_harness_acp process with
  | inr error =>
      throw (Restart ("typed harness negotiation failed: " +:+ plugin_error_text error))
  | inl client =>
  in_world (act (set_harness client)) ;!
  let! description := attempt (harness id h_describe) in
  match description with
  | inr error =>
      shutdown_generation (Restart ("harness description failed: " +:+ plugin_error_text error))
  | inl description =>
  let! generation_id := look (λ s, uuid (w_awaits (ws_world s))) in
  let compatibility_digest :=
    worker_compatibility_digest sha256_hex
      (coalesce (cw_compatibility_digest config) (dsc_profile_digest description))
      (cw_mcp_grants config) (inbound_acceptance adapter)
      (sandbox_profile_digest (cw_plugin config)) (cw_permission_policy config) in
  let generation :=
    {| gi_owner_instance_id := generation_id; gi_profile_digest := dsc_profile_digest description;
       gi_compatibility_digest := compatibility_digest |} in
  let! client := look (λ s, w_harness (ws_world s)) in
  let! recorded := attempt (record_plugin_generation
    (new_generation client generation_id compatibility_digest description)) in
  match recorded with
  | inr error =>
      let! _ := attempt (harness id wh_shutdown) in
      throw (Fatal (OperationalEvidence "plugin generation start" error))
  | inl _ =>
  act (set_sessions ∅) ;!
  let! exit := attempt (drive_generation fuel generation max_settled_turns) in
  match exit with
  | inl never => match never with end
  | inr (GenerationPanicked reason) => throw (GenerationPanicked reason)
  | inr GenerationOutOfFuel => throw GenerationOutOfFuel
  | inr exit => stop_generation generation_id exit
  end
  end
  end
  end
  end.

(** ** The run *)

Definition run_step (fuel : nat) (max_settled_turns : option Z) : worker_action RunEnd unit :=
  let! stop := is_cancelled in
  let! report := look ws_report in
  if stop || limit_reached report max_settled_turns then throw (RunFinished report) else
  let! exit := attempt (run_generation fuel max_settled_turns) in
  let! report := look ws_report in
  match exit with
  | inr Stopped => throw (RunFinished report)
  | inr (Fatal error) => throw (RunFailed error)
  | inr (Restart _) =>
      let! stop := is_cancelled in
      if stop || limit_reached report max_settled_turns then throw (RunFinished report) else
      count_report count_restart ;!
      let! stop := wait_or_cancel in
      let! report := look ws_report in
      if stop then throw (RunFinished report) else done_with tt
  | inr (GenerationPanicked reason) => throw (RunPanicked reason)
  | inr GenerationOutOfFuel => throw RunOutOfFuel
  | inl never => match never with end
  end.
Fixpoint run_loop (fuel inner_fuel : nat) (max_settled_turns : option Z)
    : worker_action RunEnd Empty_set :=
  match fuel with
  | O => throw RunOutOfFuel
  | S fuel => run_step inner_fuel max_settled_turns ;! run_loop fuel inner_fuel max_settled_turns
  end.
Definition run_until (fuel inner_fuel : nat) (max_settled_turns : option Z)
    : worker_action RunEnd Empty_set :=
  if max_settled_turns ==? Some 0 then
    throw (RunFailed (InvalidConfig "maximum settled turns must be greater than zero"))
  else
    act (set_report zero_report) ;! run_loop fuel inner_fuel max_settled_turns.
(** [run(cancellation)] *)
Definition run_forever (fuel inner_fuel : nat) : worker_action RunEnd Empty_set :=
  run_until fuel inner_fuel None.
End worker.

(** [ContinuousHarnessWorker::new] *)
Definition new_worker `{J : SerdeJson} (is_dir : string → bool) (config : ContinuousWorkerConfig)
    : ContinuousWorkerConfig + ContinuousWorkerError :=
  match validate_config is_dir config with inl _ => inl config | inr error => inr error end.

(** The typed client over a supervised process. *)
#[export] Instance worker_client `{J : SerdeJson} {C : Type} `{!PluginOs C}
    `{!PluginProcess (Supervised * C)}
    : WorkerHarness (P := Supervised * C) (H := HarnessAcpClient (Supervised * C)) := {|
  into_harness_acp process :=
    new_client (map (λ interface, (if_id interface, if_version interface))
                  (mf_interfaces (sp_manifest process.1))) process;
  wh_manifest client := sp_manifest (hc_process client).1;
  wh_process_id client := os_id (hc_process client).2;
  wh_open_session := open_session;
  wh_close_session := close_session;
  wh_shutdown client :=
    let (child, r) := shutdown (hc_process client).1 (hc_process client).2 in
    ({| hc_process := ((hc_process client).1, child); hc_active_turn := hc_active_turn client |}, r);
|}.
