(* ===== verification/Rpc.v ===== *)
(** * The JSON-RPC peer of a plugin (crates/plugin-host/src/rpc.rs)

    Calls of concurrent tasks share one connection: each draws an identifier,
    registers a one-shot channel under it, writes its frame and waits until a
    deadline, while one reader task routes the frames of the plugin.  What a task
    does under the lock of the shared state is one step here; the steps interleave
    in any order ([rpc_step]).  Writing a frame is I/O: what is modelled of it is
    that it may fail. *)

From stdpp Require Import gmap.
From S2P Require Import Prelude Action Proto HarnessClient.

Section rpc.
Context `{J : SerdeJson} {JT : JsonTree}.

(** [Value::is_object], [as_u64], [as_i64], and the text of a parse error. *)
Class JsonRead := {
  json_is_object : Value → bool;
  json_as_u64 : Value → option Z;
  json_as_i64 : Value → option Z;
  json_error_text : string → string;
}.
Context {JR : JsonRead}.

Definition MAX_FRAME_LENGTH : Z := 1048576.
Definition NOTIFICATION_BUFFER : nat := 256.
Definition u64_modulus : Z := u64_max + 1.

Inductive ReplyError :=
| RemoteError (code : Z) (message : string) (data : option Value)
| ProtocolError (reason : string).
Definition Reply : Type := Value + ReplyError.

(** ** Frames of the plugin *)

Inductive Frame :=
| NotificationFrame (notification : PluginNotification)
| ResponseFrame (id : Z) (reply : Reply).

Definition contains_key (key : string) (object : Value) : bool :=
  match json_get key object with Some _ => true | None => false end.
Definition or_reason {A} (o : option A) (reason : string) : A + string :=
  match o with Some a => inl a | None => inr reason end.
Definition then_ {A B E} (r : A + E) (k : A → B + E) : B + E :=
  match r with inl a => k a | inr e => inr e end.

Definition parse_remote_error (value : Value) : ReplyError + string :=
  if negb (json_is_object value) then inr "plugin JSON-RPC error is not an object" else
  then_ (or_reason (c ← json_get "code" value; json_as_i64 c) "plugin JSON-RPC error code is invalid")
    (λ code,
  then_ (or_reason (m ← json_get "message" value; json_as_str m)
           "plugin JSON-RPC error message is invalid") (λ message,
  inl (RemoteError code message (json_get "data" value)))).

(** The part of [handle_frame] that only reads the frame. *)
Definition parse_notification (value method : Value) : Frame + string :=
  if contains_key "id" value then
    inr "plugin-initiated requests are unsupported in lifecycle v1"
  else
  then_ (or_reason (json_as_str method) "plugin notification method is not a string") (λ name,
  inl (NotificationFrame {| pn_method := name;
                            pn_params := coalesce (json_get "params" value) json_null |})).
Definition parse_response (value : Value) : Frame + string :=
  then_ (or_reason (i ← json_get "id" value; json_as_u64 i)
           "plugin response has an invalid request id") (λ id,
  let has_result := contains_key "result" value in
  let has_error := contains_key "error" value in
  if eqb has_result has_error then
    inr "plugin response must contain exactly one result or error"
  else if has_result then
    inl (ResponseFrame id (inl (coalesce (json_get "result" value) json_null)))
  else
  then_ (or_reason (json_get "error" value) "plugin response error is missing") (λ error,
  then_ (parse_remote_error error) (λ error, inl (ResponseFrame id (inr error))))).
Definition parse_frame (frame : string) : Frame + string :=
  match from_json frame with
  | None => inr ("plugin emitted malformed JSON: " +:+ json_error_text frame)
  | Some value =>
  if negb (json_is_object value) then inr "plugin JSON-RPC frame is not an object" else
  if (v ← json_get "jsonrpc" value; json_as_str v) !=? Some "2.0" then
    inr "plugin frame has an unsupported JSON-RPC version"
  else
  match json_get "method" value with
  | Some method => parse_notification value method
  | None => parse_response value
  end
  end.

(** ** The shared state *)

(** Calls are numbered in the order they draw identifiers; [rp_issued] counts them
    and [rp_pending] maps an identifier to the call whose sender is registered.
    [rp_replies] is what was sent on the channel of a call, [rp_closed] the calls
    whose sender was dropped.  [rp_registered], [rp_frames] and [rp_delivered]
    record what happened: the calls that registered, the frames that were routed
    and the notifications that were received. *)
Record RpcPeer := {
  rp_issued : nat;
  rp_pending : gmap Z nat;
  rp_failure : option string;
  rp_replies : gmap nat Reply;
  rp_closed : gset nat;
  rp_notifications : list PluginNotification;
  rp_reading : bool;
  rp_registered : gset nat;
  rp_frames : list Frame;
  rp_delivered : list PluginNotification;
}.
Definition new_peer : RpcPeer :=
  {| rp_issued := 0; rp_pending := ∅; rp_failure := None; rp_replies := ∅; rp_closed := ∅;
     rp_notifications := []; rp_reading := true; rp_registered := ∅; rp_frames := [];
     rp_delivered := [] |}.

(** [next_id.fetch_add(1)], from 1, wrapping. *)
Definition call_id (call : nat) : Z := (1 + Z.of_nat call) `mod` u64_modulus.
Definition draw_id (p : RpcPeer) : RpcPeer :=
  {| rp_issued := S (rp_issued p); rp_pending := rp_pending p; rp_failure := rp_failure p;
     rp_replies := rp_replies p; rp_closed := rp_closed p;
     rp_notifications := rp_notifications p; rp_reading := rp_reading p;
     rp_registered := rp_registered p; rp_frames := rp_frames p;
     rp_delivered := rp_delivered p |}.

(** What [call] checks between drawing the identifier and the lock. *)
Definition request (id : Z) (method : string) (params : Value) : Value :=
  json_object [("jsonrpc", json_string "2.0"); ("id", json_number id);
               ("method", json_string method); ("params", params)].
Definition encode_request (id : Z) (method : string) (params : Value) : string + PluginError :=
  if id ==? u64_max then inr (Protocol "JSON-RPC request identifier space exhausted") else
  match to_json (request id method params) with
  | None => inr Json
  | Some frame =>
      if MAX_FRAME_LENGTH <? str_len frame then
        inr (Protocol ("outbound JSON-RPC frame exceeds " +:+ pretty MAX_FRAME_LENGTH
                       +:+ " bytes"))
      else inl frame
  end.

(** The registration under the lock.  A sender that was registered under the same
    identifier is dropped. *)
Definition register (call : nat) (p : RpcPeer) : RpcPeer * (unit + PluginError) :=
  match rp_failure p with
  | Some failure => (p, inr (Protocol failure))
  | None =>
      ({| rp_issued := rp_issued p;
          rp_pending := <[call_id call := call]> (rp_pending p);
          rp_failure := None; rp_replies := rp_replies p;
          rp_closed := match rp_pending p !! call_id call with
                       | Some other => {[other]} ∪ rp_closed p
                       | None => rp_closed p
                       end;
          rp_notifications := rp_notifications p; rp_reading := rp_reading p;
          rp_registered := {[call]} ∪ rp_registered p; rp_frames := rp_frames p;
          rp_delivered := rp_delivered p |}, inl tt)
  end.

(** [fail_all]: every pending call is sent the failure. *)
Definition fail_all (message : string) (p : RpcPeer) : RpcPeer :=
  {| rp_issued := rp_issued p; rp_pending := ∅; rp_failure := Some message;
     rp_replies :=
       map_fold (λ _ call replies, <[call := inr (ProtocolError message)]> replies)
         (rp_replies p) (rp_pending p);
     rp_closed := rp_closed p; rp_notifications := rp_notifications p;
     rp_reading := rp_reading p; rp_registered := rp_registered p; rp_frames := rp_frames p;
     rp_delivered := rp_delivered p |}.

(** What [handle_frame] does with a frame it could read. *)
Definition notify_frame (notification : PluginNotification) (p : RpcPeer) : RpcPeer + string :=
  if (NOTIFICATION_BUFFER <=? length (rp_notifications p))%nat then
    inr "plugin notification buffer exhausted"
  else
    inl {| rp_issued := rp_issued p; rp_pending := rp_pending p; rp_failure := rp_failure p;
           rp_replies := rp_replies p; rp_closed := rp_closed p;
           rp_notifications := rp_notifications p ++ [notification]; rp_reading := rp_reading p;
           rp_registered := rp_registered p;
           rp_frames := rp_frames p ++ [NotificationFrame notification];
           rp_delivered := rp_delivered p |}.
Definition answer_frame (id : Z) (reply : Reply) (p : RpcPeer) : RpcPeer + string :=
  match rp_pending p !! id with
  | None => inr ("plugin responded with unknown request id " +:+ pretty id)
  | Some call =>
      inl {| rp_issued := rp_issued p; rp_pending := delete id (rp_pending p);
             rp_failure := rp_failure p; rp_replies := <[call := reply]> (rp_replies p);
             rp_closed := rp_closed p; rp_notifications := rp_notifications p;
             rp_reading := rp_reading p; rp_registered := rp_registered p;
             rp_frames := rp_frames p ++ [ResponseFrame id reply];
             rp_delivered := rp_delivered p |}
  end.
Definition handle_frame (frame : string) (p : RpcPeer) : RpcPeer + string :=
  then_ (parse_frame frame) (λ frame,
  match frame with
  | NotificationFrame notification => notify_frame notification p
  | ResponseFrame id reply => answer_frame id reply p
  end).
Definition stop_reading (p : RpcPeer) : RpcPeer :=
  {| rp_issued := rp_issued p; rp_pending := rp_pending p; rp_failure := rp_failure p;
     rp_replies := rp_replies p; rp_closed := rp_closed p;
     rp_notifications := rp_notifications p; rp_reading := false;
     rp_registered := rp_registered p; rp_frames := rp_frames p;
     rp_delivered := rp_delivered p |}.

(** One pass of [read_responses]: a line, a line the codec refuses, or the end. *)
Inductive Line := Text (frame : string) | BadLine (error : string) | EndOfStream.
Definition read_line (line : Line) (p : RpcPeer) : RpcPeer :=
  match line with
  | Text frame =>
      match handle_frame frame p with
      | inl p => p
      | inr error => stop_reading (fail_all error p)
      end
  | BadLine error => stop_reading (fail_all ("invalid plugin frame: " +:+ error) p)
  | EndOfStream => stop_reading (fail_all "plugin stdout closed" p)
  end.

(** How an exchange ends that is not answered: the write or the channel failed, or
    the deadline passed.  Both fail the whole peer. *)
Definition exchange_failed (method error_text : string) (p : RpcPeer) : RpcPeer :=
  fail_all ("plugin transport failed during " +:+ method +:+ ": " +:+ error_text) p.
Definition exchange_expired (method : string) (p : RpcPeer) : RpcPeer :=
  fail_all ("plugin call " +:+ method +:+ " exceeded its deadline") p.

(** What a call makes of the reply on its channel.  [from_value] is the decoder of
    its result type; [PluginError] does not carry the data of a remote error. *)
Definition call_result {R} (from_value : Value → option R) (method : string) (reply : Reply)
    : R + PluginError :=
  match reply with
  | inl value => match from_value value with Some r => inl r | None => inr Json end
  | inr (RemoteError code message _) => inr (Remote method code message)
  | inr (ProtocolError message) => inr (Protocol message)
  end.

Definition take_notification (p : RpcPeer) : option PluginNotification * RpcPeer :=
  match rp_notifications p with
  | [] => (None, p)
  | notification :: notifications =>
      (Some notification,
       {| rp_issued := rp_issued p; rp_pending := rp_pending p; rp_failure := rp_failure p;
          rp_replies := rp_replies p; rp_closed := rp_closed p;
          rp_notifications := notifications; rp_reading := rp_reading p;
          rp_registered := rp_registered p; rp_frames := rp_frames p;
          rp_delivered := rp_delivered p ++ [notification] |})
  end.
(** [next_notification]: [None] while it waits. *)
Definition next_notification (p : RpcPeer)
    : RpcPeer * option (PluginNotification + PluginError) :=
  match take_notification p with
  | (Some notification, p) => (p, Some (inl notification))
  | (None, p) =>
      if rp_reading p then (p, None)
      else (p, Some (inr (Protocol (coalesce (rp_failure p) "plugin notification stream closed"))))
  end.

(** ** Interleavings *)

Inductive rpc_step : RpcPeer → RpcPeer → Prop :=
| step_draw p : rpc_step p (draw_id p)
| step_register p call :
    (call < rp_issued p)%nat → call ∉ rp_registered p → call_id call ≠ u64_max →
    rpc_step p (register call p).1
| step_line p line : rp_reading p = true → rpc_step p (read_line line p)
| step_failed p call method error_text :
    call ∈ rp_registered p → rpc_step p (exchange_failed method error_text p)
| step_expired p call method :
    call ∈ rp_registered p → rpc_step p (exchange_expired method p)
| step_next p : rpc_step p (next_notification p).1.
Definition rpc_run : RpcPeer → RpcPeer → Prop := rtc rpc_step.
Definition live_peer (p : RpcPeer) : Prop := rpc_run new_peer p.
End rpc.
