(* ===== verification/Sandbox.v ===== *)
(** * Sandbox profiles (crates/plugin-host/src/sandbox.rs)

    The profile a plugin process is wrapped in, built from the roots the operator
    declared.  The file system ([Path::is_file], [is_dir], [canonicalize]), the
    platform and the JSON quoting of a path are parameters.  A canonical path is
    the list of its components, which is what the order of [PathBuf] compares. *)

From S2P Require Import Prelude Action Proto Schema Sessions HarnessClient Supervisor.

Inductive SandboxNetwork := DenyNetwork | AllowOutbound.
#[global] Instance SandboxNetwork_eq_dec : EqDecision SandboxNetwork.
Proof. solve_decision. Defined.

(** ** Paths *)

Definition path : Type := list string.
Definition path_text (p : path) : string :=
  match p with [] => "/" | _ => foldr (λ c rest, "/" +:+ c +:+ rest) "" p end.
Fixpoint path_leb (p q : path) : bool :=
  match p, q with
  | [], _ => true
  | _ :: _, [] => false
  | a :: p, b :: q => if a ==? b then path_leb p q else String.leb a b
  end.
(** [BTreeSet::insert] *)
Definition set_insert (p : path) (l : list path) : list path :=
  if bool_decide (p ∈ l) then l else sort_insert path_leb p l.
(** [ancestors().skip(1)], short of the root *)
Definition proper_ancestors (p : path) : list path :=
  reverse (map (λ n, take n p) (seq 1 (length p - 1))).

(** ** The text of a profile *)

Definition eol : string := String (Ascii.ascii_of_nat 10) "".
Definition dq : string := String (Ascii.ascii_of_nat 34) "".
Definition quoted (s : string) : string := dq +:+ s +:+ dq.
Definition line (s : string) : string := s +:+ eol.
Definition strict_base : string :=
  line "(version 1)" +:+ line "(deny default)" +:+ line "(allow process*)"
  +:+ line "(allow signal (target same-sandbox))" +:+ line "(allow sysctl-read)"
  +:+ line "(allow mach-lookup)" +:+ line "(allow ipc-posix*)" +:+ line "(allow file-read-metadata)"
  +:+ line ("(allow file-write* (literal " +:+ quoted "/dev/null" +:+ "))")
  +:+ line "(allow file-read*" +:+ line ("(literal " +:+ quoted "/" +:+ ")")
  +:+ line ("(subpath " +:+ quoted "/System" +:+ ")")
  +:+ line ("(subpath " +:+ quoted "/Library" +:+ ")")
  +:+ line ("(subpath " +:+ quoted "/usr" +:+ ")") +:+ line ("(subpath " +:+ quoted "/bin" +:+ ")")
  +:+ line ("(subpath " +:+ quoted "/sbin" +:+ ")") +:+ line ("(subpath " +:+ quoted "/dev" +:+ ")")
  +:+ line ("(subpath " +:+ quoted "/private/etc" +:+ "))").
Definition write_scoped_base : string :=
  line "(version 1)" +:+ line "(allow default)" +:+ line "(deny file-write*)"
  +:+ line ("(allow file-write* (literal " +:+ quoted "/dev/null" +:+ "))").

Section sandbox.
Context (sha256_hex : string → string) (macos : bool).
Context (is_file is_dir : string → bool) (canonicalize : string → path + string).
(** [to_str] and [serde_json::to_string] *)
Context (json_quote : string → string + string).

Definition seatbelt_string (p : path) : string + string := json_quote (path_text p).

Fixpoint canonical_directories (label : string) (canonical : list path) (roots : list string)
    : list path + string :=
  match roots with
  | [] => inl canonical
  | root :: roots =>
      if negb (is_absolute root) || negb (is_dir root) then
        inr ("sandbox " +:+ label +:+ " root must be an existing absolute directory: " +:+ root)
      else
      match canonicalize root with
      | inr error =>
          inr ("sandbox " +:+ label +:+ " root could not be canonicalized (" +:+ root +:+ "): "
               +:+ error)
      | inl [] => inr ("sandbox " +:+ label +:+ " root must not be the filesystem root")
      | inl p => canonical_directories label (set_insert p canonical) roots
      end
  end.

(** One loop of pushes onto the profile. *)
Fixpoint push_rules (before : string) (paths : list path) (profile : string) : string + string :=
  match paths with
  | [] => inl profile
  | p :: paths =>
      match seatbelt_string p with
      | inl text => push_rules before paths (profile +:+ before +:+ text +:+ line "))")
      | inr error => inr error
      end
  end.
Definition READ_LITERAL : string := "(allow file-read* (literal ".
Definition READ_SUBPATH : string := "(allow file-read* (subpath ".
Definition WRITE_SUBPATH : string := "(allow file-write* (subpath ".

Definition ancestors_of (roots : list path) : list path :=
  foldl (λ found root, foldl (λ found p, set_insert p found) found (proper_ancestors root)) [] roots.
Definition seatbelt_profile (writable_roots read_only_roots : list path) (network : SandboxNetwork)
    : string + string :=
  match push_rules READ_LITERAL (ancestors_of (writable_roots ++ read_only_roots)) strict_base with
  | inr error => inr error
  | inl profile =>
  match push_rules READ_SUBPATH (writable_roots ++ read_only_roots) profile with
  | inr error => inr error
  | inl profile =>
  match push_rules WRITE_SUBPATH writable_roots profile with
  | inr error => inr error
  | inl profile =>
      inl (if network ==? AllowOutbound then profile +:+ line "(allow network-outbound)" else profile)
  end
  end
  end.
Definition write_scoped_profile (writable_roots : list path) : string + string :=
  push_rules WRITE_SUBPATH writable_roots write_scoped_base.

(** ** The constructors *)

Definition nul_byte : string := String (Ascii.ascii_of_nat 0) "".
(** What both constructors check first. *)
Definition available : unit + string :=
  reject (negb macos) "macOS Seatbelt sandbox requested on a non-macOS host" ;:
  reject (negb (is_file MACOS_SANDBOX_EXEC))
    ("macOS Seatbelt launcher is unavailable: " +:+ MACOS_SANDBOX_EXEC).
Definition new_sandbox (writable_roots read_only_roots : list string) (network : SandboxNetwork)
    : MacOsSeatbeltSandbox + string :=
  match available with
  | inr error => inr error
  | inl _ =>
  match canonical_directories "writable" [] writable_roots with
  | inr error => inr error
  | inl [] => inr "sandbox requires at least one writable root"
  | inl writable_roots =>
  match canonical_directories "read-only" [] read_only_roots with
  | inr error => inr error
  | inl read_only_roots =>
  match seatbelt_profile writable_roots read_only_roots network with
  | inr error => inr error
  | inl profile =>
      inl {| sbx_posture := Strict; sbx_profile := profile;
             sbx_profile_digest :=
               "sha256:" +:+ sha256_hex ("fleetd-macos-seatbelt-v3" +:+ nul_byte +:+ profile) |}
  end
  end
  end
  end.
Definition write_scoped (writable_roots : list string) : MacOsSeatbeltSandbox + string :=
  match available with
  | inr error => inr error
  | inl _ =>
  match canonical_directories "writable" [] writable_roots with
  | inr error => inr error
  | inl [] => inr "sandbox requires at least one writable root"
  | inl writable_roots =>
  match write_scoped_profile writable_roots with
  | inr error => inr error
  | inl profile =>
      inl {| sbx_posture := WriteScoped; sbx_profile := profile;
             sbx_profile_digest :=
               "sha256:" +:+ sha256_hex ("fleetd-macos-seatbelt-write-scoped-v1" +:+ nul_byte
                                         +:+ profile) |}
  end
  end
  end.
End sandbox.
