(* ===== verification/Egress.v ===== *)
(** * The egress contract of a seat (crates/otlp/src/config.rs)

    What an operator may write about trajectory egress and what the exporter is
    handed once it was checked.  The headers file is an argument: its mode and
    contents, or the text of the error that reading them gave. *)

From stdpp Require Import gmap.
From S2P Require Import Prelude Action Proto Schema Auth Observations Sessions HarnessClient.
From S2P Require Import Supervisor.

(** ** Strings *)

(** [split_once] and [rsplit_once] at one character *)
Fixpoint split_once (c : Ascii.ascii) (s : string) : option (string * string) :=
  match s with
  | EmptyString => None
  | String a s =>
      if a ==? c then Some ("", s)
      else '(before, after) ← split_once c s; Some (String a before, after)
  end.
Fixpoint rsplit_once (c : Ascii.ascii) (s : string) : option (string * string) :=
  match s with
  | EmptyString => None
  | String a s =>
      match rsplit_once c s with
      | Some (before, after) => Some (String a before, after)
      | None => if a ==? c then Some ("", s) else None
      end
  end.
Fixpoint contains_char (c : Ascii.ascii) (s : string) : bool :=
  match s with EmptyString => false | String a s => (a ==? c) || contains_char c s end.
(** [split_once("://")] *)
Fixpoint split_scheme (s : string) : option (string * string) :=
  match strip_prefix "://" s with
  | Some rest => Some ("", rest)
  | None =>
      match s with
      | EmptyString => None
      | String a s => '(before, after) ← split_scheme s; Some (String a before, after)
      end
  end.
(** [split('\n')], the lines of [lines()] before [trim] *)
Fixpoint split_lines (s : string) : list string :=
  match s with
  | EmptyString => [""]
  | String a s =>
      if a ==? Ascii.ascii_of_nat 10 then "" :: split_lines s
      else match split_lines s with
           | line :: lines => String a line :: lines
           | [] => [String a ""]
           end
  end.
(** [trim] *)
Fixpoint trim_start (s : string) : string :=
  match s with
  | EmptyString => ""
  | String a s1 =>
      if is_ws1 a then trim_start s1 else
      match s1 with
      | EmptyString => s
      | String b s2 =>
          if is_ws2 a b then trim_start s2 else
          match s2 with
          | EmptyString => s
          | String c s3 => if is_ws3 a b c then trim_start s3 else s
          end
      end
  end.
Fixpoint trim_end (s : string) : string :=
  if is_blank s then "" else
  match s with EmptyString => "" | String a s => String a (trim_end s) end.
Definition trim (s : string) : string := trim_end (trim_start s).

Definition COLON : Ascii.ascii := Ascii.ascii_of_nat 58.
Definition SLASH : Ascii.ascii := Ascii.ascii_of_nat 47.
Definition AT_SIGN : Ascii.ascii := Ascii.ascii_of_nat 64.
Definition QUESTION : Ascii.ascii := Ascii.ascii_of_nat 63.
Definition HASH : Ascii.ascii := Ascii.ascii_of_nat 35.

(** ** The contract *)

Definition EGRESS_SCHEMA_VERSION : Z := 1.
Definition MAX_ATTRIBUTE_BYTES : Z := 65536.
Definition MAX_QUEUE_CAPACITY : Z := 65536.
Definition MAX_EXPORT_TIMEOUT_MS : Z := 30000.
Definition MAX_FLUSH_MS : Z := 30000.
Definition MAX_RESOURCE_ATTRIBUTES : nat := 32.
Definition MAX_RESOURCE_BYTES : Z := 256.
Definition RESERVED_RESOURCE_KEYS : list string := ["service.name"; "fleetd.agent_id"].

Inductive ContentLevel := ContentNone | ContentMetadata | ContentFull.
Definition content_as_str (level : ContentLevel) : string :=
  match level with ContentNone => "none" | ContentMetadata => "metadata" | ContentFull => "full" end.
Definition content_parse (value : string) : option ContentLevel :=
  List.find (λ level, content_as_str level ==? value) [ContentNone; ContentMetadata; ContentFull].

(** [EventClass::ALL] and [as_str] *)
Definition all_classes : list EventClass.t :=
  [EventClass.Prompt; EventClass.Assistant; EventClass.Reasoning; EventClass.Tool; EventClass.Plan;
   EventClass.Usage; EventClass.Metadata; EventClass.Permission; EventClass.Unknown].
Definition class_as_str (class : EventClass.t) : string :=
  match class with
  | EventClass.Prompt => "prompt"
  | EventClass.Assistant => "assistant"
  | EventClass.Reasoning => "reasoning"
  | EventClass.Tool => "tool"
  | EventClass.Plan => "plan"
  | EventClass.Usage => "usage"
  | EventClass.Metadata => "metadata"
  | EventClass.Permission => "permission"
  | EventClass.Unknown => "unknown"
  end.

(** A [BTreeMap] is a finite map, walked in the order of its keys; a [BTreeSet]
    the list of its members in order. *)
Record EgressConfig := {
  eg_endpoint : string;
  eg_headers : gmap string string;
  eg_content : ContentLevel;
  eg_classifications : list string;
  eg_resource_attributes : gmap string string;
  eg_max_attribute_bytes : Z;
  eg_queue_capacity : Z;
  eg_export_timeout : Duration;
  eg_shutdown_flush : Duration;
  eg_agent_id : string;
}.
Record EgressRequest := {
  er_schema_version : Z;
  er_kind : string;
  er_endpoint : string;
  er_headers_file : option string;
  er_content : option string;
  er_classifications : option (list string);
  er_resource_attributes : gmap string string;
  er_max_attribute_bytes : option Z;
  er_queue_capacity : option Z;
  er_export_timeout_ms : option Z;
  er_shutdown_flush_ms : option Z;
  er_agent_id : string;
}.

Definition is_loopback (host : string) : bool :=
  (host ==? "127.0.0.1") || (host ==? "localhost") || (host ==? "[::1]").
Definition authority_of (rest : string) : string :=
  match split_once SLASH rest with Some (authority, _) => authority | None => rest end.
Definition host_of (authority : string) : string :=
  match rsplit_once COLON authority with Some (host, _) => host | None => authority end.
Definition validate_endpoint (endpoint : string) : unit + string :=
  match split_scheme endpoint with
  | None => inr "egress endpoint must be an absolute http or https URL"
  | Some (scheme, rest) =>
      reject ((scheme !=? "http") && (scheme !=? "https"))
        ("unsupported egress endpoint scheme `" +:+ scheme +:+ "`") ;:
      reject (contains_char AT_SIGN rest) "egress endpoint must not embed credentials" ;:
      reject (contains_char QUESTION rest || contains_char HASH rest)
        "egress endpoint must not carry a query or fragment" ;:
      let authority := authority_of rest in
      reject (authority ==? "") "egress endpoint must name a host" ;:
      let host := host_of authority in
      reject (negb (is_loopback host) && (scheme !=? "https"))
        ("egress endpoint host `" +:+ host +:+ "` is not loopback, so its scheme must be https")
  end.

Definition header_line (line : string) (number : Z) (headers : gmap string string)
    : gmap string string + string :=
  let line := trim line in
  if (line ==? "") || match line with String c _ => c ==? HASH | EmptyString => false end then
    inl headers
  else
  match split_once COLON line with
  | None => inr ("egress headers_file line " +:+ pretty number +:+ " is not `Name: value`")
  | Some (name, value) =>
      let name := trim name in
      if name ==? "" then
        inr ("egress headers_file line " +:+ pretty number +:+ " has an empty header name")
      else
      match headers !! name with
      | Some _ => inr ("egress headers_file repeats header `" +:+ name +:+ "`")
      | None => inl (<[name := trim value]> headers)
      end
  end.
Fixpoint header_lines (lines : list string) (number : Z) (headers : gmap string string)
    : gmap string string + string :=
  match lines with
  | [] => inl headers
  | line :: lines =>
      match header_line line number headers with
      | inl headers => header_lines lines (number + 1) headers
      | inr error => inr error
      end
  end.

(** [{mode:04o}] for a mode of at most nine bits *)
Definition octal (mode : Z) : string :=
  "0" +:+ pretty (mode / 64) +:+ pretty (mode / 8 mod 8) +:+ pretty (mode mod 8).
Section contract.
(** What the file system gives for a headers file: the permission bits, then the
    text, each or its error. *)
Context (file_mode : string → Z + string) (file_text : string → string + string).

Definition read_headers_file (path : string) : gmap string string + string :=
  if negb (is_absolute path) then inr "egress headers_file must be an absolute path" else
  match file_mode path with
  | inr error => inr ("egress headers_file is unreadable: " +:+ error)
  | inl permissions =>
  let mode := Z.land permissions 511 in
  if Z.land mode 63 !=? 0 then
    inr ("egress headers_file mode is " +:+ octal mode
         +:+ "; it carries a collector credential and must be owner-only")
  else
  match file_text path with
  | inr error => inr ("egress headers_file is unreadable: " +:+ error)
  | inl contents => header_lines (split_lines contents) 1 ∅
  end
  end.

Fixpoint select_classes (selected names : list string) : list string + string :=
  match names with
  | [] => inl selected
  | name :: names =>
      match List.find (λ class, class_as_str class ==? name) all_classes with
      | None => inr ("unknown egress classification `" +:+ name +:+ "`")
      | Some class =>
          if bool_decide (class_as_str class ∈ selected) then
            inr ("duplicate egress classification `" +:+ name +:+ "`")
          else select_classes (sort_insert String.leb (class_as_str class) selected) names
      end
  end.
Definition validate_classifications (names : list string) : list string + string :=
  match names with
  | [] => inr "egress classifications must not be empty; omit the field for all"
  | _ => select_classes [] names
  end.
Definition every_class : list string := sort_by String.leb (map class_as_str all_classes).

Fixpoint validate_attributes (attributes : list (string * string)) : unit + string :=
  match attributes with
  | [] => inl tt
  | (key, value) :: attributes =>
      reject (is_blank key) "egress resource_attributes contains an empty key" ;:
      reject ((MAX_RESOURCE_BYTES <? str_len key) || (MAX_RESOURCE_BYTES <? str_len value))
        ("egress resource attribute `" +:+ key +:+ "` exceeds " +:+ pretty MAX_RESOURCE_BYTES
         +:+ " bytes") ;:
      reject (bool_decide (key ∈ RESERVED_RESOURCE_KEYS))
        ("egress resource attribute `" +:+ key
         +:+ "` is set by fleetd and cannot be overridden") ;:
      validate_attributes attributes
  end.
Definition validate_resource_attributes (attributes : gmap string string) : unit + string :=
  reject (MAX_RESOURCE_ATTRIBUTES <? size attributes)%nat
    ("egress resource_attributes exceeds " +:+ pretty (Z.of_nat MAX_RESOURCE_ATTRIBUTES)
     +:+ " entries") ;:
  validate_attributes (sort_by (by_str fst) (map_to_list attributes)).

(** [bounded_usize] and [bounded_u64] *)
Definition bounded_field (supplied : option Z) (default low high : Z) (name : string) : Z + string :=
  let value := coalesce supplied default in
  if value <? low then inr ("egress " +:+ name +:+ " must be at least " +:+ pretty low)
  else inl (Z.min value high).

(** [?] on a value *)
Definition got {A B} (r : A + string) (k : A → B + string) : B + string :=
  match r with inl a => k a | inr e => inr e end.
Definition validate_egress (request : EgressRequest) : EgressConfig + string :=
  got (reject (er_schema_version request !=? EGRESS_SCHEMA_VERSION)
         ("unsupported egress schema version " +:+ pretty (er_schema_version request)
          +:+ "; expected " +:+ pretty EGRESS_SCHEMA_VERSION)) (λ _,
  got (reject (er_kind request !=? "otlp_http")
         ("unsupported egress kind `" +:+ er_kind request +:+ "`; expected `otlp_http`")) (λ _,
  got (validate_endpoint (er_endpoint request)) (λ _,
  got (match er_headers_file request with
       | Some path => read_headers_file path
       | None => inl ∅
       end) (λ headers,
  got (match er_content request with
       | Some level =>
           match content_parse level with
           | Some content => inl content
           | None => inr ("unknown egress content level `" +:+ level +:+ "`")
           end
       | None => inl ContentMetadata
       end) (λ content,
  got (match er_classifications request with
       | Some names => validate_classifications names
       | None => inl every_class
       end) (λ classifications,
  got (validate_resource_attributes (er_resource_attributes request)) (λ _,
  got (bounded_field (er_max_attribute_bytes request) 4096 1 MAX_ATTRIBUTE_BYTES
         "max_attribute_bytes") (λ max_attribute_bytes,
  got (bounded_field (er_queue_capacity request) 1024 1 MAX_QUEUE_CAPACITY "queue_capacity")
    (λ queue_capacity,
  got (bounded_field (er_export_timeout_ms request) 5000 1 MAX_EXPORT_TIMEOUT_MS
         "export_timeout_ms") (λ export_timeout,
  got (bounded_field (er_shutdown_flush_ms request) 2000 0 MAX_FLUSH_MS "shutdown_flush_ms")
    (λ shutdown_flush,
  inl {| eg_endpoint := er_endpoint request; eg_headers := headers; eg_content := content;
         eg_classifications := classifications;
         eg_resource_attributes := er_resource_attributes request;
         eg_max_attribute_bytes := max_attribute_bytes; eg_queue_capacity := queue_capacity;
         eg_export_timeout := export_timeout * 1000000;
         eg_shutdown_flush := shutdown_flush * 1000000;
         eg_agent_id := er_agent_id request |}))))))))))).
End contract.
