(* ===== verification/WorkerFile.v ===== *)
(** * The desired-state file of a seat (src/cli/worker.rs)

    What an operator writes for one seat, the defaults of the fields left out, and
    how the file becomes the adapter, the plugin, the sandbox, the egress contract
    and the configuration the worker runs with.  Decoding the JSON shape is serde's
    and a parameter; the [serde(default)] attributes are the file's own and are
    modelled, so a source record has an option where the attribute stands. *)

From stdpp Require Import gmap.
From S2P Require Import Prelude Action Proto Schema Observations Sessions HarnessClient.
From S2P Require Import Grants Controller Supervisor Sandbox WorkerTurns Worker Egress.

(** ** Defaults *)

Definition default_worker_lease_ms : Z := 900000.
Definition default_poll_interval_ms : Z := 1000.
Definition default_restart_backoff_ms : Z := 5000.
Definition default_pre_arm_retry_delay_ms : Z := 5000.
Definition default_initialize_timeout_ms : Z := 10000.
Definition default_request_timeout_ms : Z := 30000.
Definition default_shutdown_timeout_ms : Z := 5000.
Definition default_idle_timeout_ms : Z := 120000.
Definition default_wall_timeout_ms : Z := 600000.
Definition default_cancel_drain_timeout_ms : Z := 15000.
Definition default_interrupt_on_new_message : bool := true.
Definition default_interrupt_poll_interval_ms : Z := 250.
Definition default_captured_output_bytes : Z := 512 * 1024.
Definition default_tool_budget : Z := 64.
Definition default_result_kind : string := "work.result/v1".

(** ** The sandbox block *)

Module WorkerSandboxPosture.
Inductive t := Strict | WriteScoped.
End WorkerSandboxPosture.
Module WorkerSandboxReadAccess.
Inductive t := DeclaredAndSystem | Unrestricted.
#[global] Instance eq_dec : EqDecision t.
Proof. solve_decision. Defined.
End WorkerSandboxReadAccess.
Module WorkerSandboxNetwork.
Inductive t := Deny | AllowOutbound | Unrestricted.
#[global] Instance eq_dec : EqDecision t.
Proof. solve_decision. Defined.
End WorkerSandboxNetwork.

(** The one variant of the enum, [MacosSeatbelt]. *)
Record WorkerSandboxConfig := {
  sb_posture : WorkerSandboxPosture.t;
  sb_read_access : WorkerSandboxReadAccess.t;
  sb_writable_directories : list string;
  sb_private_state_directory : option string;
  sb_private_temp_directory : option string;
  sb_read_only_directories : list string;
  sb_network : WorkerSandboxNetwork.t;
}.
Record WorkerSandboxSource := {
  ss_posture : option WorkerSandboxPosture.t;
  ss_read_access : option WorkerSandboxReadAccess.t;
  ss_writable_directories : option (list string);
  ss_private_state_directory : option string;
  ss_private_temp_directory : option string;
  ss_read_only_directories : option (list string);
  ss_network : option WorkerSandboxNetwork.t;
}.
Definition sandbox_of_source (source : WorkerSandboxSource) : WorkerSandboxConfig :=
  {| sb_posture := coalesce (ss_posture source) WorkerSandboxPosture.Strict;
     sb_read_access :=
       coalesce (ss_read_access source) WorkerSandboxReadAccess.DeclaredAndSystem;
     sb_writable_directories := coalesce (ss_writable_directories source) [];
     sb_private_state_directory := ss_private_state_directory source;
     sb_private_temp_directory := ss_private_temp_directory source;
     sb_read_only_directories := coalesce (ss_read_only_directories source) [];
     sb_network := coalesce (ss_network source) WorkerSandboxNetwork.Deny |}.

Section sandbox_block.
Context (sha256_hex : string → string) (macos : bool).
Context (is_file is_dir : string → bool) (canonicalize : string → path + string).
Context (json_quote : string → string + string).

Definition strict_seatbelt (writable_roots : list string)
    (read_access : WorkerSandboxReadAccess.t) (read_only_directories : list string)
    (has_private_state_directory has_private_temp_directory : bool)
    (network : WorkerSandboxNetwork.t) : MacOsSeatbeltSandbox + string :=
  if read_access !=? WorkerSandboxReadAccess.DeclaredAndSystem then
    inr "strict macOS Seatbelt posture requires read_access=declared_and_system" else
  if has_private_state_directory || has_private_temp_directory then
    inr "strict macOS Seatbelt posture does not accept write_scoped private state/temp fields" else
  let build network :=
    new_sandbox sha256_hex macos is_file is_dir canonicalize json_quote
      writable_roots read_only_directories network in
  match network with
  | WorkerSandboxNetwork.Deny => build DenyNetwork
  | WorkerSandboxNetwork.AllowOutbound => build AllowOutbound
  | WorkerSandboxNetwork.Unrestricted =>
      inr "strict macOS Seatbelt posture does not permit unrestricted network"
  end.
Definition write_scoped_seatbelt (writable_roots : list string)
    (read_access : WorkerSandboxReadAccess.t) (read_only_directories_empty : bool)
    (private_state_directory private_temp_directory : option string)
    (network : WorkerSandboxNetwork.t) : MacOsSeatbeltSandbox + string :=
  if read_access !=? WorkerSandboxReadAccess.Unrestricted then
    inr "write_scoped macOS Seatbelt posture requires read_access=unrestricted" else
  if network !=? WorkerSandboxNetwork.Unrestricted then
    inr "write_scoped macOS Seatbelt posture requires network=unrestricted" else
  if negb read_only_directories_empty then
    inr ("write_scoped macOS Seatbelt posture cannot declare read-only roots because reads are "
         +:+ "unrestricted") else
  match private_state_directory, private_temp_directory with
  | None, _ => inr "write_scoped macOS Seatbelt posture requires private_state_directory"
  | _, None => inr "write_scoped macOS Seatbelt posture requires private_temp_directory"
  | Some state, Some temp =>
      write_scoped sha256_hex macos is_file is_dir canonicalize json_quote
        (writable_roots ++ [state; temp])
  end.
Definition into_sandbox (config : WorkerSandboxConfig) (working_directory : string)
    (additional_directories : list string) : MacOsSeatbeltSandbox + string :=
  let writable_roots :=
    working_directory :: additional_directories ++ sb_writable_directories config in
  let sandbox :=
    match sb_posture config with
    | WorkerSandboxPosture.Strict =>
        strict_seatbelt writable_roots (sb_read_access config) (sb_read_only_directories config)
          (is_some (sb_private_state_directory config)) (is_some (sb_private_temp_directory config))
          (sb_network config)
    | WorkerSandboxPosture.WriteScoped =>
        write_scoped_seatbelt writable_roots (sb_read_access config)
          (bool_decide (sb_read_only_directories config = []))
          (sb_private_state_directory config) (sb_private_temp_directory config)
          (sb_network config)
    end in
  match sandbox with
  | inl sandbox => inl sandbox
  | inr error => inr ("worker sandbox configuration is invalid: " +:+ error)
  end.
End sandbox_block.

(** ** The file *)

Record InboundAcceptanceConfig := {
  iac_schema_version : Z; iac_message_kinds : list string }.
(** The one variant of [WorkerAdapterConfig], [Envelope], is its acceptance. *)
Record WorkerEgressConfig := {
  we_schema_version : Z;
  we_kind : string;
  we_endpoint : string;
  we_headers_file : option string;
  we_content : option string;
  we_classifications : option (list string);
  we_resource_attributes : gmap string string;
  we_max_attribute_bytes : option Z;
  we_queue_capacity : option Z;
  we_export_timeout_ms : option Z;
  we_shutdown_flush_ms : option Z;
}.
Record WorkerTurnConfig := {
  wt_idle_timeout_ms : Z;
  wt_wall_timeout_ms : Z;
  wt_cancel_drain_timeout_ms : Z;
  wt_interrupt_on_new_message : bool;
  wt_interrupt_poll_interval_ms : Z;
  wt_max_captured_output_bytes : Z;
  wt_tool_budget : Z;
  wt_permission_policy : PermissionPolicy;
}.
(** [WorkerTurnConfig::default] *)
Definition default_turn : WorkerTurnConfig :=
  {| wt_idle_timeout_ms := default_idle_timeout_ms;
     wt_wall_timeout_ms := default_wall_timeout_ms;
     wt_cancel_drain_timeout_ms := default_cancel_drain_timeout_ms;
     wt_interrupt_on_new_message := default_interrupt_on_new_message;
     wt_interrupt_poll_interval_ms := default_interrupt_poll_interval_ms;
     wt_max_captured_output_bytes := default_captured_output_bytes;
     wt_tool_budget := default_tool_budget;
     wt_permission_policy := Deny |}.
Record WorkerTurnSource := {
  ts_idle_timeout_ms : option Z;
  ts_wall_timeout_ms : option Z;
  ts_cancel_drain_timeout_ms : option Z;
  ts_interrupt_on_new_message : option bool;
  ts_interrupt_poll_interval_ms : option Z;
  ts_max_captured_output_bytes : option Z;
  ts_tool_budget : option Z;
  ts_permission_policy : option PermissionPolicy;
}.
Definition turn_of_source (source : WorkerTurnSource) : WorkerTurnConfig :=
  {| wt_idle_timeout_ms := coalesce (ts_idle_timeout_ms source) default_idle_timeout_ms;
     wt_wall_timeout_ms := coalesce (ts_wall_timeout_ms source) default_wall_timeout_ms;
     wt_cancel_drain_timeout_ms :=
       coalesce (ts_cancel_drain_timeout_ms source) default_cancel_drain_timeout_ms;
     wt_interrupt_on_new_message :=
       coalesce (ts_interrupt_on_new_message source) default_interrupt_on_new_message;
     wt_interrupt_poll_interval_ms :=
       coalesce (ts_interrupt_poll_interval_ms source) default_interrupt_poll_interval_ms;
     wt_max_captured_output_bytes :=
       coalesce (ts_max_captured_output_bytes source) default_captured_output_bytes;
     wt_tool_budget := coalesce (ts_tool_budget source) default_tool_budget;
     wt_permission_policy := coalesce (ts_permission_policy source) Deny |}.

Section file.
Context `{J : SerdeJson}.

Record WorkerPluginConfig := {
  wp_id : string;
  wp_executable : string;
  wp_args : list string;
  wp_config : Value;
  wp_initialize_timeout_ms : Z;
  wp_request_timeout_ms : Z;
  wp_shutdown_timeout_ms : Z;
}.
Record WorkerPluginSource := {
  psrc_id : string;
  psrc_executable : string;
  psrc_args : option (list string);
  psrc_config : option Value;
  psrc_initialize_timeout_ms : option Z;
  psrc_request_timeout_ms : option Z;
  psrc_shutdown_timeout_ms : option Z;
}.
Definition plugin_of_source (source : WorkerPluginSource) : WorkerPluginConfig :=
  {| wp_id := psrc_id source;
     wp_executable := psrc_executable source;
     wp_args := coalesce (psrc_args source) [];
     wp_config := coalesce (psrc_config source) empty_object;
     wp_initialize_timeout_ms :=
       coalesce (psrc_initialize_timeout_ms source) default_initialize_timeout_ms;
     wp_request_timeout_ms := coalesce (psrc_request_timeout_ms source) default_request_timeout_ms;
     wp_shutdown_timeout_ms :=
       coalesce (psrc_shutdown_timeout_ms source) default_shutdown_timeout_ms |}.

Record WorkerFileConfig := {
  wf_schema_version : Z;
  wf_agent_id : string;
  wf_working_directory : string;
  wf_additional_directories : list string;
  wf_mcp_grants : list string;
  wf_compatibility_digest : option string;
  wf_sandbox : option WorkerSandboxConfig;
  wf_instructions : string;
  wf_plugin : WorkerPluginConfig;
  wf_adapter : InboundAcceptanceConfig;
  wf_result_kind : string;
  wf_lease_duration_ms : Z;
  wf_poll_interval_ms : Z;
  wf_restart_backoff_ms : Z;
  wf_pre_arm_retry_delay_ms : Z;
  wf_turn : WorkerTurnConfig;
  wf_egress : option WorkerEgressConfig;
}.
Record WorkerFileSource := {
  fs_schema_version : Z;
  fs_agent_id : string;
  fs_working_directory : string;
  fs_additional_directories : option (list string);
  fs_mcp_grants : option (list string);
  fs_compatibility_digest : option string;
  fs_sandbox : option WorkerSandboxSource;
  fs_instructions : option string;
  fs_plugin : WorkerPluginSource;
  fs_adapter : InboundAcceptanceConfig;
  fs_result_kind : option string;
  fs_lease_duration_ms : option Z;
  fs_poll_interval_ms : option Z;
  fs_restart_backoff_ms : option Z;
  fs_pre_arm_retry_delay_ms : option Z;
  fs_turn : option WorkerTurnSource;
  fs_egress : option WorkerEgressConfig;
}.
Definition file_of_source (source : WorkerFileSource) : WorkerFileConfig :=
  {| wf_schema_version := fs_schema_version source;
     wf_agent_id := fs_agent_id source;
     wf_working_directory := fs_working_directory source;
     wf_additional_directories := coalesce (fs_additional_directories source) [];
     wf_mcp_grants := coalesce (fs_mcp_grants source) [];
     wf_compatibility_digest := fs_compatibility_digest source;
     wf_sandbox := option_map sandbox_of_source (fs_sandbox source);
     wf_instructions := coalesce (fs_instructions source) "";
     wf_plugin := plugin_of_source (fs_plugin source);
     wf_adapter := fs_adapter source;
     wf_result_kind := coalesce (fs_result_kind source) default_result_kind;
     wf_lease_duration_ms := coalesce (fs_lease_duration_ms source) default_worker_lease_ms;
     wf_poll_interval_ms := coalesce (fs_poll_interval_ms source) default_poll_interval_ms;
     wf_restart_backoff_ms := coalesce (fs_restart_backoff_ms source) default_restart_backoff_ms;
     wf_pre_arm_retry_delay_ms :=
       coalesce (fs_pre_arm_retry_delay_ms source) default_pre_arm_retry_delay_ms;
     wf_turn :=
       match fs_turn source with Some turn => turn_of_source turn | None => default_turn end;
     wf_egress := fs_egress source |}.

(** [value.get("schema_version").and_then(Value::as_u64)], and
    [serde_json::from_value] into the shape of the file. *)
Context (schema_version_of : Value → option Z) (from_value : Value → WorkerFileSource + string).

Definition parse_worker_config_value (value : Value) : WorkerFileConfig + string :=
  let schema_version := schema_version_of value in
  if schema_version !=? Some 2 then
    inr ("unsupported worker configuration schema version "
         +:+ match schema_version with Some observed => pretty observed | None => "missing" end
         +:+ "; expected 2 with explicit inbound acceptance")
  else match from_value value with
       | inl source => inl (file_of_source source)
       | inr error => inr error
       end.

(** [fs::read] and [serde_json::from_slice], each or the text of its error *)
Context (read_bytes : string → string + string) (value_from_slice : string → Value + string).
Definition load_worker_config (path : string) : WorkerFileConfig + string :=
  got (read_bytes path) (λ raw,
  let invalid error := "worker configuration " +:+ path +:+ " is invalid: " +:+ error in
  match value_from_slice raw with
  | inr error => inr (invalid error)
  | inl value =>
      match parse_worker_config_value value with
      | inl file => inl file
      | inr error => inr (invalid error)
      end
  end).

(** ** What the file asks for *)

Definition milliseconds (ms : Z) : Duration := ms * 1000000.
Definition harness_acp_interface : PluginInterface :=
  {| if_id := HARNESS_ACP_INTERFACE_ID; if_version := "0.1.0" |}.

Definition into_spec (plugin : WorkerPluginConfig) : PluginSpec :=
  {| ps_id := wp_id plugin;
     ps_executable := wp_executable plugin;
     ps_args := wp_args plugin;
     ps_config := wp_config plugin;
     ps_required_interfaces := [harness_acp_interface];
     ps_initialize_timeout := milliseconds (wp_initialize_timeout_ms plugin);
     ps_request_timeout := milliseconds (wp_request_timeout_ms plugin);
     ps_shutdown_timeout := milliseconds (wp_shutdown_timeout_ms plugin);
     ps_sandbox := None |}.
Definition with_macos_seatbelt (spec : PluginSpec) (sandbox : MacOsSeatbeltSandbox) : PluginSpec :=
  {| ps_id := ps_id spec;
     ps_executable := ps_executable spec;
     ps_args := ps_args spec;
     ps_config := ps_config spec;
     ps_required_interfaces := ps_required_interfaces spec;
     ps_initialize_timeout := ps_initialize_timeout spec;
     ps_request_timeout := ps_request_timeout spec;
     ps_shutdown_timeout := ps_shutdown_timeout spec;
     ps_sandbox := Some sandbox |}.

Definition turn_adapter (file : WorkerFileConfig) : EnvelopeTurnAdapter + string :=
  let inbound := wf_adapter file in
  if iac_schema_version inbound !=? 1 then
    inr ("unsupported inbound acceptance schema version " +:+ pretty (iac_schema_version inbound)
         +:+ "; expected 1")
  else
  match got (new_envelope_adapter (wf_result_kind file) (iac_message_kinds inbound))
          (λ adapter, with_standing_instructions adapter (wf_instructions file)) with
  | inl adapter => inl adapter
  | inr error => inr ("worker adapter configuration is invalid: " +:+ error)
  end.

Definition egress_request (file : WorkerFileConfig) : option EgressRequest :=
  egress ← wf_egress file;
  Some {| er_schema_version := we_schema_version egress;
          er_kind := we_kind egress;
          er_endpoint := we_endpoint egress;
          er_headers_file := we_headers_file egress;
          er_content := we_content egress;
          er_classifications := we_classifications egress;
          er_resource_attributes := we_resource_attributes egress;
          er_max_attribute_bytes := we_max_attribute_bytes egress;
          er_queue_capacity := we_queue_capacity egress;
          er_export_timeout_ms := we_export_timeout_ms egress;
          er_shutdown_flush_ms := we_shutdown_flush_ms egress;
          er_agent_id := wf_agent_id file |}.

Context (sha256_hex : string → string) (macos : bool).
Context (is_file is_dir : string → bool) (canonicalize : string → path + string).
Context (json_quote : string → string + string).

Definition turn_policy_of (turn : WorkerTurnConfig) : TurnPolicy :=
  {| tp_idle_timeout_ms := wt_idle_timeout_ms turn;
     tp_wall_timeout_ms := wt_wall_timeout_ms turn;
     tp_cancel_drain_timeout_ms := wt_cancel_drain_timeout_ms turn;
     tp_max_captured_output_bytes := wt_max_captured_output_bytes turn;
     tp_permission_policy := "controller";
     tp_tool_budget := {| tb_limit := wt_tool_budget turn;
                          tb_required_enforcement := "observe_then_cancel" |};
     tp_token_budget := None |}.
Definition into_runtime_config (file : WorkerFileConfig) : ContinuousWorkerConfig + string :=
  let turn := wf_turn file in
  let spec := into_spec (wf_plugin file) in
  got match wf_sandbox file with
      | None => inl spec
      | Some sandbox =>
          got (into_sandbox sha256_hex macos is_file is_dir canonicalize json_quote sandbox
                 (wf_working_directory file) (wf_additional_directories file))
            (λ sandbox, inl (with_macos_seatbelt spec sandbox))
      end (λ plugin,
  inl {| cw_agent_id := wf_agent_id file;
         cw_plugin := plugin;
         cw_working_directory := wf_working_directory file;
         cw_additional_directories := wf_additional_directories file;
         cw_mcp_grants := wf_mcp_grants file;
         cw_turn_grants := [];
         cw_compatibility_digest := wf_compatibility_digest file;
         cw_lease_duration := milliseconds (wf_lease_duration_ms file);
         cw_poll_interval := milliseconds (wf_poll_interval_ms file);
         cw_interrupt_on_new_message := wt_interrupt_on_new_message turn;
         cw_interrupt_poll_interval := milliseconds (wt_interrupt_poll_interval_ms turn);
         cw_restart_backoff := milliseconds (wf_restart_backoff_ms file);
         cw_pre_arm_retry_delay := milliseconds (wf_pre_arm_retry_delay_ms file);
         cw_turn_policy := turn_policy_of turn;
         cw_permission_policy := wt_permission_policy turn;
         cw_trajectory_sink := false |}).

(** ** Provisioning *)

(** What the binary started for the seat, and what of it still runs: the exporter
    at its contract and the message broker.  The sink is held by the configuration
    and the broker by a local, so an error drops both, which stops them. *)
Inductive Transport := Exporter (contract : EgressConfig) | Broker.
Record Transports := { tr_started : list Transport; tr_running : list Transport }.
Definition no_transports : Transports := {| tr_started := []; tr_running := [] |}.
Definition start_transport (transport : Transport) (s : Transports) : Transports :=
  {| tr_started := tr_started s ++ [transport]; tr_running := tr_running s ++ [transport] |}.
Definition drop_locals {A} (m : action Transports string A) : action Transports string A :=
  λ s, match m s with
       | (s', inl a) => (s', inl a)
       | (s', inr e) => ({| tr_started := tr_started s'; tr_running := tr_running s |}, inr e)
       end.

(** [TrajectoryEgress::start] and [MessageGrantBroker::start] with the grant it
    offers, each or the text of its error; the text of a worker error. *)
Context (start_egress : EgressConfig → unit + string).
Context (start_broker : ResolvedMcpGrant + string).
Context (worker_error : ContinuousWorkerError → string).
Context (file_mode : string → Z + string) (file_text : string → string + string).

Definition with_sink (config : ContinuousWorkerConfig) : ContinuousWorkerConfig :=
  {| cw_agent_id := cw_agent_id config; cw_plugin := cw_plugin config;
     cw_working_directory := cw_working_directory config;
     cw_additional_directories := cw_additional_directories config;
     cw_mcp_grants := cw_mcp_grants config; cw_turn_grants := cw_turn_grants config;
     cw_compatibility_digest := cw_compatibility_digest config;
     cw_lease_duration := cw_lease_duration config; cw_poll_interval := cw_poll_interval config;
     cw_interrupt_on_new_message := cw_interrupt_on_new_message config;
     cw_interrupt_poll_interval := cw_interrupt_poll_interval config;
     cw_restart_backoff := cw_restart_backoff config;
     cw_pre_arm_retry_delay := cw_pre_arm_retry_delay config;
     cw_turn_policy := cw_turn_policy config;
     cw_permission_policy := cw_permission_policy config; cw_trajectory_sink := true |}.
Definition with_turn_grant (grant : ResolvedMcpGrant) (config : ContinuousWorkerConfig)
    : ContinuousWorkerConfig :=
  {| cw_agent_id := cw_agent_id config; cw_plugin := cw_plugin config;
     cw_working_directory := cw_working_directory config;
     cw_additional_directories := cw_additional_directories config;
     cw_mcp_grants := cw_mcp_grants config; cw_turn_grants := cw_turn_grants config ++ [grant];
     cw_compatibility_digest := cw_compatibility_digest config;
     cw_lease_duration := cw_lease_duration config; cw_poll_interval := cw_poll_interval config;
     cw_interrupt_on_new_message := cw_interrupt_on_new_message config;
     cw_interrupt_poll_interval := cw_interrupt_poll_interval config;
     cw_restart_backoff := cw_restart_backoff config;
     cw_pre_arm_retry_delay := cw_pre_arm_retry_delay config;
     cw_turn_policy := cw_turn_policy config;
     cw_permission_policy := cw_permission_policy config;
     cw_trajectory_sink := cw_trajectory_sink config |}.

(** [run_loaded_worker] up to the worker it runs. *)
Definition provision_egress (request : option EgressRequest) (config : ContinuousWorkerConfig)
    : action Transports string ContinuousWorkerConfig :=
  match request with
  | None => done_with config
  | Some request =>
      match validate_egress file_mode file_text request with
      | inr error => throw ("worker configuration egress block is invalid: " +:+ error)
      | inl validated =>
          match start_egress validated with
          | inr error => throw ("trajectory egress could not start: " +:+ error)
          | inl _ => act (start_transport (Exporter validated)) ;! done_with (with_sink config)
          end
      end
  end.
Definition provision_broker (config : ContinuousWorkerConfig)
    : action Transports string ContinuousWorkerConfig :=
  if existsb (λ grant, grant ==? PUBLISH_DURABLE_MESSAGE_GRANT) (cw_mcp_grants config) then
    match start_broker with
    | inr error => throw error
    | inl grant => act (start_transport Broker) ;! done_with (with_turn_grant grant config)
    end
  else done_with config.
Definition provision_worker (file : WorkerFileConfig)
    : action Transports string (ContinuousWorkerConfig * EnvelopeTurnAdapter) :=
  drop_locals
    match turn_adapter file with
    | inr error => throw error
    | inl adapter =>
    match into_runtime_config file with
    | inr error => throw error
    | inl config =>
        let! config := provision_egress (egress_request file) config in
        let! config := provision_broker config in
        match new_worker is_dir config with
        | inr error => throw (worker_error error)
        | inl config => done_with (config, adapter)
        end
    end
    end.
End file.
