(* ===== verification/SeatSupervisor.v ===== *)
(** * The supervisor of configured seats (src/cli/worker_supervisor.rs)

    The catalog of approved runtime profiles, the worker file a profile becomes for
    one agent, and the loop that keeps running what the store asks for: one task
    for each seat and one shared inference backend for the profiles that name it.
    Tasks, backends, the clock and the cancellation are the environment; what the
    supervisor does is logged in the order in which it does it. *)

From stdpp Require Import gmap.
From S2P Require Import Prelude Action Proto Schema Seats Observations Sessions HarnessClient.
From S2P Require Import Supervisor Sandbox WorkerTurns Worker Egress WorkerFile.

Definition MAX_CATALOG_BYTES : Z := 1024 * 1024.
Definition MAX_PROFILES : nat := 128.
Definition MAX_INFERENCE_BACKENDS : nat := 32.
Definition MAX_PROFILE_LABEL_BYTES : Z := 256.
Definition MAX_PROFILE_DESCRIPTION_BYTES : Z := 2048.
Definition BACKEND_RESTART_BACKOFF : Duration := 5000000000.

(** ** The catalog *)

Section catalog.
Context `{J : SerdeJson} {JT : JsonTree}.

Record InferencePluginFile := {
  ipf_id : string;
  ipf_executable : string;
  ipf_args : list string;
  ipf_config : Value;
  ipf_initialize_timeout_ms : Z;
  ipf_request_timeout_ms : Z;
  ipf_shutdown_timeout_ms : Z;
}.
Record InferenceBackendFile := {
  ibf_id : string; ibf_label : string; ibf_plugin : InferencePluginFile }.
Record RuntimeProfileFile := {
  rpf_id : string;
  rpf_label : string;
  rpf_description : string;
  rpf_inference_backend : option string;
  rpf_worker : Value;
}.
Record ProfileCatalogFile := {
  pcf_schema_version : Z;
  pcf_inference_backends : list InferenceBackendFile;
  pcf_profiles : list RuntimeProfileFile;
}.
Record ProfileCatalog := {
  pc_profiles : gmap string RuntimeProfileFile;
  pc_inference_backends : gmap string InferenceBackendFile;
}.

Definition INFERENCE_INTERFACE_ID : string := "fleetd.inference-openai".
Definition inference_openai_interface : PluginInterface :=
  {| if_id := INFERENCE_INTERFACE_ID; if_version := "0.1.0" |}.
Definition backend_spec (plugin : InferencePluginFile) : PluginSpec :=
  {| ps_id := ipf_id plugin;
     ps_executable := ipf_executable plugin;
     ps_args := ipf_args plugin;
     ps_config := ipf_config plugin;
     ps_required_interfaces := [inference_openai_interface];
     ps_initialize_timeout := milliseconds (ipf_initialize_timeout_ms plugin);
     ps_request_timeout := milliseconds (ipf_request_timeout_ms plugin);
     ps_shutdown_timeout := milliseconds (ipf_shutdown_timeout_ms plugin);
     ps_sandbox := None |}.

Definition valid_profile_id (value : string) : bool :=
  (value !=? "") && (str_len value <=? MAX_PROFILE_ID_BYTES) && all_bytes profile_byte value.
Definition id_rule : string :=
  "must contain 1 to " +:+ pretty MAX_PROFILE_ID_BYTES
  +:+ " ASCII letters, digits, dots, dashes, or underscores".
Definition bounded_text (label value : string) (maximum : Z) : unit + string :=
  reject (is_blank value || (maximum <? str_len value))
    (label +:+ " must contain between 1 and " +:+ pretty maximum +:+ " bytes").
Definition validate_backend (backend : InferenceBackendFile) : unit + string :=
  reject (negb (valid_profile_id (ibf_id backend))) ("inference backend ID " +:+ id_rule) ;:
  bounded_text "inference backend label" (ibf_label backend) MAX_PROFILE_LABEL_BYTES.
Definition validate_profile (profile : RuntimeProfileFile) : unit + string :=
  reject (negb (valid_profile_id (rpf_id profile))) ("profile ID " +:+ id_rule) ;:
  bounded_text "profile label" (rpf_label profile) MAX_PROFILE_LABEL_BYTES ;:
  bounded_text "profile description" (rpf_description profile) MAX_PROFILE_DESCRIPTION_BYTES.

(** [Value::is_object], the description of a backend as a value, and the parameters
    of [parse_worker_config_value]. *)
Context (is_object : Value → bool).
Context {Description : Type} (description_to_value : Description → Value + string).
Context (schema_version_of : Value → option Z) (from_value : Value → WorkerFileSource + string).

Definition as_object (value : option Value) (error : string) : Value + string :=
  match value with
  | Some value => if is_object value then inl value else inr error
  | None => inr error
  end.
(** [Map::insert] on a value known to be an object *)
Definition object_insert (key : string) (value object : Value) : Value :=
  coalesce (json_insert key value object) object.

Definition instantiate_profile (profile : RuntimeProfileFile) (agent_id instructions : string)
    (inference : option Description) : WorkerFileConfig + string :=
  got (as_object (Some (rpf_worker profile)) "worker profile worker must be a JSON object")
    (λ worker,
  got (reject (is_some (json_get "agent_id" worker) || is_some (json_get "instructions" worker))
         ("worker profile " +:+ rpf_id profile +:+ " must not set agent_id or instructions")) (λ _,
  let worker := object_insert "agent_id" (json_string agent_id) worker in
  let worker := object_insert "instructions" (json_string instructions) worker in
  got (as_object (json_get "plugin" worker) "worker profile plugin must be a JSON object")
    (λ plugin,
  got (as_object (Some (coalesce (json_get "config" plugin) empty_object))
         "worker profile plugin config must be a JSON object") (λ config,
  got (reject (is_some (json_get "inference" config))
         ("worker profile " +:+ rpf_id profile +:+ " must not pre-resolve an inference route"))
    (λ _,
  got match inference with
      | None => inl config
      | Some inference =>
          got (description_to_value inference) (λ value,
            inl (object_insert "inference" value config))
      end (λ config,
  let plugin := object_insert "config" config plugin in
  parse_worker_config_value schema_version_of from_value
    (object_insert "plugin" plugin worker))))))).

Fixpoint collect_backends (backends : list InferenceBackendFile)
    (known : gmap string InferenceBackendFile) : gmap string InferenceBackendFile + string :=
  match backends with
  | [] => inl known
  | backend :: backends =>
      got (validate_backend backend) (λ _,
      match known !! ibf_id backend with
      | Some _ => inr ("duplicate inference backend ID " +:+ ibf_id backend)
      | None => collect_backends backends (<[ibf_id backend := backend]> known)
      end)
  end.
(** The checks of one profile against the catalog. *)
Definition check_profile (schema_version : Z) (backends : gmap string InferenceBackendFile)
    (profile : RuntimeProfileFile) : unit + string :=
  got (validate_profile profile) (λ _,
  got (reject ((schema_version ==? 1) && is_some (rpf_inference_backend profile))
         "worker profile catalog schema 1 cannot reference an inference backend") (λ _,
  got match rpf_inference_backend profile with
      | Some backend_id =>
          reject (is_none (backends !! backend_id))
            ("worker profile " +:+ rpf_id profile +:+ " references unknown inference backend "
             +:+ backend_id)
      | None => inl tt
      end (λ _,
  got (instantiate_profile profile "catalog-validation" "" None) (λ _, inl tt)))).
Fixpoint collect_profiles (schema_version : Z) (backends : gmap string InferenceBackendFile)
    (profiles : list RuntimeProfileFile) (known : gmap string RuntimeProfileFile)
    : gmap string RuntimeProfileFile + string :=
  match profiles with
  | [] => inl known
  | profile :: profiles =>
      got (check_profile schema_version backends profile) (λ _,
      match known !! rpf_id profile with
      | Some _ => inr ("duplicate worker profile ID " +:+ rpf_id profile)
      | None => collect_profiles schema_version backends profiles (<[rpf_id profile := profile]> known)
      end)
  end.
Definition validate_catalog (file : ProfileCatalogFile) : ProfileCatalog + string :=
  let version := pcf_schema_version file in
  let backends := pcf_inference_backends file in
  let profiles := pcf_profiles file in
  got (reject (negb ((version ==? 1) || (version ==? 2)))
         ("unsupported worker profile catalog schema version " +:+ pretty version
          +:+ "; expected 1 or 2")) (λ _,
  got (reject ((version ==? 1) && (0 <? length backends)%nat)
         "worker profile catalog schema 1 cannot declare inference backends") (λ _,
  got (reject ((length profiles =? 0)%nat || (MAX_PROFILES <? length profiles)%nat)
         ("worker profile catalog must contain between 1 and "
          +:+ pretty (Z.of_nat MAX_PROFILES) +:+ " profiles")) (λ _,
  got (reject (MAX_INFERENCE_BACKENDS <? length backends)%nat
         ("worker profile catalog may contain at most "
          +:+ pretty (Z.of_nat MAX_INFERENCE_BACKENDS) +:+ " inference backends")) (λ _,
  got (collect_backends backends ∅) (λ inference_backends,
  got (collect_profiles version inference_backends profiles ∅) (λ profiles,
  inl {| pc_profiles := profiles; pc_inference_backends := inference_backends |})))))).

(** What the file system says of the catalog's path without following links: a
    regular file or not, and its permission bits; then its length, its contents and
    what serde reads from them, each or the text of an error. *)
Record Metadata := { md_regular : bool; md_mode : Z }.
Context (symlink_metadata : string → Metadata + string) (file_len : string → Z + string).
Context (read_file : string → string + string).
Context (catalog_from_slice : string → ProfileCatalogFile + string).

Definition require_private_regular_file (path label : string) : unit + string :=
  if negb (is_absolute path) then inr (label +:+ " path must be absolute") else
  got (symlink_metadata path) (λ metadata,
    reject (negb (md_regular metadata)) (label +:+ " must be a regular file, not a link") ;:
    reject (Z.land (md_mode metadata) 63 !=? 0)
      (label +:+ " must not grant group or other permissions")).
Definition load_profile_catalog (path : string) : ProfileCatalog + string :=
  got (require_private_regular_file path "worker profile catalog") (λ _,
  got (file_len path) (λ len,
  got (reject (MAX_CATALOG_BYTES <? len)
         ("worker profile catalog exceeds " +:+ pretty MAX_CATALOG_BYTES +:+ " bytes")) (λ _,
  got (read_file path) (λ source,
  match catalog_from_slice source with
  | inr error => inr ("worker profile catalog is invalid: " +:+ error)
  | inl file => validate_catalog file
  end)))).

(** ** The supervisor *)

Record RunningSeat := {
  rs_revision : Z;
  rs_inference_backend : option string;
  (** The task, and the token that cancels it. *)
  rs_task : nat;
}.
(** The typed client over a backend's process. *)
Class InferenceHost (B : Type) := {
  inference_start : nat → PluginSpec → B + string;
  into_inference_openai : B → B + string;
  inference_describe : nat → B → Description + string;
  inference_health : nat → B → B * (unit + string);
}.
Context {B : Type} {IH : InferenceHost B}.
Record RunningBackend := { rb_client : B; rb_description : Description }.

Inductive SupervisionEffect :=
| Spawned (task : nat) (agent_id : string) (revision : Z) (desired : WorkerFileConfig)
| Joined (task : nat)
| BackendStarted (backend_id : string)
| BackendStopped (backend_id : string).

Record Supervision := {
  su_running : gmap string RunningSeat;
  su_backends : gmap string RunningBackend;
  su_retry_after : gmap string Z;
  su_unresolved : gset (string * string);
  (** The tasks spawned so far, and the looks at the environment. *)
  su_tasks : nat;
  su_looks : nat;
  su_log : list SupervisionEffect;
}.
Inductive SupervisionError := Refused (error : string) | SupervisorPanicked (reason : string).
Definition supervising (A : Type) : Type := action Supervision SupervisionError A.

Definition set_running (running : gmap string RunningSeat) (s : Supervision) : Supervision :=
  {| su_running := running; su_backends := su_backends s; su_retry_after := su_retry_after s;
     su_unresolved := su_unresolved s; su_tasks := su_tasks s; su_looks := su_looks s;
     su_log := su_log s |}.
Definition set_backends (backends : gmap string RunningBackend) (s : Supervision) : Supervision :=
  {| su_running := su_running s; su_backends := backends; su_retry_after := su_retry_after s;
     su_unresolved := su_unresolved s; su_tasks := su_tasks s; su_looks := su_looks s;
     su_log := su_log s |}.
Definition set_retry_after (retry_after : gmap string Z) (s : Supervision) : Supervision :=
  {| su_running := su_running s; su_backends := su_backends s; su_retry_after := retry_after;
     su_unresolved := su_unresolved s; su_tasks := su_tasks s; su_looks := su_looks s;
     su_log := su_log s |}.
Definition set_unresolved (unresolved : gset (string * string)) (s : Supervision) : Supervision :=
  {| su_running := su_running s; su_backends := su_backends s; su_retry_after := su_retry_after s;
     su_unresolved := unresolved; su_tasks := su_tasks s; su_looks := su_looks s;
     su_log := su_log s |}.
Definition log_effect (effect : SupervisionEffect) (s : Supervision) : Supervision :=
  {| su_running := su_running s; su_backends := su_backends s; su_retry_after := su_retry_after s;
     su_unresolved := su_unresolved s; su_tasks := su_tasks s; su_looks := su_looks s;
     su_log := su_log s ++ [effect] |}.
(** The number of the look, and one more look. *)
Definition look_out : supervising nat :=
  λ s, ({| su_running := su_running s; su_backends := su_backends s;
           su_retry_after := su_retry_after s; su_unresolved := su_unresolved s;
           su_tasks := su_tasks s; su_looks := S (su_looks s); su_log := su_log s |},
        inl (su_looks s)).
(** [tokio::spawn]: the task's number. *)
Definition spawn (agent_id : string) (revision : Z) (desired : WorkerFileConfig) : supervising nat :=
  λ s, ({| su_running := su_running s; su_backends := su_backends s;
           su_retry_after := su_retry_after s; su_unresolved := su_unresolved s;
           su_tasks := S (su_tasks s); su_looks := su_looks s;
           su_log := su_log s ++ [Spawned (su_tasks s) agent_id revision desired] |},
        inl (su_tasks s)).

(** The rows of the store, the clock, whether a task has finished by itself, and
    whether cancellation was requested, at each look; the text of a store error. *)
Context (db : nat → Db) (now : nat → Z) (finished : nat → nat → bool) (cancelled : nat → bool).
Context (store_error : FleetError → string).
Context (catalog : ProfileCatalog).

Definition keys {A} (m : gmap string A) : list string :=
  sort_by String.leb (map fst (map_to_list m)).
Fixpoint each_of {A} (l : list A) (f : A → supervising unit) : supervising unit :=
  match l with [] => done_with tt | a :: l => f a ;! each_of l f end.

(** [running.remove(agent_id)] and [stop_seat]: cancel, then wait for the task. *)
Definition stop_seat (seat : RunningSeat) : supervising unit :=
  act (log_effect (Joined (rs_task seat))).
Definition remove_seat (agent_id : string) : supervising unit :=
  let! running := look su_running in
  match running !! agent_id with
  | Some seat => act (set_running (delete agent_id running)) ;! stop_seat seat
  | None => done_with tt
  end.
Definition stop_backend (backend_id : string) : supervising unit :=
  act (log_effect (BackendStopped backend_id)).
Definition remove_backend (backend_id : string) : supervising unit :=
  let! backends := look su_backends in
  match backends !! backend_id with
  | Some _ => act (set_backends (delete backend_id backends)) ;! stop_backend backend_id
  | None => done_with tt
  end.
Definition retry_later (backend_id : string) : supervising unit :=
  let! n := look_out in
  let! retry_after := look su_retry_after in
  act (set_retry_after (<[backend_id := now n + BACKEND_RESTART_BACKOFF]> retry_after)).
Definition stop_seats_using_backend (backend_id : string) : supervising unit :=
  let! running := look su_running in
  each_of (keys (filter (λ p, rs_inference_backend p.2 = Some backend_id) running)) remove_seat.

Definition wants_running (configuration : AgentSeatConfiguration) : bool :=
  asc_desired_state configuration ==? AgentSeatDesiredState.Running.
(** The [BTreeSet] is the list of its members in order. *)
Definition desired_backend_ids (configurations : list AgentSeatConfiguration) : gset string :=
  list_to_set (omap (λ configuration,
    profile ← pc_profiles catalog !! asc_profile_id configuration; rpf_inference_backend profile)
    (filter (λ configuration, wants_running configuration = true) configurations)).
Definition in_order (ids : gset string) : list string := sort_by String.leb (elements ids).

(** [start_backend]: a client that fails to negotiate or to describe itself is
    dropped, which ends its process. *)
Definition start_backend (backend : InferenceBackendFile) : supervising (RunningBackend + string) :=
  let! n := look_out in
  done_with
    (got (inference_start n (backend_spec (ibf_plugin backend))) (λ process,
     got (into_inference_openai process) (λ client,
     got (inference_describe n client) (λ description,
     inl {| rb_client := client; rb_description := description |})))).

(** One round of either loop of [reconcile_backends]. *)
Definition check_backend (desired_backends : gset string) (backend_id : string) : supervising unit :=
  if bool_decide (backend_id ∈ desired_backends) then
    let! backends := look su_backends in
    match backends !! backend_id with
    | None => done_with tt
    | Some backend =>
        let! n := look_out in
        let (client, healthy) := inference_health n (rb_client backend) in
        act (set_backends
               (<[backend_id := {| rb_client := client; rb_description := rb_description backend |}]>
                  backends)) ;!
        match healthy with
        | inl _ => done_with tt
        | inr error =>
            stop_seats_using_backend backend_id ;!
            remove_backend backend_id ;!
            retry_later backend_id
        end
    end
  else done_with tt.
Definition ensure_backend (backend_id : string) : supervising unit :=
  let! backends := look su_backends in
  if is_some (backends !! backend_id) then done_with tt else
  let! retry_after := look su_retry_after in
  let! n := look_out in
  if match retry_after !! backend_id with Some at_ => now n <? at_ | None => false end
  then done_with tt else
  match pc_inference_backends catalog !! backend_id with
  | None => throw (SupervisorPanicked "catalog validation resolved backend reference")
  | Some backend =>
      let! started := start_backend backend in
      match started with
      | inl running_backend =>
          act (log_effect (BackendStarted backend_id)) ;!
          act (set_backends (<[backend_id := running_backend]> backends)) ;!
          act (set_retry_after (delete backend_id retry_after))
      | inr error => retry_later backend_id
      end
  end.
Definition reconcile_backends (desired_backends : gset string) : supervising unit :=
  let! backends := look su_backends in
  each_of (keys backends) (check_backend desired_backends) ;!
  each_of (in_order desired_backends) ensure_backend.

Definition stop_unconfigured_seats (configurations : list AgentSeatConfiguration)
    : supervising unit :=
  let! running := look su_running in
  each_of (List.filter (λ agent_id,
              negb (bool_decide (agent_id ∈ map asc_agent_id configurations))) (keys running))
    remove_seat.

Definition note_unresolved (configuration : AgentSeatConfiguration) : supervising unit :=
  let! unresolved := look su_unresolved in
  act (set_unresolved
         ({[(asc_agent_id configuration, asc_profile_id configuration)]} ∪ unresolved)).
Definition note_resolved (configuration : AgentSeatConfiguration) : supervising unit :=
  let! unresolved := look su_unresolved in
  act (set_unresolved
         (unresolved ∖ {[(asc_agent_id configuration, asc_profile_id configuration)]})).
(** The description a profile's worker is given: [None] when the profile names a
    backend that does not run. *)
Definition resolve_inference (profile : RuntimeProfileFile)
    (backends : gmap string RunningBackend) : option (option Description) :=
  match rpf_inference_backend profile with
  | None => Some None
  | Some backend_id => backend ← backends !! backend_id; Some (Some (rb_description backend))
  end.
Definition current_matches (n : nat) (configuration : AgentSeatConfiguration)
    (profile : RuntimeProfileFile) (running : gmap string RunningSeat) : bool :=
  match running !! asc_agent_id configuration with
  | Some seat =>
      (rs_revision seat ==? asc_revision configuration)
      && (rs_inference_backend seat ==? rpf_inference_backend profile)
      && negb (finished n (rs_task seat))
  | None => false
  end.
Definition start_seat (configuration : AgentSeatConfiguration) (profile : RuntimeProfileFile)
    (inference : option Description) : supervising unit :=
  match instantiate_profile profile (asc_agent_id configuration) (asc_instructions configuration)
          inference with
  | inr error => throw (Refused error)
  | inl desired =>
      let! task := spawn (asc_agent_id configuration) (asc_revision configuration) desired in
      let! running := look su_running in
      act (set_running
             (<[asc_agent_id configuration :=
                  {| rs_revision := asc_revision configuration;
                     rs_inference_backend := rpf_inference_backend profile;
                     rs_task := task |}]> running))
  end.
(** One round of the loop of [reconcile_seats]. *)
Definition reconcile_seat (configuration : AgentSeatConfiguration) : supervising unit :=
  if negb (wants_running configuration) then remove_seat (asc_agent_id configuration) else
  match pc_profiles catalog !! asc_profile_id configuration with
  | None => remove_seat (asc_agent_id configuration) ;! note_unresolved configuration
  | Some profile =>
      note_resolved configuration ;!
      let! backends := look su_backends in
      match resolve_inference profile backends with
      | None => remove_seat (asc_agent_id configuration)
      | Some inference =>
          let! n := look_out in
          let! running := look su_running in
          if current_matches n configuration profile running then done_with tt else
          remove_seat (asc_agent_id configuration) ;!
          start_seat configuration profile inference
      end
  end.
Definition reconcile_seats (configurations : list AgentSeatConfiguration) : supervising unit :=
  stop_unconfigured_seats configurations ;! each_of configurations reconcile_seat.

Definition drop_unused (backend_id : string) : supervising unit :=
  remove_backend backend_id ;!
  let! retry_after := look su_retry_after in
  act (set_retry_after (delete backend_id retry_after)).
Definition stop_unused_backends (desired_backends : gset string) : supervising unit :=
  let! backends := look su_backends in
  each_of (List.filter (λ backend_id, negb (bool_decide (backend_id ∈ desired_backends)))
              (keys backends)) drop_unused.

Definition list_configurations : supervising (list AgentSeatConfiguration) :=
  let! n := look_out in
  match list_seats (db n) with
  | Ok (configurations, _) => done_with configurations
  | Err error => throw (Refused (store_error error))
  end.
Definition reconcile : supervising unit :=
  let! configurations := list_configurations in
  let desired_backends := desired_backend_ids configurations in
  reconcile_backends desired_backends ;!
  reconcile_seats configurations ;!
  stop_unused_backends desired_backends.

(** The loop of [supervise_workers], [None] when the fuel ends first, and the stops
    after it. *)
Fixpoint supervise_loop (fuel : nat) : supervising (option unit) :=
  match fuel with
  | O => done_with None
  | S fuel =>
      reconcile ;!
      let! n := look_out in
      if cancelled n then done_with (Some tt) else supervise_loop fuel
  end.
Definition stop_all : supervising unit :=
  let! running := look su_running in
  each_of (keys running) remove_seat ;!
  let! backends := look su_backends in
  each_of (keys backends) remove_backend.
Definition supervise_workers (fuel : nat) : supervising (option unit) :=
  let! ended := supervise_loop fuel in
  match ended with
  | None => done_with None
  | Some _ => stop_all ;! done_with (Some tt)
  end.
Definition no_supervision : Supervision :=
  {| su_running := ∅; su_backends := ∅; su_retry_after := ∅; su_unresolved := ∅; su_tasks := 0;
     su_looks := 0; su_log := [] |}.
End catalog.
