(* ===== verification/Projection.v ===== *)
(** * Trajectory egress (crates/otlp/src/{projection,sink}.rs)

    How the offers of one turn become OpenTelemetry spans, and the bounded queue in
    front of it: an offer is queued or counted as dropped, and one drain task folds
    the queued offers into spans and exports them.  The SHA-256 digest, the exporter
    and what serde reads from or prints of a value are parameters. *)

From stdpp Require Import gmap.
From S2P Require Import Prelude Action Proto Schema Observations Sessions HarnessClient.
From S2P Require Import Controller Supervisor Egress.

(** ** Spans *)

Inductive AttributeValue := StringValue (s : string) | IntValue (n : Z) | BoolValue (b : bool).
Definition KeyValue : Type := string * AttributeValue.
(** [KeyValue::new] with an [i64::try_from(..).unwrap_or(i64::MAX)] *)
Definition int_attribute (key : string) (n : Z) : KeyValue :=
  (key, IntValue (coalesce (i64_try_from n) i64_max)).
Definition text_attribute (key text : string) : KeyValue := (key, StringValue text).
Definition optional_text (key : string) (text : option string) : list KeyValue :=
  match text with Some text => [text_attribute key text] | None => [] end.

(** Milliseconds since the epoch, as [SystemTime]; identifiers are their bytes. *)
Definition system_time (ms : Z) : Z := Z.max 0 ms.
Record SpanEvent := { ev_name : string; ev_time : Z; ev_attributes : list KeyValue }.
Inductive SpanStatus := Unset | StatusOk | StatusError (description : string).
Record SpanData := {
  span_trace_id : string;
  span_id : string;
  span_parent_id : string;
  span_name : string;
  span_start : Z;
  span_end : Z;
  span_attributes : list KeyValue;
  span_events : list SpanEvent;
  span_status : SpanStatus;
}.

Definition nul_char : Ascii.ascii := Ascii.ascii_of_nat 0.
Fixpoint zero_string (n : nat) : string :=
  match n with O => "" | S n => String nul_char (zero_string n) end.
(** [SpanId::INVALID] *)
Definition invalid_span : string := zero_string 8.
(** The first [n] bytes, where all zero_string become a one. *)
Definition identifier_of (n : nat) (digest : string) : string :=
  let id := String.substring 0 n digest in
  if id ==? zero_string n then zero_string (n - 1) +:+ String (Ascii.ascii_of_nat 1) "" else id.
Definition NUL : string := zero_string 1.

(** [truncate]: on a character boundary. *)
Definition truncate (value : string) (limit : Z) : string :=
  if str_len value <=? limit then value
  else String.substring 0 (floor_boundary value (Z.to_nat limit)) value.

Section projection.
Context `{J : SerdeJson} {JT : JsonTree}.
(** SHA-256 as 32 bytes; the length of an array, the text of a value and a value as
    an [i64]. *)
Context (sha256 : string → string).
Context (array_len : Value → option Z) (value_text : Value → string) (as_i64 : Value → option Z).

Definition derive_trace_id (correlation : string) : string :=
  identifier_of 16 (sha256 ("fleetd-trajectory-trace-v1" +:+ NUL +:+ correlation)).
Definition derive_span_id (role identity : string) : string :=
  identifier_of 8
    (sha256 ("fleetd-trajectory-span-v1" +:+ NUL +:+ role +:+ NUL +:+ identity)).

Definition get_text (key : string) (raw : Value) : option string :=
  value ← json_get key raw; json_as_str value.
Definition tool_call_id (raw : Value) : option string :=
  value ← match json_get "toolCallId" raw with
          | Some value => Some value
          | None => json_get "tool_call_id" raw
          end;
  json_as_str value.

Definition is_full (config : EgressConfig) : bool :=
  match eg_content config with ContentFull => true | _ => false end.
Definition event_attributes (class : EventClass.t) (raw : Value) (config : EgressConfig)
    : list KeyValue :=
  match eg_content config with
  | ContentNone => []
  | _ =>
      (if class ==? EventClass.Plan then
         match entries ← json_get "entries" raw; array_len entries with
         | Some n => [int_attribute "fleetd.plan_entries" n]
         | None => []
         end
       else [])
      ++ if is_full config then
           match content ← json_get "content" raw; get_text "text" content with
           | Some text =>
               [text_attribute "fleetd.content" (truncate text (eg_max_attribute_bytes config))]
           | None =>
               if class ==? EventClass.Unknown then
                 [text_attribute "fleetd.raw_update"
                    (truncate (value_text raw) (eg_max_attribute_bytes config))]
               else []
           end
         else []
  end.
Definition value_attribute (config : EgressConfig) (raw : Value) (field_key : string * string)
    : list KeyValue :=
  match json_get field_key.1 raw with
  | Some value =>
      [text_attribute field_key.2 (truncate (value_text value) (eg_max_attribute_bytes config))]
  | None => []
  end.
Definition tool_attributes (raw : Value) (config : EgressConfig) : list KeyValue :=
  match eg_content config with
  | ContentNone => []
  | _ =>
      optional_text "gen_ai.tool.name" (get_text "kind" raw)
      ++ optional_text "fleetd.tool_status" (get_text "status" raw)
      ++ if is_full config then
           optional_text "fleetd.tool_title"
             (option_map (λ title, truncate title (eg_max_attribute_bytes config))
                (get_text "title" raw))
           ++ flat_map (value_attribute config raw)
                [("rawInput", "fleetd.tool_input"); ("rawOutput", "fleetd.tool_output")]
         else []
  end.
(** The loop of [usage_attributes]. *)
Definition usage_attribute (usage : Value) (attributes : list KeyValue)
    (field_key : string * string) : list KeyValue :=
  if existsb (λ kv : KeyValue, kv.1 ==? field_key.2) attributes then attributes else
  match value ← json_get field_key.1 usage; as_i64 value with
  | Some count => attributes ++ [(field_key.2, IntValue count)]
  | None => attributes
  end.
Definition usage_attributes (usage : Value) : list KeyValue :=
  foldl (usage_attribute usage) []
    [("inputTokens", "gen_ai.usage.input_tokens"); ("input_tokens", "gen_ai.usage.input_tokens");
     ("outputTokens", "gen_ai.usage.output_tokens"); ("output_tokens", "gen_ai.usage.output_tokens")].

(** ** One turn *)

Record ToolSpan := {
  tl_span_id : string;
  tl_start : Z;
  tl_end : Z;
  tl_attributes : list KeyValue;
  tl_events : list SpanEvent;
}.
Record InFlight := {
  if_trace_id : string;
  if_span_id : string;
  if_start : Z;
  if_attributes : list KeyValue;
  if_events : list SpanEvent;
  if_tools : gmap string ToolSpan;
  if_observed : Z;
}.
Record OwnedClose := {
  oc_invocation_id : string;
  oc_closed_at_ms : Z;
  oc_stop_reason : option string;
  oc_runtime_stop_reason : option string;
  oc_certainty : option string;
  oc_session_quiescent : option bool;
  oc_usage : option Value;
  oc_parked_reason : option string;
}.

(** [InFlight::open].  The owned turn and update of the queue are the offers'. *)
Definition open_flight (turn : TrajectoryTurn) : InFlight :=
  {| if_trace_id :=
       derive_trace_id (coalesce (tj_correlation_id turn) (tj_source_message_id turn));
     if_span_id := derive_span_id "invocation" (tj_invocation_id turn);
     if_start := system_time (tj_opened_at_ms turn);
     if_attributes :=
       [text_attribute "gen_ai.operation.name" "invoke_agent";
        text_attribute "fleetd.invocation_id" (tj_invocation_id turn);
        text_attribute "fleetd.agent_id" (tj_agent_id turn);
        text_attribute "fleetd.channel_id" (tj_channel_id turn);
        text_attribute "fleetd.source_message_id" (tj_source_message_id turn);
        text_attribute "fleetd.generation_id" (tj_generation_id turn);
        text_attribute "fleetd.binding_id" (tj_binding_id turn);
        int_attribute "fleetd.binding_generation" (tj_binding_generation turn);
        int_attribute "fleetd.owner_epoch" (tj_owner_epoch turn)]
       ++ optional_text "fleetd.correlation_id" (tj_correlation_id turn)
       ++ optional_text "fleetd.causation_id" (tj_causation_id turn);
     if_events := [];
     if_tools := ∅;
     if_observed := 0 |}.

Definition add_event (event : SpanEvent) (flight : InFlight) : InFlight :=
  {| if_trace_id := if_trace_id flight; if_span_id := if_span_id flight;
     if_start := if_start flight; if_attributes := if_attributes flight;
     if_events := if_events flight ++ [event]; if_tools := if_tools flight;
     if_observed := if_observed flight |}.
Definition put_tool (id : string) (tool : ToolSpan) (flight : InFlight) : InFlight :=
  {| if_trace_id := if_trace_id flight; if_span_id := if_span_id flight;
     if_start := if_start flight; if_attributes := if_attributes flight;
     if_events := if_events flight; if_tools := <[id := tool]> (if_tools flight);
     if_observed := if_observed flight |}.
Definition count_observed (flight : InFlight) : InFlight :=
  {| if_trace_id := if_trace_id flight; if_span_id := if_span_id flight;
     if_start := if_start flight; if_attributes := if_attributes flight;
     if_events := if_events flight; if_tools := if_tools flight;
     if_observed := saturating_add_u64 (if_observed flight) 1 |}.

Definition event_seq (update : TrajectoryUpdate) : KeyValue :=
  int_attribute "fleetd.event_seq" (tu_event_seq update).
Definition new_tool (id : string) (update : TrajectoryUpdate) (at_ : Z) : ToolSpan :=
  {| tl_span_id := derive_span_id ("tool:" +:+ id) (tu_invocation_id update);
     tl_start := at_; tl_end := at_;
     tl_attributes :=
       [text_attribute "gen_ai.operation.name" "execute_tool"; text_attribute "fleetd.tool_call_id" id];
     tl_events := [] |}.
Definition observe_tool (update : TrajectoryUpdate) (config : EgressConfig) (at_ : Z)
    (flight : InFlight) : InFlight :=
  match tool_call_id (tu_raw_update update) with
  | None =>
      add_event {| ev_name := "tool"; ev_time := at_; ev_attributes := [event_seq update] |} flight
  | Some id =>
      let tool := coalesce (if_tools flight !! id) (new_tool id update at_) in
      put_tool id
        {| tl_span_id := tl_span_id tool; tl_start := tl_start tool; tl_end := at_;
           tl_attributes := tl_attributes tool ++ tool_attributes (tu_raw_update update) config;
           tl_events := tl_events tool
             ++ [{| ev_name := tu_classification update; ev_time := at_;
                    ev_attributes := [event_seq update] |}] |} flight
  end.
Definition observe (update : TrajectoryUpdate) (config : EgressConfig) (flight : InFlight)
    : InFlight :=
  let class := EventClass.parse (tu_classification update) in
  if negb (bool_decide (class_as_str class ∈ eg_classifications config)) then flight else
  let flight := count_observed flight in
  let at_ := system_time (tu_observed_at_ms update) in
  if class ==? EventClass.Tool then observe_tool update config at_ flight else
  add_event {| ev_name := class_as_str class; ev_time := at_;
               ev_attributes := event_seq update
                 :: event_attributes class (tu_raw_update update) config |} flight.

Definition close_status (close : OwnedClose) : SpanStatus :=
  match oc_parked_reason close, oc_certainty close with
  | Some reason, _ => StatusError reason
  | None, Some certainty =>
      if certainty ==? "outcome_unknown" then StatusError "harness outcome unknown" else StatusOk
  | None, None => StatusOk
  end.
Definition tool_span (flight : InFlight) (tool : ToolSpan) : SpanData :=
  {| span_trace_id := if_trace_id flight; span_id := tl_span_id tool;
     span_parent_id := if_span_id flight; span_name := "execute_tool";
     span_start := tl_start tool; span_end := tl_end tool;
     span_attributes := tl_attributes tool; span_events := tl_events tool; span_status := Unset |}.
Definition root_span (flight : InFlight) (close : OwnedClose) : SpanData :=
  {| span_trace_id := if_trace_id flight; span_id := if_span_id flight;
     span_parent_id := invalid_span; span_name := "invoke_agent";
     span_start := if_start flight; span_end := system_time (oc_closed_at_ms close);
     span_attributes :=
       if_attributes flight
       ++ [int_attribute "fleetd.observed_event_count" (if_observed flight)]
       ++ optional_text "fleetd.stop_reason" (oc_stop_reason close)
       ++ optional_text "fleetd.runtime_stop_reason" (oc_runtime_stop_reason close)
       ++ optional_text "fleetd.execution_certainty" (oc_certainty close)
       ++ match oc_session_quiescent close with
          | Some quiescent => [("fleetd.session_quiescent", BoolValue quiescent)]
          | None => []
          end
       ++ match oc_usage close with Some usage => usage_attributes usage | None => [] end;
     span_events := if_events flight; span_status := close_status close |}.
(** [InFlight::close]: the tools in the order of their identifiers, then the turn. *)
Definition close_flight (close : OwnedClose) (flight : InFlight) : list SpanData :=
  map (λ p : string * ToolSpan, tool_span flight p.2)
    (sort_by (by_str fst) (map_to_list (if_tools flight)))
  ++ [root_span flight close].

(** ** The sink *)

Inductive Offer :=
| OfferOpen (turn : TrajectoryTurn)
| OfferUpdate (update : TrajectoryUpdate)
| OfferClose (close : OwnedClose)
| OfferFlush (waiter : nat).
(** The counters are [AtomicU64]s, which wrap. *)
Record Counters := {
  ct_accepted : Z; ct_dropped : Z; ct_exported : Z; ct_failed : Z; ct_warned : bool }.
(** What the drain task holds, what it exported in order with each export's success,
    and the flushes it answered. *)
Record Sink := {
  sk_queue : list Offer;
  sk_counters : Counters;
  sk_in_flight : gmap string InFlight;
  sk_exports : list (list SpanData * bool);
  sk_answered : list nat;
}.
Definition wrap_u64 (n : Z) : Z := n mod (u64_max + 1).

Context (config : EgressConfig).

(** [resource]: its attributes beside the service name. *)
Definition resource_of : list KeyValue :=
  text_attribute "fleetd.agent_id" (eg_agent_id config)
  :: map (λ p : string * string, text_attribute p.1 p.2)
       (sort_by (by_str fst) (map_to_list (eg_resource_attributes config))).

Definition no_counters : Counters :=
  {| ct_accepted := 0; ct_dropped := 0; ct_exported := 0; ct_failed := 0; ct_warned := false |}.
(** [TrajectoryEgress::start] *)
Definition start_sink : Sink :=
  {| sk_queue := []; sk_counters := no_counters; sk_in_flight := ∅; sk_exports := [];
     sk_answered := [] |}.

Definition has_room (sink : Sink) : bool :=
  Z.of_nat (length (sk_queue sink)) <? eg_queue_capacity config.
Definition push (offer : Offer) (counters : Counters) (sink : Sink) : Sink :=
  {| sk_queue := sk_queue sink ++ [offer]; sk_counters := counters;
     sk_in_flight := sk_in_flight sink; sk_exports := sk_exports sink;
     sk_answered := sk_answered sink |}.
(** [enqueue]: the warning is logged when the drop is the first. *)
Definition enqueue (offer : Offer) (sink : Sink) : Sink :=
  let c := sk_counters sink in
  if has_room sink then
    push offer
      {| ct_accepted := wrap_u64 (ct_accepted c + 1); ct_dropped := ct_dropped c;
         ct_exported := ct_exported c; ct_failed := ct_failed c; ct_warned := ct_warned c |} sink
  else
    {| sk_queue := sk_queue sink;
       sk_counters :=
         {| ct_accepted := ct_accepted c; ct_dropped := wrap_u64 (ct_dropped c + 1);
            ct_exported := ct_exported c; ct_failed := ct_failed c;
            ct_warned := ct_warned c || (ct_dropped c ==? 0) |};
       sk_in_flight := sk_in_flight sink; sk_exports := sk_exports sink;
       sk_answered := sk_answered sink |}.

(** [TrajectorySink::open], [observe] and [close] *)
Definition sink_open (turn : TrajectoryTurn) : Sink → Sink := enqueue (OfferOpen turn).
Definition sink_observe (update : TrajectoryUpdate) : Sink → Sink := enqueue (OfferUpdate update).
Definition own_close (outcome : TrajectoryOutcome) : OwnedClose :=
  match to_close outcome with
  | CloseTerminal stop_reason runtime_stop_reason certainty session_quiescent usage =>
      {| oc_invocation_id := to_invocation_id outcome; oc_closed_at_ms := to_closed_at_ms outcome;
         oc_stop_reason := Some stop_reason; oc_runtime_stop_reason := runtime_stop_reason;
         oc_certainty := Some (as_str certainty); oc_session_quiescent := Some session_quiescent;
         oc_usage := Some usage; oc_parked_reason := None |}
  | CloseParked reason =>
      {| oc_invocation_id := to_invocation_id outcome; oc_closed_at_ms := to_closed_at_ms outcome;
         oc_stop_reason := None; oc_runtime_stop_reason := None; oc_certainty := None;
         oc_session_quiescent := None; oc_usage := None; oc_parked_reason := Some reason |}
  end.
Definition sink_close (outcome : TrajectoryOutcome) : Sink → Sink :=
  enqueue (OfferClose (own_close outcome)).
(** The offer of [flush] is not counted; without room the flush is not settled. *)
Definition sink_flush (waiter : nat) (sink : Sink) : Sink :=
  if has_room sink then push (OfferFlush waiter) (sk_counters sink) sink else sink.

(** One offer of the loop of [drain]; [ok] is whether the exporter succeeded. *)
Definition drain_offer (offer : Offer) (ok : bool) (sink : Sink) : Sink :=
  match offer with
  | OfferOpen turn =>
      {| sk_queue := sk_queue sink; sk_counters := sk_counters sink;
         sk_in_flight := <[tj_invocation_id turn := open_flight turn]> (sk_in_flight sink);
         sk_exports := sk_exports sink; sk_answered := sk_answered sink |}
  | OfferUpdate update =>
      {| sk_queue := sk_queue sink; sk_counters := sk_counters sink;
         sk_in_flight := alter (observe update config) (tu_invocation_id update) (sk_in_flight sink);
         sk_exports := sk_exports sink; sk_answered := sk_answered sink |}
  | OfferClose close =>
      match sk_in_flight sink !! oc_invocation_id close with
      | None => sink
      | Some flight =>
          let spans := close_flight close flight in
          let count := Z.of_nat (length spans) in
          let c := sk_counters sink in
          {| sk_queue := sk_queue sink;
             sk_counters :=
               {| ct_accepted := ct_accepted c; ct_dropped := ct_dropped c;
                  ct_exported := if ok then wrap_u64 (ct_exported c + count) else ct_exported c;
                  ct_failed := if ok then ct_failed c else wrap_u64 (ct_failed c + count);
                  ct_warned := ct_warned c |};
             sk_in_flight := delete (oc_invocation_id close) (sk_in_flight sink);
             sk_exports := sk_exports sink ++ [(spans, ok)]; sk_answered := sk_answered sink |}
      end
  | OfferFlush waiter =>
      {| sk_queue := sk_queue sink; sk_counters := sk_counters sink;
         sk_in_flight := sk_in_flight sink; sk_exports := sk_exports sink;
         sk_answered := sk_answered sink ++ [waiter] |}
  end.
Definition pop (queue : list Offer) (sink : Sink) : Sink :=
  {| sk_queue := queue; sk_counters := sk_counters sink; sk_in_flight := sk_in_flight sink;
     sk_exports := sk_exports sink; sk_answered := sk_answered sink |}.
Definition drain_one (ok : bool) (sink : Sink) : Sink :=
  match sk_queue sink with
  | [] => sink
  | offer :: queue => drain_offer offer ok (pop queue sink)
  end.

(** The turn and the drain task interleave at will. *)
Inductive SinkStep :=
| Offered (turn : TrajectoryTurn)
| Observed (update : TrajectoryUpdate)
| Concluded (outcome : TrajectoryOutcome)
| Flushed (waiter : nat)
| Drained (ok : bool).
Definition sink_step (step : SinkStep) (sink : Sink) : Sink :=
  match step with
  | Offered turn => sink_open turn sink
  | Observed update => sink_observe update sink
  | Concluded outcome => sink_close outcome sink
  | Flushed waiter => sink_flush waiter sink
  | Drained ok => drain_one ok sink
  end.
Definition run_sink (steps : list SinkStep) : Sink :=
  foldl (λ sink step, sink_step step sink) start_sink steps.
End projection.
