(* ===== verification/AcpSession.v ===== *)
(** * Sessions of the ACP host (crates/acp-host/src, crates/proto/src/harness_acp.rs)

    The host is the process behind a harness plugin: it translates the frames of
    fleetd to an inner ACP runtime.  This file holds its errors, its configuration
    checks, what it keeps of a session, and the operations that open, adopt, replay
    and close one.  The inner runtime and the connection to it are not part of the
    repository: a reply of the runtime is an argument.  [url::Url::parse], the
    header types of the http crate and the schema types of the ACP crate are the
    class [AcpLibraries]. *)

From stdpp Require Import gmap.
From S2P Require Import Prelude Action Proto Schema Observations Sessions HarnessClient.
From S2P Require Import Supervisor Controller.

(** ** Errors (runtime/mod.rs) *)

Module DriverError.
Inductive t :=
| InvalidConfig (reason : string)
| Protocol (reason : string)
| Runtime (reason : string)
| Json (reason : string)
| Io (reason : string).
Definition code (e : t) : Z :=
  match e with
  | InvalidConfig _ | Protocol _ | Json _ => -32602
  | Runtime _ | Io _ => -32000
  end.
End DriverError.
Notation DriverError := DriverError.t (only parsing).

#[global] Instance Binding_eq_dec : EqDecision Binding.
Proof. solve_decision. Defined.

Definition HOST_MAX_CAPTURE_BYTES : Z := 524288.
Definition MAX_TRANSCRIPT_ENTRIES : Z := 10000.
Definition MAX_TRANSCRIPT_BYTES : Z := 8388608.
Definition ACP_SDK_VERSION : string := "2.0.0".
Definition CARGO_PKG_VERSION : string := "0.1.0".

Section session.
Context `{J : SerdeJson} {JT : JsonTree}.

(** What [Url::parse] reads of a URL. *)
Record Url := {
  url_scheme : string;
  url_host : option string;
  url_port : option Z;
  url_username : string;
  url_password : option string;
  url_query : option string;
  url_fragment : option string;
}.
(** What the host reads of an ACP initialize response. *)
Record AgentCapabilities := {
  load_session : bool;
  session_resume : option Value;
  session_additional_directories : option Value;
}.
Record InitializeResponse := {
  ir_agent_info : option (string * string);
  ir_agent_capabilities : AgentCapabilities;
}.
(** [HeaderName::from_bytes] with its normalized name, [HeaderValue::from_str],
    [Value::as_array] and [as_bool], [serde_json::from_value] and [to_value] of the
    schema types, and the text of a decoding error. *)
Class AcpLibraries := {
  url_parse : string → option Url;
  header_name_from_bytes : string → option string;
  header_value_from_str : string → bool;
  json_as_array : Value → option (list Value);
  json_as_bool : Value → option bool;
  initialize_response_from_value : Value → option InitializeResponse;
  capabilities_to_value : AgentCapabilities → Value;
  json_error : string;
}.
Context {AL : AcpLibraries}.
(** The SHA-256 digest of a byte string in lower-case hexadecimal. *)
Context (sha256_hex : string → string).

(** [serde_json::to_vec] and [to_string] of a [Value], which do not fail. *)
Definition value_text (value : Value) : string := default "" (to_json value).
Definition value_len (value : Value) : Z := str_len (value_text value).

Definition bound_json (value : Value) (limit : Z) : Value :=
  let bytes := value_text value in
  if str_len bytes <=? limit then value
  else json_object [("truncated", json_bool true);
                    ("observed_bytes", json_number (str_len bytes));
                    ("sha256", json_string ("sha256:" +:+ sha256_hex bytes))].

Definition get_str (key : string) (value : Value) : option string :=
  json_get key value ≫= json_as_str.

(** ** Configuration checks (config.rs) *)

Definition checks : Type := unit + DriverError.
Definition absolute (harness label path : string) : checks :=
  reject (negb (is_absolute path))
    (DriverError.InvalidConfig (harness +:+ " " +:+ label +:+ " must be an absolute path")).
(** [is_dir] is the answer of the file system about the path. *)
Definition directory (harness label path : string) (is_dir : bool) : checks :=
  reject (negb (is_absolute path && is_dir))
    (DriverError.InvalidConfig
       (harness +:+ " " +:+ label +:+ " must be an existing absolute directory: " +:+ path)).
Definition non_empty (harness label value : string) : checks :=
  reject (is_blank value)
    (DriverError.InvalidConfig (harness +:+ " " +:+ label +:+ " must not be empty")).
(** [canonical] is the result of [std::fs::canonicalize], or the text of its
    error, and [is_file] the answer of the file system about it. *)
Definition resolved_executable (harness label path : string) (canonical : string + string)
    (is_file : string → bool) : string + DriverError :=
  match canonical with
  | inr error =>
      inr (DriverError.InvalidConfig
             (harness +:+ " " +:+ label +:+ " could not be resolved at " +:+ path +:+ ": " +:+ error))
  | inl executable =>
      if negb (is_file executable) then
        inr (DriverError.InvalidConfig
               (harness +:+ " " +:+ label +:+ " must be a file: " +:+ executable))
      else inl executable
  end.
Definition base_environment (home path : string) (term tmpdir : option string)
    : gmap string string :=
  let environment := <["PATH" := path]> (<["HOME" := home]> ∅) in
  let environment := match term with
                     | Some term => <["TERM" := term]> environment | None => environment end in
  match tmpdir with Some tmpdir => <["TMPDIR" := tmpdir]> environment | None => environment end.
(** [file] is the content of the file, or the text of the error reading it. *)
Definition executable_digest (file : string + string) : string + DriverError :=
  match file with
  | inr error => inr (DriverError.Io error)
  | inl bytes => inl ("sha256:" +:+ sha256_hex bytes)
  end.
Definition profile_digest (material : Value) : string + DriverError :=
  match to_json material with
  | None => inr (DriverError.Json json_error)
  | Some encoded => inl ("sha256:" +:+ sha256_hex encoded)
  end.

Record RuntimeConfig := {
  rc_expected_name : string;
  rc_expected_version : string;
  rc_executable : string;
  rc_identity_path : string;
  rc_args : list string;
  rc_environment : gmap string string;
}.
Record DriverConfig := { dc_profile_digest : string; dc_runtime : RuntimeConfig }.

Definition validate_file (is_file : string → bool) (kind path : string) : checks :=
  reject (negb (is_absolute path) || negb (is_file path))
    (DriverError.InvalidConfig (kind +:+ " must be an existing absolute file: " +:+ path)).
(** The keys of the environment, in the order of a [BTreeMap]. *)
Fixpoint validate_environment (allowed names : list string) : checks :=
  match names with
  | [] => inl tt
  | name :: names =>
      reject (negb (bool_decide (name ∈ allowed)))
        (DriverError.InvalidConfig
           ("environment variable is not an approved non-secret setting: " +:+ name)) ;:
      validate_environment allowed names
  end.
Definition validate_driver (is_file : string → bool) (config : DriverConfig)
    (allowed_environment : list string) : checks :=
  let runtime := dc_runtime config in
  reject (is_blank (dc_profile_digest config))
    (DriverError.InvalidConfig "profile_digest must not be empty") ;:
  validate_file is_file "runtime executable" (rc_executable runtime) ;:
  validate_file is_file "runtime identity path" (rc_identity_path runtime) ;:
  reject (is_blank (rc_expected_name runtime) || is_blank (rc_expected_version runtime))
    (DriverError.InvalidConfig "expected runtime identity must not be empty") ;:
  validate_environment allowed_environment
    (merge_sort String.le (map fst (map_to_list (rc_environment runtime)))).

(** ** The initialize handshake (runtime/initialize.rs) *)

Record AdoptionMethods := {
  ad_load : bool;
  ad_resume : bool;
  ad_additional_directories : bool;
}.
Definition from_capabilities (capabilities : AgentCapabilities) : AdoptionMethods :=
  {| ad_load := load_session capabilities;
     ad_resume := is_some (session_resume capabilities);
     ad_additional_directories := is_some (session_additional_directories capabilities) |}.
Definition adoption_method (adoption : AdoptionMethods) : option string :=
  if ad_resume adoption then Some "session/resume"
  else if ad_load adoption then Some "session/load"
  else None.

(** [reply] is the answer of the runtime to the initialize request, or the text of
    the error of the connection. *)
Definition initialize_runtime (runtime : RuntimeConfig) (executable_digest profile_digest : string)
    (reply : Value + string) : (DescribeResult * AdoptionMethods) + DriverError :=
  match reply with
  | inr error => inr (DriverError.Runtime error)
  | inl raw_initialize =>
  match initialize_response_from_value raw_initialize with
  | None => inr (DriverError.Json json_error)
  | Some parsed =>
  match ir_agent_info parsed with
  | None => inr (DriverError.Runtime "inner ACP runtime did not report agentInfo")
  | Some (name, version) =>
  if (name !=? rc_expected_name runtime) || (version !=? rc_expected_version runtime) then
    inr (DriverError.Runtime
           ("runtime identity mismatch: expected " +:+ rc_expected_name runtime +:+ " "
            +:+ rc_expected_version runtime +:+ ", received " +:+ name +:+ " " +:+ version))
  else
    inl ({| dsc_driver_version := CARGO_PKG_VERSION;
            dsc_acp_sdk_version := ACP_SDK_VERSION;
            dsc_acp_protocol_version := mk_u32 1 eq_refl;
            dsc_runtime_name := name;
            dsc_runtime_version := version;
            dsc_runtime_executable_digest := executable_digest;
            dsc_agent_capabilities := capabilities_to_value (ir_agent_capabilities parsed);
            dsc_max_concurrent_turns := mk_u32 1 eq_refl;
            dsc_max_frame_bytes := MAX_FRAME_BYTES;
            dsc_profile_digest := profile_digest;
            dsc_raw_initialize_result := bound_json raw_initialize (MAX_FRAME_BYTES / 2) |},
         from_capabilities (ir_agent_capabilities parsed))
  end
  end
  end.

(** [declared_interfaces]: of proto and of the runtime. *)
Definition acp_interface (version : string) : PluginInterface :=
  {| if_id := HARNESS_ACP_INTERFACE_ID; if_version := version |}.
Definition declared_interfaces (supports_transcript_replay : bool) : list PluginInterface :=
  acp_interface "0.1.0" :: (if supports_transcript_replay then [acp_interface "0.2.0"] else []).
Definition runtime_interfaces (description : DescribeResult) : list PluginInterface :=
  declared_interfaces
    (default false (json_get "loadSession" (dsc_agent_capabilities description) ≫= json_as_bool)).

(** ** The shared state (runtime/mod.rs) *)

(** The two watch channels of a turn: how often activity was reported, and the
    last cancellation with the number of sends.  The instant that activity carries
    is read by nobody. *)
Record TurnWatch := {
  w_activity : nat;
  w_cancellation : option string;
  w_cancellations : nat;
}.
(** [ht_turn] names the turn: it is the identity of its two channels. *)
Record HostTurn := {
  ht_turn : nat;
  ht_fence : ExecutionFence;
  ht_next_event_seq : Z;
  ht_policy : TurnPolicy;
  ht_captured_bytes : Z;
  ht_assistant_messages : list AssistantMessage;
  ht_tool_calls : Z;
  ht_usage : Value;
  ht_watch : TurnWatch;
}.
Record TranscriptCapture := {
  tc_next_entry_seq : Z;
  tc_entry_count : Z;
  tc_observed_payload_bytes : Z;
  tc_truncated : bool;
}.
Record SessionState := {
  ss_binding : Binding;
  ss_cwd : string;
  ss_additional_directories : list string;
  ss_mcp_grants : list string;
  ss_active : option HostTurn;
  ss_capturing : option TranscriptCapture;
}.
(** [sh_permissions] holds the fence of each pending request; its one-shot channel
    is the entry of [sh_receivers] under the same identifier, which is there as long
    as the receiver is and holds what was sent.  [sh_closed] keeps what the receivers
    of a turn can still read after the turn, and with it their senders, was dropped. *)
Record SharedState := {
  sh_sessions : gmap string SessionState;
  sh_permissions : gmap string ExecutionFence;
  sh_receivers : gmap string (option PermissionOutcome);
  sh_closed : gmap nat TurnWatch;
}.
Definition new_shared : SharedState :=
  {| sh_sessions := ∅; sh_permissions := ∅; sh_receivers := ∅; sh_closed := ∅ |}.

Definition with_active (active : option HostTurn) (s : SessionState) : SessionState :=
  {| ss_binding := ss_binding s; ss_cwd := ss_cwd s;
     ss_additional_directories := ss_additional_directories s; ss_mcp_grants := ss_mcp_grants s;
     ss_active := active; ss_capturing := ss_capturing s |}.
Definition with_capturing (capturing : option TranscriptCapture) (s : SessionState)
    : SessionState :=
  {| ss_binding := ss_binding s; ss_cwd := ss_cwd s;
     ss_additional_directories := ss_additional_directories s; ss_mcp_grants := ss_mcp_grants s;
     ss_active := ss_active s; ss_capturing := capturing |}.
Definition with_sessions (sessions : gmap string SessionState) (s : SharedState) : SharedState :=
  {| sh_sessions := sessions; sh_permissions := sh_permissions s;
     sh_receivers := sh_receivers s; sh_closed := sh_closed s |}.
Definition put_session (session_ref : string) (session : SessionState) (s : SharedState)
    : SharedState :=
  with_sessions (<[session_ref := session]> (sh_sessions s)) s.
(** Dropping a turn drops the senders of its channels. *)
Definition drop_turn (active : option HostTurn) (s : SharedState) : SharedState :=
  match active with
  | None => s
  | Some turn =>
      {| sh_sessions := sh_sessions s; sh_permissions := sh_permissions s;
         sh_receivers := sh_receivers s;
         sh_closed := <[ht_turn turn := ht_watch turn]> (sh_closed s) |}
  end.

(** The three fields a fence or a request names its binding by. *)
Definition fence_binding (fence : ExecutionFence) : Binding :=
  {| binding_id := fence_binding_id fence; binding_generation := fence_binding_generation fence;
     owner_epoch := fence_owner_epoch fence |}.

(** ** Opening, adopting and closing (runtime/session.rs) *)

Fixpoint requested_grants (requested : gset string) (names : list string)
    : gset string + DriverError :=
  match names with
  | [] => inl requested
  | name :: names =>
      if is_blank name || (256 <? str_len name) then
        inr (DriverError.Protocol "MCP grant names must contain between 1 and 256 bytes")
      else if bool_decide (name ∈ requested) then
        inr (DriverError.Protocol ("duplicate MCP grant name: " +:+ name))
      else requested_grants ({[name]} ∪ requested) names
  end.
Fixpoint resolved_grants (requested : gset string) (resolved : gmap string ResolvedMcpGrant)
    (grants : list ResolvedMcpGrant) : gmap string ResolvedMcpGrant + DriverError :=
  match grants with
  | [] => inl resolved
  | grant :: grants =>
      if negb (bool_decide (mcp_name grant ∈ requested)) then
        inr (DriverError.Protocol
               ("resolved MCP endpoint was not requested: " +:+ mcp_name grant))
      else if is_some (resolved !! mcp_name grant) then
        inr (DriverError.Protocol ("duplicate resolved MCP grant: " +:+ mcp_name grant))
      else resolved_grants requested (<[mcp_name grant := grant]> resolved) grants
  end.
Definition validate_loopback_mcp_url (raw : string) : checks :=
  match url_parse raw with
  | None => inr (DriverError.Protocol "resolved MCP URL is invalid")
  | Some url =>
      reject ((url_scheme url !=? "http") || (url_host url !=? Some "127.0.0.1")
              || (url_port url ==? None) || (url_username url !=? "")
              || is_some (url_password url) || is_some (url_query url)
              || is_some (url_fragment url))
        (DriverError.Protocol "resolved MCP URL must be an explicit 127.0.0.1 HTTP endpoint without credentials, query, or fragment")
  end.
Fixpoint validate_mcp_headers (header_names : gset string) (headers : list ResolvedMcpHttpHeader)
    : checks :=
  match headers with
  | [] => inl tt
  | header :: headers =>
      match header_name_from_bytes (header_name header) with
      | None => inr (DriverError.Protocol "invalid MCP HTTP header name")
      | Some parsed_name =>
          reject (negb (header_value_from_str (header_value header)))
            (DriverError.Protocol "invalid MCP HTTP header value") ;:
          reject (4096 <? str_len (header_value header))
            (DriverError.Protocol "MCP HTTP header values must not exceed 4,096 bytes") ;:
          reject (bool_decide (parsed_name ∈ header_names))
            (DriverError.Protocol "duplicate MCP HTTP header name") ;:
          validate_mcp_headers ({[parsed_name]} ∪ header_names) headers
      end
  end.
Definition header_to_value (header : ResolvedMcpHttpHeader) : Value :=
  json_object [("name", json_string (header_name header));
               ("value", json_string (header_value header))].
(** The closure of the last [map]. *)
Definition mcp_server (name : string) (endpoint : ResolvedMcpEndpoint) : Value + DriverError :=
  match endpoint with
  | Http url headers =>
      match (validate_loopback_mcp_url url ;:
             reject (16 <? Z.of_nat (length headers))
               (DriverError.Protocol
                  "resolved MCP HTTP endpoints may have at most 16 headers") ;:
             validate_mcp_headers ∅ headers) with
      | inr e => inr e
      | inl _ =>
          inl (json_object
                 [("type", json_string "http"); ("name", json_string name);
                  ("url", json_string url); ("headers", json_array (map header_to_value headers))])
      end
  end.
(** The lookup is total: the sets of requested and resolved names are equal here. *)
Fixpoint mcp_servers (resolved : gmap string ResolvedMcpGrant) (names : list string)
    : list Value + DriverError :=
  match names with
  | [] => inl []
  | name :: names =>
      match resolved !! name with
      | None => inr (DriverError.Runtime "resolved and requested MCP grant sets match")
      | Some grant =>
          match mcp_server name (mcp_endpoint grant) with
          | inr e => inr e
          | inl server =>
              match mcp_servers resolved names with
              | inr e => inr e
              | inl servers => inl (server :: servers)
              end
          end
      end
  end.
Definition resolve_mcp_servers (request : OpenSession) : list Value + DriverError :=
  match requested_grants ∅ (os_mcp_grants request) with
  | inr e => inr e
  | inl requested =>
      match resolved_grants requested ∅ (os_resolved_mcp_grants request) with
      | inr e => inr e
      | inl resolved =>
          if negb (bool_decide (size requested = size resolved)) then
            inr (DriverError.Protocol
                   "every requested MCP grant must have one resolved endpoint")
          else mcp_servers resolved (os_mcp_grants request)
      end
  end.

Definition require_supported_directories (request : OpenSession) (adoption : AdoptionMethods)
    : checks :=
  reject (negb (os_additional_directories request ==? []) && negb (ad_additional_directories adoption))
    (DriverError.Protocol
       ("runtime does not advertise sessionCapabilities.additionalDirectories, so it cannot honour the "
        +:+ pretty (Z.of_nat (length (os_additional_directories request)))
        +:+ " additional workspace root(s) this seat declares")).

(** The request [open_session] sends: its method and its parameters. *)
Definition session_parameters (request : OpenSession) (session_ref : option string)
    (mcp_servers : list Value) : Value :=
  json_object
    (match session_ref with Some r => [("sessionId", json_string r)] | None => [] end
     ++ [("cwd", json_string (os_working_directory request));
         ("additionalDirectories", json_array (map json_string (os_additional_directories request)));
         ("mcpServers", json_array mcp_servers)]).
Definition open_session_call (request : OpenSession) (adoption : AdoptionMethods)
    : (string * Value) + DriverError :=
  match resolve_mcp_servers request with
  | inr e => inr e
  | inl mcp_servers =>
  match require_supported_directories request adoption with
  | inr e => inr e
  | inl _ =>
  match os_mode request with
  | OpenCreate => inl ("session/new", session_parameters request None mcp_servers)
  | OpenResume session_ref =>
      match adoption_method adoption with
      | None =>
          inr (DriverError.Protocol
                 "inner ACP runtime supports neither session/resume nor session/load")
      | Some method =>
          inl (method, session_parameters request (Some session_ref) mcp_servers)
      end
  end
  end
  end.
(** The reference of the session a reply opened or adopted, and whether it was
    adopted. *)
Definition opened_session (request : OpenSession) (reply : Value + string)
    : (string * bool * Value) + DriverError :=
  match reply with
  | inr error => inr (DriverError.Runtime error)
  | inl raw =>
      match os_mode request with
      | OpenCreate =>
          match get_str "sessionId" raw with
          | None => inr (DriverError.Protocol "session/new omitted sessionId")
          | Some session_ref => inl (session_ref, false, raw)
          end
      | OpenResume session_ref => inl (session_ref, true, raw)
      end
  end.
Definition incompatible (existing : SessionState) (request : OpenSession) : bool :=
  (ss_binding existing !=? os_binding request)
  || (ss_cwd existing !=? os_working_directory request)
  || (ss_additional_directories existing !=? os_additional_directories request)
  || (ss_mcp_grants existing !=? os_mcp_grants request).
(** [open_session], whose request was answered with [reply].  Nothing of the shared
    state is read before the reply; [insert] drops the session it replaces. *)
Definition open_session (request : OpenSession) (adoption : AdoptionMethods)
    (reply : Value + string) : action SharedState DriverError OpenSessionResult :=
  let! _ := try_ (open_session_call request adoption) in
  let! opened := try_ (opened_session request reply) in
  let '(session_ref, resumed, raw_result) := opened in
  let! sessions := look sh_sessions in
  try_ (match sessions !! session_ref with
        | Some existing =>
            reject (incompatible existing request)
              (DriverError.Protocol
                 "session reference already belongs to incompatible binding state")
        | None => inl tt
        end) ;!
  act (λ s, put_session session_ref
              {| ss_binding := os_binding request; ss_cwd := os_working_directory request;
                 ss_additional_directories := os_additional_directories request;
                 ss_mcp_grants := os_mcp_grants request;
                 ss_active := None; ss_capturing := None |}
              (drop_turn (sessions !! session_ref ≫= ss_active) s)) ;!
  done_with
    {| osr_session_ref := session_ref;
       osr_profile_digest := os_profile_digest request;
       osr_resumed := resumed;
       osr_effective_config :=
         json_object
           [("working_directory", json_string (os_working_directory request));
            ("additional_directories",
             json_array (map json_string (os_additional_directories request)));
            ("mcp_grants", json_array (map json_string (os_mcp_grants request)))];
       osr_raw_session_result := bound_json raw_result (MAX_FRAME_BYTES / 2) |}.

(** The result of a close is its two flags. *)
Definition close_session (request : CloseSession) : action SharedState DriverError (bool * bool) :=
  let! sessions := look sh_sessions in
  match sessions !! cs_session_ref request with
  | None => throw (DriverError.Protocol "session reference is not owned by driver")
  | Some session =>
      try_ (reject (is_some (ss_active session))
              (DriverError.Protocol "cannot close a session with an active turn")) ;!
      try_ (reject (ss_binding session !=? cs_binding request)
              (DriverError.Protocol "session close fence does not match binding")) ;!
      act (with_sessions (delete (cs_session_ref request) sessions)) ;!
      done_with (true, false)
  end.

(** ** Replaying a stored conversation (runtime/transcript.rs) *)

Definition classify_update (update : Value) : string :=
  match get_str "sessionUpdate" update with
  | Some kind =>
      if kind ==? "user_message_chunk" then "user_message_content"
      else if kind ==? "agent_message_chunk" then "agent_message_content"
      else if kind ==? "agent_thought_chunk" then "reasoning_content"
      else if kind ==? "tool_call" then "tool_call"
      else if kind ==? "tool_call_update" then "tool_call_update"
      else if kind ==? "plan" then "plan_update"
      else if kind ==? "usage_update" then "usage"
      else if (kind ==? "session_info_update") || (kind ==? "available_commands_update")
              || (kind ==? "current_mode_update") || (kind ==? "config_option_update")
      then "metadata" else "unknown"
  | None => "unknown"
  end.

Definition new_capture : TranscriptCapture :=
  {| tc_next_entry_seq := 1; tc_entry_count := 0; tc_observed_payload_bytes := 0;
     tc_truncated := false |}.
(** [start_transcript] up to the request it sends, which is its result: the state
    keeps the capture whatever becomes of the request. *)
Definition start_transcript (request : StartTranscript) (adoption : AdoptionMethods)
    : action SharedState DriverError Value :=
  try_ (reject (negb (ad_load adoption))
          (DriverError.Protocol
             "inner ACP runtime does not support session/load, so it cannot replay a transcript")) ;!
  let! sessions := look sh_sessions in
  match sessions !! str_session_ref request with
  | None => throw (DriverError.Protocol "transcript requested for an unopened session")
  | Some session =>
      try_ (reject (ss_binding session !=? str_binding request)
              (DriverError.Protocol
                 "transcript requested under a binding that does not own this session")) ;!
      try_ (reject (is_some (ss_active session))
              (DriverError.Protocol
                 "transcript cannot be replayed while a turn is active on this session")) ;!
      try_ (reject (is_some (ss_capturing session))
              (DriverError.Protocol
                 "a transcript replay is already in flight for this session")) ;!
      act (put_session (str_session_ref request) (with_capturing (Some new_capture) session)) ;!
      done_with
        (json_object
           [("sessionId", json_string (str_session_ref request));
            ("cwd", json_string (ss_cwd session));
            ("additionalDirectories",
             json_array (map json_string (ss_additional_directories session)));
            ("mcpServers", json_array [])])
  end.

Definition TRANSCRIPT_REASON_LIMIT : nat := 1024.
Definition bounded_transcript_reason (reason : string) : string :=
  if (String.length reason <=? TRANSCRIPT_REASON_LIMIT)%nat then reason
  else String.substring 0 (floor_boundary reason TRANSCRIPT_REASON_LIMIT) reason.

(** The task spawned by [start_transcript], when its request is answered. *)
Definition complete_transcript (session_ref : string) (failure : option string)
    : SharedState → SharedState * TranscriptComplete := λ s,
  let complete (capture : option TranscriptCapture) :=
    {| trc_session_ref := session_ref;
       trc_entry_count := from_option tc_entry_count 0 capture;
       trc_observed_payload_bytes := from_option tc_observed_payload_bytes 0 capture;
       trc_truncated := from_option tc_truncated false capture;
       trc_failure := bounded_transcript_reason <$> failure |} in
  match sh_sessions s !! session_ref with
  | None => (s, complete None)
  | Some session =>
      (put_session session_ref (with_capturing None session) s, complete (ss_capturing session))
  end.

Definition capture_transcript_entry (now : Z) (capture : TranscriptCapture) (session_ref : string)
    (update : Value) : TranscriptCapture * option TranscriptEntry :=
  if tc_truncated capture then (capture, None) else
  let encoded := value_len update in
  if (MAX_TRANSCRIPT_ENTRIES <=? tc_entry_count capture)
     || (MAX_TRANSCRIPT_BYTES
         <? saturating_add_u64 (tc_observed_payload_bytes capture) encoded)
  then ({| tc_next_entry_seq := tc_next_entry_seq capture;
           tc_entry_count := tc_entry_count capture;
           tc_observed_payload_bytes := tc_observed_payload_bytes capture;
           tc_truncated := true |}, None)
  else
    ({| tc_next_entry_seq := saturating_add_u64 (tc_next_entry_seq capture) 1;
        tc_entry_count := saturating_add_u64 (tc_entry_count capture) 1;
        tc_observed_payload_bytes :=
          saturating_add_u64 (tc_observed_payload_bytes capture) encoded;
        tc_truncated := tc_truncated capture |},
     Some {| tre_session_ref := session_ref; tre_entry_seq := tc_next_entry_seq capture;
             tre_observed_at_ms := now; tre_classification := classify_update update;
             tre_raw_update := update |}).

(** ** Splitting a replay into turns (crates/proto/src/harness_acp.rs) *)

Record TranscriptTurn := {
  trt_invocation_id : option string;
  trt_first_entry_seq : Z;
  trt_entry_count : Z;
  trt_entries : list TranscriptEntry;
}.
(** The brace is byte 123.  [&text[text.find('{')?..]] *)
Fixpoint from_brace (text : string) : option string :=
  match text with
  | EmptyString => None
  | String c rest => if c ==? Ascii.ascii_of_N 123 then Some text else from_brace rest
  end.
Definition prompt_invocation_id (entry : TranscriptEntry) : option string :=
  content ← json_get "content" (tre_raw_update entry);
  text ← get_str "text" content;
  document ← from_brace text;
  envelope ← from_json document;
  invocation ← json_get "invocation" envelope;
  get_str "id" invocation.
(** One round of the loop; the last turn is the head of [turns]. *)
Definition segment_entry (turns : list TranscriptTurn) (entry : TranscriptEntry)
    : list TranscriptTurn :=
  let opens_turn := EventClass.parse (tre_classification entry) ==? EventClass.Prompt in
  match turns with
  | turn :: before =>
      if opens_turn then
        {| trt_invocation_id := prompt_invocation_id entry;
           trt_first_entry_seq := tre_entry_seq entry; trt_entry_count := 1;
           trt_entries := [entry] |} :: turns
      else
        {| trt_invocation_id := trt_invocation_id turn;
           trt_first_entry_seq := trt_first_entry_seq turn;
           trt_entry_count := saturating_add_u64 (trt_entry_count turn) 1;
           trt_entries := trt_entries turn ++ [entry] |} :: before
  | [] =>
      [{| trt_invocation_id := if opens_turn then prompt_invocation_id entry else None;
          trt_first_entry_seq := tre_entry_seq entry; trt_entry_count := 1;
          trt_entries := [entry] |}]
  end.
Definition segment_transcript (entries : list TranscriptEntry) : list TranscriptTurn :=
  rev (fold_left segment_entry entries []).
End session.
