(* ===== verification/AcpHost.v ===== *)
(** * The ACP host (crates/acp-host/src/runtime)

    Turns of the inner runtime, from prompt to terminal evidence.  The host is a set
    of tasks over one locked state: the command loop, the handlers of updates and of
    permission requests, one monitor per turn, one task per replay.  What a task does
    under the lock is one function here; [host_act] runs one such step, chosen by the
    surroundings, and [run_host] a list of them, in any order.  What the runtime sends,
    the clock and the identifiers drawn are arguments of the steps.  A notification is
    first made and then sent: [h_pending] holds those whose task has not reached the
    channel yet.  The receiving end of the channel is the main loop of the plugin,
    which lives as long as the host. *)

From stdpp Require Import gmap.
From S2P Require Import Prelude Action Proto Schema Observations Sessions HarnessClient.
From S2P Require Import Supervisor Controller Projection AcpSession.

Section host.
Context `{J : SerdeJson} {JT : JsonTree} {AL : AcpLibraries}.
Context (sha256_hex : string → string).

(** ** Setters *)

Definition with_next (next : Z) (a : HostTurn) : HostTurn :=
  {| ht_turn := ht_turn a; ht_fence := ht_fence a; ht_next_event_seq := next;
     ht_policy := ht_policy a; ht_captured_bytes := ht_captured_bytes a;
     ht_assistant_messages := ht_assistant_messages a; ht_tool_calls := ht_tool_calls a;
     ht_usage := ht_usage a; ht_watch := ht_watch a |}.
Definition with_capture (captured : Z) (messages : list AssistantMessage) (a : HostTurn)
    : HostTurn :=
  {| ht_turn := ht_turn a; ht_fence := ht_fence a; ht_next_event_seq := ht_next_event_seq a;
     ht_policy := ht_policy a; ht_captured_bytes := captured;
     ht_assistant_messages := messages; ht_tool_calls := ht_tool_calls a;
     ht_usage := ht_usage a; ht_watch := ht_watch a |}.
Definition with_tools (calls : Z) (usage : Value) (watch : TurnWatch) (a : HostTurn) : HostTurn :=
  {| ht_turn := ht_turn a; ht_fence := ht_fence a; ht_next_event_seq := ht_next_event_seq a;
     ht_policy := ht_policy a; ht_captured_bytes := ht_captured_bytes a;
     ht_assistant_messages := ht_assistant_messages a; ht_tool_calls := calls;
     ht_usage := usage; ht_watch := watch |}.
(** [activity.send_replace(now_ms())], [cancellation.send_replace(Some(reason))] *)
Definition report_activity (a : HostTurn) : HostTurn :=
  let w := ht_watch a in
  with_tools (ht_tool_calls a) (ht_usage a)
    {| w_activity := S (w_activity w); w_cancellation := w_cancellation w;
       w_cancellations := w_cancellations w |} a.
Definition send_cancellation (reason : string) (a : HostTurn) : HostTurn :=
  let w := ht_watch a in
  with_tools (ht_tool_calls a) (ht_usage a)
    {| w_activity := w_activity w; w_cancellation := Some reason;
       w_cancellations := S (w_cancellations w) |} a.

(** ** Folding updates into a turn (runtime/update.rs) *)

Definition on_last {A} (f : A → A) (l : list A) : list A :=
  match rev l with x :: before => rev (f x :: before) | [] => [] end.
Definition with_last_seq (event_seq : Z) (m : AssistantMessage) : AssistantMessage :=
  {| am_message_id := am_message_id m; am_content := am_content m; am_complete := am_complete m;
     am_first_event_seq := am_first_event_seq m; am_last_event_seq := event_seq |}.
Definition push_content (content : list Value) (complete : bool) (m : AssistantMessage)
    : AssistantMessage :=
  {| am_message_id := am_message_id m; am_content := am_content m ++ content;
     am_complete := am_complete m && complete;
     am_first_event_seq := am_first_event_seq m; am_last_event_seq := am_last_event_seq m |}.
Definition on_message (f : AssistantMessage → AssistantMessage) (captured : Z) (a : HostTurn)
    : HostTurn :=
  with_capture captured (on_last f (ht_assistant_messages a)) a.

Definition capture_limit (a : HostTurn) : Z := tp_max_captured_output_bytes (ht_policy a).
Definition remaining_capture (a : HostTurn) : Z :=
  Z.max 0 (capture_limit a - ht_captured_bytes a).

(** [messageId]: absent and null are no identifier. *)
Definition chunk_message_id (update : Value) : option string + DriverError :=
  match json_get "messageId" update with
  | None => inl None
  | Some value =>
      if value ==? json_null then inl None
      else match json_as_str value with
           | Some id => inl (Some id)
           | None => inr (DriverError.Protocol "agent messageId must be a string or null")
           end
  end.
(** Creates the message of a chunk, unless it continues the last one. *)
Definition begin_message (message_id : option string) (event_seq : Z)
    : action HostTurn DriverError unit :=
  let! messages := look ht_assistant_messages in
  if (am_message_id <$> last messages) ==? Some message_id then done_with tt else
  try_ (match message_id with
        | Some id =>
            reject (existsb (λ m, am_message_id m ==? Some id) messages)
              (DriverError.Protocol
                 ("agent messageId " +:+ id +:+ " reappeared after a different message"))
        | None => inl tt
        end) ;!
  act (λ a, with_capture (ht_captured_bytes a)
              (messages ++ [{| am_message_id := message_id; am_content := []; am_complete := true;
                               am_first_event_seq := event_seq;
                               am_last_event_seq := event_seq |}]) a).
(** [captured["text"] = Value::String(..)]: [content] is an object, for it has a
    member, so the insertion is never refused. *)
Definition truncated_text (content : Value) (text : string) : Value :=
  default content (json_insert "text" (json_string text) content).
(** The text or value a chunk adds to the last message, within the bytes left. *)
Definition capture_content (content : Value) : action HostTurn DriverError unit :=
  let! remaining := look remaining_capture in
  if get_str "type" content ==? Some "text" then
    match get_str "text" content with
    | None => throw (DriverError.Protocol "agent text chunk omitted text")
    | Some text =>
        if str_len text <=? remaining then
          act (λ a, on_message (push_content [content] true) (ht_captured_bytes a + str_len text) a)
        else
          let end_ := floor_boundary text (Z.to_nat (Z.min remaining (str_len text))) in
          act (λ a, on_message
                      (push_content
                         (if (0 <? end_)%nat
                          then [truncated_text content (String.substring 0 end_ text)] else [])
                         false)
                      (capture_limit a) a)
    end
  else
    match to_json content with
    | None => throw (DriverError.Json json_error)
    | Some encoded =>
        if str_len encoded <=? remaining then
          act (λ a, on_message (push_content [content] true)
                      (ht_captured_bytes a + str_len encoded) a)
        else act (λ a, on_message (push_content [] false) (capture_limit a) a)
    end.
Definition capture_update (event_seq : Z) (update : Value) : action HostTurn DriverError unit :=
  let kind := get_str "sessionUpdate" update in
  act (λ a, if kind ==? Some "usage_update"
            then with_tools (ht_tool_calls a) update (ht_watch a) a else a) ;!
  if kind !=? Some "agent_message_chunk" then done_with tt else
  let! message_id := try_ (chunk_message_id update) in
  let! content := try_ (match json_get "content" update with
                        | Some content => inl content
                        | None =>
                            inr (DriverError.Protocol "agent message chunk omitted content")
                        end) in
  begin_message message_id event_seq ;!
  act (λ a, on_message (with_last_seq event_seq) (ht_captured_bytes a) a) ;!
  capture_content content.

Definition recognized_activity (classification : string) : bool :=
  bool_decide (classification ∈
    ["agent_message_content"; "reasoning_content"; "tool_call"; "tool_call_update";
     "plan_update"]).
(** What [handle_session_update] does with the active turn, under the lock. *)
Definition observe_update (now : Z) (update : Value) : action HostTurn DriverError TurnEvent :=
  let! event_seq := look ht_next_event_seq in
  let! next := try_ (match checked_add_u64 event_seq 1 with
                     | Some next => inl next
                     | None => inr (DriverError.Protocol "event sequence overflowed")
                     end) in
  act (with_next next) ;!
  let classification := classify_update update in
  act (λ a, if recognized_activity classification then report_activity a else a) ;!
  capture_update event_seq update ;!
  act (λ a, if classification ==? "tool_call"
            then with_tools (saturating_add_u64 (ht_tool_calls a) 1) (ht_usage a) (ht_watch a) a
            else a) ;!
  act (λ a, if tb_limit (tp_tool_budget (ht_policy a)) <? ht_tool_calls a
            then send_cancellation "tool_budget" a else a) ;!
  look (λ a, {| te_fence := ht_fence a; te_event_seq := event_seq; te_observed_at_ms := now;
                te_classification := classification;
                te_raw_update := bound_json sha256_hex update (capture_limit a) |}).

(** Runs [m] on the active turn of a session, and keeps what it did when it failed. *)
Definition on_active {A} (session_ref : string) (session : SessionState) (turn : HostTurn)
    (m : action HostTurn DriverError A) : action SharedState DriverError A := λ s,
  let (turn', r) := m turn in
  (put_session session_ref (with_active (Some turn') session) s, r).

(** [handle_session_update] up to the channel: what it makes, if anything, with the
    turn it belongs to. *)
Definition handle_session_update (now : Z) (raw : Value)
    : action SharedState DriverError (option (option nat * HarnessAcpNotification)) :=
  match get_str "sessionId" raw with
  | None => throw (DriverError.Protocol "session/update omitted sessionId")
  | Some session_ref =>
  match json_get "update" raw with
  | None => throw (DriverError.Protocol "session/update omitted update")
  | Some update =>
  let! sessions := look sh_sessions in
  match sessions !! session_ref with
  | None => done_with None
  | Some session =>
  match ss_capturing session with
  | Some capture =>
      let (capture', entry) := capture_transcript_entry now capture session_ref update in
      act (put_session session_ref (with_capturing (Some capture') session)) ;!
      done_with ((λ entry, (None, NTranscriptEntry entry)) <$> entry)
  | None =>
  match ss_active session with
  | None => done_with None
  | Some turn =>
      let! event := on_active session_ref session turn (observe_update now update) in
      done_with (Some (Some (ht_turn turn), NTurnEvent event))
  end
  end
  end
  end
  end.

(** ** Permission requests (runtime/permission.rs) *)

Definition with_permissions (permissions : gmap string ExecutionFence)
    (receivers : gmap string (option PermissionOutcome)) (s : SharedState) : SharedState :=
  {| sh_sessions := sh_sessions s; sh_permissions := permissions; sh_receivers := receivers;
     sh_closed := sh_closed s |}.

(** What the handler does with the active turn: the event number is a [u64] that
    [+=] adds to. *)
Definition observe_permission (now : Z) (permission_id : string) (raw : Value)
    : action HostTurn DriverError PermissionRequested :=
  let! event_seq := look ht_next_event_seq in
  act (with_next (wrap_u64 (event_seq + 1))) ;!
  act report_activity ;!
  look (λ a,
    let expiry := Z.min (tp_idle_timeout_ms (ht_policy a)) (tp_wall_timeout_ms (ht_policy a)) in
    {| pq_fence := ht_fence a; pq_permission_id := permission_id; pq_event_seq := event_seq;
       pq_tool_call := default json_null (json_get "toolCall" raw);
       pq_options := default [] (json_get "options" raw ≫= json_as_array);
       pq_expires_at_ms := saturate_i64 (now + default i64_max (i64_try_from expiry)) |}).
(** [handle_permission_request] up to the channel. *)
Definition handle_permission_request (now : Z) (permission_id : string) (raw : Value)
    : action SharedState DriverError (nat * PermissionRequested) :=
  match get_str "sessionId" raw with
  | None => throw (DriverError.Protocol "permission request omitted sessionId")
  | Some session_ref =>
  let! sessions := look sh_sessions in
  match sessions !! session_ref with
  | None => throw (DriverError.Protocol "permission request references unknown session")
  | Some session =>
  match ss_active session with
  | None => throw (DriverError.Protocol "permission request arrived outside an active turn")
  | Some turn =>
      let! event := on_active session_ref session turn (observe_permission now permission_id raw) in
      act (λ s, with_permissions (<[permission_id := pq_fence event]> (sh_permissions s))
                  (<[permission_id := None]> (sh_receivers s)) s) ;!
      done_with (ht_turn turn, event)
  end
  end
  end.
(** The end of the wait on the one-shot channel, which takes the receiver away: an
    answer that was sent, a sender that was dropped, or the deadline. *)
Definition permission_outcome (permission_id : string) : SharedState → SharedState * PermissionOutcome :=
  λ s, (with_permissions (sh_permissions s) (delete permission_id (sh_receivers s)) s,
        match sh_receivers s !! permission_id with
        | Some (Some outcome) => outcome
        | _ => Cancelled
        end).
Definition forget_permission (permission_id : string) (s : SharedState) : SharedState :=
  with_permissions (delete permission_id (sh_permissions s)) (sh_receivers s) s.
(** The body of the reply to the runtime. *)
Definition permission_reply (outcome : PermissionOutcome) : Value :=
  match outcome with
  | Selected option_id =>
      json_object [("outcome", json_object [("outcome", json_string "selected");
                                            ("optionId", json_string option_id)])]
  | Cancelled => json_object [("outcome", json_object [("outcome", json_string "cancelled")])]
  end.

(** [response.send(outcome)]: refused when the receiver is gone. *)
Definition send_outcome (permission_id : string) (outcome : PermissionOutcome) (s : SharedState)
    : option SharedState :=
  match sh_receivers s !! permission_id with
  | Some _ =>
      Some (with_permissions (sh_permissions s)
              (<[permission_id := Some outcome]> (sh_receivers s)) s)
  | None => None
  end.
Definition resolve_permission (request : PermissionResolution)
    : action SharedState DriverError unit := λ s,
  let permission_id := pr_permission_id request in
  match sh_permissions s !! permission_id with
  | None => (s, inr (DriverError.Protocol "permission request is not pending"))
  | Some fence =>
      let s := forget_permission permission_id s in
      if fence !=? pr_fence request then
        (s, inr (DriverError.Protocol "permission resolution fence does not match request"))
      else
        match send_outcome permission_id (pr_outcome request) s with
        | Some s => (s, inl tt)
        | None => (s, inr (DriverError.Protocol "permission request already expired"))
        end
  end.
(** Removes a pending request and answers it with a cancellation. *)
Definition withdraw_permission (s : SharedState) (permission_id : string) : SharedState :=
  match sh_permissions s !! permission_id with
  | None => s
  | Some _ =>
      let s := forget_permission permission_id s in
      default s (send_outcome permission_id Cancelled s)
  end.
Definition permissions_of (fence : ExecutionFence) (s : SharedState) : list string :=
  map fst (List.filter (λ p, p.2 ==? fence) (map_to_list (sh_permissions s))).
Definition cancel_permissions_for_fence (fence : ExecutionFence) (s : SharedState) : SharedState :=
  fold_left withdraw_permission (permissions_of fence s) s.
Definition cancel_all_permissions (s : SharedState) : SharedState :=
  fold_left withdraw_permission (map fst (map_to_list (sh_permissions s))) s.

(** ** Turns (runtime/turn.rs) *)

Definition optional_string (value : option string) : Value :=
  match value with Some value => json_string value | None => json_null end.
(** [serde_json::to_value] of the source and of the prompt of a turn. *)
Definition source_to_value (source : TurnSource) : Value :=
  json_object
    [("agent_id", json_string (ts_agent_id source));
     ("message_id", json_string (ts_message_id source));
     ("channel_id", json_string (ts_channel_id source));
     ("sender_id", json_string (ts_sender_id source));
     ("correlation_id", optional_string (ts_correlation_id source));
     ("causation_id", optional_string (ts_causation_id source))].
Definition prompt_to_value (prompt : list PromptBlock) : Value :=
  json_array (map (λ block, match block with
                            | PromptText text =>
                                json_object [("type", json_string "text");
                                             ("text", json_string text)]
                            end) prompt).
(** The request a turn sends to the runtime. *)
Definition prompt_request (request : StartTurn) : Value :=
  json_object
    [("sessionId", json_string (st_session_ref request));
     ("prompt", prompt_to_value (st_prompt request));
     ("_meta", json_object
        [("fleetd", json_object [("source", source_to_value (st_source request));
                                 ("fence", fence_to_value (st_fence request))])])].

Definition effective_enforcement : EffectiveEnforcement :=
  {| ee_wall_timeout := "hard"; ee_idle_timeout := "hard"; ee_cancel_drain_timeout := "hard";
     ee_captured_output_bytes := "hard"; ee_tool_budget := "observe_then_cancel";
     ee_token_budget := "unavailable" |}.
Definition new_turn (turn : nat) (request : StartTurn) : HostTurn :=
  {| ht_turn := turn; ht_fence := st_fence request; ht_next_event_seq := 1;
     ht_policy := st_policy request; ht_captured_bytes := 0; ht_assistant_messages := [];
     ht_tool_calls := 0; ht_usage := json_null;
     ht_watch := {| w_activity := 0; w_cancellation := None; w_cancellations := 0 |} |}.
(** [start_turn] up to the prompt it sends. *)
Definition start_turn (turn : nat) (request : StartTurn)
    : action SharedState DriverError StartTurnResult :=
  let policy := st_policy request in
  try_ (reject ((tp_max_captured_output_bytes policy ==? 0)
                || (HOST_MAX_CAPTURE_BYTES <? tp_max_captured_output_bytes policy))
          (DriverError.Protocol "max_captured_output_bytes must be between 1 and 524288")) ;!
  try_ (reject ((tp_permission_policy policy !=? "controller")
                || (tb_required_enforcement (tp_tool_budget policy) !=? "observe_then_cancel")
                || is_some (tp_token_budget policy))
          (DriverError.Protocol "requested turn enforcement is not supported")) ;!
  let! sessions := look sh_sessions in
  match sessions !! st_session_ref request with
  | None => throw (DriverError.Protocol "turn references an unopened session")
  | Some session =>
      try_ (reject (is_some (ss_active session))
              (DriverError.Protocol "session already has an active turn")) ;!
      try_ (reject (ss_binding session !=? fence_binding (st_fence request))
              (DriverError.Protocol "turn fence does not match session binding")) ;!
      act (put_session (st_session_ref request)
             (with_active (Some (new_turn turn request)) session)) ;!
      done_with {| str_accepted := true; str_effective_enforcement := effective_enforcement |}
  end.

Inductive PromptOutcome :=
| Known (response : Value) (host_stop_reason : option string)
| UnknownOutcome (evidence : Value).

(** [emit_terminal] under the lock: the turn it takes is the active one of the
    session.  With it, the requests to withdraw before the terminal is sent. *)
Definition terminal_parts (outcome : PromptOutcome)
    : Value * HarnessExecutionCertainty * bool * string * option string :=
  match outcome with
  | Known response host_stop_reason =>
      let runtime_stop := default "unknown" (get_str "stopReason" response) in
      match host_stop_reason with
      | Some host_stop => (response, OutcomeKnown, true, host_stop, Some runtime_stop)
      | None => (response, OutcomeKnown, true, runtime_stop, None)
      end
  | UnknownOutcome evidence => (evidence, OutcomeUnknown, false, "outcome_unknown", None)
  end.
Definition turn_terminal (active : HostTurn) (outcome : PromptOutcome) : TurnTerminal :=
  let '(raw_response, certainty, quiescent, stop_reason, runtime_stop_reason) :=
    terminal_parts outcome in
  {| tt_fence := ht_fence active;
     tt_last_event_seq := Z.max 0 (ht_next_event_seq active - 1);
     tt_stop_reason := stop_reason;
     tt_runtime_stop_reason := runtime_stop_reason;
     tt_execution_certainty := certainty;
     tt_session_quiescent := quiescent;
     tt_session_persistence :=
       if quiescent then SessionPersistence.RuntimeClaimed else SessionPersistence.Unknown;
     tt_assistant_messages := ht_assistant_messages active;
     tt_usage := ht_usage active;
     tt_raw_prompt_response := bound_json sha256_hex raw_response (MAX_FRAME_BYTES / 2) |}.
Definition emit_terminal (session_ref : string) (outcome : PromptOutcome)
    : action SharedState DriverError (nat * TurnTerminal * list string) :=
  let! shared := look id in
  match sh_sessions shared !! session_ref with
  | None => throw (DriverError.Protocol "terminal turn session disappeared")
  | Some session =>
  match ss_active session with
  | None => throw (DriverError.Protocol "terminal turn was not active")
  | Some active =>
      act (λ s, put_session session_ref (with_active None session) (drop_turn (Some active) s)) ;!
      done_with (ht_turn active, turn_terminal active outcome,
                 permissions_of (ht_fence active) shared)
  end
  end.

(** [cancel_turn] up to the withdrawal of the permission requests: the session whose
    turn has the fence.  Then its end, once the requests are withdrawn. *)
Definition has_active_fence (fence : ExecutionFence) (session : SessionState) : bool :=
  match ss_active session with Some active => ht_fence active ==? fence | None => false end.
Definition begin_cancel (request : CancelTurn) : action SharedState DriverError string :=
  let! sessions := look sh_sessions in
  match List.find (λ p, has_active_fence (ct_fence request) p.2) (map_to_list sessions) with
  | None => throw (DriverError.Protocol "turn fence is not active")
  | Some (session_ref, _) =>
      act (cancel_permissions_for_fence (ct_fence request)) ;!
      done_with session_ref
  end.
Definition finish_cancel (session_ref reason : string) : action SharedState DriverError unit :=
  let! sessions := look sh_sessions in
  match sessions !! session_ref with
  | None => throw (DriverError.Protocol "turn stopped during cancellation")
  | Some session =>
      match ss_active session with
      | None => throw (DriverError.Protocol "turn stopped during cancellation")
      | Some active =>
          act (put_session session_ref
                 (with_active (Some (send_cancellation reason active)) session))
      end
  end.

(** ** The monitor of a turn (runtime/turn.rs) *)

Inductive MonitorPhase :=
| Watching
| Draining (reason : string) (deadline : Z)
| Settled (outcome : PromptOutcome)
| Withdrawing (turn : nat) (terminal : TurnTerminal) (permission_ids : list string)
| Ended.
Record Monitor := {
  mo_session_ref : string;
  mo_wall_deadline : Z;
  mo_idle_deadline : Z;
  mo_idle_timeout : Z;
  mo_cancel_drain_timeout : Z;
  mo_seen_activity : nat;
  mo_seen_cancellations : nat;
  mo_phase : MonitorPhase;
}.
Definition new_monitor (now : Z) (request : StartTurn) : Monitor :=
  let policy := st_policy request in
  {| mo_session_ref := st_session_ref request;
     mo_wall_deadline := now + tp_wall_timeout_ms policy;
     mo_idle_deadline := now + tp_idle_timeout_ms policy;
     mo_idle_timeout := tp_idle_timeout_ms policy;
     mo_cancel_drain_timeout := tp_cancel_drain_timeout_ms policy;
     mo_seen_activity := 0; mo_seen_cancellations := 0; mo_phase := Watching |}.
Definition in_phase (phase : MonitorPhase) (m : Monitor) : Monitor :=
  {| mo_session_ref := mo_session_ref m; mo_wall_deadline := mo_wall_deadline m;
     mo_idle_deadline := mo_idle_deadline m; mo_idle_timeout := mo_idle_timeout m;
     mo_cancel_drain_timeout := mo_cancel_drain_timeout m;
     mo_seen_activity := mo_seen_activity m; mo_seen_cancellations := mo_seen_cancellations m;
     mo_phase := phase |}.
Definition having_seen (activity cancellations : nat) (idle_deadline : Z) (m : Monitor) : Monitor :=
  {| mo_session_ref := mo_session_ref m; mo_wall_deadline := mo_wall_deadline m;
     mo_idle_deadline := idle_deadline; mo_idle_timeout := mo_idle_timeout m;
     mo_cancel_drain_timeout := mo_cancel_drain_timeout m;
     mo_seen_activity := activity; mo_seen_cancellations := cancellations;
     mo_phase := mo_phase m |}.

(** What the receivers of a turn read, and whether their senders are alive. *)
Definition watch_of (turn : nat) (session_ref : string) (s : SharedState) : TurnWatch * bool :=
  match sh_sessions s !! session_ref ≫= ss_active with
  | Some active =>
      if ht_turn active ==? turn then (ht_watch active, true)
      else (default (ht_watch active) (sh_closed s !! turn), false)
  | None =>
      (default {| w_activity := 0; w_cancellation := None; w_cancellations := 0 |}
         (sh_closed s !! turn), false)
  end.

(** What ends the wait for the prompt: its response, an error of the connection or of
    the task that waits for it, a deadline, or a change of a watch channel. *)
Inductive PromptReply :=
| PromptResponse (response : Value)
| PromptError (error : string)
| PromptJoinError (error : string).
Inductive MonitorEvent :=
| Replied (reply : PromptReply)
| WallElapsed
| IdleElapsed
| ActivityChanged
| CancellationChanged
| DrainElapsed.

Definition evidence_of (fields : list (string * string)) : Value :=
  json_object (map (λ p, (p.1, json_string p.2)) fields).
Definition prompt_outcome (reason : option string) (reply : PromptReply) : PromptOutcome :=
  let cancel := match reason with Some reason => [("cancel_reason", reason)] | None => [] end in
  match reply with
  | PromptResponse response => Known response reason
  | PromptError error => UnknownOutcome (evidence_of (cancel ++ [("error", error)]))
  | PromptJoinError error => UnknownOutcome (evidence_of (cancel ++ [("join_error", error)]))
  end.
(** The head of [cancel_and_drain], which also sends the cancel notification. *)
Definition start_drain (now : Z) (reason : string) (m : Monitor) : Monitor :=
  in_phase (Draining reason (now + mo_cancel_drain_timeout m)) m.
(** The branch of a select that [event] makes ready, if it does. *)
Definition watching_event (now : Z) (watch : TurnWatch) (open : bool) (event : MonitorEvent)
    (m : Monitor) : option Monitor :=
  match event with
  | Replied reply => Some (in_phase (Settled (prompt_outcome None reply)) m)
  | WallElapsed =>
      if mo_wall_deadline m <=? now then Some (start_drain now "wall_deadline" m) else None
  | IdleElapsed =>
      if mo_idle_deadline m <=? now then Some (start_drain now "idle_deadline" m) else None
  | ActivityChanged =>
      if bool_decide (w_activity watch ≠ mo_seen_activity m) then
        Some (having_seen (w_activity watch) (mo_seen_cancellations m)
                (now + mo_idle_timeout m) m)
      else if open then None
      else Some (in_phase (Settled (UnknownOutcome
                   (evidence_of [("error", "activity monitor closed")]))) m)
  | CancellationChanged =>
      if bool_decide (w_cancellations watch ≠ mo_seen_cancellations m) then
        let m := having_seen (mo_seen_activity m) (w_cancellations watch) (mo_idle_deadline m) m in
        Some (match w_cancellation watch with
              | Some reason => start_drain now reason m
              | None => m
              end)
      else if open then None
      else Some (in_phase (Settled (UnknownOutcome
                   (evidence_of [("error", "cancellation monitor closed")]))) m)
  | DrainElapsed => None
  end.
Definition draining_event (now : Z) (reason : string) (deadline : Z) (event : MonitorEvent)
    (m : Monitor) : option Monitor :=
  match event with
  | Replied reply => Some (in_phase (Settled (prompt_outcome (Some reason) reply)) m)
  | DrainElapsed =>
      if deadline <=? now then
        Some (in_phase (Settled (UnknownOutcome
                (evidence_of [("cancel_reason", reason);
                              ("error", "cancel drain deadline exceeded")]))) m)
      else None
  | _ => None
  end.
Definition monitor_event (now : Z) (turn : nat) (s : SharedState) (event : MonitorEvent)
    (m : Monitor) : option Monitor :=
  match mo_phase m with
  | Watching =>
      let (watch, open) := watch_of turn (mo_session_ref m) s in
      watching_event now watch open event m
  | Draining reason deadline => draining_event now reason deadline event m
  | _ => None
  end.

(** ** Frames (crates/proto/src/harness_acp.rs) *)

Definition certainty_to_value (certainty : HarnessExecutionCertainty) : Value :=
  json_string (match certainty with
               | NotStarted => "not_started"
               | OutcomeKnown => "outcome_known"
               | OutcomeUnknown => "outcome_unknown"
               end).
Definition message_to_value (message : AssistantMessage) : Value :=
  json_object
    [("message_id", optional_string (am_message_id message));
     ("content", json_array (am_content message));
     ("complete", json_bool (am_complete message));
     ("first_event_seq", json_number (am_first_event_seq message));
     ("last_event_seq", json_number (am_last_event_seq message))].
Definition terminal_to_value (terminal : TurnTerminal) : Value :=
  json_object
    ([("fence", fence_to_value (tt_fence terminal));
      ("last_event_seq", json_number (tt_last_event_seq terminal));
      ("stop_reason", json_string (tt_stop_reason terminal))]
     ++ match tt_runtime_stop_reason terminal with
        | Some reason => [("runtime_stop_reason", json_string reason)]
        | None => []
        end
     ++ [("execution_certainty", certainty_to_value (tt_execution_certainty terminal));
         ("session_quiescent", json_bool (tt_session_quiescent terminal));
         ("session_persistence", json_string (as_str (tt_session_persistence terminal)));
         ("assistant_messages", json_array (map message_to_value (tt_assistant_messages terminal)));
         ("usage", tt_usage terminal);
         ("raw_prompt_response", tt_raw_prompt_response terminal)]).
Definition transcript_entry_to_value (entry : TranscriptEntry) : Value :=
  json_object
    [("session_ref", json_string (tre_session_ref entry));
     ("entry_seq", json_number (tre_entry_seq entry));
     ("observed_at_ms", json_number (tre_observed_at_ms entry));
     ("classification", json_string (tre_classification entry));
     ("raw_update", tre_raw_update entry)].
Definition transcript_complete_to_value (complete : TranscriptComplete) : Value :=
  json_object
    ([("session_ref", json_string (trc_session_ref complete));
      ("entry_count", json_number (trc_entry_count complete));
      ("observed_payload_bytes", json_number (trc_observed_payload_bytes complete));
      ("truncated", json_bool (trc_truncated complete))]
     ++ match trc_failure complete with
        | Some failure => [("failure", json_string failure)]
        | None => []
        end).
(** The notification each send puts on the channel. *)
Definition driver_notification (n : HarnessAcpNotification) : PluginNotification :=
  match n with
  | NTurnEvent event =>
      {| pn_method := "harness.acp.turn.event"; pn_params := turn_event_to_value event |}
  | NPermissionRequested request =>
      {| pn_method := "harness.acp.permission.requested";
         pn_params := permission_to_value request |}
  | NTurnTerminal terminal =>
      {| pn_method := "harness.acp.turn.terminal"; pn_params := terminal_to_value terminal |}
  | NTranscriptEntry entry =>
      {| pn_method := "harness.acp.session.transcript.entry";
         pn_params := transcript_entry_to_value entry |}
  | NTranscriptComplete complete =>
      {| pn_method := "harness.acp.session.transcript.complete";
         pn_params := transcript_complete_to_value complete |}
  end.

(** ** The host and its steps *)

(** The handler of a permission request: waiting for the channel, for the outcome
    until a deadline, or for the lock to take the request away and reply. *)
Inductive PermissionWait :=
| WaitSending (expiry : Z)
| Waiting (deadline : Z)
| Replying (outcome : PermissionOutcome).

Inductive HostEvent :=
| TurnStarted (turn : nat) (request : StartTurn)
| PermissionResolved (request : PermissionResolution)
| PermissionAnswered (permission_id : string) (outcome : PermissionOutcome)
| RuntimeAsked (method : string) (params : Value)
| Notified (turn : option nat) (notification : HarnessAcpNotification).

(** [h_command] is a cancellation whose second half is still to come: the command
    loop serves nothing else before. *)
Record Host := {
  h_now : Z;
  h_running : bool;
  h_next_turn : nat;
  h_shared : SharedState;
  h_command : option (string * string);
  h_monitors : gmap nat Monitor;
  h_waits : gmap string PermissionWait;
  h_replays : list string;
  h_pending : list (option nat * HarnessAcpNotification);
  h_log : list HostEvent;
}.
Definition new_host (now : Z) : Host :=
  {| h_now := now; h_running := true; h_next_turn := 0; h_shared := new_shared;
     h_command := None; h_monitors := ∅; h_waits := ∅; h_replays := []; h_pending := [];
     h_log := [] |}.

Definition sharing (s : SharedState) (h : Host) : Host :=
  {| h_now := h_now h; h_running := h_running h; h_next_turn := h_next_turn h; h_shared := s;
     h_command := h_command h; h_monitors := h_monitors h; h_waits := h_waits h;
     h_replays := h_replays h; h_pending := h_pending h; h_log := h_log h |}.
Definition commanding (running : bool) (command : option (string * string)) (h : Host) : Host :=
  {| h_now := h_now h; h_running := running; h_next_turn := h_next_turn h;
     h_shared := h_shared h; h_command := command; h_monitors := h_monitors h;
     h_waits := h_waits h; h_replays := h_replays h; h_pending := h_pending h;
     h_log := h_log h |}.
Definition with_monitors (next_turn : nat) (monitors : gmap nat Monitor) (h : Host) : Host :=
  {| h_now := h_now h; h_running := h_running h; h_next_turn := next_turn;
     h_shared := h_shared h; h_command := h_command h; h_monitors := monitors;
     h_waits := h_waits h; h_replays := h_replays h; h_pending := h_pending h;
     h_log := h_log h |}.
Definition with_waits (waits : gmap string PermissionWait) (h : Host) : Host :=
  {| h_now := h_now h; h_running := h_running h; h_next_turn := h_next_turn h;
     h_shared := h_shared h; h_command := h_command h; h_monitors := h_monitors h;
     h_waits := waits; h_replays := h_replays h; h_pending := h_pending h;
     h_log := h_log h |}.
Definition with_pending (pending : list (option nat * HarnessAcpNotification))
    (replays : list string) (h : Host) : Host :=
  {| h_now := h_now h; h_running := h_running h; h_next_turn := h_next_turn h;
     h_shared := h_shared h; h_command := h_command h; h_monitors := h_monitors h;
     h_waits := h_waits h; h_replays := replays; h_pending := pending; h_log := h_log h |}.
Definition logging (events : list HostEvent) (h : Host) : Host :=
  {| h_now := h_now h; h_running := h_running h; h_next_turn := h_next_turn h;
     h_shared := h_shared h; h_command := h_command h; h_monitors := h_monitors h;
     h_waits := h_waits h; h_replays := h_replays h; h_pending := h_pending h;
     h_log := h_log h ++ events |}.
Definition at_time (now : Z) (h : Host) : Host :=
  {| h_now := now; h_running := h_running h; h_next_turn := h_next_turn h;
     h_shared := h_shared h; h_command := h_command h; h_monitors := h_monitors h;
     h_waits := h_waits h; h_replays := h_replays h; h_pending := h_pending h;
     h_log := h_log h |}.
Definition made (turn : option nat) (n : HarnessAcpNotification) (h : Host) : Host :=
  with_pending (h_pending h ++ [(turn, n)]) (h_replays h) h.
Definition set_monitor (turn : nat) (m : Monitor) (h : Host) : Host :=
  with_monitors (h_next_turn h) (<[turn := m]> (h_monitors h)) h.

(** One of the tasks that replay a session is over. *)
Fixpoint remove_one (session_ref : string) (replays : list string) : list string :=
  match replays with
  | [] => []
  | r :: replays =>
      if r ==? session_ref then replays else r :: remove_one session_ref replays
  end.

(** A command, while the loop serves it: [serve_commands]. *)
Definition command {A} (m : action SharedState DriverError A) (after : A → Host → Host) (h : Host)
    : Host :=
  if h_running h && (h_command h ==? None) then
    match m (h_shared h) with
    | (s, inl a) => after a (sharing s h)
    | (s, inr _) => sharing s h
    end
  else h.

(** The monitor a started turn leaves running, and its prompt. *)
Definition turn_started (request : StartTurn) (_ : StartTurnResult) (h : Host) : Host :=
  let turn := h_next_turn h in
  logging [TurnStarted turn request; RuntimeAsked "session/prompt" (prompt_request request)]
    (with_monitors (S turn) (<[turn := new_monitor (h_now h) request]> (h_monitors h)) h).
Definition transcript_started (request : StartTranscript) (params : Value) (h : Host) : Host :=
  logging [RuntimeAsked "session/load" params]
    (with_pending (h_pending h) (str_session_ref request :: h_replays h) h).

Definition cancel_notification (session_ref : string) : HostEvent :=
  RuntimeAsked "session/cancel" (json_object [("sessionId", json_string session_ref)]).
(** The cancel notification [cancel_and_drain] starts with. *)
Definition drain_call (before after : Monitor) : list HostEvent :=
  match mo_phase before, mo_phase after with
  | Watching, Draining _ _ => [cancel_notification (mo_session_ref after)]
  | _, _ => []
  end.

Inductive HostStep :=
| Tick (now : Z)
| StartCommand (request : StartTurn)
| CancelCommand (request : CancelTurn)
| CancelFinishes
| OpenCommand (request : OpenSession) (reply : Value + string)
| CloseCommand (request : CloseSession)
| TranscriptCommand (request : StartTranscript)
| StopCommand
| ResolveRequest (request : PermissionResolution)
| UpdateArrives (raw : Value)
| PermissionAsked (permission_id : string) (raw : Value)
| PermissionWakes (permission_id : string)
| PermissionReplies (permission_id : string)
| TranscriptReplied (session_ref : string) (failure : option string)
| MonitorWakes (turn : nat) (event : MonitorEvent)
| MonitorSettles (turn : nat)
| MonitorWithdraws (turn : nat)
| Send (index : nat).

(** [handle_permission_request] with its expiry; the runtime is told at once that a
    refused request is cancelled. *)
Definition ask_permission (permission_id : string) (raw : Value) (h : Host) : Host :=
  match handle_permission_request (h_now h) permission_id raw (h_shared h) with
  | (s, inr _) => logging [PermissionAnswered permission_id Cancelled] (sharing s h)
  | (s, inl (turn, event)) =>
      let expiry := match get_str "sessionId" raw ≫= λ r, sh_sessions s !! r ≫= ss_active with
                    | Some a => Z.min (tp_idle_timeout_ms (ht_policy a))
                                  (tp_wall_timeout_ms (ht_policy a))
                    | None => 0
                    end in
      made (Some turn) (NPermissionRequested event)
        (with_waits (<[permission_id := WaitSending expiry]> (h_waits h)) (sharing s h))
  end.
(** The wait for an outcome is over when it was sent, when its sender is gone, and at
    the deadline. *)
Definition permission_ready (permission_id : string) (deadline : Z) (h : Host) : bool :=
  match sh_receivers (h_shared h) !! permission_id with
  | Some (Some _) => true
  | Some None => negb (is_some (sh_permissions (h_shared h) !! permission_id))
                 || (deadline <=? h_now h)
  | None => true
  end.
Definition wake_permission (permission_id : string) (h : Host) : Host :=
  match h_waits h !! permission_id with
  | Some (Waiting deadline) =>
      if permission_ready permission_id deadline h then
        let (s, outcome) := permission_outcome permission_id (h_shared h) in
        with_waits (<[permission_id := Replying outcome]> (h_waits h)) (sharing s h)
      else h
  | _ => h
  end.
Definition reply_permission (permission_id : string) (h : Host) : Host :=
  match h_waits h !! permission_id with
  | Some (Replying outcome) =>
      logging [PermissionAnswered permission_id outcome]
        (with_waits (delete permission_id (h_waits h))
           (sharing (forget_permission permission_id (h_shared h)) h))
  | _ => h
  end.

Definition settle_monitor (turn : nat) (h : Host) : Host :=
  match h_monitors h !! turn with
  | Some m =>
      match mo_phase m with
      | Settled outcome =>
          match emit_terminal (mo_session_ref m) outcome (h_shared h) with
          | (s, inl (active, terminal, permission_ids)) =>
              set_monitor turn (in_phase (Withdrawing active terminal permission_ids) m)
                (sharing s h)
          | (s, inr _) => set_monitor turn (in_phase Ended m) (sharing s h)
          end
      | _ => h
      end
  | None => h
  end.
(** One round of the loop over the requests to withdraw; after the last the terminal
    is made. *)
Definition withdraw_next (turn : nat) (h : Host) : Host :=
  match h_monitors h !! turn with
  | Some m =>
      match mo_phase m with
      | Withdrawing active terminal (permission_id :: permission_ids) =>
          set_monitor turn (in_phase (Withdrawing active terminal permission_ids) m)
            (sharing (withdraw_permission (h_shared h) permission_id) h)
      | Withdrawing active terminal [] =>
          made (Some active) (NTurnTerminal terminal) (set_monitor turn (in_phase Ended m) h)
      | _ => h
      end
  | None => h
  end.
(** The wait for a permission starts once its request was sent. *)
Definition sent_wait (n : HarnessAcpNotification) (h : Host) : Host :=
  match n with
  | NPermissionRequested request =>
      match h_waits h !! pq_permission_id request with
      | Some (WaitSending expiry) =>
          with_waits (<[pq_permission_id request := Waiting (h_now h + expiry)]> (h_waits h)) h
      | _ => h
      end
  | _ => h
  end.
Definition send_pending (index : nat) (h : Host) : Host :=
  match h_pending h !! index with
  | Some (turn, n) =>
      logging [Notified turn n]
        (sent_wait n (with_pending (delete index (h_pending h)) (h_replays h) h))
  | None => h
  end.

Context (adoption : AdoptionMethods) (profile : string).

(** [harness.acp.session.open] of [DriverRuntime::handle], and the commands. *)
Definition open_command (request : OpenSession) (reply : Value + string)
    : action SharedState DriverError OpenSessionResult :=
  try_ (reject (os_profile_digest request !=? profile)
          (DriverError.Protocol "session profile digest does not match active profile")) ;!
  open_session sha256_hex request adoption reply.

Definition host_act (step : HostStep) (h : Host) : Host :=
  match step with
  | Tick now => if h_now h <=? now then at_time now h else h
  | StartCommand request =>
      command (start_turn (h_next_turn h) request) (turn_started request) h
  | CancelCommand request =>
      command (begin_cancel request)
        (λ session_ref, commanding (h_running h) (Some (session_ref, ct_reason request))) h
  | CancelFinishes =>
      match h_command h with
      | None => h
      | Some (session_ref, reason) =>
          match finish_cancel session_ref reason (h_shared h) with
          | (s, inl _) => logging [cancel_notification session_ref]
                            (commanding (h_running h) None (sharing s h))
          | (s, inr _) => commanding (h_running h) None (sharing s h)
          end
      end
  | OpenCommand request reply => command (open_command request reply) (λ _ h, h) h
  | CloseCommand request => command (close_session request) (λ _ h, h) h
  | TranscriptCommand request =>
      command (start_transcript request adoption) (transcript_started request) h
  | StopCommand =>
      command (act cancel_all_permissions) (λ _, commanding false None) h
  | ResolveRequest request =>
      match resolve_permission request (h_shared h) with
      | (s, inl _) => logging [PermissionResolved request] (sharing s h)
      | (s, inr _) => sharing s h
      end
  | UpdateArrives raw =>
      match handle_session_update (h_now h) raw (h_shared h) with
      | (s, inl (Some (turn, n))) => made turn n (sharing s h)
      | (s, _) => sharing s h
      end
  | PermissionAsked permission_id raw => ask_permission permission_id raw h
  | PermissionWakes permission_id => wake_permission permission_id h
  | PermissionReplies permission_id => reply_permission permission_id h
  | TranscriptReplied session_ref failure =>
      if bool_decide (session_ref ∈ h_replays h) then
        let (s, complete) := complete_transcript session_ref failure (h_shared h) in
        made None (NTranscriptComplete complete)
          (with_pending (h_pending h) (remove_one session_ref (h_replays h)) (sharing s h))
      else h
  | MonitorWakes turn event =>
      match h_monitors h !! turn with
      | Some m =>
          match monitor_event (h_now h) turn (h_shared h) event m with
          | Some m' => logging (drain_call m m') (set_monitor turn m' h)
          | None => h
          end
      | None => h
      end
  | MonitorSettles turn => settle_monitor turn h
  | MonitorWithdraws turn => withdraw_next turn h
  | Send index => send_pending index h
  end.
Definition run_host (steps : list HostStep) (h : Host) : Host :=
  fold_left (λ h step, host_act step h) steps h.
End host.
