(* ===== verification/StreamBroker.v ===== *)
(** * Browser stream grants (crates/http/src: browser_stream_edge.rs, stream_grant_broker.rs)

    The edge: the constants of the browser stream, the shape of a stream grant, the
    first frame of a client, the frames of the server, and the policy an
    unauthenticated WebSocket upgrade has to meet.  The JSON decoding of a derived
    struct and the text of a header value are parameters: they are serde's and the
    http crate's.

    The broker of one daemon process: grants issued and not yet redeemed, kept by
    digest, and the capacity slots of active browser streams.  What a task does
    under the broker's mutex is one step here.  A grant is redeemed in four: it is
    taken out, its expiry and protocol are looked at, its credential is
    revalidated against the store, and a slot is reserved; steps of other tasks
    come between them ([broker_step]).  The times are readings of the monotonic
    clock, in milliseconds; the random bytes of a grant are arguments.  A panic of
    a counter is the outcome [None] of the step. *)

From stdpp Require Import gmap.
From S2P Require Import Prelude Action Proto Schema Channels Auth.

Definition BROWSER_STREAM_PROTOCOL : string := "fleetd.channel-stream.browser.v1".
Definition BROWSER_STREAM_PATH : string := "/v1/browser/channel-stream".
Definition STREAM_GRANT_PREFIX : string := "fl_sg_".
Definition STREAM_GRANT_ENTROPY_BYTES : nat := 32.
(** Durations in milliseconds. *)
Definition STREAM_GRANT_REDEMPTION_LIFETIME : Z := 15000.
Definition FIRST_FRAME_DEADLINE : Z := 5000.
Definition MAX_REDEMPTION_FRAME_BYTES : Z := 1024.
Definition MAX_UNUSED_GRANTS_PER_CREDENTIAL : Z := 8.
Definition MAX_UNUSED_GRANTS_PER_DAEMON : Z := 1024.
Definition MAX_PRE_AUTHENTICATION_SOCKETS_PER_DAEMON : Z := 64.
Definition MAX_ACTIVE_BROWSER_STREAMS_PER_CREDENTIAL : Z := 16.
Definition MAX_ACTIVE_BROWSER_STREAMS_PER_DAEMON : Z := 1024.
Definition CREDENTIAL_REVALIDATION_INTERVAL : Z := 30000.
Definition APPLICATION_FRAME_SEND_DEADLINE : Z := 10000.
Definition STREAM_GRANT_ENCODED_ENTROPY_BYTES : nat := 43.

(** ** Wire types *)

Inductive BrowserStreamProtocol := V1.
Definition protocol_as_str (p : BrowserStreamProtocol) : string :=
  match p with V1 => BROWSER_STREAM_PROTOCOL end.
Inductive BrowserStreamPath := ChannelStreamPath.
Definition path_as_str (p : BrowserStreamPath) : string :=
  match p with ChannelStreamPath => BROWSER_STREAM_PATH end.

Definition BrowserStreamCursor : Type := Z.
Definition cursor_new (value : Z) : option BrowserStreamCursor :=
  if value <? 0 then None else Some value.

Record BrowserStreamGrantIssueRequest := {
  gir_after : BrowserStreamCursor;
  gir_protocol : BrowserStreamProtocol;
}.
Record BrowserStreamGrantIssueResponse := {
  gis_grant : string;
  gis_expires_at_ms : Z;
  gis_websocket_path : BrowserStreamPath;
  gis_protocol : BrowserStreamProtocol;
}.

Inductive BrowserStreamServerFrame `{SerdeJson} :=
| ReadyFrame (protocol : BrowserStreamProtocol) (channel_id : string) (after : BrowserStreamCursor)
| MessageFrame (message : Message).
Definition ready_frame `{SerdeJson} (channel_id : string) (after : BrowserStreamCursor)
    : BrowserStreamServerFrame := ReadyFrame V1 channel_id after.
Definition message_frame `{SerdeJson} (message : Message) : BrowserStreamServerFrame :=
  MessageFrame message.

(** ** Stream grants *)

Section grant.
Context `{C : TokenCodec}.

(** [validate_grant_shape(..).is_ok()] *)
Definition validate_grant_shape (value : string) : bool :=
  match strip_prefix STREAM_GRANT_PREFIX value with
  | None => false
  | Some encoded =>
  if String.length encoded !=? STREAM_GRANT_ENCODED_ENTROPY_BYTES then false else
  match b64_decode encoded with
  | None => false
  | Some decoded =>
      negb ((String.length decoded !=? STREAM_GRANT_ENTROPY_BYTES)
            || (b64_encode decoded !=? encoded))
  end
  end.
(** A [BrowserStreamGrant] is its text. *)
Definition grant_parse (value : string) : option string :=
  if validate_grant_shape value then Some value else None.

Inductive RedemptionFrameError := Oversized | InvalidFrame.

(** The derived decoder of the closed struct [{type: "redeem", grant}], which
    yields the text of the grant and hands it to [BrowserStreamGrant::parse]. *)
Context (redemption_from_str : string → option string).

Definition parse_text_frame (value : string) : string + RedemptionFrameError :=
  if MAX_REDEMPTION_FRAME_BYTES <? str_len value then inr Oversized else
  match grant ← redemption_from_str value; grant_parse grant with
  | Some grant => inl grant
  | None => inr InvalidFrame
  end.
End grant.

(** ** Addresses *)

(** The 16-bit groups of an IPv6 address, or the octets of an IPv4 one. *)
Inductive IpAddr :=
| IpV4 (octets : Z * Z * Z * Z)
| IpV6 (segments : list Z).
Record SocketAddr := { sa_ip : IpAddr; sa_port : Z }.

Definition ip_is_loopback (ip : IpAddr) : bool :=
  match ip with
  | IpV4 (a, _, _, _) => a ==? 127
  | IpV6 segments => segments ==? [0; 0; 0; 0; 0; 0; 0; 1]
  end.

Definition hex_digit (n : Z) : Ascii.ascii :=
  Ascii.ascii_of_N (Z.to_N (if n <? 10 then 48 + n else 87 + n)).
(** [{:x}] of a 16-bit group *)
Definition hex16 (n : Z) : string :=
  let digits := map (λ shift, Z.land (Z.shiftr n shift) 15) [12; 8; 4; 0] in
  let fix go (l : list Z) : string :=
    match l with
    | [] => EmptyString
    | d :: l => String (hex_digit d) (go l)
    end in
  let fix skip (l : list Z) : list Z :=
    match l with
    | d :: (_ :: _) as rest => if d ==? 0 then skip rest else l
    | _ => l
    end in
  go (skip digits).
Definition hex_groups (l : list Z) : string := String.concat ":" (map hex16 l).
(** The first longest run of zero groups, as its start and length. *)
Fixpoint longest_zeroes (i start len best_start best_len : nat) (l : list Z) : nat * nat :=
  let best := if (best_len <? len)%nat then (start, len) else (best_start, best_len) in
  match l with
  | [] => best
  | s :: l => if s ==? 0
              then longest_zeroes (S i) (if (len =? 0)%nat then i else start) (S len) best.1 best.2 l
              else longest_zeroes (S i) 0 0 best.1 best.2 l
  end.
Definition ipv4_text (o : Z * Z * Z * Z) : string :=
  let '(a, b, c, d) := o in
  pretty a +:+ "." +:+ pretty b +:+ "." +:+ pretty c +:+ "." +:+ pretty d.
(** [Ipv6Addr::fmt]: an IPv4-mapped address in dotted form, otherwise the groups
    with the longest run of two or more zero groups elided. *)
Definition ipv6_text (s : list Z) : string :=
  match s with
  | [0; 0; 0; 0; 0; 65535; ab; cd] =>
      "::ffff:" +:+ ipv4_text (Z.shiftr ab 8, Z.land ab 255, Z.shiftr cd 8, Z.land cd 255)
  | _ =>
      let '(start, len) := longest_zeroes 0 0 0 0 0 s in
      if (1 <? len)%nat then hex_groups (take start s) +:+ "::" +:+ hex_groups (drop (start + len) s)
      else hex_groups s
  end.
Definition format_ip_literal (ip : IpAddr) : string :=
  match ip with IpV4 o => ipv4_text o | IpV6 s => "[" +:+ ipv6_text s +:+ "]" end.

(** ** The upgrade policy *)

Inductive BrowserOriginScheme := SchemeHttp.
Definition scheme_as_str (s : BrowserOriginScheme) : string := match s with SchemeHttp => "http" end.
Definition default_port (s : BrowserOriginScheme) : Z := match s with SchemeHttp => 80 end.

Inductive BrowserUpgradePolicyError :=
| NonLoopbackListenAddress
| ZeroListenPort
| MissingOrigin
| MultipleOriginHeaders
| InvalidOriginHeader
| NullOrigin
| OriginMismatch
| MissingHost
| MultipleHostHeaders
| InvalidHostHeader
| HostMismatch
| MissingBrowserStreamSubprotocol
| MultipleBrowserStreamSubprotocolHeaders
| InvalidBrowserStreamSubprotocolHeader
| BrowserStreamSubprotocolMismatch.
#[global] Instance BrowserUpgradePolicyError_eq_dec : EqDecision BrowserUpgradePolicyError.
Proof. solve_decision. Defined.

Definition policy_error_text (e : BrowserUpgradePolicyError) : string :=
  match e with
  | NonLoopbackListenAddress => "browser stream listen address must be an exact loopback IP"
  | ZeroListenPort => "browser stream listen address must have a bound port"
  | MissingOrigin => "browser stream upgrade is missing Origin"
  | MultipleOriginHeaders => "browser stream upgrade has multiple Origin headers"
  | InvalidOriginHeader => "browser stream upgrade has a non-text Origin header"
  | NullOrigin => "browser stream upgrade has an opaque Origin"
  | OriginMismatch => "browser stream Origin does not match the configured origin"
  | MissingHost => "browser stream upgrade is missing Host"
  | MultipleHostHeaders => "browser stream upgrade has multiple Host headers"
  | InvalidHostHeader => "browser stream upgrade has a non-text Host header"
  | HostMismatch => "browser stream Host does not match the configured authority"
  | MissingBrowserStreamSubprotocol => "browser stream upgrade is missing the required subprotocol"
  | MultipleBrowserStreamSubprotocolHeaders => "browser stream upgrade has multiple subprotocol headers"
  | InvalidBrowserStreamSubprotocolHeader => "browser stream upgrade has a non-text subprotocol header"
  | BrowserStreamSubprotocolMismatch => "browser stream upgrade requested an unsupported subprotocol"
  end.

Record BrowserUpgradePolicy := { bup_origin : string; bup_authority : string }.

Definition from_listen_address (scheme : BrowserOriginScheme) (listen_address : SocketAddr)
    : BrowserUpgradePolicy + BrowserUpgradePolicyError :=
  if negb (ip_is_loopback (sa_ip listen_address)) then inr NonLoopbackListenAddress else
  if sa_port listen_address ==? 0 then inr ZeroListenPort else
  let host := format_ip_literal (sa_ip listen_address) in
  let authority := if sa_port listen_address ==? default_port scheme then host
                   else host +:+ ":" +:+ pretty (sa_port listen_address) in
  inl {| bup_origin := scheme_as_str scheme +:+ "://" +:+ authority; bup_authority := authority |}.

(** The headers of a request, by lower-case name, in order; a value is its bytes. *)
Definition HeaderMap : Type := list (string * string).
Definition get_all (name : string) (headers : HeaderMap) : list string :=
  map snd (List.filter (λ h, h.1 ==? name) headers).
Definition ORIGIN : string := "origin".
Definition HOST : string := "host".
Definition SEC_WEBSOCKET_PROTOCOL : string := "sec-websocket-protocol".

Section policy.
(** [HeaderValue::to_str] *)
Context (to_str : string → option string).

Definition exactly_one_text_header (headers : HeaderMap) (name : string)
    (missing multiple invalid : BrowserUpgradePolicyError) : string + BrowserUpgradePolicyError :=
  match get_all name headers with
  | [] => inr missing
  | [value] => match to_str value with Some text => inl text | None => inr invalid end
  | _ => inr multiple
  end.

Definition validate_upgrade_headers (policy : BrowserUpgradePolicy) (headers : HeaderMap)
    : unit + BrowserUpgradePolicyError :=
  match exactly_one_text_header headers ORIGIN MissingOrigin MultipleOriginHeaders
          InvalidOriginHeader with
  | inr e => inr e
  | inl origin =>
  if origin ==? "null" then inr NullOrigin else
  if origin !=? bup_origin policy then inr OriginMismatch else
  match exactly_one_text_header headers HOST MissingHost MultipleHostHeaders InvalidHostHeader with
  | inr e => inr e
  | inl host =>
  if host !=? bup_authority policy then inr HostMismatch else
  match exactly_one_text_header headers SEC_WEBSOCKET_PROTOCOL MissingBrowserStreamSubprotocol
          MultipleBrowserStreamSubprotocolHeaders InvalidBrowserStreamSubprotocolHeader with
  | inr e => inr e
  | inl subprotocol =>
  reject (subprotocol !=? BROWSER_STREAM_PROTOCOL) BrowserStreamSubprotocolMismatch
  end
  end
  end.
End policy.

(** [BrowserStreamEdgeState]: its policy; the semaphore's permits are part of the
    world the handlers run over. *)
Definition for_http_listener (listen_address : SocketAddr)
    : BrowserUpgradePolicy + BrowserUpgradePolicyError :=
  from_listen_address SchemeHttp listen_address.

(** Concrete addresses. *)
Example ipv6_loopback_text : ipv6_text [0; 0; 0; 0; 0; 0; 0; 1] = "::1".
Proof. reflexivity. Qed.
Example ipv6_elided_text :
  ipv6_text [8193; 3512; 0; 0; 1; 0; 0; 1] = "2001:db8::1:0:0:1" ∧ ipv6_text [0; 0; 0; 0; 0; 0; 0; 0] = "::"
  ∧ ipv6_text [0; 0; 0; 0; 0; 65535; 49320; 258] = "::ffff:192.168.1.2".
Proof. repeat split; vm_compute; reflexivity. Qed.
Example policy_with_port :
  for_http_listener {| sa_ip := IpV4 (127, 0, 0, 1); sa_port := 7419 |}
  = inl {| bup_origin := "http://127.0.0.1:7419"; bup_authority := "127.0.0.1:7419" |}.
Proof. vm_compute. reflexivity. Qed.

(** ** The broker *)

Definition STREAM_GRANT_ENCODED_LENGTH : nat := 43.
Definition MAX_PROTOCOL_LENGTH : Z := 128.
Definition MAX_ENTROPY_ATTEMPTS : nat := 4.

(** ** The authorized scope of a stream (channel_stream.rs) *)

Inductive AuthorizedStreamPrincipal :=
| StreamOperator
| StreamAgent (agent_id : string).
Record AuthorizedChannelStream := {
  acs_channel_id : string;
  acs_after : Z;
  acs_credential_id : string;
  acs_principal : AuthorizedStreamPrincipal;
}.
#[global] Instance AuthorizedStreamPrincipal_eq_dec : EqDecision AuthorizedStreamPrincipal.
Proof. solve_decision. Defined.
#[global] Instance AuthorizedChannelStream_eq_dec : EqDecision AuthorizedChannelStream.
Proof. solve_decision. Defined.

Definition from_principal (channel_id : string) (after : Z) (principal : Principal)
    : result AuthorizedChannelStream :=
  let? stream_principal :=
    match principal with
    | POperator _ => Ok StreamOperator
    | PAgent _ agent_id => Ok (StreamAgent agent_id)
    | PTrigger _ _ => Err (Forbidden "a trigger credential cannot read a channel stream")
    end in
  Ok {| acs_channel_id := channel_id; acs_after := after;
        acs_credential_id := principal_credential_id principal;
        acs_principal := stream_principal |}.
Definition issuing_principal (a : AuthorizedChannelStream) : Principal :=
  match acs_principal a with
  | StreamOperator => POperator (acs_credential_id a)
  | StreamAgent agent_id => PAgent (acs_credential_id a) agent_id
  end.

(** ** State *)

Record BrokerLimits := {
  lim_grant_lifetime : Z;
  lim_unused_per_credential : Z;
  lim_unused_total : Z;
  lim_active_per_credential : Z;
  lim_active_total : Z;
}.
Definition default_limits : BrokerLimits := {|
  lim_grant_lifetime := STREAM_GRANT_REDEMPTION_LIFETIME;
  lim_unused_per_credential := MAX_UNUSED_GRANTS_PER_CREDENTIAL;
  lim_unused_total := MAX_UNUSED_GRANTS_PER_DAEMON;
  lim_active_per_credential := MAX_ACTIVE_BROWSER_STREAMS_PER_CREDENTIAL;
  lim_active_total := MAX_ACTIVE_BROWSER_STREAMS_PER_DAEMON;
|}.

Record GrantRecord := {
  gr_authorization : AuthorizedChannelStream;
  gr_protocol : string;
  gr_expires_at : Z;
}.
(** The maps by digest and by credential, and the number of active streams. *)
Record BrokerState := {
  bs_unused : gmap string GrantRecord;
  bs_unused_by_credential : gmap string Z;
  bs_active_by_credential : gmap string Z;
  bs_active_total : Z;
}.
Definition new_broker : BrokerState :=
  {| bs_unused := ∅; bs_unused_by_credential := ∅; bs_active_by_credential := ∅;
     bs_active_total := 0 |}.
Record IssuedStreamGrant := { isg_grant : string; isg_lifetime : Z }.
(** An [ActiveStreamSlot] is named by its credential; its [Drop] is [drop_slot]. *)
Record ActiveStreamSlot := { slot_credential_id : string }.
Record RedeemedStreamGrant := {
  rsg_authorization : AuthorizedChannelStream;
  rsg_active_slot : ActiveStreamSlot;
}.

Inductive StreamGrantBrokerError :=
| BrokerCapacity
| BrokerInvalidScope
| BrokerRejected
| BrokerEntropy
| BrokerRevalidation (error : FleetError).

(** ** Counters *)

Definition count_of (counts : gmap string Z) (credential_id : string) : Z :=
  default 0 (counts !! credential_id).
Definition increment_count (counts : gmap string Z) (credential_id : string) : gmap string Z :=
  <[credential_id := count_of counts credential_id + 1]> counts.
(** [None] where the code panics: the count is missing, or would underflow. *)
Definition decrement_count (counts : gmap string Z) (credential_id : string)
    : option (gmap string Z) :=
  match counts !! credential_id with
  | None => None
  | Some count =>
      if negb (0 <? count) then None else
      if count - 1 ==? 0 then Some (delete credential_id counts)
      else Some (<[credential_id := count - 1]> counts)
  end.

Definition set_unused (unused : gmap string GrantRecord) (counts : gmap string Z)
    (s : BrokerState) : BrokerState :=
  {| bs_unused := unused; bs_unused_by_credential := counts;
     bs_active_by_credential := bs_active_by_credential s; bs_active_total := bs_active_total s |}.
Definition set_active (counts : gmap string Z) (total : Z) (s : BrokerState) : BrokerState :=
  {| bs_unused := bs_unused s; bs_unused_by_credential := bs_unused_by_credential s;
     bs_active_by_credential := counts; bs_active_total := total |}.

Section broker.
Context `{C : TokenCodec} (limits : BrokerLimits).

(** ** Tokens *)

(** [entropy]: what [getrandom::fill] gives at each attempt, [None] if it fails. *)
Fixpoint draw_grant (attempts : nat) (entropy : list (option string))
    (existing : gmap string GrantRecord) : (string * string) + StreamGrantBrokerError :=
  match attempts, entropy with
  | S attempts, Some bytes :: entropy =>
      let grant := STREAM_GRANT_PREFIX +:+ b64_encode bytes in
      let digest := sha256 grant in
      match existing !! digest with
      | None => inl (grant, digest)
      | Some _ => draw_grant attempts entropy existing
      end
  | _, _ => inr BrokerEntropy
  end.
Definition generate_unique_grant (entropy : list (option string))
    (existing : gmap string GrantRecord) : (string * string) + StreamGrantBrokerError :=
  draw_grant MAX_ENTROPY_ATTEMPTS entropy existing.

Definition grant_digest (grant : string) : option string :=
  match strip_prefix STREAM_GRANT_PREFIX grant with
  | None => None
  | Some encoded =>
  if String.length encoded !=? STREAM_GRANT_ENCODED_LENGTH then None else
  match b64_decode encoded with
  | None => None
  | Some entropy =>
      if String.length entropy !=? STREAM_GRANT_ENTROPY_BYTES then None else Some (sha256 grant)
  end
  end.

(** ** Critical sections *)

Definition grant_credential (record : GrantRecord) : string :=
  acs_credential_id (gr_authorization record).

(** One turn of the loop of [prune_expired]: [unused.remove] and its counter. *)
Definition prune_one (digest : string) (s : BrokerState) : option BrokerState :=
  match bs_unused s !! digest with
  | None => Some s
  | Some record =>
      match decrement_count (bs_unused_by_credential s) (grant_credential record) with
      | None => None
      | Some counts => Some (set_unused (delete digest (bs_unused s)) counts s)
      end
  end.
Fixpoint prune_each (digests : list string) (s : BrokerState) : option BrokerState :=
  match digests with
  | [] => Some s
  | digest :: digests => match prune_one digest s with
                         | Some s => prune_each digests s
                         | None => None
                         end
  end.
Definition prune_expired (s : BrokerState) (now : Z) : option BrokerState :=
  let expired := map fst (List.filter (λ p : string * GrantRecord, gr_expires_at p.2 <=? now)
                            (map_to_list (bs_unused s))) in
  prune_each expired s.

(** [issue]: the outcome carries the digest the grant was stored under. *)
Definition issue (authorization : AuthorizedChannelStream) (protocol : string) (now : Z)
    (entropy : list (option string)) (s : BrokerState)
    : option (BrokerState * (IssuedStreamGrant + StreamGrantBrokerError)) :=
  if (acs_after authorization <? 0) || (protocol ==? "")
     || (MAX_PROTOCOL_LENGTH <? str_len protocol)
  then Some (s, inr BrokerInvalidScope) else
  let credential_id := acs_credential_id authorization in
  match prune_expired s now with
  | None => None
  | Some s =>
  if (lim_unused_total limits <=? Z.of_nat (size (bs_unused s)))
     || (lim_unused_per_credential limits <=? count_of (bs_unused_by_credential s) credential_id)
  then Some (s, inr BrokerCapacity) else
  match generate_unique_grant entropy (bs_unused s) with
  | inr error => Some (s, inr error)
  | inl (grant, digest) =>
      let record := {| gr_authorization := authorization; gr_protocol := protocol;
                       gr_expires_at := now + lim_grant_lifetime limits |} in
      Some (set_unused (<[digest := record]> (bs_unused s))
              (increment_count (bs_unused_by_credential s) credential_id) s,
            inl {| isg_grant := grant; isg_lifetime := lim_grant_lifetime limits |})
  end
  end.

(** The first block of [redeem]: the grant leaves the map whatever comes next. *)
Definition take_grant (grant : string) (s : BrokerState)
    : option (BrokerState * (GrantRecord + StreamGrantBrokerError)) :=
  match grant_digest grant with
  | None => Some (s, inr BrokerRejected)
  | Some digest =>
  match bs_unused s !! digest with
  | None => Some (s, inr BrokerRejected)
  | Some record =>
  match decrement_count (bs_unused_by_credential s) (grant_credential record) with
  | None => None
  | Some counts => Some (set_unused (delete digest (bs_unused s)) counts s, inl record)
  end
  end
  end.
Definition check_grant (record : GrantRecord) (protocol : string) (now : Z)
    : unit + StreamGrantBrokerError :=
  reject ((gr_expires_at record <=? now) || (gr_protocol record !=? protocol)) BrokerRejected.
(** [revalidate_principal(..).await], on the store of that moment. *)
Definition check_principal (record : GrantRecord) (db : Db) : unit + StreamGrantBrokerError :=
  match revalidate_principal (issuing_principal (gr_authorization record)) db with
  | Err error => inr (BrokerRevalidation error)
  | Ok (valid, _) => reject (negb valid) BrokerRejected
  end.
Definition reserve_active (credential_id : string) (s : BrokerState)
    : BrokerState * (ActiveStreamSlot + StreamGrantBrokerError) :=
  if (lim_active_total limits <=? bs_active_total s)
     || (lim_active_per_credential limits <=? count_of (bs_active_by_credential s) credential_id)
  then (s, inr BrokerRejected)
  else (set_active (increment_count (bs_active_by_credential s) credential_id)
          (bs_active_total s + 1) s, inl {| slot_credential_id := credential_id |}).
(** [Drop for ActiveStreamSlot] *)
Definition drop_slot (slot : ActiveStreamSlot) (s : BrokerState) : option BrokerState :=
  match decrement_count (bs_active_by_credential s) (slot_credential_id slot) with
  | None => None
  | Some counts => if negb (0 <? bs_active_total s) then None
                   else Some (set_active counts (bs_active_total s - 1) s)
  end.
Definition has_global_active_capacity (s : BrokerState) : bool :=
  bs_active_total s <? lim_active_total limits.

(** ** Redemption by one task

    [others] is what the other tasks do to the broker while the credential is read
    from the store [db]. *)
Definition redeem (grant protocol : string) (now : Z) (db : Db)
    (others : BrokerState → BrokerState) (s : BrokerState)
    : option (BrokerState * (RedeemedStreamGrant + StreamGrantBrokerError)) :=
  match take_grant grant s with
  | None => None
  | Some (s, inr error) => Some (s, inr error)
  | Some (s, inl record) =>
  match check_grant record protocol now with
  | inr error => Some (s, inr error)
  | inl _ =>
  let s := others s in
  match check_principal record db with
  | inr error => Some (s, inr error)
  | inl _ =>
  match reserve_active (grant_credential record) s with
  | (s, inr error) => Some (s, inr error)
  | (s, inl slot) =>
      Some (s, inl {| rsg_authorization := gr_authorization record; rsg_active_slot := slot |})
  end
  end
  end
  end.
End broker.
