(* ===== verification/HttpCore.v ===== *)
(** * What every HTTP handler shares (crates/http/src: error.rs, guard.rs, lib.rs)

    The world a handler runs over, its awaits, the authentication of a request, the
    guards, and the rendering of an error.

    Between any two awaits anything may happen elsewhere: [env_db], [env_broker]
    and [env_permits] give the store, the grant broker and the permits of the
    pre-authentication semaphore their state at the [n]th await of the request.
    The times, identifiers and random bytes an operation draws there are functions
    of the await.  The log lists what the request itself did. *)

From stdpp Require Import gmap.
From S2P Require Import Prelude Action Proto Schema Channels Messages Auth Evidence.
From S2P Require Import StreamBroker.

(** [MessageCommitWake] (crates/kernel/src/message_commit_hint.rs) *)
Inductive MessageCommitWake `{SerdeJson} :=
| Committed (message : Message)
| External.

(** What a request does outside its own variables. *)
Inductive Effect `{SerdeJson} :=
| Wrote (before after : Db)
| Announced (wake : MessageCommitWake)
| Validated (principal : Principal) (db : Db)
| FrameSent (frame : BrowserStreamServerFrame)
| RawSent (message : Message)
| SocketClosed (code : Z) (reason : string)
| SlotTaken (slot : ActiveStreamSlot)
| SlotDropped (slot : ActiveStreamSlot)
| PermitTaken
| PermitDropped.

Record HttpWorld `{SerdeJson} := {
  hw_awaits : nat;
  hw_db : Db;
  hw_broker : BrokerState;
  hw_permits : Z;
  hw_log : list Effect;
}.
(** How a request fails: with a domain error, or with a panic of its task. *)
Inductive Fault :=
| Refused (error : FleetError)
| Panicked.

(** ** error.rs *)

Definition status_of (error : FleetError) : Z :=
  match error with
  | NotFound _ _ => 404
  | NotMember _ _ | Forbidden _ => 403
  | Invalid _ => 400
  | Unauthorized => 401
  | Conflict _ | LeaseConflict _ => 409
  | ResourceExhausted _ => 429
  | Database _ | Serialization | Credential _ => 500
  end.
(** The variants whose text stays in the daemon's own log. *)
Definition is_internal (error : FleetError) : bool :=
  match error with Database _ | Serialization | Credential _ => true | _ => false end.
Definition public_message (source_text : FleetError → string) (error : FleetError) : string :=
  if is_internal error then "internal server error" else error_to_string source_text error.
Record ErrorReply := {
  er_status : Z;
  er_error : string;
  er_www_authenticate : option string;
}.
Definition into_response (source_text : FleetError → string) (error : FleetError) : ErrorReply :=
  {| er_status := status_of error; er_error := public_message source_text error;
     er_www_authenticate := if status_of error ==? 401 then Some "Bearer" else None |}.

(** ** guard.rs *)

Definition require_operator (principal : Principal) : result unit :=
  if is_operator principal then Ok tt else Err (Forbidden "operator credential required").
Definition require_agent (principal : Principal) : result string :=
  ok_or (principal_agent_id principal) (Forbidden "agent credential required").
Definition require_bound_agent (principal : Principal) (expected_agent_id : string) : result unit :=
  let? agent_id := require_agent principal in
  if agent_id ==? expected_agent_id then Ok tt
  else Err (Forbidden "credential is bound to another agent").
Definition require_bound_trigger (principal : Principal) (expected_trigger_id : string) : result unit :=
  if principal_trigger_id principal ==? Some expected_trigger_id then Ok tt
  else Err (Forbidden "credential is bound to another trigger").

(** ** lib.rs: the bearer token *)

Definition SPACE : Ascii.ascii := Ascii.ascii_of_nat 32.
(** [header.split_once(' ')] *)
Fixpoint split_once_space (s : string) : option (string * string) :=
  match s with
  | EmptyString => None
  | String a s => if a ==? SPACE then Some (EmptyString, s) else
                  match split_once_space s with
                  | Some (l, r) => Some (String a l, r)
                  | None => None
                  end
  end.
Definition ascii_lowercase (a : Ascii.ascii) : Ascii.ascii :=
  let n := Ascii.N_of_ascii a in
  if ((65 <=? n) && (n <=? 90))%N then Ascii.ascii_of_N (n + 32) else a.
Fixpoint to_ascii_lowercase (s : string) : string :=
  match s with EmptyString => EmptyString | String a s => String (ascii_lowercase a) (to_ascii_lowercase s) end.
(** [token.chars().any(char::is_whitespace)] *)
Fixpoint has_whitespace (s : string) : bool :=
  match s with
  | EmptyString => false
  | String a s1 =>
      is_ws1 a
      || match s1 with
         | String b s2 => is_ws2 a b || match s2 with String c _ => is_ws3 a b c | _ => false end
         | EmptyString => false
         end
      || has_whitespace s1
  end.
Definition parse_bearer_token (header : string) : option string :=
  match split_once_space header with
  | None => None
  | Some (scheme, token) =>
      if (to_ascii_lowercase scheme !=? "bearer") || (token ==? "") || has_whitespace token
      then None else Some token
  end.

(** ** Actions *)

Section http.
Context `{J : SerdeJson} `{C : TokenCodec}.
Context (env_db : nat → Db → Db) (env_broker : nat → BrokerState → BrokerState)
  (env_permits : nat → Z → Z).

Definition hw_set_db (db : Db) (w : HttpWorld) : HttpWorld :=
  {| hw_awaits := hw_awaits w; hw_db := db; hw_broker := hw_broker w; hw_permits := hw_permits w;
     hw_log := hw_log w |}.
Definition hw_set_broker (b : BrokerState) (w : HttpWorld) : HttpWorld :=
  {| hw_awaits := hw_awaits w; hw_db := hw_db w; hw_broker := b; hw_permits := hw_permits w;
     hw_log := hw_log w |}.
Definition hw_set_permits (n : Z) (w : HttpWorld) : HttpWorld :=
  {| hw_awaits := hw_awaits w; hw_db := hw_db w; hw_broker := hw_broker w; hw_permits := n;
     hw_log := hw_log w |}.
Definition hw_push (e : Effect) (w : HttpWorld) : HttpWorld :=
  {| hw_awaits := hw_awaits w; hw_db := hw_db w; hw_broker := hw_broker w;
     hw_permits := hw_permits w; hw_log := hw_log w ++ [e] |}.
(** An await: the rest of the system runs. *)
Definition hw_tick (w : HttpWorld) : HttpWorld :=
  let n := hw_awaits w in
  {| hw_awaits := S n; hw_db := env_db n (hw_db w); hw_broker := env_broker n (hw_broker w);
     hw_permits := env_permits n (hw_permits w); hw_log := hw_log w |}.

Definition served (A : Type) : Type := action HttpWorld Fault A.
Definition hw_pass : served unit := act hw_tick.
Definition refused {A} (error : FleetError) : served A := throw (Refused error).
Definition checked {A} (r : result A) : served A :=
  match r with Ok a => done_with a | Err error => refused error end.

(** One operation of the store, given the await it runs at. *)
Definition store_call {A} (op : nat → M A) : served A :=
  hw_pass ;! λ w,
  match op (hw_awaits w) (hw_db w) with
  | Ok (a, db) => (hw_push (Wrote (hw_db w) db) (hw_set_db db w), inl a)
  | Err error => (w, inr (Refused error))
  end.
(** One read of the store. *)
Definition store_read {A} (op : nat → Db → result A) : served A :=
  hw_pass ;! λ w,
  match op (hw_awaits w) (hw_db w) with
  | Ok a => (w, inl a)
  | Err error => (w, inr (Refused error))
  end.
(** Up to [k] reads, each on the store of its own await. *)
Definition store_reads {A} (k : nat) (op : nat → (nat → Db) → result A) : served A := λ w,
  match op (hw_awaits w) (λ i, hw_db (Nat.iter (S i) hw_tick w)) with
  | Ok a => (Nat.iter k hw_tick w, inl a)
  | Err error => (Nat.iter k hw_tick w, inr (Refused error))
  end.
(** A critical section of the broker; [None] is a panic. *)
Definition on_broker {A} (f : nat → BrokerState → option (BrokerState * A)) : served A := λ w,
  match f (hw_awaits w) (hw_broker w) with
  | Some (b, a) => (hw_set_broker b w, inl a)
  | None => (w, inr Panicked)
  end.
(** [state.messages.send(..)] *)
Definition announce (wake : MessageCommitWake) : served unit := act (hw_push (Announced wake)).

Definition require_channel_access (principal : Principal) (channel_id : string) : served unit :=
  if is_operator principal then done_with tt else
  let! agent_id := checked (require_agent principal) in
  let! member := store_read (λ _, read_at (is_member channel_id agent_id)) in
  if (member : bool) then done_with tt
  else refused (Forbidden "agent is not a member of this channel").

(** The middleware [authenticate]; [authorization] is the text of the header. *)
Definition authenticate_request (authorization : option string) : served Principal :=
  let! token := checked (ok_or (header ← authorization; parse_bearer_token header) Unauthorized) in
  store_read (λ _, read_at (authenticate token)).
End http.
Arguments hw_set_broker {_} _ _.
