(* ===== verification/ChannelStream.v ===== *)
(** * Live channel streams (crates/http/src: channel_stream.rs, streams.rs)

    A stream replays the durable log of a channel after its cursor and then
    follows it: a wake-up makes it read the log again from its cursor.  The native
    and the browser wire share this engine; the browser's also revalidates its
    credential before every message, and is entered by redeeming a grant in the
    first frame.

    What [select!] chooses at each turn of the loop is an argument (the list of
    events), as is what a socket does with a frame ([socket_send]) and what it
    delivers before the redemption.  The pages of a replay take fuel:
    ChannelStreamProps shows how much is enough. *)

From stdpp Require Import gmap.
From S2P Require Import Prelude Action Proto Schema Channels Messages Auth Evidence.
From S2P Require Import StreamBroker HttpCore.

Definition REPLAY_PAGE_SIZE : Z := 500.

(** ** Events *)

(** [axum::extract::ws::Message]; the bytes of the others are not looked at. *)
Inductive WebSocketMessage :=
| WsText (text : string)
| WsBinary
| WsPing
| WsPong
| WsClose.
(** [socket.recv()]: the end of the stream, an error, or a message. *)
Inductive Received :=
| RecvEnd
| RecvError
| RecvMessage (message : WebSocketMessage).
(** [receiver.recv()] *)
Inductive WakeResult `{SerdeJson} :=
| WakeMessage (wake : MessageCommitWake)
| WakeLagged (skipped : Z)
| WakeClosed.
Inductive StreamEvent `{SerdeJson} :=
| Incoming (incoming : Received)
| Wake (wake : WakeResult)
| Revalidate.

Inductive StreamTermination :=
| ClientClosed
| InvalidClientMessage
| GrantRejected
| TerminatedInternal.
#[global] Instance StreamTermination_eq_dec : EqDecision StreamTermination.
Proof. solve_decision. Defined.

(** The browser wire also owns the active slot; the handler drops it. *)
Inductive StreamWire :=
| Native
| Browser (principal : Principal).

(** What a run leaves: the stream still open at a cursor, a replay that needs more
    fuel, or the reason it ended. *)
Inductive StreamOutcome :=
| StreamOpen (cursor : Z)
| StreamUnfinished
| StreamEnded (termination : StreamTermination).

(** ** The engine *)

Section stream.
Context `{J : SerdeJson} `{C : TokenCodec}.
Context (env_db : nat → Db → Db) (env_broker : nat → BrokerState → BrokerState)
  (env_permits : nat → Z → Z).
(** [serde_json::to_string] of what a wire sends, and whether the socket takes
    the frame in time at an await. *)
Context (frame_json : BrowserStreamServerFrame → option string)
  (message_json : Message → option string) (socket_send : nat → bool).

Definition streaming (A : Type) : Type := action HttpWorld StreamTermination A.
#[local] Notation hw_tick := (hw_tick env_db env_broker env_permits).

Definition send_serialized (serialized : option string) (frame : Effect) : streaming unit :=
  match serialized with
  | None => throw TerminatedInternal
  | Some _ =>
      act hw_tick ;! λ w,
      if socket_send (hw_awaits w) then (hw_push frame w, inl tt) else (w, inr ClientClosed)
  end.

Definition revalidate (wire : StreamWire) : streaming unit :=
  match wire with
  | Native => done_with tt
  | Browser principal =>
      act hw_tick ;! λ w,
      match revalidate_principal principal (hw_db w) with
      | Ok (true, _) => (hw_push (Validated principal (hw_db w)) w, inl tt)
      | Ok (false, _) => (w, inr GrantRejected)
      | Err _ => (w, inr TerminatedInternal)
      end
  end.

Definition send_ready (wire : StreamWire) (channel_id : string) (after : Z) : streaming unit :=
  match wire with
  | Native => done_with tt
  | Browser _ =>
      match cursor_new after with
      | None => throw TerminatedInternal
      | Some cursor =>
          let frame := ready_frame channel_id cursor in
          send_serialized (frame_json frame) (FrameSent frame)
      end
  end.
Definition send_message (wire : StreamWire) (message : Message) : streaming unit :=
  revalidate wire ;!
  match wire with
  | Native => send_serialized (message_json message) (RawSent message)
  | Browser _ =>
      let frame := message_frame message in send_serialized (frame_json frame) (FrameSent frame)
  end.

Definition accept_incoming (wire : StreamWire) (incoming : Received) : streaming unit :=
  match wire, incoming with
  | _, (RecvEnd | RecvError | RecvMessage WsClose) => throw ClientClosed
  | Native, RecvMessage _ => done_with tt
  | Browser _, RecvMessage (WsPing | WsPong) => done_with tt
  | Browser _, RecvMessage (WsText _ | WsBinary) => throw InvalidClientMessage
  end.

(** The messages of one page, and the cursor after them. *)
Fixpoint send_page (wire : StreamWire) (messages : list Message) (cursor : Z) : streaming Z :=
  match messages with
  | [] => done_with cursor
  | message :: messages =>
      send_message wire message ;! send_page wire messages (msg_seq message)
  end.
Fixpoint replay (fuel : nat) (wire : StreamWire) (channel_id : string) (cursor : Z)
    : streaming (option Z) :=
  match fuel with
  | O => done_with None
  | S fuel =>
      let! page := map_err (λ _, TerminatedInternal)
                     (store_read env_db env_broker env_permits
                        (λ _, read_at (list_messages channel_id cursor REPLAY_PAGE_SIZE))) in
      let! cursor := send_page wire (page_messages page) cursor in
      if Z.of_nat (length (page_messages page)) <? REPLAY_PAGE_SIZE then done_with (Some cursor)
      else replay fuel wire channel_id cursor
  end.

(** One turn of the loop; [None] is a replay out of fuel. *)
Definition handle_event (fuel : nat) (wire : StreamWire) (channel_id : string) (cursor : Z)
    (event : StreamEvent) : streaming (option Z) :=
  let stay (m : streaming unit) : streaming (option Z) := m ;! done_with (Some cursor) in
  match event with
  | Incoming incoming => stay (accept_incoming wire incoming)
  | Wake (WakeMessage (Committed message)) =>
      if (msg_channel_id message ==? channel_id) && (cursor <? msg_seq message)
      then replay fuel wire channel_id cursor
      else done_with (Some cursor)
  | Wake (WakeMessage External | WakeLagged _) => replay fuel wire channel_id cursor
  | Wake WakeClosed => throw TerminatedInternal
  | Revalidate => stay (revalidate wire)
  end.
Fixpoint stream_loop (fuel : nat) (wire : StreamWire) (channel_id : string) (cursor : Z)
    (events : list StreamEvent) : streaming (option Z) :=
  match events with
  | [] => done_with (Some cursor)
  | event :: events =>
      let! next := handle_event fuel wire channel_id cursor event in
      match next with
      | None => done_with None
      | Some cursor => stream_loop fuel wire channel_id cursor events
      end
  end.

Definition close_of (termination : StreamTermination) : option (Z * string) :=
  match termination with
  | ClientClosed => None
  | InvalidClientMessage => Some (4400, "invalid_handshake")
  | GrantRejected => Some (4401, "grant_rejected")
  | TerminatedInternal => Some (1011, "internal_error")
  end.
(** The close frame is offered; what becomes of it is ignored. *)
Definition close_browser_socket (code : Z) (reason : string) (w : HttpWorld) : HttpWorld :=
  hw_tick (hw_push (SocketClosed code reason) w).
Definition finish (wire : StreamWire) (termination : StreamTermination) (w : HttpWorld) : HttpWorld :=
  match wire with
  | Native => w
  | Browser _ =>
      match close_of termination with
      | None => w
      | Some (code, reason) => close_browser_socket code reason w
      end
  end.

Definition stream_body (fuel : nat) (wire : StreamWire) (authorization : AuthorizedChannelStream)
    (events : list StreamEvent) : streaming (option Z) :=
  let channel_id := acs_channel_id authorization in
  let cursor := acs_after authorization in
  send_ready wire channel_id cursor ;!
  let! next := replay fuel wire channel_id cursor in
  match next with
  | None => done_with None
  | Some cursor => stream_loop fuel wire channel_id cursor events
  end.
Definition run_channel_stream (fuel : nat) (wire : StreamWire)
    (authorization : AuthorizedChannelStream) (events : list StreamEvent) (w : HttpWorld)
    : HttpWorld * StreamOutcome :=
  match stream_body fuel wire authorization events w with
  | (w, inl (Some cursor)) => (w, StreamOpen cursor)
  | (w, inl None) => (w, StreamUnfinished)
  | (w, inr termination) => (finish wire termination w, StreamEnded termination)
  end.

(** ** The native handler *)

(** [stream]: [after] of the query; [Err] is the refused upgrade. *)
Definition open_native_stream (principal : Principal) (channel_id : string) (after : Z)
    : action HttpWorld Fault AuthorizedChannelStream :=
  require_channel_access env_db env_broker env_permits principal channel_id ;!
  let! _ := store_read env_db env_broker env_permits
              (λ _, read_at (list_messages channel_id after 1)) in
  checked (from_principal channel_id after principal).

(** ** The browser handler *)

Context (instant : nat → Z).
Context (to_str : string → option string) (redemption_from_str : string → option string).

(** [browser_channel_stream] up to the switch of protocols: a refusal with its
    status, or the permit of the pre-authentication socket. *)
Definition browser_upgrade (edge : option BrowserUpgradePolicy) (headers : HeaderMap)
    (w : HttpWorld) : HttpWorld * (unit + Z * string) :=
  match edge with
  | None => (w, inr (503, "browser stream edge is not configured"))
  | Some policy =>
  match validate_upgrade_headers to_str policy headers with
  | inr _ => (w, inr (403, "browser stream upgrade rejected"))
  | inl _ =>
  if negb (has_global_active_capacity default_limits (hw_broker w)) then
    (w, inr (503, "browser stream capacity exhausted"))
  else if negb (0 <? hw_permits w) then
    (w, inr (503, "browser stream capacity exhausted"))
  else (hw_push PermitTaken (hw_set_permits (hw_permits w - 1) w), inl tt)
  end
  end.

(** The loop before the redemption, over what the socket delivers until the
    deadline ([None]: the deadline came first).  Every [socket.recv().await] lets the
    rest of the daemon move.  [None] is a socket that has delivered nothing more yet. *)
Fixpoint first_frame (received : list (option Received))
    : action HttpWorld (Z * string) (option string) :=
  match received with
  | [] => done_with None
  | frame :: received =>
      act hw_tick ;!
      match frame with
      | None => throw (4408, "grant_timeout")
      | Some (RecvMessage (WsPing | WsPong)) => first_frame received
      | Some (RecvMessage (WsText text)) =>
          match parse_text_frame redemption_from_str text with
          | inl grant => done_with (Some grant)
          | inr _ => throw (4400, "invalid_handshake")
          end
      | Some _ => throw (4400, "invalid_handshake")
      end
  end.

(** [stream_grants.redeem(..).await]: the broker and the store move on while the
    credential is read. *)
Definition redeem_call (grant : string)
    : action HttpWorld Fault (RedeemedStreamGrant + StreamGrantBrokerError) := λ w,
  let n := hw_awaits w in
  match redeem default_limits grant (protocol_as_str V1) (instant n) (env_db n (hw_db w))
          (env_broker n) (hw_broker w) with
  | None => (w, inr Panicked)
  | Some (b, r) =>
      let w := hw_set_broker b (hw_tick w) in
      (match r with
       | inl redeemed => hw_push (SlotTaken (rsg_active_slot redeemed)) w
       | inr _ => w
       end, inl r)
  end.

(** The codes of the refusals after a redemption. *)
Definition redeem_close (error : StreamGrantBrokerError) : Z * string :=
  match error with BrokerRevalidation _ => (1011, "internal_error") | _ => (4401, "grant_rejected") end.
Definition access_close (fault : Fault) : Z * string :=
  match fault with
  | Refused error => if is_internal error then (1011, "internal_error") else (4401, "grant_rejected")
  | Panicked => (1011, "internal_error")
  end.
Definition history_close (fault : Fault) : Z * string :=
  match fault with
  | Refused (NotFound _ _ | Invalid _) => (4401, "grant_rejected")
  | _ => (1011, "internal_error")
  end.

(** What a browser socket has come to. *)
Inductive SocketOutcome :=
| SocketWaiting
| SocketRefused (code : Z)
| SocketStreamed (outcome : StreamOutcome)
| SocketPanicked.

Definition drop_permit (w : HttpWorld) : HttpWorld :=
  hw_push PermitDropped (hw_set_permits (hw_permits w + 1) w).
(** [Drop] of the slot; its panic aborts the task. *)
Definition drop_active_slot (slot : ActiveStreamSlot) (w : HttpWorld) : option HttpWorld :=
  match drop_slot slot (hw_broker w) with
  | Some b => Some (hw_push (SlotDropped slot) (hw_set_broker b w))
  | None => None
  end.
Definition dropping (slot : ActiveStreamSlot) (outcome : SocketOutcome) (w : HttpWorld)
    : HttpWorld * SocketOutcome :=
  match drop_active_slot slot w with
  | Some w => (w, outcome)
  | None => (w, SocketPanicked)
  end.
(** Return after a close: the locals are dropped, the slot first. *)
Definition refuse_socket (close : Z * string) (w : HttpWorld) : HttpWorld * SocketOutcome :=
  (drop_permit (close_browser_socket close.1 close.2 w), SocketRefused close.1).
Definition refuse_redeemed (slot : ActiveStreamSlot) (close : Z * string) (w : HttpWorld)
    : HttpWorld * SocketOutcome :=
  let (w, outcome) := dropping slot (SocketRefused close.1) (close_browser_socket close.1 close.2 w) in
  (drop_permit w, outcome).

Definition redeemed_stream (fuel : nat) (redeemed : RedeemedStreamGrant)
    (events : list StreamEvent) (w : HttpWorld) : HttpWorld * SocketOutcome :=
  let authorization := rsg_authorization redeemed in
  let slot := rsg_active_slot redeemed in
  let principal := issuing_principal authorization in
  match require_channel_access env_db env_broker env_permits principal
          (acs_channel_id authorization) w with
  | (w, inr fault) => refuse_redeemed slot (access_close fault) w
  | (w, inl _) =>
  match store_read env_db env_broker env_permits
          (λ _, read_at (list_messages (acs_channel_id authorization) (acs_after authorization) 1)) w with
  | (w, inr fault) => refuse_redeemed slot (history_close fault) w
  | (w, inl _) =>
  match run_channel_stream fuel (Browser principal) authorization events (drop_permit w) with
  | (w, StreamEnded termination) => dropping slot (SocketStreamed (StreamEnded termination)) w
  | (w, outcome) => (w, SocketStreamed outcome)
  end
  end
  end.

Definition redeem_browser_channel_stream (fuel : nat) (received : list (option Received))
    (events : list StreamEvent) (w : HttpWorld) : HttpWorld * SocketOutcome :=
  match first_frame received w with
  | (w, inr close) => refuse_socket close w
  | (w, inl None) => (w, SocketWaiting)
  | (w, inl (Some grant)) =>
  match redeem_call grant w with
  | (w, inr _) => (drop_permit w, SocketPanicked)
  | (w, inl (inr error)) => refuse_socket (redeem_close error) w
  | (w, inl (inl redeemed)) => redeemed_stream fuel redeemed events w
  end
  end.

(** The whole life of a browser socket, from the upgrade on: the answer is sent and
    the connection switched before the handler of the socket starts. *)
Definition browser_channel_stream (fuel : nat) (edge : option BrowserUpgradePolicy)
    (headers : HeaderMap) (received : list (option Received)) (events : list StreamEvent)
    (w : HttpWorld) : HttpWorld * (SocketOutcome + Z * string) :=
  match browser_upgrade edge headers w with
  | (w, inr refusal) => (w, inr refusal)
  | (w, inl _) =>
      let (w, outcome) := redeem_browser_channel_stream fuel received events (hw_tick w) in
      (w, inl outcome)
  end.
End stream.
