(* ===== verification/HttpRoutes.v ===== *)
(** * The routes of the HTTP surface (crates/http/src)

    One definition per handler of agents.rs, channels.rs, messages.rs, streams.rs
    (the issue of a grant), deliveries.rs, invocations.rs, operations.rs,
    triggers.rs, seats.rs and meta.rs, over the guards and the store calls of
    HttpCore, and [serve]: the authentication of the middleware, the route, and the
    rendering of its error.

    A request is one constructor per route, holding what axum extracts: the path,
    the query (an absent parameter is [None]) and the decoded body; a request axum
    cannot extract never reaches a handler.  The times, identifiers and random bytes
    a call draws are functions of its await. *)

From stdpp Require Import gmap.
From S2P Require Import Prelude Action Proto Schema Channels Messages Triggers Seats Auth Deliveries.
From S2P Require Import SessionFence Observations Invocations Settlement Sessions Evidence Conversation.
From S2P Require Import StreamBroker HttpCore.

(** ** Queries *)

Definition default_page_limit : Z := 100.
Definition default_delivery_list_limit : Z := 100.
Definition default_evidence_limit : Z := 500.
Definition default_census_limit : Z := 500.

Record PageQuery := { pq_after : option Z; pq_limit : option Z }.
Record DeliveryQuery := {
  dq_agent : option string; dq_state : option DeliveryState.t; dq_limit : option Z }.
Record EvidencePageQuery := {
  eq_agent : option string;
  eq_after_ms : option Z;
  eq_after_id : option string;
  eq_limit : option Z;
  eq_settled : option bool;
  eq_order : option EvidenceOrder;
}.
Record FleetHealthQuery := { fq_agent : option string; fq_delivery_limit : option Z }.

(** [EvidencePageQuery::page] and the page the handlers build of it. *)
Definition page_cursor (query : EvidencePageQuery) : result (option EvidenceCursor) :=
  match eq_after_ms query, eq_after_id query with
  | Some changed_at_ms, Some id => Ok (Some {| changed_at_ms := changed_at_ms; cursor_id := id |})
  | None, None => Ok None
  | _, _ => Err (Invalid "after_ms and after_id must be supplied together")
  end.
Definition evidence_page (query : EvidencePageQuery) (cursor : option EvidenceCursor) : EvidencePage :=
  {| page_agent_id := eq_agent query; page_after := cursor;
     page_limit := default default_evidence_limit (eq_limit query);
     page_settled := default false (eq_settled query);
     page_order := default Newest (eq_order query) |}.

(** ** Bodies *)

Record SendMessage `{SerdeJson} := {
  sm_idempotency_key : option string;
  sm_recipient_id : option string;
  sm_kind : string;
  sm_payload : Value;
  sm_correlation_id : option string;
  sm_causation_id : option string;
}.
Definition attributed_to `{SerdeJson} (input : SendMessage) (sender_id : string) : CreateMessage :=
  {| cm_sender_id := sender_id; cm_idempotency_key := sm_idempotency_key input;
     cm_recipient_id := sm_recipient_id input; cm_kind := sm_kind input;
     cm_payload := sm_payload input; cm_correlation_id := sm_correlation_id input;
     cm_causation_id := sm_causation_id input |}.

Inductive Request `{SerdeJson} :=
| CreateAgentRequest (input : CreateAgent)
| ListAgents
| RotateAgentCredential (agent_id : string)
| CreateChannelRequest (input : CreateChannel)
| ListChannels
| ListConversations (include_archived : option bool)
| OpenDirectConversation (members : list CreateChannelMember)
| RenameChannel (channel_id name : string)
| ArchiveChannel (channel_id : string)
| AddMember (channel_id agent_id : string) (delivery_mode : MembershipDeliveryMode.t)
| ListChannelMembers (channel_id : string)
| ListConversationAttention
| AdvanceConversationRead (channel_id : string) (through_seq : Z)
| AppendMessage (channel_id : string) (input : SendMessage)
| ListMessages (channel_id : string) (query : PageQuery)
| IssueBrowserStreamGrant (channel_id : string) (input : BrowserStreamGrantIssueRequest)
| ListDeliveries (query : DeliveryQuery)
| ClaimDeliveriesRequest (agent_id : string) (input : ClaimDeliveries)
| AcknowledgeDelivery (agent_id message_id lease_token : string)
| RetryDeliveryRequest (agent_id message_id : string) (input : RetryDelivery)
| BlockDeliveryRequest (agent_id message_id : string) (input : BlockDelivery)
| ListDeliveryBlocks (agent : option string)
| ResolveDeliveryBlockRequest (block_id : Z) (input : ResolveDeliveryBlock)
| ReserveInvocations (agent_id : string) (input : ClaimDeliveries)
| ArmInvocationRequest (agent_id invocation_id : string) (input : ArmInvocation)
| CompleteInvocationRequest (agent_id invocation_id : string) (input : CompleteInvocation)
| ListInvocations (agent : option string)
| TraceInvocation (invocation_id : string)
| ReadFleetHealth (query : FleetHealthQuery)
| ListPluginGenerations (query : EvidencePageQuery)
| ListInvocationObservations (query : EvidencePageQuery)
| ListSessionBindings (agent : option string)
| ListAgentSeats (agent : option string)
| RegisterTriggerRequest (input : RegisterTrigger)
| ListTriggers (channel_id : option string)
| GetTrigger (trigger_id : string)
| RetireTriggerRequest (trigger_id reason : string)
| RotateTriggerCredential (trigger_id : string)
| FireTrigger (trigger_id : string) (occurrence : TriggerOccurrence)
| ListSeatConfigurations
| ConfigureSeat (agent_id : string) (input : ConfigureAgentSeat)
| RestartSeat (agent_id : string).

Inductive Body `{SerdeJson} :=
| NoContent
| BRegisteredAgent (agent : RegisteredAgent)
| BAgents (agents : list Agent)
| BCredential (issued : IssuedCredential)
| BChannel (channel : Channel)
| BChannels (channels : list Channel)
| BConversation (conversation : ConversationSummary)
| BConversations (conversations : list ConversationSummary)
| BMembers (members : list ChannelMember)
| BAttention (attention : ConversationAttention)
| BAttentions (attentions : list ConversationAttention)
| BMessage (message : Message)
| BMessagePage (page : MessagePage)
| BStreamGrant (grant : BrowserStreamGrantIssueResponse)
| BDeliveries (records : list DeliveryRecord)
| BClaimBatch (batch : ClaimBatch)
| BBlocked (blocked : BlockedDelivery)
| BBlocks (blocks : list BlockedDelivery)
| BInvocations (invocations : list Invocation)
| BInvocation (invocation : Invocation)
| BCompletion (completion : InvocationCompletion)
| BTrace (trace : InvocationTrace)
| BHealth (health : FleetHealth)
| BGenerations (generations : list PluginGeneration)
| BObservations (observations : list InvocationObservation)
| BBindings (bindings : list SessionBinding)
| BSeats (seats : list AgentSeat)
| BRegisteredTrigger (trigger : RegisteredTrigger)
| BTriggers (triggers : list Trigger)
| BTrigger (trigger : Trigger)
| BFired (fired : TriggerFired)
| BSeatConfigurations (seats : list AgentSeatConfiguration)
| BSeatConfiguration (seat : AgentSeatConfiguration).

(** [StatusCode] and the body; [rp_no_store] is the header of an issued grant. *)
Record HttpReply `{SerdeJson} := { rp_status : Z; rp_body : Body; rp_no_store : bool }.
Definition OK : Z := 200.
Definition CREATED : Z := 201.
Definition NO_CONTENT : Z := 204.
Definition reply `{SerdeJson} (status : Z) (body : Body) : HttpReply :=
  {| rp_status := status; rp_body := body; rp_no_store := false |}.
Definition created_or_ok (created : bool) : Z := if created then CREATED else OK.

(** ** Handlers *)

Section routes.
Context `{J : SerdeJson} `{C : TokenCodec}.
Context (env_db : nat → Db → Db) (env_broker : nat → BrokerState → BrokerState)
  (env_permits : nat → Z → Z).
(** What a call draws at an await: readings of the clock, identifiers, random
    bytes, the token of a lease and the random bytes of stream grants. *)
Context (now : nat → nat → Z) (uuid : nat → nat → string) (bytes : nat → string)
  (lease_token : nat → Db → string) (entropy : nat → list (option string)) (instant : nat → Z).
Context (sha256_hex : string → string).

#[local] Notation store_call := (store_call env_db env_broker env_permits).
#[local] Notation store_read := (store_read env_db env_broker env_permits).
#[local] Notation store_reads := (store_reads env_db env_broker env_permits).
#[local] Notation require_channel_access := (require_channel_access env_db env_broker env_permits).

Definition handler : Type := Principal → served HttpReply.
Definition replies {A} (status : Z) (body : A → Body) (m : served A) : served HttpReply :=
  let! a := m in done_with (reply status (body a)).
(** Most operator routes: the guard and one call. *)
Definition operator_call {A} (status : Z) (body : A → Body) (op : nat → M A) : handler :=
  λ principal, checked (require_operator principal) ;! replies status body (store_call op).
Definition operator_read {A} (body : A → Body) (op : nat → Db → result A) : handler :=
  λ principal, checked (require_operator principal) ;! replies OK body (store_read op).
Definition agent_call {A} (agent_id : string) (status : Z) (body : A → Body) (op : nat → M A) : handler :=
  λ principal, checked (require_bound_agent principal agent_id) ;! replies status body (store_call op).

(** agents.rs *)
Definition create_agent_route (input : CreateAgent) : handler :=
  operator_call CREATED BRegisteredAgent
    (λ n, register_agent input (uuid n 0) (bytes n) (uuid n 1) (now n 0)).
Definition list_agents_route : handler := operator_read BAgents (λ _, read_at list_agents).
Definition rotate_agent_credential_route (agent_id : string) : handler :=
  operator_call OK BCredential (λ n, rotate_agent_credential agent_id (uuid n 0) (bytes n) (now n 0)).

(** channels.rs *)
Definition create_channel_route (input : CreateChannel) : handler :=
  operator_call CREATED BChannel (λ n, create_channel input (uuid n 0) (now n 0)).
Definition list_channels_route : handler := operator_read BChannels (λ _, read_at list_channels).
Definition list_conversations_route (include_archived : option bool) : handler := λ principal,
  checked (require_operator principal) ;!
  replies OK BConversations
    (store_reads 2 (λ _ dbs, list_conversations (default false include_archived) dbs)).
Definition open_direct_conversation_route (members : list CreateChannelMember) : handler := λ principal,
  checked (require_operator principal) ;!
  let! opened := store_call (λ n, open_direct_pair members (uuid n 0) (uuid n 1) (now n 0)) in
  let! conversation := store_reads 2 (λ _ dbs, summary (Proto.channel_id opened.1) dbs) in
  done_with (reply (created_or_ok opened.2) (BConversation conversation)).
Definition rename_channel_route (channel_id name : string) : handler :=
  operator_call OK BChannel (λ _, rename_channel channel_id name).
Definition archive_channel_route (channel_id : string) : handler :=
  operator_call OK BChannel (λ n, archive_channel channel_id (now n 0)).
Definition add_member_route (channel_id agent_id : string) (mode : MembershipDeliveryMode.t) : handler :=
  operator_call NO_CONTENT (λ _, NoContent) (λ n, add_member_with_mode channel_id agent_id mode (now n 0)).
Definition list_channel_members_route (channel_id : string) : handler := λ principal,
  require_channel_access principal channel_id ;!
  replies OK BMembers (store_read (λ _, read_at (list_channel_members channel_id))).
Definition list_conversation_attention_route : handler := λ principal,
  let! agent_id := checked (require_agent principal) in
  replies OK BAttentions (store_read (λ _ db, Ok (attention agent_id db))).
Definition advance_conversation_read_route (channel_id : string) (through_seq : Z) : handler := λ principal,
  let! agent_id := checked (require_agent principal) in
  store_call (λ _, advance_member_read_cursor channel_id agent_id through_seq) ;!
  replies OK BAttention (store_read (λ _, read_at (attention_for agent_id channel_id))).

(** messages.rs *)
Definition append_message_route (channel_id : string) (input : SendMessage) : handler := λ principal,
  let! agent_id := checked (require_agent principal) in
  let! result := store_call (λ n, append_message_in_transaction channel_id
                                    (attributed_to input agent_id) (uuid n 0) (now n 0)) in
  (if append_created result then announce (Committed (append_message result)) else done_with tt) ;!
  done_with (reply (created_or_ok (append_created result)) (BMessage (append_message result))).
Definition list_messages_route (channel_id : string) (query : PageQuery) : handler := λ principal,
  require_channel_access principal channel_id ;!
  replies OK BMessagePage
    (store_read (λ _, read_at (list_messages channel_id (default 0 (pq_after query))
                                 (default default_page_limit (pq_limit query))))).

(** streams.rs *)
Definition map_stream_grant_issue_error (error : StreamGrantBrokerError) : FleetError :=
  match error with
  | BrokerCapacity => ResourceExhausted "browser stream grant capacity"
  | BrokerInvalidScope | BrokerRejected => Invalid "invalid browser stream grant scope"
  | BrokerEntropy | BrokerRevalidation _ => Credential "browser stream grant issuance failed"
  end.
Definition issue_browser_stream_grant (channel_id : string) (input : BrowserStreamGrantIssueRequest)
    : handler := λ principal,
  require_channel_access principal channel_id ;!
  let after := gir_after input in
  let! _ := store_read (λ _, read_at (list_messages channel_id after 1)) in
  let! authorization := checked (from_principal channel_id after principal) in
  let! issued := on_broker (λ n, issue default_limits authorization (protocol_as_str (gir_protocol input))
                                   (instant n) (entropy n)) in
  match issued with
  | inr error => refused (map_stream_grant_issue_error error)
  | inl issued =>
  let! grant := checked (ok_or (grant_parse (isg_grant issued))
                           (Credential "generated stream grant was invalid")) in
  λ w,
  let lifetime_ms := isg_lifetime issued in
  done_with
    {| rp_status := CREATED;
       rp_body := BStreamGrant
         {| gis_grant := grant;
            gis_expires_at_ms := saturate_i64 (now (hw_awaits w) 0 + lifetime_ms);
            gis_websocket_path := ChannelStreamPath; gis_protocol := V1 |};
       rp_no_store := true |} w
  end.

(** deliveries.rs *)
Definition list_deliveries_route (query : DeliveryQuery) : handler :=
  operator_read BDeliveries
    (λ n, read_at (list_deliveries (dq_agent query) (dq_state query)
                     (default default_delivery_list_limit (dq_limit query)) (now n 0))).
Definition claim_deliveries_route (agent_id : string) (input : ClaimDeliveries) : handler :=
  agent_call agent_id OK BClaimBatch
    (λ n db, claim_deliveries agent_id input (now n 0) (lease_token n db) db).
Definition acknowledge_delivery_route (agent_id message_id token : string) : handler :=
  agent_call agent_id NO_CONTENT (λ _, NoContent)
    (λ n, acknowledge_delivery agent_id message_id token (now n 0)).
Definition retry_delivery_route (agent_id message_id : string) (input : RetryDelivery) : handler :=
  agent_call agent_id NO_CONTENT (λ _, NoContent) (λ n, retry_delivery agent_id message_id input (now n 0)).
Definition block_delivery_route (agent_id message_id : string) (input : BlockDelivery) : handler := λ principal,
  checked (require_bound_agent principal agent_id) ;!
  let! blocked := store_call (λ n, block_delivery agent_id message_id input (now n 0)) in
  done_with (reply (created_or_ok blocked.2) (BBlocked blocked.1)).
Definition list_delivery_blocks_route (agent : option string) : handler :=
  operator_read BBlocks (λ _, read_at (list_blocked_deliveries agent)).
Definition resolve_delivery_block_route (block_id : Z) (input : ResolveDeliveryBlock) : handler :=
  operator_call NO_CONTENT (λ _, NoContent) (λ n, resolve_delivery_block block_id input (now n 0)).

(** invocations.rs *)
Definition reserve_invocations_route (agent_id : string) (input : ClaimDeliveries) : handler :=
  agent_call agent_id OK BInvocations
    (λ n db, reserve_invocations agent_id input (now n 0) (lease_token n db) (uuid n) db).
Definition arm_invocation_route (agent_id invocation_id : string) (input : ArmInvocation) : handler :=
  agent_call agent_id OK BInvocation (λ n, arm_invocation_transaction agent_id invocation_id input (now n 0)).
Definition complete_invocation_route (agent_id invocation_id : string) (input : CompleteInvocation)
    : handler := λ principal,
  checked (require_bound_agent principal agent_id) ;!
  let! completed := store_call (λ n, complete_invocation agent_id invocation_id input (now n 0)
                                       (uuid n 0) (now n 1)) in
  (if completed.2 then announce (Committed (completion_result completed.1)) else done_with tt) ;!
  done_with (reply (created_or_ok completed.2) (BCompletion completed.1)).
Definition list_invocations_route (agent : option string) : handler :=
  operator_read BInvocations (λ _, read_at (list_invocations agent)).

(** operations.rs *)
Definition trace_invocation_route (invocation_id : string) : handler := λ principal,
  checked (require_operator principal) ;!
  replies OK BTrace (store_reads 5 (λ n dbs, invocation_trace invocation_id dbs (now n 0))).
Definition read_fleet_health_route (query : FleetHealthQuery) : handler := λ principal,
  checked (require_operator principal) ;!
  replies OK BHealth
    (store_reads 4 (λ n dbs, fleet_health (fq_agent query)
                               (default default_census_limit (fq_delivery_limit query)) dbs (now n) (now n 0))).
Definition list_plugin_generations_route (query : EvidencePageQuery) : handler := λ principal,
  checked (require_operator principal) ;!
  let! cursor := checked (page_cursor query) in
  replies OK BGenerations
    (store_read (λ n, read_at (list_plugin_generations (evidence_page query cursor) (now n)))).
Definition list_invocation_observations_route (query : EvidencePageQuery) : handler := λ principal,
  checked (require_operator principal) ;!
  let! cursor := checked (page_cursor query) in
  replies OK BObservations
    (store_read (λ _, read_at (list_invocation_observations (evidence_page query cursor)))).
Definition list_session_bindings_route (agent : option string) : handler :=
  operator_read BBindings (λ _, read_at (list_session_bindings agent)).
Definition list_agent_seats_route (agent : option string) : handler :=
  operator_read BSeats (λ n, read_at (list_agent_seats agent (now n 0) (now n))).

(** triggers.rs *)
Definition register_trigger_route (input : RegisterTrigger) : handler :=
  operator_call CREATED BRegisteredTrigger
    (λ n, register_trigger input (uuid n 0) (bytes n) (uuid n 1) (now n 0)).
Definition list_triggers_route (channel_id : option string) : handler :=
  operator_read BTriggers (λ _, read_at (list_triggers channel_id)).
Definition get_trigger_route (trigger_id : string) : handler :=
  operator_read BTrigger (λ _, read_at (get_trigger trigger_id)).
(** [AuthService::retire_trigger]: the registration is read back after the commit. *)
Definition retire_trigger (trigger_id reason : string) : served Trigger :=
  store_call (λ n, retire_trigger_transaction trigger_id reason (now n 0)) ;!
  store_read (λ _, read_at (get_trigger trigger_id)).
Definition retire_trigger_route (trigger_id reason : string) : handler := λ principal,
  checked (require_operator principal) ;!
  replies OK BTrigger (retire_trigger trigger_id reason).
Definition rotate_trigger_credential_route (trigger_id : string) : handler := λ principal,
  checked (require_operator principal) ;!
  store_read (λ _, read_at (rotate_trigger_check trigger_id)) ;!
  replies OK BCredential
    (store_call (λ n, rotate_trigger_transaction trigger_id
                        (issue_credential TRIGGER_TOKEN_PREFIX (uuid n 0) (bytes n) (now n 0)))).
Definition fire_trigger_route (trigger_id : string) (occurrence : TriggerOccurrence) : handler := λ principal,
  checked (require_bound_trigger principal trigger_id) ;!
  replies OK BFired (store_call (λ n, fire sha256_hex trigger_id occurrence (uuid n 0) (now n 0) (now n 1))).

(** seats.rs *)
Definition list_agent_seat_configurations_route : handler :=
  operator_read BSeatConfigurations (λ _, read_at list_seats).
Definition configure_agent_seat_route (agent_id : string) (input : ConfigureAgentSeat) : handler :=
  operator_call OK BSeatConfiguration (λ n, configure agent_id input (now n 0)).
Definition restart_agent_seat_route (agent_id : string) : handler :=
  operator_call OK BSeatConfiguration (λ n, restart agent_id (now n 0)).

(** ** Dispatch *)

Definition dispatch_request (request : Request) : handler :=
  match request with
  | CreateAgentRequest input => create_agent_route input
  | ListAgents => list_agents_route
  | RotateAgentCredential agent_id => rotate_agent_credential_route agent_id
  | CreateChannelRequest input => create_channel_route input
  | ListChannels => list_channels_route
  | ListConversations include_archived => list_conversations_route include_archived
  | OpenDirectConversation members => open_direct_conversation_route members
  | RenameChannel channel_id name => rename_channel_route channel_id name
  | ArchiveChannel channel_id => archive_channel_route channel_id
  | AddMember channel_id agent_id mode => add_member_route channel_id agent_id mode
  | ListChannelMembers channel_id => list_channel_members_route channel_id
  | ListConversationAttention => list_conversation_attention_route
  | AdvanceConversationRead channel_id through_seq => advance_conversation_read_route channel_id through_seq
  | AppendMessage channel_id input => append_message_route channel_id input
  | ListMessages channel_id query => list_messages_route channel_id query
  | IssueBrowserStreamGrant channel_id input => issue_browser_stream_grant channel_id input
  | ListDeliveries query => list_deliveries_route query
  | ClaimDeliveriesRequest agent_id input => claim_deliveries_route agent_id input
  | AcknowledgeDelivery agent_id message_id token => acknowledge_delivery_route agent_id message_id token
  | RetryDeliveryRequest agent_id message_id input => retry_delivery_route agent_id message_id input
  | BlockDeliveryRequest agent_id message_id input => block_delivery_route agent_id message_id input
  | ListDeliveryBlocks agent => list_delivery_blocks_route agent
  | ResolveDeliveryBlockRequest block_id input => resolve_delivery_block_route block_id input
  | ReserveInvocations agent_id input => reserve_invocations_route agent_id input
  | ArmInvocationRequest agent_id invocation_id input => arm_invocation_route agent_id invocation_id input
  | CompleteInvocationRequest agent_id invocation_id input =>
      complete_invocation_route agent_id invocation_id input
  | ListInvocations agent => list_invocations_route agent
  | TraceInvocation invocation_id => trace_invocation_route invocation_id
  | ReadFleetHealth query => read_fleet_health_route query
  | ListPluginGenerations query => list_plugin_generations_route query
  | ListInvocationObservations query => list_invocation_observations_route query
  | ListSessionBindings agent => list_session_bindings_route agent
  | ListAgentSeats agent => list_agent_seats_route agent
  | RegisterTriggerRequest input => register_trigger_route input
  | ListTriggers channel_id => list_triggers_route channel_id
  | GetTrigger trigger_id => get_trigger_route trigger_id
  | RetireTriggerRequest trigger_id reason => retire_trigger_route trigger_id reason
  | RotateTriggerCredential trigger_id => rotate_trigger_credential_route trigger_id
  | FireTrigger trigger_id occurrence => fire_trigger_route trigger_id occurrence
  | ListSeatConfigurations => list_agent_seat_configurations_route
  | ConfigureSeat agent_id input => configure_agent_seat_route agent_id input
  | RestartSeat agent_id => restart_agent_seat_route agent_id
  end.

(** The protected router: the middleware, then the route. *)
Definition serve (authorization : option string) (request : Request) : served HttpReply :=
  let! principal := authenticate_request env_db env_broker env_permits authorization in
  dispatch_request request principal.

(** What the client is sent; a panic of the task sends nothing. *)
Definition respond (source_text : FleetError → string) (r : HttpReply + Fault)
    : option (HttpReply + ErrorReply) :=
  match r with
  | inl reply => Some (inl reply)
  | inr (Refused error) => Some (inr (into_response source_text error))
  | inr Panicked => None
  end.
End routes.
