(* ===== verification/Lifecycle.v ===== *)
(** * Row lifecycles and the evolution of the database

    The abstract specification the operations refine: for every table, the
    moves one row may make ([step]), and [evolves], which says that every row
    of the earlier database is still there, moved along its lifecycle, and that
    only new rows were added.  [wf] is the well-formedness SQLite enforces, with
    the order of the message log.  [safe m] says a computation preserves [wf]
    and only evolves the database; it is closed under the monad's combinators,
    so an operation is safe when its statements are.

    The boolean of [step] says whether an operator's decision is allowed: the
    moves out of a blocked delivery need it. *)

From S2P Require Import Prelude Proto Schema Channels Messages Deliveries.
From S2P Require Import SessionFence Observations Invocations Triggers Auth Seats.

(** ** Lifecycles *)

Class Lifecycle (R : Type) := step : bool → R → R → Prop.

Inductive delivery_step (operator : bool) : DeliveryRow → DeliveryRow → Prop :=
| ds_lease d token expiry :
    d_state d = DeliveryState.Pending ∨ d_state d = DeliveryState.Leased →
    delivery_step operator d (lease_row token expiry d)
| ds_acknowledge d token now :
    d_state d = DeliveryState.Leased → d_lease_token d = Some token →
    delivery_step operator d (settle_acknowledged token now d)
| ds_retry d token at_ms error :
    d_state d = DeliveryState.Leased → d_lease_token d = Some token →
    delivery_step operator d (settle_retry at_ms error token d)
| ds_block d token reason :
    d_state d = DeliveryState.Leased → d_lease_token d = Some token →
    delivery_step operator d (settle_blocked reason token d)
| ds_requeue d at_ms note :
    operator = true → d_state d = DeliveryState.Blocked →
    delivery_step operator d (requeue_row at_ms note d)
| ds_abandon d note :
    operator = true → d_state d = DeliveryState.Blocked →
    delivery_step operator d (abandon_row note d).

Inductive block_step (operator : bool) : BlockRow → BlockRow → Prop :=
| bs_resolve b now resolution note retry :
    operator = true → b_resolved_at_ms b = None →
    block_step operator b (resolve_block_row now resolution note retry b).

Inductive invocation_step (operator : bool) : InvocationRow → InvocationRow → Prop :=
| is_arm i now :
    i_state i = InvocationState.Reserved → invocation_step operator i (set_armed now i)
| is_terminal i now certainty reason :
    i_state i ≠ InvocationState.Terminal →
    invocation_step operator i (set_terminal now certainty reason i)
| is_complete i now seq :
    i_state i = InvocationState.DispatchArmed →
    invocation_step operator i (set_completed now seq i).

Inductive binding_step (operator : bool) : BindingRow → BindingRow → Prop :=
| ss_open s ref now :
    s_state s = SessionBindingState.Opening → binding_step operator s (set_opened ref now s)
| ss_adopt s owner now :
    s_state s = SessionBindingState.Ready →
    binding_step operator s (set_adopted (s_owner_epoch s + 1) owner now s)
| ss_activate s id now :
    s_state s = SessionBindingState.Ready → s_active_invocation_id s = None →
    binding_step operator s (set_active id now s)
| ss_quiesce s id persistence now :
    s_state s = SessionBindingState.Active → s_active_invocation_id s = Some id →
    binding_step operator s (set_ready id persistence now s)
| ss_fence s reason now :
    s_state s = SessionBindingState.Active →
    binding_step operator s (set_uncertain reason now s)
| ss_retire s reason now :
    s_state s ≠ SessionBindingState.Active → s_state s ≠ SessionBindingState.Retired →
    binding_step operator s (set_retired reason now s).

Inductive turn_step (operator : bool) : TurnRow → TurnRow → Prop :=
| ts_quiesce t persistence now :
    t_state t = TurnState.Active → turn_step operator t (turn_quiescent persistence now t)
| ts_fence t reason now :
    t_state t = TurnState.Active → turn_step operator t (turn_uncertain reason now t).

Inductive generation_step (operator : bool) : GenerationRow → GenerationRow → Prop :=
| gs_heartbeat g now :
    g_state g = GenerationState.Active → generation_step operator g (set_heartbeat now g)
| gs_stop g stop now :
    g_state g = GenerationState.Active → generation_step operator g (set_stopped stop now g).

Inductive observation_step (operator : bool) : ObservationRow → ObservationRow → Prop :=
| os_event o now at_ms bytes digest chain classification :
    o_terminal_at_ms o = None → 0 ≤ bytes →
    observation_step operator o
      (fold_event now at_ms bytes (o_last_event_seq o + 1) digest chain
         (event_increments classification) o)
| os_terminal o `{SerdeJson} terminal usage now :
    o_terminal_at_ms o = None →
    observation_step operator o (set_observation_terminal terminal usage now o).

Inductive channel_step (operator : bool) : ChannelRow → ChannelRow → Prop :=
| cs_rename c name :
    c_conversation_kind c = ConversationKind.Shared → c_archived_at_ms c = None →
    channel_step operator c (set_channel_name name c)
| cs_archive c now :
    c_conversation_kind c = ConversationKind.Shared → c_archived_at_ms c = None →
    channel_step operator c (set_channel_archived now c).

Inductive member_step (operator : bool) : MemberRow → MemberRow → Prop :=
| ms_read m seq :
    cm_read_through_seq m < seq → member_step operator m (set_read_through seq m).

Inductive trigger_step (operator : bool) : TriggerRow → TriggerRow → Prop :=
| tg_retire t reason now :
    tr_state t = TriggerState.Active → trigger_step operator t (set_trigger_retired reason now t)
| tg_fire t occurrence now :
    tr_state t = TriggerState.Active → trigger_step operator t (set_trigger_fired occurrence now t).

Inductive credential_step (operator : bool) : CredentialRow → CredentialRow → Prop :=
| cr_revoke c now :
    cr_revoked_at_ms c = None → credential_step operator c (set_revoked now c).

Inductive seat_step (operator : bool) : SeatRow → SeatRow → Prop :=
| st_configure r requested now :
    seat_differs requested r = true → seat_step operator r (set_seat requested now r)
| st_restart r now :
    sc_desired_state r = AgentSeatDesiredState.Running →
    seat_step operator r (set_restarted now r).

(** Rows that are never changed. *)
Definition no_step {R : Type} (_ : bool) (_ _ : R) : Prop := False.

#[global] Instance agent_lifecycle : Lifecycle AgentRow := no_step.
#[global] Instance channel_lifecycle : Lifecycle ChannelRow := channel_step.
#[global] Instance member_lifecycle : Lifecycle MemberRow := member_step.
#[global] Instance message_lifecycle : Lifecycle MessageRow := no_step.
#[global] Instance delivery_lifecycle : Lifecycle DeliveryRow := delivery_step.
#[global] Instance block_lifecycle : Lifecycle BlockRow := block_step.
#[global] Instance invocation_lifecycle : Lifecycle InvocationRow := invocation_step.
#[global] Instance binding_lifecycle : Lifecycle BindingRow := binding_step.
#[global] Instance turn_lifecycle : Lifecycle TurnRow := turn_step.
#[global] Instance generation_lifecycle : Lifecycle GenerationRow := generation_step.
#[global] Instance observation_lifecycle : Lifecycle ObservationRow := observation_step.
#[global] Instance trigger_lifecycle : Lifecycle TriggerRow := trigger_step.
#[global] Instance credential_lifecycle : Lifecycle CredentialRow := credential_step.
#[global] Instance seat_lifecycle : Lifecycle SeatRow := seat_step.

(** ** Tables related row by row *)

(** Every row of [l] is related to the row at its place in [l'], and [l'] may
    have more rows after them. *)
Definition table_rel {R} (rel : relation R) (l l' : list R) : Prop :=
  ∃ kept added, l' = kept ++ added ∧ Forall2 rel l kept.

#[global] Instance table_rel_preorder {R} (rel : relation R) :
  PreOrder rel → PreOrder (table_rel rel).
Proof.
  intros [Hrefl Htrans]. split.
  - intros l. exists l, []. split; [by rewrite app_nil_r|]. by apply Forall_Forall2_diag, Forall_forall.
  - intros l1 l2 l3 (k1 & a1 & -> & H1) (k2 & a2 & -> & H2).
    apply Forall2_app_inv_l in H2 as (k & a & Hk & Ha & ->).
    exists k, (a ++ a2). split; [by rewrite app_assoc|].
    by transitivity k1.
Qed.

Lemma table_rel_elem {R} (rel : relation R) l l' r :
  table_rel rel l l' → r ∈ l → ∃ r', r' ∈ l' ∧ rel r r'.
Proof.
  intros (k & a & -> & Hk) Hr. apply list_elem_of_lookup in Hr as [n Hn].
  destruct (Forall2_lookup_l _ _ _ _ _ Hk Hn) as (r' & Hr' & ?).
  exists r'. split; [|done]. apply elem_of_app. left. by eapply list_elem_of_lookup_2.
Qed.

Lemma table_rel_app {R} (rel : relation R) `{!Reflexive rel} l extra :
  table_rel rel l (l ++ extra).
Proof. exists l, extra. split; [done|]. by apply Forall_Forall2_diag, Forall_forall. Qed.

Lemma table_rel_map {R} (rel : relation R) l f :
  (∀ r, r ∈ l → rel r (f r)) → table_rel rel l (map f l).
Proof.
  intros Hf. exists (map f l), []. split; [by rewrite app_nil_r|].
  apply Forall2_fmap_r, Forall_Forall2_diag, Forall_forall. done.
Qed.

(** ** Evolution *)

Definition moves {R} `{Lifecycle R} (operator : bool) : relation R := rtc (step operator).

Record evolves (operator : bool) (db db' : Db) : Prop := {
  ev_agents : table_rel (moves operator) db.(agents) db'.(agents);
  ev_channels : table_rel (moves operator) db.(channels) db'.(channels);
  ev_members : table_rel (moves operator) db.(channel_members) db'.(channel_members);
  ev_messages : table_rel (moves operator) db.(messages) db'.(messages);
  ev_deliveries : table_rel (moves operator) db.(agent_deliveries) db'.(agent_deliveries);
  ev_blocks : table_rel (moves operator) db.(delivery_blocks) db'.(delivery_blocks);
  ev_invocations : table_rel (moves operator) db.(invocations) db'.(invocations);
  ev_bindings : table_rel (moves operator) db.(session_bindings) db'.(session_bindings);
  ev_turns : table_rel (moves operator) db.(session_binding_turns) db'.(session_binding_turns);
  ev_generations :
    table_rel (moves operator) db.(plugin_generations) db'.(plugin_generations);
  ev_observations :
    table_rel (moves operator) db.(invocation_observations) db'.(invocation_observations);
  ev_triggers : table_rel (moves operator) db.(triggers) db'.(triggers);
  ev_credentials : table_rel (moves operator) db.(auth_credentials) db'.(auth_credentials);
  ev_seats :
    table_rel (moves operator) db.(agent_seat_configurations) db'.(agent_seat_configurations);
  ev_messages_autoinc : db.(messages_autoinc) ≤ db'.(messages_autoinc);
  ev_blocks_autoinc : db.(blocks_autoinc) ≤ db'.(blocks_autoinc);
}.

#[global] Instance moves_preorder {R} `{Lifecycle R} operator : PreOrder (moves (R := R) operator).
Proof. apply _. Qed.

#[global] Instance evolves_preorder operator : PreOrder (evolves operator).
Proof.
  split.
  - intros db. split; try reflexivity.
  - intros db1 db2 db3 [] []. split; (etransitivity; eassumption).
Qed.

(** ** Well-formedness *)

Definition table_ok {R} `{Table R} (l : list R) : Prop :=
  no_conflict l = true ∧ Forall (λ r, check r = true) l.

(** The log is in strictly increasing order of [seq], below the AUTOINCREMENT
    high-water mark. *)
Definition log_ok (autoinc : Z) (l : list MessageRow) : Prop :=
  StronglySorted (λ m1 m2, m_seq m1 < m_seq m2) l
  ∧ Forall (λ m, 0 < m_seq m ≤ autoinc) l ∧ 0 ≤ autoinc ≤ i64_max.

Record wf (db : Db) : Prop := {
  wf_agents : table_ok db.(agents);
  wf_channels : table_ok db.(channels);
  wf_members : table_ok db.(channel_members);
  wf_messages : table_ok db.(messages);
  wf_log : log_ok db.(messages_autoinc) db.(messages);
  wf_deliveries : table_ok db.(agent_deliveries);
  wf_blocks : table_ok db.(delivery_blocks);
  wf_invocations : table_ok db.(invocations);
  wf_bindings : table_ok db.(session_bindings);
  wf_turns : table_ok db.(session_binding_turns);
  wf_generations : table_ok db.(plugin_generations);
  wf_observations : table_ok db.(invocation_observations);
  wf_triggers : table_ok db.(triggers);
  wf_credentials : table_ok db.(auth_credentials);
  wf_seats : table_ok db.(agent_seat_configurations);
}.

Lemma wf_empty : wf empty_db.
Proof. split; try (by split); repeat split; try constructor; done. Qed.

(** What the generic statements need of a table: replacing its rows evolves
    only that table and breaks no other table's constraints. *)
Class TableLaws (R : Type) `{Table R} `{Lifecycle R} := {
  evolves_with : ∀ operator db l',
    table_rel (moves operator) (rows db) l' → evolves operator db (with_rows l' db);
  wf_with : ∀ db l', wf db → table_ok l' → wf (with_rows l' db);
  wf_rows : ∀ db, wf db → table_ok (rows db);
}.

Ltac solve_table_laws :=
  split;
  [ intros operator [] l' Hrel; split; simpl in *; (assumption || reflexivity)
  | intros [] l' [] Hok; split; simpl in *; assumption
  | intros db []; assumption ].

#[global] Instance agents_laws : TableLaws AgentRow.
Proof. solve_table_laws. Qed.
#[global] Instance channels_laws : TableLaws ChannelRow.
Proof. solve_table_laws. Qed.
#[global] Instance members_laws : TableLaws MemberRow.
Proof. solve_table_laws. Qed.
#[global] Instance deliveries_laws : TableLaws DeliveryRow.
Proof. solve_table_laws. Qed.
#[global] Instance blocks_laws : TableLaws BlockRow.
Proof. solve_table_laws. Qed.
#[global] Instance invocations_laws : TableLaws InvocationRow.
Proof. solve_table_laws. Qed.
#[global] Instance bindings_laws : TableLaws BindingRow.
Proof. solve_table_laws. Qed.
#[global] Instance turns_laws : TableLaws TurnRow.
Proof. solve_table_laws. Qed.
#[global] Instance generations_laws : TableLaws GenerationRow.
Proof. solve_table_laws. Qed.
#[global] Instance observations_laws : TableLaws ObservationRow.
Proof. solve_table_laws. Qed.
#[global] Instance triggers_laws : TableLaws TriggerRow.
Proof. solve_table_laws. Qed.
#[global] Instance credentials_laws : TableLaws CredentialRow.
Proof. solve_table_laws. Qed.
#[global] Instance seats_laws : TableLaws SeatRow.
Proof. solve_table_laws. Qed.

(** Two stored rows with the same key are the same row. *)
Lemma unique_row {R} `{TableLaws R} `{!ConflictSym R} db (a b : R) :
  wf db → a ∈ rows db → b ∈ rows db → conflict a b = true → a = b.
Proof. intros Hwf. destruct (wf_rows db Hwf). by apply no_conflict_eq. Qed.

(** Every stored row satisfies its CHECK constraints. *)
Lemma checked_row {R} `{TableLaws R} db (a : R) : wf db → a ∈ rows db → check a = true.
Proof. intros Hwf. destruct (wf_rows db Hwf) as [_ Hall]. revert a. by apply Forall_forall. Qed.

(** ** Safe computations *)

Definition safe (operator : bool) {A} (m : M A) : Prop :=
  ∀ db a db', wf db → m db = Ok (a, db') → wf db' ∧ evolves operator db db'.

Section safety.
Context (operator : bool).

Lemma safe_bind {A B} (m : M A) (k : A → M B) :
  safe operator m → (∀ a, safe operator (k a)) → safe operator (bind m k).
Proof.
  intros Hm Hk db b db' Hwf (a & db1 & H1 & H2)%bind_ok.
  apply Hm in H1 as [Hwf1 He1]; [|done]. apply Hk in H2 as [Hwf2 He2]; [|done].
  split; [done|]. by etransitivity.
Qed.

(** A computation that only reads. *)
Definition reads {A} (m : M A) : Prop := ∀ db a db', m db = Ok (a, db') → db' = db.

Lemma safe_reads {A} (m : M A) : reads m → safe operator m.
Proof. intros Hm db a db' Hwf ->%Hm. by split. Qed.

Lemma safe_ret {A} (a : A) : safe operator (ret a).
Proof. apply safe_reads. intros ???. by intros [_ ->]%ret_ok. Qed.
Lemma safe_fail {A} e : safe operator (fail (A := A) e).
Proof. intros ?????. by m_inv. Qed.
Lemma safe_lift {A} (r : result A) : safe operator (lift r).
Proof. apply safe_reads. intros ???. by intros [_ ->]%lift_ok. Qed.
Lemma safe_gets {A} (f : Db → A) : safe operator (gets f).
Proof. apply safe_reads. intros ???. by intros [_ ->]%gets_ok. Qed.

Lemma safe_for_each {A} (l : list A) body :
  (∀ a, safe operator (body a)) → safe operator (for_each l body).
Proof. intros Hb. induction l; simpl; [apply safe_ret|by apply safe_bind]. Qed.
Lemma safe_map_m {A B} (l : list A) (body : A → M B) :
  (∀ a, safe operator (body a)) → safe operator (map_m l body).
Proof.
  intros Hb. induction l; simpl; [apply safe_ret|]. apply safe_bind; [done|]. intros b.
  apply safe_bind; [done|]. intros bs. apply safe_ret.
Qed.

Context {R : Type} `{TableLaws R}.

Lemma safe_select (p : R → bool) : safe operator (select p).
Proof. apply safe_gets. Qed.
Lemma safe_fetch_optional (p : R → bool) : safe operator (fetch_optional p).
Proof. apply safe_gets. Qed.
Lemma safe_count (p : R → bool) : safe operator (count p).
Proof. apply safe_gets. Qed.

Lemma safe_insert (r : R) : safe operator (insert r).
Proof.
  intros db [] db' Hwf (_ & Hc & Hu & _ & ->)%insert_ok.
  destruct (wf_rows db Hwf) as [_ Hall]. split.
  - apply wf_with; [done|]. split; [done|]. apply Forall_app_2; [done|]. by constructor.
  - apply evolves_with, table_rel_app. apply _.
Qed.

(** An update that moves the rows it touches along their lifecycle. *)
Lemma update_evolves (p : R → bool) f db n db' :
  wf db → update p f db = Ok (n, db') →
  (∀ r, r ∈ rows db → p r = true → step operator r (f r)) →
  wf db' ∧ evolves operator db db'.
Proof.
  intros Hwf (-> & _ & Hc & Hu & _)%update_ok Hstep.
  destruct (wf_rows db Hwf) as [_ Hall]. rewrite Forall_forall in Hall. split.
  - apply wf_with; [done|]. split; [done|]. apply Forall_forall.
    intros r' (r & Hr & ->)%elem_of_update_row. destruct (p r) eqn:Hp; auto.
  - apply evolves_with, table_rel_map. intros r Hr. unfold update_row.
    destruct (p r) eqn:Hp; [|reflexivity]. apply rtc_once. auto.
Qed.

Lemma safe_update (p : R → bool) f :
  (∀ r, p r = true → step operator r (f r)) → safe operator (update p f).
Proof. intros Hstep db n db' Hwf Hup. eapply update_evolves; eauto. Qed.
End safety.

(** [evolves] with the operator's moves allowed covers [evolves] without. *)
Lemma moves_weaken {R} `{Lifecycle R} (r r' : R) operator :
  (∀ a b : R, step false a b → step operator a b) →
  moves false r r' → moves operator r r'.
Proof. intros Hs. induction 1; [reflexivity|]. eapply rtc_l; eauto. Qed.

Create HintDb store discriminated.
#[export] Hint Resolve safe_ret safe_fail safe_lift safe_gets safe_select safe_fetch_optional
  safe_count : store.

(** Discharges [safe] goals: walks the program, splits on its case analyses and
    leaves the side condition of each update. *)
Ltac safe_step :=
  match goal with
  | |- safe _ (bind _ _) => apply safe_bind; [|intros ?]
  | |- safe _ (for_each _ _) => apply safe_for_each; intros ?
  | |- safe _ (map_m _ _) => apply safe_map_m; intros ?
  | |- safe _ (insert _) => refine (safe_insert _ _)
  | |- safe _ (update _ _) => refine (safe_update _ _ _ _); intros ? ?
  | |- safe _ (if ?b then _ else _) => destruct b eqn:?
  | |- safe _ (match ?x with _ => _ end) => destruct x eqn:?
  | |- safe _ _ => solve [eauto 2 with store]
  end.
Ltac safe_tac := repeat safe_step.

(** The last update of a run, with the side condition of its rows left. *)
Ltac update_tac :=
  match goal with
  | Hwf : wf ?db, H : update _ _ ?db = Ok (_, ?db') |- wf ?db' ∧ evolves _ ?db ?db' =>
      refine (update_evolves _ _ _ _ _ _ Hwf H _); intros ? ? ?; bool_facts
  end.

(** A settled row does not move again. *)
Lemma moves_stuck {R} `{Lifecycle R} operator (r r' : R) :
  (∀ r2, ¬ step operator r r2) → moves operator r r' → r' = r.
Proof. intros Hs. destruct 1; [done|]. by edestruct Hs. Qed.

Lemma stuck_elem {R} `{Lifecycle R} operator (l l' : list R) r :
  table_rel (moves operator) l l' → (∀ r2, ¬ step operator r r2) → r ∈ l → r ∈ l'.
Proof.
  intros Hrel Hs Hr. destruct (table_rel_elem _ _ _ _ Hrel Hr) as (r' & ? & Hm).
  by apply moves_stuck in Hm as ->.
Qed.
