(* ===== verification/Safety.v ===== *)
(** * Every operation evolves the database

    One [safe] lemma per operation: it preserves well-formedness and refines
    the row lifecycles of Lifecycle.v.  All but [resolve_delivery_block] do so
    without the operator's moves. *)

From S2P Require Import Prelude Proto Schema Channels Messages Deliveries.
From S2P Require Import SessionFence Observations Invocations Settlement Sessions.
From S2P Require Import Triggers Auth Seats Lifecycle.

Section safety.
Context (operator : bool).

(** ** Agents, channels, members *)

Lemma safe_map_unique_conflict m field :
  safe operator m → safe operator (map_unique_conflict m field).
Proof.
  intros Hm db a db' Hwf. unfold map_unique_conflict.
  destruct (m db) as [[? ?]|e] eqn:E; [intros [= <- <-]; eauto|].
  destruct e as [| | | | | | | |[]| |]; done.
Qed.

Lemma safe_ensure_exists {R} `{Table R} (key : R → string) entity id :
  safe operator (ensure_exists key entity id).
Proof. apply safe_bind; [apply safe_gets|intros ?; apply safe_lift]. Qed.

Lemma safe_channel_row id : safe operator (channel_row id).
Proof. unfold channel_row. safe_tac. Qed.

Lemma safe_ensure_member c a : safe operator (ensure_member c a).
Proof. unfold ensure_member. safe_tac. Qed.

Lemma safe_insert_member c j r m : safe operator (insert_member c j r m).
Proof. unfold insert_member. safe_tac. Qed.

(** The row a lookup by channel id found is the only one with that id. *)
Lemma channel_id_unique db c1 c2 :
  wf db → c1 ∈ db.(channels) → c2 ∈ db.(channels) → c_id c1 = c_id c2 → c1 = c2.
Proof.
  intros Hwf H1 H2 Hid. apply (unique_row db); [done..|].
  simpl. unfold conflict_channel. by rewrite bool_decide_true.
Qed.

Context `{J : SerdeJson}.

Lemma safe_create_agent input uuid now : safe operator (create_agent input uuid now).
Proof.
  unfold create_agent. safe_tac. apply safe_map_unique_conflict. safe_tac.
Qed.

Lemma safe_create_channel_with_members n md ms uuid now :
  safe operator (create_channel_with_members n md ms uuid now).
Proof.
  unfold create_channel_with_members. safe_tac.
  - apply safe_ensure_exists.
  - apply safe_map_unique_conflict. safe_tac.
  - apply safe_insert_member.
Qed.

Lemma safe_create_channel input uuid now : safe operator (create_channel input uuid now).
Proof. unfold create_channel. safe_tac. apply safe_create_channel_with_members. Qed.

Lemma safe_rename_channel id name : safe operator (rename_channel id name).
Proof.
  intros db ch db' Hwf H. unfold rename_channel, map_unique_conflict in H. m_inv.
  apply channel_row_ok in H1 as (-> & Hin & Hid).
  apply channel_from_row_ok in H2 as (_ & _ & Hk & Ha).
  apply require_mutable_ok in H3 as [Hk' Ha'].
  destruct (bind _ _ db) as [[? ?]|e] eqn:E; [|by destruct e as [| | | | | | | |[]| |]].
  m_inv. update_tac. assert (r = a0) as -> by (eapply channel_id_unique; eauto; congruence).
  apply cs_rename; congruence.
Qed.

Lemma safe_archive_channel id now : safe operator (archive_channel id now).
Proof.
  intros db ch db' Hwf H. unfold archive_channel in H. m_inv.
  apply channel_row_ok in H0 as (-> & Hin & Hid).
  apply channel_from_row_ok in H1 as (_ & _ & Hk & Ha). bool_facts.
  destruct (channel_archived_at_ms _) eqn:Harch; m_inv; [by split|].
  update_tac. assert (r = a) as -> by (eapply channel_id_unique; eauto; congruence).
  apply cs_archive; congruence.
Qed.

Lemma safe_insert_direct_pair k ms uuid name now :
  safe operator (insert_direct_pair k ms uuid name now).
Proof. unfold insert_direct_pair. safe_tac. apply safe_insert_member. Qed.

Lemma safe_open_direct_pair input uuid name now :
  safe operator (open_direct_pair input uuid name now).
Proof.
  unfold open_direct_pair, open_direct_in_transaction, ensure_direct_modes_match.
  safe_tac; [apply safe_ensure_exists|apply safe_insert_direct_pair].
Qed.

Lemma safe_add_member_with_mode c a mode now :
  safe operator (add_member_with_mode c a mode now).
Proof.
  unfold add_member_with_mode. safe_tac;
    [apply safe_channel_row|apply safe_ensure_exists|apply safe_insert_member].
Qed.

Lemma safe_advance_member_read_cursor c a seq :
  safe operator (advance_member_read_cursor c a seq).
Proof.
  unfold advance_member_read_cursor. safe_tac;
    try first [apply safe_ensure_exists | apply safe_ensure_member].
  bool_facts. by apply ms_read.
Qed.

(** ** Messages *)

Lemma safe_insert_message_row row :
  (∀ seq, m_seq (row seq) = seq) → safe operator (insert_message_row row).
Proof.
  intros Hseq db seq db' Hwf H. unfold insert_message_row, next_message_seq in H. m_inv.
  destruct (messages_autoinc db =? i64_max) eqn:Hfull; [done|].
  injection H0 as <- <-. apply Z.eqb_neq in Hfull.
  apply insert_ok in H1 as (_ & Hc & Hu & _ & ->).
  destruct (wf_log db Hwf) as (Hs & Hb & Hmax). split.
  - destruct Hwf. split; simpl; try done; [split; [done|by apply Forall_forall]|]. repeat split; [..|lia|lia].
    + apply StronglySorted_app_2; [|done|repeat constructor].
      intros m1 m2 H1 ->%list_elem_of_singleton. rewrite Hseq, Forall_forall in *.
      specialize (Hb _ H1). simpl in Hb. lia.
    + apply Forall_app. split; [|constructor; [rewrite Hseq; lia|done]].
      eapply Forall_impl; [done|]. simpl. lia.
  - split; simpl; try reflexivity; [|lia]. apply table_rel_app. apply _.
Qed.

Lemma safe_insert_delivery_snapshot c s r seq at_ms :
  safe operator (insert_delivery_snapshot c s r seq at_ms).
Proof. unfold insert_delivery_snapshot. safe_tac. Qed.

Lemma safe_insert_message c input uuid at_ms :
  safe operator (insert_message c input uuid at_ms).
Proof.
  unfold insert_message. safe_tac; try first
    [ apply safe_channel_row | apply safe_ensure_member
    | by apply safe_insert_message_row | apply safe_insert_delivery_snapshot ].
Qed.

Lemma safe_append_message c input uuid at_ms :
  safe operator (append_message_in_transaction c input uuid at_ms).
Proof. unfold append_message_in_transaction. safe_tac; apply safe_insert_message. Qed.

(** ** Deliveries *)

Lemma leased_row_matches_ok ms row d :
  leased_row_matches ms row d = true →
  d_state d = DeliveryState.Leased ∧ d_lease_token d = Some (lr_lease_token row)
  ∧ d_agent_id d = lr_agent_id row ∧ key_matches ms (lr_key row) d = true
  ∧ window_matches (lr_window row) (lr_now row) d = true.
Proof. unfold leased_row_matches. intros H. bool_facts. done. Qed.

Lemma safe_update_leased_row row set :
  (∀ d, d_state d = DeliveryState.Leased → d_lease_token d = Some (lr_lease_token row) →
        delivery_step operator d (set d)) →
  safe operator (update_leased_row row set).
Proof.
  intros Hset. unfold update_leased_row. safe_tac.
  edestruct leased_row_matches_ok as (? & ? & _); [done|]. by apply Hset.
Qed.

Lemma safe_mark_acknowledged a m t now : safe operator (mark_acknowledged a m t now).
Proof. apply safe_update_leased_row. intros. by apply ds_acknowledge. Qed.
Lemma safe_mark_retry a m i at_ms now : safe operator (mark_retry a m i at_ms now).
Proof. apply safe_update_leased_row. intros. by apply ds_retry. Qed.
Lemma safe_mark_blocked a m i now : safe operator (mark_blocked a m i now).
Proof. apply safe_update_leased_row. intros. by apply ds_block. Qed.
Lemma safe_block_expired_lease a s t r now :
  safe operator (block_expired_lease a s t r now).
Proof. apply safe_update_leased_row. intros. by apply ds_block. Qed.
Lemma safe_acknowledge_leased_seq a s t now :
  safe operator (acknowledge_leased_seq a s t now).
Proof. apply safe_update_leased_row. intros. by apply ds_acknowledge. Qed.

Lemma delivery_key_unique db d1 d2 :
  wf db → d1 ∈ db.(agent_deliveries) → d2 ∈ db.(agent_deliveries) →
  d_message_seq d1 = d_message_seq d2 → d_agent_id d1 = d_agent_id d2 → d1 = d2.
Proof.
  intros Hwf H1 H2 Hs Ha. apply (unique_row db); [done..|].
  simpl. unfold conflict_delivery. by rewrite !bool_decide_true.
Qed.

(** The rows a claim selects are claimable. *)
Lemma claimable_keys_ok a now lim kinds db d :
  wf db → d ∈ db.(agent_deliveries) → delivery_key d ∈ claimable_keys a now lim kinds db →
  claimable a now d = true.
Proof.
  intros Hwf Hd Hk. unfold claimable_keys in Hk.
  apply list_elem_of_In, in_map_iff in Hk as ([d' m] & Hkey & Hk).
  apply list_elem_of_In, limit_subseteq, elem_of_sort_by, elem_of_list_filter in Hk as [Hp Hj].
  apply elem_of_join in Hj as (Hd' & _). bool_facts. injection Hkey as Hs Ha. simpl in *.
  by assert (d' = d) as -> by (eapply delivery_key_unique; eauto).
Qed.

Lemma claimable_state a now d :
  claimable a now d = true →
  d_state d = DeliveryState.Pending ∨ d_state d = DeliveryState.Leased.
Proof.
  unfold claimable. intros H. bool_facts.
  match goal with H : _ || _ = true |- _ => apply orb_true_iff in H as [H|H] end; bool_facts; auto.
Qed.

Lemma safe_lease_claimable a t e now lim kinds :
  safe operator (lease_claimable a t e now lim kinds).
Proof.
  intros db [] db' Hwf H. unfold lease_claimable in H. m_inv. update_tac.
  apply ds_lease. eapply claimable_state, claimable_keys_ok; eauto.
Qed.

Lemma safe_record_block_id s a n t r at_ms : safe operator (record_block_id s a n t r at_ms).
Proof.
  intros db id db' Hwf H. unfold record_block_id, next_block_id in H. m_inv.
  destruct (blocks_autoinc db =? i64_max); [done|]. injection H0 as <- <-.
  apply (safe_insert operator) in H1 as [Hwf' Hev].
  - split; [done|]. etransitivity; [|done]. split; simpl; try reflexivity. lia.
  - destruct Hwf. by split.
Qed.
Lemma safe_record_block s a n t r at_ms : safe operator (record_block s a n t r at_ms).
Proof. unfold record_block. safe_tac. apply safe_record_block_id. Qed.
Lemma safe_insert_block_record a m i at_ms : safe operator (insert_block_record a m i at_ms).
Proof. unfold insert_block_record. safe_tac. apply safe_record_block_id. Qed.

Lemma safe_settle_miss a m t e : safe operator (settle_miss a m t e).
Proof. unfold settle_miss. safe_tac. Qed.
Lemma safe_blocked_delivery_by_id id : safe operator (blocked_delivery_by_id id).
Proof. unfold blocked_delivery_by_id. safe_tac. Qed.
Lemma safe_blocked_delivery_by_lease a m t : safe operator (blocked_delivery_by_lease a m t).
Proof. unfold blocked_delivery_by_lease. safe_tac. Qed.

(** ** Sessions: the fenced writes *)

Lemma safe_fenced_update fence state set message :
  (∀ s, fence_matches fence s = true → state s = true → binding_step operator s (set s)) →
  safe operator (fenced_update fence state set message).
Proof. intros Hset. unfold fenced_update. safe_tac. bool_facts. by apply Hset. Qed.

Lemma safe_exact_binding_row a b : safe operator (exact_binding_row a b).
Proof. unfold exact_binding_row. safe_tac. Qed.
Lemma safe_binding_by_identity a b : safe operator (binding_by_identity a b).
Proof. unfold binding_by_identity. safe_tac. apply safe_exact_binding_row. Qed.
Lemma safe_bound_turn_row i : safe operator (bound_turn_row i).
Proof. unfold bound_turn_row. safe_tac. Qed.

Lemma safe_validate_bound_turn a i b q : safe operator (validate_bound_turn a i b q).
Proof.
  unfold validate_bound_turn. safe_tac;
    first [apply safe_bound_turn_row | apply safe_exact_binding_row].
Qed.

Lemma safe_activate_binding_turn a i b now : safe operator (activate_binding_turn a i b now).
Proof.
  unfold activate_binding_turn. safe_tac. apply safe_fenced_update.
  intros s _ Hs. bool_facts. apply ss_activate; [done|]. by destruct (s_active_invocation_id s).
Qed.

Lemma active_turn_ok i t :
  active_turn i t = true → t_invocation_id t = i ∧ t_state t = TurnState.Active.
Proof. unfold active_turn. intros H. by bool_facts. Qed.
Lemma active_on_ok i s :
  active_on i s = true →
  s_state s = SessionBindingState.Active ∧ s_active_invocation_id s = Some i.
Proof. unfold active_on. intros H. by bool_facts. Qed.

Lemma safe_settle_quiescent_turn a i b p now :
  safe operator (settle_quiescent_turn a i b p now).
Proof.
  unfold settle_quiescent_turn. safe_tac.
  - apply safe_bound_turn_row.
  - apply ts_quiesce. by eapply active_turn_ok.
  - apply safe_fenced_update. intros s _ [? ?]%active_on_ok. by apply ss_quiesce.
Qed.

Lemma safe_mark_turn_uncertain a i b r now : safe operator (mark_turn_uncertain a i b r now).
Proof.
  unfold mark_turn_uncertain. safe_tac.
  - apply ts_fence. by eapply active_turn_ok.
  - apply safe_fenced_update. intros s _ [? ?]%active_on_ok. by apply ss_fence.
Qed.

Lemma safe_ensure_invocation_not_active i :
  safe operator (ensure_invocation_not_active_on_session i).
Proof. unfold ensure_invocation_not_active_on_session. safe_tac. Qed.
Lemma safe_ensure_bound_turn_allows a m t b :
  safe operator (ensure_bound_turn_allows_delivery_settlement a m t b).
Proof. unfold ensure_bound_turn_allows_delivery_settlement. safe_tac. Qed.
Lemma safe_mark_expired_session_turn_uncertain i r now :
  safe operator (mark_expired_session_turn_uncertain i r now).
Proof. unfold mark_expired_session_turn_uncertain. safe_tac. apply safe_mark_turn_uncertain. Qed.

(** ** Invocations *)

Lemma safe_terminalize_expired_reservations a now :
  safe operator (terminalize_expired_reservations a now).
Proof.
  unfold terminalize_expired_reservations. safe_tac. bool_facts. apply is_terminal. congruence.
Qed.

Lemma safe_park_expired_armed_invocation row a now :
  safe operator (park_expired_armed_invocation row a now).
Proof.
  unfold park_expired_armed_invocation. safe_tac.
  - apply safe_block_expired_lease.
  - apply safe_record_block.
  - bool_facts. apply is_terminal. congruence.
  - apply safe_mark_expired_session_turn_uncertain.
Qed.

Lemma safe_recover_expired a now :
  safe operator (recover_expired_invocations_transaction a now).
Proof.
  unfold recover_expired_invocations_transaction. safe_tac;
    [apply safe_terminalize_expired_reservations|apply safe_park_expired_armed_invocation].
Qed.

Lemma safe_recover_agents agents now n : safe operator (recover_agents agents now n).
Proof.
  revert n. induction agents; intros n; simpl; safe_tac. apply safe_recover_expired.
Qed.
Lemma safe_recover_all now : safe operator (recover_all_expired_invocations now).
Proof. unfold recover_all_expired_invocations. safe_tac. apply safe_recover_agents. Qed.

Lemma safe_reserve_rows rows a t e now uuids k :
  safe operator (reserve_rows rows a t e now uuids k).
Proof.
  revert k. induction rows as [|[d m] rows IH]; intros k; simpl; [apply safe_ret|].
  unfold reserve_row. safe_tac.
Qed.

Lemma safe_reserve_invocations_filtered a input kinds now t uuids :
  safe operator (reserve_invocations_filtered a input kinds now t uuids).
Proof.
  unfold reserve_invocations_filtered. safe_tac.
  - apply safe_ensure_exists.
  - apply safe_recover_expired.
  - apply safe_lease_claimable.
  - apply safe_reserve_rows.
Qed.

Lemma safe_invocation_with_delivery a i : safe operator (invocation_with_delivery a i).
Proof. unfold invocation_with_delivery. safe_tac. Qed.
Lemma safe_invocation_by_id i : safe operator (invocation_by_id i).
Proof. unfold invocation_by_id. safe_tac. Qed.

Lemma safe_arm_invocation_transaction a i input now :
  safe operator (arm_invocation_transaction a i input now).
Proof.
  unfold arm_invocation_transaction. safe_tac;
    try first [apply safe_invocation_with_delivery | apply safe_invocation_by_id].
  bool_facts. by apply is_arm.
Qed.

Lemma safe_complete_invocation_transaction a i input now allow uuid at_ms :
  safe operator (complete_invocation_transaction a i input now allow uuid at_ms).
Proof.
  unfold complete_invocation_transaction, completed_replay, message_by_seq,
    ensure_result_key_unused, acknowledge_invocation_delivery.
  safe_tac; try first
    [ apply safe_ensure_invocation_not_active | apply safe_invocation_with_delivery
    | apply safe_invocation_by_id | apply safe_insert_message
    | apply safe_acknowledge_leased_seq ].
  bool_facts. by apply is_complete.
Qed.

Lemma safe_terminalize_invocation a m t c r now :
  safe operator (terminalize_invocation a m t c r now).
Proof.
  unfold terminalize_invocation. safe_tac; [apply safe_ensure_bound_turn_allows|].
  unfold live_attempt in *. bool_facts. by apply is_terminal.
Qed.

(** ** Settlement *)

Lemma safe_or_rollback {A} (m : M bool) (settled otherwise : M A) :
  safe operator m → safe operator settled → safe operator otherwise →
  safe operator (or_rollback m settled otherwise).
Proof.
  intros Hm Hs Ho db a db' Hwf. unfold or_rollback.
  destruct (m db) as [[[] db1]|e] eqn:E; [|by apply Ho|done]. intros H.
  apply Hm in E as [Hwf1 He1]; [|done]. apply Hs in H as [Hwf2 He2]; [|done].
  split; [done|]. by etransitivity.
Qed.

Lemma safe_claim_deliveries a input now t : safe operator (claim_deliveries a input now t).
Proof.
  unfold claim_deliveries, leased_batch. safe_tac;
    [apply safe_ensure_exists|apply safe_recover_expired|apply safe_lease_claimable].
Qed.

Lemma safe_acknowledge_delivery a m t now : safe operator (acknowledge_delivery a m t now).
Proof.
  unfold acknowledge_delivery. safe_tac. apply safe_or_rollback;
    [apply safe_mark_acknowledged|apply safe_terminalize_invocation|apply safe_settle_miss].
Qed.

Lemma safe_retry_delivery a m input now : safe operator (retry_delivery a m input now).
Proof.
  unfold retry_delivery, ensure_retry_is_safe. safe_tac. apply safe_or_rollback;
    [apply safe_mark_retry|apply safe_terminalize_invocation|apply safe_settle_miss].
Qed.

Lemma safe_block_delivery a m input now : safe operator (block_delivery a m input now).
Proof.
  unfold block_delivery. safe_tac. apply safe_or_rollback; [apply safe_mark_blocked|..]; safe_tac.
  - apply safe_insert_block_record.
  - apply safe_terminalize_invocation.
  - apply safe_blocked_delivery_by_id.
  - apply safe_blocked_delivery_by_lease.
  - apply safe_settle_miss.
Qed.

Lemma safe_retire_for_block id r now :
  safe operator (retire_uncertain_session_for_delivery_block id r now).
Proof.
  unfold retire_uncertain_session_for_delivery_block. safe_tac. apply safe_fenced_update.
  intros s _ Hs. bool_facts. apply ss_retire; congruence.
Qed.

(** ** Session operations *)

Lemma safe_insert_binding id g a input json now :
  safe operator (insert_binding id g a input json now).
Proof. unfold insert_binding. safe_tac. apply safe_binding_by_identity. Qed.

Lemma safe_insert_after_latest_retired a input json now uuid :
  safe operator (insert_after_latest_retired a input json now uuid).
Proof.
  unfold insert_after_latest_retired, latest_binding_row. safe_tac; apply safe_insert_binding.
Qed.

Lemma safe_rotate_binding b a input json now r :
  safe operator (rotate_binding b a input json now r).
Proof.
  unfold rotate_binding. safe_tac; [|apply safe_insert_binding]. apply safe_fenced_update.
  intros s _ Hs. apply orb_true_iff in Hs as [Hs|Hs]; bool_facts; apply ss_retire; congruence.
Qed.

Lemma as_i64_ok label v z : as_i64 label v = Ok z → z = v ∧ v ≠ 0 ∧ v ≤ i64_max.
Proof.
  unfold as_i64, i64_try_from. intros H. m_inv. bool_facts.
  destruct (v <=? i64_max) eqn:E; [|done]. apply Z.leb_le in E. by simplify_eq.
Qed.
Lemma owner_fence_ok a b fence :
  owner_fence a b = Ok fence →
  fence = {| of_binding_id := binding_id b; of_binding_generation := binding_generation b;
             of_agent_id := a; of_owner_epoch := owner_epoch b |}
  ∧ binding_generation b ≠ 0 ∧ owner_epoch b ≠ 0.
Proof.
  unfold owner_fence. intros H. m_inv.
  repeat match goal with H : as_i64 _ _ = Ok _ |- _ => apply as_i64_ok in H as (-> & ? & ?) end.
  done.
Qed.
Lemma checked_add_u64_ok x y z : checked_add_u64 x y = Some z → z = x + y.
Proof. unfold checked_add_u64. by case_match; intros; simplify_eq. Qed.

Lemma safe_adopt_binding b owner now : safe operator (adopt_binding b owner now).
Proof.
  intros db a db' Hwf H. unfold adopt_binding in H. m_inv.
  apply owner_fence_ok in H0 as (-> & _). apply checked_add_u64_ok in H1 as ->.
  apply as_i64_ok in H2 as (-> & _).
  apply safe_fenced_update in H3 as [Hwf1 He1]; [|intros s Hf Hs|done].
  - eapply safe_binding_by_identity in H4 as [Hwf2 He2]; [|done].
    split; [done|]. by etransitivity.
  - unfold fence_matches in Hf. bool_facts. simpl in *.
    replace (owner_epoch (sb_binding b)) with (s_owner_epoch s) by done. by apply ss_adopt.
Qed.

Lemma safe_acquire_session_binding a input now uuid :
  safe operator (acquire_session_binding a input now uuid).
Proof.
  unfold acquire_session_binding, current_binding_row, acquire_existing. safe_tac; first
    [ apply safe_ensure_exists | apply safe_insert_after_latest_retired
    | apply safe_rotate_binding | apply safe_adopt_binding ].
Qed.

Lemma safe_record_session_opened a b ref now : safe operator (record_session_opened a b ref now).
Proof.
  unfold record_session_opened. safe_tac;
    try first [apply safe_exact_binding_row | apply safe_binding_by_identity].
  apply safe_fenced_update. intros s _ Hs. bool_facts. by apply ss_open.
Qed.

Lemma safe_mark_session_invocation_uncertain a i b r now :
  safe operator (mark_session_invocation_uncertain a i b r now).
Proof.
  unfold mark_session_invocation_uncertain. safe_tac; first
    [ apply safe_validate_bound_turn | apply safe_exact_binding_row
    | apply safe_mark_turn_uncertain | apply safe_binding_by_identity ].
Qed.

Lemma safe_retire_session_binding a b r now : safe operator (retire_session_binding a b r now).
Proof.
  unfold retire_session_binding. safe_tac;
    try first [apply safe_exact_binding_row | apply safe_binding_by_identity].
  apply safe_fenced_update. intros s _ Hs. bool_facts. by apply ss_retire.
Qed.

(** ** Observations *)

Lemma safe_begin_invocation_observation a i g b now :
  safe operator (begin_invocation_observation a i g b now).
Proof.
  unfold begin_invocation_observation. safe_tac.
  intros db u db' Hwf. unfold map_observation_conflict.
  destruct (for_each _ _ db) as [[? ?]|e] eqn:E.
  - intros [= <- <-]. revert E. apply safe_for_each; [|done]. intros g'. safe_tac.
  - by destruct e as [| | | | | | | |[]| |].
Qed.

Lemma active_generation_ok id g :
  active_generation id g = true → g_id g = id ∧ g_state g = GenerationState.Active.
Proof. unfold active_generation. intros H. by bool_facts. Qed.

Lemma safe_heartbeat_plugin_generation g now :
  safe operator (heartbeat_plugin_generation g now).
Proof.
  unfold heartbeat_plugin_generation. safe_tac. apply gs_heartbeat. by eapply active_generation_ok.
Qed.

Lemma safe_plugin_generation g now : safe operator (plugin_generation g now).
Proof. unfold plugin_generation. safe_tac. Qed.

Lemma safe_retire_plugin_generation g stop now :
  safe operator (retire_plugin_generation g stop now).
Proof.
  unfold retire_plugin_generation. safe_tac. apply gs_stop. by eapply active_generation_ok.
Qed.

Lemma safe_insert_plugin_generation g now :
  safe operator (insert_plugin_generation g now).
Proof.
  unfold insert_plugin_generation. safe_tac.
  intros db u db' Hwf. unfold map_generation_conflict.
  destruct (insert _ db) as [[? ?]|e] eqn:E.
  - intros [= <- <-]. revert E. by apply (safe_insert operator).
  - by destruct e as [| | | | | | | |[]| |].
Qed.

Lemma observation_id_unique db o1 o2 :
  wf db → o1 ∈ db.(invocation_observations) → o2 ∈ db.(invocation_observations) →
  o_invocation_id o1 = o_invocation_id o2 → o1 = o2.
Proof.
  intros Hwf H1 H2 Hid. apply (unique_row db); [done..|].
  simpl. unfold conflict_observation. by rewrite bool_decide_true.
Qed.

Lemma str_len_nonneg v : 0 ≤ str_len v.
Proof. unfold str_len. lia. Qed.

Lemma i64_try_from_ok x y : i64_try_from x = Some y → y = x ∧ x ≤ i64_max.
Proof. unfold i64_try_from. case_match eqn:E; [|done]. apply Z.leb_le in E. naive_solver. Qed.

Lemma observation_with_generation_ok g i db o gr :
  observation_with_generation g i db = Some (o, gr) →
  o ∈ db.(invocation_observations) ∧ o_invocation_id o = i ∧ o_generation_id o = g.
Proof.
  unfold observation_with_generation. intros [Hin H]%find_some_elem.
  apply elem_of_join in Hin as (? & _). by bool_facts.
Qed.

(** The fold moves the row that was read: sequences are contiguous and the
    observation is not terminal. *)
Lemma safe_apply_event_fold db g i o at_ms bytes d c cl now u db' :
  wf db → o ∈ db.(invocation_observations) → o_invocation_id o = i →
  o_terminal_at_ms o = None → 0 ≤ bytes →
  apply_event_fold g i (o_last_event_seq o) (o_last_event_seq o + 1) at_ms bytes d c
    (event_increments cl) now db = Ok (u, db') →
  wf db' ∧ evolves operator db db'.
Proof.
  intros Hwf Ho Hi Ht Hb H. unfold apply_event_fold in H. m_inv.
  assert (wf db0 ∧ evolves operator db db0) as [Hwf0 He0].
  { refine (update_evolves _ _ _ _ _ _ Hwf H0 _). intros o' Ho' Hp. bool_facts.
    assert (o' = o) as -> by (eapply observation_id_unique; eauto; congruence).
    by apply os_event. }
  match goal with H : update _ _ db0 = Ok (_, ?d) |- _ =>
    assert (wf d ∧ evolves operator db0 d) as [? ?] end.
  { update_tac. apply gs_heartbeat. by eapply active_generation_ok. }
  split; [done|]. by etransitivity.
Qed.

Lemma safe_record_invocation_event sha g i seq at_ms cl raw now :
  safe operator (record_invocation_event sha g i seq at_ms cl raw now).
Proof.
  intros db u db' Hwf H. unfold record_invocation_event in H. m_inv.
  repeat match goal with
  | H : i64_try_from _ = Some _ |- _ => apply i64_try_from_ok in H as [-> ?]
  end.
  match goal with H : observation_with_generation _ _ _ = Some ?r |- _ =>
    destruct r as [o gr]; apply observation_with_generation_ok in H as (Ho & Hi & _) end.
  simpl in *.
  destruct (seq ==? o_last_event_seq o) eqn:Hrep; m_inv; [by split|]. bool_facts.
  assert (seq = o_last_event_seq o + 1) as ->.
  { pose proof (checked_row db o Hwf Ho) as Hc. simpl in Hc. unfold check_observation, in_i64 in Hc.
    bool_facts. unfold saturate_i64, i64_min, i64_max in *. lia. }
  eapply (safe_apply_event_fold db g _ o); eauto.
  - by destruct (o_terminal_at_ms o).
  - apply str_len_nonneg.
Qed.

Lemma safe_record_invocation_terminal g terminal now :
  safe operator (record_invocation_terminal g terminal now).
Proof.
  unfold record_invocation_terminal. safe_tac.
  - bool_facts. apply os_terminal. by destruct (o_terminal_at_ms r).
  - apply gs_heartbeat. by eapply active_generation_ok.
Qed.

Lemma safe_arm_session_invocation a i b ref g input now :
  safe operator (arm_session_invocation a i b ref g input now).
Proof.
  unfold arm_session_invocation. safe_tac; first
    [ apply safe_exact_binding_row | apply safe_arm_invocation_transaction
    | apply safe_activate_binding_turn | apply safe_begin_invocation_observation
    | apply safe_binding_by_identity ].
Qed.

Lemma safe_complete_session_invocation a i b p input now uuid at_ms :
  safe operator (complete_session_invocation a i b p input now uuid at_ms).
Proof.
  unfold complete_session_invocation. safe_tac; first
    [ apply safe_validate_bound_turn | apply safe_complete_invocation_transaction
    | apply safe_settle_quiescent_turn ].
Qed.

(** ** Triggers, credentials and seats *)

Lemma active_trigger_ok id t :
  active_trigger id t = true → tr_id t = id ∧ tr_state t = TriggerState.Active.
Proof. unfold active_trigger. intros H. by bool_facts. Qed.

Lemma safe_trigger_in_transaction id : safe operator (trigger_in_transaction id).
Proof. unfold trigger_in_transaction. safe_tac. Qed.
Lemma safe_get_trigger id : safe operator (get_trigger id).
Proof. unfold get_trigger. safe_tac. Qed.
Lemma safe_insert_trigger t : safe operator (insert_trigger t).
Proof. unfold insert_trigger. safe_tac. apply safe_map_unique_conflict. safe_tac. Qed.
Lemma safe_record_trigger_occurrence id occurrence now :
  safe operator (record_trigger_occurrence id occurrence now).
Proof.
  unfold record_trigger_occurrence. safe_tac. apply tg_fire. by eapply active_trigger_ok.
Qed.
Lemma safe_retire_trigger_row id reason now : safe operator (retire_trigger_row id reason now).
Proof. unfold retire_trigger_row. safe_tac. apply tg_retire. by eapply active_trigger_ok. Qed.

Lemma safe_fire sha id occurrence uuid at_ms now :
  safe operator (fire sha id occurrence uuid at_ms now).
Proof.
  unfold fire. safe_tac; first
    [ apply safe_trigger_in_transaction | apply safe_append_message
    | apply safe_record_trigger_occurrence ].
Qed.

(** A revocation touches only credentials that are still active. *)
Lemma safe_revoke (p : CredentialRow → bool) now :
  (∀ c, p c = true → cr_revoked_at_ms c = None) → safe operator (update p (set_revoked now)).
Proof. intros Hp. refine (safe_update _ _ _ _). intros c Hc. by apply cr_revoke, Hp. Qed.
Lemma is_none_eq {A} (o : option A) : is_none o = true → o = None.
Proof. by destruct o. Qed.

Context `{C : TokenCodec}.

Lemma safe_register_agent input cid bytes uuid now :
  safe operator (register_agent input cid bytes uuid now).
Proof.
  unfold register_agent, insert_agent_credential. safe_tac.
  apply safe_map_unique_conflict. safe_tac.
Qed.
Lemma safe_rotate_agent_credential a cid bytes now :
  safe operator (rotate_agent_credential a cid bytes now).
Proof.
  unfold rotate_agent_credential, insert_agent_credential.
  repeat first [apply safe_revoke | safe_step].
  unfold active_agent_credential. intros c Hc. bool_facts. by apply is_none_eq.
Qed.
Lemma safe_rotate_operator_digest digest uuid now :
  safe operator (rotate_operator_digest digest uuid now).
Proof.
  unfold rotate_operator_digest. repeat first [apply safe_revoke | safe_step].
  unfold active_operator_credential. intros c Hc. bool_facts. by apply is_none_eq.
Qed.
Lemma safe_revoke_trigger_credentials id now :
  safe operator (revoke_trigger_credentials id now).
Proof.
  unfold revoke_trigger_credentials. repeat first [apply safe_revoke | safe_step].
  unfold active_trigger_credential. intros c Hc. bool_facts. by apply is_none_eq.
Qed.
Lemma safe_register_trigger input cid bytes uuid now :
  safe operator (register_trigger input cid bytes uuid now).
Proof. unfold register_trigger. safe_tac. apply safe_insert_trigger. Qed.
Lemma safe_retire_trigger_transaction id reason now :
  safe operator (retire_trigger_transaction id reason now).
Proof.
  unfold retire_trigger_transaction. safe_tac; first
    [ apply safe_retire_trigger_row | apply safe_revoke_trigger_credentials ].
Qed.
Lemma safe_rotate_trigger_transaction id issued :
  safe operator (rotate_trigger_transaction id issued).
Proof. unfold rotate_trigger_transaction. safe_tac. apply safe_revoke_trigger_credentials. Qed.

Lemma safe_configure a requested now : safe operator (configure a requested now).
Proof.
  unfold configure, upsert_seat, read_seat. safe_tac. bool_facts. by apply st_configure.
Qed.
Lemma safe_restart a now : safe operator (restart a now).
Proof. unfold restart, read_seat. safe_tac. bool_facts. by apply st_restart. Qed.
End safety.

(** ** The operator's decision *)

Lemma safe_resolve_delivery_block_transaction id input now :
  safe true (resolve_delivery_block_transaction id input now).
Proof.
  unfold resolve_delivery_block_transaction, resolution_row, resolve_delivery_row. safe_tac.
  - bool_facts. by apply ds_requeue.
  - bool_facts. by apply ds_abandon.
  - bool_facts. apply bs_resolve; [done|]. by destruct (b_resolved_at_ms _).
Qed.

Lemma safe_resolve_delivery_block id input now :
  safe true (resolve_delivery_block id input now).
Proof.
  unfold resolve_delivery_block. safe_tac;
    [apply safe_resolve_delivery_block_transaction|apply safe_retire_for_block].
Qed.
