(* ===== verification/System.v ===== *)
(** * The system: operations as transitions of one durable store

    [transition operator db db'] holds when one committed operation of the
    daemon takes [db] to [db'].  [BEGIN IMMEDIATE] serializes writers, so a run
    of the system is a sequence of transitions; [reaches] is their reflexive
    transitive closure.  The lease token a claim or a reservation draws is fresh:
    [Uuid::new_v4()] does not return a token the store already holds. *)

From S2P Require Import Prelude Proto Schema Channels Messages Deliveries.
From S2P Require Import SessionFence Observations Invocations Settlement Sessions.
From S2P Require Import Triggers Auth Seats Lifecycle Safety.

(** No delivery is leased, no block was recorded, and no delivery was last settled
    under this token. *)
Definition fresh_token (token : string) (db : Db) : Prop :=
  (∀ d, d ∈ db.(agent_deliveries) → d_lease_token d ≠ Some token)
  ∧ (∀ b, b ∈ db.(delivery_blocks) → b_lease_token b ≠ token)
  ∧ (∀ d, d ∈ db.(agent_deliveries) → d_last_settled_lease_token d ≠ Some token).

Section system.
Context `{J : SerdeJson} (sha256_hex : string → string).

(** One constructor per operation that changes the store.  Where the code reads
    the store before it opens its transaction (the operator token and the
    rotation of a trigger credential), the constructor is the transaction alone:
    the read may have seen any earlier state. *)
Inductive transition : bool → Db → Db → Prop :=
| t_create_agent input uuid now a db db' :
    create_agent input uuid now db = Ok (a, db') → transition false db db'
| t_create_channel input uuid now c db db' :
    create_channel input uuid now db = Ok (c, db') → transition false db db'
| t_create_channel_with_members name metadata members uuid now c db db' :
    create_channel_with_members name metadata members uuid now db = Ok (c, db') →
    transition false db db'
| t_rename_channel id name c db db' :
    rename_channel id name db = Ok (c, db') → transition false db db'
| t_archive_channel id now c db db' :
    archive_channel id now db = Ok (c, db') → transition false db db'
| t_open_direct_pair members uuid name now r db db' :
    open_direct_pair members uuid name now db = Ok (r, db') → transition false db db'
| t_add_member c a mode now db db' :
    add_member_with_mode c a mode now db = Ok (tt, db') → transition false db db'
| t_advance_read c a seq z db db' :
    advance_member_read_cursor c a seq db = Ok (z, db') → transition false db db'
| t_append c input uuid at_ms r db db' :
    append_message_in_transaction c input uuid at_ms db = Ok (r, db') →
    transition false db db'
| t_claim a input now token batch db db' :
    fresh_token token db → claim_deliveries a input now token db = Ok (batch, db') →
    transition false db db'
| t_acknowledge a m token now db db' :
    acknowledge_delivery a m token now db = Ok (tt, db') → transition false db db'
| t_retry a m input now db db' :
    retry_delivery a m input now db = Ok (tt, db') → transition false db db'
| t_block a m input now r db db' :
    block_delivery a m input now db = Ok (r, db') → transition false db db'
| t_resolve id input now db db' :
    resolve_delivery_block id input now db = Ok (tt, db') → transition true db db'
| t_reserve a input kinds now token uuids invs db db' :
    fresh_token token db →
    reserve_invocations_filtered a input kinds now token uuids db = Ok (invs, db') →
    transition false db db'
| t_arm a i input now r db db' :
    arm_invocation_transaction a i input now db = Ok (r, db') → transition false db db'
| t_complete a i input now uuid at_ms r db db' :
    complete_invocation a i input now uuid at_ms db = Ok (r, db') → transition false db db'
| t_recover agents now n k db db' :
    recover_agents agents now k db = Ok (n, db') → transition false db db'
| t_acquire a input now uuid r db db' :
    acquire_session_binding a input now uuid db = Ok (r, db') → transition false db db'
| t_opened a b ref now r db db' :
    record_session_opened a b ref now db = Ok (r, db') → transition false db db'
| t_arm_session a i b ref g input now r db db' :
    arm_session_invocation a i b ref g input now db = Ok (r, db') → transition false db db'
| t_complete_session a i b p input now uuid at_ms r db db' :
    complete_session_invocation a i b p input now uuid at_ms db = Ok (r, db') →
    transition false db db'
| t_uncertain a i b reason now r db db' :
    mark_session_invocation_uncertain a i b reason now db = Ok (r, db') →
    transition false db db'
| t_retire a b reason now r db db' :
    retire_session_binding a b reason now db = Ok (r, db') → transition false db db'
| t_generation g now r db db' :
    insert_plugin_generation g now db = Ok (r, db') → transition false db db'
| t_heartbeat g now db db' :
    heartbeat_plugin_generation g now db = Ok (tt, db') → transition false db db'
| t_stop g stop now r db db' :
    retire_plugin_generation g stop now db = Ok (r, db') → transition false db db'
| t_event g i seq at_ms cl raw now db db' :
    record_invocation_event sha256_hex g i seq at_ms cl raw now db = Ok (tt, db') →
    transition false db db'
| t_terminal g terminal now db db' :
    record_invocation_terminal g terminal now db = Ok (tt, db') → transition false db db'
| t_fire id occurrence uuid at_ms now r db db' :
    fire sha256_hex id occurrence uuid at_ms now db = Ok (r, db') → transition false db db'
| t_register_agent `{TokenCodec} input cid bytes uuid now r db db' :
    register_agent input cid bytes uuid now db = Ok (r, db') → transition false db db'
| t_rotate_agent `{TokenCodec} a cid bytes now r db db' :
    rotate_agent_credential a cid bytes now db = Ok (r, db') → transition false db db'
| t_rotate_operator digest uuid now db db' :
    rotate_operator_digest digest uuid now db = Ok (tt, db') → transition false db db'
| t_register_trigger `{TokenCodec} input cid bytes uuid now r db db' :
    register_trigger input cid bytes uuid now db = Ok (r, db') → transition false db db'
| t_retire_trigger id reason now r db db' :
    retire_trigger_transaction id reason now db = Ok (r, db') → transition false db db'
| t_rotate_trigger `{TokenCodec} id issued r db db' :
    rotate_trigger_transaction id issued db = Ok (r, db') → transition false db db'
| t_configure a requested now r db db' :
    configure a requested now db = Ok (r, db') → transition false db db'
| t_restart a now r db db' :
    restart a now db = Ok (r, db') → transition false db db'.

(** Runs without an operator's decision, and runs of every operation. *)
Definition worker_run : Db → Db → Prop := rtc (transition false).
Definition reaches : Db → Db → Prop := rtc (λ db db', ∃ operator, transition operator db db').
Definition reachable (db : Db) : Prop := reaches empty_db db.

Lemma reachable_run db db' : reachable db → reaches db db' → reachable db'.
Proof. apply rtc_trans. Qed.

Lemma transition_safe operator db db' :
  wf db → transition operator db db' → wf db' ∧ evolves operator db db'.
Proof.
  intros Hwf Ht. destruct Ht; match goal with H : ?m db = Ok (_, db') |- _ => revert H end.
  all: match goal with |- ?m _ = Ok (?a, ?db') → _ =>
    enough (safe _ m) as Hs by (intros Hrun; exact (Hs _ _ _ Hwf Hrun)) end.
  all: first
    [ apply safe_create_agent | apply safe_create_channel
    | apply safe_create_channel_with_members | apply safe_rename_channel
    | apply safe_archive_channel | apply safe_open_direct_pair
    | apply safe_add_member_with_mode | apply safe_advance_member_read_cursor
    | apply safe_append_message | apply safe_claim_deliveries
    | apply safe_acknowledge_delivery | apply safe_retry_delivery | apply safe_block_delivery
    | apply safe_resolve_delivery_block | apply safe_reserve_invocations_filtered
    | apply safe_arm_invocation_transaction | apply safe_complete_invocation_transaction
    | apply safe_recover_agents | apply safe_acquire_session_binding
    | apply safe_record_session_opened | apply safe_arm_session_invocation
    | apply safe_complete_session_invocation | apply safe_mark_session_invocation_uncertain
    | apply safe_retire_session_binding | apply safe_insert_plugin_generation
    | apply safe_heartbeat_plugin_generation | apply safe_retire_plugin_generation
    | apply safe_record_invocation_event | apply safe_record_invocation_terminal
    | apply safe_fire | apply safe_register_agent | apply safe_rotate_agent_credential
    | apply safe_rotate_operator_digest | apply safe_register_trigger
    | apply safe_retire_trigger_transaction | apply safe_rotate_trigger_transaction
    | apply safe_configure | apply safe_restart ].
Qed.

Lemma evolves_weaken db db' operator : evolves operator db db' → evolves true db db'.
Proof.
  destruct operator; [done|].
  assert (∀ {R} `{Lifecycle R} (l l' : list R),
    (∀ a b : R, step false a b → step true a b) →
    table_rel (moves false) l l' → table_rel (moves true) l l') as Hw.
  { intros R HR l l' Hs (k & a & -> & Hk). exists k, a. split; [done|].
    eapply Forall2_impl; [done|]. intros r r'. by apply moves_weaken. }
  intros []. split; try done; (apply Hw; [|done]); intros a b Hs; destruct Hs; try done;
    try (by constructor).
Qed.

Lemma reaches_safe db db' : wf db → reaches db db' → wf db' ∧ evolves true db db'.
Proof.
  intros Hwf Hr. induction Hr as [db|db db1 db2 [op Ht] _ IH]; [by split|].
  destruct (transition_safe _ _ _ Hwf Ht) as [Hwf1 He1%evolves_weaken].
  destruct (IH Hwf1) as [Hwf2 He2]. split; [done|]. by etransitivity.
Qed.

Lemma reachable_wf db : reachable db → wf db.
Proof. intros Hr. apply (reaches_safe _ _ wf_empty Hr). Qed.

Lemma worker_run_safe db db' : wf db → worker_run db db' → wf db' ∧ evolves false db db'.
Proof.
  intros Hwf Hr. induction Hr as [db|db db1 db2 Ht _ IH]; [by split|].
  destruct (transition_safe _ _ _ Hwf Ht) as [Hwf1 He1].
  destruct (IH Hwf1) as [Hwf2 He2]. split; [done|]. by etransitivity.
Qed.

(** A run only adds messages, at the end of the log. *)
Lemma evolves_messages operator db db' :
  evolves operator db db' → ∃ added, db'.(messages) = db.(messages) ++ added.
Proof.
  intros He. destruct (ev_messages _ _ _ He) as (kept & added & Heq & Hk).
  assert (kept = db.(messages)) as ->; [|by exists added].
  clear -Hk. induction Hk as [|m m' l l' Hm _ IH]; [done|].
  apply moves_stuck in Hm as ->; [by rewrite IH|]. by intros m2 Hs.
Qed.
Lemma reaches_messages db db' :
  wf db → reaches db db' → ∃ added, db'.(messages) = db.(messages) ++ added.
Proof. intros Hwf Hr. eapply evolves_messages, reaches_safe; eauto. Qed.
End system.
