(* ===== verification/ControllerInv.v ===== *)
(** * How a turn moves the world

    Every step of the controller is one of five moves: time passes, a transaction
    commits, the harness answers, a grant changes, an effect is logged.  A
    preorder on worlds that contains the moves a part of the controller makes
    contains that whole part. *)

From S2P Require Import Prelude Action Proto Schema Messages Deliveries.
From S2P Require Import SessionFence Observations Invocations Settlement Sessions.
From S2P Require Import Lifecycle Safety System Grants HarnessClient Controller.

Section within.
Context `{J : SerdeJson} {JT : JsonTree}.
Context {H : Type} {HH : Harness H} {G : Type} {MG : ManagedTurnGrant G}.
Context (sha256_hex : string → string).
Context (plugin_error_text : PluginError → string) (source_text : FleetError → string).
Context (clock later : nat → Z) (uuid : nat → string).
Context (env_db : nat → Db → Db) (env_grants : nat → list G → list G).
Context (lost : nat → bool) (sink : bool).
Notation World := (World (H := H) (G := G)).
Notation tick := (tick env_db env_grants).

(** The effects a part of the controller may have. *)
Context (R : World → World → Prop) {HR : PreOrder R} (allowed : Effect → Prop).
Context (R_tick : ∀ w, R w (tick w)).
Context (R_db : ∀ w db', transition sha256_hex false (w_db w) db' → R w (set_db db' w)).
Context (R_harness : ∀ w h, R w (set_harness h w)).
Context (R_effect : ∀ w e, allowed e → R w (add_entry e w)).

Lemma within_pass {E} : within R (pass env_db env_grants (E := E)).
Proof using R_tick. intros w w' r [= <- <-]. apply R_tick. Qed.
Lemma within_record {E} e : allowed e → within R (record_effect (E := E) e).
Proof using R_effect. intros He w w' r [= <- <-]. by apply R_effect. Qed.
Lemma within_offer {E} e : (∀ z, allowed (e z)) → within R (offer clock sink (E := E) e).
Proof using HR R_effect.
  intros He. unfold offer. destruct sink; [|by apply within_done].
  apply within_andthen; [done|by apply within_look|]. intros z. by apply within_record.
Qed.
Lemma within_harness {E A} (wrap : PluginError → E) (call : action H PluginError A) :
  within R (on_harness wrap call).
Proof using R_harness.
  intros w w' r Hw. unfold on_harness in Hw. destruct (call _) as [h x].
  injection Hw as <- <-. apply R_harness.
Qed.

(** The operations of the store the controller runs. *)
Definition operation {A} (op : Z → Z → string → M A) : Prop :=
  ∀ now at_ms u db a db', op now at_ms u db = Ok (a, db') →
    transition sha256_hex false db db'.
Lemma within_on_store {E A} (wrap : FleetError → E) (op : Z → Z → string → M A) :
  operation op → within R (on_store clock later uuid wrap op).
Proof using HR R_db.
  intros Hop w w' r Hw. unfold on_store in Hw.
  destruct (op _ _ _ _) as [[a db]|e] eqn:Ho; injection Hw as <- <-; [|reflexivity].
  eapply R_db, Hop, Ho.
Qed.
Lemma within_store {E A} (wrap : FleetError → E) (op : Z → Z → string → M A) :
  operation op → within R (store clock later uuid env_db env_grants wrap op).
Proof using HR R_db R_tick.
  intros Hop. apply within_andthen; [done|apply within_pass|]. intros _. by apply within_on_store.
Qed.
Lemma within_abandoned {E E' A} (op : turn_action E A) :
  within R op → within R (abandoned env_db env_grants lost (E' := E') op).
Proof using R_tick.
  intros Hop w w' r Hw. unfold abandoned in Hw. destruct (lost _); injection Hw as <- <-.
  - destruct (op w) as [w1 x] eqn:Ho. by eapply Hop.
  - apply R_tick.
Qed.

Lemma operation_event g i seq at_ms cl raw :
  operation (λ now _ _, record_invocation_event sha256_hex g i seq at_ms cl raw now).
Proof. intros now l u db [] db' Ho. by eapply t_event. Qed.
Lemma operation_terminal g terminal :
  operation (λ now _ _, record_invocation_terminal g terminal now).
Proof. intros now l u db [] db' Ho. by eapply t_terminal. Qed.
Lemma operation_uncertain a i b reason :
  operation (λ now _ _, mark_session_invocation_uncertain a i b reason now).
Proof. intros now l u db r db' Ho. by eapply t_uncertain. Qed.
Lemma operation_block a m input : operation (λ now _ _, block_delivery a m input now).
Proof. intros now l u db r db' Ho. by eapply t_block. Qed.
Lemma operation_complete a i b p input :
  operation (λ now at_ms u, complete_session_invocation a i b p input now u at_ms).
Proof. intros now l u db r db' Ho. by eapply t_complete_session. Qed.
Lemma operation_arm a i b ref g input :
  operation (λ now _ _, arm_session_invocation a i b ref g input now).
Proof. intros now l u db r db' Ho. by eapply t_arm_session. Qed.

(** Everything but the start of a turn. *)
Definition quiet_effect (e : Effect) : Prop :=
  match e with StartedTurn _ => False | _ => True end.
Context (allow_quiet : ∀ e, quiet_effect e → allowed e).

Ltac within_step :=
  first
    [ apply within_done; exact _ | apply within_throw; exact _ | apply within_try; exact _
    | apply within_look; exact _ | apply within_pass | apply within_attempt
    | apply within_harness | apply within_abandoned
    | apply within_record; apply allow_quiet; done
    | apply within_offer; intros; apply allow_quiet; done
    | apply within_store;
      first [ apply operation_event | apply operation_terminal | apply operation_uncertain
            | apply operation_block | apply operation_complete | apply operation_arm ]
    | apply within_andthen; [exact _| |intros]
    | match goal with |- within _ (match ?x with _ => _ end) => destruct x end ].
Ltac within_tac := repeat within_step.

Lemma within_closing {A} id (r : A + ManagedTurnError) :
  within R (closing_on_error plugin_error_text source_text clock sink id r).
Proof using HR R_effect allow_quiet. unfold closing_on_error, close_trajectory. within_tac. Qed.
Lemma within_block invocation binding reason :
  within R (block clock later uuid env_db env_grants sink invocation binding reason).
Proof using HR R_effect R_tick R_db allow_quiet. unfold block, close_trajectory. within_tac. Qed.

Lemma within_drain g fence policy awaits :
  within R (drain_turn sha256_hex clock later uuid env_db env_grants lost sink g fence policy awaits).
Proof using HR R_effect R_tick R_db R_harness allow_quiet.
  induction awaits as [awaits IH] using lt_wf_ind. destruct awaits as [|awaits]; cbn [drain_turn].
  { within_tac. }
  apply within_andthen; [done|within_tac|]. intros [event|permission|terminal|entry|complete].
  - unfold record_event, observe. destruct awaits as [|awaits]; [within_tac|].
    apply within_andthen; [done|within_tac|intros _]. apply within_andthen; [done|within_tac|intros _].
    apply IH. lia.
  - destruct (json_insert _ _ _) as [raw|]; [|within_tac].
    apply within_andthen; [done|within_tac|intros at_ms]. unfold record_event, observe.
    destruct awaits as [|awaits]; [within_tac|].
    apply within_andthen; [done|within_tac|intros _]. apply within_andthen; [done|within_tac|intros _].
    unfold resolve. destruct awaits as [|awaits]; [within_tac|].
    apply within_andthen; [done|within_tac|intros _]. apply IH. lia.
  - within_tac.
  - within_tac.
  - within_tac.
Qed.

Lemma within_fail_drain invocation binding prefix error :
  within R (fail_drain plugin_error_text source_text clock later uuid env_db env_grants sink
             invocation binding prefix error).
Proof using HR R_effect R_tick R_db allow_quiet.
  unfold fail_drain, blocked_drain. destruct error; within_tac; apply within_block.
Qed.
Lemma within_await_terminal turn fence schedule :
  within R (await_terminal sha256_hex plugin_error_text source_text clock later uuid env_db env_grants
             lost sink turn fence schedule).
Proof using HR R_effect R_tick R_db R_harness allow_quiet.
  unfold await_terminal, cancel_and_drain, blocked_drain.
  repeat first [ apply within_fail_drain | apply within_drain | apply within_block | within_step ].
Qed.
Lemma within_settle turn terminal stop :
  within R (settle_terminal clock later uuid env_db env_grants sink turn terminal stop).
Proof using HR R_effect R_tick R_db allow_quiet.
  unfold settle_terminal, close_trajectory. repeat first [ apply within_block | within_step ].
Qed.
Lemma within_block_after_arm invocation binding reason :
  within R (block_after_arm clock later uuid env_db env_grants sink invocation binding reason).
Proof using HR R_effect R_tick R_db allow_quiet.
  unfold block_after_arm. repeat first [ apply within_block | within_step ].
Qed.

Lemma within_arm_turn turn : within R (arm_turn clock later uuid env_db env_grants turn).
Proof using HR R_tick R_db R_harness allow_quiet R_effect. unfold arm_turn. within_tac. Qed.
Lemma within_open {E} invocation g b :
  within R (open_trajectory clock sink (E := E) invocation g b).
Proof using HR R_effect allow_quiet. unfold open_trajectory. within_tac. Qed.

(** The parts that change grants and start the turn. *)
Context (R_grants : ∀ w gs, R w (set_grants gs w)).

Lemma within_on_grant {E A} i (missing : A) f :
  within R (on_grant clock env_db env_grants (E := E) i missing f).
Proof using HR R_tick R_grants.
  apply within_andthen; [done|apply within_pass|]. intros _ w w' r Hw.
  destruct (w_grants w !! i) as [g|]; [|by injection Hw as <- <-].
  destruct (f _ g) as [g' a]. injection Hw as <- <-. apply R_grants.
Qed.
Lemma within_revoke {E} k id : within R (revoke_grants clock env_db env_grants (E := E) k id).
Proof using HR R_tick R_grants.
  induction k as [|k IH]; simpl; [by apply within_done|].
  apply within_andthen; [done|apply within_on_grant|]. by intros _.
Qed.
Lemma within_activate {E} k i invocation :
  within R (activate_grants clock env_db env_grants (E := E) k i invocation).
Proof using HR R_tick R_grants.
  revert i. induction k as [|k IH]; intros i; simpl; [by apply within_done|].
  apply within_andthen; [done|apply within_on_grant|]. intros [|]; [apply IH|by apply within_done].
Qed.

Context (turn : ManagedTurn) (allow_start : allowed (StartedTurn (start_turn_request turn))).

Lemma within_dispatch n schedule :
  within R (dispatch sha256_hex plugin_error_text source_text clock later uuid env_db env_grants lost
             sink turn n schedule).
Proof using HR R_effect R_tick R_db R_harness R_grants allow_quiet allow_start.
  unfold dispatch.
  repeat first
    [ apply within_revoke | apply within_closing | apply within_await_terminal | apply within_settle
    | apply within_block_after_arm | apply within_record; exact allow_start | within_step ].
Qed.

Lemma within_run_armed schedule :
  within R (run_armed sha256_hex plugin_error_text source_text clock later uuid env_db env_grants
              lost sink turn schedule).
Proof using HR R_effect R_tick R_db R_harness R_grants allow_quiet allow_start.
  unfold run_armed, open_trajectory.
  repeat first
    [ apply within_dispatch | apply within_revoke | apply within_activate
    | apply within_block_after_arm | within_step ].
Qed.
End within.
