(* ===== verification/Fence.v ===== *)
(** * The lease fence: a live attempt owns its delivery

    [fenced]: every invocation that is not terminal owns the delivery it was
    reserved on - same message, agent, attempt, lease token and expiry, and the
    row is leased.  It holds in every reachable state.  Recovery is what makes
    claiming safe: after it, no live attempt of the agent is expired, so a claim
    never takes a delivery away from an attempt that may have started. *)

From S2P Require Import Prelude Proto Schema Channels Messages Deliveries.
From S2P Require Import SessionFence Observations Invocations Settlement Sessions.
From S2P Require Import Triggers Auth Seats Lifecycle Safety System.

(** ** The invariant *)

Definition live (i : InvocationRow) : Prop := i_state i ≠ InvocationState.Terminal.

Definition owns (i : InvocationRow) (d : DeliveryRow) : Prop :=
  d_message_seq d = i_message_seq i ∧ d_agent_id d = i_agent_id i
  ∧ d_state d = DeliveryState.Leased ∧ d_lease_token d = Some (i_lease_token i)
  ∧ d_lease_expires_at_ms d = Some (i_lease_expires_at_ms i)
  ∧ d_attempt d = i_delivery_attempt i.

Definition fenced (db : Db) : Prop :=
  ∀ i, i ∈ db.(invocations) → live i → ∃ d, d ∈ db.(agent_deliveries) ∧ owns i d.

Lemma keeps_or_rollback {X A} (f : Db → X) (m : M bool) (settled otherwise : M A) :
  keeps f m → keeps f settled → keeps f otherwise → keeps f (or_rollback m settled otherwise).
Proof.
  intros Hm Hs Ho db a db'. unfold or_rollback.
  destruct (m db) as [[[] db1]|e] eqn:E; [|by apply Ho|done].
  intros ->%Hs. by eapply Hm.
Qed.

(** What the fence reads. *)
Definition attempts (db : Db) : list InvocationRow * list DeliveryRow :=
  (db.(invocations), db.(agent_deliveries)).

Lemma fenced_frame db db' : attempts db' = attempts db → fenced db → fenced db'.
Proof. unfold attempts. intros [= Hi Hd] Hf i. rewrite Hi, Hd. apply Hf. Qed.

(** More deliveries break no fence. *)
Lemma fenced_mono db db' :
  db'.(invocations) = db.(invocations) →
  (∀ d, d ∈ db.(agent_deliveries) → d ∈ db'.(agent_deliveries)) → fenced db → fenced db'.
Proof. intros Hi Hd Hf i. rewrite Hi. intros Hin Hl. destruct (Hf i) as (d & ? & ?); eauto. Qed.

Lemma map_update_none {R} (f : R → R) l : map (update_row (λ _, false) f) l = l.
Proof. by rewrite (map_ext _ id), map_id. Qed.

(** Settling deliveries together with the attempts that own them. *)
Lemma fenced_settle db db' pd setd pi seti :
  fenced db →
  db'.(agent_deliveries) = map (update_row pd setd) db.(agent_deliveries) →
  db'.(invocations) = map (update_row pi seti) db.(invocations) →
  (∀ i, i_state (seti i) = InvocationState.Terminal) →
  (∀ i d, i ∈ db.(invocations) → d ∈ db.(agent_deliveries) → live i → owns i d →
          pd d = true → pi i = true) →
  fenced db'.
Proof.
  intros Hf Hd Hi Hterm Hown i'. rewrite Hd, Hi.
  intros (i & Hin & ->)%elem_of_update_row. destruct (pi i) eqn:Hpi.
  - intros Hl. by destruct Hl.
  - intros Hl. destruct (Hf i Hin Hl) as (d & Hdin & Ho). exists d. split; [|done].
    apply elem_of_update_row. exists d. split; [done|].
    destruct (pd d) eqn:Hpd; [|done]. exfalso. specialize (Hown i d Hin Hdin Hl Ho Hpd). congruence.
Qed.

(** ** Uniqueness of attempts *)

Lemma invocation_id_unique db i1 i2 :
  wf db → i1 ∈ db.(invocations) → i2 ∈ db.(invocations) → i_id i1 = i_id i2 → i1 = i2.
Proof.
  intros Hwf H1 H2 Hid. apply (unique_row db); [done..|].
  simpl. unfold conflict_invocation. by rewrite bool_decide_true.
Qed.

(** A delivery is owned by at most one live attempt. *)
Lemma owner_unique db i1 i2 d :
  wf db → i1 ∈ db.(invocations) → i2 ∈ db.(invocations) → owns i1 d → owns i2 d → i1 = i2.
Proof.
  intros Hwf H1 H2 (? & ? & _ & _ & _ & ?) (? & ? & _ & _ & _ & ?).
  apply (unique_row db); [done..|]. simpl. unfold conflict_invocation.
  rewrite !orb_true_iff. right. rewrite !bool_decide_true; [done|congruence..].
Qed.

Lemma live_same_key db i1 i2 :
  wf db → fenced db → i1 ∈ db.(invocations) → i2 ∈ db.(invocations) → live i1 → live i2 →
  i_message_seq i1 = i_message_seq i2 → i_agent_id i1 = i_agent_id i2 → i1 = i2.
Proof.
  intros Hwf Hf H1 H2 L1 L2 Hs Ha.
  destruct (Hf i1 H1 L1) as (d1 & Hd1 & O1), (Hf i2 H2 L2) as (d2 & Hd2 & O2).
  assert (d1 = d2) as ->.
  { destruct O1 as (? & ? & _), O2 as (? & ? & _).
    eapply delivery_key_unique; eauto; congruence. }
  by eapply owner_unique.
Qed.

(** ** What the statements do to the two tables *)

Lemma update_leased_row_ok row set db moved db' :
  update_leased_row row set db = Ok (moved, db') →
  db' = set_agent_deliveries
          (map (update_row (leased_row_matches db.(messages) row) set) db.(agent_deliveries)) db
  ∧ (moved = true → ∃ d, d ∈ db.(agent_deliveries)
                         ∧ leased_row_matches db.(messages) row d = true).
Proof.
  unfold update_leased_row. intros H. m_inv.
  match goal with H : update _ _ _ = Ok _ |- _ => apply update_ok in H as (-> & -> & _) end.
  split; [done|]. intros Hm. bool_facts. apply filter_singleton in Hm as (d & ? & ? & _). eauto.
Qed.

Lemma terminalize_invocation_ok a m t c r now db u db' :
  terminalize_invocation a m t c r now db = Ok (u, db') →
  db' = set_invocations
          (map (update_row (live_attempt db.(messages) a m t) (set_terminal now c r))
             db.(invocations)) db.
Proof.
  unfold terminalize_invocation, ensure_bound_turn_allows_delivery_settlement. intros H. m_inv.
  match goal with H : update _ _ _ = Ok _ |- _ => apply update_ok in H as (-> & _) end.
  repeat (case_match; m_inv; try done).
Qed.

(** A settlement by message id terminalizes every attempt that owned the row. *)
Lemma settle_by_message_fenced a m t w now set c r now' db moved db1 u db' db2 :
  fenced db →
  update_leased_row {| lr_key := KeyMessageId m; lr_agent_id := a; lr_lease_token := t;
                       lr_window := w; lr_now := now |} set db = Ok (moved, db1) →
  attempts db2 = attempts db1 → db2.(messages) = db1.(messages) →
  terminalize_invocation a m t c r now' db2 = Ok (u, db') →
  fenced db'.
Proof.
  intros Hf [-> _]%update_leased_row_ok [= Hi2 Hd2] Hm ->%terminalize_invocation_ok.
  eapply fenced_settle; simpl; [exact Hf|by rewrite Hd2|by rewrite Hi2|done|].
  intros i d Hi Hd Hl (Hs & Ha & _ & Ht & _) Hp.
  apply leased_row_matches_ok in Hp as (_ & Ht' & Ha' & Hk & _). simpl in *.
  unfold live_attempt. rewrite Hm. simpl. apply bool_decide_eq_true in Hk.
  rewrite <-Hs, Hk, !bool_decide_true by congruence. simpl. by rewrite bool_decide_false.
Qed.

(** ** Recovery *)

#[local] Arguments park_expired_armed_invocation : simpl never.

(** The delivery of an attempt is parked. *)
Definition parked (db : Db) (i : InvocationRow) : Prop :=
  ∃ d, d ∈ db.(agent_deliveries) ∧ d_message_seq d = i_message_seq i
       ∧ d_agent_id d = i_agent_id i ∧ d_state d = DeliveryState.Blocked.

Definition armed (i : InvocationRow) : Prop := i_state i = InvocationState.DispatchArmed.

(** A recorded block is the last row, under the next key. *)
Lemma record_block_id_ok s a n t r at_ms db id db' :
  record_block_id s a n t r at_ms db = Ok (id, db') →
  id = db.(blocks_autoinc) + 1
  ∧ db' = set_delivery_blocks (db.(delivery_blocks) ++ [new_block id s a n t r at_ms])
            (set_blocks_autoinc id db).
Proof.
  intros H. unfold record_block_id, next_block_id in H. m_inv.
  destruct (blocks_autoinc db =? i64_max); [done|].
  match goal with H : Ok _ = Ok _ |- _ => injection H as <- <- end.
  match goal with H : insert _ _ = Ok _ |- _ => apply insert_ok in H as (_ & _ & _ & _ & ->) end.
  done.
Qed.

Lemma keeps_record_block {X} (f : Db → X) s a n t r at_ms :
  (∀ l db, f (set_delivery_blocks l db) = f db) →
  (∀ z db, f (set_blocks_autoinc z db) = f db) →
  keeps f (record_block_id s a n t r at_ms).
Proof.
  intros Hl Hz db id db' H. unfold record_block_id, next_block_id in H. m_inv.
  destruct (blocks_autoinc db =? i64_max); [done|].
  match goal with H : Ok _ = Ok _ |- _ => injection H as <- <- end.
  match goal with H : insert _ _ = Ok _ |- _ => apply insert_ok in H as (_ & _ & _ & _ & ->) end.
  simpl. by rewrite Hl, Hz.
Qed.

Lemma keeps_mark_turn_uncertain {X} (f : Db → X) a i b r now :
  (∀ l db, f (set_session_binding_turns l db) = f db) →
  (∀ l db, f (set_session_bindings l db) = f db) →
  keeps f (mark_turn_uncertain a i b r now).
Proof.
  intros Ht Hs. unfold mark_turn_uncertain, fenced_update. keeps_tac; by apply keeps_update.
Qed.
Lemma keeps_mark_expired {X} (f : Db → X) i r now :
  (∀ l db, f (set_session_binding_turns l db) = f db) →
  (∀ l db, f (set_session_bindings l db) = f db) →
  keeps f (mark_expired_session_turn_uncertain i r now).
Proof.
  intros Ht Hs. unfold mark_expired_session_turn_uncertain. keeps_tac.
  by apply keeps_mark_turn_uncertain.
Qed.

(** What parking one attempt does to deliveries and attempts. *)
Lemma park_ok i d a now db u db' :
  park_expired_armed_invocation (i, d) a now db = Ok (u, db') →
  let row := {| lr_key := KeySeq (i_message_seq i); lr_agent_id := a;
                lr_lease_token := i_lease_token i; lr_window := Expired; lr_now := now |} in
  db'.(agent_deliveries)
    = map (update_row (leased_row_matches db.(messages) row)
             (settle_blocked (expired_reason (i_id i)) (i_lease_token i)))
        db.(agent_deliveries)
  ∧ db'.(invocations)
    = map (update_row (λ i', (i_id i' ==? i_id i)
                             && (i_state i' ==? InvocationState.DispatchArmed))
             (set_terminal now ExecutionCertainty.OutcomeUnknown
                "lease_expired_after_dispatch_armed"))
        db.(invocations)
  ∧ ∃ d', d' ∈ db.(agent_deliveries) ∧ leased_row_matches db.(messages) row d' = true.
Proof.
  intros H. unfold park_expired_armed_invocation, block_expired_lease, record_block in H. m_inv.
  match goal with H : update_leased_row _ _ _ = Ok _ |- _ =>
    apply update_leased_row_ok in H as [-> Hm] end.
  match goal with H : record_block_id _ _ _ _ _ _ _ = Ok _ |- _ =>
    apply (keeps_record_block attempts) in H; [injection H as Hi Hd|done..] end.
  match goal with H : update _ _ _ = Ok _ |- _ => apply update_ok in H as (-> & _) end.
  match goal with H : mark_expired_session_turn_uncertain _ _ _ _ = Ok _ |- _ =>
    apply (keeps_mark_expired attempts) in H; [injection H as Hi' Hd'|done..] end.
  simpl in *. rewrite Hd', Hd, Hi', Hi. auto.
Qed.

(** Parking an attempt that holds its fence keeps every other fence. *)
Lemma park_fenced i d a now db u db' :
  wf db → fenced db → i_agent_id i = a →
  (i ∈ db.(invocations) ∧ armed i ∨ parked db i) →
  park_expired_armed_invocation (i, d) a now db = Ok (u, db') → fenced db'.
Proof.
  intros Hwf Hf Ha Hi Hp. apply park_ok in Hp as (Hd & Hinv & _).
  eapply fenced_settle; [exact Hf|exact Hd|exact Hinv|done|].
  intros i2 d2 Hi2 Hd2 Hl2 Ho2 Hm. apply leased_row_matches_ok in Hm as (Hs & _ & Ha2 & Hk & _).
  simpl in *. bool_facts. pose proof Ho2 as (Hs2 & Hag2 & _).
  destruct Hi as [[Hi Harm]|(d3 & Hd3 & Hs3 & Ha3 & Hb3)].
  - assert (i2 = i) as ->.
    { eapply live_same_key; eauto; [unfold live; congruence|congruence..]. }
    by rewrite !bool_decide_true.
  - assert (d2 = d3) as -> by (eapply delivery_key_unique; eauto; congruence). congruence.
Qed.

Lemma parked_evolves db db' i : evolves false db db' → parked db i → parked db' i.
Proof.
  intros He (d & Hd & Hs & Ha & Hb).
  destruct (table_rel_elem _ _ _ _ (ev_deliveries _ _ _ He) Hd) as (d' & Hd' & Hm).
  assert (d' = d) as ->; [|by exists d].
  destruct Hm as [|? ? ? Hm _]; [done|]. inversion Hm; subst; naive_solver congruence.
Qed.

(** Parking every expired armed attempt of an agent. *)
Lemma park_all db0 a now rows db u db' :
  wf db0 → wf db → fenced db →
  (∀ r, r ∈ rows → r.1 ∈ db0.(invocations) ∧ armed r.1 ∧ i_agent_id r.1 = a) →
  (∀ i, i ∈ db.(invocations) → live i → i_agent_id i = a → i_lease_expires_at_ms i ≤ now →
        ∃ r, r ∈ rows ∧ r.1 = i) →
  (∀ i, i ∈ db0.(invocations) → armed i → i ∈ db.(invocations) ∨ parked db i) →
  for_each rows (λ row, park_expired_armed_invocation row a now) db = Ok (u, db') →
  wf db' ∧ fenced db'
  ∧ (∀ i, i ∈ db'.(invocations) → live i → i_agent_id i = a → now < i_lease_expires_at_ms i)
  ∧ (∀ i, i ∈ db0.(invocations) → armed i → i ∈ db'.(invocations) ∨ parked db' i).
Proof.
  intros Hwf0. revert db. induction rows as [|[i d] rows IH]; intros db Hwf Hf Hrows Hall Harm H;
    simpl in H; m_inv.
  - split; [done|]. split; [done|]. split; [|done]. intros i Hi Hl Ha.
    destruct (Z.lt_ge_cases now (i_lease_expires_at_ms i)) as [|Hle]; [done|].
    destruct (Hall i Hi Hl Ha Hle) as (? & ?%not_elem_of_nil & _). done.
  - match goal with H : park_expired_armed_invocation _ _ _ _ = _ |- _ => rename H into Hpark end.
    destruct (Hrows (i, d)) as (Hi0 & Hia & Hag); [set_solver|]. simpl in *.
    pose proof Hpark as Hshape. apply park_ok in Hshape as (Hd & Hi & d' & Hd' & Hmatch).
    destruct (safe_park_expired_armed_invocation false _ _ _ _ _ _ Hwf Hpark) as [Hwf1 He1].
    eapply IH; [done|..|exact H].
    + eapply (park_fenced i d a now db); [done..| |exact Hpark]. destruct (Harm i); auto.
    + intros r Hr. apply Hrows. set_solver.
    + intros j. rewrite Hi. intros (j0 & Hj0 & ->)%elem_of_update_row.
      destruct (_ && _) eqn:Hp; [by intros []|]. intros Hl Ha Hle.
      destruct (Hall j0) as (r & Hr & <-); auto. apply elem_of_cons in Hr as [->|Hr]; [|eauto].
      exfalso. simpl in *. unfold armed in Hia. rewrite !bool_decide_true in Hp by done. done.
    + intros j Hj Hja. destruct (Harm j Hj Hja) as [Hjdb|Hpk];
        [|right; by eapply parked_evolves].
      destruct (decide (i_id j = i_id i)) as [Heq|Hne].
      * assert (j = i) as -> by (by apply (invocation_id_unique db0)). right.
        pose proof (leased_row_matches_ok _ _ _ Hmatch) as (Hl & _ & Hag' & Hk & _). simpl in *.
        exists (settle_blocked (expired_reason (i_id i)) (i_lease_token i) d').
        rewrite Hd. split; [|bool_facts; simpl; split_and!; congruence].
        apply elem_of_update_row. exists d'. split; [done|]. by rewrite Hmatch.
      * left. rewrite Hi. apply elem_of_update_row. exists j. split; [done|].
        by rewrite bool_decide_false.
Qed.

Lemma terminalize_expired_reservations_ok a now db n db' :
  terminalize_expired_reservations a now db = Ok (n, db') →
  db' = set_invocations
          (map (update_row
                  (λ i, (i_agent_id i ==? a) && (i_state i ==? InvocationState.Reserved)
                        && (i_lease_expires_at_ms i <=? now)
                        && existsb (expired_lease_of now i) db.(agent_deliveries))
                  (set_terminal now ExecutionCertainty.NotStarted
                     "reservation_expired_before_dispatch"))
             db.(invocations)) db.
Proof.
  unfold terminalize_expired_reservations. intros H. m_inv.
  match goal with H : update _ _ _ = Ok _ |- _ => by apply update_ok in H as (-> & _) end.
Qed.

Lemma owns_expired now i d :
  owns i d → i_lease_expires_at_ms i ≤ now → expired_lease_of now i d = true.
Proof.
  intros (Hs & Ha & Hl & Ht & He & _) Hle. unfold expired_lease_of.
  rewrite He, !bool_decide_true by done. simpl. by apply Z.leb_le.
Qed.

(** Recovery keeps the fence, leaves no live attempt of the agent expired, and
    parks the delivery of every armed attempt it ends. *)
Lemma recover_spec a now db n db' :
  wf db → fenced db → recover_expired_invocations_transaction a now db = Ok (n, db') →
  wf db' ∧ fenced db'
  ∧ (∀ i, i ∈ db'.(invocations) → live i → i_agent_id i = a → now < i_lease_expires_at_ms i)
  ∧ (∀ i, i ∈ db.(invocations) → armed i → i ∈ db'.(invocations) ∨ parked db' i).
Proof.
  intros Hwf Hf H. unfold recover_expired_invocations_transaction in H. m_inv.
  match goal with H : terminalize_expired_reservations _ _ _ = Ok (_, ?d) |- _ =>
    rename d into db1; destruct (safe_terminalize_expired_reservations false _ _ _ _ _ Hwf H) as [Hwf1 _];
    apply terminalize_expired_reservations_ok in H; rename H into Hdb1 end.
  match goal with H : for_each _ _ _ = Ok (_, ?d) |- _ => rename H into Hpark, d into dbz end.
  set (p := λ i : InvocationRow, _) in Hdb1.
  assert (Harm : ∀ i, i ∈ db.(invocations) → armed i → i ∈ db1.(invocations)).
  { intros i Hi Ha. rewrite Hdb1. simpl. apply elem_of_update_row. exists i. split; [done|].
    unfold p. rewrite Ha, andb_false_r. done. }
  assert (Hf1 : fenced db1).
  { eapply (fenced_settle db db1 (λ _, false) id p); rewrite ?Hdb1; simpl; try done.
    by rewrite map_update_none. }
  assert (Hexp : ∀ i, i ∈ db1.(invocations) → live i → i_agent_id i = a →
                 i_lease_expires_at_ms i ≤ now → armed i).
  { rewrite Hdb1. simpl. intros i' (i & Hi & ->)%elem_of_update_row Hl Ha Hle.
    destruct (p i) eqn:Hp; [by destruct Hl|]. unfold armed.
    destruct (i_state i) eqn:Hst; [|done|done]. exfalso.
    destruct (Hf i Hi Hl) as (d & Hd & Ho). unfold p in Hp.
    assert (existsb (expired_lease_of now i) (agent_deliveries db) = true) as Hex.
    { apply existsb_exists. exists d. split; [by apply list_elem_of_In|by apply owns_expired]. }
    rewrite Hex, Hst, !bool_decide_true in Hp by done. apply Z.leb_le in Hle. by rewrite Hle in Hp. }
  assert (Hrows : ∀ r, r ∈ expired_armed a now db1 →
                  r.1 ∈ db1.(invocations) ∧ armed r.1 ∧ i_agent_id r.1 = a).
  { intros [i d] Hr. unfold expired_armed in Hr.
    apply elem_of_sort_by, elem_of_list_filter in Hr as [Hr Hj].
    apply elem_of_join in Hj as (? & _). bool_facts. done. }
  destruct (park_all db1 a now (expired_armed a now db1) db1 tt dbz)
    as (? & ? & ? & Hend); try done.
  - intros i Hi Hl Ha Hle. destruct (Hf1 i Hi Hl) as (d & Hd & Ho). exists (i, d). split; [|done].
    apply elem_of_sort_by, elem_of_list_filter. simpl.
    rewrite (Hexp i Hi Hl Ha Hle), !bool_decide_true by done. simpl.
    split; [by apply Z.leb_le|]. apply elem_of_join. auto using owns_expired.
  - auto.
  - by split_and!; eauto.
Qed.

(** Recovery leases nothing. *)
Lemma recover_deliveries a now db n db' d' :
  recover_expired_invocations_transaction a now db = Ok (n, db') →
  d' ∈ db'.(agent_deliveries) →
  d' ∈ db.(agent_deliveries) ∨ d_state d' = DeliveryState.Blocked ∧ d_lease_token d' = None.
Proof.
  intros H. unfold recover_expired_invocations_transaction in H. m_inv.
  match goal with H : terminalize_expired_reservations _ _ _ = Ok (_, ?d) |- _ =>
    apply terminalize_expired_reservations_ok in H;
    assert (agent_deliveries d = agent_deliveries db) as <- by (by rewrite H); clear H end.
  match goal with H : for_each ?l _ _ = Ok _ |- _ => revert H; generalize l end.
  intros rows. generalize db0. induction rows as [|[i d] rows IH]; intros dbx Hrun Hd';
    simpl in Hrun; m_inv; [by left|].
  match goal with H : park_expired_armed_invocation _ _ _ _ = _ |- _ =>
    apply park_ok in H as (Hd & _) end.
  edestruct IH as [Hin|]; [done|done| |by right].
  rewrite Hd in Hin. apply elem_of_update_row in Hin as (d0 & Hd0 & ->).
  destruct (leased_row_matches _ _ _); [by right|by left].
Qed.

(** ** Claiming and reserving *)

Lemma lease_claimable_ok a t e now lim kinds `{SerdeJson} db u db' :
  lease_claimable a t e now lim kinds db = Ok (u, db') →
  db' = set_agent_deliveries
          (map (update_row (λ d, bool_decide (delivery_key d ∈ claimable_keys a now lim kinds db))
                  (lease_row t e)) db.(agent_deliveries)) db.
Proof.
  unfold lease_claimable. intros Hrun. m_inv.
  match goal with H : update _ _ _ = Ok _ |- _ => by apply update_ok in H as (-> & _) end.
Qed.

(** A delivery owned by an unexpired attempt is not claimable. *)
Lemma owned_not_claimable a now i d :
  owns i d → (i_agent_id i = a → now < i_lease_expires_at_ms i) → claimable a now d = false.
Proof.
  intros (_ & Ha & Hs & _ & He & _) Hexp. unfold claimable. rewrite Hs, He.
  destruct (d_agent_id d ==? a) eqn:E; [|done]. bool_facts. simpl.
  assert (i_lease_expires_at_ms i <=? now = false) as -> by (apply Z.leb_gt, Hexp; congruence).
  by rewrite andb_false_r.
Qed.

Lemma lease_fenced a t e now lim kinds `{SerdeJson} db u db' :
  wf db → fenced db →
  (∀ i, i ∈ db.(invocations) → live i → i_agent_id i = a → now < i_lease_expires_at_ms i) →
  lease_claimable a t e now lim kinds db = Ok (u, db') → fenced db'.
Proof.
  intros Hwf Hf Hexp ->%lease_claimable_ok.
  eapply (fenced_settle db _ _ _ (λ _, false) (set_terminal 0 ExecutionCertainty.NotStarted ""));
    simpl; try done; [by rewrite map_update_none|].
  intros i d Hi Hd Hl Ho Hp. simpl in Hp. bool_facts.
  eapply claimable_keys_ok in Hp; [|done..]. erewrite owned_not_claimable in Hp; eauto.
Qed.

(** The rows a fresh token holds after leasing carry the new expiry. *)
Lemma leased_fresh a t e now lim kinds `{SerdeJson} db u db' d :
  (∀ d, d ∈ db.(agent_deliveries) → d_lease_token d ≠ Some t) →
  lease_claimable a t e now lim kinds db = Ok (u, db') →
  d ∈ db'.(agent_deliveries) → d_lease_token d = Some t →
  d_lease_expires_at_ms d = Some e
  ∧ ∃ d0, d0 ∈ db.(agent_deliveries) ∧ d = lease_row t e d0
          ∧ delivery_key d0 ∈ claimable_keys a now lim kinds db.
Proof.
  intros Hfresh ->%lease_claimable_ok (d0 & Hd0 & ->)%elem_of_update_row.
  destruct (bool_decide _) eqn:E; bool_facts; [by eauto|]. intros Ht. by destruct (Hfresh d0).
Qed.

Lemma reserve_rows_ok rows a t e now uuids k `{SerdeJson} db invs db' :
  reserve_rows rows a t e now uuids k db = Ok (invs, db') →
  db'.(agent_deliveries) = db.(agent_deliveries)
  ∧ ∀ i, i ∈ db'.(invocations) → i ∈ db.(invocations)
         ∨ ∃ r id fence, r ∈ rows
             ∧ i = new_invocation id (m_seq r.2) a (d_attempt r.1) t e fence now.
Proof.
  revert k db invs. induction rows as [|[d m] rows IH]; intros k db invs Hrun;
    simpl in Hrun; unfold reserve_row in Hrun; m_inv; [by auto|].
  match goal with H : insert _ _ = Ok _ |- _ => apply insert_ok in H as (_ & _ & _ & _ & ->) end.
  match goal with H : reserve_rows _ _ _ _ _ _ _ _ = Ok _ |- _ =>
    apply IH in H as [Hd Hi] end. split; [done|].
  intros i Hin. apply Hi in Hin as [Hin|(r & id & fence & Hr & ->)].
  - simpl in Hin. apply elem_of_app in Hin as [| ->%list_elem_of_singleton]; [by left|].
    right. exists (d, m), (uuids k), (uuids (S k)). split; [set_solver|done].
  - right. exists r, id, fence. split; [set_solver|done].
Qed.

Lemma leased_rows_ok a t db r :
  r ∈ leased_rows a t db →
  r.1 ∈ db.(agent_deliveries) ∧ r.2 ∈ db.(messages) ∧ m_seq r.2 = d_message_seq r.1
  ∧ d_agent_id r.1 = a ∧ d_state r.1 = DeliveryState.Leased ∧ d_lease_token r.1 = Some t.
Proof.
  destruct r as [d m]. unfold leased_rows. rewrite elem_of_sort_by, elem_of_list_filter.
  intros [Hp Hj]. apply elem_of_join in Hj as (? & ? & ?). bool_facts. done.
Qed.

Section claims.
Context `{J : SerdeJson}.

(** The state a claim or reservation leases from: recovered, fenced, and
    without the fresh token. *)
Lemma recovered a now token db n db1 :
  wf db → fenced db → fresh_token token db →
  recover_expired_invocations_transaction a now db = Ok (n, db1) →
  wf db1 ∧ fenced db1
  ∧ (∀ i, i ∈ db1.(invocations) → live i → i_agent_id i = a → now < i_lease_expires_at_ms i)
  ∧ (∀ i, i ∈ db.(invocations) → armed i → i ∈ db1.(invocations) ∨ parked db1 i)
  ∧ (∀ d, d ∈ db1.(agent_deliveries) → d_lease_token d ≠ Some token).
Proof.
  intros Hwf Hf [Hfresh _] Hrec. destruct (recover_spec _ _ _ _ _ Hwf Hf Hrec) as (? & ? & ? & ?).
  split_and!; try done. intros d Hd. eapply recover_deliveries in Hd as [?|[_ ->]]; eauto.
Qed.

(** No row leased after recovery belongs to an attempt that was armed before. *)
Lemma lease_avoids_armed a token e now lim kinds db n db1 u db2 i d :
  wf db → fenced db → fresh_token token db →
  recover_expired_invocations_transaction a now db = Ok (n, db1) →
  lease_claimable a token e now lim kinds db1 = Ok (u, db2) →
  i ∈ db.(invocations) → armed i → i_agent_id i = a →
  d ∈ db2.(agent_deliveries) → d_lease_token d = Some token → d_agent_id d = a →
  d_message_seq d ≠ i_message_seq i.
Proof.
  intros Hwf Hf Hfr Hrec Hlease Hi Harm Hag Hd Ht Hda Hseq.
  destruct (recovered _ _ _ _ _ _ Hwf Hf Hfr Hrec) as (Hwf1 & Hf1 & Hexp & Hend & Hfresh).
  destruct (leased_fresh _ _ _ _ _ _ _ _ _ _ Hfresh Hlease Hd Ht) as (_ & d0 & Hd0 & -> & Hk).
  eapply claimable_keys_ok in Hk; [|done..]. simpl in *.
  destruct (Hend i Hi Harm) as [Hi1|(d1 & Hd1 & Hs1 & Ha1 & Hb1)].
  - assert (live i) as Hl by (unfold live; congruence).
    destruct (Hf1 i Hi1 Hl) as (d1 & Hd1 & Ho1).
    assert (d0 = d1) as ->.
    { pose proof Ho1 as (? & ? & _). eapply delivery_key_unique; eauto; congruence. }
    by erewrite owned_not_claimable in Hk; eauto.
  - assert (d0 = d1) as -> by (eapply delivery_key_unique; eauto; congruence).
    apply claimable_state in Hk as [?|?]; congruence.
Qed.

Lemma claim_fenced a input now token db batch db' :
  wf db → fenced db → fresh_token token db →
  claim_deliveries a input now token db = Ok (batch, db') → fenced db'.
Proof.
  intros Hwf Hf Hfr Hrun. unfold claim_deliveries, ensure_agent, ensure_exists, leased_batch in Hrun.
  m_inv.
  match goal with H : recover_expired_invocations_transaction _ _ _ = _ |- _ =>
    destruct (recovered _ _ _ _ _ _ Hwf Hf Hfr H) as (? & ? & ? & _) end.
  eapply lease_fenced; eauto.
Qed.

Lemma reserve_fenced a input kinds now token uuids db invs db' :
  wf db → fenced db → fresh_token token db →
  reserve_invocations_filtered a input kinds now token uuids db = Ok (invs, db') → fenced db'.
Proof.
  intros Hwf Hf Hfr Hrun. unfold reserve_invocations_filtered, ensure_agent, ensure_exists in Hrun.
  m_inv.
  match goal with H : recover_expired_invocations_transaction _ _ _ = _ |- _ =>
    destruct (recovered _ _ _ _ _ _ Hwf Hf Hfr H) as (Hwf1 & Hf1 & Hexp & _ & Hfresh) end.
  match goal with H : lease_claimable _ _ _ _ _ _ _ = Ok (_, ?d) |- _ =>
    rename H into Hlease, d into db2 end.
  assert (fenced db2) as Hf2 by (eapply lease_fenced; eauto).
  match goal with H : reserve_rows _ _ _ _ _ _ _ _ = Ok _ |- _ =>
    apply reserve_rows_ok in H as [Hd Hi] end.
  intros i Hin Hl. rewrite Hd. apply Hi in Hin as [Hin|(r & id & fence & Hr & ->)]; [by apply Hf2|].
  apply leased_rows_ok in Hr as (Hr & _ & Hseq & Hag & Hst & Htok).
  edestruct leased_fresh as [He _]; [exact Hfresh|exact Hlease|exact Hr|exact Htok|].
  exists r.1. split; [done|]. by repeat split.
Qed.
End claims.

(** ** Every transition keeps the fence *)

Section transitions.
Context `{J : SerdeJson}.

Lemma or_rollback_ok {A} (m : M bool) (settled otherwise : M A) db a db' :
  or_rollback m settled otherwise db = Ok (a, db') →
  (∃ db1, m db = Ok (true, db1) ∧ settled db1 = Ok (a, db'))
  ∨ (∃ db1, m db = Ok (false, db1) ∧ otherwise db = Ok (a, db')).
Proof. unfold or_rollback. destruct (m db) as [[[] db1]|e]; naive_solver. Qed.

Lemma settle_miss_reads a m t s : reads (settle_miss a m t s).
Proof. intros db u db' H. unfold settle_miss in H. m_inv. case_match; m_inv; by case_match; m_inv. Qed.

Lemma acknowledge_fenced a m token now db u db' :
  fenced db → acknowledge_delivery a m token now db = Ok (u, db') → fenced db'.
Proof.
  intros Hf H. unfold acknowledge_delivery in H. m_inv.
  apply or_rollback_ok in H as [(db1 & Hmark & Hterm)|(db1 & _ & Hmiss)].
  - by eapply settle_by_message_fenced.
  - by apply settle_miss_reads in Hmiss as ->.
Qed.

Lemma retry_fenced a m input now db u db' :
  fenced db → retry_delivery a m input now db = Ok (u, db') → fenced db'.
Proof.
  intros Hf H. unfold retry_delivery, ensure_retry_is_safe in H. m_inv.
  apply or_rollback_ok in H as [(db1 & Hmark & Hterm)|(db1 & _ & Hmiss)].
  - by eapply settle_by_message_fenced.
  - by apply settle_miss_reads in Hmiss as ->.
Qed.

Lemma keeps_insert_block_record {X} (f : Db → X) a m input at_ms :
  (∀ l db, f (set_delivery_blocks l db) = f db) →
  (∀ z db, f (set_blocks_autoinc z db) = f db) →
  keeps f (insert_block_record a m input at_ms).
Proof.
  intros Hl Hz. unfold insert_block_record. keeps_tac. by apply keeps_record_block.
Qed.
Lemma keeps_blocked_delivery_by_id {X} (f : Db → X) id : keeps f (blocked_delivery_by_id id).
Proof. unfold blocked_delivery_by_id. keeps_tac. Qed.
Lemma keeps_blocked_delivery_by_lease {X} (f : Db → X) a m t :
  keeps f (blocked_delivery_by_lease a m t).
Proof. unfold blocked_delivery_by_lease. keeps_tac. Qed.
Lemma keeps_settle_miss {X} (f : Db → X) a m t s : keeps f (settle_miss a m t s).
Proof. unfold settle_miss. keeps_tac. Qed.

Lemma block_fenced a m input now db r db' :
  fenced db → block_delivery a m input now db = Ok (r, db') → fenced db'.
Proof.
  intros Hf H. unfold block_delivery in H. m_inv.
  apply or_rollback_ok in H as [(db1 & Hmark & Hrest)|(db1 & _ & Hmiss)].
  - m_inv. eapply (fenced_frame); [by eapply keeps_blocked_delivery_by_id|].
    eapply settle_by_message_fenced; [done|done|..|done]; by eapply keeps_insert_block_record.
  - eapply fenced_frame; [|done]. revert Hmiss.
    match goal with |- ?m db = _ → _ => enough (keeps attempts m) as Hk by apply Hk end.
    keeps_tac; [apply keeps_blocked_delivery_by_lease|apply keeps_settle_miss].
Qed.

(** A resolution moves blocked rows only. *)
Lemma resolve_delivery_row_ok b input retry now db u db' :
  resolve_delivery_row b input retry now db = Ok (u, db') →
  ∃ pd setd, db' = set_agent_deliveries (map (update_row pd setd) db.(agent_deliveries)) db
             ∧ ∀ d, pd d = true → d_state d = DeliveryState.Blocked.
Proof.
  unfold resolve_delivery_row. intros H. m_inv.
  destruct (rdb_resolution input); m_inv;
    match goal with H : update _ _ _ = Ok _ |- _ => apply update_ok in H as (-> & _) end;
    eexists _, _; (split; [done|]); intros d Hp; simpl in Hp; by bool_facts.
Qed.

Lemma resolve_transaction_ok id input now db u db' :
  resolve_delivery_block_transaction id input now db = Ok (u, db') →
  ∃ pd setd, db'.(agent_deliveries) = map (update_row pd setd) db.(agent_deliveries)
             ∧ db'.(invocations) = db.(invocations)
             ∧ ∀ d, pd d = true → d_state d = DeliveryState.Blocked.
Proof.
  intros H. unfold resolve_delivery_block_transaction, resolution_row in H. m_inv.
  match type of H with (if ?b then _ else _) _ = _ => destruct b end; m_inv.
  - exists (λ _, false), (λ d, d). by rewrite map_update_none.
  - match goal with H : update _ _ _ = Ok _ |- _ => apply update_ok in H as (-> & _) end.
    match goal with H : resolve_delivery_row _ _ _ _ _ = Ok _ |- _ =>
      apply resolve_delivery_row_ok in H as (pd & setd & -> & Hpd) end.
    by exists pd, setd.
Qed.

Lemma keeps_retire_for_block id r now :
  keeps attempts (retire_uncertain_session_for_delivery_block id r now).
Proof. unfold retire_uncertain_session_for_delivery_block, fenced_update. keeps_tac. Qed.

(** The deliveries of a resolution were blocked, so no attempt owned them. *)
Lemma resolve_fenced id input now db u db' :
  fenced db → resolve_delivery_block id input now db = Ok (u, db') → fenced db'.
Proof.
  intros Hf H. unfold resolve_delivery_block in H. m_inv.
  eapply fenced_frame; [by eapply keeps_retire_for_block|].
  match goal with H : resolve_delivery_block_transaction _ _ _ _ = Ok _ |- _ =>
    apply resolve_transaction_ok in H as (pd & setd & Hd & Hi & Hpd) end.
  eapply (fenced_settle db _ pd setd (λ _, false) (set_terminal 0 ExecutionCertainty.NotStarted ""));
    simpl; try done; [by rewrite map_update_none|].
  intros i d _ _ _ (_ & _ & Hl & _) Hp. apply Hpd in Hp. congruence.
Qed.

(** Arming moves only the state of the attempt. *)
Lemma keeps_invocation_by_id {X} (f : Db → X) i : keeps f (invocation_by_id i).
Proof. unfold invocation_by_id. keeps_tac. Qed.
Lemma invocation_by_id_reads i : reads (invocation_by_id i).
Proof. exact (keeps_invocation_by_id (λ d, d) i). Qed.

Lemma arm_ok a i input now db r db' :
  arm_invocation_transaction a i input now db = Ok (r, db') →
  db' = db
  ∨ db' = set_invocations
            (map (update_row (λ i', (i_id i' ==? i) && (i_agent_id i' ==? a)
                                    && (i_state i' ==? InvocationState.Reserved))
                    (set_armed now)) db.(invocations)) db.
Proof.
  intros H. unfold arm_invocation_transaction, invocation_with_delivery in H. m_inv.
  match goal with x : _ * _ * _ |- _ => destruct x as [[i0 d0] m0] end. m_inv.
  match goal with H : invocation_by_id _ _ = Ok _ |- _ =>
    apply invocation_by_id_reads in H as -> end.
  destruct (i_state i0); m_inv; [|by left].
  match goal with H : update _ _ _ = Ok _ |- _ => apply update_ok in H as (-> & _) end. by right.
Qed.

Lemma arm_fenced a i input now db r db' :
  fenced db → arm_invocation_transaction a i input now db = Ok (r, db') → fenced db'.
Proof.
  intros Hf [->| ->]%arm_ok; [done|].
  intros i' (i0 & Hi0 & ->)%elem_of_update_row Hl. simpl.
  destruct (_ && _) eqn:Hp; [|by apply Hf]. bool_facts.
  destruct (Hf i0 Hi0) as (d & Hd & Ho); [unfold live; congruence|]. by exists d.
Qed.

(** Publishing a message only adds deliveries. *)
Lemma insert_message_attempts c input uuid at_ms db m db' :
  insert_message c input uuid at_ms db = Ok (m, db') →
  db'.(invocations) = db.(invocations)
  ∧ ∀ d, d ∈ db.(agent_deliveries) → d ∈ db'.(agent_deliveries).
Proof.
  intros (ch & json & _ & _ & _ & _ & _ & _ & _ & _ & _ & ->)%insert_message_ok. simpl.
  split; [done|]. set_solver.
Qed.

Lemma append_fenced c input uuid at_ms db r db' :
  fenced db → append_message_in_transaction c input uuid at_ms db = Ok (r, db') → fenced db'.
Proof.
  intros Hf H. unfold append_message_in_transaction in H. m_inv.
  match goal with H : (match cm_idempotency_key input with _ => _ end) db = Ok (_, ?d) |- _ =>
    assert (d = db) as -> by (destruct (cm_idempotency_key input); by m_inv) end.
  match type of H with (match ?x with _ => _ end) _ = _ => destruct x end; m_inv; [done|].
  match goal with H : insert_message _ _ _ _ _ = Ok _ |- _ =>
    apply insert_message_attempts in H as [? ?] end. by eapply fenced_mono.
Qed.

(** The join of an attempt with its delivery and its input message. *)
Lemma invocation_with_delivery_ok a i db i0 d0 m0 db' :
  invocation_with_delivery a i db = Ok ((i0, d0, m0), db') →
  db' = db ∧ i0 ∈ db.(invocations) ∧ d0 ∈ db.(agent_deliveries) ∧ m0 ∈ db.(messages)
  ∧ i_id i0 = i ∧ i_agent_id i0 = a ∧ d_message_seq d0 = i_message_seq i0
  ∧ d_agent_id d0 = a ∧ m_seq m0 = i_message_seq i0.
Proof.
  unfold invocation_with_delivery. intros H. m_inv.
  match goal with H : _ ∈ join _ _ _ |- _ => apply elem_of_join in H as (Hj & ? & ?) end.
  apply elem_of_join in Hj as (? & ? & ?). bool_facts. simpl in *. by split_and!; try congruence.
Qed.

(** What a first completion does: publish, acknowledge, end the attempt. *)
Lemma complete_ok a i input now allow uuid at_ms db r db' :
  complete_invocation_transaction a i input now allow uuid at_ms db = Ok (r, db') →
  ∃ i0 d0 m0, i0 ∈ db.(invocations) ∧ d0 ∈ db.(agent_deliveries) ∧ m0 ∈ db.(messages)
  ∧ i_id i0 = i ∧ i_agent_id i0 = a
  ∧ d_message_seq d0 = i_message_seq i0 ∧ d_agent_id d0 = a ∧ m_seq m0 = i_message_seq i0
  ∧ i_lease_token i0 = complete_lease_token input
  ∧ i_fence_token i0 = complete_fence_token input
  ∧ ((db' = db ∧ i_state i0 = InvocationState.Terminal ∧ r.2 = false)
     ∨ (armed i0 ∧ r.2 = true
        ∧ validate_live_lease i0 d0 (complete_lease_token input) now = Ok tt
        ∧ ∃ db1, insert_message (m_channel_id m0) (result_input a i m0 input) uuid at_ms db
                 = Ok (completion_result r.1, db1)
          ∧ let row := {| lr_key := KeySeq (i_message_seq i0); lr_agent_id := a;
                          lr_lease_token := complete_lease_token input;
                          lr_window := Live; lr_now := now |} in
            db' = set_invocations
                    (map (update_row (λ i', (i_id i' ==? i) && (i_agent_id i' ==? a)
                            && (i_state i' ==? InvocationState.DispatchArmed))
                            (set_completed now (msg_seq (completion_result r.1))))
                       db1.(invocations))
                    (set_agent_deliveries
                       (map (update_row (leased_row_matches db1.(messages) row)
                               (settle_acknowledged (complete_lease_token input) now))
                          db1.(agent_deliveries)) db1))).
Proof.
  intros H. unfold complete_invocation_transaction in H. m_inv.
  match goal with H : (if allow then _ else _) db = Ok (_, ?d) |- _ =>
    assert (d = db) as -> by (destruct allow; unfold ensure_invocation_not_active_on_session in H;
      by m_inv) end.
  match goal with x : _ * _ * _ |- _ => destruct x as [[i0 d0] m0] end.
  match goal with H : invocation_with_delivery _ _ _ = Ok _ |- _ =>
    apply invocation_with_delivery_ok in H as (-> & ? & ? & ? & ? & ? & ? & ? & ?) end.
  m_inv. match goal with H : validate_static_fence _ _ _ = Ok _ |- _ =>
    unfold validate_static_fence in H; m_inv; bool_facts end.
  exists i0, d0, m0. split_and!; try done.
  match type of H with (if ?b then _ else _) _ = _ => destruct b eqn:Hst end; m_inv; bool_facts.
  - left. split_and!; try done. match goal with H : completed_replay _ _ _ _ _ = Ok _ |- _ =>
      revert H end. match goal with |- ?m _ = Ok (_, ?d) → _ =>
      enough (keeps (λ d, d) m) as Hk by apply Hk end.
    unfold completed_replay, message_by_seq. keeps_tac. apply keeps_invocation_by_id.
  - right. split_and!; try done.
    unfold ensure_result_key_unused, acknowledge_invocation_delivery, acknowledge_leased_seq in *.
    m_inv.
    match goal with H : insert_message _ _ _ _ _ = Ok (_, ?d) |- _ => exists d; split; [exact H|] end.
    match goal with H : update_leased_row _ _ _ = Ok _ |- _ => apply update_leased_row_ok in H as [-> _] end.
    match goal with H : update _ _ _ = Ok _ |- _ => apply update_ok in H as (-> & _) end.
    match goal with H : invocation_by_id _ _ = Ok _ |- _ =>
      by apply invocation_by_id_reads in H as -> end.
Qed.

Lemma complete_fenced a i input now allow uuid at_ms db r db' :
  wf db → fenced db →
  complete_invocation_transaction a i input now allow uuid at_ms db = Ok (r, db') → fenced db'.
Proof.
  intros Hwf Hf (i0 & d0 & m0 & Hi0 & Hd0 & _ & Hid & Hag & Hs0 & Ha0 & _ & Htok & _ &
    [(-> & _)|(Harm & _ & _ & db1 & Hins & ->)])%complete_ok; [done|].
  destruct (safe_insert_message false _ _ _ _ _ _ _ Hwf Hins) as [Hwf1 _].
  apply insert_message_attempts in Hins as [Hi1 Hd1].
  assert (fenced db1) as Hf1 by (by eapply fenced_mono).
  eapply fenced_settle; simpl; [exact Hf1|done..|].
  intros i2 d2 Hi2 Hd2 Hl2 Ho2 Hm. apply leased_row_matches_ok in Hm as (_ & _ & Ha2 & Hk & _).
  simpl in *. bool_facts. pose proof Ho2 as (Hs2 & Hag2 & _).
  assert (i2 = i0) as ->.
  { eapply live_same_key; eauto; rewrite ?Hi1; try done; [unfold live; congruence|congruence..]. }
  by rewrite Hid, Hag, Harm, !bool_decide_true.
Qed.
Lemma recover_agents_fenced agents now k db n db' :
  wf db → fenced db → recover_agents agents now k db = Ok (n, db') → fenced db'.
Proof.
  revert k db. induction agents as [|a agents IH]; intros k db Hwf Hf H; simpl in H; m_inv; [done|].
  match goal with H : recover_expired_invocations_transaction _ _ _ = _ |- _ =>
    apply recover_spec in H as (? & ? & _); [|done..] end.
  eauto.
Qed.

(** Session operations and observations touch neither table. *)
Lemma keeps_exact_binding_row {X} (f : Db → X) a b : keeps f (exact_binding_row a b).
Proof. unfold exact_binding_row. keeps_tac. Qed.
Lemma keeps_binding_by_identity {X} (f : Db → X) a b : keeps f (binding_by_identity a b).
Proof. unfold binding_by_identity, exact_binding_row. keeps_tac. Qed.
Lemma keeps_validate_bound_turn {X} (f : Db → X) a i b q : keeps f (validate_bound_turn a i b q).
Proof. unfold validate_bound_turn, bound_turn_row, exact_binding_row. keeps_tac. Qed.
Lemma keeps_begin_observation a i g b now :
  keeps attempts (begin_invocation_observation a i g b now).
Proof.
  unfold begin_invocation_observation. keeps_tac. intros db u db'.
  unfold map_observation_conflict. destruct (for_each _ _ db) as [[? ?]|e] eqn:E.
  - intros [= <- <-]. revert E. apply keeps_for_each. intros g'. keeps_tac.
  - by destruct e as [| | | | | | | |[]| |].
Qed.
Lemma keeps_activate_turn a i b now : keeps attempts (activate_binding_turn a i b now).
Proof. unfold activate_binding_turn, fenced_update. keeps_tac. Qed.
Lemma keeps_settle_quiescent a i b p now : keeps attempts (settle_quiescent_turn a i b p now).
Proof. unfold settle_quiescent_turn, bound_turn_row, fenced_update. keeps_tac. Qed.

Lemma arm_session_fenced a i b ref g input now db r db' :
  fenced db → arm_session_invocation a i b ref g input now db = Ok (r, db') → fenced db'.
Proof.
  intros Hf H. unfold arm_session_invocation in H. m_inv.
  repeat match goal with
  | H : binding_by_identity _ _ _ = Ok _ |- _ => apply (keeps_binding_by_identity attempts) in H
  | H : begin_invocation_observation _ _ _ _ _ _ = Ok _ |- _ => apply keeps_begin_observation in H
  | H : activate_binding_turn _ _ _ _ _ = Ok _ |- _ => apply keeps_activate_turn in H
  | H : exact_binding_row _ _ _ = Ok _ |- _ => apply (keeps_exact_binding_row attempts) in H
  end.
  match goal with H : arm_invocation_transaction _ _ _ _ _ = Ok _ |- _ => apply arm_fenced in H end;
    [|by eapply fenced_frame]. eapply fenced_frame; [|done]. congruence.
Qed.

Lemma complete_session_fenced a i b p input now uuid at_ms db r db' :
  wf db → fenced db →
  complete_session_invocation a i b p input now uuid at_ms db = Ok (r, db') → fenced db'.
Proof.
  intros Hwf Hf H. unfold complete_session_invocation in H. m_inv.
  match goal with H : validate_bound_turn _ _ _ _ _ = Ok _ |- _ =>
    apply (keeps_validate_bound_turn (λ d, d)) in H; simpl in H; subst end.
  match goal with H : settle_quiescent_turn _ _ _ _ _ _ = Ok _ |- _ =>
    apply keeps_settle_quiescent in H end.
  eapply fenced_frame; [done|]. by eapply complete_fenced.
Qed.

Lemma keeps_insert_binding {X} (f : Db → X) id g a input json now :
  (∀ l db, f (set_session_bindings l db) = f db) →
  keeps f (insert_binding id g a input json now).
Proof.
  intros Hf. unfold insert_binding, binding_by_identity, exact_binding_row. keeps_tac.
  by apply keeps_insert.
Qed.

Lemma keeps_acquire a input now uuid : keeps attempts (acquire_session_binding a input now uuid).
Proof.
  unfold acquire_session_binding, ensure_agent, ensure_exists, current_binding_row,
    insert_after_latest_retired, latest_binding_row, acquire_existing, rotate_binding,
    adopt_binding, fenced_update.
  keeps_tac; first [by apply keeps_insert_binding | apply keeps_binding_by_identity].
Qed.

Lemma keeps_mark_session_uncertain a i b r now :
  keeps attempts (mark_session_invocation_uncertain a i b r now).
Proof.
  unfold mark_session_invocation_uncertain. keeps_tac; first
    [ apply keeps_validate_bound_turn | apply keeps_exact_binding_row
    | by apply keeps_mark_turn_uncertain | apply keeps_binding_by_identity ].
Qed.

Lemma keeps_map_unique_conflict {X} (f : Db → X) m field :
  keeps f m → keeps f (map_unique_conflict m field).
Proof.
  intros Hm db a db'. unfold map_unique_conflict.
  destruct (m db) as [[? ?]|e] eqn:E; [intros [= <- <-]; eauto|].
  destruct e as [| | | | | | | |[]| |]; done.
Qed.

Lemma keeps_create_with_members n md ms uuid now :
  keeps attempts (create_channel_with_members n md ms uuid now).
Proof.
  unfold create_channel_with_members, ensure_exists, insert_member. keeps_tac.
  apply keeps_map_unique_conflict. keeps_tac.
Qed.

Lemma keeps_fire_record id occurrence now (created : bool) db1 db' :
  (if created then record_trigger_occurrence id occurrence now db1 = Ok (true, db') else db' = db1) →
  attempts db' = attempts db1.
Proof.
  destruct created; [|by intros ->]. assert (keeps attempts (record_trigger_occurrence id occurrence now))
    as Hk by (unfold record_trigger_occurrence; keeps_tac). apply Hk.
Qed.

Context (sha256_hex : string → string).

(** The operations that touch deliveries or attempts. *)
Inductive attempt_op (operator : bool) (db db' : Db) : Prop :=
| ao_append c input uuid at_ms r db1 :
    append_message_in_transaction c input uuid at_ms db = Ok (r, db1) →
    attempts db' = attempts db1 → attempt_op operator db db'
| ao_claim a input now token batch :
    fresh_token token db → claim_deliveries a input now token db = Ok (batch, db') →
    attempt_op operator db db'
| ao_acknowledge a m token now :
    acknowledge_delivery a m token now db = Ok (tt, db') → attempt_op operator db db'
| ao_retry a m input now : retry_delivery a m input now db = Ok (tt, db') → attempt_op operator db db'
| ao_block a m input now r : block_delivery a m input now db = Ok (r, db') → attempt_op operator db db'
| ao_resolve id input now :
    operator = true → resolve_delivery_block id input now db = Ok (tt, db') → attempt_op operator db db'
| ao_reserve a input kinds now token uuids invs :
    fresh_token token db →
    reserve_invocations_filtered a input kinds now token uuids db = Ok (invs, db') →
    attempt_op operator db db'
| ao_arm a i input now r :
    arm_invocation_transaction a i input now db = Ok (r, db') → attempt_op operator db db'
| ao_complete a i input now uuid at_ms r :
    complete_invocation a i input now uuid at_ms db = Ok (r, db') → attempt_op operator db db'
| ao_recover agents now n k : recover_agents agents now k db = Ok (n, db') → attempt_op operator db db'
| ao_arm_session a i b ref g input now r :
    arm_session_invocation a i b ref g input now db = Ok (r, db') → attempt_op operator db db'
| ao_complete_session a i b p input now uuid at_ms r :
    complete_session_invocation a i b p input now uuid at_ms db = Ok (r, db') →
    attempt_op operator db db'.

(** Every other operation leaves both tables alone. *)
Lemma transition_attempts operator db db' :
  transition sha256_hex operator db db' → attempts db' = attempts db ∨ attempt_op operator db db'.
Proof.
  intros Ht. destruct Ht; try (right; by econstructor).
  all: try (match goal with H : fire _ _ _ _ _ _ _ = Ok _ |- _ =>
    right; apply fire_ok in H as (row & t & app & db1 & _ & _ & _ & _ & _ & _ & _ & Happ & Hrec & _);
    eapply ao_append; [exact Happ|by eapply keeps_fire_record] end).
  all: left.
  all: match goal with H : ?m ?d = Ok (_, ?d') |- attempts ?d' = _ =>
    assert (keeps attempts m) as Hk; [|by eapply Hk] end.
  - unfold create_agent. keeps_tac. apply keeps_map_unique_conflict. keeps_tac.
  - unfold create_channel. keeps_tac. apply keeps_create_with_members.
  - apply keeps_create_with_members.
  - unfold rename_channel, channel_row. keeps_tac. apply keeps_map_unique_conflict. keeps_tac.
  - unfold archive_channel, channel_row. keeps_tac.
  - unfold open_direct_pair, open_direct_in_transaction, ensure_exists,
      ensure_direct_modes_match, insert_direct_pair, insert_member. keeps_tac.
  - unfold add_member_with_mode, channel_row, ensure_exists, insert_member. keeps_tac.
  - unfold advance_member_read_cursor, ensure_exists, ensure_member. keeps_tac.
  - apply keeps_acquire.
  - unfold record_session_opened, fenced_update. keeps_tac;
      first [apply keeps_exact_binding_row | apply keeps_binding_by_identity].
  - apply keeps_mark_session_uncertain.
  - unfold retire_session_binding, fenced_update. keeps_tac;
      first [apply keeps_exact_binding_row | apply keeps_binding_by_identity].
  - unfold insert_plugin_generation. keeps_tac. intros d u d' Hrun.
    unfold map_generation_conflict in Hrun. destruct (insert _ d) as [[? ?]|e] eqn:E.
    + injection Hrun as <- <-. by apply (keeps_insert attempts) in E.
    + by destruct e as [| | | | | | | |[]| |].
  - unfold heartbeat_plugin_generation. keeps_tac.
  - unfold retire_plugin_generation. keeps_tac.
  - unfold record_invocation_event, apply_event_fold. keeps_tac.
  - unfold record_invocation_terminal. keeps_tac.
  - unfold register_agent, insert_agent_credential. keeps_tac.
    apply keeps_map_unique_conflict. keeps_tac.
  - unfold rotate_agent_credential, insert_agent_credential. keeps_tac.
  - unfold rotate_operator_digest. keeps_tac.
  - unfold register_trigger, insert_trigger. keeps_tac. apply keeps_map_unique_conflict. keeps_tac.
  - unfold retire_trigger_transaction, retire_trigger_row, revoke_trigger_credentials. keeps_tac.
  - unfold rotate_trigger_transaction, revoke_trigger_credentials. keeps_tac.
  - unfold configure, upsert_seat, read_seat. keeps_tac.
  - unfold restart, read_seat. keeps_tac.
Qed.

Lemma transition_fenced operator db db' :
  wf db → fenced db → transition sha256_hex operator db db' → fenced db'.
Proof.
  intros Hwf Hf [Hk|Hop]%transition_attempts; [by eapply fenced_frame|]. destruct Hop as
    [?????? H Hk|????? Hfr H|???? H|???? H|????? H|??? _ H|??????? Hfr H|????? H
    |??????? H|???? H|???????? H|????????? H].
  - eapply fenced_frame; [exact Hk|]. exact (append_fenced _ _ _ _ _ _ _ Hf H).
  - exact (claim_fenced _ _ _ _ _ _ _ Hwf Hf Hfr H).
  - exact (acknowledge_fenced _ _ _ _ _ _ _ Hf H).
  - exact (retry_fenced _ _ _ _ _ _ _ Hf H).
  - exact (block_fenced _ _ _ _ _ _ _ Hf H).
  - exact (resolve_fenced _ _ _ _ _ _ Hf H).
  - exact (reserve_fenced _ _ _ _ _ _ _ _ _ Hwf Hf Hfr H).
  - exact (arm_fenced _ _ _ _ _ _ _ Hf H).
  - unfold complete_invocation in H. exact (complete_fenced _ _ _ _ _ _ _ _ _ _ Hwf Hf H).
  - exact (recover_agents_fenced _ _ _ _ _ _ Hwf Hf H).
  - exact (arm_session_fenced _ _ _ _ _ _ _ _ _ _ Hf H).
  - exact (complete_session_fenced _ _ _ _ _ _ _ _ _ _ _ Hwf Hf H).
Qed.

Lemma reachable_fenced db : reachable sha256_hex db → fenced db.
Proof.
  intros Hr. assert (wf empty_db ∧ fenced empty_db) as Hinit.
  { split; [apply wf_empty|]. by intros i ?%not_elem_of_nil. }
  enough (wf db ∧ fenced db) by tauto. revert Hinit. unfold reachable in Hr.
  induction Hr as [|d1 d2 d3 [op Ht] _ IH]; [done|]. intros [Hwf Hf]. apply IH.
  split; [by eapply transition_safe|by eapply transition_fenced].
Qed.
End transitions.
