(* ===== verification/Attempts.v ===== *)
(** * What a recorded certainty means

    [not_started] is only ever recorded for an attempt whose dispatch was never
    armed: the invariant that makes redelivery after it safe. *)

From S2P Require Import Prelude Proto Schema Channels Messages Deliveries.
From S2P Require Import SessionFence Observations Invocations Settlement Sessions.
From S2P Require Import Lifecycle Safety System Fence.

Definition certain (i : InvocationRow) : Prop :=
  i_execution_certainty i = Some ExecutionCertainty.NotStarted →
  i_dispatch_armed_at_ms i = None.

Definition all_certain (db : Db) : Prop := ∀ i, i ∈ db.(invocations) → certain i.

Lemma all_certain_frame db db' :
  db'.(invocations) = db.(invocations) → all_certain db → all_certain db'.
Proof. unfold all_certain. by intros ->. Qed.

Lemma all_certain_map db db' p f :
  db'.(invocations) = map (update_row p f) db.(invocations) →
  (∀ i, i ∈ db.(invocations) → p i = true → certain (f i)) →
  all_certain db → all_certain db'.
Proof.
  intros Hi Hp Hc i'. rewrite Hi. intros (i & Hin & ->)%elem_of_update_row.
  destruct (p i) eqn:E; auto.
Qed.

(** An attempt ended with any other certainty. *)
Lemma certain_terminal i now c r : c ≠ ExecutionCertainty.NotStarted → certain (set_terminal now c r i).
Proof. intros Hc [=]. done. Qed.

Lemma reserved_row db i :
  wf db → i ∈ db.(invocations) → i_state i = InvocationState.Reserved →
  i_dispatch_armed_at_ms i = None ∧ i_execution_certainty i = None.
Proof.
  intros Hwf Hi Hs. pose proof (checked_row db i Hwf Hi) as Hc. simpl in Hc.
  unfold check_invocation in Hc. rewrite Hs in Hc. bool_facts. unfold is_none in *. bool_facts.
  by destruct (i_dispatch_armed_at_ms i), (i_execution_certainty i).
Qed.

Lemma recover_certain a now db n db' :
  wf db → all_certain db → recover_expired_invocations_transaction a now db = Ok (n, db') →
  all_certain db'.
Proof.
  intros Hwf Hc H. unfold recover_expired_invocations_transaction in H. m_inv.
  match goal with H : terminalize_expired_reservations _ _ _ = Ok _ |- _ =>
    apply terminalize_expired_reservations_ok in H as -> end.
  assert (all_certain (set_invocations (map (update_row
    (λ i, (i_agent_id i ==? a) && (i_state i ==? InvocationState.Reserved)
          && (i_lease_expires_at_ms i <=? now)
          && existsb (expired_lease_of now i) db.(agent_deliveries))
    (set_terminal now ExecutionCertainty.NotStarted "reservation_expired_before_dispatch"))
    db.(invocations)) db)) as Hc1.
  { eapply all_certain_map; [done| |done]. intros i Hi Hp _. bool_facts. simpl.
    by destruct (reserved_row db i). }
  match goal with H : for_each ?l _ ?d = Ok _ |- _ =>
    revert H Hc1; generalize l; generalize d end.
  intros d rows. revert d. induction rows as [|[i dl] rows IH]; intros d Hrun Hd;
    cbn [for_each] in Hrun; m_inv; [done|].
  match goal with H : park_expired_armed_invocation _ _ _ _ = _ |- _ =>
    apply park_ok in H as (_ & Hi & _) end.
  eapply IH; [done|]. eapply all_certain_map; [exact Hi| |done]. intros. by apply certain_terminal.
Qed.

Section attempts.
Context `{J : SerdeJson} (sha256_hex : string → string).

Lemma arm_certain a i input now db r db' :
  wf db → all_certain db → arm_invocation_transaction a i input now db = Ok (r, db') →
  all_certain db'.
Proof.
  intros Hwf Hc [->| ->]%arm_ok; [done|]. eapply all_certain_map; [done| |done].
  intros i0 Hi0 Hp Hns. bool_facts. simpl in Hns.
  destruct (reserved_row db i0) as [_ Hn]; [done..|congruence].
Qed.

Lemma complete_certain a i input now allow uuid at_ms db r db' :
  all_certain db → complete_invocation_transaction a i input now allow uuid at_ms db = Ok (r, db') →
  all_certain db'.
Proof.
  intros Hc (i0 & d0 & m0 & _ & _ & _ & _ & _ & _ & _ & _ & _ & _ &
    [(-> & _)|(_ & _ & _ & db1 & Hins & ->)])%complete_ok; [done|].
  apply insert_message_attempts in Hins as [Hi1 _].
  eapply all_certain_map; [done| |by eapply all_certain_frame]. by intros ??? [=].
Qed.

(** A settlement whose certainty is not [not_started]. *)
Lemma terminalize_certain a m t c r now db u db' :
  c ≠ ExecutionCertainty.NotStarted → all_certain db →
  terminalize_invocation a m t c r now db = Ok (u, db') → all_certain db'.
Proof.
  intros Hne Hc ->%terminalize_invocation_ok. eapply all_certain_map; [done| |done].
  intros. by apply certain_terminal.
Qed.

Lemma live_under_lease_elem a m t db i :
  i ∈ live_under_lease a m t db ↔
  i ∈ db.(invocations) ∧ i_agent_id i = a ∧ i_lease_token i = t ∧ live i
  ∧ ∃ msg, msg ∈ db.(messages) ∧ m_id msg = m ∧ m_seq msg = i_message_seq i.
Proof.
  unfold live_under_lease. rewrite list_elem_of_In, in_map_iff. split.
  - intros ([i0 msg] & <- & Hin). apply list_elem_of_In, elem_of_list_filter in Hin as [Hp Hj].
    apply elem_of_join in Hj as (? & ? & ?). bool_facts. simpl in *. eauto 10.
  - intros (Hi & Ha & Ht & Hl & msg & Hm & Hid & Hseq). exists (i, msg). split; [done|].
    apply list_elem_of_In, elem_of_list_filter. simpl.
    rewrite !bool_decide_true, bool_decide_false by done. split; [done|].
    apply elem_of_join. by rewrite bool_decide_true.
Qed.

Lemma seq_of_message_id_some ms m seq :
  seq_of_message_id ms m = Some seq → ∃ msg, msg ∈ ms ∧ m_id msg = m ∧ m_seq msg = seq.
Proof.
  unfold seq_of_message_id. intros (msg & Hf & ->)%fmap_Some.
  apply find_some_elem in Hf as [? ?]. bool_facts. eauto.
Qed.

Lemma live_attempt_elem a m t db i :
  i ∈ db.(invocations) → live_attempt db.(messages) a m t i = true →
  i ∈ live_under_lease a m t db.
Proof.
  unfold live_attempt. intros Hi H. bool_facts. apply live_under_lease_elem.
  destruct (seq_of_message_id_some (messages db) m (i_message_seq i)) as (msg & ? & ? & ?); [done|].
  eauto 10.
Qed.

Lemma message_id_unique db m1 m2 :
  wf db → m1 ∈ db.(messages) → m2 ∈ db.(messages) → m_id m1 = m_id m2 → m1 = m2.
Proof.
  intros Hwf H1 H2 Hid. destruct (wf_messages db Hwf) as [Hu _].
  eapply no_conflict_eq; [exact Hu|done..|]. simpl. unfold conflict_message.
  by rewrite (bool_decide_true (m_id m1 = m_id m2)), orb_true_r.
Qed.

(** At most one attempt is live under a lease of a message. *)
Lemma live_under_lease_unique a m t db i1 i2 :
  wf db → fenced db → i1 ∈ live_under_lease a m t db → i2 ∈ live_under_lease a m t db → i1 = i2.
Proof.
  intros Hwf Hf (H1 & A1 & _ & L1 & m1 & M1 & I1 & S1)%live_under_lease_elem
    (H2 & A2 & _ & L2 & m2 & M2 & I2 & S2)%live_under_lease_elem.
  assert (m1 = m2) as -> by (eapply message_id_unique; eauto; congruence).
  eapply live_same_key; eauto; congruence.
Qed.

(** Under a fenced state the retry guard covers every live attempt. *)
Lemma retry_live_reserved a m t db db' u i :
  wf db → fenced db → ensure_retry_is_safe a m t db = Ok (u, db') →
  i ∈ live_under_lease a m t db → db' = db ∧ i_state i = InvocationState.Reserved.
Proof.
  intros Hwf Hf H Hi. unfold ensure_retry_is_safe in H. m_inv. split; [done|].
  destruct (live_under_lease a m t db) as [|i0 l] eqn:E; [by apply not_elem_of_nil in Hi|].
  assert (i0 = i) as ->.
  { eapply (live_under_lease_unique a m t db); rewrite ?E; [done|done|set_solver|done]. }
  simpl in H. bool_facts. assert (i ∈ live_under_lease a m t db) as Hl by (rewrite E; set_solver).
  apply live_under_lease_elem in Hl as (_ & _ & _ & Hlive & _). unfold live in Hlive.
  destruct (i_state i); congruence.
Qed.

Lemma retry_certain a m input now db u db' :
  wf db → fenced db → all_certain db → retry_delivery a m input now db = Ok (u, db') →
  all_certain db'.
Proof.
  intros Hwf Hf Hc H. unfold retry_delivery in H. m_inv.
  match goal with H : ensure_retry_is_safe _ _ _ _ = Ok _ |- _ => rename H into Hsafe end.
  assert (Hres := λ i, retry_live_reserved _ _ _ _ _ _ i Hwf Hf Hsafe).
  match goal with H : or_rollback _ _ _ ?d = Ok _ |- _ =>
    assert (d = db) as -> by (unfold ensure_retry_is_safe in Hsafe; by m_inv) end.
  apply or_rollback_ok in H as [(db1 & Hmark & Hterm)|(db1 & _ & Hmiss)];
    [|by apply settle_miss_reads in Hmiss as ->].
  apply update_leased_row_ok in Hmark as [-> _]. apply terminalize_invocation_ok in Hterm as ->.
  eapply (all_certain_map db); [done| |done]. simpl. intros i Hi Hp _. simpl.
  apply live_attempt_elem in Hp; [|done]. apply Hres in Hp as [_ Hp].
  by destruct (reserved_row db i).
Qed.

Lemma append_certain c input uuid at_ms db r db' :
  all_certain db → append_message_in_transaction c input uuid at_ms db = Ok (r, db') →
  all_certain db'.
Proof.
  intros Hc H. unfold append_message_in_transaction in H. m_inv.
  match goal with H : (match cm_idempotency_key input with _ => _ end) db = Ok (_, ?d) |- _ =>
    assert (d = db) as -> by (destruct (cm_idempotency_key input); by m_inv) end.
  match type of H with (match ?x with _ => _ end) _ = _ => destruct x end; m_inv; [done|].
  match goal with H : insert_message _ _ _ _ _ = Ok _ |- _ =>
    apply insert_message_attempts in H as [? _] end. by eapply all_certain_frame.
Qed.

Lemma claim_certain a input now token db batch db' :
  wf db → all_certain db → claim_deliveries a input now token db = Ok (batch, db') →
  all_certain db'.
Proof.
  intros Hwf Hc H. unfold claim_deliveries, ensure_agent, ensure_exists, leased_batch in H. m_inv.
  match goal with H : recover_expired_invocations_transaction _ _ _ = _ |- _ =>
    apply recover_certain in H; [|done..] end.
  match goal with H : lease_claimable _ _ _ _ _ _ _ = Ok _ |- _ =>
    by apply lease_claimable_ok in H as -> end.
Qed.

Lemma acknowledge_certain a m token now db u db' :
  all_certain db → acknowledge_delivery a m token now db = Ok (u, db') → all_certain db'.
Proof.
  intros Hc H. unfold acknowledge_delivery in H. m_inv.
  apply or_rollback_ok in H as [(db1 & Hmark & Hterm)|(db1 & _ & Hmiss)];
    [|by apply settle_miss_reads in Hmiss as ->].
  apply update_leased_row_ok in Hmark as [-> _]. by eapply terminalize_certain in Hterm.
Qed.

Lemma block_certain a m input now db r db' :
  all_certain db → block_delivery a m input now db = Ok (r, db') → all_certain db'.
Proof.
  intros Hc H. unfold block_delivery in H. m_inv.
  apply or_rollback_ok in H as [(db1 & Hmark & Hrest)|(db1 & _ & Hmiss)].
  - m_inv. apply update_leased_row_ok in Hmark as [-> _].
    match goal with H : blocked_delivery_by_id _ _ = Ok _ |- _ =>
      apply (keeps_blocked_delivery_by_id invocations) in H end.
    match goal with H : insert_block_record _ _ _ _ _ = Ok _ |- _ =>
      apply (keeps_insert_block_record invocations) in H; [|done..] end.
    eapply all_certain_frame; [done|]. eapply terminalize_certain; [..|done]; [done|].
    by eapply all_certain_frame.
  - eapply all_certain_frame; [|done]. revert Hmiss.
    match goal with |- ?m db = _ → _ => enough (keeps invocations m) as Hk by apply Hk end.
    keeps_tac; [apply keeps_blocked_delivery_by_lease|apply keeps_settle_miss].
Qed.

Lemma resolve_certain id input now db u db' :
  all_certain db → resolve_delivery_block id input now db = Ok (u, db') → all_certain db'.
Proof.
  intros Hc H. unfold resolve_delivery_block in H. m_inv.
  match goal with H : retire_uncertain_session_for_delivery_block _ _ _ _ = Ok _ |- _ =>
    apply keeps_retire_for_block in H as [= ? _] end.
  match goal with H : resolve_delivery_block_transaction _ _ _ _ = Ok _ |- _ =>
    apply resolve_transaction_ok in H as (_ & _ & _ & ? & _) end.
  eapply all_certain_frame; [|done]. congruence.
Qed.

Lemma reserve_certain a input kinds now token uuids db invs db' :
  wf db → all_certain db →
  reserve_invocations_filtered a input kinds now token uuids db = Ok (invs, db') →
  all_certain db'.
Proof.
  intros Hwf Hc H. unfold reserve_invocations_filtered, ensure_agent, ensure_exists in H. m_inv.
  match goal with H : recover_expired_invocations_transaction _ _ _ = _ |- _ =>
    apply recover_certain in H; [|done..]; rename H into Hrec end.
  match goal with H : lease_claimable _ _ _ _ _ _ _ = Ok _ |- _ =>
    apply lease_claimable_ok in H as -> end.
  match goal with H : reserve_rows _ _ _ _ _ _ _ _ = Ok _ |- _ =>
    apply reserve_rows_ok in H as [_ Hi] end.
  intros i [Hin|(r & id & fence & _ & ->)]%Hi; [by apply Hrec|by intros [=]].
Qed.

Lemma recover_agents_certain agents now k db n db' :
  wf db → fenced db → all_certain db → recover_agents agents now k db = Ok (n, db') →
  all_certain db'.
Proof.
  revert k db. induction agents as [|a agents IH]; intros k db Hwf Hf Hc H;
    simpl in H; m_inv; [done|].
  match goal with H : recover_expired_invocations_transaction _ _ _ = _ |- _ =>
    pose proof (recover_certain _ _ _ _ _ Hwf Hc H);
    apply recover_spec in H as (? & ? & _); [|done..] end. eauto.
Qed.

Lemma arm_session_certain a i b ref g input now db r db' :
  wf db → all_certain db → arm_session_invocation a i b ref g input now db = Ok (r, db') →
  all_certain db'.
Proof.
  intros Hwf Hc H. unfold arm_session_invocation in H. m_inv.
  repeat match goal with
  | H : binding_by_identity _ _ _ = Ok _ |- _ => apply (keeps_binding_by_identity invocations) in H
  | H : begin_invocation_observation _ _ _ _ _ _ = Ok _ |- _ =>
      apply keeps_begin_observation in H as [= ? _]
  | H : activate_binding_turn _ _ _ _ _ = Ok _ |- _ => apply keeps_activate_turn in H as [= ? _]
  | H : exact_binding_row _ _ _ = Ok _ |- _ =>
      apply (keeps_exact_binding_row (λ d, d)) in H; simpl in H; subst
  end.
  match goal with H : arm_invocation_transaction _ _ _ _ _ = Ok _ |- _ =>
    apply arm_certain in H; [|done..] end. eapply all_certain_frame; [|done]. congruence.
Qed.

Lemma complete_session_certain a i b p input now uuid at_ms db r db' :
  all_certain db → complete_session_invocation a i b p input now uuid at_ms db = Ok (r, db') →
  all_certain db'.
Proof.
  intros Hc H. unfold complete_session_invocation in H. m_inv.
  match goal with H : validate_bound_turn _ _ _ _ _ = Ok _ |- _ =>
    apply (keeps_validate_bound_turn (λ d, d)) in H; simpl in H; subst end.
  match goal with H : settle_quiescent_turn _ _ _ _ _ _ = Ok _ |- _ =>
    apply keeps_settle_quiescent in H as [= ? _] end.
  eapply all_certain_frame; [done|]. by eapply complete_certain.
Qed.

Lemma transition_certain operator db db' :
  wf db → fenced db → all_certain db → transition sha256_hex operator db db' → all_certain db'.
Proof.
  intros Hwf Hf Hc [[= Hi _]|Hop]%transition_attempts; [by eapply all_certain_frame|].
  destruct Hop as
    [?????? H [= Hk _]|????? Hfr H|???? H|???? H|????? H|??? _ H|??????? Hfr H|????? H
    |??????? H|???? H|???????? H|????????? H].
  - eapply all_certain_frame; [exact Hk|]. exact (append_certain _ _ _ _ _ _ _ Hc H).
  - exact (claim_certain _ _ _ _ _ _ _ Hwf Hc H).
  - exact (acknowledge_certain _ _ _ _ _ _ _ Hc H).
  - exact (retry_certain _ _ _ _ _ _ _ Hwf Hf Hc H).
  - exact (block_certain _ _ _ _ _ _ _ Hc H).
  - exact (resolve_certain _ _ _ _ _ _ Hc H).
  - exact (reserve_certain _ _ _ _ _ _ _ _ _ Hwf Hc H).
  - exact (arm_certain _ _ _ _ _ _ _ Hwf Hc H).
  - unfold complete_invocation in H. exact (complete_certain _ _ _ _ _ _ _ _ _ _ Hc H).
  - exact (recover_agents_certain _ _ _ _ _ _ Hwf Hf Hc H).
  - exact (arm_session_certain _ _ _ _ _ _ _ _ _ _ Hwf Hc H).
  - exact (complete_session_certain _ _ _ _ _ _ _ _ _ _ _ Hc H).
Qed.

Lemma reachable_certain db : reachable sha256_hex db → all_certain db.
Proof.
  intros Hr. assert (wf empty_db ∧ fenced empty_db ∧ all_certain empty_db) as Hinit.
  { split; [apply wf_empty|]. split; by intros i ?%not_elem_of_nil. }
  enough (wf db ∧ fenced db ∧ all_certain db) by tauto. revert Hinit. unfold reachable in Hr.
  induction Hr as [|d1 d2 d3 [op Ht] _ IH]; [done|]. intros (Hwf & Hf & Hc). apply IH.
  split_and!; [by eapply transition_safe|by eapply transition_fenced|by eapply transition_certain].
Qed.
End attempts.
