(* ===== verification/AtMostOnce.v ===== *)
(** * An armed attempt is the last one at its message

    Once an attempt has been armed, either it is still live or its delivery has
    left the queue; without an operator's decision neither changes back.  So no
    other attempt at the same message can be armed, ever. *)

From S2P Require Import Prelude Proto Schema Channels Messages Deliveries.
From S2P Require Import SessionFence Observations Invocations Settlement Sessions.
From S2P Require Import Triggers Auth Seats Lifecycle Safety System Fence Attempts.

(** The delivery has left the queue. *)
Definition closed_row (d : DeliveryRow) : Prop :=
  d_state d = DeliveryState.Blocked ∨ d_state d = DeliveryState.Acknowledged
  ∨ d_state d = DeliveryState.Dead.
Definition key_closed (agent_id : string) (seq : Z) (db : Db) : Prop :=
  ∃ d, d ∈ db.(agent_deliveries) ∧ d_message_seq d = seq ∧ d_agent_id d = agent_id
       ∧ closed_row d.
(** Attempt [x] at the message was armed, and it is the last one. *)
Definition spent (agent_id : string) (seq : Z) (x : string) (db : Db) : Prop :=
  ∃ i, i ∈ db.(invocations) ∧ i_id i = x ∧ i_agent_id i = agent_id ∧ i_message_seq i = seq
       ∧ i_dispatch_armed_at_ms i ≠ None ∧ (armed i ∨ key_closed agent_id seq db).

Lemma closed_stuck d d' : closed_row d → moves false d d' → d' = d.
Proof.
  intros Hc. induction 1 as [|d1 d2 d3 Hs _ IH]; [done|].
  exfalso. unfold closed_row in Hc. destruct Hs; intuition congruence.
Qed.
Lemma key_closed_evolves a s db db' : evolves false db db' → key_closed a s db → key_closed a s db'.
Proof.
  intros He (d & Hd & Hs & Ha & Hc).
  destruct (table_rel_elem _ _ _ _ (ev_deliveries _ _ _ He) Hd) as (d' & Hd' & Hm).
  apply closed_stuck in Hm as ->; [|done]. by exists d.
Qed.
Lemma parked_closed db i : parked db i → key_closed (i_agent_id i) (i_message_seq i) db.
Proof. intros (d & Hd & Hs & Ha & Hb). exists d. split_and!; try done. by left. Qed.

(** ** An armed attempt stays until its delivery leaves the queue *)

Definition stays (db db' : Db) (i : InvocationRow) : Prop :=
  i ∈ db'.(invocations) ∨ key_closed (i_agent_id i) (i_message_seq i) db'.

Lemma armed_live i : armed i → live i.
Proof. unfold armed, live. congruence. Qed.

(** The row that a settlement by message moved is the one an attempt under the
    same lease owns. *)
Lemma settled_closed db db1 row set i m :
  update_leased_row row set db = Ok (true, db1) →
  wf db → fenced db → i ∈ db.(invocations) → live i → i_agent_id i = lr_agent_id row →
  lr_key row = KeyMessageId m → seq_of_message_id db.(messages) m = Some (i_message_seq i) →
  (∀ d, closed_row (set d) ∧ d_message_seq (set d) = d_message_seq d
        ∧ d_agent_id (set d) = d_agent_id d) →
  key_closed (i_agent_id i) (i_message_seq i) db1.
Proof.
  intros [-> Hmoved]%update_leased_row_ok Hwf Hf Hi Hl Ha Hk Hm Hset.
  destruct (Hmoved eq_refl) as (d & Hd & Hmatch). destruct (Hf i Hi Hl) as (d0 & Hd0 & Ho).
  pose proof (leased_row_matches_ok _ _ _ Hmatch) as (_ & _ & Hda & Hdk & _).
  rewrite Hk in Hdk. simpl in Hdk. bool_facts. destruct Ho as (Hs0 & Ha0 & _).
  assert (d = d0) as -> by (eapply (delivery_key_unique db); eauto; congruence).
  destruct (Hset d0) as (Hc & Hs & Hag). exists (set d0). simpl. split_and!; try congruence.
  apply elem_of_update_row. exists d0. by rewrite Hmatch.
Qed.

Section attempts.
Context `{J : SerdeJson} (sha256_hex : string → string).

Lemma terminalize_stays a m t c r now db u db' i :
  i ∈ db.(invocations) → terminalize_invocation a m t c r now db = Ok (u, db') →
  i ∈ db'.(invocations)
  ∨ i_agent_id i = a ∧ seq_of_message_id db.(messages) m = Some (i_message_seq i).
Proof.
  intros Hi ->%terminalize_invocation_ok. simpl.
  destruct (live_attempt db.(messages) a m t i) eqn:Hl; [right|left].
  - unfold live_attempt in Hl. by bool_facts.
  - apply elem_of_update_row. exists i. by rewrite Hl.
Qed.

Lemma acknowledge_stays a m token now db u db' i :
  wf db → fenced db → i ∈ db.(invocations) → armed i →
  acknowledge_delivery a m token now db = Ok (u, db') → stays db db' i.
Proof.
  intros Hwf Hf Hi Harm H. unfold acknowledge_delivery in H. m_inv.
  apply or_rollback_ok in H as [(db1 & Hmark & Hterm)|(db1 & _ & Hmiss)];
    [|left; by apply settle_miss_reads in Hmiss as ->].
  pose proof Hmark as Hmark'. apply update_leased_row_ok in Hmark' as [Hdb1 _].
  assert (i ∈ db1.(invocations)) as Hi1 by (by rewrite Hdb1).
  destruct (terminalize_stays _ _ _ _ _ _ _ _ _ _ Hi1 Hterm) as [Hin|[Ha Hm]]; [by left|right].
  assert (key_closed (i_agent_id i) (i_message_seq i) db1) as (d & Hd & ?).
  { refine (settled_closed _ _ _ _ _ m Hmark Hwf Hf Hi (armed_live _ Harm) Ha eq_refl _ _).
    - by rewrite Hdb1 in Hm.
    - intros d. split_and!; try done. right. by left. }
  apply terminalize_invocation_ok in Hterm as ->. by exists d.
Qed.

Lemma block_stays a m input now db r db' i :
  wf db → fenced db → i ∈ db.(invocations) → armed i →
  block_delivery a m input now db = Ok (r, db') → stays db db' i.
Proof.
  intros Hwf Hf Hi Harm H. unfold block_delivery in H. m_inv.
  apply or_rollback_ok in H as [(db1 & Hmark & Hrest)|(db1 & _ & Hmiss)].
  - m_inv. pose proof Hmark as Hmark'. apply update_leased_row_ok in Hmark' as [Hdb1 _].
    match goal with H : insert_block_record _ _ _ _ _ = Ok (_, ?d) |- _ =>
      assert (attempts d = attempts db1) as [= Hki Hkd] by (by eapply keeps_insert_block_record);
      assert (d.(messages) = db1.(messages)) as Hkm
        by (by eapply (keeps_insert_block_record messages));
      rename d into dba end.
    match goal with H : terminalize_invocation _ _ _ _ _ _ _ = Ok (_, ?d) |- _ =>
      rename H into Hterm, d into dbb end.
    match goal with H : blocked_delivery_by_id _ _ = Ok _ |- _ =>
      apply (keeps_blocked_delivery_by_id attempts) in H as [= Hbi Hbd] end.
    assert (i ∈ dba.(invocations)) as Hi2 by (by rewrite Hki, Hdb1).
    destruct (terminalize_stays _ _ _ _ _ _ _ _ _ _ Hi2 Hterm) as [Hin|[Ha Hm]].
    + left. by rewrite Hbi.
    + right. assert (key_closed (i_agent_id i) (i_message_seq i) db1) as (d & Hd & ?).
      { refine (settled_closed _ _ _ _ _ m Hmark Hwf Hf Hi (armed_live _ Harm) Ha eq_refl _ _).
        - by rewrite Hkm, Hdb1 in Hm.
        - intros d. split_and!; try done. by left. }
      apply terminalize_invocation_ok in Hterm as ->. exists d.
      rewrite Hbd. simpl. by rewrite Hkd.
  - left. revert Hmiss.
    match goal with |- ?m db = _ → _ => assert (keeps attempts m) as Hk end.
    { keeps_tac; [apply keeps_blocked_delivery_by_lease|apply keeps_settle_miss]. }
    intros [= -> _]%Hk. done.
Qed.

Lemma retry_stays a m input now db u db' i :
  wf db → fenced db → i ∈ db.(invocations) → armed i →
  retry_delivery a m input now db = Ok (u, db') → stays db db' i.
Proof.
  intros Hwf Hf Hi Harm H. left. unfold retry_delivery in H. m_inv.
  match goal with H : ensure_retry_is_safe _ _ _ _ = Ok _ |- _ => rename H into Hsafe end.
  pose proof (retry_live_reserved sha256_hex _ _ _ _ _ _ i Hwf Hf Hsafe) as Hres.
  match goal with H : or_rollback _ _ _ ?d = Ok _ |- _ =>
    assert (d = db) as -> by (unfold ensure_retry_is_safe in Hsafe; by m_inv) end.
  apply or_rollback_ok in H as [(db1 & Hmark & Hterm)|(db1 & _ & Hmiss)];
    [|by apply settle_miss_reads in Hmiss as ->].
  apply update_leased_row_ok in Hmark as [-> _]. apply terminalize_invocation_ok in Hterm as ->.
  simpl. apply elem_of_update_row. exists i. split; [done|].
  destruct (live_attempt _ _ _ _ _) eqn:Hl; [|done]. exfalso.
  apply live_attempt_elem in Hl; [|done]. apply Hres in Hl as [_ Hl]. unfold armed in Harm. congruence.
Qed.

Lemma append_stays c input uuid at_ms db r db' i :
  i ∈ db.(invocations) → append_message_in_transaction c input uuid at_ms db = Ok (r, db') →
  i ∈ db'.(invocations).
Proof.
  intros Hi H. unfold append_message_in_transaction in H. m_inv.
  match goal with H : (match cm_idempotency_key input with _ => _ end) db = Ok (_, ?d) |- _ =>
    assert (d = db) as -> by (destruct (cm_idempotency_key input); by m_inv) end.
  match type of H with (match ?x with _ => _ end) _ = _ => destruct x end; m_inv; [done|].
  match goal with H : insert_message _ _ _ _ _ = Ok _ |- _ =>
    apply insert_message_attempts in H as [-> _] end. done.
Qed.

(** A claim or reservation parks what it does not keep. *)
Lemma recovered_stays a now db n db1 i :
  wf db → fenced db → recover_expired_invocations_transaction a now db = Ok (n, db1) →
  i ∈ db.(invocations) → armed i → stays db db1 i.
Proof.
  intros Hwf Hf Hrec Hi Harm.
  destruct (recover_spec _ _ _ _ _ Hwf Hf Hrec) as (_ & _ & _ & Hend).
  destruct (Hend i Hi Harm) as [|Hp%parked_closed]; [by left|by right].
Qed.
Lemma leased_stays a t e now lim kinds db u db' db0 i :
  wf db → lease_claimable a t e now lim kinds db = Ok (u, db') → stays db0 db i → stays db0 db' i.
Proof.
  intros Hwf Hl [Hi|Hc]; [left|right].
  - by apply lease_claimable_ok in Hl as ->.
  - eapply key_closed_evolves; [|exact Hc]. by eapply safe_lease_claimable.
Qed.
Lemma claim_stays a input now token db batch db' i :
  wf db → fenced db → i ∈ db.(invocations) → armed i →
  claim_deliveries a input now token db = Ok (batch, db') → stays db db' i.
Proof.
  intros Hwf Hf Hi Harm H. unfold claim_deliveries, ensure_agent, ensure_exists, leased_batch in H.
  m_inv.
  match goal with H : recover_expired_invocations_transaction _ _ _ = _ |- _ =>
    pose proof (recover_spec _ _ _ _ _ Hwf Hf H) as (Hwf1 & _);
    eapply recovered_stays in H; [|done..] end.
  by eapply leased_stays.
Qed.
Lemma reserve_rows_keep rows a t e now uuids k db invs db' i :
  reserve_rows rows a t e now uuids k db = Ok (invs, db') → i ∈ db.(invocations) →
  i ∈ db'.(invocations).
Proof.
  revert k db invs. induction rows as [|[d m] rows IH]; intros k db invs Hrun Hi;
    simpl in Hrun; unfold reserve_row in Hrun; m_inv; [done|].
  match goal with H : insert _ _ = Ok _ |- _ => apply insert_ok in H as (_ & _ & _ & _ & ->) end.
  eapply IH; [done|]. simpl. apply elem_of_app. by left.
Qed.
Lemma reserve_stays a input kinds now token uuids db invs db' i :
  wf db → fenced db → i ∈ db.(invocations) → armed i →
  reserve_invocations_filtered a input kinds now token uuids db = Ok (invs, db') → stays db db' i.
Proof.
  intros Hwf Hf Hi Harm H. unfold reserve_invocations_filtered, ensure_agent, ensure_exists in H.
  m_inv.
  match goal with H : recover_expired_invocations_transaction _ _ _ = _ |- _ =>
    pose proof (recover_spec _ _ _ _ _ Hwf Hf H) as (Hwf1 & _);
    eapply recovered_stays in H; [|done..] end.
  match goal with H : lease_claimable _ _ _ _ _ _ _ = _ |- _ =>
    eapply leased_stays in H; [|done..] end.
  match goal with H : reserve_rows _ _ _ _ _ _ _ _ = Ok _, Hs : stays _ _ _ |- _ =>
    destruct Hs as [Hin|(d & Hd & Hc)]; [left; by eapply reserve_rows_keep|right];
    apply reserve_rows_ok in H as [Heq _] end.
  exists d. by rewrite Heq.
Qed.

Lemma arm_stays a x input now db r db' i :
  i ∈ db.(invocations) → armed i → arm_invocation_transaction a x input now db = Ok (r, db') →
  i ∈ db'.(invocations).
Proof.
  intros Hi Harm [->| ->]%arm_ok; [done|]. simpl. apply elem_of_update_row. exists i.
  split; [done|]. unfold armed in Harm. by rewrite Harm, andb_false_r.
Qed.

Lemma complete_stays a x input now allow uuid at_ms db r db' i :
  wf db → fenced db → i ∈ db.(invocations) → armed i →
  complete_invocation_transaction a x input now allow uuid at_ms db = Ok (r, db') → stays db db' i.
Proof.
  intros Hwf Hf Hi Harm (i0 & d0 & m0 & Hi0 & Hd0 & _ & Hid & Hag & Hs0 & Ha0 & _ & Htok & _ &
    [(-> & _)|(Harm0 & _ & Hlive & db1 & Hins & ->)])%complete_ok; [by left|].
  apply insert_message_attempts in Hins as [Hi1 Hd1].
  destruct (decide (i_id i = i_id i0)) as [Heq|Hne].
  - assert (i = i0) as -> by (by eapply invocation_id_unique). right.
    destruct (Hf i0 Hi0 (armed_live _ Harm0)) as (d & Hd & Ho).
    exists (settle_acknowledged (complete_lease_token input) now d). simpl.
    pose proof Ho as (Hs & Ha & Hl & Ht & He & _).
    split_and!; [|congruence|congruence|right; by left].
    apply elem_of_update_row. exists d. split; [by apply Hd1|].
    assert (leased_row_matches db1.(messages)
      {| lr_key := KeySeq (i_message_seq i0); lr_agent_id := a;
         lr_lease_token := complete_lease_token input; lr_window := Live; lr_now := now |} d = true)
      as ->; [|done].
    unfold leased_row_matches. simpl. rewrite Hl, Ha, Hs, Ht, Htok, Hag, !bool_decide_true by done.
    assert (d = d0) as -> by (eapply (delivery_key_unique db); eauto; congruence).
    unfold validate_live_lease in Hlive. m_inv. bool_facts.
    unfold window_matches. simpl. rewrite He. by apply Z.ltb_lt.
  - left. simpl. apply elem_of_update_row. exists i. rewrite Hi1. split; [done|].
    by rewrite bool_decide_false by congruence.
Qed.

(** Session operations change no attempt beyond the arm or completion inside. *)
Lemma arm_session_attempts a x b ref g input now db r db' :
  arm_session_invocation a x b ref g input now db = Ok (r, db') →
  ∃ r1 db1, arm_invocation_transaction a x input now db = Ok (r1, db1)
            ∧ attempts db' = attempts db1.
Proof.
  intros H. unfold arm_session_invocation in H. m_inv.
  repeat match goal with
  | H : binding_by_identity _ _ _ = Ok _ |- _ => apply (keeps_binding_by_identity attempts) in H
  | H : begin_invocation_observation _ _ _ _ _ _ = Ok _ |- _ => apply keeps_begin_observation in H
  | H : activate_binding_turn _ _ _ _ _ = Ok _ |- _ => apply keeps_activate_turn in H
  | H : exact_binding_row _ _ _ = Ok _ |- _ =>
      apply (keeps_exact_binding_row (λ d, d)) in H; simpl in H; subst
  end.
  eexists _, _. split; [done|congruence].
Qed.
Lemma complete_session_attempts a x b p input now uuid at_ms db r db' :
  complete_session_invocation a x b p input now uuid at_ms db = Ok (r, db') →
  ∃ r1 db1, complete_invocation_transaction a x input now true uuid at_ms db = Ok (r1, db1)
            ∧ attempts db' = attempts db1.
Proof.
  intros H. unfold complete_session_invocation in H. m_inv.
  match goal with H : validate_bound_turn _ _ _ _ _ = Ok _ |- _ =>
    apply (keeps_validate_bound_turn (λ d, d)) in H; simpl in H; subst end.
  match goal with H : settle_quiescent_turn _ _ _ _ _ _ = Ok _ |- _ =>
    apply keeps_settle_quiescent in H end.
  eexists _, _. split; [done|congruence].
Qed.
Lemma stays_frame db db1 db2 i : attempts db2 = attempts db1 → stays db db1 i → stays db db2 i.
Proof. intros [= Hi Hd]. unfold stays, key_closed. by rewrite Hi, Hd. Qed.

(** Recovery over several agents parks or keeps every armed attempt. *)
Lemma recover_agents_stays agents now k db n db' i :
  wf db → fenced db → i ∈ db.(invocations) → armed i →
  recover_agents agents now k db = Ok (n, db') → stays db db' i.
Proof.
  intros Hwf Hf Hi Harm H. unfold stays.
  assert (∀ a s, key_closed a s db → key_closed a s db') as Hclosed.
  { intros a s. apply key_closed_evolves. by eapply (safe_recover_agents false). }
  revert k db Hwf Hf Hi H Hclosed. induction agents as [|a agents IH];
    intros k db Hwf Hf Hi H Hclosed; simpl in H; m_inv; [by left|].
  match goal with H : recover_expired_invocations_transaction _ _ _ = Ok (_, ?d) |- _ =>
    pose proof (recover_spec _ _ _ _ _ Hwf Hf H) as (Hwf1 & Hf1 & _);
    pose proof (recovered_stays _ _ _ _ _ _ Hwf Hf H Hi Harm) as Hs; rename d into db1 end.
  match goal with H : recover_agents _ _ _ _ = _ |- _ => rename H into Hrest end.
  assert (∀ a s, key_closed a s db1 → key_closed a s db') as Hclosed1.
  { intros a' s. apply key_closed_evolves. by eapply (safe_recover_agents false). }
  destruct Hs as [Hi1|Hc]; [by eapply IH|right; by apply Hclosed1].
Qed.

(** Without an operator's decision, an armed attempt keeps its row until its
    delivery has left the queue. *)
Lemma transition_stays db db' i :
  wf db → fenced db → transition sha256_hex false db db' →
  i ∈ db.(invocations) → armed i → stays db db' i.
Proof.
  intros Hwf Hf Ht Hi Harm.
  destruct (transition_attempts _ _ _ _ Ht) as [[= Heq _]|Hop]; [left; by rewrite Heq|].
  destruct Hop as
    [?????? H [= Hk _]|????? Hfr H|???? H|???? H|????? H|??? Hop H|??????? Hfr H|????? H
    |??????? H|???? H|???????? H|????????? H].
  - left. rewrite Hk. by eapply append_stays.
  - by eapply claim_stays.
  - by eapply acknowledge_stays.
  - by eapply retry_stays.
  - by eapply block_stays.
  - done.
  - by eapply reserve_stays.
  - left. by eapply arm_stays.
  - by eapply complete_stays.
  - by eapply recover_agents_stays.
  - apply arm_session_attempts in H as (r1 & db1 & Ha & Hk).
    eapply stays_frame; [done|]. left. by eapply arm_stays.
  - apply complete_session_attempts in H as (r1 & db1 & Hc & Hk).
    eapply stays_frame; [done|]. by eapply complete_stays.
Qed.

Lemma spent_transition a s x db db' :
  wf db → fenced db → transition sha256_hex false db db' → spent a s x db → spent a s x db'.
Proof.
  intros Hwf Hf Ht (i & Hi & Hid & Ha & Hs & Harm & Hend).
  destruct (transition_safe _ _ _ _ Hwf Ht) as [Hwf' He].
  destruct (table_rel_elem _ _ _ _ (ev_invocations _ _ _ He) Hi) as (i' & Hi' & Hm).
  assert (i_id i' = i_id i ∧ i_agent_id i' = i_agent_id i ∧ i_message_seq i' = i_message_seq i
          ∧ i_dispatch_armed_at_ms i' ≠ None) as (Hid' & Ha' & Hs' & Harm').
  { clear -Hm Harm. induction Hm as [|i1 i2 i3 Hstep _ IH]; [done|].
    destruct Hstep; simpl in *; destruct IH as (? & ? & ? & ?); try done; auto. }
  exists i'. split_and!; try congruence.
  destruct Hend as [Hlive|Hc]; [|right; by eapply key_closed_evolves].
  destruct (transition_stays _ _ i Hwf Hf Ht Hi Hlive) as [Hin|Hc]; [left|right; congruence].
  assert (i' = i) as -> by (by eapply (invocation_id_unique db')). done.
Qed.

Lemma spent_run a s x db db' :
  reachable sha256_hex db → worker_run sha256_hex db db' → spent a s x db → spent a s x db'.
Proof.
  intros Hr Hrun. induction Hrun as [|d1 d2 d3 Ht _ IH]; [done|].
  intros Hs. apply IH.
  - eapply reachable_run; [done|]. apply rtc_once. by exists false.
  - eapply spent_transition; [by eapply reachable_wf|by eapply reachable_fenced|done|done].
Qed.

(** A live attempt at a message whose last attempt was armed is that attempt. *)
Lemma spent_live a s x db i :
  reachable sha256_hex db → spent a s x db → i ∈ db.(invocations) → live i →
  i_agent_id i = a → i_message_seq i = s → i_id i = x.
Proof.
  intros Hr (i0 & Hi0 & <- & Ha0 & Hs0 & _ & Hend) Hi Hl Ha Hs.
  pose proof (reachable_wf _ _ Hr) as Hwf. pose proof (reachable_fenced _ _ Hr) as Hf.
  destruct Hend as [Harm|(d & Hd & Hds & Hda & Hc)].
  - f_equal. eapply live_same_key; eauto using armed_live; congruence.
  - exfalso. destruct (Hf i Hi Hl) as (d0 & Hd0 & Hs1 & Ha1 & Hl1 & _).
    assert (d0 = d) as -> by (eapply (delivery_key_unique db); eauto; congruence).
    unfold closed_row in Hc. rewrite Hl1 in Hc. naive_solver.
Qed.
End attempts.
