(* ===== verification/Preserve.v ===== *)
(** * Preserved invariants

    [preserves I m]: a committed run of [m] keeps the state invariant [I].
    [preserves_tac] walks the program of an operation, unfolding it as it goes,
    and leaves the statements that write a table [I] reads. *)

From S2P Require Import Prelude Proto Schema Channels Messages Deliveries.
From S2P Require Import SessionFence Observations Invocations Settlement Sessions.
From S2P Require Import Lifecycle Safety System.

Definition preserves (I : Db → Prop) {A} (m : M A) : Prop :=
  ∀ db a db', I db → m db = Ok (a, db') → I db'.

(** Every row of a table satisfies [P]. *)
Definition all_rows {R} `{Table R} (P : R → Prop) (db : Db) : Prop := ∀ r, r ∈ rows db → P r.

Section preserves.
Context (I : Db → Prop).

Lemma preserves_bind {A B} (m : M A) (k : A → M B) :
  preserves I m → (∀ a, preserves I (k a)) → preserves I (bind m k).
Proof. intros Hm Hk db b db' HI (a & db1 & H1 & H2)%bind_ok. eapply Hk; [|done]. eauto. Qed.
(** The continuation of a pure step may use its result. *)
Lemma preserves_bind_lift {A B} (r : result A) (k : A → M B) :
  (∀ a, r = Ok a → preserves I (k a)) → preserves I (bind (lift r) k).
Proof. intros Hk db b db' HI H. m_inv. by eapply Hk. Qed.
Lemma preserves_ret {A} (a : A) : preserves I (ret a).
Proof. intros ???? H. by m_inv. Qed.
Lemma preserves_fail {A} e : preserves I (fail (A := A) e).
Proof. intros ???? H. by m_inv. Qed.
Lemma preserves_lift {A} (r : result A) : preserves I (lift r).
Proof. intros ???? H. by m_inv. Qed.
Lemma preserves_gets {A} (f : Db → A) : preserves I (gets f).
Proof. intros ???? H. by m_inv. Qed.
Lemma preserves_for_each {A} (l : list A) body :
  (∀ a, preserves I (body a)) → preserves I (for_each l body).
Proof. intros Hb. induction l; simpl; [apply preserves_ret|by apply preserves_bind]. Qed.
Lemma preserves_map_m {A B} (l : list A) (body : A → M B) :
  (∀ a, preserves I (body a)) → preserves I (map_m l body).
Proof.
  intros Hb. induction l; simpl; [apply preserves_ret|]. apply preserves_bind; [done|].
  intros b. apply preserves_bind; [done|]. intros bs. apply preserves_ret.
Qed.
Lemma preserves_or_rollback {A} (m : M bool) (settled otherwise : M A) :
  preserves I m → preserves I settled → preserves I otherwise →
  preserves I (or_rollback m settled otherwise).
Proof.
  intros Hm Hs Ho db a db' HI. unfold or_rollback.
  destruct (m db) as [[[] db1]|e] eqn:E; [|by apply Ho|done]. apply Hs. by eapply Hm.
Qed.
Lemma preserves_unique_conflict m field :
  preserves I m → preserves I (map_unique_conflict m field).
Proof.
  intros Hm db a db' HI. unfold map_unique_conflict.
  destruct (m db) as [[u db1]|[| | | | | | | |[]| |]] eqn:E; try done.
  intros [= <- <-]. by eapply Hm.
Qed.
Lemma preserves_generation_conflict m a g :
  preserves I m → preserves I (map_generation_conflict m a g).
Proof.
  intros Hm db u db' HI. unfold map_generation_conflict.
  destruct (m db) as [[u1 db1]|[| | | | | | | |[]| |]] eqn:E; try done.
  intros [= <- <-]. by eapply Hm.
Qed.
Lemma preserves_observation_conflict m i :
  preserves I m → preserves I (map_observation_conflict m i).
Proof.
  intros Hm db u db' HI. unfold map_observation_conflict.
  destruct (m db) as [[u1 db1]|[| | | | | | | |[]| |]] eqn:E; try done.
  intros [= <- <-]. by eapply Hm.
Qed.

Section key_counters.
Context (Hi : ∀ z db, I db → I (set_messages_autoinc z db)).
Lemma preserves_next_message_seq : preserves I next_message_seq.
Proof using Hi.
  intros db a db' HI. unfold next_message_seq. case_match; [done|]. intros [= <- <-]. auto.
Qed.
End key_counters.
Section block_counter.
Context (Hi : ∀ z db, I db → I (set_blocks_autoinc z db)).
Lemma preserves_next_block_id : preserves I next_block_id.
Proof using Hi.
  intros db a db' HI. unfold next_block_id. case_match; [done|]. intros [= <- <-]. auto.
Qed.
End block_counter.

Lemma preserves_reserve_rows `{J : SerdeJson} rows a t e now uuids k :
  (∀ row u1 u2, preserves I (reserve_row row a t e now u1 u2)) →
  preserves I (reserve_rows rows a t e now uuids k).
Proof.
  intros Hr. revert k. induction rows as [|row rows IH]; intros k; simpl; [apply preserves_ret|].
  apply preserves_bind; [done|]. intros i. apply preserves_bind; [done|]. intros rest.
  apply preserves_ret.
Qed.
Lemma preserves_recover_agents agents now k :
  (∀ a, preserves I (recover_expired_invocations_transaction a now)) →
  preserves I (recover_agents agents now k).
Proof.
  intros Hr. revert k. induction agents as [|a agents IH]; intros k; simpl; [apply preserves_ret|].
  apply preserves_bind; [done|]. intros n. apply IH.
Qed.

Context {R : Type} `{Table R}.
Lemma preserves_insert (r : R) :
  (∀ db, I db → before_insert db r = None → check r = true →
         no_conflict (rows db ++ [r]) = true → fk db r = true →
         I (with_rows (rows db ++ [r]) db)) →
  preserves I (insert r).
Proof. intros Hr db u db' HI (? & ? & ? & ? & ->)%insert_ok. auto. Qed.
Lemma preserves_update (p : R → bool) f :
  (∀ db, I db → no_conflict (map (update_row p f) (rows db)) = true →
         I (with_rows (map (update_row p f) (rows db)) db)) →
  preserves I (update p f).
Proof. intros Hr db n db' HI (-> & _ & _ & ? & _)%update_ok. auto. Qed.
End preserves.

Section row_invariants.
Context {R : Type} `{Table R} (P : R → Prop) (Hw : ∀ l db, rows (with_rows l db) = l).
Lemma preserves_insert_row (r : R) : P r → preserves (all_rows P) (insert r).
Proof using Hw.
  intros Hr. apply preserves_insert. intros db HI _ _ _ _ r'. rewrite Hw. set_solver.
Qed.
Lemma preserves_update_row (p : R → bool) f :
  (∀ r, P r → p r = true → P (f r)) → preserves (all_rows P) (update p f).
Proof using Hw.
  intros Hf. apply preserves_update. intros db HI _ r'. rewrite Hw.
  intros (r & Hr & ->)%elem_of_update_row. destruct (p r) eqn:Hp; [|by apply HI].
  apply Hf; [by apply HI|done].
Qed.
End row_invariants.

Ltac head_of m := match m with ?g _ => head_of g | _ => m end.
Ltac preserves_step :=
  match goal with
  | |- preserves _ (bind (lift _) _) => apply preserves_bind_lift; intros ? ?
  | |- preserves _ (bind _ _) => apply preserves_bind; [|intros ?]
  | |- preserves _ (ret _) => apply preserves_ret
  | |- preserves _ (fail _) => apply preserves_fail
  | |- preserves _ (lift _) => apply preserves_lift
  | |- preserves _ (gets _) => apply preserves_gets
  | |- preserves _ (select _) => apply preserves_gets
  | |- preserves _ (fetch_optional _) => apply preserves_gets
  | |- preserves _ (count _) => apply preserves_gets
  | |- preserves _ (for_each _ _) => apply preserves_for_each; intros ?
  | |- preserves _ (map_m _ _) => apply preserves_map_m; intros ?
  | |- preserves _ (reserve_rows _ _ _ _ _ _ _) => apply preserves_reserve_rows; intros ? ? ?
  | |- preserves _ (recover_agents _ _ _) => apply preserves_recover_agents; intros ?
  | |- preserves _ (or_rollback _ _ _) => apply preserves_or_rollback
  | |- preserves _ (map_unique_conflict _ _) => apply preserves_unique_conflict
  | |- preserves _ (map_generation_conflict _ _ _) => apply preserves_generation_conflict
  | |- preserves _ (map_observation_conflict _ _) => apply preserves_observation_conflict
  | |- preserves _ next_message_seq =>
      apply preserves_next_message_seq; let H := fresh in intros ? ? H; exact H
  | |- preserves _ next_block_id => apply preserves_next_block_id; let H := fresh in intros ? ? H; exact H
  | |- preserves _ (insert _) => let H := fresh in apply preserves_insert; intros ? H _ _ _ _; exact H
  | |- preserves _ (update _ _) => let H := fresh in apply preserves_update; intros ? H _; exact H
  | |- preserves _ (if ?b then _ else _) => destruct b eqn:?
  | |- preserves _ (match ?x with _ => _ end) => destruct x eqn:?
  | |- preserves _ (let _ := _ in _) => cbv zeta
  end.
Create HintDb preserve discriminated.
(** Unfolds an operation only when it is not one of the statements above. *)
Ltac preserves_unfold :=
  match goal with
  | |- preserves _ (insert _) => fail 1
  | |- preserves _ (update _ _) => fail 1
  | |- preserves _ ?m => let h := head_of m in unfold h
  end.
Ltac preserves_tac :=
  repeat first [solve [eauto 2 with preserve nocore] | preserves_step | preserves_unfold].

(** An invariant that every operation preserves holds in every reachable state. *)
Section reachable.
Context `{J : SerdeJson} (sha256_hex : string → string) (I : Db → Prop).
Context (Hstep : ∀ operator db db', transition sha256_hex operator db db' → I db → I db').

Lemma reaches_invariant db db' : I db → reaches sha256_hex db db' → I db'.
Proof using Hstep.
  intros HI Hr. induction Hr as [|db db1 db2 [op Ht] _ IH]; [done|]. apply IH. by eapply Hstep.
Qed.
End reachable.

(** Reduces the preservation of [I] by a transition to [preserves] goals. *)
Lemma preserves_run (I : Db → Prop) {A} (m : M A) db a db' :
  m db = Ok (a, db') → preserves I m → I db → I db'.
Proof. intros Hrun Hp HI. by eapply Hp. Qed.
Ltac by_run :=
  match goal with
  | H : ?m ?db = Ok (?a, ?db') |- ?I ?db → ?I ?db' => apply (preserves_run I m db a db' H); clear H
  end.
Ltac by_operations Ht := destruct Ht; by_run.
