(* ===== verification/WorkerInv.v ===== *)
(** * How a worker moves the world

    Every step of the worker is a move of the world the controller knows (time, a
    transaction, the harness) or a whole managed turn; its report and its table of
    sessions are its own.  A preorder on worlds that contains those moves contains
    every run of the worker. *)

From stdpp Require Import gmap.
From S2P Require Import Prelude Action Proto Schema Channels Messages Deliveries.
From S2P Require Import SessionFence Observations Invocations Settlement Sessions.
From S2P Require Import Lifecycle Safety System Grants HarnessClient Controller.
From S2P Require Import Supervisor WorkerTurns Worker ControllerInv Preserve.

Section within.
Context `{J : SerdeJson} {JT : JsonTree}.
Context {P H : Type} {HH : Harness H} {G : Type} {MG : ManagedTurnGrant G}.
Context {T : Type} {TA : TurnAdapter T} {WH : WorkerHarness (P := P) (H := H)}.
Context (sha256_hex : string → string).
Context (plugin_error_text : PluginError → string) (source_text : FleetError → string).
Context (clock later : nat → Z) (uuid : nat → string).
Context (lease_token : nat → Db → string) (uuids : nat → nat → string).
Context (env_db : nat → Db → Db) (env_grants : nat → list G → list G).
Context (lost : nat → bool) (cancelled sleep_first : nat → bool).
Context (start_process : nat → P + PluginError) (schedules : nat → Schedule).
Context (polls : nat → list Poll) (config : ContinuousWorkerConfig) (adapter : T).
Notation World := (World (H := H) (G := G)).
Notation WState := (WState (H := H) (G := G)).
Notation tick := (tick env_db env_grants).

Context (R : World → World → Prop) {HR : PreOrder R}.
Context (R_tick : ∀ w, R w (tick w)).
Context (R_db : ∀ w db', transition sha256_hex false (w_db w) db' → R w (set_db db' w)).
(** A reservation is a transition where its lease token is fresh. *)
Context (R_reserve : ∀ w n a input kinds now ids invs db',
  reserve_invocations_filtered a input kinds now (lease_token n (w_db w)) ids (w_db w)
    = Ok (invs, db') → R w (set_db db' w)).
Context (R_harness : ∀ w h, R w (set_harness h w)).
Context (R_turn : ∀ turn schedule,
  within R (run sha256_hex plugin_error_text source_text clock later uuid env_db env_grants lost
              (cw_trajectory_sink config) turn schedule)).

Definition lifted (s s' : WState) : Prop := R (ws_world s) (ws_world s').
#[export] Instance lifted_preorder : PreOrder lifted.
Proof using HR. split; [intros s; unfold lifted; reflexivity|]. intros s1 s2 s3. apply HR. Qed.

Lemma within_in_world {E A} (m : turn_action (H := H) (G := G) E A) :
  within R m → within lifted (in_world m).
Proof.
  intros Hm s s' r Hs. unfold in_world in Hs. destruct (m (ws_world s)) as [w x] eqn:Hw.
  injection Hs as <- <-. exact (Hm _ _ _ Hw).
Qed.
(** The worker's own bookkeeping. *)
Lemma within_own {E} (f : WState → WState) :
  (∀ s, ws_world (f s) = ws_world s) → within lifted (act f : worker_action E unit).
Proof using HR. intros Hf s s' r [= <- <-]. unfold lifted. by rewrite Hf. Qed.
Lemma within_count {E} f : within lifted (count_report (E := E) (H := H) (G := G) f).
Proof using HR. by apply within_own. Qed.
Lemma within_wpass {E} : within lifted (Worker.pass env_db env_grants (E := E)).
Proof using HR R_tick. apply within_in_world, within_pass, R_tick. Qed.

(** The operations a worker runs: reads, and transitions without an operator. *)
Definition reading {A} (op : Z → Z → string → M A) : Prop :=
  ∀ now at_ms u db a db', op now at_ms u db = Ok (a, db') → db' = db.
Lemma set_db_same (w : World) : set_db (w_db w) w = w.
Proof. by destruct w. Qed.
Lemma within_read {E A} (wrap : FleetError → E) (op : Z → Z → string → M A) :
  reading op → within lifted (Worker.store clock later uuid env_db env_grants wrap op).
Proof using HR R_tick.
  intros Hop. apply within_in_world, within_andthen; [done|by apply within_pass|]. intros _ w w' r Hw.
  unfold on_store in Hw. destruct (op _ _ _ _) as [[a db]|e] eqn:Ho; injection Hw as <- <-.
  - apply Hop in Ho as ->. by rewrite set_db_same.
  - reflexivity.
Qed.
Lemma within_write {E A} (wrap : FleetError → E) (op : Z → Z → string → M A) :
  operation sha256_hex op →
  within lifted (Worker.store clock later uuid env_db env_grants wrap op).
Proof using HR R_tick R_db.
  intros Hop. apply within_in_world. by eapply within_store.
Qed.
Lemma within_call {E A} (wrap : PluginError → E) (call : action H PluginError A) :
  within lifted (Worker.harness env_db env_grants wrap call).
Proof using HR R_tick R_harness.
  apply within_andthen; [exact _|apply within_wpass|]. intros _.
  apply within_in_world, within_harness, R_harness.
Qed.

Lemma reading_members c : reading (λ _ _ _, list_channel_members c).
Proof. intros ? ? ? db a db' Ho. unfold list_channel_members, ensure_exists in Ho. by m_inv. Qed.
Lemma reading_history c b n : reading (λ _ _ _, list_recent_messages_before c b n).
Proof.
  intros ? ? ? db a db' Ho. unfold list_recent_messages_before, ensure_exists in Ho. by m_inv.
Qed.
Lemma reading_latest c : reading (λ _ _ _, latest_channel_message_seq c).
Proof. intros ? ? ? db a db' Ho. unfold latest_channel_message_seq in Ho. by m_inv. Qed.
Lemma reading_generation g : reading (λ _ read_now _, plugin_generation g read_now).
Proof. intros ? ? ? db a db' Ho. unfold plugin_generation in Ho. by m_inv. Qed.

Ltac worker_step :=
  first
    [ apply within_done; exact _ | apply within_throw; exact _ | apply within_try; exact _
    | apply within_look; exact _ | apply within_count | apply within_wpass
    | apply within_call
    | apply within_read;
      first [ apply reading_members | apply reading_history | apply reading_latest
            | apply reading_generation ]
    | apply within_write;
      first [ (intros ? ? ? ? [] ? ?; by eapply t_retry) | intros ? ? ? ? ? ? ? ];
      first [ by eapply t_acquire | by eapply t_opened | by eapply t_retire
            | by eapply t_stop | by eapply t_generation ]
    | (apply within_own; done)
    | apply within_attempt | apply within_map_err
    | apply within_andthen; [exact _| |intros]
    | match goal with |- within _ (match ?x with _ => _ end) => destruct x end
    | match goal with |- within _ (let (_, _) := ?x in _) => destruct x end ].
Ltac worker_tac := repeat worker_step.

Lemma within_retry {A} (k : unit → worker_action GenerationExit A) invocation context ms :
  (∀ u, within lifted (k u)) →
  within lifted (andthen (map_err Fatal
    (retry_unarmed clock later uuid env_db env_grants invocation context ms)) k).
Proof using HR R_tick R_db. intros Hk. unfold retry_unarmed. worker_tac. apply Hk. Qed.
Lemma within_release invocation reason :
  within lifted (release_or_exit clock later uuid env_db env_grants config invocation reason).
Proof using HR R_tick R_db. unfold release_or_exit, expect_ms, retry_unarmed. worker_tac. Qed.
Lemma within_stop_unarmed {A} invocation :
  within lifted (stop_unarmed (A := A) clock later uuid env_db env_grants invocation).
Proof using HR R_tick R_db. apply within_retry. intros. worker_tac. Qed.

Lemma within_context invocation :
  within lifted (channel_turn_context clock later uuid env_db env_grants invocation).
Proof using HR R_tick R_db. unfold channel_turn_context. worker_tac. Qed.
Lemma within_prepare invocation :
  within lifted (prepare_reserved source_text clock later uuid env_db env_grants config adapter
                   invocation).
Proof using HR R_tick R_db.
  unfold prepare_reserved.
  repeat first [ apply within_release | apply within_context | worker_step ].
Qed.
Lemma within_open_lane invocation lane generation :
  within lifted (open_lane clock later uuid env_db env_grants config invocation lane generation).
Proof using HR R_tick R_db R_harness. unfold open_lane. destruct lane as [policy key]. worker_tac. Qed.
Lemma within_resolve_lane invocation lane generation :
  within lifted (resolve_lane plugin_error_text source_text clock later uuid env_db env_grants config
                   invocation lane generation).
Proof using HR R_tick R_db R_harness.
  unfold resolve_lane.
  repeat first [ apply within_release | apply within_open_lane | worker_step ].
Qed.
Lemma within_rotate lane session :
  within lifted (rotate_interrupted_lane plugin_error_text clock later uuid env_db env_grants config
                   lane session).
Proof using HR R_tick R_db R_harness. unfold rotate_interrupted_lane. worker_tac. Qed.
Lemma within_execute invocation prepared lane session g :
  within lifted (execute_turn sha256_hex plugin_error_text source_text clock later uuid env_db
                   env_grants lost schedules polls config adapter invocation prepared lane session g).
Proof using HR R_tick R_db R_harness R_turn.
  unfold execute_turn, managed_error, run_turn.
  repeat first [ apply within_release | apply within_rotate | (apply within_in_world; apply R_turn) | worker_step ].
Qed.

Lemma within_reserve :
  within lifted (reserve_one source_text clock later uuid lease_token uuids env_db env_grants config
                   adapter).
Proof using HR R_tick R_db R_reserve.
  unfold reserve_one, expect_ms. destruct (duration_ms _) as [ms|]; [|worker_tac].
  apply within_andthen; [exact _|apply within_wpass|]. intros _ s s' r Hs.
  eapply within_in_world; [|exact Hs]. intros w w' r' Hw. unfold on_store in Hw.
  destruct (reserve_invocations_by_kind _ _ _ _ _ _ _) as [[invs db]|e] eqn:Ho;
    injection Hw as <- <-; [|reflexivity].
  unfold reserve_invocations_by_kind in Ho. m_inv. by eapply R_reserve.
Qed.

Lemma within_invocation generation invocation :
  within lifted (drive_invocation sha256_hex plugin_error_text source_text clock later uuid env_db
                   env_grants lost cancelled schedules polls config adapter generation invocation).
Proof using HR R_tick R_db R_harness R_turn.
  unfold drive_invocation, is_cancelled.
  repeat first
    [ apply within_prepare | apply within_resolve_lane | apply within_execute
    | apply within_stop_unarmed | worker_step ].
Qed.
Lemma within_drive_step generation limit :
  within lifted (drive_step sha256_hex plugin_error_text source_text clock later uuid lease_token
                   uuids env_db env_grants lost cancelled sleep_first schedules polls config adapter
                   generation limit).
Proof using HR R_tick R_db R_harness R_turn R_reserve.
  unfold drive_step, is_cancelled, wait_or_cancel.
  repeat first [ apply within_reserve | apply within_invocation | worker_step ].
Qed.
Lemma within_drive fuel generation limit :
  within lifted (drive_generation sha256_hex plugin_error_text source_text clock later uuid
                   lease_token uuids env_db env_grants lost cancelled sleep_first schedules polls
                   config adapter fuel generation limit).
Proof using HR R_tick R_db R_harness R_turn R_reserve.
  induction fuel as [|fuel IH]; simpl; [worker_tac|].
  apply within_andthen; [exact _|apply within_drive_step|]. by intros _.
Qed.

Lemma within_stop_generation {A} g exit :
  within lifted (stop_generation (A := A) plugin_error_text source_text clock later uuid env_db env_grants
                   config g exit).
Proof using HR R_tick R_db R_harness R_turn.
  unfold stop_generation, stop_plugin_generation. worker_tac.
Qed.
Lemma within_generation fuel limit :
  within lifted (run_generation sha256_hex plugin_error_text source_text clock later uuid
                   lease_token uuids env_db env_grants lost cancelled sleep_first start_process
                   schedules polls config adapter fuel limit).
Proof using HR R_tick R_db R_harness R_turn R_reserve.
  unfold run_generation, shutdown_generation, record_plugin_generation.
  repeat first
    [ apply within_drive | apply within_stop_generation
    | (apply within_in_world; intros w w' r [= <- <-]; apply R_harness) | worker_step ].
Qed.
Lemma within_run_until fuel inner limit :
  within lifted (run_until sha256_hex plugin_error_text source_text clock later uuid
                   lease_token uuids env_db env_grants lost cancelled sleep_first start_process
                   schedules polls config adapter fuel inner limit).
Proof using HR R_tick R_db R_harness R_turn R_reserve.
  unfold run_until. destruct (_ ==? _); [worker_tac|].
  apply within_andthen; [exact _|worker_tac|]. intros _.
  induction fuel as [|fuel IH]; simpl; [worker_tac|].
  apply within_andthen; [exact _| |by intros _].
  unfold run_step, is_cancelled, wait_or_cancel.
  repeat first [ apply within_generation | worker_step ].
Qed.
End within.
