(* ===== verification/Scenario.v ===== *)
(** * A concrete run of the system

    A JSON instance that encodes text as itself, and a small fleet: two agents
    in a channel, a message from one to the other, and the attempts made at it.
    The states below are computed by running the operations; the theorems of the
    development are applied to them. *)

From S2P Require Import Prelude Proto Schema Channels Messages Deliveries.
From S2P Require Import SessionFence Observations Invocations Settlement Sessions.
From S2P Require Import Lifecycle Safety System.

(** Lists of strings are encoded with a length prefix per member. *)
Fixpoint unary (n : nat) : string :=
  match n with O => "." | S n => String (Ascii.ascii_of_N 49) (unary n) end.
Fixpoint encode_strings (l : list string) : string :=
  match l with
  | [] => ""
  | s :: l => unary (String.length s) +:+ s +:+ encode_strings l
  end.
Fixpoint decode_unary (s : string) : option (nat * string) :=
  match s with
  | EmptyString => None
  | String c s =>
      if c ==? Ascii.ascii_of_N 46 then Some (O, s)
      else '(n, rest) ← decode_unary s; Some (S n, rest)
  end.
Fixpoint split_at (n : nat) (s : string) : option (string * string) :=
  match n, s with
  | O, s => Some ("", s)
  | S n, String c s => '(pre, rest) ← split_at n s; Some (String c pre, rest)
  | S _, EmptyString => None
  end.
Fixpoint decode_strings (fuel : nat) (s : string) : option (list string) :=
  match fuel with
  | O => None
  | S fuel =>
      match s with
      | EmptyString => Some []
      | _ => '(n, rest) ← decode_unary s;
             '(x, rest) ← split_at n rest;
             l ← decode_strings fuel rest; Some (x :: l)
      end
  end.

Lemma decode_unary_app n s : decode_unary (unary n +:+ s) = Some (n, s).
Proof. induction n; simpl; [done|]. by rewrite IHn. Qed.
Lemma split_at_app x s : split_at (String.length x) (x +:+ s) = Some (x, s).
Proof. induction x; simpl; [done|]. by rewrite IHx. Qed.
Lemma decode_encode_strings l fuel :
  (length l < fuel)%nat → decode_strings fuel (encode_strings l) = Some l.
Proof.
  revert fuel. induction l as [|x l IH]; intros [|fuel] Hf; try (simpl in Hf; lia); [done|].
  cbn [encode_strings decode_strings].
  destruct (unary (String.length x) +:+ x +:+ encode_strings l) as [|c s] eqn:E.
  - by destruct (String.length x).
  - rewrite <-E, decode_unary_app. simpl. rewrite split_at_app. simpl.
    rewrite IH by (simpl in Hf; lia). done.
Qed.
Lemma encode_strings_length l : (length l ≤ String.length (encode_strings l))%nat.
Proof.
  induction l as [|x l IH]; [done|]. cbn [encode_strings length].
  assert (∀ a b, String.length (a +:+ b) = (String.length a + String.length b)%nat) as Happ.
  { intros a b. induction a; simpl; [done|]. by rewrite IHa. }
  rewrite !Happ. assert (0 < String.length (unary (String.length x)))%nat by (destruct (String.length x); simpl; lia).
  lia.
Qed.

(** Text as its own encoding, except for one number that reads back as a neighbour. *)
Definition inexact : string := "12.027444756417891".
#[global] Instance plain_json : SerdeJson := {|
  Value := string;
  json_null := "null";
  empty_object := "{}";
  to_json := Some;
  from_json s := Some (if s ==? inexact then "12.02744475641789" else s);
  strings_to_json := λ l, Some (encode_strings l);
  strings_from_json := λ s, decode_strings (S (String.length s)) s;
  interfaces_to_json := λ l, Some (encode_strings (flat_map (λ p, [p.1; p.2]) l));
  interfaces_from_json := λ s,
    (fix pairs (l : list string) :=
       match l with a :: b :: l => (a, b) :: pairs l | _ => [] end)
    <$> decode_strings (S (String.length s)) s;
  json_each := λ s, match decode_strings (S (String.length s)) s with Some l => l | None => [] end;
|}.

#[global] Instance plain_json_laws : SerdeJsonLaws plain_json.
Proof.
  assert (∀ l, decode_strings (S (String.length (encode_strings l))) (encode_strings l) = Some l)
    as Hdec.
  { intros l. apply decode_encode_strings. pose proof (encode_strings_length l). lia. }
  split; cbn -[decode_strings].
  - intros v s _. eauto.
  - by intros s [= <-].
  - intros l s [= <-]. apply Hdec.
  - intros l s [= <-]. rewrite Hdec. cbn -[decode_strings]. f_equal.
    induction l as [|[a b] l IH]; [done|]. simpl. by rewrite IH.
  - intros l s [= <-]. by rewrite Hdec.
Qed.

(** The tree operations over the same text: one leading character per kind of
    value, arrays and objects as lists of strings. *)
Fixpoint pairs_of (l : list string) : list (string * string) :=
  match l with a :: b :: l => (a, b) :: pairs_of l | _ => [] end.
Definition decode_object (v : string) : option (list (string * string)) :=
  match v with
  | String c s =>
      if c ==? Ascii.ascii_of_N 111 then pairs_of <$> decode_strings (S (String.length s)) s
      else None
  | EmptyString => None
  end.
Definition encode_object (l : list (string * string)) : string :=
  "o" +:+ encode_strings (flat_map (λ p, [p.1; p.2]) l).
#[global] Instance plain_tree : JsonTree := {|
  json_string s := "s" +:+ s;
  json_bool b := if b then "t" else "f";
  json_number n := "n" +:+ pretty n;
  json_array l := "a" +:+ encode_strings l;
  json_object := encode_object;
  json_get k v := l ← decode_object v; field k l;
  json_as_str v :=
    match v with
    | String c s => if c ==? Ascii.ascii_of_N 115 then Some s else None
    | EmptyString => None
    end;
  json_insert k v o :=
    l ← decode_object o;
    Some (encode_object (List.filter (λ p, negb (bool_decide (p.1 = k))) l ++ [(k, v)]));
|}.

Lemma decode_encode_object l : decode_object (encode_object l) = Some l.
Proof.
  unfold encode_object. change ("o" +:+ ?s) with (String (Ascii.ascii_of_N 111) s).
  unfold decode_object. rewrite bool_decide_true by done. rewrite decode_encode_strings.
  - simpl. f_equal. induction l as [|[a b] l IH]; [done|]. simpl. by rewrite IH.
  - pose proof (encode_strings_length (flat_map (λ p, [p.1; p.2]) l)). lia.
Qed.
#[global] Instance plain_tree_laws : JsonTreeLaws.
Proof.
  split; cbn -[decode_object encode_object].
  - done.
  - intros l k _. by rewrite decode_encode_object.
  - intros l k v _ Hk. rewrite decode_encode_object. simpl. do 3 f_equal.
    induction l as [|[k' v'] l IH]; [done|]. simpl in *. case_bool_decide as He; [done|].
    rewrite bool_decide_false by congruence. simpl. by rewrite IH.
Qed.

(** ** Running operations *)

(** The state after a successful operation. *)
Definition exec {A} (m : M A) (db : Db) : Db :=
  match m db with Ok (_, db') => db' | Err _ => db end.
Definition succeeds {A} (m : M A) (db : Db) : bool := is_ok (m db).

Lemma exec_ok {A} (m : M A) db : succeeds m db = true → ∃ a, m db = Ok (a, exec m db).
Proof. unfold succeeds, exec. destruct (m db) as [[a db']|]; [eauto|done]. Qed.

(** SHA-256 stands in as the identity: the runs below only compare digests. *)
Definition plain_sha256 (bytes : string) : string := bytes.

(** ** The fleet *)

Definition op_alice : M Agent := create_agent {| ca_name := "alice"; ca_metadata := "{}" |} "A" 1.
Definition op_bob : M Agent := create_agent {| ca_name := "bob"; ca_metadata := "{}" |} "B" 2.
Definition op_channel : M Channel :=
  create_channel {| cc_name := "room"; cc_metadata := "{}"; cc_member_ids := ["A"; "B"];
                    cc_members := [] |} "C" 3.
Definition ask : CreateMessage :=
  {| cm_sender_id := "A"; cm_idempotency_key := Some "k"; cm_recipient_id := None;
     cm_kind := "ask"; cm_payload := "hello"; cm_correlation_id := None;
     cm_causation_id := None |}.
Definition op_ask : M AppendMessageResult := append_message_in_transaction "C" ask "M1" 4.

Definition claim_one : ClaimDeliveries := {| claim_limit := 1; claim_lease_duration_ms := 1000 |}.
Definition uuid_supply (k : nat) : string := "U" +:+ pretty (Z.of_nat k).
Definition op_reserve : M (list Invocation) :=
  reserve_invocations_filtered "B" claim_one None 10 "T1" uuid_supply.
Definition arm_input : ArmInvocation := {| arm_lease_token := "T1"; arm_fence_token := "U1" |}.
Definition op_arm : M Invocation := arm_invocation_transaction "B" "U0" arm_input 20.

Definition db_fleet : Db := Eval vm_compute in
  exec op_channel (exec op_bob (exec op_alice empty_db)).
Definition db_asked : Db := Eval vm_compute in exec op_ask db_fleet.
Definition db_reserved : Db := Eval vm_compute in exec op_reserve db_asked.
Definition db_armed : Db := Eval vm_compute in exec op_arm db_reserved.

(** ** The states are reachable *)

(** One more operation, by computation. *)
Lemma run_step {A} (m : M A) operator db db1 :
  (∀ a db', m db = Ok (a, db') → transition plain_sha256 operator db db') →
  succeeds m db = true → exec m db = db1 → reachable plain_sha256 db →
  reachable plain_sha256 db1.
Proof.
  intros Ht [a Hm]%exec_ok <- Hr. eapply rtc_r; [exact Hr|]. exists operator. by eapply Ht.
Qed.

Lemma fresh_by_computation token db :
  forallb (λ d, (d_lease_token d !=? Some token)
                && (d_last_settled_lease_token d !=? Some token)) db.(agent_deliveries)
  && forallb (λ b, b_lease_token b !=? token) db.(delivery_blocks) = true →
  fresh_token token db.
Proof.
  intros [H1 H2]%andb_true_iff. rewrite forallb_forall in H1, H2.
  split_and!; intros r Hr%list_elem_of_In; first [specialize (H1 _ Hr)|specialize (H2 _ Hr)];
    bool_facts; done.
Qed.

Lemma reachable_fleet : reachable plain_sha256 db_fleet.
Proof.
  apply (run_step op_channel false (exec op_bob (exec op_alice empty_db)));
    [intros; by eapply t_create_channel|done|done|].
  apply (run_step op_bob false (exec op_alice empty_db)); [intros; by eapply t_create_agent|done|done|].
  apply (run_step op_alice false empty_db); [intros; by eapply t_create_agent|done|done|].
  apply rtc_refl.
Qed.

Lemma reachable_asked : reachable plain_sha256 db_asked.
Proof.
  apply (run_step op_ask false db_fleet);
    [intros; by eapply t_append|done|done|apply reachable_fleet].
Qed.

Lemma reachable_reserved : reachable plain_sha256 db_reserved.
Proof.
  apply (run_step op_reserve false db_asked); [|done|done|apply reachable_asked].
  intros. eapply t_reserve; [|done]. by apply fresh_by_computation.
Qed.

Lemma reachable_armed : reachable plain_sha256 db_armed.
Proof.
  apply (run_step op_arm false db_reserved);
    [intros; by eapply t_arm|done|done|apply reachable_reserved].
Qed.

(** ** Completion, expiry and recovery *)

Definition answer : CompleteInvocation :=
  {| complete_lease_token := "T1"; complete_fence_token := "U1"; complete_kind := "answer";
     complete_payload := "world" |}.
Definition op_complete : M (InvocationCompletion * bool) :=
  complete_invocation "B" "U0" answer 30 "M2" 31.
Definition db_completed : Db := Eval vm_compute in exec op_complete db_armed.

Definition op_recover : M Z := recover_agents ["B"] 5000 0.
Definition db_parked : Db := Eval vm_compute in exec op_recover db_armed.

(** The reservation expires unarmed and the delivery is claimed again. *)
Definition op_reclaim : M ClaimBatch := claim_deliveries "B" claim_one 5000 "T2".
Definition db_reclaimed : Db := Eval vm_compute in exec op_reclaim db_reserved.

(** An operator requeues the parked delivery. *)
Definition requeue : ResolveDeliveryBlock :=
  {| rdb_resolution := Requeue; rdb_retry_after_ms := 0; rdb_note := Some "checked" |}.
Definition op_requeue : M unit := resolve_delivery_block 1 requeue 6000.
Definition db_requeued : Db := Eval vm_compute in exec op_requeue db_parked.

Lemma reachable_completed : reachable plain_sha256 db_completed.
Proof.
  apply (run_step op_complete false db_armed);
    [intros; by eapply t_complete|done|done|apply reachable_armed].
Qed.
Lemma reachable_parked : reachable plain_sha256 db_parked.
Proof.
  apply (run_step op_recover false db_armed);
    [intros; by eapply t_recover|done|done|apply reachable_armed].
Qed.
Lemma reachable_reclaimed : reachable plain_sha256 db_reclaimed.
Proof.
  apply (run_step op_reclaim false db_reserved); [|done|done|apply reachable_reserved].
  intros. eapply t_claim; [|done]. by apply fresh_by_computation.
Qed.
Lemma reachable_requeued : reachable plain_sha256 db_requeued.
Proof.
  apply (run_step op_requeue true db_parked); [|done|done|apply reachable_parked].
  intros [] db' H. by eapply t_resolve.
Qed.

(** One operation as a run. *)
Lemma run_once {A} (m : M A) operator db db1 :
  (∀ a db', m db = Ok (a, db') → transition plain_sha256 operator db db') →
  succeeds m db = true → exec m db = db1 → reaches plain_sha256 db db1.
Proof. intros Ht [a Hm]%exec_ok <-. apply rtc_once. exists operator. by eapply Ht. Qed.

(** ** A session and the attempt bound to it *)

Definition lane : AcquireSessionBinding :=
  {| acq_lane_policy := "agent"; acq_lane_key := "B"; acq_owner_instance_id := "W1";
     acq_profile_digest := "p1"; acq_compatibility_digest := "c1";
     acq_working_directory := "/work"; acq_additional_directories := [] |}.
Definition op_acquire : M SessionAcquisition := acquire_session_binding "B" lane 11 "S".
Definition owner1 : Binding :=
  {| binding_id := "S"; binding_generation := 1; owner_epoch := 1 |}.
Definition op_opened : M SessionBinding := record_session_opened "B" owner1 "native" 12.
Definition worker_generation : NewPluginGeneration :=
  {| ng_id := "G1"; ng_agent_id := "B"; ng_plugin_id := "plugin"; ng_plugin_name := "harness";
     ng_plugin_version := "1.0.0"; ng_interfaces := [("acp", "1.0.0")]; ng_process_id := None;
     ng_description :=
       {| dsc_driver_version := "1"; dsc_acp_sdk_version := "1"; dsc_acp_protocol_version := mk_u32 1 eq_refl;
          dsc_runtime_name := "rt"; dsc_runtime_version := "1";
          dsc_runtime_executable_digest := "d"; dsc_agent_capabilities := "{}";
          dsc_max_concurrent_turns := mk_u32 1 eq_refl; dsc_max_frame_bytes := 1024;
          dsc_profile_digest := "p1"; dsc_raw_initialize_result := "{}" |};
     ng_compatibility_digest := "c1"; ng_heartbeat_interval_ms := 1000 |}.
Definition op_generation : M unit := insert_plugin_generation worker_generation 13.
Definition op_arm_session : M BoundInvocation :=
  arm_session_invocation "B" "U0" owner1 "native" "G1" arm_input 20.

Definition db_lane : Db := Eval vm_compute in exec op_acquire db_reserved.
Definition db_opened : Db := Eval vm_compute in exec op_opened db_lane.
Definition db_worker : Db := Eval vm_compute in exec op_generation db_opened.
Definition db_bound : Db := Eval vm_compute in exec op_arm_session db_worker.

Lemma reachable_lane : reachable plain_sha256 db_lane.
Proof.
  apply (run_step op_acquire false db_reserved);
    [intros; by eapply t_acquire|done|done|apply reachable_reserved].
Qed.
Lemma reachable_opened : reachable plain_sha256 db_opened.
Proof.
  apply (run_step op_opened false db_lane);
    [intros; by eapply t_opened|done|done|apply reachable_lane].
Qed.
Lemma reachable_worker : reachable plain_sha256 db_worker.
Proof.
  apply (run_step op_generation false db_opened);
    [intros; by eapply t_generation|done|done|apply reachable_opened].
Qed.
Lemma reachable_bound : reachable plain_sha256 db_bound.
Proof.
  apply (run_step op_arm_session false db_worker);
    [intros; by eapply t_arm_session|done|done|apply reachable_worker].
Qed.

(** The lease of the bound attempt expires; the session becomes uncertain. *)
Definition db_uncertain : Db := Eval vm_compute in exec op_recover db_bound.
Lemma reachable_uncertain : reachable plain_sha256 db_uncertain.
Proof.
  apply (run_step op_recover false db_bound);
    [intros; by eapply t_recover|done|done|apply reachable_bound].
Qed.

(** A second worker adopts the ready session: the epoch moves from 1 to 2. *)
Definition op_adopt : M SessionAcquisition :=
  acquire_session_binding "B"
    {| acq_lane_policy := "agent"; acq_lane_key := "B"; acq_owner_instance_id := "W2";
       acq_profile_digest := "p1"; acq_compatibility_digest := "c1";
       acq_working_directory := "/work"; acq_additional_directories := [] |} 40 "unused".
Definition db_adopted : Db := Eval vm_compute in exec op_adopt db_opened.
Lemma reachable_adopted : reachable plain_sha256 db_adopted.
Proof.
  apply (run_step op_adopt false db_opened);
    [intros; by eapply t_acquire|done|done|apply reachable_opened].
Qed.

(** ** Rows of these states *)

Definition op_ask_again : M AppendMessageResult :=
  append_message_in_transaction "C"
    {| cm_sender_id := "A"; cm_idempotency_key := None; cm_recipient_id := Some "B";
       cm_kind := "ask"; cm_payload := "again"; cm_correlation_id := None;
       cm_causation_id := None |} "M3" 25.
(** The attempt at the first message is armed; a second message is pending. *)
Definition db_two : Db := Eval vm_compute in exec op_ask_again db_armed.
Lemma reachable_two : reachable plain_sha256 db_two.
Proof.
  apply (run_step op_ask_again false db_armed);
    [intros; by eapply t_append|done|done|apply reachable_armed].
Qed.

Definition no_invocation : InvocationRow := new_invocation "" 0 "" 0 "" 0 "" 0.
Definition no_delivery : DeliveryRow := new_delivery 0 "" 0.
Definition armed_row : InvocationRow := Eval vm_compute in hd no_invocation db_two.(invocations).
Definition completed_row : InvocationRow := Eval vm_compute in
  hd no_invocation db_completed.(invocations).
Definition expired_row : InvocationRow := Eval vm_compute in
  hd no_invocation db_reclaimed.(invocations).
Definition leased_delivery : DeliveryRow := Eval vm_compute in
  hd no_delivery db_armed.(agent_deliveries).
Definition acknowledged_delivery : DeliveryRow := Eval vm_compute in
  hd no_delivery db_completed.(agent_deliveries).
Definition blocked_delivery : DeliveryRow := Eval vm_compute in
  hd no_delivery db_parked.(agent_deliveries).

(** Membership in a computed table. *)
Ltac in_rows := apply list_elem_of_In; vm_compute; repeat first [left; reflexivity | right].
