(* ===== verification/Integrity.v ===== *)
(** * Referential integrity

    SQLite checks a foreign key when a row is written.  No operation deletes a row
    or changes a key that another row may name, so the references hold in every
    reachable store. *)

From S2P Require Import Prelude Proto Schema Channels Messages Deliveries.
From S2P Require Import SessionFence Observations Invocations Settlement Sessions.
From S2P Require Import Triggers Auth Seats Lifecycle Safety System Preserve Scenario.

(** ** Keys *)

(** Every key a reference can name in [db] is still there in [db']. *)
Record keys_kept (db db' : Db) : Prop := {
  kk_agent : ∀ id, has_agent db id = true → has_agent db' id = true;
  kk_channel : ∀ id, has_channel db id = true → has_channel db' id = true;
  kk_message : ∀ seq, has_message db seq = true → has_message db' seq = true;
  kk_delivery : ∀ seq a, has_delivery db seq a = true → has_delivery db' seq a = true;
  kk_invocation : ∀ id, has_invocation db id = true → has_invocation db' id = true;
  kk_binding : ∀ id g, has_binding db id g = true → has_binding db' id g = true;
  kk_generation : ∀ id, has_generation db id = true → has_generation db' id = true;
  kk_trigger : ∀ id, has_trigger db id = true → has_trigger db' id = true;
}.

Lemma existsb_update {A} (k p : A → bool) f l :
  (∀ a, k (f a) = k a) → existsb k l = true → existsb k (map (update_row p f) l) = true.
Proof.
  intros Hk. induction l as [|a l IH]; simpl; [done|]. unfold update_row at 1.
  destruct (p a); rewrite ?Hk, !orb_true_iff; naive_solver.
Qed.

(** The columns of a row that references name. *)
Class Referenced (R : Type) := same_key : R → R → Prop.
#[global] Instance agents_key : Referenced AgentRow := λ r r', a_id r = a_id r'.
#[global] Instance channels_key : Referenced ChannelRow := λ r r', c_id r = c_id r'.
#[global] Instance members_key : Referenced MemberRow := λ _ _, True.
#[global] Instance messages_key : Referenced MessageRow := λ r r', m_seq r = m_seq r'.
#[global] Instance deliveries_key : Referenced DeliveryRow :=
  λ r r', d_message_seq r = d_message_seq r' ∧ d_agent_id r = d_agent_id r'.
#[global] Instance blocks_key : Referenced BlockRow := λ _ _, True.
#[global] Instance invocations_key : Referenced InvocationRow := λ r r', i_id r = i_id r'.
#[global] Instance bindings_key : Referenced BindingRow :=
  λ r r', s_binding_id r = s_binding_id r' ∧ s_binding_generation r = s_binding_generation r'.
#[global] Instance turns_key : Referenced TurnRow := λ _ _, True.
#[global] Instance generations_key : Referenced GenerationRow := λ r r', g_id r = g_id r'.
#[global] Instance observations_key : Referenced ObservationRow := λ _ _, True.
#[global] Instance triggers_key : Referenced TriggerRow := λ r r', tr_id r = tr_id r'.
#[global] Instance credentials_key : Referenced CredentialRow := λ _ _, True.
#[global] Instance seats_key : Referenced SeatRow := λ _ _, True.

(** ** Intact stores *)

Definition refers {R} `{Table R} (db : Db) : Prop := ∀ r, r ∈ rows db → fk db r = true.
Record intact (db : Db) : Prop := {
  in_members : refers (R := MemberRow) db;
  in_messages : refers (R := MessageRow) db;
  in_deliveries : refers (R := DeliveryRow) db;
  in_blocks : refers (R := BlockRow) db;
  in_invocations : refers (R := InvocationRow) db;
  in_bindings : refers (R := BindingRow) db;
  in_turns : refers (R := TurnRow) db;
  in_generations : refers (R := GenerationRow) db;
  in_observations : refers (R := ObservationRow) db;
  in_triggers : refers (R := TriggerRow) db;
  in_credentials : refers (R := CredentialRow) db;
  in_seats : refers (R := SeatRow) db;
}.
Lemma intact_empty : intact empty_db.
Proof. split; by intros ? ?%not_elem_of_nil. Qed.

(** A reference survives where the keys do. *)
Class ReferenceKept (R : Type) `{Table R} :=
  fk_kept : ∀ db db' (r : R), keys_kept db db' → fk db r = true → fk db' r = true.
Lemma opt_ref_kept {A} (p q : A → bool) o :
  (∀ a, p a = true → q a = true) → opt_ref p o = true → opt_ref q o = true.
Proof. destruct o; simpl; auto. Qed.
Ltac solve_fk_kept :=
  intros db db' r []; simpl;
  unfold no_fk, fk_member, fk_message, fk_delivery, fk_block, fk_invocation, fk_binding, fk_turn,
    fk_generation, fk_observation, fk_trigger, fk_credential, fk_seat;
  rewrite ?andb_true_iff; intros; destruct_and?; split_and?; auto; eapply opt_ref_kept; eauto.
#[global] Instance fk_kept_agent : ReferenceKept AgentRow.
Proof. solve_fk_kept. Qed.
#[global] Instance fk_kept_channel : ReferenceKept ChannelRow.
Proof. solve_fk_kept. Qed.
#[global] Instance fk_kept_member : ReferenceKept MemberRow.
Proof. solve_fk_kept. Qed.
#[global] Instance fk_kept_message : ReferenceKept MessageRow.
Proof. solve_fk_kept. Qed.
#[global] Instance fk_kept_delivery : ReferenceKept DeliveryRow.
Proof. solve_fk_kept. Qed.
#[global] Instance fk_kept_block : ReferenceKept BlockRow.
Proof. solve_fk_kept. Qed.
#[global] Instance fk_kept_invocation : ReferenceKept InvocationRow.
Proof. solve_fk_kept. Qed.
#[global] Instance fk_kept_binding : ReferenceKept BindingRow.
Proof. solve_fk_kept. Qed.
#[global] Instance fk_kept_turn : ReferenceKept TurnRow.
Proof. solve_fk_kept. Qed.
#[global] Instance fk_kept_generation : ReferenceKept GenerationRow.
Proof. solve_fk_kept. Qed.
#[global] Instance fk_kept_observation : ReferenceKept ObservationRow.
Proof. solve_fk_kept. Qed.
#[global] Instance fk_kept_trigger : ReferenceKept TriggerRow.
Proof. solve_fk_kept. Qed.
#[global] Instance fk_kept_credential : ReferenceKept CredentialRow.
Proof. solve_fk_kept. Qed.
#[global] Instance fk_kept_seat : ReferenceKept SeatRow.
Proof. solve_fk_kept. Qed.

(** What replacing the rows of one table keeps. *)
Class ReferenceLaws (R : Type) `{Table R} `{Referenced R} := {
  insert_keeps_keys : ∀ db (r : R), keys_kept db (with_rows (rows db ++ [r]) db);
  update_keeps_keys : ∀ db (p : R → bool) f,
    (∀ r, same_key (f r) r) → keys_kept db (with_rows (map (update_row p f) (rows db)) db);
  intact_rows : ∀ db (r : R), intact db → r ∈ rows db → fk db r = true;
  intact_with : ∀ db l, intact db → keys_kept db (with_rows l db) →
    (∀ r, r ∈ l → fk db r = true) → intact (with_rows l db);
}.
Ltac solve_reference_laws :=
  split;
  [ intros [] ?; split; simpl; intros;
    first [assumption | by apply existsb_app_l]
  | intros [] ? ? Hk; split; simpl; intros;
    first [assumption | apply existsb_update; [|assumption]; let x := fresh in intros x; specialize (Hk x);
      hnf in Hk; destruct_and?; repeat match goal with E : _ = _ |- _ => rewrite E; clear E end; done]
  | intros db r []; simpl; intros; first [done | auto]
  | intros db l Hin Hkeys Hl; destruct Hin; split; intros ? Hr; simpl in Hr;
    (eapply fk_kept; [exact Hkeys|]; first [by apply Hl | auto]) ].
#[global] Instance agent_references : ReferenceLaws AgentRow.
Proof. solve_reference_laws. Qed.
#[global] Instance channel_references : ReferenceLaws ChannelRow.
Proof. solve_reference_laws. Qed.
#[global] Instance member_references : ReferenceLaws MemberRow.
Proof. solve_reference_laws. Qed.
#[global] Instance message_references : ReferenceLaws MessageRow.
Proof. solve_reference_laws. Qed.
#[global] Instance delivery_references : ReferenceLaws DeliveryRow.
Proof. solve_reference_laws. Qed.
#[global] Instance block_references : ReferenceLaws BlockRow.
Proof. solve_reference_laws. Qed.
#[global] Instance invocation_references : ReferenceLaws InvocationRow.
Proof. solve_reference_laws. Qed.
#[global] Instance binding_references : ReferenceLaws BindingRow.
Proof. solve_reference_laws. Qed.
#[global] Instance turn_references : ReferenceLaws TurnRow.
Proof. solve_reference_laws. Qed.
#[global] Instance generation_references : ReferenceLaws GenerationRow.
Proof. solve_reference_laws. Qed.
#[global] Instance observation_references : ReferenceLaws ObservationRow.
Proof. solve_reference_laws. Qed.
#[global] Instance trigger_references : ReferenceLaws TriggerRow.
Proof. solve_reference_laws. Qed.
#[global] Instance credential_references : ReferenceLaws CredentialRow.
Proof. solve_reference_laws. Qed.
#[global] Instance seat_references : ReferenceLaws SeatRow.
Proof. solve_reference_laws. Qed.

(** ** Every operation keeps the references *)

Section preserves.
Context {R : Type} `{ReferenceLaws R} `{!ReferenceKept R}.

Lemma preserves_insert_intact (r : R) : preserves intact (insert r).
Proof.
  intros db u db' HI (_ & _ & _ & Hfk & ->)%insert_ok.
  apply intact_with; [done|by apply insert_keeps_keys|].
  intros r' [Hr| ->%list_elem_of_singleton]%elem_of_app; [by apply intact_rows|done].
Qed.
Lemma preserves_update_intact (p : R → bool) f :
  (∀ r, same_key (f r) r) → preserves intact (update p f).
Proof.
  intros Hk db n db' HI (-> & _ & _ & _ & Hfk)%update_ok.
  apply intact_with; [done|by apply update_keeps_keys|].
  intros r' (r & Hr & ->)%elem_of_update_row. destruct (p r) eqn:Hp; [by apply Hfk|by apply intact_rows].
Qed.
End preserves.

#[global] Instance keys_kept_preorder : PreOrder keys_kept.
Proof. split; [by intros db; split|]. intros db1 db2 db3 [] []. split; auto. Qed.

Section kept.
Context {R : Type} `{ReferenceLaws R} (db0 : Db).
Lemma preserves_insert_kept (r : R) : preserves (keys_kept db0) (insert r).
Proof.
  apply preserves_insert. intros db HI _ _ _ _. etransitivity; [exact HI|apply insert_keeps_keys].
Qed.
Lemma preserves_update_kept (p : R → bool) f :
  (∀ r, same_key (f r) r) → preserves (keys_kept db0) (update p f).
Proof.
  intros Hk. apply preserves_update. intros db HI _.
  etransitivity; [exact HI|by apply update_keeps_keys].
Qed.
End kept.
Lemma kept_messages_autoinc db0 z db : keys_kept db0 db → keys_kept db0 (set_messages_autoinc z db).
Proof. by intros []. Qed.
Lemma kept_blocks_autoinc db0 z db : keys_kept db0 db → keys_kept db0 (set_blocks_autoinc z db).
Proof. by intros []. Qed.

Lemma intact_messages_autoinc z db : intact db → intact (set_messages_autoinc z db).
Proof. by intros []. Qed.
Lemma intact_blocks_autoinc z db : intact db → intact (set_blocks_autoinc z db).
Proof. by intros []. Qed.

Section reachable.
Context `{J : SerdeJson} (sha256_hex : string → string).

#[local] Hint Extern 1 (preserves intact (insert _)) => apply preserves_insert_intact : preserve.
#[local] Hint Extern 1 (preserves intact (update _ _)) =>
  apply preserves_update_intact; intros []; hnf; done : preserve.
#[local] Hint Extern 1 (preserves intact next_message_seq) =>
  apply preserves_next_message_seq, intact_messages_autoinc : preserve.
#[local] Hint Extern 1 (preserves intact next_block_id) =>
  apply preserves_next_block_id, intact_blocks_autoinc : preserve.

Lemma transition_intact operator db db' :
  transition sha256_hex operator db db' → intact db → intact db'.
Proof. intros Ht. by_operations Ht; preserves_tac. Qed.
Lemma reachable_intact db : reachable sha256_hex db → intact db.
Proof.
  intros Hr. exact (reaches_invariant sha256_hex intact transition_intact empty_db db intact_empty Hr).
Qed.

#[local] Hint Extern 1 (preserves (keys_kept _) (insert _)) => apply preserves_insert_kept : preserve.
#[local] Hint Extern 1 (preserves (keys_kept _) (update _ _)) =>
  apply preserves_update_kept; intros []; hnf; done : preserve.
#[local] Hint Extern 1 (preserves (keys_kept _) next_message_seq) =>
  apply preserves_next_message_seq, kept_messages_autoinc : preserve.
#[local] Hint Extern 1 (preserves (keys_kept _) next_block_id) =>
  apply preserves_next_block_id, kept_blocks_autoinc : preserve.

Lemma transition_keys db0 operator db db' :
  transition sha256_hex operator db db' → keys_kept db0 db → keys_kept db0 db'.
Proof. intros Ht. by_operations Ht; preserves_tac. Qed.
(** A key stays for ever. *)
Lemma reaches_keys db db' : reaches sha256_hex db db' → keys_kept db db'.
Proof.
  intros Hr. refine (reaches_invariant sha256_hex (keys_kept db) _ db db' _ Hr); [|reflexivity].
  apply transition_keys.
Qed.
End reachable.

(** ** What a key names *)

(** [existsb] finds a row. *)
Lemma existsb_find {A} (p : A → bool) l :
  existsb p l = true → ∃ a, List.find p l = Some a ∧ a ∈ l ∧ p a = true.
Proof.
  induction l as [|b l IH]; simpl; [done|]. destruct (p b) eqn:Hb; simpl.
  - intros _. exists b. split_and!; [done|set_solver|done].
  - intros H. destruct (IH H) as (a & ? & ? & ?). exists a. split_and!; [done|set_solver|done].
Qed.
Lemma find_elem {A} (p : A → bool) l a :
  a ∈ l → p a = true → ∃ b, List.find p l = Some b ∧ b ∈ l ∧ p b = true.
Proof.
  intros Ha Hp. apply existsb_find, existsb_exists. exists a. by rewrite <-list_elem_of_In.
Qed.
Lemma has_message_elem db seq : has_message db seq = true → ∃ m, m ∈ db.(messages) ∧ m_seq m = seq.
Proof. intros (m & _ & Hm & Hs)%existsb_find. bool_facts. eauto. Qed.
Lemma has_delivery_elem db seq a :
  has_delivery db seq a = true →
  ∃ d, d ∈ db.(agent_deliveries) ∧ d_message_seq d = seq ∧ d_agent_id d = a.
Proof. intros (d & _ & Hd & Hs)%existsb_find. bool_facts. eauto. Qed.

(** The input message of an attempt is in the log. *)
Lemma invocation_message db i :
  intact db → i ∈ db.(invocations) → ∃ m, m ∈ db.(messages) ∧ m_seq m = i_message_seq i.
Proof.
  intros Hin Hi. pose proof (in_invocations _ Hin i Hi) as Hfk. simpl in Hfk.
  unfold fk_invocation in Hfk. bool_facts.
  match goal with H : has_delivery _ _ _ = true |- _ => apply has_delivery_elem in H as (d & Hd & <- & _) end.
  pose proof (in_deliveries _ Hin d Hd) as Hfk. simpl in Hfk. unfold fk_delivery in Hfk. bool_facts.
  by apply has_message_elem.
Qed.
(** The agent of an attempt is registered. *)
Lemma invocation_agent db i :
  intact db → i ∈ db.(invocations) → ∃ a, a ∈ db.(agents) ∧ a_id a = i_agent_id i.
Proof.
  intros Hin Hi. pose proof (in_invocations _ Hin i Hi) as Hfk. simpl in Hfk.
  unfold fk_invocation in Hfk. bool_facts.
  match goal with H : has_delivery _ _ _ = true |- _ => apply has_delivery_elem in H as (d & Hd & _ & <-) end.
  pose proof (in_deliveries _ Hin d Hd) as Hfk. simpl in Hfk. unfold fk_delivery in Hfk. bool_facts.
  match goal with H : has_agent _ _ = true |- _ => apply existsb_find in H as (a & _ & Ha & Haid) end.
  bool_facts. eauto.
Qed.
