(* ===== verification/MessageProps.v ===== *)
(** * Properties of the message log

    Idempotent append over every later run, what one append stores and
    delivers, and the cursor reads. *)

From S2P Require Import Prelude Proto Schema Channels Messages Deliveries.
From S2P Require Import SessionFence Observations Invocations Settlement Sessions.
From S2P Require Import Lifecycle Safety System Preserve Scenario.

Section append.
Context `{J : SerdeJson} (sha256_hex : string → string).

(** The row holds the message: its columns are the message's, and its text is the
    encoding of the payload or decodes to it. *)
Definition holds_message (row : MessageRow) (m : Message) : Prop :=
  m_seq row = msg_seq m ∧ m_id row = msg_id m ∧ m_channel_id row = msg_channel_id m
  ∧ m_sender_id row = msg_sender_id m ∧ m_recipient_id row = msg_recipient_id m
  ∧ m_kind row = msg_kind m ∧ m_correlation_id row = msg_correlation_id m
  ∧ m_causation_id row = msg_causation_id m ∧ m_created_at_ms row = msg_created_at_ms m
  ∧ (to_json (msg_payload m) = Some (m_payload_json row)
     ∨ from_json (m_payload_json row) = Some (msg_payload m)).
Lemma decoded_holds row m : message_from_row row = Ok m → holds_message row m.
Proof.
  unfold message_from_row, parse_json. intros H. m_inv. unfold holds_message. simpl.
  split_and!; try done. right. by destruct (from_json _); simplify_eq.
Qed.
Lemma stored_holds c input uuid payload at_ms seq :
  to_json (cm_payload input) = Some payload →
  holds_message (stored_message c input uuid payload at_ms seq)
    (returned_message c input uuid at_ms seq).
Proof. intros Hp. unfold holds_message. simpl. split_and!; try done. by left. Qed.
(** A payload that reads back as itself is read back. *)
Lemma holds_decodes row m :
  holds_message row m → reparses (msg_payload m) → message_from_row row = Ok m.
Proof.
  intros (H1 & H2 & H3 & H4 & H5 & H6 & H7 & H8 & H9 & Hp) Hre.
  assert (from_json (m_payload_json row) = Some (msg_payload m)) as Hj by (destruct Hp; auto).
  unfold message_from_row, parse_json. rewrite Hj. simpl. destruct row, m; simpl in *. by subst.
Qed.
Lemma matches_payload m c input :
  message_matches_input m c input = true → msg_payload m = cm_payload input.
Proof. unfold message_matches_input. intros. by bool_facts. Qed.

Lemma returned_matches c input uuid at_ms seq :
  message_matches_input (returned_message c input uuid at_ms seq) c input = true.
Proof. unfold message_matches_input. simpl. by rewrite !bool_decide_true by done. Qed.

(** What a keyed append leaves in the log. *)
Lemma append_stored c input uuid at_ms key db r db' :
  append_message_in_transaction c input uuid at_ms db = Ok (r, db') →
  cm_idempotency_key input = Some key →
  is_blank (cm_kind input) = false ∧ validate_idempotency_key (Some key) = Ok tt
  ∧ ∃ row, row ∈ db'.(messages) ∧ sent_with_key (cm_sender_id input) key row = true
           ∧ holds_message row (append_message r)
           ∧ message_matches_input (append_message r) c input = true.
Proof.
  unfold append_message_in_transaction. intros H Hk. rewrite Hk in H. m_inv.
  split; [done|]. split; [done|].
  destruct (List.find _ _) as [row|] eqn:Hf; m_inv.
  - exists row. split_and!; try done. by apply decoded_holds.
  - match goal with H : insert_message _ _ _ _ _ = Ok _ |- _ =>
      apply insert_message_ok in H as
        (ch & payload & _ & _ & _ & _ & _ & Hp & _ & -> & _ & ->) end.
    eexists. simpl. split; [apply elem_of_app; right; by apply list_elem_of_singleton|].
    split; [|split; [by apply stored_holds|apply returned_matches]].
    unfold sent_with_key. simpl. by rewrite Hk, !bool_decide_true by done.
Qed.

(** The stored message of a sender and key is the one the lookup finds. *)
Lemma find_sent_with_key db row sender key :
  wf db → row ∈ db.(messages) → sent_with_key sender key row = true →
  List.find (sent_with_key sender key) db.(messages) = Some row.
Proof.
  intros Hwf Hrow Hs. destruct (List.find _ _) as [row'|] eqn:Hf.
  - apply find_some_elem in Hf as [Hrow' Hs']. f_equal.
    eapply (no_conflict_eq db.(messages)); [apply Hwf|done..|].
    unfold sent_with_key in *. bool_facts. cbn. unfold conflict_message, both_eq.
    repeat match goal with H : m_idempotency_key _ = _ |- _ => rewrite H end.
    rewrite (bool_decide_true (m_sender_id row' = _)), (bool_decide_true (key = _)) by congruence.
    by rewrite !orb_true_r.
  - by rewrite (find_none_elem _ _ _ Hf Hrow) in Hs.
Qed.

(** A keyed append is found again after every later run. *)
Lemma append_remembered c input uuid at_ms key db r db1 db2 :
  reachable sha256_hex db →
  append_message_in_transaction c input uuid at_ms db = Ok (r, db1) →
  cm_idempotency_key input = Some key → reaches sha256_hex db1 db2 →
  is_blank (cm_kind input) = false ∧ validate_idempotency_key (Some key) = Ok tt
  ∧ message_matches_input (append_message r) c input = true
  ∧ ∃ row, List.find (sent_with_key (cm_sender_id input) key) db2.(messages) = Some row
           ∧ holds_message row (append_message r).
Proof.
  intros Hr Hap Hk Hrun. pose proof (reachable_wf _ _ Hr) as Hwf.
  destruct (safe_append_message true c input uuid at_ms db r db1 Hwf Hap) as [Hwf1 _].
  destruct (append_stored _ _ _ _ _ _ _ _ Hap Hk) as (Hb & Hv & row & Hrow & Hs & Hm & Hmatch).
  destruct (reaches_messages _ _ _ Hwf1 Hrun) as [added Hadd].
  destruct (reaches_safe _ _ _ Hwf1 Hrun) as [Hwf2 _].
  split_and!; [done..|]. exists row. split; [|done].
  apply find_sent_with_key; [done| |done]. rewrite Hadd. set_solver.
Qed.

(** An append under a key that is already in the log returns the stored message. *)
Lemma append_found c input uuid at_ms key db row m :
  wf db → cm_idempotency_key input = Some key → is_blank (cm_kind input) = false →
  validate_idempotency_key (Some key) = Ok tt →
  row ∈ db.(messages) → sent_with_key (cm_sender_id input) key row = true →
  message_from_row row = Ok m → message_matches_input m c input = true →
  append_message_in_transaction c input uuid at_ms db
  = Ok ({| append_message := m; append_created := false |}, db).
Proof.
  intros Hwf Hk Hb Hv Hrow Hs Hm Hmatch.
  unfold append_message_in_transaction, bind, lift, refuse, fetch_optional, gets.
  rewrite Hk, Hb, Hv. cbn. rewrite (find_sent_with_key db row) by done.
  unfold ret. by rewrite Hm, Hmatch.
Qed.

(** The two outcomes of an append. *)
Lemma append_outcome c input uuid at_ms db r db' :
  append_message_in_transaction c input uuid at_ms db = Ok (r, db') →
  (append_created r = false ∧ db' = db)
  ∨ (append_created r = true
     ∧ append_message r = returned_message c input uuid at_ms (db.(messages_autoinc) + 1)
     ∧ ∃ row, db'.(messages) = db.(messages) ++ [row] ∧ holds_message row (append_message r)
              ∧ m_idempotency_key row = cm_idempotency_key input).
Proof.
  unfold append_message_in_transaction. intros H. m_inv.
  match goal with H : match _ with _ => _ end ?x = Ok (?o, ?y) |- _ =>
    assert (y = x) as -> by (by destruct (cm_idempotency_key input); m_inv); destruct o end;
    m_inv; [by left|right].
  match goal with H : insert_message _ _ _ _ _ = Ok _ |- _ =>
    apply insert_message_ok in H as
      (ch & payload & _ & _ & _ & _ & _ & Hp & _ & -> & _ & ->) end.
  split_and!; [done..|]. eexists. split; [done|]. split; [by apply stored_holds|done].
Qed.

(** C28 Idempotent append: once an append with a key has succeeded, whatever runs
    afterwards, repeating it (with a new uuid and at another time) returns the
    original message, reports that nothing was created and leaves the store as it
    is.  The payload must read back as itself once encoded, as every payload without
    floating-point numbers does: see [inexact_replay_conflicts]. *)
Theorem append_replay_returns_original c input uuid at_ms key db r db1 db2 uuid' at_ms' :
  reachable sha256_hex db →
  append_message_in_transaction c input uuid at_ms db = Ok (r, db1) →
  cm_idempotency_key input = Some key → reparses (cm_payload input) →
  reaches sha256_hex db1 db2 →
  append_message_in_transaction c input uuid' at_ms' db2
  = Ok ({| append_message := append_message r; append_created := false |}, db2).
Proof.
  intros Hr Hap Hk Hre Hrun.
  destruct (append_remembered _ _ _ _ _ _ _ _ _ Hr Hap Hk Hrun)
    as (Hb & Hv & Hmatch & row & Hf & Hm).
  unfold append_message_in_transaction, bind, lift, refuse, fetch_optional, gets.
  apply holds_decodes in Hm; [|by rewrite (matches_payload _ _ _ Hmatch)].
  rewrite Hk, Hb, Hv. cbn.
  rewrite Hf. unfold ret. by rewrite Hm, Hmatch.
Qed.

(** A key is never reused: after a keyed append, an append by the same sender
    with the same key but a different channel, recipient, kind, payload,
    correlation or causation is refused with a conflict. *)
Theorem append_key_conflict c input uuid at_ms key db r db1 db2 c' input' uuid' at_ms' :
  reachable sha256_hex db →
  append_message_in_transaction c input uuid at_ms db = Ok (r, db1) →
  cm_idempotency_key input = Some key → reparses (cm_payload input) →
  reaches sha256_hex db1 db2 →
  cm_idempotency_key input' = Some key → cm_sender_id input' = cm_sender_id input →
  is_blank (cm_kind input') = false → (c', input') ≠ (c, input) →
  append_message_in_transaction c' input' uuid' at_ms' db2
  = Err (Conflict "idempotency key was already used for a different message").
Proof.
  intros Hr Hap Hk Hre Hrun Hk' Hsender Hb' Hne.
  destruct (append_remembered _ _ _ _ _ _ _ _ _ Hr Hap Hk Hrun)
    as (Hb & Hv & Hmatch & row & Hf & Hm).
  apply holds_decodes in Hm; [|by rewrite (matches_payload _ _ _ Hmatch)].
  unfold append_message_in_transaction, bind, lift, refuse, fetch_optional, gets.
  rewrite Hk', Hb', Hv, Hsender. cbn.
  rewrite Hf, Hm. destruct (message_matches_input (append_message r) c' input') eqn:Hm'; [|done].
  exfalso. apply Hne. unfold message_matches_input in *. bool_facts.
  destruct input, input'; simpl in *. congruence.
Qed.

(** What one append does: it requires an unarchived channel and member sender
    and recipient; it stores one message under the next sequence number and one
    pending delivery for exactly the inbox members addressed - the recipient, or
    without one every member but the sender; stream-only members get none. *)
Theorem append_creates c input uuid at_ms db r db' :
  append_message_in_transaction c input uuid at_ms db = Ok (r, db') →
  append_created r = true →
  (∃ ch, ch ∈ db.(channels) ∧ c_id ch = c ∧ c_archived_at_ms ch = None)
  ∧ append_message r = returned_message c input uuid at_ms (db.(messages_autoinc) + 1)
  ∧ (∃ row, db'.(messages) = db.(messages) ++ [row]
            ∧ holds_message row (append_message r)
            ∧ m_idempotency_key row = cm_idempotency_key input)
  ∧ ∃ ds, db'.(agent_deliveries) = db.(agent_deliveries) ++ ds
    ∧ (∀ d, d ∈ ds → d = new_delivery (db.(messages_autoinc) + 1) (d_agent_id d) at_ms)
    ∧ ∀ a, a ∈ map d_agent_id ds ↔
           ∃ m, m ∈ db.(channel_members) ∧ cm_channel_id m = c ∧ cm_agent_id m = a
                ∧ cm_delivery_mode m = MembershipDeliveryMode.Inbox
                ∧ match cm_recipient_id input with
                  | Some recipient => a = recipient
                  | None => a ≠ cm_sender_id input
                  end.
Proof.
  unfold append_message_in_transaction. intros H Hc. m_inv.
  match goal with H : match ?o with _ => _ end _ = Ok _ |- _ => destruct o end; m_inv; [done|].
  match goal with H : insert_message _ _ _ _ _ = Ok _ |- _ =>
    apply insert_message_ok in H as
      (ch & payload & Hch & Hid & Harch & _ & _ & Hp & _ & -> & _ & ->) end.
  match goal with H : match _ with _ => _ end ?x = Ok (None, ?y) |- _ =>
    assert (y = x) as -> by (by destruct (cm_idempotency_key input); m_inv) end.
  split_and!; [by exists ch|done| |].
  - eexists. split; [done|]. split; [by apply stored_holds|done].
  - eexists. split; [done|]. split.
    + intros d (m & -> & _)%list_elem_of_fmap. done.
    + intros a'. rewrite map_map. simpl. unfold snapshot_members. rewrite list_elem_of_fmap.
      setoid_rewrite elem_of_list_filter. split.
      * intros (m & -> & Hp' & Hm). exists m. bool_facts. destruct (cm_recipient_id input); bool_facts; eauto 10.
      * intros (m & Hm & Hcm & <- & Hi & Hr'). exists m. rewrite Hcm, Hi.
        rewrite !(bool_decide_true (_ = _)) by done.
        destruct (cm_recipient_id input) as [rc|]; [by rewrite bool_decide_true|].
        by rewrite bool_decide_false.
Qed.
End append.

(** ** Cursor reads *)

Section sorted.
Context {A : Type} (key : A → Z).

Lemma sorted_filter (p : A → bool) l :
  StronglySorted (λ a b, key a < key b) l → StronglySorted (λ a b, key a < key b) (List.filter p l).
Proof.
  induction 1 as [|a l Hs IH Hall]; simpl; [constructor|]. destruct (p a); [|done].
  constructor; [done|]. rewrite Forall_forall in *. intros b [_ Hb]%elem_of_list_filter. auto.
Qed.

Lemma sort_by_key_id l :
  StronglySorted (λ a b, key a < key b) l → sort_by (by_Z key) l = l.
Proof.
  intros Hs. apply sort_by_id. induction Hs as [|a l Hs IH Hall]; constructor; [done|].
  eapply Forall_impl; [done|]. intros b Hb. simpl in Hb. unfold by_Z. apply Z.leb_le. lia.
Qed.

Lemma filter_all (p : A → bool) l : (∀ a, a ∈ l → p a = true) → List.filter p l = l.
Proof.
  induction l as [|a l IH]; simpl; [done|]. intros Hp. rewrite Hp by set_solver.
  f_equal. apply IH. set_solver.
Qed.

(** What follows the last of the first [n] is what remains after them. *)
Lemma filter_after_last n l a :
  StronglySorted (λ a b, key a < key b) l → last (take n l) = Some a →
  List.filter (λ b, key a <? key b) l = drop n l.
Proof.
  revert n. induction l as [|b l IH]; intros [|n] Hs Hl; try done.
  apply StronglySorted_inv in Hs as [Hs Hall]. rewrite Forall_forall in Hall. simpl in *.
  destruct (last (take n l)) as [a'|] eqn:Hl'.
  - assert (a' = a) as -> by (destruct (take n l); simpl in *; congruence).
    assert (key b < key a) as Hba.
    { apply Hall. apply last_Some_elem_of in Hl'.
      apply elem_of_take in Hl' as (i & Hi & _). by eapply list_elem_of_lookup_2. }
    rewrite (proj2 (Z.ltb_ge _ _)) by lia. by apply IH.
  - apply last_None in Hl' as Hnil. rewrite Hnil in Hl. injection Hl as <-.
    rewrite Z.ltb_irrefl, filter_all by (intros; apply Z.ltb_lt; auto).
    rewrite <-(take_drop n l) at 1. by rewrite Hnil.
Qed.
End sorted.

Section reads.
Context `{J : SerdeJson} {JL : SerdeJsonLaws J} (sha256_hex : string → string).

(** The payload column holds what [serde_json] wrote. *)
Definition decodes (m : MessageRow) : Prop := ∃ v, to_json v = Some (m_payload_json m).

Lemma transition_decodes operator db db' :
  transition sha256_hex operator db db' → all_rows decodes db → all_rows decodes db'.
Proof.
  intros Ht. by_operations Ht; preserves_tac;
    (apply preserves_insert_row; [done|]; eexists; simpl; unfold to_string in *; by m_inv).
Qed.

Lemma reachable_decodes db m :
  reachable sha256_hex db → m ∈ db.(messages) → ∃ msg, message_from_row m = Ok msg.
Proof using JL.
  intros Hr Hm. destruct (reaches_invariant sha256_hex (all_rows decodes)) with empty_db db m
    as [v Hv]; [apply transition_decodes|by intros ? ?%not_elem_of_nil|done|done|].
  unfold message_from_row, parse_json. destruct (encoded_parses _ _ Hv) as [v' ->]. simpl. eauto.
Qed.

Lemma collect_total {A B} (f : A → result B) l :
  (∀ a, a ∈ l → ∃ b, f a = Ok b) → ∃ bs, collect f l = Ok bs.
Proof.
  induction l as [|a l IH]; simpl; [eauto|]. intros Hf.
  destruct (Hf a) as [b ->]; [set_solver|]. destruct IH as [bs ->]; [set_solver|]. simpl. eauto.
Qed.

Lemma collect_last {A B} (f : A → result B) l bs b :
  collect f l = Ok bs → last bs = Some b → ∃ a, last l = Some a ∧ f a = Ok b.
Proof.
  revert bs. induction l as [|a l IH]; intros bs H Hl; simpl in H; m_inv; [done|].
  destruct l as [|a' l]; [simpl in *; m_inv; naive_solver|].
  match goal with H : collect _ _ = Ok ?bs |- _ =>
    destruct bs; [simpl in H; m_inv; discriminate|]; edestruct IH as (x & ? & ?); eauto end.
Qed.

(** The messages of a channel after a cursor. *)
Definition log_after (c : string) (after : Z) (db : Db) : list MessageRow :=
  List.filter (λ m, (m_channel_id m ==? c) && (after <? m_seq m)) db.(messages).

Lemma log_after_next c after next db :
  after ≤ next → log_after c next db = List.filter (λ m, next <? m_seq m) (log_after c after db).
Proof.
  intros Hle. unfold log_after. induction db.(messages) as [|m l IH]; simpl; [done|].
  rewrite IH. destruct (bool_decide _); simpl; [|done].
  destruct (Z.ltb_spec next (m_seq m)) as [Hn|Hn], (Z.ltb_spec after (m_seq m)); simpl; try lia.
  - by rewrite (proj2 (Z.ltb_lt _ _)).
  - by rewrite (proj2 (Z.ltb_ge _ _)).
  - done.
Qed.

(** Cursor paging is total and loses nothing: a read of an existing channel
    from a nonnegative cursor succeeds, returns the next messages of the channel
    in order (at most the clamped limit), and the log after the returned cursor is
    exactly the log that page did not return. *)
Theorem list_messages_pages c after lim db :
  reachable sha256_hex db → has_channel db c = true → 0 ≤ after →
  let n := Z.to_nat (clamp lim 1 500) in
  ∃ page, list_messages c after lim db = Ok (page, db)
    ∧ collect message_from_row (take n (log_after c after db)) = Ok (page_messages page)
    ∧ log_after c (page_next_cursor page) db = drop n (log_after c after db).
Proof using JL.
  intros Hr Hch Hafter n. pose proof (wf_log _ (reachable_wf _ _ Hr)) as [Hsorted _].
  assert (StronglySorted (λ a b, m_seq a < m_seq b) (log_after c after db)) as Hs
    by by apply sorted_filter.
  destruct (collect_total message_from_row (take n (log_after c after db))) as [ms Hms].
  { intros m (i & Hi & _)%elem_of_take. eapply reachable_decodes; [done|].
    apply list_elem_of_lookup_2, elem_of_list_filter in Hi as [_ Hm]. exact Hm. }
  exists {| page_messages := ms;
            page_next_cursor := match last ms with Some m => msg_seq m | None => after end |}.
  split; [|split; [exact Hms|]]; simpl.
  - unfold list_messages, ensure_exists, bind, lift, refuse, count, gets, select.
    rewrite (proj2 (Z.ltb_ge _ _)) by lia. cbn.
    rewrite (bool_decide_false (length _ = O)).
    + unfold gets, ret, limit. fold (log_after c after db).
      rewrite sort_by_key_id by done. fold n. by rewrite Hms.
    + unfold has_channel in Hch. apply existsb_exists in Hch as (ch & Hin & Hid).
      intros Hz%length_zero_iff_nil. eapply in_nil. rewrite <-Hz. by apply filter_In.
  - destruct (last ms) as [m|] eqn:Hl.
    + destruct (collect_last _ _ _ _ Hms Hl) as (row & Hrow & (-> & _)%message_from_row_ok).
      rewrite (log_after_next c after); [by apply filter_after_last|].
      assert (row ∈ log_after c after db) as Hin.
      { apply last_Some_elem_of, elem_of_take in Hrow as (i & Hi & _).
        by eapply list_elem_of_lookup_2. }
      apply elem_of_list_filter in Hin as [Hp _]. bool_facts. lia.
    + apply last_None in Hl as ->. destruct (log_after c after db) as [|m l] eqn:Hlog;
        [by rewrite drop_nil|]. exfalso.
      assert (n ≠ O) by (unfold n, clamp; lia). destruct n; [done|]. simpl in Hms. by m_inv.
Qed.
End reads.

(** ** The theorems at concrete states *)

Lemma run_reserve : reaches plain_sha256 db_asked db_reserved.
Proof.
  apply (run_once op_reserve false); [|done|done].
  intros. eapply t_reserve; [|done]. by apply fresh_by_computation.
Qed.

(** The message is asked, reserved by its reader, and asked again. *)
Lemma append_replay_returns_original_witness :
  ∃ r, append_message_in_transaction "C" ask "M9" 99 db_reserved = Ok (r, db_reserved)
       ∧ msg_id (append_message r) = "M1" ∧ append_created r = false.
Proof.
  destruct (exec_ok op_ask db_fleet) as [r Hr]; [vm_compute; reflexivity|].
  eexists. split.
  - eapply (append_replay_returns_original plain_sha256 "C" ask "M1" 4 "k" db_fleet r db_asked);
      [exact reachable_fleet|exact Hr|reflexivity|by intros s [= <-]|exact run_reserve].
  - vm_compute in Hr. injection Hr as <-. split; reflexivity.
Defined.

(** A payload that reads back as another value makes its own repetition look like
    a different message: the identical append is refused with a conflict. *)
Definition ask_inexact : CreateMessage :=
  {| cm_sender_id := "A"; cm_idempotency_key := Some "k"; cm_recipient_id := None;
     cm_kind := "ask"; cm_payload := inexact; cm_correlation_id := None;
     cm_causation_id := None |}.
Theorem inexact_replay_conflicts :
  ∃ r db1, append_message_in_transaction "C" ask_inexact "M1" 4 db_fleet = Ok (r, db1)
    ∧ reachable plain_sha256 db_fleet ∧ append_created r = true
    ∧ append_message_in_transaction "C" ask_inexact "M9" 99 db1
      = Err (Conflict "idempotency key was already used for a different message").
Proof.
  eexists _, _. split; [vm_compute; reflexivity|]. split; [exact reachable_fleet|].
  split; vm_compute; reflexivity.
Qed.

Definition ask_other : CreateMessage :=
  {| cm_sender_id := "A"; cm_idempotency_key := Some "k"; cm_recipient_id := None;
     cm_kind := "ask"; cm_payload := "something else"; cm_correlation_id := None;
     cm_causation_id := None |}.

Lemma append_key_conflict_witness :
  append_message_in_transaction "C" ask_other "M9" 99 db_reserved
  = Err (Conflict "idempotency key was already used for a different message").
Proof.
  destruct (exec_ok op_ask db_fleet) as [r Hr]; [vm_compute; reflexivity|].
  eapply (append_key_conflict plain_sha256 "C" ask "M1" 4 "k" db_fleet r db_asked);
    [exact reachable_fleet|exact Hr|reflexivity|by intros s [= <-]|exact run_reserve|reflexivity|reflexivity
    |vm_compute; reflexivity|discriminate].
Defined.

Lemma append_creates_witness :
  ∃ r, op_ask db_fleet = Ok (r, db_asked)
  ∧ ∃ ds, db_asked.(agent_deliveries) = [] ++ ds
    ∧ (∀ d, d ∈ ds → d = new_delivery 1 (d_agent_id d) 4)
    ∧ ∀ a, a ∈ map d_agent_id ds ↔
           ∃ m, m ∈ db_fleet.(channel_members) ∧ cm_channel_id m = "C" ∧ cm_agent_id m = a
                ∧ cm_delivery_mode m = MembershipDeliveryMode.Inbox ∧ a ≠ "A".
Proof.
  destruct (exec_ok op_ask db_fleet) as [r Hr]; [vm_compute; reflexivity|].
  exists r. split; [exact Hr|].
  apply (append_creates "C" ask "M1" 4 db_fleet r db_asked Hr).
  vm_compute in Hr. injection Hr as <-. reflexivity.
Defined.

(** Two messages, read one at a time. *)
Lemma list_messages_pages_witness :
  ∃ page, list_messages "C" 0 1 db_two = Ok (page, db_two)
    ∧ collect message_from_row (take 1 (log_after "C" 0 db_two)) = Ok (page_messages page)
    ∧ log_after "C" (page_next_cursor page) db_two = drop 1 (log_after "C" 0 db_two).
Proof.
  apply (list_messages_pages plain_sha256 "C" 0 1 db_two);
    [exact reachable_two|vm_compute; reflexivity|lia].
Defined.
