(* ===== verification/ChannelProps.v ===== *)
(** * Properties of channels and membership

    The one direct channel of a pair, and the read cursors of members. *)

From S2P Require Import Prelude Proto Schema Channels Messages Deliveries.
From S2P Require Import SessionFence Observations Invocations Settlement Sessions.
From S2P Require Import Lifecycle Safety System Preserve Scenario.

(** ** Foreign keys and kinds of stored rows *)

Definition members_have_channel (db : Db) : Prop :=
  ∀ m, m ∈ db.(channel_members) → has_channel db (cm_channel_id m) = true.
Definition keyed_is_direct (c : ChannelRow) : Prop :=
  is_some (c_direct_pair_key c) = true → c_conversation_kind c = ConversationKind.Direct.

Lemma has_channel_elem db id :
  has_channel db id = true ↔ ∃ c, c ∈ db.(channels) ∧ c_id c = id.
Proof.
  unfold has_channel. rewrite existsb_exists. setoid_rewrite <-list_elem_of_In.
  by setoid_rewrite bool_decide_eq_true.
Qed.

Section rows.
Context `{J : SerdeJson} (sha256_hex : string → string).

Lemma keep_channel_id (f : ChannelRow → ChannelRow) p :
  (∀ c, c_id (f c) = c_id c) → preserves members_have_channel (update p f).
Proof.
  intros Hf. apply preserves_update. intros db HI _ m Hm. specialize (HI m Hm).
  apply has_channel_elem in HI as (c & Hc & Hid). apply has_channel_elem.
  exists (update_row p f c). split; [apply list_elem_of_fmap; eauto|].
  unfold update_row. destruct (p c); [by rewrite Hf|done].
Qed.

Lemma transition_members operator db db' :
  transition sha256_hex operator db db' → members_have_channel db → members_have_channel db'.
Proof.
  intros Ht. by_operations Ht; preserves_tac.
  all: try (by apply keep_channel_id).
  all: first
    [ apply preserves_update; intros db0 HI _ m; simpl;
      intros (m0 & Hm & ->)%elem_of_update_row; specialize (HI m0 Hm); by case_match
    | apply preserves_insert; intros db0 HI _ _ _ Hfk m; simpl;
      (intros [Hm| ->%list_elem_of_singleton]%elem_of_app;
       [exact (HI m Hm)|by apply andb_true_iff in Hfk as [? _]])
    | apply preserves_insert; intros db0 HI _ _ _ _ m Hm; specialize (HI m Hm);
      apply has_channel_elem in HI as (c0 & ? & ?); apply has_channel_elem; exists c0;
      simpl; set_solver ].
Qed.

Lemma transition_keyed operator db db' :
  transition sha256_hex operator db db' → all_rows keyed_is_direct db → all_rows keyed_is_direct db'.
Proof.
  intros Ht. by_operations Ht; preserves_tac.
  all: first [by apply preserves_update_row | by apply preserves_insert_row].
Qed.

Lemma reachable_members db : reachable sha256_hex db → members_have_channel db.
Proof.
  intros Hr. eapply (reaches_invariant sha256_hex); [apply transition_members| |exact Hr].
  by intros ? ?%not_elem_of_nil.
Qed.
Lemma reachable_keyed db : reachable sha256_hex db → all_rows keyed_is_direct db.
Proof.
  intros Hr. eapply (reaches_invariant sha256_hex); [apply transition_keyed| |exact Hr].
  by intros ? ?%not_elem_of_nil.
Qed.
End rows.

(** ** The roster of a direct channel *)

(** The participants of a channel with their delivery modes. *)
Definition roster (c : string) (db : Db) : list (string * MembershipDeliveryMode.t) :=
  map (λ m, (cm_agent_id m, cm_delivery_mode m))
    (List.filter (λ m, cm_channel_id m ==? c) db.(channel_members)).

Definition is_direct (c : string) (db : Db) : Prop :=
  ∃ ch, ch ∈ db.(channels) ∧ c_id ch = c ∧ c_conversation_kind ch = ConversationKind.Direct.

(** [c] is a direct channel with the two participants [K]. *)
Definition direct_with (c : string) (K : list (string * MembershipDeliveryMode.t)) (db : Db)
    : Prop := is_direct c db ∧ roster c db = K ∧ length K = 2%nat.

Lemma direct_full c K db m :
  direct_with c K db → before_insert db m = None → cm_channel_id m ≠ c.
Proof.
  intros ((ch & Hch & Hid & Hk) & Hro & Hlen) Hb <-. cbn in Hb. unfold before_insert_member in Hb.
  rewrite (proj2 (existsb_exists _ _)) in Hb.
  - unfold roster in Hro. rewrite <-Hro, length_map in Hlen. rewrite Hlen in Hb. done.
  - exists ch. rewrite <-list_elem_of_In, Hid, Hk. by rewrite !bool_decide_true.
Qed.

Lemma insert_member_direct c K ch joined seq m :
  preserves (direct_with c K) (insert_member ch joined seq m).
Proof.
  unfold insert_member. apply preserves_insert. intros db HI Hb _ _ _.
  pose proof (direct_full _ _ _ _ HI Hb) as Hne. destruct HI as (Hd & Hro & Hlen).
  split_and!; [exact Hd| |done]. unfold roster. cbn. rewrite List.filter_app. cbn.
  rewrite bool_decide_false by done. rewrite app_nil_r. exact Hro.
Qed.

Lemma update_channel_direct c K p f :
  (∀ r, c_id (f r) = c_id r ∧ c_conversation_kind (f r) = c_conversation_kind r) →
  preserves (direct_with c K) (update (R := ChannelRow) p f).
Proof.
  intros Hf. apply preserves_update. intros db ((ch & Hch & Hid & Hk) & Hro & Hlen) _.
  split_and!; [|exact Hro|done]. exists (update_row p f ch).
  split; [apply list_elem_of_fmap; eauto|]. unfold update_row.
  destruct (Hf ch) as [H1 H2]. destruct (p ch); by rewrite ?H1, ?H2.
Qed.

Lemma read_direct c K p seq : preserves (direct_with c K) (update p (set_read_through seq)).
Proof.
  apply preserves_update. intros db (Hd & Hro & Hlen) _. split_and!; [exact Hd| |done].
  rewrite <-Hro. unfold roster. cbn. induction db.(channel_members) as [|m l IH]; [done|].
  assert (cm_channel_id (update_row p (set_read_through seq) m) = cm_channel_id m
    ∧ cm_agent_id (update_row p (set_read_through seq) m) = cm_agent_id m
    ∧ cm_delivery_mode (update_row p (set_read_through seq) m) = cm_delivery_mode m)
    as (Hc & Ha & Hm) by (unfold update_row; by destruct (p m)).
  cbn. rewrite (bool_decide_ext _ (cm_channel_id m = c)) by by rewrite Hc.
  destruct (bool_decide _); cbn; by rewrite IH, ?Ha, ?Hm.
Qed.

Lemma insert_channel_direct c K (r : ChannelRow) : preserves (direct_with c K) (insert r).
Proof.
  apply preserves_insert. intros db ((ch & Hch & Hid) & Hro & Hlen) _ _ _ _.
  split_and!; [|exact Hro|done]. exists ch. cbn. set_solver.
Qed.

#[export] Hint Resolve insert_member_direct read_direct insert_channel_direct : preserve.

Section direct.
Context `{J : SerdeJson} {JL : SerdeJsonLaws J} (sha256_hex : string → string).

Lemma transition_direct c K operator db db' :
  transition sha256_hex operator db db' → direct_with c K db → direct_with c K db'.
Proof.
  intros Ht. by_operations Ht; preserves_tac; by apply update_channel_direct.
Qed.

Lemma validate_direct_swap m1 m2 p :
  validate_direct_members [m1; m2] = Ok p → validate_direct_members [m2; m1] = Ok p.
Proof.
  unfold validate_direct_members, sort_by. simpl. unfold by_str.
  destruct (String.leb (ccm_agent_id m1) (ccm_agent_id m2)) eqn:H12;
    destruct (String.leb (ccm_agent_id m2) (ccm_agent_id m1)) eqn:H21; simpl; try done.
  - rewrite (bool_decide_true (ccm_agent_id m1 = _)); [done|]. by apply String.leb_antisym.
  - destruct (String.leb_total (ccm_agent_id m1) (ccm_agent_id m2)); congruence.
Qed.

(** The two participants are distinct and in order. *)
Lemma validate_direct_ok input p :
  validate_direct_members input = Ok p →
  String.leb (ccm_agent_id p.1) (ccm_agent_id p.2) = true ∧ ccm_agent_id p.1 ≠ ccm_agent_id p.2.
Proof.
  unfold validate_direct_members. intros H.
  destruct (sort_by _ input) as [|m1 [|m2 [|]]] eqn:Hs; try done. m_inv. bool_facts.
  split; [|done]. pose proof (sort_by_perm (by_str ccm_agent_id) input) as Hp.
  apply Permutation_length in Hp. rewrite Hs in Hp. destruct input as [|a [|b [|]]]; try done.
  unfold sort_by in Hs. simpl in Hs. unfold by_str in Hs. destruct (String.leb_total (ccm_agent_id a) (ccm_agent_id b)).
  all: destruct (String.leb (ccm_agent_id a) (ccm_agent_id b)) eqn:E; simplify_eq; done.
Qed.

Lemma map_sort_by {A B} (f : A → B) leA leB (l : list A) :
  (∀ a b, leA a b = leB (f a) (f b)) → map f (sort_by leA l) = sort_by leB (map f l).
Proof.
  intros Hle. unfold sort_by. induction l as [|a l IH]; simpl; [done|]. rewrite <-IH.
  generalize (foldr (sort_insert leA) [] l) as s. intros s.
  induction s as [|b s IHs]; simpl; [done|]. rewrite <-Hle. destruct (leA a b); simpl; [done|].
  by rewrite IHs.
Qed.

(** What [ensure_direct_modes_match] compares. *)
Definition sorted_roster (c : string) (db : Db) : list (string * string) :=
  map (λ p, (p.1, as_str p.2)) (sort_by (by_str fst) (roster c db)).

Lemma modes_match_eq c members db :
  ensure_direct_modes_match c members db
  = if bool_decide (sorted_roster c db
                    = map (λ m, (ccm_agent_id m, as_str (ccm_delivery_mode m))) members)
    then Ok (tt, db)
    else Err (Conflict "direct conversation participant delivery modes are immutable").
Proof.
  unfold ensure_direct_modes_match, bind, select, gets, lift, refuse, sorted_roster, roster.
  rewrite <-(map_sort_by (λ m, (cm_agent_id m, cm_delivery_mode m)) (by_str cm_agent_id)) by done.
  rewrite map_map. cbn. by destruct (bool_decide _).
Qed.

Lemma ensure_agents_eq members db :
  (∀ m, m ∈ members → has_agent db (ccm_agent_id m) = true) ↔
  for_each members (λ m, ensure_exists a_id "agent" (ccm_agent_id m)) db = Ok (tt, db).
Proof.
  assert (∀ id, ensure_exists a_id "agent" id db
                = if has_agent db id then Ok (tt, db) else Err (NotFound "agent" id)) as He.
  { intros id. unfold ensure_exists, bind, count, gets, lift, refuse, has_agent. cbn.
    induction db.(agents) as [|a l IH]; [done|]. simpl. by destruct (bool_decide (a_id a = id)). }
  induction members as [|m members IH]; simpl; [set_solver|].
  unfold bind. rewrite He. destruct (has_agent db (ccm_agent_id m)) eqn:E.
  - rewrite <-IH. split; [set_solver|]. intros Hall m'. rewrite elem_of_cons. intros [->|]; auto.
  - split; [|done]. intros Hall. specialize (Hall m). rewrite E in Hall. set_solver.
Qed.

Definition member_row (c : string) (joined : Z) (m : CreateChannelMember) : MemberRow :=
  {| cm_channel_id := c; cm_agent_id := ccm_agent_id m; cm_joined_at_ms := joined;
     cm_delivery_mode := ccm_delivery_mode m; cm_read_through_seq := 0 |}.

Lemma insert_members_ok c joined members db u db' :
  for_each members (insert_member c joined 0) db = Ok (u, db') →
  db' = set_channel_members (db.(channel_members) ++ map (member_row c joined) members) db.
Proof.
  revert db. induction members as [|m members IH]; intros db H; simpl in H; m_inv.
  - rewrite app_nil_r. by destruct db.
  - match goal with H : insert_member _ _ _ _ _ = Ok _ |- _ =>
      apply insert_ok in H as (_ & _ & _ & _ & ->) end.
    apply IH in H as ->. simpl. by rewrite <-app_assoc.
Qed.

Definition requested (p : CreateChannelMember * CreateChannelMember) : list (string * string) :=
  map (λ m, (ccm_agent_id m, as_str (ccm_delivery_mode m))) [p.1; p.2].

(** The roster of a channel that was just created. *)
Lemma fresh_roster c joined p db chans :
  members_have_channel db → has_channel db c = false →
  String.leb (ccm_agent_id p.1) (ccm_agent_id p.2) = true →
  sorted_roster c (set_channel_members
    (db.(channel_members) ++ map (member_row c joined) [p.1; p.2]) (set_channels chans db))
  = requested p.
Proof.
  intros Hm Hc Hle. unfold sorted_roster, roster. cbn. rewrite List.filter_app.
  rewrite (filter_none _ db.(channel_members)).
  - cbn. rewrite !bool_decide_true by done. cbn. unfold by_str. cbn. by rewrite Hle.
  - intros m Hin%Hm. apply bool_decide_eq_false. intros <-. congruence.
Qed.

Lemma find_pair_key db row key :
  wf db → row ∈ db.(channels) → c_direct_pair_key row = Some key →
  List.find (λ r, c_direct_pair_key r ==? Some key) db.(channels) = Some row.
Proof.
  intros Hwf Hrow Hk. destruct (List.find _ _) as [row'|] eqn:Hf.
  - apply find_some_elem in Hf as [Hrow' Hk']. bool_facts. f_equal.
    eapply (no_conflict_eq db.(channels)); [apply Hwf|done..|].
    cbn. unfold conflict_channel, both_eq. rewrite Hk', Hk, (bool_decide_true (key = _)) by done.
    by rewrite !orb_true_r.
  - pose proof (find_none_elem _ _ _ Hf Hrow) as Hn. cbv beta in Hn. by rewrite Hk, bool_decide_true in Hn.
Qed.

Lemma open_direct_ok input uuid name_uuid now db ch created db1 :
  reachable sha256_hex db →
  open_direct_pair input uuid name_uuid now db = Ok ((ch, created), db1) →
  ∃ p row, validate_direct_members input = Ok p
    ∧ (∀ m, m ∈ [p.1; p.2] → has_agent db1 (ccm_agent_id m) = true)
    ∧ row ∈ db1.(channels)
    ∧ c_direct_pair_key row = Some (direct_pair_key (ccm_agent_id p.1) (ccm_agent_id p.2))
    ∧ channel_from_row row = Ok ch ∧ sorted_roster (c_id row) db1 = requested p.
Proof using JL.
  intros Hr H. pose proof (reachable_members _ _ Hr) as Hmem.
  unfold open_direct_pair, open_direct_in_transaction in H. m_inv.
  match goal with H : validate_direct_members _ = Ok ?p |- _ =>
    rename H into Hv; exists p; destruct (validate_direct_ok _ _ Hv) as [Hle _] end.
  match goal with H : for_each _ _ ?x = Ok (_, ?y) |- _ =>
    assert (y = x) as -> by (eapply (keeps_for_each (λ d, d)); [|exact H]; intros;
                             unfold ensure_exists; keeps_tac);
    pose proof (proj2 (ensure_agents_eq _ _) H) as Hag end.
  destruct (List.find _ _) as [row|] eqn:Hf; m_inv.
  - bool_facts. exists row.
    match goal with H : channel_from_row _ = Ok _ |- _ =>
      destruct (channel_from_row_ok _ _ H) as (Hid & _) end.
    match goal with H : ensure_direct_modes_match _ _ _ = Ok _ |- _ =>
      rewrite modes_match_eq in H; case_bool_decide; [|done] end. m_inv.
    simplify_eq. split_and!; try done. by rewrite <-Hid.
  - unfold insert_direct_pair, to_string in *. m_inv. simplify_eq.
    match goal with H : insert _ _ = Ok _ |- _ => apply insert_ok in H as (_ & _ & Hu & _ & ->) end.
    match goal with H : for_each _ _ _ = Ok _ |- _ => apply insert_members_ok in H as -> end.
    eexists. split; [done|]. split; [exact Hag|]. cbn [channels set_channel_members].
    split; [apply elem_of_app; right; by apply list_elem_of_singleton|]. split; [done|].
    split; [unfold channel_from_row, parse_json; simpl; by erewrite empty_object_reparses|].
    apply (fresh_roster uuid now _ db); [done| |done].
    apply no_conflict_app in Hu as (_ & _ & Hu). apply not_true_iff_false.
    intros (c & Hc & Hid)%has_channel_elem. specialize (Hu c _ Hc (proj2 (list_elem_of_singleton _ _) eq_refl)).
    cbn in Hu. unfold conflict_channel in Hu. cbn in Hu. by rewrite bool_decide_true in Hu.
Qed.

(** A pair has one direct channel: once it was opened, whatever runs afterwards
    and in whichever order the participants are named, opening it again returns
    the same channel, creates nothing and leaves the store as it is. *)
Theorem direct_pair_opened_once m1 m2 uuid name_uuid now db ch created db1 db2
    uuid' name_uuid' now' :
  reachable sha256_hex db →
  open_direct_pair [m1; m2] uuid name_uuid now db = Ok ((ch, created), db1) →
  reaches sha256_hex db1 db2 →
  open_direct_pair [m2; m1] uuid' name_uuid' now' db2 = Ok ((ch, false), db2).
Proof using JL.
  intros Hr Hop Hrun. destruct (open_direct_ok _ _ _ _ _ _ _ _ Hr Hop)
    as (p & row & Hv%validate_direct_swap & Hag & Hrow & Hkey & Hch & Hros).
  pose proof (reachable_wf _ _ Hr) as Hwf.
  assert (reachable sha256_hex db1) as Hr1.
  { eapply rtc_r; [exact Hr|]. exists false. by eapply t_open_direct_pair. }
  destruct (reaches_safe _ _ _ (reachable_wf _ _ Hr1) Hrun) as [Hwf2 He].
  assert (c_conversation_kind row = ConversationKind.Direct) as Hdir.
  { apply (reachable_keyed _ _ Hr1 row Hrow). by rewrite Hkey. }
  assert (direct_with (c_id row) (roster (c_id row) db2) db2
          ∧ roster (c_id row) db2 = roster (c_id row) db1) as [_ Hro2].
  { enough (direct_with (c_id row) (roster (c_id row) db1) db2) as (? & Heq & ?)
      by (rewrite Heq; by split_and!).
    eapply (reaches_invariant sha256_hex); [apply transition_direct| |exact Hrun].
    split_and!; [by exists row|done|]. apply (f_equal length) in Hros.
    unfold sorted_roster in Hros. rewrite length_map in Hros.
    by rewrite (Permutation_length (sort_by_perm _ _)) in Hros. }
  assert (row ∈ db2.(channels)) as Hrow2.
  { eapply stuck_elem; [apply (ev_channels _ _ _ He)| |done].
    intros c2 Hs. inversion Hs; congruence. }
  unfold open_direct_pair, open_direct_in_transaction, bind, lift, fetch_optional, gets.
  rewrite Hv. rewrite (proj1 (ensure_agents_eq _ _)).
  - change (rows db2) with db2.(channels). rewrite (find_pair_key db2 row _ Hwf2 Hrow2 Hkey), Hch.
    destruct (channel_from_row_ok _ _ Hch) as (-> & _). rewrite modes_match_eq.
    rewrite bool_decide_true; [done|]. unfold sorted_roster in *. by rewrite Hro2.
  - intros m Hm. apply Hag in Hm. unfold has_agent in *. rewrite existsb_exists in *.
    destruct Hm as (ag & Hin & Hid). exists ag. split; [|done]. apply list_elem_of_In.
    eapply stuck_elem; [apply (ev_agents _ _ _ He)|by intros ? ?|by apply list_elem_of_In].
Qed.
End direct.

(** ** Read cursors *)

Definition committed (c : string) (seq : Z) (db : Db) : Prop :=
  ∃ m, m ∈ db.(messages) ∧ m_channel_id m = c ∧ m_seq m = seq.
Definition cursors_committed (db : Db) : Prop :=
  ∀ m, m ∈ db.(channel_members) →
       cm_read_through_seq m = 0 ∨ committed (cm_channel_id m) (cm_read_through_seq m) db.

Section cursors.
Context `{J : SerdeJson} (sha256_hex : string → string).

Lemma insert_message_cursors (r : MessageRow) : preserves cursors_committed (insert r).
Proof.
  apply preserves_insert. intros db HI _ _ _ _ m Hm.
  destruct (HI m Hm) as [?|(msg & ? & ?)]; [by left|]. right. exists msg. cbn. set_solver.
Qed.
Lemma insert_member_cursors c joined m : preserves cursors_committed (insert_member c joined 0 m).
Proof.
  apply preserves_insert. intros db HI _ _ _ _ m'. cbn.
  intros [Hm| ->%list_elem_of_singleton]%elem_of_app; [exact (HI m' Hm)|by left].
Qed.
Lemma add_member_cursors c a mode now : preserves cursors_committed (add_member_with_mode c a mode now).
Proof.
  intros db [] db' HI H. unfold add_member_with_mode, ensure_exists in H. m_inv.
  match goal with H : channel_row _ _ = Ok _ |- _ => apply channel_row_ok in H as (-> & _) end.
  destruct (List.find _ _); m_inv; [done|].
  unfold insert_member in *. match goal with H : insert _ _ = Ok _ |- _ =>
    apply insert_ok in H as (_ & _ & _ & _ & ->) end.
  intros m'. cbn. intros [Hm| ->%list_elem_of_singleton]%elem_of_app; [exact (HI m' Hm)|]. cbn.
  unfold max_channel_seq. destruct (max_by m_seq _) as [z|] eqn:Hz; [right|by left].
  apply max_by_elem in Hz as (msg & [Hc Hin]%elem_of_list_filter & <-). bool_facts. by exists msg.
Qed.

(** What an accepted position is. *)
Lemma advance_ok c a seq db n db' :
  wf db → advance_member_read_cursor c a seq db = Ok (n, db') →
  (seq = 0 ∨ 0 < seq ∧ committed c seq db)
  ∧ ∃ m, m ∈ db.(channel_members) ∧ cm_channel_id m = c ∧ cm_agent_id m = a
    ∧ n = Z.max (cm_read_through_seq m) seq
    ∧ db' = set_channel_members
              (map (λ m', if (cm_channel_id m' ==? c) && (cm_agent_id m' ==? a)
                          then set_read_through n m' else m') db.(channel_members)) db.
Proof.
  intros Hwf H. unfold advance_member_read_cursor, ensure_exists in H. m_inv. bool_facts.
  match goal with H : ensure_member _ _ _ = Ok _ |- _ =>
    apply ensure_member_ok in H as [-> (m & Hm & Hc & Ha)] end.
  match goal with H : (if _ then _ else _) ?x = Ok (_, ?y) |- _ =>
    assert (y = x ∧ (seq = 0 ∨ 0 < seq ∧ committed c seq x)) as [-> Hseq] end.
  { destruct (Z.ltb_spec 0 seq); m_inv; [|split; [done|left; lia]]. split; [done|right].
    split; [done|]. match goal with H : existsb _ _ = true |- _ =>
      apply existsb_exists in H as (msg & Hin & Hmsg) end. bool_facts.
    exists msg. by rewrite list_elem_of_In. }
  match goal with H : update _ _ _ = Ok _ |- _ => apply update_ok in H as (-> & _) end.
  assert (∀ m', m' ∈ db.(channel_members) → cm_channel_id m' = c → cm_agent_id m' = a → m' = m)
    as Huniq.
  { intros m' Hm' Hc' Ha'. eapply (no_conflict_eq db.(channel_members)); [apply Hwf|done..|].
    cbn. unfold conflict_member. by rewrite !bool_decide_true by congruence. }
  match goal with H : ?r ∈ rows _ |- _ => apply elem_of_update_row in H as (m' & Hm' & ->) end.
  assert (m' = m) as ->
    by (match goal with H1 : cm_channel_id (if ?b then _ else _) = c |- _ =>
          destruct b; by apply Huniq end).
  split; [done|]. exists m.
  rewrite (bool_decide_true (cm_channel_id m = c)), (bool_decide_true (cm_agent_id m = a)) by done.
  cbn.
  assert (∀ x : bool, cm_read_through_seq (if x then set_read_through seq m else m)
               = if x then seq else cm_read_through_seq m) as -> by by intros [].
  split_and!; try done; [destruct (Z.ltb_spec (cm_read_through_seq m) seq); lia|].
  f_equal. apply map_ext_in. intros m' Hm2%list_elem_of_In. unfold update_row.
  destruct (bool_decide_reflect (cm_channel_id m' = c)) as [Hc'|]; [|done].
  destruct (bool_decide_reflect (cm_agent_id m' = a)) as [Ha'|]; [|done]. cbn.
  rewrite (Huniq m') by done. destruct (Z.ltb_spec (cm_read_through_seq m) seq); [done|].
  by destruct m.
Qed.

Lemma advance_cursors c a seq db n db' :
  wf db → advance_member_read_cursor c a seq db = Ok (n, db') →
  cursors_committed db → cursors_committed db'.
Proof.
  intros Hwf [Hseq (m & Hm & Hc & Ha & -> & ->)]%advance_ok HI; [|done].
  intros m' (m0 & -> & Hm0)%list_elem_of_fmap. destruct (_ && _) eqn:Hkey; [|exact (HI m0 Hm0)].
  bool_facts. cbn. replace (cm_channel_id m0) with c by done.
  destruct (Z.max_spec (cm_read_through_seq m) seq) as [[_ ->]|[_ ->]].
  - destruct Hseq as [->|[_ Hcs]]; [by left|by right].
  - destruct (HI m Hm) as [->|Hcom]; [by left|right]. rewrite Hc in Hcom. exact Hcom.
Qed.

#[local] Hint Resolve insert_message_cursors insert_member_cursors add_member_cursors : preserve.

Lemma transition_cursors operator db db' :
  wf db → transition sha256_hex operator db db' → cursors_committed db → cursors_committed db'.
Proof.
  intros Hwf Ht. destruct Ht; try (by eapply advance_cursors). all: by_run; preserves_tac.
  all: by apply preserves_update.
Qed.

(** A read cursor always names a committed message of its channel, or is 0. *)
Theorem read_cursor_committed db m :
  reachable sha256_hex db → m ∈ db.(channel_members) →
  cm_read_through_seq m = 0
  ∨ ∃ msg, msg ∈ db.(messages) ∧ m_channel_id msg = cm_channel_id m
           ∧ m_seq msg = cm_read_through_seq m.
Proof.
  intros Hr. enough (wf db ∧ cursors_committed db) as [_ HI] by apply HI. revert Hr.
  apply (reaches_invariant sha256_hex (λ db, wf db ∧ cursors_committed db)).
  - intros op d d' Ht [Hwf HI]. split; [by eapply transition_safe|].
    by eapply transition_cursors.
  - split; [apply wf_empty|by intros ? ?%not_elem_of_nil].
Qed.

(** Advancing a read cursor sets it to the larger of the stored and the given
    position, returns it, and changes nothing else; the given position is 0 or a
    committed message of the channel. *)
Theorem advance_read_cursor_max c a seq db n db' :
  reachable sha256_hex db → advance_member_read_cursor c a seq db = Ok (n, db') →
  (seq = 0 ∨ 0 < seq ∧ committed c seq db)
  ∧ ∃ m, m ∈ db.(channel_members) ∧ cm_channel_id m = c ∧ cm_agent_id m = a
    ∧ n = Z.max (cm_read_through_seq m) seq
    ∧ db' = set_channel_members
              (map (λ m', if (cm_channel_id m' ==? c) && (cm_agent_id m' ==? a)
                          then set_read_through n m' else m') db.(channel_members)) db.
Proof. intros Hr. apply advance_ok. by eapply reachable_wf. Qed.
End cursors.

(** ** The theorems at concrete states *)

Definition stream_member (id : string) : CreateChannelMember :=
  {| ccm_agent_id := id; ccm_delivery_mode := MembershipDeliveryMode.StreamOnly |}.
Definition op_direct : M (Channel * bool) :=
  open_direct_pair [inbox_member "B"; stream_member "A"] "D" "n" 5.
Definition db_direct : Db := Eval vm_compute in exec op_direct db_fleet.
Definition db_direct_asked : Db := Eval vm_compute in exec op_ask db_direct.

Lemma direct_pair_opened_once_witness :
  ∃ ch, op_direct db_fleet = Ok ((ch, true), db_direct)
    ∧ open_direct_pair [stream_member "A"; inbox_member "B"] "E" "other" 50 db_direct_asked
      = Ok ((ch, false), db_direct_asked).
Proof.
  eexists. split; [vm_compute; reflexivity|].
  eapply (direct_pair_opened_once plain_sha256 (inbox_member "B") (stream_member "A") "D" "n" 5
            db_fleet _ true db_direct).
  - exact reachable_fleet.
  - vm_compute. reflexivity.
  - apply (run_once op_ask false); [intros; by eapply t_append|done|done].
Defined.

Definition op_read : M Z := advance_member_read_cursor "C" "B" 1.
Definition db_read : Db := Eval vm_compute in exec op_read db_asked.
Lemma reachable_read : reachable plain_sha256 db_read.
Proof.
  apply (run_step op_read false db_asked);
    [intros; by eapply t_advance_read|done|done|apply reachable_asked].
Qed.
Definition reader : MemberRow :=
  {| cm_channel_id := "C"; cm_agent_id := "B"; cm_joined_at_ms := 3;
     cm_delivery_mode := MembershipDeliveryMode.Inbox; cm_read_through_seq := 1 |}.

Lemma read_cursor_committed_witness :
  cm_read_through_seq reader = 0
  ∨ ∃ msg, msg ∈ db_read.(messages) ∧ m_channel_id msg = "C" ∧ m_seq msg = 1.
Proof. apply (read_cursor_committed plain_sha256 db_read reader); [exact reachable_read|in_rows]. Defined.

Lemma advance_read_cursor_max_witness :
  (1 = 0 ∨ 0 < 1 ∧ committed "C" 1 db_asked)
  ∧ ∃ m, m ∈ db_asked.(channel_members) ∧ cm_channel_id m = "C" ∧ cm_agent_id m = "B"
    ∧ 1 = Z.max (cm_read_through_seq m) 1
    ∧ db_read = set_channel_members
              (map (λ m', if (cm_channel_id m' ==? "C") && (cm_agent_id m' ==? "B")
                          then set_read_through 1 m' else m') db_asked.(channel_members)) db_asked.
Proof.
  apply (advance_read_cursor_max plain_sha256 "C" "B" 1 db_asked);
    [exact reachable_asked|vm_compute; reflexivity].
Defined.
