(* ===== verification/SessionInv.v ===== *)
(** * Sessions, turns and attempts agree

    The invariant that ties the three tables of a session-bound attempt: a turn
    is active exactly when its binding is active on it under the same owner
    epoch, and then its invocation is armed; an uncertain turn leaves its binding
    uncertain until the binding is retired. *)

From S2P Require Import Prelude Proto Schema Channels Messages Deliveries.
From S2P Require Import SessionFence Observations Invocations Settlement Sessions.
From S2P Require Import Lifecycle Safety System Fence Attempts Preserve Scenario.

Definition bound (t : TurnRow) (s : BindingRow) : Prop :=
  s_binding_id s = t_binding_id t ∧ s_binding_generation s = t_binding_generation t.

(** The binding is in state [st] on the turn, under the turn's owner epoch. *)
Definition holds_turn (st : SessionBindingState.t) (t : TurnRow) (s : BindingRow) : Prop :=
  bound t s ∧ s_state s = st ∧ s_active_invocation_id s = Some (t_invocation_id t)
  ∧ s_owner_epoch s = t_owner_epoch t.

Record tables_agree (turns : list TurnRow) (bindings : list BindingRow) : Prop := {
  ag_turns : no_conflict turns = true;
  ag_bindings : no_conflict bindings = true;
  ag_active_turn : ∀ t, t ∈ turns → t_state t = TurnState.Active →
    ∃ s, s ∈ bindings ∧ holds_turn SessionBindingState.Active t s;
  ag_uncertain_turn : ∀ t, t ∈ turns → t_state t = TurnState.Uncertain →
    ∃ s, s ∈ bindings
         ∧ (holds_turn SessionBindingState.Uncertain t s
            ∨ bound t s ∧ s_state s = SessionBindingState.Retired);
  ag_active_binding : ∀ s, s ∈ bindings → s_state s = SessionBindingState.Active →
    ∃ t, t ∈ turns ∧ t_state t = TurnState.Active
         ∧ holds_turn SessionBindingState.Active t s;
  ag_uncertain_binding : ∀ s, s ∈ bindings →
    s_state s = SessionBindingState.Uncertain →
    ∃ t, t ∈ turns ∧ t_state t = TurnState.Uncertain
         ∧ holds_turn SessionBindingState.Uncertain t s;
}.
Definition sessions_agree (db : Db) : Prop :=
  tables_agree db.(session_binding_turns) db.(session_bindings).

Lemma turn_unique db t1 t2 :
  sessions_agree db → t1 ∈ db.(session_binding_turns) → t2 ∈ db.(session_binding_turns) →
  t_invocation_id t1 = t_invocation_id t2 → t1 = t2.
Proof.
  intros Ha H1 H2 He. eapply no_conflict_eq; [apply (ag_turns _ _ Ha)|done|done|].
  cbn. unfold conflict_turn. by rewrite bool_decide_true.
Qed.
Lemma binding_unique db s1 s2 :
  sessions_agree db → s1 ∈ db.(session_bindings) → s2 ∈ db.(session_bindings) →
  s_binding_id s1 = s_binding_id s2 → s_binding_generation s1 = s_binding_generation s2 → s1 = s2.
Proof.
  intros Ha H1 H2 Hi Hg. eapply no_conflict_eq; [apply (ag_bindings _ _ Ha)|done|done|].
  cbn. unfold conflict_binding. by rewrite (bool_decide_true (_ = _) Hi), (bool_decide_true (_ = _) Hg).
Qed.

(** ** Writes to one table *)

Lemma update_row_false {R} p (f : R → R) r : p r = false → update_row p f r = r.
Proof. unfold update_row. by intros ->. Qed.

(** A binding that is neither active nor retired may be opened, adopted or
    retired. *)
Lemma update_idle_binding (p : BindingRow → bool) f :
  (∀ s, p s = true → s_state s ≠ SessionBindingState.Active
                     ∧ s_state s ≠ SessionBindingState.Retired) →
  (∀ s, s_binding_id (f s) = s_binding_id s
        ∧ s_binding_generation (f s) = s_binding_generation s) →
  (∀ s, p s = true → s_state (f s) = SessionBindingState.Retired
                     ∨ s_state s ≠ SessionBindingState.Uncertain
                       ∧ s_state (f s) = SessionBindingState.Ready) →
  preserves sessions_agree (update p f).
Proof.
  intros Hp Hid Hf. apply preserves_update. intros db [Ht Hs Hat Hut Hab Hub] Huniq.
  assert (∀ s, s ∈ db.(session_bindings) → update_row p f s ∈ map (update_row p f) db.(session_bindings))
    as Hin by (intros; apply list_elem_of_fmap; eauto).
  split; cbn; [done|done|..].
  - intros t Htin Hst. destruct (Hat t Htin Hst) as (s & Hsin & Hh). exists s. split; [|done].
    rewrite <-(update_row_false p f s); [by apply Hin|]. destruct (p s) eqn:E; [|done].
    destruct (Hp s E), Hh as (_ & ? & _). congruence.
  - intros t Htin Hst. destruct (Hut t Htin Hst) as (s & Hsin & Hh).
    exists (update_row p f s). split; [by apply Hin|]. unfold update_row.
    destruct (p s) eqn:E; [|done]. right. destruct (Hid s) as [Hi Hg].
    destruct (Hf s E) as [Hr|[Hn _]]; [|destruct Hh as [(_ & ? & _)|(_ & ?)]; [congruence|]].
    + split; [|done]. destruct Hh as [(Hb & _)|(Hb & _)]; destruct Hb; split; congruence.
    + by destruct (Hp s E).
  - intros s' (s & Hsin & ->)%elem_of_update_row. destruct (p s) eqn:E; [|by apply Hab].
    destruct (Hf s E) as [Hr|[_ Hr]]; congruence.
  - intros s' (s & Hsin & ->)%elem_of_update_row. destruct (p s) eqn:E; [|by apply Hub].
    destruct (Hf s E) as [Hr|[_ Hr]]; congruence.
Qed.

Lemma insert_opening_binding (s : BindingRow) :
  s_state s = SessionBindingState.Opening → preserves sessions_agree (insert s).
Proof.
  intros Hst. apply preserves_insert. intros db [Ht Hs Hat Hut Hab Hub] _ _ Huniq _.
  split; cbn; [done|done|..].
  - intros t Htin Ha. destruct (Hat t Htin Ha) as (s' & ? & ?). exists s'. set_solver.
  - intros t Htin Ha. destruct (Hut t Htin Ha) as (s' & ? & ?). exists s'. set_solver.
  - intros s' [Hin| ->%list_elem_of_singleton]%elem_of_app; [by apply Hab|congruence].
  - intros s' [Hin| ->%list_elem_of_singleton]%elem_of_app; [by apply Hub|congruence].
Qed.

(** ** Writes to a turn and its binding together *)

Section settle.
Context (db : Db) (t : TurnRow) (s : BindingRow) (ft : TurnRow → TurnRow) (gs : BindingRow → BindingRow).
Context (pt : TurnRow → bool) (ps : BindingRow → bool).
Context (Ha : sessions_agree db).
Context (Ht : t ∈ db.(session_binding_turns)) (Hs : s ∈ db.(session_bindings)).
Context (Htst : t_state t = TurnState.Active).
Context (Hsst : s_state s = SessionBindingState.Active).
Context (Hon : s_active_invocation_id s = Some (t_invocation_id t)).
Context (Hpt : ∀ t', t' ∈ db.(session_binding_turns) → pt t' = true ↔ t' = t).
Context (Hps : ∀ s', s' ∈ db.(session_bindings) → ps s' = true ↔ s' = s).
Context (Hft : t_invocation_id (ft t) = t_invocation_id t ∧ t_binding_id (ft t) = t_binding_id t
               ∧ t_binding_generation (ft t) = t_binding_generation t
               ∧ t_owner_epoch (ft t) = t_owner_epoch t).
Context (Hgs : s_binding_id (gs s) = s_binding_id s
               ∧ s_binding_generation (gs s) = s_binding_generation s).
Context (Hst : t_state (ft t) = TurnState.Quiescent
               ∧ s_state (gs s) = SessionBindingState.Ready
             ∨ t_state (ft t) = TurnState.Uncertain
               ∧ s_state (gs s) = SessionBindingState.Uncertain
               ∧ s_active_invocation_id (gs s) = s_active_invocation_id s
               ∧ s_owner_epoch (gs s) = s_owner_epoch s).
Context (Hut : no_conflict (map (update_row pt ft) db.(session_binding_turns)) = true).
Context (Hus : no_conflict (map (update_row ps gs) db.(session_bindings)) = true).

Lemma settled_holds : holds_turn SessionBindingState.Active t s.
Proof using Ha Hs Hsst Ht Hon.
  destruct (ag_active_binding _ _ Ha s Hs Hsst) as (t' & Ht' & Hst' & Hh).
  assert (t' = t) as ->; [|done]. eapply turn_unique; eauto.
  destruct Hh as (_ & _ & Hon' & _). congruence.
Qed.

(** Any other row is left as it is. *)
Lemma other_turn t' :
  t' ∈ db.(session_binding_turns) → t' ≠ t →
  t' ∈ map (update_row pt ft) db.(session_binding_turns).
Proof using Hpt.
  intros Hin Hne. apply elem_of_update_row. exists t'. split; [done|].
  destruct (pt t') eqn:E; [by apply Hpt in E|done].
Qed.
Lemma other_binding s' :
  s' ∈ db.(session_bindings) → s' ≠ s → s' ∈ map (update_row ps gs) db.(session_bindings).
Proof using Hps.
  intros Hin Hne. apply elem_of_update_row. exists s'. split; [done|].
  destruct (ps s') eqn:E; [by apply Hps in E|done].
Qed.
Lemma settled_turn : ft t ∈ map (update_row pt ft) db.(session_binding_turns).
Proof using Hpt Ht. apply elem_of_update_row. exists t. by rewrite (proj2 (Hpt t Ht)). Qed.
Lemma settled_binding : gs s ∈ map (update_row ps gs) db.(session_bindings).
Proof using Hps Hs. apply elem_of_update_row. exists s. by rewrite (proj2 (Hps s Hs)). Qed.
Lemma turn_cases t' :
  t' ∈ map (update_row pt ft) db.(session_binding_turns) →
  t' = ft t ∨ t' ∈ db.(session_binding_turns) ∧ t' ≠ t.
Proof using Hpt.
  intros (t0 & Hin & ->)%elem_of_update_row. destruct (pt t0) eqn:E.
  - apply Hpt in E as ->; [by left|done].
  - right. split; [done|]. intros ->. by rewrite (proj2 (Hpt t Hin)) in E.
Qed.
Lemma binding_cases s' :
  s' ∈ map (update_row ps gs) db.(session_bindings) →
  s' = gs s ∨ s' ∈ db.(session_bindings) ∧ s' ≠ s.
Proof using Hps.
  intros (s0 & Hin & ->)%elem_of_update_row. destruct (ps s0) eqn:E.
  - apply Hps in E as ->; [by left|done].
  - right. split; [done|]. intros ->. by rewrite (proj2 (Hps s Hin)) in E.
Qed.

Lemma settled_uncertain :
  s_state (gs s) = SessionBindingState.Uncertain →
  holds_turn SessionBindingState.Uncertain (ft t) (gs s).
Proof using All.
  intros Hu. destruct settled_holds as ((Hi & Hg) & _ & Ho & He).
  destruct Hft as (F1 & F2 & F3 & F4), Hgs as [G1 G2].
  destruct Hst as [[_ ?]|(_ & _ & G3 & G4)]; [congruence|].
  repeat split; congruence.
Qed.

(** Settling an active turn together with its binding keeps the agreement. *)
Lemma settle_pair :
  sessions_agree (set_session_bindings (map (update_row ps gs) db.(session_bindings))
    (set_session_binding_turns (map (update_row pt ft) db.(session_binding_turns)) db)).
Proof using All.
  pose proof settled_holds as Hh. destruct Hft as (F1 & F2 & F3 & F4), Hgs as [G1 G2].
  split; cbn; [done|done|..].
  - intros t' [->|[Hin Hne]]%turn_cases Ht'; [destruct Hst as [[? _]|[? _]]; congruence|].
    destruct (ag_active_turn _ _ Ha t' Hin Ht') as (s' & Hs' & Hh'). exists s'. split; [|done].
    apply other_binding; [done|]. intros ->. apply Hne. eapply turn_unique; eauto.
    destruct Hh as (_ & _ & ? & _), Hh' as (_ & _ & ? & _). congruence.
  - intros t' [->|[Hin Hne]]%turn_cases Ht'.
    + exists (gs s). split; [apply settled_binding|]. left. apply settled_uncertain.
      destruct Hst as [[? _]|(_ & ? & _)]; congruence.
    + destruct (ag_uncertain_turn _ _ Ha t' Hin Ht') as (s' & Hs' & Hh'). exists s'.
      split; [|done]. apply other_binding; [done|]. intros ->.
      destruct Hh' as [(_ & ? & _)|[_ ?]]; congruence.
  - intros s' [->|[Hin Hne]]%binding_cases Hs'; [destruct Hst as [[_ ?]|(_ & ? & _)]; congruence|].
    destruct (ag_active_binding _ _ Ha s' Hin Hs') as (t' & Ht' & Hta & Hh'). exists t'.
    split; [|done]. apply other_turn; [done|]. intros ->. apply Hne.
    destruct Hh as ((? & ?) & _), Hh' as ((? & ?) & _). eapply binding_unique; eauto; congruence.
  - intros s' [->|[Hin Hne]]%binding_cases Hs'.
    + exists (ft t). split; [apply settled_turn|]. split; [|by apply settled_uncertain].
      destruct Hst as [[_ ?]|(? & _)]; congruence.
    + destruct (ag_uncertain_binding _ _ Ha s' Hin Hs') as (t' & Ht' & Hta & Hh'). exists t'.
      split; [|done]. apply other_turn; [done|]. intros ->. congruence.
Qed.
End settle.

(** An UPDATE that must affect exactly one row. *)
Lemma update_one {R} `{Table R} (p : R → bool) f db db' :
  update p f db = Ok (1%nat, db') →
  ∃ r, r ∈ rows db ∧ p r = true ∧ (∀ r', r' ∈ rows db → p r' = true ↔ r' = r)
       ∧ no_conflict (map (update_row p f) (rows db)) = true
       ∧ db' = with_rows (map (update_row p f) (rows db)) db.
Proof.
  intros (-> & Hn & _ & Hu & _)%update_ok. symmetry in Hn.
  destruct (filter_singleton p (rows db) Hn) as (r & Hr & Hp & Hf).
  exists r. split_and!; try done. intros r' Hr'. split; [|by intros ->]. intros Hp'.
  assert (r' ∈ List.filter p (rows db)) as Hin by (by apply elem_of_list_filter).
  rewrite Hf in Hin. by apply list_elem_of_singleton in Hin.
Qed.

Lemma require_one_ok n message u : require_one n message = Ok u → n = 1%nat.
Proof. unfold require_one. intros H. m_inv. by bool_facts. Qed.

Lemma fenced_update_ok fence st set message db u db' :
  fenced_update fence st set message db = Ok (u, db') →
  let p := λ s, fence_matches fence s && st s in
  ∃ s, s ∈ db.(session_bindings) ∧ fence_matches fence s = true ∧ st s = true
       ∧ (∀ s', s' ∈ db.(session_bindings) → p s' = true ↔ s' = s)
       ∧ no_conflict (map (update_row p set) db.(session_bindings)) = true
       ∧ db' = set_session_bindings (map (update_row p set) db.(session_bindings)) db.
Proof.
  unfold fenced_update. intros H. m_inv.
  match goal with H : require_one _ _ = Ok _ |- _ => apply require_one_ok in H; subst end.
  match goal with H : update _ _ _ = Ok _ |- _ =>
    apply update_one in H as (s & ? & ? & ? & ? & ->) end. bool_facts. by exists s.
Qed.

(** The active turn of an invocation is settled and its binding with it. *)
Lemma settle_turn_and_binding x ft gs fence message db db1 u db' :
  sessions_agree db →
  update (active_turn x) ft db = Ok (1%nat, db1) →
  fenced_update fence (active_on x) gs message db1 = Ok (u, db') →
  (∀ t, t_invocation_id (ft t) = t_invocation_id t ∧ t_binding_id (ft t) = t_binding_id t
        ∧ t_binding_generation (ft t) = t_binding_generation t
        ∧ t_owner_epoch (ft t) = t_owner_epoch t) →
  (∀ s, s_binding_id (gs s) = s_binding_id s
        ∧ s_binding_generation (gs s) = s_binding_generation s) →
  (∀ t s, t_state (ft t) = TurnState.Quiescent ∧ s_state (gs s) = SessionBindingState.Ready
          ∨ t_state (ft t) = TurnState.Uncertain
            ∧ s_state (gs s) = SessionBindingState.Uncertain
            ∧ s_active_invocation_id (gs s) = s_active_invocation_id s
            ∧ s_owner_epoch (gs s) = s_owner_epoch s) →
  sessions_agree db'.
Proof.
  intros Ha (t & Ht & Hat & Hpt & Hut & ->)%update_one
    (s & Hs & _ & Has & Hps & Hus & ->)%fenced_update_ok Hft Hgs Hst.
  unfold active_turn, active_on in Hat, Has. bool_facts. cbn in *.
  eapply (settle_pair db t s); eauto. congruence.
Qed.

Lemma settle_quiescent_agrees a x b persistence now :
  preserves sessions_agree (settle_quiescent_turn a x b persistence now).
Proof.
  intros db u db' Ha H. unfold settle_quiescent_turn, bound_turn_row in H. m_inv.
  match type of H with (if ?c then _ else _) _ = _ => destruct c end; m_inv; [done|].
  match goal with H : require_one _ _ = Ok _ |- _ => apply require_one_ok in H; subst end.
  eapply settle_turn_and_binding; eauto; by left.
Qed.

Lemma mark_uncertain_agrees a x b reason now :
  preserves sessions_agree (mark_turn_uncertain a x b reason now).
Proof.
  intros db u db' Ha H. unfold mark_turn_uncertain in H. m_inv.
  match goal with H : require_one _ _ = Ok _ |- _ => apply require_one_ok in H; subst end.
  eapply settle_turn_and_binding; eauto; by right.
Qed.

(** Arming binds a new turn to a ready binding. *)
Lemma activate_agrees a x b now : preserves sessions_agree (activate_binding_turn a x b now).
Proof.
  intros db u db' Ha H. unfold activate_binding_turn in H. m_inv.
  destruct (List.find _ _) as [t|] eqn:Hf; m_inv; [done|].
  match goal with H : insert _ _ = Ok _ |- _ => apply insert_ok in H as (_ & _ & Hut & _ & ->) end.
  match goal with H : fenced_update _ _ _ _ _ = Ok _ |- _ =>
    apply fenced_update_ok in H as (s & Hs & Hfm & Hst & Hps & Hus & ->) end.
  cbn in *. unfold fence_matches in Hfm. bool_facts.
  match goal with H : s_state s = _ |- _ => rename H into Hready end.
  match type of Hut with no_conflict (_ ++ [?t0]) = true => set (t := t0) in * end.
  match goal with |- context [update_row ?p ?g] => set (ps := p) in *; set (gs := g) in * end.
  destruct Ha as [Hut0 Hus0 Hat Hunt Hab Hunb].
  assert (∀ s', s' ∈ db.(session_bindings) → s_state s' ≠ SessionBindingState.Ready →
                s' ∈ map (update_row ps gs) db.(session_bindings)) as Hkeep.
  { intros s' Hin Hne. apply elem_of_update_row. exists s'. split; [done|].
    destruct (ps s') eqn:E; [|done]. apply Hps in E as ->; done. }
  split; cbn; [done|done|..].
  - intros t' [Hin| ->%list_elem_of_singleton]%elem_of_app Hta.
    + destruct (Hat t' Hin Hta) as (s' & Hs' & Hh). exists s'. split; [|done]. apply Hkeep; [done|].
      destruct Hh as (_ & -> & _). done.
    + exists (gs s). split.
      * apply elem_of_update_row. exists s. assert (ps s = true) as -> by (by apply Hps). done.
      * by repeat split.
  - intros t' [Hin| ->%list_elem_of_singleton]%elem_of_app Hta; [|done].
    destruct (Hunt t' Hin Hta) as (s' & Hs' & Hh). exists s'. split; [|done]. apply Hkeep; [done|].
    destruct Hh as [(_ & -> & _)|(_ & ->)]; done.
  - intros s' (s0 & Hin & ->)%elem_of_update_row Hsa. destruct (ps s0) eqn:E.
    + apply Hps in E as ->; [|done]. exists t. split; [set_solver|]. by repeat split.
    + destruct (Hab s0 Hin Hsa) as (t' & ? & ?). exists t'. set_solver.
  - intros s' (s0 & Hin & ->)%elem_of_update_row Hsa. destruct (ps s0) eqn:E; [done|].
    destruct (Hunb s0 Hin Hsa) as (t' & ? & ?). exists t'. set_solver.
Qed.

#[export] Hint Resolve settle_quiescent_agrees mark_uncertain_agrees activate_agrees : preserve.

Section transitions.
Context `{J : SerdeJson} (sha256_hex : string → string).

Lemma transition_agrees operator db db' :
  transition sha256_hex operator db db' → sessions_agree db → sessions_agree db'.
Proof.
  intros Ht. by_operations Ht; preserves_tac.
  all: try (by apply insert_opening_binding).
  all: apply update_idle_binding; [intros s Hp; bool_facts|done|intros s Hp; bool_facts; cbn].
  all: repeat match goal with H : _ || _ = true |- _ => apply orb_true_iff in H as [H|H] end.
  all: bool_facts; intuition congruence.
Qed.

Lemma agrees_empty : sessions_agree empty_db.
Proof. split; try done; intros ? ?%not_elem_of_nil; done. Qed.

Lemma reachable_agrees db : reachable sha256_hex db → sessions_agree db.
Proof.
  intros Hr. eapply (reaches_invariant sha256_hex); [apply transition_agrees| |exact Hr].
  apply agrees_empty.
Qed.
End transitions.

(** ** An active turn belongs to an armed attempt *)

(** Every active turn but those of the invocation [x] has an armed attempt. *)
Definition armed_but (x : option string) (db : Db) : Prop :=
  ∀ t, t ∈ db.(session_binding_turns) → t_state t = TurnState.Active →
       Some (t_invocation_id t) ≠ x →
       ∃ i, i ∈ db.(invocations) ∧ i_id i = t_invocation_id t ∧ armed i.
Notation turns_armed := (armed_but None).

(** [db'] has no active turn but those of [db] for invocations other than [x]. *)
Definition settles (x : string) (db db' : Db) : Prop :=
  db'.(invocations) = db.(invocations)
  ∧ ∀ t, t ∈ db'.(session_binding_turns) → t_state t = TurnState.Active →
         t ∈ db.(session_binding_turns) ∧ t_invocation_id t ≠ x.

Lemma armed_settles x db db' : armed_but (Some x) db → settles x db db' → turns_armed db'.
Proof.
  intros Ha [Hi Ht] t Hin Hst _. destruct (Ht t Hin Hst) as [Hin' Hne]. rewrite Hi.
  apply Ha; [done|done|congruence].
Qed.

Lemma settle_update x ft db n db1 fence st gs message u db' :
  update (active_turn x) ft db = Ok (n, db1) →
  fenced_update fence st gs message db1 = Ok (u, db') →
  (∀ t, t_state (ft t) ≠ TurnState.Active) → settles x db db'.
Proof.
  intros (-> & _)%update_ok (s & _ & _ & _ & _ & _ & ->)%fenced_update_ok Hft.
  split; [done|]. cbn. intros t (t0 & Hin & ->)%elem_of_update_row Hst.
  destruct (active_turn x t0) eqn:E; [by apply Hft in Hst|]. split; [done|]. intros Hx.
  unfold active_turn in E. by rewrite Hx, Hst, !bool_decide_true in E by done.
Qed.

Lemma settle_quiescent_settles a x b persistence now db u db' :
  sessions_agree db → settle_quiescent_turn a x b persistence now db = Ok (u, db') →
  settles x db db'.
Proof.
  intros Ha H. unfold settle_quiescent_turn, bound_turn_row in H. m_inv. bool_facts.
  match type of H with (if ?c then _ else _) _ = _ => destruct c eqn:Hq end; m_inv.
  - split; [done|]. intros t Hin Hst. split; [done|]. intros Hx. bool_facts.
    assert (t = a0) as -> by (eapply turn_unique; eauto; congruence). congruence.
  - by eapply settle_update.
Qed.

Lemma mark_expired_settles x reason now db u db' :
  sessions_agree db → mark_expired_session_turn_uncertain x reason now db = Ok (u, db') →
  settles x db db'.
Proof.
  intros Ha H. unfold mark_expired_session_turn_uncertain in H. m_inv.
  destruct (List.find _ _) as [[t s]|] eqn:Hf; m_inv.
  - match goal with H : _ ∈ turns_with_bindings _ |- _ => apply elem_of_join in H as (Htin & _) end.
    bool_facts. match type of H with (if ?c then _ else _) _ = _ => destruct c eqn:Hu end; m_inv.
    + bool_facts. split; [done|]. intros t' Hin Hst. split; [done|]. intros Hx. simpl in *.
      assert (t' = t) as -> by (eapply turn_unique; eauto; congruence). congruence.
    + unfold mark_turn_uncertain in H. m_inv. by eapply settle_update.
  - split; [done|]. intros t Hin Hst. split; [done|]. intros Hx.
    destruct (ag_active_turn _ _ Ha t Hin Hst) as (s & Hs & (Hb1 & Hb2) & _).
    assert ((t, s) ∈ turns_with_bindings db) as Hj.
    { apply elem_of_join. by rewrite Hb1, Hb2, !bool_decide_true by done. }
    pose proof (find_none_elem _ _ _ Hf Hj) as Hn. cbn in Hn. by rewrite bool_decide_true in Hn.
Qed.

Lemma update_attempt_armed (p : InvocationRow → bool) f :
  (∀ i, i_id (f i) = i_id i) → (∀ i, p i = true → armed i → armed (f i)) →
  preserves turns_armed (update p f).
Proof.
  intros Hid Hf. apply preserves_update. intros db HI _ t Ht Hst Hx.
  destruct (HI t Ht Hst Hx) as (i & Hi & Hii & Ha). exists (update_row p f i).
  split; [apply list_elem_of_fmap; eauto|]. unfold update_row.
  destruct (p i) eqn:E; [|done]. rewrite Hid. auto.
Qed.
Lemma insert_attempt_armed (r : InvocationRow) : preserves turns_armed (insert r).
Proof.
  apply preserves_insert. intros db HI _ _ _ _ t Ht Hst Hx.
  destruct (HI t Ht Hst Hx) as (i & Hi & ?). exists i. cbn. set_solver.
Qed.
Lemma update_turn_armed (p : TurnRow → bool) f :
  (∀ t, t_state (f t) ≠ TurnState.Active) → preserves turns_armed (update p f).
Proof.
  intros Hf. apply preserves_update. intros db HI _ t (t0 & Hin & ->)%elem_of_update_row Hst Hx.
  destruct (p t0); [by apply Hf in Hst|]. exact (HI t0 Hin Hst Hx).
Qed.
#[export] Hint Resolve insert_attempt_armed : preserve.

Lemma preserves_conj (I K : Db → Prop) {A} (m : M A) :
  preserves I m → preserves K m → preserves (λ db, I db ∧ K db) m.
Proof. intros HI HK db a db' [H1 H2] H. split; [by eapply HI|by eapply HK]. Qed.

(** Ending the attempt [x] leaves the turns of the others armed. *)
Lemma end_attempt_armed x p f db :
  (∀ i, i_id (f i) = i_id i) → (∀ i, p i = true → i_id i = x) →
  turns_armed db → armed_but (Some x) (set_invocations (map (update_row p f) db.(invocations)) db).
Proof.
  intros Hid Hp HI t Ht Hst Hx. destruct (HI t Ht Hst) as (i & Hi & Hii & Ha); [done|].
  exists i. split; [|done]. cbn. apply elem_of_update_row. exists i. split; [done|].
  destruct (p i) eqn:E; [|done]. apply Hp in E. congruence.
Qed.

Definition agree_and_armed (db : Db) : Prop := sessions_agree db ∧ turns_armed db.

Lemma insert_attempt_agrees (r : InvocationRow) : preserves agree_and_armed (insert r).
Proof. apply preserves_conj; [preserves_tac|apply insert_attempt_armed]. Qed.
#[export] Hint Resolve insert_attempt_agrees : preserve.

Lemma park_agrees row a now : preserves sessions_agree (park_expired_armed_invocation row a now).
Proof. preserves_tac. Qed.

Lemma park_armed row a now : preserves agree_and_armed (park_expired_armed_invocation row a now).
Proof.
  intros db u db' [Hag Har] H. split; [by eapply park_agrees|].
  destruct row as [i d]. unfold park_expired_armed_invocation in H. m_inv.
  match goal with H : mark_expired_session_turn_uncertain _ _ _ _ = Ok _ |- _ => rename H into Hme end.
  match goal with H : block_expired_lease _ _ _ _ _ _ = Ok (_, ?d1) |- _ =>
    assert (agree_and_armed d1) as Hd1 by
      (eapply (preserves_run agree_and_armed); [exact H|preserves_tac|by split]) end.
  match goal with H : record_block _ _ _ _ _ _ _ = Ok (_, ?d2) |- _ =>
    assert (agree_and_armed d2) as [Hag2 Har2] by
      (eapply (preserves_run agree_and_armed); [exact H|preserves_tac|done]) end.
  match goal with H : update _ _ _ = Ok _ |- _ => apply update_ok in H as (-> & _) end.
  eapply armed_settles; [|eapply mark_expired_settles; [|exact Hme]; exact Hag2].
  apply end_attempt_armed; [done| |done]. intros i' Hp. by bool_facts.
Qed.
#[export] Hint Resolve park_armed : preserve.

Lemma recover_armed a now : preserves agree_and_armed (recover_expired_invocations_transaction a now).
Proof.
  preserves_tac. apply preserves_conj; [preserves_tac|].
  apply update_attempt_armed; [done|]. intros i Hp Ha. bool_facts. unfold armed in *. congruence.
Qed.
#[export] Hint Resolve recover_armed : preserve.

(** A delivery settlement ends no attempt with an active turn. *)
Lemma terminalize_armed a m t c r now db db1 u db' :
  terminalize_invocation a m t c r now db1 = Ok (u, db') →
  wf db → fenced db → agree_and_armed db →
  db1.(invocations) = db.(invocations) → db1.(messages) = db.(messages) →
  db1.(session_binding_turns) = db.(session_binding_turns) → turns_armed db'.
Proof.
  intros H Hwf Hf [Hag Har] Hi Hm Ht. pose proof (terminalize_invocation_ok _ _ _ _ _ _ _ _ _ H) as ->.
  intros t0 Ht0 Hst Hx. cbn in Ht0. rewrite Ht in Ht0.
  destruct (Har t0 Ht0 Hst Hx) as (i & Hin & Hid & Harm). exists i. split; [|done]. cbn.
  apply elem_of_update_row. exists i. rewrite Hi. split; [done|].
  destruct (live_attempt _ a m t i) eqn:E; [|done]. exfalso.
  rewrite Hm in E. apply live_attempt_elem in E; [|done].
  assert (live_under_lease a m t db1 = live_under_lease a m t db) as Hlive
    by (unfold live_under_lease; by rewrite Hi, Hm).
  unfold terminalize_invocation, ensure_bound_turn_allows_delivery_settlement in H. m_inv.
  rewrite Hlive, Ht in *.
  destruct (join _ (live_under_lease a m t db) (session_binding_turns db)) as [|[i1 t1] l] eqn:Hj.
  - assert ((i, t0) ∈ join (λ i t, t_invocation_id t ==? i_id i) (live_under_lease a m t db)
              (session_binding_turns db)) as Hbad
      by (apply elem_of_join; by rewrite bool_decide_true by congruence).
    rewrite Hj in Hbad. by apply not_elem_of_nil in Hbad.
  - assert ((i1, t1) ∈ join (λ i t, t_invocation_id t ==? i_id i) (live_under_lease a m t db)
              (session_binding_turns db)) as (Hi1 & Ht1 & Hon)%elem_of_join by (rewrite Hj; set_solver).
    bool_facts. assert (i1 = i) as -> by (eapply live_under_lease_unique; eauto).
    assert (t1 = t0) as -> by (eapply turn_unique; eauto; congruence).
    cbn in *. rewrite Hst in *. by m_inv.
Qed.

Section armed_turns.
Context `{J : SerdeJson} (sha256_hex : string → string).

Lemma acknowledge_armed a m token now db u db' :
  wf db → fenced db → agree_and_armed db →
  acknowledge_delivery a m token now db = Ok (u, db') → turns_armed db'.
Proof.
  intros Hwf Hf Ha H. unfold acknowledge_delivery in H. m_inv.
  apply or_rollback_ok in H as [(db1 & Hmark & Hterm)|(db1 & _ & Hmiss)].
  - apply update_leased_row_ok in Hmark as [-> _]. by eapply (terminalize_armed _ _ _ _ _ _ db _ _ _ Hterm).
  - apply settle_miss_reads in Hmiss as ->. apply Ha.
Qed.

Lemma retry_armed a m input now db u db' :
  wf db → fenced db → agree_and_armed db →
  retry_delivery a m input now db = Ok (u, db') → turns_armed db'.
Proof.
  intros Hwf Hf Ha H. unfold retry_delivery, ensure_retry_is_safe in H. m_inv.
  apply or_rollback_ok in H as [(db1 & Hmark & Hterm)|(db1 & _ & Hmiss)].
  - apply update_leased_row_ok in Hmark as [-> _]. by eapply (terminalize_armed _ _ _ _ _ _ db _ _ _ Hterm).
  - apply settle_miss_reads in Hmiss as ->. apply Ha.
Qed.

Lemma block_armed a m input now db r db' :
  wf db → fenced db → agree_and_armed db →
  block_delivery a m input now db = Ok (r, db') → turns_armed db'.
Proof.
  intros Hwf Hf Ha H. unfold block_delivery in H. m_inv.
  apply or_rollback_ok in H as [(db1 & Hmark & H)|(db1 & _ & H)].
  - apply update_leased_row_ok in Hmark as [-> _]. m_inv.
    match goal with H : blocked_delivery_by_id _ _ = Ok _ |- _ =>
      apply (keeps_blocked_delivery_by_id (λ d, d)) in H as -> end.
    match goal with H : insert_block_record _ _ _ _ _ = Ok _ |- _ =>
      apply (keeps_insert_block_record (λ d, (invocations d, messages d, session_binding_turns d)))
        in H; [injection H as Hi1 Hm1 Ht1|done..] end.
    by eapply terminalize_armed.
  - assert (db' = db) as ->; [|apply Ha]. revert H.
    match goal with |- ?m db = _ → _ => enough (keeps (λ d, d) m) as Hk by apply Hk end.
    keeps_tac; [apply keeps_blocked_delivery_by_lease|apply keeps_settle_miss].
Qed.

(** Completing an attempt leaves the turns of the others armed. *)
Lemma complete_armed_but a x input now allow uuid at_ms db r db' :
  complete_invocation_transaction a x input now allow uuid at_ms db = Ok (r, db') →
  turns_armed db →
  armed_but (Some x) db' ∧ db'.(session_binding_turns) = db.(session_binding_turns)
  ∧ db'.(session_bindings) = db.(session_bindings).
Proof.
  intros (i0 & d0 & m0 & _ & _ & _ & _ & _ & _ & _ & _ & _ & _ & [(-> & _)|H])%complete_ok Har.
  - split_and!; [|done..]. intros t Ht Hst _. by apply Har.
  - destruct H as (_ & _ & _ & db1 & Hins & ->).
    apply insert_message_ok in Hins as (ch & json & _ & _ & _ & _ & _ & _ & _ & _ & _ & ->).
    split_and!; [|done..].
    match goal with |- armed_but _ (set_invocations _ ?d) =>
      apply (end_attempt_armed x _ _ d); [done| |exact Har] end.
    intros i' Hp. by bool_facts.
Qed.

Lemma complete_armed a x input now uuid at_ms db r db' :
  agree_and_armed db → complete_invocation a x input now uuid at_ms db = Ok (r, db') →
  turns_armed db'.
Proof.
  intros [Hag Har] H. unfold complete_invocation in H.
  destruct (complete_armed_but _ _ _ _ _ _ _ _ _ _ H Har) as (Hbut & Htn & _).
  intros t Ht Hst _. apply Hbut; [done|done|]. intros [= Hx]. rewrite Htn in Ht.
  unfold complete_invocation_transaction, ensure_invocation_not_active_on_session in H. m_inv.
  destruct (List.find _ _) as [t'|] eqn:Hf.
  - apply find_some_elem in Hf as [Ht' Hid']. bool_facts.
    assert (t' = t) as -> by (eapply turn_unique; eauto; congruence). congruence.
  - pose proof (find_none_elem _ _ _ Hf Ht) as Hn. cbv beta in Hn. by rewrite bool_decide_true in Hn.
Qed.

Lemma complete_session_armed a x b p input now uuid at_ms db r db' :
  agree_and_armed db →
  complete_session_invocation a x b p input now uuid at_ms db = Ok (r, db') → turns_armed db'.
Proof.
  intros [Hag Har] H. unfold complete_session_invocation in H. m_inv.
  match goal with H : validate_bound_turn _ _ _ _ _ = Ok _ |- _ =>
    apply (keeps_validate_bound_turn (λ d, d)) in H; simpl in H; subst end.
  match goal with H : complete_invocation_transaction _ _ _ _ _ _ _ _ = Ok _ |- _ =>
    destruct (complete_armed_but _ _ _ _ _ _ _ _ _ _ H Har) as (Hbut & Htn & Hbn) end.
  eapply armed_settles; [exact Hbut|]. eapply settle_quiescent_settles; [|eassumption].
  unfold sessions_agree. by rewrite Htn, Hbn.
Qed.

(** A successful arm leaves the attempt armed. *)
Lemma arm_armed a x input now db r db' :
  wf db → arm_invocation_transaction a x input now db = Ok (r, db') →
  (∃ i, i ∈ db'.(invocations) ∧ i_id i = x ∧ armed i)
  ∧ db'.(session_binding_turns) = db.(session_binding_turns)
  ∧ (turns_armed db → turns_armed db').
Proof.
  intros Hwf H. split_and!.
  - unfold arm_invocation_transaction in H. m_inv.
    match goal with x : _ * _ * _ |- _ => destruct x as [[i0 d0] m0] end. m_inv.
    match goal with H : invocation_with_delivery _ _ _ = Ok _ |- _ =>
      apply invocation_with_delivery_ok in H as (-> & Hi0 & _ & _ & Hid & Hag & _) end.
    match goal with H : invocation_by_id _ _ = Ok _ |- _ =>
      apply invocation_by_id_reads in H as -> end.
    destruct (i_state i0) eqn:Hst; m_inv; [|by exists i0].
    match goal with H : update _ _ _ = Ok _ |- _ => apply update_ok in H as (-> & _) end.
    exists (set_armed now i0). split; [|done]. apply elem_of_update_row. exists i0.
    split; [done|]. by rewrite Hst, !bool_decide_true by done.
  - by apply arm_ok in H as [->| ->].
  - apply (preserves_run turns_armed _ _ _ _ H). preserves_tac.
    apply update_attempt_armed; [done|]. by intros.
Qed.

Lemma activate_armed a x b now db u db' :
  activate_binding_turn a x b now db = Ok (u, db') → turns_armed db →
  (∃ i, i ∈ db.(invocations) ∧ i_id i = x ∧ armed i) → turns_armed db'.
Proof.
  intros H Har Hx. unfold activate_binding_turn in H. m_inv.
  destruct (List.find _ _) as [t|] eqn:Hf; m_inv; [done|].
  match goal with H : insert _ _ = Ok _ |- _ => apply insert_ok in H as (_ & _ & _ & _ & ->) end.
  match goal with H : fenced_update _ _ _ _ _ = Ok _ |- _ =>
    apply fenced_update_ok in H as (s & _ & _ & _ & _ & _ & ->) end.
  intros t. cbn. intros [Hin| ->%list_elem_of_singleton]%elem_of_app Hst Hne; [by apply Har|].
  exact Hx.
Qed.

Lemma arm_session_armed a x b ref g input now db r db' :
  wf db → turns_armed db → arm_session_invocation a x b ref g input now db = Ok (r, db') →
  turns_armed db'.
Proof.
  intros Hwf Har H. unfold arm_session_invocation in H. m_inv.
  match goal with H : exact_binding_row _ _ _ = Ok _ |- _ =>
    apply (keeps_exact_binding_row (λ d, d)) in H; simpl in H; subst end.
  match goal with H : arm_invocation_transaction _ _ _ _ _ = Ok _ |- _ =>
    apply arm_armed in H as (Hx & _ & Hk); [|done] end.
  match goal with H : activate_binding_turn _ _ _ _ _ = Ok (_, ?d) |- _ =>
    assert (turns_armed d) as Har2 by (eapply activate_armed; eauto) end.
  match goal with H : begin_invocation_observation _ _ _ _ _ _ = Ok (_, ?d) |- _ =>
    assert (turns_armed d) as Har3 by (revert Har2; apply (preserves_run turns_armed _ _ _ _ H);
                                       preserves_tac) end.
  match goal with H : binding_by_identity _ _ _ = Ok _ |- _ =>
    apply (keeps_binding_by_identity (λ d, d)) in H; simpl in H; subst end. done.
Qed.

Lemma transition_armed operator db db' :
  transition sha256_hex operator db db' →
  wf db → fenced db → agree_and_armed db → turns_armed db'.
Proof.
  intros Ht Hwf Hf Ha. destruct Ht.
  all: try first [ by eapply acknowledge_armed | by eapply retry_armed | by eapply block_armed
                 | by eapply complete_armed | by eapply complete_session_armed ].
  all: try (by eapply arm_session_armed; [done|apply Ha|]).
  all: try (match goal with H : ?m ?db = Ok (_, ?db') |- _ =>
         enough (preserves agree_and_armed m) as Hp by (by destruct (Hp _ _ _ Ha H)) end;
         solve [preserves_tac]).
  all: destruct Ha as [_ Ha]; revert Ha; by_run; preserves_tac.
  - apply update_attempt_armed; [done|]. by intros.
  - by apply update_turn_armed.
Qed.

Lemma reachable_armed_turns db : reachable sha256_hex db → turns_armed db.
Proof.
  intros Hr. enough (wf db ∧ fenced db ∧ agree_and_armed db) as (_ & _ & _ & H) by exact H.
  revert Hr. apply (reaches_invariant sha256_hex (λ db, wf db ∧ fenced db ∧ agree_and_armed db)).
  - intros op d d' Ht (Hwf & Hf & Ha). split_and!; [by eapply transition_safe| |].
    + by eapply transition_fenced.
    + split; [eapply transition_agrees; [done|apply Ha]|by eapply transition_armed].
  - split_and!; [apply wf_empty| |split; [apply agrees_empty|]].
    + by intros ? ?%not_elem_of_nil.
    + by intros ? ?%not_elem_of_nil.
Qed.
End armed_turns.
