(* ===== verification/SessionProps.v ===== *)
(** * Properties of session bindings

    The agreement of bindings, turns and attempts in every reachable state, the
    owner fence on every session write, and what an acquisition grants. *)

From S2P Require Import Prelude Proto Schema Channels Messages Deliveries.
From S2P Require Import SessionFence Observations Invocations Settlement Sessions.
From S2P Require Import Lifecycle Safety System Fence Preserve Scenario SessionInv.

Section agreement.
Context `{J : SerdeJson} (sha256_hex : string → string).

(** C29 An active turn is backed on both sides: its binding is active on exactly
    that invocation under the turn's owner epoch, and the invocation is armed. *)
Theorem active_turn_backed db t :
  reachable sha256_hex db → t ∈ db.(session_binding_turns) → t_state t = TurnState.Active →
  (∃ s, s ∈ db.(session_bindings) ∧ holds_turn SessionBindingState.Active t s)
  ∧ ∃ i, i ∈ db.(invocations) ∧ i_id i = t_invocation_id t
         ∧ i_state i = InvocationState.DispatchArmed.
Proof.
  intros Hr Ht Hst. split.
  - by eapply ag_active_turn; [apply (reachable_agrees sha256_hex)|..].
  - by apply (reachable_armed_turns sha256_hex db Hr t Ht Hst).
Qed.

(** A busy binding is backed by its turn: an active binding has an active turn
    and an uncertain one an uncertain turn, on the same invocation and epoch. *)
Theorem busy_binding_backed db s :
  reachable sha256_hex db → s ∈ db.(session_bindings) →
  match s_state s with
  | SessionBindingState.Active =>
      ∃ t, t ∈ db.(session_binding_turns) ∧ t_state t = TurnState.Active
           ∧ holds_turn SessionBindingState.Active t s
  | SessionBindingState.Uncertain =>
      ∃ t, t ∈ db.(session_binding_turns) ∧ t_state t = TurnState.Uncertain
           ∧ holds_turn SessionBindingState.Uncertain t s
  | _ => True
  end.
Proof.
  intros Hr%reachable_agrees Hs. destruct (s_state s) eqn:Hst; try done.
  - by eapply ag_active_binding.
  - by eapply ag_uncertain_binding.
Qed.

(** A session runs one turn at a time: two active turns of the same binding
    generation are the same turn. *)
Theorem one_active_turn db t1 t2 :
  reachable sha256_hex db → t1 ∈ db.(session_binding_turns) → t2 ∈ db.(session_binding_turns) →
  t_state t1 = TurnState.Active → t_state t2 = TurnState.Active →
  t_binding_id t1 = t_binding_id t2 → t_binding_generation t1 = t_binding_generation t2 →
  t1 = t2.
Proof.
  intros Hr%reachable_agrees H1 H2 A1 A2 Hid Hg.
  destruct (ag_active_turn _ _ Hr t1 H1 A1) as (s1 & S1 & (I1 & G1) & _ & O1 & _).
  destruct (ag_active_turn _ _ Hr t2 H2 A2) as (s2 & S2 & (I2 & G2) & _ & O2 & _).
  assert (s1 = s2) as -> by (eapply binding_unique; eauto; congruence).
  eapply turn_unique; eauto; congruence.
Qed.
End agreement.

(** ** The owner fence *)

Section fence.
Context `{J : SerdeJson} (sha256_hex : string → string).

Lemma exact_binding_row_ok a b db s db' :
  exact_binding_row a b db = Ok (s, db') →
  db' = db ∧ s ∈ db.(session_bindings) ∧ s_binding_id s = binding_id b
  ∧ s_binding_generation s = binding_generation b ∧ s_agent_id s = a.
Proof.
  unfold exact_binding_row. intros H. m_inv. bool_facts.
  match goal with H : as_i64 _ _ = Ok _ |- _ => apply as_i64_ok in H as (-> & _) end. done.
Qed.

Lemma validate_owner_ok s b u :
  validate_owner s b = Ok u → s_owner_epoch s = owner_epoch b.
Proof.
  unfold validate_owner. intros H. m_inv. bool_facts.
  repeat match goal with H : as_i64 _ _ = Ok _ |- _ => apply as_i64_ok in H as (-> & _) end. done.
Qed.

(** An accepted owner holds the current epoch of the stored binding. *)
Lemma owner_current db a b row u db1 s :
  sessions_agree db → exact_binding_row a b db = Ok (row, db1) → validate_owner row b = Ok u →
  s ∈ db.(session_bindings) → s_binding_id s = binding_id b →
  s_binding_generation s = binding_generation b → s_owner_epoch s = owner_epoch b.
Proof.
  intros Ha (_ & Hrow & Hid & Hg & _)%exact_binding_row_ok Ho%validate_owner_ok Hs Hi Hgen.
  assert (s = row) as -> by (eapply binding_unique; eauto; congruence). done.
Qed.

(** C30 A superseded owner is fenced: while the stored binding has another owner
    epoch, recording an opening, arming, marking uncertain and retiring under the
    old epoch all fail, and completing succeeds only as the replay of a turn that
    is already quiescent. *)
Theorem stale_owner_rejected db s a b x ref g reason persistence arm input now uuid at_ms :
  reachable sha256_hex db → s ∈ db.(session_bindings) → s_binding_id s = binding_id b →
  s_binding_generation s = binding_generation b → s_owner_epoch s ≠ owner_epoch b →
  is_ok (record_session_opened a b ref now db) = false
  ∧ is_ok (arm_session_invocation a x b ref g arm now db) = false
  ∧ is_ok (mark_session_invocation_uncertain a x b reason now db) = false
  ∧ is_ok (retire_session_binding a b reason now db) = false
  ∧ (is_ok (complete_session_invocation a x b persistence input now uuid at_ms db) = true →
     ∃ t, t ∈ db.(session_binding_turns) ∧ t_invocation_id t = x
          ∧ t_state t = TurnState.Quiescent).
Proof.
  intros Ha%reachable_agrees Hs Hid Hg He.
  assert (∀ row u db1, exact_binding_row a b db = Ok (row, db1) → validate_owner row b = Ok u → False)
    as Hstale by (intros row u db1 Hrow Ho; eapply He, owner_current; eauto).
  split_and!.
  1-4: apply not_true_iff_false; intros Hok; unfold is_ok in Hok;
    match type of Hok with match ?m with _ => _ end = true =>
      destruct m as [[r db']|] eqn:H; [clear Hok|done] end.
  - unfold record_session_opened in H. m_inv. by eapply Hstale.
  - unfold arm_session_invocation in H. m_inv. by eapply Hstale.
  - unfold mark_session_invocation_uncertain, validate_bound_turn, bound_turn_row in H. m_inv.
    match goal with H : (if false && _ then _ else _) _ = Ok _ |- _ => cbn in H end. m_inv.
    by eapply Hstale.
  - unfold retire_session_binding in H. m_inv. by eapply Hstale.
  - intros Hok. unfold is_ok in Hok. destruct (complete_session_invocation _ _ _ _ _ _ _ _ _)
      as [[r db']|] eqn:H; [|done].
    unfold complete_session_invocation, validate_bound_turn, bound_turn_row in H. m_inv.
    match goal with H : (if _ && ?c then _ else _) _ = Ok _ |- _ => destruct c eqn:Hq; cbn in H end.
    + bool_facts. eauto.
    + m_inv. exfalso. by eapply Hstale.
Qed.
End fence.

(** ** Acquisition *)

Section acquisition.
Context `{J : SerdeJson} {JL : SerdeJsonLaws J}.

Lemma exact_binding_row_eq db a b s row db' :
  exact_binding_row a b db = Ok (row, db') →
  sessions_agree db → s ∈ db.(session_bindings) → s_binding_id s = binding_id b →
  s_binding_generation s = binding_generation b → row = s ∧ db' = db.
Proof.
  intros (-> & Hrow & Hid' & Hg' & _)%exact_binding_row_ok Ha Hs Hid Hg.
  split; [|done]. eapply binding_unique; eauto; congruence.
Qed.

Lemma binding_from_row_ok s sb :
  binding_from_row s = Ok sb →
  sb_agent_id sb = s_agent_id s ∧ sb_lane_policy sb = s_lane_policy s
  ∧ sb_lane_key sb = s_lane_key s ∧ sb_owner_instance_id sb = s_owner_instance_id s
  ∧ sb_state sb = s_state s ∧ sb_session_ref sb = s_session_ref s
  ∧ sb_binding sb = {| binding_id := s_binding_id s; binding_generation := s_binding_generation s;
                       owner_epoch := s_owner_epoch s |}
  ∧ sb_profile_digest sb = s_profile_digest s
  ∧ sb_compatibility_digest sb = s_compatibility_digest s
  ∧ sb_working_directory sb = s_working_directory s
  ∧ strings_from_json (s_additional_directories_json s) = Some (sb_additional_directories sb).
Proof.
  unfold binding_from_row, positive_u64. intros H. m_inv.
  repeat (case_match; m_inv); simplify_eq; done.
Qed.

(** What a new generation of a lane looks like. *)
Lemma insert_binding_ok id g a input json now db r db' :
  sessions_agree db → strings_to_json (acq_additional_directories input) = Some json →
  insert_binding id g a input json now db = Ok (r, db') →
  let s := new_binding id g a input json now in
  db' = set_session_bindings (db.(session_bindings) ++ [s]) db
  ∧ binding_from_row s = Ok (sa_session r) ∧ sa_mode r = Create.
Proof.
  intros Ha Hj H. unfold insert_binding in H. m_inv.
  match goal with H : as_i64 _ _ = Ok _ |- _ => apply as_i64_ok in H as (-> & _) end.
  match goal with H : insert _ _ = Ok _ |- _ =>
    pose proof (insert_opening_binding _ (eq_refl : s_state (new_binding id g a input json now) = _)
                  _ _ _ Ha H) as Ha1;
    apply insert_ok in H as (_ & _ & _ & _ & ->) end.
  unfold binding_by_identity in *. m_inv.
  match goal with H : exact_binding_row _ _ _ = Ok _ |- _ =>
    eapply (exact_binding_row_eq _ _ _ (new_binding id g a input json now)) in H as [-> ->];
      [|done|cbn; set_solver|done|done] end. done.
Qed.

(** The caller holds a usable binding of its lane with its own configuration. *)
Definition granted (a : string) (input : AcquireSessionBinding) (r : SessionAcquisition)
    (db' : Db) : Prop :=
  let sb := sa_session r in
  (∃ s, s ∈ db'.(session_bindings) ∧ binding_from_row s = Ok sb)
  ∧ sb_agent_id sb = a ∧ sb_lane_policy sb = acq_lane_policy input
  ∧ sb_lane_key sb = acq_lane_key input
  ∧ sb_owner_instance_id sb = acq_owner_instance_id input
  ∧ configuration_matches sb input = true
  ∧ match sa_mode r with
    | Create => sb_state sb = SessionBindingState.Opening
    | Resume ref => sb_state sb = SessionBindingState.Ready ∧ sb_session_ref sb = Some ref
    end.

(** A binding another owner held is idle before and fenced afterwards: retired,
    or handed over under the next owner epoch. *)
Definition displaced (r : SessionAcquisition) (db' : Db) (s : BindingRow) : Prop :=
  (s_state s = SessionBindingState.Opening ∨ s_state s = SessionBindingState.Ready)
  ∧ ∃ s', s' ∈ db'.(session_bindings) ∧ s_binding_id s' = s_binding_id s
    ∧ s_binding_generation s' = s_binding_generation s
    ∧ (s_state s' = SessionBindingState.Retired
       ∨ s_owner_epoch s' = s_owner_epoch s + 1 ∧ binding_from_row s' = Ok (sa_session r)).

Lemma new_binding_granted id g a input json now r db' :
  strings_to_json (acq_additional_directories input) = Some json →
  new_binding id g a input json now ∈ db'.(session_bindings) →
  binding_from_row (new_binding id g a input json now) = Ok (sa_session r) →
  sa_mode r = Create → granted a input r db'.
Proof using JL.
  intros Hj Hin Hrow Hm. unfold granted. rewrite Hm.
  destruct (binding_from_row_ok _ _ Hrow)
    as (E1 & E2 & E3 & E4 & E5 & _ & _ & E6 & E7 & E8 & E9).
  cbn in E9. rewrite (strings_from_to_json _ _ Hj) in E9. injection E9 as E9.
  split; [eauto|]. rewrite E1, E2, E3, E4, E5. split_and!; try done.
  unfold configuration_matches. by rewrite E6, E7, E8, <-E9, !bool_decide_true by done.
Qed.

Lemma rotate_grants existing s a input json now reason db r db' :
  sessions_agree db → s ∈ db.(session_bindings) → binding_from_row s = Ok existing →
  strings_to_json (acq_additional_directories input) = Some json →
  rotate_binding existing a input json now reason db = Ok (r, db') →
  granted a input r db' ∧ displaced r db' s.
Proof using JL.
  intros Ha Hs Hrow Hj H. unfold rotate_binding in H. m_inv.
  destruct (binding_from_row_ok _ _ Hrow) as (_ & _ & _ & _ & _ & _ & Hb & _).
  match goal with H : owner_fence _ _ = Ok _ |- _ => apply owner_fence_ok in H as (-> & _) end.
  match goal with H : fenced_update _ _ _ _ _ = Ok (_, ?d) |- _ =>
    assert (sessions_agree d) as Ha1 by
      (revert Ha; apply (preserves_run sessions_agree _ _ _ _ H); unfold fenced_update; preserves_tac;
       apply update_idle_binding; [intros s' Hp; bool_facts|done|by left];
       match goal with H : _ || _ = true |- _ => apply orb_true_iff in H as [H|H] end;
       bool_facts; split; congruence);
    apply fenced_update_ok in H as (s' & Hs' & Hfm & Hst & Hps & _ & ->) end.
  unfold fence_matches in Hfm. rewrite Hb in *. cbn in Hfm, Hps. bool_facts.
  assert (s' = s) as -> by (eapply (binding_unique db); eauto).
  apply insert_binding_ok in H as (-> & Hnew & Hmode); [|done|done]. split.
  - eapply new_binding_granted; [exact Hj| |exact Hnew|exact Hmode]. cbn. set_solver.
  - split; [apply orb_true_iff in Hst as [Hst|Hst]; bool_facts; auto|].
    exists (set_retired reason now s). split_and!; [|done|done|by left]. cbn.
    apply elem_of_app. left. apply elem_of_update_row. exists s. split; [done|].
    match goal with |- _ = if ?c then _ else _ => assert (c = true) as -> end; [|done].
    by apply (Hps s Hs).
Qed.

Lemma adopt_grants existing s a input now db r db' :
  sessions_agree db → s ∈ db.(session_bindings) → binding_from_row s = Ok existing →
  s_agent_id s = a → s_lane_policy s = acq_lane_policy input →
  s_lane_key s = acq_lane_key input → configuration_matches existing input = true →
  adopt_binding existing (acq_owner_instance_id input) now db = Ok (r, db') →
  granted a input r db' ∧ displaced r db' s.
Proof.
  intros Ha Hs Hrow Hag Hlp Hlk Hconf H. unfold adopt_binding in H. m_inv.
  destruct (binding_from_row_ok _ _ Hrow)
    as (_ & _ & _ & _ & _ & _ & Hb & C1 & C2 & C3 & C4).
  match goal with H : owner_fence _ _ = Ok _ |- _ => apply owner_fence_ok in H as (-> & _) end.
  match goal with H : checked_add_u64 _ _ = Some _ |- _ => apply checked_add_u64_ok in H as -> end.
  match goal with H : as_i64 _ _ = Ok _ |- _ => apply as_i64_ok in H as (-> & _) end.
  match goal with H : fenced_update _ _ _ _ _ = Ok (_, ?d) |- _ =>
    assert (sessions_agree d) as Ha1 by
      (revert Ha; apply (preserves_run sessions_agree _ _ _ _ H); unfold fenced_update; preserves_tac;
       apply update_idle_binding; [intros s' Hp|done|intros s' Hp]; bool_facts; cbn;
       [split|right; split]; congruence);
    apply fenced_update_ok in H as (s' & Hs' & Hfm & Hst & Hps & _ & ->) end.
  unfold fence_matches in Hfm. rewrite Hb in *. cbn in Hfm, Hps. bool_facts.
  assert (s' = s) as -> by (eapply (binding_unique db); eauto).
  match type of Ha1 with sessions_agree (set_session_bindings (map (update_row ?p ?f) _) _) =>
    assert (f s ∈ map (update_row p f) db.(session_bindings)) as Hin end.
  { apply elem_of_update_row. exists s. split; [done|].
    match goal with |- _ = if ?c then _ else _ => assert (c = true) as -> end; [|done].
    by apply (Hps s Hs). }
  unfold binding_by_identity in *. m_inv.
  match goal with H : exact_binding_row _ _ _ = Ok _ |- _ => rename H into Hex end.
  eapply exact_binding_row_eq in Hex as [Hra Hdb]; [|exact Ha1|exact Hin|done|done].
  subst.
  match goal with H : binding_from_row _ = Ok ?sb |- _ => rename H into Hnew;
    destruct (binding_from_row_ok _ _ Hnew) as (E1 & E2 & E3 & E4 & E5 & E6 & _ & E7 & E8 & E9 & E10) end.
  cbn in *. split.
  - unfold granted. cbn. split; [eauto|]. rewrite E1, E2, E3, E4, E5. split_and!; try done; [].
    rewrite C4 in E10. injection E10 as E10.
    unfold configuration_matches in *. rewrite E7, E8, E9, <-E10, <-C1, <-C2, <-C3. exact Hconf.
  - split; [by right|]. eexists. split; [exact Hin|]. cbn. split_and!; [done|done|right; split; [|done]].
    lia.
Qed.

(** The binding an acquisition finds is the only one of its lane not retired. *)
Lemma current_lane_unique db input a row s :
  wf db → row ∈ db.(session_bindings) → s ∈ db.(session_bindings) →
  on_lane a (acq_lane_policy input) (acq_lane_key input) row = true →
  on_lane a (acq_lane_policy input) (acq_lane_key input) s = true →
  s_state row ≠ SessionBindingState.Retired → s_state s ≠ SessionBindingState.Retired → s = row.
Proof.
  intros Hwf Hr Hs Lr Ls Sr Ss. eapply no_conflict_eq; [apply (wf_bindings db Hwf)|done|done|].
  unfold on_lane in *. bool_facts. cbn. unfold conflict_binding, same_lane.
  rewrite (bool_decide_true (s_agent_id s = _)), (bool_decide_true (s_lane_policy s = _)),
    (bool_decide_true (s_lane_key s = _)), (bool_decide_false (s_state s = _)),
    (bool_decide_false (s_state row = _)) by congruence.
  by rewrite !orb_true_r.
Qed.

Lemma owned_grants row existing a input r db :
  row ∈ db.(session_bindings) → binding_from_row row = Ok existing →
  on_lane a (acq_lane_policy input) (acq_lane_key input) row = true →
  sb_owner_instance_id existing = acq_owner_instance_id input →
  configuration_matches existing input = true → acquisition_for_owned existing = Ok r →
  granted a input r db.
Proof.
  intros Hrow Hex Hl Hown Hconf H. unfold acquisition_for_owned in H. m_inv.
  destruct (binding_from_row_ok _ _ Hex) as (E1 & E2 & E3 & _).
  unfold on_lane in Hl. bool_facts. unfold granted. cbn. split; [eauto|].
  rewrite E1, E2, E3. split_and!; try done.
  match goal with H : match _ with _ => _ end = Ok ?m |- _ =>
    destruct (sb_state existing) eqn:E; m_inv end; done.
Qed.

Lemma acquire_existing_grants row a input json now db r db' :
  sessions_agree db → row ∈ db.(session_bindings) →
  on_lane a (acq_lane_policy input) (acq_lane_key input) row = true →
  strings_to_json (acq_additional_directories input) = Some json →
  acquire_existing row a input json now db = Ok (r, db') →
  granted a input r db'
  ∧ (s_owner_instance_id row ≠ acq_owner_instance_id input → displaced r db' row).
Proof using JL.
  intros Ha Hrow Hl Hj H. unfold acquire_existing in H. m_inv.
  match goal with H : binding_from_row _ = Ok _ |- _ => rename H into Hex end.
  destruct (binding_from_row_ok _ _ Hex) as (_ & _ & _ & E4 & _).
  match type of H with (if ?c then _ else _) _ = _ => destruct c eqn:Hown end; m_inv; bool_facts.
  - split; [by eapply owned_grants|congruence].
  - pose proof Hl as Hl'. unfold on_lane in Hl'. bool_facts.
    destruct (sb_state _); try (by m_inv).
    + edestruct rotate_grants as [? ?]; eauto.
    + destruct (configuration_matches _ _) eqn:Hconf;
        [edestruct adopt_grants as [? ?]|edestruct rotate_grants as [? ?]]; eauto.
Qed.
End acquisition.

Section acquire.
Context `{J : SerdeJson} {JL : SerdeJsonLaws J} (sha256_hex : string → string).

(** What an acquisition grants: the caller owns a binding of its lane with its
    own configuration, to be created or resumed; and a binding that another owner
    held on the lane was idle and is now retired or handed over under the next
    owner epoch, so the former owner is fenced. *)
Theorem acquire_grants a input now uuid db r db' :
  reachable sha256_hex db → acquire_session_binding a input now uuid db = Ok (r, db') →
  granted a input r db'
  ∧ ∀ s, s ∈ db.(session_bindings) →
         on_lane a (acq_lane_policy input) (acq_lane_key input) s = true →
         s_state s ≠ SessionBindingState.Retired →
         s_owner_instance_id s ≠ acq_owner_instance_id input → displaced r db' s.
Proof using JL.
  intros Hr H. pose proof (reachable_wf _ _ Hr) as Hwf.
  pose proof (reachable_agrees _ _ Hr) as Ha.
  unfold acquire_session_binding, ensure_agent, ensure_exists, current_binding_row in H. m_inv.
  match goal with H : strings_to_json _ = Some _ |- _ => rename H into Hj end.
  destruct (List.find _ _) as [row|] eqn:Hf.
  - apply find_some_elem in Hf as [Hrow Hcur]. bool_facts.
    assert (∀ s, s ∈ db.(session_bindings) →
         on_lane a (acq_lane_policy input) (acq_lane_key input) s = true →
         s_state s ≠ SessionBindingState.Retired → s = row) as Hone.
    { intros s Hs Hl Hst. eapply current_lane_unique; eauto. }
    apply acquire_existing_grants in H as [Hg Hd]; [|done..]. split; [done|].
    intros s Hs Hl Hst Hne. by rewrite (Hone s Hs Hl Hst) in *; apply Hd.
  - assert (granted a input r db') as Hg.
    { unfold insert_after_latest_retired, latest_binding_row in H. m_inv.
      destruct (head _) as [latest|]; m_inv; apply insert_binding_ok in H as (-> & Hnew & Hm);
        try done; (eapply new_binding_granted; [exact Hj| |exact Hnew|exact Hm]); cbn; set_solver. }
    split; [done|]. intros s Hs Hl Hst _.
    pose proof (find_none_elem _ _ _ Hf Hs) as Hn. cbv beta in Hn.
    rewrite Hl, bool_decide_false in Hn; done.
Qed.
End acquire.

(** ** The theorems at concrete states *)

Definition no_turn : TurnRow :=
  {| t_invocation_id := ""; t_binding_id := ""; t_binding_generation := 0; t_owner_epoch := 0;
     t_state := TurnState.Active; t_started_at_ms := 0; t_terminal_at_ms := None;
     t_session_persistence := None; t_uncertain_reason := None |}.
Definition no_binding : BindingRow := new_binding "" 0 "" lane "" 0.
Definition bound_turn : TurnRow := Eval vm_compute in hd no_turn db_bound.(session_binding_turns).
Definition bound_session : BindingRow := Eval vm_compute in
  hd no_binding db_bound.(session_bindings).
Definition uncertain_session : BindingRow := Eval vm_compute in
  hd no_binding db_uncertain.(session_bindings).
Definition adopted_session : BindingRow := Eval vm_compute in
  hd no_binding db_adopted.(session_bindings).

Lemma active_turn_backed_witness :
  (∃ s, s ∈ db_bound.(session_bindings) ∧ holds_turn SessionBindingState.Active bound_turn s)
  ∧ ∃ i, i ∈ db_bound.(invocations) ∧ i_id i = "U0" ∧ i_state i = InvocationState.DispatchArmed.
Proof.
  apply (active_turn_backed plain_sha256 db_bound bound_turn);
    [exact reachable_bound|in_rows|reflexivity].
Defined.

Lemma busy_binding_backed_witness :
  ∃ t, t ∈ db_uncertain.(session_binding_turns) ∧ t_state t = TurnState.Uncertain
       ∧ holds_turn SessionBindingState.Uncertain t uncertain_session.
Proof.
  exact (busy_binding_backed plain_sha256 db_uncertain uncertain_session reachable_uncertain
           ltac:(in_rows)).
Defined.

Lemma one_active_turn_witness : bound_turn = hd no_turn db_bound.(session_binding_turns).
Proof.
  apply (one_active_turn plain_sha256 db_bound); [exact reachable_bound|in_rows|in_rows|..];
    reflexivity.
Defined.

(** After the second worker adopted the session, the first is fenced out. *)
Lemma stale_owner_rejected_witness :
  is_ok (record_session_opened "B" owner1 "native" 50 db_adopted) = false
  ∧ is_ok (arm_session_invocation "B" "U0" owner1 "native" "G1" arm_input 50 db_adopted) = false
  ∧ is_ok (mark_session_invocation_uncertain "B" "U0" owner1 "lost" 50 db_adopted) = false
  ∧ is_ok (retire_session_binding "B" owner1 "lost" 50 db_adopted) = false
  ∧ (is_ok (complete_session_invocation "B" "U0" owner1 SessionPersistence.Confirmed answer 50 "M9" 51
              db_adopted) = true →
     ∃ t, t ∈ db_adopted.(session_binding_turns) ∧ t_invocation_id t = "U0"
          ∧ t_state t = TurnState.Quiescent).
Proof.
  apply (stale_owner_rejected plain_sha256 db_adopted adopted_session);
    [exact reachable_adopted|in_rows|reflexivity|reflexivity|discriminate].
Defined.

Lemma acquire_grants_witness :
  ∃ r, op_adopt db_opened = Ok (r, db_adopted)
    ∧ granted "B" {| acq_lane_policy := "agent"; acq_lane_key := "B"; acq_owner_instance_id := "W2";
                     acq_profile_digest := "p1"; acq_compatibility_digest := "c1";
                     acq_working_directory := "/work"; acq_additional_directories := [] |}
        r db_adopted.
Proof.
  eexists. split; [vm_compute; reflexivity|].
  refine (proj1 (acquire_grants plain_sha256 "B" _ 40 "unused" db_opened _ _ _ _));
    [exact reachable_opened|]. vm_compute. reflexivity.
Defined.
