(* ===== verification/DeliveryProps.v ===== *)
(** * Properties of settlement and completion

    Replays of a settlement, a completion and a block resolution, the retry
    guard, and what a completion publishes. *)

From S2P Require Import Prelude Proto Schema Channels Messages Deliveries.
From S2P Require Import SessionFence Observations Invocations Settlement Sessions.
From S2P Require Import Lifecycle Safety System Fence Attempts Preserve Scenario MessageProps SessionInv.

(** ** Statements and queries on known rows *)

Lemma message_seq_unique db m1 m2 :
  wf db → m1 ∈ db.(messages) → m2 ∈ db.(messages) → m_seq m1 = m_seq m2 → m1 = m2.
Proof.
  intros Hwf H1 H2 Hid. destruct (wf_messages db Hwf) as [Hu _].
  eapply no_conflict_eq; [exact Hu|done..|]. simpl. unfold conflict_message.
  by rewrite (bool_decide_true (m_seq m1 = m_seq m2)).
Qed.

Lemma seq_of_message db msg :
  wf db → msg ∈ db.(messages) → seq_of_message_id db.(messages) (m_id msg) = Some (m_seq msg).
Proof.
  intros Hwf Hm. unfold seq_of_message_id.
  rewrite (find_unique _ _ msg); [done|done|by apply bool_decide_eq_true|].
  intros m' Hm' Hid. bool_facts. by eapply message_id_unique.
Qed.

(** ** The retry guard *)

Section retry.
Context (sha256_hex : string → string) `{J : SerdeJson}.

(** C36 A dispatched attempt cannot be retried: while the attempt a worker holds
    is armed, giving its message back for redelivery is refused, whatever the
    worker reports. *)
Theorem retry_refused_when_armed a msg input now db i :
  reachable sha256_hex db → i ∈ db.(invocations) → i_state i = InvocationState.DispatchArmed →
  i_agent_id i = a → i_lease_token i = retry_lease_token input →
  msg ∈ db.(messages) → m_seq msg = i_message_seq i →
  validate_retry input = Ok tt → in_i64 (now + retry_after_ms input) = true →
  retry_delivery a (m_id msg) input now db
  = Err (Conflict "dispatch-armed invocation must be blocked or acknowledged").
Proof.
  intros Hr Hi Harm Ha Ht Hm Hs Hv Hnow.
  pose proof (reachable_wf _ _ Hr) as Hwf. pose proof (reachable_fenced _ _ Hr) as Hf.
  assert (i ∈ live_under_lease a (m_id msg) (retry_lease_token input) db) as Hl.
  { apply live_under_lease_elem. split_and!; try done; [unfold live; congruence|by exists msg]. }
  assert (i64_try_from (retry_after_ms input) = Some (retry_after_ms input)) as Hd.
  { unfold validate_retry in Hv. m_inv. bool_facts. unfold i64_try_from.
    rewrite (proj2 (Z.leb_le _ _)); [done|]. unfold MAX_RETRY_DELAY_MS, i64_max in *. lia. }
  unfold retry_delivery, bind, lift. rewrite Hv, Hd. cbn. unfold checked_add_i64. rewrite Hnow. cbn.
  unfold ensure_retry_is_safe, bind, gets, lift.
  rewrite (head_unique _ i); [|done|intros i' Hi'; by eapply live_under_lease_unique].
  cbn. by rewrite Harm.
Qed.
End retry.

(** ** Acknowledgement *)

(** An acknowledgement on record is the row's final state. *)
Definition ack_recorded (d : DeliveryRow) : Prop :=
  d_last_settlement d = Some "acknowledged" → d_state d = DeliveryState.Acknowledged.

Lemma lease_ack_recorded a t e now lim kinds `{J : SerdeJson} db u db' :
  wf db → lease_claimable a t e now lim kinds db = Ok (u, db') →
  all_rows ack_recorded db → all_rows ack_recorded db'.
Proof.
  intros Hwf H HI. unfold lease_claimable in H. m_inv.
  match goal with H : update _ _ _ = Ok _ |- _ => apply update_ok in H as (-> & _) end.
  intros d' (d & Hd & ->)%elem_of_update_row. case_bool_decide as Hk; [|by apply HI].
  apply claimable_keys_ok in Hk; [|done|done]. apply claimable_state in Hk.
  intros Hs. cbn in Hs. apply (HI d Hd) in Hs. destruct Hk; congruence.
Qed.

Section acknowledge.
Context `{J : SerdeJson} (sha256_hex : string → string).

Lemma recover_ack_recorded a now db n db' :
  recover_expired_invocations_transaction a now db = Ok (n, db') →
  all_rows ack_recorded db → all_rows ack_recorded db'.
Proof. intros H. by_run. preserves_tac; by apply preserves_update_row. Qed.

Lemma claim_ack_recorded a input now token db batch db' :
  claim_deliveries a input now token db = Ok (batch, db') → wf db →
  all_rows ack_recorded db → all_rows ack_recorded db'.
Proof.
  intros H Hwf HI. unfold claim_deliveries, ensure_agent, ensure_exists, leased_batch in H. m_inv.
  match goal with H : recover_expired_invocations_transaction _ _ _ = Ok _ |- _ =>
    pose proof (recover_ack_recorded _ _ _ _ _ H HI) as HI1;
    destruct (safe_recover_expired true _ _ _ _ _ Hwf H) as [Hwf1 _] end.
  by eapply lease_ack_recorded.
Qed.

Lemma reserve_ack_recorded a input kinds now token uuids db invs db' :
  reserve_invocations_filtered a input kinds now token uuids db = Ok (invs, db') → wf db →
  all_rows ack_recorded db → all_rows ack_recorded db'.
Proof.
  intros H Hwf HI. unfold reserve_invocations_filtered, ensure_agent, ensure_exists in H. m_inv.
  match goal with H : recover_expired_invocations_transaction _ _ _ = Ok _ |- _ =>
    pose proof (recover_ack_recorded _ _ _ _ _ H HI) as HI1;
    destruct (safe_recover_expired true _ _ _ _ _ Hwf H) as [Hwf1 _] end.
  match goal with H : lease_claimable _ _ _ _ _ _ _ = Ok _ |- _ =>
    pose proof (lease_ack_recorded _ _ _ _ _ _ _ _ _ Hwf1 H HI1) as HI2 end.
  revert HI2. match goal with H : reserve_rows _ _ _ _ _ _ _ _ = Ok _ |- _ =>
    apply (preserves_run (all_rows ack_recorded) _ _ _ _ H) end. preserves_tac.
Qed.

Lemma transition_ack_recorded operator db db' :
  transition sha256_hex operator db db' → wf db → all_rows ack_recorded db →
  all_rows ack_recorded db'.
Proof.
  intros Ht Hwf. destruct Ht.
  all: try (by_run; preserves_tac; first [by apply preserves_insert_row|by apply preserves_update_row]).
  - by eapply claim_ack_recorded.
  - by eapply reserve_ack_recorded.
Qed.

Lemma reachable_ack_recorded db : reachable sha256_hex db → all_rows ack_recorded db.
Proof.
  intros Hr. enough (wf db ∧ all_rows ack_recorded db) as [_ HI] by exact HI. revert Hr.
  apply (reaches_invariant sha256_hex (λ db, wf db ∧ all_rows ack_recorded db)).
  - intros op d d' Ht [Hwf HI]. split; [by eapply transition_safe|by eapply transition_ack_recorded].
  - split; [apply wf_empty|by intros ? ?%not_elem_of_nil].
Qed.

(** What the miss branch of a settlement found. *)
Lemma settle_miss_ok a m t s db u db' :
  settle_miss a m t s db = Ok (u, db') →
  ∃ d msg, d ∈ db.(agent_deliveries) ∧ msg ∈ db.(messages) ∧ d_agent_id d = a ∧ m_id msg = m
    ∧ m_seq msg = d_message_seq d ∧ d_last_settled_lease_token d = Some t
    ∧ d_last_settlement d = Some s.
Proof.
  unfold settle_miss. intros H. m_inv.
  match type of H with match head ?l with _ => _ end _ = _ => destruct l as [|[d msg] rs] eqn:E end;
    cbn in H; m_inv. bool_facts.
  assert ((d, msg) ∈ (d, msg) :: rs) as Hin by set_solver. rewrite <-E in Hin.
  apply elem_of_list_filter in Hin as [Hp Hj]. apply elem_of_join in Hj as (? & ? & ?).
  bool_facts. by exists d, msg.
Qed.

(** What an accepted acknowledgement leaves on record. *)
Lemma acknowledge_ok a m t now db u db' :
  reachable sha256_hex db → acknowledge_delivery a m t now db = Ok (u, db') →
  validate_token t = Ok tt
  ∧ ∃ d msg, d ∈ db'.(agent_deliveries) ∧ msg ∈ db'.(messages) ∧ d_agent_id d = a ∧ m_id msg = m
    ∧ m_seq msg = d_message_seq d ∧ d_last_settled_lease_token d = Some t
    ∧ d_last_settlement d = Some "acknowledged" ∧ d_state d = DeliveryState.Acknowledged.
Proof.
  intros Hr H. pose proof (reachable_ack_recorded _ Hr) as Hack. unfold acknowledge_delivery in H.
  m_inv. split; [done|]. apply or_rollback_ok in H as [(db1 & Hmark & Hterm)|(db1 & _ & Hmiss)].
  - apply update_leased_row_ok in Hmark as [-> Hd]. destruct (Hd eq_refl) as (d & Hd' & Hp).
    apply terminalize_invocation_ok in Hterm as ->. cbn.
    pose proof Hp as Hp'. unfold leased_row_matches in Hp'. bool_facts. cbn in *. bool_facts.
    match goal with H : Some _ = seq_of_message_id _ _ |- _ =>
      symmetry in H; apply seq_of_message_id_some in H as (msg & ? & ? & ?) end.
    exists (settle_acknowledged t now d), msg. split_and!; try done.
    apply elem_of_update_row. exists d. by rewrite Hp.
  - pose proof (settle_miss_reads _ _ _ _ _ _ _ Hmiss) as ->.
    apply settle_miss_ok in Hmiss as (d & msg & Hd & ? & ? & ? & ? & ? & ?).
    exists d, msg. split_and!; try done. by apply (Hack d Hd).
Qed.

(** Acknowledging is idempotent for ever: after a successful acknowledgement
    and whatever ran since, repeating it under the same lease token succeeds and
    changes nothing. *)
Theorem acknowledge_replay a m t now db db1 db2 now' :
  reachable sha256_hex db → acknowledge_delivery a m t now db = Ok (tt, db1) →
  reaches sha256_hex db1 db2 → acknowledge_delivery a m t now' db2 = Ok (tt, db2).
Proof.
  intros Hr Hack Hrun.
  destruct (acknowledge_ok _ _ _ _ _ _ _ Hr Hack)
    as (Hv & d & msg & Hd & Hm & Ha & Hid & Hseq & Htok & Hset & Hst).
  assert (reachable sha256_hex db1) as Hr1.
  { eapply rtc_r; [exact Hr|]. exists false. by eapply t_acknowledge. }
  destruct (reaches_safe _ _ _ (reachable_wf _ _ Hr1) Hrun) as [Hwf2 He].
  assert (d ∈ db2.(agent_deliveries)) as Hd2.
  { eapply stuck_elem; [apply (ev_deliveries _ _ _ He)| |done]. intros d2 Hs.
    destruct Hs; intuition congruence. }
  assert (msg ∈ db2.(messages)) as Hm2.
  { destruct (evolves_messages _ _ _ He) as [added ->]. set_solver. }
  unfold acknowledge_delivery, bind, lift, or_rollback. rewrite Hv.
  unfold mark_acknowledged, update_leased_row, bind, gets. subst a m.
  rewrite update_none; [|apply (wf_deliveries _ Hwf2)|by destruct db2|].
  - unfold ret. rewrite (bool_decide_false (0%nat = 1%nat)) by done. cbn.
    unfold settle_miss, bind, gets, lift.
    rewrite (head_unique _ (d, msg)); [by rewrite Htok, Hset, !bool_decide_true by done| |].
    + apply elem_of_list_filter. cbn. rewrite !bool_decide_true by done. split; [done|].
      apply elem_of_join. by rewrite bool_decide_true.
    + intros [d' msg'] [Hp Hj]%elem_of_list_filter. apply elem_of_join in Hj as (? & ? & ?).
      bool_facts. cbn in *.
      assert (msg' = msg) as -> by (by eapply message_id_unique). f_equal.
      eapply (delivery_key_unique db2); eauto; congruence.
  - intros d' Hd'. apply not_true_iff_false. intros Hp. unfold leased_row_matches in Hp.
    cbn in Hp. rewrite (seq_of_message db2 msg Hwf2 Hm2) in Hp. bool_facts.
    assert (d' = d) as -> by (eapply (delivery_key_unique db2); eauto; congruence). congruence.
Qed.
End acknowledge.

(** ** Completion *)

(** A delivery keeps its message and agent. *)
Lemma delivery_moves_key operator d d' :
  moves operator d d' → d_message_seq d' = d_message_seq d ∧ d_agent_id d' = d_agent_id d.
Proof. induction 1 as [|d1 d2 d3 Hs _ [IH1 IH2]]; [done|]. destruct Hs; by cbn in *. Qed.

(** The join of an attempt with its delivery and message, read back. *)
Lemma invocation_with_delivery_eq db i d m :
  wf db → i ∈ db.(invocations) → d ∈ db.(agent_deliveries) → m ∈ db.(messages) →
  d_message_seq d = i_message_seq i → d_agent_id d = i_agent_id i → m_seq m = i_message_seq i →
  invocation_with_delivery (i_agent_id i) (i_id i) db = Ok ((i, d, m), db).
Proof.
  intros Hwf Hi Hd Hm Hds Hda Hms. unfold invocation_with_delivery, bind, gets, lift.
  rewrite (find_unique _ _ (i, d, m)); [done|..].
  - apply elem_of_join. cbn. rewrite bool_decide_true by done. split; [|done].
    apply elem_of_join. by rewrite Hds, Hda, !bool_decide_true by done.
  - cbn. by rewrite !bool_decide_true by done.
  - intros [[i' d'] m'] (Hj & Hm' & Hon)%elem_of_join Hp. apply elem_of_join in Hj as (Hi' & Hd' & Hon').
    bool_facts. cbn in *. assert (i' = i) as -> by (by eapply (invocation_id_unique db)).
    assert (d' = d) as -> by (eapply (delivery_key_unique db); eauto; congruence).
    assert (m' = m) as -> by (eapply (message_seq_unique db); eauto; congruence). done.
Qed.

Section completion.
Context `{J : SerdeJson} (sha256_hex : string → string).

Lemma invocation_by_id_eq db i m rm :
  wf db → i ∈ db.(invocations) → m ∈ db.(messages) → rm ∈ db.(messages) →
  m_seq m = i_message_seq i → i_result_message_seq i = Some (m_seq rm) →
  invocation_by_id (i_id i) db
  = match invocation_from_row (i, m, Some rm) with Ok v => Ok (v, db) | Err e => Err e end.
Proof.
  intros Hwf Hi Hm Hrm Hs Hres. unfold invocation_by_id, bind, gets.
  rewrite (find_unique _ _ (i, m, Some rm)); [done|..].
  - unfold invocations_with_messages. apply list_elem_of_fmap. exists (i, m). cbn. rewrite Hres. split.
    + f_equal. symmetry. apply find_unique; [done|by apply bool_decide_eq_true|].
      intros m' Hm' Hp. bool_facts. by eapply (message_seq_unique db).
    + apply elem_of_join. by rewrite bool_decide_true.
  - cbn. by rewrite bool_decide_true.
  - unfold invocations_with_messages.
    intros [[i' m'] rm'] ([i2 m2] & Heq & Hj)%list_elem_of_fmap Hp. cbn in *. bool_facts.
    apply elem_of_join in Hj as (Hi' & Hm' & Hon). bool_facts. injection Heq as -> -> ->.
    assert (i2 = i) as -> by (by eapply (invocation_id_unique db)).
    assert (m2 = m) as -> by (eapply (message_seq_unique db); eauto; congruence).
    rewrite Hres. f_equal. apply find_unique; [done|by apply bool_decide_eq_true|].
    intros m3 Hm3 Hp3. bool_facts. by eapply (message_seq_unique db).
Qed.

(** C13 A completion is one atomic step: under the live lease and fence of an armed
    attempt it publishes exactly one result message to the sender of the input,
    with its correlation and caused by it, acknowledges the input delivery and
    ends the attempt with that result. *)
Theorem completion_publishes a x input now allow uuid at_ms db c db' :
  reachable sha256_hex db →
  complete_invocation_transaction a x input now allow uuid at_ms db = Ok ((c, true), db') →
  ∃ i d m row,
    i ∈ db.(invocations) ∧ i_id i = x ∧ i_agent_id i = a
    ∧ i_state i = InvocationState.DispatchArmed
    ∧ i_lease_token i = complete_lease_token input ∧ i_fence_token i = complete_fence_token input
    ∧ now < i_lease_expires_at_ms i
    ∧ d ∈ db.(agent_deliveries) ∧ owns i d ∧ m ∈ db.(messages) ∧ m_seq m = i_message_seq i
    ∧ db'.(messages) = db.(messages) ++ [row]
    ∧ (∃ json, to_json (complete_payload input) = Some json
         ∧ row = stored_message (m_channel_id m) (result_input a x m input) uuid json at_ms
                   (db.(messages_autoinc) + 1))
    ∧ (reparses (complete_payload input) → message_from_row row = Ok (completion_result c))
    ∧ completion_result c
      = returned_message (m_channel_id m) (result_input a x m input) uuid at_ms
          (db.(messages_autoinc) + 1)
    ∧ set_completed now (m_seq row) i ∈ db'.(invocations)
    ∧ settle_acknowledged (complete_lease_token input) now d ∈ db'.(agent_deliveries).
Proof.
  intros Hr H. pose proof (reachable_wf _ _ Hr) as Hwf. pose proof (reachable_fenced _ _ Hr) as Hf.
  apply complete_ok in H as (i & d & m & Hi & Hd & Hm & Hid & Hag & Hds & Hda & Hms & Htok & Hfence
    & [(_ & _ & ?)|(Harm & _ & Hlive & db1 & Hins & ->)]); [done|].
  apply insert_message_ok in Hins as
    (ch & json & _ & _ & _ & _ & _ & Hjs & _ & Hres & _ & ->). cbn in *.
  destruct (Hf i Hi) as (d' & Hd' & Hown); [unfold live; rewrite Harm; done|].
  assert (d' = d) as ->.
  { destruct Hown as (? & ? & _). eapply (delivery_key_unique db); eauto; congruence. }
  pose proof Hlive as Hl. unfold validate_live_lease in Hl. m_inv. bool_facts.
  eexists i, d, m, _. split_and!; try done.
  - by exists json.
  - intros Hre. rewrite Hres. apply holds_decodes; [by apply stored_holds|exact Hre].
  - apply elem_of_update_row. exists i. split; [done|].
    rewrite Hid, Hag, Harm, !bool_decide_true by done. by rewrite Hres.
  - apply elem_of_update_row. exists d. split; [set_solver|].
    destruct Hown as (E1 & E2 & E3 & E4 & E5 & _).
    assert (leased_row_matches (messages db ++ [stored_message (m_channel_id m)
      (result_input a x m input) uuid json at_ms (messages_autoinc db + 1)])
      {| lr_key := KeySeq (i_message_seq i); lr_agent_id := a;
         lr_lease_token := complete_lease_token input; lr_window := Live; lr_now := now |} d = true)
      as ->; [|done].
    unfold leased_row_matches, window_matches. cbn.
    rewrite Hds, Hda, E3, E4, E5, Htok, !bool_decide_true by done. cbn. by apply Z.ltb_lt.
Qed.

(** The turns of an invocation are over and none was left uncertain. *)
Definition quiet (x : string) (db : Db) : Prop :=
  ∀ t, t ∈ db.(session_binding_turns) → t_invocation_id t = x → t_state t = TurnState.Quiescent.

Lemma update_turn_quiet x (p : TurnRow → bool) f :
  (∀ t, p t = true → t_state t = TurnState.Active) → (∀ t, t_invocation_id (f t) = t_invocation_id t) →
  preserves (quiet x) (update p f).
Proof.
  intros Hp Hid. apply preserves_update. intros db HI _ t' (t0 & Hin & ->)%elem_of_update_row Hx.
  destruct (p t0) eqn:E; [|by apply HI]. rewrite Hid in Hx. apply Hp in E.
  specialize (HI t0 Hin Hx). congruence.
Qed.

Lemma arm_session_quiet x a y b ref g input now db r db' i :
  arm_session_invocation a y b ref g input now db = Ok (r, db') → wf db →
  i ∈ db.(invocations) → i_id i = x → i_state i = InvocationState.Terminal →
  quiet x db → quiet x db'.
Proof.
  intros H Hwf Hi Hid Hterm Hq. unfold arm_session_invocation in H. m_inv.
  match goal with H : exact_binding_row _ _ _ = Ok _ |- _ =>
    apply (keeps_exact_binding_row (λ d, d)) in H; simpl in H; subst end.
  match goal with H : arm_invocation_transaction _ _ _ _ _ = Ok (_, ?d) |- _ => rename H into Harm;
    destruct (safe_arm_invocation_transaction true _ _ _ _ _ _ _ Hwf Harm) as [Hwf1 He];
    assert (i ∈ d.(invocations)) as Hi1
      by (eapply stuck_elem; [apply (ev_invocations _ _ _ He)| |done];
          intros i2 Hs; inversion Hs; congruence);
    apply arm_armed in Harm as ((j & Hj & Hjy & Hja) & Htn & _); [|done];
    assert (quiet (i_id i) d) as Hq1 by (unfold quiet; by rewrite Htn) end.
  assert (y ≠ i_id i) as Hne.
  { intros ->. assert (j = i) as -> by (by eapply invocation_id_unique). unfold armed in Hja. congruence. }
  match goal with H : activate_binding_turn _ _ _ _ _ = Ok (_, ?d) |- _ => rename H into Hact;
    assert (quiet (i_id i) d) as Hq2 end.
  { unfold activate_binding_turn in Hact. m_inv.
    destruct (List.find _ _) as [t|]; m_inv; [done|].
    match goal with H : insert _ _ = Ok _ |- _ => apply insert_ok in H as (_ & _ & _ & _ & ->) end.
    match goal with H : fenced_update _ _ _ _ _ = Ok _ |- _ =>
      apply fenced_update_ok in H as (s & _ & _ & _ & _ & _ & ->) end.
    intros t. cbn. intros [Hin| ->%list_elem_of_singleton]%elem_of_app Hx; [by apply Hq1|].
    by cbn in Hx. }
  match goal with H : begin_invocation_observation _ _ _ _ _ _ = Ok (_, ?d) |- _ =>
    assert (quiet (i_id i) d) as Hq3 by (revert Hq2; apply (preserves_run (quiet (i_id i)) _ _ _ _ H);
                                       preserves_tac) end.
  match goal with H : binding_by_identity _ _ _ = Ok _ |- _ =>
    apply (keeps_binding_by_identity (λ d, d)) in H; simpl in H; subst end. done.
Qed.

Lemma transition_quiet x operator db db' i :
  transition sha256_hex operator db db' → wf db → i ∈ db.(invocations) → i_id i = x →
  i_state i = InvocationState.Terminal → quiet x db → quiet x db'.
Proof.
  intros Ht Hwf Hi Hid Hterm. destruct Ht; try (by eapply arm_session_quiet).
  all: by_run; preserves_tac.
  all: apply update_turn_quiet; [|done]; intros ? Hp; unfold active_turn in Hp; by bool_facts.
Qed.

Lemma reaches_quiet x db db' i :
  reaches sha256_hex db db' → wf db → i ∈ db.(invocations) → i_id i = x →
  i_state i = InvocationState.Terminal → quiet x db → quiet x db'.
Proof.
  intros Hrun Hwf Hi Hid Hterm Hq.
  enough (wf db' ∧ i ∈ db'.(invocations) ∧ quiet x db') as (_ & _ & H) by exact H.
  revert Hrun. apply (reaches_invariant sha256_hex (λ d, wf d ∧ i ∈ d.(invocations) ∧ quiet x d)).
  - intros op d d' Ht (Hwf1 & Hi1 & Hq1).
    destruct (transition_safe _ _ _ _ Hwf1 Ht) as [Hwf2 He]. split_and!; [done| |].
    + eapply stuck_elem; [apply (ev_invocations _ _ _ He)| |done].
      intros i2 Hs. inversion Hs; congruence.
    + by eapply transition_quiet.
  - done.
Qed.

(** The state in which repeating a completion is a replay. *)
Definition completed_as (a x : string) (input : CompleteInvocation) (c : InvocationCompletion)
    (db : Db) : Prop :=
  ∃ i d m rm,
    i ∈ db.(invocations) ∧ d ∈ db.(agent_deliveries) ∧ m ∈ db.(messages) ∧ rm ∈ db.(messages)
    ∧ i_id i = x ∧ i_agent_id i = a ∧ d_message_seq d = i_message_seq i ∧ d_agent_id d = a
    ∧ m_seq m = i_message_seq i ∧ i_lease_token i = complete_lease_token input
    ∧ i_fence_token i = complete_fence_token input ∧ i_state i = InvocationState.Terminal
    ∧ i_result_message_seq i = Some (m_seq rm) ∧ i_terminal_reason i = Some "completed"
    ∧ holds_message rm (completion_result c)
    ∧ message_matches_input (completion_result c) (m_channel_id m) (result_input a x m input) = true
    ∧ invocation_from_row (i, m, Some rm) = Ok (completion_invocation c).

Lemma completed_as_runs a x input c db db' :
  reaches sha256_hex db db' → wf db → completed_as a x input c db → completed_as a x input c db'.
Proof.
  intros Hrun Hwf (i & d & m & rm & Hi & Hd & Hm & Hrm & Hid & Ha & Hds & Hda & Hms & Htok & Hfen
    & Hterm & H1 & H2 & H3 & H4 & H5). destruct (reaches_safe _ _ _ Hwf Hrun) as [_ He].
  destruct (evolves_messages _ _ _ He) as [added Hadd].
  destruct (table_rel_elem _ _ _ _ (ev_deliveries _ _ _ He) Hd) as (d' & Hd' & Hmv).
  exists i, d', m, rm. rewrite Hadd.
  apply delivery_moves_key in Hmv as [E1 E2].
  split_and!; try done; try (apply elem_of_app; by left); try congruence.
  - eapply stuck_elem; [apply (ev_invocations _ _ _ He)| |done].
    intros i2 Hs. inversion Hs; congruence.
Qed.

(** In that state the completion returns what is on record. *)
Lemma completed_as_replays a x input c db now uuid at_ms :
  wf db → quiet x db → validate_completion x input = Ok tt → reparses (complete_payload input) →
  completed_as a x input c db →
  complete_invocation a x input now uuid at_ms db = Ok ((c, false), db).
Proof.
  intros Hwf Hq Hv Hre (i & d & m & rm & Hi & Hd & Hm & Hrm & Hid & Ha & Hds & Hda & Hms & Htok & Hfen
    & Hterm & Hres & Hreason & Hmsg & Hmatch & Hinv). subst x a.
  apply holds_decodes in Hmsg; [|by rewrite (matches_payload _ _ _ Hmatch)].
  unfold complete_invocation, complete_invocation_transaction, bind, lift. rewrite Hv.
  unfold ensure_invocation_not_active_on_session, bind, fetch_optional, gets, lift.
  assert (∀ t, List.find (λ t, t_invocation_id t ==? i_id i) db.(session_binding_turns) = Some t →
               t_state t = TurnState.Quiescent) as Hquiet.
  { intros t Hf. apply find_some_elem in Hf as [Ht Hx]. bool_facts. by apply Hq. }
  change (rows db) with db.(session_binding_turns).
  assert ((match List.find (λ t, t_invocation_id t ==? i_id i) db.(session_binding_turns) with
           | Some t => (t_state t ==? TurnState.Active) || (t_state t ==? TurnState.Uncertain)
           | None => false end) = false) as ->.
  { destruct (List.find _ _) as [t|]; [|done]. by rewrite (Hquiet t eq_refl). }
  cbn. rewrite (invocation_with_delivery_eq db i d m) by done.
  unfold validate_static_fence. rewrite Htok, Hfen, !bool_decide_true by done. cbn.
  unfold completed_replay. rewrite Hres.
  unfold bind, lift. rewrite Hreason, (bool_decide_true (Some "completed" = _)) by done. cbn.
  unfold message_by_seq, bind, fetch_optional, gets, lift.
  change (rows db) with db.(messages).
  rewrite (find_unique _ _ rm); [|done|by apply bool_decide_eq_true
    |intros m' Hm' Hp; bool_facts; by eapply (message_seq_unique db)].
  cbn. rewrite Hmsg, Hmatch. cbn. rewrite (invocation_by_id_eq db i m rm) by done.
  rewrite Hinv. by destruct c.
Qed.

(** A successful completion, first or repeated, leaves that state behind. *)
Lemma complete_replay_state a x input now allow uuid at_ms db c db' :
  wf db → complete_invocation_transaction a x input now allow uuid at_ms db = Ok ((c, false), db') →
  completed_as a x input c db'.
Proof.
  intros Hwf H. pose proof (complete_ok _ _ _ _ _ _ _ _ _ _ H) as
    (i & d & m & Hi & Hd & Hm & Hid & Ha & Hds & Hda & Hms & Htok & Hfen & [(-> & Hterm & _)|(_ & ? & _)]);
    [|done].
  unfold complete_invocation_transaction in H. m_inv.
  match goal with H : (if allow then _ else _) db = Ok (_, ?d) |- _ =>
    assert (d = db) as -> by (destruct allow; unfold ensure_invocation_not_active_on_session in H;
      by m_inv) end.
  match goal with H : invocation_with_delivery _ _ _ = Ok _ |- _ =>
    rewrite (invocation_with_delivery_eq db i d m) in H by done; injection H as <- <- end.
  m_inv. rewrite Hterm, bool_decide_true in H by done. m_inv. simplify_eq.
  match goal with H : completed_replay _ _ _ _ _ = Ok _ |- _ => unfold completed_replay in H end.
  destruct (i_result_message_seq i) as [seq|] eqn:Hseq; m_inv. bool_facts.
  unfold message_by_seq in *. m_inv. bool_facts. subst seq.
  match goal with H : invocation_by_id _ ?st = Ok _, Hrm : ?rm ∈ rows _ |- _ =>
    rewrite (invocation_by_id_eq st i m rm) in H by done;
    destruct (invocation_from_row _) eqn:Hinv; [|done]; simplify_eq;
    exists i, d, m, rm end.
  split_and!; try done. by apply decoded_holds.
Qed.

(** Completing outside a session needs the turns of the attempt to be over. *)
Lemma complete_quiet a x input now uuid at_ms db r db' :
  sessions_agree db →
  complete_invocation_transaction a x input now false uuid at_ms db = Ok (r, db') →
  validate_completion x input = Ok tt ∧ quiet x db'.
Proof.
  intros Hag H. pose proof (complete_ok _ _ _ _ _ _ _ _ _ _ H) as Hok.
  assert (db'.(session_binding_turns) = db.(session_binding_turns)) as Hts.
  { destruct Hok as (i0 & d0 & m0 & _ & _ & _ & _ & _ & _ & _ & _ & _ & _ & [(-> & _)|Hok]); [done|].
    destruct Hok as (_ & _ & _ & db1 & Hins & ->).
    by apply insert_message_ok in Hins as (ch & json & _ & _ & _ & _ & _ & _ & _ & _ & _ & ->). }
  unfold complete_invocation_transaction, ensure_invocation_not_active_on_session in H. m_inv.
  split; [done|]. intros t Ht Hx. rewrite Hts in Ht.
  destruct (List.find _ _) as [t'|] eqn:Hf.
  - apply find_some_elem in Hf as [Ht' Hid']. bool_facts.
    assert (t' = t) as -> by (eapply turn_unique; eauto; congruence). by destruct (t_state t).
  - pose proof (find_none_elem _ _ _ Hf Ht) as Hn. cbv beta in Hn. by rewrite bool_decide_true in Hn.
Qed.

Lemma complete_reads_back a x input now allow uuid at_ms db c db' :
  complete_invocation_transaction a x input now allow uuid at_ms db = Ok ((c, true), db') →
  invocation_by_id x db' = Ok (completion_invocation c, db').
Proof.
  unfold complete_invocation_transaction. intros H. m_inv.
  match goal with x : _ * _ * _ |- _ => destruct x as [[i0 d0] m0] end. m_inv.
  match type of H with (if ?b then _ else _) _ = _ => destruct b end; m_inv; simplify_eq.
  match goal with H : invocation_by_id _ _ = Ok _ |- _ =>
    pose proof (invocation_by_id_reads _ _ _ _ H) as ->; exact H end.
Qed.

Lemma complete_first_state a x input now allow uuid at_ms db c db' :
  reachable sha256_hex db →
  complete_invocation_transaction a x input now allow uuid at_ms db = Ok ((c, true), db') →
  completed_as a x input c db'.
Proof.
  intros Hr H. pose proof (reachable_wf _ _ Hr) as Hwf.
  destruct (safe_complete_invocation_transaction true _ _ _ _ _ _ _ _ _ _ Hwf H) as [Hwf' _].
  pose proof (complete_ok _ _ _ _ _ _ _ _ _ _ H) as
    (i & d & m & Hi & Hd & Hm & Hid & Ha & Hds & Hda & Hms & Htok & Hfen
     & [(_ & _ & ?)|(Harm & _ & _ & db1 & Hins & Hdb')]); [done|].
  apply insert_message_ok in Hins as (ch & json & _ & _ & _ & _ & _ & Hjs & _ & Hres & _ & ->).
  cbn in *. set (row := stored_message _ _ _ _ _ _) in *.
  assert (∃ d', d' ∈ db'.(agent_deliveries) ∧ d_message_seq d' = d_message_seq d
                ∧ d_agent_id d' = d_agent_id d) as (d' & Hd' & Hds' & Hda').
  { rewrite Hdb'. cbn. eexists. split; [apply elem_of_update_row; exists d; split; [set_solver|done]|].
    by case_match. }
  set (i' := set_completed now (m_seq row) i).
  assert (i' ∈ db'.(invocations)) as Hi'.
  { rewrite Hdb'. apply elem_of_update_row. exists i. split; [done|].
    by rewrite Hid, Ha, Harm, !bool_decide_true, Hres by done. }
  assert (db'.(messages) = db.(messages) ++ [row]) as Hmsgs by by rewrite Hdb'.
  assert (row ∈ db'.(messages)) as Hrow by (rewrite Hmsgs; set_solver).
  assert (holds_message row (completion_result c)) as Hdec by (rewrite Hres; by apply stored_holds).
  assert (m ∈ db'.(messages)) as Hm' by (rewrite Hmsgs; set_solver).
  exists i', d', m, row. split_and!; try done; [by rewrite Hds'|by rewrite Hda'| |].
  - rewrite Hres. unfold message_matches_input. cbn. by rewrite !bool_decide_true by done.
  - assert (invocation_by_id x db' = Ok (completion_invocation c, db')) as Hby.
    { by eapply complete_reads_back. }
    rewrite <-Hid in Hby. change (i_id i) with (i_id i') in Hby.
    rewrite (invocation_by_id_eq db' i' m row) in Hby by done.
    destruct (invocation_from_row _); congruence.
Qed.

(** Completing is idempotent for ever: after a successful completion and
    whatever ran since, repeating it with the same tokens and result (under a new
    uuid and at another time) returns the same invocation and result message,
    reports a replay and publishes nothing. *)
Theorem completion_replay a x input now uuid at_ms db c created db1 db2 now' uuid' at_ms' :
  reachable sha256_hex db →
  complete_invocation a x input now uuid at_ms db = Ok ((c, created), db1) →
  reparses (complete_payload input) → reaches sha256_hex db1 db2 →
  complete_invocation a x input now' uuid' at_ms' db2 = Ok ((c, false), db2).
Proof.
  intros Hr H Hre Hrun. pose proof (reachable_wf _ _ Hr) as Hwf.
  unfold complete_invocation in H.
  destruct (safe_complete_invocation_transaction true _ _ _ _ _ _ _ _ _ _ Hwf H) as [Hwf1 _].
  destruct (reaches_safe _ _ _ Hwf1 Hrun) as [Hwf2 _].
  assert (completed_as a x input c db1) as Hc1.
  { destruct created; [exact (complete_first_state _ _ _ _ _ _ _ _ _ _ Hr H)
      |exact (complete_replay_state _ _ _ _ _ _ _ _ _ _ Hwf H)]. }
  assert (validate_completion x input = Ok tt ∧ quiet x db1) as [Hv Hq1].
  { by eapply complete_quiet; [apply (reachable_agrees _ _ Hr)|]. }
  pose proof Hc1 as (i & _ & _ & _ & Hi & _ & _ & _ & Hid & _ & _ & _ & _ & _ & _ & Hterm & _).
  apply completed_as_replays; [done| |done|done|by eapply completed_as_runs].
  by eapply reaches_quiet.
Qed.
End completion.

(** ** Claims *)

Lemma join_fst_sublist {A B} (on : A → B → bool) la lb :
  (∀ a, (length (List.filter (on a) lb) ≤ 1)%nat) → map fst (join on la lb) `sublist_of` la.
Proof.
  intros Hone. unfold join. induction la as [|a la IH]; cbn; [constructor|].
  rewrite map_app, map_map. cbn. specialize (Hone a).
  destruct (List.filter (on a) lb) as [|b [|]]; cbn in *; [by constructor|by constructor|lia].
Qed.

Lemma filter_sublist {A} (p : A → bool) (l : list A) : List.filter p l `sublist_of` l.
Proof. induction l as [|a l IH]; cbn; [constructor|]. destruct (p a); by constructor. Qed.

Lemma filter_at_most_one {R} `{Table R} `{!ConflictSym R} (p : R → bool) (l : list R) :
  no_conflict l = true → (∀ a b, p a = true → p b = true → conflict a b = true) →
  (length (List.filter p l) ≤ 1)%nat.
Proof.
  intros Hu Hp. induction l as [|r l IH]; cbn; [lia|]. cbn in Hu. bool_facts.
  destruct (p r) eqn:E; [|by apply IH]. cbn.
  rewrite (filter_none p l); [cbn; lia|]. intros b Hb. apply not_true_iff_false. intros Hpb.
  match goal with H : forallb _ _ = true |- _ => rewrite forallb_forall in H;
    apply list_elem_of_In, H in Hb end. by rewrite (Hp r b) in Hb.
Qed.

Lemma delivery_keys_nodup l : no_conflict (R := DeliveryRow) l = true → NoDup (map delivery_key l).
Proof.
  induction l as [|d l IH]; intros Hu; cbn in *; [constructor|]. bool_facts.
  constructor; [|by apply IH]. intros (d' & Hk & Hd')%list_elem_of_fmap.
  match goal with H : forallb _ _ = true |- _ => rewrite forallb_forall in H;
    apply list_elem_of_In, H in Hd' end.
  unfold conflict_delivery in Hd'. unfold delivery_key in Hk. injection Hk as H1 H2.
  by rewrite H1, H2, !bool_decide_true in Hd' by done.
Qed.

Lemma leased_rows_nodup db (p : DeliveryRow * MessageRow → bool) :
  wf db → NoDup (map (λ r, delivery_key r.1) (List.filter p (deliveries_with_messages db))).
Proof.
  intros Hwf. eapply sublist_NoDup.
  - apply (delivery_keys_nodup db.(agent_deliveries)). apply (wf_deliveries _ Hwf).
  - rewrite <-(map_map fst delivery_key). apply fmap_sublist.
    etransitivity; [apply fmap_sublist, filter_sublist|]. apply join_fst_sublist. intros d.
    apply filter_at_most_one; [apply (wf_messages _ Hwf)|]. intros m1 m2 H1 H2. bool_facts.
    cbn. unfold conflict_message. by rewrite (bool_decide_true (m_seq m1 = _)) by congruence.
Qed.

Lemma collect_length {A B} (f : A → result B) l bs : collect f l = Ok bs → length bs = length l.
Proof. revert bs. induction l; intros bs H; simpl in H; m_inv; [done|]. cbn. f_equal. auto. Qed.

Lemma checked_add_i64_ok x y z : checked_add_i64 x y = Some z → z = x + y ∧ in_i64 z = true.
Proof. unfold checked_add_i64. case_match; intros [= <-]. done. Qed.

Section claim.
Context `{J : SerdeJson} (sha256_hex : string → string).

(** A batch holds no more rows than the subquery selected. *)
Lemma leased_batch_length a t e now lim kinds db u db' batch db2 :
  (∀ d, d ∈ db.(agent_deliveries) → d_lease_token d ≠ Some t) → wf db' → 0 ≤ lim →
  lease_claimable a t e now lim kinds db = Ok (u, db') →
  leased_batch a t db' = Ok (batch, db2) → Z.of_nat (length batch) ≤ lim.
Proof.
  intros Hfresh Hwf Hlim Hle Hb. unfold leased_batch in Hb. m_inv.
  match goal with H : collect _ _ = Ok _ |- _ => apply collect_length in H as -> end.
  rewrite (Permutation_length (sort_by_perm _ _)).
  match goal with |- context [length (List.filter ?p _)] => set (sel := p) end.
  rewrite <-(length_map (λ r, delivery_key r.1)).
  assert (length (claimable_keys a now lim kinds db) ≤ Z.to_nat lim)%nat as Hk.
  { unfold claimable_keys, limit. rewrite length_map, length_take. lia. }
  enough (length (map (λ r, delivery_key r.1) (List.filter sel (deliveries_with_messages db')))
          ≤ length (claimable_keys a now lim kinds db))%nat by lia.
  apply submseteq_length, NoDup_submseteq; [by apply leased_rows_nodup|].
  intros k ([d m] & -> & Hr)%list_elem_of_fmap. apply elem_of_list_filter in Hr as [Hs Hj].
  apply elem_of_join in Hj as (Hd & _). unfold sel in Hs. cbn in *. bool_facts.
  destruct (leased_fresh _ _ _ _ _ _ _ _ _ d Hfresh Hle Hd) as (_ & d0 & _ & -> & Hk0); [done|]. exact Hk0.
Qed.

(** A claim is bounded and honest: it grants at most the asked number of
    deliveries (1 to 100), all under one lease that ends [lease_duration_ms] (1 ms to
    1 h) after now without overflowing; each was due, pending or with an expired
    lease, and counts one more attempt. *)
Theorem claim_bounded a input now token db batch db' :
  reachable sha256_hex db → fresh_token token db →
  0 ≤ claim_limit input → 0 ≤ claim_lease_duration_ms input →
  claim_deliveries a input now token db = Ok (batch, db') →
  1 ≤ claim_limit input ≤ 100 ∧ Z.of_nat (length (batch_deliveries batch)) ≤ claim_limit input
  ∧ 1 ≤ claim_lease_duration_ms input ≤ 3600000
  ∧ batch_lease_expires_at_ms batch = now + claim_lease_duration_ms input
  ∧ in_i64 (batch_lease_expires_at_ms batch) = true
  ∧ ∀ del, del ∈ batch_deliveries batch →
      ∃ d, d ∈ db.(agent_deliveries) ∧ claimable a now d = true
           ∧ d_message_seq d = msg_seq (delivery_message del)
           ∧ delivery_attempt del = d_attempt d + 1.
Proof.
  intros Hr Hfr Hl0 Hd0 H. pose proof (reachable_wf _ _ Hr) as Hwf.
  pose proof (reachable_fenced _ _ Hr) as Hf.
  unfold claim_deliveries, ensure_agent, ensure_exists, validate_claim in H. m_inv. bool_facts.
  match goal with H : i64_try_from _ = Some _ |- _ => apply i64_try_from_ok in H as [-> _] end.
  match goal with H : checked_add_i64 _ _ = Some _ |- _ =>
    apply checked_add_i64_ok in H as [-> Hin] end.
  match goal with H : recover_expired_invocations_transaction _ _ _ = Ok _ |- _ => rename H into Hrec end.
  match goal with H : lease_claimable _ _ _ _ _ _ _ = Ok _ |- _ => rename H into Hle end.
  match goal with H : leased_batch _ _ _ = Ok _ |- _ => rename H into Hb end.
  destruct (recovered _ _ _ _ _ _ Hwf Hf Hfr Hrec) as (Hwf1 & _ & _ & _ & Hfresh).
  destruct (safe_lease_claimable true _ _ _ _ _ _ _ _ _ Hwf1 Hle) as [Hwf2 _].
  cbn. unfold MAX_CLAIM_LIMIT, MAX_LEASE_DURATION_MS in *.
  split_and!; try lia; try done.
  - eapply leased_batch_length; eauto.
  - intros del Hdel. eapply leased_batch_elem in Hb as (d & m & Hd & _ & _ & Hda & _ & Ht & -> & ->); [|done].
    destruct (leased_fresh _ _ _ _ _ _ _ _ _ d Hfresh Hle Hd Ht) as (_ & d1 & Hd1 & -> & Hk). exists d1.
    apply claimable_keys_ok in Hk; [|done|done]. split_and!; try done.
    eapply recover_deliveries in Hd1 as [?|[Hbl _]]; [done| |exact Hrec].
    apply claimable_state in Hk as [?|?]; congruence.
Qed.
End claim.

(** ** Block resolution *)

Lemma block_id_unique db b1 b2 :
  wf db → b1 ∈ db.(delivery_blocks) → b2 ∈ db.(delivery_blocks) → b_id b1 = b_id b2 → b1 = b2.
Proof.
  intros Hwf H1 H2 Hid. eapply no_conflict_eq; [apply (wf_blocks db Hwf)|done|done|].
  cbn. unfold conflict_block. by rewrite bool_decide_true.
Qed.

(** The block is resolved on record as the input says. *)
Definition resolved_as (id : Z) (input : ResolveDeliveryBlock) (db : Db) : Prop :=
  ∃ b d, b ∈ db.(delivery_blocks) ∧ d ∈ db.(agent_deliveries) ∧ b_id b = id
    ∧ d_message_seq d = b_message_seq b ∧ d_agent_id d = b_agent_id b
    ∧ is_none (b_resolved_at_ms b) = false
    ∧ b_resolution b = Some (resolution_name (rdb_resolution input))
    ∧ b_resolution_note b = rdb_note input
    ∧ b_retry_after_ms b = Some (rdb_retry_after_ms input).

Lemma resolution_row_ok id db b d db' :
  resolution_row id db = Ok ((b, d), db') →
  db' = db ∧ b ∈ db.(delivery_blocks) ∧ d ∈ db.(agent_deliveries) ∧ b_id b = id
  ∧ d_message_seq d = b_message_seq b ∧ d_agent_id d = b_agent_id b.
Proof.
  unfold resolution_row. intros H. m_inv.
  match goal with H : _ ∈ join _ _ _ |- _ => apply elem_of_join in H as (? & ? & ?) end.
  by bool_facts.
Qed.

Lemma resolution_row_eq db b d :
  wf db → b ∈ db.(delivery_blocks) → d ∈ db.(agent_deliveries) →
  d_message_seq d = b_message_seq b → d_agent_id d = b_agent_id b →
  resolution_row (b_id b) db = Ok ((b, d), db).
Proof.
  intros Hwf Hb Hd Hs Ha. unfold resolution_row, bind, gets, lift.
  rewrite (find_unique _ _ (b, d)); [done|..].
  - apply elem_of_join. by rewrite Hs, Ha, !bool_decide_true by done.
  - cbn. by rewrite bool_decide_true.
  - intros [b' d'] (Hb' & Hd' & Hon)%elem_of_join Hp. bool_facts. cbn in *.
    assert (b' = b) as -> by (by eapply (block_id_unique db)). f_equal.
    eapply (delivery_key_unique db); eauto; congruence.
Qed.

Lemma resolve_ok id input now db u db' :
  wf db → resolve_delivery_block_transaction id input now db = Ok (u, db') →
  validate_resolution id input = Ok tt
  ∧ i64_try_from (rdb_retry_after_ms input) = Some (rdb_retry_after_ms input)
  ∧ resolved_as id input db'.
Proof.
  intros Hwf H.
  destruct (safe_resolve_delivery_block_transaction _ _ _ _ _ _ Hwf H) as [_ He].
  unfold resolve_delivery_block_transaction in H. m_inv. split; [done|].
  match goal with H : i64_try_from _ = Some _ |- _ => pose proof (i64_try_from_ok _ _ H) as [-> _] end.
  split; [done|].
  match goal with x : BlockRow * DeliveryRow |- _ => destruct x as [b d] end.
  match goal with H : resolution_row _ _ = Ok _ |- _ =>
    apply resolution_row_ok in H as (-> & Hb & Hd & Hid & Hs & Ha) end.
  match goal with H : resolution_is_replay _ _ _ = Ok ?r |- _ =>
    unfold resolution_is_replay in H; destruct r end; cbn in *.
  - m_inv. exists b, d. destruct (is_none (b_resolved_at_ms b)); [done|].
    by repeat case_bool_decide.
  - m_inv. bool_facts.
    destruct (table_rel_elem _ _ _ _ (ev_deliveries _ _ _ He) Hd) as (d' & Hd' & [Es Ea]%delivery_moves_key).
    match goal with H : resolve_delivery_row _ _ _ _ _ = Ok _ |- _ =>
      apply resolve_delivery_row_ok in H as (pd & setd & -> & Hpd) end.
    match goal with H : update _ ?f _ = Ok _ |- _ =>
      apply update_ok in H as (-> & _); exists (f b), d' end.
    split; [|cbn; by split_and!; first [done|congruence]]. apply elem_of_update_row. exists b. split; [done|].
    destruct (is_none (b_resolved_at_ms b)); [|by repeat case_bool_decide].
    by rewrite bool_decide_true.
Qed.

(** *** The session of a block *)

Section block_session.
Context (g : BindingRow → BindingRow).
Context (Hg : ∀ s, s_binding_id (g s) = s_binding_id s
                   ∧ s_binding_generation (g s) = s_binding_generation s).
Definition with_binding (r : InvocationRow * TurnRow * BindingRow)
    : InvocationRow * TurnRow * BindingRow := (r.1, g r.2).

Lemma flat_map_with {A B} (G : B → B) (f f' : A → list B) l :
  (∀ a, f' a = map G (f a)) → flat_map f' l = map G (flat_map f l).
Proof. intros Hf. induction l as [|a l IH]; cbn; [done|]. by rewrite Hf, IH, map_app. Qed.

Lemma filter_map_ids (p : BindingRow → bool) l :
  (∀ s, p (g s) = p s) → List.filter p (map g l) = map g (List.filter p l).
Proof. intros Hp. induction l as [|s l IH]; cbn; [done|]. rewrite Hp, IH. by destruct (p s). Qed.

(** Changing bindings in place changes the binding the query returns. *)
Lemma block_session_map id db :
  block_session id (set_session_bindings (map g db.(session_bindings)) db)
  = with_binding <$> block_session id db.
Proof using Hg.
  unfold block_session. cbn.
  rewrite (flat_map_with with_binding (λ b, flat_map
          (λ i, flat_map
             (λ t, map (λ s, (i, t, s))
                (List.filter (λ s, (s_binding_id s ==? t_binding_id t)
                                   && (s_binding_generation s ==? t_binding_generation t))
                   db.(session_bindings)))
             (List.filter (λ t, t_invocation_id t ==? i_id i) db.(session_binding_turns)))
          (List.filter (λ i, (i_message_seq i ==? b_message_seq b)
                             && (i_agent_id i ==? b_agent_id b)
                             && (i_lease_token i ==? b_lease_token b)) db.(invocations)))).
  - by destruct (flat_map _ _).
  - intros b. apply flat_map_with. intros i. apply flat_map_with. intros t.
    rewrite filter_map_ids, !map_map; [done|]. intros s. destruct (Hg s) as [H1 H2].
    f_equal; apply bool_decide_ext; by rewrite ?H1, ?H2.
Qed.
End block_session.

Lemma keeps_for_retire {X} (f : Db → X) id r now :
  (∀ l db, f (set_session_bindings l db) = f db) →
  keeps f (retire_uncertain_session_for_delivery_block id r now).
Proof.
  intros Hf. unfold retire_uncertain_session_for_delivery_block, fenced_update. keeps_tac.
  by apply keeps_update.
Qed.

(** Retiring the session of a block again finds it retired. *)
Lemma retire_for_block_replay id res now db r db' now' :
  retire_uncertain_session_for_delivery_block id res now db = Ok (r, db') →
  retire_uncertain_session_for_delivery_block id res now' db' = Ok (r, db').
Proof.
  unfold retire_uncertain_session_for_delivery_block. intros H. m_inv.
  destruct (block_session id db) as [[[i t] s]|] eqn:Hbs.
  - match type of H with (if ?c then _ else _) _ = _ => destruct c eqn:Hst end; m_inv.
    + unfold bind, gets. rewrite Hbs, Hst. bool_facts. unfold lift, guard, ret.
      by rewrite bool_decide_true.
    + match goal with H : fenced_update _ _ _ _ _ = Ok _ |- _ =>
        apply fenced_update_ok in H as (s' & Hs' & Hfm & Hon & Hps & _ & ->) end.
      bool_facts. unfold bind, gets. rewrite block_session_map, Hbs;
        [|intros s0; unfold update_row; by case_match]. cbn.
      match goal with |- context [update_row ?p ?f s] => assert (update_row p f s = f s) as -> end.
      { unfold update_row, fence_matches. cbn.
        repeat match goal with H : s_state s = _ |- _ => rewrite H
                 | H : s_active_invocation_id s = _ |- _ => rewrite H end.
        by rewrite !bool_decide_true by done. }
      unfold lift, guard, ret. cbn. by rewrite (bool_decide_true (Some _ = _)).
  - m_inv. unfold bind, gets. by rewrite Hbs.
Qed.

(** An operator's resolution is idempotent: repeating it with the same decision
    succeeds and changes nothing, including the retirement of the session the
    blocked attempt left uncertain. *)
Theorem resolution_replay (sha256_hex : string → string) `{J : SerdeJson} id input now db db' now' :
  reachable sha256_hex db → resolve_delivery_block id input now db = Ok (tt, db') →
  resolve_delivery_block id input now' db' = Ok (tt, db').
Proof.
  intros Hr H. pose proof (reachable_wf _ _ Hr) as Hwf.
  destruct (safe_resolve_delivery_block _ _ _ _ _ _ Hwf H) as [Hwf' _].
  unfold resolve_delivery_block in H. m_inv.
  match goal with H : resolve_delivery_block_transaction _ _ _ _ = Ok _ |- _ =>
    apply resolve_ok in H as (Hv & Hretry & b & d & Hb & Hd & Hid & Hs & Ha & Hr1 & Hr2 & Hr3 & Hr4);
      [|done] end.
  match goal with H : retire_uncertain_session_for_delivery_block _ _ _ ?x = Ok (_, ?y) |- _ =>
    pose proof H as Hret;
    apply (keeps_for_retire (λ d, (delivery_blocks d, agent_deliveries d))) in H as [= Eb Ed]; [|done..];
    assert (b ∈ y.(delivery_blocks) ∧ d ∈ y.(agent_deliveries)) as [Hb' Hd'] by (by rewrite Eb, Ed) end.
  match goal with |- _ = Ok (_, ?y) => rename y into db' end.
  unfold resolve_delivery_block, bind.
  assert (resolve_delivery_block_transaction id input now' db' = Ok (tt, db')) as ->.
  { unfold resolve_delivery_block_transaction, bind, lift. rewrite Hv, Hretry. cbn.
    subst id. rewrite (resolution_row_eq db' b d) by done. cbn.
    unfold resolution_is_replay. by rewrite Hr1, Hr2, Hr3, Hr4, !bool_decide_true by done. }
  by rewrite (retire_for_block_replay _ _ _ _ _ _ now' Hret).
Qed.

(** ** The theorems at concrete states *)

Definition give_back : RetryDelivery :=
  {| retry_lease_token := "T1"; retry_after_ms := 10; retry_error := Some "busy" |}.
Definition asked_message : MessageRow := Eval vm_compute in
  hd (stored_message "" ask "" "" 0 0) db_armed.(messages).

Lemma retry_refused_when_armed_witness :
  retry_delivery "B" "M1" give_back 25 db_armed
  = Err (Conflict "dispatch-armed invocation must be blocked or acknowledged").
Proof.
  apply (retry_refused_when_armed plain_sha256 "B" asked_message give_back 25 db_armed armed_row);
    [exact reachable_armed|in_rows|reflexivity|reflexivity|reflexivity|in_rows|reflexivity
    |vm_compute; reflexivity|vm_compute; reflexivity].
Defined.

(** The reserved delivery is acknowledged outside any dispatch, then a recovery
    pass runs, then the acknowledgement is repeated. *)
Definition op_ack : M unit := acknowledge_delivery "B" "M1" "T1" 15.
Definition db_acked : Db := Eval vm_compute in exec op_ack db_reserved.
Definition db_acked_later : Db := Eval vm_compute in exec op_recover db_acked.

Lemma acknowledge_replay_witness :
  acknowledge_delivery "B" "M1" "T1" 7000 db_acked_later = Ok (tt, db_acked_later).
Proof.
  apply (acknowledge_replay plain_sha256 "B" "M1" "T1" 15 db_reserved db_acked).
  - exact reachable_reserved.
  - vm_compute. reflexivity.
  - apply (run_once op_recover false); [intros; by eapply t_recover|done|done].
Defined.

Lemma completion_publishes_witness :
  ∃ c, op_complete db_armed = Ok ((c, true), db_completed)
  ∧ ∃ i d m row,
    i ∈ db_armed.(invocations) ∧ i_id i = "U0" ∧ i_agent_id i = "B"
    ∧ i_state i = InvocationState.DispatchArmed ∧ i_lease_token i = "T1"
    ∧ i_fence_token i = "U1" ∧ 30 < i_lease_expires_at_ms i
    ∧ d ∈ db_armed.(agent_deliveries) ∧ owns i d
    ∧ m ∈ db_armed.(messages) ∧ m_seq m = i_message_seq i
    ∧ db_completed.(messages) = db_armed.(messages) ++ [row]
    ∧ (∃ json, to_json (complete_payload answer) = Some json
         ∧ row = stored_message (m_channel_id m) (result_input "B" "U0" m answer) "M2" json 31 2)
    ∧ (reparses (complete_payload answer) → message_from_row row = Ok (completion_result c))
    ∧ completion_result c
      = returned_message (m_channel_id m) (result_input "B" "U0" m answer) "M2" 31 2
    ∧ set_completed 30 (m_seq row) i ∈ db_completed.(invocations)
    ∧ settle_acknowledged "T1" 30 d ∈ db_completed.(agent_deliveries).
Proof.
  eexists. split; [vm_compute; reflexivity|].
  apply (completion_publishes plain_sha256 "B" "U0" answer 30 false "M2" 31 db_armed);
    [exact reachable_armed|vm_compute; reflexivity].
Defined.

Definition db_completed_later : Db := Eval vm_compute in exec op_ask_again db_completed.

Lemma completion_replay_witness :
  ∃ c, op_complete db_armed = Ok ((c, true), db_completed)
    ∧ complete_invocation "B" "U0" answer 60 "M9" 61 db_completed_later
      = Ok ((c, false), db_completed_later).
Proof.
  eexists. split; [vm_compute; reflexivity|].
  eapply (completion_replay plain_sha256 "B" "U0" answer 30 "M2" 31 db_armed _ true db_completed).
  - exact reachable_armed.
  - vm_compute. reflexivity.
  - by intros s [= <-].
  - apply (run_once op_ask_again false); [intros; by eapply t_append|done|done].
Defined.

Lemma claim_bounded_witness :
  ∃ batch db', claim_deliveries "B" claim_one 5000 "T2" db_two = Ok (batch, db')
    ∧ 1 ≤ 1 ≤ 100 ∧ Z.of_nat (length (batch_deliveries batch)) ≤ 1
    ∧ 1 ≤ 1000 ≤ 3600000 ∧ batch_lease_expires_at_ms batch = 5000 + 1000
    ∧ in_i64 (batch_lease_expires_at_ms batch) = true
    ∧ ∀ del, del ∈ batch_deliveries batch →
        ∃ d, d ∈ db_two.(agent_deliveries) ∧ claimable "B" 5000 d = true
             ∧ d_message_seq d = msg_seq (delivery_message del)
             ∧ delivery_attempt del = d_attempt d + 1.
Proof.
  eexists _, _. split; [vm_compute; reflexivity|].
  eapply (claim_bounded plain_sha256 "B" claim_one 5000 "T2" db_two).
  - exact reachable_two.
  - apply fresh_by_computation. vm_compute. reflexivity.
  - vm_compute. discriminate.
  - vm_compute. discriminate.
  - vm_compute. reflexivity.
Defined.

Lemma resolution_replay_witness :
  resolve_delivery_block 1 requeue 9000 db_requeued = Ok (tt, db_requeued).
Proof.
  apply (resolution_replay plain_sha256 1 requeue 6000 db_parked);
    [exact reachable_parked|vm_compute; reflexivity].
Defined.
