(* ===== verification/ObservationProps.v ===== *)
(** * What an invocation observation proves about the event stream

    An observation row is the summary of the contiguous stream of harness events
    accepted for its invocation: counters, byte totals, first and last times and
    the digest chain are folds of that stream.  The terminal summary closes it. *)

From S2P Require Import Prelude Proto Schema Channels Messages Deliveries.
From S2P Require Import SessionFence Observations Invocations Settlement Sessions.
From S2P Require Import Lifecycle Safety System Fence Preserve Scenario.

(** An accepted event, with its payload in bytes. *)
Record Event := {
  ev_observed_at_ms : Z;
  ev_classification : string;
  ev_raw : string;
}.

Section stream.
Context (sha256_hex : string → string).

(** The digest of an event at its position in the stream. *)
Definition digest_at (seq : Z) (e : Event) : string :=
  event_digest sha256_hex seq (ev_observed_at_ms e) (ev_classification e) (ev_raw e).

Definition chain_step (link : Z * option string) (e : Event) : Z * option string :=
  (link.1 + 1, Some (chain_digest sha256_hex link.2 (digest_at (link.1 + 1) e))).
(** The chain over a whole stream, numbered from 1. *)
Definition chain_of (events : list Event) : option string :=
  (foldl chain_step (0, None) events).2.

Definition counts_of (events : list Event) : EventCounts :=
  foldl (λ c e, add_counts c (event_increments (ev_classification e))) no_counts events.
Definition bytes_of (events : list Event) : Z :=
  foldl (λ n e, n + str_len (ev_raw e)) 0 events.

Record summarises (o : ObservationRow) (events : list Event) : Prop := {
  sum_count : o_event_count o = Z.of_nat (length events);
  sum_seq : o_last_event_seq o = Z.of_nat (length events);
  sum_bytes : o_observed_payload_bytes o = bytes_of events;
  sum_classes : o_counts o = counts_of events;
  sum_first : o_first_event_at_ms o = ev_observed_at_ms <$> head events;
  sum_last : o_last_event_at_ms o = ev_observed_at_ms <$> last events;
  sum_digest : o_last_event_digest o = digest_at (Z.of_nat (length events)) <$> last events;
  sum_chain : o_event_chain_digest o = chain_of events;
}.

Lemma chain_position events : (foldl chain_step (0, None) events).1 = Z.of_nat (length events).
Proof.
  induction events as [|e events IH] using rev_ind; [done|].
  rewrite foldl_snoc, length_app. simpl. rewrite IH. lia.
Qed.
Lemma chain_of_snoc events e :
  chain_of (events ++ [e])
  = Some (chain_digest sha256_hex (chain_of events)
            (digest_at (Z.of_nat (length events) + 1) e)).
Proof. unfold chain_of. rewrite foldl_snoc. unfold chain_step at 1. by rewrite chain_position. Qed.

Lemma summarises_new i g b now : summarises (new_observation i g b now) [].
Proof. by split. Qed.
Lemma summarises_terminal `{J : SerdeJson} terminal usage now o events :
  summarises o events → summarises (set_observation_terminal terminal usage now o) events.
Proof. by intros []. Qed.
Lemma summarises_event o events e now :
  summarises o events →
  summarises
    (fold_event now (ev_observed_at_ms e) (str_len (ev_raw e)) (o_last_event_seq o + 1)
       (digest_at (o_last_event_seq o + 1) e)
       (chain_digest sha256_hex (o_event_chain_digest o) (digest_at (o_last_event_seq o + 1) e))
       (event_increments (ev_classification e)) o)
    (events ++ [e]).
Proof.
  intros [Hc Hs Hb Hk Hf _ _ Hd].
  assert (Z.of_nat (length (events ++ [e])) = Z.of_nat (length events) + 1) as Hlen
    by (rewrite length_app; simpl; lia).
  split; cbn -[digest_at]; rewrite ?Hlen, ?last_snoc, ?Hs, ?Hc, ?Hd, ?chain_of_snoc; try done.
  - rewrite Hb. unfold bytes_of. by rewrite foldl_snoc.
  - rewrite Hk. unfold counts_of. by rewrite foldl_snoc.
  - rewrite Hf. by destruct events.
Qed.

Lemma total_counts_increments a classification :
  total_counts (add_counts a (event_increments classification)) = total_counts a + 1.
Proof.
  unfold event_increments. destruct (EventClass.parse classification);
    unfold total_counts, add_counts; cbn -[Z.add]; repeat case_bool_decide; try done; lia.
Qed.
Lemma total_counts_of events : total_counts (counts_of events) = Z.of_nat (length events).
Proof.
  induction events as [|e events IH] using rev_ind; [done|]. unfold counts_of.
  rewrite foldl_snoc, total_counts_increments, length_app. fold (counts_of events).
  rewrite IH. simpl. lia.
Qed.
End stream.

(** ** The operations on one observation *)

Section operations.
Context `{J : SerdeJson} (sha256_hex : string → string).

Definition of_invocation (generation_id invocation_id : string) (o : ObservationRow) : Prop :=
  o_invocation_id o = invocation_id ∧ o_generation_id o = generation_id.

(** What an accepted event did: nothing when it repeats the last one, one fold of
    the row otherwise. *)
Lemma record_event_ok g i seq at_ms cl raw now db u db' :
  wf db → record_invocation_event sha256_hex g i seq at_ms cl raw now db = Ok (u, db') →
  ∃ o bytes gr, o ∈ db.(invocation_observations) ∧ of_invocation g i o
    ∧ observation_with_generation g i db = Some (o, gr) ∧ g_state gr = GenerationState.Active
    ∧ o_terminal_at_ms o = None ∧ to_string raw = Ok bytes
    ∧ let e := {| ev_observed_at_ms := at_ms; ev_classification := cl; ev_raw := bytes |} in
      let digest := digest_at sha256_hex seq e in
      (seq = o_last_event_seq o ∧ o_last_event_digest o = Some digest ∧ db' = db)
      ∨ (seq = o_last_event_seq o + 1
         ∧ db'.(invocation_observations)
           = map (update_row (λ o', (o_invocation_id o' ==? i) && (o_generation_id o' ==? g)
                                    && (o_last_event_seq o' ==? o_last_event_seq o))
                    (fold_event now at_ms (str_len bytes) seq digest
                       (chain_digest sha256_hex (o_event_chain_digest o) digest)
                       (event_increments cl)))
               db.(invocation_observations)
         ∧ db'.(plugin_generations)
           = map (update_row (active_generation g) (set_heartbeat now)) db.(plugin_generations)).
Proof.
  intros Hwf H. unfold record_invocation_event in H. m_inv.
  repeat match goal with
  | H : i64_try_from _ = Some _ |- _ => apply i64_try_from_ok in H as [-> ?]
  end.
  match goal with H : observation_with_generation _ _ _ = Some ?r |- _ =>
    destruct r as [o gr]; pose proof H as (Ho & Hi & Hg)%observation_with_generation_ok end.
  simpl in *. eexists o, _, gr.
  match goal with H : is_some (o_terminal_at_ms o) = false |- _ =>
    assert (o_terminal_at_ms o = None) as Hterm by (by destruct (o_terminal_at_ms o)) end.
  destruct (seq ==? o_last_event_seq o) eqn:Hrep; m_inv; bool_facts.
  - do 6 (split; [done|]). by left.
  - do 6 (split; [done|]). right.
    assert (seq = o_last_event_seq o + 1) as ->.
    { pose proof (checked_row db o Hwf Ho) as Hc. simpl in Hc. unfold check_observation, in_i64 in Hc.
      bool_facts. unfold saturate_i64, i64_min, i64_max in *. lia. }
    split; [done|]. unfold apply_event_fold in *. m_inv.
    repeat match goal with H : update _ _ _ = Ok _ |- _ => apply update_ok in H as (-> & _) end.
    done.
Qed.

Lemma record_terminal_ok g terminal now db u db' :
  wf db → record_invocation_terminal g terminal now db = Ok (u, db') →
  ∃ o usage, o ∈ db'.(invocation_observations) ∧ of_invocation g (tt_invocation_id terminal) o
    ∧ bounded_json (to_json (tt_usage terminal)) "terminal usage" = Ok usage
    ∧ i64_try_from (tt_last_event_seq terminal) = Some (o_last_event_seq o)
    ∧ is_some (o_terminal_at_ms o) = true ∧ terminal_matches o terminal usage = true.
Proof.
  intros Hwf H. unfold record_invocation_terminal in H. m_inv.
  match goal with H : ?r ∈ rows db, H' : (_ && _) = true |- _ =>
    rename r into o; rename H into Ho; rename H' into Hid end.
  destruct (is_some (o_terminal_at_ms o)) eqn:Ht; m_inv; bool_facts.
  - exists o. eexists. by repeat (split; [first [done|congruence]|]).
  - repeat match goal with H : update _ _ _ = Ok _ |- _ => apply update_ok in H as (-> & _) end.
    eexists (set_observation_terminal terminal _ now o), _. split.
    { cbn. apply elem_of_update_row. exists o. split; [done|].
      unfold is_none. rewrite Ht. by rewrite !bool_decide_true by done. }
    split; [done|]. split; [done|]. split; [cbn; congruence|]. split; [done|].
    unfold terminal_matches. cbn. by rewrite !bool_decide_true by done.
Qed.

(** ** Every observation is the summary of a stream *)

Definition summary (o : ObservationRow) : Prop := ∃ events, summarises sha256_hex o events.

Lemma begin_summary a i g b now :
  preserves (all_rows summary) (begin_invocation_observation a i g b now).
Proof.
  unfold begin_invocation_observation. repeat preserves_step.
  apply preserves_insert_row; [done|]. exists []. apply summarises_new.
Qed.
Lemma terminal_summary g terminal now :
  preserves (all_rows summary) (record_invocation_terminal g terminal now).
Proof.
  unfold record_invocation_terminal. repeat preserves_step.
  all: try (apply preserves_update_row; [done|]).
  intros o [events Ho] _. exists events. by apply summarises_terminal.
Qed.
#[local] Hint Resolve begin_summary terminal_summary : preserve.

(** The fold updates the row it read. *)
Lemma fold_updates_read_row db o f o' :
  wf db → o ∈ db.(invocation_observations) →
  o' ∈ map (update_row (λ r, (o_invocation_id r ==? o_invocation_id o)
                             && (o_generation_id r ==? o_generation_id o)
                             && (o_last_event_seq r ==? o_last_event_seq o)) f)
         db.(invocation_observations) →
  o' = f o ∨ o' ∈ db.(invocation_observations).
Proof.
  intros Hwf Ho (r & Hr & ->)%elem_of_update_row. destruct (_ && _) eqn:Hp; [|by right].
  left. bool_facts. f_equal. by eapply observation_id_unique.
Qed.

Lemma event_summary g i seq at_ms cl raw now db u db' :
  wf db → record_invocation_event sha256_hex g i seq at_ms cl raw now db = Ok (u, db') →
  all_rows summary db → all_rows summary db'.
Proof.
  intros Hwf (o & bytes & gr & Ho & [<- <-] & _ & _ & _ & _ & Hcase)%record_event_ok HI; [|done].
  destruct Hcase as [(_ & _ & ->)|(-> & Hobs & _)]; [done|].
  intros o' Ho'. cbn in Ho'. rewrite Hobs in Ho'.
  destruct (fold_updates_read_row _ _ _ _ Hwf Ho Ho') as [->|Hin]; [|by apply HI].
  destruct (HI o Ho) as [events Hev]. eexists.
  by apply (summarises_event _ _ events (Build_Event _ _ _)).
Qed.

Lemma transition_summary operator db db' :
  wf db → transition sha256_hex operator db db' →
  all_rows summary db → all_rows summary db'.
Proof.
  intros Hwf Ht. destruct Ht; try (by eapply event_summary). all: by_run; preserves_tac.
Qed.

Lemma reachable_summary db : reachable sha256_hex db → all_rows summary db.
Proof.
  intros Hr. enough (wf db ∧ all_rows summary db) as [_ HI] by done. revert Hr.
  apply (reaches_invariant sha256_hex (λ db, wf db ∧ all_rows summary db)).
  - intros op d d' Ht [Hwf HI]. split; [by eapply transition_safe|]. by eapply transition_summary.
  - split; [apply wf_empty|by intros ? ?%not_elem_of_nil].
Qed.

(** C37 Every stored observation is the exact summary of some event stream: its
    event count and last sequence number are the stream's length, its byte total,
    per-class counters, first and last times and digest chain are the folds of
    the stream, and the class counters add up to the event count. *)
Theorem observation_summarises_events db o :
  reachable sha256_hex db → o ∈ db.(invocation_observations) →
  ∃ events, summarises sha256_hex o events
            ∧ total_counts (o_counts o) = o_event_count o.
Proof.
  intros Hr Ho. destruct (reachable_summary db Hr o Ho) as [events Hev]. exists events.
  split; [done|]. destruct Hev as [-> _ _ -> _ _ _ _]. apply total_counts_of.
Qed.

(** An accepted event extends the stream its observation summarises by that
    event, at the next sequence number, or repeats the last event and changes
    nothing; it is accepted only while the observation is open. *)
Theorem event_extends_summary g i seq at_ms cl raw now db u db' :
  reachable sha256_hex db →
  record_invocation_event sha256_hex g i seq at_ms cl raw now db = Ok (u, db') →
  ∃ o bytes, o ∈ db.(invocation_observations) ∧ of_invocation g i o
    ∧ o_terminal_at_ms o = None ∧ to_string raw = Ok bytes
    ∧ let e := {| ev_observed_at_ms := at_ms; ev_classification := cl; ev_raw := bytes |} in
      (seq = o_last_event_seq o
       ∧ o_last_event_digest o = Some (digest_at sha256_hex seq e) ∧ db' = db)
      ∨ (seq = o_last_event_seq o + 1
         ∧ ∃ o', o' ∈ db'.(invocation_observations) ∧ of_invocation g i o'
           ∧ ∀ events, summarises sha256_hex o events → summarises sha256_hex o' (events ++ [e])).
Proof.
  intros Hr%reachable_wf (o & bytes & gr & Ho & Hof & _ & _ & Ht & Hb & Hcase)%record_event_ok; [|done].
  exists o, bytes. do 4 (split; [done|]). cbv zeta in *.
  destruct Hcase as [Hrep|(-> & Hobs & _)]; [by left|right]. split; [done|].
  eexists (fold_event now at_ms (str_len bytes) _ _ _ _ o). split_and!.
  - rewrite Hobs. apply elem_of_update_row. exists o. split; [done|]. destruct Hof as [-> ->].
    by rewrite !bool_decide_true by done.
  - exact Hof.
  - intros events. apply (summarises_event _ _ events (Build_Event _ _ _)).
Qed.

(** ** The terminal summary closes the stream *)

(** Once a terminal summary is recorded the observation is closed for good: in
    every later state no event of that invocation is accepted, and recording the
    same terminal again succeeds and changes nothing. *)
Theorem terminal_closes_observation g terminal now db u db1 db2 :
  reachable sha256_hex db → record_invocation_terminal g terminal now db = Ok (u, db1) →
  reaches sha256_hex db1 db2 →
  (∀ now', record_invocation_terminal g terminal now' db2 = Ok (tt, db2))
  ∧ ∀ seq at_ms cl raw now',
      is_ok (record_invocation_event sha256_hex g (tt_invocation_id terminal) seq at_ms cl raw
               now' db2) = false.
Proof.
  intros Hr Hrec Hrun.
  assert (wf db1) as Hwf1.
  { destruct u. eapply (transition_safe sha256_hex false db); [by eapply reachable_wf|by eapply t_terminal]. }
  apply record_terminal_ok in Hrec as (o & usage & Ho & [Hi Hg] & Hu & Hseq & Ht & Hm);
    [|by eapply reachable_wf].
  destruct (reaches_safe _ _ _ Hwf1 Hrun) as [Hwf2 He].
  assert (o ∈ db2.(invocation_observations)) as Ho2.
  { eapply stuck_elem; [apply (ev_observations _ _ _ He)| |done].
    intros o2 Hs. inversion Hs; subst; by replace (o_terminal_at_ms o) with (@None Z) in Ht. }
  split.
  - intros now'. unfold record_invocation_terminal, bind, lift, fetch_optional, gets.
    rewrite Hseq, Hu. cbn [ok_or].
    destruct (List.find _ _) as [o'|] eqn:Hf; cbn.
    + apply find_some_elem in Hf as [Ho' Hk]. bool_facts.
      assert (o' = o) as -> by (eapply observation_id_unique; eauto; congruence).
      rewrite bool_decide_true by done. cbn. by rewrite Ht, Hm.
    + exfalso. apply (find_none_elem _ _ o) in Hf; [|done]. simpl in Hf.
      by rewrite !bool_decide_true in Hf by done.
  - intros seq at_ms cl raw now'.
    destruct (record_invocation_event _ _ _ _ _ _ _ _ _) as [[[] db']|] eqn:E; [|done].
    apply record_event_ok in E as (o' & _ & _ & Ho' & [Hi' _] & _ & _ & Hn & _); [|done].
    assert (o' = o) as -> by (eapply observation_id_unique; eauto; congruence).
    by rewrite Hn in Ht.
Qed.

Lemma begun_observation_read db o gr :
  wf db → o ∈ db.(invocation_observations) → gr ∈ db.(plugin_generations) →
  g_id gr = o_generation_id o →
  observation_with_generation (o_generation_id o) (o_invocation_id o) db = Some (o, gr).
Proof.
  intros Hwf Ho Hg Hid. unfold observation_with_generation.
  assert ((o, gr) ∈ join (λ o g, g_id g ==? o_generation_id o)
            db.(invocation_observations) db.(plugin_generations)) as Hin.
  { apply elem_of_join. by rewrite bool_decide_true. }
  destruct (List.find _ _) as [[o' gr']|] eqn:Hf.
  - apply find_some_elem in Hf as [(Ho' & Hg' & Hk)%elem_of_join Hp]. simpl in *. bool_facts.
    assert (o' = o) as -> by (by eapply observation_id_unique).
    assert (gr' = gr) as ->; [|done]. apply (unique_row db); [done..|].
    simpl. unfold conflict_generation. by rewrite bool_decide_true by congruence.
  - eapply find_none_elem in Hf; [|exact Hin]. simpl in Hf. by rewrite !bool_decide_true in Hf by done.
Qed.

(** The last event of an open observation, sent again. *)
Lemma record_event_repeat g i seq at_ms cl raw bytes now now' db u db' db1 o gr :
  record_invocation_event sha256_hex g i seq at_ms cl raw now db = Ok (u, db') →
  to_string raw = Ok bytes →
  observation_with_generation g i db1 = Some (o, gr) → g_state gr = GenerationState.Active →
  o_terminal_at_ms o = None → o_last_event_seq o = seq →
  o_last_event_digest o
  = Some (digest_at sha256_hex seq
            {| ev_observed_at_ms := at_ms; ev_classification := cl; ev_raw := bytes |}) →
  record_invocation_event sha256_hex g i seq at_ms cl raw now' db1 = Ok (tt, db1).
Proof.
  intros H Hb Hread Hact Hopen Hseq Hdig. unfold record_invocation_event in H. m_inv.
  match goal with H : i64_try_from (o_last_event_seq o) = Some _ |- _ =>
    pose proof H as [-> _]%i64_try_from_ok; rename H into Hfit end.
  match goal with H : i64_try_from (str_len ?b) = Some _ |- _ =>
    assert (b = bytes) as -> by congruence end.
  unfold record_invocation_event, bind, lift, gets.
  match goal with H : _ || is_blank _ = false |- _ => rewrite H end. cbn -[digest_at].
  rewrite Hfit. cbn -[digest_at]. rewrite Hb.
  match goal with H : i64_try_from (str_len bytes) = _ |- _ => rewrite H end. cbn -[digest_at].
  rewrite Hread. cbn -[digest_at]. rewrite Hact, Hopen, Hdig. cbn -[digest_at].
  by rewrite !bool_decide_true.
Qed.

(** A redelivered event is absorbed: repeating an accepted event at once
    succeeds and changes nothing. *)
Theorem event_redelivery_absorbed g i seq at_ms cl raw now now' db u db' :
  reachable sha256_hex db →
  record_invocation_event sha256_hex g i seq at_ms cl raw now db = Ok (u, db') →
  record_invocation_event sha256_hex g i seq at_ms cl raw now' db' = Ok (tt, db').
Proof.
  intros Hr Hrec. pose proof (reachable_wf _ _ Hr) as Hwf.
  destruct (record_event_ok _ _ _ _ _ _ _ _ _ _ Hwf Hrec)
    as (o & bytes & gr & Ho & [<- <-] & Hread & Hact & Ht & Hb & Hcase). cbv zeta in Hcase.
  destruct Hcase as [(-> & Hd & ->)|(-> & Hobs & Hgen)].
  { by eapply record_event_repeat. }
  assert (wf db') as Hwf'.
  { destruct u. eapply (transition_safe sha256_hex false db); [done|by eapply t_event]. }
  match type of Hobs with _ = map (update_row _ ?f) _ => set (o' := f o) end.
  assert (o' ∈ db'.(invocation_observations)) as Ho'.
  { rewrite Hobs. apply elem_of_update_row. exists o. split; [done|].
    by rewrite !bool_decide_true by done. }
  unfold observation_with_generation in Hread.
  apply find_some_elem in Hread as [(_ & Hg & Hid)%elem_of_join _]. simpl in Hid. bool_facts.
  eapply (record_event_repeat _ _ _ _ _ _ bytes _ _ _ _ _ _ o' (set_heartbeat now gr)); try done.
  apply (begun_observation_read db' o'); [done|done| |done].
  rewrite Hgen. apply elem_of_update_row. exists gr. split; [done|].
  unfold active_generation. by rewrite !bool_decide_true by done.
Qed.
End operations.

(** ** One observation per invocation *)

Section armed_once.
Context `{J : SerdeJson} (sha256_hex : string → string).

Definition observed (i : string) (db : Db) : Prop :=
  ∃ o, o ∈ db.(invocation_observations) ∧ o_invocation_id o = i.

Lemma observed_kept i db db' : wf db → reaches sha256_hex db db' → observed i db → observed i db'.
Proof.
  intros Hwf Hr (o & Ho & <-). destruct (reaches_safe _ _ _ Hwf Hr) as [_ He].
  destruct (table_rel_elem _ _ _ _ (ev_observations _ _ _ He) Ho) as (o' & Ho' & Hm).
  exists o'. split; [done|]. clear -Hm. by induction Hm as [|? ? ? [] _ ->].
Qed.

Lemma begin_inserts a i g b now db u db' :
  begin_invocation_observation a i g b now db = Ok (u, db') →
  ∃ o, o_invocation_id o = i ∧ insert o db = Ok (tt, db').
Proof.
  unfold begin_invocation_observation. intros H. m_inv. bool_facts.
  match goal with H : map_observation_conflict _ _ _ = Ok _ |- _ =>
    unfold map_observation_conflict in H end.
  destruct (List.filter _ _) as [|gr [|? ?]]; try done.
  destruct (for_each _ _ db) as [[? db1]|[| | | | | | | |[]| |]] eqn:Hf; simplify_eq.
  cbn in Hf. m_inv. eexists. by split; [|eassumption].
Qed.
Lemma begin_observes a i g b now db u db' :
  begin_invocation_observation a i g b now db = Ok (u, db') → observed i db'.
Proof.
  intros (o & Hi & (_ & _ & _ & _ & ->)%insert_ok)%begin_inserts. exists o.
  split; [cbn; apply elem_of_app; right; by apply list_elem_of_singleton|done].
Qed.
Lemma begin_refused a i g b now db u db' :
  observed i db → begin_invocation_observation a i g b now db ≠ Ok (u, db').
Proof.
  intros (o & Ho & Hi) (o' & Hi' & (_ & _ & (_ & _ & Hu)%no_conflict_app & _)%insert_ok)%begin_inserts.
  specialize (Hu o o' Ho (list_elem_of_here _ _)). cbn in Hu. unfold conflict_observation in Hu.
  by rewrite bool_decide_true in Hu by congruence.
Qed.

Lemma arm_session_observation a i b ref g input now db r db' :
  arm_session_invocation a i b ref g input now db = Ok (r, db') →
  ¬ observed i db ∧ observed i db'.
Proof.
  unfold arm_session_invocation. intros H. m_inv.
  match goal with H : binding_by_identity _ _ _ = Ok _ |- _ =>
    apply (keeps_binding_by_identity (λ d, d)) in H; simpl in H; subst end.
  match goal with H : begin_invocation_observation _ _ _ _ _ _ = Ok _ |- _ =>
    split; [|by eapply begin_observes]; intros Hobs; revert H; apply begin_refused end.
  repeat match goal with
  | H : ?m ?d = Ok (_, ?d') |- observed i ?d' =>
      apply (preserves_run (observed i) _ _ _ _ H); [clear; preserves_tac|]
  end. done.
Qed.

(** An invocation is armed on a session at most once: after a successful arm,
    no later state accepts another arm of that invocation on any session, an
    identical replay included. *)
Theorem session_armed_once a i b ref g input now db r db1 db2 :
  reachable sha256_hex db → arm_session_invocation a i b ref g input now db = Ok (r, db1) →
  reaches sha256_hex db1 db2 →
  ∀ a' b' ref' g' input' now',
    is_ok (arm_session_invocation a' i b' ref' g' input' now' db2) = false.
Proof.
  intros Hr Harm Hrun a' b' ref' g' input' now'.
  assert (wf db1) as Hwf1.
  { eapply (transition_safe sha256_hex false db); [by eapply reachable_wf|by eapply t_arm_session]. }
  destruct (arm_session_invocation _ _ _ _ _ _ _ db2) as [[r' db3]|] eqn:Hagain; [|done].
  apply arm_session_observation in Harm as [_ Hobs], Hagain as [Hnot _].
  exfalso. apply Hnot. by eapply observed_kept.
Qed.
End armed_once.

(** ** The theorems at concrete states *)

Definition op_event (seq : Z) (raw : string) : M unit :=
  record_invocation_event plain_sha256 "G1" "U0" seq (20 + seq) "tool_call" raw (21 + seq).
Definition db_event : Db := Eval vm_compute in exec (op_event 1 "first") db_bound.
Definition db_events : Db := Eval vm_compute in exec (op_event 2 "second") db_event.
Definition turn_end : TurnTerminal :=
  {| tt_fence := {| fence_binding_id := "S"; fence_binding_generation := 1; fence_owner_epoch := 1;
                    fence_invocation_id := "U0"; fence_fence_token := "U1" |};
     tt_last_event_seq := 2; tt_stop_reason := "end_turn"; tt_runtime_stop_reason := None;
     tt_execution_certainty := OutcomeKnown; tt_session_quiescent := true;
     tt_session_persistence := SessionPersistence.Confirmed; tt_assistant_messages := [];
     tt_usage := "{}"; tt_raw_prompt_response := "{}" |}.
Definition op_terminal : M unit := record_invocation_terminal "G1" turn_end 30.
Definition db_terminal : Db := Eval vm_compute in exec op_terminal db_events.
Definition db_observed : Db := Eval vm_compute in exec op_ask_again db_terminal.

Lemma reachable_event : reachable plain_sha256 db_event.
Proof.
  apply (run_step (op_event 1 "first") false db_bound);
    [intros [] ? ?; by eapply t_event|done|done|apply reachable_bound].
Qed.
Lemma reachable_events : reachable plain_sha256 db_events.
Proof.
  apply (run_step (op_event 2 "second") false db_event);
    [intros [] ? ?; by eapply t_event|done|done|apply reachable_event].
Qed.

Definition observed_row : ObservationRow := Eval vm_compute in
  hd (new_observation "" "" owner1 0) db_events.(invocation_observations).

Lemma observation_summarises_events_witness :
  ∃ events, summarises plain_sha256 observed_row events
            ∧ total_counts (o_counts observed_row) = 2.
Proof.
  apply (observation_summarises_events plain_sha256 db_events observed_row);
    [exact reachable_events|in_rows].
Defined.

Lemma event_extends_summary_witness :
  op_event 2 "second" db_event = Ok (tt, db_events)
  ∧ ∃ o bytes, o ∈ db_event.(invocation_observations) ∧ of_invocation "G1" "U0" o
    ∧ o_terminal_at_ms o = None ∧ to_string "second" = Ok bytes
    ∧ let e := {| ev_observed_at_ms := 22; ev_classification := "tool_call"; ev_raw := bytes |} in
      (2 = o_last_event_seq o
       ∧ o_last_event_digest o = Some (digest_at plain_sha256 2 e) ∧ db_events = db_event)
      ∨ (2 = o_last_event_seq o + 1
         ∧ ∃ o', o' ∈ db_events.(invocation_observations) ∧ of_invocation "G1" "U0" o'
           ∧ ∀ events, summarises plain_sha256 o events →
                       summarises plain_sha256 o' (events ++ [e])).
Proof.
  assert (op_event 2 "second" db_event = Ok (tt, db_events)) as H by (vm_compute; reflexivity).
  split; [exact H|].
  exact (event_extends_summary plain_sha256 "G1" "U0" 2 22 "tool_call" "second" 23 db_event tt
           db_events reachable_event H).
Defined.

Lemma terminal_closes_observation_witness :
  (∀ now', record_invocation_terminal "G1" turn_end now' db_observed = Ok (tt, db_observed))
  ∧ ∀ seq at_ms cl raw now',
      is_ok (record_invocation_event plain_sha256 "G1" "U0" seq at_ms cl raw now' db_observed)
      = false.
Proof.
  apply (terminal_closes_observation plain_sha256 "G1" turn_end 30 db_events tt db_terminal).
  - exact reachable_events.
  - vm_compute. reflexivity.
  - apply (run_once op_ask_again false); [intros; by eapply t_append|done|done].
Defined.

Lemma event_redelivery_absorbed_witness :
  record_invocation_event (J := plain_json) plain_sha256 "G1" "U0" 2 22 "tool_call" "second" 99
    db_events
  = Ok (tt, db_events).
Proof.
  apply (event_redelivery_absorbed (J := plain_json) plain_sha256 "G1" "U0" 2 22 "tool_call" "second" 23 99
           db_event tt db_events); [exact reachable_event|vm_compute; reflexivity].
Defined.

Lemma session_armed_once_witness :
  is_ok (arm_session_invocation "B" "U0" owner1 "native" "G1" arm_input 25 db_events) = false.
Proof.
  eapply (session_armed_once plain_sha256 "B" "U0" owner1 "native" "G1" arm_input 20 db_worker _
            db_bound).
  - exact reachable_worker.
  - vm_compute. reflexivity.
  - transitivity db_event;
      [apply (run_once (op_event 1 "first") false)|apply (run_once (op_event 2 "second") false)];
      first [done | intros [] ? ?; by eapply t_event].
Defined.
