(* ===== verification/Decoding.v ===== *)
(** * Every stored row decodes

    The JSON columns hold what serde_json wrote and the counters stay in range,
    so no read model ever meets a row it cannot decode. *)

From S2P Require Import Prelude Proto Schema Channels Messages Deliveries.
From S2P Require Import SessionFence Observations Invocations Settlement Sessions.
From S2P Require Import Triggers Auth Seats Lifecycle Safety System Preserve Scenario.
From S2P Require Import MessageProps Evidence.

Lemma collect_in {A B} (f : A → result B) l bs a :
  collect f l = Ok bs → a ∈ l → ∃ b, f a = Ok b ∧ b ∈ bs.
Proof.
  revert bs. induction l as [|x l IH]; intros bs H Ha; simpl in H; m_inv;
    [by apply not_elem_of_nil in Ha|].
  apply elem_of_cons in Ha as [->|Ha]; [eexists; split; [done|left]|].
  edestruct IH as (b & ? & ?); [done..|]. exists b. split; [done|by right].
Qed.

Section decoding.
Context `{J : SerdeJson} {JL : SerdeJsonLaws J} (sha256_hex : string → string).

(** ** The JSON columns *)

Definition agent_decodes (a : AgentRow) : Prop := ∃ v, to_json v = Some (a_metadata_json a).
Definition channel_decodes (c : ChannelRow) : Prop := ∃ v, to_json v = Some (c_metadata_json c).
Definition binding_decodes (s : BindingRow) : Prop :=
  ∃ l, strings_to_json l = Some (s_additional_directories_json s).
Definition trigger_decodes (t : TriggerRow) : Prop :=
  ∃ l, strings_to_json l = Some (tr_accepted_kinds_json t).
Definition observation_decodes (o : ObservationRow) : Prop :=
  ∀ json, o_usage_json o = Some json → ∃ v, to_json v = Some json.
Definition generation_decodes (g : GenerationRow) : Prop :=
  ∀ now, ∃ p, generation_from_row now g = Ok p.

(** A written row takes its column from a successful encoding. *)
Ltac decodes_row :=
  apply preserves_insert_row; [done|]; simpl; unfold to_string in *; m_inv; simpl in *; eauto;
  eexists; simpl; eassumption.
Ltac decodes_update := apply preserves_update_row; [done|]; intros ? HP _; exact HP.

Lemma transition_agents operator db db' :
  transition sha256_hex operator db db' → all_rows agent_decodes db → all_rows agent_decodes db'.
Proof.
  intros Ht. by_operations Ht; preserves_tac.
  all: decodes_row.
Qed.
Lemma transition_channels operator db db' :
  transition sha256_hex operator db db' →
  all_rows channel_decodes db → all_rows channel_decodes db'.
Proof.
  intros Ht. by_operations Ht; preserves_tac; first [decodes_update|decodes_row].
Qed.
Lemma transition_bindings operator db db' :
  transition sha256_hex operator db db' →
  all_rows binding_decodes db → all_rows binding_decodes db'.
Proof.
  intros Ht. by_operations Ht; preserves_tac; first [decodes_update|decodes_row].
Qed.
Lemma transition_triggers operator db db' :
  transition sha256_hex operator db db' →
  all_rows trigger_decodes db → all_rows trigger_decodes db'.
Proof.
  intros Ht. by_operations Ht; preserves_tac; first [decodes_update|decodes_row].
Qed.
Lemma transition_observations operator db db' :
  transition sha256_hex operator db db' →
  all_rows observation_decodes db → all_rows observation_decodes db'.
Proof.
  intros Ht. by_operations Ht; preserves_tac.
  all: try (apply preserves_insert_row; [done|]; by intros ?).
  all: apply preserves_update_row; [done|]; intros r HP _ json; simpl.
  all: first [exact (HP json) | intros [= <-]; unfold bounded_json in *; m_inv; eauto].
Qed.

(** What is recorded fits its columns: the encodings parse, the integers were [u32]
    values or are positive by a CHECK of the table. *)
Lemma generation_decodes_evidence now g g' p :
  generation_from_row now g = Ok p → g_evidence g' = g_evidence g →
  g_heartbeat_interval_ms g' = g_heartbeat_interval_ms g → generation_decodes g'.
Proof.
  intros H He Hi now'. unfold generation_from_row in *. rewrite He, Hi.
  repeat match type of H with rbind ?r _ = _ => destruct r; simpl in *; [|discriminate] end.
  eauto.
Qed.
Lemma to_u32_fits (v : U32) label : to_u32 (u32_value v) label = Ok (u32_value v).
Proof. unfold to_u32, guard. by rewrite u32_fits. Qed.
Lemma recorded_decodes g :
  check_generation g = true →
  (∃ l, interfaces_to_json l = Some (ge_interfaces_json (g_evidence g))) →
  (∃ v, to_json v = Some (ge_agent_capabilities_json (g_evidence g))) →
  (∃ v, to_json v = Some (ge_raw_initialize_result_json (g_evidence g))) →
  (∃ p : option U32, ge_process_id (g_evidence g) = u32_value <$> p) →
  (∃ p : U32, ge_acp_protocol_version (g_evidence g) = u32_value p) →
  (∃ n : U32, ge_max_concurrent_turns (g_evidence g) = u32_value n) →
  generation_decodes g.
Proof.
  intros Hc [l Hl] [c Hcap] [i Hi] [p Hp] [q Hq] [n Hn] now.
  unfold check_generation in Hc. bool_facts.
  unfold generation_from_row, parse_json. rewrite (interfaces_from_to_json _ _ Hl), Hp, Hq, Hn. simpl.
  destruct (encoded_parses _ _ Hcap) as [c' ->], (encoded_parses _ _ Hi) as [i' ->].
  unfold to_u64, to_usize, guard. rewrite !(proj2 (Z.leb_le _ _)) by lia. simpl.
  destruct p as [p|]; simpl; rewrite !to_u32_fits; simpl; eauto.
Qed.
Lemma insert_generation_decodes g now :
  preserves (all_rows generation_decodes) (insert_plugin_generation g now).
Proof.
  intros db u db' HI H. unfold insert_plugin_generation, map_generation_conflict in H.
  m_inv. destruct (insert _ db) as [[[] db1]|e] eqn:Hi; [|by repeat case_match].
  injection H as <-. apply insert_ok in Hi as (_ & Hc & _ & _ & ->). intros r Hr. simpl in *.
  apply elem_of_app in Hr as [Hr|Hr]; [by apply HI|]. apply list_elem_of_singleton in Hr as ->.
  unfold bounded_json in *. m_inv. apply recorded_decodes; simpl; eauto.
Qed.
#[local] Hint Resolve insert_generation_decodes : preserve.
Lemma transition_generations operator db db' :
  transition sha256_hex operator db db' →
  all_rows generation_decodes db → all_rows generation_decodes db'.
Proof.
  intros Ht. by_operations Ht; preserves_tac.
  all: apply preserves_update_row; [done|]; intros g0 HP _; destruct (HP 0) as [q Hq].
  all: by eapply generation_decodes_evidence.
Qed.
(** ** Rows of a reachable store *)

Lemma check_observation_bounds o :
  check_observation o = true →
  0 < o_binding_generation o ∧ 0 < o_owner_epoch o ∧ 0 ≤ o_observed_payload_bytes o
  ∧ check_counts (o_counts o) = true ∧ 0 ≤ o_event_count o ∧ 0 ≤ o_last_event_seq o.
Proof.
  unfold check_observation. intros H. apply andb_true_iff in H as [H _].
  apply andb_true_iff in H as [H He]. apply orb_true_iff in He as [He|He]; bool_facts; split_and!; try done; lia.
Qed.

Section store.
Context (db : Db) (Hr : reachable sha256_hex db).

Ltac by_invariant step :=
  intros Hin;
  match type of Hin with ?r ∈ _ =>
    match type of step with ∀ _ _ _, _ → all_rows ?P _ → _ =>
      exact (reaches_invariant sha256_hex (all_rows P) step empty_db db
               ltac:(by intros ? ?%not_elem_of_nil) Hr r Hin) end end.

Lemma stored_agent a : a ∈ db.(agents) → ∃ v, agent_from_row a = Ok v.
Proof using Hr JL.
  intros Ha. assert (agent_decodes a) as [v Hv] by (revert Ha; by_invariant transition_agents).
  unfold agent_from_row, parse_json. destruct (encoded_parses _ _ Hv) as [v' ->]. simpl. eauto.
Qed.
Lemma stored_channel c : c ∈ db.(channels) → ∃ v, channel_from_row c = Ok v.
Proof using Hr JL.
  intros Hc. assert (channel_decodes c) as [v Hv] by (revert Hc; by_invariant transition_channels).
  unfold channel_from_row, parse_json. destruct (encoded_parses _ _ Hv) as [v' ->]. simpl. eauto.
Qed.
Lemma stored_message_row m : m ∈ db.(messages) → ∃ v, message_from_row m = Ok v.
Proof using Hr JL. by apply (reachable_decodes sha256_hex). Qed.
Lemma stored_binding s : s ∈ db.(session_bindings) → ∃ v, binding_from_row s = Ok v.
Proof using Hr JL.
  intros Hs. pose proof (checked_row _ s (reachable_wf _ _ Hr) Hs) as Hc. simpl in Hc.
  unfold check_binding in Hc. bool_facts.
  assert (binding_decodes s) as [l Hl] by (revert Hs; by_invariant transition_bindings).
  unfold binding_from_row, positive_u64. rewrite !(proj2 (Z.ltb_lt _ _)) by lia. simpl.
  erewrite strings_from_to_json by exact Hl. simpl. eauto.
Qed.
Lemma stored_trigger t : t ∈ db.(triggers) → ∃ v, trigger_from_row t = Ok v.
Proof using Hr JL.
  intros Ht. pose proof (checked_row _ t (reachable_wf _ _ Hr) Ht) as Hc. simpl in Hc.
  assert (0 ≤ tr_accepted_occurrences t).
  { unfold check_trigger in Hc. bool_facts.
    match goal with H : _ || _ = true |- _ => apply orb_true_iff in H as [?|?] end; bool_facts; lia. }
  assert (trigger_decodes t) as [l Hl] by (revert Ht; by_invariant transition_triggers).
  unfold trigger_from_row, guard. erewrite strings_from_to_json by exact Hl. simpl.
  rewrite (proj2 (Z.leb_le _ _)) by lia. simpl. eauto.
Qed.
Lemma stored_seat r : r ∈ db.(agent_seat_configurations) → ∃ v, seat_from_row r = Ok v.
Proof using Hr.
  intros Hs. pose proof (checked_row _ r (reachable_wf _ _ Hr) Hs) as Hc. simpl in Hc.
  unfold check_seat in Hc. bool_facts. unfold seat_from_row, guard.
  rewrite (proj2 (Z.leb_le _ _)) by lia. simpl. eauto.
Qed.
Lemma stored_generation g now : g ∈ db.(plugin_generations) → ∃ v, generation_from_row now g = Ok v.
Proof using Hr JL.
  intros Hg. assert (generation_decodes g) as Hd by (revert Hg; by_invariant transition_generations).
  apply Hd.
Qed.
Lemma stored_observation r :
  r.1.1.1 ∈ db.(invocation_observations) → ∃ v, observation_from_row r = Ok v.
Proof using Hr JL.
  destruct r as [[[o i] source] res]. simpl. intros Ho.
  pose proof (checked_row _ o (reachable_wf _ _ Hr) Ho) as Hc. simpl in Hc.
  apply check_observation_bounds in Hc as (? & ? & ? & Hcounts & ? & ?).
  assert (observation_decodes o) as Hd by (revert Ho; by_invariant transition_observations).
  assert (∀ label z, 0 ≤ z → to_u64 z label = Ok z) as Hu
    by (intros l z Hz; unfold to_u64, guard; by rewrite (proj2 (Z.leb_le _ _) Hz)).
  unfold observation_from_row, counts_from_row. unfold check_counts in Hcounts. bool_facts.
  rewrite !Hu by lia. simpl. destruct (o_usage_json o) as [json|] eqn:Hj; [|simpl; eauto].
  destruct (Hd _ Hj) as [v Hv]. unfold parse_json. destruct (encoded_parses _ _ Hv) as [v' ->]. simpl. eauto.
Qed.

(** ** Listings *)

(** A read that succeeds, and changes nothing. *)
Definition answers {A} (m : M A) : Prop := ∃ a, m db = Ok (a, db).

Lemma collect_answers {A B} (f : A → result B) (rs : Db → list A) :
  (∀ a, a ∈ rs db → ∃ b, f a = Ok b) → answers (let* l := gets rs in lift (collect f l)).
Proof using Hr JL.
  intros Hf. destruct (collect_total f (rs db) Hf) as [bs Hbs]. exists bs.
  unfold bind, gets, lift. by rewrite Hbs.
Qed.
(** The rows of a listing are filtered, sorted and cut rows of its source. *)
Lemma listing_elem {A} n leb (p : A → bool) l a :
  a ∈ limit n (sort_by leb (List.filter p l)) → p a = true ∧ a ∈ l.
Proof. intros H%limit_subseteq%elem_of_sort_by. by apply elem_of_list_filter. Qed.

Lemma list_agents_answers : answers list_agents.
Proof using Hr JL.
  apply collect_answers. intros a [_ Ha]%elem_of_sort_by%elem_of_list_filter. by apply stored_agent.
Qed.
Lemma list_channels_answers : answers list_channels.
Proof using Hr JL.
  apply collect_answers. intros c [_ Hc]%elem_of_sort_by%elem_of_list_filter. by apply stored_channel.
Qed.
Lemma list_triggers_answers channel_id : answers (list_triggers channel_id).
Proof using Hr JL.
  apply collect_answers. intros t [_ Ht]%elem_of_sort_by%elem_of_list_filter. by apply stored_trigger.
Qed.
Lemma list_seats_answers : answers list_seats.
Proof using Hr JL.
  apply collect_answers. intros r [_ Hs]%elem_of_sort_by%elem_of_list_filter. by apply stored_seat.
Qed.
Lemma list_session_bindings_answers agent_id : answers (list_session_bindings agent_id).
Proof using Hr JL.
  apply collect_answers. intros s [_ Hs]%listing_elem. by apply stored_binding.
Qed.
Lemma list_invocations_answers agent_id : answers (list_invocations agent_id).
Proof using Hr JL.
  apply collect_answers. intros [[i m] rm] [_ Hj]%listing_elem.
  apply list_elem_of_fmap in Hj as ([i' m'] & [= -> -> _] & (_ & Hm & _)%elem_of_join).
  destruct (stored_message_row _ Hm) as [v Hv]. unfold invocation_from_row. rewrite Hv. simpl. eauto.
Qed.
Lemma list_blocked_deliveries_answers agent_id : answers (list_blocked_deliveries agent_id).
Proof using Hr JL.
  apply collect_answers. intros [b m] [_ (_ & Hm & _)%elem_of_join]%listing_elem.
  destruct (stored_message_row _ Hm) as [v Hv]. unfold blocked_delivery_from_row. simpl. rewrite Hv.
  simpl. eauto.
Qed.
Lemma list_deliveries_answers agent_id state n now :
  0 < n ≤ 500 → answers (list_deliveries agent_id state n now).
Proof using Hr JL.
  intros Hn. unfold list_deliveries, refuse. rewrite bool_decide_false by lia.
  rewrite (proj2 (Z.ltb_ge _ _)) by lia. apply collect_answers.
  intros r Hel%limit_subseteq%elem_of_sort_by. apply list_elem_of_In, in_flat_map in Hel as ([d m] & Hj & Hb).
  apply filter_In in Hj as [Hj _]. apply list_elem_of_In in Hj. apply elem_of_join in Hj as (_ & Hm & _).
  apply in_map_iff in Hb as (b & <- & _). destruct (stored_message_row _ Hm) as [v Hv].
  unfold delivery_record_from_row. rewrite Hv. simpl. eauto.
Qed.

Lemma evidence_elem {R} (columns : EvidenceColumns R) page n l r :
  r ∈ evidence_rows columns page n l → r ∈ l.
Proof. by intros [_ H]%listing_elem. Qed.
Lemma collect_at_total {A B} (f : Z → A → result B) nows l :
  (∀ now a, a ∈ l → ∃ b, f now a = Ok b) → ∃ bs, collect_at f nows l = Ok bs.
Proof using Hr JL.
  intros Hf. apply collect_total. intros [k a] Hin%list_elem_of_In%in_combine_r%list_elem_of_In.
  by apply Hf.
Qed.
Lemma list_plugin_generations_answers page n nows :
  validate_page page = Ok n → answers (list_plugin_generations page nows).
Proof using Hr JL.
  intros Hp. destruct (collect_at_total generation_from_row nows
    (evidence_rows GENERATION_COLUMNS page n db.(plugin_generations))) as [gs Hgs].
  { intros now g Hg%evidence_elem. by apply stored_generation. }
  exists gs. unfold list_plugin_generations, bind, lift, gets. rewrite Hp. by rewrite Hgs.
Qed.
Lemma observed_row_elem r :
  r ∈ observed_rows db →
  r.1.1.1 ∈ db.(invocation_observations) ∧ r.1.1.2 ∈ db.(invocations) ∧ r.1.2 ∈ db.(messages)
  ∧ i_id r.1.1.2 = o_invocation_id r.1.1.1 ∧ m_seq r.1.2 = i_message_seq r.1.1.2.
Proof.
  intros ([[o i] source] & Hj & Hres)%list_elem_of_In%in_flat_map.
  apply list_elem_of_In, elem_of_join in Hj as ((Ho & Hi & Hon)%elem_of_join & Hm & Hon').
  apply in_map_iff in Hres as (res & <- & _). simpl in *. by bool_facts.
Qed.
Lemma list_invocation_observations_answers page n :
  validate_page page = Ok n → answers (list_invocation_observations page).
Proof using Hr JL.
  intros Hp. unfold list_invocation_observations. rewrite Hp. apply collect_answers.
  intros r (Ho & _)%evidence_elem%observed_row_elem. by apply stored_observation.
Qed.
End store.
End decoding.
