(* ===== verification/Recovery.v ===== *)
(** * Tokens, blocks and results

    What makes the recovery of an expired attempt writable: no delivery is leased
    under a token one of its blocks was recorded with, the identifiers of blocks
    stay behind the key counter, and an attempt that is not terminal has no
    result. *)

From S2P Require Import Prelude Proto Schema Channels Messages Deliveries.
From S2P Require Import SessionFence Observations Invocations Settlement Sessions.
From S2P Require Import Triggers Auth Seats Lifecycle Safety System Fence Attempts Preserve.

(** ** Tokens and blocks *)

Definition lease_unblocked (db : Db) : Prop :=
  ∀ d b, d ∈ db.(agent_deliveries) → b ∈ db.(delivery_blocks) →
    d_message_seq d = b_message_seq b → d_agent_id d = b_agent_id b →
    d_lease_token d ≠ Some (b_lease_token b).

Lemma unblocked_update_delivery (p : DeliveryRow → bool) f :
  (∀ d, d_message_seq (f d) = d_message_seq d ∧ d_agent_id (f d) = d_agent_id d
        ∧ (d_lease_token (f d) = None ∨ d_lease_token (f d) = d_lease_token d)) →
  preserves lease_unblocked (update p f).
Proof.
  intros Hf. apply preserves_update. intros db HI _ d' b. simpl.
  intros (d & Hd & ->)%elem_of_update_row Hb. destruct (p d); [|by apply HI].
  destruct (Hf d) as (-> & -> & [->| ->]); [done|by apply HI].
Qed.
Lemma unblocked_insert_delivery (d : DeliveryRow) :
  d_lease_token d = None → preserves lease_unblocked (insert d).
Proof.
  intros Hd. apply preserves_insert. intros db HI _ _ _ _ d' b. simpl.
  intros [?| ->%list_elem_of_singleton]%elem_of_app Hb; [by apply HI|by rewrite Hd].
Qed.
Lemma unblocked_update_block (p : BlockRow → bool) f :
  (∀ b, b_message_seq (f b) = b_message_seq b ∧ b_agent_id (f b) = b_agent_id b
        ∧ b_lease_token (f b) = b_lease_token b) →
  preserves lease_unblocked (update p f).
Proof.
  intros Hf. apply preserves_update. intros db HI _ d b'. simpl. intros Hd.
  intros (b & Hb & ->)%elem_of_update_row. destruct (p b); [|by apply HI].
  destruct (Hf b) as (-> & -> & ->). by apply HI.
Qed.

(** A block is recorded for a delivery that holds no lease under its token. *)
Lemma unblocked_record s a n t r at_ms db id db' :
  (∀ d, d ∈ db.(agent_deliveries) → d_message_seq d = s → d_agent_id d = a →
        d_lease_token d ≠ Some t) →
  lease_unblocked db → record_block_id s a n t r at_ms db = Ok (id, db') → lease_unblocked db'.
Proof.
  intros Hfree HI [_ ->]%record_block_id_ok d b. simpl. intros Hd.
  intros [?| ->%list_elem_of_singleton]%elem_of_app; [by apply HI|by apply Hfree].
Qed.

(** A delivery that is not leased holds no token. *)
Lemma unleased_token db d :
  wf db → d ∈ db.(agent_deliveries) → d_state d ≠ DeliveryState.Leased → d_lease_token d = None.
Proof.
  intros Hwf Hd Hst. pose proof (checked_row _ d Hwf Hd) as Hc. simpl in Hc.
  unfold check_delivery in Hc. rewrite (bool_decide_false (_ = DeliveryState.Leased)) in Hc by done.
  bool_facts. unfold is_none, is_some in *. by destruct (d_lease_token d).
Qed.
Lemma blocked_key_free db d t :
  wf db → d ∈ db.(agent_deliveries) → d_state d = DeliveryState.Blocked →
  ∀ d', d' ∈ db.(agent_deliveries) → d_message_seq d' = d_message_seq d →
        d_agent_id d' = d_agent_id d → d_lease_token d' ≠ Some t.
Proof.
  intros Hwf Hd Hb d' Hd' Hs Ha. assert (d' = d) as -> by (by eapply delivery_key_unique).
  by rewrite (unleased_token db d Hwf Hd) by congruence.
Qed.

(** A loop keeps what its body keeps for the elements of the list. *)
Lemma map_m_invariant (I : Db → Prop) {A B} (body : A → M B) l db bs db' :
  (∀ a db1 b db2, a ∈ l → I db1 → body a db1 = Ok (b, db2) → I db2) →
  I db → map_m l body db = Ok (bs, db') → I db'.
Proof.
  revert db bs. induction l as [|a l IH]; intros db bs Hb HI H; simpl in H; m_inv; [done|].
  eapply IH; [|eapply Hb; [left|exact HI|eassumption]|eassumption].
  intros; eapply Hb; [by right|done..].
Qed.
Lemma for_each_invariant (I : Db → Prop) {A} (body : A → M unit) l db u db' :
  (∀ a db1 b db2, a ∈ l → I db1 → body a db1 = Ok (b, db2) → I db2) →
  I db → for_each l body db = Ok (u, db') → I db'.
Proof.
  revert db. induction l as [|a l IH]; intros db Hb HI H; simpl in H; m_inv; [done|].
  eapply IH; [|eapply Hb; [left|exact HI|eassumption]|eassumption].
  intros; eapply Hb; [by right|done..].
Qed.

Lemma unblocked_insert_block_record a m input at_ms db id db' :
  wf db → lease_unblocked db → insert_block_record a m input at_ms db = Ok (id, db') →
  lease_unblocked db'.
Proof.
  intros Hwf HI H. unfold insert_block_record in H. m_inv.
  match goal with H : map_m _ _ _ = Ok (_, ?d) |- _ =>
    enough (d.(agent_deliveries) = db.(agent_deliveries) ∧ lease_unblocked d) as [_ Hd];
    [by repeat case_match; m_inv|];
    eapply (map_m_invariant (λ db1, db1.(agent_deliveries) = db.(agent_deliveries)
                                    ∧ lease_unblocked db1)); [|by split|exact H] end.
  intros [d m'] dba b dbb Hr [Heq HI1] Hrec. simpl in *.
  apply elem_of_list_filter in Hr as [Hst Hj]. apply elem_of_join in Hj as (Hd & _). bool_facts.
  split; [apply record_block_id_ok in Hrec as [_ ->]; done|].
  eapply unblocked_record; [|exact HI1|exact Hrec]. rewrite Heq. intros d' Hd' Hs Ha.
  by apply (blocked_key_free db d).
Qed.

Section recovery.
Context `{J : SerdeJson} (sha256_hex : string → string).

Lemma block_unblocked a m input now db r db' :
  wf db → lease_unblocked db → block_delivery a m input now db = Ok (r, db') → lease_unblocked db'.
Proof.
  intros Hwf HI H. unfold block_delivery in H. m_inv.
  apply or_rollback_ok in H as [(db1 & Hmark & Hrest)|(db1 & _ & Hmiss)].
  - destruct (safe_mark_blocked false a m input now _ _ _ Hwf Hmark) as [Hwf1 _].
    assert (lease_unblocked db1) as HI1.
    { revert HI. apply (preserves_run _ _ _ _ _ Hmark). preserves_tac.
      by apply unblocked_update_delivery; intros []; simpl; auto. }
    m_inv.
    match goal with H : insert_block_record _ _ _ _ _ = Ok _ |- _ =>
      eapply unblocked_insert_block_record in H; [|exact Hwf1|exact HI1] end.
    match goal with H : terminalize_invocation _ _ _ _ _ _ _ = Ok (_, ?d) |- _ =>
      assert (lease_unblocked d) by
        (apply (preserves_run lease_unblocked _ _ _ _ H); [preserves_tac|done]) end.
    match goal with H : blocked_delivery_by_id _ _ = Ok _ |- _ =>
      apply (keeps_blocked_delivery_by_id (λ d, d)) in H; simpl in H; by subst end.
  - revert HI. apply (preserves_run _ _ _ _ _ Hmiss). preserves_tac.
Qed.

(** What a lease token that is fresh before a recovery is afterwards. *)
Lemma park_tokens i d a now db u db' :
  wf db → park_expired_armed_invocation (i, d) a now db = Ok (u, db') →
  (lease_unblocked db → lease_unblocked db')
  ∧ (∀ token, fresh_token token db → fresh_token token db').
Proof.
  intros Hwf H. pose proof H as (Hds & _ & d0 & Hd0 & Hm)%park_ok.
  pose proof Hm as (Hst & Htok & Hag & Hkey & _)%leased_row_matches_ok. simpl in *. bool_facts.
  assert (∃ l, db'.(delivery_blocks) = db.(delivery_blocks) ++ [l]
    ∧ b_message_seq l = i_message_seq i ∧ b_agent_id l = a ∧ b_lease_token l = i_lease_token i)
    as (l & Hl & Hls & Hla & Hlt).
  { unfold park_expired_armed_invocation, block_expired_lease, record_block in H. m_inv.
    match goal with H : update_leased_row _ _ _ = Ok _ |- _ =>
      apply update_leased_row_ok in H as [-> _] end.
    match goal with H : record_block_id _ _ _ _ _ _ _ = Ok _ |- _ =>
      apply record_block_id_ok in H as [-> ->] end.
    match goal with H : update _ _ _ = Ok _ |- _ => apply update_ok in H as (-> & _) end.
    match goal with H : mark_expired_session_turn_uncertain _ _ _ _ = Ok _ |- _ =>
      apply (keeps_mark_expired delivery_blocks) in H; [|done..] end.
    simpl in *. eexists. split; [eassumption|done]. }
  split.
  - intros HI d1 b. rewrite Hds, Hl. intros (d2 & Hd2 & ->)%elem_of_update_row.
    intros Hb. destruct (leased_row_matches _ _ d2) eqn:Hno; [done|].
    apply elem_of_app in Hb as [Hb| ->%list_elem_of_singleton]; [by apply HI|].
    intros Hs Ha Ht. assert (d2 = d0) as -> by (eapply delivery_key_unique; eauto; congruence).
    congruence.
  - intros token (Hd & Hb & Hs). split_and!; rewrite ?Hds, ?Hl.
    + intros d1 (d2 & Hd2 & ->)%elem_of_update_row. destruct (leased_row_matches _ _ d2); [done|].
      by apply Hd.
    + intros b [?| ->%list_elem_of_singleton]%elem_of_app; [by apply Hb|].
      intros Heq. apply (Hd d0 Hd0). congruence.
    + intros d1 (d2 & Hd2 & ->)%elem_of_update_row.
      destruct (leased_row_matches _ _ d2) eqn:Hmd; [|by apply Hs]. simpl. intros [= Heq].
      apply (Hd d0 Hd0). congruence.
Qed.

Lemma recover_tokens a now db n db' :
  wf db → recover_expired_invocations_transaction a now db = Ok (n, db') →
  (lease_unblocked db → lease_unblocked db')
  ∧ (∀ token, fresh_token token db → fresh_token token db').
Proof.
  intros Hwf H. unfold recover_expired_invocations_transaction in H. m_inv.
  match goal with H : terminalize_expired_reservations _ _ _ = Ok (_, ?d) |- _ =>
    destruct (safe_terminalize_expired_reservations false _ _ _ _ _ Hwf H) as [Hwf1 _];
    assert ((lease_unblocked db → lease_unblocked d)
            ∧ (∀ token, fresh_token token db → fresh_token token d)) as [Hb1 Hf1] by
      (split; [|intros token]; by_run; preserves_tac) end.
  match goal with H : for_each _ _ _ = Ok (_, ?d) |- _ =>
    assert (∀ I : Db → Prop, (∀ x dba u dbb, wf dba → I dba →
              park_expired_armed_invocation x a now dba = Ok (u, dbb) → I dbb) →
            I _ → wf d ∧ I d) as Hloop by
      (intros I Hp HI; refine (for_each_invariant (λ db, wf db ∧ I db) _ _ _ _ _ _ (conj Hwf1 HI) H);
       intros x dba u dbb _ [Hwa HIa] Hpark; split;
       [by eapply (safe_park_expired_armed_invocation false)|by eapply Hp]) end.
  split; [intros HI|intros token HI].
  - apply (Hloop lease_unblocked); [|by apply Hb1].
    intros [i d] dba u dbb Hw HIa Hpark. by eapply park_tokens.
  - apply (Hloop (fresh_token token)); [|by apply Hf1].
    intros [i d] dba u dbb Hw HIa Hpark. by eapply park_tokens.
Qed.

Lemma lease_keeps_unblocked a t e now lim kinds db u db' :
  fresh_token t db → lease_unblocked db →
  lease_claimable a t e now lim kinds db = Ok (u, db') → lease_unblocked db'.
Proof.
  intros (_ & Hb & _) HI ->%lease_claimable_ok d b. simpl.
  intros (d0 & Hd & ->)%elem_of_update_row Hin. destruct (bool_decide _); [|by apply HI].
  intros _ _ [= Heq]. by eapply Hb.
Qed.

Lemma claim_unblocked a input now token db batch db' :
  wf db → fresh_token token db → lease_unblocked db →
  claim_deliveries a input now token db = Ok (batch, db') → lease_unblocked db'.
Proof.
  intros Hwf Hfr HI H. unfold claim_deliveries, ensure_agent, ensure_exists, leased_batch in H. m_inv.
  match goal with H : recover_expired_invocations_transaction _ _ _ = _ |- _ =>
    destruct (recover_tokens _ _ _ _ _ Hwf H) as [Hb Hf] end.
  eapply lease_keeps_unblocked; [by apply Hf|by apply Hb|eassumption].
Qed.
Lemma reserve_unblocked a input kinds now token uuids db invs db' :
  wf db → fresh_token token db → lease_unblocked db →
  reserve_invocations_filtered a input kinds now token uuids db = Ok (invs, db') → lease_unblocked db'.
Proof.
  intros Hwf Hfr HI H. unfold reserve_invocations_filtered, ensure_agent, ensure_exists in H. m_inv.
  match goal with H : recover_expired_invocations_transaction _ _ _ = _ |- _ =>
    destruct (recover_tokens _ _ _ _ _ Hwf H) as [Hb Hf] end.
  match goal with H : lease_claimable _ _ _ _ _ _ _ = Ok (_, ?d) |- _ =>
    assert (lease_unblocked d) as HId by (eapply lease_keeps_unblocked; [by apply Hf|by apply Hb|eassumption]) end.
  revert HId. by_run. preserves_tac.
Qed.
Lemma recover_agents_unblocked agents now k db n db' :
  wf db → lease_unblocked db → recover_agents agents now k db = Ok (n, db') → lease_unblocked db'.
Proof.
  revert db k. induction agents as [|a agents IH]; intros db k Hwf HI H; simpl in H; m_inv; [done|].
  match goal with H : recover_expired_invocations_transaction _ _ _ = _ |- _ =>
    destruct (recover_tokens _ _ _ _ _ Hwf H) as [Hb _];
    destruct (safe_recover_expired false _ _ _ _ _ Hwf H) as [Hwf1 _] end.
  eapply IH; [exact Hwf1|by apply Hb|eassumption].
Qed.

#[local] Hint Extern 1 (preserves lease_unblocked (update _ _)) =>
  first [apply unblocked_update_delivery; intros []; simpl; by auto
        |apply unblocked_update_block; intros []; done] : preserve.
#[local] Hint Extern 1 (preserves lease_unblocked (insert _)) =>
  apply unblocked_insert_delivery; done : preserve.

Lemma transition_unblocked operator db db' :
  transition sha256_hex operator db db' → wf db → lease_unblocked db → lease_unblocked db'.
Proof.
  intros Ht Hwf. destruct Ht; try solve [by_run; preserves_tac].
  all: intros HI; eauto using claim_unblocked, reserve_unblocked, recover_agents_unblocked,
    block_unblocked.
Qed.
Lemma reachable_unblocked db : reachable sha256_hex db → lease_unblocked db.
Proof.
  intros Hr. enough (wf db ∧ lease_unblocked db) as [_ H] by exact H.
  revert Hr. apply (reaches_invariant sha256_hex (λ db, wf db ∧ lease_unblocked db)).
  - intros op d d' Ht [Hwf HI]. split; [by eapply transition_safe|by eapply transition_unblocked].
  - split; [apply wf_empty|]. by intros d b ?%not_elem_of_nil.
Qed.

(** ** Identifiers of blocks *)

Definition block_ids_behind (db : Db) : Prop :=
  ∀ b, b ∈ db.(delivery_blocks) → b_id b ≤ db.(blocks_autoinc).

Lemma ids_record s a n t r at_ms : preserves block_ids_behind (record_block_id s a n t r at_ms).
Proof.
  intros db id db' HI [-> ->]%record_block_id_ok b. simpl.
  intros [Hb%HI| ->%list_elem_of_singleton]%elem_of_app; simpl; lia.
Qed.
Lemma ids_update_block (p : BlockRow → bool) f :
  (∀ b, b_id (f b) = b_id b) → preserves block_ids_behind (update p f).
Proof.
  intros Hf. apply preserves_update. intros db HI _ b'. simpl.
  intros (b & Hb & ->)%elem_of_update_row. destruct (p b); [rewrite Hf|]; by apply HI.
Qed.
#[local] Hint Resolve ids_record : preserve.
#[local] Hint Extern 1 (preserves block_ids_behind (update _ _)) =>
  apply ids_update_block; intros []; done : preserve.

Lemma transition_ids operator db db' :
  transition sha256_hex operator db db' → block_ids_behind db → block_ids_behind db'.
Proof. intros Ht. by_operations Ht; preserves_tac. Qed.
Lemma reachable_ids db : reachable sha256_hex db → block_ids_behind db.
Proof.
  intros Hr. exact (reaches_invariant sha256_hex block_ids_behind transition_ids empty_db db
    ltac:(by intros ? ?%not_elem_of_nil) Hr).
Qed.

(** ** Results *)

Definition unfinished (i : InvocationRow) : Prop :=
  i_state i ≠ InvocationState.Terminal → i_result_message_seq i = None.
Lemma transition_unfinished operator db db' :
  transition sha256_hex operator db db' → all_rows unfinished db → all_rows unfinished db'.
Proof.
  intros Ht. by_operations Ht; preserves_tac.
  all: first [apply preserves_insert_row; [done|]; by unfold unfinished
             |apply preserves_update_row; [done|]; intros [] HP ?; unfold unfinished in *; simpl in *;
              try done; intros _; apply HP; bool_facts; congruence].
Qed.
Lemma live_result db i :
  reachable sha256_hex db → i ∈ db.(invocations) → live i → i_result_message_seq i = None.
Proof.
  intros Hr Hi. exact (reaches_invariant sha256_hex (all_rows unfinished) transition_unfinished
    empty_db db ltac:(by intros ? ?%not_elem_of_nil) Hr i Hi).
Qed.

(** The fence of a turn fits the columns it was bound from. *)
Definition turn_fits (t : TurnRow) : Prop :=
  t_binding_generation t ≤ i64_max ∧ t_owner_epoch t ≤ i64_max.
Lemma transition_turn_fits operator db db' :
  transition sha256_hex operator db db' → all_rows turn_fits db → all_rows turn_fits db'.
Proof.
  intros Ht. by_operations Ht; preserves_tac.
  all: first [apply preserves_update_row; [done|]; intros [] HP ?; exact HP
             |apply preserves_insert_row; [done|]; unfold turn_fits; simpl;
              unfold owner_fence, as_i64, i64_try_from in *; m_inv; simpl;
              repeat case_match; simplify_eq; bool_facts; lia].
Qed.
Lemma reachable_turn_fits db : reachable sha256_hex db → all_rows turn_fits db.
Proof.
  exact (reaches_invariant sha256_hex (all_rows turn_fits) transition_turn_fits empty_db db
    ltac:(by intros ? ?%not_elem_of_nil)).
Qed.

(** A delivery is not leased under the token it was last settled under. *)
Definition unsettled_row (d : DeliveryRow) : Prop :=
  ∀ t, d_lease_token d = Some t → d_last_settled_lease_token d ≠ Some t.
#[local] Hint Extern 1 (preserves (all_rows unsettled_row) (update _ _)) =>
  apply preserves_update_row; [done|]; intros [] HP ?; unfold unsettled_row in *; simpl in *;
  first [exact HP|done] : preserve.
#[local] Hint Extern 1 (preserves (all_rows unsettled_row) (insert _)) =>
  apply preserves_insert_row; [done|]; by unfold unsettled_row : preserve.
Lemma recover_unsettled a now :
  preserves (all_rows unsettled_row) (recover_expired_invocations_transaction a now).
Proof. preserves_tac. Qed.
Lemma lease_unsettled a t e now lim kinds db u db' :
  fresh_token t db → all_rows unsettled_row db →
  lease_claimable a t e now lim kinds db = Ok (u, db') → all_rows unsettled_row db'.
Proof.
  intros (_ & _ & Hs) HI ->%lease_claimable_ok d. simpl.
  intros (d0 & Hd & ->)%elem_of_update_row. destruct (bool_decide _); [|by apply HI].
  intros t' [= <-]. exact (Hs d0 Hd).
Qed.
Lemma transition_unsettled operator db db' :
  transition sha256_hex operator db db' → wf db → all_rows unsettled_row db →
  all_rows unsettled_row db'.
Proof.
  intros Ht Hwf. destruct Ht; try solve [by_run; preserves_tac].
  all: intros HI.
  all: match goal with
       | H : claim_deliveries _ _ _ _ _ = _ |- _ =>
           unfold claim_deliveries, ensure_agent, ensure_exists, leased_batch in H
       | H : reserve_invocations_filtered _ _ _ _ _ _ _ = _ |- _ =>
           unfold reserve_invocations_filtered, ensure_agent, ensure_exists in H
       end; m_inv.
  all: match goal with H : recover_expired_invocations_transaction _ _ _ = _ |- _ =>
         pose proof (recover_unsettled _ _ _ _ _ HI H);
         destruct (recover_tokens _ _ _ _ _ Hwf H) as [_ Hfr] end.
  all: match goal with H : lease_claimable _ _ _ _ _ _ _ = Ok (_, ?d) |- _ =>
         assert (all_rows unsettled_row d) as HId by
           (eapply lease_unsettled; [apply Hfr; eassumption|eassumption|exact H]) end.
  - done.
  - revert HId. by_run. preserves_tac.
Qed.
Lemma reachable_unsettled db : reachable sha256_hex db → all_rows unsettled_row db.
Proof.
  intros Hr. enough (wf db ∧ all_rows unsettled_row db) as [_ H] by exact H.
  revert Hr. apply (reaches_invariant sha256_hex (λ db, wf db ∧ all_rows unsettled_row db)).
  - intros op d d' Ht [Hwf HI]. split; [by eapply transition_safe|by eapply transition_unsettled].
  - split; [apply wf_empty|]. by intros d ?%not_elem_of_nil.
Qed.
End recovery.
