(* ===== verification/RecoveryProps.v ===== *)
(** * Recovery always ends

    A recovery of expired attempts succeeds on every store a run reaches, as long
    as no session was retired from under an armed attempt, and leaves no expired
    attempt live; and a claim hands out the oldest available work.  The proviso
    is needed: the last part runs a store on which a retired session blocks every
    later recovery and claim. *)

From S2P Require Import Prelude Proto Schema Channels Messages Deliveries.
From S2P Require Import SessionFence Observations Invocations Settlement Sessions.
From S2P Require Import Triggers Auth Seats Lifecycle Safety System Fence Attempts Preserve.
From S2P Require Import Scenario MessageProps SessionInv DeliveryProps Integrity Decoding Recovery.

(** ** Statements that succeed *)

Section statements.
Context {R : Type} `{Table R}.

Lemma no_conflict_map (g : R → R) l :
  (∀ a b, a ∈ l → b ∈ l → conflict (g a) (g b) = true → conflict a b = true) →
  no_conflict l = true → no_conflict (map g l) = true.
Proof.
  induction l as [|a l IH]; simpl; [done|]. intros Hg. rewrite !andb_true_iff, !forallb_forall.
  intros [Ha Hl]. split; [|apply IH; [|done]; intros; apply Hg; [by right..|done]].
  intros b' (b & <- & Hb)%in_map_iff. specialize (Ha b Hb).
  destruct (conflict (g a) (g b)) eqn:Hc; [|done].
  apply Hg in Hc; [by rewrite Hc in Ha|left|right; by apply list_elem_of_In].
Qed.

Lemma update_succeeds (p : R → bool) f db :
  no_conflict (rows db) = true →
  (∀ r, r ∈ rows db → p r = true → before_update r (f r) = None ∧ check (f r) = true
                                   ∧ fk db (f r) = true) →
  (∀ a b, a ∈ rows db → b ∈ rows db →
     conflict (update_row p f a) (update_row p f b) = true → conflict a b = true) →
  update p f db = Ok (length (List.filter p (rows db)), with_rows (map (update_row p f) (rows db)) db).
Proof.
  intros Hu Hf Hc. unfold update.
  assert (update_refusal p f (rows db) = None) as ->.
  { assert (∀ r, r ∈ rows db → p r = true → before_update r (f r) = None) as Hb
      by (intros r ? ?; by apply (Hf r)). clear -Hb.
    induction (rows db) as [|r l IH]; simpl; [done|].
    rewrite IH by (intros; apply Hb; [by right|done]).
    destruct (p r) eqn:Hp; [|done]. by rewrite Hb by first [left|done]. }
  rewrite (proj2 (updated_ok_forall p f check _)) by (intros r ? ?; by apply (Hf r)).
  rewrite (proj2 (updated_ok_forall p f (fk db) _)) by (intros r ? ?; by apply (Hf r)).
  by rewrite (no_conflict_map (update_row p f)).
Qed.

(** A predicate whose rows conflict picks one row at most. *)
Lemma filter_conflicting (p : R → bool) l a :
  no_conflict l = true → (∀ b c, p b = true → p c = true → conflict b c = true) →
  a ∈ l → p a = true → length (List.filter p l) = 1%nat.
Proof.
  intros Hu Hp. revert Hu. induction l as [|b l IH]; simpl; [by intros _ ?%not_elem_of_nil|].
  rewrite andb_true_iff, forallb_forall. intros [Hb Hl] Ha Hpa.
  destruct (p b) eqn:Hpb; simpl.
  - f_equal. rewrite filter_none; [done|]. intros c Hc. destruct (p c) eqn:Hpc; [|done].
    apply list_elem_of_In, Hb in Hc. by rewrite Hp in Hc.
  - apply IH; [done| |done]. apply elem_of_cons in Ha as [->|?]; [congruence|done].
Qed.
End statements.

(** ** A store that recovery can write *)

(** The session of an armed attempt is still held by it. *)
Definition sessions_held (db : Db) : Prop :=
  ∀ i t s, i ∈ db.(invocations) → armed i → t ∈ db.(session_binding_turns) →
    t_invocation_id t = i_id i → s ∈ db.(session_bindings) → bound t s →
    s_active_invocation_id s = Some (i_id i).

(** The keys left for blocks suffice for the live attempts. *)
Definition is_live (i : InvocationRow) : bool := i_state i !=? InvocationState.Terminal.
Definition block_room (db : Db) : Prop :=
  db.(blocks_autoinc) + Z.of_nat (length (List.filter is_live db.(invocations))) ≤ i64_max.

Record ready (db : Db) : Prop := {
  rd_wf : wf db;
  rd_fenced : fenced db;
  rd_intact : intact db;
  rd_agree : sessions_agree db;
  rd_unblocked : lease_unblocked db;
  rd_ids : block_ids_behind db;
  rd_results : all_rows unfinished db;
  rd_held : sessions_held db;
  rd_fits : all_rows turn_fits db;
  rd_room : block_room db;
}.

(** Recovery keeps what it needs. *)
Lemma held_update_invocation (p : InvocationRow → bool) now c r :
  preserves sessions_held (update p (set_terminal now c r)).
Proof.
  apply preserves_update. intros db HI _ i' t s. simpl.
  intros (i & Hi & ->)%elem_of_update_row Ha. destruct (p i); [done|]. by apply HI.
Qed.
Lemma held_update_turn p r now : preserves sessions_held (update p (turn_uncertain r now)).
Proof.
  apply preserves_update. intros db HI _ i t' s. simpl.
  intros Hi Ha (t & Ht & ->)%elem_of_update_row Hid Hs Hb.
  eapply (HI i t s); try done; by destruct (p t).
Qed.
Lemma held_update_binding p r now : preserves sessions_held (update p (set_uncertain r now)).
Proof.
  apply preserves_update. intros db HI _ i t s'. simpl.
  intros Hi Ha Ht Hid (s & Hs & ->)%elem_of_update_row Hb.
  destruct (p s); simpl; by eapply (HI i t s).
Qed.
#[local] Hint Resolve held_update_invocation held_update_turn held_update_binding : preserve.
#[local] Hint Resolve ids_record : preserve.
#[local] Hint Extern 1 (preserves intact (insert _)) => apply preserves_insert_intact : preserve.
#[local] Hint Extern 1 (preserves intact (update _ _)) =>
  apply preserves_update_intact; intros []; hnf; done : preserve.
#[local] Hint Extern 1 (preserves intact next_block_id) =>
  apply preserves_next_block_id; intros ? ? []; by split : preserve.

Lemma intact_block_expired a s t r now : preserves intact (block_expired_lease a s t r now).
Proof. preserves_tac. Qed.
Lemma intact_record_block s a n t r now : preserves intact (record_block s a n t r now).
Proof. preserves_tac. Qed.
Lemma intact_set_terminal p now c r : preserves intact (update p (set_terminal now c r)).
Proof. preserves_tac. Qed.

Definition kept (db : Db) : Prop :=
  intact db ∧ sessions_agree db ∧ block_ids_behind db ∧ sessions_held db ∧ all_rows turn_fits db
  ∧ all_rows unfinished db.
Lemma preserves_kept {A} (m : M A) :
  preserves intact m → preserves sessions_agree m → preserves block_ids_behind m →
  preserves sessions_held m → preserves (all_rows turn_fits) m → preserves (all_rows unfinished) m →
  preserves kept m.
Proof. intros H1 H2 H3 H4 H5 H6 db a db' (? & ? & ? & ? & ? & ?) Hm. split_and!; eauto. Qed.
Lemma park_kept row a now : preserves kept (park_expired_armed_invocation row a now).
Proof.
  apply preserves_kept; preserves_tac.
  all: apply preserves_update_row; [done|]; intros [] HP Hsel; hnf in HP |- *; simpl in *;
    try done; try (intros _; apply HP).
Qed.

(** ** The writes of one park *)

Lemma record_succeeds db s a n t r at_ms :
  db.(blocks_autoinc) < i64_max → 0 < n → no_conflict db.(delivery_blocks) = true →
  block_ids_behind db →
  (∀ b, b ∈ db.(delivery_blocks) → b_message_seq b = s → b_agent_id b = a → b_lease_token b ≠ t) →
  has_delivery db s a = true →
  record_block s a n t r at_ms db
  = Ok (tt, set_delivery_blocks
              (db.(delivery_blocks) ++ [new_block (db.(blocks_autoinc) + 1) s a n t r at_ms])
              (set_blocks_autoinc (db.(blocks_autoinc) + 1) db)).
Proof.
  intros Hroom Hn Hu Hids Hfree Hfk. unfold record_block, record_block_id, next_block_id, bind, ret.
  rewrite (proj2 (Z.eqb_neq _ _)) by lia. cbn [set_blocks_autoinc blocks_autoinc].
  match goal with |- context [insert ?r ?d] => assert (insert r d = Ok (tt, with_rows (rows d ++ [r]) d))
    as -> end; [|done].
  apply insert_ok. simpl. split_and!; [done| | |done|done].
  - unfold check_block. simpl. by rewrite (proj2 (Z.ltb_lt _ _)).
  - apply no_conflict_app. split_and!; [done|done|]. intros b b' Hb ->%list_elem_of_singleton. simpl.
    unfold conflict_block. simpl. specialize (Hids b Hb).
    rewrite (bool_decide_false (b_id b = _)) by lia. simpl.
    destruct (b_message_seq b ==? s) eqn:Hs; [|done]. destruct (b_agent_id b ==? a) eqn:Ha; [|done].
    bool_facts. simpl. apply bool_decide_eq_false. by apply Hfree.
Qed.

Lemma terminal_succeeds db i now c r :
  no_conflict db.(invocations) = true → i ∈ db.(invocations) → armed i →
  check_invocation i = true → i_result_message_seq i = None → refers (R := InvocationRow) db →
  r ≠ "completed" →
  update (λ i', (i_id i' ==? i_id i) && (i_state i' ==? InvocationState.DispatchArmed))
    (set_terminal now c r) db
  = Ok (1%nat, set_invocations
                 (map (update_row (λ i', (i_id i' ==? i_id i)
                                         && (i_state i' ==? InvocationState.DispatchArmed))
                         (set_terminal now c r)) db.(invocations)) db).
Proof.
  intros Hu Hi Ha Hc Hres Hfk Hne. unfold armed in Ha.
  assert (∀ j, j ∈ db.(invocations) → i_id j = i_id i → j = i) as Huniq.
  { intros j Hj Hid. eapply no_conflict_eq; [exact Hu|done..|]. simpl. unfold conflict_invocation.
    by rewrite (bool_decide_true (i_id j = i_id i)). }
  rewrite update_succeeds; [|done| |].
  - rewrite (filter_conflicting _ _ i); [done|done| |done|by rewrite Ha, !bool_decide_true].
    intros b c' Hb Hc'. bool_facts. simpl. unfold conflict_invocation.
    by rewrite bool_decide_true by congruence.
  - intros j Hj Hp. bool_facts. assert (j = i) as -> by (by apply Huniq). simpl. split_and!; [done| |].
    + unfold check_invocation in *. simpl. rewrite Ha, Hres in *. bool_facts.
      rewrite (proj2 (Z.ltb_lt _ _)) by done. by rewrite bool_decide_false.
    + exact (Hfk i Hi).
  - intros b c' _ _. simpl. unfold conflict_invocation, update_row. by repeat case_match.
Qed.

(** The two writes that mark an active turn and its binding uncertain. *)
Lemma uncertain_turn_succeeds db t r now :
  table_ok db.(session_binding_turns) → refers (R := TurnRow) db →
  t ∈ db.(session_binding_turns) → t_state t = TurnState.Active →
  update (active_turn (t_invocation_id t)) (turn_uncertain r now) db
  = Ok (1%nat, set_session_binding_turns
                 (map (update_row (active_turn (t_invocation_id t)) (turn_uncertain r now))
                    db.(session_binding_turns)) db).
Proof.
  intros [Hu Hc] Hfk Ht Hst. rewrite Forall_forall in Hc.
  rewrite update_succeeds; [|done| |].
  - rewrite (filter_conflicting _ _ t); [done|done| |done|].
    + unfold active_turn. intros b c Hb Hc'. bool_facts. simpl. unfold conflict_turn.
      by rewrite bool_decide_true by congruence.
    + unfold active_turn. by rewrite Hst, !bool_decide_true.
  - intros t' Ht' Hp. unfold active_turn in Hp. bool_facts. specialize (Hc t' Ht'). simpl in *.
    split_and!; [done| |exact (Hfk t' Ht')]. unfold check_turn in *. simpl.
    match goal with H : t_state t' = _ |- _ => rewrite H in Hc end. bool_facts.
    rewrite (proj2 (Z.ltb_lt _ _)) by done. simpl. by rewrite andb_true_r.
  - intros b c _ _. simpl. unfold conflict_turn, update_row. by repeat case_match.
Qed.

Lemma uncertain_binding_succeeds db fence s x r now message :
  table_ok db.(session_bindings) → refers (R := BindingRow) db →
  s ∈ db.(session_bindings) → fence_matches fence s = true → active_on x s = true →
  ∃ db', fenced_update fence (active_on x) (set_uncertain r now) message db = Ok (tt, db').
Proof.
  intros [Hu Hc] Hfk Hs Hf Hon. rewrite Forall_forall in Hc.
  unfold fenced_update, bind. rewrite update_succeeds; [|done| |].
  - rewrite (filter_conflicting _ _ s); [by eexists|done| |done|by rewrite Hf].
    unfold fence_matches. intros b c Hb Hc'. bool_facts. simpl. unfold conflict_binding.
    by rewrite (bool_decide_true (s_binding_id b = s_binding_id c)),
      (bool_decide_true (s_binding_generation b = s_binding_generation c)) by congruence.
  - intros s' Hs' Hp. unfold active_on in Hp. bool_facts. specialize (Hc s' Hs'). simpl in *.
    split_and!; [done| |exact (Hfk s' Hs')]. unfold check_binding in *. simpl.
    match goal with H : s_state s' = _ |- _ => rewrite H in Hc end.
    rewrite !andb_true_iff in *. tauto.
  - intros b c _ _. simpl. unfold conflict_binding, same_lane, update_row.
    destruct (fence_matches fence b && active_on x b) eqn:Hb,
      (fence_matches fence c && active_on x c) eqn:Hc'; simpl; try done;
      unfold active_on in *; bool_facts; by repeat match goal with H : s_state _ = _ |- _ => rewrite H; clear H end.
Qed.

Lemma mark_succeeds db x r now :
  sessions_agree db → table_ok db.(session_binding_turns) → table_ok db.(session_bindings) →
  refers (R := TurnRow) db → refers (R := BindingRow) db → all_rows turn_fits db →
  (∀ t s, t ∈ db.(session_binding_turns) → t_invocation_id t = x → s ∈ db.(session_bindings) →
          bound t s → s_active_invocation_id s = Some x) →
  ∃ db', mark_expired_session_turn_uncertain x r now db = Ok (tt, db').
Proof.
  intros Hag Htok Hbok Hft Hfb Hfits Hheld. unfold mark_expired_session_turn_uncertain, bind, gets.
  destruct (List.find _ _) as [[t s]|] eqn:Hf; [|by eexists].
  apply find_some_elem in Hf as [(Ht & Hs & Hon)%elem_of_join Hx]. simpl in *. bool_facts.
  assert (bound t s) as Hb by (split; congruence).
  pose proof (Hheld t s Ht Hx Hs Hb) as Hact. rewrite Hact, bool_decide_true by done. simpl.
  destruct Hbok as [Hu Hbc]. pose proof (proj1 (Forall_forall _ _) Hbc s Hs) as Hc. simpl in Hc.
  pose proof (proj1 (Forall_forall _ _) (proj2 Htok) t Ht) as Hct. simpl in Hct.
  assert (∀ t', t' ∈ db.(session_binding_turns) → s_active_invocation_id s = Some (t_invocation_id t') →
            t' = t) as Hone.
  { intros t' Ht' He. eapply turn_unique; [exact Hag|done..|]. congruence. }
  unfold check_binding in Hc. destruct (s_state s) eqn:Hst; bool_facts;
    try (rewrite Hact in *; done).
  - destruct (ag_active_binding _ _ Hag s Hs Hst) as (t' & Ht' & Hst' & _ & _ & Ha & He).
    apply Hone in Ha as ->; [|done]. rewrite Hst'. simpl. unfold check_turn in Hct. bool_facts.
    unfold positive_u64, lift, bind. destruct Hb as [Hbi Hbg].
    rewrite (proj2 (Z.ltb_lt _ _)) by lia. rewrite (proj2 (Z.ltb_lt _ _)) by lia.
    unfold mark_turn_uncertain, bind. subst x.
    rewrite uncertain_turn_succeeds by done. unfold lift, require_one. simpl.
    destruct (Hfits t Ht) as [Hg Hep]. unfold owner_fence, as_i64, i64_try_from. simpl.
    rewrite !(bool_decide_false (_ = 0)) by lia. simpl.
    rewrite (proj2 (Z.leb_le _ _)) by lia. rewrite (proj2 (Z.leb_le _ _)) by lia. simpl.
    eapply (uncertain_binding_succeeds _ _ s); simpl; try done.
    + unfold fence_matches. simpl. by rewrite !bool_decide_true.
    + unfold active_on. by rewrite Hst, Hact, !bool_decide_true.
  - destruct (ag_uncertain_binding _ _ Hag s Hs Hst) as (t' & Ht' & Hst' & _ & _ & Ha & _).
    apply Hone in Ha as ->; [|done]. rewrite Hst'. simpl. by eexists.
Qed.

(** Terminal attempts leave the count of live ones. *)
Lemma live_count (p : InvocationRow → bool) now c r l :
  (∀ j, p j = true → is_live j = true) →
  length (List.filter is_live l)
  = (length (List.filter is_live (map (update_row p (set_terminal now c r)) l))
     + length (List.filter p l))%nat.
Proof.
  intros Hp. induction l as [|j l IH]; simpl; [done|]. unfold update_row at 1.
  destruct (p j) eqn:Hj; [rewrite (Hp j Hj)|]; simpl; [lia|].
  destruct (is_live j); simpl; lia.
Qed.

Lemma park_counter i d a now db u db' :
  park_expired_armed_invocation (i, d) a now db = Ok (u, db') →
  db'.(blocks_autoinc) = db.(blocks_autoinc) + 1.
Proof.
  intros H. unfold park_expired_armed_invocation, block_expired_lease, record_block in H. m_inv.
  match goal with H : update_leased_row _ _ _ = Ok _ |- _ =>
    apply update_leased_row_ok in H as [-> _] end.
  match goal with H : record_block_id _ _ _ _ _ _ _ = Ok _ |- _ =>
    apply record_block_id_ok in H as [-> ->] end.
  match goal with H : update _ _ _ = Ok _ |- _ => apply update_ok in H as (-> & _) end.
  match goal with H : mark_expired_session_turn_uncertain _ _ _ _ = Ok _ |- _ =>
    apply (keeps_mark_expired blocks_autoinc) in H; [|done..] end. done.
Qed.

(** ** Parking one attempt *)

Section park.
Context (db : Db) (i : InvocationRow) (d : DeliveryRow) (now : Z).
Context (Hready : ready db) (Hi : i ∈ db.(invocations)) (Harm : armed i).
Context (Hexp : i_lease_expires_at_ms i ≤ now) (Hd : d ∈ db.(agent_deliveries)) (Ho : owns i d).

Let row := {| lr_key := KeySeq (i_message_seq i); lr_agent_id := i_agent_id i;
              lr_lease_token := i_lease_token i; lr_window := Expired; lr_now := now |}.

Lemma row_matches : leased_row_matches db.(messages) row d = true.
Proof using Hexp Ho.
  destruct Ho as (Hs & Ha & Hst & Ht & He & _). unfold leased_row_matches, window_matches. simpl.
  rewrite He, !bool_decide_true by done. simpl. by apply Z.leb_le.
Qed.
Lemma block_succeeds reason :
  block_expired_lease (i_agent_id i) (i_message_seq i) (i_lease_token i) reason now db
  = Ok (true, set_agent_deliveries
                (map (update_row (leased_row_matches db.(messages) row)
                        (settle_blocked reason (i_lease_token i))) db.(agent_deliveries)) db).
Proof using Hready Hexp Hd Ho.
  unfold block_expired_lease, update_leased_row, bind, gets. fold row.
  destruct (wf_deliveries db (rd_wf _ Hready)) as [Hu _].
  rewrite update_succeeds; [simpl|done| |].
  - rewrite (filter_conflicting _ _ d); [done|done| |done|apply row_matches].
    intros b c Hb Hc. apply leased_row_matches_ok in Hb as (_ & _ & Hba & Hbs & _).
    apply leased_row_matches_ok in Hc as (_ & _ & Hca & Hcs & _). simpl in *. bool_facts.
    unfold conflict_delivery. by rewrite !bool_decide_true by congruence.
  - intros r Hr Hm. pose proof (checked_row _ r (rd_wf _ Hready) Hr) as Hc. simpl in *.
    split_and!; [done| |exact (in_deliveries _ (rd_intact _ Hready) r Hr)].
    unfold check_delivery in *. bool_facts. simpl. by rewrite (proj2 (Z.leb_le _ _)).
  - intros b c _ _. simpl. unfold conflict_delivery, update_row. by repeat case_match.
Qed.

Lemma room_left : db.(blocks_autoinc) < i64_max.
Proof using Hready Hi Harm.
  pose proof (rd_room _ Hready) as Hroom. unfold block_room in Hroom.
  assert (i ∈ List.filter is_live db.(invocations)) as Hin.
  { apply elem_of_list_filter. split; [|done]. unfold is_live. by rewrite Harm. }
  destruct (List.filter is_live db.(invocations)); [by apply not_elem_of_nil in Hin|].
  simpl in Hroom. lia.
Qed.

Lemma park_succeeds : ∃ db', park_expired_armed_invocation (i, d) (i_agent_id i) now db = Ok (tt, db').
Proof using Hready Hi Harm Hexp Hd Ho.
  set (reason := expired_reason (i_id i)).
  destruct Ho as (Hds & Hda & _ & Hdt & _ & Hatt).
  pose proof (checked_row _ i (rd_wf _ Hready) Hi) as Hci. simpl in Hci.
  pose proof (block_succeeds reason) as H1. set (db1 := set_agent_deliveries _ db) in H1.
  eassert (record_block (i_message_seq i) (i_agent_id i) (d_attempt d) (i_lease_token i) reason now db1
          = Ok (tt, _)) as H2.
  { apply record_succeeds; [exact room_left| | |exact (rd_ids _ Hready)| |].
    - unfold check_invocation in Hci. bool_facts. lia.
    - apply (wf_blocks db (rd_wf _ Hready)).
    - intros b Hb Hs Ha Ht. apply (rd_unblocked _ Hready d b Hd Hb); congruence.
    - apply existsb_update; [done|]. apply existsb_exists. exists d.
      split; [by apply list_elem_of_In|]. by rewrite !bool_decide_true. }
  set (db2 := set_delivery_blocks _ _) in H2.
  assert (intact db2) as Hin2.
  { eapply (intact_record_block _ _ _ _ _ _ db1); [|exact H2].
    eapply (intact_block_expired _ _ _ _ _ db); [exact (rd_intact _ Hready)|exact H1]. }
  pose proof (terminal_succeeds db2 i now ExecutionCertainty.OutcomeUnknown
    "lease_expired_after_dispatch_armed" (proj1 (wf_invocations db (rd_wf _ Hready))) Hi Harm Hci
    (rd_results _ Hready i Hi ltac:(by rewrite Harm)) (in_invocations _ Hin2) ltac:(done)) as H3.
  set (db3 := set_invocations _ _) in H3.
  assert (intact db3) as Hin3.
  { by eapply (intact_set_terminal _ _ _ _ db2). }
  destruct (mark_succeeds db3 (i_id i) reason now) as [db' H4].
  - exact (rd_agree _ Hready).
  - apply (wf_turns db (rd_wf _ Hready)).
  - apply (wf_bindings db (rd_wf _ Hready)).
  - apply (in_turns _ Hin3).
  - apply (in_bindings _ Hin3).
  - exact (rd_fits _ Hready).
  - intros t s Ht Hti Hs Hb. by apply (rd_held _ Hready i t s).
  - exists db'. unfold park_expired_armed_invocation, bind, lift.
    fold reason. rewrite H1. simpl. fold reason. rewrite H2, H3. done.
Qed.

Lemma park_leaves u db' :
  park_expired_armed_invocation (i, d) (i_agent_id i) now db = Ok (u, db') →
  (∀ j, j ∈ db.(invocations) → j ≠ i → j ∈ db'.(invocations))
  ∧ (∀ j, j ∈ db'.(invocations) → live j → j ∈ db.(invocations) ∧ j ≠ i).
Proof using Hready Hi Harm.
  intros (_ & Hinv & _)%park_ok. rewrite Hinv.
  assert (∀ j, j ∈ db.(invocations) → (i_id j ==? i_id i) && (i_state j ==? InvocationState.DispatchArmed)
            = true → j = i) as Hone.
  { intros j Hj Hp. bool_facts. by eapply invocation_id_unique; [apply (rd_wf _ Hready)|..]. }
  split.
  - intros j Hj Hne. apply elem_of_update_row. exists j. split; [done|].
    destruct (_ && _) eqn:Hp; [|done]. by apply Hone in Hp.
  - intros j' (j & Hj & ->)%elem_of_update_row Hl. destruct (_ && _) eqn:Hp; [by destruct Hl|].
    split; [done|]. intros ->. unfold armed in Harm. by rewrite Harm, !bool_decide_true in Hp.
Qed.

Lemma park_ready u db' :
  park_expired_armed_invocation (i, d) (i_agent_id i) now db = Ok (u, db') → ready db'.
Proof using Hready Hi Harm.
  intros H. destruct Hready as [Hwf Hf Hin Hag Hub Hids Hres Hheld Hfits Hroom].
  destruct (safe_park_expired_armed_invocation false _ _ _ _ _ _ Hwf H) as [Hwf' _].
  destruct (park_tokens _ _ _ _ _ _ _ Hwf H) as [Hub' _].
  destruct (park_kept (i, d) (i_agent_id i) now db u db') as (? & ? & ? & ? & ? & ?);
    [by split_and!|done|].
  split; try done; 
    [by eapply (park_fenced i d); [exact Hwf|exact Hf|done|by left|exact H]|by apply Hub'|].
  unfold block_room in *. rewrite (park_counter _ _ _ _ _ _ _ H).
  pose proof H as (_ & -> & _)%park_ok.
  set (p := λ i' : InvocationRow, _) at 1.
  pose proof (live_count p now ExecutionCertainty.OutcomeUnknown
    "lease_expired_after_dispatch_armed" db.(invocations)) as Hcount.
  assert (length (List.filter p db.(invocations)) = 1%nat) as Hp.
  { apply (filter_conflicting p _ i); [apply (wf_invocations db Hwf)| |done|].
    - unfold p. intros b c Hb Hc. bool_facts. simpl. unfold conflict_invocation.
      by rewrite bool_decide_true by congruence.
    - unfold p. unfold armed in Harm. by rewrite Harm, !bool_decide_true. }
  rewrite Hp in Hcount. unfold p in *. rewrite Hcount in Hroom; [lia|].
  intros j Hj. bool_facts. unfold is_live. by rewrite bool_decide_false by congruence.
Qed.
End park.

(** ** Recovering the agents *)

Lemma invocations_nodup db : wf db → NoDup db.(invocations).
Proof.
  intros Hwf. destruct (wf_invocations db Hwf) as [Hu _]. clear Hwf.
  induction db.(invocations) as [|i l IH]; [constructor|]. simpl in Hu.
  apply andb_true_iff in Hu as [Hi Hu]. constructor; [|by apply IH]. intros Hin.
  rewrite forallb_forall in Hi. apply list_elem_of_In, Hi in Hin.
  unfold conflict_invocation in Hin. by rewrite bool_decide_true in Hin.
Qed.
Lemma expired_armed_nodup a now db : wf db → NoDup (map fst (expired_armed a now db)).
Proof.
  intros Hwf. unfold expired_armed.
  eapply (NoDup_Permutation_proper (fst <$> _) (fst <$> _)); [apply fmap_Permutation, sort_by_perm|].
  eapply sublist_NoDup; [exact (invocations_nodup db Hwf)|].
  etransitivity; [apply fmap_sublist, filter_sublist|]. apply join_fst_sublist. intros i.
  apply filter_at_most_one; [apply (wf_deliveries db Hwf)|]. unfold expired_lease_of.
  intros b c Hb Hc. bool_facts. simpl. unfold conflict_delivery.
  by rewrite !bool_decide_true by congruence.
Qed.

(** The rows still to be parked: distinct expired armed attempts with their deliveries. *)
Definition to_park (a : string) (now : Z) (db : Db) (rows : list (InvocationRow * DeliveryRow)) : Prop :=
  NoDup (map fst rows) ∧
  ∀ r, r ∈ rows → r.1 ∈ db.(invocations) ∧ armed r.1 ∧ i_agent_id r.1 = a
    ∧ i_lease_expires_at_ms r.1 ≤ now ∧ r.2 ∈ db.(agent_deliveries) ∧ owns r.1 r.2.

Lemma owner_delivery db i d d' :
  wf db → d ∈ db.(agent_deliveries) → d' ∈ db.(agent_deliveries) → owns i d → owns i d' → d = d'.
Proof. intros Hwf Hd Hd' (? & ? & _) (? & ? & _). eapply delivery_key_unique; eauto; congruence. Qed.

Lemma park_next a now db r rows u db' :
  ready db → to_park a now db (r :: rows) →
  park_expired_armed_invocation r a now db = Ok (u, db') → to_park a now db' rows.
Proof.
  intros Hready [Hnd Hrows] H. destruct r as [i d]. simpl in Hnd. apply NoDup_cons in Hnd as [Hni Hnd].
  split; [done|]. intros [j e] Hr.
  destruct (Hrows (i, d) ltac:(left)) as (Hi & Harm & Ha & _). simpl in *. subst a.
  destruct (Hrows (j, e) ltac:(by right)) as (Hj & Hjarm & Hja & Hjexp & He & Ho). simpl in *.
  assert (j ≠ i) as Hne.
  { intros ->. apply Hni, list_elem_of_fmap. by exists (i, e). }
  assert (live j) as Hl by (unfold live; by rewrite Hjarm).
  destruct (park_leaves db i d now Hready Hi Harm u db' H) as [Hstay _].
  pose proof (park_ready db i d now Hready Hi Harm u db' H) as Hready'.
  split_and!; try done; [by apply Hstay|].
  destruct (rd_fenced _ Hready' j (Hstay j Hj Hne) Hl) as (e' & He' & Ho').
  pose proof H as (Hds & _ & _)%park_ok. rewrite Hds in He'.
  pose proof He' as (e0 & He0 & Heq)%elem_of_update_row. rewrite Hds.
  destruct (leased_row_matches _ _ e0).
  - subst e'. destruct Ho' as (_ & _ & Hst & _). done.
  - subst e'. by rewrite (owner_delivery db j e e0 (rd_wf _ Hready) He He0 Ho Ho').
Qed.

Lemma park_rows a now rows db :
  ready db → to_park a now db rows →
  ∃ db', for_each rows (λ row, park_expired_armed_invocation row a now) db = Ok (tt, db')
    ∧ ready db' ∧ ∀ j, j ∈ db'.(invocations) → live j → j ∈ db.(invocations).
Proof.
  revert db. induction rows as [|[i d] rows IH]; intros db Hready Hpark; cbn [for_each];
    [exists db; by split_and!|].
  destruct (proj2 Hpark (i, d) ltac:(left)) as (Hi & Harm & <- & Hexp & Hd & Ho). simpl in *.
  destruct (park_succeeds db i d now Hready Hi Harm Hexp Hd Ho) as [db1 H1].
  destruct (IH db1) as (db' & H2 & Hready' & Hlive);
    [by eapply (park_ready db i d)|by eapply (park_next _ _ db)|].
  exists db'. split_and!; [|done|].
  { apply bind_ok. by exists tt, db1. }
  intros j Hj Hl.
  by apply (proj2 (park_leaves db i d now Hready Hi Harm tt db1 H1)); [apply Hlive|].
Qed.

(** Reservations that expired before dispatch are ended. *)
Lemma reservations_end a now db :
  ready db → ∃ n db', terminalize_expired_reservations a now db = Ok (n, db').
Proof.
  intros Hready. unfold terminalize_expired_reservations, bind, gets.
  rewrite update_succeeds; [by eexists _, _|apply (wf_invocations db (rd_wf _ Hready))| |].
  - intros i Hi Hp. bool_facts. pose proof (checked_row _ i (rd_wf _ Hready) Hi) as Hc. simpl in *.
    split_and!; [done| |exact (in_invocations _ (rd_intact _ Hready) i Hi)].
    assert (i_state i = InvocationState.Reserved) as Hst by done.
    pose proof (rd_results _ Hready i Hi ltac:(by rewrite Hst)) as Hres.
    unfold check_invocation in *. simpl. rewrite Hst, Hres in *. bool_facts.
    by rewrite (proj2 (Z.ltb_lt _ _)).
  - intros b c _ _. simpl. unfold conflict_invocation, update_row. by repeat case_match.
Qed.
Lemma reservations_kept a now : preserves kept (terminalize_expired_reservations a now).
Proof.
  apply preserves_kept; preserves_tac.
  all: apply preserves_update_row; [done|]; intros [] HP Hsel; hnf in HP |- *; simpl in *; done.
Qed.
Lemma reservations_ready a now db n db' :
  ready db → terminalize_expired_reservations a now db = Ok (n, db') →
  ready db' ∧ ∀ j, j ∈ db'.(invocations) → live j → j ∈ db.(invocations).
Proof.
  intros [Hwf Hf Hin Hag Hub Hids Hres Hheld Hfits Hroom] H.
  destruct (safe_terminalize_expired_reservations false _ _ _ _ _ Hwf H) as [Hwf' _].
  destruct (reservations_kept a now db n db') as (? & ? & ? & ? & ? & ?); [by split_and!|done|].
  apply terminalize_expired_reservations_ok in H. set (p := λ i : InvocationRow, _) in H.
  split.
  - split; try done; [|by rewrite H|].
    + eapply (fenced_settle db db' (λ _, false) id p); rewrite ?H; simpl; try done.
      by rewrite map_update_none.
    + rewrite H. unfold block_room in *. simpl.
      rewrite (live_count p now ExecutionCertainty.NotStarted "reservation_expired_before_dispatch")
        in Hroom; [lia|].
      intros j Hj. unfold p in Hj. bool_facts. unfold is_live. by rewrite bool_decide_false by congruence.
  - rewrite H. simpl. intros j' (j & Hj & ->)%elem_of_update_row Hl. by destruct (p j).
Qed.

Lemma agent_recovers a now db :
  ready db → ∃ n db', recover_expired_invocations_transaction a now db = Ok (n, db')
    ∧ ready db' ∧ ∀ j, j ∈ db'.(invocations) → live j → j ∈ db.(invocations).
Proof.
  intros Hready. destruct (reservations_end a now db Hready) as (n & db1 & H1).
  destruct (reservations_ready a now db n db1 Hready H1) as [Hready1 Hl1].
  destruct (park_rows a now (expired_armed a now db1) db1 Hready1) as (db' & H2 & Hready' & Hl2).
  - split; [by apply expired_armed_nodup, rd_wf|]. intros [i d].
    unfold expired_armed. intros [Hsel (Hi & Hd & Hon)%elem_of_join]%elem_of_sort_by%elem_of_list_filter.
    bool_facts. simpl in *.
    assert (live i) as Hl by (unfold live; congruence).
    destruct (rd_fenced _ Hready1 i Hi Hl) as (d' & Hd' & Ho).
    assert (d = d') as ->; [|by split_and!].
    unfold expired_lease_of in Hon. bool_facts. destruct Ho as (? & ? & _).
    eapply delivery_key_unique; [apply (rd_wf _ Hready1)|done..| |]; congruence.
  - eexists _, db'. split_and!; [|done|].
    + unfold recover_expired_invocations_transaction. apply bind_ok. exists n, db1. split; [done|].
      apply bind_ok. exists (expired_armed a now db1), db1. split; [done|].
      apply bind_ok. exists tt, db'. by split.
    + intros j Hj Hl. by apply Hl1; [apply Hl2|].
Qed.

Lemma agents_recover agents now k db :
  ready db → ∃ n db', recover_agents agents now k db = Ok (n, db')
    ∧ ready db'
    ∧ ∀ j, j ∈ db'.(invocations) → live j →
        j ∈ db.(invocations) ∧ (i_agent_id j ∈ agents → now < i_lease_expires_at_ms j).
Proof.
  revert db k. induction agents as [|a agents IH]; intros db k Hready; cbn [recover_agents].
  { exists k, db. split_and!; [done..|]. intros j Hj _. split; [done|]. by intros ?%not_elem_of_nil. }
  destruct (agent_recovers a now db Hready) as (n & db1 & H1 & Hready1 & Hl1).
  destruct (recover_spec a now db n db1 (rd_wf _ Hready) (rd_fenced _ Hready) H1) as (_ & _ & Hexp & _).
  destruct (IH db1 (saturating_add_u64 k n) Hready1) as (n' & db' & H2 & Hready' & Hl2).
  exists n', db'. split_and!; [apply bind_ok; by exists n, db1|done|].
  intros j Hj Hl. destruct (Hl2 j Hj Hl) as [Hj1 Hag]. split; [by apply Hl1|].
  intros [Ha|Hin]%elem_of_cons; [by apply Hexp; [apply Hl2| |]|by apply Hag].
Qed.

(** ** Every reachable store *)

Section recovery.
Context `{J : SerdeJson} {JL : SerdeJsonLaws J} (sha256_hex : string → string).

Lemma reachable_ready db :
  reachable sha256_hex db → sessions_held db → block_room db → ready db.
Proof.
  intros Hr ? ?. split; try done.
  - by eapply reachable_wf.
  - by eapply reachable_fenced.
  - by eapply reachable_intact.
  - by eapply reachable_agrees.
  - by eapply reachable_unblocked.
  - by eapply reachable_ids.
  - intros i Hi Hl. by eapply live_result.
  - by eapply reachable_turn_fits.
Qed.

(** C11 Recovery always ends the expired attempts: on every store a run reaches on
    which no session was retired from under an armed attempt, and whose block keys
    are not exhausted, the sweep over all agents succeeds, and afterwards every
    attempt that is still live, of any agent, holds a lease that has not expired. *)
Theorem recovery_completes now db :
  reachable sha256_hex db → sessions_held db → block_room db →
  ∃ n db', recover_all_expired_invocations now db = Ok (n, db')
    ∧ ∀ i, i ∈ db'.(invocations) → live i → now < i_lease_expires_at_ms i.
Proof.
  intros Hr Hheld Hroom. pose proof (reachable_ready db Hr Hheld Hroom) as Hready.
  assert (∀ i, i ∈ db.(invocations) → live i → i_agent_id i ∉ expired_agents now db →
            now < i_lease_expires_at_ms i) as Hother.
  { intros i Hi Hl Hag. destruct (decide (i_lease_expires_at_ms i ≤ now)) as [Hle|]; [|lia].
    destruct (rd_fenced _ Hready i Hi Hl) as (d & Hd & Ho). exfalso. apply Hag.
    unfold expired_agents. apply elem_of_sort_by, elem_of_remove_dups, list_elem_of_fmap.
    exists (i, d). split; [done|]. apply elem_of_list_filter. simpl. split.
    - unfold negb. rewrite bool_decide_false by done. simpl. by apply Z.leb_le.
    - apply elem_of_join. auto using owns_expired. }
  destruct (agents_recover (expired_agents now db) now 0 db Hready) as (n & db' & Hrun & _ & Hlive).
  unfold recover_all_expired_invocations, bind, gets.
  destruct (expired_agents now db) as [|a l] eqn:He.
  - exists 0, db. rewrite bool_decide_true by done. split; [done|]. intros i Hi Hl.
    apply Hother; [done..|]. apply not_elem_of_nil.
  - rewrite bool_decide_false by done. exists n, db'. split; [done|]. intros i Hi Hl.
    destruct (Hlive i Hi Hl) as [Hin Hag].
    destruct (decide (i_agent_id i ∈ a :: l)); [by apply Hag|by apply Hother].
Qed.

(** ** Claims *)

(** Recovery leaves a waiting delivery as it is. *)
Lemma recover_keeps_pending a now db n db' d :
  recover_expired_invocations_transaction a now db = Ok (n, db') →
  d_state d = DeliveryState.Pending → d ∈ db.(agent_deliveries) → d ∈ db'.(agent_deliveries).
Proof.
  intros H Hst Hd. unfold recover_expired_invocations_transaction in H. m_inv.
  match goal with H : terminalize_expired_reservations _ _ _ = Ok _ |- _ =>
    apply terminalize_expired_reservations_ok in H; subst end.
  match goal with H : for_each _ _ _ = Ok _ |- _ =>
    refine (for_each_invariant (λ db, d ∈ db.(agent_deliveries)) _ _ _ _ _ _ _ H) end; [|done].
  intros [i d0] dba u dbb _ Hin (Hds & _ & _)%park_ok. rewrite Hds. apply elem_of_update_row.
  exists d. split; [done|]. destruct (leased_row_matches _ _ d) eqn:Hm; [|done].
  apply leased_row_matches_ok in Hm as (Hl & _). congruence.
Qed.

Lemma lease_succeeds a t e now lim kinds db :
  wf db → intact db →
  lease_claimable a t e now lim kinds db
  = Ok (tt, set_agent_deliveries
              (map (update_row (λ d, bool_decide (delivery_key d ∈ claimable_keys a now lim kinds db))
                      (lease_row t e)) db.(agent_deliveries)) db).
Proof.
  intros Hwf Hin. unfold lease_claimable, bind, gets.
  rewrite update_succeeds; [done|apply (wf_deliveries db Hwf)| |].
  - intros d Hd Hk. bool_facts. pose proof (checked_row _ d Hwf Hd) as Hc. simpl in *.
    apply claimable_keys_ok in Hk; [|done..]. apply claimable_state in Hk.
    split_and!; [done| |exact (in_deliveries _ Hin d Hd)].
    unfold check_delivery in *. simpl.
    rewrite !andb_true_iff in Hc. destruct Hc as [[[Ha Hs] _] _]. apply Z.leb_le in Ha.
    rewrite (proj2 (Z.leb_le _ _)) by lia. by rewrite Hs.
  - intros b c _ _. simpl. unfold conflict_delivery, update_row. by repeat case_match.
Qed.

(** The oldest waiting rows: one is selected, or all the selected ones are older. *)
Lemma selected_or_older a now lim db d m :
  wf db → 1 ≤ lim → (d, m) ∈ deliveries_with_messages db → claimable a now d = true →
  delivery_key d ∈ claimable_keys a now lim None db
  ∨ Z.of_nat (length (claimable_keys a now lim None db)) = lim
    ∧ ∀ k, k ∈ claimable_keys a now lim None db → k.1 ≤ d_message_seq d.
Proof.
  intros Hwf Hlim Hdm Hc. unfold claimable_keys, limit.
  set (l := sort_by _ _).
  assert ((d, m) ∈ l) as Hl.
  { apply elem_of_sort_by, elem_of_list_filter. simpl. split; [by rewrite Hc|done]. }
  rewrite <-(take_drop (Z.to_nat lim) l) in Hl. apply elem_of_app in Hl as [Hl|Hl].
  { left. apply list_elem_of_fmap. by exists (d, m). }
  right. apply list_elem_of_lookup in Hl as [k Hk].
  pose proof (lookup_lt_Some _ _ _ Hk) as Hlen. rewrite length_drop in Hlen. split.
  - rewrite length_map, length_take. lia.
  - intros k' (r & -> & Hr)%list_elem_of_fmap. apply Z.leb_le.
    pose proof (sort_by_sorted (by_Z (λ r : DeliveryRow * MessageRow, d_message_seq r.1))
      ltac:(intros; unfold by_Z; lia) ltac:(intros ???; unfold by_Z; lia)
      (List.filter (λ r, claimable a now r.1 && kind_selected None r.2) (deliveries_with_messages db)))
      as Hs. fold l in Hs. rewrite <-(take_drop (Z.to_nat lim) l) in Hs.
    apply (StronglySorted_app_1_elem_of _ _ _ r (d, m) Hs Hr). by eapply list_elem_of_lookup_2.
Qed.

Lemma claimable_keys_nodup a now lim kinds db : wf db → NoDup (claimable_keys a now lim kinds db).
Proof.
  intros Hwf. unfold claimable_keys, limit. eapply sublist_NoDup; [|apply fmap_sublist, sublist_take].
  eapply (NoDup_Permutation_proper (_ <$> _) (_ <$> _)); [apply fmap_Permutation, sort_by_perm|].
  by apply leased_rows_nodup.
Qed.

(** What a claim reads back under its fresh token: exactly the selected rows. *)
Lemma batch_reads a t e now lim kinds db1 db2 :
  (∀ m, m ∈ db1.(messages) → ∃ v, message_from_row m = Ok v) →
  wf db1 → intact db1 → (∀ d, d ∈ db1.(agent_deliveries) → d_lease_token d ≠ Some t) →
  lease_claimable a t e now lim kinds db1 = Ok (tt, db2) → wf db2 →
  ∃ batch, leased_batch a t db2 = Ok (batch, db2)
    ∧ (length (claimable_keys a now lim kinds db1) ≤ length batch)%nat
    ∧ (∀ del, del ∈ batch → (msg_seq (delivery_message del), a) ∈ claimable_keys a now lim kinds db1)
    ∧ (∀ k, k ∈ claimable_keys a now lim kinds db1 →
         ∃ del, del ∈ batch ∧ msg_seq (delivery_message del) = k.1).
Proof.
  intros Hdec Hwf Hin Hfresh Hle Hwf2. pose proof Hle as Hdb2. apply lease_claimable_ok in Hdb2.
  unfold leased_batch, bind, gets.
  match goal with |- context [List.filter ?p _] => set (sel := p) end.
  assert (∀ k, k ∈ claimable_keys a now lim kinds db1 →
            ∃ d m, (d, m) ∈ List.filter sel (deliveries_with_messages db2) ∧ delivery_key d = k)
    as Hrows.
  { intros k Hk. pose proof Hk as Hk'. unfold claimable_keys in Hk'.
    apply list_elem_of_fmap in Hk' as ([d m] & -> & Hr%limit_subseteq%elem_of_sort_by).
    apply elem_of_list_filter in Hr as [Hc (Hd & Hm & Hon)%elem_of_join]. simpl in *. bool_facts.
    assert (d_agent_id d = a) as Ha by (unfold claimable in *; by bool_facts).
    exists (lease_row t e d), m. split; [|done]. apply elem_of_list_filter. unfold sel. simpl. split.
    - by rewrite Ha, !bool_decide_true.
    - apply elem_of_join. rewrite Hdb2. simpl. split_and!; [|done|by apply bool_decide_eq_true].
      apply elem_of_update_row. exists d. split; [done|]. by rewrite bool_decide_true. }
  destruct (collect_total delivery_from_row (sort_by (by_Z (λ r, m_seq r.2))
    (List.filter sel (deliveries_with_messages db2)))) as [batch Hb].
  { intros [d m] [Hs (Hd & Hm & _)%elem_of_join]%elem_of_sort_by%elem_of_list_filter.
    rewrite Hdb2 in Hm. destruct (Hdec m Hm) as [v Hv]. unfold delivery_from_row. simpl. rewrite Hv. simpl.
    unfold sel in Hs. simpl in Hs. bool_facts. pose proof (checked_row _ d Hwf2 Hd) as Hc. simpl in Hc.
    unfold check_delivery in Hc. rewrite bool_decide_true in Hc by done. bool_facts. unfold is_some in *.
    destruct (d_lease_expires_at_ms d); [by eexists|done]. }
  unfold lift. rewrite Hb. exists batch. split_and!; [done| | |].
  - apply collect_length in Hb as ->. rewrite (Permutation_length (sort_by_perm _ _)).
    rewrite <-(length_map (λ r, delivery_key r.1)). apply submseteq_length, NoDup_submseteq;
      [by apply claimable_keys_nodup|].
    intros k (d & m & Hr & <-)%Hrows. apply list_elem_of_fmap. by exists (d, m).
  - intros del Hdel. assert (leased_batch a t db2 = Ok (batch, db2)) as Hrun
      by (unfold leased_batch, bind, gets, lift; fold sel; by rewrite Hb).
    eapply leased_batch_elem in Hrun as (d & m & Hd & _ & _ & Hda & _ & Ht & -> & _); [|done].
    destruct (leased_fresh _ _ _ _ _ _ _ _ _ d Hfresh Hle Hd Ht) as (_ & d0 & _ & -> & Hk).
    unfold delivery_key in Hk. simpl in *. by rewrite Hda in Hk.
  - intros k (d & m & Hr & <-)%Hrows.
    edestruct (collect_in delivery_from_row) as (del & Hrow & Hdel); [exact Hb| |].
    { apply elem_of_sort_by. exact Hr. }
    exists del. split; [done|]. apply elem_of_list_filter in Hr as [_ (_ & _ & Hon)%elem_of_join].
    simpl in Hon. bool_facts. unfold delivery_from_row in Hrow. m_inv. simpl.
    match goal with H : message_from_row _ = Ok _ |- _ => apply message_from_row_ok in H as (? & _) end.
    simpl in *. congruence.
Qed.

Lemma ensure_agent_stored db a : has_agent db a = true → ensure_agent a db = Ok (tt, db).
Proof.
  intros (r & _ & Hr & Hid)%existsb_find. unfold ensure_agent, ensure_exists, count, bind, gets, lift. simpl.
  assert (r ∈ List.filter (λ r, a_id r ==? a) db.(agents)) as Hin by (by apply elem_of_list_filter).
  destruct (List.filter _ _); [by apply not_elem_of_nil in Hin|done].
Qed.

End recovery.

(** ** Runs *)

Lemma recovery_completes_witness :
  ∃ n db', recover_all_expired_invocations 5000 db_bound = Ok (n, db')
    ∧ ∀ i, i ∈ db'.(invocations) → live i → 5000 < i_lease_expires_at_ms i.
Proof.
  apply (recovery_completes plain_sha256 5000 db_bound); [apply reachable_bound| |by vm_compute].
  intros i t s Hi _ Ht _ Hs _. apply list_elem_of_In in Hi, Hs. vm_compute in Hi, Hs.
  destruct Hi as [<-|[]]. by destruct Hs as [<-|[]].
Defined.


(** The proviso of recovery is needed.  The owner of a session marks it uncertain
    while its attempt is armed and retires it before the delivery is blocked; once
    the lease has expired every recovery, of the agent or of the whole fleet, and
    every claim of the agent is refused. *)
Definition op_uncertain : M SessionBinding :=
  mark_session_invocation_uncertain "B" "U0" owner1 "cancelled" 21.
Definition op_retire_uncertain : M SessionBinding := retire_session_binding "B" owner1 "rotated" 22.
Definition db_abandoned : Db := Eval vm_compute in exec op_uncertain db_bound.
Definition db_wedged : Db := Eval vm_compute in exec op_retire_uncertain db_abandoned.

Lemma reachable_wedged : reachable plain_sha256 db_wedged.
Proof.
  apply (run_step op_retire_uncertain false db_abandoned);
    [intros; by eapply t_retire|done|done|].
  apply (run_step op_uncertain false db_bound);
    [intros; by eapply t_uncertain|done|done|apply reachable_bound].
Qed.
Definition refusal {A} (r : result A) : option FleetError := match r with Ok _ => None | Err e => Some e end.
Lemma retired_session_blocks_recovery :
  let stuck := Some (Conflict "expired session turn is not the binding's active invocation") in
  refusal (recover_all_expired_invocations 5000 db_wedged) = stuck
  ∧ refusal (claim_deliveries "B" claim_one 5000 "T7" db_wedged) = stuck.
Proof. by vm_compute. Qed.
