(* ===== verification/EvidencePages.v ===== *)
(** * Following the cursor of an evidence listing

    The pages of a listing partition it: what comes after the cursor of a page's
    last row is the listing without that page.  A reader that resumes from the
    last row it received therefore reads every selected row once, in order, and
    stops. *)

From S2P Require Import Prelude Proto Schema Channels Messages Deliveries.
From S2P Require Import SessionFence Observations Invocations Settlement Sessions.
From S2P Require Import Triggers Auth Seats Lifecycle Safety System Preserve Scenario.
From S2P Require Import MessageProps Evidence Decoding.

(** ** The order of a listing *)

Section order.
Context {R : Type} (columns : EvidenceColumns R).

(** The position of a row, from which a reader resumes. *)
Definition cursor_of (r : R) : EvidenceCursor :=
  {| changed_at_ms := col_changed columns r; cursor_id := col_id columns r |}.
(** [r'] comes after [r] in the listing. *)
Definition follows (order : EvidenceOrder) (r r' : R) : bool :=
  match order with
  | Newest => before_cursor columns (cursor_of r) r'
  | Oldest => after_cursor columns (cursor_of r) r'
  end.
Definition resume (page : EvidencePage) (r : R) : EvidencePage :=
  {| page_agent_id := page_agent_id page; page_after := Some (cursor_of r);
     page_limit := page_limit page; page_settled := page_settled page;
     page_order := page_order page |}.

Lemma order_follows order r r' :
  evidence_order columns order r r'
  = follows order r r'
    || ((col_changed columns r ==? col_changed columns r')
        && (col_id columns r ==? col_id columns r')).
Proof.
  destruct order; unfold evidence_order, follows, then_by, before_cursor, after_cursor, by_Z, by_Z_desc,
    by_str, by_str_desc; simpl; rewrite string_leb_ltb;
  repeat case_bool_decide; simplify_eq; simpl; try congruence;
  destruct (Z.leb_spec (col_changed columns r') (col_changed columns r));
  destruct (Z.leb_spec (col_changed columns r) (col_changed columns r'));
  destruct (Z.ltb_spec (col_changed columns r') (col_changed columns r));
  destruct (Z.ltb_spec (col_changed columns r) (col_changed columns r')); simpl;
  try lia; rewrite ?orb_true_r, ?orb_false_r; try done.
Qed.

Definition behind (order : EvidenceOrder) (c : EvidenceCursor) (r : R) : bool :=
  match order with Newest => before_cursor columns c r | Oldest => after_cursor columns c r end.
Lemma behind_trans order c b x :
  behind order c b = true → follows order b x = true → behind order c x = true.
Proof.
  destruct order; unfold behind, follows, before_cursor, after_cursor; simpl; intros Hab Hbc;
  apply orb_true_iff in Hab as [Hab|Hab]; apply orb_true_iff in Hbc as [Hbc|Hbc]; bool_facts;
  apply orb_true_iff; try (left; apply Z.ltb_lt; lia); right; apply andb_true_iff; split;
  first [by (apply bool_decide_eq_true; congruence) | by eapply string_ltb_trans].
Qed.
Lemma follows_trans order a b c :
  follows order a b = true → follows order b c = true → follows order a c = true.
Proof. exact (behind_trans order (cursor_of a) b c). Qed.
Lemma follows_irrefl order a : follows order a a = false.
Proof.
  destruct order; unfold follows, before_cursor, after_cursor; simpl;
    by rewrite string_ltb_irrefl, Z.ltb_irrefl, andb_false_r.
Qed.
Lemma follows_total order a b :
  col_id columns a ≠ col_id columns b → follows order a b = true ∨ follows order b a = true.
Proof.
  intros Hne. destruct (string_ltb_total (col_id columns a) (col_id columns b)) as [?|Hs]; [done|].
  destruct (Z.lt_total (col_changed columns a) (col_changed columns b)) as [Hz|[Hz|Hz]];
  destruct order; unfold follows, before_cursor, after_cursor; simpl; rewrite !orb_true_iff, !andb_true_iff, !Z.ltb_lt, !bool_decide_eq_true;
  intuition congruence.
Qed.

Lemma order_total order a b : evidence_order columns order a b = true ∨ evidence_order columns order b a = true.
Proof.
  rewrite !order_follows. destruct (decide (col_id columns a = col_id columns b)) as [E|E].
  - destruct (Z.lt_total (col_changed columns a) (col_changed columns b)) as [Hz|[Hz|Hz]];
      destruct order; unfold follows, before_cursor, after_cursor; simpl;
      rewrite !orb_true_iff, !andb_true_iff, !Z.ltb_lt, !bool_decide_eq_true; intuition congruence.
  - destruct (follows_total order a b E) as [->| ->]; auto.
Qed.
Definition same_position (a b : R) : Prop :=
  col_changed columns a = col_changed columns b ∧ col_id columns a = col_id columns b.
Lemma follows_position order a a' b b' :
  same_position a a' → same_position b b' → follows order a b = follows order a' b'.
Proof.
  intros [E1 E2] [E3 E4]. unfold follows, before_cursor, after_cursor, cursor_of. simpl.
  by rewrite E1, E2, E3, E4.
Qed.
Lemma order_trans order a b c :
  evidence_order columns order a b = true → evidence_order columns order b c = true →
  evidence_order columns order a c = true.
Proof.
  rewrite !order_follows, !orb_true_iff, !andb_true_iff, !bool_decide_eq_true.
  intros [Hab|Hab] [Hbc|Hbc].
  - left. by eapply follows_trans.
  - left. by rewrite <-(follows_position order a a b c).
  - left. by rewrite (follows_position order a b c c).
  - right. destruct Hab, Hbc. split; congruence.
Qed.

(** ** The pages of a table *)

Section table.
Context (l : list R) (Hnd : NoDup l).
Context (Hid : ∀ a b, a ∈ l → b ∈ l → col_id columns a = col_id columns b → a = b).

(** Everything a page selects, in its order. *)
Definition listing (page : EvidencePage) : list R :=
  sort_by (evidence_order columns (page_order page)) (List.filter (evidence_selects columns page) l).

Lemma page_listing_elem page r : r ∈ listing page ↔ evidence_selects columns page r = true ∧ r ∈ l.
Proof. unfold listing. by rewrite elem_of_sort_by, elem_of_list_filter. Qed.
Lemma listing_strict page :
  StronglySorted (λ a b, follows (page_order page) a b = true) (listing page).
Proof using Hid Hnd.
  pose proof (sort_by_sorted (evidence_order columns (page_order page)) (order_total _) (order_trans _)
    (List.filter (evidence_selects columns page) l)) as Hs. fold (listing page) in Hs.
  assert (NoDup (listing page)) as Hnd'.
  { unfold listing. rewrite sort_by_perm. by apply NoDup_ListNoDup, List.NoDup_filter, NoDup_ListNoDup. }
  assert (∀ r, r ∈ listing page → r ∈ l) as Hin by (by intros r [_ ?]%page_listing_elem).
  induction Hs as [|a rs Hs IH Hall]; constructor.
  - apply NoDup_cons in Hnd' as [_ ?]. apply IH; [done|]. intros r Hr. apply Hin. by right.
  - apply Forall_forall. intros b Hb. pose proof (proj1 (Forall_forall _ _) Hall b Hb) as Hab. simpl in Hab.
    rewrite order_follows in Hab. apply orb_true_iff in Hab as [?|Hsame]; [done|]. bool_facts.
    apply NoDup_cons in Hnd' as [Hnot _]. destruct Hnot.
    by rewrite (Hid a b) by first [apply Hin; by left | apply Hin; by right | done].
Qed.

(** Selecting behind a selected row's position narrows a page to what follows it. *)
Lemma resume_selects page r x :
  evidence_selects columns page r = true →
  evidence_selects columns (resume page r) x
  = evidence_selects columns page x && follows (page_order page) r x.
Proof.
  unfold evidence_selects, resume. simpl. intros Hr. bool_facts.
  set (b := match page_agent_id page with Some _ => _ | None => _ end && _).
  destruct b; [|done]. simpl. unfold follows.
  destruct (page_after page) as [after|]; [|by destruct (page_order page)].
  change (behind (page_order page) after r = true) in H0.
  change (behind (page_order page) (cursor_of r) x
          = behind (page_order page) after x && follows (page_order page) r x).
  change (behind (page_order page) (cursor_of r) x) with (follows (page_order page) r x).
  destruct (follows (page_order page) r x) eqn:Hf; [|by rewrite andb_false_r].
  by rewrite (behind_trans _ _ _ _ H0 Hf).
Qed.

Lemma sorted_after {B} (lt : B → B → bool) rs n r :
  (∀ b, lt b b = false) → (∀ a b c, lt a b = true → lt b c = true → lt a c = true) →
  StronglySorted (λ a b, lt a b = true) rs → last (take n rs) = Some r →
  List.filter (lt r) rs = drop n rs.
Proof.
  intros Hirr Htr Hs. revert n. induction Hs as [|a rs Hs IH Hall]; intros n Hl;
    [by rewrite take_nil in Hl|]. destruct n as [|n]; [done|]. simpl in *.
  destruct (take n rs) as [|b bs] eqn:Ht.
  - injection Hl as ->. rewrite Hirr. destruct n as [|n]; [|destruct rs; done]. rewrite drop_0.
    rewrite forallb_filter_id; [done|]. apply forallb_forall. intros x Hx.
    by apply (proj1 (Forall_forall _ _) Hall), list_elem_of_In.
  - assert (lt r a = false) as ->.
    { apply not_true_is_false. intros Hra. assert (r ∈ rs) as Hr.
      { assert (r ∈ take n rs) as Hin by (rewrite Ht; by apply last_Some_elem_of).
        apply elem_of_take in Hin as (k & Hk & _). by apply list_elem_of_lookup_2 in Hk. }
      pose proof (proj1 (Forall_forall _ _) Hall r Hr) as Har. simpl in Har.
      pose proof (Htr _ _ _ Hra Har) as Hrr. by rewrite Hirr in Hrr. }
    apply IH. by rewrite Ht.
Qed.

(** What a reader has left after a page: the listing without that page. *)
Lemma resume_rest page n r :
  last (take n (listing page)) = Some r → listing (resume page r) = drop n (listing page).
Proof using Hid Hnd.
  intros Hl. assert (r ∈ listing page) as Hr.
  { apply last_Some_elem_of, elem_of_take in Hl as (k & Hk & _). by apply list_elem_of_lookup_2 in Hk. }
  apply page_listing_elem in Hr as [Hsel Hr]. pose proof (listing_strict page) as Hs.
  rewrite <-(sorted_after _ _ _ _ (follows_irrefl _) (follows_trans _) Hs Hl).
  apply (StronglySorted_unique_strong (λ a b, follows (page_order page) a b = true)).
  - intros a b _ _ Hab Hba. pose proof (follows_trans _ _ _ _ Hab Hba) as Haa.
    by rewrite follows_irrefl in Haa.
  - exact (listing_strict (resume page r)).
  - clear -Hs. induction Hs as [|a rs Hs IH Hall]; simpl; [constructor|].
    case_match; [|done]. constructor; [done|]. apply Forall_forall.
    intros b [_ Hb]%elem_of_list_filter. by apply (proj1 (Forall_forall _ _) Hall).
  - unfold listing. rewrite sort_by_perm.
    transitivity (List.filter (follows (page_order page) r) (List.filter (evidence_selects columns page) l)).
    + clear -Hsel. induction l as [|x l' IH]; simpl; [done|]. rewrite resume_selects by done.
      destruct (evidence_selects columns page x); simpl; [|exact IH].
      destruct (follows (page_order page) r x); [by constructor|exact IH].
    + assert (∀ (p : R → bool) xs ys, xs ≡ₚ ys → List.filter p xs ≡ₚ List.filter p ys) as Hp.
      { intros p xs ys. induction 1; simpl; repeat case_match; eauto using Permutation. }
      apply Hp. by rewrite sort_by_perm.
Qed.
End table.
End order.

(** ** Reading every generation *)

Section walk.
Context `{J : SerdeJson}.

(** The reader the listing is made for: it asks for a page, and resumes from the
    last row's heartbeat and id until a page is empty.  [None]: out of fuel. *)
Definition resume_generations (page : EvidencePage) (g : PluginGeneration) : EvidencePage :=
  {| page_agent_id := page_agent_id page;
     page_after := Some {| changed_at_ms := pg_last_heartbeat_at_ms g; cursor_id := pg_id g |};
     page_limit := page_limit page; page_settled := page_settled page;
     page_order := page_order page |}.
Fixpoint walk_generations (fuel : nat) (page : EvidencePage) (nows : nat → nat → Z) (db : Db)
    : option (result (list PluginGeneration)) :=
  match fuel with
  | O => None
  | S fuel =>
      match list_plugin_generations page (nows fuel) db with
      | Err e => Some (Err e)
      | Ok (gs, _) =>
          match last gs with
          | None => Some (Ok [])
          | Some g => r ← walk_generations fuel (resume_generations page g) nows db;
                      Some (let? rest := r in Ok (gs ++ rest))
          end
      end
  end.
Lemma walk_step fuel page nows db gs :
  list_plugin_generations page (nows fuel) db = Ok (gs, db) →
  walk_generations (S fuel) page nows db
  = match last gs with
    | None => Some (Ok [])
    | Some g => r ← walk_generations fuel (resume_generations page g) nows db;
                Some (let? rest := r in Ok (gs ++ rest))
    end.
Proof. intros H. simpl. by rewrite H. Qed.
End walk.

Section every.
Context `{J : SerdeJson} {JL : SerdeJsonLaws J} (sha256_hex : string → string).

Lemma generation_from_row_position now g p :
  generation_from_row now g = Ok p →
  pg_id p = g_id g ∧ pg_last_heartbeat_at_ms p = g_last_heartbeat_at_ms g.
Proof.
  intros H. unfold generation_from_row in H.
  repeat match type of H with rbind ?r _ = _ => destruct r; simpl in *; [|discriminate] end.
  by injection H as <-.
Qed.
Lemma collect_map {A B K} (f : A → result B) (ka : A → K) (kb : B → K) l bs :
  (∀ a b, f a = Ok b → kb b = ka a) → collect f l = Ok bs → map kb bs = map ka l.
Proof.
  intros Hf. revert bs. induction l as [|a l IH]; intros bs H; simpl in H; m_inv; [done|].
  simpl. f_equal; [by apply Hf|by apply IH].
Qed.
Lemma collect_at_map {A B K} (f : Z → A → result B) (ka : A → K) (kb : B → K) nows l bs :
  (∀ now a b, f now a = Ok b → kb b = ka a) → collect_at f nows l = Ok bs → map kb bs = map ka l.
Proof.
  intros Hf H. unfold collect_at in H.
  apply (collect_map _ (λ p, ka p.2) kb) in H; [|by intros [k a] b ?; eapply Hf].
  rewrite H, <-(map_map snd ka). f_equal. clear. generalize 0%nat as k.
  induction l as [|a l IH]; intros k; simpl; [done|]. by rewrite IH.
Qed.

Lemma stored_generations_nodup db : reachable sha256_hex db → NoDup db.(plugin_generations).
Proof.
  intros [Hu _]%reachable_wf%wf_generations. induction (plugin_generations db) as [|g gs IH]; [constructor|].
  simpl in Hu. apply andb_true_iff in Hu as [Hg Hu]. constructor; [|by apply IH].
  intros Hin. rewrite forallb_forall in Hg. apply list_elem_of_In, Hg in Hin.
  unfold conflict_generation in Hin. by rewrite bool_decide_true in Hin.
Qed.
Lemma stored_generation_unique db a b :
  reachable sha256_hex db → a ∈ db.(plugin_generations) → b ∈ db.(plugin_generations) →
  g_id a = g_id b → a = b.
Proof.
  intros Hr%reachable_wf Ha Hb Hid. apply (unique_row db); [done..|]. simpl.
  unfold conflict_generation. by rewrite bool_decide_true.
Qed.

(** One page of the listing. *)
Lemma generation_page db page n nows :
  reachable sha256_hex db → validate_page page = Ok n →
  ∃ gs, list_plugin_generations page nows db = Ok (gs, db)
    ∧ map (λ p, (pg_last_heartbeat_at_ms p, pg_id p)) gs
      = map (λ g, (g_last_heartbeat_at_ms g, g_id g))
          (take (Z.to_nat n) (listing GENERATION_COLUMNS db.(plugin_generations) page)).
Proof using JL.
  intros Hr Hp. destruct (collect_at_total sha256_hex db Hr generation_from_row nows
    (evidence_rows GENERATION_COLUMNS page n db.(plugin_generations))) as [gs Hgs].
  { intros now g Hg%evidence_elem. by apply (stored_generation sha256_hex db Hr). }
  exists gs. split.
  - unfold list_plugin_generations, bind, lift, gets. rewrite Hp. by rewrite Hgs.
  - eapply collect_at_map in Hgs; [exact Hgs|].
    by intros now a b [-> ->]%generation_from_row_position.
Qed.

(** The page after the one a row ends. *)
Lemma resume_valid page n (r : GenerationRow) p :
  validate_page page = Ok n → 0 ≤ g_last_heartbeat_at_ms r →
  (pg_last_heartbeat_at_ms p, pg_id p) = (g_last_heartbeat_at_ms r, g_id r) →
  resume_generations page p = resume GENERATION_COLUMNS page r
  ∧ validate_page (resume GENERATION_COLUMNS page r) = Ok n.
Proof.
  intros Hp Hz [= H1 H2]. split; [unfold resume_generations, resume, cursor_of; simpl; congruence|].
  unfold validate_page in *. m_inv. simpl. by rewrite (proj2 (Z.ltb_ge _ _)).
Qed.

Section steps.
Context (db : Db) (Hr : reachable sha256_hex db).
Context (Hclock : ∀ g, g ∈ db.(plugin_generations) → 0 ≤ g_last_heartbeat_at_ms g).
Notation listed := (listing GENERATION_COLUMNS db.(plugin_generations)).

Lemma walk_reads n fuel page nows :
  1 ≤ n → validate_page page = Ok n → Z.of_nat (length (listed page)) ≤ n * Z.of_nat fuel →
  ∃ gs, walk_generations (S fuel) page nows db = Some (Ok gs) ∧ map pg_id gs = map g_id (listed page).
Proof using JL Hr Hclock.
  intros Hn. revert page. induction fuel as [|fuel IH]; intros page Hp Hle.
  - destruct (generation_page db page n (nows 0%nat) Hr Hp) as (gs & Hgs & Hmap).
    assert (listed page = []) as Hnil by (apply length_zero_iff_nil; lia).
    rewrite Hnil, take_nil in Hmap. apply map_eq_nil in Hmap as ->. exists []. rewrite (walk_step _ _ _ _ _ Hgs).
    by rewrite Hnil.
  - destruct (generation_page db page n (nows (S fuel)) Hr Hp) as (gs & Hgs & Hmap).
    assert (map pg_id gs = map g_id (take (Z.to_nat n) (listed page))) as Hids
      by (apply (f_equal (map snd)) in Hmap; by rewrite !map_map in Hmap).
    rewrite (walk_step _ _ _ _ _ Hgs).
    destruct (last gs) as [p|] eqn:Hlast.
    + assert (last (map (λ g, (g_last_heartbeat_at_ms g, g_id g)) (take (Z.to_nat n) (listed page)))
              = Some (pg_last_heartbeat_at_ms p, pg_id p)) as Hrow
        by (rewrite <-Hmap, fmap_last; by rewrite Hlast).
      rewrite fmap_last in Hrow. apply fmap_Some in Hrow as (r & Hrow & Hpos).
      assert (r ∈ db.(plugin_generations)) as Hin.
      { apply last_Some_elem_of, elem_of_take in Hrow as (k & Hk & _).
        apply list_elem_of_lookup_2 in Hk. by apply page_listing_elem in Hk as [_ ?]. }
      destruct (resume_valid page n r p Hp (Hclock r Hin) Hpos) as [-> Hp'].
      pose proof (resume_rest GENERATION_COLUMNS db.(plugin_generations)
        (stored_generations_nodup db Hr) (λ a b, stored_generation_unique db a b Hr) page _ r Hrow) as Hrest.
      destruct (IH _ Hp') as (rest & -> & Hrids); [rewrite Hrest, length_drop; lia|].
      exists (gs ++ rest). split; [done|]. rewrite map_app, Hids, Hrids, Hrest, <-map_app.
      by rewrite take_drop.
    + apply last_None in Hlast as ->. exists []. split; [done|]. simpl in Hids.
      symmetry in Hids. apply map_eq_nil in Hids. destruct (listed page); [done|].
      by destruct (Z.to_nat n) eqn:?; [lia|].
Qed.
End steps.

(** Following the cursor reads the whole listing and stops: for any valid page
    request, while the store does not change and its clock never read a time before
    1970, a reader that resumes from the last row it received ends within one page
    more than the rows need, without an error, and has received every selected
    generation exactly once, in the order of the listing. *)
Theorem walk_terminates db page n fuel nows :
  reachable sha256_hex db → (∀ g, g ∈ db.(plugin_generations) → 0 ≤ g_last_heartbeat_at_ms g) →
  validate_page page = Ok n → Z.of_nat (length db.(plugin_generations)) ≤ n * Z.of_nat fuel →
  ∃ gs, walk_generations (S fuel) page nows db = Some (Ok gs)
    ∧ NoDup (map pg_id gs)
    ∧ map pg_id gs
      = map g_id (sort_by (evidence_order GENERATION_COLUMNS (page_order page))
                    (List.filter (evidence_selects GENERATION_COLUMNS page) db.(plugin_generations))).
Proof using JL.
  intros Hr Hclock Hp Hfuel.
  set (l := listing GENERATION_COLUMNS db.(plugin_generations) page).
  assert (length l ≤ length db.(plugin_generations))%nat as Hlen.
  { unfold l, listing. rewrite sort_by_perm. apply List.filter_length_le. }
  assert (1 ≤ n) as Hn.
  { unfold validate_page in Hp. m_inv. unfold clamp, MAX_EVIDENCE_PAGE. lia. }
  destruct (walk_reads db Hr Hclock n fuel page nows Hn Hp) as (gs & Hw & Hids); [fold l; lia|].
  exists gs. split_and!; [done| |done].
  rewrite Hids. apply NoDup_fmap_2_strong.
  - intros a b [_ Ha]%page_listing_elem [_ Hb]%page_listing_elem. by eapply stored_generation_unique.
  - unfold l, listing. rewrite sort_by_perm.
    by apply NoDup_ListNoDup, List.NoDup_filter, NoDup_ListNoDup, stored_generations_nodup.
Qed.
End every.

(** ** Runs *)

(** Two generations of one agent, both stopped in the same millisecond; a collector
    reads the settled page between the two stops. *)
Definition generation_named (id : string) : NewPluginGeneration :=
  {| ng_id := id; ng_agent_id := "B"; ng_plugin_id := "plugin"; ng_plugin_name := "harness";
     ng_plugin_version := "1.0.0"; ng_interfaces := [("acp", "1.0.0")]; ng_process_id := None;
     ng_description := ng_description worker_generation; ng_compatibility_digest := "c1";
     ng_heartbeat_interval_ms := 1000 |}.
Definition orderly_stop : StopPluginGeneration :=
  {| stop_disposition := PluginGenerationDisposition.Stopped; stop_reason := "done";
     stop_shutdown_outcome := PluginShutdownOutcome.Graceful; stop_shutdown_exit_code := Some 0 |}.
Definition db_pair : Db := Eval vm_compute in
  exec (insert_plugin_generation (generation_named "Gb") 20)
    (exec (insert_plugin_generation (generation_named "Ga") 20) db_fleet).
Definition db_one_stopped : Db := Eval vm_compute in
  exec (retire_plugin_generation "Gb" orderly_stop 30) db_pair.
Definition db_both_stopped : Db := Eval vm_compute in
  exec (retire_plugin_generation "Ga" orderly_stop 30) db_one_stopped.
Definition archive_page : EvidencePage :=
  {| page_agent_id := None; page_after := None; page_limit := 1; page_settled := true;
     page_order := Oldest |}.
Definition whole_archive : EvidencePage :=
  {| page_agent_id := None; page_after := None; page_limit := 9; page_settled := true;
     page_order := Oldest |}.

Lemma reachable_pair : reachable plain_sha256 db_pair.
Proof.
  apply (run_step (insert_plugin_generation (generation_named "Gb") 20) false
           (exec (insert_plugin_generation (generation_named "Ga") 20) db_fleet));
    [intros; by eapply t_generation|by vm_compute|by vm_compute|].
  apply (run_step (insert_plugin_generation (generation_named "Ga") 20) false db_fleet);
    [intros; by eapply t_generation|by vm_compute|by vm_compute|apply reachable_fleet].
Qed.
Lemma reachable_both_stopped : reachable plain_sha256 db_both_stopped.
Proof.
  apply (run_step (retire_plugin_generation "Ga" orderly_stop 30) false db_one_stopped);
    [intros; by eapply t_stop|by vm_compute|by vm_compute|].
  apply (run_step (retire_plugin_generation "Gb" orderly_stop 30) false db_pair);
    [intros; by eapply t_stop|by vm_compute|by vm_compute|apply reachable_pair].
Qed.

Definition names (r : result (list PluginGeneration)) : list string :=
  match r with Ok gs => map pg_id gs | Err _ => [] end.

(** Two settled generations, read one per page. *)
Lemma walk_terminates_witness :
  ∃ gs, walk_generations 3 archive_page (λ _ _, 40) db_both_stopped = Some (Ok gs)
        ∧ map pg_id gs = ["Ga"; "Gb"].
Proof.
  destruct (walk_terminates plain_sha256 db_both_stopped archive_page 1 2 (λ _ _, 40)
              reachable_both_stopped) as (gs & Hw & _ & Hids).
  - apply Forall_forall. apply (bool_decide_unpack (Forall _ _)). by vm_compute.
  - done.
  - by vm_compute.
  - exists gs. split; [done|]. by rewrite Hids.
Defined.

(** A collector that resumes from the last settled row it received misses a row
    that settles later in the same millisecond under a smaller id: after it
    received Gb it asks for what comes behind, and Ga, settled since, is not there. *)
Lemma same_millisecond_missed :
  match read_at (list_plugin_generations archive_page (λ _, 40)) db_one_stopped with
  | Ok [g] => pg_id g = "Gb"
      ∧ names (read_at (list_plugin_generations (resume_generations archive_page g) (λ _, 40))
                 db_both_stopped) = []
      ∧ names (read_at (list_plugin_generations whole_archive (λ _, 40)) db_both_stopped)
        = ["Ga"; "Gb"]
  | _ => False
  end.
Proof. vm_compute. done. Qed.
