(* ===== verification/EvidenceProps.v ===== *)
(** * Properties of the read models

    No read model meets a row it cannot decode; the trace of an invocation is
    complete and coherent however its reads interleave with writers; a live
    attempt is always visible in its agent's seat; and an evidence listing is read
    exactly once by following its cursor; and what the summaries of a conversation
    count. *)

From S2P Require Import Prelude Proto Schema Channels Messages Deliveries.
From S2P Require Import SessionFence Observations Invocations Settlement Sessions.
From S2P Require Import Triggers Auth Seats Lifecycle Safety System Fence Preserve Scenario.
From S2P Require Import MessageProps SessionInv SessionProps Evidence Integrity Decoding.

Section reads.
Context `{J : SerdeJson} {JL : SerdeJsonLaws J} (sha256_hex : string → string).

(** ** Traces *)

(** The generation of an observation fits its column's width. *)
Definition generation_fits (o : ObservationRow) : Prop := o_binding_generation o ≤ i64_max.
Lemma transition_fits operator db db' :
  transition sha256_hex operator db db' →
  all_rows generation_fits db → all_rows generation_fits db'.
Proof.
  intros Ht. by_operations Ht; preserves_tac.
  all: first [apply preserves_insert_row; [done|]; unfold generation_fits, i64_try_from in *; simpl
             |apply preserves_update_row; [done|]; intros ? HP _; exact HP].
  all: m_inv; repeat case_match; bool_facts; try done.
Qed.
Lemma reachable_fits db o :
  reachable sha256_hex db → o ∈ db.(invocation_observations) → o_binding_generation o ≤ i64_max.
Proof.
  intros Hr Ho. exact (reaches_invariant sha256_hex (all_rows generation_fits) transition_fits
    empty_db db ltac:(by intros ? ?%not_elem_of_nil) Hr o Ho).
Qed.

Lemma invocation_found db id :
  reachable sha256_hex db → has_invocation db id = true →
  ∃ i inv, i ∈ db.(invocations) ∧ i_id i = id ∧ read_at (invocation_by_id id) db = Ok inv
    ∧ inv_id inv = id ∧ inv_agent_id inv = i_agent_id i
    ∧ (∀ m, inv_result_message_id inv = Some m →
         ∃ row, row ∈ db.(messages) ∧ m_id row = m).
Proof using JL.
  intros Hr Hid. apply existsb_find in Hid as (i & _ & Hi & Hid). bool_facts.
  destruct (invocation_message db i (reachable_intact sha256_hex db Hr) Hi) as (m & Hm & Hseq).
  set (res := match i_result_message_seq i with
              | Some seq => List.find (λ m, m_seq m ==? seq) db.(messages) | None => None end).
  destruct (find_elem (λ r, i_id r.1.1 ==? id) (invocations_with_messages db) (i, m, res))
    as ([[i' m'] res'] & Hf & Hin & Hid').
  { apply list_elem_of_fmap. exists (i, m). split; [done|]. apply elem_of_join.
    split_and!; [done..|]. by apply bool_decide_eq_true. }
  { by apply bool_decide_eq_true. }
  apply list_elem_of_fmap in Hin as ([i2 m2] & [= -> -> ->] & (Hi2 & Hm2 & Hon)%elem_of_join).
  bool_facts. simpl in *.
  destruct (stored_message_row sha256_hex db Hr m2 Hm2) as [message Hmsg].
  assert (invocation_from_row (i2, m2, match i_result_message_seq i2 with
    | Some seq => List.find (λ m, m_seq m ==? seq) db.(messages) | None => None end)
    = Ok {| inv_id := i_id i2; inv_agent_id := i_agent_id i2; inv_message := message;
            inv_delivery_attempt := i_delivery_attempt i2; inv_lease_token := i_lease_token i2;
            inv_lease_expires_at_ms := i_lease_expires_at_ms i2;
            inv_fence_token := i_fence_token i2; inv_state := i_state i2;
            inv_reserved_at_ms := i_reserved_at_ms i2;
            inv_dispatch_armed_at_ms := i_dispatch_armed_at_ms i2;
            inv_terminal_at_ms := i_terminal_at_ms i2;
            inv_execution_certainty := i_execution_certainty i2;
            inv_terminal_reason := i_terminal_reason i2;
            inv_result_message_id := m_id <$> match i_result_message_seq i2 with
              | Some seq => List.find (λ m, m_seq m ==? seq) db.(messages) | None => None end |}) as Hrow.
  { unfold invocation_from_row. by rewrite Hmsg. }
  eexists i2, _. split_and!; [done..| | | |].
  - unfold read_at, invocation_by_id, bind, gets. rewrite Hf. unfold lift. rewrite Hrow. done.
  - done.
  - done.
  - simpl. intros mid Hmid. apply fmap_Some in Hmid as (row & Hrow' & ->).
    destruct (i_result_message_seq i2); [|done]. apply find_some in Hrow' as [Hin _].
    exists row. by rewrite list_elem_of_In.
Qed.

Lemma read_observation db id :
  reachable sha256_hex db →
  ∃ o, read_at (invocation_observation id) db = Ok o
    ∧ ∀ io, o = Some io →
        io_invocation_id io = id ∧ 0 < io_binding_generation io ≤ i64_max
        ∧ has_binding db (io_binding_id io) (io_binding_generation io) = true
        ∧ has_generation db (io_generation_id io) = true
        ∧ ∃ i, i ∈ db.(invocations) ∧ i_id i = id ∧ io_agent_id io = i_agent_id i.
Proof using JL.
  intros Hr. unfold read_at, invocation_observation, bind, gets.
  destruct (List.find _ _) as [r|] eqn:Hf; [|by exists None].
  apply find_some in Hf as [Hin Hid]. apply list_elem_of_In in Hin. bool_facts.
  apply observed_row_elem in Hin as (Ho & Hi & _ & Hoi & _).
  destruct (stored_observation sha256_hex db Hr r Ho) as [io Hio]. unfold lift. rewrite Hio.
  exists (Some io). split; [done|]. intros ? [= <-].
  pose proof (in_observations _ (reachable_intact sha256_hex db Hr) _ Ho) as Hfk. simpl in Hfk.
  unfold fk_observation in Hfk. pose proof (reachable_fits db _ Hr Ho) as Hfit.
  destruct r as [[[o i] source] res]. simpl in *. unfold observation_from_row in Hio.
  unfold to_u64 in Hio. m_inv. bool_facts. simpl in *.
  pose proof (checked_row _ o (reachable_wf _ _ Hr) Ho) as Hc. simpl in Hc.
  apply check_observation_bounds in Hc as (Hg & _). subst.
  split_and!; try done; try lia. exists i. by split_and!.
Qed.

Lemma read_session db id g :
  reachable sha256_hex db → has_binding db id g = true → 0 < g ≤ i64_max →
  ∃ s, read_at (get_session_binding id g) db = Ok s
    ∧ binding_id (sb_binding s) = id ∧ binding_generation (sb_binding s) = g.
Proof using JL.
  intros Hr (s & Hf & Hs & Hid)%existsb_find Hg. bool_facts.
  destruct (stored_binding sha256_hex db Hr s Hs) as [sb Hsb]. exists sb.
  pose proof (binding_from_row_ok _ _ Hsb) as (_ & _ & _ & _ & _ & _ & -> & _). simpl.
  split_and!; [|done..]. unfold read_at, get_session_binding, bind, lift, as_i64, i64_try_from, refuse.
  rewrite bool_decide_false by lia. simpl. rewrite (proj2 (Z.leb_le _ _)) by lia. simpl.
  unfold fetch_optional, gets. simpl. rewrite Hf. simpl. by rewrite Hsb.
Qed.
Lemma read_generation db id now :
  reachable sha256_hex db → has_generation db id = true →
  ∃ g, read_at (plugin_generation id now) db = Ok g ∧ pg_id g = id.
Proof using JL.
  intros Hr (g & Hf & Hg & Hid)%existsb_find. bool_facts.
  destruct (stored_generation sha256_hex db Hr g now Hg) as [pg Hpg]. exists pg. split.
  - unfold read_at, plugin_generation, bind, lift, fetch_optional, gets. simpl. rewrite Hf. simpl.
    by rewrite Hpg.
  - unfold generation_from_row in Hpg.
    repeat match type of Hpg with rbind ?r _ = _ => destruct r; simpl in *; [|discriminate] end.
    injection Hpg as <-. done.
Qed.
Lemma read_message db row :
  reachable sha256_hex db → row ∈ db.(messages) →
  ∃ m, read_at (get_message (m_id row)) db = Ok m ∧ msg_id m = m_id row.
Proof using JL.
  intros Hr Hm. destruct (find_elem (λ m, m_id m ==? m_id row) _ _ Hm) as (m & Hf & Hin & Hid);
    [by apply bool_decide_eq_true|]. bool_facts.
  destruct (stored_message_row sha256_hex db Hr m Hin) as [msg Hmsg]. exists msg.
  apply message_from_row_ok in Hmsg as Hfields. destruct Hfields as (_ & -> & _). split; [|done].
  unfold read_at, get_message, bind, lift, fetch_optional, gets. simpl. rewrite Hf. simpl.
  by rewrite Hmsg.
Qed.

(** An attempt keeps its agent. *)
Lemma invocation_agent_kept operator (i i' : InvocationRow) :
  moves operator i i' → i_id i' = i_id i ∧ i_agent_id i' = i_agent_id i.
Proof.
  induction 1 as [|i i1 i2 Hs _ IH]; [done|]. destruct IH as [-> ->]. by destruct Hs.
Qed.
Lemma agent_kept db db' i i' :
  wf db → reaches sha256_hex db db' → i ∈ db.(invocations) → i' ∈ db'.(invocations) →
  i_id i' = i_id i → i_agent_id i' = i_agent_id i.
Proof.
  intros Hwf Hrun Hi Hi' Hid. destruct (reaches_safe _ _ _ Hwf Hrun) as [Hwf' He].
  destruct (table_rel_elem _ _ _ _ (ev_invocations _ _ _ He) Hi) as (i2 & Hi2 & Hm).
  apply invocation_agent_kept in Hm as [Hid2 <-]. f_equal.
  eapply invocation_id_unique; [exact Hwf'|done..|]. congruence.
Qed.

(** The trace of an invocation is complete and coherent: it is read in five
    separate reads, and whatever other operations run between them it succeeds for
    every stored invocation; an observation names the agent of the invocation and
    the session and generation beside it; and the result is the message the
    invocation names. *)
Theorem trace_complete id dbs now :
  reachable sha256_hex (dbs 0%nat) → (∀ k, reaches sha256_hex (dbs k) (dbs (S k))) →
  has_invocation (dbs 0%nat) id = true →
  ∃ t, invocation_trace id dbs now = Ok t
    ∧ inv_id (trace_invocation t) = id
    ∧ (∀ o, trace_observation t = Some o →
         io_invocation_id o = id ∧ io_agent_id o = inv_agent_id (trace_invocation t)
         ∧ ∃ s g, trace_session t = Some s ∧ trace_plugin_generation t = Some g
             ∧ binding_id (sb_binding s) = io_binding_id o
             ∧ binding_generation (sb_binding s) = io_binding_generation o
             ∧ pg_id g = io_generation_id o)
    ∧ msg_id <$> trace_result t = inv_result_message_id (trace_invocation t).
Proof using JL.
  intros Hr Hstep Hid.
  assert (∀ k n, reaches sha256_hex (dbs k) (dbs (k + n)%nat)) as Hrun.
  { intros k n. induction n as [|n IH]; [rewrite Nat.add_0_r; reflexivity|].
    rewrite Nat.add_succ_r. etransitivity; [exact IH|apply Hstep]. }
  assert (∀ k, reachable sha256_hex (dbs k)) as Hreach.
  { intros k. eapply reachable_run; [exact Hr|]. apply (Hrun 0%nat k). }
  destruct (invocation_found _ id Hr Hid) as (i & inv & Hi & Hii & Hinv & Hinvid & Hag & Hres).
  destruct (read_observation (dbs 1%nat) id (Hreach _)) as (o & Ho & Hobs).
  assert (∃ ev, match o with
    | Some o => let? session := read_at (get_session_binding (io_binding_id o)
                    (io_binding_generation o)) (dbs 2%nat) in
                let? generation := read_at (plugin_generation (io_generation_id o) now) (dbs 3%nat) in
                Ok (Some session, Some generation)
    | None => Ok (None, None) end = Ok ev
    ∧ ∀ io, o = Some io → ∃ s g, ev = (Some s, Some g)
        ∧ binding_id (sb_binding s) = io_binding_id io
        ∧ binding_generation (sb_binding s) = io_binding_generation io
        ∧ pg_id g = io_generation_id io) as (ev & Hev & Hevo).
  { destruct o as [io|]; [|by exists (None, None)].
    destruct (Hobs io eq_refl) as (_ & Hg & Hb & Hgen & _).
    destruct (read_session (dbs 2%nat) _ _ (Hreach _)
      (kk_binding _ _ (reaches_keys sha256_hex _ _ (Hrun 1%nat 1%nat)) _ _ Hb) Hg) as (s & Hs & Hs1 & Hs2).
    destruct (read_generation (dbs 3%nat) _ now (Hreach _)
      (kk_generation _ _ (reaches_keys sha256_hex _ _ (Hrun 1%nat 2%nat)) _ Hgen)) as (g & Hg' & Hgid).
    exists (Some s, Some g). rewrite Hs. simpl. rewrite Hg'. split; [done|].
    intros ? [= <-]. by exists s, g. }
  assert (∃ res, match inv_result_message_id inv with
    | Some mid => let? m := read_at (get_message mid) (dbs 4%nat) in Ok (Some m)
    | None => Ok None end = Ok res ∧ msg_id <$> res = inv_result_message_id inv) as (res & Hre & Hmid).
  { destruct (inv_result_message_id inv) as [mid|]; [|by exists None].
    destruct (Hres mid eq_refl) as (row & Hrow & <-).
    destruct (reaches_messages sha256_hex _ _ (reachable_wf _ _ Hr) (Hrun 0%nat 4%nat)) as [added Hadd].
    destruct (read_message (dbs 4%nat) row (Hreach _)) as (m & Hm & Hmid).
    { simpl in Hadd. rewrite Hadd. set_solver. }
    exists (Some m). rewrite Hm. simpl. by rewrite Hmid. }
  eexists. split_and!.
  - unfold invocation_trace. rewrite Hinv. simpl. rewrite Ho. simpl. rewrite Hev. simpl.
    rewrite Hre. simpl. reflexivity.
  - done.
  - simpl. intros io ->. destruct (Hobs io eq_refl) as (Hio & _ & _ & _ & i' & Hi' & Hid' & Ha).
    destruct (Hevo io eq_refl) as (s & g & -> & ?). simpl. split_and!; [done| |by exists s, g].
    rewrite Ha, Hag. eapply agent_kept; [by eapply reachable_wf|exact (Hstep 0%nat)|done..|congruence].
  - done.
Qed.

(** ** Seats *)

Lemma elem_of_left_matches {A} (on : A → bool) l x :
  x ∈ left_matches on l →
  match x with Some a => a ∈ l ∧ on a = true | None => ∀ a, a ∈ l → on a = false end.
Proof.
  unfold left_matches. destruct (List.filter on l) as [|b bs] eqn:Hf.
  - intros ->%list_elem_of_singleton a Ha. apply not_true_is_false. intros Hon.
    eapply not_elem_of_nil. rewrite <-Hf. by apply elem_of_list_filter.
  - rewrite <-Hf. intros (a & -> & Ha)%list_elem_of_fmap. apply elem_of_list_filter in Ha. tauto.
Qed.
Lemma left_matches_some {A} (on : A → bool) l : ∃ x, x ∈ left_matches on l.
Proof. unfold left_matches. destruct (List.filter on l); eexists; left. Qed.
Lemma left_join_key_some {A K} `{EqDecision K} (key : A → K) k l : ∃ x, x ∈ left_join_key key k l.
Proof. destruct k; [apply left_matches_some|by exists None; left]. Qed.
Lemma elem_of_flat_map {A B} (f : A → list B) l b : b ∈ flat_map f l ↔ ∃ a, a ∈ l ∧ b ∈ f a.
Proof.
  rewrite list_elem_of_In, in_flat_map. split; intros (a & Ha & Hb); exists a;
    [by rewrite !list_elem_of_In|by rewrite <-!list_elem_of_In].
Qed.

(** The invocation a seat names. *)
Definition seat_invocation_key (db : Db) (agent_id : string) : option string :=
  or_else (current_seat_binding db agent_id ≫= s_active_invocation_id)
    (i_id <$> live_seat_invocation db agent_id).

Lemma seat_row_elem db a r :
  r ∈ seat_rows_of db a →
  se_agent r = a ∧ se_binding r = current_seat_binding db (a_id a)
  ∧ se_invocation r ∈ left_join_key i_id (seat_invocation_key db (a_id a)) db.(invocations)
  ∧ (∀ g, se_generation r = Some g → g ∈ db.(plugin_generations)).
Proof.
  unfold seat_rows_of. rewrite elem_of_flat_map. intros (i & Hi & Hr).
  apply elem_of_flat_map in Hr as (o & _ & Hr). apply elem_of_flat_map in Hr as (g & Hg & Hr).
  apply elem_of_flat_map in Hr as (src & _ & Hr). apply elem_of_flat_map in Hr as (d & _ & Hr).
  apply list_elem_of_fmap in Hr as (b & -> & _). simpl. split_and!; [done..|].
  intros g' ->. unfold left_join_key in Hg. case_match; [by apply elem_of_left_matches in Hg as [? _]|].
  by apply list_elem_of_singleton in Hg.
Qed.
Lemma seat_rows_some db a : ∃ r, r ∈ seat_rows_of db a.
Proof.
  unfold seat_rows_of. setoid_rewrite elem_of_flat_map.
  destruct (left_join_key_some i_id (seat_invocation_key db (a_id a)) db.(invocations)) as [i Hi].
  destruct (left_join_key_some o_invocation_id (i_id <$> i) db.(invocation_observations)) as [o Ho].
  destruct (left_join_key_some g_id (or_else (o_generation_id <$> o)
    (g_id <$> latest_seat_generation db (a_id a))) db.(plugin_generations)) as [g Hg].
  destruct (left_join_key_some m_seq (i_message_seq <$> i) db.(messages)) as [src Hsrc].
  assert (∃ d, d ∈ match i with
    | Some i => left_matches (λ d, (d_message_seq d ==? i_message_seq i)
                                   && (d_agent_id d ==? i_agent_id i)) db.(agent_deliveries)
    | None => [None] end) as [d Hd]
    by (destruct i; [apply left_matches_some|by exists None; left]).
  assert (∃ b, b ∈ match d with
    | Some d => left_matches (λ b, (b_message_seq b ==? d_message_seq d)
                                   && (b_agent_id b ==? d_agent_id d)
                                   && is_none (b_resolved_at_ms b)) db.(delivery_blocks)
    | None => [None] end) as [b Hb]
    by (destruct d; [apply left_matches_some|by exists None; left]).
  eexists; exists i; split; [exact Hi|]. setoid_rewrite elem_of_flat_map. exists o; split; [exact Ho|].
  setoid_rewrite elem_of_flat_map. exists g; split; [exact Hg|].
  setoid_rewrite elem_of_flat_map. exists src; split; [exact Hsrc|].
  setoid_rewrite elem_of_flat_map. exists d; split; [exact Hd|].
  apply list_elem_of_fmap. exists b; split; [reflexivity|exact Hb].
Qed.

Lemma current_seat_binding_elem db a s :
  current_seat_binding db a = Some s → s ∈ db.(session_bindings) ∧ s_agent_id s = a.
Proof.
  intros [Hp H]%head_Some_elem_of%elem_of_sort_by%elem_of_list_filter. by bool_facts.
Qed.
Lemma live_seat_invocation_elem db a i :
  live_seat_invocation db a = Some i →
  i ∈ db.(invocations) ∧ i_agent_id i = a ∧ i_state i ≠ InvocationState.Terminal.
Proof.
  intros [Hp H]%head_Some_elem_of%elem_of_sort_by%elem_of_list_filter. by bool_facts.
Qed.

Lemma idle_binding_free s :
  check_binding s = true → s_state s ≠ SessionBindingState.Active →
  s_state s ≠ SessionBindingState.Uncertain → s_active_invocation_id s = None.
Proof.
  unfold check_binding. intros Hc Ha Hu. destruct (s_state s); try done; bool_facts;
    by destruct (s_active_invocation_id s).
Qed.

(** The attempt of a seat whose agent has a live one and no uncertain lane in front. *)
Lemma seat_attempt db a r i :
  reachable sha256_hex db → i ∈ db.(invocations) → i_agent_id i = a_id a →
  i_state i ≠ InvocationState.Terminal → r ∈ seat_rows_of db a →
  s_state <$> se_binding r = Some SessionBindingState.Uncertain
  ∨ ∃ i', se_invocation r = Some i' ∧ i_state i' ≠ InvocationState.Terminal.
Proof.
  intros Hr Hi Ha Hlive Hrow. destruct (seat_row_elem _ _ _ Hrow) as (_ & Hb & Hinv & _).
  assert (∀ x i', i' ∈ db.(invocations) → i_id i' = x → i_state i' ≠ InvocationState.Terminal →
            seat_invocation_key db (a_id a) = Some x →
            ∃ i', se_invocation r = Some i' ∧ i_state i' ≠ InvocationState.Terminal) as Hfound.
  { intros x i' Hi' Hid Hst Hkey. rewrite Hkey in Hinv. simpl in Hinv.
    apply elem_of_left_matches in Hinv. destruct (se_invocation r) as [i2|].
    - destruct Hinv as [Hi2 Hon]. bool_facts. exists i2. split; [done|].
      by rewrite (invocation_id_unique db i2 i' (reachable_wf _ _ Hr) Hi2 Hi') by congruence.
    - specialize (Hinv i' Hi'). simpl in Hinv. bool_facts. congruence. }
  unfold seat_invocation_key in Hfound. rewrite Hb.
  assert (∃ i', live_seat_invocation db (a_id a) = Some i') as [i2 Hi2].
  { unfold live_seat_invocation. apply head_is_Some. intros Hnil.
    eapply not_elem_of_nil. rewrite <-Hnil. apply elem_of_sort_by, elem_of_list_filter.
    split; [|exact Hi]. rewrite Ha. by rewrite bool_decide_true, bool_decide_false. }
  destruct (live_seat_invocation_elem _ _ _ Hi2) as (Hin2 & _ & Hst2).
  rewrite Hi2 in Hfound.
  destruct (current_seat_binding db (a_id a)) as [s|] eqn:Hs; simpl in *.
  - apply current_seat_binding_elem in Hs as [Hs _].
    pose proof (checked_row _ s (reachable_wf _ _ Hr) Hs) as Hc. simpl in Hc.
    destruct (decide (s_state s = SessionBindingState.Uncertain)) as [Hu|Hu];
      [by left; rewrite Hu|right].
    destruct (decide (s_state s = SessionBindingState.Active)) as [Hst|Hst].
    + destruct (ag_active_binding _ _ (reachable_agrees sha256_hex db Hr) s Hs Hst)
        as (t & Ht & Hts & _ & _ & Hact & _).
      destruct (reachable_armed_turns sha256_hex db Hr t Ht Hts ltac:(done)) as (i' & Hi' & Hid & Harm).
      eapply Hfound; [exact Hi'|exact Hid|unfold armed in Harm; by rewrite Harm|by rewrite Hact].
    + rewrite idle_binding_free in Hfound by done. simpl in Hfound. by eapply (Hfound _ i2).
  - right. by eapply (Hfound _ i2).
Qed.

Lemma seat_rows_elem agent_id db r :
  r ∈ seat_rows agent_id db → ∃ a, a ∈ db.(agents) ∧ r ∈ seat_rows_of db a
    ∧ match agent_id with Some id => a_id a = id | None => True end.
Proof.
  intros (a & Ha & Hr)%limit_subseteq%elem_of_sort_by%elem_of_flat_map.
  apply elem_of_list_filter in Ha as [Hp Ha]. exists a. split_and!; [done..|].
  destruct agent_id; [by bool_facts|done].
Qed.
(** The decoded row and the status it reports. *)
Lemma agent_seat_decodes db now health_now r :
  reachable sha256_hex db → (∃ a, a ∈ db.(agents) ∧ r ∈ seat_rows_of db a) →
  ∃ health seat, agent_seat_from_row now health_now r = Ok seat
    ∧ seat_agent_id seat = a_id (se_agent r)
    ∧ (seat_status seat, seat_reason seat)
      = seat_state (s_state <$> se_binding r) (i_state <$> se_invocation r) health
          (seat_lease_is_expired now r).
Proof.
  intros Hr (a & _ & Hrow). destruct (seat_row_elem _ _ _ Hrow) as (_ & Hb & _ & Hg).
  assert (∃ health, generation_health_from_seat_row health_now r = Ok health) as [health Hh].
  { unfold generation_health_from_seat_row. destruct (se_generation r) as [g|]; [|eauto].
    pose proof (checked_row _ g (reachable_wf _ _ Hr) (Hg g eq_refl)) as Hc. simpl in Hc.
    unfold check_generation in Hc. bool_facts. unfold to_u64, guard.
    rewrite (proj2 (Z.leb_le _ _)) by lia. simpl. eauto. }
  assert (∀ f label, (∀ s, s ∈ db.(session_bindings) → 0 < f s) →
    optional_u64 (f <$> se_binding r) label = Ok (f <$> se_binding r)) as Hu.
  { intros f label Hf. rewrite Hb. destruct (current_seat_binding db (a_id a)) as [s|] eqn:Hs; [|done].
    apply current_seat_binding_elem in Hs as [Hs _]. simpl. unfold to_u64, guard.
    specialize (Hf s Hs). by rewrite (proj2 (Z.leb_le _ _)) by lia. }
  assert (∀ s, s ∈ db.(session_bindings) → 0 < s_binding_generation s ∧ 0 < s_owner_epoch s) as Hpos.
  { intros s Hs. pose proof (checked_row _ s (reachable_wf _ _ Hr) Hs) as Hc. simpl in Hc.
    unfold check_binding in Hc. by bool_facts. }
  exists health. unfold agent_seat_from_row. rewrite Hh. simpl.
  destruct (seat_state _ _ _ _) as [status reason]. rewrite !Hu; [|apply Hpos..]. simpl.
  eexists. split; [reflexivity|]. done.
Qed.

Lemma list_agent_seats_answers db agent_id now nows :
  reachable sha256_hex db → ∃ seats, list_agent_seats agent_id now nows db = Ok (seats, db)
    ∧ collect_at (agent_seat_from_row now) nows (seat_rows agent_id db) = Ok seats.
Proof using JL.
  intros Hr. destruct (collect_at_total sha256_hex db Hr (agent_seat_from_row now) nows
    (seat_rows agent_id db)) as [seats Hs].
  { intros n r (a & Ha & Hrow & _)%seat_rows_elem.
    destruct (agent_seat_decodes db now n r Hr) as (_ & seat & Hseat & _); eauto. }
  exists seats. unfold list_agent_seats, bind, gets, lift. by rewrite Hs.
Qed.

(** A live attempt is visible: while an agent has an attempt that is not
    terminal, its seat is read without error, and says that it works, that it was
    interrupted or that it needs recovery - never that it is idle, offline or
    unmanaged. *)
Theorem live_attempt_visible db i now nows :
  reachable sha256_hex db → i ∈ db.(invocations) → i_state i ≠ InvocationState.Terminal →
  ∃ seats, list_agent_seats (Some (i_agent_id i)) now nows db = Ok (seats, db)
    ∧ seats ≠ []
    ∧ ∀ seat, seat ∈ seats → seat_agent_id seat = i_agent_id i
        ∧ (seat_status seat = Working ∨ seat_status seat = Interrupted
           ∨ seat_status seat = RecoveryRequired).
Proof using JL.
  intros Hr Hi Hlive. destruct (list_agent_seats_answers db (Some (i_agent_id i)) now nows Hr)
    as (seats & Hlist & Hcol). exists seats. split; [done|]. split.
  - intros ->. assert (seat_rows (Some (i_agent_id i)) db = []) as Hnil.
    { unfold collect_at in Hcol. apply length_zero_iff_nil.
      rewrite <-(length_seq 0 (length (seat_rows (Some (i_agent_id i)) db))).
      destruct (seat_rows (Some (i_agent_id i)) db); [done|]. simpl in Hcol. by m_inv. }
    destruct (invocation_agent db i (reachable_intact sha256_hex db Hr) Hi) as (a & Ha & Haid).
    destruct (seat_rows_some db a) as [r Hrow]. unfold seat_rows, limit in Hnil.
    assert (r ∈ flat_map (seat_rows_of db)
              (List.filter (λ a, a_id a ==? i_agent_id i) db.(agents))) as Hel.
    { apply elem_of_flat_map. exists a. split; [|done]. apply elem_of_list_filter.
      by rewrite bool_decide_true. }
    match type of Hnil with take _ (sort_by ?leb _) = _ =>
      apply (elem_of_sort_by leb) in Hel; destruct (sort_by leb _) end; [|done].
    by apply not_elem_of_nil in Hel.
  - intros seat Hseat. destruct (collect_elem _ _ _ _ Hcol Hseat) as ([k r] & Hin & Hrow).
    apply list_elem_of_In, in_combine_r, list_elem_of_In, seat_rows_elem in Hin as (a & Ha & Hr' & Haid).
    destruct (agent_seat_decodes db now (nows k) r Hr) as (health & seat' & Hdec & Hagent & Hst); [eauto|].
    simpl in Hrow. rewrite Hdec in Hrow. injection Hrow as <-.
    destruct (seat_row_elem _ _ _ Hr') as (Hra & _). split; [congruence|].
    destruct (seat_attempt db a r i Hr Hi (eq_sym Haid) Hlive Hr') as [Hunc|(i' & Hinv & Hst')].
    + rewrite Hunc in Hst. simpl in Hst. injection Hst as -> _. tauto.
    + rewrite Hinv in Hst. simpl in Hst. unfold seat_state in Hst.
      destruct (i_state i'); [| |done]; repeat case_match; simplify_eq; tauto.
Qed.

(** ** Every read model *)


(** ** Health *)

Lemma answers_read {A} db (m : M A) : answers db m → ∃ a, read_at m db = Ok a.
Proof. intros [a Ha]. exists a. unfold read_at. by rewrite Ha. Qed.

(** The newest row of every key, in order: [newest_per] keeps the first. *)
Lemma newest_per_from_spec {T} (key : T → string) seen rows :
  NoDup (map key (newest_per_from key seen rows))
  ∧ (∀ k, k ∈ map key (newest_per_from key seen rows) ↔ k ∈ map key rows ∧ k ∉ seen)
  ∧ newest_per_from key seen rows `sublist_of` rows.
Proof.
  revert seen. induction rows as [|r rows IH]; intros seen; simpl;
    [split_and!; [constructor|set_solver|done]|].
  case_bool_decide as Hs.
  - destruct (IH seen) as (? & Hk & ?). split_and!; [done| |by apply sublist_cons].
    intros k. rewrite Hk. set_solver.
  - destruct (IH (key r :: seen)) as (Hnd & Hk & ?). simpl. split_and!.
    + apply NoDup_cons. split; [|done]. rewrite Hk. set_solver.
    + intros k. rewrite !elem_of_cons, Hk, not_elem_of_cons.
      destruct (decide (k = key r)) as [->|]; set_solver.
    + by apply sublist_skip.
Qed.

(** The buckets of a census add up to what it inspected. *)
Lemma census_buckets records :
  let c := census records in
  census_inspected c = length records
  ∧ (census_pending c + census_leased c + census_blocked c + census_acknowledged c
     + census_dead c = census_inspected c)%nat
  ∧ (census_expired_leases c ≤ census_leased c)%nat.
Proof.
  enough (∀ c, let c' := fold_left census_record records c in
    census_inspected c' = census_inspected c
    ∧ (census_pending c' + census_leased c' + census_blocked c' + census_acknowledged c'
       + census_dead c' = census_pending c + census_leased c + census_blocked c
       + census_acknowledged c + census_dead c + length records)%nat
    ∧ (census_expired_leases c' + census_leased c ≤ census_leased c' + census_expired_leases c)%nat)
    as H.
  { destruct (H (empty_census (length records))) as (? & ? & ?). simpl in *. unfold census. lia. }
  induction records as [|r rs IH]; intros c; simpl; [lia|].
  destruct (IH (census_record c r)) as (-> & -> & He). revert He.
  generalize (census_expired_leases (fold_left census_record rs (census_record c r))).
  generalize (census_leased (fold_left census_record rs (census_record c r))).
  intros x y. destruct c; unfold census_record; destruct (dr_state r); simpl;
    try destruct (dr_lease_expired r); lia.
Qed.

(** Messages are told apart by their sequence number, so an invocation joins one. *)
Lemma messages_on_seq db seq :
  wf db → (length (List.filter (λ m, m_seq m ==? seq) db.(messages)) ≤ 1)%nat.
Proof.
  intros Hwf. destruct (wf_messages db Hwf) as [Hu _]. revert Hu.
  clear Hwf. induction db.(messages) as [|m ms IH]; simpl; [lia|]. intros Hu.
  apply andb_true_iff in Hu as [Hm Hu]. specialize (IH Hu).
  case_bool_decide as Hs; [|done]. simpl.
  destruct (List.filter _ ms) as [|m' ?] eqn:Hf; [simpl; lia|]. exfalso.
  assert (m' ∈ List.filter (λ m, m_seq m ==? seq) ms) as [Hs' Hin]%elem_of_list_filter
    by (rewrite Hf; left). bool_facts.
  rewrite forallb_forall in Hm. apply list_elem_of_In, Hm in Hin. unfold conflict_message in Hin.
  by rewrite (bool_decide_true (m_seq m = m_seq m')) in Hin by congruence.
Qed.
Lemma invocations_with_messages_length db :
  wf db → (length (invocations_with_messages db) ≤ length db.(invocations))%nat.
Proof.
  intros Hwf. unfold invocations_with_messages, join. rewrite length_map.
  induction (invocations db) as [|i l IH]; simpl; [lia|].
  rewrite length_app, length_map.
  pose proof (messages_on_seq db (i_message_seq i) Hwf). lia.
Qed.

(** While at most 500 attempts are stored, the listing shows every one of its agent. *)
Lemma list_invocations_complete db agent_id invs i :
  reachable sha256_hex db → (length db.(invocations) ≤ 500)%nat →
  list_invocations agent_id db = Ok (invs, db) → i ∈ db.(invocations) →
  match agent_id with Some a => i_agent_id i = a | None => True end →
  ∃ inv, inv ∈ invs ∧ inv_id inv = i_id i ∧ inv_state inv = i_state i.
Proof.
  intros Hr Hlen Hl Hi Ha.
  destruct (invocation_message db i (reachable_intact sha256_hex db Hr) Hi) as (m & Hm & Hseq).
  pose proof (invocations_with_messages_length db (reachable_wf _ _ Hr)) as Hjoin.
  unfold list_invocations in Hl. m_inv.
  edestruct (collect_in invocation_from_row) as (inv & Hrow & Hin); [eassumption| |].
  - unfold limit. rewrite take_ge.
    + apply elem_of_sort_by, elem_of_list_filter. split; last first.
      * apply list_elem_of_fmap. exists (i, m). split; [reflexivity|]. apply elem_of_join.
        split_and!; [done..|]. by apply bool_decide_eq_true.
      * destruct agent_id; [by apply bool_decide_eq_true|done].
    + rewrite sort_by_perm. etrans; [apply List.filter_length_le|].
      lia.
  - exists inv. split; [done|]. simpl in Hrow. m_inv. done.
Qed.

(** The health report answers: whatever operations run between its reads, it
    succeeds, with at most one current generation per agent and one current row per
    session lane, a census whose buckets add up to the rows it lists, and, while at
    most 500 attempts are stored, every attempt still owed an outcome and no other. *)
Theorem fleet_health_complete agent_id delivery_limit dbs nows now :
  (∀ k, reachable sha256_hex (dbs k)) → 0 < delivery_limit ≤ 500 →
  ∃ h, fleet_health agent_id delivery_limit dbs nows now = Ok h
    ∧ NoDup (map pg_agent_id (health_plugin_generations h))
    ∧ NoDup (map (λ s, binding_id (sb_binding s)) (health_session_bindings h))
    ∧ (let c := health_deliveries h in
       census_inspected c = length (health_delivery_records h)
       ∧ census_pending c + census_leased c + census_blocked c + census_acknowledged c
         + census_dead c = census_inspected c
       ∧ census_expired_leases c ≤ census_leased c)%nat
    ∧ (∀ inv, inv ∈ health_active_invocations h → inv_state inv ≠ InvocationState.Terminal)
    ∧ ((length (dbs 2).(invocations) ≤ 500)%nat →
       ∀ i, i ∈ (dbs 2%nat).(invocations) → i_state i ≠ InvocationState.Terminal →
         match agent_id with Some a => i_agent_id i = a | None => True end →
         ∃ inv, inv ∈ health_active_invocations h ∧ inv_id inv = i_id i).
Proof using JL.
  intros Hr Hlimit.
  destruct (answers_read _ _ (list_plugin_generations_answers sha256_hex _ (Hr 0%nat)
    (newest_page agent_id) 500 nows eq_refl)) as [gens Hgens].
  destruct (answers_read _ _ (list_session_bindings_answers sha256_hex _ (Hr 1%nat) agent_id))
    as [sessions Hsessions].
  destruct (list_invocations_answers sha256_hex _ (Hr 2%nat) agent_id) as [invs Hinvs].
  destruct (answers_read _ _ (list_deliveries_answers sha256_hex _ (Hr 3%nat) agent_id None
    delivery_limit now Hlimit)) as [records Hrecords].
  eexists. unfold fleet_health. rewrite Hgens. simpl. rewrite Hsessions. simpl.
  unfold read_at at 1. rewrite Hinvs. simpl. rewrite Hrecords. simpl.
  split_and!; [reflexivity| | | | | | |]; simpl;
    [apply newest_per_from_spec..|apply census_buckets|apply census_buckets|apply census_buckets| |].
  - intros inv [Hst _]%elem_of_list_filter. by bool_facts.
  - intros Hlen i Hi Hst Ha.
    destruct (list_invocations_complete _ _ _ _ (Hr 2%nat) Hlen Hinvs Hi Ha) as (inv & Hin & Hid & Hs).
    exists inv. split; [|done]. apply elem_of_list_filter. split; [|done].
    unfold negb. by rewrite bool_decide_false by congruence.
Qed.
End reads.

(** ** Runs *)

(** Recovery runs between the first read of a trace and the others. *)
Lemma recovery_step : reaches plain_sha256 db_bound db_uncertain.
Proof. apply (run_once op_recover false); [intros; by eapply t_recover|done|done]. Qed.
Definition dbs_recovering (k : nat) : Db := match k with 0%nat => db_bound | _ => db_uncertain end.
Lemma recovering_steps k : reaches plain_sha256 (dbs_recovering k) (dbs_recovering (S k)).
Proof.
  destruct k as [|k]; [apply recovery_step|reflexivity].
Qed.
Lemma trace_complete_witness :
  ∃ t, invocation_trace "U0" dbs_recovering 5000 = Ok t ∧ inv_id (trace_invocation t) = "U0".
Proof.
  destruct (trace_complete plain_sha256 "U0" dbs_recovering 5000) as (t & Ht & Hid & _);
    [apply reachable_bound|apply recovering_steps|by vm_compute|by exists t].
Defined.

(** The seat of an agent whose worker runs a bound attempt. *)
Lemma live_attempt_visible_witness :
  ∃ i seats, i ∈ db_bound.(invocations) ∧ i_state i = InvocationState.DispatchArmed
    ∧ list_agent_seats (Some (i_agent_id i)) 21 (λ _, 21) db_bound = Ok (seats, db_bound)
    ∧ seats ≠ [].
Proof.
  destruct db_bound.(invocations) as [|i l] eqn:Hi; [by vm_compute in Hi|].
  assert (i ∈ db_bound.(invocations)) as Hin by (rewrite Hi; left).
  assert (i_state i = InvocationState.DispatchArmed) as Hst
    by (vm_compute in Hi; injection Hi as <- _; reflexivity).
  destruct (live_attempt_visible plain_sha256 db_bound i 21 (λ _, 21)) as (seats & Hs & Hne & _);
    [apply reachable_bound|done|by rewrite Hst|].
  exists i, seats. rewrite <-Hi. by split_and!.
Defined.


(** The attempt that recovery parked is no longer owed an outcome. *)
Lemma fleet_health_complete_witness :
  ∃ h, fleet_health (Some "B") 10 (λ _, db_bound) (λ _, 21) 21 = Ok h
    ∧ ∃ inv, inv ∈ health_active_invocations h ∧ inv_id inv = "U0".
Proof.
  destruct (fleet_health_complete plain_sha256 (Some "B") 10 (λ _, db_bound) (λ _, 21) 21)
    as (h & Hh & _ & _ & _ & _ & Hall); [intros; apply reachable_bound|lia|].
  exists h. split; [done|].
  destruct db_bound.(invocations) as [|i l] eqn:Hi; [by vm_compute in Hi|].
  assert (i_id i = "U0" ∧ i_agent_id i = "B" ∧ i_state i = InvocationState.DispatchArmed ∧ l = [])
    as (Hid & Hag & Hst & ->) by (vm_compute in Hi; injection Hi as <- <-; by split_and!).
  rewrite <-Hid. apply Hall; [simpl; lia|left|by rewrite Hst|done].
Defined.

(** ** Properties of the conversation read model

    What a participant is told of a conversation is exact: after the read cursor
    moved, the unread counts and first positions are those of the messages behind
    it, and the listing says the same. *)

From S2P Require Import ChannelProps Conversation.

(** The rows of one membership's group are the messages of its channel. *)
Lemma group_messages db cm :
  omap id (attention_group db cm)
  = List.filter (λ m, m_channel_id m ==? cm_channel_id cm) db.(messages).
Proof.
  unfold attention_group, left_matches.
  set (l := List.filter _ db.(messages)). destruct l as [|m ms]; [done|].
  simpl. f_equal. induction ms as [|x ms IH]; simpl; [done|by rewrite IH].
Qed.

(** The aggregates of a group. *)
Lemma sum_case_count p (group : list (option MessageRow)) :
  sum_case p group = Z.of_nat (length (List.filter p (omap id group))).
Proof.
  unfold sum_case. induction group as [|[m|] group IH]; simpl; [done| |done]. rewrite IH.
  change (list_omap _ _ id group) with (omap id group).
  destruct (p m); cbn [length]; lia.
Qed.
Definition least_of (ms : list MessageRow) (s : option Z) : Prop :=
  match s with
  | None => ms = []
  | Some s => (∃ m, m ∈ ms ∧ m_seq m = s) ∧ ∀ m, m ∈ ms → s ≤ m_seq m
  end.
Lemma min_case_least p (group : list (option MessageRow)) :
  least_of (List.filter p (omap id group)) (min_case p group).
Proof.
  unfold min_case. induction group as [|[m|] group IH]; simpl; [done| |done].
  change (list_omap _ _ id group) with (omap id group).
  destruct (p m); [|done]. set (ms := List.filter p (omap id group)) in *.
  destruct (foldr _ None group) as [l|]; simpl in *.
  - destruct IH as [(m1 & Hm1 & <-) Hall]. split.
    + destruct (Z.min_spec (m_seq m) (m_seq m1)) as [[_ ->]|[_ ->]]; eexists; (split; [|done]); set_solver.
    + intros m2 [->|Hm2]%elem_of_cons; [lia|]. specialize (Hall m2 Hm2). lia.
  - rewrite IH. split; [exists m; set_solver|]. intros m2 ->%list_elem_of_singleton. lia.
Qed.

(** The messages of others behind a cursor. *)
Definition waiting (channel_id agent_id : string) (seq : Z) (db : Db) : list MessageRow :=
  List.filter (λ m, (m_channel_id m ==? channel_id) && (seq <? m_seq m) && (m_sender_id m !=? agent_id))
    db.(messages).
Lemma filter_filter_and {A} (p q : A → bool) l :
  List.filter q (List.filter p l) = List.filter (λ a, p a && q a) l.
Proof. induction l as [|a l IH]; simpl; [done|]. destruct (p a); simpl; [destruct (q a)|]; by rewrite IH. Qed.
Lemma unread_waiting db cm :
  List.filter (unread cm) (omap id (attention_group db cm))
  = waiting (cm_channel_id cm) (cm_agent_id cm) (cm_read_through_seq cm) db.
Proof.
  rewrite group_messages, filter_filter_and. unfold waiting. apply List.filter_ext. intros m.
  unfold unread. by rewrite andb_assoc.
Qed.
Lemma addressed_waiting db cm :
  List.filter (addressed_unread cm) (omap id (attention_group db cm))
  = List.filter (λ m, m_recipient_id m ==? Some (cm_agent_id cm))
      (waiting (cm_channel_id cm) (cm_agent_id cm) (cm_read_through_seq cm) db).
Proof. by rewrite <-unread_waiting, filter_filter_and. Qed.

Section attention.
Context `{J : SerdeJson} (sha256_hex : string → string).

(** What a participant is told is exact: after its read cursor moved, the unread
    state of the conversation is read without error, counts precisely the messages
    of others behind the cursor, and those addressed to it, names the first of each,
    and is the entry of the listing. *)
Theorem attention_after_reading c a seq db n db' :
  reachable sha256_hex db → advance_member_read_cursor c a seq db = Ok (n, db') →
  ∃ at_, attention_for a c db' = Ok (at_, db') ∧ at_ ∈ attention a db'
    ∧ ca_channel_id at_ = c ∧ ca_read_through_seq at_ = n
    ∧ ca_unread_count at_ = Z.of_nat (length (waiting c a n db'))
    ∧ least_of (waiting c a n db') (ca_first_unread_seq at_)
    ∧ (let mine := List.filter (λ m, m_recipient_id m ==? Some a) (waiting c a n db') in
       ca_addressed_unread_count at_ = Z.of_nat (length mine)
       ∧ least_of mine (ca_first_addressed_unread_seq at_)).
Proof.
  intros Hr H. pose proof (reachable_wf _ _ Hr) as Hwf.
  destruct (advance_ok c a seq db n db' Hwf H) as (_ & m & Hm & Hc & Ha & -> & Hdb').
  set (cm := set_read_through (Z.max (cm_read_through_seq m) seq) m).
  assert (cm ∈ db'.(channel_members)) as Hcm.
  { rewrite Hdb'. simpl. apply list_elem_of_fmap. exists m. split; [|done].
    by rewrite Hc, Ha, !bool_decide_true. }
  assert (∀ m', m' ∈ db'.(channel_members) → cm_channel_id m' = c → cm_agent_id m' = a → m' = cm) as Huniq.
  { rewrite Hdb'. simpl. intros m' (m0 & -> & Hm0)%list_elem_of_fmap.
    assert (m0 = m ∨ cm_channel_id m0 ≠ c ∨ cm_agent_id m0 ≠ a) as [->|Hne].
    { destruct (decide (cm_channel_id m0 = c)), (decide (cm_agent_id m0 = a)); [left|tauto..].
      apply (unique_row db); [done..|]. simpl. unfold conflict_member.
      by rewrite !bool_decide_true by congruence. }
    - intros _ _. by rewrite Hc, Ha, !bool_decide_true.
    - destruct ((cm_channel_id m0 ==? c) && (cm_agent_id m0 ==? a)) eqn:E; [bool_facts; tauto|tauto]. }
  assert (cm_read_through_seq cm = Z.max (cm_read_through_seq m) seq) as Hcr by done.
  assert (cm_channel_id cm = c ∧ cm_agent_id cm = a) as [Hcc Hca] by done.
  exists (attention_from_group cm (attention_group db' cm)). split_and!; simpl.
  - unfold attention_for, bind, gets, fetch_optional, lift. simpl.
    rewrite (find_unique _ _ cm); [done|done|by rewrite Hca, Hcc, !bool_decide_true|].
    intros m' Hm' Hp. bool_facts. by apply Huniq.
  - apply list_elem_of_fmap. exists cm. split; [done|].
    apply elem_of_sort_by, elem_of_list_filter. split; [by apply bool_decide_eq_true|done].
  - done.
  - done.
  - rewrite sum_case_count, unread_waiting. by rewrite Hcc, Hca, Hcr.
  - pose proof (min_case_least (unread cm) (attention_group db' cm)) as Hl.
    rewrite unread_waiting in Hl. by rewrite Hcc, Hca, Hcr in Hl.
  - pose proof (min_case_least (addressed_unread cm) (attention_group db' cm)) as Hl.
    rewrite addressed_waiting in Hl. rewrite Hcc, Hca, Hcr in Hl.
    split; [|exact Hl]. rewrite sum_case_count, addressed_waiting. by rewrite Hcc, Hca, Hcr.
Qed.
End attention.

Lemma attention_after_reading_witness :
  ∃ at_, attention_for "B" "C" db_read = Ok (at_, db_read) ∧ ca_unread_count at_ = 0.
Proof.
  destruct (attention_after_reading plain_sha256 "C" "B" 1 db_asked 1 db_read)
    as (at_ & H & _ & _ & _ & Hcount & _); [exact reachable_asked|vm_compute; reflexivity|].
  exists at_. split; [done|]. rewrite Hcount. by vm_compute.
Defined.
