(* ===== verification/SupervisorProps.v ===== *)
(** * Properties of the plugin supervisor

    Over every plugin and operating system: a process is handed out only after its
    manifest was negotiated and its health confirmed, and a path that gives a process up
    has sent its group SIGKILL, but for a start whose look at the child fails.
    A sandbox profile is the base text followed by the rules below, and the rules
    reach exactly the declared roots: a directory above a root may be looked at, but
    nothing beside the roots is opened. *)

From S2P Require Import Prelude Action Proto Schema Observations Sessions HarnessClient Supervisor.
From S2P Require Import Scenario Sandbox.

Section negotiation.

Lemma check_err_ok {E E'} (f : E → E') r u : check_err f r = inl u → r = inl tt.
Proof. by destruct r as [[]|]. Qed.
Ltac checks :=
  repeat match goal with
    | H : (_ ;: _) = inl _ |- _ => apply both_ok in H as [[[] ?] ?]
    | H : check_err _ _ = inl _ |- _ => apply check_err_ok in H
    | H : reject ?b _ = inl _ |- _ => destruct b eqn:?; [done|clear H]
    end; bool_facts.

Lemma validate_interfaces_ok seen interfaces :
  validate_interfaces seen interfaces = inl tt →
  NoDup interfaces ∧ ∀ i, i ∈ interfaces → i ∉ seen ∧ validate_interface i = inl tt.
Proof.
  revert seen. induction interfaces as [|i l IH]; intros seen H; cbn [validate_interfaces] in H.
  - split; [by apply NoDup_nil_2|]. by intros ? ?%not_elem_of_nil.
  - checks. match goal with H : validate_interfaces _ _ = _ |- _ => apply IH in H as [Hnd Hall] end.
    split.
    + apply NoDup_cons. split; [|done]. intros Hin. destruct (Hall i Hin) as [Hns _]. set_solver.
    + intros j [->|Hj]%elem_of_cons; [done|]. destruct (Hall j Hj). set_solver.
Qed.
Lemma require_interfaces_ok manifest required :
  require_interfaces manifest required = inl tt →
  ∀ i, i ∈ required → i ∈ mf_interfaces manifest.
Proof.
  induction required as [|i l IH]; intros H j Hj; cbn [require_interfaces] in H;
    [by apply not_elem_of_nil in Hj|].
  checks. unfold declares in *. bool_facts. apply elem_of_cons in Hj as [->|Hj]; [done|by apply IH].
Qed.

(** What [negotiate] accepts. *)
Definition negotiated (manifest : PluginManifest) (expected_id : string)
    (required : list PluginInterface) : Prop :=
  mf_protocol_version manifest = LIFECYCLE_PROTOCOL_VERSION
  ∧ pid_id (mf_plugin manifest) = expected_id
  ∧ mf_interfaces manifest ≠ []
  ∧ NoDup (mf_interfaces manifest)
  ∧ ∀ i, i ∈ required → i ∈ mf_interfaces manifest.
Lemma negotiate_ok manifest expected_id required :
  negotiate manifest expected_id required = inl tt → negotiated manifest expected_id required.
Proof.
  unfold negotiate, validate_shape. intros H. checks.
  match goal with H : validate_interfaces _ _ = _ |- _ => apply validate_interfaces_ok in H as [? _] end.
  split_and!; try done. by apply require_interfaces_ok.
Qed.
End negotiation.

Section supervisor.
Context `{J : SerdeJson} (is_file : string → bool).
Context {C : Type} {OS : PluginOs C}.

(** A process is handed out only once it was negotiated: its specification
    validated, the executable launched - through the sandbox where one is declared -
    and the manifest it answered speaks the host's protocol version, carries the
    expected identity, declares every required interface without repetition, and
    the last thing the plugin did was to answer its health check with ok. *)
Theorem start_negotiates spec instance_id child process :
  start is_file spec instance_id = (child, inl process) →
  ∃ spawned asked answered,
    validate_spec is_file spec = inl tt
    ∧ os_spawn (launch spec).1 (launch spec).2 = inl spawned
    ∧ rpc_initialize instance_id (ps_config spec) (ps_initialize_timeout spec) spawned
      = (asked, inl (sp_manifest process))
    ∧ negotiated (sp_manifest process) (ps_id spec) (ps_required_interfaces spec)
    ∧ rpc_health (ps_request_timeout spec) asked = (answered, inl "ok")
    ∧ child = Some answered
    ∧ (∀ sandbox, ps_sandbox spec = Some sandbox →
        launch spec = (MACOS_SANDBOX_EXEC,
                       "-p" :: sbx_profile sandbox :: ps_executable spec :: ps_args spec)).
Proof.
  unfold start. intros H. destruct (validate_spec _ _) as [[]|] eqn:Hv; [|done].
  destruct (os_spawn _ _) as [spawned|] eqn:Hs; [|done].
  destruct (initialize _ _ _) as [answered [manifest|e]] eqn:Hi; [|done].
  injection H as <- <-. unfold initialize, check_health in Hi. a_inv. simpl.
  match goal with H : negotiate _ _ _ = inl ?u |- _ => destruct u; apply negotiate_ok in H end.
  match goal with H : reject (?s !=? _) _ = _ |- _ =>
    destruct (s !=? "ok") eqn:Hok; [done|]; bool_facts; subst s end.
  eexists _, _, _. split_and!; try eassumption; try done.
  intros sandbox Hsb. unfold launch. by rewrite Hsb.
Qed.

(** [killed c]: the process group of [c] was sent SIGKILL.  It cannot be unsent. *)
Context (killed : C → Prop).
Context (kill_sends : ∀ c, killed (os_kill_group c)).
Context (start_kill_keeps : ∀ c, killed c → killed (os_start_kill c)).
Context (wait_keeps : ∀ c, killed c → killed (os_wait c).1).

Lemma drop_kills child : killed (drop_process child).
Proof using kill_sends start_kill_keeps.
  unfold drop_process. destruct (os_try_wait child) as [c [[status|]|error]]; auto.
Qed.
Lemma terminate_kills child c status :
  terminate child = (c, inl status) → killed c.
Proof using kill_sends start_kill_keeps wait_keeps.
  unfold terminate. intros Ht. a_inv. match goal with H : match ?x with _ => _ end _ = _ |- _ =>
    destruct x as [s|] end.
  - a_inv. auto.
  - a_inv. match goal with H : os_wait ?c0 = (?c1, _) |- _ =>
      pose proof (wait_keeps c0) as Hk; rewrite H in Hk; auto end.
Qed.

(** C39 A path that gives a process up has sent its group SIGKILL, but for one.  A start
    that fails after the launch has done so unless asking for the child's state
    failed, where [terminate] returns before it kills anything; a shutdown has by the
    time it returns, whatever the plugin, the deadline and the operating system
    answer; so has a drop; and a process found or waited to its exit takes the rest of
    its group with it. *)
Theorem process_group_killed spec instance_id process child :
  (∀ c e, start is_file spec instance_id = (Some c, inr e) →
     killed c ∨ ∃ c1 e1, os_try_wait c1 = (c, inr e1))
  ∧ killed (shutdown process child).1
  ∧ killed (drop_process child)
  ∧ (∀ c status, os_try_wait child = (c, inl (Some status)) → killed (health process child).1)
  ∧ ∀ c exit, wait_for_exit child = (c, inl exit) → killed c.
Proof using kill_sends start_kill_keeps wait_keeps.
  split_and!.
  - intros c e H. unfold start in H. destruct (validate_spec _ _) as [[]|]; [|done].
    destruct (os_spawn _ _) as [spawned|]; [|done].
    destruct (initialize _ _ _) as [failed [manifest|e']]; [done|]. injection H as <- _.
    destruct (terminate failed) as [c [status|e1]] eqn:Ht; [left; by eapply terminate_kills|].
    simpl. unfold terminate in Ht.
    apply andthen_run in Ht as [(x & c1 & Hx & Ht)|(e2 & Hx & _)]; [left|right; eauto].
    destruct x; a_inv. match goal with H : os_wait ?c0 = _ |- _ =>
      pose proof (wait_keeps c0) as Hk; rewrite H in Hk; auto end.
  - unfold shutdown. destruct (shutdown_requested process child). simpl. apply drop_kills.
  - apply drop_kills.
  - intros c status H. unfold health, andthen, act, throw. rewrite H. simpl. auto.
  - intros c exit H. unfold wait_for_exit in H. a_inv. auto.
Qed.
End supervisor.

(** ** At a concrete operating system *)

(** A child is the list of what was done to it; the plugin answers with a manifest
    for the id it was launched as, or, as the second executable, with an empty one. *)
Record recorded := { rec_manifest : PluginManifest; rec_done : list string }.
Definition note (what : string) (c : recorded) : recorded :=
  {| rec_manifest := rec_manifest c; rec_done := what :: rec_done c |}.
Definition sample_interface : PluginInterface :=
  {| if_id := "harness.acp"; if_version := "1.0.0" |}.
Definition sample_manifest (interfaces : list PluginInterface) : PluginManifest :=
  {| mf_protocol_version := 1;
     mf_plugin := {| pid_id := "plugin"; pid_name := "harness"; pid_version := "1.0.0" |};
     mf_interfaces := interfaces |}.
#[local] Instance recorded_os : PluginOs recorded := {|
  os_spawn executable _ :=
    inl {| rec_manifest := sample_manifest
                             (if executable ==? "/plugin" then [sample_interface] else []);
           rec_done := [] |};
  os_id _ := Some (mk_u32 7 eq_refl);
  rpc_initialize _ _ _ c := (note "initialize" c, inl (rec_manifest c));
  rpc_health _ c := (note "health" c, inl "ok");
  rpc_shutdown _ c := (note "shutdown" c, inl true);
  os_try_wait c := (c, inl None);
  os_wait c := (c, inl {| pe_success := false; pe_code := None |});
  os_wait_timeout _ c := (c, inl None);
  os_start_kill := note "kill";
  os_kill_group := note "kill group";
|}.
Definition sample_spec (executable : string) : PluginSpec :=
  {| ps_id := "plugin"; ps_executable := executable; ps_args := ["--acp"]; ps_config := "{}";
     ps_required_interfaces := [sample_interface]; ps_initialize_timeout := 1;
     ps_request_timeout := 1; ps_shutdown_timeout := 1; ps_sandbox := None |}.
Definition sample_process : Supervised :=
  {| sp_manifest := sample_manifest [sample_interface]; sp_request_timeout := 1;
     sp_shutdown_timeout := 1 |}.
Definition group_killed (c : recorded) : Prop := "kill group" ∈ rec_done c.

Lemma start_negotiates_witness :
  (start (OS := recorded_os) (λ _, true) (sample_spec "/plugin") "I").2 = inl sample_process
  ∧ negotiated (sp_manifest sample_process) "plugin" [sample_interface].
Proof.
  split; [reflexivity|].
  destruct (start_negotiates (OS := recorded_os) (λ _, true) (sample_spec "/plugin") "I"
              (start (λ _, true) (sample_spec "/plugin") "I").1 sample_process)
    as (spawned & asked & answered & _ & _ & _ & Hn & _); [reflexivity|exact Hn].
Defined.
Lemma process_group_killed_witness :
  (∃ c e, start (OS := recorded_os) (λ _, true) (sample_spec "/other") "I" = (Some c, inr e)
          ∧ group_killed c)
  ∧ group_killed (shutdown (OS := recorded_os) sample_process
                    {| rec_manifest := sample_manifest []; rec_done := [] |}).1.
Proof.
  destruct (process_group_killed (OS := recorded_os) (λ _, true) group_killed
    ltac:(intros c; by left) ltac:(intros c Hc; by right) ltac:(done)
    (sample_spec "/other") "I" sample_process
    {| rec_manifest := sample_manifest []; rec_done := [] |}) as (Hstart & Hshut & _).
  split; [|exact Hshut]. eexists _, _. split; [reflexivity|].
  destruct (Hstart _ _ eq_refl) as [Hk|(c1 & e1 & [=])]. exact Hk.
Defined.

(** ** What a sandbox profile grants *)

(** ** Sorted sets of paths *)

Lemma elem_of_set_insert p q l : q ∈ set_insert p l ↔ q = p ∨ q ∈ l.
Proof.
  unfold set_insert. destruct (bool_decide _) eqn:Hd; bool_facts.
  - split; [by right|]. by intros [->|?].
  - rewrite sort_insert_perm. apply elem_of_cons.
Qed.
Lemma set_insert_nodup p l : NoDup l → NoDup (set_insert p l).
Proof.
  intros Hl. unfold set_insert. destruct (bool_decide _) eqn:Hd; bool_facts; [done|].
  rewrite sort_insert_perm. by apply NoDup_cons.
Qed.
Lemma elem_of_insert_all q ps l :
  q ∈ foldl (λ found p, set_insert p found) l ps ↔ q ∈ ps ∨ q ∈ l.
Proof.
  revert l. induction ps as [|p ps IH]; intros l; simpl; [set_solver|].
  rewrite IH, elem_of_set_insert, elem_of_cons. naive_solver.
Qed.
Lemma elem_of_ancestors_of q roots :
  q ∈ ancestors_of roots ↔ ∃ root, root ∈ roots ∧ q ∈ proper_ancestors root.
Proof.
  unfold ancestors_of. enough (∀ l,
    q ∈ foldl (λ found root, foldl (λ found p, set_insert p found) found (proper_ancestors root))
          l roots ↔ (∃ root, root ∈ roots ∧ q ∈ proper_ancestors root) ∨ q ∈ l) as ->.
  { split; [|by left]. intros [?|?%not_elem_of_nil]; done. }
  induction roots as [|root roots IH]; intros l; simpl.
  - split; [by right|]. by intros [(? & ?%not_elem_of_nil & _)|?].
  - rewrite IH, elem_of_insert_all. split.
    + intros [(r & ? & ?)|[?|?]]; [left; exists r|left; exists root|by right]; set_solver.
    + intros [(r & [->|?]%elem_of_cons & ?)|?]; [right; by left|left; eauto|right; by right].
Qed.
(** The ancestors strictly between the root of the file system and the path. *)
Lemma elem_of_proper_ancestors q p :
  q ∈ proper_ancestors p ↔ q ≠ [] ∧ q ≠ p ∧ q `prefix_of` p.
Proof.
  unfold proper_ancestors. rewrite elem_of_reverse. rewrite list_elem_of_In, in_map_iff. split.
  - intros (n & <- & Hn%in_seq). split_and!.
    + destruct n; [lia|]. by destruct p; [simpl in *; lia|].
    + intros Heq. apply (f_equal length) in Heq. rewrite length_take in Heq. lia.
    + exists (drop n p). by rewrite take_drop.
  - intros (Hne & Hnp & [k ->]). exists (length q). split; [by rewrite take_app_length|].
    apply in_seq. rewrite length_app. destruct q, k; simpl; try done; try lia.
    by rewrite app_nil_r in Hnp.
Qed.

(** ** Rules *)

Inductive rule :=
| ReadLiteral (p : path)
| ReadSubpath (p : path)
| WriteSubpath (p : path)
| NetworkOutbound.

(** The file [q] is opened by the rule. *)
Definition allows_read (r : rule) (q : path) : Prop :=
  match r with
  | ReadLiteral p => q = p
  | ReadSubpath p => p `prefix_of` q
  | _ => False
  end.
Definition allows_write (r : rule) (q : path) : Prop :=
  match r with WriteSubpath p => p `prefix_of` q | _ => False end.

Section rules.
Context (json_quote : string → string + string).

Definition rule_text (r : rule) : string + string :=
  let ruled before p :=
    match json_quote (path_text p) with
    | inl text => inl (before +:+ text +:+ line "))")
    | inr error => inr error
    end in
  match r with
  | ReadLiteral p => ruled READ_LITERAL p
  | ReadSubpath p => ruled READ_SUBPATH p
  | WriteSubpath p => ruled WRITE_SUBPATH p
  | NetworkOutbound => inl (line "(allow network-outbound)")
  end.
Fixpoint rules_text (rules : list rule) : option string :=
  match rules with
  | [] => Some ""
  | r :: rules =>
      match rule_text r, rules_text rules with
      | inl text, Some rest => Some (text +:+ rest)
      | _, _ => None
      end
  end.

Lemma string_app_assoc (a b c : string) : (a +:+ b) +:+ c = a +:+ (b +:+ c).
Proof.
  induction a as [|ch a IH]; [done|].
  change (String ch ((a +:+ b) +:+ c) = String ch (a +:+ (b +:+ c))). by rewrite IH.
Qed.
Lemma string_app_nil (a : string) : a +:+ "" = a.
Proof. induction a as [|ch a IH]; [done|]. change (String ch (a +:+ "") = String ch a). by rewrite IH. Qed.
Lemma rules_text_app l1 l2 t1 t2 :
  rules_text l1 = Some t1 → rules_text l2 = Some t2 → rules_text (l1 ++ l2) = Some (t1 +:+ t2).
Proof.
  revert t1. induction l1 as [|r l1 IH]; intros t1 H1 H2; simpl in *; [by injection H1 as <-|].
  destruct (rule_text r) as [text|]; [|done]. destruct (rules_text l1) as [rest|]; [|done].
  injection H1 as <-. by rewrite (IH _ eq_refl H2), string_app_assoc.
Qed.
Lemma push_rules_text before (ctor : path → rule) paths profile out :
  (∀ p, rule_text (ctor p) = match json_quote (path_text p) with
                             | inl text => inl (before +:+ text +:+ line "))")
                             | inr error => inr error
                             end) →
  push_rules json_quote before paths profile = inl out →
  ∃ text, rules_text (map ctor paths) = Some text ∧ out = profile +:+ text.
Proof.
  intros Hc. revert profile. induction paths as [|p paths IH]; intros profile H;
    cbn [push_rules map rules_text] in *.
  - injection H as <-. exists "". by rewrite string_app_nil.
  - rewrite Hc. unfold seatbelt_string in H. destruct (json_quote (path_text p)) as [text|]; [|done].
    apply IH in H as (rest & -> & ->). eexists. split; [done|]. by rewrite !string_app_assoc.
Qed.

(** The rules of a strict profile over canonical roots. *)
Definition strict_rules (writable read_only : list path) (network : SandboxNetwork) : list rule :=
  map ReadLiteral (ancestors_of (writable ++ read_only)) ++ map ReadSubpath (writable ++ read_only)
  ++ map WriteSubpath writable ++ (if network ==? AllowOutbound then [NetworkOutbound] else []).
Lemma strict_rules_elem writable readable network r :
  r ∈ strict_rules writable readable network ↔
  match r with
  | ReadLiteral q => ∃ p, p ∈ writable ++ readable ∧ q ≠ [] ∧ q ≠ p ∧ q `prefix_of` p
  | ReadSubpath p => p ∈ writable ++ readable
  | WriteSubpath p => p ∈ writable
  | NetworkOutbound => network = AllowOutbound
  end.
Proof.
  assert (∀ (ctor : path → rule) l, r ∈ map ctor l ↔ ∃ p, r = ctor p ∧ p ∈ l) as Hmap.
  { intros ctor l. rewrite list_elem_of_In, in_map_iff. setoid_rewrite list_elem_of_In. naive_solver. }
  unfold strict_rules. rewrite !elem_of_app, !Hmap.
  setoid_rewrite elem_of_ancestors_of. setoid_rewrite elem_of_proper_ancestors.
  destruct r as [q|p|p|]; simpl; case_bool_decide; subst;
    rewrite ?list_elem_of_singleton, ?elem_of_nil; naive_solver.
Qed.
Lemma seatbelt_profile_rules writable read_only network profile :
  seatbelt_profile json_quote writable read_only network = inl profile →
  ∃ text, rules_text (strict_rules writable read_only network) = Some text
    ∧ profile = strict_base +:+ text.
Proof.
  unfold seatbelt_profile. generalize strict_base. intros base H.
  destruct (push_rules _ READ_LITERAL _ _) as [p1|] eqn:H1; [|done].
  destruct (push_rules _ READ_SUBPATH _ _) as [p2|] eqn:H2; [|done].
  destruct (push_rules _ WRITE_SUBPATH _ _) as [p3|] eqn:H3; [|done]. injection H as <-.
  apply (push_rules_text _ ReadLiteral) in H1 as (t1 & Ht1 & ->); [|done].
  apply (push_rules_text _ ReadSubpath) in H2 as (t2 & Ht2 & ->); [|done].
  apply (push_rules_text _ WriteSubpath) in H3 as (t3 & Ht3 & ->); [|done].
  unfold strict_rules.
  exists (t1 +:+ (t2 +:+ (t3 +:+ if network ==? AllowOutbound then line "(allow network-outbound)" else ""))).
  split.
  - do 3 (apply rules_text_app; [done|]). by destruct (network ==? AllowOutbound).
  - destruct (network ==? AllowOutbound); by rewrite ?string_app_assoc, ?string_app_nil.
Qed.
End rules.

Section sandbox.
Context (sha256_hex : string → string) (macos : bool).
Context (is_file is_dir : string → bool) (canonicalize : string → path + string).
Context (json_quote : string → string + string).

(** [p] is the canonical path of a declared root. *)
Definition declared (roots : list string) (p : path) : Prop :=
  ∃ root, root ∈ roots ∧ canonicalize root = inl p.

Lemma canonical_directories_ok label canonical roots out :
  canonical_directories is_dir canonicalize label canonical roots = inl out →
  (∀ p, p ∈ canonical → p ≠ []) → NoDup canonical →
  NoDup out ∧ (∀ p, p ∈ out ↔ p ∈ canonical ∨ declared roots p) ∧ ∀ p, p ∈ out → p ≠ [].
Proof.
  revert canonical. induction roots as [|root roots IH]; intros canonical H Hne Hnd;
    cbn [canonical_directories] in H.
  - injection H as <-. split_and!; [done| |done]. intros p. split; [by left|].
    by intros [?|(? & ?%not_elem_of_nil & _)].
  - destruct (_ || _); [done|]. destruct (canonicalize root) as [[|c cs]|] eqn:Hc; [done| |done].
    apply IH in H as (Hnd' & Hall & Hne').
    + split_and!; [done| |done]. intros p. rewrite Hall, elem_of_set_insert. split.
      * intros [[->|?]|(r & ? & ?)]; [right; exists root|by left|right; exists r]; set_solver.
      * intros [?|(r & [->|?]%elem_of_cons & Hr)]; [left; by right|left; left; congruence|].
        right. by exists r.
    + intros p [->|?]%elem_of_set_insert; [done|by apply Hne].
    + by apply set_insert_nodup.
Qed.

(** C33 A strict profile reaches exactly what was declared.  It is the base text
    followed by rules such that a file may be written exactly under a declared
    writable root and read exactly under a declared root; of the directories above
    the roots each is granted itself and nothing in it; the network is open exactly
    when it was asked for; no root is the root of the file system; and the digest
    names the profile. *)
Theorem strict_sandbox_reach writable_roots read_only_roots network sandbox :
  new_sandbox sha256_hex macos is_file is_dir canonicalize json_quote writable_roots read_only_roots
    network = inl sandbox →
  ∃ rules text,
    rules_text json_quote rules = Some text
    ∧ sbx_profile sandbox = strict_base +:+ text
    ∧ (∀ q, (∃ r, r ∈ rules ∧ allows_write r q) ↔
         ∃ p, declared writable_roots p ∧ p `prefix_of` q)
    ∧ (∀ q, (∃ r, r ∈ rules ∧ allows_read r q) ↔
         ∃ p, (declared writable_roots p ∨ declared read_only_roots p)
              ∧ (p `prefix_of` q ∨ q ≠ [] ∧ q `prefix_of` p))
    ∧ (NetworkOutbound ∈ rules ↔ network = AllowOutbound)
    ∧ (∀ p, declared writable_roots p ∨ declared read_only_roots p → p ≠ [])
    ∧ sbx_profile_digest sandbox
      = "sha256:" +:+ sha256_hex ("fleetd-macos-seatbelt-v3" +:+ nul_byte +:+ sbx_profile sandbox).
Proof.
  unfold new_sandbox. intros H. destruct (available _ _); [|done].
  destruct (canonical_directories _ _ "writable" _ _) as [writable|] eqn:Hw; [|done].
  apply canonical_directories_ok in Hw as (_ & Hw & Hwne); [|by intros ? ?%not_elem_of_nil|by apply NoDup_nil_2].
  destruct writable as [|w ws]; [done|]. set (writable := w :: ws) in *.
  destruct (canonical_directories _ _ "read-only" _ _) as [readable|] eqn:Hr; [|done].
  apply canonical_directories_ok in Hr as (_ & Hr & Hrne); [|by intros ? ?%not_elem_of_nil|by apply NoDup_nil_2].
  destruct (seatbelt_profile _ _ _ _) as [profile|] eqn:Hp; [|done]. injection H as <-.
  apply seatbelt_profile_rules in Hp as (text & Ht & ->).
  assert (∀ p, p ∈ writable ↔ declared writable_roots p) as Hw'.
  { intros p. rewrite Hw. split; [|by right]. by intros [?%not_elem_of_nil|?]. }
  assert (∀ p, p ∈ readable ↔ declared read_only_roots p) as Hr'.
  { intros p. rewrite Hr. split; [|by right]. by intros [?%not_elem_of_nil|?]. }
  assert (∀ p, p ∈ writable ++ readable ↔ declared writable_roots p ∨ declared read_only_roots p) as Ha.
  { intros p. by rewrite elem_of_app, Hw', Hr'. }
  eexists _, text. split; [exact Ht|]. split; [done|].
  pose proof (strict_rules_elem writable readable network) as Hrules. split_and!.
  - intros q. split.
    + intros ([?|?|p|] & Hin%Hrules & Hq); try done. exists p. by rewrite <-Hw'.
    + intros (p & Hp & Hq). exists (WriteSubpath p). by rewrite Hrules, Hw'.
  - intros q. split.
    + intros ([q'|p|?|] & Hin%Hrules & Hq); simpl in Hq; try done.
      * subst q'. destruct Hin as (p & Hp%Ha & ? & _ & ?). exists p. auto.
      * exists p. rewrite <-Ha. auto.
    + intros (p & Hp%Ha & [Hq|[Hne Hq]]).
      * exists (ReadSubpath p). by rewrite Hrules.
      * destruct (decide (q = p)) as [->|Hqp]; [by exists (ReadSubpath p); rewrite Hrules|].
        exists (ReadLiteral q). rewrite Hrules. split; [|done]. by exists p.
  - apply Hrules.
  - intros p [Hp%Hw'|Hp%Hr']; [by apply Hwne|by apply Hrne].
  - done.
Qed.
End sandbox.

(** ** At a concrete host *)

Definition host_paths (root : string) : path + string :=
  if root ==? "/work/repo" then inl ["work"; "repo"]
  else if root ==? "/opt/tools" then inl ["opt"; "tools"]
  else inr "no such directory".
Definition host_quote (s : string) : string + string := inl (quoted s).
Lemma strict_sandbox_reach_witness :
  ∃ sandbox,
    new_sandbox id true (λ _, true) (λ _, true) host_paths host_quote ["/work/repo"] ["/opt/tools"]
      DenyNetwork = inl sandbox
    ∧ ∃ rules text,
        rules_text host_quote rules = Some text ∧ sbx_profile sandbox = strict_base +:+ text
        ∧ ~ (∃ r, r ∈ rules ∧ allows_write r ["work"; "other"]).
Proof.
  eexists. split; [vm_compute; reflexivity|].
  destruct (strict_sandbox_reach id true (λ _, true) (λ _, true) host_paths host_quote
              ["/work/repo"] ["/opt/tools"] DenyNetwork _ eq_refl)
    as (rules & text & Ht & Hp & Hw & _).
  exists rules, text. split; [exact Ht|]. split; [exact Hp|].
  intros (p & (root & Hin & Hc) & Hpre)%Hw. apply list_elem_of_singleton in Hin as ->.
  injection Hc as <-. apply (bool_decide_eq_true_2 _) in Hpre. vm_compute in Hpre. discriminate Hpre.
Defined.
