(* ===== verification/AuthProps.v ===== *)
(** * Properties of credentials

    A token is the authority of one credential row: a revoked token is refused
    for ever, a rotation revokes exactly what came before it, and an authority
    has one active credential. *)

From S2P Require Import Prelude Proto Schema Channels Messages Deliveries.
From S2P Require Import SessionFence Observations Invocations Settlement Sessions.
From S2P Require Import Triggers Auth Seats Lifecycle Safety System Preserve Scenario.

(** ** Authentication and the row behind a token *)

Section lookup.
Context `{C : TokenCodec}.

Lemma authenticate_ok tok p db db' :
  authenticate tok db = Ok (p, db') →
  db' = db ∧ ∃ c, c ∈ db.(auth_credentials) ∧ cr_token_digest c = token_digest tok
    ∧ cr_revoked_at_ms c = None ∧ principal_from_row (cr_id c) c = Ok p.
Proof.
  unfold authenticate. intros H. m_inv. bool_facts. split; [done|].
  eexists. split; [done|]. split; [done|]. split; [by apply is_none_eq|done].
Qed.

Lemma digest_unique db c1 c2 :
  wf db → c1 ∈ db.(auth_credentials) → c2 ∈ db.(auth_credentials) →
  cr_token_digest c1 = cr_token_digest c2 → c1 = c2.
Proof.
  intros Hwf H1 H2 Hd. apply (unique_row db); [done..|].
  simpl. unfold conflict_credential. rewrite (bool_decide_true (cr_token_digest c1 = _)) by done.
  apply orb_true_r.
Qed.

Lemma authenticate_revoked tok db c :
  wf db → c ∈ db.(auth_credentials) → cr_token_digest c = token_digest tok →
  cr_revoked_at_ms c ≠ None → authenticate tok db = Err Unauthorized.
Proof.
  intros Hwf Hc Hd Hr. unfold authenticate, bind, lift, fetch_optional, gets.
  destruct (refuse _ _) as [[]|e] eqn:Href; [|by unfold refuse in Href; case_match; simplify_eq].
  destruct (List.find _ _) as [c'|] eqn:Hf; [|done]. exfalso.
  apply find_some_elem in Hf as [Hc' Hp]. bool_facts.
  assert (c' = c) as -> by (by eapply digest_unique; [| | |congruence]).
  by apply Hr, is_none_eq.
Qed.

Lemma authenticate_active tok db c :
  wf db → c ∈ db.(auth_credentials) → cr_token_digest c = token_digest tok →
  cr_revoked_at_ms c = None → tok ≠ "" → str_len tok ≤ MAX_TOKEN_LENGTH →
  authenticate tok db = lift (principal_from_row (cr_id c) c) db.
Proof.
  intros Hwf Hc Hd Hr Hne Hlen. unfold authenticate, bind, lift, fetch_optional, gets.
  rewrite bool_decide_false by done. cbn [orb].
  rewrite (proj2 (Z.ltb_ge _ _)) by done. cbn.
  destruct (List.find _ _) as [c'|] eqn:Hf; cbn.
  - apply find_some_elem in Hf as [Hc' Hp]. bool_facts.
    by assert (c' = c) as -> by (by eapply digest_unique; [| | |congruence]).
  - apply (find_none_elem _ _ c) in Hf; [|done]. simpl in Hf.
    by rewrite Hr, bool_decide_true in Hf by done.
Qed.
End lookup.

(** What a credential keeps as it is revoked. *)
Lemma credential_moves operator (c c' : CredentialRow) :
  moves operator c c' →
  cr_id c' = cr_id c ∧ cr_token_digest c' = cr_token_digest c
  ∧ cr_principal_kind c' = cr_principal_kind c ∧ cr_agent_id c' = cr_agent_id c
  ∧ cr_trigger_id c' = cr_trigger_id c
  ∧ (cr_revoked_at_ms c ≠ None → c' = c).
Proof.
  induction 1 as [|c c1 c2 Hs _ IH]; [done|]. destruct Hs as [c now Hn].
  destruct IH as (-> & -> & -> & -> & -> & _). by split_and!.
Qed.

Section runs.
Context `{J : SerdeJson} `{C : TokenCodec} (sha256_hex : string → string).

(** A revoked credential is refused in every later state. *)
Lemma revoked_refused tok db db' c :
  wf db → reaches sha256_hex db db' → c ∈ db.(auth_credentials) →
  cr_token_digest c = token_digest tok → cr_revoked_at_ms c ≠ None →
  authenticate tok db' = Err Unauthorized.
Proof.
  intros Hwf Hrun Hc Hd Hr. destruct (reaches_safe _ _ _ Hwf Hrun) as [Hwf' He].
  destruct (table_rel_elem _ _ _ _ (ev_credentials _ _ _ He) Hc) as (c' & Hc' & Hm).
  apply credential_moves in Hm as (_ & Hd' & _ & _ & _ & Heq).
  eapply (authenticate_revoked _ _ c'); [done..|congruence|]. by rewrite Heq.
Qed.

(** The update of a revocation leaves no match active and every other row alone. *)
Lemma revoke_elem (p : CredentialRow → bool) now l c :
  c ∈ l → p c = true → set_revoked now c ∈ map (update_row p (set_revoked now)) l.
Proof. intros Hc Hp. apply elem_of_update_row. exists c. by rewrite Hp. Qed.

(** Every rotation has this shape: revoke the authority, then insert. *)
Lemma rotation_ok (p : CredentialRow → bool) now new db n db1 u db' :
  update p (set_revoked now) db = Ok (n, db1) → insert new db1 = Ok (u, db') →
  db'.(auth_credentials) = map (update_row p (set_revoked now)) db.(auth_credentials) ++ [new].
Proof. intros (-> & _)%update_ok (_ & _ & _ & _ & ->)%insert_ok. done. Qed.

Lemma agent_principal c tok_id a :
  principal_from_row (cr_id c) c = Ok (PAgent tok_id a) →
  cr_principal_kind c = PrincipalKind.Agent ∧ cr_agent_id c = Some a.
Proof.
  unfold principal_from_row.
  destruct (cr_principal_kind c), (cr_agent_id c), (cr_trigger_id c); naive_solver.
Qed.

Context {CL : TokenCodecLaws C}.

Lemma string_length_app (s1 s2 : string) :
  String.length (s1 +:+ s2) = (String.length s1 + String.length s2)%nat.
Proof. induction s1; simpl; [done|]. by rewrite IHs1. Qed.
Lemma strip_prefix_app prefix rest : strip_prefix prefix (prefix +:+ rest) = Some rest.
Proof. induction prefix; simpl; [done|]. by rewrite bool_decide_true. Qed.

Lemma token_length prefix bytes :
  String.length prefix = 6%nat → String.length bytes = TOKEN_BYTES →
  str_len (generate_token prefix bytes) = 49.
Proof using CL.
  intros Hp Hb. unfold str_len, generate_token.
  by rewrite string_length_app, Hp, b64_encode_length, Hb.
Qed.

(** A token fleetd generates passes the check of a token read back. *)
Lemma generated_token_valid prefix bytes source :
  String.length prefix = 6%nat → String.length bytes = TOKEN_BYTES →
  validate_token_shape (generate_token prefix bytes) prefix source = Ok tt.
Proof using CL.
  intros Hp Hb. unfold validate_token_shape. rewrite token_length by done. cbn.
  unfold generate_token. rewrite strip_prefix_app. cbn. rewrite b64_decode_encode. cbn.
  by rewrite bool_decide_true.
Qed.

(** An issued token authenticates as the row inserted for it. *)
Lemma issued_authenticates prefix cid bytes now db c :
  wf db → c ∈ db.(auth_credentials) → String.length prefix = 6%nat →
  String.length bytes = TOKEN_BYTES →
  cr_token_digest c = token_digest (issued_token (issue_credential prefix cid bytes now)) →
  cr_revoked_at_ms c = None →
  authenticate (issued_token (issue_credential prefix cid bytes now)) db
  = lift (principal_from_row (cr_id c) c) db.
Proof using CL.
  intros Hwf Hc Hp Hb Hd Hr. apply authenticate_active; [done..| |].
  - intros He%(f_equal str_len). change (issued_token _) with (generate_token prefix bytes) in He.
    by rewrite token_length in He.
  - change (issued_token _) with (generate_token prefix bytes).
    rewrite token_length by done. by unfold MAX_TOKEN_LENGTH.
Qed.

(** Rotating an agent's credential hands its authority over: the new token
    authenticates as the agent, and every token that authenticated as the agent
    before is refused in every later state. *)
Theorem rotation_replaces_token a cid bytes now db issued db1 :
  reachable sha256_hex db → String.length bytes = TOKEN_BYTES →
  rotate_agent_credential a cid bytes now db = Ok (issued, db1) →
  authenticate (issued_token issued) db1 = Ok (PAgent cid a, db1)
  ∧ ∀ tok id, authenticate tok db = Ok (PAgent id a, db) →
    ∀ db2, reaches sha256_hex db1 db2 → authenticate tok db2 = Err Unauthorized.
Proof using CL.
  intros Hr%reachable_wf Hb Hrot.
  destruct (safe_rotate_agent_credential true _ _ _ _ _ _ _ Hr Hrot) as [Hwf1 _].
  unfold rotate_agent_credential, insert_agent_credential in Hrot. m_inv.
  match goal with H1 : update _ _ db = Ok _, H2 : insert _ _ = Ok _ |- _ =>
    pose proof (rotation_ok _ _ _ _ _ _ _ _ H1 H2) as Hcreds end.
  split.
  - match type of Hcreds with _ = _ ++ [?new] =>
      rewrite (issued_authenticates AGENT_TOKEN_PREFIX cid bytes now _ new); try done end.
    rewrite Hcreds. apply elem_of_app. right. by apply list_elem_of_singleton.
  - intros tok id (_ & c & Hc & Hd & Hrev & [Hk Ha]%agent_principal)%authenticate_ok db2 Hrun.
    eapply (revoked_refused _ _ _ (set_revoked now c)); [done|done| |done|done].
    rewrite Hcreds. apply elem_of_app. left. apply revoke_elem; [done|].
    unfold active_agent_credential. by rewrite Hk, Ha, Hrev, !bool_decide_true by done.
Qed.
End runs.

(** ** One active credential per authority *)

Definition authority (c : CredentialRow) : PrincipalKind.t * option string * option string :=
  (cr_principal_kind c, cr_agent_id c, cr_trigger_id c).
Definition active_alone (db : Db) : Prop :=
  ∀ c1 c2, c1 ∈ db.(auth_credentials) → c2 ∈ db.(auth_credentials) →
           cr_revoked_at_ms c1 = None → cr_revoked_at_ms c2 = None →
           authority c1 = authority c2 → c1 = c2.
(** The agent and the trigger of a credential exist. *)
Definition owned (db : Db) : Prop :=
  ∀ c, c ∈ db.(auth_credentials) → fk_credential db c = true.
Definition single_authority (db : Db) : Prop := active_alone db ∧ owned db.


Lemma owned_more db db' :
  owned db → db'.(auth_credentials) = db.(auth_credentials) →
  (∀ a, has_agent db a = true → has_agent db' a = true) →
  (∀ t, has_trigger db t = true → has_trigger db' t = true) → owned db'.
Proof.
  intros Ho Hc Ha Ht c. rewrite Hc. intros Hin. specialize (Ho c Hin).
  unfold fk_credential, opt_ref in *. destruct (cr_agent_id c), (cr_trigger_id c);
    bool_facts; rewrite ?Ha, ?Ht by done; done.
Qed.

Lemma single_insert_agent (r : AgentRow) : preserves single_authority (insert r).
Proof.
  apply preserves_insert. intros db [Ha Ho] _ _ _ _. split; [exact Ha|].
  eapply owned_more; [exact Ho|done| |done]. intros a. apply existsb_app_l.
Qed.
Lemma single_insert_trigger (r : TriggerRow) : preserves single_authority (insert r).
Proof.
  apply preserves_insert. intros db [Ha Ho] _ _ _ _. split; [exact Ha|].
  eapply owned_more; [exact Ho|done|done|]. intros a. apply existsb_app_l.
Qed.
Lemma single_update_trigger (p : TriggerRow → bool) f :
  (∀ t, tr_id (f t) = tr_id t) → preserves single_authority (update p f).
Proof.
  intros Hf. apply preserves_update. intros db [Ha Ho] _. split; [exact Ha|].
  eapply owned_more; [exact Ho|done|done|]. intros t. unfold has_trigger. cbn.
  rewrite !existsb_exists. intros (row & Hin & Hid). exists (update_row p f row).
  split; [by apply in_map|]. unfold update_row. destruct (p row); [by rewrite Hf|done].
Qed.
Lemma single_revoke (p : CredentialRow → bool) now :
  preserves single_authority (update p (set_revoked now)).
Proof.
  apply preserves_update. intros db [Ha Ho] _. split.
  - intros c1 c2 (r1 & H1 & ->)%elem_of_update_row (r2 & H2 & ->)%elem_of_update_row.
    destruct (p r1), (p r2); try done. by apply Ha.
  - intros c (r & Hr & ->)%elem_of_update_row. specialize (Ho r Hr). by destruct (p r).
Qed.
#[local] Hint Resolve single_insert_agent single_insert_trigger single_revoke : preserve.
#[local] Hint Extern 1 (preserves single_authority (update _ (set_trigger_fired _ _))) =>
  apply single_update_trigger; done : preserve.
#[local] Hint Extern 1 (preserves single_authority (update _ (set_trigger_retired _ _))) =>
  apply single_update_trigger; done : preserve.

(** Inserting the credential of an authority that has no active one. *)
Lemma single_insert new db u db' :
  insert new db = Ok (u, db') → single_authority db →
  (∀ c, c ∈ db.(auth_credentials) → authority c = authority new → cr_revoked_at_ms c ≠ None) →
  single_authority db'.
Proof.
  intros (_ & _ & _ & Hfk & ->)%insert_ok [Ha Ho] Hnew. split.
  - intros c1 c2. cbn. intros [H1|H1]%elem_of_app [H2|H2]%elem_of_app.
    + by apply Ha.
    + apply list_elem_of_singleton in H2 as ->. intros Hr1 _ He. by destruct (Hnew c1).
    + apply list_elem_of_singleton in H1 as ->. intros _ Hr2 He. by destruct (Hnew c2).
    + by apply list_elem_of_singleton in H1 as ->, H2 as ->.
  - intros c. cbn. intros [Hc| ->%list_elem_of_singleton]%elem_of_app; [exact (Ho c Hc)|exact Hfk].
Qed.

(** Revoking an authority and then inserting its new credential. *)
Lemma single_rotation (p : CredentialRow → bool) now new db n db1 u db' :
  update p (set_revoked now) db = Ok (n, db1) → insert new db1 = Ok (u, db') →
  (∀ c, authority c = authority new → cr_revoked_at_ms c = None → p c = true) →
  single_authority db → single_authority db'.
Proof.
  intros Hup Hin Hp HI. eapply single_insert; [exact Hin|by eapply single_revoke|].
  apply update_ok in Hup as (-> & _). intros c (r & Hr & ->)%elem_of_update_row.
  destruct (p r) eqn:Hpr; [done|]. intros Hauth Hn. by rewrite (Hp r Hauth Hn) in Hpr.
Qed.

Section authorities.
Context `{J : SerdeJson} (sha256_hex : string → string).

(** A key an insert accepted was not in the table before. *)
Lemma fresh_key {R} `{Table R} (key : R → string) (r : R) db u db' :
  (∀ r', key r' = key r → conflict r' r = true) → insert r db = Ok (u, db') →
  existsb (λ r', key r' ==? key r) (rows db) = false.
Proof.
  intros Hk (_ & _ & (_ & _ & Hu)%no_conflict_app & _ & _)%insert_ok.
  destruct (existsb _ _) eqn:He; [|done]. apply existsb_exists in He as (r' & Hr' & Heq).
  bool_facts. specialize (Hu r' r ltac:(by apply list_elem_of_In) (list_elem_of_here _ _)).
  by rewrite Hk in Hu.
Qed.

Lemma register_agent_single `{C : TokenCodec} input cid bytes uuid now db r db' :
  register_agent input cid bytes uuid now db = Ok (r, db') →
  single_authority db → single_authority db'.
Proof.
  unfold register_agent, insert_agent_credential. intros H HI. m_inv.
  match goal with H : map_unique_conflict ?m _ _ = Ok (_, ?d) |- _ =>
    assert (m db = Ok (tt, d)) as Hins
      by (unfold map_unique_conflict in H; repeat case_match; simplify_eq; done); clear H end.
  eapply single_insert; [done|by eapply single_insert_agent|].
  apply (fresh_key a_id) in Hins as Hno.
  - intros c Hc Hauth. apply insert_ok in Hins as (_ & _ & _ & _ & ->). cbn in Hc.
    destruct HI as [_ Ho]. specialize (Ho c Hc). injection Hauth as _ Ha _.
    unfold fk_credential in Ho. rewrite Ha in Ho. cbn in Ho, Hno. unfold has_agent in Ho.
    by rewrite Hno in Ho.
  - intros r' Hr'. cbn. unfold conflict_agent. by rewrite bool_decide_true.
Qed.
Lemma register_trigger_single `{C : TokenCodec} input cid bytes uuid now db r db' :
  register_trigger input cid bytes uuid now db = Ok (r, db') →
  single_authority db → single_authority db'.
Proof.
  unfold register_trigger, insert_trigger. intros H HI. m_inv.
  match goal with H : map_unique_conflict ?m _ _ = Ok (_, ?d) |- _ =>
    assert (m db = Ok (tt, d)) as Hins
      by (unfold map_unique_conflict in H; repeat case_match; simplify_eq; done); clear H end.
  eapply single_insert; [done|by eapply single_insert_trigger|].
  apply (fresh_key tr_id) in Hins as Hno.
  - intros c Hc Hauth. apply insert_ok in Hins as (_ & _ & _ & _ & ->). cbn in Hc.
    destruct HI as [_ Ho]. specialize (Ho c Hc). injection Hauth as _ _ Ht.
    unfold fk_credential in Ho. rewrite Ht, andb_comm in Ho. cbn in Ho, Hno. unfold has_trigger in Ho.
    by rewrite Hno in Ho.
  - intros r' Hr'. cbn. unfold conflict_trigger. by rewrite bool_decide_true.
Qed.
Lemma rotate_agent_single `{C : TokenCodec} a cid bytes now db r db' :
  rotate_agent_credential a cid bytes now db = Ok (r, db') →
  single_authority db → single_authority db'.
Proof.
  unfold rotate_agent_credential, insert_agent_credential. intros H. m_inv.
  eapply single_rotation; [done..|]. intros c [= Hk Ha _] Hn.
  unfold active_agent_credential. by rewrite Hk, Ha, Hn, !bool_decide_true by done.
Qed.
Lemma rotate_operator_single digest uuid now db db' :
  rotate_operator_digest digest uuid now db = Ok (tt, db') →
  single_authority db → single_authority db'.
Proof.
  unfold rotate_operator_digest. intros H. m_inv.
  eapply single_rotation; [done..|]. intros c [= Hk _ _] Hn.
  unfold active_operator_credential. by rewrite Hk, Hn, !bool_decide_true by done.
Qed.
Lemma rotate_trigger_single `{C : TokenCodec} id issued db r db' :
  rotate_trigger_transaction id issued db = Ok (r, db') →
  single_authority db → single_authority db'.
Proof.
  unfold rotate_trigger_transaction, revoke_trigger_credentials. intros H. m_inv.
  eapply single_rotation; [done..|]. intros c [= Hk _ Ht] Hn.
  unfold active_trigger_credential. by rewrite Hk, Ht, Hn, !bool_decide_true by done.
Qed.

Lemma transition_single operator db db' :
  transition sha256_hex operator db db' → single_authority db → single_authority db'.
Proof.
  intros Ht. destruct Ht; try first
    [ by eapply register_agent_single | by eapply rotate_agent_single
    | by eapply rotate_operator_single | by eapply register_trigger_single
    | by eapply rotate_trigger_single ].
  all: by_run; preserves_tac.
Qed.

(** An authority has one active credential: of the credentials of one agent, of
    one trigger, or of the operator, at most one is not revoked. *)
Theorem one_active_credential db c1 c2 :
  reachable sha256_hex db → c1 ∈ db.(auth_credentials) → c2 ∈ db.(auth_credentials) →
  cr_revoked_at_ms c1 = None → cr_revoked_at_ms c2 = None →
  cr_principal_kind c1 = cr_principal_kind c2 → cr_agent_id c1 = cr_agent_id c2 →
  cr_trigger_id c1 = cr_trigger_id c2 → c1 = c2.
Proof.
  intros Hr H1 H2 Hr1 Hr2 Hk Ha Ht. enough (single_authority db) as [Hone _].
  { apply Hone; [done..|]. unfold authority. by rewrite Hk, Ha, Ht. }
  revert Hr. apply (reaches_invariant sha256_hex single_authority).
  - intros op d d' Hd HI. by eapply transition_single.
  - split; [by intros ? ? ?%not_elem_of_nil|by intros ? ?%not_elem_of_nil].
Qed.
End authorities.

(** ** The theorems at concrete states *)

(** A codec that satisfies the laws: bytes are encoded in base 64 groups kept as
    they are and padded to the length the encoding has; a digest is the first 32
    bytes of the padded text. *)
Fixpoint zeros (n : nat) : string :=
  match n with O => "" | S n => String (Ascii.ascii_of_N 48) (zeros n) end.
Fixpoint cut (n : nat) (s : string) : string :=
  match n, s with S n, String a s => String a (cut n s) | _, _ => "" end.
Definition encoded_length (n : nat) : nat := ((4 * n + 2) / 3)%nat.
#[global] Instance plain_codec : TokenCodec := {|
  sha256 := λ s, cut 32 (s +:+ zeros 32);
  b64_encode := λ s, s +:+ zeros (encoded_length (String.length s) - String.length s);
  b64_decode := λ s, Some (cut ((3 * String.length s) / 4)%nat s);
|}.

Lemma zeros_length n : String.length (zeros n) = n.
Proof. induction n; simpl; [done|]. by rewrite IHn. Qed.
Lemma cut_length n s : (n ≤ String.length s)%nat → String.length (cut n s) = n.
Proof.
  revert s. induction n as [|n IH]; intros [|a s] H; simpl in *; try lia. by rewrite IH by lia.
Qed.
Lemma cut_app s t : cut (String.length s) (s +:+ t) = s.
Proof. induction s; simpl; [by destruct t|]. by rewrite IHs. Qed.
Lemma encoded_bounds n : (4 * n ≤ 3 * encoded_length n ≤ 4 * n + 2)%nat.
Proof.
  unfold encoded_length. pose proof (Nat.div_mod_eq (4 * n + 2) 3).
  pose proof (Nat.mod_upper_bound (4 * n + 2) 3 ltac:(lia)). lia.
Qed.
#[global] Instance plain_codec_laws : TokenCodecLaws plain_codec.
Proof.
  assert (∀ s, String.length (b64_encode s) = encoded_length (String.length s)) as Hlen.
  { intros s. cbn [b64_encode plain_codec]. rewrite string_length_app, zeros_length.
    pose proof (encoded_bounds (String.length s)). lia. }
  split.
  - intros s. cbn [sha256 plain_codec]. apply cut_length. rewrite string_length_app, zeros_length. lia.
  - intros s. cbn [b64_decode plain_codec]. rewrite Hlen.
    replace (3 * encoded_length (String.length s) / 4)%nat with (String.length s).
    + cbn [b64_encode plain_codec]. by rewrite cut_app.
    + pose proof (encoded_bounds (String.length s)).
      apply (Nat.div_unique _ _ _ (3 * encoded_length (String.length s) - 4 * String.length s)); lia.
  - exact Hlen.
Qed.

Definition entropy (a : string) : string := a +:+ zeros 31.
Definition op_rotate : M IssuedCredential := rotate_agent_credential "B" "K2" (entropy "2") 60.
Definition db_credential : Db := Eval vm_compute in
  exec (rotate_agent_credential "B" "K1" (entropy "1") 50) db_fleet.
Definition db_rotated : Db := Eval vm_compute in exec op_rotate db_credential.
Definition old_token : string := generate_token AGENT_TOKEN_PREFIX (entropy "1").
Definition new_token : string := generate_token AGENT_TOKEN_PREFIX (entropy "2").

Lemma reachable_credential : reachable plain_sha256 db_credential.
Proof.
  apply (run_step (rotate_agent_credential "B" "K1" (entropy "1") 50) false db_fleet);
    [intros; by eapply t_rotate_agent|done|done|apply reachable_fleet].
Qed.
Lemma reachable_rotated : reachable plain_sha256 db_rotated.
Proof.
  apply (run_step op_rotate false db_credential);
    [intros; by eapply t_rotate_agent|done|done|apply reachable_credential].
Qed.

Lemma rotation_replaces_token_witness :
  authenticate new_token db_rotated = Ok (PAgent "K2" "B", db_rotated)
  ∧ authenticate old_token db_rotated = Err Unauthorized.
Proof.
  destruct (rotation_replaces_token plain_sha256 "B" "K2" (entropy "2") 60 db_credential
              {| issued_id := "K2"; issued_token := new_token; issued_created_at_ms := 60 |}
              db_rotated) as [Hnew Hold].
  - exact reachable_credential.
  - reflexivity.
  - vm_compute. reflexivity.
  - split; [exact Hnew|]. apply (Hold old_token "K1"); [vm_compute; reflexivity|apply rtc_refl].
Defined.

Definition no_credential : CredentialRow :=
  new_credential PrincipalKind.Operator None None "" "" 0.
Definition rotated_row : CredentialRow := Eval vm_compute in
  default no_credential (last db_rotated.(auth_credentials)).
Lemma one_active_credential_witness : rotated_row = rotated_row.
Proof.
  apply (one_active_credential plain_sha256 db_rotated rotated_row rotated_row);
    [exact reachable_rotated|in_rows|in_rows|reflexivity..].
Defined.
