(* ===== verification/StreamBrokerProps.v ===== *)
(** * Stream grants: single use, exact scope, bounded capacity

    The counters of the broker are the numbers they stand for ([broker_ok]); the
    steps of racing redemptions ([broker_step]) keep that, and a log of what was
    issued, taken and admitted shows that a grant is used once.  At the edge, a
    grant has one spelling and an upgrade one set of header values. *)

From stdpp Require Import gmap.
From S2P Require Import Prelude Action Proto Schema Channels Auth AuthProps StreamBroker.

(** ** Counters *)

Section tally.
Context {K A} `{Countable K} (f : A → string).

(** How many entries belong to a credential. *)
Definition tally (m : gmap K A) (c : string) : Z :=
  Z.of_nat (size (filter (λ p : K * A, f p.2 = c) m)).
(** [counts] is the tally, without the credentials that have none. *)
Definition counts_match (counts : gmap string Z) (m : gmap K A) : Prop :=
  ∀ c, counts !! c = if tally m c ==? 0 then None else Some (tally m c).

Lemma tally_nonneg m c : 0 <= tally m c.
Proof. unfold tally. lia. Qed.
Lemma tally_empty c : tally ∅ c = 0.
Proof. unfold tally. by rewrite map_filter_empty, map_size_empty. Qed.
Lemma tally_insert m k a c :
  m !! k = None → tally (<[k := a]> m) c = tally m c + if f a ==? c then 1 else 0.
Proof.
  intros Hk. unfold tally. destruct (decide (f a = c)) as [Hc|Hc].
  - rewrite bool_decide_true by done. rewrite map_filter_insert_True by done.
    rewrite map_size_insert_None by (apply map_lookup_filter_None; by left). lia.
  - rewrite bool_decide_false by done. rewrite map_filter_insert_False by done.
    rewrite delete_id by done. lia.
Qed.
Lemma tally_delete m k a c :
  m !! k = Some a → tally (delete k m) c = tally m c - if f a ==? c then 1 else 0.
Proof.
  intros Hk. rewrite <- (insert_delete_id m k a Hk) at 2.
  rewrite tally_insert by apply lookup_delete_eq. lia.
Qed.
Lemma tally_update m k a b c :
  m !! k = Some a → f b = f a → tally (<[k := b]> m) c = tally m c.
Proof.
  intros Hk Hf. rewrite <- insert_delete_eq, tally_insert, (tally_delete _ _ _ _ Hk), Hf
    by apply lookup_delete_eq. lia.
Qed.
Lemma tally_delete_le m k c : tally (delete k m) c <= tally m c.
Proof.
  destruct (m !! k) as [a|] eqn:Hk; [|by rewrite delete_id].
  rewrite (tally_delete _ _ _ _ Hk). destruct (_ ==? _); lia.
Qed.

Lemma count_of_match counts m c : counts_match counts m → count_of counts c = tally m c.
Proof.
  intros Hm. unfold count_of. rewrite Hm. destruct (decide (tally m c = 0)) as [->|Hn]; [done|].
  by rewrite bool_decide_false.
Qed.
Lemma match_empty : counts_match ∅ ∅.
Proof. intros c. by rewrite tally_empty. Qed.
Lemma match_increment counts m k a :
  counts_match counts m → m !! k = None →
  counts_match (increment_count counts (f a)) (<[k := a]> m).
Proof.
  intros Hm Hk c. unfold increment_count. rewrite (count_of_match _ m) by done.
  rewrite tally_insert by done. pose proof (tally_nonneg m c).
  destruct (decide (f a = c)) as [<-|Hc].
  - rewrite lookup_insert_eq, (bool_decide_true (f a = f a)) by done.
    rewrite bool_decide_false by lia. done.
  - rewrite lookup_insert_ne, (bool_decide_false (f a = c)) by done. by rewrite Hm, Z.add_0_r.
Qed.
Lemma match_decrement counts m k a :
  counts_match counts m → m !! k = Some a →
  ∃ counts', decrement_count counts (f a) = Some counts' ∧ counts_match counts' (delete k m).
Proof.
  intros Hm Hk. pose proof (tally_delete m k a (f a) Hk) as Hd.
  rewrite bool_decide_true in Hd by done. pose proof (tally_nonneg (delete k m) (f a)).
  unfold decrement_count. rewrite Hm, bool_decide_false by lia.
  rewrite (proj2 (Z.ltb_lt _ _)) by lia. simpl.
  destruct (tally m (f a) - 1 ==? 0) eqn:Hz; eexists; (split; [done|]); intros c;
    rewrite (tally_delete m k a c Hk); (destruct (decide (f a = c)) as [<-|Hc];
      [|rewrite ?lookup_delete_ne, ?lookup_insert_ne, (bool_decide_false (f a = c)) by done;
        by rewrite Hm, Z.sub_0_r]).
  - bool_facts. rewrite lookup_delete_eq, (bool_decide_true (f a = f a)), bool_decide_true; done.
  - bool_facts. rewrite lookup_insert_eq, (bool_decide_true (f a = f a)), bool_decide_false; done.
Qed.
End tally.

(** ** The invariant of the state *)

Section broker.
Context `{C : TokenCodec} (limits : BrokerLimits).

(** Bounds are [usize] values. *)
Definition limits_ok : Prop :=
  0 <= lim_unused_total limits ∧ 0 <= lim_unused_per_credential limits
  ∧ 0 <= lim_active_total limits ∧ 0 <= lim_active_per_credential limits.

Record broker_ok (slots : gmap nat ActiveStreamSlot) (s : BrokerState) : Prop := {
  ok_unused : counts_match grant_credential (bs_unused_by_credential s) (bs_unused s);
  ok_active : counts_match slot_credential_id (bs_active_by_credential s) slots;
  ok_total : bs_active_total s = Z.of_nat (size slots);
  ok_unused_total : Z.of_nat (size (bs_unused s)) <= lim_unused_total limits;
  ok_unused_each : ∀ c, tally grant_credential (bs_unused s) c <= lim_unused_per_credential limits;
  ok_active_total : Z.of_nat (size slots) <= lim_active_total limits;
  ok_active_each : ∀ c, tally slot_credential_id slots c <= lim_active_per_credential limits;
}.

Lemma new_broker_ok : limits_ok → broker_ok ∅ new_broker.
Proof.
  intros (? & ? & ? & ?). split; simpl; try apply match_empty; try done; try (intros c; rewrite tally_empty);
    rewrite ?map_size_empty; lia.
Qed.

(** Taking a grant out. *)
Lemma remove_ok slots s digest record :
  broker_ok slots s → bs_unused s !! digest = Some record →
  ∃ counts, decrement_count (bs_unused_by_credential s) (grant_credential record) = Some counts
    ∧ broker_ok slots (set_unused (delete digest (bs_unused s)) counts s).
Proof.
  intros [Hu Ha Ht Hut Hue Hat Hae] Hd.
  destruct (match_decrement _ _ _ _ _ Hu Hd) as (counts & Hc & Hm).
  exists counts. split; [done|]. split; simpl; try done.
  - rewrite map_size_delete_Some by done. lia.
  - intros c. rewrite (tally_delete _ _ _ _ _ Hd). specialize (Hue c). destruct (_ ==? _); lia.
Qed.

Lemma prune_each_ok slots digests s :
  broker_ok slots s → ∃ s', prune_each digests s = Some s' ∧ broker_ok slots s'
    ∧ bs_unused s' = filter (λ p : string * GrantRecord, p.1 ∉ digests) (bs_unused s)
    ∧ bs_active_by_credential s' = bs_active_by_credential s
    ∧ bs_active_total s' = bs_active_total s.
Proof.
  revert s. induction digests as [|d digests IH]; intros s Hok; simpl.
  - exists s. split_and!; try done. symmetry. apply map_filter_id. intros i x _ Hin. set_solver.
  - unfold prune_one. destruct (bs_unused s !! d) as [record|] eqn:Hd.
    + destruct (remove_ok _ _ _ _ Hok Hd) as (counts & -> & Hok').
      destruct (IH _ Hok') as (s' & -> & Hs' & Hu & Hrest). exists s'. split_and!; try done; try apply Hrest.
      rewrite Hu. simpl. apply map_eq. intros k. apply option_eq. intros r.
      rewrite !map_lookup_filter_Some, lookup_delete_Some. simpl. set_solver.
    + destruct (IH _ Hok) as (s' & -> & Hs' & Hu & Hrest). exists s'. split_and!; try done; try apply Hrest.
      rewrite Hu. apply map_eq. intros k. apply option_eq. intros r.
      rewrite !map_lookup_filter_Some. simpl. split; intros [Hk Hn]; (split; [done|]); [|set_solver].
      intros [->|Hin]%elem_of_cons; [congruence|done].
Qed.

(** The grants that can still be redeemed at a time. *)
Definition live_grants (now : Z) (s : BrokerState) : gmap string GrantRecord :=
  filter (λ p : string * GrantRecord, now < gr_expires_at p.2) (bs_unused s).

Lemma prune_expired_ok slots s now :
  broker_ok slots s → ∃ s', prune_expired s now = Some s' ∧ broker_ok slots s'
    ∧ bs_unused s' = live_grants now s
    ∧ bs_active_by_credential s' = bs_active_by_credential s ∧ bs_active_total s' = bs_active_total s.
Proof.
  intros Hok. unfold prune_expired.
  destruct (prune_each_ok slots (map fst (List.filter (λ p : string * GrantRecord, gr_expires_at p.2 <=? now)
     (map_to_list (bs_unused s)))) s Hok) as (s' & Hp & Hs' & Hu & Hrest).
  exists s'. split_and!; try done; try apply Hrest. rewrite Hu. unfold live_grants. apply map_filter_ext.
  intros k r Hk. simpl. split.
  - intros Hn. destruct (Z.lt_ge_cases now (gr_expires_at r)); [done|]. destruct Hn.
    apply list_elem_of_In, in_map_iff. exists (k, r). split; [done|]. apply filter_In.
    split; [by apply list_elem_of_In, elem_of_map_to_list|]. simpl. lia.
  - intros Hlt [[k' r'] [Heq [Hin Hle]%filter_In]]%list_elem_of_In%in_map_iff. simpl in *. subst k'.
    apply list_elem_of_In, elem_of_map_to_list in Hin. simplify_eq. lia.
Qed.

Lemma draw_grant_ok attempts entropy existing grant digest :
  draw_grant attempts entropy existing = inl (grant, digest) →
  digest = sha256 grant ∧ existing !! digest = None
  ∧ ∃ bytes, Some bytes ∈ entropy ∧ grant = STREAM_GRANT_PREFIX +:+ b64_encode bytes.
Proof.
  revert entropy. induction attempts as [|n IH]; intros [|[bytes|] entropy] H; try done. simpl in H.
  destruct (existing !! sha256 (STREAM_GRANT_PREFIX +:+ b64_encode bytes)) eqn:He.
  - apply IH in H as (? & ? & b & Hb & ?). split_and!; try done. exists b. split; [by right|done].
  - injection H as <- <-. split_and!; try done. exists bytes. split; [by left|done].
Qed.
Lemma draw_grant_error attempts entropy existing e :
  draw_grant attempts entropy existing = inr e → e = BrokerEntropy.
Proof.
  revert entropy. induction attempts as [|n IH]; intros [|[bytes|] entropy] H; simpl in H;
    try (by injection H as <-). destruct (existing !! _); [by eapply IH|done].
Qed.

(** The scope of a grant that may be issued. *)
Definition valid_scope (authorization : AuthorizedChannelStream) (protocol : string) : Prop :=
  0 <= acs_after authorization ∧ protocol ≠ "" ∧ str_len protocol <= MAX_PROTOCOL_LENGTH.
(** Room for one more grant among the live ones. *)
Definition has_grant_room (credential_id : string) (now : Z) (s : BrokerState) : Prop :=
  Z.of_nat (size (live_grants now s)) < lim_unused_total limits
  ∧ tally grant_credential (live_grants now s) credential_id < lim_unused_per_credential limits.
Definition issued_record (authorization : AuthorizedChannelStream) (protocol : string) (now : Z)
    : GrantRecord :=
  {| gr_authorization := authorization; gr_protocol := protocol;
     gr_expires_at := now + lim_grant_lifetime limits |}.

Lemma issue_ok slots s authorization protocol now entropy :
  broker_ok slots s →
  ∃ s' r, issue limits authorization protocol now entropy s = Some (s', r) ∧ broker_ok slots s'
    ∧ bs_active_by_credential s' = bs_active_by_credential s ∧ bs_active_total s' = bs_active_total s
    ∧ match r with
      | inl issued =>
          valid_scope authorization protocol ∧ has_grant_room (acs_credential_id authorization) now s
          ∧ isg_lifetime issued = lim_grant_lifetime limits
          ∧ live_grants now s !! sha256 (isg_grant issued) = None
          ∧ bs_unused s' = <[sha256 (isg_grant issued) := issued_record authorization protocol now]>
                             (live_grants now s)
          ∧ ∃ bytes, Some bytes ∈ entropy ∧ isg_grant issued = STREAM_GRANT_PREFIX +:+ b64_encode bytes
      | inr BrokerInvalidScope => s' = s ∧ ¬ valid_scope authorization protocol
      | inr BrokerCapacity =>
          valid_scope authorization protocol ∧ bs_unused s' = live_grants now s
          ∧ ¬ has_grant_room (acs_credential_id authorization) now s
      | inr BrokerEntropy =>
          valid_scope authorization protocol ∧ bs_unused s' = live_grants now s
          ∧ has_grant_room (acs_credential_id authorization) now s
          ∧ generate_unique_grant entropy (live_grants now s) = inr BrokerEntropy
      | inr _ => False
      end.
Proof.
  intros Hok. unfold issue, valid_scope, has_grant_room.
  destruct ((acs_after authorization <? 0) || (protocol ==? "") || (MAX_PROTOCOL_LENGTH <? str_len protocol)) eqn:Hs.
  { eexists _, _. split; [done|]. split_and!; try done. intros (? & ? & ?). rewrite bool_decide_false in Hs by done. lia. }
  apply orb_false_iff in Hs as [[Hs1 Hs2]%orb_false_iff Hs3]. bool_facts.
  destruct (prune_expired_ok slots s now Hok) as (s1 & -> & Hok1 & Hu & Hab & Hat).
  pose proof (count_of_match _ _ _ (acs_credential_id authorization) (ok_unused _ _ Hok1)) as Hcount.
  rewrite Hu in *. rewrite Hcount.
  assert (0 <= acs_after authorization ∧ protocol ≠ "" ∧ str_len protocol <= MAX_PROTOCOL_LENGTH) as Hscope
    by (split_and!; [lia|done|lia]).
  destruct ((lim_unused_total limits <=? _) || (lim_unused_per_credential limits <=? _)) eqn:Hcap.
  { eexists _, _. split; [done|]. split_and!; try done; lia. }
  apply orb_false_iff in Hcap as [Hc1 Hc2]. unfold generate_unique_grant.
  destruct (draw_grant _ _ _) as [[grant digest]|e] eqn:Hg.
  - apply draw_grant_ok in Hg as (-> & Hfresh & Hbytes). eexists _, _. split; [done|].
    split; [|split_and!; try done; lia].
    destruct Hok1 as [Hu1 Ha1 Ht1 Hut1 Hue1 Hat1 Hae1]. rewrite Hu in *. split; simpl; try done.
    + by apply (match_increment grant_credential _ _ _ (issued_record authorization protocol now)).
    + rewrite map_size_insert_None by done. lia.
    + intros c. rewrite tally_insert by done. specialize (Hue1 c). unfold grant_credential at 2. simpl.
      destruct (decide (acs_credential_id authorization = c)) as [<-|]; [|rewrite bool_decide_false by done; lia].
      rewrite bool_decide_true by done. lia.
  - pose proof (draw_grant_error _ _ _ _ Hg) as ->. eexists _, _. split; [done|]. split_and!; try done; lia.
Qed.

Lemma grant_digest_is grant : grant_digest grant = None ∨ grant_digest grant = Some (sha256 grant).
Proof.
  unfold grant_digest. destruct (strip_prefix _ _); [|by left]. destruct (_ !=? _); [by left|].
  destruct (b64_decode _); [|by left]. destruct (_ !=? _); [by left|by right].
Qed.

Lemma take_ok slots s grant :
  broker_ok slots s →
  ∃ s' r, take_grant grant s = Some (s', r) ∧ broker_ok slots s'
    ∧ bs_active_by_credential s' = bs_active_by_credential s ∧ bs_active_total s' = bs_active_total s
    ∧ match r with
      | inl record => grant_digest grant = Some (sha256 grant) ∧ bs_unused s !! sha256 grant = Some record
                      ∧ bs_unused s' = delete (sha256 grant) (bs_unused s)
      | inr e => e = BrokerRejected ∧ s' = s
                 ∧ (grant_digest grant = Some (sha256 grant) → bs_unused s !! sha256 grant = None)
      end.
Proof.
  intros Hok. unfold take_grant.
  destruct (grant_digest_is grant) as [-> | ->].
  { eexists _, _. split; [done|]. split_and!; done. }
  destruct (bs_unused s !! sha256 grant) as [record|] eqn:Hd; [|eexists _, _; split; [done|]; split_and!; done].
  destruct (remove_ok _ _ _ _ Hok Hd) as (counts & -> & Hok'). eexists _, _. split; [done|]. split_and!; done.
Qed.

Lemma reserve_ok slots s credential_id slot_id :
  broker_ok slots s → slots !! slot_id = None →
  match reserve_active limits credential_id s with
  | (s', inl slot) =>
      slot_credential_id slot = credential_id ∧ broker_ok (<[slot_id := slot]> slots) s'
      ∧ bs_unused s' = bs_unused s
      ∧ Z.of_nat (size slots) < lim_active_total limits
      ∧ tally slot_credential_id slots credential_id < lim_active_per_credential limits
  | (s', inr e) =>
      e = BrokerRejected ∧ s' = s
      ∧ (Z.of_nat (size slots) = lim_active_total limits
         ∨ tally slot_credential_id slots credential_id = lim_active_per_credential limits)
  end.
Proof.
  intros [Hu Ha Ht Hut Hue Hat Hae] Hslot. unfold reserve_active.
  rewrite (count_of_match slot_credential_id _ slots) by done. rewrite Ht.
  pose proof (Hae credential_id).
  destruct ((lim_active_total limits <=? _) || (lim_active_per_credential limits <=? _)) eqn:Hcap;
    [split_and!; try done; lia|]. apply orb_false_iff in Hcap as [Hc1 Hc2].
  split; [done|]. split; [|split_and!; [done|lia|lia]]. split; simpl; try done.
  - by apply (match_increment slot_credential_id _ _ _ {| slot_credential_id := credential_id |}).
  - rewrite map_size_insert_None by done. lia.
  - rewrite map_size_insert_None by done. lia.
  - intros c. rewrite tally_insert by done. simpl.
    destruct (decide (credential_id = c)) as [<-|]; [|rewrite bool_decide_false by done; specialize (Hae c); lia].
    rewrite bool_decide_true by done. lia.
Qed.

Lemma drop_ok slots s slot_id slot :
  broker_ok slots s → slots !! slot_id = Some slot →
  ∃ s', drop_slot slot s = Some s' ∧ broker_ok (delete slot_id slots) s' ∧ bs_unused s' = bs_unused s.
Proof.
  intros [Hu Ha Ht Hut Hue Hat Hae] Hslot. unfold drop_slot.
  destruct (match_decrement _ _ _ _ _ Ha Hslot) as (counts & -> & Hm).
  assert (size slots ≠ 0)%nat as Hne by (rewrite map_size_non_empty_iff; intros ->; done).
  rewrite (proj2 (Z.ltb_lt _ _)) by lia. simpl. eexists. split; [done|]. split; [|done].
  split; simpl; try done.
  - rewrite map_size_delete_Some by done. lia.
  - rewrite map_size_delete_Some by done. lia.
  - intros c. rewrite (tally_delete _ _ _ _ _ Hslot). specialize (Hae c). destruct (_ ==? _); lia.
Qed.
End broker.

(** ** Racing redemptions *)

(** How far a task is with the redemption of the grant it took. *)
Inductive Stage :=
| StageTaken
| StageChecked (at_ : Z)
| StageRevalidated (at_ : Z) (db : Db).
Record Redemption := {
  rd_digest : string;
  rd_record : GrantRecord;
  rd_protocol : string;
  rd_stage : Stage;
}.
Definition with_stage (stage : Stage) (rd : Redemption) : Redemption :=
  {| rd_digest := rd_digest rd; rd_record := rd_record rd; rd_protocol := rd_protocol rd;
     rd_stage := stage |}.
Inductive BrokerEvent :=
| Issued (digest : string) (record : GrantRecord) (at_ : Z)
| WasAdmitted (digest : string) (record : GrantRecord) (protocol : string) (at_ : Z) (db : Db).
Definition issues (d : string) (log : list BrokerEvent) : nat :=
  length (List.filter (λ e, match e with Issued d' _ _ => d' ==? d | _ => false end) log).
Definition admissions (d : string) (log : list BrokerEvent) : nat :=
  length (List.filter (λ e, match e with WasAdmitted d' _ _ _ _ => d' ==? d | _ => false end) log).

(** The broker, the slots that are held, the redemptions under way, what happened
    so far and the clock. *)
Record Racing := mkRacing {
  rc_state : BrokerState;
  rc_slots : gmap nat ActiveStreamSlot;
  rc_tasks : gmap nat Redemption;
  rc_log : list BrokerEvent;
  rc_clock : Z;
}.
Definition no_race (now : Z) : Racing := mkRacing new_broker ∅ ∅ [] now.

Section racing.
Context `{C : TokenCodec} (limits : BrokerLimits).

(** One critical section of one task; a task may also be dropped at an await. *)
Inductive broker_step : Racing → Racing → Prop :=
| step_issue s slots tasks log clock authorization protocol now entropy s' r :
    clock <= now → issue limits authorization protocol now entropy s = Some (s', r) →
    broker_step (mkRacing s slots tasks log clock)
      (mkRacing s' slots tasks
         (log ++ match r with
                 | inl issued => [Issued (sha256 (isg_grant issued))
                                    (issued_record limits authorization protocol now) now]
                 | inr _ => []
                 end) now)
| step_take s slots tasks log clock t grant protocol s' record :
    tasks !! t = None → slots !! t = None → take_grant grant s = Some (s', inl record) →
    broker_step (mkRacing s slots tasks log clock)
      (mkRacing s' slots
         (<[t := {| rd_digest := sha256 grant; rd_record := record; rd_protocol := protocol;
                    rd_stage := StageTaken |}]> tasks) log clock)
| step_refuse s slots tasks log clock grant s' e :
    take_grant grant s = Some (s', inr e) →
    broker_step (mkRacing s slots tasks log clock) (mkRacing s' slots tasks log clock)
| step_check s slots tasks log clock t rd now :
    tasks !! t = Some rd → rd_stage rd = StageTaken → clock <= now →
    broker_step (mkRacing s slots tasks log clock)
      (mkRacing s slots
         (match check_grant (rd_record rd) (rd_protocol rd) now with
          | inl _ => <[t := with_stage (StageChecked now) rd]> tasks
          | inr _ => delete t tasks
          end) log now)
| step_revalidate s slots tasks log clock t rd at_ db :
    tasks !! t = Some rd → rd_stage rd = StageChecked at_ →
    broker_step (mkRacing s slots tasks log clock)
      (mkRacing s slots
         (match check_principal (rd_record rd) db with
          | inl _ => <[t := with_stage (StageRevalidated at_ db) rd]> tasks
          | inr _ => delete t tasks
          end) log clock)
| step_reserve s slots tasks log clock t rd at_ db s' slot :
    tasks !! t = Some rd → rd_stage rd = StageRevalidated at_ db →
    reserve_active limits (grant_credential (rd_record rd)) s = (s', inl slot) →
    broker_step (mkRacing s slots tasks log clock)
      (mkRacing s' (<[t := slot]> slots) (delete t tasks)
         (log ++ [WasAdmitted (rd_digest rd) (rd_record rd) (rd_protocol rd) at_ db]) clock)
| step_full s slots tasks log clock t rd at_ db s' e :
    tasks !! t = Some rd → rd_stage rd = StageRevalidated at_ db →
    reserve_active limits (grant_credential (rd_record rd)) s = (s', inr e) →
    broker_step (mkRacing s slots tasks log clock) (mkRacing s' slots (delete t tasks) log clock)
| step_cancel s slots tasks log clock t :
    broker_step (mkRacing s slots tasks log clock) (mkRacing s slots (delete t tasks) log clock)
| step_drop s slots tasks log clock t slot s' :
    slots !! t = Some slot → drop_slot slot s = Some s' →
    broker_step (mkRacing s slots tasks log clock) (mkRacing s' (delete t slots) tasks log clock).
Definition broker_run : Racing → Racing → Prop := rtc broker_step.

(** ** What holds in every race *)

(** The grant was issued with this record, a lifetime before it expires. *)
Definition issued_as (log : list BrokerEvent) (clock : Z) (d : string) (record : GrantRecord) : Prop :=
  ∃ at_, Issued d record at_ ∈ log ∧ at_ <= clock
    ∧ gr_expires_at record = at_ + lim_grant_lifetime limits.
Definition was_checked (record : GrantRecord) (protocol : string) (at_ : Z) : Prop :=
  at_ < gr_expires_at record ∧ gr_protocol record = protocol.
Definition stage_ok (clock : Z) (rd : Redemption) : Prop :=
  match rd_stage rd with
  | StageTaken => True
  | StageChecked at_ => was_checked (rd_record rd) (rd_protocol rd) at_ ∧ at_ <= clock
  | StageRevalidated at_ db =>
      was_checked (rd_record rd) (rd_protocol rd) at_ ∧ at_ <= clock
      ∧ check_principal (rd_record rd) db = inl tt
  end.
(** What an admission means. *)
Definition admission_ok (log : list BrokerEvent) (e : BrokerEvent) : Prop :=
  match e with
  | Issued _ _ _ => True
  | WasAdmitted d record protocol at_ db =>
      (∃ issued_at, Issued d record issued_at ∈ log
                    ∧ at_ < issued_at + lim_grant_lifetime limits)
      ∧ gr_protocol record = protocol
      ∧ ∃ db', revalidate_principal (issuing_principal (gr_authorization record)) db = Ok (true, db')
  end.
Record racing_ok (x : Racing) : Prop := {
  race_broker : broker_ok limits (rc_slots x) (rc_state x);
  race_apart : ∀ t, is_Some (rc_tasks x !! t) → rc_slots x !! t = None;
  race_unused : ∀ d record, bs_unused (rc_state x) !! d = Some record →
    issued_as (rc_log x) (rc_clock x) d record;
  race_tasks : ∀ t rd, rc_tasks x !! t = Some rd →
    issued_as (rc_log x) (rc_clock x) (rd_digest rd) (rd_record rd) ∧ stage_ok (rc_clock x) rd;
  race_admitted : Forall (admission_ok (rc_log x)) (rc_log x);
  race_single : ∀ d,
    Z.of_nat (admissions d (rc_log x)) + tally rd_digest (rc_tasks x) d
    + (if decide (is_Some (bs_unused (rc_state x) !! d)) then 1 else 0)
    <= Z.of_nat (issues d (rc_log x));
}.

Lemma issued_as_mono log log' clock clock' d record :
  log ⊆ log' → clock <= clock' → issued_as log clock d record → issued_as log' clock' d record.
Proof. intros Hl Hc (at_ & Hi & Ha & He). exists at_. split_and!; [by apply Hl|lia|done]. Qed.
Lemma stage_ok_mono clock clock' rd : clock <= clock' → stage_ok clock rd → stage_ok clock' rd.
Proof. intros Hc. unfold stage_ok. destruct (rd_stage rd); [done| |]; intros; split_and!; try tauto; lia. Qed.
Lemma admission_ok_mono log log' e : log ⊆ log' → admission_ok log e → admission_ok log' e.
Proof.
  intros Hl. destruct e as [|d record protocol at_ db]; [done|]. intros ((i & Hi & Ha) & Hrest).
  split; [|done]. exists i. split; [by apply Hl|done].
Qed.
Lemma check_principal_ok record db u :
  check_principal record db = inl u →
  ∃ db', revalidate_principal (issuing_principal (gr_authorization record)) db = Ok (true, db').
Proof.
  unfold check_principal. destruct (revalidate_principal _ _) as [[[|] db']|e]; [|done|done]. eauto.
Qed.

Lemma no_race_ok now : limits_ok limits → racing_ok (no_race now).
Proof.
  intros. split; [by apply new_broker_ok|done..].
Qed.

(** A task goes on or ends; nothing else moves but the clock. *)
Lemma task_ends_ok s slots tasks log clock clock' t :
  racing_ok (mkRacing s slots tasks log clock) → clock <= clock' →
  racing_ok (mkRacing s slots (delete t tasks) log clock').
Proof.
  intros [Hb Hap Hu Ht Ha Hs] Hc. split; simpl in *; try done.
  - intros t' [rd [_ Hrd]%lookup_delete_Some]. apply Hap. by exists rd.
  - intros d record Hd. eapply issued_as_mono; [..|by apply Hu]; done.
  - intros t' rd [_ Hrd]%lookup_delete_Some. destruct (Ht _ _ Hrd).
    split; [by eapply issued_as_mono|by eapply stage_ok_mono].
  - intros d. specialize (Hs d). pose proof (tally_delete_le rd_digest tasks t d). lia.
Qed.
Lemma task_moves_ok s slots tasks log clock clock' t rd stage :
  racing_ok (mkRacing s slots tasks log clock) → clock <= clock' → tasks !! t = Some rd →
  stage_ok clock' (with_stage stage rd) →
  racing_ok (mkRacing s slots (<[t := with_stage stage rd]> tasks) log clock').
Proof.
  intros [Hb Hap Hu Ht Ha Hs] Hc Hrd Hstage. split; simpl in *; try done.
  - intros t' [rd' H']. apply Hap. apply lookup_insert_Some in H' as [[<- _]|[_ H']]; eauto.
  - intros d record Hd. eapply issued_as_mono; [..|by apply Hu]; done.
  - intros t' rd' [[<- <-]|[_ H']]%lookup_insert_Some.
    + split; [|done]. eapply issued_as_mono; [..|by apply (Ht t rd)]; done.
    + destruct (Ht _ _ H'). split; [by eapply issued_as_mono|by eapply stage_ok_mono].
  - intros d. specialize (Hs d). by rewrite (tally_update _ _ _ rd).
Qed.

Lemma issued_ok s slots tasks log clock authorization protocol now entropy s' r :
  racing_ok (mkRacing s slots tasks log clock) → clock <= now →
  issue limits authorization protocol now entropy s = Some (s', r) →
  racing_ok (mkRacing s' slots tasks
    (log ++ match r with
            | inl issued => [Issued (sha256 (isg_grant issued))
                               (issued_record limits authorization protocol now) now]
            | inr _ => []
            end) now).
Proof.
  intros [Hb Hap Hu Ht Ha Hs] Hc Hissue. simpl in *.
  destruct (issue_ok limits slots s authorization protocol now entropy Hb)
    as (s1 & r1 & Heq & Hb1 & _ & _ & Hr). rewrite Hissue in Heq. injection Heq as <- <-.
  set (new := match r with inl issued => _ | inr _ => [] end).
  assert (log ⊆ log ++ new) as Hsub by set_solver.
  assert (∀ d record, live_grants now s !! d = Some record → issued_as (log ++ new) now d record) as Hlive.
  { intros d record [Hd _]%map_lookup_filter_Some. eapply issued_as_mono; [..|by apply Hu]; done. }
  assert (∀ d, admissions d (log ++ new) = admissions d log) as Hadm.
  { intros d. unfold admissions, new. rewrite List.filter_app. destruct r; by rewrite app_nil_r. }
  assert (∀ d, is_Some (live_grants now s !! d) → is_Some (bs_unused s !! d)) as Hwas.
  { intros d [record [Hd _]%map_lookup_filter_Some]. by exists record. }
  split; simpl; try done.
  - destruct r as [issued|[]]; try done; intros d record Hd.
    2-4: destruct Hr as (? & Hr); try (rewrite (proj1 Hr) in Hd); subst;
      first [by apply Hlive|by (eapply issued_as_mono; [..|by apply Hu])].
    destruct Hr as (_ & _ & _ & _ & Hun & _). rewrite Hun in Hd.
    apply lookup_insert_Some in Hd as [[<- <-]|[_ Hd]]; [|by apply Hlive].
    exists now. unfold new. split_and!; [set_solver|lia|done].
  - intros t rd Hrd. destruct (Ht _ _ Hrd). split; [by eapply issued_as_mono|by eapply stage_ok_mono].
  - apply Forall_app. split; [|unfold new; destruct r; repeat constructor].
    eapply Forall_impl; [exact Ha|]. intros e. by apply admission_ok_mono.
  - intros d. rewrite Hadm. specialize (Hs d). unfold issues in *. rewrite List.filter_app, length_app.
    assert ((if decide (is_Some (bs_unused s' !! d)) then 1 else 0)
      <= (if decide (is_Some (bs_unused s !! d)) then 1 else 0)
         + Z.of_nat (length (List.filter (λ e, match e with Issued d' _ _ => d' ==? d | _ => false end) new)))
      as Hgrow; [|lia].
    destruct (decide (is_Some (bs_unused s' !! d))) as [[record Hd]|]; [|destruct (decide _); lia].
    destruct r as [issued|[]]; try done.
    2-4: rewrite decide_True; [lia|]; destruct Hr as (? & Hr);
      try (rewrite (proj1 Hr) in Hd); subst; eauto.
    destruct Hr as (_ & _ & _ & _ & Hun & _). rewrite Hun in Hd.
    apply lookup_insert_Some in Hd as [[<- _]|[_ Hd]].
    + unfold new. simpl. rewrite bool_decide_true by done. simpl. destruct (decide _); lia.
    + rewrite decide_True by eauto. lia.
Qed.

Lemma taken_ok s slots tasks log clock t grant protocol s' record :
  racing_ok (mkRacing s slots tasks log clock) → tasks !! t = None → slots !! t = None →
  take_grant grant s = Some (s', inl record) →
  racing_ok (mkRacing s' slots
    (<[t := {| rd_digest := sha256 grant; rd_record := record; rd_protocol := protocol;
               rd_stage := StageTaken |}]> tasks) log clock).
Proof.
  intros [Hb Hap Hu Ht Ha Hs] Htask Hslot Htake. simpl in *.
  destruct (take_ok limits slots s grant Hb) as (s1 & r1 & Heq & Hb1 & _ & _ & Hr).
  rewrite Htake in Heq. injection Heq as <- <-. destruct Hr as (_ & Hwas & Hun).
  split; simpl; try done.
  - intros t' [rd [[<- _]|[_ Hrd]]%lookup_insert_Some]; [done|]. apply Hap. by exists rd.
  - intros d r. rewrite Hun. intros [_ Hd]%lookup_delete_Some. by apply Hu.
  - intros t' rd [[<- <-]|[_ Hrd]]%lookup_insert_Some; [|by apply (Ht t')]. split; [by apply Hu|done].
  - intros d. specialize (Hs d). rewrite tally_insert by done. simpl. rewrite Hun.
    destruct (decide (sha256 grant = d)) as [<-|Hd].
    + rewrite bool_decide_true, decide_False by (done || rewrite lookup_delete_eq; by intros [? [=]]).
      rewrite decide_True in Hs by eauto. lia.
    + rewrite bool_decide_false, lookup_delete_ne by done. lia.
Qed.

Lemma admitted_ok s slots tasks log clock t rd at_ db s' slot :
  racing_ok (mkRacing s slots tasks log clock) → tasks !! t = Some rd →
  rd_stage rd = StageRevalidated at_ db →
  reserve_active limits (grant_credential (rd_record rd)) s = (s', inl slot) →
  racing_ok (mkRacing s' (<[t := slot]> slots) (delete t tasks)
    (log ++ [WasAdmitted (rd_digest rd) (rd_record rd) (rd_protocol rd) at_ db]) clock).
Proof.
  intros [Hb Hap Hu Ht Ha Hs] Hrd Hstage Hres. simpl in *.
  pose proof (reserve_ok limits slots s (grant_credential (rd_record rd)) t Hb (Hap t ltac:(by eexists))) as Hr.
  rewrite Hres in Hr. destruct Hr as (_ & Hb1 & Hun & _).
  set (e := WasAdmitted _ _ _ _ _). assert (log ⊆ log ++ [e]) as Hsub by set_solver.
  destruct (Ht _ _ Hrd) as [(i & Hi & Hic & Hexp) Hok]. unfold stage_ok in Hok. rewrite Hstage in Hok.
  destruct Hok as ([Hexpires Hprotocol] & _ & Hvalid).
  split; simpl; try done.
  - intros t' [r [Hne Hr]%lookup_delete_Some]. rewrite lookup_insert_ne by done. apply Hap. by exists r.
  - intros d r. rewrite Hun. intros Hd. eapply issued_as_mono; [..|by apply Hu]; done.
  - intros t' r [_ Hr]%lookup_delete_Some. destruct (Ht _ _ Hr). split; [by eapply (issued_as_mono log _ clock)|done].
  - apply Forall_app. split; [eapply Forall_impl; [exact Ha|]; intros; by eapply admission_ok_mono|].
    repeat constructor; [|done|by eapply check_principal_ok]. exists i. split; [by apply Hsub|lia].
  - intros d. specialize (Hs d). rewrite (tally_delete _ _ _ _ _ Hrd), Hun.
    unfold issues, admissions in *. rewrite !List.filter_app, !length_app. simpl.
    destruct (rd_digest rd ==? d); simpl; lia.
Qed.

Lemma dropped_ok s slots tasks log clock t slot s' :
  racing_ok (mkRacing s slots tasks log clock) → slots !! t = Some slot → drop_slot slot s = Some s' →
  racing_ok (mkRacing s' (delete t slots) tasks log clock).
Proof.
  intros [Hb Hap Hu Ht Ha Hs] Hslot Hdrop. simpl in *.
  destruct (drop_ok limits slots s t slot Hb Hslot) as (s1 & Heq & Hb1 & Hun).
  rewrite Hdrop in Heq. injection Heq as <-. split; simpl; try done; [|by rewrite Hun..].
  intros t' Htask. destruct (decide (t' = t)) as [->|]; [by rewrite lookup_delete_eq|].
  rewrite lookup_delete_ne by done. by apply Hap.
Qed.

Lemma step_ok x y : racing_ok x → broker_step x y → racing_ok y.
Proof.
  intros Hx Hstep. destruct Hstep.
  - by eapply issued_ok.
  - by eapply taken_ok.
  - match goal with H : take_grant _ _ = _ |- _ =>
      destruct (take_ok limits slots s grant (race_broker _ Hx)) as (s1 & r1 & Heq & _ & _ & _ & Hr);
      rewrite H in Heq end. injection Heq as <- <-. by destruct Hr as (_ & -> & _).
  - destruct (check_grant _ _ _) eqn:Hc; [|by eapply task_ends_ok].
    eapply task_moves_ok; try done. apply reject_ok, orb_false_iff in Hc as [Hc1 Hc2].
    bool_facts. split; [split; [simpl; lia|done]|simpl; lia].
  - destruct (check_principal _ _) as [[]|] eqn:Hc; [|by eapply task_ends_ok].
    eapply task_moves_ok; try done. destruct (race_tasks _ Hx t rd) as [_ Hok]; [done|].
    unfold stage_ok in Hok. rewrite H0 in Hok. by destruct Hok.
  - by eapply admitted_ok.
  - pose proof (reserve_ok limits slots s (grant_credential (rd_record rd)) t (race_broker _ Hx)
                  (race_apart _ Hx t ltac:(by eexists))) as Hr.
    rewrite H1 in Hr. destruct Hr as (_ & -> & _). by eapply task_ends_ok.
  - by eapply task_ends_ok.
  - by eapply dropped_ok.
Qed.
Lemma run_ok x y : racing_ok x → broker_run x y → racing_ok y.
Proof. intros Hx Hrun. induction Hrun; [done|]. eauto using step_ok. Qed.

Lemma single_use d x : racing_ok x → (admissions d (rc_log x) <= issues d (rc_log x))%nat.
Proof.
  intros Hx. pose proof (race_single _ Hx d). pose proof (tally_nonneg rd_digest (rc_tasks x) d).
  destruct (decide _); lia.
Qed.

(** ** The claims *)

(** C19 A grant is used once and in its scope.  Whatever redemptions, issues and
    closing streams interleave: a digest is admitted at most as often as a grant
    with it was issued; an admission is for the record some issue stored, less than
    the lifetime after it, under the same protocol, with a credential the store
    held active for the same principal after the grant was taken; unused grants
    and active streams stay within the bounds of the daemon and of every
    credential; and no counter of the broker panics. *)
Theorem grants_single_use now x :
  limits_ok limits → broker_run (no_race now) x →
  (∀ d, (admissions d (rc_log x) <= issues d (rc_log x))%nat)
  ∧ (∀ d record protocol at_ db, WasAdmitted d record protocol at_ db ∈ rc_log x →
       admission_ok (rc_log x) (WasAdmitted d record protocol at_ db))
  ∧ Z.of_nat (size (bs_unused (rc_state x))) <= lim_unused_total limits
  ∧ (∀ c, tally grant_credential (bs_unused (rc_state x)) c <= lim_unused_per_credential limits)
  ∧ Z.of_nat (size (rc_slots x)) <= lim_active_total limits
  ∧ (∀ c, tally slot_credential_id (rc_slots x) c <= lim_active_per_credential limits)
  ∧ (∀ authorization protocol at_ entropy,
       issue limits authorization protocol at_ entropy (rc_state x) ≠ None)
  ∧ (∀ grant, take_grant grant (rc_state x) ≠ None)
  ∧ (∀ t slot, rc_slots x !! t = Some slot → drop_slot slot (rc_state x) ≠ None).
Proof.
  intros Hl Hrun. pose proof (run_ok _ _ (no_race_ok now Hl) Hrun) as Hx.
  pose proof (race_broker _ Hx) as Hb. split_and!.
  - intros d. by apply single_use.
  - intros d record protocol at_ db Hin. exact (proj1 (Forall_forall _ _) (race_admitted _ Hx) _ Hin).
  - apply Hb.
  - apply Hb.
  - apply Hb.
  - apply Hb.
  - intros a p n e. destruct (issue_ok limits _ _ a p n e Hb) as (? & ? & -> & _). done.
  - intros g. destruct (take_ok limits _ _ g Hb) as (? & ? & -> & _). done.
  - intros t slot Hslot. destruct (drop_ok limits _ _ _ _ Hb Hslot) as (? & -> & _). done.
Qed.

(** The steps of one redemption are steps of the race. *)
Lemma redeem_runs x t grant protocol now db others s' r :
  racing_ok x → rc_tasks x !! t = None → rc_slots x !! t = None → rc_clock x <= now →
  (∀ x1, racing_ok x1 → ∃ x2, broker_run x1 x2 ∧ rc_state x2 = others (rc_state x1)
     ∧ rc_tasks x2 !! t = rc_tasks x1 !! t) →
  redeem limits grant protocol now db others (rc_state x) = Some (s', r) →
  ∃ x', broker_run x x' ∧ rc_state x' = s' ∧ rc_tasks x' !! t = None
    ∧ match r with
      | inl redeemed => rc_slots x' !! t = Some (rsg_active_slot redeemed)
          ∧ ∃ record, WasAdmitted (sha256 grant) record protocol now db ∈ rc_log x'
                      ∧ rsg_authorization redeemed = gr_authorization record
      | inr _ => True
      end.
Proof.
  destruct x as [s slots tasks log clock]. simpl. intros Hx Htask Hslot Hclock Hothers H.
  unfold redeem in H. destruct (take_grant grant s) as [[s1 [record|e]]|] eqn:Htake; [| |done].
  2:{ injection H as <- <-. eexists. split; [apply rtc_once; by eapply step_refuse|]. done. }
  pose proof (step_take s slots tasks log clock t grant protocol s1 record Htask Hslot Htake) as Hs1.
  pose proof (step_ok _ _ Hx Hs1) as Hx1.
  set (rd := {| rd_digest := sha256 grant; rd_record := record; rd_protocol := protocol;
                rd_stage := StageTaken |}) in *.
  assert (broker_step _ _) as Hs2
    by (eapply (step_check s1 slots (<[t := rd]> tasks) log clock t rd now); [apply lookup_insert_eq|done|done]).
  pose proof (step_ok _ _ Hx1 Hs2) as Hx2. simpl in Hs2, Hx2.
  destruct (check_grant record protocol now) as [[]|e] eqn:Hc.
  2:{ injection H as <- <-. eexists. split; [eapply rtc_l, rtc_once; [exact Hs1|exact Hs2]|].
      split_and!; [done|apply lookup_delete_eq|done]. }
  destruct (Hothers _ Hx2) as ([s3 slots3 tasks3 log3 clock3] & Hrun3 & Hst & Ht3). simpl in Hst, Ht3.
  pose proof (run_ok _ _ Hx2 Hrun3) as Hx3. subst s3. rewrite insert_insert_eq, lookup_insert_eq in Ht3.
  assert (broker_step _ _) as Hs4
    by (eapply (step_revalidate (others s1) slots3 tasks3 log3 clock3 t _ now db); [exact Ht3|done]).
  pose proof (step_ok _ _ Hx3 Hs4) as Hx4. simpl in Hs4, Hx4.
  assert (broker_run (mkRacing s slots tasks log clock) (mkRacing (others s1) slots3 tasks3 log3 clock3)) as Hto3
    by (eapply rtc_l, rtc_l; [exact Hs1|exact Hs2|exact Hrun3]).
  destruct (check_principal record db) as [[]|e] eqn:Hp.
  2:{ injection H as <- <-. eexists. split; [eapply rtc_r; [exact Hto3|exact Hs4]|].
      split_and!; [done|apply lookup_delete_eq|done]. }
  destruct (reserve_active limits (grant_credential record) (others s1)) as [s5 [slot|e]] eqn:Hr;
    injection H as <- <-.
  - eexists. split; [eapply rtc_r; [eapply rtc_r; [exact Hto3|exact Hs4]|]|].
    + eapply (step_reserve _ _ _ _ _ t _ now db); [apply lookup_insert_eq|done|exact Hr].
    + simpl. split_and!; [done|apply lookup_delete_eq|apply lookup_insert_eq|].
      exists record. split; [set_solver|done].
  - eexists. split; [eapply rtc_r; [eapply rtc_r; [exact Hto3|exact Hs4]|]|].
    + eapply (step_full _ _ _ _ _ t _ now db); [apply lookup_insert_eq|done|exact Hr].
    + simpl. split_and!; [done|apply lookup_delete_eq|done].
Qed.

(** C22 Capacity is what is in use.  In every race, a grant of a valid scope is
    issued exactly when the grants that have not expired leave room for it in the
    daemon and in its credential (a failing source of randomness apart), under a
    token no unused grant has, and only expired grants are dropped; and a stream is
    admitted to a slot exactly when the streams that are open leave room. *)
Theorem capacity_is_in_use now x authorization protocol at_ entropy :
  limits_ok limits → broker_run (no_race now) x →
  (∃ s' r, issue limits authorization protocol at_ entropy (rc_state x) = Some (s', r)
     ∧ match r with
       | inl issued =>
           valid_scope authorization protocol
           ∧ has_grant_room limits (acs_credential_id authorization) at_ (rc_state x)
           ∧ live_grants at_ (rc_state x) !! sha256 (isg_grant issued) = None
           ∧ bs_unused s' = <[sha256 (isg_grant issued) := issued_record limits authorization protocol at_]>
                              (live_grants at_ (rc_state x))
       | inr error =>
           (error = BrokerInvalidScope ↔ ¬ valid_scope authorization protocol)
           ∧ (error = BrokerCapacity ↔
                valid_scope authorization protocol
                ∧ ¬ has_grant_room limits (acs_credential_id authorization) at_ (rc_state x))
           ∧ (valid_scope authorization protocol → bs_unused s' = live_grants at_ (rc_state x))
       end)
  ∧ ∀ credential_id, is_Some (match (reserve_active limits credential_id (rc_state x)).2 with
                              | inl slot => Some slot | inr _ => None end)
      ↔ Z.of_nat (size (rc_slots x)) < lim_active_total limits
        ∧ tally slot_credential_id (rc_slots x) credential_id < lim_active_per_credential limits.
Proof.
  intros Hl Hrun. pose proof (run_ok _ _ (no_race_ok now Hl) Hrun) as Hx.
  pose proof (race_broker _ Hx) as Hb. split.
  - destruct (issue_ok limits _ _ authorization protocol at_ entropy Hb) as (s' & r & Hi & _ & _ & _ & Hr).
    exists s', r. split; [done|]. destruct r as [issued|[]]; try done.
    + by destruct Hr as (? & ? & _ & ? & ? & _).
    + destruct Hr as (Hv & Hu & Hn). by split_and!.
    + destruct Hr as (-> & Hn). split_and!; [done| |tauto]. split; [done|tauto].
    + destruct Hr as (Hv & Hu & Hroom & _). split_and!; try done; split; try done; tauto.
  - intros c. pose proof (reserve_ok limits (rc_slots x) (rc_state x) c (fresh (dom (rc_slots x))) Hb
      ltac:(apply not_elem_of_dom, is_fresh)) as Hr.
    destruct (reserve_active _ _ _) as [s' [slot|e]]; simpl.
    + destruct Hr as (_ & _ & _ & ? & ?). split; [done|by eexists].
    + destruct Hr as (_ & _ & Hfull). split; [by intros [? [=]]|lia].
Qed.
End racing.

(** ** The edge *)

(** ** Tokens *)

Lemma strip_prefix_some prefix token rest :
  strip_prefix prefix token = Some rest → token = prefix +:+ rest.
Proof.
  revert token. induction prefix as [|a prefix IH]; intros [|b token] H; simpl in H; try done;
    try (by injection H as <-). destruct (a ==? b) eqn:Hab; [|done]. bool_facts. subst.
  change (String b prefix +:+ rest) with (String b (prefix +:+ rest)). f_equal. by apply IH.
Qed.

Section tokens.
Context `{C : TokenCodec} {CL : TokenCodecLaws C}.

(** A stream grant has one spelling.  A text is accepted as a grant exactly when
    it is the prefix and the encoding of 32 bytes; so every grant the broker draws
    is accepted by the client's frame, and one the frame accepts is looked up by
    the broker under the digest of its text.  A first frame beyond 1024 bytes is
    refused before it is decoded. *)
Theorem grant_shape_exact value :
  (grant_parse value = Some value ↔
     ∃ bytes, String.length bytes = STREAM_GRANT_ENTROPY_BYTES
              ∧ value = STREAM_GRANT_PREFIX +:+ b64_encode bytes)
  ∧ (grant_parse value = Some value → grant_digest value = Some (sha256 value))
  ∧ (grant_parse value = None ∨ grant_parse value = Some value)
  ∧ ∀ redemption_from_str frame,
      match parse_text_frame redemption_from_str frame with
      | inl grant => str_len frame <= MAX_REDEMPTION_FRAME_BYTES
                     ∧ redemption_from_str frame = Some grant ∧ grant_parse grant = Some grant
      | inr Oversized => MAX_REDEMPTION_FRAME_BYTES < str_len frame
      | inr InvalidFrame => str_len frame <= MAX_REDEMPTION_FRAME_BYTES
      end.
Proof using CL.
  split_and!.
  - unfold grant_parse, validate_grant_shape. split.
    + destruct (strip_prefix _ value) as [encoded|] eqn:Hs; [|done].
      apply strip_prefix_some in Hs as ->. destruct (_ !=? _); [done|].
      destruct (b64_decode encoded) as [bytes|]; [|done]. intros H.
      destruct (negb _) eqn:Hn in H; [|done]. apply negb_true_iff, orb_false_iff in Hn as [H1 H2].
      bool_facts. exists bytes. by rewrite H2.
    + intros (bytes & Hlen & ->). rewrite strip_prefix_app, b64_encode_length, Hlen.
      rewrite b64_decode_encode, Hlen. by rewrite (bool_decide_true (b64_encode bytes = _)).
  - unfold grant_parse, validate_grant_shape, grant_digest. intros H.
    destruct (strip_prefix _ value) as [encoded|]; [|done].
    change STREAM_GRANT_ENCODED_LENGTH with STREAM_GRANT_ENCODED_ENTROPY_BYTES.
    destruct (_ !=? STREAM_GRANT_ENCODED_ENTROPY_BYTES); [done|].
    destruct (b64_decode encoded) as [bytes|]; [|done].
    by destruct (String.length bytes !=? STREAM_GRANT_ENTROPY_BYTES).
  - unfold grant_parse. destruct (validate_grant_shape value); [by right|by left].
  - intros from_str frame. unfold parse_text_frame.
    destruct (MAX_REDEMPTION_FRAME_BYTES <? str_len frame) eqn:Hlen; bool_facts; [done|].
    destruct (from_str frame) as [grant|]; simpl; [|lia].
    unfold grant_parse. destruct (validate_grant_shape grant) eqn:Hg; [|lia].
    by rewrite Hg.
Qed.
End tokens.

(** ** The upgrade *)

Section upgrade.
Context (to_str : string → option string).

(** The header is there once, as this text. *)
Definition only_value (headers : HeaderMap) (name text : string) : Prop :=
  ∃ value, get_all name headers = [value] ∧ to_str value = Some text.

Lemma exactly_one_ok headers name missing multiple invalid text :
  exactly_one_text_header to_str headers name missing multiple invalid = inl text
  ↔ only_value headers name text.
Proof.
  unfold exactly_one_text_header, only_value. split.
  - destruct (get_all name headers) as [|v [|]]; [done| |done].
    destruct (to_str v) as [t|] eqn:Ht; [|done]. intros [= ->]. by exists v.
  - intros (v & -> & ->). done.
Qed.

(** The literal of a loopback address. *)
Definition loopback_literal (ip : IpAddr) : string :=
  match ip with
  | IpV4 (_, b, c, d) => "127." +:+ pretty b +:+ "." +:+ pretty c +:+ "." +:+ pretty d
  | IpV6 _ => "[::1]"
  end.

(** The upgrade is bound to one origin.  A policy exists exactly for a loopback
    listener with a port, and its authority is the literal of that address with
    the port unless it is 80.  An upgrade is let through exactly when the request
    has one Origin, one Host and one subprotocol header, and their texts are that
    origin, that authority and the protocol of the stream. *)
Theorem upgrade_exact listen_address headers :
  match for_http_listener listen_address with
  | inl policy =>
      ip_is_loopback (sa_ip listen_address) = true ∧ sa_port listen_address ≠ 0
      ∧ bup_authority policy
        = (let host := loopback_literal (sa_ip listen_address) in
           if sa_port listen_address ==? 80 then host
           else host +:+ ":" +:+ pretty (sa_port listen_address))
      ∧ bup_origin policy = "http://" +:+ bup_authority policy
      ∧ (validate_upgrade_headers to_str policy headers = inl tt ↔
           only_value headers ORIGIN (bup_origin policy)
           ∧ only_value headers HOST (bup_authority policy)
           ∧ only_value headers SEC_WEBSOCKET_PROTOCOL BROWSER_STREAM_PROTOCOL)
  | inr error =>
      error = NonLoopbackListenAddress ∧ ip_is_loopback (sa_ip listen_address) = false
      ∨ error = ZeroListenPort ∧ sa_port listen_address = 0
  end.
Proof.
  unfold for_http_listener, from_listen_address.
  destruct (ip_is_loopback (sa_ip listen_address)) eqn:Hip; simpl; [|by left].
  destruct (sa_port listen_address ==? 0) eqn:Hport; bool_facts; [by right|].
  split_and!; try done; simpl.
  - assert (format_ip_literal (sa_ip listen_address) = loopback_literal (sa_ip listen_address)) as ->.
    { destruct (sa_ip listen_address) as [[[[a b] c] d]|segments]; simpl in Hip; bool_facts; by subst. }
    done.
  - set (policy := {| bup_origin := _; bup_authority := _ |}).
    assert (bup_origin policy ≠ "null") as Hnull by done.
    unfold validate_upgrade_headers. split.
    + destruct (exactly_one_text_header _ headers ORIGIN _ _ _) as [o|] eqn:Ho; [|done].
      destruct (o ==? "null"); [done|]. destruct (o !=? bup_origin policy) eqn:Hoo; [done|].
      destruct (exactly_one_text_header _ headers HOST _ _ _) as [h|] eqn:Hh; [|done].
      destruct (h !=? bup_authority policy) eqn:Hhh; [done|].
      destruct (exactly_one_text_header _ headers SEC_WEBSOCKET_PROTOCOL _ _ _) as [s|] eqn:Hs; [|done].
      intros Hp%reject_ok. bool_facts. subst.
      by apply exactly_one_ok in Ho, Hh, Hs.
    + intros (Ho & Hh & Hs).
      rewrite (proj2 (exactly_one_ok headers ORIGIN _ _ _ _) Ho), (bool_decide_false (_ = "null")) by done.
      rewrite (bool_decide_true (bup_origin policy = _)) by done. simpl.
      rewrite (proj2 (exactly_one_ok headers HOST _ _ _ _) Hh).
      rewrite (bool_decide_true (bup_authority policy = _)) by done. simpl.
      by rewrite (proj2 (exactly_one_ok headers SEC_WEBSOCKET_PROTOCOL _ _ _ _) Hs).
Qed.
End upgrade.
