(* ===== verification/TriggerProps.v ===== *)
(** * Properties of inbound triggers

    What a firing may create, that a repeated occurrence is absorbed, that a
    retired trigger never fires again and its tokens are dead, and what a
    rotation that overlaps a retirement leaves behind. *)

From S2P Require Import Prelude Proto Schema Channels Messages Deliveries.
From S2P Require Import SessionFence Observations Invocations Settlement Sessions.
From S2P Require Import Triggers Auth Seats Lifecycle Safety System Preserve Scenario.
From S2P Require Import MessageProps AuthProps.

(** What a registration keeps as it fires and is retired. *)
Lemma trigger_moves operator (t t' : TriggerRow) :
  moves operator t t' →
  tr_id t' = tr_id t ∧ tr_name t' = tr_name t ∧ tr_channel_id t' = tr_channel_id t
  ∧ tr_sender_id t' = tr_sender_id t
  ∧ tr_accepted_kinds_json t' = tr_accepted_kinds_json t
  ∧ (tr_state t = TriggerState.Retired → t' = t).
Proof.
  induction 1 as [|t t1 t2 Hs _ IH]; [done|].
  destruct IH as (-> & -> & -> & -> & -> & _). destruct Hs; split_and!; try done; congruence.
Qed.

Section triggers.
Context `{J : SerdeJson} (sha256_hex : string → string).

Lemma trigger_id_unique db t1 t2 :
  wf db → t1 ∈ db.(triggers) → t2 ∈ db.(triggers) → tr_id t1 = tr_id t2 → t1 = t2.
Proof.
  intros Hwf H1 H2 Hid. apply (unique_row db); [done..|].
  simpl. unfold conflict_trigger. by rewrite bool_decide_true.
Qed.

Lemma read_trigger db row :
  wf db → row ∈ db.(triggers) →
  trigger_in_transaction (tr_id row) db = lift (trigger_from_row row) db.
Proof.
  intros Hwf Hrow. unfold trigger_in_transaction, bind, fetch_optional, gets.
  destruct (List.find _ _) as [row'|] eqn:Hf.
  - apply find_some_elem in Hf as [Hrow' Hid]. bool_facts.
    by assert (row' = row) as -> by (by eapply trigger_id_unique).
  - apply (find_none_elem _ _ row) in Hf; [|done]. simpl in Hf.
    by rewrite bool_decide_true in Hf.
Qed.

(** A firing in a state where its message is already in the log. *)
Lemma fire_state row t : trigger_from_row row = Ok t →
  trg_state t = tr_state row ∧ trg_channel_id t = tr_channel_id row
  ∧ trg_sender_id t = tr_sender_id row
  ∧ strings_from_json (tr_accepted_kinds_json row) = Some (trg_accepted_kinds t).
Proof. unfold trigger_from_row. intros H. m_inv. done. Qed.

Lemma retired_refuses db row occurrence uuid at_ms now :
  wf db → row ∈ db.(triggers) → tr_state row = TriggerState.Retired →
  is_ok (fire sha256_hex (tr_id row) occurrence uuid at_ms now db) = false.
Proof.
  intros Hwf Hrow Hret. destruct (fire _ _ _ _ _ _ _) as [[r db']|] eqn:H; [|done].
  apply fire_ok in H as (row' & t & app & db1 & Hrow' & Hid & Ht & _ & Hact & _).
  assert (row' = row) as -> by (by eapply trigger_id_unique).
  apply fire_state in Ht as (Hs & _). congruence.
Qed.

(** A retired trigger never fires again: whatever runs after its retirement,
    its registration stays exactly as it was retired and no firing is accepted,
    whichever credential asks for it. *)
Theorem retired_trigger_never_fires db db' row occurrence uuid at_ms now :
  reachable sha256_hex db → reaches sha256_hex db db' → row ∈ db.(triggers) →
  tr_state row = TriggerState.Retired →
  row ∈ db'.(triggers)
  ∧ is_ok (fire sha256_hex (tr_id row) occurrence uuid at_ms now db') = false.
Proof.
  intros Hr%reachable_wf Hrun Hrow Hret. destruct (reaches_safe _ _ _ Hr Hrun) as [Hwf' He].
  assert (row ∈ db'.(triggers)) as Hrow'.
  { eapply stuck_elem; [apply (ev_triggers _ _ _ He)| |done].
    intros t2 Hs. inversion Hs; congruence. }
  split; [done|]. by apply retired_refuses.
Qed.

(** A firing stays within its registration: it is accepted only from an active
    trigger, for a declared kind and a peer of its sender; a firing that creates
    work adds exactly one message, in the registered channel, from the registered
    sender, the root of its own trace, and counts the occurrence in the same
    step; any other accepted firing changes nothing. *)
Theorem fire_within_registration id occurrence uuid at_ms now db r db' :
  reachable sha256_hex db →
  fire sha256_hex id occurrence uuid at_ms now db = Ok (r, db') →
  ∃ row kinds, row ∈ db.(triggers) ∧ tr_id row = id ∧ tr_state row = TriggerState.Active
    ∧ strings_from_json (tr_accepted_kinds_json row) = Some kinds
    ∧ occurrence_kind occurrence ∈ kinds ∧ occurrence_recipient_id occurrence ≠ tr_sender_id row
    ∧ (if fired_created r then
         ∃ m msg, db'.(messages) = db.(messages) ++ [m] ∧ holds_message m msg
           ∧ msg_id msg = fired_message_id r ∧ msg_channel_id msg = tr_channel_id row
           ∧ msg_sender_id msg = tr_sender_id row
           ∧ msg_recipient_id msg = Some (occurrence_recipient_id occurrence)
           ∧ msg_kind msg = occurrence_kind occurrence
           ∧ msg_payload msg = occurrence_payload occurrence
           ∧ msg_correlation_id msg = None ∧ msg_causation_id msg = None
           ∧ set_trigger_fired (occurrence_id occurrence) now row ∈ db'.(triggers)
       else db' = db).
Proof.
  intros Hr%reachable_wf
    (row & t & app & db1 & Hrow & Hid & Ht & _ & Hact & Hkind & Hpeer & Happ & Hrec & ->)%fire_ok.
  pose proof (fire_state _ _ Ht) as (Hs & Hc & Hsend & Hkinds).
  exists row, (trg_accepted_kinds t). rewrite <-Hs, <-Hsend, <-Hc. do 6 (split; [done|]). cbn.
  destruct (append_outcome _ _ _ _ _ _ _ Happ) as [[Hcr ->]|(Hcr & Hmsg & m & Hm & Hmm & _)];
    rewrite Hcr in *; [done|].
  exists m, (append_message app).
  assert (db1.(triggers) = db.(triggers)) as Htr.
  { apply (preserves_run (λ d, d.(triggers) = db.(triggers)) _ _ _ _ Happ); [preserves_tac|done]. }
  unfold record_trigger_occurrence in Hrec. m_inv.
  match goal with H : update _ _ _ = Ok _ |- _ => apply update_ok in H as (-> & _) end.
  rewrite Hmsg. cbn. split_and!; try done.
  - by rewrite <-Hmsg.
  - rewrite Htr. apply elem_of_update_row. exists row. split; [done|].
    unfold active_trigger. by rewrite <-Hs, Hact, !bool_decide_true by done.
Qed.

(** A firing publishes its message, or leaves the store as it is. *)
Lemma fire_publishes id occurrence uuid at_ms now db r db' :
  fire sha256_hex id occurrence uuid at_ms now db = Ok (r, db') →
  if fired_created r then
    ∃ row, db'.(messages) = db.(messages) ++ [row] ∧ m_id row = fired_message_id r
  else db' = db.
Proof.
  intros (row & t & app & db1 & _ & _ & _ & _ & _ & _ & _ & Happ & Hrec & ->)%fire_ok. cbn.
  destruct (append_outcome _ _ _ _ _ _ _ Happ) as [[Hcr ->]|(Hcr & _ & m & Hm & Hmm & _)];
    rewrite Hcr in *; [done|].
  exists m. split; [|by destruct Hmm as (_ & ? & _)].
  unfold record_trigger_occurrence in Hrec. m_inv.
  match goal with H : update _ _ _ = Ok _ |- _ => by apply update_ok in H as (-> & _) end.
Qed.

(** A stored registration decodes when its kinds do. *)
Lemma trigger_read_back db row kinds :
  wf db → row ∈ db.(triggers) →
  strings_from_json (tr_accepted_kinds_json row) = Some kinds →
  ∃ t, trigger_from_row row = Ok t ∧ trg_accepted_kinds t = kinds ∧ trg_state t = tr_state row
       ∧ trg_channel_id t = tr_channel_id row ∧ trg_sender_id t = tr_sender_id row.
Proof.
  intros Hwf Hrow Hk. pose proof (checked_row db row Hwf Hrow) as Hc. simpl in Hc.
  assert (0 <=? tr_accepted_occurrences row = true) as Hn.
  { unfold check_trigger in Hc. bool_facts. apply Z.leb_le.
    match goal with H : _ || _ = true |- _ => apply orb_true_iff in H as [H|H] end; bool_facts; lia. }
  unfold trigger_from_row. rewrite Hk. cbn. rewrite Hn. cbn. by eexists.
Qed.

(** The message of a firing, found again where the log has it. *)
Lemma fire_found db row t occurrence m key_row uuid at_ms now :
  wf db → row ∈ db.(triggers) → trigger_from_row row = Ok t →
  validate_occurrence occurrence = Ok tt → trg_state t = TriggerState.Active →
  occurrence_kind occurrence ∈ trg_accepted_kinds t →
  occurrence_recipient_id occurrence ≠ trg_sender_id t →
  let key := durable_key sha256_hex (tr_id row) (occurrence_id occurrence) in
  is_blank (occurrence_kind occurrence) = false → validate_idempotency_key (Some key) = Ok tt →
  key_row ∈ db.(messages) → sent_with_key (trg_sender_id t) key key_row = true →
  message_from_row key_row = Ok m →
  message_matches_input m (trg_channel_id t) (occurrence_message t key occurrence) = true →
  fire sha256_hex (tr_id row) occurrence uuid at_ms now db
  = Ok ({| fired_trigger_id := tr_id row; fired_occurrence_id := occurrence_id occurrence;
           fired_message_id := msg_id m; fired_created := false |}, db).
Proof.
  intros Hwf Hrow Ht Hval Hact Hkind Hpeer key Hb Hv Hin Hs Hm Hmatch.
  unfold fire, bind. unfold lift at 1. rewrite Hval, (read_trigger db row) by done.
  rewrite Ht. unfold lift, ret. cbn.
  rewrite Hact, (bool_decide_true (_ = _)), (bool_decide_true (_ ∈ _)), bool_decide_false by done.
  cbn. by erewrite append_found by done.
Qed.

(** Repeating an occurrence is absorbed exactly: after an accepted firing and
    whatever ran since, the same occurrence returns the same message, reports that
    nothing was created and changes nothing - or is refused because the trigger
    has been retired.  The payload must read back as itself once encoded. *)
Theorem occurrence_absorbed id occurrence uuid at_ms now db r db1 db2 uuid' at_ms' now' :
  reachable sha256_hex db → reparses (occurrence_payload occurrence) →
  fire sha256_hex id occurrence uuid at_ms now db = Ok (r, db1) →
  reaches sha256_hex db1 db2 →
  ∃ row, row ∈ db2.(triggers) ∧ tr_id row = id
    ∧ match tr_state row with
      | TriggerState.Active =>
          fire sha256_hex id occurrence uuid' at_ms' now' db2
          = Ok ({| fired_trigger_id := id; fired_occurrence_id := occurrence_id occurrence;
                   fired_message_id := fired_message_id r; fired_created := false |}, db2)
      | TriggerState.Retired =>
          is_ok (fire sha256_hex id occurrence uuid' at_ms' now' db2) = false
      end.
Proof.
  intros Hr%reachable_wf Hre Hfire Hrun.
  destruct (safe_fire true _ _ _ _ _ _ _ _ _ Hr Hfire) as [Hwf1 He1].
  destruct (reaches_safe _ _ _ Hwf1 Hrun) as [Hwf2 He2].
  apply fire_ok in Hfire
    as (row & t & app & db0 & Hrow & <- & Ht & Hval & Hact & Hkind & Hpeer & Happ & Hrec & ->).
  destruct (table_rel_elem _ _ _ _ (ev_triggers _ _ _ (transitivity He1 He2)) Hrow)
    as (row2 & Hrow2 & Hm).
  apply trigger_moves in Hm as (Hid & _ & Hc & Hs & Hk & _).
  exists row2. split; [done|]. split; [done|]. rewrite <-Hid.
  destruct (tr_state row2) eqn:Hst; [|by apply retired_refuses].
  destruct (fire_state _ _ Ht) as (_ & Htc & Hts & Htk).
  destruct (trigger_read_back db2 row2 (trg_accepted_kinds t)) as (t2 & Ht2 & Hk2 & Hst2 & Hc2 & Hs2);
    [done|done|by rewrite Hk|].
  destruct (append_stored _ _ _ _ _ _ _ _ Happ eq_refl)
    as (Hb & Hv & key_row & Hin & Hsent & Hfrom & Hmatch).
  apply holds_decodes in Hfrom; [|by rewrite (matches_payload _ _ _ Hmatch)].
  assert (occurrence_message t2 (durable_key sha256_hex (tr_id row) (occurrence_id occurrence)) occurrence
          = occurrence_message t (durable_key sha256_hex (tr_id row) (occurrence_id occurrence)) occurrence)
    as Hom by (unfold occurrence_message; congruence).
  assert (db1.(messages) = db0.(messages)) as Hmsgs.
  { destruct (append_created app); [|by rewrite Hrec]. unfold record_trigger_occurrence in Hrec.
    m_inv. match goal with H : update _ _ _ = Ok _ |- _ => apply update_ok in H as (-> & _) end. done. }
  destruct (reaches_messages _ _ _ Hwf1 Hrun) as [added Hadd].
  apply (fire_found db2 row2 t2 occurrence _ key_row); rewrite ?Hid, ?Hom; try congruence; try done.
  - rewrite Hadd, Hmsgs. set_solver.
  - rewrite Hs2, Hs, <-Hts. exact Hsent.
Qed.
End triggers.

(** ** Retirement and the credentials of a trigger *)

Section retirement.
Context `{J : SerdeJson} `{C : TokenCodec} (sha256_hex : string → string).

Lemma trigger_principal c cid id :
  principal_from_row (cr_id c) c = Ok (PTrigger cid id) →
  cr_principal_kind c = PrincipalKind.Trigger ∧ cr_trigger_id c = Some id.
Proof.
  unfold principal_from_row.
  destruct (cr_principal_kind c), (cr_agent_id c), (cr_trigger_id c); naive_solver.
Qed.

(** Retiring an active trigger ends its standing grant: the registration is
    retired with the reason given, and every token that authenticated as the
    trigger before is refused in every later state. *)
Theorem retirement_revokes_tokens id reason now db db1 row :
  reachable sha256_hex db → row ∈ db.(triggers) → tr_id row = id →
  tr_state row = TriggerState.Active → retire_trigger_transaction id reason now db = Ok (tt, db1) →
  set_trigger_retired reason now row ∈ db1.(triggers)
  ∧ ∀ tok cid, authenticate tok db = Ok (PTrigger cid id, db) →
    ∀ db2, reaches sha256_hex db1 db2 → authenticate tok db2 = Err Unauthorized.
Proof.
  intros Hr%reachable_wf Hrow <- Hact Hret.
  destruct (safe_retire_trigger_transaction true _ _ _ _ _ _ Hr Hret) as [Hwf1 _].
  assert (active_trigger (tr_id row) row = true) as Hmatch.
  { unfold active_trigger. by rewrite Hact, !bool_decide_true by done. }
  unfold retire_trigger_transaction, retire_trigger_row in Hret. m_inv.
  match goal with H : update (active_trigger _) _ _ = Ok _ |- _ =>
    apply update_ok in H as (-> & -> & _) end.
  match goal with H : (if ?b then _ else _) _ = Ok _ |- _ => destruct b eqn:Hn end.
  - unfold revoke_trigger_credentials in *. m_inv.
    match goal with H : update _ _ _ = Ok _ |- _ => apply update_ok in H as (-> & _) end.
    split; [cbn; apply elem_of_update_row; exists row; by rewrite Hmatch|].
    intros tok cid (_ & c & Hc & Hd & Hrev & [Hk Ht]%trigger_principal)%authenticate_ok db2 Hrun.
    eapply (revoked_refused _ _ _ _ (set_revoked now c)); [done|done| |done|done].
    cbn. apply revoke_elem; [done|].
    unfold active_trigger_credential. by rewrite Hk, Ht, Hrev, !bool_decide_true by done.
  - exfalso. apply Nat.ltb_ge in Hn.
    assert (row ∈ List.filter (active_trigger (tr_id row)) db.(triggers)) as Hin
      by (by apply elem_of_list_filter).
    cbn in Hn. destruct (List.filter _ _); [by apply not_elem_of_nil in Hin|simpl in Hn; lia].
Qed.
End retirement.

(** ** The theorems at concrete states *)

Definition nightly : RegisterTrigger :=
  {| rt_name := "nightly"; rt_channel_id := "C"; rt_sender_id := "A";
     rt_accepted_kinds := ["job"; "audit"] |}.
Definition op_register : M RegisteredTrigger :=
  register_trigger nightly "K1" (entropy "1") "T" 10.
Definition monday : TriggerOccurrence :=
  {| occurrence_id := "monday"; occurrence_recipient_id := "B"; occurrence_kind := "job";
     occurrence_payload := "run" |}.
Definition op_fire : M TriggerFired := fire plain_sha256 "T" monday "M1" 20 21.
Definition op_retire : M unit := retire_trigger_transaction "T" "done" 30.
Definition db_registered : Db := Eval vm_compute in exec op_register db_fleet.
Definition db_fired : Db := Eval vm_compute in exec op_fire db_registered.
Definition db_retired : Db := Eval vm_compute in exec op_retire db_fired.
Definition monday_fired : TriggerFired :=
  {| fired_trigger_id := "T"; fired_occurrence_id := "monday"; fired_message_id := "M1";
     fired_created := true |}.

Lemma reachable_registered : reachable plain_sha256 db_registered.
Proof.
  apply (run_step op_register false db_fleet);
    [intros; by eapply t_register_trigger|done|done|apply reachable_fleet].
Qed.
Lemma reachable_fired : reachable plain_sha256 db_fired.
Proof.
  apply (run_step op_fire false db_registered);
    [intros; by eapply t_fire|done|done|apply reachable_registered].
Qed.
Lemma reachable_retired : reachable plain_sha256 db_retired.
Proof.
  apply (run_step op_retire false db_fired);
    [intros; by eapply t_retire_trigger|done|done|apply reachable_fired].
Qed.

Definition no_trigger : TriggerRow :=
  {| tr_id := ""; tr_name := ""; tr_channel_id := ""; tr_sender_id := "";
     tr_accepted_kinds_json := ""; tr_state := TriggerState.Active; tr_created_at_ms := 0;
     tr_updated_at_ms := 0; tr_last_occurrence_id := None; tr_last_fired_at_ms := None;
     tr_accepted_occurrences := 0; tr_retired_at_ms := None; tr_retired_reason := None |}.
Definition retired_row : TriggerRow := Eval vm_compute in hd no_trigger db_retired.(triggers).
Definition fired_row : TriggerRow := Eval vm_compute in hd no_trigger db_fired.(triggers).

Lemma retired_trigger_never_fires_witness :
  retired_row ∈ db_retired.(triggers)
  ∧ is_ok (fire plain_sha256 "T" monday "M9" 90 91 db_retired) = false.
Proof.
  apply (retired_trigger_never_fires plain_sha256 db_retired db_retired retired_row monday "M9" 90 91);
    [exact reachable_retired|apply rtc_refl|in_rows|reflexivity].
Defined.

Lemma fire_within_registration_witness :
  ∃ row kinds, row ∈ db_registered.(triggers) ∧ tr_id row = "T"
    ∧ tr_state row = TriggerState.Active
    ∧ strings_from_json (tr_accepted_kinds_json row) = Some kinds
    ∧ "job" ∈ kinds ∧ "B" ≠ tr_sender_id row
    ∧ (if fired_created monday_fired then
         ∃ m msg, db_fired.(messages) = db_registered.(messages) ++ [m]
           ∧ holds_message m msg
           ∧ msg_id msg = "M1" ∧ msg_channel_id msg = tr_channel_id row
           ∧ msg_sender_id msg = tr_sender_id row
           ∧ msg_recipient_id msg = Some "B" ∧ msg_kind msg = "job" ∧ msg_payload msg = "run"
           ∧ msg_correlation_id msg = None ∧ msg_causation_id msg = None
           ∧ set_trigger_fired "monday" 21 row ∈ db_fired.(triggers)
       else db_fired = db_registered).
Proof.
  apply (fire_within_registration plain_sha256 "T" monday "M1" 20 21 db_registered monday_fired
           db_fired); [exact reachable_registered|vm_compute; reflexivity].
Defined.

Lemma occurrence_absorbed_witness :
  ∃ row, row ∈ db_fired.(triggers) ∧ tr_id row = "T"
    ∧ match tr_state row with
      | TriggerState.Active =>
          fire plain_sha256 "T" monday "M9" 90 91 db_fired
          = Ok ({| fired_trigger_id := "T"; fired_occurrence_id := "monday";
                   fired_message_id := "M1"; fired_created := false |}, db_fired)
      | TriggerState.Retired => is_ok (fire plain_sha256 "T" monday "M9" 90 91 db_fired) = false
      end.
Proof.
  apply (occurrence_absorbed plain_sha256 "T" monday "M1" 20 21 db_registered monday_fired
           db_fired db_fired "M9" 90 91);
    [exact reachable_registered|by intros s [= <-]|vm_compute; reflexivity|apply rtc_refl].
Defined.

Definition trigger_token : string := generate_token TRIGGER_TOKEN_PREFIX (entropy "1").
Lemma retirement_revokes_tokens_witness :
  set_trigger_retired "done" 30 fired_row ∈ db_retired.(triggers)
  ∧ authenticate trigger_token db_retired = Err Unauthorized.
Proof.
  destruct (op_retire db_fired) as [[[] db1]|] eqn:H; [|by vm_compute in H].
  destruct (retirement_revokes_tokens plain_sha256 "T" "done" 30 db_fired db1 fired_row)
    as [Hrow Htok]; [exact reachable_fired|in_rows|reflexivity|reflexivity|exact H|].
  assert (db1 = db_retired) as ->
    by (change db_retired with (exec op_retire db_fired); unfold exec; by rewrite H).
  split; [exact Hrow|]. apply (Htok trigger_token "K1"); [vm_compute; reflexivity|apply rtc_refl].
Defined.

(** A rotation whose check ran before a retirement outlives it: the check sees
    the trigger active, the retirement commits, and the transaction of the
    rotation still issues a token that authenticates as the retired trigger;
    retiring the trigger again does not revoke it. *)
Theorem rotation_overlapping_retirement :
  let late := issue_credential TRIGGER_TOKEN_PREFIX "K2" (entropy "2") 40 in
  ∃ db_late,
    rotate_trigger_check "T" db_fired = Ok (tt, db_fired)
    ∧ exec op_retire db_fired = db_retired ∧ reachable plain_sha256 db_retired
    ∧ rotate_trigger_transaction "T" late db_retired = Ok (late, db_late)
    ∧ authenticate (issued_token late) db_late = Ok (PTrigger "K2" "T", db_late)
    ∧ exec (retire_trigger_transaction "T" "again" 50) db_late = db_late.
Proof.
  eexists. split_and!; try (vm_compute; reflexivity). exact reachable_retired.
Qed.
