(* ===== verification/SeatProps.v ===== *)
(** * Properties of seat configurations

    The revision of a seat is a restart fence: it moves exactly when the desired
    execution does, or when a restart is asked for. *)

From S2P Require Import Prelude Proto Schema Channels Messages Deliveries.
From S2P Require Import SessionFence Observations Invocations Settlement Sessions.
From S2P Require Import Triggers Auth Seats Lifecycle Safety System Preserve Scenario.

Section seats.
Context `{J : SerdeJson} (sha256_hex : string → string).

(** What a seat asks for. *)
Definition desired (r : SeatRow) : string * string * AgentSeatDesiredState.t :=
  (sc_profile_id r, sc_instructions r, sc_desired_state r).

Lemma seat_unique db r1 r2 :
  wf db → r1 ∈ db.(agent_seat_configurations) → r2 ∈ db.(agent_seat_configurations) →
  sc_agent_id r1 = sc_agent_id r2 → r1 = r2.
Proof.
  intros Hwf H1 H2 Hid. apply (unique_row db); [done..|].
  simpl. unfold conflict_seat. by rewrite bool_decide_true.
Qed.

Lemma find_seat db r :
  wf db → r ∈ db.(agent_seat_configurations) →
  List.find (seat_of (sc_agent_id r)) db.(agent_seat_configurations) = Some r.
Proof.
  intros Hwf Hr. destruct (List.find _ _) as [r'|] eqn:Hf.
  - apply find_some_elem in Hf as [Hr' Hp]. unfold seat_of in Hp. bool_facts. f_equal.
    by eapply seat_unique.
  - apply (find_none_elem _ _ r) in Hf; [|done]. unfold seat_of in Hf.
    by rewrite bool_decide_true in Hf.
Qed.

(** A revision of the seat of an agent, as the code reports it. *)
Lemma read_seat_ok a db c db' :
  read_seat a db = Ok (c, db') →
  db' = db ∧ ∃ r, r ∈ db.(agent_seat_configurations) ∧ sc_agent_id r = a ∧ seat_from_row r = Ok c.
Proof.
  unfold read_seat. intros H. m_inv. unfold seat_of in *. bool_facts. split; [done|]. eauto.
Qed.

Lemma seat_moves operator (r r' : SeatRow) :
  moves operator r r' →
  sc_agent_id r' = sc_agent_id r ∧ sc_revision r ≤ sc_revision r'
  ∧ (sc_revision r' = sc_revision r → r' = r).
Proof.
  induction 1 as [|r r1 r2 Hs _ IH]; [done|].
  assert (sc_agent_id r1 = sc_agent_id r ∧ sc_revision r1 = sc_revision r + 1) as [Ha Hv]
    by (by destruct Hs).
  destruct IH as (-> & Hle & _). split_and!; [done|lia|lia].
Qed.

(** The revision of a seat is a restart fence: over every run the seat of an
    agent stays, its revision never decreases, and an equal revision means the
    very same configuration row. *)
Theorem seat_revision_fence db db' r :
  reachable sha256_hex db → reaches sha256_hex db db' → r ∈ db.(agent_seat_configurations) →
  ∃ r', r' ∈ db'.(agent_seat_configurations) ∧ sc_agent_id r' = sc_agent_id r
        ∧ sc_revision r ≤ sc_revision r' ∧ (sc_revision r' = sc_revision r → r' = r).
Proof.
  intros Hr%reachable_wf Hrun Hin. destruct (reaches_safe _ _ _ Hr Hrun) as [_ He].
  destruct (table_rel_elem _ _ _ _ (ev_seats _ _ _ He) Hin) as (r' & Hr' & Hm).
  exists r'. split; [done|]. by eapply seat_moves.
Qed.

(** The row an upsert leaves for the agent. *)
Definition configured (requested : ConfigureAgentSeat) (now : Z) (a : string)
    (existing : option SeatRow) : SeatRow :=
  match existing with
  | None => new_seat a requested now
  | Some r => if seat_differs requested r then set_seat requested now r else r
  end.

Lemma upsert_ok a requested now db u db' :
  wf db → upsert_seat a requested now db = Ok (u, db') →
  configured requested now a (List.find (seat_of a) db.(agent_seat_configurations))
    ∈ db'.(agent_seat_configurations)
  ∧ (∀ r, List.find (seat_of a) db.(agent_seat_configurations) = Some r →
          seat_differs requested r = false → db' = db).
Proof.
  intros Hwf H. unfold upsert_seat in H. apply bind_ok in H as (o & d & H1 & H).
  apply fetch_optional_ok in H1 as [-> ->]. change (rows db) with db.(agent_seat_configurations) in *.
  destruct (List.find _ _) as [r|] eqn:Hf;
    [pose proof (find_some_elem _ _ _ Hf) as [Hr Ha]|]; clear Hf; m_inv.
  - match goal with H : update ?p ?f _ = Ok _ |- _ => apply update_ok in H as (-> & _) end.
    split.
    + cbn. apply elem_of_update_row. exists r. split; [done|]. by rewrite Ha.
    + intros ? [= <-] Hd. cbn. rewrite map_update_id; [by destruct db|]. intros r' Hr'.
      destruct (seat_of a r') eqn:Ha'; [|done]. unfold seat_of in *. bool_facts.
      by assert (r' = r) as -> by (by eapply seat_unique; [| | |congruence]).
  - match goal with H : insert _ _ = Ok _ |- _ => apply insert_ok in H as (_ & _ & _ & _ & ->) end.
    split; [|done]. cbn. apply elem_of_app. right. by apply list_elem_of_singleton.
Qed.

Lemma configured_desired requested now a o :
  seat_differs requested (configured requested now a o) = false.
Proof.
  unfold seat_differs. destruct o as [r|]; cbn.
  - destruct (seat_differs requested r) eqn:Hd; [|exact Hd]. cbn. by rewrite !bool_decide_true.
  - by rewrite !bool_decide_true.
Qed.

(** Configuring a seat is exact and idempotent: the reported configuration is
    the requested one; a first configuration has revision 1, a change advances the
    revision by one, and an identical request leaves the store as it is - so
    repeating any accepted request returns the same configuration and changes
    nothing. *)
Theorem configure_exact a requested now now' db c db' :
  reachable sha256_hex db → configure a requested now db = Ok (c, db') →
  let before := List.find (seat_of a) db.(agent_seat_configurations) in
  seat_from_row (configured requested now a before) = Ok c
  ∧ asc_revision c = match before with
                     | None => 1
                     | Some r => if seat_differs requested r then sc_revision r + 1
                                 else sc_revision r
                     end
  ∧ (∀ r, before = Some r → seat_differs requested r = false → db' = db)
  ∧ configure a requested now' db' = Ok (c, db').
Proof.
  intros Hr%reachable_wf Hcfg before.
  destruct (safe_configure true _ _ _ _ _ _ Hr Hcfg) as [Hwf' _].
  unfold configure in Hcfg. m_inv. bool_facts.
  match goal with H : read_seat _ _ = Ok _ |- _ => rename H into Hread end.
  apply read_seat_ok in Hread as (-> & r & Hin & Ha & Hrow).
  match goal with H : upsert_seat _ _ _ _ = Ok _ |- _ => rename H into Hup end.
  destruct (upsert_ok _ _ _ _ _ _ Hr Hup) as [Hconf Hsame].
  assert (r = configured requested now a before) as Hrc.
  { eapply seat_unique; [done..|]. rewrite Ha. fold before. unfold configured.
    destruct before as [r0|] eqn:Hb; [|done]. apply find_some_elem in Hb as [_ Hb].
    unfold seat_of in Hb. bool_facts. by destruct (seat_differs requested r0). }
  rewrite <-Hrc. split; [done|]. split.
  { unfold seat_from_row in Hrow. m_inv. cbn. rewrite Hrc. unfold configured.
    destruct before as [r0|]; [by destruct (seat_differs requested r0)|done]. }
  split; [done|].
  match type of Hup with _ = Ok (_, ?d) => rename d into db1 end.
  assert (upsert_seat a requested now' db1 = Ok (tt, db1)) as Hagain.
  { unfold upsert_seat, bind, fetch_optional, gets.
    change (rows db1) with db1.(agent_seat_configurations). rewrite <-Ha, (find_seat db1 r) by done.
    rewrite update_none; [done|apply Hwf'|by destruct db1|].
    intros r' Hr'. destruct (seat_of (sc_agent_id r) r') eqn:Hof; [|done].
    unfold seat_of in Hof. bool_facts.
    assert (r' = r) as -> by (by eapply seat_unique). rewrite Hrc. apply configured_desired. }
  assert (db1.(agents) = db.(agents)) as Hag.
  { assert (keeps agents (upsert_seat a requested now)) as Hk; [|by eapply Hk].
    unfold upsert_seat. keeps_tac. }
  unfold configure, bind, lift, count, gets.
  match goal with H : validate_seat _ = _ |- _ => rewrite H end. change (rows db1) with db1.(agents).
  rewrite Hag, bool_decide_false by done. cbn. rewrite Hagain.
  unfold read_seat, bind, fetch_optional, gets, lift.
  change (rows db1) with db1.(agent_seat_configurations). rewrite <-Ha, (find_seat db1 r) by done.
  cbn. by rewrite Hrow.
Qed.
End seats.

(** ** The theorems at concrete states *)

Definition seat_request : ConfigureAgentSeat :=
  {| cas_profile_id := "opencode.glm"; cas_instructions := "Build.";
     cas_desired_state := AgentSeatDesiredState.Running |}.
Definition seat_change : ConfigureAgentSeat :=
  {| cas_profile_id := "opencode.glm"; cas_instructions := "Review.";
     cas_desired_state := AgentSeatDesiredState.Running |}.
Definition db_seated : Db := Eval vm_compute in exec (configure "B" seat_request 10) db_fleet.
Definition db_reseated : Db := Eval vm_compute in exec (configure "B" seat_change 20) db_seated.
Lemma reachable_seated : reachable plain_sha256 db_seated.
Proof.
  apply (run_step (configure "B" seat_request 10) false db_fleet);
    [intros; by eapply t_configure|done|done|apply reachable_fleet].
Qed.
Definition seated_row : SeatRow := new_seat "B" seat_request 10.

Lemma seat_revision_fence_witness :
  ∃ r', r' ∈ db_reseated.(agent_seat_configurations) ∧ sc_agent_id r' = "B"
        ∧ 1 ≤ sc_revision r' ∧ (sc_revision r' = 1 → r' = seated_row).
Proof.
  apply (seat_revision_fence plain_sha256 db_seated db_reseated seated_row);
    [exact reachable_seated| |in_rows].
  apply (run_once (configure "B" seat_change 20) false); [intros; by eapply t_configure|done|done].
Defined.

Lemma configure_exact_witness :
  let c := {| asc_agent_id := "B"; asc_profile_id := "opencode.glm"; asc_instructions := "Review.";
              asc_desired_state := AgentSeatDesiredState.Running; asc_revision := 2;
              asc_created_at_ms := 10; asc_updated_at_ms := 20 |} in
  seat_from_row (configured seat_change 20 "B" (Some seated_row)) = Ok c
  ∧ 2 = 1 + 1 ∧ configure "B" seat_change 99 db_reseated = Ok (c, db_reseated).
Proof.
  edestruct (configure_exact plain_sha256 "B" seat_change 20 99 db_seated) as (H1 & H2 & _ & H4);
    [exact reachable_seated|vm_compute; reflexivity|].
  split; [exact H1|]. split; [exact H2|exact H4].
Defined.
