(* ===== verification/GrantProps.v ===== *)
(** * Properties of the message grants

    A run of the broker interleaves its own calls with every other operation of
    the store.  Over such a run: how many messages one activation can create, what
    each of them says, and what repeating a call gives. *)

From S2P Require Import Prelude Proto Schema Channels Messages Grants Deliveries.
From S2P Require Import SessionFence Observations Invocations Settlement Sessions.
From S2P Require Import Lifecycle Safety System Preserve Scenario MessageProps.

Section grants.
Context `{J : SerdeJson} (sha256_hex : string → string).

(** One step: a call of the broker with its outcome, a revocation, or an
    operation of someone else.  Activation is not a step: a run is what happens
    under one activation. *)
Inductive broker_step : MessageBroker * Db → list PublishResult → MessageBroker * Db → Prop :=
| bs_publish input now uuid at_ms b db b' db' r :
    publish sha256_hex input now uuid at_ms b db = (b', db', r) →
    broker_step (b, db) [r] (b', db')
| bs_deactivate id b db : broker_step (b, db) [] (deactivate id b, db)
| bs_store operator b db db' :
    transition sha256_hex operator db db' → broker_step (b, db) [] (b, db').
Inductive broker_run : MessageBroker * Db → list PublishResult → MessageBroker * Db → Prop :=
| br_refl s : broker_run s [] s
| br_step s o s' os s'' :
    broker_step s o s' → broker_run s' os s'' → broker_run s (o ++ os) s''.

(** The calls of a trace that created a message. *)
Definition created_message (r : PublishResult) : bool :=
  match r with Published output => po_created output | _ => false end.
Definition created_count (os : list PublishResult) : Z :=
  Z.of_nat (length (List.filter created_message os)).

Lemma created_count_app os os' : created_count (os ++ os') = created_count os + created_count os'.
Proof. unfold created_count. rewrite List.filter_app, length_app. lia. Qed.

Lemma created_one output :
  created_count [Published output] = if po_created output then 1 else 0.
Proof. unfold created_count. simpl. by destruct (po_created output). Qed.

(** The message of an operation is in the log. *)
Definition operation_stored (db : Db) (g : ActiveMessageGrant) (op : string) : Prop :=
  ∃ row, row ∈ db.(messages)
         ∧ sent_with_key (ag_sender_id g) (publish_key sha256_hex g op) row = true.
(** Same grant: what activation fixed. *)
Definition same_grant (g g' : ActiveMessageGrant) : Prop :=
  ag_invocation_id g' = ag_invocation_id g ∧ ag_sender_id g' = ag_sender_id g
  ∧ ag_channel_id g' = ag_channel_id g ∧ ag_source_message_id g' = ag_source_message_id g
  ∧ ag_correlation_id g' = ag_correlation_id g ∧ ag_expires_at_ms g' = ag_expires_at_ms g.

#[local] Instance same_grant_preorder : PreOrder same_grant.
Proof. split; [by intros g|]. unfold same_grant. intros g1 g2 g3. naive_solver congruence. Qed.

(** An append keeps the result's message in line with the grant's request. *)
Lemma append_output c input uuid at_ms db r db' :
  append_message_in_transaction c input uuid at_ms db = Ok (r, db') →
  message_matches_input (append_message r) c input = true.
Proof.
  unfold append_message_in_transaction. intros H. m_inv.
  match goal with H : match ?o with _ => _ end _ = Ok _ |- _ => destruct o end; m_inv; [done|].
  match goal with H : insert_message _ _ _ _ _ = Ok _ |- _ =>
    apply insert_message_ok in H as (ch & payload & _ & _ & _ & _ & _ & _ & _ & -> & _ & _) end.
  apply returned_matches.
Qed.

Lemma matches_fields m c input :
  message_matches_input m c input = true →
  msg_channel_id m = c ∧ msg_sender_id m = cm_sender_id input
  ∧ msg_recipient_id m = cm_recipient_id input ∧ msg_kind m = cm_kind input
  ∧ msg_payload m = cm_payload input ∧ msg_correlation_id m = cm_correlation_id input
  ∧ msg_causation_id m = cm_causation_id input.
Proof. unfold message_matches_input. intros H. by bool_facts. Qed.

(** A successful append gives an output, never a panic. *)
Lemma publish_output_ok g input uuid at_ms db r db' :
  append_message_in_transaction (ag_channel_id g) (publish_message sha256_hex g input) uuid at_ms db
    = Ok (r, db') →
  publish_output r
  = Published {| po_message_id := msg_id (append_message r); po_seq := msg_seq (append_message r);
                 po_created := append_created r; po_channel_id := ag_channel_id g;
                 po_correlation_id := ag_correlation_id g;
                 po_causation_id := ag_source_message_id g |}.
Proof.
  intros (Hc & _ & _ & _ & _ & Hcorr & Hcaus)%append_output%matches_fields.
  unfold publish_output. by rewrite Hcorr, Hcaus, Hc.
Qed.

(** ** The invariant of a run *)

Definition grant_ok (db : Db) (g : ActiveMessageGrant) : Prop :=
  0 ≤ ag_published_messages g ≤ MAX_MESSAGES_PER_INVOCATION
  ∧ ∀ op, op ∈ ag_operations g → operation_stored db g op.

Lemma record_operation_elem c op op' g :
  op' ∈ ag_operations (record_operation c op g) ↔ op' = op ∨ op' ∈ ag_operations g.
Proof. unfold record_operation. simpl. case_bool_decide; set_solver. Qed.

Lemma operation_stored_run db db' g op :
  wf db → reaches sha256_hex db db' → operation_stored db g op → operation_stored db' g op.
Proof.
  intros Hwf Hrun (row & Hrow & Hs). destruct (reaches_messages _ _ _ Hwf Hrun) as [added Hadd].
  exists row. split; [|done]. rewrite Hadd. set_solver.
Qed.

(** A known operation never creates a second message. *)
Lemma known_not_created g input uuid at_ms db r db' :
  wf db → operation_stored db g (pm_operation_id input) →
  append_message_in_transaction (ag_channel_id g) (publish_message sha256_hex g input) uuid at_ms db
    = Ok (r, db') →
  append_created r = false.
Proof.
  intros Hwf (row & Hrow & Hs) H.
  pose proof (find_sent_with_key _ _ _ _ Hwf Hrow Hs) as Hf.
  unfold append_message_in_transaction, bind, lift, fetch_optional, gets in H. cbn in H.
  destruct (refuse _ _); [|done]. destruct (rbind _ _); [|done].
  cbn in Hf. rewrite Hf in H. unfold ret in H. destruct (message_from_row row); [|done].
  destruct (guard _ _); [|done]. by injection H as <- <-.
Qed.

(** What one accepted call does to the grant and the store. *)
Lemma publish_step g input uuid at_ms db r db' :
  reachable sha256_hex db → grant_ok db g →
  pm_operation_id input ∈ ag_operations g
    ∨ ag_published_messages g < MAX_MESSAGES_PER_INVOCATION →
  append_message_in_transaction (ag_channel_id g) (publish_message sha256_hex g input) uuid at_ms db
    = Ok (r, db') →
  let g' := record_operation (append_created r) (pm_operation_id input) g in
  grant_ok db' g'
  ∧ ag_published_messages g'
    = ag_published_messages g + (if append_created r then 1 else 0).
Proof.
  intros Hr [Hb Hops] Hroom Happ. simpl. pose proof (reachable_wf _ _ Hr) as Hwf.
  assert (reaches sha256_hex db db') as Hrun by (apply rtc_once; exists false; by eapply t_append).
  assert (append_created r = true → ag_published_messages g < MAX_MESSAGES_PER_INVOCATION) as Hlt.
  { intros Hc. destruct Hroom as [Hin|?]; [|done].
    rewrite (known_not_created _ _ _ _ _ _ _ Hwf (Hops _ Hin) Happ) in Hc. done. }
  unfold MAX_MESSAGES_PER_INVOCATION, u32_max in *.
  split; [split|].
  - simpl. unfold MAX_MESSAGES_PER_INVOCATION, u32_max.
    destruct (append_created r); [specialize (Hlt eq_refl)|]; lia.
  - intros op [->|Hin]%record_operation_elem.
    + destruct (append_stored _ _ _ _ _ _ _ _ Happ eq_refl) as (_ & _ & row & Hrow & Hs & _).
      by exists row.
    + eapply operation_stored_run in Hrun; [|done|by apply Hops]. exact Hrun.
  - simpl. unfold u32_max. destruct (append_created r); [specialize (Hlt eq_refl)|]; lia.
Qed.

(** The broker's share of a run: a grant that is still held counts the messages
    the run created, and knows its operations. *)
Definition counts (n : Z) (s : MessageBroker * Db) : Prop :=
  n ≤ MAX_MESSAGES_PER_INVOCATION
  ∧ match s.1 with Some g => grant_ok s.2 g ∧ ag_published_messages g = n | None => True end.

Lemma broker_step_reaches s os s' : broker_step s os s' → reaches sha256_hex s.2 s'.2.
Proof.
  intros [input now uuid at_ms b db b' db' r H|id b db|op b db db' H]; simpl; [|reflexivity|].
  - destruct (publish_cases sha256_hex input now uuid at_ms b db)
      as [[reason Hp]|(g & res & db1 & _ & _ & _ & _ & _ & Happ & Hp)];
      rewrite Hp in H; injection H as <- <- <-; [reflexivity|].
    apply rtc_once. exists false. by eapply t_append.
  - apply rtc_once. by exists op.
Qed.

Lemma step_counts n s os s' :
  reachable sha256_hex s.2 → broker_step s os s' → counts n s → counts (n + created_count os) s'.
Proof.
  intros Hr Hs [Hn Hg]. revert Hr Hg.
  destruct Hs as [input now uuid at_ms b db b' db' r H|id b db|op b db db' H];
    intros Hr Hg; unfold counts in *; simpl in *.
  - destruct (publish_cases sha256_hex input now uuid at_ms b db)
      as [[reason Hp]|(g & res & db1 & -> & _ & _ & _ & Hroom & Happ & Hp)];
      rewrite Hp in H; injection H as <- <- <-; [by rewrite Z.add_0_r|]. simpl.
    destruct Hg as [Hg <-].
    destruct (publish_step _ _ _ _ _ _ _ Hr Hg Hroom Happ) as [Hok Hcount]. simpl in *.
    rewrite (publish_output_ok _ _ _ _ _ _ _ Happ), created_one. simpl.
    rewrite <-Hcount. split; [|by split]. by destruct Hok as [[_ ?] _].
  - unfold created_count. simpl. rewrite Z.add_0_r. split; [done|].
    destruct b as [g|]; [|done]. simpl. by case_bool_decide.
  - unfold created_count. simpl. rewrite Z.add_0_r. split; [done|]. destruct b as [g|]; [|done].
    destruct Hg as [[Hb Hops] ?]. split; [|done]. split; [done|]. intros op' Hop.
    eapply operation_stored_run; [by eapply reachable_wf| |by apply Hops].
    apply rtc_once. by exists op.
Qed.

Lemma run_counts n s os s' :
  reachable sha256_hex s.2 → broker_run s os s' → counts n s → counts (n + created_count os) s'.
Proof.
  intros Hr Hrun. revert n Hr. induction Hrun as [s|s o s' os s'' Hs Hrun IH]; intros n Hr Hc.
  - unfold created_count. simpl. by rewrite Z.add_0_r.
  - rewrite created_count_app, Z.add_assoc. apply IH.
    + eapply reachable_run; [exact Hr|by eapply broker_step_reaches].
    + by eapply step_counts.
Qed.

(** C35 The budget of a grant: from its activation on, whatever calls of the broker
    and other operations of the store interleave, at most eight messages are
    created under it. *)
Theorem grant_budget invocation now b db os b' db' :
  reachable sha256_hex db → activate invocation now (None : MessageBroker) = (b, inl tt) →
  broker_run (b, db) os (b', db') → created_count os ≤ MAX_MESSAGES_PER_INVOCATION.
Proof.
  intros Hr Hact Hrun. simpl in Hact. unfold activate_message_grant in Hact.
  destruct (_ <=? now); [done|]. injection Hact as <-.
  eapply (run_counts 0) in Hrun; [|exact Hr|].
  - by destruct Hrun as [Hle _].
  - split; [done|]. split; [|done]. split; [done|]. by intros op ?%not_elem_of_nil.
Qed.

(** Every outcome of a call, from any state: it never panics; a refusal changes
    neither the grant nor the store; an output is the message stored in the
    granted channel from the granted sender to a peer, with the correlation and
    causation of the granted turn and the caller's kind and payload, before the
    grant expires. *)
Theorem publish_within_grant input now uuid at_ms b db b' db' r :
  publish sha256_hex input now uuid at_ms b db = (b', db', r) →
  match r with
  | Panicked _ => False
  | Refused _ => b' = b ∧ db' = db
  | Published output =>
      ∃ g g' row msg, b = Some g ∧ b' = Some g' ∧ same_grant g g'
        ∧ now < ag_expires_at_ms g
        ∧ row ∈ db'.(messages) ∧ holds_message row msg
        ∧ (if po_created output then db'.(messages) = db.(messages) ++ [row] else db' = db)
        ∧ po_message_id output = msg_id msg ∧ po_seq output = msg_seq msg
        ∧ msg_channel_id msg = ag_channel_id g ∧ msg_sender_id msg = ag_sender_id g
        ∧ msg_recipient_id msg = Some (pm_recipient_id input)
        ∧ pm_recipient_id input ≠ ag_sender_id g
        ∧ msg_kind msg = pm_kind input ∧ msg_payload msg = pm_payload input
        ∧ msg_correlation_id msg = Some (ag_correlation_id g)
        ∧ msg_causation_id msg = Some (ag_source_message_id g)
  end.
Proof.
  intros H. destruct (publish_cases sha256_hex input now uuid at_ms b db)
    as [[reason Hp]|(g & res & db1 & -> & _ & Hexp & Hpeer & _ & Happ & Hp)];
    rewrite Hp in H; injection H as <- <- <-; [done|].
  rewrite (publish_output_ok _ _ _ _ _ _ _ Happ).
  destruct (append_stored _ _ _ _ _ _ _ _ Happ eq_refl) as (_ & _ & row & Hrow & _ & Hfrom & Hmatch).
  apply matches_fields in Hmatch as (? & ? & ? & ? & ? & ? & ?).
  destruct (append_outcome _ _ _ _ _ _ _ Happ) as [[Hc ->]|(Hc & _ & row' & Hlog & Hfrom' & _)].
  - exists g, (record_operation (append_created res) (pm_operation_id input) g), row, (append_message res).
    simpl. rewrite Hc. by split_and!.
  - exists g, (record_operation (append_created res) (pm_operation_id input) g), row', (append_message res).
    simpl. rewrite Hc, Hlog. split_and!; try done. set_solver.
Qed.

(** ** Repeating an operation *)

Lemma record_known op g : op ∈ ag_operations g → record_operation false op g = g.
Proof. intros Hop. destruct g. unfold record_operation. simpl in *. by rewrite bool_decide_true. Qed.

Lemma step_keeps_grant g db os s' g' op :
  broker_step (Some g, db) os s' → s'.1 = Some g' → op ∈ ag_operations g →
  same_grant g g' ∧ op ∈ ag_operations g'.
Proof.
  inversion 1 as [input now uuid at_ms b0 db0 b' db' r Hp|id b0 db0|op' b0 db0 db' Ht]; subst; simpl.
  - destruct (publish_cases sha256_hex input now uuid at_ms (Some g) db)
      as [[reason Hq]|(g1 & res & db1 & [= <-] & _ & _ & _ & _ & _ & Hq)];
      rewrite Hq in Hp; injection Hp as <- <- <-; intros [= <-] Hop; [done|].
    split; [done|]. apply record_operation_elem. by right.
  - case_bool_decide; [done|]. by intros [= <-].
  - by intros [= <-].
Qed.

Lemma revoked_stays s os s' : broker_run s os s' → s.1 = None → s'.1 = None.
Proof.
  induction 1 as [|s o s' os s'' Hs Hrun IH]; [done|]. intros Hn. apply IH.
  destruct Hs as [input now uuid at_ms b db b' db' r H|id b db|op b db db' H]; simpl in *; subst; try done.
  unfold publish in H. by destruct (validate_publish_input input); injection H as <- _ _.
Qed.

Lemma run_keeps_grant g db os s' g' op :
  broker_run (Some g, db) os s' → s'.1 = Some g' → op ∈ ag_operations g →
  same_grant g g' ∧ op ∈ ag_operations g' ∧ reaches sha256_hex db s'.2.
Proof.
  intros Hrun. remember (Some g, db) as s eqn:Hs. revert g db Hs.
  induction Hrun as [s|s o s1 os s2 Hstep Hrun IH]; intros g db -> Hg' Hop.
  - simpl in *. injection Hg' as <-. done.
  - destruct s1 as [[g1|] db1]; [|by rewrite (revoked_stays _ _ _ Hrun) in Hg'].
    destruct (step_keeps_grant _ _ _ _ g1 op Hstep eq_refl Hop) as [Hsame Hop1].
    destruct (IH g1 db1 eq_refl Hg' Hop1) as (Hsame' & Hop' & Hreach).
    split; [by transitivity g1|]. split; [done|].
    etrans; [exact (broker_step_reaches _ _ _ Hstep)|done].
Qed.

(** Repeating an operation is idempotent: after an accepted publish and any
    further run of the broker and the store, while the grant is held and has not
    expired, the same input returns the same message, reports that nothing was
    created, and changes neither the grant's budget nor the store - even when the
    budget is exhausted.  The payload must read back as itself once encoded. *)
Theorem publish_replay input now uuid at_ms b db b1 db1 output os g2 db2 now' uuid' at_ms' :
  reachable sha256_hex db → reparses (pm_payload input) →
  publish sha256_hex input now uuid at_ms b db = (b1, db1, Published output) →
  broker_run (b1, db1) os (Some g2, db2) → now' < ag_expires_at_ms g2 →
  publish sha256_hex input now' uuid' at_ms' (Some g2) db2
  = (Some g2, db2,
     Published {| po_message_id := po_message_id output; po_seq := po_seq output;
                  po_created := false; po_channel_id := po_channel_id output;
                  po_correlation_id := po_correlation_id output;
                  po_causation_id := po_causation_id output |}).
Proof.
  intros Hr Hre H Hrun Hexp. destruct (publish_cases sha256_hex input now uuid at_ms b db)
    as [[reason Hp]|(g & res & db0 & -> & Hval & _ & Hpeer & _ & Happ & Hp)];
    rewrite Hp in H; [done|]. injection H as <- <- Hout.
  rewrite (publish_output_ok _ _ _ _ _ _ _ Happ) in Hout. injection Hout as <-. simpl.
  destruct (run_keeps_grant _ _ _ _ g2 (pm_operation_id input) Hrun eq_refl)
    as (Hsame & Hop & Hreach); [apply record_operation_elem; by left|].
  destruct Hsame as (Hi & Hs & Hc & Hsrc & Hcorr & _). simpl in *.
  assert (publish_message sha256_hex g2 input = publish_message sha256_hex g input) as Hmsg.
  { unfold publish_message, publish_key. by rewrite Hi, Hs, Hsrc, Hcorr. }
  destruct (append_remembered sha256_hex _ _ _ _ _ _ _ _ _ Hr Happ eq_refl Hreach)
    as (Hb & Hv & Hmatch & row & Hf & Hfrom).
  apply holds_decodes in Hfrom; [|by rewrite (matches_payload _ _ _ Hmatch)].
  apply find_some_elem in Hf as [Hrow Hkey].
  assert (append_message_in_transaction (ag_channel_id g2) (publish_message sha256_hex g2 input)
            uuid' at_ms' db2
          = Ok ({| append_message := append_message res; append_created := false |}, db2)) as Hagain.
  { rewrite Hmsg, Hc. eapply append_found; try done. eapply reachable_wf. eapply reachable_run; [exact Hr|].
    etrans; [|exact Hreach]. apply rtc_once. exists false. by eapply t_append. }
  pose proof (publish_output_ok _ _ _ _ _ _ _ Hagain) as Hout. simpl in Hout.
  unfold publish. rewrite Hval, (proj2 (Z.leb_gt _ _) Hexp), Hs, bool_decide_false by done. cbn zeta.
  rewrite (bool_decide_true _ Hop). simpl.
  unfold append_message_idempotent, transaction. rewrite Hagain, Hout. simpl.
  rewrite record_known by done. by rewrite Hc, Hsrc, Hcorr.
Qed.
End grants.

(** ** The theorems at concrete states *)

(** The armed attempt of the scenario and the grant it activates. *)
Definition reserved_message : Message :=
  returned_message "C" ask "M1" 4 1.
Definition granted_invocation : Invocation :=
  {| inv_id := "U0"; inv_agent_id := "B"; inv_message := reserved_message;
     inv_delivery_attempt := 1; inv_lease_token := "T1"; inv_lease_expires_at_ms := 1010;
     inv_fence_token := "U1"; inv_state := InvocationState.DispatchArmed;
     inv_reserved_at_ms := 10; inv_dispatch_armed_at_ms := Some 20; inv_terminal_at_ms := None;
     inv_execution_certainty := None; inv_terminal_reason := None; inv_result_message_id := None |}.
Definition granted : MessageBroker := Eval vm_compute in
  (activate granted_invocation 21 (None : MessageBroker)).1.
Definition note : PublishMessageInput :=
  {| pm_operation_id := "op-1"; pm_recipient_id := "A"; pm_kind := "note"; pm_payload := "text" |}.
Definition blank_note : PublishMessageInput :=
  {| pm_operation_id := "op-2"; pm_recipient_id := ""; pm_kind := "note"; pm_payload := "text" |}.
Definition note_published : MessageBroker * Db * PublishResult := Eval vm_compute in
  publish plain_sha256 note 22 "M5" 23 granted db_armed.
Definition after_note : MessageBroker := Eval vm_compute in note_published.1.1.
Definition db_note : Db := Eval vm_compute in note_published.1.2.
Definition no_grant : ActiveMessageGrant :=
  {| ag_invocation_id := ""; ag_sender_id := ""; ag_channel_id := ""; ag_source_message_id := "";
     ag_correlation_id := ""; ag_expires_at_ms := 0; ag_published_messages := 0;
     ag_operations := [] |}.
Definition grant_after : ActiveMessageGrant := Eval vm_compute in
  match after_note with Some g => g | None => no_grant end.
Definition note_output : PublishMessageOutput :=
  {| po_message_id := "M5"; po_seq := 2; po_created := true; po_channel_id := "C";
     po_correlation_id := "M1"; po_causation_id := "M1" |}.

Lemma grant_budget_witness :
  created_count [Published note_output; Refused "recipient_id must contain between 1 and 256 bytes"]
  ≤ MAX_MESSAGES_PER_INVOCATION.
Proof.
  apply (grant_budget plain_sha256 granted_invocation 21 granted db_armed _ after_note db_note).
  - exact reachable_armed.
  - vm_compute. reflexivity.
  - apply (br_step _ _ [_] (after_note, db_note) [_]).
    + apply (bs_publish _ note 22 "M5" 23). vm_compute. reflexivity.
    + apply (br_step _ _ [_] (after_note, db_note) []); [|apply br_refl].
      apply (bs_publish _ blank_note 24 "M6" 25). vm_compute. reflexivity.
Defined.

Lemma publish_within_grant_witness :
  ∃ g g' row msg, granted = Some g ∧ after_note = Some g' ∧ same_grant g g'
    ∧ 22 < ag_expires_at_ms g
    ∧ row ∈ db_note.(messages) ∧ holds_message row msg
    ∧ (if po_created note_output then db_note.(messages) = db_armed.(messages) ++ [row]
       else db_note = db_armed)
    ∧ po_message_id note_output = msg_id msg ∧ po_seq note_output = msg_seq msg
    ∧ msg_channel_id msg = ag_channel_id g ∧ msg_sender_id msg = ag_sender_id g
    ∧ msg_recipient_id msg = Some "A" ∧ "A" ≠ ag_sender_id g
    ∧ msg_kind msg = "note" ∧ msg_payload msg = "text"
    ∧ msg_correlation_id msg = Some (ag_correlation_id g)
    ∧ msg_causation_id msg = Some (ag_source_message_id g).
Proof.
  apply (publish_within_grant plain_sha256 note 22 "M5" 23 granted db_armed after_note db_note
           (Published note_output)). vm_compute. reflexivity.
Defined.

Lemma publish_replay_witness :
  publish plain_sha256 note 90 "M9" 91 (Some grant_after) db_note
  = (Some grant_after, db_note,
     Published {| po_message_id := "M5"; po_seq := 2; po_created := false; po_channel_id := "C";
                  po_correlation_id := "M1"; po_causation_id := "M1" |}).
Proof.
  apply (publish_replay plain_sha256 note 22 "M5" 23 granted db_armed after_note db_note note_output
           [] grant_after db_note 90 "M9" 91).
  - exact reachable_armed.
  - by intros s [= <-].
  - vm_compute. reflexivity.
  - apply br_refl.
  - vm_compute. reflexivity.
Defined.
