(* ===== verification/HarnessProps.v ===== *)
(** * Properties of the harness client

    What the client lets through, over every behaviour of the plugin process:
    the evidence of a turn carries its fence, has no gap and no contradiction, and
    the terminal that ends it accounts for all of it. *)

From stdpp Require Import gmap.
From S2P Require Import Prelude Action Proto Schema Observations Sessions HarnessClient Scenario.

Section client.
Context `{J : SerdeJson} {P : Type} {PP : PluginProcess P} {HF : HarnessFrames} {JT : JsonTree}.
Context (sha256 : string → string).
Implicit Types c : HarnessAcpClient P.

(** The calls of a turn after its start, with the notifications they returned. *)
Inductive client_step : HarnessAcpClient P → list HarnessAcpNotification → HarnessAcpClient P → Prop :=
| cs_next c c' n : next_notification sha256 c = (c', inl n) → client_step c [n] c'
| cs_next_failed c c' e : next_notification sha256 c = (c', inr e) → client_step c [] c'
| cs_resolve request c c' r : resolve_permission request c = (c', r) → client_step c [] c'
| cs_cancel reason c c' r : cancel_turn reason c = (c', r) → client_step c [] c'
| cs_describe c c' r : describe c = (c', r) → client_step c [] c'.
Inductive client_run : HarnessAcpClient P → list HarnessAcpNotification → HarnessAcpClient P → Prop :=
| cr_refl c : client_run c [] c
| cr_step c ns c' ns' c'' :
    client_step c ns c' → client_run c' ns' c'' → client_run c (ns ++ ns') c''.

(** The evidence a notification carries: its sequence number and digest. *)
Definition digest_of (raw : Value) : option string := sha256 <$> to_json raw.
Definition notification_evidence (n : HarnessAcpNotification) : option (Z * string) :=
  match n with
  | NTurnEvent event => pair (te_event_seq event) <$> digest_of (turn_event_to_value event)
  | NPermissionRequested request =>
      pair (pq_event_seq request) <$> digest_of (permission_to_value request)
  | _ => None
  end.
Definition evidence (ns : list HarnessAcpNotification) : list (Z * string) :=
  omap notification_evidence ns.

(** ** One call *)

Lemma protocol_call_active {A} (m : action P PluginError A) c c' r :
  protocol_call m c = (c', r) → hc_active_turn c' = hc_active_turn c.
Proof. unfold protocol_call. by destruct (m _); intros [= <- _]. Qed.

(** Calls that never touch the active turn. *)
Ltac frame_step :=
  first
    [ progress a_inv
    | match goal with
      | H : protocol_call _ _ = _ |- _ => apply protocol_call_active in H
      | H : decode ?o _ = _ |- _ => unfold decode in H; destruct o
      | H : set_active_turn _ _ = _ |- _ => unfold set_active_turn in H
      end ].
Ltac frame_tac := repeat frame_step; simpl in *; try congruence.

Lemma resolve_active request c c' r :
  resolve_permission request c = (c', r) → hc_active_turn c' = hc_active_turn c.
Proof. unfold resolve_permission. intros H. frame_tac. Qed.
Lemma cancel_active reason c c' r :
  cancel_turn reason c = (c', r) → hc_active_turn c' = hc_active_turn c.
Proof. unfold cancel_turn. intros H. frame_tac. Qed.
Lemma describe_active c c' r :
  describe c = (c', r) → hc_active_turn c' = hc_active_turn c.
Proof. unfold describe. intros H. frame_tac. Qed.

(** What a returned notification says of the active turn before and after. *)
Definition admitted (before after : option ActiveTurn) (n : HarnessAcpNotification) : Prop :=
  match n with
  | NTurnEvent event =>
      ∃ a, admit_event sha256 before (te_fence event) (te_event_seq event)
             (turn_event_to_value event) = inl a ∧ after = Some a
  | NPermissionRequested request =>
      ∃ a, admit_event sha256 before (pq_fence request) (pq_event_seq request)
             (permission_to_value request) = inl a ∧ after = Some a
  | NTurnTerminal terminal => validate_terminal before terminal = inl tt ∧ after = None
  | NTranscriptEntry _ | NTranscriptComplete _ => after = before
  end.

Lemma next_notification_cases c c' r :
  next_notification sha256 c = (c', r) →
  match r with
  | inl n => admitted (hc_active_turn c) (hc_active_turn c') n
  | inr _ => hc_active_turn c' = hc_active_turn c
  end.
Proof.
  unfold next_notification. intros H.
  repeat first
    [ frame_step
    | match goal with H : (if ?b then _ else _) _ = _ |- _ => destruct b end ];
    simpl in *; subst;
    repeat match goal with H : hc_active_turn _ = hc_active_turn _ |- _ => rewrite H in * end;
    try done; try (by eexists).
  by repeat match goal with u : unit |- _ => destruct u end.
Qed.

(** ** The invariant of an active turn *)

(** The seen sequence numbers are exactly [1 .. last]. *)
Definition turn_ok (a : ActiveTurn) : Prop :=
  0 ≤ at_last_event_seq a ∧ ∀ seq, is_Some (at_seen a !! seq) ↔ 1 ≤ seq ≤ at_last_event_seq a.

Lemma validate_active_fence_ok before fence a :
  validate_active_fence before fence = inl a → before = Some a ∧ at_fence a = fence.
Proof.
  unfold validate_active_fence. destruct (validate_fence fence); [|done].
  destruct before as [b|]; [|done]. case_bool_decide; [|done]. by intros [= <-].
Qed.

Lemma admit_event_ok before fence seq raw a' :
  admit_event sha256 before fence seq raw = inl a' →
  ∃ a d, before = Some a ∧ at_fence a = fence ∧ at_fence a' = at_fence a
    ∧ digest_of raw = Some d ∧ at_seen a ⊆ at_seen a' ∧ at_seen a' !! seq = Some d
    ∧ (a' = a ∨ (seq = at_last_event_seq a + 1
                 ∧ at_last_event_seq a' = seq ∧ at_seen a' = <[seq := d]> (at_seen a))).
Proof.
  unfold admit_event, digest_of.
  destruct (validate_active_fence before fence) as [a|] eqn:Hf; [|done].
  apply validate_active_fence_ok in Hf as [-> Hf].
  destruct (validate_positive _ _); [|done].
  destruct (to_json raw) as [bytes|]; [|done]. simpl.
  destruct (at_seen a !! seq) as [previous|] eqn:Hs.
  - case_bool_decide as Hd; [|done]. intros [= <-]. subst previous. eexists a, _. eauto 10.
  - unfold checked_add_u64. destruct (_ <=? u64_max); [|done].
    case_bool_decide as He; [|done]. intros [= <-]. eexists a, _. simpl.
    rewrite lookup_insert_eq. split_and!; try done; [by apply insert_subseteq|]. by right.
Qed.

Lemma admit_keeps_ok before fence seq raw a a' :
  admit_event sha256 before fence seq raw = inl a' → before = Some a → turn_ok a → turn_ok a'.
Proof.
  intros (b & d & -> & _ & _ & _ & _ & _ & Hcase)%admit_event_ok [= <-] [Hpos Hdom].
  destruct Hcase as [->|(Hseq & Hlast & Hins)]; [done|]. split; [lia|]. intros s.
  rewrite Hins, lookup_insert_is_Some, Hdom. lia.
Qed.

(** ** A run of the turn *)

(** Between two states of one turn: the fence stays, what was seen stays seen,
    and what the notifications carried is exactly what was added. *)
Definition extends (a : ActiveTurn) (ns : list HarnessAcpNotification) (a' : ActiveTurn) : Prop :=
  at_fence a' = at_fence a ∧ at_seen a ⊆ at_seen a'
  ∧ (∀ seq d, (seq, d) ∈ evidence ns → at_seen a' !! seq = Some d)
  ∧ (∀ seq d, at_seen a' !! seq = Some d → at_seen a !! seq = Some d ∨ (seq, d) ∈ evidence ns).

Lemma extends_refl a ns : evidence ns = [] → extends a ns a.
Proof. intros Hns. split_and!; [done..|rewrite Hns; by intros ? ? ?%not_elem_of_nil|by left]. Qed.
Lemma evidence_app ns ns' : evidence (ns ++ ns') = evidence ns ++ evidence ns'.
Proof. apply omap_app. Qed.
Lemma extends_trans a ns a' ns' a'' :
  extends a ns a' → extends a' ns' a'' → extends a (ns ++ ns') a''.
Proof.
  intros (Hf & Hs & Hin & Hout) (Hf' & Hs' & Hin' & Hout').
  split_and!; [congruence|by etrans| |]; intros seq d; rewrite evidence_app, elem_of_app.
  - intros [H|H]; [eapply lookup_weaken; [by apply Hin|done]|by apply Hin'].
  - intros [H|H]%Hout'; [apply Hout in H as [?|?]; eauto|eauto].
Qed.

(** An event in hand: the turn it is admitted to grows by it. *)
Lemma admit_extends a fence seq raw a' n :
  admit_event sha256 (Some a) fence seq raw = inl a' →
  notification_evidence n = pair seq <$> digest_of raw → extends a [n] a'.
Proof.
  intros (b & d & [= <-] & _ & Hf & Hd & Hsub & Hl & Hcase)%admit_event_ok Hn.
  assert (evidence [n] = [(seq, d)]) as Hev by (unfold evidence; simpl; by rewrite Hn, Hd).
  split_and!; [done..| |]; intros s d'; rewrite Hev, list_elem_of_singleton.
  - by intros [= -> ->].
  - destruct Hcase as [->|(_ & _ & Hins)]; [by left|]. rewrite Hins.
    intros [[-> ->]|[_ ?]]%lookup_insert_Some; eauto.
Qed.

Lemma step_extends c ns c' a' :
  client_step c ns c' → hc_active_turn c' = Some a' →
  ∃ a, hc_active_turn c = Some a ∧ extends a ns a' ∧ (turn_ok a → turn_ok a').
Proof.
  intros Hs Ha'. destruct Hs as [c c' n H|c c' e H|req c c' r H|reason c c' r H|c c' r H].
  - apply next_notification_cases in H. destruct n; simpl in H.
    + destruct H as (a1 & Hadm & Heq). rewrite Heq in Ha'. injection Ha' as ->.
      pose proof Hadm as (a & d & Hb & _)%admit_event_ok. exists a. split; [done|].
      split; [rewrite Hb in Hadm; by eapply admit_extends|by eapply admit_keeps_ok].
    + destruct H as (a1 & Hadm & Heq). rewrite Heq in Ha'. injection Ha' as ->.
      pose proof Hadm as (a & d & Hb & _)%admit_event_ok. exists a. split; [done|].
      split; [rewrite Hb in Hadm; by eapply admit_extends|by eapply admit_keeps_ok].
    + destruct H as [_ Hn]. congruence.
    + exists a'. rewrite <-H. split; [done|]. by split; [apply extends_refl|].
    + exists a'. rewrite <-H. split; [done|]. by split; [apply extends_refl|].
  - apply next_notification_cases in H. exists a'. rewrite <-H. split; [done|]. by split; [apply extends_refl|].
  - apply resolve_active in H. exists a'. rewrite <-H. split; [done|]. by split; [apply extends_refl|].
  - apply cancel_active in H. exists a'. rewrite <-H. split; [done|]. by split; [apply extends_refl|].
  - apply describe_active in H. exists a'. rewrite <-H. split; [done|]. by split; [apply extends_refl|].
Qed.

Lemma run_extends c ns c' a' :
  client_run c ns c' → hc_active_turn c' = Some a' →
  ∃ a, hc_active_turn c = Some a ∧ extends a ns a' ∧ (turn_ok a → turn_ok a').
Proof.
  induction 1 as [c|c ns c1 ns' c2 Hs Hrun IH]; intros Ha'.
  - exists a'. split; [done|]. by split; [apply extends_refl|].
  - destruct (IH Ha') as (a1 & Ha1 & He1 & Ho1).
    destruct (step_extends _ _ _ _ Hs Ha1) as (a & Ha & He & Ho).
    exists a. split; [done|]. split; [by eapply extends_trans|auto].
Qed.

Lemma start_turn_ok request c c' res :
  start_turn request c = (c', inl res) →
  hc_active_turn c = None ∧ validate_start_turn request = inl tt
  ∧ hc_active_turn c' = Some {| at_fence := st_fence request; at_last_event_seq := 0; at_seen := ∅ |}.
Proof.
  unfold start_turn. intros H. frame_tac.
  repeat match goal with u : unit |- _ => destruct u end.
  match goal with H : reject (is_some ?o) _ = inl _ |- _ => destruct o eqn:Hn; [done|] end.
  by split_and!.
Qed.

Lemma message_bounds_ok last messages m :
  validate_message_bounds last messages = inl tt → m ∈ messages →
  am_first_event_seq m ≠ 0 ∧ am_first_event_seq m ≤ am_last_event_seq m ≤ last.
Proof.
  induction messages as [|m' messages IH]; [by intros _ ?%not_elem_of_nil|]. simpl. unfold reject.
  destruct (_ || _) eqn:Hb; [done|]. simpl. intros Hr [->|Hm]%elem_of_cons; [|by apply IH].
  apply orb_false_iff in Hb as [[Hb1 Hb2]%orb_false_iff Hb3].
  apply bool_decide_eq_false in Hb1. lia.
Qed.

Lemma validate_terminal_ok before terminal :
  validate_terminal before terminal = inl tt →
  ∃ a, before = Some a ∧ tt_fence terminal = at_fence a
    ∧ tt_last_event_seq terminal = at_last_event_seq a
    ∧ tt_execution_certainty terminal ≠ NotStarted
    ∧ (tt_session_quiescent terminal = true → tt_execution_certainty terminal = OutcomeKnown)
    ∧ validate_message_bounds (tt_last_event_seq terminal) (tt_assistant_messages terminal) = inl tt.
Proof.
  unfold validate_terminal.
  destruct (validate_active_fence _ _) as [a|] eqn:Hf; [|done].
  apply validate_active_fence_ok in Hf as [-> Hf]. unfold reject, both.
  repeat first
    [ match goal with
      | |- (match (if ?b then _ else _) with _ => _ end) = _ → _ => destruct b eqn:?; [done|]
      | |- (match validate_id ?k ?v with _ => _ end) = _ → _ => destruct (validate_id k v); [|done]
      end ].
  intros Hm. bool_facts. exists a. split_and!; try done.
  intros Hq. rewrite Hq in *. simpl in *. bool_facts. by destruct (tt_execution_certainty terminal).
Qed.

(** C34 The evidence of a turn is complete: whatever the plugin process sends
    between an accepted start and the terminal the client lets through, the
    terminal carries the fence of the request and ends the turn, the events
    admitted carry exactly the sequence numbers from 1 to the terminal's last, no
    number carries two contents, the terminal never claims that the turn did not
    start, it claims a quiescent session only with a known outcome, and every
    assistant message refers to admitted events. *)
Theorem turn_evidence_complete request c0 c1 res ns c2 terminal c3 :
  start_turn request c0 = (c1, inl res) → client_run c1 ns c2 →
  next_notification sha256 c2 = (c3, inl (NTurnTerminal terminal)) →
  tt_fence terminal = st_fence request ∧ hc_active_turn c3 = None
  ∧ (∀ seq, 1 ≤ seq ≤ tt_last_event_seq terminal ↔ ∃ d, (seq, d) ∈ evidence ns)
  ∧ (∀ seq d d', (seq, d) ∈ evidence ns → (seq, d') ∈ evidence ns → d = d')
  ∧ tt_execution_certainty terminal ≠ NotStarted
  ∧ (tt_session_quiescent terminal = true → tt_execution_certainty terminal = OutcomeKnown)
  ∧ ∀ m, m ∈ tt_assistant_messages terminal →
      am_first_event_seq m ≠ 0
      ∧ am_first_event_seq m ≤ am_last_event_seq m ≤ tt_last_event_seq terminal.
Proof.
  intros (_ & _ & Hc1)%start_turn_ok Hrun Hnext.
  apply next_notification_cases in Hnext as [Hval Hc3].
  apply validate_terminal_ok in Hval as (a & Ha & Hf & Hlast & Hns & Hq & Hb).
  destruct (run_extends _ _ _ _ Hrun Ha) as (a0 & Ha0 & (Hf0 & _ & Hin & Hout) & Hok).
  rewrite Hc1 in Ha0. injection Ha0 as <-. simpl in *.
  destruct Hok as [_ Hdom]. { split; [done|]. intros seq. simpl. rewrite lookup_empty. split; [by intros []|lia]. }
  split_and!; try done; try congruence.
  - intros seq. rewrite Hlast, <-Hdom. split.
    + intros [d Hd]. exists d. apply Hout in Hd as [Hd|?]; [by rewrite lookup_empty in Hd|done].
    + intros [d Hd]. exists d. by apply Hin.
  - intros seq d d' H1%Hin H2%Hin. congruence.
  - intros m Hm. exact (message_bounds_ok _ _ _ Hb Hm).
Qed.
End client.

(** ** The theorem at a concrete plugin *)

Definition turn_fence : ExecutionFence :=
  {| fence_binding_id := "S"; fence_binding_generation := 1; fence_owner_epoch := 1;
     fence_invocation_id := "U0"; fence_fence_token := "U1" |}.
Definition turn_policy : TurnPolicy :=
  {| tp_idle_timeout_ms := 1000; tp_wall_timeout_ms := 60000; tp_cancel_drain_timeout_ms := 1000;
     tp_max_captured_output_bytes := 1024; tp_permission_policy := "controller";
     tp_tool_budget := {| tb_limit := 10; tb_required_enforcement := "observe_then_cancel" |};
     tp_token_budget := None |}.
Definition turn_request : StartTurn :=
  {| st_fence := turn_fence; st_session_ref := "native";
     st_source := {| ts_agent_id := "B"; ts_message_id := "M1"; ts_channel_id := "C";
                     ts_sender_id := "A"; ts_correlation_id := None; ts_causation_id := None |};
     st_prompt := [PromptText "hello"]; st_policy := turn_policy |}.
Definition enforcement : EffectiveEnforcement :=
  {| ee_wall_timeout := "hard"; ee_idle_timeout := "hard"; ee_cancel_drain_timeout := "hard";
     ee_captured_output_bytes := "hard"; ee_tool_budget := "observe_then_cancel";
     ee_token_budget := "unavailable" |}.
Definition driver : DescribeResult :=
  {| dsc_driver_version := "1"; dsc_acp_sdk_version := "1"; dsc_acp_protocol_version := mk_u32 1 eq_refl;
     dsc_runtime_name := "rt"; dsc_runtime_version := "1"; dsc_runtime_executable_digest := "d";
     dsc_agent_capabilities := "{}"; dsc_max_concurrent_turns := mk_u32 1 eq_refl; dsc_max_frame_bytes := 1024;
     dsc_profile_digest := "p1"; dsc_raw_initialize_result := "{}" |}.

(** A plugin that accepts every call and sends a list of notifications. *)
Definition script : Type := list PluginNotification.
#[export] Instance scripted_plugin : PluginProcess script := {|
  call_describe := done_with driver;
  call_open_session request :=
    done_with {| osr_session_ref := "native"; osr_profile_digest := os_profile_digest request;
                 osr_resumed := false; osr_effective_config := "{}";
                 osr_raw_session_result := "{}" |};
  call_start_turn _ :=
    done_with {| str_accepted := true; str_effective_enforcement := enforcement |};
  call_resolve_permission _ := done_with true;
  call_cancel_turn _ := done_with true;
  call_start_transcript _ := done_with true;
  call_close_session _ := done_with (true, true);
  receive_notification s :=
    match s with n :: s => (s, inl n) | [] => ([], inr (Exited None)) end;
|}.
(** Frames of the turn above: the parameters of an event are its sequence number
    in unary, those of a terminal the number of its last event. *)
Definition scripted_event (seq : Z) : TurnEvent :=
  {| te_fence := turn_fence; te_event_seq := seq; te_observed_at_ms := 20 + seq;
     te_classification := "agent_message_content"; te_raw_update := "{}" |}.
Definition scripted_permission (seq : Z) : PermissionRequested :=
  {| pq_fence := turn_fence; pq_permission_id := "perm"; pq_event_seq := seq;
     pq_tool_call := "{}";
     pq_options := [encode_object [("kind", "sallow_once"); ("optionId", "syes")]];
     pq_expires_at_ms := 900 |}.
Definition scripted_terminal (seq : Z) : TurnTerminal :=
  {| tt_fence := turn_fence; tt_last_event_seq := seq; tt_stop_reason := "end_turn";
     tt_runtime_stop_reason := None; tt_execution_certainty := OutcomeKnown;
     tt_session_quiescent := true; tt_session_persistence := SessionPersistence.Confirmed;
     tt_assistant_messages :=
       [{| am_message_id := Some "m"; am_content := []; am_complete := true;
           am_first_event_seq := 1; am_last_event_seq := 1 |}];
     tt_usage := "{}"; tt_raw_prompt_response := "{}" |}.
#[export] Instance scripted_frames : HarnessFrames := {|
  turn_event_from_value v := Some (scripted_event (str_len v));
  permission_from_value v := Some (scripted_permission (str_len v));
  terminal_from_value v := Some (scripted_terminal (str_len v));
  transcript_entry_from_value _ := None;
  transcript_complete_from_value _ := None;
|}.
Definition notify (method params : string) : PluginNotification :=
  {| pn_method := method; pn_params := params |}.
Definition two_events : script :=
  [notify "harness.acp.turn.event" "."; notify "harness.acp.permission.requested" "..";
   notify "harness.acp.turn.event" "."; notify "harness.acp.turn.terminal" ".."].
Definition client_of (s : script) : HarnessAcpClient script :=
  {| hc_process := s; hc_active_turn := None |}.
Definition started : HarnessAcpClient script := (start_turn turn_request (client_of two_events)).1.
Definition after_calls (k : nat) : HarnessAcpClient script :=
  Nat.iter k (λ c, (next_notification plain_sha256 c).1) started.

Lemma turn_evidence_complete_witness :
  tt_fence (scripted_terminal 2) = turn_fence
  ∧ (∀ seq, 1 ≤ seq ≤ 2 ↔
       ∃ d, (seq, d) ∈ evidence plain_sha256
              [NTurnEvent (scripted_event 1); NPermissionRequested (scripted_permission 2);
               NTurnEvent (scripted_event 1)]).
Proof.
  destruct (turn_evidence_complete plain_sha256 turn_request (client_of two_events) started
    {| str_accepted := true; str_effective_enforcement := enforcement |}
    ([NTurnEvent (scripted_event 1)] ++ [NPermissionRequested (scripted_permission 2)]
     ++ [NTurnEvent (scripted_event 1)] ++ [])
    (after_calls 3) (scripted_terminal 2) (after_calls 4)) as (H1 & _ & H2 & _).
  - reflexivity.
  - apply (cr_step _ _ _ (after_calls 1)); [apply cs_next; reflexivity|].
    apply (cr_step _ _ _ (after_calls 2)); [apply cs_next; reflexivity|].
    apply (cr_step _ _ _ (after_calls 3)); [apply cs_next; reflexivity|]. apply cr_refl.
  - reflexivity.
  - split; [exact H1|exact H2].
Defined.
