(* ===== verification/ResultProps.v ===== *)
(** * What a turn reports

    The result payload of a terminal, the consent given to permission requests and
    the bounded reason of a block: the pure parts of the controller. *)

From S2P Require Import Prelude Action Proto Schema Grants HarnessClient Controller Scenario.

(** ** Payloads *)

Section payload.
Context `{J : SerdeJson} {JT : JsonTree} {JTL : JsonTreeLaws}.

Lemma terminal_payload_some id capture context terminal stop :
  ∃ payload, terminal_payload id capture context terminal stop = Some payload.
Proof using JTL.
  assert (∀ fields k v, NoDup (map fst fields) → field k fields = None →
            json_insert k v (json_object fields) = Some (json_object (fields ++ [(k, v)]))) as Hins
    by (intros; by apply insert_object).
  unfold terminal_payload.
  assert (NoDup (map fst (payload_fields id capture context terminal stop))
          ∧ field "runtime_stop_reason" (payload_fields id capture context terminal stop) = None
          ∧ field "interrupted_by_message_id" (payload_fields id capture context terminal stop) = None)
    as (Hnd & Hf1 & Hf2).
  { unfold payload_fields. destruct capture; simpl;
      (split; [apply (bool_decide_eq_true _); reflexivity|by split]). }
  set (fields := payload_fields _ _ _ _ _) in *. unfold insert_string.
  destruct (runtime_stop_reason terminal stop) as [reason|]; simpl.
  - rewrite Hins by done. destruct stop as [[]|]; simpl; eauto.
    rewrite Hins; [eauto| |].
    + rewrite map_app. apply NoDup_app. split; [done|]. split; [|by apply NoDup_singleton].
      simpl. intros k Hk ->%list_elem_of_singleton. revert Hk Hf1. clear.
      induction fields as [|[k v] l IH]; simpl; [by intros ?%not_elem_of_nil|].
      intros Hk. case_bool_decide as E; [done|]. apply IH.
      apply elem_of_cons in Hk as [?|?]; [congruence|done].
    + revert Hf2. clear. induction fields as [|[k v] l IH]; simpl; [done|].
      case_bool_decide; [done|]. exact IH.
  - destruct stop as [[]|]; simpl; eauto.
Qed.

Lemma insert_string_get k v fields payload :
  NoDup (map fst fields) → k ≠ "status" →
  insert_string k v (Some (json_object fields)) = Some payload → field k fields = None →
  ∃ fields', payload = json_object fields' ∧ NoDup (map fst fields')
    ∧ field "status" fields' = field "status" fields
    ∧ ∀ k', k' ≠ k → field k' fields = None → field k' fields' = None.
Proof using JTL.
  intros Hnd Hk Hi Hf. unfold insert_string in Hi. destruct v as [v|].
  - simpl in Hi. rewrite insert_object in Hi by done. injection Hi as <-.
    assert (∀ k', field k' (fields ++ [(k, json_string v)])
                  = match field k' fields with
                    | Some x => Some x
                    | None => if k' ==? k then Some (json_string v) else None
                    end) as Happ.
    { intros k'. clear. induction fields as [|[k0 v0] l IH]; simpl; [done|].
      destruct (bool_decide (k' = k0)); [done|exact IH]. }
    exists (fields ++ [(k, json_string v)]). split_and!; [done| | |].
    + rewrite map_app. apply NoDup_app. split; [done|]. split; [|by apply NoDup_singleton].
      simpl. intros k' Hin ->%list_elem_of_singleton. revert Hin Hf. clear.
      induction fields as [|[k0 v0] l IH]; simpl; [by intros ?%not_elem_of_nil|].
      intros Hin. case_bool_decide as E; [done|]. apply IH.
      apply elem_of_cons in Hin as [?|?]; [congruence|done].
    + rewrite Happ. destruct (field "status" fields); [done|]. by rewrite bool_decide_false.
    + intros k' Hne Hn. rewrite Happ, Hn. by rewrite bool_decide_false.
  - injection Hi as <-. by exists fields.
Qed.

(** What [status] the payload reports. *)
Definition reported_status (capture : TurnResultCapture) (terminal : TurnTerminal)
    (stop : option HostStopReason) : string :=
  if match stop with Some reason => is_interruption reason | None => false end then "interrupted"
  else if terminal_success terminal stop
          && match capture with
             | Transcript => true
             | FinalAssistantJson =>
                 (json_get "status" (capture_final_assistant_json (tt_assistant_messages terminal))
                    ≫= json_as_str) ==? Some "captured"
             end
       then "completed" else "failed".

Lemma payload_status id capture context terminal stop payload :
  terminal_payload id capture context terminal stop = Some payload →
  json_get "status" payload = Some (json_string (reported_status capture terminal stop)).
Proof using JTL.
  unfold terminal_payload. intros Hp.
  destruct (insert_string "runtime_stop_reason" _ _) as [p1|] eqn:H1;
    [|by destruct stop as [[]|]].
  set (fields := payload_fields _ _ _ _ _) in *.
  assert (NoDup (map fst fields) ∧ field "runtime_stop_reason" fields = None
          ∧ field "interrupted_by_message_id" fields = None
          ∧ field "status" fields = Some (json_string (reported_status capture terminal stop)))
    as (Hnd & Hf1 & Hf2 & Hst).
  { unfold fields, payload_fields, reported_status, result_status. destruct capture; simpl;
      (split; [apply (bool_decide_eq_true _); reflexivity|]); (split; [done|]); (split; [done|]).
    - by rewrite andb_true_r.
    - generalize (match stop with Some reason => is_interruption reason | None => false end).
      intros []; [done|]. by destruct (terminal_success terminal stop). }
  apply insert_string_get in H1 as (f1 & -> & Hnd1 & Hs1 & Hk1); [|done..].
  apply insert_string_get in Hp as (f2 & -> & Hnd2 & Hs2 & _); [|done|done|by apply Hk1].
  rewrite get_object by done. congruence.
Qed.
End payload.

Section selection.
Context `{J : SerdeJson} {JT : JsonTree} {JTL : JsonTreeLaws}.

(** The final assistant message is complete text that parses. *)
Definition captured (messages : list AssistantMessage) : Prop :=
  ∃ m selection text value,
    select_final_assistant_message messages = inl (m, selection) ∧ am_complete m = true
    ∧ text_of (am_content m) = Some text ∧ is_blank text = false ∧ from_json text = Some value.

Lemma json_string_inj s s' : json_string s = json_string s' → s = s'.
Proof using JTL.
  intros E. apply (f_equal json_as_str) in E. rewrite !as_str_string in E. congruence.
Qed.

(** No message was captured. *)
Ltac refuted :=
  split; [by intros [=]|]; intros (? & ? & ? & ? & ? & ? & ? & ? & ?); congruence.
Lemma capture_status messages :
  (json_get "status" (capture_final_assistant_json messages) ≫= json_as_str) = Some "captured"
  ↔ captured messages.
Proof using JTL.
  assert (∀ reason, (json_get "status" (unavailable reason) ≫= json_as_str) = Some "unavailable")
    as Hun.
  { intros reason. unfold unavailable. rewrite get_object by (apply (bool_decide_eq_true _); done).
    simpl. apply as_str_string. }
  unfold capture_final_assistant_json, captured.
  destruct (select_final_assistant_message messages) as [[m selection]|reason];
    [|rewrite Hun; refuted].
  destruct (am_complete m) eqn:Hc; simpl; [|rewrite Hun; refuted].
  destruct (text_of (am_content m)) as [text|] eqn:Ht; [|rewrite Hun; refuted].
  destruct (is_blank text) eqn:Hb; [rewrite Hun; refuted|].
  destruct (from_json text) as [value|] eqn:Hv; [|rewrite Hun; refuted].
  rewrite get_object by (apply (bool_decide_eq_true _); done). simpl. rewrite as_str_string.
  split; [|done]. intros _. by exists m, selection, text, value.
Qed.

(** The result payload tells the truth about the turn: it is always built, and
    its status is "interrupted" exactly when the host stopped the turn for an
    interruption, and "completed" exactly when the host did not stop it, the
    runtime gave no stop reason of its own, the harness ended the turn, every
    assistant message is complete and - where structured output was asked for - the
    final message is complete text that parses as JSON; otherwise it is "failed". *)
Theorem payload_truthful id capture context terminal stop :
  ∃ payload status, terminal_payload id capture context terminal stop = Some payload
    ∧ json_get "status" payload = Some (json_string status)
    ∧ (status = "interrupted" ↔ ∃ reason, stop = Some reason ∧ interruption reason ≠ None)
    ∧ (status = "completed" ↔
         stop = None ∧ tt_runtime_stop_reason terminal = None ∧ tt_stop_reason terminal = "end_turn"
         ∧ (∀ m, m ∈ tt_assistant_messages terminal → am_complete m = true)
         ∧ (capture = FinalAssistantJson → captured (tt_assistant_messages terminal)))
    ∧ (status = "interrupted" ∨ status = "completed" ∨ status = "failed").
Proof using JTL.
  destruct (terminal_payload_some id capture context terminal stop) as [payload Hp].
  exists payload, (reported_status capture terminal stop). split; [done|].
  split; [by eapply payload_status|]. unfold reported_status.
  assert (terminal_success terminal stop = true ↔
            stop = None ∧ tt_runtime_stop_reason terminal = None ∧ tt_stop_reason terminal = "end_turn"
            ∧ ∀ m, m ∈ tt_assistant_messages terminal → am_complete m = true) as Hsucc.
  { unfold terminal_success, runtime_stop_reason, transcript_complete.
    rewrite !andb_true_iff, forallb_forall, bool_decide_eq_true.
    setoid_rewrite list_elem_of_In. destruct stop, (tt_runtime_stop_reason terminal); simpl; naive_solver. }
  set (cap := match capture with Transcript => true | _ => _ end).
  assert (cap = true ↔ (capture = FinalAssistantJson → captured (tt_assistant_messages terminal))) as Hcap.
  { unfold cap. destruct capture; [naive_solver|]. rewrite bool_decide_eq_true, capture_status. naive_solver. }
  destruct stop as [reason|].
  - assert (terminal_success terminal (Some reason) = false) as Hs.
    { apply not_true_is_false. intros E. by apply Hsucc in E as [[=] _]. }
    rewrite Hs. destruct reason; simpl; naive_solver.
  - destruct (terminal_success terminal None) eqn:Hs, cap eqn:Hc; simpl;
      destruct Hsucc as [Hs1 Hs2], Hcap as [Hc1 Hc2]; split_and!; try naive_solver.
Qed.

End selection.

(** ** Consent *)

Section consent.
Context `{J : SerdeJson} {JT : JsonTree}.

(** The options a request offers for one use, by kind and identifier. *)
Definition offers (id : string) (choice : Value) : Prop :=
  (json_get "kind" choice ≫= json_as_str) = Some "allow_once"
  ∧ (json_get "optionId" choice ≫= json_as_str) = Some id ∧ is_blank id = false.

Lemma allow_once_id_ok choice id : allow_once_id choice = Some id ↔ offers id choice.
Proof.
  unfold allow_once_id, offers. case_bool_decide as Hk; simpl; [|split; [done|by intros [? _]]].
  destruct (json_get "optionId" choice ≫= json_as_str) as [i|]; [|split; [done|by intros (_ & [=] & _)]].
  destruct (is_blank i) eqn:Hb; (split; [intros [=]|intros (_ & [=] & ?)]); congruence || by subst.
Qed.

(** Consent is given only where it is unambiguous: a permission request is
    answered with an option exactly when the seat's policy allows one-time consent
    and the request offers exactly one usable option of that kind, which is then
    the option selected; every other request is cancelled. *)
Theorem consent_unambiguous policy request id :
  decision_outcome (decide policy request) = Selected id ↔
  policy = AllowOnce
  ∧ ∃ before choice after, pq_options request = before ++ choice :: after ∧ offers id choice
      ∧ ∀ other id', other ∈ before ++ after → ~ offers id' other.
Proof.
  assert (∀ l id, omap allow_once_id l = [id] ↔
            ∃ before choice after, l = before ++ choice :: after ∧ offers id choice
              ∧ ∀ other id', other ∈ before ++ after → ~ offers id' other) as Homap.
  { intros l. induction l as [|c l IH]; intros i; simpl.
    { split; [done|]. intros (b & ch & af & Hl & _). by destruct b. }
    destruct (allow_once_id c) as [j|] eqn:Hc; simpl.
    - apply allow_once_id_ok in Hc. split.
      + intros [= -> Hl]. exists [], c, l. split_and!; [done..|]. intros other id' Ho Hoff.
        apply allow_once_id_ok in Hoff. assert (id' ∈ omap allow_once_id l) as Hin
          by (apply list_elem_of_omap; by exists other).
        by apply (not_elem_of_nil id'); rewrite <-Hl.
      + intros (b & ch & af & Hl & Hoff & Hno). destruct b as [|c' b]; simpl in Hl; injection Hl as -> ->.
        * assert (j = i) as -> by (unfold offers in *; naive_solver congruence). f_equal.
          apply elem_of_nil_inv. intros x (y & Hy & Hx)%list_elem_of_omap.
          apply allow_once_id_ok in Hx. by apply (Hno y x).
        * exfalso. apply (Hno c' j); [set_solver|done].
    - rewrite IH. split.
      + intros (b & ch & af & -> & Hoff & Hno). exists (c :: b), ch, af. split_and!; [done..|].
        intros other id' [->|Ho]%elem_of_cons; [|by apply Hno].
        rewrite <-allow_once_id_ok. congruence.
      + intros (b & ch & af & Hl & Hoff & Hno). destruct b as [|c' b]; simpl in Hl; injection Hl as -> ->.
        * apply allow_once_id_ok in Hoff. congruence.
        * exists b, ch, af. split_and!; [done..|]. intros other id' Ho. apply Hno. set_solver. }
  unfold decide. destruct policy; simpl; [naive_solver|].
  rewrite <-Homap. destruct (omap allow_once_id (pq_options request)) as [|i [|j l]]; simpl; naive_solver.
Qed.
End consent.

(** ** Bounded reasons *)

Lemma floor_boundary_ok s n :
  is_char_boundary s (floor_boundary s n) = true ∧ (floor_boundary s n ≤ n)%nat
  ∧ ∀ k, (k ≤ n)%nat → is_char_boundary s k = true → (k ≤ floor_boundary s n)%nat.
Proof.
  induction n as [|n (IH1 & IH2 & IH3)]; simpl; [by split_and!|].
  change (is_char_boundary s (S n)) with
    (match String.get (S n) s with Some b => negb (is_continuation b)
     | None => (S n =? String.length s)%nat end).
  destruct (match String.get (S n) s with Some _ => _ | None => _ end) eqn:Hb.
  - split_and!; [exact Hb|lia|]. intros k Hk _. lia.
  - split_and!; [done|lia|]. intros k Hk Hbk. destruct (Nat.eq_dec k (S n)) as [->|Hne].
    + simpl in Hbk. congruence.
    + apply IH3; [lia|done].
Qed.
Lemma length_substring s n : (n ≤ String.length s)%nat → String.length (String.substring 0 n s) = n.
Proof. revert n. induction s as [|a s IH]; intros [|n] Hn; simpl in *; try lia; [done..|]. rewrite IH; lia. Qed.
Lemma prefix_substring s n : String.prefix (String.substring 0 n s) s = true.
Proof.
  revert n. induction s as [|a s IH]; intros [|n]; simpl; try done.
  destruct (Ascii.ascii_dec a a); [apply IH|done].
Qed.

(** A recorded reason is bounded without breaking its text: it is a prefix of
    the original of at most 4096 bytes that ends on a character boundary, it is the
    whole text when that fits, and otherwise the longest such prefix. *)
Theorem bounded_reason_prefix reason :
  let bounded := bounded_reason reason in
  (String.length bounded ≤ REASON_LIMIT)%nat ∧ String.prefix bounded reason = true
  ∧ is_char_boundary reason (String.length bounded) = true
  ∧ ((String.length reason ≤ REASON_LIMIT)%nat → bounded = reason)
  ∧ ∀ k, (k ≤ Nat.min REASON_LIMIT (String.length reason))%nat → is_char_boundary reason k = true →
      (k ≤ String.length bounded)%nat.
Proof.
  unfold bounded_reason. destruct (Nat.leb_spec (String.length reason) REASON_LIMIT) as [Hle|Hlt].
  - split_and!; [done| | |done|].
    + induction reason as [|a s IH]; simpl in *; [done|].
      destruct (Ascii.ascii_dec a a); [apply IH; lia|done].
    + unfold is_char_boundary. destruct (String.length reason) as [|n] eqn:Hn; [done|].
      destruct (String.get (S n) reason) as [b|] eqn:Hg; [|by apply Nat.eqb_eq].
      exfalso. clear Hle. revert n Hn Hg. induction reason as [|a s IH]; intros n Hn Hg; [done|].
      simpl in *. injection Hn as Hn. destruct n as [|n]; [by destruct s|]. by eapply IH.
    + lia.
  - destruct (floor_boundary_ok reason REASON_LIMIT) as (Hb & Hn & Hmax).
    rewrite length_substring by lia. split_and!; [done|apply prefix_substring|done|lia|].
    intros k Hk. apply Hmax. lia.
Qed.

(** ** A structured result *)

Definition answer_block : @Value plain_json :=
  json_object [("type", json_string "text"); ("text", json_string "42")].
Definition answer_message : AssistantMessage :=
  {| am_message_id := Some "m1"; am_content := [answer_block]; am_complete := true;
     am_first_event_seq := 1; am_last_event_seq := 2 |}.
Definition answer_terminal : TurnTerminal :=
  {| tt_fence := {| fence_binding_id := "S"; fence_binding_generation := 1;
                    fence_owner_epoch := 1; fence_invocation_id := "I"; fence_fence_token := "F" |};
     tt_last_event_seq := 2; tt_stop_reason := "end_turn"; tt_runtime_stop_reason := None;
     tt_execution_certainty := OutcomeKnown; tt_session_quiescent := true;
     tt_session_persistence := SessionPersistence.Confirmed;
     tt_assistant_messages := [answer_message]; tt_usage := json_null;
     tt_raw_prompt_response := json_null |}.

(** A structured turn that ended with complete JSON reports "completed"; the same
    terminal reached after the worker was asked to stop reports "interrupted". *)
Lemma payload_truthful_witness :
  (∃ payload, terminal_payload "I" FinalAssistantJson json_null answer_terminal None = Some payload
     ∧ json_get "status" payload = Some (json_string "completed"))
  ∧ ∃ payload, terminal_payload "I" FinalAssistantJson json_null answer_terminal
                 (Some (stop_from WorkerShutdown)) = Some payload
     ∧ json_get "status" payload = Some (json_string "interrupted").
Proof.
  split.
  - destruct (payload_truthful "I" FinalAssistantJson json_null answer_terminal None)
      as (payload & status & Hp & Hs & _ & [_ Hc] & _).
    exists payload. split; [done|]. rewrite Hs, Hc; [done|]. split_and!; try done.
    + intros m Hm. apply list_elem_of_singleton in Hm as ->. done.
    + intros _. exists answer_message, "only_assistant_message", "42", "42". by vm_compute.
  - destruct (payload_truthful "I" FinalAssistantJson json_null answer_terminal
                (Some (stop_from WorkerShutdown))) as (payload & status & Hp & Hs & [_ Hi] & _).
    exists payload. split; [done|]. rewrite Hs, Hi; [done|]. by eexists.
Defined.
