(* ===== verification/ControllerProps.v ===== *)
(** * Properties of the managed turn controller

    Over every harness, every schedule and every run of the rest of the system
    between two awaits: a prompt is sent only under a durable arm, grants do not
    outlive the turn, and an outcome is durable before it is returned. *)

From S2P Require Import Prelude Action Proto Schema Messages Deliveries.
From S2P Require Import SessionFence Observations Invocations Settlement Sessions.
From S2P Require Import Lifecycle Safety System Fence Preserve Scenario SessionInv DeliveryProps.
From S2P Require Import Grants HarnessClient Controller ControllerInv ResultProps.
From S2P Require Import HarnessProps.

(** ** What an arm leaves in the store *)

Section armed.
Context `{J : SerdeJson} (sha256_hex : string → string).

(** The attempt was armed under this fence and bound to this session owner. *)
Definition armed_for (agent_id : string) (fence : ExecutionFence) (db : Db) : Prop :=
  (∃ i, i ∈ db.(invocations) ∧ i_id i = fence_invocation_id fence ∧ i_agent_id i = agent_id
        ∧ i_fence_token i = fence_fence_token fence ∧ i_dispatch_armed_at_ms i ≠ None)
  ∧ ∃ t, t ∈ db.(session_binding_turns) ∧ t_invocation_id t = fence_invocation_id fence
         ∧ t_binding_id t = fence_binding_id fence
         ∧ t_binding_generation t = fence_binding_generation fence
         ∧ t_owner_epoch t = fence_owner_epoch fence.

Lemma invocation_moves operator (i i' : InvocationRow) :
  moves operator i i' →
  i_id i' = i_id i ∧ i_agent_id i' = i_agent_id i ∧ i_fence_token i' = i_fence_token i
  ∧ i_lease_token i' = i_lease_token i ∧ i_message_seq i' = i_message_seq i
  ∧ (i_dispatch_armed_at_ms i ≠ None → i_dispatch_armed_at_ms i' ≠ None).
Proof.
  induction 1 as [|i i1 i2 Hs _ IH]; [done|].
  destruct IH as (-> & -> & -> & -> & -> & IH). destruct Hs; split_and!; try done; auto.
Qed.
Lemma turn_moves operator (t t' : TurnRow) :
  moves operator t t' →
  t_invocation_id t' = t_invocation_id t ∧ t_binding_id t' = t_binding_id t
  ∧ t_binding_generation t' = t_binding_generation t ∧ t_owner_epoch t' = t_owner_epoch t.
Proof.
  induction 1 as [|t t1 t2 Hs _ IH]; [done|].
  destruct IH as (-> & -> & -> & ->). by destruct Hs.
Qed.

Lemma armed_for_stays a fence db db' :
  wf db → reaches sha256_hex db db' → armed_for a fence db → armed_for a fence db'.
Proof.
  intros Hwf Hrun [(i & Hi & Hid & Ha & Hf & Harm) (t & Ht & Hti & Htb & Htg & Hte)].
  destruct (reaches_safe _ _ _ Hwf Hrun) as [_ He]. split.
  - destruct (table_rel_elem _ _ _ _ (ev_invocations _ _ _ He) Hi) as (i' & Hi' & Hm).
    apply invocation_moves in Hm as (? & ? & ? & _ & _ & Harm').
    exists i'. split_and!; try congruence; auto.
  - destruct (table_rel_elem _ _ _ _ (ev_turns _ _ _ He) Ht) as (t' & Ht' & Hm).
    apply turn_moves in Hm as (? & ? & ? & ?). exists t'. split_and!; congruence.
Qed.

(** The attempt after the arming transaction. *)
Lemma arm_leaves a x input now db r db' :
  wf db → arm_invocation_transaction a x input now db = Ok (r, db') →
  ∃ i, i ∈ db'.(invocations) ∧ i_id i = x ∧ i_agent_id i = a
       ∧ i_fence_token i = arm_fence_token input ∧ i_dispatch_armed_at_ms i ≠ None
       ∧ Fence.armed i.
Proof.
  intros Hwf H. unfold arm_invocation_transaction in H. m_inv.
  match goal with x : _ * _ * _ |- _ => destruct x as [[i0 d0] m0] end. m_inv.
  match goal with H : invocation_with_delivery _ _ _ = Ok _ |- _ =>
    apply invocation_with_delivery_ok in H as (-> & Hi0 & _ & _ & Hid & Hag & _) end.
  match goal with H : invocation_by_id _ _ = Ok _ |- _ => apply invocation_by_id_reads in H as -> end.
  unfold validate_invocation_fence, validate_static_fence in *. m_inv. bool_facts.
  destruct (i_state i0) eqn:Hst; m_inv.
  - match goal with H : update _ _ _ = Ok _ |- _ => apply update_ok in H as (-> & _) end.
    exists (set_armed now i0). split; [|by split_and!].
    apply elem_of_update_row. exists i0. split; [done|]. by rewrite Hst, !bool_decide_true by done.
  - exists i0. split_and!; try done. pose proof (checked_row db i0 Hwf Hi0) as Hc. cbn in Hc.
    unfold check_invocation in Hc. rewrite Hst in Hc. bool_facts. by destruct (i_dispatch_armed_at_ms i0).
Qed.

Lemma activate_leaves a x b now db u db' :
  activate_binding_turn a x b now db = Ok (u, db') →
  ∃ t, t ∈ db'.(session_binding_turns) ∧ t_invocation_id t = x ∧ t_binding_id t = binding_id b
       ∧ t_binding_generation t = binding_generation b ∧ t_owner_epoch t = owner_epoch b.
Proof.
  intros H. unfold activate_binding_turn in H. m_inv.
  match goal with H : owner_fence _ _ = Ok _ |- _ => apply owner_fence_ok in H as (-> & _) end.
  destruct (List.find _ _) as [t|] eqn:Hf.
  - apply find_some_elem in Hf as [Ht Hx]. m_inv. bool_facts. exists t. by split_and!.
  - m_inv. match goal with H : insert _ _ = Ok _ |- _ => apply insert_ok in H as (_ & _ & _ & _ & ->) end.
    match goal with H : fenced_update _ _ _ _ _ = Ok _ |- _ =>
      apply fenced_update_ok in H as (s & _ & _ & _ & _ & _ & ->) end.
    eexists. cbn. split; [apply elem_of_app; right; by apply list_elem_of_singleton|done].
Qed.

Lemma arm_session_leaves a x b ref g input now db r db' :
  wf db → arm_session_invocation a x b ref g input now db = Ok (r, db') →
  armed_for a {| fence_binding_id := binding_id b; fence_binding_generation := binding_generation b;
                 fence_owner_epoch := owner_epoch b; fence_invocation_id := x;
                 fence_fence_token := arm_fence_token input |} db'.
Proof.
  intros Hwf H. unfold arm_session_invocation in H. m_inv.
  match goal with H : exact_binding_row _ _ _ = Ok _ |- _ =>
    apply (keeps_exact_binding_row (λ d, d)) in H; simpl in H; subst end.
  match goal with H : arm_invocation_transaction _ _ _ _ _ = Ok (_, ?d) |- _ =>
    destruct (arm_leaves _ _ _ _ _ _ _ Hwf H) as (i & Hi & ? & ? & ? & ? & _) end.
  match goal with H : activate_binding_turn _ _ _ _ _ = Ok _ |- _ =>
    pose proof (activate_leaves _ _ _ _ _ _ _ H) as (t & Ht & ?);
    apply keeps_activate_turn in H as Hk1 end.
  match goal with H : begin_invocation_observation _ _ _ _ _ ?d1 = Ok (_, ?d2) |- _ =>
    pose proof (keeps_begin_observation _ _ _ _ _ _ _ _ H) as Hk2;
    assert (d2.(session_binding_turns) = d1.(session_binding_turns)) as Hk3
      by (apply (preserves_run (λ d, d.(session_binding_turns) = d1.(session_binding_turns)) _ _ _ _ H);
          [preserves_tac|done]) end.
  match goal with H : binding_by_identity _ _ _ = Ok _ |- _ =>
    apply (keeps_binding_by_identity (λ d, d)) in H; simpl in H; subst end.
  unfold attempts in *. split; [exists i|exists t]; cbn.
  - split_and!; congruence.
  - by rewrite Hk3.
Qed.

(** ** What a block leaves in the store *)

Definition blocked_as (agent_id message_id lease_token : string) (b : BlockedDelivery) (db : Db)
    : Prop :=
  ∃ row m, row ∈ db.(delivery_blocks) ∧ m ∈ db.(messages) ∧ m_id m = message_id
    ∧ m_seq m = b_message_seq row ∧ b_id row = blocked_block_id b ∧ b_agent_id row = agent_id
    ∧ b_lease_token row = lease_token ∧ b_reason row = blocked_reason b.

Lemma block_moves operator (b b' : BlockRow) :
  moves operator b b' →
  b_id b' = b_id b ∧ b_agent_id b' = b_agent_id b ∧ b_lease_token b' = b_lease_token b
  ∧ b_reason b' = b_reason b ∧ b_message_seq b' = b_message_seq b.
Proof.
  induction 1 as [|b b1 b2 Hs _ IH]; [done|]. destruct IH as (-> & -> & -> & -> & ->).
  by destruct Hs.
Qed.
Lemma blocked_as_stays a m t b db db' :
  wf db → reaches sha256_hex db db' → blocked_as a m t b db → blocked_as a m t b db'.
Proof.
  intros Hwf Hrun (row & msg & Hrow & Hmsg & ? & ? & ? & ? & ? & ?).
  destruct (reaches_safe _ _ _ Hwf Hrun) as [_ He].
  destruct (table_rel_elem _ _ _ _ (ev_blocks _ _ _ He) Hrow) as (row' & Hrow' & Hm).
  destruct (reaches_messages _ _ _ Hwf Hrun) as [added Heq].
  apply block_moves in Hm as (? & ? & ? & ? & ?). exists row', msg. rewrite Heq.
  split_and!; try congruence. apply elem_of_app. by left.
Qed.

Lemma insert_block_record_ok a m input at_ms db id db' :
  insert_block_record a m input at_ms db = Ok (id, db') →
  ∃ row msg, row ∈ db'.(delivery_blocks) ∧ msg ∈ db'.(messages) ∧ m_id msg = m
    ∧ m_seq msg = b_message_seq row ∧ b_id row = id ∧ b_agent_id row = a
    ∧ b_lease_token row = block_lease_token input ∧ b_reason row = block_reason input.
Proof.
  unfold insert_block_record. intros H. m_inv.
  destruct (List.filter _ _) as [|r rs] eqn:Hf; [cbn in *; m_inv; simpl in *; by m_inv|].
  assert (d_agent_id r.1 = a ∧ m_id r.2 = m ∧ r.2 ∈ messages db ∧ m_seq r.2 = d_message_seq r.1)
    as (Ha & Hid & Hmsg & Hseq).
  { assert (r ∈ r :: rs) as Hr by set_solver. rewrite <-Hf in Hr.
    apply elem_of_list_filter in Hr as [Hp Hj]. destruct r as [d msg].
    apply elem_of_join in Hj as (_ & ? & ?). by bool_facts. }
  cbn in *. m_inv. destruct rs as [|r' rs]; cbn in *; m_inv; simpl in *; m_inv.
  match goal with H : record_block_id _ _ _ _ _ _ _ = Ok _ |- _ =>
    apply record_block_id_ok in H as [-> ->] end.
  eexists _, r.2. split; [cbn; apply elem_of_app; right; by apply list_elem_of_singleton|].
  by split_and!.
Qed.

Lemma block_delivery_leaves a m input now db b created db' :
  wf db → block_delivery a m input now db = Ok ((b, created), db') →
  blocked_as a m (block_lease_token input) b db' ∧ blocked_reason b = block_reason input.
Proof.
  intros Hwf H. destruct (safe_block_delivery true _ _ _ _ _ _ _ Hwf H) as [Hwf' _].
  unfold block_delivery in H. m_inv.
  apply or_rollback_ok in H as [(db1 & _ & Hrest)|(db1 & _ & Hmiss)]; m_inv.
  - match goal with H : insert_block_record _ _ _ _ _ = Ok _ |- _ =>
      apply insert_block_record_ok in H as (row & msg0 & Hrow & Hm0 & Hmid0 & Hs0 & Hid & Ha & Ht & Hre) end.
    match goal with H : terminalize_invocation _ _ _ _ _ _ ?d1 = Ok (_, ?d2) |- _ =>
      assert (d2.(delivery_blocks) = d1.(delivery_blocks) ∧ d2.(messages) = d1.(messages)) as [Hk Hkm]
        by (apply terminalize_invocation_ok in H as ->; done) end.
    unfold blocked_delivery_by_id in *. m_inv.
    destruct (List.find _ _) as [[row' msg]|] eqn:Hf; [|by m_inv].
    apply find_some_elem in Hf as [Hin Hp]. apply elem_of_join in Hin as (Hrow' & _ & _).
    m_inv. bool_facts. simplify_eq. unfold blocked_delivery_from_row in *. m_inv. cbn in *.
    assert (row' = row) as -> by (eapply (block_id_unique _ row' row Hwf'); [done|by rewrite Hk|congruence]).
    split; [exists row, msg0; rewrite ?Hkm; by split_and!|done].
  - unfold blocked_delivery_by_lease in *. m_inv.
    destruct (List.find _ _) as [[row msg]|] eqn:Hf; [|m_inv; by m_inv].
    apply find_some_elem in Hf as [Hin Hp]. apply elem_of_join in Hin as (Hrow & Hmsg & Hseq).
    m_inv. bool_facts. simplify_eq.
    unfold blocked_delivery_from_row in *. m_inv. cbn in *. bool_facts.
    split; [exists row, msg; by split_and!|done].
Qed.
End armed.

Section turn.
Context `{J : SerdeJson} {JT : JsonTree}.
Context {H : Type} {HH : Harness H} {G : Type} {MG : ManagedTurnGrant G}.
Context (sha256_hex : string → string).
Context (plugin_error_text : PluginError → string) (source_text : FleetError → string).
Context (clock later : nat → Z) (uuid : nat → string).
Context (env_db : nat → Db → Db) (env_grants : nat → list G → list G).
Context (lost : nat → bool) (sink : bool) (turn : ManagedTurn).
Notation World := (World (H := H) (G := G)).
Notation tick := (tick env_db env_grants).
Notation run := (run sha256_hex plugin_error_text source_text clock later uuid env_db env_grants
                   lost sink turn).
Notation dispatch := (dispatch sha256_hex plugin_error_text source_text clock later uuid env_db
                        env_grants lost sink turn).
Notation store := (store (H := H) clock later uuid env_db env_grants).
Notation block := (block (H := H) clock later uuid env_db env_grants sink).
Notation revoke_grants := (revoke_grants (H := H) clock env_db env_grants).
Notation activate_grants := (activate_grants (H := H) clock env_db env_grants).
Notation inv := (mt_invocation turn).

(** The rest of the system runs between the awaits. *)
Context (env_runs : ∀ n db, reachable sha256_hex db → reaches sha256_hex db (env_db n db)).

Lemma store_run {E A} (wrap : FleetError → E) op (w w' : World) (r : A + E) :
  store wrap op w = (w', r) →
  match op (clock (S (w_awaits w))) (later (S (w_awaits w))) (uuid (S (w_awaits w)))
          (env_db (w_awaits w) (w_db w)) with
  | Ok (a, db) => w' = set_db db (tick w) ∧ r = inl a
  | Err e => w' = tick w ∧ r = inr (wrap e)
  end.
Proof.
  unfold store, pass. intros Hs. a_inv. unfold on_store in *. cbn in *.
  destruct (op _ _ _ _) as [[a db]|e]; a_inv; done.
Qed.

(** ** Dispatch only under the arm *)

(** What the log may say of a started turn. *)
Definition started_ok (e : Entry (G := G)) : Prop :=
  ∀ request, entry_effect e = StartedTurn request →
    request = start_turn_request turn
    ∧ armed_for (inv_agent_id inv) (st_fence request) (entry_db e).
Notation fence := (st_fence (start_turn_request turn)).
Definition turn_rel (w w' : World) : Prop :=
  reachable sha256_hex (w_db w) →
  reaches sha256_hex (w_db w) (w_db w')
  ∧ ∃ added, w_log w' = w_log w ++ added
             ∧ (armed_for (inv_agent_id inv) fence (w_db w) → Forall started_ok added).

#[local] Instance turn_rel_preorder : PreOrder turn_rel.
Proof.
  split.
  - intros w _. split; [reflexivity|]. exists []. by rewrite app_nil_r.
  - intros w1 w2 w3 H12 H23 Hr. destruct (H12 Hr) as (Hrun1 & l1 & Hl1 & Hok1).
    destruct (H23 (reachable_run _ _ _ Hr Hrun1)) as (Hrun2 & l2 & Hl2 & Hok2).
    split; [by etrans|]. exists (l1 ++ l2). rewrite Hl2, Hl1, app_assoc. split; [done|].
    intros Harm. apply Forall_app. split; [auto|]. apply Hok2.
    eapply armed_for_stays; [by eapply reachable_wf|done|done].
Qed.

(** A step that logs nothing. *)
Lemma turn_rel_silent w w' :
  (reachable sha256_hex (w_db w) → reaches sha256_hex (w_db w) (w_db w')) → w_log w' = w_log w →
  turn_rel w w'.
Proof. intros Hrun Hl Hr. split; [auto|]. exists []. by rewrite Hl, app_nil_r. Qed.

Definition turn_effect (e : Effect) : Prop :=
  match e with StartedTurn request => request = start_turn_request turn | _ => True end.
Lemma turn_rel_effect w e : turn_effect e → turn_rel w (add_entry e w).
Proof.
  intros He Hr. split; [reflexivity|]. eexists. split; [done|]. intros Harm.
  constructor; [|constructor]. intros request Hreq. simpl in Hreq. subst e. simpl in He. by subst.
Qed.

Ltac rel_moves :=
  try exact _; try done;
  first
    [ intros ?; apply turn_rel_silent; [apply env_runs|done]
    | (intros ? ? ?; apply turn_rel_silent; [|done]; intros _; apply rtc_once; by exists false)
    | apply turn_rel_effect
    | (by intros [])
    | (intros; by apply turn_rel_silent) ].
Lemma run_armed_rel schedule :
  within turn_rel (run_armed sha256_hex plugin_error_text source_text clock later uuid env_db
                     env_grants lost sink turn schedule).
Proof using env_runs.
  eapply within_run_armed with (allowed := turn_effect); rel_moves.
Qed.
Lemma drain_rel g f policy awaits :
  within turn_rel (drain_turn sha256_hex clock later uuid env_db env_grants lost sink g f policy awaits).
Proof using env_runs. eapply within_drain with (allowed := turn_effect); rel_moves. Qed.
Lemma revoke_rel {E} k id : within turn_rel (revoke_grants k id : turn_action E unit).
Proof using env_runs. eapply within_revoke; rel_moves. Qed.
Lemma activate_rel {E} k i x : within turn_rel (activate_grants k i x : turn_action E (option (nat * string))).
Proof using env_runs. eapply within_activate; rel_moves. Qed.
Lemma open_rel {E} g b : within turn_rel (open_trajectory (E := E) clock sink inv g b).
Proof. eapply within_open with (allowed := turn_effect); rel_moves. Qed.
Lemma await_rel f schedule :
  within turn_rel (await_terminal sha256_hex plugin_error_text source_text clock later uuid env_db
                     env_grants lost sink turn f schedule).
Proof using env_runs. eapply within_await_terminal with (allowed := turn_effect); rel_moves. Qed.
(** One call of the harness, logged first. *)
Lemma call_rel {E A} effect (wrap : PluginError → E) (call : action H PluginError A) :
  turn_effect effect →
  within turn_rel (pass env_db env_grants ;! record_effect effect ;! on_harness wrap call).
Proof using env_runs.
  intros He. repeat (apply within_andthen; [exact _| |intros _]).
  - eapply within_pass. rel_moves.
  - eapply within_record with (allowed := turn_effect); [rel_moves|done].
  - eapply within_harness. rel_moves.
Qed.

(** Up to the arm nothing is logged and no grant is touched; after it the attempt
    is armed. *)
Lemma arm_turn_run w w' r :
  reachable sha256_hex (w_db w) →
  arm_turn clock later uuid env_db env_grants turn w = (w', r) →
  w_log w' = w_log w ∧ reaches sha256_hex (w_db w) (w_db w')
  ∧ match r with
    | inl _ => armed_for (inv_agent_id inv) fence (w_db w')
    | inr _ => True
    end.
Proof using env_runs.
  intros Hr Hw. pose proof (env_runs (w_awaits w) _ Hr) as Hrun.
  pose proof (env_runs (S (w_awaits w)) _ (reachable_run _ _ _ Hr Hrun)) as Hrun2.
  unfold arm_turn in Hw. destruct (validate_turn turn) as [[]|e]; [|by injection Hw as <- <-].
  change (andthen (pass env_db env_grants ;! on_harness HarnessBeforeArm h_describe)
            (λ _, store TurnFleet (λ now _ _, arm_session_invocation (inv_agent_id inv) (inv_id inv)
               (mt_binding turn) (mt_session_ref turn) (mt_generation_id turn)
               {| arm_lease_token := inv_lease_token inv; arm_fence_token := inv_fence_token inv |}
               now)) w = (w', r)) in Hw.
  apply andthen_run in Hw as [(d & w1 & Hd & Hs)|(e & Hd & ->)];
    apply andthen_run in Hd as [(u & w2 & [= <- <-] & Hd)|(e' & [=] & _)];
    unfold on_harness in Hd; destruct (h_describe _) as [h x]; injection Hd as <- Hx; [|done].
  apply store_run in Hs. cbn in Hs.
  destruct (arm_session_invocation _ _ _ _ _ _ _ _) as [[b db]|e] eqn:Harm;
    destruct Hs as [-> ->]; cbn; (split; [done|]).
  - split.
    + etrans; [exact Hrun|]. etrans; [exact Hrun2|]. apply rtc_once. exists false.
      by eapply t_arm_session.
    + eapply arm_session_leaves in Harm; [done|]. eapply reachable_wf.
      eapply reachable_run; [|exact Hrun2]. by eapply reachable_run.
  - split; [by etrans|done].
Qed.

(** C8 A prompt is sent only under a durable arm: whenever the controller starts
    the turn on the harness - whatever the harness answers, however its races go
    and whatever else runs on the store - the request is the one for this
    invocation, and the store at that moment already holds the attempt as armed
    under the request's fence token, bound to the session, generation and owner
    epoch the request names. *)
Theorem dispatch_follows_arm schedule w w' r e request :
  reachable sha256_hex (w_db w) → w_log w = [] → run schedule w = (w', r) →
  e ∈ w_log w' → entry_effect e = StartedTurn request →
  request = start_turn_request turn
  ∧ armed_for (inv_agent_id inv) (st_fence request) (entry_db e).
Proof using env_runs.
  intros Hr Hl Hrun He Heff. unfold run in Hrun. apply andthen_run in Hrun.
  destruct Hrun as [(b & w1 & Harm & Hrest)|(error & Harm & ->)];
    destruct (arm_turn_run _ _ _ Hr Harm) as (Hl1 & Hrun1 & Harmed); rewrite Hl in Hl1.
  - destruct (run_armed_rel schedule _ _ _ Hrest) as (_ & added & Hadd & Hok);
      [by eapply reachable_run|].
    rewrite Hadd, Hl1 in He. simpl in He.
    exact (proj1 (Forall_forall _ _) (Hok Harmed) e He request Heff).
  - rewrite Hl1 in He. by apply not_elem_of_nil in He.
Qed.

(** ** Grants do not outlive the turn *)

Context {MGL : ManagedTurnGrantLaws G}.
(** Nobody else arms a grant for this invocation. *)
Context (env_grants_keep : ∀ n gs i g', env_grants n gs !! i = Some g' →
  grant_holder g' = Some (inv_id inv) →
  ∃ g, gs !! i = Some g ∧ grant_holder g = Some (inv_id inv)).

(** No grant at an index of [P] is held for the invocation. *)
Definition free_on (P : nat → Prop) (w : World) : Prop :=
  ∀ i g, P i → w_grants w !! i = Some g → grant_holder g ≠ Some (inv_id inv).
Definition keeps_free (P : nat → Prop) (w w' : World) : Prop := free_on P w → free_on P w'.

#[local] Instance keeps_free_preorder P : PreOrder (keeps_free P).
Proof. split; [intros w ?; assumption|]. intros w1 w2 w3 H1 H2 Hf. exact (H2 (H1 Hf)). Qed.

Lemma tick_free P w : free_on P w → free_on P (tick w).
Proof using env_grants_keep.
  intros Hf i g' Hi Hg' Hh. destruct (env_grants_keep _ _ _ _ Hg' Hh) as (g & Hg & Hgh).
  exact (Hf i g Hi Hg Hgh).
Qed.

(** The moves of the parts that touch no grant. *)
Ltac free_moves :=
  first [ exact _ | done | (intros; intros ?; first [assumption | by apply tick_free]) ].
Lemma block_after_arm_free P reason :
  within (keeps_free P)
    (block_after_arm clock later uuid env_db env_grants sink inv (mt_binding turn) reason).
Proof using env_grants_keep.
  eapply within_block_after_arm with (sha256_hex := λ s, s) (allowed := λ _, True); free_moves.
Qed.
Lemma await_terminal_free P f schedule :
  within (keeps_free P) (await_terminal sha256_hex plugin_error_text source_text clock later uuid
                           env_db env_grants lost sink turn f schedule).
Proof using env_grants_keep.
  eapply within_await_terminal with (allowed := λ _, True); free_moves.
Qed.
Lemma settle_free P terminal stop :
  within (keeps_free P)
    (settle_terminal clock later uuid env_db env_grants sink turn terminal stop).
Proof using env_grants_keep.
  eapply within_settle with (sha256_hex := λ s, s) (allowed := λ _, True); free_moves.
Qed.
Lemma closing_free P {A} (r : A + ManagedTurnError) :
  within (keeps_free P)
    (closing_on_error plugin_error_text source_text clock sink (inv_id inv) r).
Proof.
  eapply within_closing with (allowed := λ _, True);
    first [ exact _ | done | (intros; intros ?; assumption) ].
Qed.

Lemma arm_turn_free P : within (keeps_free P) (arm_turn clock later uuid env_db env_grants turn).
Proof using env_grants_keep.
  eapply within_arm_turn with (sha256_hex := λ s, s) (allowed := λ _, True); free_moves.
Qed.
Lemma open_free P {E} g b :
  within (keeps_free P) (open_trajectory (E := E) clock sink inv g b).
Proof.
  eapply within_open with (allowed := λ _, True);
    first [ exact _ | done | (intros; intros ?; assumption) ].
Qed.

(** One call on the grant at an index. *)
Lemma on_grant_run {E A} i (missing : A) f (w w' : World) (r : A + E) :
  on_grant clock env_db env_grants i missing f w = (w', r) →
  (w_grants (tick w) !! i = None ∧ w' = tick w ∧ r = inl missing)
  ∨ ∃ g g' a, w_grants (tick w) !! i = Some g ∧ f (clock (S (w_awaits w))) g = (g', a)
              ∧ w' = set_grants (<[i := g']> (w_grants (tick w))) (tick w) ∧ r = inl a.
Proof.
  unfold on_grant. intros Hw. apply andthen_run in Hw as [(u & w1 & [= <- <-] & Hw)|(e & [=] & _)].
  cbn in Hw. change (env_grants (w_awaits w) (w_grants w)) with (w_grants (tick w)) in Hw.
  destruct (w_grants (tick w) !! i) as [g|] eqn:Hg.
  - destruct (f _ g) as [g' a] eqn:Hf. injection Hw as <- <-. right. by exists g, g', a.
  - injection Hw as <- <-. by left.
Qed.

Lemma revoke_frees {E} k w w' (r : unit + E) :
  revoke_grants k (inv_id inv) w = (w', r) → free_on (λ i, (k ≤ i)%nat) w →
  free_on (λ _, True) w' ∧ r = inl tt.
Proof using env_grants_keep MGL.
  revert w. induction k as [|k IH]; intros w Hw Hf; simpl in Hw.
  - injection Hw as <- <-. split; [|done]. intros i g _ Hg. exact (Hf i g (Nat.le_0_l i) Hg).
  - apply andthen_run in Hw as [(u & w1 & Hg & Hw)|(e & Hg & ->)];
      apply on_grant_run in Hg as [(Hn & -> & Hr)|(g & g' & a & Hn & Hgf & -> & Hr)]; try done.
    + apply (IH _ Hw). intros i g Hi Hg. destruct (Nat.eq_dec i k) as [->|Hne]; [congruence|].
      eapply (tick_free _ _ Hf i g); [lia|done].
    + apply (IH _ Hw). injection Hgf as <- <-. intros i gi Hi Hgi. cbn in Hgi.
      destruct (Nat.eq_dec i k) as [->|Hne].
      * rewrite list_lookup_insert_eq in Hgi
          by (by eapply lookup_lt_Some). injection Hgi as <-. apply deactivate_revokes.
      * rewrite list_lookup_insert_ne in Hgi by done.
        eapply (tick_free _ _ Hf i gi); [lia|done].
Qed.

Lemma activate_frees {E} k i w w' (r : option (nat * string) + E) :
  activate_grants k i inv w = (w', r) → free_on (λ j, (i ≤ j)%nat) w →
  match r with
  | inl (Some (a, _)) => free_on (λ j, (a ≤ j)%nat) w'
  | inl None => free_on (λ j, (i + k ≤ j)%nat) w'
  | inr _ => False
  end.
Proof using env_grants_keep MGL.
  revert i w. induction k as [|k IH]; intros i w Hw Hf; simpl in Hw.
  - injection Hw as <- <-. by rewrite Nat.add_0_r.
  - apply andthen_run in Hw as [(u & w1 & Hg & Hw)|(e & Hg & ->)];
      apply on_grant_run in Hg as [(Hn & -> & Hr)|(g & g' & a & Hn & Hgf & -> & Hr)]; try done;
      injection Hr as ->.
    + apply IH in Hw; [by rewrite Nat.add_succ_r|].
      intros j gj Hj Hgj. eapply (tick_free _ _ Hf j gj); [lia|done].
    + destruct a as [[]|error].
      * apply IH in Hw; [by rewrite Nat.add_succ_r|]. intros j gj Hj Hgj. cbn in Hgj.
        rewrite list_lookup_insert_ne in Hgj by lia. eapply (tick_free _ _ Hf j gj); [lia|done].
      * injection Hw as <- <-. apply activate_refused in Hgf as ->.
        intros j gj Hj Hgj. cbn in Hgj. rewrite list_insert_id in Hgj by done.
        eapply (tick_free _ _ Hf j gj); [lia|done].
Qed.

(** ** No panic *)

Context {JTL : JsonTreeLaws}.

Definition drain_error (e : TurnDrainError) : Prop :=
  match e with DrainPanicked _ => False | _ => True end.
Definition turn_error (e : ManagedTurnError) : Prop :=
  match e with TurnPanicked _ => False | _ => True end.

Lemma fails_store {E A} (Q : E → Prop) (wrap : FleetError → E) (op : Z → Z → string → M A) :
  (∀ e, Q (wrap e)) → fails_with Q (store wrap op).
Proof.
  intros HQ w w' e Hs. apply store_run in Hs.
  destruct (op _ _ _ _) as [[a db]|e']; destruct Hs as [_ Hs]; [done|]. by injection Hs as ->.
Qed.
Lemma fails_harness {E A} (Q : E → Prop) (wrap : PluginError → E) (call : action H PluginError A) :
  (∀ e, Q (wrap e)) → fails_with Q (on_harness (G := G) wrap call).
Proof.
  intros HQ w w' e Hh. unfold on_harness in Hh. destruct (call _) as [h [a|e']]; [done|].
  by injection Hh as <- <-.
Qed.
Lemma fails_abandoned {E E' A} (Q : E' → Prop) (op : turn_action (H := H) (G := G) E A) :
  fails_with Q (abandoned env_db env_grants lost op).
Proof. intros w w' e Ha. unfold abandoned in Ha. by destruct (lost _). Qed.
Lemma fails_offer {E} (Q : E → Prop) e : fails_with Q (offer (H := H) (G := G) clock sink e).
Proof.
  unfold offer. destruct sink; [|apply fails_done].
  apply fails_andthen; [apply fails_look|]. intros. apply fails_act.
Qed.

Ltac fails_step :=
  first
    [ apply fails_done | apply fails_look | apply fails_attempt | apply fails_act
    | apply fails_throw; exact I | apply fails_store; by intros | apply fails_harness; by intros
    | apply fails_abandoned | apply fails_offer
    | apply fails_andthen; [|intros]
    | match goal with |- fails_with _ (match ?x with _ => _ end) => destruct x end ].
Ltac fails_tac := repeat fails_step.

Lemma drain_fails f policy awaits :
  fails_with drain_error
    (drain_turn sha256_hex clock later uuid env_db env_grants lost sink (mt_generation_id turn) f
       policy awaits).
Proof using JTL.
  induction awaits as [awaits IH] using lt_wf_ind. destruct awaits as [|awaits]; cbn [drain_turn].
  { unfold pass. fails_tac. }
  unfold pass, record_event, observe, resolve, pass, record_effect.
  apply fails_andthen; [fails_tac|]. intros [event|permission|terminal|entry|complete]; [| |fails_tac..].
  - destruct awaits as [|awaits]; [fails_tac|]. do 2 (apply fails_andthen; [fails_tac|intros _]).
    apply IH. lia.
  - unfold permission_to_value. rewrite insert_object by (try apply (bool_decide_eq_true _); done).
    apply fails_andthen; [fails_tac|intros at_ms]. destruct awaits as [|awaits]; [fails_tac|].
    do 2 (apply fails_andthen; [fails_tac|intros _]). destruct awaits as [|awaits]; [fails_tac|].
    apply fails_andthen; [unfold pass; fails_tac|intros _]. apply IH. lia.
Qed.

Lemma block_fails binding reason : fails_with turn_error (block inv binding reason).
Proof. unfold block, close_trajectory. fails_tac. Qed.
Lemma settle_fails terminal stop :
  fails_with turn_error (settle_terminal (H := H) clock later uuid env_db env_grants sink turn terminal stop).
Proof using JTL.
  unfold settle_terminal, close_trajectory.
  destruct (terminal_payload_some (inv_id inv) (mt_result_capture turn) (mt_result_context turn)
              terminal stop) as [payload Hp]. rewrite Hp.
  repeat first [ apply block_fails | fails_step ].
Qed.
Lemma fail_drain_fails prefix error :
  drain_error error →
  fails_with turn_error (fail_drain (H := H) plugin_error_text source_text clock later uuid env_db env_grants
                           sink inv (mt_binding turn) prefix error).
Proof.
  unfold fail_drain, blocked_drain. destruct error; [..|done]; intros _;
    repeat first [ apply block_fails | fails_step ].
Qed.
Lemma await_terminal_fails f schedule :
  fails_with turn_error (await_terminal sha256_hex plugin_error_text source_text clock later uuid
                           env_db env_grants lost sink turn f schedule).
Proof using JTL.
  intros w w' e Hw. unfold await_terminal in Hw.
  apply andthen_run in Hw as [(r & w1 & Hd & Hw)|(e' & Hd & [= <-])];
    apply attempt_run in Hd as (x & Hd & [= ->]).
  destruct x as [[terminal|]|error]; [done| |].
  - unfold cancel_and_drain, blocked_drain in Hw. set (stop := match mt_interruption turn with _ => _ end) in Hw.
    apply andthen_run in Hw as [(c & w2 & _ & Hw)|(e' & Hc & _)];
      [|by apply attempt_run in Hc as (? & _ & [=])].
    destruct c as [[]|error].
    + apply andthen_run in Hw as [(d & w3 & Hd2 & Hw)|(e' & Hc & _)];
        [|by apply attempt_run in Hc as (? & _ & [=])].
      apply attempt_run in Hd2 as (x & Hd2 & [= ->]). destruct x as [[terminal|]|error]; [done| |].
      * revert Hw. apply fails_andthen; [apply block_fails|]. intros. apply fails_done.
      * eapply fail_drain_fails; [|done]. by eapply drain_fails.
    + revert Hw. apply fails_andthen; [apply block_fails|]. intros. apply fails_done.
  - eapply fail_drain_fails; [|done]. by eapply drain_fails.
Qed.

(** ** The grants theorem *)

Lemma free_weaken (P Q : nat → Prop) w : (∀ i, P i → Q i) → free_on Q w → free_on P w.
Proof. intros HPQ Hf i g Hi. apply Hf. auto. Qed.

Lemma dispatch_frees n schedule w w' r :
  free_on (λ i, (n ≤ i)%nat) w → dispatch n schedule w = (w', r) → free_on (λ _, True) w'.
Proof using env_grants_keep MGL JTL.
  intros Hf Hw. unfold dispatch in Hw.
  apply andthen_run in Hw as [(s & w1 & Hs & Hw)|(e & Hs & _)];
    [|by apply attempt_run in Hs as (? & _ & [=])].
  assert (free_on (λ i, (n ≤ i)%nat) w1) as Hf1.
  { apply attempt_run in Hs as (x & Hs & _). a_inv; unfold pass, record_effect, on_harness in *; a_inv.
    destruct (h_start_turn _ _) as [h y]; a_inv. by apply (tick_free _ _ Hf). }
  destruct s as [res|error].
  - apply andthen_run in Hw as [(d & w2 & Hd & Hw)|(e & Hd & _)];
      [|by apply attempt_run in Hd as (? & _ & [=])].
    apply attempt_run in Hd as (x & Hd & [= ->]).
    pose proof (await_terminal_free _ _ _ _ _ _ Hd Hf1) as Hf2.
    assert (∀ reason, x ≠ inr (TurnPanicked reason)) as Hnp.
    { intros reason ->. exact (await_terminal_fails _ _ _ _ _ Hd). }
    assert ((revoke_grants n (inv_id inv) ;!
             let! drained := closing_on_error plugin_error_text source_text clock sink (inv_id inv) x in
             match drained with
             | DrainedBlocked blocked => done_with (Blocked blocked)
             | DrainedTerminal terminal stop =>
                 let! settled := attempt (settle_terminal clock later uuid env_db env_grants sink turn
                                            terminal stop) in
                 closing_on_error plugin_error_text source_text clock sink (inv_id inv) settled
             end) w2 = (w', r)) as Hw'.
    { destruct x as [|[]]; try exact Hw. by destruct (Hnp reason). }
    apply andthen_run in Hw' as [(u & w3 & Hrev & Hw')|(e & Hrev & _)];
      apply revoke_frees in Hrev as [Hf3 Hr3]; try done.
    apply andthen_run in Hw' as [(t & w4 & Hcl & Hw')|(e & Hcl & ->)];
      pose proof (closing_free _ _ _ _ _ Hcl Hf3) as Hf4; [|done].
    destruct t as [terminal stop|blocked]; [|by injection Hw' as <- <-].
    apply andthen_run in Hw' as [(s & w5 & Hse & Hw')|(e & Hse & _)];
      [|by apply attempt_run in Hse as (? & _ & [=])].
    apply attempt_run in Hse as (y & Hse & [= ->]).
    eapply closing_free; [exact Hw'|]. by eapply settle_free.
  - apply andthen_run in Hw as [(u & w3 & Hrev & Hw)|(e & Hrev & _)];
      apply revoke_frees in Hrev as [Hf3 Hr3]; try done.
    by eapply block_after_arm_free.
Qed.

(** C31 A grant never outlives its turn: when no grant is held for the invocation
    before the run and nobody else activates one for it, then after the run - with
    any outcome or error, at any point it failed - no grant is held for it. *)
Theorem grants_revoked schedule w w' r :
  free_on (λ _, True) w → run schedule w = (w', r) → free_on (λ _, True) w'.
Proof using env_grants_keep MGL JTL.
  intros Hf Hw. unfold run in Hw.
  apply andthen_run in Hw as [(b & w1 & Ha & Hw)|(e & Ha & ->)];
    pose proof (arm_turn_free _ _ _ _ Ha Hf) as Hf1; [|done].
  unfold run_armed in Hw. apply andthen_run in Hw as [(u & w2 & Ho & Hw)|(e & Ho & ->)];
    pose proof (open_free _ _ _ _ _ _ Ho Hf1) as Hf2; [|done].
  apply andthen_run in Hw as [(n & w3 & [= <- <-] & Hw)|(e & [=] & _)].
  apply andthen_run in Hw as [(x & w4 & Hact & Hw)|(e & Hact & ->)];
    (apply activate_frees in Hact; [|by eapply free_weaken; [|exact Hf2]]); [|done].
  destruct x as [[a error]|]; [|by eapply dispatch_frees].
  apply andthen_run in Hw as [(u' & w5 & Hrev & Hw)|(e & Hrev & _)];
    apply revoke_frees in Hrev as [Hf3 Hr3]; try done.
  by eapply block_after_arm_free.
Qed.

(** ** An outcome is durable *)

Definition settled (outcome : ManagedTurnOutcome) (db : Db) : Prop :=
  match outcome with
  | Completed completion | Interrupted completion _ =>
      ∃ payload,
        completed_as (inv_agent_id inv) (inv_id inv)
          {| complete_lease_token := inv_lease_token inv;
             complete_fence_token := inv_fence_token inv;
             complete_kind := mt_result_kind turn; complete_payload := payload |} completion db
  | Blocked blocked =>
      blocked_as (inv_agent_id inv) (msg_id (inv_message inv)) (inv_lease_token inv) blocked db
  end.
(** The log closes the trajectory of the invocation. *)
Definition closed (w : World) : Prop :=
  ∃ e o, e ∈ w_log w ∧ entry_effect e = ClosedTrajectory o ∧ to_invocation_id o = inv_id inv.
Definition finished (outcome : ManagedTurnOutcome) (w : World) : Prop :=
  settled outcome (w_db w) ∧ (sink = true → closed w).

Lemma finished_stays outcome w w' :
  reachable sha256_hex (w_db w) → turn_rel w w' → finished outcome w → finished outcome w'.
Proof.
  intros Hr Hrel [Hs Hc]. destruct (Hrel Hr) as (Hrun & added & Hl & _).
  pose proof (reachable_wf _ _ Hr) as Hwf. split.
  - destruct outcome as [c|c i|b]; simpl in *; [| |by eapply blocked_as_stays];
      destruct Hs as [payload Hs]; exists payload; by eapply completed_as_runs.
  - intros Hsink. destruct (Hc Hsink) as (e & o & He & ?). exists e, o. rewrite Hl. split; [|done].
    apply elem_of_app. by left.
Qed.

Lemma close_closes {E} close w w' (r : unit + E) :
  close_trajectory clock sink (inv_id inv) close w = (w', r) →
  w_db w' = w_db w ∧ r = inl tt ∧ (sink = true → closed w').
Proof.
  unfold close_trajectory, offer. intros Hw. destruct sink.
  - unfold read_clock, record_effect in Hw. a_inv. split_and!; [done..|]. intros _.
    eexists _, _. cbn. split; [apply elem_of_app; right; by apply list_elem_of_singleton|done].
  - a_inv. by split_and!.
Qed.

Lemma block_finishes binding reason w w' b :
  reachable sha256_hex (w_db w) → block inv binding reason w = (w', inl b) →
  finished (Blocked b) w' ∧ blocked_reason b = bounded_reason reason.
Proof using env_runs.
  intros Hr Hw. unfold block in Hw.
  apply andthen_run in Hw as [(u & w1 & Hs & Hw)|(e & _ & [=])]. apply store_run in Hs.
  pose proof (env_runs (w_awaits w) _ Hr) as Hrun1.
  destruct (mark_session_invocation_uncertain _ _ _ _ _ _) as [[s db1]|e] eqn:Hm; [|by destruct Hs].
  destruct Hs as [-> _].
  assert (reachable sha256_hex db1) as Hr1.
  { eapply reachable_run; [by eapply reachable_run|]. apply rtc_once. exists false.
    by eapply t_uncertain. }
  apply andthen_run in Hw as [(bl & w2 & Hs & Hw)|(e & _ & [=])]. apply store_run in Hs. cbn in Hs.
  pose proof (env_runs (S (w_awaits w)) _ Hr1) as Hrun2.
  destruct (block_delivery _ _ _ _ _) as [[[bl' created] db2]|e] eqn:Hb; [|by destruct Hs].
  destruct Hs as [-> [= ->]].
  apply (block_delivery_leaves sha256_hex) in Hb as [Hb Hreason];
    [|eapply reachable_wf; by eapply reachable_run].
  apply andthen_run in Hw as [(u' & w3 & Hc & Hw)|(e & _ & [=])]. injection Hw as <- <-.
  apply close_closes in Hc as (Hdb & _ & Hc). split; [|done]. split; [|done]. simpl. by rewrite Hdb.
Qed.

Lemma completed_as_frame a x input c db db' :
  attempts db' = attempts db → db'.(messages) = db.(messages) →
  completed_as a x input c db → completed_as a x input c db'.
Proof. unfold attempts, completed_as. intros [= -> ->] ->. done. Qed.

Lemma complete_session_leaves b p input now u at_ms db c db' :
  reachable sha256_hex db →
  complete_session_invocation (inv_agent_id inv) (inv_id inv) b p input now u at_ms db
    = Ok (c, db') →
  completed_as (inv_agent_id inv) (inv_id inv) input c.1 db'.
Proof.
  intros Hr Hc. unfold complete_session_invocation in Hc. m_inv.
  match goal with H : validate_bound_turn _ _ _ _ _ = Ok _ |- _ =>
    apply (keeps_validate_bound_turn (λ d, d)) in H; simpl in H; subst end.
  match goal with H : settle_quiescent_turn _ _ _ _ _ ?d1 = Ok (_, ?d2) |- _ =>
    pose proof (keeps_settle_quiescent _ _ _ _ _ _ _ _ H) as Hat;
    assert (d2.(messages) = d1.(messages)) as Hms
      by (apply (preserves_run (λ d, d.(messages) = d1.(messages)) _ _ _ _ H); [preserves_tac|done]) end.
  eapply completed_as_frame; [done|done|].
  match goal with H : complete_invocation_transaction _ _ _ _ _ _ _ _ = Ok (?r, _) |- _ =>
    destruct r as [c' []] end.
  - by eapply complete_first_state.
  - eapply complete_replay_state; [|done]. by eapply reachable_wf.
Qed.

Lemma settle_finishes terminal stop w w' outcome :
  reachable sha256_hex (w_db w) →
  settle_terminal clock later uuid env_db env_grants sink turn terminal stop w = (w', inl outcome) →
  finished outcome w'.
Proof using env_runs.
  intros Hr Hw. unfold settle_terminal in Hw.
  destruct (_ || _).
  - apply andthen_run in Hw as [(b & w1 & Hb & Hw)|(e & _ & [=])]. injection Hw as <- <-.
    by eapply block_finishes.
  - destruct (terminal_payload _ _ _ _ _) as [payload|]; [|done].
    apply andthen_run in Hw as [(c & w1 & Hs & Hw)|(e & _ & [=])]. apply store_run in Hs. cbn in Hs.
    pose proof (env_runs (w_awaits w) _ Hr) as Hrun.
    destruct (complete_session_invocation _ _ _ _ _ _ _ _ _) as [[c' db1]|e] eqn:Hc; [|by destruct Hs].
    destruct Hs as [-> [= ->]].
    apply complete_session_leaves in Hc; [|by eapply reachable_run].
    apply andthen_run in Hw as [(u & w2 & Hcl & Hw)|(e & _ & [=])].
    apply close_closes in Hcl as (Hdb & _ & Hcl). injection Hw as <- <-.
    split; [|done]. destruct (stop ≫= interruption) as [i|]; simpl; rewrite Hdb; eauto.
Qed.

Lemma await_finishes f schedule w w' b :
  reachable sha256_hex (w_db w) →
  await_terminal sha256_hex plugin_error_text source_text clock later uuid env_db env_grants lost
    sink turn f schedule w = (w', inl (DrainedBlocked b)) →
  finished (Blocked b) w'.
Proof using env_runs.
  intros Hr Hw. unfold await_terminal in Hw.
  assert (∀ reason w1, reachable sha256_hex (w_db w1) →
            blocked_drain clock later uuid env_db env_grants sink inv (mt_binding turn) reason w1
              = (w', inl (DrainedBlocked b)) → finished (Blocked b) w') as Hbd.
  { intros reason w1 Hr1 Hb. unfold blocked_drain in Hb.
    apply andthen_run in Hb as [(b' & w2 & Hb & Hd)|(e & _ & [=])]. injection Hd as <- <-.
    by eapply block_finishes. }
  assert (∀ prefix e w1, reachable sha256_hex (w_db w1) →
            fail_drain plugin_error_text source_text clock later uuid env_db env_grants sink inv
              (mt_binding turn) prefix e w1 = (w', inl (DrainedBlocked b)) →
            finished (Blocked b) w') as Hfd.
  { intros prefix e w1 Hr1 Hb. unfold fail_drain in Hb. destruct e; try done; by eapply Hbd. }
  apply andthen_run in Hw as [(d & w1 & Hd & Hw)|(e & _ & [=])].
  apply attempt_run in Hd as (x & Hd & [= ->]).
  assert (reachable sha256_hex (w_db w1)) as Hr1.
  { eapply reachable_run; [exact Hr|]. by apply (drain_rel _ _ _ _ _ _ _ Hd). }
  destruct x as [[terminal|]|error]; [done| |by eapply Hfd].
  unfold cancel_and_drain in Hw. set (stop := match mt_interruption turn with _ => _ end) in Hw.
  apply andthen_run in Hw as [(c & w2 & Hc & Hw)|(e & _ & [=])].
  apply attempt_run in Hc as (y & Hc & [= ->]).
  assert (reachable sha256_hex (w_db w2)) as Hr2.
  { eapply reachable_run; [exact Hr1|]. refine (proj1 (call_rel _ _ _ _ _ _ _ Hc Hr1)). done. }
  destruct y as [[]|error]; [|by eapply Hbd].
  apply andthen_run in Hw as [(d & w3 & Hd2 & Hw)|(e & _ & [=])].
  apply attempt_run in Hd2 as (z & Hd2 & [= ->]).
  assert (reachable sha256_hex (w_db w3)) as Hr3.
  { eapply reachable_run; [exact Hr2|]. by apply (drain_rel _ _ _ _ _ _ _ Hd2). }
  destruct z as [[terminal|]|error]; [done|by eapply Hbd|by eapply Hfd].
Qed.

Lemma closing_ok {A} (x : A + ManagedTurnError) (w w' : World) a :
  closing_on_error plugin_error_text source_text clock sink (inv_id inv) x w = (w', inl a) →
  x = inl a ∧ w' = w.
Proof.
  unfold closing_on_error. destruct x as [a'|e]; [by intros [= <- <-]|].
  destruct e; intros Hw; try done;
    by apply andthen_run in Hw as [(u & w1 & _ & Hw)|(e & _ & [=])].
Qed.

Lemma dispatch_finishes n schedule w w' outcome :
  reachable sha256_hex (w_db w) → dispatch n schedule w = (w', inl outcome) → finished outcome w'.
Proof using env_runs.
  intros Hr Hw. unfold dispatch in Hw.
  apply andthen_run in Hw as [(s & w1 & Hs & Hw)|(e & _ & [=])].
  apply attempt_run in Hs as (x & Hs & [= ->]).
  assert (reachable sha256_hex (w_db w1)) as Hr1.
  { eapply reachable_run; [exact Hr|]. by refine (proj1 (call_rel _ _ _ _ _ _ _ Hs Hr)). }
  assert (∀ k w2 w3 (r : unit + ManagedTurnError), revoke_grants k (inv_id inv) w2 = (w3, r) →
            reachable sha256_hex (w_db w2) → reachable sha256_hex (w_db w3)) as Hrev.
  { intros k w2 w3 r Hk Hr2. eapply reachable_run; [exact Hr2|]. by apply (revoke_rel _ _ _ _ _ Hk). }
  destruct x as [res|error].
  - apply andthen_run in Hw as [(d & w2 & Hd & Hw)|(e & _ & [=])].
    apply attempt_run in Hd as (x & Hd & [= ->]).
    assert (reachable sha256_hex (w_db w2)) as Hr2.
    { eapply reachable_run; [exact Hr1|]. by apply (await_rel _ _ _ _ _ Hd). }
    destruct x as [drained|[]]; cbv beta iota in Hw;
      try (by apply andthen_run in Hw as [(u & w3 & Hk & Hw)|(e & _ & [=])];
           apply andthen_run in Hw as [(y & w4 & [[=] _]%closing_ok & Hw)|(e & _ & [=])]); [|done].
    apply andthen_run in Hw as [(u & w3 & Hk & Hw)|(e & _ & [=])].
    apply andthen_run in Hw as [(y & w4 & [[= ->] ->]%closing_ok & Hw)|(e & _ & [=])].
    destruct y as [terminal stop|b].
    + apply andthen_run in Hw as [(s & w5 & Hse & Hw)|(e & _ & [=])].
      apply attempt_run in Hse as (z & Hse & [= ->]). apply closing_ok in Hw as [-> ->].
      eapply settle_finishes; [|done]. by eapply Hrev.
    + injection Hw as <- <-. apply await_finishes in Hd; [|done].
      eapply finished_stays; [exact Hr2| |exact Hd]. by eapply revoke_rel.
  - apply andthen_run in Hw as [(u & w3 & Hk & Hw)|(e & _ & [=])]. unfold block_after_arm in Hw.
    apply andthen_run in Hw as [(b & w4 & Hb & Hw)|(e & _ & [=])]. injection Hw as <- <-.
    eapply block_finishes; [|exact Hb]. by eapply Hrev.
Qed.

(** C9 An outcome is durable before it is returned: when the run reports a
    completion or an interruption, the store holds the attempt as completed under
    the tokens of the invocation with the result message the outcome carries; when
    it reports a block, the store holds that block of its message under the invocation's
    lease;
    and either way an attached trajectory sink has been offered the close. *)
Theorem outcome_durable schedule w w' outcome :
  reachable sha256_hex (w_db w) → run schedule w = (w', inl outcome) →
  settled outcome (w_db w') ∧ (sink = true → closed w').
Proof using env_runs.
  intros Hr Hw. unfold run in Hw. apply andthen_run in Hw as [(b & w1 & Ha & Hw)|(e & _ & [=])].
  destruct (arm_turn_run _ _ _ Hr Ha) as (_ & Hrun & _).
  pose proof (reachable_run _ _ _ Hr Hrun) as Hr1. unfold run_armed in Hw.
  apply andthen_run in Hw as [(u & w2 & Ho & Hw)|(e & _ & [=])].
  destruct (open_rel _ _ _ _ _ Ho Hr1) as [Hrun2 _]. pose proof (reachable_run _ _ _ Hr1 Hrun2) as Hr2.
  apply andthen_run in Hw as [(n & w3 & [= <- <-] & Hw)|(e & [=] & _)].
  apply andthen_run in Hw as [(x & w4 & Hact & Hw)|(e & _ & [=])].
  destruct (activate_rel _ _ _ _ _ _ Hact Hr2) as [Hrun3 _].
  pose proof (reachable_run _ _ _ Hr2 Hrun3) as Hr3.
  destruct x as [[k error]|]; [|by eapply dispatch_finishes].
  apply andthen_run in Hw as [(u' & w5 & Hk & Hw)|(e & _ & [=])].
  destruct (revoke_rel _ _ _ _ _ Hk Hr3) as [Hrun4 _]. unfold block_after_arm in Hw.
  apply andthen_run in Hw as [(bl & w6 & Hb & Hw)|(e & _ & [=])]. injection Hw as <- <-.
  eapply block_finishes; [by eapply reachable_run|exact Hb].
Qed.
End turn.

(** ** The theorems at concrete turns *)

Definition reserved_turn : ManagedTurn :=
  {| mt_invocation :=
       {| inv_id := "U0"; inv_agent_id := "B"; inv_message := returned_message "C" ask "M1" 4 1;
          inv_delivery_attempt := 1; inv_lease_token := "T1"; inv_lease_expires_at_ms := 1010;
          inv_fence_token := "U1"; inv_state := InvocationState.Reserved;
          inv_reserved_at_ms := 10; inv_dispatch_armed_at_ms := None; inv_terminal_at_ms := None;
          inv_execution_certainty := None; inv_terminal_reason := None;
          inv_result_message_id := None |};
     mt_generation_id := "G1"; mt_binding := owner1; mt_session_ref := "native";
     mt_prompt := [PromptText "hello"]; mt_policy := turn_policy; mt_result_kind := "answer";
     mt_result_capture := Transcript; mt_result_context := "{}";
     mt_permission_policy := AllowOnce; mt_interruption := None |}.
Definition plain_plugin_text (e : PluginError) : string :=
  match e with Protocol reason => reason | _ => "plugin" end.
Definition steady (n : nat) : Z := 20 + Z.of_nat n.
Definition still_db (_ : nat) (db : Db) : Db := db.
Definition still_grants (_ : nat) (gs : list MessageBroker) : list MessageBroker := gs.
Definition no_loss (_ : nat) : bool := false.
#[local] Instance plain_client : Harness (HarnessAcpClient script) := harness_client plain_sha256.
Definition ready_world (s : script) : World :=
  {| w_db := db_worker; w_harness := client_of s; w_grants := [None : MessageBroker];
     w_awaits := 0; w_log := [] |}.
Definition long_enough : Schedule :=
  {| initial_awaits := 20; interrupted := false; cancel_awaits := 20 |}.
Definition run_turn (clock : nat → Z) (s : script) : World * (ManagedTurnOutcome + ManagedTurnError) :=
  run plain_sha256 plain_plugin_text (λ _, "store") clock clock uuid_supply still_db still_grants
    no_loss true reserved_turn long_enough (ready_world s).

(** Two events and a terminal; a transcript entry in the middle of a turn; the
    first event sent again after the second. *)
Definition clean_script : script :=
  [notify "harness.acp.turn.event" "."; notify "harness.acp.permission.requested" "..";
   notify "harness.acp.turn.terminal" ".."].
Definition stray_script : script :=
  [notify "harness.acp.turn.event" "."; notify "harness.acp.session.transcript.complete" "."].
Definition turn_done : World * (ManagedTurnOutcome + ManagedTurnError) :=
  Eval vm_compute in run_turn steady clean_script.
Definition turn_stray : World * (ManagedTurnOutcome + ManagedTurnError) :=
  Eval vm_compute in run_turn steady stray_script.
(** The lease expires between the arm and the activation of the grant. *)
Definition stalled (n : nat) : Z := if (n <=? 2)%nat then 20 else 2000.
Definition turn_stalled : World * (ManagedTurnOutcome + ManagedTurnError) :=
  Eval vm_compute in run_turn stalled clean_script.

Lemma still_runs n db : reachable plain_sha256 db → reaches plain_sha256 db (still_db n db).
Proof. reflexivity. Qed.
Lemma still_keeps n gs i (g' : MessageBroker) :
  still_grants n gs !! i = Some g' → grant_holder g' = Some (inv_id (mt_invocation reserved_turn)) →
  ∃ g, gs !! i = Some g ∧ grant_holder g = Some (inv_id (mt_invocation reserved_turn)).
Proof. by exists g'. Qed.

Definition no_entry : Entry (G := MessageBroker) :=
  {| entry_effect := CancelledTurn ""; entry_db := empty_db; entry_grants := [] |}.
Definition start_entry : Entry := Eval vm_compute in nth 1 (w_log turn_done.1) no_entry.
Lemma start_entry_logged : start_entry ∈ w_log turn_done.1.
Proof. apply (list_elem_of_lookup_2 _ 1). reflexivity. Qed.

Lemma dispatch_follows_arm_witness : armed_for "B" turn_fence (entry_db start_entry).
Proof.
  apply (dispatch_follows_arm plain_sha256 plain_plugin_text (λ _, "store") steady steady uuid_supply
           still_db still_grants no_loss true reserved_turn still_runs long_enough
           (ready_world clean_script) turn_done.1 turn_done.2 start_entry
           (start_turn_request reserved_turn)).
  - exact reachable_worker.
  - reflexivity.
  - vm_compute. reflexivity.
  - exact start_entry_logged.
  - reflexivity.
Defined.

Lemma grants_revoked_witness :
  free_on reserved_turn (λ _, True) (ready_world stray_script)
  ∧ free_on reserved_turn (λ _, True) turn_stray.1.
Proof.
  assert (free_on reserved_turn (λ _, True) (ready_world stray_script)) as Hf.
  { intros [|[|i]] g _; [by intros [= <-]|done|done]. }
  split; [exact Hf|].
  apply (grants_revoked plain_sha256 plain_plugin_text (λ _, "store") steady steady uuid_supply
           still_db still_grants no_loss true reserved_turn still_keeps long_enough
           (ready_world stray_script) turn_stray.1 turn_stray.2 Hf).
  vm_compute. reflexivity.
Defined.

Definition parked_delivery : BlockedDelivery :=
  {| blocked_block_id := 1; blocked_agent_id := "B";
     blocked_message := returned_message "C" ask "M1" 4 1; blocked_attempt := 1;
     blocked_reason := "turn evidence failed: harness protocol failed: plugin";
     blocked_at_ms := 29 |}.
Lemma outcome_durable_witness :
  settled reserved_turn (Blocked parked_delivery) (w_db turn_stray.1)
  ∧ closed reserved_turn turn_stray.1.
Proof.
  destruct (outcome_durable plain_sha256 plain_plugin_text (λ _, "store") steady steady uuid_supply
              still_db still_grants no_loss true reserved_turn still_runs long_enough
              (ready_world stray_script) turn_stray.1 (Blocked parked_delivery)) as [Hs Hc].
  - exact reachable_worker.
  - vm_compute. reflexivity.
  - split; [exact Hs|exact (Hc eq_refl)].
Defined.

(** ** Runs that differ from what the documents say *)

(** A turn that is parked while it drains is settled before its grant is
    revoked: when the block is on record and the trajectory is closed, the grant is
    still held for the invocation, and a publish under it still creates a message. *)
Theorem park_precedes_revocation :
  ∃ entry grant db' b' output,
    entry ∈ w_log turn_stray.1
    ∧ turn_stray.2 = inl (Blocked parked_delivery)
    ∧ map d_state (entry_db entry).(agent_deliveries) = [DeliveryState.Blocked]
    ∧ entry_grants entry = [Some grant] ∧ ag_invocation_id grant = "U0"
    ∧ publish plain_sha256
        {| pm_operation_id := "op"; pm_recipient_id := "A"; pm_kind := "note";
           pm_payload := "text" : @Value plain_json |} 40 "M7" 41 (Some grant) (entry_db entry)
      = (b', db', Published output)
    ∧ po_created output = true ∧ w_grants turn_stray.1 = [None].
Proof.
  exists (nth 3 (w_log turn_stray.1) no_entry). do 4 eexists.
  split; [apply (list_elem_of_lookup_2 _ 3); reflexivity|].
  split; [vm_compute; reflexivity|]. split; [vm_compute; reflexivity|].
  split; [vm_compute; reflexivity|]. split; [vm_compute; reflexivity|].
  split; [vm_compute; reflexivity|]. split; vm_compute; reflexivity.
Qed.

(** A turn that fails before its prompt is sent leaves its trajectory open:
    when the lease expires between the arm and the activation of its grant, the
    run returns an error after it opened the trajectory and without closing it. *)
Theorem stalled_turn_left_open :
  (∃ error, turn_stalled.2 = inr (TurnFleet error))
  ∧ (∃ opened, map entry_effect (w_log turn_stalled.1) = [OpenedTrajectory opened])
  ∧ ~ closed reserved_turn turn_stalled.1.
Proof.
  split; [eexists; vm_compute; reflexivity|]. split; [eexists; vm_compute; reflexivity|].
  intros (e & o & He & Heff & _).
  assert (entry_effect e ∈ map entry_effect (w_log turn_stalled.1)) as Hin
    by (apply list_elem_of_In, in_map, list_elem_of_In; exact He).
  rewrite Heff in Hin. by apply list_elem_of_singleton in Hin.
Qed.

(** An event sent twice parks the turn: the client admits the identical event a
    second time, and the controller hands it to the durable fold, which refuses any
    event but the last or the next, so the run blocks the delivery. *)
Theorem redelivered_event_parks :
  (∃ c, next_notification plain_sha256 (after_calls 2) = (c, inl (NTurnEvent (scripted_event 1))))
  ∧ ∃ blocked, (run_turn steady two_events).2 = inl (Blocked blocked)
      ∧ blocked_reason blocked
        = "turn evidence failed: durable invocation evidence failed: conflict: event sequence is not contiguous: expected 3, received 1".
Proof.
  split; [eexists; vm_compute; reflexivity|].
  eexists. split; vm_compute; reflexivity.
Qed.
