(* ===== verification/WorkerProps.v ===== *)
(** * Properties of the continuous worker

    Over every harness, adapter, schedule and run of the rest of the system that
    holds no operator's decision: the worker never sends the harness two prompts
    for one message, it stops when it is cancelled, and it settles no more turns
    than it was allowed. *)

From stdpp Require Import gmap.
From S2P Require Import Prelude Action Proto Schema Channels Messages Deliveries.
From S2P Require Import SessionFence Observations Invocations Settlement Sessions.
From S2P Require Import Lifecycle Safety System Fence Attempts AtMostOnce ObservationProps.
From S2P Require Import Grants HarnessClient Controller ControllerInv ControllerProps.
From S2P Require Import Supervisor WorkerTurns Worker WorkerInv.

(** ** What arming on a session leaves *)

Section arm.
Context `{J : SerdeJson} (sha256_hex : string → string).

Lemma arm_session_spent a x b ref g input now db r db' :
  wf db → arm_session_invocation a x b ref g input now db = Ok (r, db') →
  ∃ i, i ∈ db'.(invocations) ∧ armed i ∧ i_id i = x
       ∧ spent (i_agent_id i) (i_message_seq i) x db'.
Proof.
  intros Hwf H. apply arm_session_attempts in H as (r1 & db1 & Harm & [= Hi Hd]).
  destruct (arm_leaves _ _ _ _ _ _ _ Hwf Harm) as (i & Hin & Hid & Ha & _ & Hat & Hst).
  exists i. rewrite Hi. split_and!; try done. exists i. rewrite Hi. split_and!; try done. by left.
Qed.
End arm.

Section props.
Context `{J : SerdeJson} {JT : JsonTree}.
Context {P H : Type} {HH : Harness H} {G : Type} {MG : ManagedTurnGrant G}.
Context {T : Type} {TA : TurnAdapter T} {WH : WorkerHarness (P := P) (H := H)}.
Context (sha256_hex : string → string).
Context (plugin_error_text : PluginError → string) (source_text : FleetError → string).
Context (clock later : nat → Z) (uuid : nat → string).
Context (lease_token : nat → Db → string) (uuids : nat → nat → string).
Context (env_db : nat → Db → Db) (env_grants : nat → list G → list G).
Context (lost : nat → bool) (cancelled sleep_first : nat → bool).
Context (start_process : nat → P + PluginError) (schedules : nat → Schedule).
Context (polls : nat → list Poll) (config : ContinuousWorkerConfig) (adapter : T).
Notation World := (World (H := H) (G := G)).
Notation WState := (WState (H := H) (G := G)).
Notation tick := (tick env_db env_grants).
Notation sink := (cw_trajectory_sink config).
Notation run_turn := (run sha256_hex plugin_error_text source_text clock later uuid env_db
                        env_grants lost sink).
Notation run_until := (run_until sha256_hex plugin_error_text source_text clock later uuid
  lease_token uuids env_db env_grants lost cancelled sleep_first start_process schedules polls
  config adapter).

Section runs.
(** The lease token of a reservation is one nothing in the store carries. *)
Context (fresh_tokens : ∀ n db, fresh_token (lease_token n db) db).
(** The rest of the system runs between the awaits, without an operator's
    decision. *)
Context (env_runs : ∀ n db, worker_run sha256_hex db (env_db n db)).

(** ** Every change of the store is an operation's *)

Definition worker_rel (w w' : World) : Prop := worker_run sha256_hex (w_db w) (w_db w').
#[export] Instance worker_rel_preorder : PreOrder worker_rel.
Proof. split; [intros w; unfold worker_rel, worker_run; reflexivity|]. intros w1 w2 w3. apply rtc_trans. Qed.

Ltac worker_moves :=
  try done; try exact _;
  first [ (intros w; apply env_runs) | (intros w db' Ht; by apply rtc_once)
        | (intros; unfold worker_rel, worker_run; reflexivity) ].
Lemma turn_worker_rel turn schedule : within worker_rel (run_turn turn schedule).
Proof using env_runs.
  unfold run. apply within_andthen; [exact _| |intros _].
  - eapply within_arm_turn with (allowed := λ _, True); worker_moves.
  - eapply within_run_armed with (allowed := λ _, True); worker_moves.
Qed.

Lemma worker_within_operations fuel inner limit s s' r :
  run_until fuel inner limit s = (s', r) →
  worker_run sha256_hex (w_db (ws_world s)) (w_db (ws_world s')).
Proof using env_runs fresh_tokens.
  intros Hrun.
  refine (within_run_until sha256_hex plugin_error_text source_text clock later uuid lease_token
            uuids env_db env_grants lost cancelled sleep_first start_process schedules polls config
            adapter worker_rel _ _ _ _ _ fuel inner limit s s' r Hrun).
  all: first [apply turn_worker_rel | (intros; eapply rtc_once, t_reserve; [apply fresh_tokens|eassumption]) | worker_moves].
Qed.

(** ** At most one prompt per message *)

Definition started_id (e : Entry (G := G)) : option string :=
  match entry_effect e with
  | StartedTurn request => Some (fence_invocation_id (st_fence request))
  | _ => None
  end.
Definition starts (w : World) : list string := omap started_id (w_log w).

(** The moves that start nothing. *)
Definition quiet (w w' : World) : Prop :=
  worker_run sha256_hex (w_db w) (w_db w') ∧ starts w' = starts w.
#[local] Instance quiet_preorder : PreOrder quiet.
Proof.
  split; [intros w; split; [unfold worker_run; reflexivity|done]|].
  intros w1 w2 w3 [H1 E1] [H2 E2]. split; [by eapply rtc_trans|congruence].
Qed.
Lemma quiet_silent w w' :
  worker_run sha256_hex (w_db w) (w_db w') → w_log w' = w_log w → quiet w w'.
Proof. intros Hrun Hl. split; [done|]. unfold starts. by rewrite Hl. Qed.
Lemma quiet_entry w e : quiet_effect e → quiet w (add_entry e w).
Proof.
  intros He. split; [unfold worker_run; reflexivity|]. unfold starts. simpl.
  rewrite omap_app. simpl. unfold started_id at 2. destruct e; [done|..]; by rewrite app_nil_r.
Qed.
Lemma quiet_tick w : quiet w (tick w).
Proof using env_runs. apply quiet_silent; [apply env_runs|done]. Qed.
Lemma quiet_db w db' : transition sha256_hex false (w_db w) db' → quiet w (set_db db' w).
Proof. intros Ht. apply quiet_silent; [by apply rtc_once|done]. Qed.
Lemma quiet_harness w h : quiet w (set_harness h w).
Proof. apply quiet_silent; [unfold worker_run; reflexivity|done]. Qed.
Lemma quiet_grants w gs : quiet w (set_grants gs w).
Proof. apply quiet_silent; [unfold worker_run; reflexivity|done]. Qed.

(** A part of the turn that starts at most invocation [x]. *)
Definition starts_at_most (x : string) (w w' : World) : Prop :=
  worker_run sha256_hex (w_db w) (w_db w')
  ∧ (starts w' = starts w ∨ starts w' = starts w ++ [x]).
Lemma quiet_then {E A B} x (m : action World E A) (k : A → action World E B) :
  within quiet m → (∀ a, within (starts_at_most x) (k a)) →
  within (starts_at_most x) (andthen m k).
Proof.
  intros Hm Hk w w' r Hw. apply andthen_run in Hw as [(a & w1 & Hw1 & Hw)|(e & Hw1 & ->)].
  - destruct (Hm _ _ _ Hw1) as [R1 E1], (Hk _ _ _ _ Hw) as [R2 E2].
    split; [by eapply rtc_trans|]. by rewrite <-E1.
  - destruct (Hm _ _ _ Hw1) as [R1 E1]. split; [done|by left].
Qed.
Lemma then_quiet {E A B} x (m : action World E A) (k : A → action World E B) :
  within (starts_at_most x) m → (∀ a, within quiet (k a)) →
  within (starts_at_most x) (andthen m k).
Proof.
  intros Hm Hk w w' r Hw. apply andthen_run in Hw as [(a & w1 & Hw1 & Hw)|(e & Hw1 & ->)].
  - destruct (Hm _ _ _ Hw1) as [R1 E1], (Hk _ _ _ _ Hw) as [R2 E2].
    split; [by eapply rtc_trans|]. by rewrite E2.
  - exact (Hm _ _ _ Hw1).
Qed.
Lemma quiet_starts {E A} x (m : action World E A) : within quiet m → within (starts_at_most x) m.
Proof. intros Hm w w' r Hw. destruct (Hm _ _ _ Hw). split; [done|by left]. Qed.

Ltac quiet_moves :=
  try done; try exact _;
  first [ apply quiet_tick | apply quiet_db | apply quiet_harness | apply quiet_grants
        | apply quiet_entry | done ].
Ltac quiet_part :=
  first
    [ eapply within_closing with (allowed := quiet_effect); quiet_moves
    | eapply within_block_after_arm with (allowed := quiet_effect); quiet_moves
    | eapply within_await_terminal with (allowed := quiet_effect); quiet_moves
    | eapply within_settle with (allowed := quiet_effect); quiet_moves
    | eapply within_open with (allowed := quiet_effect); quiet_moves
    | eapply within_revoke; quiet_moves
    | eapply within_activate; quiet_moves ].

Lemma quiet_pass {E} : within quiet (Controller.pass env_db env_grants (E := E) (H := H) (G := G)).
Proof using env_runs. apply within_pass, quiet_tick. Qed.
Lemma quiet_call {E A} (wrap : PluginError → E) (call : action H PluginError A) :
  within quiet (on_harness wrap call).
Proof. apply within_harness, quiet_harness. Qed.

Section one_turn.
Context (turn : ManagedTurn) (schedule : Schedule).
Notation x := (inv_id (mt_invocation turn)).

Lemma call_starts {E} (wrap : PluginError → E) (call : action H PluginError StartTurnResult) :
  within (starts_at_most x)
    (Controller.pass env_db env_grants ;! record_effect (StartedTurn (start_turn_request turn)) ;!
     on_harness wrap call).
Proof using env_runs.
  apply quiet_then; [apply quiet_pass|]. intros _.
  apply then_quiet; [|intros _; apply quiet_call].
  intros w w' r [= <- <-]. split; [unfold worker_run; reflexivity|right].
  unfold starts. simpl. by rewrite omap_app.
Qed.

Lemma attempt_starts {E E' A} (m : action World E A) :
  within (starts_at_most x) m → within (starts_at_most x) (attempt m : action World E' (A + E)).
Proof. intros Hm. by apply within_attempt. Qed.

Lemma armed_starts :
  within (starts_at_most x)
    (run_armed sha256_hex plugin_error_text source_text clock later uuid env_db env_grants lost
       sink turn schedule).
Proof using env_runs.
  unfold run_armed.
  apply quiet_then; [quiet_part|intros _]. apply quiet_then; [apply within_look; exact _|intros grants].
  apply quiet_then; [quiet_part|]. intros [[activated error]|].
  { apply quiet_starts, within_andthen; [exact _|quiet_part|intros _; quiet_part]. }
  unfold dispatch. apply then_quiet; [apply attempt_starts, call_starts|]. intros [started|error].
  - apply within_andthen; [exact _|apply within_attempt; quiet_part|]. intros [drained|error].
    + apply within_andthen; [exact _|quiet_part|intros _].
      apply within_andthen; [exact _|quiet_part|]. intros [terminal stop|blocked].
      * apply within_andthen; [exact _|apply within_attempt; quiet_part|intros ?; quiet_part].
      * apply within_done; exact _.
    + destruct error; try (apply within_throw; exact _).
      all: apply within_andthen; [exact _|quiet_part|intros _].
      all: apply within_andthen; [exact _|quiet_part|]; intros [terminal stop|blocked].
      all: try (apply within_done; exact _).
      all: apply within_andthen; [exact _|apply within_attempt; quiet_part|intros ?; quiet_part].
  - apply within_andthen; [exact _|quiet_part|intros _; quiet_part].
Qed.

(** Up to the arm nothing starts; an arm that succeeds makes this attempt the last
    one at its message, and it was not armed before. *)
Lemma arm_quiet :
  within quiet (arm_turn clock later uuid env_db env_grants turn).
Proof using env_runs. eapply within_arm_turn with (allowed := quiet_effect); quiet_moves. Qed.
Lemma arm_spends w w' b :
  reachable sha256_hex (w_db w) →
  arm_turn clock later uuid env_db env_grants turn w = (w', inl b) →
  ∃ db i, worker_run sha256_hex (w_db w) db ∧ ¬ observed x db
    ∧ transition sha256_hex false db (w_db w') ∧ observed x (w_db w')
    ∧ i ∈ (w_db w').(invocations) ∧ armed i ∧ i_id i = x
    ∧ spent (i_agent_id i) (i_message_seq i) x (w_db w').
Proof using env_runs.
  intros Hr Hw. unfold arm_turn in Hw. destruct (validate_turn turn) as [[]|e]; [|done].
  apply andthen_run in Hw as [([] & w0 & [= <-] & Hw)|(? & ? & [=])].
  apply andthen_run in Hw as [(d & w1 & Hd & Hs)|(? & ? & [=])].
  assert (quiet w w1) as [Hrun _].
  { refine (within_andthen quiet (Controller.pass env_db env_grants) _ quiet_pass _ _ _ _ Hd).
    intros _. apply quiet_call. }
  apply (store_run clock later uuid env_db env_grants) in Hs.
  destruct (arm_session_invocation _ _ _ _ _ _ _ _) as [[b' db]|e] eqn:Harm;
    destruct Hs as [-> Hs]; [|done].
  exists (env_db (w_awaits w1) (w_db w1)).
  assert (worker_run sha256_hex (w_db w) (env_db (w_awaits w1) (w_db w1))) as Hrun'.
  { etrans; [exact Hrun|apply env_runs]. }
  assert (reachable sha256_hex (env_db (w_awaits w1) (w_db w1))) as Hr'.
  { eapply reachable_run; [exact Hr|]. eapply rtc_subrel; [|exact Hrun']. intros ???. by exists false. }
  destruct (arm_session_spent _ _ _ _ _ _ _ _ _ _ (reachable_wf _ _ Hr') Harm) as (i & ? & ? & ? & ?).
  destruct (arm_session_observation _ _ _ _ _ _ _ _ _ _ Harm). exists i. split_and!; try done.
  by eapply t_arm_session.
Qed.
End one_turn.

(** Each started attempt is the last one at a message of its own. *)
Definition dispatched (db : Db) (x : string) (key : string * Z) : Prop :=
  spent key.1 key.2 x db ∧ observed x db.
Definition once (keys : list (string * Z)) (w : World) : Prop :=
  reachable sha256_hex (w_db w) ∧ NoDup keys ∧ Forall2 (dispatched (w_db w)) (starts w) keys.
Definition keeps_once (w w' : World) : Prop := (∃ keys, once keys w) → ∃ keys, once keys w'.

Lemma worker_run_reaches db db' : worker_run sha256_hex db db' → reaches sha256_hex db db'.
Proof. apply rtc_subrel. intros ? ? ?. by exists false. Qed.
Lemma dispatched_run db db' x key :
  reachable sha256_hex db → worker_run sha256_hex db db' → dispatched db x key →
  dispatched db' x key.
Proof.
  intros Hr Hrun [Hs Ho]. split; [by eapply spent_run|].
  eapply observed_kept; [by eapply reachable_wf|by apply worker_run_reaches|done].
Qed.
Lemma once_run keys w db :
  once keys w → worker_run sha256_hex (w_db w) db →
  reachable sha256_hex db ∧ Forall2 (dispatched db) (starts w) keys.
Proof.
  intros (Hr & _ & Hall) Hrun. split; [eapply reachable_run; [done|by apply worker_run_reaches]|].
  eapply Forall2_impl; [done|]. intros x key. by apply dispatched_run.
Qed.
Lemma quiet_keeps w w' : quiet w w' → keeps_once w w'.
Proof.
  intros [Hrun Hst] [keys Hk]. exists keys. destruct (once_run _ _ _ Hk Hrun).
  destruct Hk as (_ & ? & _). unfold once. by rewrite Hst.
Qed.

(** An attempt that is armed now is none of those started before. *)
Lemma armed_is_new keys w db x i :
  once keys w → worker_run sha256_hex (w_db w) db → ¬ observed x db →
  ∀ db', transition sha256_hex false db db' → i ∈ db'.(invocations) → armed i → i_id i = x →
  (i_agent_id i, i_message_seq i) ∉ keys.
Proof.
  intros Hk Hrun Hnot db' Ht Hi Harm Hid Hin.
  destruct (once_run _ _ _ Hk Hrun) as [Hr Hall].
  apply list_elem_of_lookup in Hin as [n Hn].
  destruct (Forall2_lookup_r _ _ _ _ _ Hall Hn) as (y & _ & Hs & Ho). simpl in Hs.
  assert (reachable sha256_hex db') as Hr'.
  { eapply reachable_run; [exact Hr|]. apply rtc_once. by exists false. }
  assert (spent (i_agent_id i) (i_message_seq i) y db') as Hs'.
  { eapply spent_run; [exact Hr|by apply rtc_once|done]. }
  apply Hnot. rewrite <-Hid. by erewrite (spent_live _ _ _ _ _ i Hr' Hs' Hi (armed_live _ Harm) eq_refl eq_refl).
Qed.

Lemma turn_keeps_once turn schedule : within keeps_once (run_turn turn schedule).
Proof using env_runs.
  intros w w' r Hw [keys Hk]. unfold run in Hw. apply andthen_run in Hw.
  destruct Hw as [(b & w1 & Harm & Hrest)|(e & Harm & ->)];
    [|by eapply (quiet_keeps w); [exact (arm_quiet turn _ _ _ Harm)|exists keys]].
  destruct (arm_quiet turn _ _ _ Harm) as [Hrun1 Hst1].
  destruct (armed_starts turn schedule _ _ _ Hrest) as [Hrun2 Hst2].
  destruct (arm_spends turn _ _ _ (proj1 Hk) Harm)
    as (db & i & Hrun & Hnot & Ht & Hobs & Hi & Hia & Hid & Hs).
  pose proof (armed_is_new _ _ _ _ _ Hk Hrun Hnot _ Ht Hi Hia Hid) as Hnew.
  assert (worker_run sha256_hex (w_db w) (w_db w')) as Hrunw by (etrans; [exact Hrun1|exact Hrun2]).
  destruct (once_run _ _ _ Hk Hrunw) as [Hr' Hall]. destruct Hk as (Hr & Hnd & _).
  rewrite Hst1 in Hst2. destruct Hst2 as [Hst|Hst]; [exists keys; unfold once; by rewrite Hst|].
  exists (keys ++ [(i_agent_id i, i_message_seq i)]). unfold once. rewrite Hst. split_and!; [done| |].
  - apply NoDup_app. split; [done|]. split; [clear -Hnew; set_solver|]. apply NoDup_singleton.
  - apply Forall2_app; [done|]. constructor; [|constructor].
    eapply dispatched_run; [|exact Hrun2|by split].
    eapply reachable_run; [exact Hr|by apply worker_run_reaches].
Qed.

Lemma quiet_reserve w n a input kinds now ids invs db' :
  reserve_invocations_filtered a input kinds now (lease_token n (w_db w)) ids (w_db w)
    = Ok (invs, db') → quiet w (set_db db' w).
Proof using fresh_tokens. intros Ho. eapply quiet_db, t_reserve; [apply fresh_tokens|exact Ho]. Qed.
#[local] Instance keeps_once_preorder : PreOrder keeps_once.
Proof. split; [intros w Hk; exact Hk|]. intros w1 w2 w3 H1 H2 Hk. exact (H2 (H1 Hk)). Qed.
Lemma worker_keeps_once fuel inner limit s s' r :
  run_until fuel inner limit s = (s', r) → keeps_once (ws_world s) (ws_world s').
Proof using env_runs fresh_tokens.
  intros Hrun.
  refine (within_run_until sha256_hex plugin_error_text source_text clock later uuid lease_token
            uuids env_db env_grants lost cancelled sleep_first start_process schedules polls config
            adapter keeps_once _ _ _ _ _ fuel inner limit s s' r Hrun).
  - intros w. apply quiet_keeps, quiet_tick.
  - intros w db' Ht. by apply quiet_keeps, quiet_db.
  - intros. by eapply quiet_keeps, quiet_reserve.
  - intros w h. apply quiet_keeps, quiet_harness.
  - apply turn_keeps_once.
Qed.

(** An entry of the log that prompts for an attempt at this message. *)
Definition prompts (db : Db) (e : Entry (G := G)) (agent_id : string) (seq : Z) : Prop :=
  ∃ request i, entry_effect e = StartedTurn request ∧ i ∈ db.(invocations)
    ∧ i_id i = fence_invocation_id (st_fence request) ∧ i_agent_id i = agent_id
    ∧ i_message_seq i = seq.
Lemma prompts_key keys w x e a s k :
  once keys w → prompts (w_db w) e a s → started_id e = Some x → dispatched (w_db w) x k → k = (a, s).
Proof.
  intros (Hr & _) (request & i & He & Hi & Hid & <- & <-) Hx [(i0 & Hi0 & Hid0 & Ha & Hs & _) _].
  unfold started_id in Hx. rewrite He in Hx. injection Hx as <-.
  assert (i0 = i) as -> by (eapply invocation_id_unique; [by eapply reachable_wf|done..|congruence]).
  destruct k. simpl in *. congruence.
Qed.
Lemma once_prompts keys w l1 l2 l3 e1 e2 a s :
  once keys w → w_log w = l1 ++ e1 :: l2 ++ e2 :: l3 →
  prompts (w_db w) e1 a s → prompts (w_db w) e2 a s → False.
Proof.
  intros Hk Hl H1 H2. pose proof Hk as (_ & Hnd & Hall). unfold starts in Hall.
  assert (∃ x1 x2, started_id e1 = Some x1 ∧ started_id e2 = Some x2) as (x1 & x2 & Hx1 & Hx2).
  { destruct H1 as (q1 & _ & E1 & _), H2 as (q2 & _ & E2 & _).
    unfold started_id. rewrite E1, E2. eauto. }
  rewrite Hl, omap_app in Hall. cbn [omap list_omap] in Hall. rewrite Hx1 in Hall.
  rewrite omap_app in Hall. cbn [omap list_omap] in Hall. rewrite Hx2 in Hall.
  apply Forall2_app_inv_l in Hall as (k1 & k2 & _ & Hall & ->).
  apply Forall2_cons_inv_l in Hall as (key1 & k3 & Hd1 & Hall & ->).
  apply Forall2_app_inv_l in Hall as (k4 & k5 & _ & Hall & ->).
  apply Forall2_cons_inv_l in Hall as (key2 & k6 & Hd2 & _ & ->).
  rewrite (prompts_key _ _ _ _ _ _ _ Hk H1 Hx1 Hd1), (prompts_key _ _ _ _ _ _ _ Hk H2 Hx2 Hd2) in Hnd.
  apply NoDup_app in Hnd as (_ & _ & Hnd). apply NoDup_cons in Hnd as [Hnd _]. set_solver.
Qed.
Lemma split_two {A} (l : list A) p q a b :
  (p < q)%nat → l !! p = Some a → l !! q = Some b → ∃ l1 l2 l3, l = l1 ++ a :: l2 ++ b :: l3.
Proof.
  intros Hlt Ha Hb. apply list_elem_of_split_length in Ha as (l1 & l2 & -> & Hl1).
  rewrite lookup_app_r in Hb by lia. destruct (q - length l1)%nat as [|k] eqn:Hk; [lia|].
  simpl in Hb. apply list_elem_of_split_length in Hb as (l3 & l4 & -> & _). eauto.
Qed.

(** C1 While no operator decides on a parked delivery, a worker never sends the harness
    two prompts for one message: in the log of a run of any length - over any number
    of plugin generations, harness failures, lease expiries, cancellations and
    concurrent workers - two entries that start a turn at the same message of the
    agent are the same entry.  The surroundings are every operation of the daemon but
    an operator's resolution of a blocked delivery ([worker_run]): resolving it for a
    retry is what has a message dispatched again. *)
Theorem message_dispatched_once fuel inner limit s s' r p q e1 e2 agent_id seq :
  reachable sha256_hex (w_db (ws_world s)) → w_log (ws_world s) = [] →
  run_until fuel inner limit s = (s', r) →
  w_log (ws_world s') !! p = Some e1 → w_log (ws_world s') !! q = Some e2 →
  prompts (w_db (ws_world s')) e1 agent_id seq → prompts (w_db (ws_world s')) e2 agent_id seq →
  p = q.
Proof using env_runs fresh_tokens.
  intros Hr Hl Hrun He1 He2 H1 H2.
  destruct (worker_keeps_once _ _ _ _ _ _ Hrun) as [keys Hk].
  { exists []. unfold once, starts. rewrite Hl. split_and!; [done|apply NoDup_nil_2|constructor]. }
  destruct (lt_eq_lt_dec p q) as [[Hlt| ->]|Hlt]; [exfalso|done|exfalso].
  - destruct (split_two _ _ _ _ _ Hlt He1 He2) as (l1 & l2 & l3 & Hs). by eapply once_prompts.
  - destruct (split_two _ _ _ _ _ Hlt He2 He1) as (l1 & l2 & l3 & Hs). by eapply once_prompts.
Qed.
End runs.

(** ** A cancelled worker stops *)

Section termination.
Notation awaits s := (w_awaits (ws_world s)).
Definition later_than (w w' : World) : Prop := (w_awaits w ≤ w_awaits w')%nat.
#[local] Instance later_preorder : PreOrder later_than.
Proof. split; unfold later_than; [intros w; lia|]. intros w1 w2 w3; lia. Qed.

Ltac later_moves := try done; try exact _; unfold later_than; simpl; intros; lia.
Lemma turn_later turn schedule : within later_than (run_turn turn schedule).
Proof.
  unfold run. apply within_andthen; [exact _| |intros _].
  - eapply within_arm_turn with (allowed := λ _, True) (sha256_hex := sha256_hex); later_moves.
  - eapply within_run_armed with (allowed := λ _, True) (sha256_hex := sha256_hex); later_moves.
Qed.
(** Each part of the worker only lets time pass. *)
Ltac worker_later := first [ apply turn_later | later_moves ].

Notation drive_step := (drive_step sha256_hex plugin_error_text source_text clock later uuid
  lease_token uuids env_db env_grants lost cancelled sleep_first schedules polls config adapter).
Notation drive_invocation := (drive_invocation sha256_hex plugin_error_text source_text clock later
  uuid env_db env_grants lost cancelled schedules polls config adapter).
Notation drive_generation := (drive_generation sha256_hex plugin_error_text source_text clock later
  uuid lease_token uuids env_db env_grants lost cancelled sleep_first schedules polls config adapter).
Notation run_generation := (run_generation sha256_hex plugin_error_text source_text clock later
  uuid lease_token uuids env_db env_grants lost cancelled sleep_first start_process schedules polls
  config adapter).
Notation reserve_one := (reserve_one source_text clock later uuid lease_token uuids env_db env_grants
  config adapter).

Lemma reserve_awaits (s s' : WState) l : reserve_one s = (s', inl l) → (awaits s < awaits s')%nat.
Proof.
  unfold reserve_one, expect_ms. destruct (duration_ms _); [|done]. intros Hs.
  apply andthen_run in Hs as [(u & s1 & Hp & Hs)|(e & _ & [=])].
  unfold Worker.pass, in_world in Hp. cbn in Hp. injection Hp as <- <-.
  unfold in_world, on_store in Hs. cbn in Hs.
  destruct (reserve_invocations_by_kind _ _ _ _ _ _ _) as [[invs db]|e]; injection Hs as <- Hl;
    [cbn; lia|done].
Qed.
Lemma drive_step_awaits g limit (s s' : WState) u : drive_step g limit s = (s', inl u) →
  cancelled (awaits s) = false ∧ (awaits s < awaits s')%nat.
Proof.
  intros Hs. unfold Worker.drive_step, is_cancelled in Hs.
  apply andthen_run in Hs as [(stop & s1 & [= <- <-] & Hs)|(e & [=] & _)].
  apply andthen_run in Hs as [(report & s1 & [= <- <-] & Hs)|(e & [=] & _)].
  destruct (cancelled (awaits s)); [done|]. split; [done|]. simpl in Hs.
  destruct (limit_reached _ _); [done|].
  apply andthen_run in Hs as [(l & s1 & Hr & Hs)|(e & _ & [=])].
  apply reserve_awaits in Hr. eapply Nat.lt_le_trans; [exact Hr|].
  destruct l as [|invocation l].
  - unfold wait_or_cancel, count_report, Worker.pass in Hs. cbn in Hs.
    destruct (_ && _) in Hs; [done|]. injection Hs as <- _. cbn. lia.
  - apply andthen_run in Hs as [(u' & s2 & [= <- <-] & Hs)|(e & [=] & _)].
    refine (within_invocation sha256_hex plugin_error_text source_text clock later uuid
              env_db env_grants lost cancelled schedules polls config adapter
              later_than _ _ _ _ g invocation _ _ _ Hs).
    all: worker_later.
Qed.

(** The exits that do not come from the fuel of the loop. *)
Definition not_spent (e : GenerationExit) : Prop := e ≠ GenerationOutOfFuel.
Lemma fails_in_world {E A} (Q : E → Prop) (m : turn_action (H := H) (G := G) E A) :
  fails_with Q m → fails_with Q (in_world m).
Proof.
  intros Hm s s' e Hs. unfold in_world in Hs. destruct (m (ws_world s)) as [w x] eqn:Hw.
  injection Hs as <- ->. by eapply Hm.
Qed.
Lemma fails_map_err {S E E' A} (Q : E' → Prop) (f : E → E') (m : action S E A) :
  (∀ e, Q (f e)) → fails_with Q (map_err f m).
Proof. intros Hf s s' e Hs. by apply map_err_run in Hs as [(? & _ & [=])|(? & _ & [= ->])]. Qed.
Lemma fails_wpass {E} (Q : E → Prop) : fails_with Q (Worker.pass env_db env_grants (H := H)).
Proof. by apply fails_in_world, fails_act. Qed.
Lemma fails_wstore {E A} (Q : E → Prop) (wrap : FleetError → E) (op : Z → Z → string → M A) :
  (∀ e, Q (wrap e)) → fails_with Q (Worker.store (H := H) clock later uuid env_db env_grants wrap op).
Proof.
  intros Hw. apply fails_in_world, fails_andthen; [by apply fails_act|]. intros _ w w' e Hs.
  unfold on_store in Hs. destruct (op _ _ _ _) as [[a db]|e']; [done|]. injection Hs as _ <-. apply Hw.
Qed.
Lemma fails_attempt_then {S E E' A B} (Q : E → Prop) (Q' : E' → Prop) (m : action S E A)
    (k : A + E → action S E' B) :
  fails_with Q m → (∀ a, fails_with Q' (k (inl a))) → (∀ e, Q e → fails_with Q' (k (inr e))) →
  fails_with Q' (andthen (attempt m) k).
Proof.
  intros Hm Ha He s s' e Hs. apply andthen_run in Hs as [(x & s1 & Hx & Hs)|(e' & Hx & _)].
  - apply attempt_run in Hx as (y & Hy & [= ->]). destruct y as [a|e'].
    + by eapply Ha.
    + eapply He; [|exact Hs]. by eapply Hm.
  - apply attempt_run in Hx as (y & _ & [=]).
Qed.
Ltac fails_step :=
  first
    [ apply fails_done | apply fails_look | apply fails_act | apply fails_attempt
    | (apply fails_throw; done) | (apply fails_map_err; done) | apply fails_wpass
    | (apply fails_wstore; done) | (apply fails_in_world, fails_act)
    | apply fails_andthen; [|intros]
    | match goal with |- fails_with _ (match ?x with _ => _ end) => destruct x end
    | match goal with |- fails_with _ (let (_, _) := ?x in _) => destruct x end ].
Ltac fails_tac := repeat fails_step.

Lemma release_not_spent invocation reason :
  fails_with not_spent (release_or_exit (H := H) clock later uuid env_db env_grants config invocation
                          reason).
Proof. unfold release_or_exit, expect_ms. fails_tac. Qed.
Lemma invocation_not_spent g invocation : fails_with not_spent (drive_invocation g invocation).
Proof.
  unfold Worker.drive_invocation, prepare_reserved, is_cancelled, stop_unarmed, resolve_lane,
    execute_turn, managed_error, rotate_interrupted_lane.
  repeat first [ apply release_not_spent | fails_step ].
Qed.
Lemma drive_step_not_spent g limit : fails_with not_spent (drive_step g limit).
Proof.
  unfold Worker.drive_step, is_cancelled, Worker.reserve_one, expect_ms, wait_or_cancel.
  repeat first [ apply invocation_not_spent | fails_step ].
  intros s s' e Hs. revert Hs. apply fails_in_world. intros w w' e' Hw. unfold on_store in Hw.
  destruct (reserve_invocations_by_kind _ _ _ _ _ _ _) as [[]|]; [done|]. by injection Hw as _ <-.
Qed.

Context (n : nat) (cancelled_from : ∀ k, (n ≤ k)%nat → cancelled k = true).

Lemma drive_ends fuel g limit (s : WState) :
  (n - awaits s < fuel)%nat → ∃ s' e, drive_generation fuel g limit s = (s', inr e) ∧ not_spent e.
Proof using cancelled_from.
  revert s. induction fuel as [|fuel IH]; intros s Hlt; [lia|]. simpl. unfold andthen.
  destruct (drive_step g limit s) as [s1 [u|e]] eqn:Hs.
  - apply drive_step_awaits in Hs as [Hc Ha]. apply IH.
    destruct (le_lt_dec n (awaits s)) as [Hle|Hgt]; [|lia].
    by rewrite cancelled_from in Hc.
  - exists s1, e. split; [done|]. by eapply drive_step_not_spent.
Qed.
Lemma generation_not_spent inner limit : (n < inner)%nat → fails_with not_spent (run_generation inner limit).
Proof using cancelled_from.
  intros Hlt.
  assert (∀ g, fails_with not_spent (drive_generation inner g limit)) as Hdrive.
  { intros g s s' e Hs. destruct (drive_ends inner g limit s) as (s1 & e1 & Hs1 & He); [lia|].
    congruence. }
  unfold Worker.run_generation, shutdown_generation, stop_generation.
  repeat first
    [ (eapply fails_attempt_then; [apply Hdrive|intros ?|intros [] ?])
    | (apply fails_throw; assumption) | fails_step ].
Qed.

Lemma run_step_awaits inner limit (s s' : WState) u :
  run_step sha256_hex plugin_error_text source_text clock later uuid lease_token uuids env_db
    env_grants lost cancelled sleep_first start_process schedules polls config adapter inner limit s
    = (s', inl u) →
  cancelled (awaits s) = false ∧ (awaits s < awaits s')%nat.
Proof.
  intros Hs. unfold run_step, is_cancelled in Hs.
  apply andthen_run in Hs as [(stop & s1 & [= <- <-] & Hs)|(e & [=] & _)].
  apply andthen_run in Hs as [(report & s1 & [= <- <-] & Hs)|(e & [=] & _)].
  destruct (cancelled (awaits s)); [done|]. split; [done|]. simpl in Hs.
  destruct (limit_reached _ _); [done|].
  apply andthen_run in Hs as [(exit & s1 & Hx & Hs)|(e & Hx & _)];
    apply attempt_run in Hx as (x & Hx & Heq); [injection Heq as <-|done].
  assert (awaits s ≤ awaits s1)%nat as Hle.
  { refine (within_generation sha256_hex plugin_error_text source_text clock later uuid lease_token
              uuids env_db env_grants lost cancelled sleep_first start_process schedules polls config
              adapter later_than _ _ _ _ _ inner limit _ _ _ Hx).
    all: worker_later. }
  apply andthen_run in Hs as [(report & s2 & [= <- <-] & Hs)|(e & [=] & _)].
  destruct exit as [[]|[]]; try done.
  apply andthen_run in Hs as [(stop & s2 & [= <- <-] & Hs)|(e & [=] & _)].
  destruct (_ || _) in Hs; [done|].
  unfold wait_or_cancel, count_report, Worker.pass in Hs. cbn in Hs.
  destruct (_ && _) in Hs; [done|]. injection Hs as <- _. cbn. lia.
Qed.
Lemma run_step_not_spent inner limit :
  (n < inner)%nat →
  fails_with (λ e, e ≠ RunOutOfFuel)
    (run_step sha256_hex plugin_error_text source_text clock later uuid lease_token uuids env_db
       env_grants lost cancelled sleep_first start_process schedules polls config adapter inner limit).
Proof using cancelled_from.
  intros Hlt. unfold run_step, is_cancelled, wait_or_cancel.
  repeat first
    [ (eapply fails_attempt_then; [by apply generation_not_spent|intros []|intros e He])
    | (apply fails_throw; done) | fails_step ].
  all: try done.
Qed.

(** C3 A cancelled worker stops.  Whatever the harness, the adapter and the rest of
    the system do, if the token is cancelled from some await on, the run ends: with
    more fuel than that await in both loops it does not spend it. *)
Theorem cancelled_worker_stops fuel inner limit s :
  (n < fuel)%nat → (n < inner)%nat →
  ∃ s' e, run_until fuel inner limit s = (s', inr e) ∧ e ≠ RunOutOfFuel.
Proof using cancelled_from.
  intros Hfuel Hinner. unfold Worker.run_until. destruct (limit ==? Some 0); [by eexists _, _|].
  unfold andthen at 1. simpl. set (s0 := set_report _ _).
  assert (n - awaits s0 < fuel)%nat as Hlt by lia. clearbody s0. clear Hfuel.
  revert s0 Hlt. induction fuel as [|fuel IH]; intros s0 Hlt; [lia|]. simpl. unfold andthen.
  destruct (run_step _ _ _ _ _ _ _ _ _ _ _ _ _ _ _ _ _ _ _ _ s0) as [s1 [u|e]] eqn:Hs.
  - apply run_step_awaits in Hs as [Hc Ha]. apply IH.
    destruct (le_lt_dec n (awaits s0)) as [Hle|Hgt]; [|lia]. by rewrite cancelled_from in Hc.
  - exists s1, e. split; [done|]. by eapply run_step_not_spent.
Qed.
End termination.

(** ** The number of settled turns *)

Section limit.
Notation count s := (settled_turns (ws_report s)).

(** Every part of the worker but the report of a turn leaves the count alone. *)
Section parts.
Context (R : WState → WState → Prop) {HR : PreOrder R}.
Context (R_same : ∀ s s', count s' = count s → R s s').

Lemma part_in_world {E A} (m : turn_action (H := H) (G := G) E A) : within R (in_world m).
Proof using R_same.
  intros s s' r Hs. unfold in_world in Hs. destruct (m _). injection Hs as <- <-. by apply R_same.
Qed.
Lemma part_report {E} f :
  (∀ r, settled_turns (f r) = settled_turns r) →
  within R (count_report f : worker_action E unit).
Proof using R_same. intros Hf s s' r [= <- <-]. apply R_same, Hf. Qed.
Lemma part_sessions {E} f :
  within R (act (λ s : WState, set_sessions (f s) s) : worker_action E unit).
Proof using R_same. intros s s' r [= <- <-]. by apply R_same. Qed.
Lemma part_reserve :
  within R (reserve_one source_text clock later uuid lease_token uuids env_db env_grants config
              adapter).
Proof using HR R_same.
  unfold reserve_one, expect_ms. destruct (duration_ms _); [|apply within_throw; exact _].
  apply within_andthen; [exact _|apply part_in_world|]. intros _ s s' r Hs.
  eapply part_in_world. exact Hs.
Qed.
End parts.
Ltac part_step R_same :=
  first
    [ apply within_done; exact _ | apply within_throw; exact _ | apply within_try; exact _
    | apply within_look; exact _ | (apply part_report; [exact R_same|done])
    | (apply part_sessions; exact R_same) | (apply part_reserve; [exact _|exact R_same])
    | (apply part_in_world; exact R_same) | apply within_attempt | apply within_map_err
    | apply within_andthen; [exact _| |intros]
    | match goal with |- within _ (match ?x with _ => _ end) => destruct x end
    | match goal with |- within _ (let (_, _) := ?x in _) => destruct x end ].

Definition same_count (s s' : WState) : Prop := count s' = count s.
#[local] Instance same_count_preorder : PreOrder same_count.
Proof. split; unfold same_count; [intros s; reflexivity|]. intros s1 s2 s3. congruence. Qed.
Lemma same_same s s' : count s' = count s → same_count s s'.
Proof. done. Qed.

(** A part that settles at most one turn. *)
Definition one_more_turn (s s' : WState) : Prop := count s' ≤ count s + 1.
Lemma same_then {E A B} (m : worker_action E A) (k : A → worker_action E B) :
  within same_count m → (∀ a, within one_more_turn (k a)) → within one_more_turn (andthen m k).
Proof.
  intros Hm Hk s s' r Hs. unfold one_more_turn, same_count in *.
  apply andthen_run in Hs as [(a & s1 & H1 & H2)|(e & H1 & ->)]; apply Hm in H1; [|lia].
  apply Hk in H2. lia.
Qed.
Lemma then_same {E A B} (m : worker_action E A) (k : A → worker_action E B) :
  within one_more_turn m → (∀ a, within same_count (k a)) → within one_more_turn (andthen m k).
Proof.
  intros Hm Hk s s' r Hs. unfold one_more_turn, same_count in *.
  apply andthen_run in Hs as [(a & s1 & H1 & H2)|(e & H1 & ->)]; apply Hm in H1; [|lia].
  apply Hk in H2. lia.
Qed.
Lemma same_one {E A} (m : worker_action E A) : within same_count m → within one_more_turn m.
Proof. intros Hm s s' r Hs. apply Hm in Hs. unfold one_more_turn, same_count in *. lia. Qed.
Lemma settled_one_more report :
  settled_turns (count_completed report) ≤ settled_turns report + 1
  ∧ settled_turns (count_interrupted report) ≤ settled_turns report + 1
  ∧ settled_turns (count_blocked report) ≤ settled_turns report + 1.
Proof.
  unfold settled_turns, count_completed, count_interrupted, count_blocked, one_more,
    saturating_add_u64. simpl. lia.
Qed.
Lemma count_one {E} f :
  (∀ r, settled_turns (f r) ≤ settled_turns r + 1) →
  within one_more_turn (count_report f : worker_action E unit).
Proof. intros Hf s s' r [= <- <-]. apply Hf. Qed.

Lemma execute_one invocation prepared lane session g :
  within one_more_turn
    (execute_turn sha256_hex plugin_error_text source_text clock later uuid env_db env_grants lost
       schedules polls config adapter invocation prepared lane session g).
Proof.
  unfold execute_turn, managed_error, rotate_interrupted_lane, release_or_exit, expect_ms.
  apply same_then; [repeat part_step same_same|]. intros [after|error];
    [|apply same_one; repeat part_step same_same].
  apply same_then; [repeat part_step same_same|]. intros at_await.
  apply same_then; [repeat part_step same_same|]. intros [[completion|completion stop|blocked]|error];
    [| | |apply same_one; repeat part_step same_same].
  all: apply then_same; [apply count_one; apply settled_one_more|intros _; repeat part_step same_same].
Qed.
Lemma invocation_one g invocation :
  within one_more_turn
    (drive_invocation sha256_hex plugin_error_text source_text clock later uuid env_db env_grants
       lost cancelled schedules polls config adapter g invocation).
Proof.
  unfold drive_invocation, prepare_reserved, channel_turn_context, is_cancelled, stop_unarmed,
    resolve_lane, open_lane, release_or_exit, expect_ms.
  apply same_then; [repeat part_step same_same|]. intros prepared.
  apply same_then; [repeat part_step same_same|]. intros stop.
  destruct stop; [apply same_one; repeat part_step same_same|].
  apply same_then; [repeat part_step same_same|]. intros [session|];
    [|apply same_one; repeat part_step same_same].
  apply same_then; [repeat part_step same_same|]. intros stop.
  destruct stop; [apply same_one; repeat part_step same_same|].
  apply then_same; [apply execute_one|]. intros []; repeat part_step same_same.
Qed.

Context (limit : Z).
Definition within_limit (s s' : WState) : Prop := count s ≤ limit → count s' ≤ limit.
#[local] Instance within_limit_preorder : PreOrder within_limit.
Proof. split; unfold within_limit; [intros s Hs; exact Hs|]. intros s1 s2 s3. auto. Qed.
Lemma limit_same s s' : count s' = count s → within_limit s s'.
Proof. unfold within_limit. lia. Qed.

Lemma step_within_limit g :
  within within_limit
    (drive_step sha256_hex plugin_error_text source_text clock later uuid lease_token uuids env_db
       env_grants lost cancelled sleep_first schedules polls config adapter g (Some limit)).
Proof.
  intros s s' r Hs Hle. unfold drive_step, is_cancelled in Hs.
  apply andthen_run in Hs as [(stop & s1 & [= <- <-] & Hs)|(e & [=] & _)].
  apply andthen_run in Hs as [(report & s1 & [= <- <-] & Hs)|(e & [=] & _)].
  destruct (cancelled _); [injection Hs as <- _; lia|]. simpl in Hs.
  destruct (limit <=? count s) eqn:Hl; [injection Hs as <- _; lia|]. apply Z.leb_gt in Hl.
  enough (one_more_turn s s') as Hone by (unfold one_more_turn in Hone; lia).
  revert Hs. match goal with |- ?m s = _ → _ => enough (within one_more_turn m) as Hm by apply Hm end.
  apply same_then; [apply part_reserve; [exact _|exact same_same]|]. intros [|invocation l].
  - apply same_one. unfold wait_or_cancel. repeat part_step same_same.
  - apply same_then; [repeat part_step same_same|]. intros _. apply invocation_one.
Qed.
Lemma drive_within_limit fuel g :
  within within_limit
    (drive_generation sha256_hex plugin_error_text source_text clock later uuid lease_token uuids
       env_db env_grants lost cancelled sleep_first schedules polls config adapter fuel g (Some limit)).
Proof.
  induction fuel as [|fuel IH]; simpl; [apply within_throw; exact _|].
  apply within_andthen; [exact _|apply step_within_limit|]. by intros _.
Qed.
Lemma generation_within_limit fuel :
  within within_limit
    (run_generation sha256_hex plugin_error_text source_text clock later uuid lease_token uuids
       env_db env_grants lost cancelled sleep_first start_process schedules polls config adapter fuel
       (Some limit)).
Proof.
  unfold run_generation, shutdown_generation, stop_generation.
  repeat first [ apply drive_within_limit | part_step limit_same ].
Qed.

(** A bounded run settles no more turns than it was allowed: when it ends, and at
    every earlier point of it, the turns it completed, interrupted or blocked are at
    most [max_settled_turns]. *)
Theorem settled_within_limit fuel inner s s' r :
  0 < limit → run_until fuel inner (Some limit) s = (s', r) → count s' ≤ limit.
Proof.
  intros Hpos Hrun. unfold Worker.run_until in Hrun.
  rewrite bool_decide_false in Hrun by (intros [= ->]; lia).
  apply andthen_run in Hrun as [(u & s0 & [= <- <-] & Hrun)|(e & [=] & _)].
  assert (count (set_report zero_report s) ≤ limit) as H0 by (change (0 ≤ limit); lia).
  revert Hrun H0. generalize (set_report zero_report s).
  match goal with |- ∀ s0, ?m s0 = _ → _ => enough (within within_limit m) as Hm end.
  { intros s0 Hs0. exact (Hm _ _ _ Hs0). }
  induction fuel as [|fuel IH]; simpl; [apply within_throw; exact _|].
  apply within_andthen; [exact _| |by intros _]. unfold run_step, is_cancelled, wait_or_cancel.
  repeat first [ apply generation_within_limit | part_step limit_same ].
Qed.
End limit.
End props.
