(* ===== verification/WorkerSettle.v ===== *)
(** * What a step of the worker leaves behind

    A reservation the worker made is ended by the time the step that made it goes
    on or stops: it was given back unarmed, or its turn was settled.  The exits that
    may leave it live are named. *)

From stdpp Require Import gmap.
From S2P Require Import Prelude Action Proto Schema Channels Messages Deliveries.
From S2P Require Import SessionFence Observations Invocations Settlement Sessions.
From S2P Require Import Lifecycle Safety System Fence Attempts AtMostOnce Recovery DeliveryProps.
From S2P Require Import Grants HarnessClient Controller ControllerInv ControllerProps.
From S2P Require Import Supervisor WorkerTurns Worker WorkerInv WorkerProps.

Section attempt.
Context `{J : SerdeJson} (sha256_hex : string → string).

(** The row of an invocation a reservation returned. *)
Definition attempt_of (invocation : Invocation) (db : Db) : Prop :=
  ∃ i m, i ∈ db.(invocations) ∧ m ∈ db.(messages) ∧ i_id i = inv_id invocation
    ∧ i_agent_id i = inv_agent_id invocation ∧ i_lease_token i = inv_lease_token invocation
    ∧ m_id m = msg_id (inv_message invocation) ∧ m_seq m = i_message_seq i.
Definition ended (invocation : Invocation) (db : Db) : Prop :=
  ∃ i, i ∈ db.(invocations) ∧ i_id i = inv_id invocation ∧ i_state i = InvocationState.Terminal.

Lemma attempt_of_run invocation db db' :
  reachable sha256_hex db → reaches sha256_hex db db' → attempt_of invocation db →
  attempt_of invocation db'.
Proof.
  intros Hr Hrun (i & m & Hi & Hm & Hid & Ha & Ht & Hmid & Hs).
  pose proof (reachable_wf _ _ Hr) as Hwf. destruct (reaches_safe _ _ _ Hwf Hrun) as [_ He].
  destruct (table_rel_elem _ _ _ _ (ev_invocations _ _ _ He) Hi) as (i' & Hi' & Hmv).
  apply invocation_moves in Hmv as (? & ? & _ & ? & ? & _).
  destruct (reaches_messages _ _ _ Hwf Hrun) as [added Heq].
  exists i', m. rewrite Heq. split_and!; try congruence. apply elem_of_app. by left.
Qed.
Lemma ended_run invocation db db' :
  reachable sha256_hex db → reaches sha256_hex db db' → ended invocation db → ended invocation db'.
Proof.
  intros Hr Hrun (i & Hi & Hid & Hst).
  destruct (reaches_safe _ _ _ (reachable_wf _ _ Hr) Hrun) as [_ He].
  exists i. split_and!; try done.
  eapply stuck_elem; [apply (ev_invocations _ _ _ He)| |done].
  intros i2 Hs. inversion Hs; congruence.
Qed.

Lemma keeps_reserve_rows {X} (f : Db → X) rows a t e now uuids k :
  (∀ l db, f (set_invocations l db) = f db) → keeps f (reserve_rows rows a t e now uuids k).
Proof.
  intros Hf. revert k. induction rows as [|[d m] rows IH]; intros k; simpl; unfold reserve_row;
    keeps_tac; [by apply keeps_insert|apply IH].
Qed.
(** What a reservation returns has its row. *)
Lemma reserve_rows_attempts rows a t e now uuids k db invs db' invocation :
  (∀ r, r ∈ rows → r.2 ∈ db.(messages)) →
  reserve_rows rows a t e now uuids k db = Ok (invs, db') → invocation ∈ invs →
  attempt_of invocation db' .
Proof.
  revert k db invs. induction rows as [|[d m] rows IH]; intros k db invs Hrows Hrun Hi;
    simpl in Hrun; unfold reserve_row in Hrun; m_inv; [by apply not_elem_of_nil in Hi|].
  match goal with H : insert _ _ = Ok _ |- _ => apply insert_ok in H as (_ & _ & _ & _ & ->) end.
  match goal with H : message_from_row _ = Ok _ |- _ => apply message_from_row_ok in H as (? & ? & _) end.
  match goal with H : reserve_rows _ _ _ _ _ _ _ _ = Ok _ |- _ => rename H into Hrest end.
  apply elem_of_cons in Hi as [->|Hi].
  - match type of Hrest with _ = Ok (_, ?d) =>
      assert (d.(messages) = db.(messages)) as Hm by (by eapply (keeps_reserve_rows messages) in Hrest) end.
    eexists _, m. split_and!; simpl.
    + eapply reserve_rows_keep; [exact Hrest|]. simpl. apply elem_of_app. right.
      by apply list_elem_of_singleton.
    + rewrite Hm. apply (Hrows (d, m)). by left.
    + done.
    + done.
    + done.
    + done.
    + done.
  - eapply IH; [|exact Hrest|exact Hi]. intros r Hr. simpl. apply Hrows. by right.
Qed.
Lemma reservation_attempts a input kinds now token uuids db invs db' invocation :
  reserve_invocations_filtered a input kinds now token uuids db = Ok (invs, db') →
  invocation ∈ invs → attempt_of invocation db'.
Proof.
  intros H Hi. unfold reserve_invocations_filtered, ensure_agent, ensure_exists in H. m_inv.
  match goal with H : reserve_rows _ _ _ _ _ _ _ _ = Ok _ |- _ =>
    eapply reserve_rows_attempts in H; [exact H| |exact Hi] end.
  intros r Hr. by apply leased_rows_ok in Hr as (_ & ? & _).
Qed.

(** A retry that succeeds ends the attempt under its lease. *)
Lemma retry_ends a m input now db u db' i msg :
  reachable sha256_hex db → retry_delivery a m input now db = Ok (u, db') →
  i ∈ db.(invocations) → msg ∈ db.(messages) → i_agent_id i = a →
  i_lease_token i = retry_lease_token input → m_id msg = m → m_seq msg = i_message_seq i →
  ∃ i', i' ∈ db'.(invocations) ∧ i_id i' = i_id i ∧ i_state i' = InvocationState.Terminal.
Proof.
  intros Hr H Hi Hmsg Ha Ht Hmid Hseq. pose proof (reachable_wf _ _ Hr) as Hwf.
  unfold retry_delivery in H. m_inv.
  match goal with H : or_rollback _ _ _ ?d = Ok _, Hs : ensure_retry_is_safe _ _ _ _ = _ |- _ =>
    assert (d = db) as -> by (unfold ensure_retry_is_safe in Hs; by m_inv) end.
  apply or_rollback_ok in H as [(db1 & Hmark & Hterm)|(db1 & _ & Hmiss)].
  - apply update_leased_row_ok in Hmark as [-> _]. apply terminalize_invocation_ok in Hterm as ->.
    simpl. eexists. split; [apply elem_of_update_row; by exists i|].
    destruct (live_attempt _ _ _ _ i) eqn:Hl; [done|]. split; [done|].
    unfold live_attempt in Hl. rewrite <-Hseq, seq_of_message in Hl by done.
    rewrite Ht, !bool_decide_true in Hl by done. simpl in Hl. by bool_facts.
  - pose proof (settle_miss_reads _ _ _ _ _ _ _ Hmiss) as ->. exists i. split_and!; try done.
    apply (settle_miss_ok sha256_hex) in Hmiss as (d1 & msg1 & Hd1 & Hm1 & Ha1 & Hid1 & Hs1 & Hset & _).
    destruct (bool_decide (i_state i = InvocationState.Terminal)) eqn:Hst; bool_facts; [done|].
    exfalso. assert (live i) as Hl by (unfold live; by destruct (i_state i)).
    destruct (reachable_fenced _ _ Hr i Hi Hl) as (d & Hd & Hs & Hda & _ & Hdt & _).
    assert (msg1 = msg) as ->.
    { eapply message_id_unique; [exact Hwf|exact Hm1|exact Hmsg|congruence]. }
    assert (d1 = d) as ->.
    { eapply delivery_key_unique; [exact Hwf|exact Hd1|exact Hd|congruence|congruence]. }
    apply (reachable_unsettled _ _ Hr d Hd _ Hdt). congruence.
Qed.
Lemma retry_ends_attempt a m input now db u db' invocation :
  reachable sha256_hex db → attempt_of invocation db → a = inv_agent_id invocation →
  m = msg_id (inv_message invocation) → retry_lease_token input = inv_lease_token invocation →
  retry_delivery a m input now db = Ok (u, db') → ended invocation db'.
Proof.
  intros Hr (i & msg & Hi & Hm & Hid & Ha & Ht & Hmid & Hs) -> -> Htok Hrun.
  destruct (retry_ends _ _ _ _ _ _ _ i msg Hr Hrun) as (i' & Hi' & Hid' & Hst'); try done.
  - congruence.
  - exists i'. split_and!; try done. congruence.
Qed.
End attempt.

Section settle.
Context `{J : SerdeJson} {JT : JsonTree}.
Context {P H : Type} {HH : Harness H} {G : Type} {MG : ManagedTurnGrant G}.
Context {T : Type} {TA : TurnAdapter T} {WH : WorkerHarness (P := P) (H := H)}.
Context (sha256_hex : string → string).
Context (plugin_error_text : PluginError → string) (source_text : FleetError → string).
Context (clock later : nat → Z) (uuid : nat → string).
Context (env_db : nat → Db → Db) (env_grants : nat → list G → list G).
Context (lost : nat → bool) (cancelled : nat → bool) (schedules : nat → Schedule).
Context (polls : nat → list Poll) (config : ContinuousWorkerConfig) (adapter : T).
Context (env_runs : ∀ n db, worker_run sha256_hex db (env_db n db)).
Context (invocation : Invocation).
Notation WState := (WState (H := H) (G := G)).
Notation db_of s := (w_db (ws_world s)).
Notation store := (Worker.store (H := H) clock later uuid env_db env_grants).
Notation attempt_of := (attempt_of invocation).
Notation ended := (ended invocation).
Notation worker_rel := (worker_rel (H := H) (G := G) sha256_hex).

(** The attempt stands, and what is settled stays settled. *)
Definition standing (s : WState) : Prop := reachable sha256_hex (db_of s) ∧ attempt_of (db_of s).
Definition stands (s s' : WState) : Prop :=
  standing s → standing s' ∧ (ended (db_of s) → ended (db_of s')).
#[local] Instance stands_preorder : PreOrder stands.
Proof.
  split; [intros s Hs; by split|]. intros s1 s2 s3 H12 H23 H1.
  destruct (H12 H1) as [H2 E2]. destruct (H23 H2) as [H3 E3]. auto.
Qed.
Lemma rel_stands {E A} (m : worker_action E A) :
  within (lifted worker_rel) m → within stands m.
Proof.
  intros Hm s s' r Hs [Hr Ha]. pose proof (worker_run_reaches _ _ _ (Hm _ _ _ Hs)) as Hrun.
  split; [split; [by eapply reachable_run|by eapply attempt_of_run]|]. by eapply ended_run.
Qed.

(** A part that ends the attempt unless it fails in one of these ways. *)
Definition excused (e : GenerationExit) : Prop :=
  match e with
  | GenerationPanicked _ | Fatal (PreArmSettlement _ _) => True
  | Restart reason =>
      ∃ error, reason = "managed turn persistence failed at an uncertain phase: "
                        +:+ fleet_error_text source_text error
  | _ => False
  end.
Lemma retry_unarmed_ends s s' r context ms :
  standing s →
  retry_unarmed clock later uuid env_db env_grants invocation context ms s = (s', r) →
  match r with inl _ => ended (db_of s') | inr e => excused (Fatal e) end.
Proof using env_runs.
  intros [Hr Ha] Hs. unfold retry_unarmed, Worker.store, in_world in Hs.
  destruct (Controller.store _ _ _ _ _ _ _ _) as [w x] eqn:Hw. injection Hs as <- <-.
  apply (store_run clock later uuid env_db env_grants) in Hw.
  pose proof (worker_run_reaches _ _ _ (env_runs (w_awaits (ws_world s)) (db_of s))) as Hrun.
  destruct (retry_delivery _ _ _ _ _) as [[u db]|e] eqn:Ho; destruct Hw as [-> ->]; [|done].
  eapply retry_ends_attempt; [..|exact Ho]; try done.
  - by eapply reachable_run.
  - by eapply attempt_of_run.
Qed.

(** [settles Q m]: an error of [m] leaves the attempt ended, unless it is excused,
    and so does a value that satisfies [Q]. *)
Definition settles {A} (Q : A → Prop) (m : worker_action GenerationExit A) : Prop :=
  ∀ s s' r, standing s → m s = (s', r) →
    match r with inl a => Q a → ended (db_of s') | inr e => ended (db_of s') ∨ excused e end.
Definition always {A} (_ : A) : Prop := True.
Definition never {A} (_ : A) : Prop := False.

Lemma settles_done {A} (a : A) : settles never (done_with a).
Proof. intros s s' r _ [= <- <-] []. Qed.
Lemma settles_look {A} (f : WState → A) : settles never (look f).
Proof. intros s s' r _ [= <- <-] []. Qed.
Lemma settles_attempt {E A} (m : worker_action E A) : settles never (attempt m).
Proof. intros s s' r _ (x & _ & ->)%attempt_run []. Qed.
Lemma settles_own (f : WState → WState) : settles never (act f).
Proof. intros s s' r _ [= <- <-] []. Qed.
(** What follows needs only to go on where the attempt is ended already. *)
Lemma settles_andthen {A B} (Q1 : A → Prop) (Q2 : B → Prop) m (k : A → _) :
  within stands m → settles Q1 m →
  (∀ a, (Q1 a ∧ within stands (k a)) ∨ settles Q2 (k a)) → settles Q2 (andthen m k).
Proof.
  intros Hw Hm Hk s s' r Hst Hs. apply andthen_run in Hs as [(a & s1 & H1 & H2)|(e & H1 & ->)];
    pose proof (Hm _ _ _ Hst H1) as He; [|done]. destruct (Hw _ _ _ H1 Hst) as [Hst1 _].
  destruct (Hk a) as [[Ha Hka]|Hka]; [|by eapply Hka].
  destruct (Hka _ _ _ H2 Hst1) as [_ Hend]. destruct r; auto.
Qed.
Lemma settles_then {A B} (Q : B → Prop) m (k : A → _) :
  within stands m → settles never m → (∀ a, settles Q (k a)) → settles Q (andthen m k).
Proof. intros Hw Hm Hk. eapply settles_andthen; [done..|]. auto. Qed.
Lemma ended_then {A B} (Q : B → Prop) m (k : A → _) :
  within stands m → settles always m → (∀ a, within stands (k a)) → settles Q (andthen m k).
Proof. intros Hw Hm Hk. eapply settles_andthen; [done..|]. intros a. left. by split. Qed.

Ltac worker_moves :=
  try done; try exact _;
  first [ (intros w; apply env_runs) | (intros w db' Ht; by apply rtc_once)
        | (intros; by apply turn_worker_rel)
        | (intros; unfold WorkerProps.worker_rel, worker_run; reflexivity) ].
Lemma stands_release reason :
  within stands (release_or_exit clock later uuid env_db env_grants config invocation reason).
Proof using env_runs. apply rel_stands, (within_release sha256_hex); worker_moves. Qed.
Lemma stands_stop {A} : within stands (stop_unarmed (A := A) clock later uuid env_db env_grants invocation).
Proof using env_runs. apply rel_stands, (within_stop_unarmed sha256_hex); worker_moves. Qed.
Lemma stands_own {E} (f : WState → WState) :
  (∀ s, ws_world (f s) = ws_world s) → within stands (act f : worker_action E unit).
Proof. intros Hf. apply rel_stands, within_own; [exact _|done]. Qed.
Lemma stands_pure {E A} (m : worker_action E A) : (∀ s, (m s).1 = s) → within stands m.
Proof. intros Hm s s' r Hs. rewrite <-(Hm s), Hs. simpl. reflexivity. Qed.

Lemma release_settles reason :
  settles always (release_or_exit clock later uuid env_db env_grants config invocation reason).
Proof using env_runs.
  intros s s' r Hst Hs. unfold release_or_exit, expect_ms in Hs.
  destruct (duration_ms _) as [ms|]; [|injection Hs as <- <-; by right].
  apply andthen_run in Hs as [(u & s1 & Hm & Hs)|(e & Hm & ->)];
    apply map_err_run in Hm as [(a & Hm & Heq)|(e' & Hm & Heq)]; simplify_eq;
    apply (retry_unarmed_ends _ _ _ _ _ Hst) in Hm; [|by right].
  by injection Hs as <- <-.
Qed.
Lemma release_then {A} (Q : A → Prop) reason (k : worker_action GenerationExit A) :
  within stands k →
  settles Q (release_or_exit clock later uuid env_db env_grants config invocation reason ;! k).
Proof using env_runs. intros Hk. apply ended_then; [apply stands_release|apply release_settles|done]. Qed.
Lemma stop_settles {A} (Q : A → Prop) :
  settles Q (stop_unarmed clock later uuid env_db env_grants invocation).
Proof using env_runs.
  intros s s' r Hst Hs. unfold stop_unarmed in Hs.
  apply andthen_run in Hs as [(u & s1 & Hm & Hs)|(e & Hm & ->)];
    apply map_err_run in Hm as [(a & Hm & Heq)|(e' & Hm & Heq)]; simplify_eq;
    apply (retry_unarmed_ends _ _ _ _ _ Hst) in Hm; [|by right].
  injection Hs as <- <-. by left.
Qed.

Lemma prepare_settles :
  settles never (prepare_reserved source_text clock later uuid env_db env_grants config adapter
                   invocation).
Proof using env_runs.
  unfold prepare_reserved. apply settles_then; [|apply settles_attempt|].
  { apply within_attempt, rel_stands, (within_context sha256_hex); worker_moves. }
  intros [context|error]; [|apply release_then; by apply stands_pure].
  destruct (prepare_with_channel_context _ _ _) as [prepared|error];
    [|apply release_then; by apply stands_pure].
  destruct (validate_prepared_turn _); [apply settles_done|].
  apply release_then; by apply stands_pure.
Qed.
Lemma open_stands lane g :
  within stands (open_lane clock later uuid env_db env_grants config invocation lane g).
Proof using env_runs.
  apply rel_stands, (within_open_lane sha256_hex); worker_moves.
Qed.
Lemma resolve_settles lane g :
  settles (λ opened, opened = None)
    (resolve_lane plugin_error_text source_text clock later uuid env_db env_grants config invocation
       lane g).
Proof using env_runs.
  unfold resolve_lane. apply settles_then; [by apply stands_pure|apply settles_look|].
  intros sessions. destruct (sessions !! lane) as [opened|]; [by intros s s' r _ [= <- <-]|].
  apply settles_then; [apply within_attempt, open_stands|apply settles_attempt|].
  intros [opened|error].
  - apply settles_then; [by apply stands_own|apply settles_own|]. intros u.
    by intros s s' r _ [= <- <-].
  - apply release_then. destruct (is_plugin error); by apply stands_pure.
Qed.

(** The turn itself: its outcome is durable. *)
Lemma blocked_ends b db :
  reachable sha256_hex db → attempt_of db →
  blocked_as (inv_agent_id invocation) (msg_id (inv_message invocation)) (inv_lease_token invocation)
    b db → ended db.
Proof.
  intros Hr (i & m & Hi & Hm & Hid & Ha & Ht & Hmid & Hs)
    (row & m' & Hrow & Hm' & Hmid' & Hs' & _ & Hba & Hbt & _).
  exists i. split_and!; [done..|].
  destruct (bool_decide (i_state i = InvocationState.Terminal)) eqn:Hst; bool_facts; [done|].
  exfalso. assert (Fence.live i) as Hl by (unfold Fence.live; by destruct (i_state i)).
  destruct (reachable_fenced _ _ Hr i Hi Hl) as (d & Hd & Hds & Hda & _ & Hdt & _).
  assert (m' = m) as ->.
  { eapply message_id_unique; [by eapply reachable_wf|done..|congruence]. }
  eapply (reachable_unblocked _ _ Hr d row); [done..| | |]; congruence.
Qed.
Lemma run_stands turn schedule :
  within stands (Worker.run_turn sha256_hex plugin_error_text source_text clock later uuid env_db
                   env_grants lost config turn schedule).
Proof using env_runs.
  apply rel_stands, within_in_world. by apply turn_worker_rel.
Qed.
Lemma run_settles turn schedule :
  mt_invocation turn = invocation →
  settles (λ x : ManagedTurnOutcome + ManagedTurnError, ∃ outcome, x = inl outcome)
    (attempt (Worker.run_turn sha256_hex plugin_error_text source_text clock later uuid env_db
                env_grants lost config turn schedule)).
Proof using env_runs.
  intros Hinv s s' r Hst Hs. apply attempt_run in Hs as (x & Hs & ->). intros [outcome ->].
  destruct (run_stands _ _ _ _ _ Hs Hst) as [[Hr' Ha'] _]. destruct Hst as [Hr _].
  unfold Worker.run_turn, in_world in Hs.
  destruct (Controller.run _ _ _ _ _ _ _ _ _ _ _ _ _) as [w x] eqn:Hw. injection Hs as <- ->.
  assert (settled turn outcome (w_db w)) as Hd.
  { eapply (outcome_durable sha256_hex); [|exact Hr|exact Hw].
    intros n db _. by apply worker_run_reaches. }
  destruct outcome as [c|c i|b]; simpl in Hd; rewrite Hinv in Hd.
  - destruct Hd as (payload & i & _ & _ & _ & Hi & _ & _ & _ & ? & _ & _ & _ & _ & _ & _ & ? & _).
    by exists i.
  - destruct Hd as (payload & j & _ & _ & _ & Hj & _ & _ & _ & ? & _ & _ & _ & _ & _ & _ & ? & _).
    by exists j.
  - by eapply blocked_ends.
Qed.
Lemma execute_settles prepared lane session g :
  settles always
    (execute_turn sha256_hex plugin_error_text source_text clock later uuid env_db env_grants lost
       schedules polls config adapter invocation prepared lane session g).
Proof using env_runs.
  unfold execute_turn. apply settles_then; [|apply settles_attempt|].
  { apply within_attempt, rel_stands, within_read; [exact _|intros w; apply env_runs|].
    apply reading_latest. }
  intros [after|error]; [|apply release_then; by apply stands_pure].
  apply settles_then; [by apply stands_pure|apply settles_look|]. intros at_await.
  eapply settles_andthen; [apply within_attempt, run_stands|by apply run_settles|].
  intros [outcome|error]; [left|right].
  - split; [by exists outcome|].
    destruct outcome; (apply within_andthen; [exact _|by apply stands_own|intros _]);
      try by apply stands_pure.
    case_match; [by apply stands_pure|]. apply rel_stands, (within_rotate sha256_hex); worker_moves.
  - destruct error; simpl; try (apply release_then; by apply stands_pure).
    all: by intros s s' r _ [= <- <-]; right; simpl; eauto.
Qed.
Lemma invocation_settles g :
  settles always
    (drive_invocation sha256_hex plugin_error_text source_text clock later uuid env_db env_grants
       lost cancelled schedules polls config adapter g invocation).
Proof using env_runs.
  unfold drive_invocation, is_cancelled.
  apply settles_then; [|apply prepare_settles|]; [|intros prepared].
  { apply rel_stands, (within_prepare sha256_hex); worker_moves. }
  apply settles_then; [by apply stands_pure|apply settles_look|]. intros stop.
  destruct stop; [apply stop_settles|].
  eapply settles_andthen; [|apply resolve_settles|].
  { apply rel_stands, (within_resolve_lane sha256_hex); worker_moves. }
  intros [session|]; [right|left; split; [done|by apply stands_pure]].
  apply settles_then; [by apply stands_pure|apply settles_look|]. intros stop.
  destruct stop; [apply stop_settles|].
  apply ended_then; [|apply execute_settles|].
  - apply rel_stands, (within_execute sha256_hex); worker_moves.
  - intros []; [by apply stands_pure|by apply stands_own].
Qed.

Context (lease_token : nat → Db → string) (uuids : nat → nat → string).
Context (fresh_tokens : ∀ n db, fresh_token (lease_token n db) db).
Lemma reserved_stands s s' rest :
  reachable sha256_hex (db_of s) →
  reserve_one source_text clock later uuid lease_token uuids env_db env_grants config adapter s
    = (s', inl (invocation :: rest)) →
  standing s'.
Proof using env_runs fresh_tokens.
  intros Hr Hs. unfold reserve_one, expect_ms in Hs. destruct (duration_ms _) as [ms|]; [|done].
  apply andthen_run in Hs as [(u & s1 & [= <- _] & Hs)|(e & [=] & _)].
  unfold in_world, on_store in Hs. simpl in Hs.
  destruct (reserve_invocations_by_kind _ _ _ _ _ _ _) as [[invs db]|e] eqn:Ho;
    injection Hs as <- Heq; [subst invs|done].
  unfold reserve_invocations_by_kind in Ho. m_inv. split; simpl.
  - eapply reachable_run; [exact Hr|]. apply worker_run_reaches.
    eapply rtc_r; [apply env_runs|]. eapply t_reserve; [apply fresh_tokens|eassumption].
  - eapply reservation_attempts; [eassumption|]. by left.
Qed.

(** C2 A step of the worker ends what it reserved.  Whether the step goes on or
    ends its generation, the invocation it reserved is terminal in the store by
    then: released unarmed, completed, or parked.  The exceptions are named: a panic,
    a release the store refused, and a managed turn that lost the store at an
    uncertain phase (which recovery parks when the lease runs out). *)
Theorem nothing_left_in_flight g s s1 rest s2 r :
  reachable sha256_hex (db_of s) →
  reserve_one source_text clock later uuid lease_token uuids env_db env_grants config adapter s
    = (s1, inl (invocation :: rest)) →
  (count_report count_reservation ;!
   drive_invocation sha256_hex plugin_error_text source_text clock later uuid env_db env_grants
     lost cancelled schedules polls config adapter g invocation) s1 = (s2, r) →
  match r with inl _ => ended (db_of s2) | inr e => ended (db_of s2) ∨ excused e end.
Proof using env_runs fresh_tokens.
  intros Hr Hres Hs. apply (reserved_stands _ _ _ Hr) in Hres.
  apply andthen_run in Hs as [(u & s1' & Hs1 & Hs)|(e & [=] & _)].
  assert (standing s1') as Hst by (by injection Hs1 as <- _).
  pose proof (invocation_settles g _ _ _ Hst Hs) as Hend. destruct r; [by apply Hend|done].
Qed.
End settle.
