(* ===== verification/WorkerTurnProps.v ===== *)
(** * What a worker hands to a turn, and what its configuration guarantees

    The view of the channel in a prompt is bounded and says when it is cut; a
    configuration that validates leaves the worker a lease longer than its turn.  The
    file starts with a concrete run of a whole worker. *)

From stdpp Require Import gmap.
From S2P Require Import Prelude Action Proto Schema Channels Messages Deliveries SessionFence.
From S2P Require Import Observations Invocations Settlement Sessions Lifecycle Safety System.
From S2P Require Import Scenario Fence Attempts Grants HarnessClient Controller.
From S2P Require Import HarnessProps ControllerProps Supervisor WorkerTurns Worker WorkerInv.
From S2P Require Import WorkerProps WorkerSettle.

(** ** A concrete run of the worker

    One agent with one message waiting, a scripted plugin and a worker allowed one
    turn: the run starts a generation, reserves the message, opens a session, runs
    the turn to its completion and stops.  The theorems about the worker are applied
    to it. *)

(** A token longer than every token in the store. *)
Definition token_bytes (db : Db) : nat :=
  foldr (λ d n, (String.length (coalesce (d_lease_token d) "")
                 + String.length (coalesce (d_last_settled_lease_token d) "") + n)%nat)
    (foldr (λ b n, (String.length (b_lease_token b) + n)%nat) O db.(delivery_blocks))
    db.(agent_deliveries).
Definition longest_token (_ : nat) (db : Db) : string := unary (token_bytes db).

Definition scripted_manifest : PluginManifest :=
  {| mf_protocol_version := 1;
     mf_plugin := {| pid_id := "plugin"; pid_name := "harness"; pid_version := "1.0.0" |};
     mf_interfaces := [{| if_id := "acp"; if_version := "1.0.0" |}] |}.
#[local] Instance plain_client : Harness (HarnessAcpClient script) := harness_client plain_sha256.
#[local] Instance scripted_worker : WorkerHarness (P := script) (H := HarnessAcpClient script) := {|
  into_harness_acp s := inl (client_of s);
  wh_manifest _ := scripted_manifest;
  wh_process_id _ := None;
  wh_open_session := open_session;
  wh_close_session := close_session;
  wh_shutdown := done_with (Graceful {| pe_success := true; pe_code := Some 0 |});
|}.
#[local] Instance scripted_adapter : TurnAdapter EnvelopeTurnAdapter :=
  envelope_turn_adapter (λ v, inl v).

Definition scripted_spec : PluginSpec :=
  {| ps_id := "plugin"; ps_executable := "/plugin"; ps_args := []; ps_config := "{}";
     ps_required_interfaces := mf_interfaces scripted_manifest;
     ps_initialize_timeout := 1000000000; ps_request_timeout := 1000000000;
     ps_shutdown_timeout := 1000000000;
     ps_sandbox := Some {| sbx_posture := Strict; sbx_profile := "(version 1)";
                           sbx_profile_digest := "sha256:s" |} |}.
Definition worker_config : ContinuousWorkerConfig :=
  {| cw_agent_id := "B"; cw_plugin := scripted_spec; cw_working_directory := "/work";
     cw_additional_directories := []; cw_mcp_grants := []; cw_turn_grants := [];
     cw_compatibility_digest := None; cw_lease_duration := 600000000000;
     cw_poll_interval := 1000000000; cw_interrupt_on_new_message := false;
     cw_interrupt_poll_interval := 1000000000; cw_restart_backoff := 1000000000;
     cw_pre_arm_retry_delay := 1000000000; cw_turn_policy := turn_policy;
     cw_permission_policy := AllowOnce; cw_trajectory_sink := true |}.
Definition worker_adapter : EnvelopeTurnAdapter :=
  {| ea_result_kind := "answer";
     ea_inbound_acceptance := {| ia_schema_version := 1; ia_message_kinds := ["ask"] |};
     ea_standing_instructions := None |}.
Definition never_cancelled (_ : nat) : bool := false.
Definition fixed_uuid (_ : nat) : string := "S".
Definition supply_at (_ : nat) : nat → string := uuid_supply.

Definition idle_worker (db : Db) : WState (H := HarnessAcpClient script) (G := MessageBroker) :=
  {| ws_world := {| w_db := db; w_harness := client_of []; w_grants := [None : MessageBroker];
                    w_awaits := 0; w_log := [] |};
     ws_report := zero_report; ws_sessions := ∅ |}.
Definition run_worker (cancelled : nat → bool) (fuel inner : nat) (limit : option Z) (db : Db) :=
  run_until (P := script) plain_sha256 plain_plugin_text (λ _, "store") steady steady fixed_uuid
    longest_token supply_at still_db still_grants no_loss cancelled no_loss (λ _, inl clean_script)
    (λ _, long_enough) (λ _, []) worker_config worker_adapter fuel inner limit (idle_worker db).
Definition worker_done := Eval vm_compute in run_worker never_cancelled 2 2 (Some 1) db_asked.
Definition done_report : WorkerReport :=
  {| wr_plugin_generations := 1; wr_operational_restarts := 0; wr_reservations := 1;
     wr_completed := 1; wr_interrupted := 0; wr_blocked := 0; wr_pre_arm_retries := 0;
     wr_idle_polls := 0 |}.
Definition worker_start : Entry := Eval vm_compute in nth 1 (w_log (ws_world worker_done.1)) no_entry.
Definition worked_row : InvocationRow := Eval vm_compute in
  hd no_invocation (w_db (ws_world worker_done.1)).(invocations).

Lemma unary_length n : String.length (unary n) = S n.
Proof. induction n as [|n IH]; [done|]. simpl. by rewrite IH. Qed.
Lemma longest_token_fresh n db : fresh_token (longest_token n db) db.
Proof.
  unfold longest_token, fresh_token, token_bytes.
  assert (∀ s k, String.length s ≤ k → s ≠ unary k)%nat as Hne.
  { intros s k Hle ->. rewrite unary_length in Hle. lia. }
  set (base := foldr _ O (delivery_blocks db)).
  assert (∀ b, b ∈ db.(delivery_blocks) → String.length (b_lease_token b) ≤ base)%nat as Hb.
  { unfold base. induction (delivery_blocks db) as [|b0 l IH]; intros b; [by intros ?%not_elem_of_nil|].
    intros [->|Hin]%elem_of_cons; simpl; [lia|]. specialize (IH b Hin). lia. }
  assert (base ≤ foldr (λ d k, (String.length (coalesce (d_lease_token d) "")
            + String.length (coalesce (d_last_settled_lease_token d) "") + k)) base
            db.(agent_deliveries)
          ∧ ∀ d, d ∈ db.(agent_deliveries) →
            String.length (coalesce (d_lease_token d) "")
            + String.length (coalesce (d_last_settled_lease_token d) "")
            ≤ foldr (λ d k, (String.length (coalesce (d_lease_token d) "")
                + String.length (coalesce (d_last_settled_lease_token d) "") + k)) base
                db.(agent_deliveries))%nat as [Hbase Hd].
  { clear Hb. induction (agent_deliveries db) as [|d0 l [IH1 IH2]]; simpl.
    - split; [lia|]. by intros d ?%not_elem_of_nil.
    - split; [lia|]. intros d [->|Hin]%elem_of_cons; [lia|]. specialize (IH2 d Hin). lia. }
  split_and!.
  - intros d Hin Heq. specialize (Hd d Hin). rewrite Heq in Hd. simpl in Hd.
    rewrite unary_length in Hd. lia.
  - intros b Hin. apply Hne. specialize (Hb b Hin). lia.
  - intros d Hin Heq. specialize (Hd d Hin). rewrite Heq in Hd. simpl in Hd.
    rewrite unary_length in Hd. lia.
Qed.
Lemma still_worker n db : worker_run plain_sha256 db (still_db n db).
Proof. apply rtc_refl. Qed.

Lemma worker_completes :
  worker_done.2 = inr (RunFinished done_report)
  ∧ worked_row ∈ (w_db (ws_world worker_done.1)).(invocations)
  ∧ i_state worked_row = InvocationState.Terminal.
Proof. split_and!; [reflexivity|by left|reflexivity]. Qed.

Lemma message_dispatched_once_witness :
  ∃ request i, entry_effect worker_start = StartedTurn request
    ∧ i ∈ (w_db (ws_world worker_done.1)).(invocations)
    ∧ i_message_seq i = 1 ∧ 1%nat = 1%nat.
Proof.
  assert (prompts (w_db (ws_world worker_done.1)) worker_start "B" 1) as Hp.
  { eexists _, worked_row. split_and!; [reflexivity|by left|reflexivity..]. }
  destruct Hp as (request & i & He & Hi & Hid & Ha & Hs). exists request, i.
  split_and!; try assumption.
  apply (message_dispatched_once plain_sha256 plain_plugin_text (λ _, "store") steady steady
    fixed_uuid longest_token supply_at still_db still_grants no_loss never_cancelled no_loss
    (λ _, inl clean_script) (λ _, long_enough) (λ _, []) worker_config worker_adapter
    longest_token_fresh still_worker 2 2 (Some 1) (idle_worker db_asked) worker_done.1 worker_done.2
    1%nat 1%nat worker_start worker_start "B" 1).
  - exact reachable_asked.
  - reflexivity.
  - vm_compute. reflexivity.
  - reflexivity.
  - reflexivity.
  - by exists request, i.
  - by exists request, i.
Defined.

(** Cancelled while the turn runs: the turn is settled, and no other is taken. *)
Definition cancelled_midway (n : nat) : bool := (14 <=? n)%nat.
Lemma cancelled_midway_from k : (14 ≤ k)%nat → cancelled_midway k = true.
Proof. intros Hk. by apply Nat.leb_le. Qed.
Lemma cancelled_worker_stops_witness :
  ∃ s' e, run_worker cancelled_midway 15 15 None db_asked = (s', inr e) ∧ e ≠ RunOutOfFuel.
Proof.
  apply (cancelled_worker_stops plain_sha256 plain_plugin_text (λ _, "store") steady steady
    fixed_uuid longest_token supply_at still_db still_grants no_loss cancelled_midway no_loss
    (λ _, inl clean_script) (λ _, long_enough) (λ _, []) worker_config worker_adapter
    14%nat cancelled_midway_from 15 15 None (idle_worker db_asked)); lia.
Defined.

Lemma settled_within_limit_witness :
  settled_turns (ws_report worker_done.1) ≤ 1.
Proof.
  apply (settled_within_limit plain_sha256 plain_plugin_text (λ _, "store") steady steady
    fixed_uuid longest_token supply_at still_db still_grants no_loss never_cancelled no_loss
    (λ _, inl clean_script) (λ _, long_enough) (λ _, []) worker_config worker_adapter
    1 2 2 (idle_worker db_asked) worker_done.1 worker_done.2); [lia|].
  vm_compute. reflexivity.
Defined.

(** A step of a generation that is open already. *)
Definition db_routed : Db := Eval vm_compute in exec op_generation db_asked.
Lemma reachable_routed : reachable plain_sha256 db_routed.
Proof.
  apply (Scenario.run_step op_generation false db_asked);
    [intros; by eapply t_generation|done|done|apply reachable_asked].
Qed.
Definition routed_identity : GenerationIdentity :=
  {| gi_owner_instance_id := "G1"; gi_profile_digest := "p1"; gi_compatibility_digest := "c1" |}.
Definition routed_worker : WState (H := HarnessAcpClient script) (G := MessageBroker) :=
  {| ws_world := {| w_db := db_routed; w_harness := client_of clean_script;
                    w_grants := [None : MessageBroker]; w_awaits := 0; w_log := [] |};
     ws_report := zero_report; ws_sessions := ∅ |}.
Definition reserve_routed :=
  Eval vm_compute in
  reserve_one (λ _, "store") steady steady fixed_uuid longest_token supply_at still_db still_grants
    worker_config worker_adapter routed_worker.
Definition routed_invocation : Invocation := Eval vm_compute in
  match reserve_routed.2 with
  | inl (invocation :: _) => invocation
  | _ => mt_invocation reserved_turn
  end.
Definition drive_routed (cancelled : nat → bool) :=
  (count_report count_reservation ;!
   drive_invocation plain_sha256 plain_plugin_text (λ _, "store") steady steady fixed_uuid still_db
     still_grants no_loss cancelled (λ _, long_enough) (λ _, []) worker_config worker_adapter
     routed_identity routed_invocation) reserve_routed.1.
(** Cancelled before dispatch: the reservation is released. *)
Definition drive_cancelled := Eval vm_compute in drive_routed (λ _, true).
Lemma nothing_left_in_flight_witness :
  drive_cancelled.2 = inr Stopped
  ∧ (ended routed_invocation (w_db (ws_world drive_cancelled.1)) ∨ excused (λ _, "store") Stopped).
Proof.
  split; [reflexivity|].
  refine (nothing_left_in_flight plain_sha256 plain_plugin_text (λ _, "store") steady steady
    fixed_uuid still_db still_grants no_loss (λ _, true) (λ _, long_enough) (λ _, []) worker_config
    worker_adapter still_worker routed_invocation longest_token supply_at longest_token_fresh
    routed_identity routed_worker reserve_routed.1 [] drive_cancelled.1 (inr Stopped) _ _ _).
  - exact reachable_routed.
  - vm_compute. reflexivity.
  - vm_compute. reflexivity.
Defined.

(** ** What a turn is handed *)

Section context.
Context `{J : SerdeJson} {JT : JsonTree}.
Notation ids := (map member_agent_id).

(** ** The members *)

Lemma NoDup_snoc {A} (l : list A) x : NoDup l → x ∉ l → NoDup (l ++ [x]).
Proof.
  intros Hl Hx. apply NoDup_app. split_and!; [done| |by apply NoDup_singleton].
  intros y Hy ->%list_elem_of_singleton. done.
Qed.
Lemma include_member_view bounded member :
  NoDup (ids bounded) →
  NoDup (ids (include_member bounded member))
  ∧ member_agent_id member ∈ ids (include_member bounded member)
  ∧ bounded `prefix_of` include_member bounded member
  ∧ (∀ m, m ∈ include_member bounded member → m ∈ bounded ∨ m = member)
  ∧ (length (include_member bounded member) ≤ S (length bounded))%nat.
Proof.
  intros Hnd. unfold include_member. destruct (bool_decide _) eqn:Hd; bool_facts.
  - split_and!; try done; [by left|lia].
  - rewrite map_app, length_app. simpl. split_and!; [by apply NoDup_snoc| | | |lia].
    + apply elem_of_app. right. by left.
    + by eexists.
    + intros m [?|?%list_elem_of_singleton]%elem_of_app; auto.
Qed.
Lemma prefix_ids (l k : list ChannelMember) id : l `prefix_of` k → id ∈ ids l → id ∈ ids k.
Proof. intros [r ->] Hid. rewrite map_app. apply elem_of_app. by left. Qed.

Lemma include_priorities_view members bounded priorities :
  NoDup (ids bounded) →
  let view := include_priorities members bounded priorities in
  NoDup (ids view) ∧ bounded `prefix_of` view
  ∧ (∀ m, m ∈ view → m ∈ bounded ∨ m ∈ members)
  ∧ (∀ id, id ∈ priorities → id ∈ ids members → id ∈ ids view)
  ∧ (length view ≤ length bounded + length priorities)%nat.
Proof.
  revert bounded. induction priorities as [|id0 priorities IH]; intros bounded Hnd; simpl.
  { split_and!; try done; [by left|by intros ? ?%not_elem_of_nil|lia]. }
  destruct (List.find _ members) as [member|] eqn:Hf.
  - apply find_some_elem in Hf as [Hin Hid]. bool_facts. subst id0.
    destruct (include_member_view bounded member Hnd) as (Hnd' & Hm & Hp & Hsub & Hlen).
    destruct (IH _ Hnd') as (? & Hp' & Hsub' & Hall & Hlen'). split_and!; [done|by etrans| | |lia].
    + intros m [[?| ->]%Hsub|?]%Hsub'; auto.
    + intros id [->|?]%elem_of_cons Hids; [by eapply prefix_ids|by apply Hall].
  - destruct (IH _ Hnd) as (? & ? & ? & Hall & Hlen). split_and!; try done; [|lia].
    intros id [->|?]%elem_of_cons Hids; [|by apply Hall]. exfalso.
    apply list_elem_of_In, in_map_iff in Hids as (m & Hid & Hm).
    eapply find_none in Hf; [|exact Hm]. by bool_facts.
Qed.
Lemma include_members_view bounded members :
  NoDup (ids bounded) → (length bounded ≤ MAX_CHANNEL_CONTEXT_MEMBERS)%nat →
  let view := include_members bounded members in
  NoDup (ids view) ∧ bounded `prefix_of` view
  ∧ (∀ m, m ∈ view → m ∈ bounded ∨ m ∈ members)
  ∧ (length view ≤ MAX_CHANNEL_CONTEXT_MEMBERS)%nat.
Proof.
  revert bounded. induction members as [|member members IH]; intros bounded Hnd Hle; cbn [include_members].
  { split_and!; try done. by left. }
  destruct (_ =? _)%nat eqn:Hfull; [split_and!; try done; by left|].
  apply Nat.eqb_neq in Hfull.
  destruct (include_member_view bounded member Hnd) as (Hnd' & Hm & Hp & Hsub & Hlen).
  destruct (IH (include_member bounded member)) as (? & Hp' & Hsub' & ?); [done|lia|].
  split_and!; [done|by etrans| |done].
  intros m [[?| ->]%Hsub|?]%Hsub'; auto; right; set_solver.
Qed.

(** ** The history *)

Definition total_bytes (l : list Message) : Z := foldr (λ m n, message_bytes m + n) 0 l.
Lemma message_bytes_nonneg m : 0 ≤ message_bytes m.
Proof. unfold message_bytes, str_len, MAX_CHANNEL_CONTEXT_HISTORY_BYTES. destruct (to_json _); lia. Qed.
Lemma retain_history_view newest retained bytes truncated kept cut :
  retain_history newest retained bytes truncated = (kept, cut) →
  bytes = total_bytes retained → bytes ≤ MAX_CHANNEL_CONTEXT_HISTORY_BYTES →
  total_bytes kept ≤ MAX_CHANNEL_CONTEXT_HISTORY_BYTES
  ∧ ∃ older, reverse newest ++ retained = older ++ kept
      ∧ (cut = true ↔ truncated = true ∨ older ≠ []).
Proof.
  revert retained bytes. induction newest as [|m newest IH]; intros retained bytes H Hb Hle.
  - simpl in H. injection H as <- <-. split; [lia|]. exists []. split; [done|]. naive_solver.
  - cbn [retain_history] in H. rewrite reverse_cons, <-app_assoc.
    assert ((kept, cut) = (retained, true) ∨
      bytes + message_bytes m ≤ MAX_CHANNEL_CONTEXT_HISTORY_BYTES
      ∧ retain_history newest (m :: retained) (bytes + message_bytes m) truncated = (kept, cut))
      as [[= -> ->]|[Hfit Hrest]].
    { destruct (_ <? _); [by left|]. destruct (_ <? _) eqn:Hl in H; [by left|].
      apply Z.ltb_ge in Hl. by right. }
    + split; [lia|]. exists (reverse newest ++ [m]). split; [by rewrite <-app_assoc|].
      split; [|done]. intros _. right. by destruct (reverse newest).
    + eapply IH in Hrest; [exact Hrest|simpl; lia|done].
Qed.

Lemma bounded_history_view history :
  let recent := bounded_context_history history in
  recent.1 `suffix_of` history
  ∧ (length recent.1 ≤ MAX_CHANNEL_CONTEXT_MESSAGES)%nat
  ∧ total_bytes recent.1 ≤ MAX_CHANNEL_CONTEXT_HISTORY_BYTES
  ∧ (recent.2 = false ↔ recent.1 = history).
Proof.
  unfold bounded_context_history. set (n := (length history - _)%nat).
  destruct (retain_history _ _ _ _) as [kept cut] eqn:Hr.
  apply retain_history_view in Hr as [Hb (older & Heq & Hcut)]; [|done|done].
  rewrite reverse_involutive, app_nil_r in Heq. cbn [fst snd].
  pose proof (take_drop n history) as Htd. rewrite Heq in Htd.
  assert (length older + length kept ≤ MAX_CHANNEL_CONTEXT_MESSAGES)%nat as Hlen.
  { rewrite <-length_app, <-Heq, length_drop. lia. }
  split_and!; [exists (take n history ++ older); by rewrite <-app_assoc|lia|done|].
  assert (cut = false ↔ (length history ≤ MAX_CHANNEL_CONTEXT_MESSAGES)%nat ∧ older = []) as ->.
  { destruct cut.
    - split; [done|]. intros [Hle ->]. destruct (proj1 Hcut eq_refl) as [Hlt|?]; [|done].
      apply Nat.ltb_lt in Hlt. lia.
    - split; [|done]. intros _. split.
      + destruct (le_lt_dec (length history) MAX_CHANNEL_CONTEXT_MESSAGES) as [?|Hlt]; [done|].
        exfalso. apply Nat.ltb_lt in Hlt. by assert (false = true) by (apply Hcut; by left).
      + destruct older; [done|]. by assert (false = true) by (apply Hcut; by right). }
  split.
  - intros [Hle ->]. assert (n = 0)%nat as Hn by lia. by rewrite Hn in Htd.
  - intros ->. assert (length (take n history ++ older) = 0)%nat as H0.
    { apply (f_equal length) in Htd. rewrite !length_app in *. lia. }
    rewrite length_app, length_take in H0. split; [lia|]. destruct older; [done|simpl in *; lia].
Qed.

(** The view of the channel a prompt carries is bounded and says when it is
    cut.  The members are distinct members of the channel, at most 64, and contain
    the worker's own agent, the sender and the recipient where these are members;
    when nothing is marked as cut they are all the members.  The history is the end
    of the history that was read, at most 32 messages and 64 KiB of encoding; it is
    the whole of it exactly when nothing is marked as cut. *)
Theorem channel_context_bounded members invocation history :
  let view := bounded_context_members members invocation in
  let recent := bounded_context_history history in
  NoDup (ids view.1)
  ∧ (length view.1 ≤ MAX_CHANNEL_CONTEXT_MEMBERS)%nat
  ∧ (∀ m, m ∈ view.1 → m ∈ members)
  ∧ (∀ id, id ∈ priority_ids invocation → id ∈ ids members → id ∈ ids view.1)
  ∧ (view.2 = false → view.1 ≡ₚ members)
  ∧ recent.1 `suffix_of` history
  ∧ (length recent.1 ≤ MAX_CHANNEL_CONTEXT_MESSAGES)%nat
  ∧ total_bytes recent.1 ≤ MAX_CHANNEL_CONTEXT_HISTORY_BYTES
  ∧ (recent.2 = false ↔ recent.1 = history).
Proof.
  intros view recent. unfold view, recent. clear view recent.
  destruct (include_priorities_view members [] (priority_ids invocation)) as
    (Hnd1 & _ & Hsub1 & Hall & Hlen); [by apply NoDup_nil_2|].
  assert (length (priority_ids invocation) ≤ 3)%nat as H3
    by (unfold priority_ids; destruct (msg_recipient_id _); simpl; lia).
  destruct (include_members_view (include_priorities members [] (priority_ids invocation)) members)
    as (Hnd & Hp & Hsub & H64); [done|unfold MAX_CHANNEL_CONTEXT_MEMBERS; simpl in *; lia|].
  assert (∀ m, m ∈ (bounded_context_members members invocation).1 → m ∈ members) as Hin.
  { intros m [[?%not_elem_of_nil|?]%Hsub1|?]%Hsub; done. }
  split_and!; [done|done|done| | |..]; try apply bounded_history_view.
  - intros id Hid Hids. eapply prefix_ids; [done|by apply Hall].
  - simpl. intros Hcut. apply Nat.ltb_ge in Hcut.
    apply submseteq_length_Permutation; [|done]. apply NoDup_submseteq; [by eapply NoDup_fmap_1|done].
Qed.
End context.

(** ** The configuration *)

Section config.
Context `{J : SerdeJson} (is_dir : string → bool).


(** What a validated configuration gives the worker. *)
Record covers (config : ContinuousWorkerConfig) (lease retry : Z) : Prop := {
  covers_lease : duration_ms (cw_lease_duration config) = Some lease;
  covers_retry : duration_ms (cw_pre_arm_retry_delay config) = Some retry;
  covers_turn :
    tp_wall_timeout_ms (cw_turn_policy config) + tp_cancel_drain_timeout_ms (cw_turn_policy config)
    + LEASE_MARGIN_MS ≤ lease;
  covers_max : lease ≤ MAX_LEASE_DURATION_MS;
  covers_retry_max : retry ≤ MAX_RETRY_DELAY_MS;
  covers_sandbox :
    cw_permission_policy config = AllowOnce → sandbox_profile_digest (cw_plugin config) ≠ None;
  covers_capture :
    0 ≠ tp_max_captured_output_bytes (cw_turn_policy config)
    ∧ tp_max_captured_output_bytes (cw_turn_policy config) ≤ MAX_TURN_CAPTURE_BYTES;
  covers_budget :
    tb_required_enforcement (tp_tool_budget (cw_turn_policy config)) = "observe_then_cancel"
    ∧ tp_permission_policy (cw_turn_policy config) = "controller"
    ∧ tp_token_budget (cw_turn_policy config) = None;
  covers_waits :
    cw_poll_interval config ≠ 0 ∧ cw_interrupt_poll_interval config ≠ 0
    ∧ cw_restart_backoff config ≠ 0;
}.

Lemma validate_config_covers config :
  validate_config is_dir config = inl tt → ∃ lease retry, covers config lease retry.
Proof.
  unfold validate_config, invalid_if, required, validation_of_config. intros H.
  repeat match goal with
    | H : (_ ;: _) = inl _ |- _ => apply both_ok in H as [[[] ?] ?]
    | H : reject _ _ = inl _ |- _ => apply reject_ok in H
    | H : match ?o with Some _ => _ | None => _ end = inl _ |- _ => destruct o eqn:?; [|done]
    end.
  repeat match goal with H : _ || _ = false |- _ => apply orb_false_iff in H as [? ?] end.
  unfold policy_unsupported in *.
  repeat match goal with H : _ || _ = false |- _ => apply orb_false_iff in H as [? ?] end.
  match goal with H : checked_add_u64 _ _ ≫= _ = Some ?n |- _ =>
    apply bind_Some in H as (wall & Hwall & Hmargin);
    unfold checked_add_u64 in Hwall, Hmargin; do 2 case_match; simplify_eq end.
  bool_facts. eexists _, _. split; try eassumption; try done; try lia.
  - intros Hallow. rewrite Hallow in *.
    match goal with H : (AllowOnce ==? AllowOnce) && _ = false |- _ => revert H end.
    rewrite bool_decide_true by done. intros Hs Hnone. by rewrite Hnone in Hs.
  - split_and!; try done. match goal with H : is_some ?o = false |- _ => by destruct o end.
Qed.
End config.

Section worker.
Context `{J : SerdeJson} {JT : JsonTree} (is_dir : string → bool).
Context {P H : Type} {HH : Harness H} {G : Type} {MG : ManagedTurnGrant G}.
Context {T : Type} {TA : TurnAdapter T} {WH : WorkerHarness (P := P) (H := H)}.
Context (source_text : FleetError → string).
Context (clock later : nat → Z) (uuid : nat → string).
Context (lease_token : nat → Db → string) (uuids : nat → nat → string).
Context (env_db : nat → Db → Db) (env_grants : nat → list G → list G).
Context (config : ContinuousWorkerConfig) (adapter : T).

Definition no_panic (e : GenerationExit) : Prop := ∀ reason, e ≠ GenerationPanicked reason.
Lemma store_no_panic {A} (wrap : FleetError → GenerationExit) (op : Z → Z → string → M A) :
  (∀ e, no_panic (wrap e)) →
  fails_with no_panic (Worker.store (H := H) clock later uuid env_db env_grants wrap op).
Proof.
  intros Hw s s' e Hs. revert Hs. apply fails_in_world. by apply fails_store.
Qed.

(** A configuration the worker accepts covers its turns: the lease it reserves
    under lasts for the turn's wall time, its cancellation drain and a minute more,
    and is never longer than an hour; permissions are granted only to a sandboxed
    plugin; the policy asks for nothing the worker does not enforce; and the
    durations whose conversion the worker takes for granted do convert, so that
    neither a reservation nor a release panics. *)
Theorem valid_config_covers_turn :
  new_worker is_dir config = inl config →
  (∃ lease retry, covers config lease retry)
  ∧ fails_with no_panic
      (reserve_one (H := H) source_text clock later uuid lease_token uuids env_db env_grants config
         adapter)
  ∧ ∀ invocation reason,
      fails_with no_panic
        (release_or_exit (H := H) clock later uuid env_db env_grants config invocation reason).
Proof.
  unfold new_worker. destruct (validate_config _ _) as [[]|e] eqn:Hv; [intros _|done].
  apply validate_config_covers in Hv as (lease & retry & Hc). split_and!; [eauto|..].
  - unfold reserve_one, expect_ms. rewrite (covers_lease _ _ _ Hc).
    apply fails_andthen; [intros s s' e [=]|]. intros _ s s' e Hs.
    revert Hs. apply fails_in_world. intros w w' e' Hw. unfold on_store in Hw.
    destruct (reserve_invocations_by_kind _ _ _ _ _ _ _) as [[]|]; [done|]. by injection Hw as _ <-.
  - intros invocation reason. unfold release_or_exit, expect_ms. rewrite (covers_retry _ _ _ Hc).
    apply fails_andthen; [|intros _; intros s s' e [=]].
    by intros s s' e [(a & _ & [=])|(e' & _ & [= ->])]%map_err_run.
Qed.
End worker.

Lemma valid_config_covers_turn_witness :
  new_worker (λ _, true) worker_config = inl worker_config
  ∧ ∃ lease retry, covers worker_config lease retry.
Proof.
  assert (new_worker (λ _, true) worker_config = inl worker_config) as Hn
    by (vm_compute; reflexivity).
  split; [exact Hn|].
  exact (proj1 (valid_config_covers_turn (λ _, true) (H := HarnessAcpClient script)
                  (G := MessageBroker) (TA := scripted_adapter)
                  (λ _, "store") steady steady fixed_uuid longest_token supply_at still_db
                  still_grants worker_config worker_adapter Hn)).
Defined.
