(* ===== verification/RpcProps.v ===== *)
(** * Properties of the JSON-RPC peer

    Over every interleaving of the calls, the reader, the deadlines and the
    consumer of notifications: a call that registered is answered exactly once, by
    the response with its identifier or by the failure of the peer, and waits only
    while the peer lives; notifications arrive in order, none lost. *)

From stdpp Require Import gmap.
From S2P Require Import Prelude Action Proto HarnessClient Rpc Scenario.

Section rpc.
Context `{J : SerdeJson} {JT : JsonTree} {JR : JsonRead}.

(** Identifiers that have not wrapped are distinct. *)
Lemma call_id_small call : Z.of_nat call < u64_max → call_id call = 1 + Z.of_nat call.
Proof. intros Hc. unfold call_id. apply Z.mod_small. unfold u64_modulus. lia. Qed.
Lemma call_id_inj c1 c2 :
  Z.of_nat c1 < u64_max → Z.of_nat c2 < u64_max → call_id c1 = call_id c2 → c1 = c2.
Proof. intros H1 H2. rewrite !call_id_small by done. lia. Qed.

(** The channels after a failure. *)
Lemma failed_replies (pending : gmap Z nat) (replies : gmap nat Reply) reply :
  let after := map_fold (λ _ call m, <[call := reply]> m) replies pending in
  (∀ id c, pending !! id = Some c → after !! c = Some reply)
  ∧ (∀ c, (∀ id, pending !! id ≠ Some c) → after !! c = replies !! c).
Proof.
  apply (map_fold_weak_ind (λ (m : gmap nat Reply) (pend : gmap Z nat),
    (∀ id c, pend !! id = Some c → m !! c = Some reply)
    ∧ (∀ c, (∀ id, pend !! id ≠ Some c) → m !! c = replies !! c))).
  - split; [|done]. intros id c. by rewrite lookup_empty.
  - intros i x m r Hi [IH1 IH2]. split.
    + intros id c Hc. destruct (decide (x = c)) as [->|Hne]; [by rewrite lookup_insert_eq|].
      rewrite lookup_insert_ne by done. apply (IH1 id).
      apply lookup_insert_Some in Hc as [[_ ->]|[_ Hc]]; done.
    + intros c Hc. rewrite lookup_insert_ne.
      * apply IH2. intros id Hid. apply (Hc id). rewrite lookup_insert_ne; [done|].
        intros ->. congruence.
      * intros ->. apply (Hc i). by rewrite lookup_insert_eq.
Qed.

Lemma fail_all_replies message p :
  (∀ id c, rp_pending p !! id = Some c →
     rp_replies (fail_all message p) !! c = Some (inr (ProtocolError message) : Reply))
  ∧ (∀ c, (∀ id, rp_pending p !! id ≠ Some c) →
       rp_replies (fail_all message p) !! c = rp_replies p !! c).
Proof. apply failed_replies. Qed.

(** ** The invariant *)

Definition notes (frames : list Frame) : list PluginNotification :=
  omap (λ f, match f with NotificationFrame n => Some n | ResponseFrame _ _ => None end) frames.

Record peer_ok (p : RpcPeer) : Prop := {
  pk_registered : ∀ c, c ∈ rp_registered p → (c < rp_issued p)%nat;
  pk_pending : ∀ id c, rp_pending p !! id = Some c →
    id = call_id c ∧ c ∈ rp_registered p ∧ rp_replies p !! c = None;
  pk_waiting : ∀ c, c ∈ rp_registered p → rp_replies p !! c = None →
    rp_pending p !! call_id c = Some c;
  pk_replies : ∀ c r, rp_replies p !! c = Some r →
    c ∈ rp_registered p
    ∧ (ResponseFrame (call_id c) r ∈ rp_frames p
       ∨ ∃ reason, r = inr (ProtocolError reason) ∧ rp_failure p ≠ None);
  pk_closed : rp_closed p = ∅;
  pk_failed : rp_failure p ≠ None → rp_pending p = ∅;
  pk_stopped : rp_reading p = false → rp_failure p ≠ None;
  pk_notes : rp_delivered p ++ rp_notifications p = notes (rp_frames p);
  pk_buffer : (length (rp_notifications p) ≤ NOTIFICATION_BUFFER)%nat;
}.
Definition fresh_ids (p : RpcPeer) : Prop := Z.of_nat (rp_issued p) < u64_max.

Lemma peer_ok_new : peer_ok new_peer.
Proof.
  split; simpl; try done. unfold NOTIFICATION_BUFFER. lia.
Qed.
Lemma peer_ok_draw p : peer_ok p → peer_ok (draw_id p).
Proof. intros []. split; simpl; try done. intros c Hc. specialize (pk_registered0 c Hc). lia. Qed.
Lemma peer_ok_register p c :
  fresh_ids p → (c < rp_issued p)%nat → c ∉ rp_registered p → peer_ok p → peer_ok (register c p).1.
Proof.
  intros Hfresh Hc Hnew Hp. unfold register. destruct (rp_failure p) eqn:Hf; [done|].
  assert (rp_pending p !! call_id c = None) as Hfree.
  { destruct (rp_pending p !! call_id c) as [c'|] eqn:Hl; [|done]. exfalso.
    apply (pk_pending _ Hp) in Hl as (Hid & Hr & _). apply (pk_registered _ Hp) in Hr as Hlt.
    apply call_id_inj in Hid as ->; unfold fresh_ids in Hfresh; [done|lia|lia]. }
  assert (rp_replies p !! c = None) as Hnone.
  { destruct (rp_replies p !! c) as [r|] eqn:Hl; [|done]. by apply (pk_replies _ Hp) in Hl as [? _]. }
  destruct Hp. split; simpl; try done.
  - set_solver.
  - intros id c' [[<- <-]|[Hne Hl]]%lookup_insert_Some; [set_solver|].
    apply pk_pending0 in Hl as (? & ? & ?). set_solver.
  - intros c' [->%elem_of_singleton|Hin]%elem_of_union Hr; [by rewrite lookup_insert_eq|].
    rewrite lookup_insert_ne; [by apply pk_waiting0|]. intros Heq.
    apply call_id_inj in Heq as ->; [done|..]; unfold fresh_ids in Hfresh.
    + lia.
    + apply pk_registered0 in Hin. lia.
  - intros c' r Hl. destruct (pk_replies0 c' r Hl) as [? [?|(reason & ? & ?)]]; set_solver.
  - by rewrite Hfree.
  - intros Hr. by apply pk_stopped0 in Hr.
Qed.
Lemma peer_ok_fail p message : peer_ok p → peer_ok (fail_all message p).
Proof.
  intros Hp. destruct (fail_all_replies message p) as [Hin Hout].
  assert (∀ c, rp_replies p !! c ≠ None → (∀ id, rp_pending p !! id ≠ Some c)) as Hans.
  { intros c Hc id Hid. by apply (pk_pending _ Hp) in Hid as (_ & _ & ?). }
  assert (∀ c, (∃ id, rp_pending p !! id = Some c) ∨ ∀ id, rp_pending p !! id ≠ Some c) as Hdec.
  { intros c. destruct (decide (rp_pending p !! call_id c = Some c)) as [Hy|Hn]; [eauto|].
    right. intros id Hid. apply (pk_pending _ Hp) in Hid as Hd. destruct Hd as [-> _]. done. }
  destruct Hp. split; try done.
  - intros c Hc Hnone. destruct (Hdec c) as [[id Hid]|Hno]; [by rewrite (Hin _ _ Hid) in Hnone|].
    rewrite (Hout c Hno) in Hnone. by apply pk_waiting0, Hno in Hnone.
  - intros c r Hl. destruct (Hdec c) as [[id Hid]|Hno].
    + rewrite (Hin _ _ Hid) in Hl. injection Hl as <-. apply pk_pending0 in Hid as (_ & ? & _).
      split; [done|]. right. eauto.
    + rewrite (Hout c Hno) in Hl. apply pk_replies0 in Hl as [? [?|(reason & ? & _)]]; eauto.
Qed.
Lemma peer_ok_stop p : rp_failure p ≠ None → peer_ok p → peer_ok (stop_reading p).
Proof. intros Hf []. by split. Qed.
Lemma notes_snoc frames f :
  notes (frames ++ [f]) = notes frames ++ match f with NotificationFrame n => [n] | _ => [] end.
Proof. unfold notes. rewrite omap_app. by destruct f. Qed.
Lemma peer_ok_frame p frame p' : peer_ok p → handle_frame frame p = inl p' → peer_ok p'.
Proof.
  intros Hp H. unfold handle_frame in H. destruct (parse_frame frame) as [[n|id reply]|e]; [| |done];
    simpl in H.
  - unfold notify_frame in H. destruct (_ <=? _)%nat eqn:Hle; [done|]. injection H as <-.
    apply Nat.leb_gt in Hle. destruct Hp. split; simpl; try done.
    + intros c r Hl. destruct (pk_replies0 c r Hl) as [? [?|?]]; [|by eauto].
      split; [done|]. left. apply elem_of_app. by left.
    + by rewrite notes_snoc, app_assoc, pk_notes0.
    + rewrite length_app. simpl. lia.
  - unfold answer_frame in H. destruct (rp_pending p !! id) as [c|] eqn:Hl; [|done].
    injection H as <-. pose proof (pk_pending _ Hp id c Hl) as (Hid & Hreg & Hnone). subst id.
    destruct Hp. split; simpl; try done.
    + intros id c' [Hne Hl']%lookup_delete_Some. apply pk_pending0 in Hl' as (-> & ? & ?).
      split_and!; [done..|]. rewrite lookup_insert_ne; [done|]. by intros ->.
    + intros c' Hc' [Hr Hne]%lookup_insert_None. specialize (pk_waiting0 c' Hc' Hr).
      rewrite lookup_delete_ne; [done|]. intros Heq. rewrite <-Heq in pk_waiting0. congruence.
    + intros c' r [[<- <-]|[Hne Hl']]%lookup_insert_Some.
      * split; [done|]. left. apply elem_of_app. right. by left.
      * destruct (pk_replies0 c' r Hl') as [? [?|?]]; [|by eauto].
        split; [done|]. left. apply elem_of_app. by left.
    + intros Hf. rewrite (pk_failed0 Hf) in Hl. by rewrite lookup_empty in Hl.
    + by rewrite notes_snoc, app_nil_r.
Qed.
Lemma peer_ok_line p line : peer_ok p → peer_ok (read_line line p).
Proof.
  intros Hp. destruct line as [frame|error|]; simpl.
  - destruct (handle_frame frame p) as [p'|error] eqn:Hh; [by eapply peer_ok_frame|].
    apply peer_ok_stop; [done|]. by apply peer_ok_fail.
  - apply peer_ok_stop; [done|]. by apply peer_ok_fail.
  - apply peer_ok_stop; [done|]. by apply peer_ok_fail.
Qed.
Lemma next_peer p :
  (next_notification p).1 = p
  ∨ ∃ n rest, rp_notifications p = n :: rest ∧ (next_notification p).1 = (take_notification p).2.
Proof.
  unfold next_notification, take_notification.
  destruct (rp_notifications p) as [|n rest]; [left; by destruct (rp_reading p)|right; eauto].
Qed.
Lemma peer_ok_next p : peer_ok p → peer_ok (next_notification p).1.
Proof.
  intros Hp. destruct (next_peer p) as [->|(n & rest & Hn & ->)]; [done|].
  unfold take_notification. rewrite Hn. simpl. destruct Hp. rewrite Hn in *.
  split; simpl; try done; [|simpl in *; lia]. by rewrite <-app_assoc.
Qed.

Lemma step_issued p p' : rpc_step p p' → (rp_issued p ≤ rp_issued p')%nat.
Proof.
  destruct 1; simpl; try lia.
  - unfold register. by destruct (rp_failure p).
  - destruct line as [frame|error|]; simpl; try done.
    unfold handle_frame, notify_frame, answer_frame.
    destruct (parse_frame frame) as [[n|id reply]|e]; cbn [then_]; try done.
    + by destruct (_ <=? _)%nat.
    + by destruct (rp_pending p !! id).
  - destruct (next_peer p) as [->|(n & rest & Hn & ->)]; [done|].
    unfold take_notification. by rewrite Hn.
Qed.
Lemma step_peer_ok p p' : fresh_ids p → rpc_step p p' → peer_ok p → peer_ok p'.
Proof.
  intros Hf Hs Hp. destruct Hs.
  - by apply peer_ok_draw.
  - by apply peer_ok_register.
  - by apply peer_ok_line.
  - by apply peer_ok_fail.
  - by apply peer_ok_fail.
  - by apply peer_ok_next.
Qed.
Lemma run_issued p p' : rpc_run p p' → (rp_issued p ≤ rp_issued p')%nat.
Proof. induction 1 as [|p p1 p2 Hs _ IH]; [lia|]. apply step_issued in Hs. lia. Qed.
Lemma run_peer_ok p p' : rpc_run p p' → fresh_ids p' → peer_ok p → peer_ok p'.
Proof.
  intros Hrun. induction Hrun as [|p p1 p2 Hs Hrun IH]; [done|]. intros Hf Hp. apply IH; [done|].
  apply step_peer_ok with p; [|done..]. pose proof (step_issued _ _ Hs).
  pose proof (run_issued _ _ Hrun). unfold fresh_ids in *. lia.
Qed.

(** ** A reply is final *)

Lemma step_reply p p' c r :
  peer_ok p → rpc_step p p' → rp_replies p !! c = Some r → rp_replies p' !! c = Some r.
Proof.
  intros Hp Hs Hl.
  assert (∀ message, rp_replies (fail_all message p) !! c = Some r) as Hfail.
  { intros message. destruct (fail_all_replies message p) as [_ Hout]. rewrite Hout; [done|].
    intros id Hid. apply (pk_pending _ Hp) in Hid as (_ & _ & ?). congruence. }
  destruct Hs; simpl; try done.
  - unfold register. by destruct (rp_failure p).
  - destruct line as [frame|error|]; try apply Hfail. simpl.
    unfold handle_frame, notify_frame, answer_frame.
    destruct (parse_frame frame) as [[n|id reply]|e]; cbn [then_]; [| |apply Hfail].
    + destruct (_ <=? _)%nat; [apply Hfail|done].
    + destruct (rp_pending p !! id) as [c'|] eqn:Hid; [|apply Hfail]. simpl.
      rewrite lookup_insert_ne; [done|]. intros ->.
      apply (pk_pending _ Hp) in Hid as (_ & _ & ?). congruence.
  - apply Hfail.
  - apply Hfail.
  - destruct (next_peer p) as [->|(n & rest & Hn & ->)]; [done|].
    unfold take_notification. by rewrite Hn.
Qed.
Lemma run_reply p p' c r :
  rpc_run p p' → fresh_ids p' → peer_ok p → rp_replies p !! c = Some r →
  rp_replies p' !! c = Some r.
Proof.
  intros Hrun. induction Hrun as [|p p1 p2 Hs Hrun IH]; [done|]. intros Hf Hp Hl.
  assert (fresh_ids p) as Hf0.
  { pose proof (step_issued _ _ Hs). pose proof (run_issued _ _ Hrun). unfold fresh_ids in *. lia. }
  apply IH; [done|by eapply step_peer_ok|by eapply step_reply].
Qed.

(** C40 Calls and answers of a plugin connection correspond.  Until the identifiers
    run out, whatever is interleaved: a reply that reached a call is final and is
    either the response the plugin sent with the call's identifier or the failure of
    the peer; a registered call without a reply waits under its identifier at a peer
    that has not failed and still reads, so that a dead or failed plugin leaves no
    call waiting; no call loses its channel; and the notifications are handed out
    in the order the plugin sent them, none lost or repeated, with at most 256
    buffered. *)
Theorem calls_answered_once p p' :
  live_peer p → rpc_run p p' → Z.of_nat (rp_issued p') < u64_max →
  (∀ c r, rp_replies p !! c = Some r → rp_replies p' !! c = Some r)
  ∧ (∀ c, c ∈ rp_registered p' →
       match rp_replies p' !! c with
       | Some r => ResponseFrame (call_id c) r ∈ rp_frames p'
                   ∨ ∃ reason, r = inr (ProtocolError reason) ∧ rp_failure p' ≠ None
       | None => rp_pending p' !! call_id c = Some c ∧ rp_failure p' = None ∧ rp_reading p' = true
       end)
  ∧ rp_closed p' = ∅
  ∧ rp_delivered p' ++ rp_notifications p' = notes (rp_frames p')
  ∧ (length (rp_notifications p') ≤ NOTIFICATION_BUFFER)%nat.
Proof.
  intros Hlive Hrun Hfresh.
  assert (fresh_ids p) as Hf0.
  { pose proof (run_issued _ _ Hrun). unfold fresh_ids in *. lia. }
  pose proof (run_peer_ok _ _ Hlive Hf0 peer_ok_new) as Hp.
  pose proof (run_peer_ok _ _ Hrun Hfresh Hp) as Hp'. split_and!.
  - intros c r Hl. by eapply run_reply.
  - intros c Hc. destruct (rp_replies p' !! c) as [r|] eqn:Hl; [by apply (pk_replies _ Hp') in Hl as [_ ?]|].
    pose proof (pk_waiting _ Hp' c Hc Hl) as Hw.
    assert (rp_failure p' = None) as Hnf.
    { destruct (rp_failure p') eqn:Hf; [|done]. rewrite (pk_failed _ Hp') in Hw by congruence.
      by rewrite lookup_empty in Hw. }
    split_and!; [done..|]. destruct (rp_reading p') eqn:Hr; [done|].
    by apply (pk_stopped _ Hp') in Hr.
  - apply Hp'.
  - apply Hp'.
  - apply Hp'.
Qed.
End rpc.

(** ** A concrete connection *)

(** Two calls; a notification, the response to the second, and then the plugin
    closes its output: the first call is answered with the failure. *)
#[local] Instance plain_read : JsonRead := {|
  json_is_object v := match decode_object v with Some _ => true | None => false end;
  json_as_u64 v :=
    match v with
    | String n (String d EmptyString) =>
        if n ==? Ascii.ascii_of_N 110 then Some (Z.of_N (Ascii.N_of_ascii d) - 48) else None
    | _ => None
    end;
  json_as_i64 _ := None;
  json_error_text _ := "not JSON";
|}.
Definition plugin_notice : string :=
  encode_object [("jsonrpc", "s2.0"); ("method", "sharness.acp.turn.event"); ("params", "{}")].
Definition plugin_answer : string :=
  encode_object [("jsonrpc", "s2.0"); ("id", "n2"); ("result", "t")].
Definition called_peer : RpcPeer := (register 1 (register 0 (draw_id (draw_id new_peer))).1).1.
Definition answered_peer : RpcPeer :=
  read_line (Text plugin_answer) (read_line (Text plugin_notice) called_peer).
Definition closed_peer : RpcPeer := read_line EndOfStream answered_peer.

Lemma live_answered : live_peer answered_peer.
Proof.
  unfold live_peer, answered_peer, called_peer.
  do 2 (eapply rtc_r; [|apply step_line; vm_compute; reflexivity]).
  eapply rtc_r; [|apply step_register; [apply Nat.ltb_lt; reflexivity| |done]].
  - eapply rtc_r; [|apply step_register; [apply Nat.ltb_lt; reflexivity| |done]].
    + do 2 (eapply rtc_r; [|apply step_draw]). apply rtc_refl.
    + by apply not_elem_of_empty.
  - apply (bool_decide_eq_true_1 (1%nat ∉ rp_registered _)). vm_compute. reflexivity.
Qed.
Lemma calls_answered_once_witness :
  rp_replies closed_peer !! 1%nat = Some (inl "t")
  ∧ (0%nat ∈ rp_registered closed_peer
     → match rp_replies closed_peer !! 0%nat with
       | Some r => ResponseFrame (call_id 0) r ∈ rp_frames closed_peer
                   ∨ ∃ reason, r = inr (ProtocolError reason) ∧ rp_failure closed_peer ≠ None
       | None => rp_pending closed_peer !! call_id 0 = Some 0%nat
                 ∧ rp_failure closed_peer = None ∧ rp_reading closed_peer = true
       end).
Proof.
  destruct (calls_answered_once answered_peer closed_peer live_answered) as (Hfinal & Hall & _).
  - apply rtc_once. apply step_line. vm_compute. reflexivity.
  - vm_compute. reflexivity.
  - split; [apply Hfinal; vm_compute; reflexivity|exact (Hall 0%nat)].
Defined.
