(* ===== verification/EgressProps.v ===== *)
(** * What a validated egress contract guarantees

    An endpoint that was accepted is encrypted or stays on the machine and
    carries no credential, a header came from a file only its owner can read,
    and every bound of the exporter lies in its range. *)

From stdpp Require Import gmap.
From S2P Require Import Prelude Action Proto Schema Auth Observations Sessions HarnessClient.
From S2P Require Import Supervisor Egress.

Lemma got_ok {A B} (r : A + string) (k : A → B + string) b :
  got r k = inl b → ∃ a, r = inl a ∧ k a = inl b.
Proof. destruct r; simpl; [eauto|done]. Qed.

(** Takes [got] and [;:] chains that succeeded apart. *)
Ltac got_inv :=
  repeat match goal with
  | H : got _ _ = inl _ |- _ => apply got_ok in H as (? & ? & ?)
  | H : (_ ;: _) = inl _ |- _ => apply both_ok in H as [[? ?] ?]
  | H : reject _ _ = inl _ |- _ => apply reject_ok in H
  end.

(** ** Strings *)

Lemma strip_prefix_ok p s rest : strip_prefix p s = Some rest → s = p +:+ rest.
Proof.
  revert s. induction p as [|a p IH]; intros s; [by intros [= ->]|].
  destruct s as [|b s]; [done|]. simpl. destruct (a ==? b) eqn:Hab; [|done].
  bool_facts. intros ->%IH. subst. reflexivity.
Qed.
Lemma split_scheme_ok s before after :
  split_scheme s = Some (before, after) → s = before +:+ "://" +:+ after.
Proof.
  revert before. induction s as [|a s IH]; intros before Hs.
  - by vm_compute in Hs.
  - change (match strip_prefix "://" (String a s) with
            | Some rest => Some ("", rest)
            | None => '(before, after) ← split_scheme s; Some (String a before, after)
            end = Some (before, after)) in Hs.
    destruct (strip_prefix "://" (String a s)) as [rest|] eqn:Hp.
    + injection Hs as <- <-. by apply strip_prefix_ok in Hp.
    + destruct (split_scheme s) as [[b t]|]; [|done]. injection Hs as <- <-.
      change (String a s = String a (b +:+ "://" +:+ t)). f_equal. by apply IH.
Qed.

(** ** Endpoints *)

Lemma validate_endpoint_ok endpoint u :
  validate_endpoint endpoint = inl u →
  ∃ scheme rest, endpoint = scheme +:+ "://" +:+ rest
    ∧ (scheme = "https" ∨ scheme = "http" ∧ is_loopback (host_of (authority_of rest)) = true)
    ∧ authority_of rest ≠ ""
    ∧ Forall (λ c, contains_char c rest = false) [AT_SIGN; QUESTION; HASH].
Proof.
  unfold validate_endpoint. destruct (split_scheme endpoint) as [[scheme rest]|] eqn:Hs; [|done].
  intros H. got_inv. apply split_scheme_ok in Hs as ->.
  exists scheme, rest. bool_facts.
  split_and!; [done| |done|by repeat constructor].
  destruct (scheme !=? "https") eqn:Hh; bool_facts; [right|by left].
  rewrite andb_true_r in *. by destruct (is_loopback _); bool_facts.
Qed.

(** ** Headers *)

(** The line states the header. *)
Definition states_header (name value line : string) : Prop :=
  ∃ n v, split_once COLON (trim line) = Some (n, v) ∧ name = trim n ∧ value = trim v ∧ name ≠ "".

Lemma header_lines_stated lines number headers found name value :
  header_lines lines number headers = inl found → found !! name = Some value →
  headers !! name = Some value ∨ ∃ line, line ∈ lines ∧ states_header name value line.
Proof.
  revert number headers. induction lines as [|line lines IH]; intros number headers Hl Hv.
  { injection Hl as <-. by left. }
  simpl in Hl. destruct (header_line line number headers) as [next|] eqn:Hh; [|done].
  destruct (IH _ _ Hl Hv) as [Hn|(l & ? & ?)]; [|right; exists l; set_solver].
  unfold header_line in Hh. destruct (_ || _); [injection Hh as <-; by left|].
  destruct (split_once COLON (trim line)) as [[n v]|] eqn:Hc; [|done].
  destruct (trim n ==? "") eqn:He; [done|]. bool_facts.
  destruct (headers !! trim n); [done|]. injection Hh as <-.
  apply lookup_insert_Some in Hn as [[<- <-]|[_ ?]]; [|by left].
  right. exists line. split; [set_solver|]. by exists n, v.
Qed.

Section contract.
Context (file_mode : string → Z + string) (file_text : string → string + string).

Lemma read_headers_file_ok path headers :
  read_headers_file file_mode file_text path = inl headers →
  is_absolute path = true
  ∧ (∃ mode, file_mode path = inl mode ∧ Z.land mode 63 = 0)
  ∧ ∃ text, file_text path = inl text
    ∧ ∀ name value, headers !! name = Some value →
      ∃ line, line ∈ split_lines text ∧ states_header name value line.
Proof.
  unfold read_headers_file. intros H. destruct (is_absolute path); [|done]. simpl in H.
  destruct (file_mode path) as [mode|]; [|done].
  destruct (Z.land (Z.land mode 511) 63 !=? 0) eqn:Hm; [done|].
  destruct (file_text path) as [text|]; [|done]. bool_facts.
  split_and!; [done| |].
  - exists mode. split; [done|]. by rewrite <- Z.land_assoc in Hm.
  - exists text. split; [done|]. intros name value Hv.
    by destruct (header_lines_stated _ _ _ _ _ _ H Hv) as [?|?].
Qed.
End contract.

(** ** Classes and attributes *)

Lemma class_names_found name class :
  List.find (λ class, class_as_str class ==? name) all_classes = Some class →
  name = class_as_str class ∧ class_as_str class ∈ every_class.
Proof.
  intros Hf. split; [apply find_some in Hf as [_ Hf]; by bool_facts|].
  apply elem_of_sort_by, list_elem_of_fmap. exists class. split; [done|].
  by destruct class; repeat (left + right).
Qed.
Lemma select_classes_ok names selected found :
  select_classes selected names = inl found → NoDup selected →
  NoDup found ∧ ∀ n, n ∈ found ↔ n ∈ selected ∨ n ∈ names.
Proof.
  revert selected. induction names as [|name names IH]; intros selected; cbn [select_classes].
  { intros [= <-] ?. split; [done|]. set_solver. }
  destruct (List.find (λ class, class_as_str class ==? name) all_classes) as [class|] eqn:Hf; [|done].
  destruct (class_names_found _ _ Hf) as [-> _].
  destruct (bool_decide _) eqn:Hd; [done|]. bool_facts. intros H Hn.
  destruct (IH _ H) as [? Hin].
  { rewrite sort_insert_perm. by apply NoDup_cons. }
  split; [done|]. intros n. rewrite Hin, sort_insert_perm, !elem_of_cons. naive_solver.
Qed.
Lemma select_classes_known names selected found :
  select_classes selected names = inl found → names ⊆ every_class.
Proof.
  revert selected. induction names as [|name names IH]; intros selected; cbn [select_classes]; [set_solver|].
  destruct (List.find (λ class, class_as_str class ==? name) all_classes) as [class|] eqn:Hf; [|done].
  destruct (class_names_found _ _ Hf) as [-> ?]. destruct (bool_decide _); [done|].
  intros ?%IH. set_solver.
Qed.

Lemma validate_attributes_ok attributes u :
  validate_attributes attributes = inl u →
  Forall (λ kv : string * string, is_blank (fst kv) = false ∧ fst kv ∉ RESERVED_RESOURCE_KEYS
    ∧ (str_len (fst kv) ≤ MAX_RESOURCE_BYTES)%Z ∧ (str_len (snd kv) ≤ MAX_RESOURCE_BYTES)%Z)
    attributes.
Proof.
  induction attributes as [|[key value] attributes IH]; simpl; [by constructor|].
  intros H. got_inv. bool_facts. constructor; [simpl|by auto].
  split_and!; [done|done|lia|lia].
Qed.

Lemma bounded_field_ok supplied default low high name v :
  bounded_field supplied default low high name = inl v →
  (low ≤ high → low ≤ v ≤ high)%Z ∧ (supplied = None → v = Z.min default high).
Proof.
  unfold bounded_field. destruct (_ <? low) eqn:Hl; [done|]. bool_facts.
  intros [= <-]. split; [lia|]. by intros ->.
Qed.

Lemma content_parse_full level : content_parse level = Some ContentFull → level = "full".
Proof. intros Hf%find_some. destruct Hf as [_ Hf]. by bool_facts. Qed.
Lemma validate_classifications_ok names found :
  validate_classifications names = inl found →
  NoDup found ∧ found ≠ [] ∧ found ⊆ every_class ∧ ∀ n, n ∈ found ↔ n ∈ names.
Proof.
  destruct names as [|name names]; [done|]. unfold validate_classifications. intros H.
  destruct (select_classes_ok _ _ _ H ltac:(by constructor)) as [Hn Hin].
  assert (∀ n, n ∈ found ↔ n ∈ name :: names) as Heq by (intros n; rewrite Hin; set_solver).
  split_and!; [done| | |done].
  - intros ->. eapply not_elem_of_nil, (Heq name). by left.
  - intros n ?%Heq. by apply (select_classes_known _ _ _ H).
Qed.
Lemma every_class_ok : NoDup every_class ∧ every_class ≠ [].
Proof. split; [|done]. by apply (bool_decide_eq_true_1 (NoDup every_class)). Qed.
Lemma validate_resource_attributes_ok attributes u :
  validate_resource_attributes attributes = inl u →
  (size attributes ≤ MAX_RESOURCE_ATTRIBUTES)%nat
  ∧ ∀ key, key ∈ RESERVED_RESOURCE_KEYS → attributes !! key = None.
Proof.
  unfold validate_resource_attributes. intros H. got_inv. bool_facts. split.
  - by apply Nat.ltb_ge.
  - intros key Hk. destruct (attributes !! key) as [value|] eqn:Hv; [|done].
    match goal with H : validate_attributes _ = inl _ |- _ => apply validate_attributes_ok in H as Hf end.
    rewrite Forall_forall in Hf. destruct (Hf (key, value)) as (_ & Hr & _); [|done].
    by apply elem_of_sort_by, elem_of_map_to_list.
Qed.

(** ** The contract *)

(** What [validate_egress] accepts cannot send a trajectory in the clear: the
    endpoint is https, or plain http to a loopback host, and carries neither
    credentials nor a query or fragment.  Every header comes from a line of an
    absolute file whose mode gives nothing to group or others.  Text leaves only
    when the operator asked for the full level; the classes exported are
    exactly the ones named, each once, or all of them; fleetd's own attributes
    cannot be overridden; every size and every wait is within its bound. *)
Theorem egress_contract_safe file_mode file_text request config :
  validate_egress file_mode file_text request = inl config →
  (eg_endpoint config = er_endpoint request
   ∧ ∃ scheme rest, er_endpoint request = scheme +:+ "://" +:+ rest
     ∧ (scheme = "https" ∨ scheme = "http" ∧ is_loopback (host_of (authority_of rest)) = true)
     ∧ authority_of rest ≠ ""
     ∧ Forall (λ c, contains_char c rest = false) [AT_SIGN; QUESTION; HASH])
  ∧ (∀ name value, eg_headers config !! name = Some value →
       ∃ path mode text, er_headers_file request = Some path ∧ is_absolute path = true
         ∧ file_mode path = inl mode ∧ Z.land mode 63 = 0%Z ∧ file_text path = inl text
         ∧ ∃ line, line ∈ split_lines text ∧ states_header name value line)
  ∧ (eg_content config = ContentFull → er_content request = Some "full")
  ∧ NoDup (eg_classifications config) ∧ eg_classifications config ≠ []
  ∧ eg_classifications config ⊆ every_class
  ∧ (∀ class, class ∈ eg_classifications config ↔
       class ∈ coalesce (er_classifications request) every_class)
  ∧ (size (eg_resource_attributes config) ≤ MAX_RESOURCE_ATTRIBUTES)%nat
  ∧ (∀ key, key ∈ RESERVED_RESOURCE_KEYS → eg_resource_attributes config !! key = None)
  ∧ (1 ≤ eg_max_attribute_bytes config ≤ MAX_ATTRIBUTE_BYTES)%Z
  ∧ (1 ≤ eg_queue_capacity config ≤ MAX_QUEUE_CAPACITY)%Z
  ∧ (1000000 ≤ eg_export_timeout config ≤ MAX_EXPORT_TIMEOUT_MS * 1000000)%Z
  ∧ (0 ≤ eg_shutdown_flush config ≤ MAX_FLUSH_MS * 1000000)%Z.
Proof.
  unfold validate_egress. intros H. got_inv.
  repeat match goal with
  | H : bounded_field _ _ _ _ _ = inl _ |- _ => apply bounded_field_ok in H as [? _]
  end.
  match goal with H : inl _ = inl config |- _ => injection H as <- end. simpl.
  apply validate_resource_attributes_ok in H5 as [? ?].
  assert (NoDup x4 ∧ x4 ≠ [] ∧ x4 ⊆ every_class
    ∧ ∀ n, n ∈ x4 ↔ n ∈ coalesce (er_classifications request) every_class) as (? & ? & ? & ?).
  { destruct (er_classifications request); [by apply validate_classifications_ok|].
    injection H4 as <-. by destruct every_class_ok. }
  unfold MAX_ATTRIBUTE_BYTES, MAX_QUEUE_CAPACITY, MAX_EXPORT_TIMEOUT_MS, MAX_FLUSH_MS in *.
  split_and!; try done; try lia.
  - by apply validate_endpoint_ok in H1.
  - intros name value Hv. destruct (er_headers_file request) as [path|];
      [|by injection H2 as <-; rewrite lookup_empty in Hv].
    apply read_headers_file_ok in H2 as (? & (mode & ? & ?) & text & ? & Hl).
    exists path, mode, text. eauto 10.
  - intros ->. destruct (er_content request) as [level|]; [|done].
    destruct (content_parse level) as [c|] eqn:Hc; [|done]. injection H3 as ->.
    by rewrite (content_parse_full _ Hc).
Qed.
(** Plain http to loopback with a headers file; the same request to another host is
    refused. *)
Lemma egress_contract_safe_witness :
  let file_mode := λ _ : string, inl 384%Z : Z + string in
  let file_text := λ _ : string, inl "Authorization: Bearer x" : string + string in
  let request endpoint := {| er_schema_version := 1; er_kind := "otlp_http"; er_endpoint := endpoint;
    er_headers_file := Some "/etc/headers"; er_content := None;
    er_classifications := Some ["tool"; "plan"]; er_resource_attributes := ∅;
    er_max_attribute_bytes := Some 100000; er_queue_capacity := None; er_export_timeout_ms := None;
    er_shutdown_flush_ms := Some 0; er_agent_id := "agent-1" |} in
  match validate_egress file_mode file_text (request "http://127.0.0.1:4318/v1/traces") with
  | inl config =>
      NoDup (eg_classifications config) ∧ eg_classifications config = ["plan"; "tool"]
      ∧ eg_headers config !! "Authorization" = Some "Bearer x"
      ∧ eg_max_attribute_bytes config = 65536%Z
  | inr _ => False
  end
  ∧ ∃ error, validate_egress file_mode file_text (request "http://collector/v1/traces") = inr error.
Proof.
  intros file_mode file_text request. split; [|by eexists; vm_compute].
  destruct (validate_egress _ _ _) as [config|] eqn:Hv; [|by vm_compute in Hv].
  destruct (egress_contract_safe _ _ _ _ Hv) as (_ & _ & _ & ? & _).
  split; [done|]. vm_compute in Hv. by injection Hv as <-.
Defined.

(** The loopback host [[::1]] needs a port: without one the last colon taken is the
    one inside the brackets, and the endpoint is refused as remote. *)
Lemma ipv6_loopback_needs_port :
  validate_endpoint "http://[::1]:4318/v1/traces" = inl tt
  ∧ validate_endpoint "http://[::1]/v1/traces"
    = inr "egress endpoint host `[:` is not loopback, so its scheme must be https".
Proof. by vm_compute. Qed.
