(* ===== verification/WorkerFileProps.v ===== *)
(** * What a desired-state file turns into

    A file that is accepted gives a configuration the worker covers, a sandbox whose
    posture the operator spelled out, and exactly the transports it asks for; a file
    with nothing but its required fields runs with the bounded defaults. *)

From stdpp Require Import gmap.
From S2P Require Import Prelude Action Proto Schema Observations Sessions HarnessClient.
From S2P Require Import Grants Controller Supervisor Sandbox WorkerTurns Worker Egress.
From S2P Require Import EgressProps WorkerTurnProps WorkerFile Scenario.

(** ** The sandbox block *)

(** What each posture demands of the block beside it. *)
Definition posture_spelled_out (block : WorkerSandboxConfig) (posture : MacOsSeatbeltPosture) : Prop :=
  match sb_posture block with
  | WorkerSandboxPosture.Strict =>
      posture = Strict
      ∧ sb_read_access block = WorkerSandboxReadAccess.DeclaredAndSystem
      ∧ sb_network block ≠ WorkerSandboxNetwork.Unrestricted
      ∧ sb_private_state_directory block = None ∧ sb_private_temp_directory block = None
  | WorkerSandboxPosture.WriteScoped =>
      posture = WriteScoped
      ∧ sb_read_access block = WorkerSandboxReadAccess.Unrestricted
      ∧ sb_network block = WorkerSandboxNetwork.Unrestricted
      ∧ sb_read_only_directories block = []
      ∧ (∃ state temp, sb_private_state_directory block = Some state
                       ∧ sb_private_temp_directory block = Some temp)
  end.

Section sandbox_block.
Context (sha256_hex : string → string) (macos : bool).
Context (is_file is_dir : string → bool) (canonicalize : string → path + string).
Context (json_quote : string → string + string).

Lemma new_sandbox_strict w r network sandbox :
  new_sandbox sha256_hex macos is_file is_dir canonicalize json_quote w r network = inl sandbox →
  sbx_posture sandbox = Strict ∧ macos = true.
Proof.
  unfold new_sandbox, available. destruct macos; [|done]. intros H.
  repeat case_match; simplify_eq; try done; by injection H as <-.
Qed.
Lemma write_scoped_posture w sandbox :
  write_scoped sha256_hex macos is_file is_dir canonicalize json_quote w = inl sandbox →
  sbx_posture sandbox = WriteScoped ∧ macos = true.
Proof.
  unfold write_scoped, available. destruct macos; [|done]. intros H.
  repeat case_match; simplify_eq; try done; by injection H as <-.
Qed.
Lemma into_sandbox_ok block working additional sandbox :
  into_sandbox sha256_hex macos is_file is_dir canonicalize json_quote block working additional
    = inl sandbox →
  posture_spelled_out block (sbx_posture sandbox).
Proof.
  unfold into_sandbox, posture_spelled_out. destruct (sb_posture block).
  - unfold strict_seatbelt. destruct (_ !=? _) eqn:Hr; [done|]. bool_facts.
    destruct (sb_private_state_directory block), (sb_private_temp_directory block); simpl; try done.
    intros H. destruct (sb_network block); [| |done];
      destruct (new_sandbox _ _ _ _ _ _ _ _ _) eqn:Hs; simplify_eq;
      apply new_sandbox_strict in Hs as [? _]; split_and!; done.
  - unfold write_scoped_seatbelt.
    destruct (sb_read_access block !=? _) eqn:Hr; [done|].
    destruct (sb_network block !=? _) eqn:Hn; [done|]. bool_facts.
    destruct (bool_decide (sb_read_only_directories block = [])) eqn:He; [|done]. bool_facts.
    destruct (sb_private_state_directory block) as [state|],
      (sb_private_temp_directory block) as [temp|]; try done. simpl.
    destruct (write_scoped _ _ _ _ _ _ _) eqn:Hs; [|done]. intros [= <-].
    apply write_scoped_posture in Hs as [? _]. split_and!; eauto.
Qed.
End sandbox_block.

(** ** The file *)

Section file.
Context `{J : SerdeJson}.
Context (sha256_hex : string → string) (macos : bool).
Context (is_file is_dir : string → bool) (canonicalize : string → path + string).
Context (json_quote : string → string + string).
Context (start_egress : EgressConfig → unit + string) (start_broker : ResolvedMcpGrant + string).
Context (worker_error : ContinuousWorkerError → string).
Context (file_mode : string → Z + string) (file_text : string → string + string).

Local Notation runtime := (into_runtime_config sha256_hex macos is_file is_dir canonicalize json_quote).
Local Notation provision := (provision_worker sha256_hex macos is_file is_dir canonicalize
  json_quote start_egress start_broker worker_error file_mode file_text).

(** The sandbox of the process is the one the block describes, and there is none
    without a block. *)
Definition sandboxed_as (file : WorkerFileConfig) (config : ContinuousWorkerConfig) : Prop :=
  match wf_sandbox file, ps_sandbox (cw_plugin config) with
  | None, None => True
  | Some block, Some sandbox => posture_spelled_out block (sbx_posture sandbox)
  | _, _ => False
  end.
(** The exporter and the broker the file asks for, in this order. *)
Definition asked_transports (file : WorkerFileConfig) (transports : list Transport) : Prop :=
  ∃ exporter broker, transports = exporter ++ broker
  ∧ match egress_request file with
    | None => exporter = []
    | Some request => ∃ contract, exporter = [Exporter contract]
        ∧ validate_egress file_mode file_text request = inl contract
    end
  ∧ broker = if bool_decide (PUBLISH_DURABLE_MESSAGE_GRANT ∈ wf_mcp_grants file) then [Broker] else [].
Definition offers_asked (file : WorkerFileConfig) (config : ContinuousWorkerConfig) : Prop :=
  cw_mcp_grants config = wf_mcp_grants file
  ∧ (PUBLISH_DURABLE_MESSAGE_GRANT ∈ wf_mcp_grants file ↔ cw_turn_grants config ≠ [])
  ∧ cw_trajectory_sink config = is_some (wf_egress file).

Lemma into_runtime_config_ok file config :
  runtime file = inl config →
  sandboxed_as file config ∧ cw_mcp_grants config = wf_mcp_grants file
  ∧ cw_turn_grants config = [] ∧ cw_trajectory_sink config = false.
Proof.
  unfold into_runtime_config, sandboxed_as. intros H. got_inv. simplify_eq. simpl.
  destruct (wf_sandbox file) as [block|]; [|by simplify_eq]. got_inv. simplify_eq. simpl.
  split_and!; [|done..]. by eapply into_sandbox_ok.
Qed.

(** What provisioning starts is added to what ran, and the rest of the
    configuration is kept. *)
Lemma provision_egress_ok file config s s' config' :
  provision_egress start_egress file_mode file_text (egress_request file) config s = (s', inl config') →
  ∃ exporter, s' = foldl (λ s t, start_transport t s) s exporter
  ∧ match egress_request file with
    | None => exporter = []
    | Some request => ∃ contract, exporter = [Exporter contract]
        ∧ validate_egress file_mode file_text request = inl contract
    end
  ∧ config' = if egress_request file then with_sink config else config.
Proof.
  unfold provision_egress. destruct (egress_request file) as [request|].
  - destruct (validate_egress _ _ _) as [contract|] eqn:Hv; [|by intros [=]].
    destruct (start_egress contract); [|by intros [=]]. intros [= <- <-].
    exists [Exporter contract]. eauto.
  - intros [= <- <-]. by exists [].
Qed.
Lemma provision_broker_ok config s s' config' :
  provision_broker start_broker config s = (s', inl config') →
  ∃ broker, s' = foldl (λ s t, start_transport t s) s broker
  ∧ broker = (if bool_decide (PUBLISH_DURABLE_MESSAGE_GRANT ∈ cw_mcp_grants config)
              then [Broker] else [])
  ∧ if bool_decide (PUBLISH_DURABLE_MESSAGE_GRANT ∈ cw_mcp_grants config)
    then ∃ grant, config' = with_turn_grant grant config else config' = config.
Proof.
  unfold provision_broker. destruct (existsb _ _) eqn:He.
  - destruct start_broker as [grant|]; [|by intros [=]]. intros [= <- <-]. exists [Broker].
    apply existsb_exists in He as (g & Hin & Hg). bool_facts.
    rewrite <- list_elem_of_In in Hin. subst g. rewrite bool_decide_true by done. eauto.
  - intros [= <- <-]. exists []. rewrite bool_decide_false; [done|].
    intros Hin. apply not_true_iff_false in He as []. apply existsb_exists.
    exists PUBLISH_DURABLE_MESSAGE_GRANT. split; [by apply list_elem_of_In|by rewrite bool_decide_true].
Qed.
Lemma started_all transports s :
  foldl (λ s t, start_transport t s) s transports
  = {| tr_started := tr_started s ++ transports; tr_running := tr_running s ++ transports |}.
Proof.
  revert s. induction transports as [|t transports IH]; intros s; simpl.
  - by rewrite !app_nil_r; destruct s.
  - rewrite IH. simpl. by rewrite <- !app_assoc.
Qed.

(** The whole of a successful provisioning. *)
Lemma provision_ok file s s' config adapter :
  provision file s = (s', inl (config, adapter)) →
  ∃ transports plain, runtime file = inl plain ∧ turn_adapter file = inl adapter
  ∧ asked_transports file transports
  ∧ s' = {| tr_started := tr_started s ++ transports; tr_running := tr_running s ++ transports |}
  ∧ validate_config is_dir config = inl tt
  ∧ ps_sandbox (cw_plugin config) = ps_sandbox (cw_plugin plain)
  ∧ cw_permission_policy config = cw_permission_policy plain
  ∧ offers_asked file config.
Proof.
  unfold provision_worker, drop_locals. intros H.
  destruct (turn_adapter file) as [adapter'|] eqn:Ha; [|by injection H].
  destruct (runtime file) as [plain|] eqn:Hr; [|by injection H].
  destruct (into_runtime_config_ok _ _ Hr) as (_ & Hgrants & Hnone & Hsink).
  destruct (provision_egress start_egress file_mode file_text (egress_request file) plain s) as [s1 [c1|]] eqn:He;
    unfold andthen in H; rewrite He in H; [|by injection H].
  destruct (provision_broker start_broker c1 s1) as [s2 [c2|]] eqn:Hb; [|by injection H].
  unfold new_worker in H. destruct (validate_config is_dir c2) as [[]|] eqn:Hv; [|by injection H].
  unfold done_with in H. injection H as <- <- <-.
  apply provision_egress_ok in He as (exporter & -> & Hex & ->).
  apply provision_broker_ok in Hb as (broker & -> & Hbr & Hc2).
  assert (cw_mcp_grants (if egress_request file then with_sink plain else plain)
          = wf_mcp_grants file) as Hg by (by destruct (egress_request file)).
  rewrite Hg in Hbr, Hc2. exists (exporter ++ broker), plain.
  rewrite <- foldl_app, started_all.
  assert (is_some (wf_egress file) = is_some (egress_request file)) as Hsome
    by (unfold egress_request; by destruct (wf_egress file)).
  unfold offers_asked. rewrite Hsome.
  split_and!; try done; [by exists exporter, broker|..];
    destruct (bool_decide _) eqn:Hd in Hc2; bool_facts;
    first [destruct Hc2 as (grant & ?); subst c2|subst c2];
    destruct (egress_request file); simpl; try done;
    rewrite Hnone; naive_solver.
Qed.

Lemma provision_refused file s s' error :
  provision file s = (s', inr error) →
  tr_running s' = tr_running s
  ∧ ((∀ adapter, turn_adapter file ≠ inl adapter) ∨ (∀ config, runtime file ≠ inl config)
     ∨ (∃ request e, egress_request file = Some request
          ∧ validate_egress file_mode file_text request = inr e) →
     tr_started s' = tr_started s).
Proof.
  unfold provision_worker, drop_locals. intros H.
  destruct (turn_adapter file) as [adapter'|] eqn:Ha; [|by injection H as <- _].
  destruct (runtime file) as [plain|] eqn:Hr; [|by injection H as <- _].
  assert (tr_running s' = tr_running s) as Hrun by (by repeat case_match; simplify_eq).
  split; [done|]. intros [Hno|[Hno|(request & e & Hreq & He)]]; [by destruct (Hno adapter')|by destruct (Hno plain)|].
  unfold andthen, provision_egress in H. rewrite Hreq, He in H. by injection H as <- _.
Qed.

(** A file that is accepted runs as it says.  The configuration covers its turns
    (see [covers]); a permission policy that allows comes with a sandbox, the
    process is launched through the system's sandbox launcher, and the posture's
    demands (read access, network, private directories) were all written out; the
    transports running are exactly the exporter at the validated contract and the
    broker the file asks for, and turns are offered what was asked.  A file that is
    refused leaves no transport running, and when the adapter, the sandbox or the
    egress block is at fault, none was started. *)
Theorem worker_file_contract file s s' result :
  provision file s = (s', result) →
  match result with
  | inl (config, adapter) =>
      (∃ lease retry, covers config lease retry)
      ∧ sandboxed_as file config ∧ offers_asked file config ∧ turn_adapter file = inl adapter
      ∧ (cw_permission_policy config = AllowOnce →
           wf_sandbox file ≠ None ∧ (launch (cw_plugin config)).1 = MACOS_SANDBOX_EXEC)
      ∧ ∃ transports, asked_transports file transports
          ∧ s' = {| tr_started := tr_started s ++ transports;
                    tr_running := tr_running s ++ transports |}
  | inr _ =>
      tr_running s' = tr_running s
      ∧ ((∀ adapter, turn_adapter file ≠ inl adapter) ∨ (∀ config, runtime file ≠ inl config)
         ∨ (∃ request e, egress_request file = Some request
              ∧ validate_egress file_mode file_text request = inr e) →
         tr_started s' = tr_started s)
  end.
Proof.
  intros H. destruct result as [[config adapter]|error]; [|by eapply provision_refused].
  apply provision_ok in H as (transports & plain & Hr & Ha & Hasked & -> & Hv & Hs & Hp & Ho).
  apply into_runtime_config_ok in Hr as (Hbox & _). unfold sandboxed_as in *. rewrite <- Hs in Hbox.
  apply validate_config_covers in Hv as (lease & retry & Hc).
  split_and!; eauto. intros Hallow. pose proof (covers_sandbox _ _ _ Hc Hallow) as Hd.
  unfold sandbox_profile_digest, launch in *. destruct (ps_sandbox (cw_plugin config)); [|done].
  by destruct (wf_sandbox file).
Qed.

(** ** The defaults *)

(** A file with its required fields only. *)
Definition minimal_source (agent_id working_directory plugin_id executable : string)
    (kinds : list string) : WorkerFileSource :=
  {| fs_schema_version := 2; fs_agent_id := agent_id; fs_working_directory := working_directory;
     fs_additional_directories := None; fs_mcp_grants := None; fs_compatibility_digest := None;
     fs_sandbox := None; fs_instructions := None;
     fs_plugin := {| psrc_id := plugin_id; psrc_executable := executable; psrc_args := None;
                     psrc_config := None; psrc_initialize_timeout_ms := None;
                     psrc_request_timeout_ms := None; psrc_shutdown_timeout_ms := None |};
     fs_adapter := {| iac_schema_version := 1; iac_message_kinds := kinds |};
     fs_result_kind := None; fs_lease_duration_ms := None; fs_poll_interval_ms := None;
     fs_restart_backoff_ms := None; fs_pre_arm_retry_delay_ms := None; fs_turn := None;
     fs_egress := None |}.

(** The defaults are enough and safe.  A file with its required fields only,
    naming an existing absolute working directory, an agent, a plugin that exists
    and the message kinds it accepts, is accepted without starting any transport;
    its configuration is one the worker accepts and its plugin one the host accepts;
    permissions are denied, no MCP grant is offered, exactly the named kinds are
    reserved, and a lease of fifteen minutes covers a turn of ten. *)
Theorem minimal_file_runs agent_id working plugin_id executable kinds acceptance s :
  is_blank agent_id = false → (str_len agent_id ≤ 256)%Z →
  is_absolute working = true → is_dir working = true →
  validate_identifier "plugin" plugin_id = inl tt →
  is_absolute executable = true → is_file executable = true →
  exact_v1 kinds = inl acceptance →
  ∃ config adapter,
    provision (file_of_source (minimal_source agent_id working plugin_id executable kinds)) s
      = (s, inl (config, adapter))
    ∧ validate_config is_dir config = inl tt ∧ validate_spec is_file (cw_plugin config) = inl tt
    ∧ cw_permission_policy config = Deny ∧ cw_mcp_grants config = [] ∧ cw_turn_grants config = []
    ∧ cw_trajectory_sink config = false
    ∧ ea_inbound_acceptance adapter = acceptance ∧ ea_standing_instructions adapter = None
    ∧ duration_ms (cw_lease_duration config) = Some 900000%Z
    ∧ tp_wall_timeout_ms (cw_turn_policy config) = 600000%Z.
Proof.
  intros Hb Hlen Habs Hdir Hid Hexe Hfile Hkinds.
  set (file := file_of_source (minimal_source agent_id working plugin_id executable kinds)).
  assert (turn_adapter file = inl {| ea_result_kind := default_result_kind;
    ea_inbound_acceptance := acceptance; ea_standing_instructions := None |}) as Ha.
  { unfold turn_adapter. simpl. unfold new_envelope_adapter. simpl. by rewrite Hkinds. }
  destruct (runtime file) as [config|] eqn:Hr; [|done].
  assert (validate_config is_dir config = inl tt) as Hv.
  { unfold into_runtime_config in Hr. simpl in Hr. injection Hr as <-.
    unfold validate_config, validate_directory. simpl. rewrite Hb, Habs, Hdir.
    destruct (256 <? str_len agent_id) eqn:Hl; [bool_facts; lia|]. by vm_compute. }
  exists config, {| ea_result_kind := default_result_kind; ea_inbound_acceptance := acceptance;
    ea_standing_instructions := None |}.
  assert (provision file s = (s, inl (config, {| ea_result_kind := default_result_kind;
    ea_inbound_acceptance := acceptance; ea_standing_instructions := None |}))) as ->.
  { unfold provision_worker, drop_locals. rewrite Ha, Hr. unfold andthen. simpl.
    assert (cw_mcp_grants config = []) as Hg by (by injection Hr as <-).
    unfold provision_broker. rewrite Hg. simpl. unfold new_worker. by rewrite Hv. }
  injection Hr as <-. split_and!; try done.
  unfold validate_spec. simpl. by rewrite Hid, Hexe, Hfile.
Qed.
End file.

(** ** Concrete files *)

Definition some_host : string → bool := λ _, true.
Definition one_component (text : string) : path + string := inl [text].
Definition broker_grant : ResolvedMcpGrant :=
  {| mcp_name := PUBLISH_DURABLE_MESSAGE_GRANT; mcp_endpoint := Http "http://127.0.0.1:1/mcp" [] |}.
Definition provision_here : WorkerFileConfig → action Transports string (ContinuousWorkerConfig * EnvelopeTurnAdapter) :=
  provision_worker (λ s, s) true some_host some_host one_component inl (λ _, inl tt)
    (inl broker_grant) (λ _, "refused") (λ _, inl 384%Z) (λ _, inl "").

Lemma minimal_file_runs_witness :
  ∃ config adapter,
    provision_here (file_of_source (minimal_source "B" "/work" "plugin" "/bin/plugin" ["ask"]))
      no_transports = (no_transports, inl (config, adapter))
    ∧ validate_config some_host config = inl tt ∧ cw_permission_policy config = Deny
    ∧ ia_message_kinds (ea_inbound_acceptance adapter) = ["ask"].
Proof.
  pose proof (minimal_file_runs (λ s, s) true some_host some_host one_component inl (λ _, inl tt)
    (inl broker_grant) (λ _, "refused") (λ _, inl 384%Z) (λ _, inl "")
    "B" "/work" "plugin" "/bin/plugin" ["ask"]
    {| ia_schema_version := 1; ia_message_kinds := ["ask"] |} no_transports
    eq_refl ltac:(by apply Z.leb_le) eq_refl eq_refl eq_refl eq_refl eq_refl eq_refl) as Hm.
  destruct Hm as (config & adapter & H & Hv & _ & Hp & _ & _ & _ & Ha & _).
  exists config, adapter. split_and!; [exact H|exact Hv|exact Hp|]. by rewrite Ha.
Defined.

(** A sandboxed seat that allows, with an exporter and the messaging grant. *)
Definition full_file : WorkerFileConfig := file_of_source
  {| fs_schema_version := 2; fs_agent_id := "B"; fs_working_directory := "/work";
     fs_additional_directories := None; fs_mcp_grants := Some [PUBLISH_DURABLE_MESSAGE_GRANT];
     fs_compatibility_digest := None;
     fs_sandbox := Some {| ss_posture := None; ss_read_access := None;
       ss_writable_directories := None; ss_private_state_directory := None;
       ss_private_temp_directory := None; ss_read_only_directories := Some ["/usr"];
       ss_network := None |};
     fs_instructions := None;
     fs_plugin := {| psrc_id := "plugin"; psrc_executable := "/bin/plugin"; psrc_args := None;
                     psrc_config := None; psrc_initialize_timeout_ms := None;
                     psrc_request_timeout_ms := None; psrc_shutdown_timeout_ms := None |};
     fs_adapter := {| iac_schema_version := 1; iac_message_kinds := ["ask"] |};
     fs_result_kind := None; fs_lease_duration_ms := None; fs_poll_interval_ms := None;
     fs_restart_backoff_ms := None; fs_pre_arm_retry_delay_ms := None;
     fs_turn := Some {| ts_idle_timeout_ms := None; ts_wall_timeout_ms := None;
       ts_cancel_drain_timeout_ms := None; ts_interrupt_on_new_message := None;
       ts_interrupt_poll_interval_ms := None; ts_max_captured_output_bytes := None;
       ts_tool_budget := None; ts_permission_policy := Some AllowOnce |};
     fs_egress := Some {| we_schema_version := 1; we_kind := "otlp_http";
       we_endpoint := "http://127.0.0.1:4318/v1/traces"; we_headers_file := None;
       we_content := None; we_classifications := None; we_resource_attributes := ∅;
       we_max_attribute_bytes := None; we_queue_capacity := None; we_export_timeout_ms := None;
       we_shutdown_flush_ms := None |} |}.
Lemma worker_file_contract_witness :
  match provision_here full_file no_transports with
  | (s, inl (config, _)) =>
      cw_permission_policy config = AllowOnce
      ∧ (launch (cw_plugin config)).1 = MACOS_SANDBOX_EXEC ∧ length (tr_running s) = 2%nat
  | _ => False
  end.
Proof.
  destruct (provision_here full_file no_transports) as [s [[config adapter]|]] eqn:Hp;
    [|by vm_compute in Hp].
  pose proof Hp as Hfile. unfold provision_here in Hfile. apply worker_file_contract in Hfile
    as (_ & _ & _ & _ & Hallow & _).
  assert (cw_permission_policy config = AllowOnce) as Hc by (vm_compute in Hp; by injection Hp as _ <-).
  split_and!; [exact Hc|by apply Hallow|]. vm_compute in Hp. by injection Hp as <- _.
Defined.
