(* ===== verification/SeatSupervisorProps.v ===== *)
(** * Correctness of the seat supervisor

    No seat ever has two workers, nothing is left running when the supervisor stops,
    a catalog that was loaded never makes it panic, and a round that succeeds leaves
    running exactly the seats the store asks for.  The file ends with a concrete run of
    the supervisor, to which the theorems are applied. *)

From stdpp Require Import gmap.
From S2P Require Import Prelude Action Proto Schema Seats Observations Sessions HarnessClient.
From S2P Require Import Supervisor Sandbox WorkerTurns Worker Egress WorkerFile.
From S2P Require Import Lifecycle Safety System SeatProps EvidencePages EgressProps SeatSupervisor.

Section supervisor.
Context `{J : SerdeJson} {JT : JsonTree}.

(** ** What the log says *)

(** The tasks spawned and not yet joined, each with its agent. *)
Definition live_step (live : gmap nat string) (effect : SupervisionEffect) : gmap nat string :=
  match effect with
  | Spawned task agent_id _ _ => <[task := agent_id]> live
  | Joined task => delete task live
  | _ => live
  end.
Definition live_tasks (log : list SupervisionEffect) : gmap nat string := foldl live_step ∅ log.
Definition live_backend_step (live : gset string) (effect : SupervisionEffect) : gset string :=
  match effect with
  | BackendStarted id => {[id]} ∪ live
  | BackendStopped id => live ∖ {[id]}
  | _ => live
  end.
Definition live_backends (log : list SupervisionEffect) : gset string := foldl live_backend_step ∅ log.

(** A task is spawned under a number never used before, for an agent that has no
    live task; only a live task is joined; a backend is started only when it does
    not run and stopped only when it does. *)
Definition may_follow (log : list SupervisionEffect) (effect : SupervisionEffect) : Prop :=
  match effect with
  | Spawned task agent_id _ _ =>
      (∀ a r d, Spawned task a r d ∉ log) ∧ ∀ t, live_tasks log !! t ≠ Some agent_id
  | Joined task => is_Some (live_tasks log !! task)
  | BackendStarted id => id ∉ live_backends log
  | BackendStopped id => id ∈ live_backends log
  end.
Inductive orderly : list SupervisionEffect → Prop :=
| orderly_nil : orderly []
| orderly_snoc log effect : orderly log → may_follow log effect → orderly (log ++ [effect]).

Lemma live_tasks_snoc log effect : live_tasks (log ++ [effect]) = live_step (live_tasks log) effect.
Proof. unfold live_tasks, live_backends. by rewrite foldl_app. Qed.
Lemma live_backends_snoc log effect :
  live_backends (log ++ [effect]) = live_backend_step (live_backends log) effect.
Proof. unfold live_tasks, live_backends. by rewrite foldl_app. Qed.

(** At every moment of an orderly log, at most one live task for each agent. *)
Lemma orderly_prefix log log' : orderly (log ++ log') → orderly log.
Proof.
  induction log' as [|e log' IH] using rev_ind; [by rewrite app_nil_r|].
  rewrite app_assoc. inversion 1 as [Hnil|? ? Ho _ Heq].
  - by apply (f_equal length) in Hnil; rewrite length_app in Hnil; simpl in Hnil; lia.
  - apply app_inj_tail in Heq as [-> _]. by apply IH.
Qed.
Lemma orderly_exclusive log t t' a :
  orderly log → live_tasks log !! t = Some a → live_tasks log !! t' = Some a → t = t'.
Proof.
  intros Ho. revert t t' a. induction Ho as [|log effect Ho IH Hf]; intros t t' a; [done|].
  rewrite live_tasks_snoc. destruct effect as [task b r d|task|id|id]; simpl; [| |by apply IH..].
  - destruct Hf as [_ Hf]. rewrite !lookup_insert_Some.
    intros [[<- <-]|[? ?]] [[<- ?]|[? ?]]; try done; [|subst|by eapply IH].
    + by destruct (Hf t').
    + by destruct (Hf t).
  - rewrite !lookup_delete_Some. intros [_ ?] [_ ?]. by eapply IH.
Qed.

Context (is_object : Value → bool).
Context {Description : Type} (description_to_value : Description → Value + string).
Context (schema_version_of : Value → option Z) (from_value : Value → WorkerFileSource + string).
Context {B : Type} {IH : InferenceHost (Description := Description) B}.
Context (db : nat → Db) (now : nat → Z) (finished : nat → nat → bool).
Context (store_error : FleetError → string).
Context (catalog : ProfileCatalog).

Local Notation state := (Supervision (Description := Description) (B := B)).

(** ** The invariant *)

Record supervised (s : state) : Prop := {
  sv_orderly : orderly (su_log s);
  sv_fresh : ∀ t a r d, Spawned t a r d ∈ su_log s → (t < su_tasks s)%nat;
  sv_live : ∀ t a, live_tasks (su_log s) !! t = Some a ↔
    ∃ seat, su_running s !! a = Some seat ∧ rs_task seat = t;
  sv_revision : ∀ a seat, su_running s !! a = Some seat →
    ∃ d, Spawned (rs_task seat) a (rs_revision seat) d ∈ su_log s;
  sv_backends : ∀ id, id ∈ live_backends (su_log s) ↔ is_Some (su_backends s !! id);
}.
Definition keeps_supervised (s s' : state) : Prop := supervised s → supervised s'.
#[local] Instance keeps_supervised_preorder : PreOrder keeps_supervised.
Proof. split; [by intros s ?|]. intros s1 s2 s3 H1 H2 H. by apply H2, H1. Qed.

Lemma no_supervision_ok : supervised no_supervision.
Proof.
  split; simpl.
  - constructor.
  - by intros t a r d ?%not_elem_of_nil.
  - intros t a. unfold live_tasks. simpl. rewrite lookup_empty. split; [done|].
    intros (seat & H & _). by rewrite lookup_empty in H.
  - intros a seat. by rewrite lookup_empty.
  - intros id. unfold live_backends. simpl. rewrite lookup_empty. split; [set_solver|by intros []].
Qed.

(** A state that differs in what the invariant does not see. *)
Lemma supervised_as s s' :
  su_running s' = su_running s → dom (su_backends s') = dom (su_backends s) →
  su_tasks s' = su_tasks s → su_log s' = su_log s → keeps_supervised s s'.
Proof.
  intros Hr Hb Ht Hl [H1 H2 H3 H4 H5].
  split; rewrite ?Hr, ?Ht, ?Hl; try done.
  intros id. by rewrite H5, <- !elem_of_dom, Hb.
Qed.

(** ** Stopping *)

Definition removed (agent_id : string) (s : state) : state :=
  match su_running s !! agent_id with
  | Some seat =>
      log_effect (Joined (rs_task seat)) (set_running (delete agent_id (su_running s)) s)
  | None => s
  end.
Lemma remove_seat_run agent_id s : remove_seat agent_id s = (removed agent_id s, inl tt).
Proof.
  unfold remove_seat, removed, andthen, look. by destruct (su_running s !! agent_id).
Qed.
Lemma removed_running agent_id s :
  su_running (removed agent_id s) = delete agent_id (su_running s).
Proof.
  unfold removed. destruct (su_running s !! agent_id) eqn:Hs; [done|].
  by rewrite delete_id.
Qed.
Lemma removed_same agent_id s :
  su_backends (removed agent_id s) = su_backends s ∧ su_tasks (removed agent_id s) = su_tasks s
  ∧ su_looks (removed agent_id s) = su_looks s.
Proof. unfold removed. by destruct (su_running s !! agent_id). Qed.
Lemma removed_supervised agent_id s : supervised s → supervised (removed agent_id s).
Proof.
  intros Hs. unfold removed. destruct (su_running s !! agent_id) as [seat|] eqn:Hseat; [|done].
  destruct Hs as [H1 H2 H3 H4 H5]. split; simpl.
  - constructor; [done|]. exists agent_id. apply H3. eauto.
  - intros t a r d [?|[=]%list_elem_of_singleton]%elem_of_app; eauto.
  - intros t a. rewrite live_tasks_snoc. simpl. rewrite lookup_delete_Some, H3. split.
    + intros [Hne (seat' & Hs' & Ht)]. exists seat'. split; [|done].
      apply lookup_delete_Some. split; [|done]. intros <-. simplify_eq.
    + intros (seat' & [Hne Hs']%lookup_delete_Some & <-). split; [|by eauto]. intros Heq.
      apply Hne. assert (live_tasks (su_log s) !! rs_task seat' = Some a) as Ha by (apply H3; eauto).
      rewrite <- Heq in Ha. assert (live_tasks (su_log s) !! rs_task seat = Some agent_id) as Hb
        by (apply H3; eauto). by simplify_eq.
  - intros a seat' [_ Hs']%lookup_delete_Some. destruct (H4 a seat' Hs') as [d ?].
    exists d. set_solver.
  - intros id. rewrite live_backends_snoc. simpl. apply H5.
Qed.

Definition dropped (backend_id : string) (s : state) : state :=
  match su_backends s !! backend_id with
  | Some _ =>
      log_effect (BackendStopped backend_id) (set_backends (delete backend_id (su_backends s)) s)
  | None => s
  end.
Lemma remove_backend_run backend_id s : remove_backend backend_id s = (dropped backend_id s, inl tt).
Proof.
  unfold remove_backend, dropped, andthen, look. by destruct (su_backends s !! backend_id).
Qed.
Lemma dropped_backends backend_id s :
  su_backends (dropped backend_id s) = delete backend_id (su_backends s).
Proof.
  unfold dropped. destruct (su_backends s !! backend_id) eqn:Hs; [done|]. by rewrite delete_id.
Qed.
Lemma dropped_same backend_id s :
  su_running (dropped backend_id s) = su_running s ∧ su_tasks (dropped backend_id s) = su_tasks s
  ∧ su_looks (dropped backend_id s) = su_looks s.
Proof. unfold dropped. by destruct (su_backends s !! backend_id). Qed.
Lemma dropped_supervised backend_id s : supervised s → supervised (dropped backend_id s).
Proof.
  intros Hs. unfold dropped. destruct (su_backends s !! backend_id) as [backend|] eqn:Hb; [|done].
  destruct Hs as [H1 H2 H3 H4 H5]. split; simpl.
  - constructor; [done|]. by apply H5.
  - intros t a r d [?|[=]%list_elem_of_singleton]%elem_of_app; eauto.
  - intros t a. rewrite live_tasks_snoc. apply H3.
  - intros a seat Hs. destruct (H4 a seat Hs) as [d ?]. exists d. set_solver.
  - intros id. rewrite live_backends_snoc. simpl. rewrite elem_of_difference, H5, elem_of_singleton.
    destruct (decide (id = backend_id)) as [->|Hne]; [rewrite lookup_delete_eq|
      rewrite lookup_delete_ne by done]; [split; [by intros []|by intros []]|naive_solver].
Qed.

Lemma each_of_run {A} (l : list A) (f : A → supervising unit) (g : A → state → state) s :
  (∀ a s, f a s = (g a s, inl tt)) → each_of l f s = (foldl (λ s a, g a s) s l, inl tt).
Proof.
  intros Hf. revert s. induction l as [|a l IHl]; intros s; [done|]. simpl.
  unfold andthen. by rewrite Hf, IHl.
Qed.
Lemma within_each_of {A} (l : list A) (f : A → supervising unit) (R : state → state → Prop)
    `{!PreOrder R} : (∀ a, within R (f a)) → within R (each_of l f).
Proof.
  intros Hf. induction l as [|a l IHl]; simpl; [by apply within_done|]. by apply within_andthen.
Qed.

(** ** Everything keeps the invariant *)

Lemma within_remove_seat agent_id : within keeps_supervised (remove_seat (B := B) agent_id).
Proof.
  intros s s' r H Hs. rewrite remove_seat_run in H. injection H as <- _. by apply removed_supervised.
Qed.
Lemma within_remove_backend id : within keeps_supervised (remove_backend (B := B) id).
Proof.
  intros s s' r H Hs. rewrite remove_backend_run in H. injection H as <- _.
  by apply dropped_supervised.
Qed.
Lemma within_act_same (f : state → state) :
  (∀ s, su_running (f s) = su_running s ∧ dom (su_backends (f s)) = dom (su_backends s)
        ∧ su_tasks (f s) = su_tasks s ∧ su_log (f s) = su_log s) →
  within keeps_supervised (act f : supervising unit).
Proof. intros Hf s s' r [= <- _]. destruct (Hf s) as (? & ? & ? & ?). by apply supervised_as. Qed.
Lemma within_look_out : within keeps_supervised (look_out : supervising nat).
Proof. intros s s' r [= <- _]. by apply supervised_as. Qed.
(** Takes an action apart down to the operations above. *)
Ltac sup_step :=
  match goal with
  | |- within _ (andthen _ _) => apply within_andthen; [exact _| |intros ?]
  | |- within _ (look _) => apply within_look; exact _
  | |- within _ (done_with _) => apply within_done; exact _
  | |- within _ (throw _) => apply within_throw; exact _
  | |- within _ look_out => apply within_look_out
  | |- within _ (each_of _ _) => apply within_each_of; [exact _|intros ?]
  | |- within _ (remove_seat _) => apply within_remove_seat
  | |- within _ (remove_backend _) => apply within_remove_backend
  | |- within _ (act _) => by apply within_act_same
  | |- within _ (if ?b then _ else _) => destruct b
  | |- within _ (match ?x with _ => _ end) => destruct x
  end.
Ltac sup_tac := repeat sup_step.

Lemma within_retry_later id : within keeps_supervised (retry_later (B := B) now id).
Proof. unfold retry_later. sup_tac. Qed.
Lemma within_stop_seats_using id :
  within keeps_supervised (stop_seats_using_backend (B := B) id).
Proof. unfold stop_seats_using_backend. sup_tac. Qed.
Lemma within_check_backend desired id :
  within keeps_supervised (check_backend now desired id).
Proof.
  unfold check_backend. destruct (bool_decide _); [|sup_step].
  intros s s' r H Hs. apply andthen_run in H as [(backends & s1 & [= -> <-] & H)|(? & [=] & _)].
  destruct (su_backends s1 !! id) as [backend|] eqn:Hb; [|by injection H as <- _].
  apply andthen_run in H as [(n & s2 & [= <- <-] & H)|(? & [=] & _)].
  destruct (inference_health (su_looks s1) (rb_client backend)) as [client healthy].
  revert s' r H. set (s2 := Build_Supervision _ _ _ _ _ _ _).
  assert (supervised s2) as Hs2 by (revert Hs; by apply supervised_as).
  intros s' r H. apply andthen_run in H as [(? & s3 & [= <- <-] & H)|(? & [=] & _)].
  assert (supervised (set_backends (<[id := {| rb_client := client;
    rb_description := rb_description backend |}]> (su_backends s1)) s2)) as Hs3.
  { revert Hs2. apply supervised_as; try done. simpl. rewrite dom_insert_L.
    assert (id ∈ dom (su_backends s1)) by (apply elem_of_dom; eauto). set_solver. }
  destruct healthy; [by injection H as <- _|]. revert H Hs3.
  set (m := (stop_seats_using_backend id ;! remove_backend id ;! retry_later now id)).
  assert (within keeps_supervised m) as Hm.
  { unfold m. sup_tac; [apply within_stop_seats_using|apply within_retry_later]. }
  intros H Hs3. by apply (Hm _ _ _ H).
Qed.

Lemma started_supervised id (backend : RunningBackend) (s : state) :
  supervised s → su_backends s !! id = None →
  supervised (set_backends (<[id := backend]> (su_backends s)) (log_effect (BackendStarted id) s)).
Proof.
  intros [H1 H2 H3 H4 H5] Hnone. split; simpl.
  - constructor; [done|]. intros Hin%H5. rewrite Hnone in Hin. by destruct Hin.
  - intros t a r d [?|[=]%list_elem_of_singleton]%elem_of_app; eauto.
  - intros t a. rewrite live_tasks_snoc. apply H3.
  - intros a seat Hs. destruct (H4 a seat Hs) as [d ?]. exists d. set_solver.
  - intros id'. rewrite live_backends_snoc. simpl. rewrite elem_of_union, elem_of_singleton, H5.
    rewrite lookup_insert_is_Some. destruct (decide (id = id')); naive_solver.
Qed.
Lemma within_ensure_backend id : within keeps_supervised (ensure_backend now catalog id).
Proof.
  intros s s' r H Hs. unfold ensure_backend in H.
  apply andthen_run in H as [(backends & s1 & [= -> <-] & H)|(? & [=] & _)].
  destruct (su_backends s1 !! id) as [backend|] eqn:Hb; [by injection H as <- _|]. simpl in H.
  apply andthen_run in H as [(retry & s2 & [= -> <-] & H)|(? & [=] & _)].
  apply andthen_run in H as [(n & s3 & [= <- <-] & H)|(? & [=] & _)].
  destruct (match su_retry_after s2 !! id with Some at_ => _ | None => false end);
    [injection H as <- _; by revert Hs; apply supervised_as|].
  destruct (pc_inference_backends catalog !! id) as [backend|];
    [|injection H as <- _; by revert Hs; apply supervised_as].
  apply andthen_run in H as [(started & s4 & Hstart & H)|(? & [=] & _)].
  unfold start_backend in Hstart.
  apply andthen_run in Hstart as [(n & s5 & [= <- <-] & [= <- <-])|(? & [=] & _)].
  destruct (got _ _) as [running|error]; revert H; set (s4 := Build_Supervision _ _ _ _ _ _ _);
    intros H; (assert (supervised s4) as Hs4 by (revert Hs; by apply supervised_as)).
  - apply andthen_run in H as [(? & s5 & [= <- <-] & H)|(? & [=] & _)].
    apply andthen_run in H as [(? & s6 & [= <- <-] & H)|(? & [=] & _)]. injection H as <- _.
    apply (started_supervised id running) in Hs4; [|done]. revert Hs4. by apply supervised_as.
  - revert Hs4. by apply (within_retry_later _ _ _ _ H).
Qed.
Lemma within_reconcile_backends desired :
  within keeps_supervised (reconcile_backends now catalog desired).
Proof.
  unfold reconcile_backends. sup_tac; [apply within_check_backend|apply within_ensure_backend].
Qed.

(** ** Seats *)

Definition seated (configuration : AgentSeatConfiguration) (profile : RuntimeProfileFile)
    (desired : WorkerFileConfig) (s : state) : state :=
  let agent_id := asc_agent_id configuration in
  {| su_running := <[agent_id := {| rs_revision := asc_revision configuration;
                                    rs_inference_backend := rpf_inference_backend profile;
                                    rs_task := su_tasks s |}]> (su_running s);
     su_backends := su_backends s; su_retry_after := su_retry_after s;
     su_unresolved := su_unresolved s; su_tasks := S (su_tasks s); su_looks := su_looks s;
     su_log := su_log s ++ [Spawned (su_tasks s) agent_id (asc_revision configuration) desired] |}.
Lemma seated_supervised configuration profile desired s :
  supervised s → su_running s !! asc_agent_id configuration = None →
  supervised (seated configuration profile desired s).
Proof.
  intros [H1 H2 H3 H4 H5] Hnone. split; simpl.
  - constructor; [done|]. split.
    + intros a r d Hin%H2. lia.
    + intros t (seat & Hs & _)%H3. by rewrite Hnone in Hs.
  - intros t a r d [Hin%H2|Heq%list_elem_of_singleton]%elem_of_app; [lia|]. injection Heq. lia.
  - intros t a. rewrite live_tasks_snoc. simpl. rewrite lookup_insert_Some, H3. split.
    + intros [[<- <-]|[Hne (seat & Hs & Ht)]]; [eexists; by rewrite lookup_insert_eq|].
      exists seat. split; [|done]. rewrite lookup_insert_ne; [done|]. intros <-. by rewrite Hnone in Hs.
    + intros (seat & [[<- <-]|[? Hs]]%lookup_insert_Some & <-); simpl; [by left|].
      right. split; [|eauto]. destruct (H4 a seat Hs) as [d Hin%H2]. lia.
  - intros a seat [[<- <-]|[_ Hs]]%lookup_insert_Some; simpl.
    + exists desired. set_solver.
    + destruct (H4 a seat Hs) as [d ?]. exists d. set_solver.
  - intros id. rewrite live_backends_snoc. apply H5.
Qed.
Lemma start_seat_run configuration profile inference s s' r :
  start_seat is_object description_to_value schema_version_of from_value configuration profile
    inference s = (s', r) →
  (∃ desired, instantiate_profile is_object description_to_value schema_version_of from_value
                profile (asc_agent_id configuration) (asc_instructions configuration) inference
              = inl desired
     ∧ s' = seated configuration profile desired s ∧ r = inl tt)
  ∨ (∃ error, s' = s ∧ r = inr (Refused error)).
Proof.
  unfold start_seat. destruct (instantiate_profile _ _ _ _ _ _ _ _) as [desired|error].
  - unfold andthen, spawn, look, act. simpl. intros [= <- <-]. left. by exists desired.
  - intros [= <- <-]. right. eauto.
Qed.

Local Notation one_seat :=
  (reconcile_seat is_object description_to_value schema_version_of from_value finished catalog).
Lemma within_note configuration :
  within keeps_supervised (note_unresolved (B := B) (Description := Description) configuration)
  ∧ within keeps_supervised (note_resolved (B := B) (Description := Description) configuration).
Proof. unfold note_unresolved, note_resolved. split; sup_tac. Qed.
Lemma within_restart configuration profile inference :
  within keeps_supervised
    (remove_seat (asc_agent_id configuration) ;!
     start_seat is_object description_to_value schema_version_of from_value configuration profile
       inference).
Proof.
  intros s s' r H Hs. unfold andthen in H. rewrite remove_seat_run in H.
  apply start_seat_run in H as [(desired & _ & -> & _)|(error & -> & _)];
    [apply seated_supervised; [by apply removed_supervised|]|by apply removed_supervised].
  by rewrite removed_running, lookup_delete_eq.
Qed.
Lemma within_reconcile_seat configuration : within keeps_supervised (one_seat configuration).
Proof.
  destruct (within_note configuration) as [Hun Hre].
  unfold reconcile_seat. repeat first [apply within_restart | done | sup_step].
Qed.
Local Notation seats :=
  (reconcile_seats is_object description_to_value schema_version_of from_value finished catalog).
Local Notation round :=
  (reconcile is_object description_to_value schema_version_of from_value db now finished
     store_error catalog).
Lemma within_reconcile : within keeps_supervised round.
Proof.
  unfold reconcile, list_configurations, reconcile_seats, stop_unconfigured_seats,
    stop_unused_backends, drop_unused. sup_tac.
  - apply within_reconcile_backends.
  - apply within_reconcile_seat.
Qed.
(** ** Emptying maps by key *)

Lemma elem_of_keys {A} (m : gmap string A) k : k ∈ keys m ↔ is_Some (m !! k).
Proof.
  unfold keys. rewrite elem_of_sort_by, list_elem_of_fmap. split.
  - intros ([k' a] & -> & Hin%elem_of_map_to_list). eauto.
  - intros [a Ha]. exists (k, a). by rewrite elem_of_map_to_list.
Qed.
Lemma deleted_all {A} (m : gmap string A) l k :
  foldl (λ m k, delete k m) m l !! k = if bool_decide (k ∈ l) then None else m !! k.
Proof.
  revert m. induction l as [|k' l IHl]; intros m; cbn [foldl]; [by rewrite bool_decide_false by set_solver|].
  rewrite IHl. destruct (decide (k = k')) as [->|Hne].
  - rewrite lookup_delete_eq. rewrite (bool_decide_true (k' ∈ k' :: l)) by set_solver.
    by destruct (bool_decide _).
  - rewrite lookup_delete_ne by done. destruct (decide (k ∈ l));
      [rewrite !bool_decide_true by set_solver|rewrite !bool_decide_false by set_solver]; done.
Qed.
Lemma removed_all l s :
  su_running (foldl (λ s a, removed a s) s l) = foldl (λ m k, delete k m) (su_running s) l
  ∧ su_backends (foldl (λ s a, removed a s) s l) = su_backends s.
Proof.
  revert s. induction l as [|a l IHl]; intros s; [done|]. simpl.
  destruct (IHl (removed a s)) as [-> ->]. rewrite removed_running. by destruct (removed_same a s) as (-> & _).
Qed.
Lemma dropped_all l s :
  su_backends (foldl (λ s a, dropped a s) s l) = foldl (λ m k, delete k m) (su_backends s) l
  ∧ su_running (foldl (λ s a, dropped a s) s l) = su_running s.
Proof.
  revert s. induction l as [|a l IHl]; intros s; [done|]. simpl.
  destruct (IHl (dropped a s)) as [-> ->]. rewrite dropped_backends. by destruct (dropped_same a s) as (-> & _).
Qed.
Lemma emptied {A} (m : gmap string A) : foldl (λ m k, delete k m) m (keys m) = ∅.
Proof.
  apply map_eq. intros k. rewrite deleted_all, lookup_empty. destruct (bool_decide _) eqn:Hd; [done|].
  bool_facts. destruct (m !! k) eqn:Hm; [|done]. destruct Hd. apply elem_of_keys. eauto.
Qed.
Lemma stop_all_empties (s s' : state) r :
  stop_all s = (s', r) → su_running s' = ∅ ∧ su_backends s' = ∅.
Proof.
  unfold stop_all, andthen, look. rewrite (each_of_run _ _ removed) by apply remove_seat_run.
  rewrite (each_of_run _ _ dropped) by apply remove_backend_run. intros [= <- _].
  set (s1 := foldl (λ s a, removed a s) s (keys (su_running s))).
  destruct (dropped_all (keys (su_backends s1)) s1) as [-> ->].
  destruct (removed_all (keys (su_running s)) s) as [Hr _]. fold s1 in Hr.
  by rewrite Hr, !emptied.
Qed.

(** ** A round that succeeds *)

(** *** Looks and tasks are numbered upwards *)

Definition grows (s s' : state) : Prop :=
  (su_looks s ≤ su_looks s' ∧ su_tasks s ≤ su_tasks s')%nat.
#[local] Instance grows_preorder : PreOrder grows.
Proof. split; [by intros s; unfold grows|]. intros s1 s2 s3. unfold grows. lia. Qed.
Lemma removed_grows a s : grows s (removed a s).
Proof. unfold grows. by destruct (removed_same a s) as (_ & -> & ->). Qed.
Lemma dropped_grows a s : grows s (dropped a s).
Proof. unfold grows. by destruct (dropped_same a s) as (_ & -> & ->). Qed.
Ltac grow_step :=
  match goal with
  | |- within _ (andthen _ _) => apply within_andthen; [exact _| |intros ?]
  | |- within _ (each_of _ _) => apply within_each_of; [exact _|intros ?]
  | |- within _ (if ?b then _ else _) => destruct b
  | |- within _ (match ?x with _ => _ end) => destruct x
  | |- within _ (remove_seat ?a) =>
      intros ? ? ? H; rewrite remove_seat_run in H; injection H as <- _; apply removed_grows
  | |- within _ (remove_backend ?a) =>
      intros ? ? ? H; rewrite remove_backend_run in H; injection H as <- _; apply dropped_grows
  | |- within _ _ => intros ? ? ? [= <- _]; unfold grows; simpl; lia
  end.
Ltac grow_tac := repeat grow_step.
Lemma backends_grow desired : within grows (reconcile_backends now catalog desired).
Proof.
  unfold reconcile_backends, check_backend, ensure_backend, start_backend,
    stop_seats_using_backend, retry_later. grow_tac.
Qed.
Lemma seat_grows configuration : within grows (one_seat configuration).
Proof. unfold reconcile_seat, note_resolved, note_unresolved, start_seat. grow_tac. Qed.
Lemma unconfigured_grow cs :
  within grows (stop_unconfigured_seats (B := B) (Description := Description) cs).
Proof. unfold stop_unconfigured_seats. grow_tac. Qed.
Lemma unused_grow ids :
  within grows (stop_unused_backends (B := B) (Description := Description) ids).
Proof. unfold stop_unused_backends, drop_unused. grow_tac. Qed.
Lemma round_grows : within grows round.
Proof.
  unfold reconcile, list_configurations, reconcile_seats.
  repeat first [apply backends_grow | apply seat_grows | apply unconfigured_grow | apply unused_grow
               | grow_step].
Qed.

(** The task of the seat was seen unfinished between two states, or spawned between
    them. *)
Definition attended (s s' : state) (seat : RunningSeat) : Prop :=
  (∃ n, (su_looks s ≤ n < su_looks s')%nat ∧ finished n (rs_task seat) = false)
  ∨ (su_tasks s ≤ rs_task seat < su_tasks s')%nat.
Lemma attended_grows s1 s2 s3 s4 seat :
  grows s1 s2 → grows s3 s4 → attended s2 s3 seat → attended s1 s4 seat.
Proof.
  unfold grows, attended. intros ? ? [(n & ? & ?)|?]; [left; exists n; split; [lia|done]|right; lia].
Qed.

(** *** What a held seat was made from

    A configuration of the store, and the task of a seat: it was spawned with the
    worker file its profile becomes for the configuration, given what the running
    backends say of themselves. *)

Definition stored_at (n : nat) (c : AgentSeatConfiguration) : Prop :=
  ∃ r, r ∈ (db n).(agent_seat_configurations) ∧ seat_from_row r = Ok c.
Definition runs_as (s : state) (c : AgentSeatConfiguration) (seat : RunningSeat) : Prop :=
  ∃ profile inference desired,
    pc_profiles catalog !! asc_profile_id c = Some profile
    ∧ rs_revision seat = asc_revision c
    ∧ rs_inference_backend seat = rpf_inference_backend profile
    ∧ resolve_inference profile (su_backends s) = Some inference
    ∧ instantiate_profile is_object description_to_value schema_version_of from_value
        profile (asc_agent_id c) (asc_instructions c) inference = inl desired
    ∧ Spawned (rs_task seat) (asc_agent_id c) (asc_revision c) desired ∈ su_log s.
Definition provisioned (s : state) : Prop :=
  ∀ a seat, su_running s !! a = Some seat →
  ∃ n c, stored_at n c ∧ asc_agent_id c = a ∧ runs_as s c seat.
Definition keeps_provisioned (s s' : state) : Prop := provisioned s → provisioned s'.
#[local] Instance keeps_provisioned_preorder : PreOrder keeps_provisioned.
Proof. split; [by intros s ?|]. intros s1 s2 s3 H1 H2 H. by apply H2, H1. Qed.

(** The description of the backend of a seat is the same in both states. *)
Definition same_backend (s s' : state) (seat : RunningSeat) : Prop :=
  ∀ id b, rs_inference_backend seat = Some id → su_backends s !! id = Some b →
  ∃ b', su_backends s' !! id = Some b' ∧ rb_description b' = rb_description b.
Lemma same_backend_eq s s' seat : su_backends s' = su_backends s → same_backend s s' seat.
Proof. intros Heq id b _ Hb. rewrite Heq. eauto. Qed.
Lemma runs_as_frame s s' c seat :
  same_backend s s' seat → (∀ e, e ∈ su_log s → e ∈ su_log s') → runs_as s c seat → runs_as s' c seat.
Proof.
  intros Hsame Hlog (profile & inference & desired & Hp & Hv & Hb & Hres & Hi & Hin).
  exists profile, inference, desired. split_and!; try done; [|by apply Hlog].
  unfold resolve_inference in *. destruct (rpf_inference_backend profile) as [id|]; [|done].
  destruct (su_backends s !! id) as [b|] eqn:Hid; [|done]. simpl in Hres. injection Hres as <-.
  destruct (Hsame id b Hb Hid) as (b' & -> & Hd). simpl. by rewrite Hd.
Qed.
Lemma provisioned_frame s s' :
  (∀ a seat, su_running s' !! a = Some seat → su_running s !! a = Some seat ∧ same_backend s s' seat) →
  (∀ e, e ∈ su_log s → e ∈ su_log s') → keeps_provisioned s s'.
Proof.
  intros Hseats Hlog Hs a seat Hseat. destruct (Hseats a seat Hseat) as [Hold Hsame].
  destruct (Hs a seat Hold) as (n & c & Hn & Ha & Hc). exists n, c. split_and!; [done..|].
  by eapply runs_as_frame.
Qed.
Lemma provisioned_as s s' :
  su_running s' = su_running s → su_backends s' = su_backends s → su_log s' = su_log s →
  keeps_provisioned s s'.
Proof.
  intros Hr Hb Hl. apply provisioned_frame; rewrite ?Hl, ?Hr; [|done].
  intros a seat Hs. split; [done|]. by apply same_backend_eq.
Qed.
Lemma removed_backends a s : su_backends (removed a s) = su_backends s.
Proof. apply removed_same. Qed.
Lemma removed_tasks a s : su_tasks (removed a s) = su_tasks s.
Proof. apply removed_same. Qed.
Lemma removed_log a (s : state) e : e ∈ su_log s → e ∈ su_log (removed a s).
Proof. unfold removed. destruct (su_running s !! a); [|done]. simpl. set_solver. Qed.
Lemma removed_provisioned a s : keeps_provisioned s (removed a s).
Proof.
  apply provisioned_frame; [|apply removed_log]. intros a' seat. rewrite removed_running.
  intros [_ Hs]%lookup_delete_Some. split; [done|]. apply same_backend_eq. by apply removed_same.
Qed.
Lemma removed_all_provisioned l s : keeps_provisioned s (foldl (λ s a, removed a s) s l).
Proof.
  revert s. induction l as [|a l IHl]; intros s; simpl; [by intros ?|].
  intros Hs. by apply IHl, removed_provisioned.
Qed.
Lemma dropped_log id (s : state) e : e ∈ su_log s → e ∈ su_log (dropped id s).
Proof. unfold dropped. destruct (su_backends s !! id); [|done]. simpl. set_solver. Qed.
(** A backend no seat is on can go. *)
Lemma dropped_provisioned id s :
  (∀ a seat, su_running s !! a = Some seat → rs_inference_backend seat ≠ Some id) →
  keeps_provisioned s (dropped id s).
Proof.
  intros Hunused. apply provisioned_frame.
  - intros a seat. destruct (dropped_same id s) as (-> & _). intros Hs. split; [done|].
    intros id' b Hb Hid'. rewrite dropped_backends, lookup_delete_ne; [eauto|].
    intros <-. by apply (Hunused a seat Hs).
  - intros e. apply dropped_log.
Qed.

(** *** The backends *)

Lemma retry_later_provisioned id : within keeps_provisioned (retry_later (B := B) now id).
Proof.
  intros s s' r H. unfold retry_later, andthen, look_out, look, act in H. injection H as <- _.
  by apply provisioned_as.
Qed.
Lemma stop_seats_using_run id (s : state) :
  ∃ s', stop_seats_using_backend id s = (s', inl tt) ∧ keeps_provisioned s s'
  ∧ ∀ a seat, su_running s' !! a = Some seat → rs_inference_backend seat ≠ Some id.
Proof.
  unfold stop_seats_using_backend, andthen, look.
  rewrite (each_of_run _ _ removed) by apply remove_seat_run.
  set (users := filter _ (su_running s)). eexists. split; [done|].
  split; [apply removed_all_provisioned|]. intros a seat Hs Hid.
  destruct (removed_all (keys users) s) as [Hr _]. rewrite Hr, deleted_all in Hs.
  destruct (bool_decide (a ∈ keys users)) eqn:Ha; [done|]. bool_facts. apply Ha, elem_of_keys.
  exists seat. by apply map_lookup_filter_Some.
Qed.
Lemma check_backend_provisioned desired id :
  within keeps_provisioned (check_backend now desired id).
Proof.
  intros s s' r H Hs. unfold check_backend in H. destruct (bool_decide _); [|by injection H as <- _].
  apply andthen_run in H as [(backends & s1 & [= -> <-] & H)|(? & [=] & _)].
  destruct (su_backends s1 !! id) as [backend|] eqn:Hb; [|by injection H as <- _].
  apply andthen_run in H as [(n & s2 & [= <- <-] & H)|(? & [=] & _)].
  destruct (inference_health (su_looks s1) (rb_client backend)) as [client healthy].
  apply andthen_run in H as [(? & s2 & [= <- <-] & H)|(? & [=] & _)].
  match type of H with _ ?t = _ => set (s3 := t) in H end.
  assert (provisioned s3) as Hs3.
  { revert Hs. apply provisioned_frame; [|done]. intros a seat Hseat. split; [done|].
    intros id' b _ Hid'. simpl. destruct (decide (id = id')) as [<-|Hne].
    - rewrite lookup_insert_eq. eexists. split; [done|]. simpl. by simplify_eq.
    - rewrite lookup_insert_ne by done. eauto. }
  destruct healthy; [by injection H as <- _|].
  destruct (stop_seats_using_run id s3) as (s4 & Hstop & Hs4 & Hunused).
  unfold andthen in H. rewrite Hstop, remove_backend_run in H.
  apply retry_later_provisioned in H. apply H, dropped_provisioned; [done|]. by apply Hs4.
Qed.
Lemma ensure_backend_provisioned id :
  within keeps_provisioned (ensure_backend now catalog id).
Proof.
  intros s s' r H Hs. unfold ensure_backend in H.
  apply andthen_run in H as [(backends & s1 & [= -> <-] & H)|(? & [=] & _)].
  destruct (su_backends s1 !! id) as [backend|] eqn:Hb; [by injection H as <- _|]. simpl in H.
  apply andthen_run in H as [(retry & s2 & [= -> <-] & H)|(? & [=] & _)].
  apply andthen_run in H as [(n & s3 & [= <- <-] & H)|(? & [=] & _)].
  destruct (match su_retry_after s2 !! id with Some at_ => _ | None => false end);
    [injection H as <- _; by revert Hs; apply provisioned_as|].
  destruct (pc_inference_backends catalog !! id) as [backend|];
    [|injection H as <- _; by revert Hs; apply provisioned_as].
  apply andthen_run in H as [(started & s4 & Hstart & H)|(? & [=] & _)].
  unfold start_backend in Hstart.
  apply andthen_run in Hstart as [(n & s5 & [= <- <-] & [= <- <-])|(? & [=] & _)].
  destruct (got _ _) as [running|error].
  - apply andthen_run in H as [(? & s5 & [= <- <-] & H)|(? & [=] & _)].
    apply andthen_run in H as [(? & s6 & [= <- <-] & H)|(? & [=] & _)]. injection H as <- _.
    revert Hs. apply provisioned_frame; [|simpl; set_solver]. intros a seat Hseat. split; [done|].
    intros id' b _ Hid'. simpl. rewrite lookup_insert_ne; [eauto|]. intros <-. simplify_eq.
  - apply retry_later_provisioned in H. apply H. revert Hs. by apply provisioned_as.
Qed.
Lemma reconcile_backends_provisioned desired :
  within keeps_provisioned (reconcile_backends now catalog desired).
Proof.
  unfold reconcile_backends.
  repeat first [apply check_backend_provisioned | apply ensure_backend_provisioned | sup_step].
Qed.

(** *** The seats *)

(** The seat of a configuration is as the configuration wants it, given the
    backends that run. *)
Definition seat_placed (backends : gmap string (RunningBackend (Description := Description) (B := B)))
    (configuration : AgentSeatConfiguration) (running : gmap string RunningSeat) : Prop :=
  match running !! asc_agent_id configuration with
  | Some seat =>
      wants_running configuration = true
      ∧ ∃ profile, pc_profiles catalog !! asc_profile_id configuration = Some profile
          ∧ rs_revision seat = asc_revision configuration
          ∧ rs_inference_backend seat = rpf_inference_backend profile
          ∧ ∀ id, rpf_inference_backend profile = Some id → is_Some (backends !! id)
  | None =>
      wants_running configuration = true →
      ∀ profile, pc_profiles catalog !! asc_profile_id configuration = Some profile →
      ∃ id, rpf_inference_backend profile = Some id ∧ backends !! id = None
  end.
Lemma resolve_inference_ok profile backends :
  match resolve_inference (Description := Description) (B := B) profile backends with
  | Some _ => ∀ id, rpf_inference_backend profile = Some id → is_Some (backends !! id)
  | None => ∃ id, rpf_inference_backend profile = Some id ∧ backends !! id = None
  end.
Proof.
  unfold resolve_inference. destruct (rpf_inference_backend profile) as [id|]; [|done].
  destruct (backends !! id) eqn:Hb; simpl; [by intros ? [= <-]|eauto].
Qed.
(** The round of one seat, when it succeeds. *)
Record seat_done (c : AgentSeatConfiguration) (s s' : state) : Prop := {
  sd_backends : su_backends s' = su_backends s;
  sd_placed : seat_placed (su_backends s) c (su_running s');
  sd_attended : ∀ seat, su_running s' !! asc_agent_id c = Some seat → attended s s' seat;
  sd_others : ∀ a, a ≠ asc_agent_id c → su_running s' !! a = su_running s !! a;
  sd_provisioned : (∃ n, stored_at n c) → keeps_provisioned s s';
}.
(** A seat that is taken out. *)
Lemma seat_out c s s' :
  su_running s' = delete (asc_agent_id c) (su_running s) → su_backends s' = su_backends s →
  (∀ e, e ∈ su_log s → e ∈ su_log s') → seat_placed (su_backends s) c (su_running s') →
  seat_done c s s'.
Proof.
  intros Hr Hb Hl Hp. split; try done.
  - intros seat. by rewrite Hr, lookup_delete_eq.
  - intros a Ha. by rewrite Hr, lookup_delete_ne.
  - intros _. apply provisioned_frame; [|done]. intros a seat. rewrite Hr.
    intros [_ Hs]%lookup_delete_Some. split; [done|]. by apply same_backend_eq.
Qed.
Lemma seat_kept c s s' seat :
  su_running s' = su_running s → su_backends s' = su_backends s → su_log s' = su_log s →
  su_running s !! asc_agent_id c = Some seat → attended s s' seat →
  seat_placed (su_backends s) c (su_running s) → seat_done c s s'.
Proof.
  intros Hr Hb Hl Hs Hatt Hp. split; rewrite ?Hr; try done.
  - intros seat'. rewrite Hs. by intros [= <-].
  - intros _. by apply provisioned_as.
Qed.
Lemma seat_started c s s1 profile inference desired :
  su_running s1 = delete (asc_agent_id c) (su_running s) → su_backends s1 = su_backends s →
  su_tasks s1 = su_tasks s → (∀ e, e ∈ su_log s → e ∈ su_log s1) → wants_running c = true →
  pc_profiles catalog !! asc_profile_id c = Some profile →
  resolve_inference profile (su_backends s) = Some inference →
  instantiate_profile is_object description_to_value schema_version_of from_value
    profile (asc_agent_id c) (asc_instructions c) inference = inl desired →
  seat_done c s (seated c profile desired s1).
Proof.
  intros Hr Hb Ht Hl Hw Hp Hres Hi.
  pose proof (resolve_inference_ok profile (su_backends s)) as Hok. rewrite Hres in Hok.
  split; simpl; rewrite ?Hr, ?Ht; try done.
  - unfold seat_placed. rewrite lookup_insert_eq. split; [done|]. by exists profile.
  - intros seat. rewrite lookup_insert_eq. intros [= <-]. right. simpl. rewrite Ht. lia.
  - intros a Ha. by rewrite lookup_insert_ne, lookup_delete_ne.
  - intros [n Hn] Hprov a seat. simpl. rewrite Hr, Ht.
    intros [[<- <-]|[_ [_ Hs]%lookup_delete_Some]]%lookup_insert_Some.
    + exists n, c. split_and!; [done..|]. exists profile, inference, desired. simpl. rewrite Hb, Ht.
      split_and!; try done. set_solver.
    + destruct (Hprov a seat Hs) as (n' & c' & ? & ? & Hc'). exists n', c'. split_and!; [done..|].
      revert Hc'. apply runs_as_frame; [by apply same_backend_eq|]. simpl. set_solver.
Qed.
Lemma reconcile_seat_done configuration s s' u :
  one_seat configuration s = (s', inl u) → seat_done configuration s s'.
Proof.
  set (agent := asc_agent_id configuration). unfold reconcile_seat.
  destruct (wants_running configuration) eqn:Hw; simpl.
  - destruct (pc_profiles catalog !! asc_profile_id configuration) as [profile|] eqn:Hp.
    + unfold note_resolved, andthen, look, act, look_out. simpl.
      pose proof (resolve_inference_ok profile (su_backends s)) as Hok.
      destruct (resolve_inference profile (su_backends s)) as [inference|] eqn:Hres.
      * destruct (current_matches _ _ _ _ _) eqn:Hm; simpl.
        -- intros [= <- _]. unfold current_matches in Hm. simpl in Hm.
           destruct (su_running s !! asc_agent_id configuration) as [seat|] eqn:Hs; [|done]. bool_facts.
           apply (seat_kept _ _ _ seat); try done.
           ++ left. exists (su_looks s). split; [simpl; lia|].
              by destruct (finished (su_looks s) (rs_task seat)).
           ++ unfold seat_placed. rewrite Hs. split; [done|]. exists profile. by split_and!.
        -- rewrite remove_seat_run. intros H.
           apply start_seat_run in H as [(desired & Hi & -> & _)|(? & _ & [=])].
           eapply seat_started; try done; [by rewrite removed_running|by rewrite removed_backends
             |by rewrite removed_tasks|]. intros e He. by apply removed_log.
      * rewrite remove_seat_run. intros [= <- _].
        apply seat_out; [by rewrite removed_running|by rewrite removed_backends|intros e He; by apply removed_log|].
        rewrite removed_running. unfold seat_placed. simpl. fold agent. rewrite lookup_delete_eq.
        intros _ p Hp2. rewrite Hp in Hp2. by injection Hp2 as <-.
    + unfold note_unresolved, andthen, look, act. rewrite remove_seat_run. intros [= <- _].
      apply seat_out; [by simpl; rewrite removed_running|by simpl; rewrite removed_backends
                      |intros e He; by apply removed_log|].
      simpl. rewrite removed_running. unfold seat_placed. fold agent. rewrite lookup_delete_eq.
      intros _ p Hp2. by rewrite Hp in Hp2.
  - rewrite remove_seat_run. intros [= <- _].
    apply seat_out; [by rewrite removed_running|by rewrite removed_backends|intros e He; by apply removed_log|].
    rewrite removed_running. unfold seat_placed. fold agent. by rewrite lookup_delete_eq, Hw.
Qed.
Lemma reconcile_each_done configurations s s' u :
  each_of configurations one_seat s = (s', inl u) → NoDup (map asc_agent_id configurations) →
  grows s s' ∧ su_backends s' = su_backends s
  ∧ (∀ c, c ∈ configurations → seat_placed (su_backends s) c (su_running s')
       ∧ ∀ seat, su_running s' !! asc_agent_id c = Some seat → attended s s' seat)
  ∧ (∀ a, a ∉ map asc_agent_id configurations → su_running s' !! a = su_running s !! a)
  ∧ ((∀ c, c ∈ configurations → ∃ n, stored_at n c) → keeps_provisioned s s').
Proof.
  revert s. induction configurations as [|c configurations IHc]; intros s H Hnd.
  { injection H as <- _. split_and!; [done|done|by intros c ?%not_elem_of_nil|done|done]. }
  simpl in H, Hnd. apply NoDup_cons in Hnd as [Hc Hnd].
  apply andthen_run in H as [(? & s1 & H1 & H)|(? & _ & [=])].
  pose proof (seat_grows _ _ _ _ H1) as Hg1.
  apply reconcile_seat_done in H1 as [Hb1 Hr1 Ha1 Ho1 Hp1].
  destruct (IHc _ H Hnd) as (Hg & Hb & Hr & Ho & Hp). rewrite Hb1 in Hb, Hr.
  split_and!; [by etrans|done| | |].
  - intros c' [->|Hin]%elem_of_cons.
    + unfold seat_placed in *. rewrite Ho by done. split; [done|]. intros seat Hs.
      eapply attended_grows; [reflexivity|exact Hg|by apply Ha1].
    + destruct (Hr _ Hin) as [Hr' Ha]. split; [done|]. intros seat Hs.
      eapply attended_grows; [exact Hg1|reflexivity|by apply Ha].
  - intros a [Hne Hni]%not_elem_of_cons. by rewrite Ho, Ho1.
  - intros Hst Hs. apply Hp; [intros; apply Hst; by right|]. apply Hp1; [apply Hst; by left|done].
Qed.
Lemma stop_unconfigured_run configurations (s : state) :
  ∃ s', stop_unconfigured_seats configurations s = (s', inl tt) ∧ su_backends s' = su_backends s
  ∧ keeps_provisioned s s' ∧ ∀ a, su_running s' !! a
         = if bool_decide (a ∈ map asc_agent_id configurations) then su_running s !! a else None.
Proof.
  unfold stop_unconfigured_seats, andthen, look.
  rewrite (each_of_run _ _ removed) by apply remove_seat_run. eexists. split; [done|].
  destruct (removed_all (List.filter (λ agent_id,
    negb (bool_decide (agent_id ∈ map asc_agent_id configurations))) (keys (su_running s))) s)
    as [Hr Hb]. split; [done|]. split; [apply removed_all_provisioned|].
  intros a. rewrite Hr, deleted_all.
  destruct (bool_decide (a ∈ map asc_agent_id configurations)) eqn:Hc.
  - rewrite bool_decide_false; [done|]. intros [Hn _]%elem_of_list_filter. by rewrite Hc in Hn.
  - destruct (su_running s !! a) eqn:Ha; [|by case_match].
    rewrite bool_decide_true; [done|]. apply elem_of_list_filter. rewrite Hc. split; [done|].
    apply elem_of_keys. eauto.
Qed.
Lemma stop_unused_run desired (s : state) :
  ∃ s', stop_unused_backends desired s = (s', inl tt) ∧ su_running s' = su_running s
  ∧ (∀ e, e ∈ su_log s → e ∈ su_log s') ∧ ∀ id, su_backends s' !! id = if bool_decide (id ∈ desired) then su_backends s !! id else None.
Proof.
  set (unused := λ id : string, negb (bool_decide (id ∈ desired))).
  set (gone := λ id (s : state), set_retry_after (delete id (su_retry_after (dropped id s))) (dropped id s)).
  assert (∀ id s, drop_unused id s = (gone id s, inl tt)) as Hrun.
  { intros id s1. unfold drop_unused, andthen. by rewrite remove_backend_run. }
  assert (∀ l s, su_backends (foldl (λ s a, gone a s) s l) = foldl (λ m k, delete k m) (su_backends s) l
                 ∧ su_running (foldl (λ s a, gone a s) s l) = su_running s
                 ∧ ∀ e, e ∈ su_log s → e ∈ su_log (foldl (λ s a, gone a s) s l)) as Hall.
  { intros l. induction l as [|a l IHl]; intros s1; [done|]. simpl.
    destruct (IHl (gone a s1)) as (-> & -> & Hlog). simpl. rewrite dropped_backends.
    destruct (dropped_same a s1) as (-> & _). split_and!; [done..|]. intros e He. apply Hlog. simpl.
    by apply dropped_log. }
  unfold stop_unused_backends, andthen, look. rewrite (each_of_run _ _ gone) by done.
  eexists. split; [done|]. destruct (Hall (List.filter unused (keys (su_backends s))) s) as (Hb & Hr & Hl).
  split; [done|]. split; [exact Hl|]. intros id. fold unused. rewrite Hb, deleted_all.
  destruct (bool_decide (id ∈ desired)) eqn:Hd.
  - rewrite bool_decide_false; [done|]. intros [Hn _]%elem_of_list_filter. unfold unused in Hn.
    by rewrite Hd in Hn.
  - destruct (su_backends s !! id) eqn:Hi; [|by case_match].
    rewrite bool_decide_true; [done|]. apply elem_of_list_filter. unfold unused. rewrite Hd.
    split; [done|]. apply elem_of_keys. eauto.
Qed.
Lemma list_seats_ids d configurations d' :
  wf d → list_seats d = Ok (configurations, d') → NoDup (map asc_agent_id configurations).
Proof.
  intros [Hu _]%wf_seats H. unfold list_seats in H. m_inv.
  match goal with H : collect seat_from_row _ = Ok _ |- _ =>
    apply (collect_map _ sc_agent_id asc_agent_id) in H as -> end.
  - assert (∀ l : list SeatRow, List.filter (λ _, true) l = l) as Hall
      by (intros l; induction l as [|r l IHl]; simpl; [done|by rewrite IHl]).
    rewrite sort_by_perm, Hall.
    change (rows d) with (agent_seat_configurations d).
    induction (agent_seat_configurations d) as [|r rs IHr]; simpl in *; [constructor|].
    apply andb_true_iff in Hu as [Hr Hu]. constructor; [|by apply IHr].
    intros (r' & Hid & Hin)%list_elem_of_fmap. rewrite forallb_forall in Hr.
    apply list_elem_of_In, Hr in Hin. unfold conflict_seat in Hin. by rewrite bool_decide_true in Hin.
  - intros a b Hab. unfold seat_from_row in Hab. by m_inv.
Qed.

Lemma elem_of_desired configurations id c profile :
  c ∈ configurations → wants_running c = true →
  pc_profiles catalog !! asc_profile_id c = Some profile → rpf_inference_backend profile = Some id →
  id ∈ desired_backend_ids catalog configurations.
Proof.
  intros Hc Hw Hp Hid. unfold desired_backend_ids. apply elem_of_list_to_set, list_elem_of_omap.
  exists c. rewrite list_elem_of_filter. split; [done|]. by rewrite Hp.
Qed.
Lemma desired_named configurations id :
  id ∈ desired_backend_ids catalog configurations →
  ∃ c profile, c ∈ configurations ∧ wants_running c = true
    ∧ pc_profiles catalog !! asc_profile_id c = Some profile
    ∧ rpf_inference_backend profile = Some id.
Proof.
  unfold desired_backend_ids. rewrite elem_of_list_to_set, list_elem_of_omap.
  intros (c & [Hw Hc]%list_elem_of_filter & Hid). exists c.
  destruct (pc_profiles catalog !! asc_profile_id c) as [profile|]; [|done]. by exists profile.
Qed.

(** *** Rounds on one store *)

Lemma listed_stored n configurations d c :
  list_seats (db n) = Ok (configurations, d) → c ∈ configurations → stored_at n c.
Proof.
  intros H Hc. unfold list_seats in H. m_inv.
  match goal with H : collect seat_from_row _ = Ok _ |- _ => rename H into Hcol end.
  apply collect_elem with (2 := Hc) in Hcol as (r & Hr & Hd). exists r. split; [|done].
  apply elem_of_sort_by, elem_of_list_filter in Hr as [_ Hr]. exact Hr.
Qed.

(** The store the supervisor reads is one store, seen as it goes on. *)
Section store.
Context (sha256_hex : string → string).
Context (Hfirst : reachable sha256_hex (db 0)).
Context (Hlater : ∀ n m, (n ≤ m)%nat → reaches sha256_hex (db n) (db m)).

Lemma store_reachable n : reachable sha256_hex (db n).
Proof using Hfirst Hlater. eapply reachable_run; [exact Hfirst|]. apply Hlater. lia. Qed.
(** The revision fences the configuration: whenever it was read. *)
Lemma stored_once n m c c' :
  stored_at n c → stored_at m c' → asc_agent_id c = asc_agent_id c' →
  asc_revision c = asc_revision c' → c = c'.
Proof using Hfirst Hlater.
  assert (∀ n m c c', (n ≤ m)%nat → stored_at n c → stored_at m c' →
            asc_agent_id c = asc_agent_id c' → asc_revision c = asc_revision c' → c = c') as Hle.
  { intros n' m' c1 c2 Hnm (r & Hr & Hd) (r' & Hr' & Hd') Ha Hv.
    destruct (seat_revision_fence sha256_hex _ _ r (store_reachable n') (Hlater _ _ Hnm) Hr)
      as (r2 & Hr2 & Ha2 & _ & Hsame).
    unfold seat_from_row in *. m_inv. cbn in *.
    assert (r2 = r') as -> by (eapply seat_unique; [apply (reachable_wf _ _ (store_reachable m'))|..];
                               congruence).
    by rewrite Hsame. }
  intros Hn Hm Ha Hv. destruct (decide (n ≤ m)%nat); [by eapply Hle|].
  symmetry. eapply (Hle m n); try done. lia.
Qed.

(** The states between the rounds of the loop of [supervise_workers]. *)
Inductive after_rounds : state → Prop :=
| ar_start : after_rounds no_supervision
| ar_round s s' s'' n :
    after_rounds s → round s = (s', inl tt) → look_out s' = (s'', inl n) → after_rounds s''.

(** The seat of a configuration is as the configuration wants it, given the
    backends that run, by a task that was alive during the round. *)
Definition seat_right (s s' : state) (c : AgentSeatConfiguration) : Prop :=
  match su_running s' !! asc_agent_id c with
  | Some seat => wants_running c = true ∧ runs_as s' c seat ∧ attended s s' seat
  | None =>
      wants_running c = true →
      ∀ profile, pc_profiles catalog !! asc_profile_id c = Some profile →
      ∃ id, rpf_inference_backend profile = Some id ∧ su_backends s' !! id = None
  end.

Lemma round_outcome s s' :
  provisioned s → round s = (s', inl tt) →
  provisioned s'
  ∧ ∃ configurations d, list_seats (db (su_looks s)) = Ok (configurations, d)
  ∧ (∀ agent_id seat, su_running s' !! agent_id = Some seat →
       ∃ c, c ∈ configurations ∧ asc_agent_id c = agent_id)
  ∧ (∀ c, c ∈ configurations → seat_placed (su_backends s') c (su_running s')
       ∧ ∀ seat, su_running s' !! asc_agent_id c = Some seat → attended s s' seat)
  ∧ ∀ id, is_Some (su_backends s' !! id) →
      ∃ c profile, c ∈ configurations ∧ wants_running c = true
        ∧ pc_profiles catalog !! asc_profile_id c = Some profile
        ∧ rpf_inference_backend profile = Some id.
Proof using Hfirst Hlater.
  intros Hprov H. unfold reconcile in H.
  apply andthen_run in H as [(configurations & s1 & Hlist & H)|(? & _ & [=])].
  unfold list_configurations in Hlist.
  apply andthen_run in Hlist as [(n & s0 & [= <- <-] & Hlist)|(? & [=] & _)].
  destruct (list_seats (db (su_looks s))) as [[cs d]|] eqn:Hdb; [|done]. injection Hlist as <- <-.
  pose proof (list_seats_ids _ _ _ (reachable_wf _ _ (store_reachable _)) Hdb) as Hnd.
  match type of H with _ ?t = _ => set (s1 := t) in H end.
  assert (grows s s1) as Hg1 by (unfold grows; simpl; lia).
  assert (provisioned s1) as Hp1 by (revert Hprov; by apply provisioned_as).
  apply andthen_run in H as [(? & s2 & Hback & H)|(? & _ & [=])].
  pose proof (backends_grow _ _ _ _ Hback) as Hg2.
  apply reconcile_backends_provisioned in Hback as Hp2. specialize (Hp2 Hp1).
  apply andthen_run in H as [(? & s3 & Hseats & H)|(? & _ & [=])].
  unfold reconcile_seats, andthen in Hseats.
  destruct (stop_unconfigured_run cs s2) as (s2' & Hrun & Hb2 & Hp2' & Hr2).
  pose proof (unconfigured_grow _ _ _ _ Hrun) as Hg2'. rewrite Hrun in Hseats.
  apply reconcile_each_done in Hseats as (Hg3 & Hb3 & Hr3 & Ho3 & Hp3); [|done].
  specialize (Hp3 ltac:(intros c Hc; eexists; by eapply listed_stored) (Hp2' Hp2)).
  destruct (stop_unused_run (desired_backend_ids catalog cs) s3) as (s4 & Hstop & Hr4 & Hl4 & Hb4).
  pose proof (unused_grow _ _ _ _ Hstop) as Hg4. rewrite Hstop in H. injection H as <-.
  assert (∀ agent_id seat, su_running s4 !! agent_id = Some seat →
            ∃ c, c ∈ cs ∧ asc_agent_id c = agent_id) as Hof.
  { intros agent_id seat Hs. rewrite Hr4 in Hs.
    destruct (decide (agent_id ∈ map asc_agent_id cs)) as [Hin|Hni].
    - apply list_elem_of_fmap in Hin as (c & -> & Hc). eauto.
    - by rewrite Ho3, Hr2, bool_decide_false in Hs. }
  assert (∀ c, c ∈ cs → seat_placed (su_backends s4) c (su_running s4)) as Hplaced.
  { intros c Hc. destruct (Hr3 c Hc) as [Hpl _]. unfold seat_placed in *. rewrite Hr4.
    rewrite <-Hb3 in Hpl. destruct (su_running s3 !! asc_agent_id c) as [seat|].
    - destruct Hpl as (Hw & profile & Hp & Hv & Hi & Hbk). split; [done|].
      exists profile. split_and!; try done. intros id Hid. rewrite Hb4, bool_decide_true; [by apply Hbk|].
      by apply (elem_of_desired cs id c profile).
    - intros Hw profile Hp. destruct (Hpl Hw profile Hp) as (id & Hid & Hnone). exists id.
      split; [done|]. rewrite Hb4, Hnone. by case_match. }
  split.
  - revert Hp3. apply provisioned_frame; [|exact Hl4]. intros a seat Hs.
    destruct (Hof a seat Hs) as (c & Hc & <-). rewrite Hr4 in Hs. split; [done|].
    intros id b Hid Hb. exists b. split; [|done]. pose proof (Hplaced c Hc) as Hpl.
    unfold seat_placed in Hpl. rewrite Hr4, Hs in Hpl.
    destruct Hpl as (Hw & profile & Hp & _ & Hi & _).
    rewrite Hb4, bool_decide_true; [done|]. apply (elem_of_desired cs id c profile); congruence.
  - exists cs, d. split_and!; [done|done| |].
    + intros c Hc. split; [by apply Hplaced|]. intros seat Hs. rewrite Hr4 in Hs.
      eapply attended_grows; [|exact Hg4|by apply (Hr3 c Hc)].
      etrans; [exact Hg1|]. by etrans.
    + intros id Hid. rewrite Hb4 in Hid. destruct (bool_decide _) eqn:Hd; [|by destruct Hid].
      bool_facts. by apply desired_named.
Qed.
Lemma rounds_provisioned s : after_rounds s → provisioned s.
Proof using Hfirst Hlater.
  induction 1 as [|s s' s'' n _ IHs Hround [= <- _]].
  - intros a seat. simpl. by rewrite lookup_empty.
  - destruct (round_outcome _ _ IHs Hround) as [Hs _]. revert Hs. by apply provisioned_as.
Qed.

(** C5 A round that succeeds converges, whatever earlier rounds left.  The
    configurations it read are the store's, one for each agent.  Afterwards the seats
    held are exactly those of the configurations that ask to run under an approved
    profile whose backend, if it names one, runs.  The task of each was spawned for
    that configuration: at its revision, with the worker file its profile becomes for
    the agent and its instructions, given what the running backend says of itself;
    and it was either spawned in this round or seen unfinished in it.  Only backends
    that some such configuration names still run. *)
Theorem round_converges s s' :
  after_rounds s → round s = (s', inl tt) →
  ∃ configurations d, list_seats (db (su_looks s)) = Ok (configurations, d)
  ∧ NoDup (map asc_agent_id configurations)
  ∧ (∀ agent_id seat, su_running s' !! agent_id = Some seat →
       ∃ c, c ∈ configurations ∧ asc_agent_id c = agent_id)
  ∧ (∀ c, c ∈ configurations → seat_right s s' c)
  ∧ ∀ id, is_Some (su_backends s' !! id) →
      ∃ c profile, c ∈ configurations ∧ wants_running c = true
        ∧ pc_profiles catalog !! asc_profile_id c = Some profile
        ∧ rpf_inference_backend profile = Some id.
Proof using Hfirst Hlater.
  intros Hs%rounds_provisioned H.
  destruct (round_outcome _ _ Hs H) as (Hprov & cs & d & Hlist & Hof & Hcs & Hback).
  exists cs, d. split_and!; [done| |done| |done].
  { eapply list_seats_ids; [|exact Hlist]. eapply reachable_wf, store_reachable. }
  intros c Hc. destruct (Hcs c Hc) as [Hpl Hatt]. unfold seat_placed, seat_right in *.
  destruct (su_running s' !! asc_agent_id c) as [seat|] eqn:Hseat; [|done].
  destruct Hpl as (Hw & profile & Hp & Hv & Hi & Hbk). split_and!; [done| |by apply Hatt].
  destruct (Hprov _ _ Hseat) as (n & c0 & Hst & Ha & Hruns).
  assert (c0 = c) as ->; [|done]. pose proof Hruns as (? & ? & ? & _ & Hv0 & _).
  eapply stored_once; [exact Hst|by eapply listed_stored|done|congruence].
Qed.

End store.

(** ** Every run of the supervisor *)

Context (cancelled : nat → bool).
Local Notation supervise :=
  (supervise_workers is_object description_to_value schema_version_of from_value db now finished
     cancelled store_error catalog).
Lemma within_supervise fuel : within keeps_supervised (supervise fuel).
Proof.
  unfold supervise_workers, stop_all. sup_tac.
  induction fuel as [|fuel IHf]; simpl; sup_tac; [apply within_reconcile|done].
Qed.


(** C4 Whatever happens to tasks, backends, the store and the catalog, no agent ever
    has two workers: at every moment of the supervisor's run at most one spawned task
    of the agent has not been waited for, a task is waited for once, a backend is
    never started while it runs; every seat held has its own task at its revision.
    When the supervisor was asked to stop and returns, every task was waited for and
    every backend stopped. *)
Theorem never_two_workers fuel s r :
  supervise fuel no_supervision = (s, r) →
  supervised s
  ∧ (∀ log t t' agent_id, log `prefix_of` su_log s →
       live_tasks log !! t = Some agent_id → live_tasks log !! t' = Some agent_id → t = t')
  ∧ (r = inl (Some tt) →
       live_tasks (su_log s) = ∅ ∧ live_backends (su_log s) = ∅ ∧ su_running s = ∅
       ∧ su_backends s = ∅).
Proof.
  intros H. pose proof (within_supervise _ _ _ _ H no_supervision_ok) as Hs.
  split_and!; [done| |].
  - intros log t t' a [rest Hlog]. apply orderly_exclusive. eapply orderly_prefix. rewrite <- Hlog.
    apply Hs.
  - intros ->. assert (su_running s = ∅ ∧ su_backends s = ∅) as [Hr Hb].
    { unfold supervise_workers in H. apply andthen_run in H as [(ended & s1 & _ & H)|(? & _ & [=])].
      destruct ended; [|done]. apply andthen_run in H as [(? & s2 & Hstop & H)|(? & _ & [=])].
      injection H as <-. by eapply stop_all_empties. }
    split_and!; [| |done|done].
    + apply map_eq. intros t. rewrite lookup_empty. destruct (live_tasks _ !! t) as [a|] eqn:Ha; [|done].
      apply (sv_live _ Hs) in Ha as (seat & Hseat & _). by rewrite Hr in Hseat.
    + apply set_eq. intros id. rewrite (sv_backends _ Hs), Hb, lookup_empty.
      split; [by intros []|set_solver].
Qed.

(** ** The catalog *)

Local Notation check :=
  (check_profile is_object description_to_value schema_version_of from_value).

Lemma collect_backends_ok backends known found :
  collect_backends backends known = inl found →
  (size found ≤ size known + length backends)%nat
  ∧ ((∀ id b, known !! id = Some b → ibf_id b = id ∧ validate_backend b = inl tt) →
     ∀ id b, found !! id = Some b → ibf_id b = id ∧ validate_backend b = inl tt).
Proof.
  revert known. induction backends as [|backend backends IHb]; intros known H; simpl in H.
  { injection H as <-. split; [lia|done]. }
  apply got_ok in H as ([] & Hv & H). destruct (known !! ibf_id backend) eqn:Hk; [done|].
  apply IHb in H as [Hlen Hall]. rewrite map_size_insert_None in Hlen by done. simpl.
  split; [lia|]. intros Hknown. apply Hall.
  intros id b [[<- <-]|[_ ?]]%lookup_insert_Some; auto.
Qed.
Lemma collect_profiles_ok version backends profiles known found :
  collect_profiles is_object description_to_value schema_version_of from_value version backends
    profiles known = inl found →
  (size found ≤ size known + length profiles)%nat
  ∧ ((∀ id p, known !! id = Some p → rpf_id p = id ∧ check version backends p = inl tt) →
     ∀ id p, found !! id = Some p → rpf_id p = id ∧ check version backends p = inl tt).
Proof.
  revert known. induction profiles as [|profile profiles IHp]; intros known H; simpl in H.
  { injection H as <-. split; [lia|done]. }
  apply got_ok in H as ([] & Hv & H). destruct (known !! rpf_id profile) eqn:Hk; [done|].
  apply IHp in H as [Hlen Hall]. rewrite map_size_insert_None in Hlen by done. simpl.
  split; [lia|]. intros Hknown. apply Hall.
  intros id p [[<- <-]|[_ ?]]%lookup_insert_Some; auto.
Qed.

(** A catalog every reference of which resolves. *)
Record catalog_ok (catalog : ProfileCatalog) : Prop := {
  cat_profiles : ∀ id profile, pc_profiles catalog !! id = Some profile →
    rpf_id profile = id ∧ valid_profile_id id = true
    ∧ (∃ file, instantiate_profile is_object description_to_value schema_version_of from_value
                 profile "catalog-validation" "" None = inl file)
    ∧ ∀ backend_id, rpf_inference_backend profile = Some backend_id →
        is_Some (pc_inference_backends catalog !! backend_id);
  cat_backends : ∀ id backend, pc_inference_backends catalog !! id = Some backend →
    ibf_id backend = id ∧ valid_profile_id id = true;
  cat_size : (size (pc_profiles catalog) ≤ MAX_PROFILES)%nat
    ∧ (size (pc_inference_backends catalog) ≤ MAX_INFERENCE_BACKENDS)%nat;
}.
Lemma valid_id_of {K} (b : bool) (t : string) (k : unit + string) (u : K) :
  True → (reject (negb b) t ;: k) = inl tt → b = true.
Proof. intros _ H. apply both_ok in H as [[? H%reject_ok] _]. by destruct b. Qed.
Lemma validate_catalog_ok file c :
  validate_catalog is_object description_to_value schema_version_of from_value file = inl c →
  catalog_ok c.
Proof.
  unfold validate_catalog. intros H.
  apply got_ok in H as (? & _ & H). apply got_ok in H as (? & _ & H).
  apply got_ok in H as (? & Hp%reject_ok & H). apply got_ok in H as (? & Hb%reject_ok & H).
  apply got_ok in H as (backends & Hbs & H). apply got_ok in H as (profiles & Hps & H).
  injection H as <-. apply orb_false_iff in Hp as [_ Hp%Nat.ltb_ge]. apply Nat.ltb_ge in Hb.
  apply collect_backends_ok in Hbs as [Hlb Hbs]. apply collect_profiles_ok in Hps as [Hlp Hps].
  rewrite map_size_empty in Hlb. rewrite map_size_empty in Hlp.
  split; simpl.
  - intros id profile Hid. destruct (Hps ltac:(intros ? ?; by rewrite lookup_empty) id profile Hid)
      as [Heq Hc]. split; [done|]. unfold check_profile in Hc.
    apply got_ok in Hc as ([] & Hv & Hc). apply got_ok in Hc as (? & _ & Hc).
    apply got_ok in Hc as (? & Hr & Hc). apply got_ok in Hc as (f & Hi & _).
    split_and!; [rewrite <- Heq; unfold validate_profile in Hv; by eapply (valid_id_of (K := unit))|by eauto|].
    intros backend_id Hb'. rewrite Hb' in Hr. apply reject_ok in Hr.
    destruct (backends !! backend_id); [eauto|done].
  - intros id backend Hid. destruct (Hbs ltac:(intros ? ?; by rewrite lookup_empty) id backend Hid)
      as [Heq Hv]. split; [done|]. rewrite <- Heq. unfold validate_backend in Hv.
    by eapply (valid_id_of (K := unit)).
  - split; lia.
Qed.

(** ** Panics *)

Definition plain_refusal (e : SupervisionError) : Prop := ∃ error, e = Refused error.
Lemma fails_each_of {A} (l : list A) (f : A → supervising (Description := Description) (B := B) unit) :
  (∀ a, a ∈ l → fails_with plain_refusal (f a)) → fails_with plain_refusal (each_of l f).
Proof.
  induction l as [|a l IHl]; intros Hf; simpl; [apply fails_done|].
  apply fails_andthen; [apply Hf; by left|intros _]. apply IHl. intros b Hb. apply Hf. by right.
Qed.
Lemma fails_run {A} (m : supervising (Description := Description) (B := B) A) g f :
  (∀ s, m s = (g s, inl (f s))) → fails_with plain_refusal m.
Proof. intros Hm s s' e H. by rewrite Hm in H. Qed.
Ltac refusal_step :=
  match goal with
  | |- fails_with _ (andthen _ _) => apply fails_andthen; [|intros ?]
  | |- fails_with _ (look _) => apply fails_look
  | |- fails_with _ (act _) => apply fails_act
  | |- fails_with _ (done_with _) => apply fails_done
  | |- fails_with _ (throw (Refused _)) => apply fails_throw; by eexists
  | |- fails_with _ look_out => by eapply (fails_run _ _ su_looks)
  | |- fails_with _ (spawn _ _ _) => by eapply (fails_run _ _ su_tasks)
  | |- fails_with _ (each_of _ _) => apply fails_each_of; intros ? ?
  | |- fails_with _ (remove_seat ?a) => apply (fails_run _ (removed a) (λ _, tt)), remove_seat_run
  | |- fails_with _ (remove_backend ?a) => apply (fails_run _ (dropped a) (λ _, tt)), remove_backend_run
  | |- fails_with _ (if ?b then _ else _) => destruct b
  | |- fails_with _ (match ?x with _ => _ end) => destruct x
  end.
Ltac refusal_tac := repeat refusal_step.

Lemma check_backend_refusal desired id :
  fails_with plain_refusal (check_backend now desired id).
Proof. unfold check_backend, stop_seats_using_backend, retry_later. refusal_tac.
Qed.
Lemma ensure_backend_refusal id :
  is_Some (pc_inference_backends catalog !! id) →
  fails_with plain_refusal (ensure_backend now catalog id).
Proof.
  intros [backend Hb]. unfold ensure_backend, retry_later, start_backend. rewrite Hb. refusal_tac.
Qed.
Lemma reconcile_seat_refusal configuration : fails_with plain_refusal (one_seat configuration : supervising (B := B) unit).
Proof. unfold reconcile_seat, note_resolved, note_unresolved, start_seat. refusal_tac. Qed.
Lemma supervise_refusal fuel :
  catalog_ok catalog → fails_with plain_refusal (supervise fuel).
Proof.
  intros Hcat. unfold supervise_workers, stop_all. refusal_tac.
  induction fuel as [|fuel IHf]; simpl; refusal_tac; [|done].
  unfold reconcile, list_configurations, reconcile_backends, reconcile_seats,
    stop_unconfigured_seats, stop_unused_backends, drop_unused.
  refusal_tac; [apply check_backend_refusal| |apply reconcile_seat_refusal].
  apply ensure_backend_refusal.
  match goal with H : _ ∈ in_order _ |- _ =>
    apply elem_of_sort_by, elem_of_elements, desired_named in H as (c & profile & _ & _ & Hp & Hid) end.
  by apply (cat_profiles _ Hcat _ _ Hp).
Qed.

Context (symlink_metadata : string → Metadata + string) (file_len : string → Z + string).
Context (read_file : string → string + string).
Context (catalog_from_slice : string → ProfileCatalogFile + string).

(** A supervisor that starts has a catalog it can trust: the file is absolute,
    regular, closed to group and others and at most a megabyte; every profile and
    backend has a valid identifier that is its own, every profile makes a worker
    file, and every backend a profile names is in the catalog.  With such a catalog
    the supervisor never panics: it only ever ends by returning or with a refusal. *)
Theorem loaded_catalog_never_panics path fuel :
  load_profile_catalog is_object description_to_value schema_version_of from_value symlink_metadata
    file_len read_file catalog_from_slice path = inl catalog →
  is_absolute path = true
  ∧ (∃ metadata len, symlink_metadata path = inl metadata ∧ md_regular metadata = true
       ∧ Z.land (md_mode metadata) 63 = 0 ∧ file_len path = inl len ∧ len ≤ MAX_CATALOG_BYTES)
  ∧ catalog_ok catalog
  ∧ fails_with plain_refusal (supervise fuel).
Proof.
  unfold load_profile_catalog, require_private_regular_file. intros H.
  destruct (is_absolute path); [|done]. simpl in H.
  apply got_ok in H as ([] & Hm & H). apply got_ok in Hm as (metadata & Hmd & Hm).
  apply both_ok in Hm as [[? Hreg%reject_ok] Hmode%reject_ok].
  apply got_ok in H as (len & Hlen & H). apply got_ok in H as (? & Hmax%reject_ok & H).
  apply got_ok in H as (source & _ & H). destruct (catalog_from_slice source); [|done].
  apply validate_catalog_ok in H. bool_facts.
  split_and!; [done| |done|by apply supervise_refusal].
  exists metadata, len. destruct (md_regular metadata); [|done]. split_and!; try done; lia.
Qed.

(** ** Ending *)

(** Asked to stop, the supervisor ends: once the cancellation is seen at every
    look from the [N]th on, no run of it goes on for more than [N] rounds, whatever
    the store, the tasks and the backends do.  It ends with everything stopped, or
    with the error of a round; in that case it returns the state the round left, so
    the seats and the backends it held are neither waited for nor stopped. *)
Theorem cancelled_supervisor_ends fuel N (s s' : state) r :
  (∀ n, (N ≤ n)%nat → cancelled n = true) → (N < fuel)%nat →
  supervise fuel s = (s', r) →
  (r = inl (Some tt) ∧ su_running s' = ∅ ∧ su_backends s' = ∅)
  ∨ ∃ error s1, r = inr error ∧ round s1 = (s', inr error).
Proof.
  intros Hc Hfuel H. unfold supervise_workers in H.
  assert (∀ s1 e, supervise_loop is_object description_to_value schema_version_of from_value db now
            finished cancelled store_error catalog fuel s = (s1, e) →
            e = inl (Some tt) ∨ ∃ error s0, e = inr error ∧ round s0 = (s1, inr error)) as Hloop.
  { assert (0 < fuel ∧ N < su_looks s + fuel)%nat as Hmeasure by lia. clear H Hfuel.
    revert s Hmeasure. induction fuel as [|fuel IHf]; intros s0 Hfuel s1 e H; [lia|]. simpl in H.
    apply andthen_run in H as [(? & s2 & Hround & H)|(error & Hround & ->)]; [|by eauto].
    apply round_grows in Hround as [Hlooks _].
    apply andthen_run in H as [(n & s3 & [= <- <-] & H)|(? & [=] & _)].
    destruct (cancelled (su_looks s2)) eqn:Hcancel; [injection H as _ <-; by left|].
    apply (IHf _) in H; [done|]. simpl. destruct (decide (N ≤ su_looks s2)%nat) as [Hle|]; [|lia].
    by rewrite Hc in Hcancel. }
  apply andthen_run in H as [(ended & s1 & Hl & H)|(error & Hl & ->)].
  - apply Hloop in Hl as [[= ->]|(? & ? & [=] & _)]. left.
    apply andthen_run in H as [(? & s2 & Hstop & H)|(? & Hstop & ->)].
    + injection H as <- <-. split; [done|]. by eapply stop_all_empties.
    + exfalso. unfold stop_all, andthen, look in Hstop.
      rewrite (each_of_run _ _ removed) in Hstop by apply remove_seat_run.
      by rewrite (each_of_run _ _ dropped) in Hstop by apply remove_backend_run.
  - apply Hloop in Hl as [[=]|(? & s0 & [= <-] & ?)]. right. eauto.
Qed.
End supervisor.

(** ** A concrete supervision

    One agent configured under a profile with a shared backend: the supervisor
    starts the backend and the seat, is asked to stop at its second look, waits for
    the seat and stops the backend.  The theorems about the supervisor are applied
    to it. *)

From S2P Require Import WorkerFileProps Scenario.

#[local] Instance quiet_host : InferenceHost (Description := unit) nat := {|
  inference_start n _ := inl n;
  into_inference_openai b := inl b;
  inference_describe _ _ := inl tt;
  inference_health _ b := (b, inl tt);
|}.
Definition plain_object (v : Value) : bool := is_some (decode_object v).
Definition unit_value (_ : unit) : Value + string := inl "d".
Definition version_two (_ : Value) : option Z := Some 2.
Definition read_minimal (_ : Value) : WorkerFileSource + string :=
  inl (minimal_source "B" "/work" "plugin" "/bin/plugin" ["ask"]).
Definition glm_profile : RuntimeProfileFile :=
  {| rpf_id := "opencode.glm"; rpf_label := "GLM"; rpf_description := "Local coding runtime";
     rpf_inference_backend := Some "glm";
     rpf_worker := json_object [("plugin", json_object [("config", json_object [])])] |}.
Definition glm_backend : InferenceBackendFile :=
  {| ibf_id := "glm"; ibf_label := "GLM";
     ibf_plugin := {| ipf_id := "llama"; ipf_executable := "/bin/llama"; ipf_args := [];
                      ipf_config := "{}"; ipf_initialize_timeout_ms := 1000;
                      ipf_request_timeout_ms := 1000; ipf_shutdown_timeout_ms := 1000 |} |}.
Definition glm_file : ProfileCatalogFile :=
  {| pcf_schema_version := 2; pcf_inference_backends := [glm_backend];
     pcf_profiles := [glm_profile] |}.
Definition glm_catalog : ProfileCatalog :=
  {| pc_profiles := {["opencode.glm" := glm_profile]};
     pc_inference_backends := {["glm" := glm_backend]} |}.
Definition supervise_here (fuel : nat) : supervising (option unit) :=
  supervise_workers plain_object unit_value version_two read_minimal (λ _, db_seated)
    Z.of_nat (λ _ _, false) (λ n, 4 <=? n)%nat (λ _, "store") glm_catalog fuel.
Definition round_here : supervising unit :=
  reconcile plain_object unit_value version_two read_minimal (λ _, db_seated)
    Z.of_nat (λ _ _, false) (λ _, "store") glm_catalog.

Lemma never_two_workers_witness :
  let (s, r) := supervise_here 5 no_supervision in
  r = inl (Some tt) ∧ length (su_log s) = 4%nat
  ∧ live_tasks (take 2 (su_log s)) = {[0%nat := "B"]} ∧ live_tasks (su_log s) = ∅
  ∧ live_backends (su_log s) = ∅.
Proof.
  destruct (supervise_here 5 no_supervision) as [s r] eqn:H.
  assert (r = inl (Some tt)) as Hr by (vm_compute in H; by injection H as _ <-).
  pose proof H as Hrun. unfold supervise_here in Hrun. apply never_two_workers in Hrun as (_ & _ & Hend).
  destruct (Hend Hr) as (Hl & Hb & _). split; [exact Hr|].
  assert (length (su_log s) = 4%nat ∧ live_tasks (take 2 (su_log s)) = {[0%nat := "B"]}) as [Hn Ht]
    by (vm_compute in H; injection H as <- _; split; [done|by vm_compute]).
  split; [exact Hn|]. split; [exact Ht|]. split; [exact Hl|exact Hb].
Defined.

(** Two rounds: the first starts the seat, the second keeps it. *)
Definition after_first : Supervision := (look_out (round_here no_supervision).1).1.
Lemma round_converges_witness :
  let (s, r) := round_here after_first in
  r = inl tt ∧ rs_task <$> su_running s !! "B" = Some 0%nat
  ∧ ∃ configurations d, list_seats db_seated = Ok (configurations, d) ∧ configurations ≠ []
    ∧ ∀ c, c ∈ configurations →
        seat_right plain_object unit_value version_two read_minimal (λ _ _, false) glm_catalog
          after_first s c.
Proof.
  destruct (round_here after_first) as [s r] eqn:H.
  assert (r = inl tt ∧ rs_task <$> su_running s !! "B" = Some 0%nat) as [Hr Hb]
    by (vm_compute in H; injection H as <- <-; by vm_compute).
  split; [exact Hr|]. split; [exact Hb|]. rewrite Hr in H.
  destruct (round_here no_supervision) as [s1 r1] eqn:H1.
  assert (r1 = inl tt) as Hr1 by (vm_compute in H1; by injection H1 as _ <-). rewrite Hr1 in H1.
  destruct (round_converges plain_object unit_value version_two read_minimal (λ _, db_seated)
    Z.of_nat (λ _ _, false) (λ _, "store") glm_catalog plain_sha256 reachable_seated
    (λ _ _ _, rtc_refl _ _) after_first s) as (cs & d & Hl & _ & _ & Hc & _); [|exact H|].
  - eapply ar_round; [apply ar_start|exact H1|]. unfold after_first. by rewrite H1.
  - exists cs, d. split; [exact Hl|]. split; [|exact Hc]. intros ->. by vm_compute in Hl.
Defined.

Lemma loaded_catalog_never_panics_witness :
  load_profile_catalog plain_object unit_value version_two read_minimal
    (λ _, inl {| md_regular := true; md_mode := 384 |}) (λ _, inl 100) inl (λ _, inl glm_file)
    "/catalog" = inl glm_catalog
  ∧ fails_with plain_refusal (supervise_here 5).
Proof.
  assert (load_profile_catalog plain_object unit_value version_two read_minimal
    (λ _, inl {| md_regular := true; md_mode := 384 |}) (λ _, inl 100) inl (λ _, inl glm_file)
    "/catalog" = inl glm_catalog) as Hload by (vm_compute; reflexivity).
  split; [exact Hload|].
  exact (proj2 (proj2 (proj2 (loaded_catalog_never_panics plain_object unit_value version_two
    read_minimal (λ _, db_seated) Z.of_nat (λ _ _, false) (λ _, "store") glm_catalog
    (λ n, 4 <=? n)%nat _ _ _ _ _ 5 Hload)))).
Defined.

Lemma cancelled_supervisor_ends_witness :
  let (s, r) := supervise_here 5 no_supervision in
  r = inl (Some tt) ∧ su_running s = ∅ ∧ su_backends s = ∅.
Proof.
  destruct (supervise_here 5 no_supervision) as [s r] eqn:H.
  pose proof H as Hrun. unfold supervise_here in Hrun.
  apply (cancelled_supervisor_ends _ _ _ _ _ _ _ _ _ _ 5 4) in Hrun as [Hend|(e & s1 & He & _)];
    [exact Hend| |by intros n Hn; apply Nat.leb_le|lia].
  vm_compute in H. injection H as _ <-. discriminate He.
Defined.
