(* ===== verification/ProjectionProps.v ===== *)
(** * What trajectory egress sends

    Below the full content level an update influences a span only by what its level
    discloses; every selected update is exactly one event of its turn's trace; and the
    queue changes nothing but which offers arrive: the exports are those of the
    accepted offers, one after another. *)

From stdpp Require Import gmap.
From S2P Require Import Prelude Action Proto Schema Observations Sessions HarnessClient.
From S2P Require Import Controller Supervisor Egress Projection Scenario.

Section projection.
Context `{J : SerdeJson} {JT : JsonTree}.
Context (sha256 : string → string).
Context (array_len : Value → option Z) (value_text : Value → string) (as_i64 : Value → option Z).
Context (config : EgressConfig).

Local Notation observe_here := (λ u f, observe sha256 array_len value_text u config f).
Local Notation run := (run_sink sha256 array_len value_text as_i64 config).
Local Notation step_here := (sink_step sha256 array_len value_text as_i64 config).
Local Notation drain_here := (drain_offer sha256 array_len value_text as_i64 config).

(** ** What the content level discloses *)

(** Of a tool update its identifier, and at the metadata level its kind and status;
    of a plan at the metadata level the number of its entries; of any other update
    nothing. *)
Definition disclosed (class : EventClass.t) (raw : Value)
    : option string * (option string * option string) * option Z :=
  let metadata := match eg_content config with ContentNone => false | _ => true end in
  match class with
  | EventClass.Tool =>
      (tool_call_id raw,
       (if metadata then (get_text "kind" raw, get_text "status" raw) else (None, None)), None)
  | EventClass.Plan =>
      (None, (None, None), if metadata then entries ← json_get "entries" raw; array_len entries else None)
  | _ => (None, (None, None), None)
  end.
(** Two updates that differ only in what the level keeps back. *)
Definition alike (u u' : TrajectoryUpdate) : Prop :=
  tu_invocation_id u = tu_invocation_id u' ∧ tu_event_seq u = tu_event_seq u'
  ∧ tu_observed_at_ms u = tu_observed_at_ms u' ∧ tu_classification u = tu_classification u'
  ∧ disclosed (EventClass.parse (tu_classification u)) (tu_raw_update u)
    = disclosed (EventClass.parse (tu_classification u)) (tu_raw_update u').

Lemma observe_alike u u' flight :
  eg_content config ≠ ContentFull → alike u u' → observe_here u flight = observe_here u' flight.
Proof.
  intros Hlevel (Hi & Hs & Ht & Hc & Hd). unfold observe. rewrite <- Hc, <- Ht.
  destruct (negb _); [done|]. unfold observe_tool, event_seq, new_tool. rewrite <- Hi, <- Hs, <- Hc.
  assert (is_full config = false) as Hf by (unfold is_full; by destruct (eg_content config)).
  unfold event_attributes, tool_attributes. rewrite Hf.
  destruct (EventClass.parse (tu_classification u)); simpl in *;
    destruct (eg_content config); try done; simplify_eq;
    by repeat match goal with H : context [tu_raw_update u] |- _ => rewrite H; clear H end.
Qed.

(** Offers, steps and sinks alike. *)
Definition offer_alike (o o' : Offer) : Prop :=
  match o, o' with
  | OfferUpdate u, OfferUpdate u' => alike u u'
  | _, _ => o = o'
  end.
Definition step_alike (s s' : SinkStep) : Prop :=
  match s, s' with
  | Observed u, Observed u' => alike u u'
  | _, _ => s = s'
  end.
Record sink_alike (s s' : Sink) : Prop := {
  sa_queue : Forall2 offer_alike (sk_queue s) (sk_queue s');
  sa_counters : sk_counters s = sk_counters s';
  sa_flights : sk_in_flight s = sk_in_flight s';
  sa_exports : sk_exports s = sk_exports s';
  sa_answered : sk_answered s = sk_answered s';
}.
Lemma offer_alike_refl o : offer_alike o o.
Proof. by destruct o. Qed.
Lemma enqueue_alike o o' s s' :
  offer_alike o o' → sink_alike s s' → sink_alike (enqueue config o s) (enqueue config o' s').
Proof.
  intros Ho [Hq Hc Hf He Ha]. unfold enqueue, has_room.
  rewrite <- (Forall2_length _ _ _ Hq), Hc. destruct (_ <? _); split; simpl; try done.
  by apply Forall2_app; repeat constructor.
Qed.
Lemma step_alike_ok st st' s s' :
  eg_content config ≠ ContentFull → step_alike st st' → sink_alike s s' →
  sink_alike (step_here st s) (step_here st' s').
Proof.
  intros Hlevel Hst Hs. destruct st as [t|u|o|w|ok], st' as [t'|u'|o'|w'|ok']; try done; simpl in *.
  - injection Hst as <-. by apply enqueue_alike.
  - by apply enqueue_alike.
  - injection Hst as <-. by apply enqueue_alike.
  - injection Hst as <-. destruct Hs as [Hq Hc Hf He Ha]. unfold sink_flush, has_room.
    rewrite <- (Forall2_length _ _ _ Hq). destruct (_ <? _); split; simpl; try done.
    by apply Forall2_app; repeat constructor.
  - injection Hst as <-. destruct Hs as [Hq Hc Hf He Ha]. unfold drain_one.
    inversion Hq as [Heq Heq'|o o' q q' Ho Hq' Heq Heq'].
    { by split. }
    destruct o as [t|u|c|w], o' as [t'|u'|c'|w']; try done; simpl in Ho;
      [injection Ho as <-| |injection Ho as <-|injection Ho as <-]; simpl.
    + split; simpl; congruence.
    + split; simpl; try done. rewrite <- Hf. destruct Ho as (Hi & Ho). rewrite <- Hi.
      apply map_eq. intros id. destruct (decide (tu_invocation_id u = id)) as [->|Hne].
      * rewrite !lookup_alter_eq. destruct (sk_in_flight s !! id); [|done]. simpl. f_equal.
        by apply observe_alike; [|split].
      * by rewrite !lookup_alter_ne.
    + rewrite <- Hf. destruct (sk_in_flight s !! oc_invocation_id c); split; simpl; try done.
      * by rewrite Hc.
      * by rewrite He.
    + split; simpl; congruence.
Qed.

(** C32 Below the full level the content of an update leaves the process only as far as
    the level discloses it.  Take two runs of the sink, interleaved with its drain task
    in the same way, with the same turns and closes, whose updates agree on
    invocation, sequence, time and classification and on what the level discloses: a
    tool's call identifier, at the metadata level also its kind and status and the
    number of entries of a plan.  Whatever else the updates contain - messages,
    thoughts, prompts, the titles, inputs and outputs of tools, plans - the two runs
    export the same spans, drop the same offers and count the same.  Texts of the
    runtime that are exported at every level are thus the call identifier and, from
    a close, the stop reasons and the reason a turn was parked; a kind and a status
    are at the metadata level. *)
Theorem content_stays_home steps steps' :
  eg_content config ≠ ContentFull → Forall2 step_alike steps steps' →
  sk_exports (run steps) = sk_exports (run steps')
  ∧ sk_counters (run steps) = sk_counters (run steps')
  ∧ sk_in_flight (run steps) = sk_in_flight (run steps').
Proof.
  intros Hlevel Hs. enough (sink_alike (run steps) (run steps')) as [? ? ? ? ?] by done.
  unfold run_sink. assert (sink_alike start_sink start_sink) as Hstart by (split; done || constructor).
  revert Hstart. generalize start_sink at 1 3 as s. generalize start_sink as s'. revert Hs.
  induction 1 as [|st st' steps steps' Hst _ IHs]; intros s' s Ha; simpl; [done|].
  apply IHs. by apply step_alike_ok.
Qed.

(** ** The queue *)

(** What a step offers, and the offers a run accepts, in order. *)
Definition offer_of (step : SinkStep) : list Offer :=
  match step with
  | Offered turn => [OfferOpen turn]
  | Observed update => [OfferUpdate update]
  | Concluded outcome => [OfferClose (own_close outcome)]
  | Flushed waiter => [OfferFlush waiter]
  | Drained _ => []
  end.
Definition accept_step (p : Sink * list Offer) (step : SinkStep) : Sink * list Offer :=
  (step_here step p.1, p.2 ++ if has_room config p.1 then offer_of step else []).
Definition accepted (steps : list SinkStep) : list Offer :=
  (foldl accept_step (start_sink, []) steps).2.
Lemma accepted_run steps : foldl accept_step (start_sink, []) steps = (run steps, accepted steps).
Proof.
  unfold accepted, run_sink. enough (∀ s l, (foldl accept_step (s, l) steps).1
    = foldl (λ sink step, step_here step sink) s steps) as Hfst
    by (rewrite <- (Hfst start_sink []); by destruct (foldl accept_step (start_sink, []) steps)).
  induction steps as [|st steps IHs]; intros s l; simpl; [done|]. apply IHs.
Qed.
Lemma run_snoc steps st : run (steps ++ [st]) = step_here st (run steps).
Proof. unfold run_sink. by rewrite foldl_app. Qed.
Lemma accepted_snoc steps st :
  accepted (steps ++ [st])
  = accepted steps ++ if has_room config (run steps) then offer_of st else [].
Proof. unfold accepted at 1. by rewrite foldl_app, accepted_run. Qed.

(** The offers that count, and how many a run made. *)
Definition countable (o : Offer) : bool := match o with OfferFlush _ => false | _ => true end.
Definition counted (l : list Offer) : Z := Z.of_nat (length (List.filter countable l)).
Definition offered (steps : list SinkStep) : Z := counted (flat_map offer_of steps).
Definition opens (l : list Offer) : nat :=
  length (List.filter (λ o, match o with OfferOpen _ => true | _ => false end) l).

(** The drain task alone, on offers each with the success of its export. *)
Definition sequentially (done : list (Offer * bool)) : Sink :=
  foldl (λ sink p, drain_here p.1 p.2 sink) start_sink done.
Lemma sequentially_snoc done o ok :
  sequentially (done ++ [(o, ok)]) = drain_here o ok (sequentially done).
Proof. unfold sequentially. by rewrite foldl_app. Qed.

Lemma counted_app l l' : counted (l ++ l') = (counted l + counted l')%Z.
Proof. unfold counted. rewrite List.filter_app, length_app. lia. Qed.
Lemma wrap_succ n : wrap_u64 (wrap_u64 n + 1) = wrap_u64 (n + 1).
Proof. unfold wrap_u64. by rewrite Zplus_mod_idemp_l. Qed.

(** What the drain task changes, whatever the queue and the offers' counters. *)
Definition drained_as (s s' : Sink) : Prop :=
  sk_in_flight s = sk_in_flight s' ∧ sk_exports s = sk_exports s' ∧ sk_answered s = sk_answered s'.
Lemma drain_offer_as o ok s s' :
  drained_as s s' →
  drained_as (drain_here o ok s) (drain_here o ok s')
  ∧ sk_queue (drain_here o ok s) = sk_queue s
  ∧ ct_accepted (sk_counters (drain_here o ok s)) = ct_accepted (sk_counters s)
  ∧ ct_dropped (sk_counters (drain_here o ok s)) = ct_dropped (sk_counters s).
Proof.
  unfold drained_as. intros (Hf & He & Ha). destruct o as [t|u|c|w]; simpl.
  - split_and!; try done; simpl; congruence.
  - split_and!; try done; simpl; congruence.
  - rewrite <- Hf. destruct (sk_in_flight s !! oc_invocation_id c); split_and!; try done; simpl; congruence.
  - split_and!; try done; simpl; congruence.
Qed.

Record sequenced (steps : list SinkStep) (done : list (Offer * bool)) : Prop := {
  sq_accepted : accepted steps = map fst done ++ sk_queue (run steps);
  sq_drained : drained_as (run steps) (sequentially done);
  sq_room : (length (sk_queue (run steps)) ≤ Z.to_nat (eg_queue_capacity config))%nat;
  sq_counted : ct_accepted (sk_counters (run steps)) = wrap_u64 (counted (accepted steps));
  sq_dropped : ct_dropped (sk_counters (run steps))
               = wrap_u64 (offered steps - counted (accepted steps));
}.
Lemma enqueue_sequenced steps done st o :
  offer_of st = [o] → countable o = true → step_here st (run steps) = enqueue config o (run steps) →
  sequenced steps done → sequenced (steps ++ [st]) done.
Proof.
  intros Ho Hc Hstep [Ha Hd Hr Hn Hx].
  assert (counted [o] = 1%Z) as H1 by (unfold counted; simpl; by rewrite Hc).
  assert (offered (steps ++ [st]) = offered steps + 1)%Z as Hoff
    by (unfold offered; rewrite flat_map_app, counted_app; simpl; by rewrite Ho, app_nil_r, H1).
  assert (accepted (steps ++ [st]) = accepted steps ++ if has_room config (run steps) then [o] else [])
    as Hacc by (by rewrite accepted_snoc, Ho).
  split; rewrite ?run_snoc, ?Hstep, ?Hacc, ?Hoff; unfold enqueue;
    destruct (has_room config (run steps)) eqn:Hroom; simpl; rewrite ?app_nil_r; try done.
  - by rewrite Ha, app_assoc.
  - unfold has_room in Hroom. bool_facts. rewrite length_app. simpl. lia.
  - by rewrite counted_app, H1, Hn, wrap_succ.
  - rewrite counted_app, H1, Hx. f_equal. lia.
  - rewrite Hx, wrap_succ. f_equal. lia.
Qed.
Lemma run_sequenced steps : ∃ done, sequenced steps done.
Proof.
  induction steps as [|st steps [done Hs]] using rev_ind.
  { exists []. split; simpl; try done. lia. }
  destruct st as [t|u|o|w|ok].
  - exists done. by eapply enqueue_sequenced.
  - exists done. by eapply enqueue_sequenced.
  - exists done. by eapply enqueue_sequenced.
  - exists done. destruct Hs as [Ha Hd Hr Hn Hx].
    assert (offered (steps ++ [Flushed w]) = offered steps) as Hoff
      by (unfold offered; rewrite flat_map_app, counted_app; simpl; unfold counted at 2; simpl; lia).
    split; rewrite ?run_snoc, ?accepted_snoc, ?Hoff; simpl; unfold sink_flush;
      destruct (has_room config (run steps)) eqn:Hroom; simpl; rewrite ?app_nil_r; try done.
    + by rewrite Ha, app_assoc.
    + unfold has_room in Hroom. bool_facts. rewrite length_app. simpl. lia.
    + rewrite counted_app, Hn. unfold counted at 3. simpl. by rewrite Z.add_0_r.
    + rewrite counted_app, Hx. unfold counted at 3. simpl. by rewrite Z.add_0_r.
  - destruct Hs as [Ha Hd Hr Hn Hx].
    assert (offered (steps ++ [Drained ok]) = offered steps) as Hoff
      by (unfold offered; rewrite flat_map_app, counted_app; simpl; unfold counted at 2; simpl; lia).
    assert (accepted (steps ++ [Drained ok]) = accepted steps) as Hacc
      by (rewrite accepted_snoc; simpl; by case_match; rewrite app_nil_r).
    destruct (sk_queue (run steps)) as [|o queue] eqn:Hq.
    + exists done. split; rewrite ?run_snoc, ?Hacc, ?Hoff; simpl; unfold drain_one; rewrite Hq; try done;
        rewrite ?Hq; done.
    + exists (done ++ [(o, ok)]).
      destruct (drain_offer_as o ok (pop queue (run steps)) (sequentially done)) as (H1 & H2 & H3 & H4);
        [done|].
      split; rewrite ?run_snoc, ?Hacc, ?Hoff; simpl; unfold drain_one; rewrite Hq.
      * by rewrite H2, map_app, <- app_assoc.
      * by rewrite sequentially_snoc.
      * rewrite H2. simpl in *. lia.
      * by rewrite H3.
      * by rewrite H4.
Qed.
Lemma sequentially_opens done :
  (length (sk_exports (sequentially done)) + size (sk_in_flight (sequentially done))
   ≤ opens (map fst done))%nat.
Proof.
  induction done as [|[o ok] done IHd] using rev_ind; [done|].
  rewrite sequentially_snoc, map_app. unfold opens in *. rewrite List.filter_app, length_app.
  destruct o as [t|u|c|w]; simpl; try lia.
  - destruct (sk_in_flight (sequentially done) !! tj_invocation_id t) eqn:Hf.
    + rewrite map_size_insert_Some by (by rewrite Hf). lia.
    + rewrite map_size_insert_None by done. lia.
  - assert (∀ (f : InFlight → InFlight) k (m : gmap string InFlight), size (alter f k m) = size m) as Hs.
    { intros f k m. rewrite <- !size_dom. by rewrite dom_alter_L. }
    rewrite Hs. lia.
  - destruct (sk_in_flight (sequentially done) !! oc_invocation_id c) eqn:Hf; [|lia]. simpl.
    rewrite length_app, map_size_delete_Some by (by rewrite Hf). simpl.
    assert (size (sk_in_flight (sequentially done)) ≠ 0)%nat by (by apply map_size_non_empty_iff; intros H; rewrite H in Hf).
    lia.
Qed.
Lemma sequentially_answered done waiter :
  waiter ∈ sk_answered (sequentially done) → OfferFlush waiter ∈ map fst done.
Proof.
  induction done as [|[o ok] done IHd] using rev_ind; [by intros ?%not_elem_of_nil|].
  rewrite sequentially_snoc, map_app. destruct o as [t|u|c|w]; simpl.
  - set_solver.
  - set_solver.
  - destruct (sk_in_flight _ !! _); simpl; set_solver.
  - set_solver.
Qed.

(** The queue only loses offers, it never reorders, repeats or invents them.  At
    any interleaving of the turn with the drain task, the accepted offers are those
    already drained followed by those queued, the queue is within its capacity, and
    the spans in flight, the exports and the answered flushes are exactly those of
    draining the former one after another.  Every offer is counted once, as accepted
    or as dropped; an export is made at most once for each opened turn; and a flush
    is answered only after everything accepted before it was drained. *)
Theorem sink_is_sequential steps :
  let sink := run steps in
  ∃ done,
    accepted steps = map fst done ++ sk_queue sink
    ∧ (length (sk_queue sink) ≤ Z.to_nat (eg_queue_capacity config))%nat
    ∧ drained_as sink (sequentially done)
    ∧ ct_accepted (sk_counters sink) = wrap_u64 (counted (accepted steps))
    ∧ ct_dropped (sk_counters sink) = wrap_u64 (offered steps - counted (accepted steps))
    ∧ (length (sk_exports sink) + size (sk_in_flight sink) ≤ opens (map fst done))%nat
    ∧ ∀ waiter, waiter ∈ sk_answered sink →
        ∃ before after, accepted steps = before ++ OfferFlush waiter :: after
          ∧ before ++ [OfferFlush waiter] `prefix_of` map fst done.
Proof.
  intros sink. destruct (run_sequenced steps) as [done [Ha Hd Hr Hn Hx]]. exists done.
  destruct Hd as (Hf & He & Hans). split_and!; try done.
  - unfold sink. rewrite He, Hf. apply sequentially_opens.
  - intros waiter Hw. unfold sink in Hw. rewrite Hans in Hw.
    apply sequentially_answered, list_elem_of_split in Hw as (before & after & Heq).
    exists before, (after ++ sk_queue sink). split.
    + by rewrite Ha, Heq, <- app_assoc.
    + rewrite Heq. exists after. by rewrite <- app_assoc.
Qed.

(** ** One trace *)

Definition flight_of (turn : TrajectoryTurn) (updates : list TrajectoryUpdate) : InFlight :=
  foldl (λ flight update, observe_here update flight) (open_flight sha256 turn) updates.
Definition selected (update : TrajectoryUpdate) : bool :=
  bool_decide (class_as_str (EventClass.parse (tu_classification update)) ∈ eg_classifications config).
(** The event an update becomes, and the tool call whose span it is on. *)
Definition tool_of (update : TrajectoryUpdate) : option string :=
  if EventClass.parse (tu_classification update) ==? EventClass.Tool
  then tool_call_id (tu_raw_update update) else None.
Definition event_of (update : TrajectoryUpdate) : SpanEvent :=
  let class := EventClass.parse (tu_classification update) in
  {| ev_name := if class ==? EventClass.Tool then
                  match tool_call_id (tu_raw_update update) with
                  | Some _ => tu_classification update
                  | None => "tool"
                  end
                else class_as_str class;
     ev_time := system_time (tu_observed_at_ms update);
     ev_attributes := event_seq update
       :: if class ==? EventClass.Tool then []
          else event_attributes array_len value_text class (tu_raw_update update) config |}.
Definition on_tool (tool : option string) (updates : list TrajectoryUpdate) : list SpanEvent :=
  map event_of (List.filter (λ update, selected update && (tool_of update ==? tool)) updates).

Record flight_ok (turn : TrajectoryTurn) (updates : list TrajectoryUpdate) (flight : InFlight) : Prop := {
  fl_events : if_events flight = on_tool None updates;
  fl_tools : ∀ id, match if_tools flight !! id with
                   | Some tool => tl_events tool = on_tool (Some id) updates ∧ tl_events tool ≠ []
                   | None => on_tool (Some id) updates = []
                   end;
  fl_trace : if_trace_id flight = if_trace_id (open_flight sha256 turn);
  fl_span : if_span_id flight = if_span_id (open_flight sha256 turn);
  fl_observed : if_observed flight = Z.min u64_max (Z.of_nat (length (List.filter selected updates)));
}.
Lemma on_tool_snoc tool updates u :
  on_tool tool (updates ++ [u])
  = on_tool tool updates ++ if selected u && (tool_of u ==? tool) then [event_of u] else [].
Proof. unfold on_tool. rewrite List.filter_app, map_app. simpl. by destruct (_ && _). Qed.
Lemma flight_of_ok turn updates : flight_ok turn updates (flight_of turn updates).
Proof.
  induction updates as [|u updates IHu] using rev_ind.
  { by split. }
  unfold flight_of in *. rewrite foldl_app. simpl.
  set (flight := foldl _ _ updates) in *. destruct IHu as [He Ht Htr Hsp Ho].
  assert (∀ f : InFlight, if_observed f = if_observed (count_observed flight) → selected u = true →
    if_observed f = Z.min u64_max (Z.of_nat (length (List.filter selected (updates ++ [u])))))
    as Hcount.
  { intros f -> Hsel. rewrite List.filter_app, length_app. simpl. rewrite Hsel. simpl. rewrite Ho.
    unfold saturating_add_u64. lia. }
  unfold observe. fold (selected u). destruct (selected u) eqn:Hsel; simpl.
  - destruct (bool_decide (EventClass.parse (tu_classification u) = EventClass.Tool)) eqn:Hc.
    + unfold observe_tool. destruct (tool_call_id (tu_raw_update u)) as [id|] eqn:Hid.
      * assert (tool_of u = Some id) as Hto by (unfold tool_of; by rewrite Hc).
        assert (event_of u = {| ev_name := tu_classification u;
          ev_time := system_time (tu_observed_at_ms u); ev_attributes := [event_seq u] |}) as Hev
          by (unfold event_of; by rewrite Hc, Hid).
        split; simpl; try done; [| |by apply (Hcount (count_observed flight))].
        -- by rewrite on_tool_snoc, Hsel, Hto, app_nil_r.
        -- intros id'. rewrite on_tool_snoc, Hsel, Hto. destruct (decide (id' = id)) as [->|Hne].
           ++ rewrite lookup_insert_eq, bool_decide_true by done. simpl. specialize (Ht id).
              split; [|by destruct (tl_events _)]. rewrite Hev.
              by destruct (if_tools flight !! id) as [tool|]; simpl; [destruct Ht as [-> _]|rewrite Ht].
           ++ rewrite lookup_insert_ne, bool_decide_false by congruence. simpl. rewrite app_nil_r. apply Ht.
      * assert (tool_of u = None) as Hto by (unfold tool_of; by rewrite Hc).
        split; simpl; try done; [| |by apply (Hcount (count_observed flight))].
        -- rewrite on_tool_snoc, Hsel, Hto, He. unfold event_of. by rewrite Hc, Hid.
        -- intros id'. rewrite on_tool_snoc, Hsel, Hto. simpl. rewrite app_nil_r. apply Ht.
    + assert (tool_of u = None) as Hto by (unfold tool_of; by rewrite Hc).
      split; simpl; try done; [| |by apply (Hcount (count_observed flight))].
      * rewrite on_tool_snoc, Hsel, Hto, He. unfold event_of. by rewrite Hc.
      * intros id'. rewrite on_tool_snoc, Hsel, Hto. simpl. rewrite app_nil_r. apply Ht.
  - split; try done.
    + by rewrite on_tool_snoc, Hsel, app_nil_r.
    + intros id. rewrite on_tool_snoc, Hsel, app_nil_r. apply Ht.
    + rewrite List.filter_app, length_app. simpl. rewrite Hsel. simpl. by rewrite Nat.add_0_r.
Qed.

(** Every selected event is with its tool or with none. *)
Lemma events_partition updates ids :
  NoDup ids →
  (∀ u id, u ∈ updates → selected u = true → tool_of u = Some id → id ∈ ids) →
  map event_of (List.filter selected updates)
  ≡ₚ flat_map (λ id, on_tool (Some id) updates) ids ++ on_tool None updates.
Proof.
  intros Hnd. induction updates as [|u updates IHu] using rev_ind; intros Hids.
  { assert (flat_map (λ id, on_tool (Some id) []) ids = []) as ->; [|done].
    clear. by induction ids as [|id ids IHi]. }
  rewrite List.filter_app, map_app, IHu by (intros; eapply Hids; set_solver).
  rewrite on_tool_snoc. simpl. destruct (selected u) eqn:Hsel; simpl.
  - destruct (tool_of u) as [id|] eqn:Hto.
    + assert (id ∈ ids) as Hin by (eapply (Hids u); set_solver).
      apply list_elem_of_split in Hin as (before & after & ->).
      apply NoDup_app in Hnd as (_ & Hb & Ha). apply NoDup_cons in Ha as [Ha _].
      assert (∀ l, id ∉ l → flat_map (λ i, on_tool (Some i) (updates ++ [u])) l
                            = flat_map (λ i, on_tool (Some i) updates) l) as Hothers.
      { intros l Hl. induction l as [|i l IHl]; [done|]. simpl. rewrite IHl by set_solver.
        rewrite on_tool_snoc, Hsel, Hto, bool_decide_false by set_solver. by rewrite app_nil_r. }
      rewrite !flat_map_app. simpl. rewrite !Hothers by set_solver.
      rewrite on_tool_snoc, Hsel, Hto, bool_decide_true by done. simpl. rewrite app_nil_r.
      rewrite <- !app_assoc. simpl. solve_Permutation.
    + assert (flat_map (λ i, on_tool (Some i) (updates ++ [u])) ids
              = flat_map (λ i, on_tool (Some i) updates) ids) as ->.
      { clear -Hsel Hto. induction ids as [|i ids IHi]; [done|]. simpl. rewrite IHi.
        by rewrite on_tool_snoc, Hsel, Hto, app_nil_r. }
      by rewrite app_assoc.
  - rewrite !app_nil_r. apply Permutation_app; [|done].
    clear -Hsel. induction ids as [|i ids IHi]; [done|]. simpl.
    by rewrite on_tool_snoc, Hsel, app_nil_r, IHi.
Qed.

(** The tool calls of the selected updates. *)
Definition tool_calls (updates : list TrajectoryUpdate) : gset string :=
  list_to_set (omap tool_of (List.filter selected updates)).
Lemma flight_tools turn updates id :
  is_Some (if_tools (flight_of turn updates) !! id) ↔ id ∈ tool_calls updates.
Proof.
  pose proof (fl_tools _ _ _ (flight_of_ok turn updates) id) as Ht. unfold tool_calls.
  rewrite elem_of_list_to_set, list_elem_of_omap.
  destruct (if_tools _ !! id) as [tool|]; split.
  - intros _. destruct Ht as [Heq Hne]. rewrite Heq in Hne. unfold on_tool in Hne.
    destruct (List.filter _ updates) as [|u l] eqn:Hl; [done|].
    assert (u ∈ List.filter (λ u, selected u && (tool_of u ==? Some id)) updates) as Hu
      by (rewrite Hl; by left).
    apply elem_of_list_filter in Hu as [Hp Hu]. bool_facts. exists u. split; [|done].
    by apply elem_of_list_filter.
  - eauto.
  - by intros [].
  - intros (u & Hu & Hto). apply elem_of_list_filter in Hu as [Hsel Hu]. exfalso.
    assert (event_of u ∈ on_tool (Some id) updates) as Hin.
    { apply list_elem_of_fmap. exists u. split; [done|]. apply elem_of_list_filter.
      by rewrite Hsel, Hto, bool_decide_true. }
    rewrite Ht in Hin. by apply not_elem_of_nil in Hin.
Qed.

(** A turn is one trace that holds each selected update once.  Its spans are one
    for each tool call of a selected update, under the turn's own span, which is the
    root; all carry the trace of the turn's correlation (or of its source message),
    so that one correlation is one trace; the events of all spans together are
    exactly those of the selected updates; and the root is failed exactly when the
    turn was parked or its outcome is unknown. *)
Theorem turn_is_one_trace turn updates close :
  ∃ tools root, close_flight as_i64 close (flight_of turn updates) = tools ++ [root]
  ∧ Forall (λ span, span_parent_id span = span_id root ∧ span_name span = "execute_tool"
                    ∧ span_events span ≠ []) tools
  ∧ length tools = size (tool_calls updates)
  ∧ span_parent_id root = invalid_span ∧ span_name root = "invoke_agent"
  ∧ span_id root = derive_span_id sha256 "invocation" (tj_invocation_id turn)
  ∧ Forall (λ span, span_trace_id span
              = derive_trace_id sha256 (coalesce (tj_correlation_id turn) (tj_source_message_id turn)))
      (tools ++ [root])
  ∧ flat_map span_events (tools ++ [root]) ≡ₚ map event_of (List.filter selected updates)
  ∧ (span_status root = StatusOk ↔
       oc_parked_reason close = None ∧ oc_certainty close ≠ Some "outcome_unknown").
Proof.
  pose proof (flight_of_ok turn updates) as [He Ht Htr Hsp _].
  set (flight := flight_of turn updates) in *.
  set (listed := sort_by (by_str fst) (map_to_list (if_tools flight))).
  assert (∀ id tool, (id, tool) ∈ listed ↔ if_tools flight !! id = Some tool) as Hlisted
    by (intros id tool; unfold listed; by rewrite elem_of_sort_by, elem_of_map_to_list).
  exists (map (λ p : string * ToolSpan, tool_span flight p.2) listed), (root_span as_i64 flight close).
  split; [done|]. split_and!; [| |done|done|exact Hsp| | |].
  - apply Forall_forall. intros span ([id tool] & -> & Hin%Hlisted)%list_elem_of_fmap.
    specialize (Ht id). rewrite Hin in Ht. by destruct Ht.
  - rewrite length_map. unfold listed. rewrite sort_by_perm, length_map_to_list, <- size_dom.
    f_equal. apply set_eq. intros id. by rewrite elem_of_dom, <- (flight_tools turn).
  - apply Forall_app. split; [|by constructor].
    apply Forall_forall. by intros span ([id tool] & -> & _)%list_elem_of_fmap.
  - rewrite flat_map_app. simpl. rewrite app_nil_r, He.
    rewrite (events_partition updates (map fst listed)).
    + apply Permutation_app; [|done]. clear -Ht Hlisted.
      assert (∀ id tool, (id, tool) ∈ listed → if_tools flight !! id = Some tool) as Hl
        by (intros id tool; apply Hlisted). clear Hlisted.
      induction listed as [|[id tool] l IHl]; [done|]. simpl.
      rewrite IHl by (intros; apply Hl; by right). apply Permutation_app; [|done].
      specialize (Ht id). rewrite (Hl id tool) in Ht by by left. by destruct Ht as [-> _].
    + unfold listed. rewrite sort_by_perm. apply NoDup_fst_map_to_list.
    + intros u id Hu Hsel Hto.
      assert (is_Some (if_tools flight !! id)) as [tool Htool].
      { apply flight_tools. apply elem_of_list_to_set, list_elem_of_omap. exists u. split; [|done].
        by apply elem_of_list_filter. }
      apply list_elem_of_fmap. exists (id, tool). split; [done|]. by apply Hlisted.
  - unfold root_span, close_status. simpl.
    destruct (oc_parked_reason close), (oc_certainty close) as [certainty|]; try (by split; [|intros []]).
    destruct (certainty ==? "outcome_unknown") eqn:Hc; bool_facts; subst;
      split; try done; [by intros []|intros _; split; congruence].
Qed.
End projection.

(** ** Concrete turns *)

Definition egress_at (level : ContentLevel) (capacity : Z) : EgressConfig :=
  {| eg_endpoint := "http://127.0.0.1:4318/v1/traces"; eg_headers := ∅; eg_content := level;
     eg_classifications := every_class; eg_resource_attributes := ∅;
     eg_max_attribute_bytes := 4096; eg_queue_capacity := capacity;
     eg_export_timeout := 5000000000; eg_shutdown_flush := 2000000000; eg_agent_id := "B" |}.
Definition plain_digest (s : string) : string := String.substring 0 32 (s +:+ zero_string 32).
Definition traced_turn : TrajectoryTurn :=
  {| tj_invocation_id := "i"; tj_agent_id := "B"; tj_channel_id := "c"; tj_source_message_id := "m";
     tj_generation_id := "g"; tj_binding_id := "b"; tj_binding_generation := 1; tj_owner_epoch := 1;
     tj_correlation_id := Some "r"; tj_causation_id := None; tj_opened_at_ms := 10 |}.
Definition read_tool (title : string) : TrajectoryUpdate :=
  {| tu_invocation_id := "i"; tu_event_seq := 1; tu_observed_at_ms := 11;
     tu_classification := "tool_call";
     tu_raw_update := json_object [("toolCallId", json_string "call"); ("kind", json_string "read");
                                   ("title", json_string title)] |}.
Definition traced_end : TrajectoryOutcome :=
  {| to_invocation_id := "i"; to_closed_at_ms := 12;
     to_close := CloseTerminal "end_turn" None ExecutionCertainty.OutcomeKnown true json_null |}.
Definition traced_steps (update : TrajectoryUpdate) : list SinkStep :=
  [Offered traced_turn; Observed update; Drained true; Concluded traced_end; Drained true; Drained true].
Definition no_number (_ : Value) : option Z := None.
Definition plain_text (v : Value) : string := v.
Definition run_traced (level : ContentLevel) (capacity : Z) : list SinkStep → Sink :=
  run_sink plain_digest no_number plain_text no_number (egress_at level capacity).

Lemma content_stays_home_witness :
  sk_exports (run_traced ContentMetadata 8 (traced_steps (read_tool "secrets.txt")))
  = sk_exports (run_traced ContentMetadata 8 (traced_steps (read_tool "notes.txt")))
  ∧ length (sk_exports (run_traced ContentMetadata 8 (traced_steps (read_tool "notes.txt")))) = 1%nat
  ∧ sk_exports (run_traced ContentFull 8 (traced_steps (read_tool "secrets.txt")))
    ≠ sk_exports (run_traced ContentFull 8 (traced_steps (read_tool "notes.txt"))).
Proof.
  split_and!; [|by vm_compute|by vm_compute].
  apply (content_stays_home plain_digest no_number plain_text no_number (egress_at ContentMetadata 8));
    [done|]. repeat constructor; vm_compute; repeat split.
Defined.

(** Even at the level that should lift nothing out of an update, the call identifier
    of a tool, a text of the agent's, is an attribute of its span. *)
Lemma none_lifts_tool_call :
  ∃ spans span, (spans, true) ∈ sk_exports (run_traced ContentNone 8 (traced_steps (read_tool "notes.txt")))
  ∧ span ∈ spans ∧ text_attribute "fleetd.tool_call_id" "call" ∈ span_attributes span.
Proof.
  eexists _, _. split; [left|]. split; [left|]. right. left.
Qed.

(** A close that the full queue drops leaves its turn in flight: nothing ever exports
    or forgets it. *)
Lemma dropped_close_stays_in_flight :
  let sink := run_traced ContentMetadata 1
    [Offered traced_turn; Drained true; Observed (read_tool "x"); Concluded traced_end;
     Drained true; Drained true] in
  sk_exports sink = [] ∧ sk_queue sink = [] ∧ is_Some (sk_in_flight sink !! "i")
  ∧ ct_dropped (sk_counters sink) = 1%Z.
Proof. split_and!; [by vm_compute|by vm_compute|by eexists; vm_compute|by vm_compute]. Qed.
