(* ===== verification/ChannelStreamProps.v ===== *)
(** * A stream is the log of its channel

    [streamed] relates the world before and after a part of a stream: what was
    sent is exactly the messages of the channel between the two cursors, in order,
    and every message frame of the browser wire follows a look at the store that
    found its credential active. *)

From stdpp Require Import gmap.
From S2P Require Import Prelude Action Proto Schema Channels Messages Auth Evidence.
From S2P Require Import Lifecycle System MessageProps DeliveryProps Decoding AuthProps Safety.
From S2P Require Import StreamBroker HttpCore ChannelStream.

(** ** The log between two cursors *)

Definition log_between (c : string) (after upto : Z) (db : Db) : list MessageRow :=
  List.filter (λ m, m_seq m <=? upto) (log_after c after db).

Section log.
Context `{J : SerdeJson} {JL : SerdeJsonLaws J} (sha256_hex : string → string).

Lemma log_after_sorted c after db :
  wf db → StronglySorted (λ a b, m_seq a < m_seq b) (log_after c after db).
Proof. intros Hwf. apply sorted_filter, (wf_log _ Hwf). Qed.

(** A run appends to the log of a channel. *)
Lemma log_after_grows c after db db' :
  wf db → reaches sha256_hex db db' → ∃ added, log_after c after db' = log_after c after db ++ added.
Proof.
  intros Hwf Hr. destruct (reaches_messages sha256_hex _ _ Hwf Hr) as [added Heq].
  unfold log_after. rewrite Heq, List.filter_app. eauto.
Qed.

Lemma sorted_app_below (l1 l2 : list MessageRow) :
  StronglySorted (λ a b, m_seq a < m_seq b) (l1 ++ l2) →
  ∀ a b, a ∈ l1 → b ∈ l2 → m_seq a < m_seq b.
Proof.
  induction l1 as [|x l1 IH]; intros Hs a b Ha Hb; [by apply not_elem_of_nil in Ha|].
  apply StronglySorted_inv in Hs as [Hs Hall]. rewrite Forall_forall in Hall.
  apply elem_of_cons in Ha as [->|Ha]; [|by eapply IH]. apply Hall. set_solver.
Qed.

Lemma filter_nothing {A} (p : A → bool) l : (∀ a, a ∈ l → p a = false) → List.filter p l = [].
Proof.
  induction l as [|a l IH]; simpl; [done|]. intros Hp. rewrite Hp by set_solver. apply IH. set_solver.
Qed.

(** The log splits at the sequence number of one of its rows. *)
Lemma log_split c after rows row later db :
  wf db → log_after c after db = rows ++ [row] ++ later →
  log_between c after (m_seq row) db = rows ++ [row] ∧ log_after c (m_seq row) db = later.
Proof.
  intros Hwf Heq. pose proof (log_after_sorted c after db Hwf) as Hs. rewrite Heq, app_assoc in Hs.
  assert (∀ a, a ∈ rows ++ [row] → m_seq a <= m_seq row) as Hle.
  { intros a [Ha|Ha%list_elem_of_singleton]%elem_of_app; [|subst; lia].
    rewrite <- app_assoc in Hs. enough (m_seq a < m_seq row) by lia.
    eapply sorted_app_below; [exact Hs|exact Ha|set_solver]. }
  assert (∀ b, b ∈ later → m_seq row < m_seq b) as Hlt.
  { intros b Hb. eapply sorted_app_below; [exact Hs|set_solver|exact Hb]. }
  assert (after <= m_seq row) as Hafter.
  { assert (row ∈ log_after c after db) as Hin by (rewrite Heq; set_solver).
    apply elem_of_list_filter in Hin as [Hp _]. bool_facts. lia. }
  split.
  - unfold log_between. rewrite Heq, app_assoc, List.filter_app.
    rewrite (filter_all m_seq _ (rows ++ [row])) by (intros a Ha; apply Z.leb_le; auto).
    rewrite (filter_nothing _ later), app_nil_r; [done|]. intros b Hb. apply Z.leb_gt; auto.
  - rewrite (log_after_next c after) by done. rewrite Heq, app_assoc, List.filter_app.
    rewrite (filter_nothing _ (rows ++ [row])) by (intros a Ha; apply Z.ltb_ge; auto).
    simpl. apply (filter_all m_seq). intros b Hb. apply Z.ltb_lt; auto.
Qed.

Lemma log_between_same c after db : log_between c after after db = [].
Proof.
  apply filter_nothing. intros m [Hp _]%elem_of_list_filter. bool_facts. apply Z.leb_gt. lia.
Qed.

(** What is between two cursors stays, once the upper one is the cursor itself or
    the number of a row of the log. *)
Definition settled_cursor (c : string) (after upto : Z) (db : Db) : Prop :=
  upto = after ∨ ∃ row, row ∈ log_after c after db ∧ m_seq row = upto.

Lemma log_between_stays c after upto db db' :
  wf db → reaches sha256_hex db db' → settled_cursor c after upto db →
  log_between c after upto db' = log_between c after upto db.
Proof.
  intros Hwf Hr [->|(row & Hrow & <-)]; [by rewrite !log_between_same|].
  destruct (log_after_grows c after _ _ Hwf Hr) as [added Heq].
  apply list_elem_of_split in Hrow as (rows & later & Hrows).
  assert (wf db') as Hwf' by (eapply reaches_safe; eauto).
  destruct (log_split c after rows row later db Hwf Hrows) as [-> _].
  destruct (log_split c after rows row (later ++ added) db' Hwf') as [-> _]; [|done].
  by rewrite Heq, Hrows, <- app_assoc.
Qed.
Lemma settled_stays c after upto db db' :
  wf db → reaches sha256_hex db db' → settled_cursor c after upto db → settled_cursor c after upto db'.
Proof.
  intros Hwf Hr [->|(row & Hrow & <-)]; [by left|]. right. exists row. split; [|done].
  destruct (log_after_grows c after _ _ Hwf Hr) as [added ->]. set_solver.
Qed.
Lemma settled_trans c a b d db : a <= b → settled_cursor c a b db → settled_cursor c b d db → settled_cursor c a d db.
Proof.
  intros Hab [->|Hb] [->|(row & Hrow & <-)]; try done.
  - by left.
  - right. by exists row.
  - by right.
  - right. exists row. split; [|done]. rewrite (log_after_next c a) in Hrow by done.
    by apply elem_of_list_filter in Hrow as [_ Hrow].
Qed.
Lemma log_between_app c a b d db :
  wf db → a <= b → b <= d →
  log_between c a d db = log_between c a b db ++ log_between c b d db.
Proof.
  intros Hwf Hab Hbd. unfold log_between. rewrite (log_after_next c a b) by done.
  pose proof (log_after_sorted c a db Hwf) as Hs.
  induction (log_after c a db) as [|m l IH]; simpl; [done|].
  apply StronglySorted_inv in Hs as [Hs Hall]. rewrite Forall_forall in Hall.
  destruct (Z.leb_spec (m_seq m) d), (Z.leb_spec (m_seq m) b), (Z.ltb_spec b (m_seq m)); try lia; simpl.
  - by rewrite IH.
  - rewrite (proj2 (Z.leb_le _ _)) by lia.
    rewrite (filter_nothing (λ m0, m_seq m0 <=? b) l).
    + simpl. f_equal. rewrite IH by done.
      by rewrite (filter_nothing (λ m0, m_seq m0 <=? b) l) by (intros x Hx; apply Z.leb_gt; specialize (Hall x Hx); lia).
    + intros x Hx. apply Z.leb_gt. specialize (Hall x Hx). lia.
  - rewrite (proj2 (Z.leb_gt _ _)) by lia. by rewrite IH.
Qed.
End log.

(** ** What a part of a stream does *)

Definition sent_message `{SerdeJson} (e : Effect) : option Message :=
  match e with
  | RawSent message | FrameSent (MessageFrame message) => Some message
  | _ => None
  end.
Definition sent_messages `{SerdeJson} (log : list Effect) : list Message := omap sent_message log.

Lemma sent_app `{SerdeJson} l1 l2 : sent_messages (l1 ++ l2) = sent_messages l1 ++ sent_messages l2.
Proof. apply omap_app. Qed.

Section stream.
Context `{J : SerdeJson} {JL : SerdeJsonLaws J} `{C : TokenCodec} (sha256_hex : string → string).
Context (env_db : nat → Db → Db) (env_broker : nat → BrokerState → BrokerState)
  (env_permits : nat → Z → Z).
(** What the rest of the system does to the store is a run of its operations. *)
Context (Henv : ∀ n db, reaches sha256_hex db (env_db n db)).
Context (frame_json : BrowserStreamServerFrame → option string)
  (message_json : Message → option string) (socket_send : nat → bool).
#[local] Notation hw_tick := (hw_tick env_db env_broker env_permits).
#[local] Notation reaches := (reaches sha256_hex).
#[local] Notation reachable := (reachable sha256_hex).
#[local] Notation send_serialized := (send_serialized env_db env_broker env_permits socket_send).
#[local] Notation revalidate := (revalidate env_db env_broker env_permits).
#[local] Notation send_message :=
  (send_message env_db env_broker env_permits frame_json message_json socket_send).
#[local] Notation send_page :=
  (send_page env_db env_broker env_permits frame_json message_json socket_send).
#[local] Notation replay :=
  (replay env_db env_broker env_permits frame_json message_json socket_send).
#[local] Notation send_ready :=
  (send_ready env_db env_broker env_permits frame_json socket_send).
#[local] Notation handle_event :=
  (handle_event env_db env_broker env_permits frame_json message_json socket_send).
#[local] Notation stream_loop :=
  (stream_loop env_db env_broker env_permits frame_json message_json socket_send).
#[local] Notation stream_body :=
  (stream_body env_db env_broker env_permits frame_json message_json socket_send).
#[local] Notation run_channel_stream :=
  (run_channel_stream env_db env_broker env_permits frame_json message_json socket_send).

(** The store holds the credential active, for this principal. *)
Definition credential_active (principal : Principal) (db : Db) : Prop :=
  ∃ db', revalidate_principal principal db = Ok (true, db').

(** Every message frame directly follows a look at a store of the stream's own
    time that found the credential active. *)
Fixpoint guarded (principal : Principal) (start : Db) (previous : option Effect)
    (log : list Effect) : Prop :=
  match log with
  | [] => True
  | e :: log =>
      match e with
      | FrameSent (MessageFrame _) =>
          ∃ db, previous = Some (Validated principal db) ∧ reaches start db
                ∧ credential_active principal db
      | _ => True
      end ∧ guarded principal start (Some e) log
  end.
Definition wire_guarded (wire : StreamWire) (start : Db) (log : list Effect) : Prop :=
  match wire with Native => True | Browser principal => guarded principal start None log end.

Lemma guarded_app principal start previous l1 l2 :
  guarded principal start previous l1 → guarded principal start None l2 →
  guarded principal start previous (l1 ++ l2).
Proof.
  revert previous. induction l1 as [|e l1 IH]; intros previous H1 H2; simpl.
  - destruct l2 as [|e l2]; [done|]. destruct H2 as [He H2]. split; [|done].
    destruct e as [| | |[]| | | | | |]; try done. by destruct He as (? & ? & _).
  - destruct H1 as [He H1]. split; [done|]. by apply IH.
Qed.
Lemma guarded_later principal start start' previous l :
  reaches start start' → guarded principal start' previous l → guarded principal start previous l.
Proof.
  intros Hr. revert previous. induction l as [|e l IH]; intros previous H; [done|].
  destruct H as [He H]. split; [|by apply IH]. destruct e as [| | |[]| | | | | |]; try done.
  destruct He as (db & ? & ? & ?). exists db. split_and!; try done. by etrans.
Qed.

Record streamed (wire : StreamWire) (c : string) (from : Z) (w : HttpWorld) (to : Z) (w' : HttpWorld)
    : Prop := {
  st_reaches : reaches (hw_db w) (hw_db w');
  st_le : from <= to;
  st_settled : settled_cursor c from to (hw_db w');
  st_sent : ∃ new, hw_log w' = hw_log w ++ new
    ∧ collect message_from_row (log_between c from to (hw_db w')) = Ok (sent_messages new)
    ∧ wire_guarded wire (hw_db w) new;
}.

Lemma reaches_refl db : reaches db db.
Proof. apply rtc_refl. Qed.

(** Only time passes. *)
Lemma streamed_quiet wire c from w w' new :
  reaches (hw_db w) (hw_db w') → hw_log w' = hw_log w ++ new → sent_messages new = [] →
  wire_guarded wire (hw_db w) new → streamed wire c from w from w'.
Proof.
  intros Hr Hlog Hsent Hg. split; try done; [by left|]. exists new. split_and!; try done.
  by rewrite log_between_same, Hsent.
Qed.
Lemma collect_app {A B} (f : A → result B) l1 l2 bs1 bs2 :
  collect f l1 = Ok bs1 → collect f l2 = Ok bs2 → collect f (l1 ++ l2) = Ok (bs1 ++ bs2).
Proof.
  revert bs1. induction l1 as [|a l1 IH]; intros bs1 H1 H2; simpl in *.
  - by injection H1 as <-.
  - destruct (f a) as [b|]; [|done]. simpl in *. destruct (collect f l1) as [bs|]; [|done].
    injection H1 as <-. by erewrite IH.
Qed.
Lemma streamed_trans wire c a w b w1 d w2 :
  wf (hw_db w) → streamed wire c a w b w1 → streamed wire c b w1 d w2 → streamed wire c a w d w2.
Proof.
  intros Hwf [Hr1 Hl1 Hs1 (n1 & Hlog1 & Hc1 & Hg1)] [Hr2 Hl2 Hs2 (n2 & Hlog2 & Hc2 & Hg2)].
  assert (wf (hw_db w1)) as Hwf1 by (eapply reaches_safe; eauto).
  assert (wf (hw_db w2)) as Hwf2 by (eapply reaches_safe; eauto).
  split.
  - by etrans.
  - lia.
  - eapply settled_trans; [exact Hl1|by apply (settled_stays sha256_hex c a b (hw_db w1))|done].
  - exists (n1 ++ n2). split_and!.
    + by rewrite Hlog2, Hlog1, app_assoc.
    + rewrite (log_between_app c a b d), sent_app by done. apply collect_app; [|done].
      by rewrite (log_between_stays sha256_hex c a b _ _ Hwf1 Hr2 Hs1).
    + destruct wire; [done|]. apply guarded_app; [done|]. by eapply guarded_later.
Qed.

Lemma tick_reaches w : reaches (hw_db w) (hw_db (hw_tick w)).
Proof using Henv. apply Henv. Qed.

Lemma send_serialized_run text frame w w' r :
  send_serialized text frame w = (w', r) →
  reaches (hw_db w) (hw_db w')
  ∧ (r = inl tt ∧ hw_log w' = hw_log w ++ [frame] ∨ (∃ e, r = inr e) ∧ hw_log w' = hw_log w).
Proof using Henv.
  unfold send_serialized. destruct text as [text|].
  - unfold andthen, act. destruct (socket_send _); intros [= <- <-]; (split; [apply tick_reaches|]); eauto.
  - intros [= <- <-]. split; [apply reaches_refl|]. eauto.
Qed.
Lemma revalidate_run wire w w' r :
  revalidate wire w = (w', r) →
  reaches (hw_db w) (hw_db w')
  ∧ (r = inl tt ∧ match wire with
                  | Native => hw_log w' = hw_log w
                  | Browser principal => hw_log w' = hw_log w ++ [Validated principal (hw_db w')]
                                         ∧ credential_active principal (hw_db w')
                  end
     ∨ (∃ e, r = inr e) ∧ hw_log w' = hw_log w).
Proof using Henv.
  unfold revalidate. destruct wire as [|principal].
  - intros [= <- <-]. split; [apply reaches_refl|]. by left.
  - unfold andthen, act. destruct (revalidate_principal _ _) as [[[|] db']|e] eqn:He; intros [= <- <-];
      (split; [apply tick_reaches|]).
    + left. split; [done|]. split; [done|]. by exists db'.
    + right. eauto.
    + right. eauto.
Qed.

Lemma quiet_revalidation wire c from w w' r :
  revalidate wire w = (w', r) → streamed wire c from w from w'.
Proof using Henv JL.
  intros [Hr [[_ Hlog]|[_ Hlog]]]%revalidate_run.
  - destruct wire as [|principal].
    + by apply (streamed_quiet _ _ _ _ _ []); rewrite ?app_nil_r.
    + destruct Hlog as [Hlog _]. by apply (streamed_quiet _ _ _ _ _ [Validated principal (hw_db w')]).
  - apply (streamed_quiet _ _ _ _ _ []); rewrite ?app_nil_r; try done. by destruct wire.
Qed.

(** A row that is the next of the log, sent or not. *)
Lemma send_message_run wire c from w w' r row m later :
  reachable (hw_db w) → log_after c from (hw_db w) = row :: later → message_from_row row = Ok m →
  send_message wire m w = (w', r) →
  (r = inl tt ∧ streamed wire c from w (m_seq row) w') ∨ ((∃ e, r = inr e) ∧ streamed wire c from w from w').
Proof using Henv JL.
  intros Hreach Hlog Hm H. pose proof (reachable_wf _ _ Hreach) as Hwf. unfold send_message in H.
  apply andthen_run in H as [([] & w1 & Hv & H)|(e & Hv & ->)];
    [|right; split; [by eexists|by eapply quiet_revalidation]].
  apply quiet_revalidation with (c := c) (from := from) in Hv as Hq.
  apply revalidate_run in Hv as [Hr1 [[_ Hlog1]|[[? [=]] _]]].
  assert (match wire with
          | Native => send_serialized (message_json m) (RawSent m) w1 = (w', r)
          | Browser _ => send_serialized (frame_json (message_frame m)) (FrameSent (message_frame m)) w1
                         = (w', r)
          end) as Hsend by (by destruct wire). clear H.
  set (frame := match wire with Native => RawSent m | Browser _ => FrameSent (message_frame m) end).
  assert (reaches (hw_db w1) (hw_db w')
    ∧ (r = inl tt ∧ hw_log w' = hw_log w1 ++ [frame] ∨ (∃ e, r = inr e) ∧ hw_log w' = hw_log w1))
    as [Hr2 Hout] by (destruct wire; by apply send_serialized_run in Hsend).
  assert (wf (hw_db w1)) as Hwf1 by (eapply reaches_safe; eauto).
  destruct Hout as [[-> Hlog2]|[He Hlog2]].
  2:{ right. split; [done|]. eapply streamed_trans; [done|exact Hq|].
      apply (streamed_quiet _ _ _ _ _ []); rewrite ?app_nil_r; try done. by destruct wire. }
  left. split; [done|]. assert (reaches (hw_db w) (hw_db w')) as Hr by (by etrans).
  destruct (log_after_grows sha256_hex c from _ _ Hwf Hr) as [added Hgrow]. rewrite Hlog in Hgrow.
  assert (wf (hw_db w')) as Hwf' by (eapply reaches_safe; eauto).
  destruct (log_split sha256_hex c from [] row (later ++ added) _ Hwf' Hgrow) as [Hbetween _].
  assert (from <= m_seq row) as Hle.
  { assert (row ∈ log_after c from (hw_db w)) as Hin by (rewrite Hlog; set_solver).
    apply elem_of_list_filter in Hin as [Hp _]. bool_facts. lia. }
  split; [done|done|right; exists row; split; [rewrite Hgrow; set_solver|done]|].
  destruct wire as [|principal].
  - exists [frame]. rewrite Hlog2, Hlog1. split_and!; [done| |done].
    rewrite Hbetween. simpl. by rewrite Hm.
  - destruct Hlog1 as [Hlog1 Hactive]. exists [Validated principal (hw_db w1); frame].
    rewrite Hlog2, Hlog1, <- app_assoc. split_and!; [done| |].
    + rewrite Hbetween. simpl. by rewrite Hm.
    + simpl. split; [done|]. split; [|done]. by exists (hw_db w1).
Qed.

(** One page: the rows it was read from are still the next of the log. *)
Lemma send_page_run wire c rows msgs later from w w' r :
  reachable (hw_db w) → log_after c from (hw_db w) = rows ++ later →
  collect message_from_row rows = Ok msgs → send_page wire msgs from w = (w', r) →
  match r with
  | inl to => streamed wire c from w to w' ∧ log_between c from to (hw_db w') = rows
              ∧ ∃ added, log_after c to (hw_db w') = later ++ added
  | inr _ => ∃ to, streamed wire c from w to w'
  end.
Proof using Henv JL.
  revert msgs later from w. induction rows as [|row rows IH]; intros msgs later from w Hreach Hlog Hmsgs H; simpl in Hmsgs.
  - injection Hmsgs as <-. injection H as <- <-. split.
    + by apply (streamed_quiet _ _ _ _ _ []); rewrite ?app_nil_r; try apply reaches_refl; destruct wire.
    + split; [apply log_between_same|]. exists []. by rewrite app_nil_r.
  - destruct (message_from_row row) as [m|] eqn:Hm; [|done]. simpl in Hmsgs.
    destruct (collect message_from_row rows) as [rest|] eqn:Hrest; [|done]. injection Hmsgs as <-.
    simpl in H. pose proof (reachable_wf _ _ Hreach) as Hwf.
    apply message_from_row_ok in Hm as Hm'. destruct Hm' as [Hseq _]. rewrite Hseq in H.
    apply andthen_run in H as [([] & w1 & Hs & H)|(e & Hs & ->)];
      pose proof Hs as Hrun; eapply send_message_run in Hrun; try done;
      destruct Hrun as [[Heq Hst]|[[? Heq] Hst]]; try done; [|by eexists].
    assert (reachable (hw_db w1)) as Hreach1 by (eapply reachable_run; [done|apply Hst]).
    destruct (log_after_grows sha256_hex c from _ _ Hwf (st_reaches _ _ _ _ _ _ Hst)) as [added Hgrow].
    rewrite Hlog in Hgrow.
    destruct (log_split sha256_hex c from [] row (rows ++ later ++ added) (hw_db w1)) as [Hfirst Hafter].
    { by eapply reachable_wf. }
    { rewrite Hgrow. simpl. by rewrite app_assoc. }
    specialize (IH _ _ _ _ Hreach1 Hafter eq_refl H).
    destruct r as [to|e].
    + destruct IH as (Hst2 & Hrows & added2 & Hl2). split_and!; [by eapply streamed_trans| |].
      { assert (reaches (hw_db w1) (hw_db w')) as Hr2 by apply Hst2.
        assert (wf (hw_db w')) as Hwf' by (eapply reachable_wf, reachable_run; done).
        rewrite (log_between_app c from (m_seq row)) by (done || apply Hst || apply Hst2).
        rewrite (log_between_stays sha256_hex c from (m_seq row) _ _ (reachable_wf _ _ Hreach1) Hr2
                   (st_settled _ _ _ _ _ _ Hst)).
        by rewrite Hfirst, Hrows. }
      exists (added ++ added2). by rewrite Hl2, <- app_assoc.
    + destruct IH as [to Hst2]. exists to. by eapply streamed_trans.
Qed.

(** ** Replays *)

Lemma list_messages_ok c after lim db page db' :
  list_messages c after lim db = Ok (page, db') →
  db' = db ∧ has_channel db c = true ∧ 0 <= after.
Proof.
  intros H. unfold list_messages, ensure_exists, select, count in H. m_inv.
  split_and!; [done| |by apply Z.ltb_ge].
  unfold has_channel. apply existsb_exists. bool_facts.
  match goal with H : length _ ≠ O |- _ => rename H into Hn end.
  destruct (List.filter _ _) as [|ch l] eqn:Hf in Hn; [done|]. exists ch.
  apply (proj1 (filter_In (λ r, c_id r ==? c) ch (channels db))).
  change (rows db) with db.(channels) in Hf. rewrite Hf. by left.
Qed.

(** The world some awaits later: a stream writes nothing into the store. *)
Definition ticked (w w' : HttpWorld) : Prop :=
  ∃ k, hw_awaits w' = hw_awaits (Nat.iter k hw_tick w) ∧ hw_db w' = hw_db (Nat.iter k hw_tick w).
Definition ticked_same (w w' : HttpWorld) : Prop :=
  hw_awaits w' = hw_awaits w ∧ hw_db w' = hw_db w.

Lemma iter_tick_same k w w' :
  ticked_same w w' → ticked_same (Nat.iter k hw_tick w) (Nat.iter k hw_tick w').
Proof.
  intros Hs. induction k as [|k [IHn IHd]]; [done|]. simpl. split; simpl; [by rewrite IHn|].
  by rewrite IHn, IHd.
Qed.
#[export] Instance ticked_preorder : PreOrder ticked.
Proof.
  split.
  - intros w. by exists O.
  - intros w1 w2 w3 (k & Hk) (k' & Hk'). exists (k' + k)%nat. rewrite Nat.iter_add.
    destruct (iter_tick_same k' (Nat.iter k hw_tick w1) w2 Hk) as [Hn Hd].
    destruct Hk' as [-> ->]. by rewrite Hn, Hd.
Qed.
Lemma ticked_here w w' : ticked_same w w' → ticked w w'.
Proof. by exists O. Qed.
Lemma ticked_tick w w' : ticked_same (hw_tick w) w' → ticked w w'.
Proof. by exists 1%nat. Qed.

Lemma send_serialized_ticked text frame : within ticked (send_serialized text frame).
Proof.
  intros w w' r. unfold send_serialized. destruct text; [|by intros [= <- <-]; apply ticked_here].
  unfold andthen, act. case_match; intros [= <- <-]; by apply ticked_tick.
Qed.
Lemma revalidate_ticked wire : within ticked (revalidate wire).
Proof.
  intros w w' r. unfold revalidate. destruct wire; [by intros [= <- <-]; apply ticked_here|].
  unfold andthen, act. repeat case_match; intros [= <- <-]; by apply ticked_tick.
Qed.
Lemma send_message_ticked wire m : within ticked (send_message wire m).
Proof.
  apply within_andthen; [exact _|apply revalidate_ticked|intros ?].
  destruct wire; apply send_serialized_ticked.
Qed.
Lemma send_page_ticked wire msgs cursor : within ticked (send_page wire msgs cursor).
Proof.
  revert cursor. induction msgs as [|m msgs IH]; intros cursor; simpl.
  - apply within_done, _.
  - apply within_andthen; [exact _|apply send_message_ticked|intros ?; apply IH].
Qed.

(** A log that is read to its end was read to its end before. *)
Lemma log_nil_earlier c to db db' :
  wf db → reaches db db' → log_after c to db' = [] → log_after c to db = [].
Proof.
  intros Hwf Hr Hnil. destruct (log_after_grows sha256_hex c to _ _ Hwf Hr) as [added Heq].
  rewrite Hnil in Heq. by apply eq_sym, app_nil in Heq as [-> _].
Qed.
Lemma log_read_whole c from to db db' :
  from <= to → log_between c from to db' = log_after c from db → log_after c to db = [].
Proof.
  intros Hle Heq. rewrite (log_after_next c from to), <- Heq by done. apply filter_nothing.
  intros m [Hm _]%elem_of_list_filter. bool_facts. by apply Z.ltb_ge.
Qed.
Lemma log_between_length c from to db :
  from <= to →
  length (log_after c from db) = (length (log_between c from to db) + length (log_after c to db))%nat.
Proof.
  intros Hle. rewrite (log_after_next c from to) by done. unfold log_between.
  induction (log_after c from db) as [|m l IH]; [done|]. simpl.
  destruct (Z.leb_spec (m_seq m) to), (Z.ltb_spec to (m_seq m)); simpl; lia.
Qed.

(** One read of the log and the page it gives. *)
Lemma read_page_run c from w w' (r : MessagePage + Fault) :
  reachable (hw_db w) →
  store_read env_db env_broker env_permits (λ _, read_at (list_messages c from REPLAY_PAGE_SIZE)) w = (w', r) →
  w' = hw_tick w
  ∧ match r with
    | inl page => collect message_from_row (take 500 (log_after c from (hw_db w'))) = Ok (page_messages page)
                  ∧ 0 <= from
    | inr _ => True
    end.
Proof using Henv JL.
  intros Hreach H. unfold store_read, hw_pass, andthen, act, read_at in H.
  destruct (list_messages _ _ _ _) as [[page db']|e] eqn:Hpage; injection H as <- <-; (split; [done|]); [|done].
  apply list_messages_ok in Hpage as Hok. destruct Hok as (-> & Hch & Hfrom). split; [|done].
  destruct (list_messages_pages sha256_hex c from REPLAY_PAGE_SIZE (hw_db (hw_tick w)))
    as (page' & Hpage' & Hcollect & _); [|done|done|].
  - eapply reachable_run; [exact Hreach|apply tick_reaches].
  - rewrite Hpage in Hpage'. injection Hpage' as <-. exact Hcollect.
Qed.

Lemma streamed_tick wire c from w : streamed wire c from w from (hw_tick w).
Proof using Henv JL.
  apply (streamed_quiet _ _ _ _ _ []); rewrite ?app_nil_r; try done; [apply tick_reaches|by destruct wire].
Qed.

(** What a replay did: it sent the log from its cursor on, and when it returns it
    has sent everything the store held when it was asked. *)
Lemma replay_run fuel wire c from w w' r :
  reachable (hw_db w) → replay fuel wire c from w = (w', r) →
  match r with
  | inl (Some to) => streamed wire c from w to w' ∧ log_after c to (hw_db w) = [] ∧ 0 <= to
  | _ => ∃ to, streamed wire c from w to w'
  end.
Proof using Henv JL.
  revert from w. induction fuel as [|fuel IH]; intros from w Hreach H; simpl in H.
  - injection H as <- <-. exists from.
    apply (streamed_quiet _ _ _ _ _ []); rewrite ?app_nil_r; try done; by destruct wire.
  - apply andthen_run in H as [(page & w1 & Hread & H)|(e & Hread & ->)];
      apply map_err_run in Hread as [(page' & Hread & Heq)|(e' & Hread & Heq)]; try done;
      apply read_page_run in Hread as [-> Hpage]; try done.
    2:{ exists from. apply streamed_tick. }
    injection Heq as <-. destruct Hpage as [Hpage Hfrom].
    assert (reachable (hw_db (hw_tick w))) as Hreach1 by (eapply reachable_run; [done|apply tick_reaches]).
    pose proof (reachable_wf _ _ Hreach) as Hwf. pose proof (reachable_wf _ _ Hreach1) as Hwf1.
    apply andthen_run in H as [(to & w2 & Hsend & H)|(e & Hsend & ->)];
      eapply (send_page_run _ c _ _ (drop 500 (log_after c from (hw_db (hw_tick w)))) from) in Hsend;
      try done; rewrite ?take_drop; try done.
    2:{ destruct Hsend as [to Hst]. exists to. eapply streamed_trans; [done|apply streamed_tick|done]. }
    destruct Hsend as (Hst & Hrows & added & Hlater).
    assert (streamed wire c from w to w2) as Hst'
      by (eapply streamed_trans; [done|apply streamed_tick|done]).
    destruct (Z.ltb_spec (Z.of_nat (length (page_messages page))) REPLAY_PAGE_SIZE) as [Hshort|Hfull].
    + injection H as <- <-. split; [done|]. split; [|pose proof (st_le _ _ _ _ _ _ Hst); lia].
      apply collect_length in Hpage. unfold REPLAY_PAGE_SIZE in Hshort.
      rewrite firstn_all2 in Hrows by (rewrite length_take in Hpage; lia).
      eapply (log_nil_earlier c to _ (hw_db (hw_tick w))); [done|apply tick_reaches|].
      eapply log_read_whole; [apply Hst|exact Hrows].
    + assert (reachable (hw_db w2)) as Hreach2 by (eapply reachable_run; [exact Hreach|apply Hst']).
      apply IH in H; [|done]. destruct r as [[to'|]|e].
      * destruct H as (Hst2 & Hdone & Hpos). split_and!; [by eapply streamed_trans| |done].
        eapply log_nil_earlier; [done|apply Hst'|done].
      * destruct H as [to' Hst2]. exists to'. by eapply streamed_trans.
      * destruct H as [to' Hst2]. exists to'. by eapply streamed_trans.
Qed.

Lemma read_page_ticked {A} (op : nat → Db → result A) :
  within ticked (store_read env_db env_broker env_permits op).
Proof.
  intros w w' r. unfold store_read, hw_pass, andthen, act.
  case_match; intros [= <- <-]; by apply ticked_tick.
Qed.
Lemma replay_ticked fuel wire c cursor : within ticked (replay fuel wire c cursor).
Proof.
  revert cursor. induction fuel as [|fuel IH]; intros cursor; simpl; [apply within_done, _|].
  apply within_andthen; [exact _|apply within_map_err, read_page_ticked|intros page].
  apply within_andthen; [exact _|apply send_page_ticked|intros to].
  case_match; [apply within_done, _|apply IH].
Qed.

(** As the world's own time goes by, the log after the cursor stays below [n]. *)
Definition log_below (n : nat) (c : string) (cursor : Z) (w : HttpWorld) : Prop :=
  ∀ k, (length (log_after c cursor (hw_db (Nat.iter k hw_tick w))) < n)%nat.

Lemma log_below_ticked n c cursor w w' :
  ticked w w' → log_below n c cursor w → log_below n c cursor w'.
Proof.
  intros (k & Hk) Hb k'. destruct (iter_tick_same k' _ _ Hk) as [_ ->].
  rewrite <- Nat.iter_add. apply Hb.
Qed.
Lemma log_below_le n c cursor to w : cursor <= to → log_below n c cursor w → log_below n c to w.
Proof. intros Hle Hb k. specialize (Hb k). rewrite (log_between_length c cursor to) in Hb by done. lia. Qed.
Lemma ticks_reach k w : reaches (hw_db w) (hw_db (Nat.iter k hw_tick w)).
Proof using Henv. induction k as [|k IH]; [apply reaches_refl|]. etrans; [exact IH|apply tick_reaches]. Qed.

(** A replay whose log stays below 500 messages for each unit of fuel ends. *)
Lemma replay_finishes fuel wire c from w w' r :
  reachable (hw_db w) → log_below (500 * fuel) c from w →
  replay fuel wire c from w = (w', r) → r ≠ inl None.
Proof using Henv JL.
  revert from w. induction fuel as [|fuel IH]; intros from w Hreach Hbound H; simpl in H.
  - specialize (Hbound O). lia.
  - apply andthen_run in H as [(page & w1 & Hread & H)|(e & Hread & ->)]; [|done].
    apply map_err_run in Hread as [(page' & Hread & Heq)|(e' & Hread & Heq)]; [|done].
    injection Heq as <-. pose proof Hread as Hticked. apply read_page_ticked in Hticked.
    apply read_page_run in Hread as [-> [Hpage _]]; [|done].
    assert (reachable (hw_db (hw_tick w))) as Hreach1 by (eapply reachable_run; [done|apply tick_reaches]).
    apply andthen_run in H as [(to & w2 & Hsend & H)|(e & Hsend & ->)]; [|done].
    pose proof Hsend as Hticked2. apply send_page_ticked in Hticked2.
    eapply (send_page_run _ c _ _ (drop 500 (log_after c from (hw_db (hw_tick w)))) from) in Hsend;
      try done; rewrite ?take_drop; try done. destruct Hsend as (Hst & Hrows & _).
    destruct (Z.ltb_spec (Z.of_nat (length (page_messages page))) REPLAY_PAGE_SIZE) as [Hshort|Hfull].
    { by injection H as <- <-. }
    assert (reachable (hw_db w2)) as Hreach2 by (eapply reachable_run; [exact Hreach1|apply Hst]).
    eapply IH; [done| |exact H].
    assert (ticked w w2) as Hticks by (etrans; [exact Hticked|exact Hticked2]).
    intros k. specialize (log_below_ticked _ _ _ _ _ Hticks Hbound k) as Hk.
    rewrite (log_between_length c from to) in Hk by apply Hst.
    rewrite (log_between_stays sha256_hex c from to _ _ (reachable_wf _ _ Hreach2) (ticks_reach k w2)
               (st_settled _ _ _ _ _ _ Hst)), Hrows in Hk.
    apply collect_length in Hpage. unfold REPLAY_PAGE_SIZE in Hfull. lia.
Qed.

(** ** The loop *)

(** What an action returns with, when it is a cursor, or an error. *)
Definition stream_result (wire : StreamWire) (c : string) (from : Z) (w w' : HttpWorld)
    (r : option Z + StreamTermination) : Prop :=
  match r with
  | inl (Some to) => streamed wire c from w to w'
  | _ => ∃ to, streamed wire c from w to w'
  end.

Lemma streamed_refl wire c from w : streamed wire c from w from w.
Proof.
  apply (streamed_quiet _ _ _ _ _ []); rewrite ?app_nil_r; try done; by destruct wire.
Qed.
Lemma accept_incoming_run wire incoming w w' r :
  accept_incoming wire incoming w = (w', r) → w' = w.
Proof. destruct wire, incoming as [| |[]]; intros [= <- _]; done. Qed.

Lemma replay_result fuel wire c from w w' r :
  reachable (hw_db w) → replay fuel wire c from w = (w', r) → stream_result wire c from w w' r.
Proof using Henv JL.
  intros Hreach H. apply replay_run in H; [|done]. by destruct r as [[to|]|]; [destruct H| |].
Qed.
Lemma handle_event_run fuel wire c from event w w' r :
  reachable (hw_db w) → handle_event fuel wire c from event w = (w', r) →
  stream_result wire c from w w' r.
Proof using Henv JL.
  intros Hreach H. destruct event as [incoming|[[m|]|n|]|]; simpl in H.
  - apply andthen_run in H as [([] & w1 & Ha%accept_incoming_run & H)|(e & Ha%accept_incoming_run & ->)];
      subst; [injection H as <- <-|exists from]; apply streamed_refl.
  - destruct (_ && _); [by eapply replay_result|]. injection H as <- <-. apply streamed_refl.
  - by eapply replay_result.
  - by eapply replay_result.
  - injection H as <- <-. exists from. apply streamed_refl.
  - apply andthen_run in H as [([] & w1 & Hv & H)|(e & Hv & ->)];
      apply (quiet_revalidation _ c from) in Hv; [by injection H as <- <-|by exists from].
Qed.

(** Messages that a cursor has passed were sent. *)
Lemma stream_loop_run fuel wire c from events w w' r :
  reachable (hw_db w) → stream_loop fuel wire c from events w = (w', r) →
  stream_result wire c from w w' r.
Proof using Henv JL.
  revert from w. induction events as [|event events IH]; intros from w Hreach H; simpl in H.
  - injection H as <- <-. apply streamed_refl.
  - apply andthen_run in H as [(next & w1 & He & H)|(e & He & ->)];
      apply handle_event_run in He; try done.
    destruct next as [to|]; [|by injection H as <- <-].
    assert (reachable (hw_db w1)) as Hreach1 by (eapply reachable_run; [exact Hreach|apply He]).
    pose proof (reachable_wf _ _ Hreach) as Hwf. apply IH in H; [|done].
    destruct r as [[to'|]|e]; simpl in *;
      [|destruct H as [to' H]; exists to'..]; by eapply streamed_trans.
Qed.

Lemma handle_event_ticked fuel wire c cursor event : within ticked (handle_event fuel wire c cursor event).
Proof.
  destruct event as [incoming|[[m|]|n|]|]; simpl; try apply replay_ticked.
  - apply within_andthen; [exact _| |intros ?; apply within_done, _].
    intros w w' r ->%accept_incoming_run. reflexivity.
  - destruct (_ && _); [apply replay_ticked|apply within_done, _].
  - apply within_throw, _.
  - apply within_andthen; [exact _|apply revalidate_ticked|intros ?; apply within_done, _].
Qed.

(** As long as the log after the cursor stays below 500 messages a unit, no replay
    runs out of fuel. *)
Lemma stream_loop_finishes fuel wire c from events w w' r :
  reachable (hw_db w) → log_below (500 * fuel) c from w →
  stream_loop fuel wire c from events w = (w', r) → r ≠ inl None.
Proof using Henv JL.
  revert from w. induction events as [|event events IH]; intros from w Hreach Hb H; simpl in H.
  - by injection H as <- <-.
  - apply andthen_run in H as [(next & w1 & He & H)|(e & He & ->)]; [|done].
    assert (next ≠ None) as Hnext.
    { destruct event as [incoming|[[m|]|n|]|]; simpl in He.
      - by apply andthen_run in He as [([] & w2 & _ & [= _ <-])|(e & _ & [=])].
      - destruct (_ && _); [|by injection He as _ <-]. apply replay_finishes in He; [congruence|done..].
      - apply replay_finishes in He; [congruence|done..].
      - apply replay_finishes in He; [congruence|done..].
      - done.
      - by apply andthen_run in He as [([] & w2 & _ & [= _ <-])|(e & _ & [=])]. }
    destruct next as [to|]; [|done]. pose proof He as Hst. apply handle_event_run in Hst; [|done].
    apply handle_event_ticked in He. eapply IH; [| |exact H].
    + eapply reachable_run; [exact Hreach|apply Hst].
    + eapply log_below_ticked; [exact He|]. eapply log_below_le; [apply Hst|done].
Qed.

(** ** Whole streams *)

(** The browser's first frame; the native wire has none. *)
Definition opened (wire : StreamWire) (c : string) (after : Z) (new rest : list Effect) : Prop :=
  match wire with
  | Native => new = rest
  | Browser _ => ∃ cursor, cursor_new after = Some cursor ∧ new = FrameSent (ready_frame c cursor) :: rest
  end.

Lemma send_ready_run wire c after w w' r :
  send_ready wire c after w = (w', r) →
  reaches (hw_db w) (hw_db w') ∧ ticked w w'
  ∧ ((∃ e, r = inr e) ∧ hw_log w' = hw_log w
     ∨ r = inl tt ∧ ∃ first, hw_log w' = hw_log w ++ first ∧ opened wire c after first []).
Proof using Henv.
  unfold send_ready. destruct wire as [|principal].
  - intros [= <- <-]. split_and!; [apply reaches_refl|by apply ticked_here|]. right. split; [done|].
    exists []. by rewrite app_nil_r.
  - destruct (cursor_new after) as [cursor|] eqn:Hcursor.
    2:{ intros [= <- <-]. split_and!; [apply reaches_refl|by apply ticked_here|]. left. eauto. }
    intros Hs. pose proof Hs as Ht. apply send_serialized_ticked in Ht.
    apply send_serialized_run in Hs as [Hr Hout]. split_and!; [done..|].
    destruct Hout as [[-> Hlog]|Hout]; [right|by left]. split; [done|].
    eexists. split; [exact Hlog|]. by exists cursor.
Qed.

(** A stream is its opening, and then the log. *)
Record stream_log (wire : StreamWire) (c : string) (after : Z) (w : HttpWorld) (to : Z)
    (w' : HttpWorld) (new : list Effect) : Prop := {
  sl_reaches : reaches (hw_db w) (hw_db w');
  sl_new : hw_log w' = hw_log w ++ new;
  sl_le : after <= to;
  sl_settled : settled_cursor c after to (hw_db w');
  sl_sent : collect message_from_row (log_between c after to (hw_db w')) = Ok (sent_messages new);
  sl_opened : sent_messages new ≠ [] → ∃ rest, opened wire c after new rest;
  sl_guarded : wire_guarded wire (hw_db w) new;
}.

Lemma opened_sent wire c after new rest :
  opened wire c after new rest → sent_messages new = sent_messages rest.
Proof. destruct wire; [by intros ->|]. by intros (cursor & _ & ->). Qed.
Lemma opened_app wire c after first rest :
  opened wire c after first [] → opened wire c after (first ++ rest) rest.
Proof. destruct wire; simpl; [by intros ->|]. intros (cursor & ? & ->). by exists cursor. Qed.
Lemma guarded_opened wire c after first rest start start' :
  reaches start start' → opened wire c after first [] → wire_guarded wire start' rest →
  wire_guarded wire start (first ++ rest).
Proof.
  intros Hr Ho Hg. destruct wire as [|principal]; [done|]. destruct Ho as (cursor & _ & ->).
  apply guarded_app; [done|]. by eapply guarded_later.
Qed.

Lemma stream_log_quiet wire c after w w' :
  reaches (hw_db w) (hw_db w') → hw_log w' = hw_log w → stream_log wire c after w after w' [].
Proof.
  intros Hr Hlog. split; try done; [by rewrite app_nil_r|by left|by rewrite log_between_same|].
  by destruct wire.
Qed.
Lemma stream_log_of wire c after w w1 to w' first :
  reaches (hw_db w) (hw_db w1) → hw_log w1 = hw_log w ++ first → opened wire c after first [] →
  streamed wire c after w1 to w' → ∃ new, stream_log wire c after w to w' new.
Proof.
  intros Hr Hlog Ho [Hr' Hle Hset (rest & Hrest & Hc & Hg)]. exists (first ++ rest).
  pose proof (opened_app _ _ _ _ rest Ho) as Ho'. split; try done.
  - by etrans.
  - by rewrite Hrest, Hlog, app_assoc.
  - by rewrite (opened_sent _ _ _ _ _ Ho').
  - eauto.
  - by eapply guarded_opened.
Qed.
(** Other effects may follow. *)
Lemma stream_log_close wire c after w to w' w'' new e :
  wf (hw_db w) → stream_log wire c after w to w' new → reaches (hw_db w') (hw_db w'') →
  hw_log w'' = hw_log w' ++ [e] → sent_message e = None → stream_log wire c after w to w'' (new ++ [e]).
Proof.
  intros Hwf [Hr Hnew Hle Hset Hsent Ho Hg] Hr' Hlog He.
  assert (wf (hw_db w')) as Hwf' by (by apply (reaches_safe sha256_hex (hw_db w))).
  assert (sent_messages (new ++ [e]) = sent_messages new) as Heq.
  { rewrite sent_app. unfold sent_messages at 2. simpl. by rewrite He, app_nil_r. }
  split; try done.
  - by etrans.
  - by rewrite Hlog, Hnew, app_assoc.
  - by eapply settled_stays.
  - rewrite Heq. by erewrite log_between_stays.
  - rewrite Heq. intros Hne. destruct (Ho Hne) as [rest Hrest]. exists (rest ++ [e]).
    destruct wire; simpl in *; [by rewrite Hrest|]. destruct Hrest as (cursor & ? & ->). by exists cursor.
  - destruct wire; [done|]. apply guarded_app; [done|]. simpl.
    destruct e as [| | |[]| | | | | |]; done.
Qed.

Definition body_result (wire : StreamWire) (c : string) (after : Z) (w w' : HttpWorld)
    (r : option Z + StreamTermination) : Prop :=
  match r with
  | inl (Some to) => (∃ new, stream_log wire c after w to w' new) ∧ log_after c to (hw_db w) = []
  | _ => ∃ to new, stream_log wire c after w to w' new
  end.

Lemma log_nil_later_cursor c a b db : a <= b → log_after c a db = [] → log_after c b db = [].
Proof. intros Hle Hnil. by rewrite (log_after_next c a b), Hnil. Qed.

Lemma stream_body_run fuel wire authorization events w w' r :
  let c := acs_channel_id authorization in
  let after := acs_after authorization in
  reachable (hw_db w) → stream_body fuel wire authorization events w = (w', r) →
  body_result wire c after w w' r.
Proof using Henv JL.
  intros c after Hreach H. pose proof (reachable_wf _ _ Hreach) as Hwf. unfold stream_body in H.
  apply andthen_run in H as [([] & w1 & Hs & H)|(e & Hs & ->)]; apply send_ready_run in Hs as (Hr & _ & Hout).
  2:{ destruct Hout as [[_ Hlog]|[[=] _]]. exists after, []. by apply stream_log_quiet. }
  destruct Hout as [[[? [=]] _]|[_ (first & Hlog & Ho)]].
  assert (reachable (hw_db w1)) as Hreach1 by (eapply reachable_run; done).
  pose proof (reachable_wf _ _ Hreach1) as Hwf1.
  apply andthen_run in H as [(next & w2 & Hreplay & H)|(e & Hreplay & ->)];
    apply replay_run in Hreplay; try done.
  2:{ destruct Hreplay as [to Hst]. exists to. by eapply stream_log_of. }
  destruct next as [to|].
  2:{ injection H as <- <-. destruct Hreplay as [to Hst]. exists to. by eapply stream_log_of. }
  destruct Hreplay as (Hst & Hdone & _).
  assert (reachable (hw_db w2)) as Hreach2 by (eapply reachable_run; [exact Hreach1|apply Hst]).
  apply stream_loop_run in H; [|done].
  destruct r as [[to'|]|e]; simpl in H |- *.
  - split; [eapply stream_log_of; [done..|by eapply streamed_trans]|].
    eapply log_nil_later_cursor; [apply H|]. by eapply log_nil_earlier.
  - destruct H as [to' H]. exists to'. eapply stream_log_of; [done..|by eapply streamed_trans].
  - destruct H as [to' H]. exists to'. eapply stream_log_of; [done..|by eapply streamed_trans].
Qed.

Lemma finish_run wire termination w :
  reaches (hw_db w) (hw_db (finish env_db env_broker env_permits wire termination w))
  ∧ (hw_log (finish env_db env_broker env_permits wire termination w) = hw_log w
     ∨ ∃ code reason, hw_log (finish env_db env_broker env_permits wire termination w)
                      = hw_log w ++ [SocketClosed code reason]).
Proof using Henv.
  unfold finish. destruct wire; [split; [apply reaches_refl|by left]|].
  destruct (close_of termination) as [[code reason]|]; [|split; [apply reaches_refl|by left]].
  split; [apply (tick_reaches (hw_push (SocketClosed code reason) w))|]. right. by exists code, reason.
Qed.
Lemma run_channel_stream_run fuel wire authorization events w w' outcome :
  let c := acs_channel_id authorization in
  let after := acs_after authorization in
  reachable (hw_db w) → run_channel_stream fuel wire authorization events w = (w', outcome) →
  ∃ to new, stream_log wire c after w to w' new
    ∧ ∀ cursor, outcome = StreamOpen cursor → to = cursor ∧ log_after c cursor (hw_db w) = [].
Proof using Henv JL.
  intros c after Hreach H. unfold run_channel_stream in H.
  destruct (stream_body _ _ _ _ _) as [w1 r] eqn:Hbody. apply stream_body_run in Hbody; [|done].
  destruct r as [[to|]|termination]; injection H as <- <-; simpl in Hbody.
  - destruct Hbody as [[new Hlog] Hdone]. exists to, new. split; [done|]. by intros cursor [= <-].
  - destruct Hbody as (to & new & Hlog). exists to, new. done.
  - destruct Hbody as (to & new & Hlog). destruct (finish_run wire termination w1) as [Hr Hout].
    destruct Hout as [Hout|(code & reason & Hout)].
    + exists to, new. split; [|done]. destruct Hlog as [Hr0 Hnew Hle Hset Hsent Ho Hg].
      pose proof (reachable_wf _ _ (reachable_run _ _ _ Hreach Hr0)) as Hwf1.
      split; try done; [by etrans|by rewrite Hout|by eapply settled_stays|by erewrite log_between_stays].
    + exists to, (new ++ [SocketClosed code reason]). split; [|done].
      eapply stream_log_close; [by eapply reachable_wf|done..].
Qed.

(** C16 A stream is the log of its channel.  Whatever the store becomes while it
    runs and however it ends, the messages a stream sent are exactly those of its
    channel between the cursor it was opened at and one it reached: none missing,
    none twice, in sequence order, and the browser's come after the ready frame
    that repeats its cursor.  A stream that is still open has reached at least the
    end of the log it was opened on. *)
Theorem stream_is_the_log fuel wire authorization events w w' outcome :
  let c := acs_channel_id authorization in
  let after := acs_after authorization in
  reachable (hw_db w) → run_channel_stream fuel wire authorization events w = (w', outcome) →
  ∃ to new, hw_log w' = hw_log w ++ new ∧ after <= to
    ∧ collect message_from_row (log_between c after to (hw_db w')) = Ok (sent_messages new)
    ∧ (sent_messages new ≠ [] → ∃ rest, opened wire c after new rest)
    ∧ ∀ cursor, outcome = StreamOpen cursor → to = cursor ∧ log_after c cursor (hw_db w) = [].
Proof using Henv JL.
  intros c after Hreach H. apply run_channel_stream_run in H as (to & new & [] & Hopen); [|done].
  exists to, new. by split_and!.
Qed.

(** ** Wake-ups *)

(** A wake that is about the row: the message itself or a later one of the
    channel, or one that tells no message. *)
Definition prompts (wake : WakeResult) (c : string) (row : MessageRow) : Prop :=
  match wake with
  | WakeMessage (Committed m) => msg_channel_id m = c ∧ m_seq row <= msg_seq m
  | WakeMessage External | WakeLagged _ => True
  | WakeClosed => False
  end.

Lemma log_end_passes c after to db row :
  log_after c to db = [] → row ∈ log_after c after db → m_seq row <= to.
Proof.
  intros Hnil Hrow. destruct (Z.le_gt_cases (m_seq row) to) as [|Hgt]; [done|]. exfalso.
  apply (not_elem_of_nil row). rewrite <- Hnil. unfold log_after in *.
  apply elem_of_list_filter in Hrow as [Hp Hrow]. apply elem_of_list_filter. split; [|done].
  bool_facts. subst. rewrite bool_decide_true by done. by rewrite (proj2 (Z.ltb_lt _ _)).
Qed.
Lemma wake_catches_up fuel wire c from wake w w' to row after :
  reachable (hw_db w) → handle_event fuel wire c from (Wake wake) w = (w', inl (Some to)) →
  row ∈ log_after c after (hw_db w) → prompts wake c row → m_seq row <= to.
Proof using Henv JL.
  intros Hreach H Hrow Hp.
  assert (replay fuel wire c from w = (w', inl (Some to)) → m_seq row <= to) as Hreplay.
  { intros Hr. apply replay_run in Hr as (_ & Hnil & _); [|done]. by eapply log_end_passes. }
  destruct wake as [[m|]|n|]; simpl in H; try (by apply Hreplay).
  destruct Hp as [Hc Hle]. rewrite bool_decide_true in H by done.
  destruct (Z.ltb_spec from (msg_seq m)); simpl in H; [by apply Hreplay|].
  injection H as _ <-. lia.
Qed.

Lemma stream_loop_snoc fuel wire c from events event w :
  stream_loop fuel wire c from (events ++ [event]) w
  = match stream_loop fuel wire c from events w with
    | (w1, inl (Some cursor)) => handle_event fuel wire c cursor event w1
    | other => other
    end.
Proof.
  revert from w. induction events as [|e events IH]; intros from w; simpl; unfold andthen.
  - unfold done_with. by destruct (handle_event _ _ _ _ _ _) as [w1 [[to|]|]].
  - destruct (handle_event _ _ _ from e w) as [w1 [[to|]|]]; [apply IH|done..].
Qed.
Lemma stream_body_snoc fuel wire authorization events event w w1 cursor :
  stream_body fuel wire authorization events w = (w1, inl (Some cursor)) →
  stream_body fuel wire authorization (events ++ [event]) w
  = handle_event fuel wire (acs_channel_id authorization) cursor event w1.
Proof.
  unfold stream_body, andthen. destruct (send_ready _ _ _ _) as [w2 [[]|]]; [|done].
  destruct (replay _ _ _ _ _) as [w3 [[to|]|]]; [|done..]. intros H.
  by rewrite stream_loop_snoc, H.
Qed.

Lemma log_between_elem c after to db row :
  row ∈ log_after c after db → m_seq row <= to → row ∈ log_between c after to db.
Proof.
  intros Hrow Hle. apply elem_of_list_filter. by rewrite (proj2 (Z.leb_le _ _)).
Qed.

(** C17 A committed message reaches every open stream.  Once a stream that stays
    open has dealt with a wake-up (the announcement of the message or of a later
    one of its channel, a wake-up from another process, or a lag of the bus), every
    message the wake is about that the store held when it came has been sent. *)
Theorem live_messages_delivered fuel wire authorization events wake w w1 cursor w' to row :
  let c := acs_channel_id authorization in
  let after := acs_after authorization in
  reachable (hw_db w) →
  stream_body fuel wire authorization events w = (w1, inl (Some cursor)) →
  row ∈ log_after c after (hw_db w1) → prompts wake c row →
  stream_body fuel wire authorization (events ++ [Wake wake]) w = (w', inl (Some to)) →
  ∃ message new, hw_log w' = hw_log w ++ new ∧ message_from_row row = Ok message
    ∧ message ∈ sent_messages new.
Proof using Henv JL.
  intros c after Hreach Hbefore Hrow Hp H.
  pose proof H as Hall. apply stream_body_run in Hall as [[new Hlog] _]; [|done].
  rewrite (stream_body_snoc _ _ _ _ _ _ _ _ Hbefore) in H.
  apply stream_body_run in Hbefore as [[new1 Hlog1] _]; [|done].
  assert (reachable (hw_db w1)) as Hreach1 by (eapply reachable_run; [exact Hreach|apply Hlog1]).
  pose proof (wake_catches_up _ _ _ _ _ _ _ _ row after Hreach1 H Hrow Hp) as Hle.
  apply handle_event_run in H as [Hr _ _ _]; [|done].
  destruct (log_after_grows sha256_hex c after _ _ (reachable_wf _ _ Hreach1) Hr) as [added Heq].
  assert (row ∈ log_between c after to (hw_db w')) as Hin.
  { apply log_between_elem; [rewrite Heq; set_solver|done]. }
  destruct (collect_in _ _ _ _ (sl_sent _ _ _ _ _ _ _ Hlog) Hin) as (message & Hm & Hsent).
  exists message, new. split_and!; [apply Hlog|done..].
Qed.

(** C23 A replay ends.  If the log after the cursor of a stream stays below 500
    messages for each page it may read, the stream never runs out of them: its run
    is open, or has ended. *)
Theorem replay_terminates fuel wire authorization events w :
  reachable (hw_db w) →
  log_below (500 * fuel) (acs_channel_id authorization) (acs_after authorization) w →
  (run_channel_stream fuel wire authorization events w).2 ≠ StreamUnfinished.
Proof using Henv JL.
  intros Hreach Hb. unfold run_channel_stream.
  destruct (stream_body _ _ _ _ _) as [w' r] eqn:H.
  enough (r ≠ inl None) by (by destruct r as [[]|]).
  unfold stream_body in H.
  apply andthen_run in H as [([] & w1 & Hs & H)|(e & Hs & ->)]; [|done].
  apply send_ready_run in Hs as (Hr & Ht & _).
  assert (reachable (hw_db w1)) as Hreach1 by (eapply reachable_run; done).
  apply (log_below_ticked _ _ _ _ _ Ht) in Hb.
  apply andthen_run in H as [(next & w2 & Hreplay & H)|(e & Hreplay & ->)]; [|done].
  pose proof Hreplay as Ht2. apply replay_ticked in Ht2.
  assert (next ≠ None) as Hnext by (apply replay_finishes in Hreplay; [congruence|done..]).
  destruct next as [to|]; [|done]. apply replay_run in Hreplay as (Hst & _ & _); [|done].
  eapply stream_loop_finishes; [| |exact H].
  - eapply reachable_run; [exact Hreach1|apply Hst].
  - eapply log_below_ticked; [exact Ht2|]. eapply log_below_le; [apply Hst|done].
Qed.

(** ** Revocation *)

(** The store holds the credential revoked. *)
Definition revoked_in (principal : Principal) (db : Db) : Prop :=
  ∃ cr, cr ∈ db.(auth_credentials) ∧ cr_id cr = principal_credential_id principal
        ∧ cr_revoked_at_ms cr ≠ None.

Lemma revoked_stays_inactive principal db db' :
  wf db → reaches db db' → revoked_in principal db → ¬ credential_active principal db'.
Proof.
  intros Hwf Hr (cr & Hcr & Hid & Hrev) [db'' Hactive].
  destruct (reaches_safe _ _ _ Hwf Hr) as [Hwf' He].
  destruct (table_rel_elem _ _ _ _ (ev_credentials _ _ _ He) Hcr) as (cr' & Hcr' & Hm).
  apply credential_moves in Hm as (Hid' & _ & _ & _ & _ & Heq). specialize (Heq Hrev). subst cr'.
  unfold revalidate_principal, bind, fetch_optional, gets in Hactive. simpl in Hactive.
  destruct (List.find _ _) as [a|] eqn:Hf in Hactive; [|done].
  apply find_some_elem in Hf as [Hin Hp]. bool_facts.
  assert (a = cr) as ->.
  { apply (unique_row db'); [done..|]. simpl. unfold conflict_credential.
    by rewrite (bool_decide_true (cr_id a = cr_id cr)) by congruence. }
  by apply Hrev, is_none_eq.
Qed.

Lemma revoked_in_stays principal db db' :
  wf db → reaches db db' → revoked_in principal db → revoked_in principal db'.
Proof.
  intros Hwf Hr (cr & Hcr & Hid & Hrev). destruct (reaches_safe _ _ _ Hwf Hr) as [_ He].
  destruct (table_rel_elem _ _ _ _ (ev_credentials _ _ _ He) Hcr) as (cr' & Hcr' & Hm).
  apply credential_moves in Hm as (_ & _ & _ & _ & _ & Heq). specialize (Heq Hrev). subst cr'.
  by exists cr.
Qed.

Lemma guarded_split principal start previous pre m post :
  guarded principal start previous (pre ++ FrameSent (MessageFrame m) :: post) →
  ∃ db, (pre = [] ∧ previous = Some (Validated principal db)
         ∨ ∃ pre', pre = pre' ++ [Validated principal db])
        ∧ reaches start db ∧ credential_active principal db.
Proof.
  revert previous. induction pre as [|e pre IH]; intros previous [He H].
  - destruct He as (db & -> & ? & ?). exists db. split_and!; [by left|done..].
  - destruct (IH _ H) as (db & Hpre & ? & ?). exists db. split_and!; [right|done..].
    destruct Hpre as [[-> [= ->]]|[pre' ->]]; [by exists []|by exists (e :: pre')].
Qed.

(** The loop cannot pass a revalidation while the credential is revoked. *)
Lemma loop_needs_credential fuel principal c from events w w' to :
  reachable (hw_db w) → revoked_in principal (hw_db w) → Revalidate ∈ events →
  stream_loop fuel (Browser principal) c from events w ≠ (w', inl (Some to)).
Proof using Henv JL.
  intros Hreach Hrev Hin H. pose proof (reachable_wf _ _ Hreach) as Hwf.
  apply list_elem_of_split in Hin as (before & after & ->).
  assert (∀ from w, stream_loop fuel (Browser principal) c from (before ++ Revalidate :: after) w = (w', inl (Some to)) →
            reachable (hw_db w) → ∃ db, reaches (hw_db w) db ∧ credential_active principal db) as Hactive.
  { clear H Hreach Hrev Hwf from w. induction before as [|e before IH]; intros from w H Hreach; simpl in H.
    - apply andthen_run in H as [(next & w1 & Hv & H)|(e & _ & [=])].
      apply andthen_run in Hv as [([] & w2 & Hv & _)|(e & _ & [=])].
      apply (revalidate_run (Browser principal)) in Hv as [Hr [[_ [_ Ha]]|[[? [=]] _]]]. by exists (hw_db w2).
    - apply andthen_run in H as [([to1|] & w1 & He & H)|(e' & _ & [=])]; [|done].
      apply handle_event_run in He as [Hr _ _ _]; [|done].
      apply IH in H as (db & ? & ?); [|by eapply reachable_run]. exists db. split; [by etrans|done]. }
  destruct (Hactive _ _ H Hreach) as (db & Hr & Ha).
  by eapply (revoked_stays_inactive principal (hw_db w) db).
Qed.

(** C18 On the browser wire a revoked credential sees nothing more.  Every message
    frame of a browser stream directly follows a look at a store of the stream's own
    time that found the credential active; so a browser stream whose credential is
    revoked sends no message at all from then on, and does not survive its next
    revalidation.  The native wire never looks again: StreamSocketProps has a native
    stream that goes on under a revoked token. *)
Theorem revoked_stream_stops fuel principal authorization events w w' outcome :
  reachable (hw_db w) →
  run_channel_stream fuel (Browser principal) authorization events w = (w', outcome) →
  ∃ new, hw_log w' = hw_log w ++ new
    ∧ (∀ pre m post, new = pre ++ FrameSent (MessageFrame m) :: post →
         ∃ pre' db, pre = pre' ++ [Validated principal db] ∧ reaches (hw_db w) db
           ∧ credential_active principal db ∧ ¬ revoked_in principal db)
    ∧ (revoked_in principal (hw_db w) →
         (∀ m, FrameSent (MessageFrame m) ∉ new)
         ∧ (Revalidate ∈ events → ∀ cursor, outcome ≠ StreamOpen cursor)).
Proof using Henv JL.
  intros Hreach H. pose proof (reachable_wf _ _ Hreach) as Hwf.
  pose proof H as Hrun. apply run_channel_stream_run in Hrun as (to & new & Hlog & _); [|done].
  exists new. destruct Hlog as [_ Hnew _ _ _ _ Hg]. simpl in Hg.
  assert (∀ pre m post, new = pre ++ FrameSent (MessageFrame m) :: post →
         ∃ pre' db, pre = pre' ++ [Validated principal db] ∧ reaches (hw_db w) db
           ∧ credential_active principal db) as Hsplit.
  { intros pre m post ->. apply guarded_split in Hg as (db & [[_ [=]]|[pre' ->]] & ? & ?). eauto. }
  split_and!; [done| |].
  - intros pre m post Heq. destruct (Hsplit _ _ _ Heq) as (pre' & db & ? & Hr & Ha).
    exists pre', db. split_and!; try done. intros Hrev.
    assert (wf db) as Hwf' by (by apply (reaches_safe sha256_hex (hw_db w))).
    by apply (revoked_stays_inactive principal db db Hwf' (reaches_refl _) Hrev).
  - intros Hrev. split.
    + intros m (pre & post & Heq)%list_elem_of_split.
      destruct (Hsplit _ _ _ Heq) as (pre' & db & _ & Hr & Ha).
      by apply (revoked_stays_inactive principal _ _ Hwf Hr Hrev).
    + intros Hin cursor ->. unfold run_channel_stream in H.
      destruct (stream_body _ _ _ _ _) as [w1 [[cur|]|]] eqn:Hbody; [|done..].
      unfold stream_body in Hbody.
      apply andthen_run in Hbody as [([] & w2 & Hs & Hbody)|(e & _ & [=])].
      apply send_ready_run in Hs as (Hr & _ & _).
      assert (reachable (hw_db w2)) as Hreach2 by (eapply reachable_run; done).
      apply andthen_run in Hbody as [([to2|] & w3 & Hreplay & Hbody)|(e & _ & [=])]; [|done].
      apply replay_run in Hreplay as (Hst & _ & _); [|done].
      assert (reaches (hw_db w) (hw_db w3)) as Hr3 by (etrans; [exact Hr|apply Hst]).
      eapply loop_needs_credential in Hbody; [done| |by eapply revoked_in_stays|done].
      eapply reachable_run; [exact Hreach|done].
Qed.
End stream.
