(* ===== verification/StreamSocketProps.v ===== *)
(** * The life of a browser socket

    What the handler of a browser's channel stream takes and gives back on each of
    its paths, and what it has looked at when it starts to stream.
    Then the theorems on streams at concrete states: a channel with one message,
    its member's credential, and a second message published while the stream runs. *)

From stdpp Require Import gmap.
From S2P Require Import Prelude Action Proto Schema Channels Messages Auth Evidence.
From S2P Require Import Lifecycle System Scenario MessageProps AuthProps.
From S2P Require Import StreamBroker StreamBrokerProps HttpCore ChannelStream ChannelStreamProps.

(** The permits and slots of a log, in order. *)
Definition resource `{SerdeJson} (e : Effect) : bool :=
  match e with
  | SlotTaken _ | SlotDropped _ | PermitTaken | PermitDropped => true
  | _ => false
  end.
Definition resources `{SerdeJson} (log : list Effect) : list Effect := List.filter resource log.

Lemma resources_app `{SerdeJson} l1 l2 : resources (l1 ++ l2) = resources l1 ++ resources l2.
Proof. apply List.filter_app. Qed.

Section socket.
Context `{J : SerdeJson} `{C : TokenCodec}.
Context (env_db : nat → Db → Db) (env_broker : nat → BrokerState → BrokerState)
  (env_permits : nat → Z → Z).
Context (frame_json : BrowserStreamServerFrame → option string)
  (message_json : Message → option string) (socket_send : nat → bool) (instant : nat → Z)
  (to_str redemption_from_str : string → option string).
#[local] Notation hw_tick := (hw_tick env_db env_broker env_permits).
#[local] Notation send_serialized := (send_serialized env_db env_broker env_permits socket_send).
#[local] Notation revalidate := (revalidate env_db env_broker env_permits).
#[local] Notation send_ready := (send_ready env_db env_broker env_permits frame_json socket_send).
#[local] Notation send_message :=
  (send_message env_db env_broker env_permits frame_json message_json socket_send).
#[local] Notation send_page :=
  (send_page env_db env_broker env_permits frame_json message_json socket_send).
#[local] Notation replay :=
  (replay env_db env_broker env_permits frame_json message_json socket_send).
#[local] Notation handle_event :=
  (handle_event env_db env_broker env_permits frame_json message_json socket_send).
#[local] Notation stream_loop :=
  (stream_loop env_db env_broker env_permits frame_json message_json socket_send).
#[local] Notation stream_body :=
  (stream_body env_db env_broker env_permits frame_json message_json socket_send).
#[local] Notation run_channel_stream :=
  (run_channel_stream env_db env_broker env_permits frame_json message_json socket_send).
#[local] Notation close_browser_socket := (close_browser_socket env_db env_broker env_permits).
#[local] Notation store_read := (store_read env_db env_broker env_permits).
#[local] Notation require_channel_access := (require_channel_access env_db env_broker env_permits).
#[local] Notation redeemed_stream :=
  (redeemed_stream env_db env_broker env_permits frame_json message_json socket_send).
#[local] Notation redeem_browser_channel_stream :=
  (redeem_browser_channel_stream env_db env_broker env_permits frame_json message_json socket_send
     instant redemption_from_str).
#[local] Notation browser_channel_stream :=
  (browser_channel_stream env_db env_broker env_permits frame_json message_json socket_send instant
     to_str redemption_from_str).

(** *** The slots the broker counts

    The broker's counters stand for some slots, among them the one this task holds.
    [since] is the await from which it may hold one: what the other tasks do at an
    await keeps the counters in order, and from then on does not give back a slot
    that is not theirs. *)
Definition counted (mine : option ActiveStreamSlot) (b : BrokerState) : Prop :=
  ∃ slots, broker_ok default_limits slots b
           ∧ ∀ slot, mine = Some slot → ∃ k, slots !! k = Some slot.
Record others_keep (since : nat) : Prop := {
  others_count : ∀ n b, counted None b → counted None (env_broker n b);
  others_leave : ∀ n slot b, (since ≤ n)%nat → counted (Some slot) b → counted (Some slot) (env_broker n b);
}.

Lemma counted_none mine b : counted mine b → counted None b.
Proof. intros (slots & Hok & _). by exists slots. Qed.
Lemma dropped_counted slot b :
  counted (Some slot) b → ∃ b', drop_slot slot b = Some b' ∧ counted None b'.
Proof.
  intros (slots & Hok & Hin). destruct (Hin slot eq_refl) as [k Hk].
  destruct (drop_ok _ _ _ _ _ Hok Hk) as (b' & Hd & Hok' & _). exists b'. split; [done|].
  by exists (delete k slots).
Qed.
(** A redemption never panics, and a granted slot is counted. *)
Lemma redeem_counted grant protocol now db others b :
  (∀ b, counted None b → counted None (others b)) → counted None b →
  ∃ b' r, redeem default_limits grant protocol now db others b = Some (b', r)
    ∧ match r with
      | inl redeemed => counted (Some (rsg_active_slot redeemed)) b'
      | inr _ => counted None b'
      end.
Proof.
  intros Hothers (slots & Hok & _). unfold redeem.
  destruct (take_ok _ _ _ grant Hok) as (b1 & r1 & -> & Hok1 & _).
  assert (counted None b1) as Hb1 by (by exists slots).
  destruct r1 as [record|e]; [|by eexists _, _].
  destruct (check_grant _ _ _) as [[]|e]; [|by eexists _, _].
  apply Hothers in Hb1 as Hb2. destruct (check_principal _ _) as [[]|e]; [|by eexists _, _].
  destruct Hb2 as (slots2 & Hok2 & _).
  pose proof (reserve_ok _ slots2 _ (grant_credential record) (fresh (dom slots2)) Hok2) as Hres.
  specialize (Hres ltac:(apply not_elem_of_dom, is_fresh)).
  destruct (reserve_active _ _ _) as [b3 [slot|e]]; eexists _, _; (split; [done|]); simpl.
  - destruct Hres as (_ & Hok3 & _). eexists. split; [exact Hok3|]. intros ? [= <-].
    exists (fresh (dom slots2)). apply lookup_insert_eq.
  - destruct Hres as (_ & -> & _). by exists slots2.
Qed.

Context (since : nat) (Hkeep : others_keep since).

(** Time only goes on, and the broker keeps counting this task's slot. *)
Definition keeps_counted (w w' : HttpWorld) : Prop :=
  (hw_awaits w ≤ hw_awaits w')%nat
  ∧ ∀ slot, (since ≤ hw_awaits w)%nat → counted (Some slot) (hw_broker w) →
            counted (Some slot) (hw_broker w').
(** The same broker and time, or those of the next await. *)
Definition moved (w w' : HttpWorld) : Prop :=
  (hw_awaits w', hw_broker w') = (hw_awaits w, hw_broker w)
  ∨ (hw_awaits w', hw_broker w') = (hw_awaits (hw_tick w), hw_broker (hw_tick w)).
Lemma moved_counted w w' : moved w w' → keeps_counted w w'.
Proof using Hkeep.
  intros [[= Hn Hb]|[= Hn Hb]]; (split; [lia|]); intros slot Hs Hc; rewrite Hb; [done|].
  by apply (others_leave _ Hkeep).
Qed.

(** The streaming leaves the permits and the slots alone. *)
Definition idle (w w' : HttpWorld) : Prop :=
  (∃ new, hw_log w' = hw_log w ++ new ∧ resources new = []) ∧ keeps_counted w w'.
#[local] Instance idle_preorder : PreOrder idle.
Proof.
  split.
  - intros w. split; [exists []; by rewrite app_nil_r|]. by split.
  - intros w1 w2 w3 [(n1 & H1 & R1) [Hn1 Hc1]] [(n2 & H2 & R2) [Hn2 Hc2]].
    split; [exists (n1 ++ n2); by rewrite H2, H1, app_assoc, resources_app, R1, R2|].
    split; [lia|]. intros slot Hs Hc. apply Hc2; [lia|by apply Hc1].
Qed.
Lemma idle_same w w' : hw_log w' = hw_log w → moved w w' → idle w w'.
Proof using Hkeep. intros H Hm. split; [exists []; by rewrite app_nil_r|by apply moved_counted]. Qed.
Lemma idle_push w w' e : hw_log w' = hw_log w ++ [e] → moved w w' → resource e = false → idle w w'.
Proof using Hkeep.
  intros H Hm He. split; [|by apply moved_counted]. exists [e]. split; [done|]. simpl. by rewrite He.
Qed.
Ltac idle_now :=
  first [ by apply idle_same; [|left] | by apply idle_same; [|right]
        | by eapply idle_push; [|left|] | by eapply idle_push; [|right|] ].

Ltac idle_bind := apply within_andthen; [exact _| |intros ?].

Lemma send_serialized_idle text frame :
  resource frame = false → within idle (send_serialized text frame).
Proof using Hkeep.
  intros He w w' r. unfold send_serialized. destruct text; [|by intros [= <- <-]; idle_now].
  unfold andthen, act. case_match; intros [= <- <-]; idle_now.
Qed.
Lemma revalidate_idle wire : within idle (revalidate wire).
Proof using Hkeep.
  intros w w' r. unfold revalidate. destruct wire; [by intros [= <- <-]; idle_now|].
  unfold andthen, act. repeat case_match; intros [= <- <-]; idle_now.
Qed.
Lemma store_read_idle {A} (op : nat → Db → result A) : within idle (store_read op).
Proof using Hkeep.
  intros w w' r. unfold store_read, hw_pass, andthen, act. case_match; intros [= <- <-]; idle_now.
Qed.
Lemma send_page_idle wire msgs cursor : within idle (send_page wire msgs cursor).
Proof using Hkeep.
  revert cursor. induction msgs as [|m msgs IH]; intros cursor; simpl; [apply within_done, _|].
  idle_bind; [|apply IH]. idle_bind; [apply revalidate_idle|]. by destruct wire; apply send_serialized_idle.
Qed.
Lemma replay_idle fuel wire c cursor : within idle (replay fuel wire c cursor).
Proof using Hkeep.
  revert cursor. induction fuel as [|fuel IH]; intros cursor; simpl; [apply within_done, _|].
  idle_bind; [apply within_map_err, store_read_idle|].
  idle_bind; [apply send_page_idle|]. case_match; [apply within_done, _|apply IH].
Qed.
Lemma handle_event_idle fuel wire c cursor event : within idle (handle_event fuel wire c cursor event).
Proof using Hkeep.
  destruct event as [incoming|[[m|]|n|]|]; simpl; try apply replay_idle.
  - idle_bind; [|apply within_done, _]. intros w w' r ->%accept_incoming_run. reflexivity.
  - destruct (_ && _); [apply replay_idle|apply within_done, _].
  - apply within_throw, _.
  - idle_bind; [apply revalidate_idle|apply within_done, _].
Qed.
Lemma stream_loop_idle fuel wire c cursor events : within idle (stream_loop fuel wire c cursor events).
Proof using Hkeep.
  revert cursor. induction events as [|event events IH]; intros cursor; simpl; [apply within_done, _|].
  idle_bind; [apply handle_event_idle|]. case_match; [apply IH|apply within_done, _].
Qed.
Lemma send_ready_idle wire c after : within idle (send_ready wire c after).
Proof using Hkeep.
  unfold send_ready. destruct wire; [apply within_done, _|].
  destruct (cursor_new after); [by apply send_serialized_idle|apply within_throw, _].
Qed.
Lemma run_channel_stream_idle fuel wire authorization events w w' outcome :
  run_channel_stream fuel wire authorization events w = (w', outcome) → idle w w'.
Proof using Hkeep.
  unfold run_channel_stream. destruct (stream_body _ _ _ _ _) as [w1 r] eqn:Hbody.
  assert (idle w w1) as Hidle.
  { eapply (_ : within idle (stream_body fuel wire authorization events)), Hbody. Unshelve.
    unfold stream_body. idle_bind; [apply send_ready_idle|]. idle_bind; [apply replay_idle|].
    case_match; [apply stream_loop_idle|apply within_done, _]. }
  destruct r as [[to|]|termination]; intros [= <- <-]; [done..|]. etrans; [exact Hidle|].
  unfold finish. destruct wire; [done|]. destruct (close_of termination) as [[code reason]|]; [|done].
  idle_now.
Qed.
Lemma require_channel_access_idle principal c : within idle (require_channel_access principal c).
Proof using Hkeep.
  unfold require_channel_access. case_match; [apply within_done, _|].
  idle_bind; [destruct (require_agent principal); [apply within_done, _|apply within_throw, _]|].
  idle_bind; [apply store_read_idle|]. case_match; [apply within_done, _|apply within_throw, _].
Qed.
Lemma close_idle code reason w : idle w (close_browser_socket code reason w).
Proof using Hkeep. idle_now. Qed.

(** What was taken and given back, in order. *)
Definition traced (w : HttpWorld) (l : list Effect) (w' : HttpWorld) : Prop :=
  ∃ new, hw_log w' = hw_log w ++ new ∧ resources new = l.
Lemma traced_idle w w' : idle w w' → traced w [] w'.
Proof. by intros [? _]. Qed.
Lemma traced_push w w' e : resource e = true → hw_log w' = hw_log w ++ [e] → traced w [e] w'.
Proof. intros He H. exists [e]. split; [done|]. simpl. by rewrite He. Qed.
Lemma traced_trans w1 w2 w3 l1 l2 : traced w1 l1 w2 → traced w2 l2 w3 → traced w1 (l1 ++ l2) w3.
Proof.
  intros (n1 & H1 & <-) (n2 & H2 & <-). exists (n1 ++ n2). by rewrite H2, H1, app_assoc, resources_app.
Qed.
Lemma drop_permit_traced w : traced w [PermitDropped] (drop_permit w).
Proof. by apply traced_push. Qed.


(** What a socket that got its permit leaves, by how it ended: its entries of the
    log, and the slot it still holds.  It never panics. *)
Definition accounted (outcome : SocketOutcome) (l : list Effect) (held : option ActiveStreamSlot)
    : Prop :=
  match outcome with
  | SocketWaiting => l = [] ∧ held = None
  | SocketRefused _ =>
      (l = [PermitDropped] ∨ ∃ slot, l = [SlotTaken slot; SlotDropped slot; PermitDropped])
      ∧ held = None
  | SocketStreamed (StreamEnded _) =>
      (∃ slot, l = [SlotTaken slot; PermitDropped; SlotDropped slot]) ∧ held = None
  | SocketStreamed _ => ∃ slot, l = [SlotTaken slot; PermitDropped] ∧ held = Some slot
  | SocketPanicked => False
  end.
(** From a world that holds [mine], with the entries [before] already in the log. *)
Definition accounts (before : list Effect) (w w' : HttpWorld) (outcome : SocketOutcome) : Prop :=
  ∃ l held, traced w l w' ∧ accounted outcome (before ++ l) held ∧ counted held (hw_broker w').

Lemma refuse_socket_accounts close w w' outcome :
  counted None (hw_broker w) → refuse_socket env_db env_broker env_permits close w = (w', outcome) →
  accounts [] w w' outcome.
Proof using Hkeep.
  intros Hc [= <- <-]. exists [PermitDropped], None. split_and!; [|by split; [left|]|].
  - exact (traced_trans _ _ _ [] _ (traced_idle _ _ (close_idle _ _ _)) (drop_permit_traced _)).
  - by apply (others_count _ Hkeep).
Qed.
Lemma dropping_runs slot outcome w w' outcome' :
  counted (Some slot) (hw_broker w) → dropping slot outcome w = (w', outcome') →
  outcome' = outcome ∧ traced w [SlotDropped slot] w' ∧ counted None (hw_broker w').
Proof.
  intros (b & Hd & Hb)%dropped_counted. unfold dropping, drop_active_slot. rewrite Hd. intros [= <- <-].
  split; [done|]. split; [by apply traced_push|done].
Qed.
Lemma refuse_redeemed_accounts slot close w w' outcome :
  (since ≤ hw_awaits w)%nat → counted (Some slot) (hw_broker w) →
  refuse_redeemed env_db env_broker env_permits slot close w = (w', outcome) →
  accounts [SlotTaken slot] w w' outcome.
Proof using Hkeep.
  intros Hs Hc. unfold refuse_redeemed. destruct (dropping _ _ _) as [w1 o] eqn:Hd. intros [= <- <-].
  pose proof (close_idle close.1 close.2 w) as Hidle.
  apply dropping_runs in Hd as (-> & Ht & Hc1); [|by apply Hidle].
  exists [SlotDropped slot; PermitDropped], None. split_and!; [|split; [right; by exists slot|done]|done].
  apply (traced_trans _ _ _ [] _ (traced_idle _ _ Hidle)).
  exact (traced_trans _ _ _ _ _ Ht (drop_permit_traced _)).
Qed.
Lemma accounts_idle before w w1 w' outcome :
  idle w w1 → accounts before w1 w' outcome → accounts before w w' outcome.
Proof.
  intros Hidle (l & held & Ht & H). exists l, held. split; [|done].
  exact (traced_trans _ _ _ [] _ (traced_idle _ _ Hidle) Ht).
Qed.
Lemma redeemed_stream_accounts fuel redeemed events w w' outcome :
  let slot := rsg_active_slot redeemed in
  (since ≤ hw_awaits w)%nat → counted (Some slot) (hw_broker w) →
  redeemed_stream fuel redeemed events w = (w', outcome) → accounts [SlotTaken slot] w w' outcome.
Proof using Hkeep.
  intros slot Hs Hc. unfold redeemed_stream. fold slot.
  destruct (require_channel_access _ _ w) as [w1 r1] eqn:Ha.
  apply require_channel_access_idle in Ha. pose proof Ha as [_ [Hn1 Hc1]].
  assert (since ≤ hw_awaits w1)%nat as Hs1 by lia. specialize (Hc1 slot Hs Hc).
  destruct r1 as [[]|fault]; [|intros H; eapply accounts_idle, refuse_redeemed_accounts; done].
  destruct (store_read _ w1) as [w2 r2] eqn:Hr. apply store_read_idle in Hr.
  pose proof Hr as [_ [Hn2 Hc2]]. assert (since ≤ hw_awaits w2)%nat as Hs2 by lia.
  specialize (Hc2 slot Hs1 Hc1).
  destruct r2 as [page|fault]; [|intros H; do 2 (eapply accounts_idle; [done|]);
                                  by eapply refuse_redeemed_accounts].
  destruct (run_channel_stream _ _ _ _ _) as [w3 o] eqn:Hrun. apply run_channel_stream_idle in Hrun.
  assert (traced w [PermitDropped] w3) as Ht.
  { apply (traced_trans _ _ _ [] _ (traced_idle _ _ Ha)), (traced_trans _ _ _ [] _ (traced_idle _ _ Hr)).
    exact (traced_trans _ _ _ _ [] (drop_permit_traced _) (traced_idle _ _ Hrun)). }
  assert (counted (Some slot) (hw_broker w3)) as Hc3 by (by apply Hrun).
  destruct o as [cursor| |termination].
  - intros [= <- <-]. exists [PermitDropped], (Some slot). split_and!; [done|by exists slot|done].
  - intros [= <- <-]. exists [PermitDropped], (Some slot). split_and!; [done|by exists slot|done].
  - intros (-> & Hd & Hc4)%dropping_runs; [|done].
    exists [PermitDropped; SlotDropped slot], None.
    split_and!; [exact (traced_trans _ _ _ _ _ Ht Hd)|split; [by exists slot|done]|done].
Qed.

(** The awaits of the handler before it redeems a grant. *)
Fixpoint frames_read (received : list (option Received)) : nat :=
  match received with
  | [] => O
  | Some (RecvMessage (WsPing | WsPong)) :: received => S (frames_read received)
  | _ :: _ => 1%nat
  end.
#[local] Notation first_frame := (first_frame env_db env_broker env_permits redemption_from_str).
Lemma first_frame_run received w w' r :
  first_frame received w = (w', r) → w' = Nat.iter (frames_read received) hw_tick w.
Proof.
  revert w. induction received as [|frame received IH]; intros w; [by intros [= <- _]|].
  assert (first_frame received (hw_tick w) = (w', r) →
          w' = Nat.iter (S (frames_read received)) hw_tick w) as Hping
    by (intros ->%IH; by rewrite Nat.iter_swap).
  cbn [ChannelStream.first_frame]. unfold andthen, act.
  destruct frame as [[| |[text| | | |]]|]; try exact Hping; try (by intros [= <- _]).
  by case_match; intros [= <- _].
Qed.
Lemma ticks_counted k w : counted None (hw_broker w) → counted None (hw_broker (Nat.iter k hw_tick w)).
Proof using Hkeep. intros Hc. induction k as [|k IH]; [done|]. by apply (others_count _ Hkeep). Qed.
Lemma ticks_awaits k w : hw_awaits (Nat.iter k hw_tick w) = (k + hw_awaits w)%nat.
Proof. induction k as [|k IH]; [done|]. simpl. by rewrite IH. Qed.
Lemma ticks_log k w : hw_log (Nat.iter k hw_tick w) = hw_log w.
Proof. by induction k. Qed.
Lemma ticks_traced k w l w' : traced (Nat.iter k hw_tick w) l w' → traced w l w'.
Proof. intros (new & H & Hl). exists new. by rewrite H, ticks_log. Qed.

Lemma redeem_browser_accounts fuel received events w w' outcome :
  counted None (hw_broker w) → (since ≤ hw_awaits w + frames_read received + 1)%nat →
  redeem_browser_channel_stream fuel received events w = (w', outcome) → accounts [] w w' outcome.
Proof using Hkeep.
  intros Hc Hs. unfold ChannelStream.redeem_browser_channel_stream.
  destruct (first_frame received w) as [w1 first] eqn:Hf. apply first_frame_run in Hf.
  assert (counted None (hw_broker w1)) as Hc1 by (rewrite Hf; by apply ticks_counted).
  assert (∀ l, traced w1 l w' → traced w l w') as Htrace by (intros l; rewrite Hf; apply ticks_traced).
  assert (accounts [] w1 w' outcome → accounts [] w w' outcome) as Hlift
    by (intros (l & held & Ht & H); exists l, held; split; [by apply Htrace|done]).
  destruct first as [[grant|]|close].
  - unfold redeem_call.
    destruct (redeem_counted grant (protocol_as_str V1) (instant (hw_awaits w1))
                (env_db (hw_awaits w1) (hw_db w1)) (env_broker (hw_awaits w1)) (hw_broker w1))
      as (b & r & -> & Hr); [apply (others_count _ Hkeep)|done|].
    destruct r as [redeemed|error].
    + intros H. apply redeemed_stream_accounts in H as (l & held & Ht & H); [| |done].
      * exists (SlotTaken (rsg_active_slot redeemed) :: l), held. split; [|exact H]. apply Htrace.
        refine (traced_trans _ _ _ [_] _ _ Ht). by apply traced_push.
      * simpl. rewrite Hf, ticks_awaits. lia.
    + intros H. apply Hlift. by apply refuse_socket_accounts in H.
  - intros [= <- <-]. apply Hlift. exists [], None. split_and!; try done. exists []. by rewrite app_nil_r.
  - intros H. apply Hlift. by apply refuse_socket_accounts in H.
Qed.


(** ** What was looked at before a stream *)

Definition has_access (principal : Principal) (c : string) (db : Db) : Prop :=
  is_operator principal = true
  ∨ ∃ agent_id, principal_agent_id principal = Some agent_id ∧ read_at (is_member c agent_id) db = Ok true.

Lemma require_channel_access_ok principal c w w' u :
  require_channel_access principal c w = (w', inl u) → ticked env_db env_broker env_permits w w' ∧ has_access principal c (hw_db w').
Proof.
  unfold require_channel_access, has_access. destruct (is_operator principal).
  { intros [= <- _]. split; [by apply ticked_here|by left]. }
  unfold andthen. destruct (require_agent principal) as [agent_id|e] eqn:Ha; [|done].
  unfold require_agent in Ha. destruct (principal_agent_id principal) as [a|] eqn:Hp; [|done].
  injection Ha as ->. simpl.
  unfold HttpCore.store_read, hw_pass, andthen, act, done_with, refused, throw.
  destruct (read_at _ _) as [[]|] eqn:Hm; intros H; simplify_eq.
  split; [by apply ticked_tick|]. right. by exists agent_id.
Qed.

Lemma redeem_ok limits grant protocol now db others s s' redeemed :
  redeem limits grant protocol now db others s = Some (s', inl redeemed) →
  ∃ digest record, grant_digest grant = Some digest ∧ bs_unused s !! digest = Some record
    ∧ now < gr_expires_at record ∧ gr_protocol record = protocol
    ∧ credential_active (issuing_principal (gr_authorization record)) db
    ∧ rsg_authorization redeemed = gr_authorization record.
Proof.
  unfold redeem, take_grant. intros H. destruct (grant_digest grant) as [digest|]; [|done].
  destruct (bs_unused s !! digest) as [record|] eqn:Hd; [|done].
  destruct (decrement_count _ _); [|done].
  unfold check_grant in H. destruct (reject _ _) as [[]|] eqn:Hc; [|done]. apply reject_ok, orb_false_iff in Hc as [Hc1 Hc2].
  destruct (check_principal record db) as [[]|] eqn:Hp; [|done].
  destruct (reserve_active _ _ _) as [s5 [slot|]]; [|done]. injection H as _ <-.
  exists digest, record. bool_facts. split_and!; try done; try lia.
  unfold check_principal in Hp. unfold credential_active.
  destruct (revalidate_principal _ db) as [[[] db']|]; [eauto|done..].
Qed.

(** The frames a browser may send before its redemption. *)
Definition is_ping (frame : option Received) : Prop :=
  frame = Some (RecvMessage WsPing) ∨ frame = Some (RecvMessage WsPong).
Lemma first_frame_grant received w w' grant :
  first_frame received w = (w', inl (Some grant)) →
  ∃ pings text rest, received = pings ++ Some (RecvMessage (WsText text)) :: rest ∧ Forall is_ping pings
    ∧ parse_text_frame redemption_from_str text = inl grant
    ∧ frames_read received = S (length pings).
Proof.
  revert w. induction received as [|frame received IH]; intros w; [done|].
  assert (first_frame received (hw_tick w) = (w', inl (Some grant)) → is_ping frame →
    frames_read (frame :: received) = S (frames_read received) →
    ∃ pings text rest, frame :: received = pings ++ Some (RecvMessage (WsText text)) :: rest
      ∧ Forall is_ping pings ∧ parse_text_frame redemption_from_str text = inl grant
      ∧ frames_read (frame :: received) = S (length pings)) as Hping.
  { intros (pings & text & rest & -> & ? & ? & Hn)%IH ? ->. exists (frame :: pings), text, rest.
    split_and!; [done|by constructor|done|]. simpl. by rewrite Hn. }
  cbn [ChannelStream.first_frame]. unfold andthen, act.
  destruct frame as [[| |[text| | | |]]|]; try done;
    [|intros H; apply Hping; [done|by left|done]|intros H; apply Hping; [done|by right|done]].
  destruct (parse_text_frame _ _) eqn:Hparse; [|done]. intros [= _ ->].
  by exists [], text, received.
Qed.
Lemma iter_tick_broker k w w' :
  hw_awaits w' = hw_awaits w → hw_db w' = hw_db w → hw_broker w' = hw_broker w →
  hw_broker (Nat.iter k hw_tick w') = hw_broker (Nat.iter k hw_tick w)
  ∧ ticked_same (Nat.iter k hw_tick w) (Nat.iter k hw_tick w').
Proof.
  intros Hn Hd Hb. induction k as [|k (IHb & IHn & IHd)]; [done|].
  split; [|split]; simpl; by rewrite ?IHb, ?IHn, ?IHd.
Qed.

(** C20 Nothing is streamed before everything was checked.  A browser socket that
    has come to stream had valid upgrade headers; after nothing but pings it sent, as
    its first text frame, the grant of a record the broker held at the moment of the
    redemption - after the awaits of the upgrade and of every frame - not expired
    then, whose credential the store held active, for an agent that is a member of the
    channel (or an operator); what it then ran is the stream of that record's channel,
    cursor and principal. *)
Theorem stream_only_after_redemption fuel edge headers received events w w' outcome :
  browser_channel_stream fuel edge headers received events w = (w', inl (SocketStreamed outcome)) →
  ∃ policy pings text rest grant digest record,
    edge = Some policy ∧ validate_upgrade_headers to_str policy headers = inl tt
    ∧ received = pings ++ Some (RecvMessage (WsText text)) :: rest ∧ Forall is_ping pings
    ∧ parse_text_frame redemption_from_str text = inl grant
    ∧ let wr := Nat.iter (length pings + 2) hw_tick w in
      grant_digest grant = Some digest ∧ bs_unused (hw_broker wr) !! digest = Some record
      ∧ instant (hw_awaits wr) < gr_expires_at record ∧ gr_protocol record = protocol_as_str V1
      ∧ credential_active (issuing_principal (gr_authorization record)) (hw_db (hw_tick wr))
      ∧ (∃ w2, ticked env_db env_broker env_permits (hw_tick wr) w2
           ∧ has_access (issuing_principal (gr_authorization record))
               (acs_channel_id (gr_authorization record)) (hw_db w2))
      ∧ ∃ w0 w1, run_channel_stream fuel (Browser (issuing_principal (gr_authorization record)))
                   (gr_authorization record) events w0 = (w1, outcome).
Proof.
  unfold ChannelStream.browser_channel_stream.
  destruct (browser_upgrade _ _ _ _) as [w1 [[]|]] eqn:Hup; [|done].
  unfold browser_upgrade in Hup. destruct edge as [policy|]; [|done].
  destruct (validate_upgrade_headers _ _ _) as [[]|] eqn:Hheaders; [|done].
  do 2 (case_match; [done|]). injection Hup as Hup.
  assert (hw_awaits w1 = hw_awaits w ∧ hw_db w1 = hw_db w ∧ hw_broker w1 = hw_broker w)
    as (Hn1 & Hd1 & Hb1) by (by rewrite <-Hup). clear Hup.
  destruct (ChannelStream.redeem_browser_channel_stream _ _ _ _ _ _ _ _ _ _ _ _) as [w2 o] eqn:Hr.
  intros [= <- ->]. unfold ChannelStream.redeem_browser_channel_stream in Hr.
  destruct (first_frame received (hw_tick w1)) as [wf [[grant|]|]] eqn:Hfirst; [|done..].
  apply first_frame_run in Hfirst as Hwf.
  apply first_frame_grant in Hfirst as (pings & text & rest & Hrec & Hpings & Hparse & Hframes).
  rewrite Hframes in Hwf. rewrite Nat.iter_swap in Hwf.
  change (hw_tick _) with (Nat.iter (2 + length pings) hw_tick w1) in Hwf.
  rewrite Nat.add_comm in Hwf.
  destruct (iter_tick_broker (length pings + 2) w w1 Hn1 Hd1 Hb1) as (Hbr & Hnr & Hdr).
  rewrite <-Hwf in Hbr, Hnr, Hdr. clear Hwf.
  exists policy, pings, text, rest, grant.
  set (wr := Nat.iter (length pings + 2) hw_tick w) in *.
  unfold redeem_call in Hr. rewrite Hbr, Hnr, Hdr in Hr.
  destruct (redeem _ _ _ _ _ _ _) as [[b [redeemed|error]]|] eqn:Hredeem; [|done..].
  apply redeem_ok in Hredeem as (digest & record & Hd & Hin & Hexp & Hproto & Hactive & Hauth).
  unfold redeemed_stream in Hr. rewrite Hauth in Hr. set (wa := hw_push _ _) in Hr.
  destruct (require_channel_access _ _ wa) as [w3 [u|fault]] eqn:Ha.
  2:{ unfold refuse_redeemed, dropping in Hr. by destruct (drop_active_slot _ _). }
  apply require_channel_access_ok in Ha as [Ht Ha].
  destruct (store_read _ w3) as [w4 [page|fault]].
  2:{ unfold refuse_redeemed, dropping in Hr. by destruct (drop_active_slot _ _). }
  destruct (run_channel_stream _ _ _ _ _) as [w5 o] eqn:Hrun.
  assert (o = outcome) as ->.
  { destruct o; simplify_eq; [done..|]. unfold dropping in Hr.
    by destruct (drop_active_slot _ _); simplify_eq. }
  exists digest, record. split_and!; try done; [|by exists (drop_permit w4), w5].
  exists w3. split; [|done]. etrans; [|exact Ht]. apply ticked_here. subst wa.
  split; simpl; by rewrite ?Hnr, ?Hdr.
Qed.
End socket.

(** ** The theorems at concrete states *)

(** ** The world *)

Lemma exec_reaches {A} (m : M A) db :
  (∀ db a db', m db = Ok (a, db') → transition plain_sha256 false db db') →
  reaches plain_sha256 db (exec m db).
Proof.
  intros Ht. unfold exec. destruct (m db) as [[a db']|] eqn:Hm; [|reflexivity].
  apply rtc_once. exists false. by eapply Ht.
Qed.

(** The second message arrives at the given await. *)
Definition arrives (at_await n : nat) (db : Db) : Db :=
  if (n =? at_await)%nat then exec op_ask_again db else db.
Lemma arrives_reaches at_await n db : reaches plain_sha256 db (arrives at_await n db).
Proof.
  unfold arrives. destruct (_ =? _)%nat; [|reflexivity].
  apply exec_reaches. intros db1 a db2 H. by eapply t_append.
Qed.
Definition same_broker (n : nat) (b : BrokerState) : BrokerState := b.
Definition same_permits (n : nat) (k : Z) : Z := k.

Definition db_stream : Db := Eval vm_compute in exec op_ask db_credential.
Lemma reachable_stream : reachable plain_sha256 db_stream.
Proof.
  apply (run_step op_ask false db_credential);
    [intros; by eapply t_append|done|done|apply reachable_credential].
Qed.
Definition db_stream_rotated : Db := Eval vm_compute in exec op_rotate db_stream.
Lemma reachable_stream_rotated : reachable plain_sha256 db_stream_rotated.
Proof.
  apply (run_step op_rotate false db_stream);
    [intros; by eapply t_rotate_agent|done|done|apply reachable_stream].
Qed.

Definition bob : Principal := PAgent "K1" "B".
Definition bobs_stream : AuthorizedChannelStream :=
  {| acs_channel_id := "C"; acs_after := 0; acs_credential_id := "K1"; acs_principal := StreamAgent "B" |}.
Definition some_json {A} (a : A) : option string := Some "".
Definition sends (n : nat) : bool := true.
Definition world (db : Db) (b : BrokerState) : HttpWorld :=
  {| hw_awaits := 0; hw_db := db; hw_broker := b; hw_permits := 4; hw_log := [] |}.
Definition stream_start : HttpWorld := world db_stream new_broker.

(** ** Streams *)

(** The second message arrives after the replay; the bus tells of another process. *)
Definition bobs_run (events : list StreamEvent) : HttpWorld * StreamOutcome :=
  run_channel_stream (arrives 7) same_broker same_permits some_json some_json sends 1 (Browser bob)
    bobs_stream events stream_start.
Definition bobs_body (events : list StreamEvent) : HttpWorld * (option Z + StreamTermination) :=
  stream_body (arrives 7) same_broker same_permits some_json some_json sends 1 (Browser bob)
    bobs_stream events stream_start.
Lemma bobs_run_eq events :
  run_channel_stream (arrives 7) same_broker same_permits some_json some_json sends 1 (Browser bob)
    bobs_stream events stream_start = ((bobs_run events).1, (bobs_run events).2).
Proof. apply surjective_pairing. Qed.
Definition looks : list StreamEvent := [Revalidate; Revalidate; Revalidate; Revalidate].
Definition bus : list StreamEvent := looks ++ [Wake (WakeMessage External)].

Example both_messages :
  map msg_seq (sent_messages (hw_log (bobs_run bus).1)) = [1; 2] ∧ (bobs_run bus).2 = StreamOpen 2.
Proof. by vm_compute. Qed.

Lemma stream_is_the_log_witness :
  ∃ to new, hw_log (bobs_run bus).1 = hw_log stream_start ++ new ∧ 0 <= to
    ∧ collect message_from_row (log_between "C" 0 to (hw_db (bobs_run bus).1)) = Ok (sent_messages new).
Proof.
  destruct (stream_is_the_log plain_sha256 (arrives 7) same_broker same_permits (arrives_reaches 7)
              some_json some_json sends 1 (Browser bob) bobs_stream bus stream_start
              (bobs_run bus).1 (bobs_run bus).2)
    as (to & new & H1 & H2 & H3 & _); [exact reachable_stream|exact (bobs_run_eq bus)|].
  exists to, new. split; [exact H1|]. split; [exact H2|exact H3].
Defined.

Definition no_message : MessageRow :=
  {| m_seq := 0; m_id := ""; m_channel_id := ""; m_sender_id := ""; m_recipient_id := None;
     m_kind := ""; m_payload_json := ""; m_correlation_id := None; m_causation_id := None;
     m_idempotency_key := None; m_created_at_ms := 0 |}.
Definition second_row : MessageRow := Eval vm_compute in
  List.last (hw_db (bobs_run bus).1).(messages) no_message.

Lemma live_messages_delivered_witness :
  ∃ message new, hw_log (bobs_body bus).1 = hw_log stream_start ++ new ∧ message_from_row second_row = Ok message
    ∧ message ∈ sent_messages new.
Proof.
  apply (live_messages_delivered plain_sha256 (arrives 7) same_broker same_permits (arrives_reaches 7)
           some_json some_json sends 1 (Browser bob) bobs_stream looks (WakeMessage External) stream_start
           (bobs_body looks).1 1 (bobs_body bus).1 2 second_row).
  - exact reachable_stream.
  - vm_compute. reflexivity.
  - apply list_elem_of_In. vm_compute. right. left. reflexivity.
  - exact I.
  - vm_compute. reflexivity.
Defined.

Lemma replay_terminates_witness : (bobs_run bus).2 ≠ StreamUnfinished.
Proof.
  apply (replay_terminates plain_sha256 (arrives 7) same_broker same_permits (arrives_reaches 7)
           some_json some_json sends 1 (Browser bob) bobs_stream bus stream_start).
  - exact reachable_stream.
  - intros k. 
    assert (∀ n, (n <= 8)%nat → 
      (length (log_after "C" 0 (hw_db (Nat.iter n (hw_tick (arrives 7) same_broker same_permits) stream_start))) < 500)%nat) as Hsmall.
    { intros n Hn. do 9 (destruct n as [|n]; [vm_compute; lia|]). lia. }
    destruct (Nat.le_gt_cases k 8) as [Hk|Hk]; [by apply Hsmall|].
    assert (∀ n, hw_db (Nat.iter (n + 8) (hw_tick (arrives 7) same_broker same_permits) stream_start)
                 = hw_db (Nat.iter 8 (hw_tick (arrives 7) same_broker same_permits) stream_start)
                 ∧ hw_awaits (Nat.iter (n + 8) (hw_tick (arrives 7) same_broker same_permits) stream_start) = (n + 8)%nat) as Hlate.
    { induction n as [|n [IHd IHn]]; [done|]. change (S n + 8)%nat with (S (n + 8)). simpl Nat.iter at 1 3.
      split; simpl; [|by rewrite IHn]. rewrite IHn. unfold arrives at 1.
      destruct (Nat.eqb_spec (n + 8) 7); [lia|exact IHd]. }
    replace k with ((k - 8) + 8)%nat by lia. rewrite (proj1 (Hlate (k - 8)%nat)). by apply Hsmall.
Defined.

(** The credential was rotated away before the stream starts. *)
Lemma revoked_stream_stops_witness :
  revoked_in bob db_stream_rotated
  ∧ ∀ m, FrameSent (MessageFrame m) ∉ hw_log (run_channel_stream (arrives 7) same_broker same_permits
         some_json some_json sends 1 (Browser bob) bobs_stream bus (world db_stream_rotated new_broker)).1.
Proof.
  assert (revoked_in bob db_stream_rotated) as Hrevoked.
  { exists (hd no_credential db_stream_rotated.(auth_credentials)).
    split; [apply list_elem_of_In; vm_compute; left; reflexivity|]. split; [reflexivity|discriminate]. }
  split; [exact Hrevoked|].
  destruct (revoked_stream_stops plain_sha256 (arrives 7) same_broker same_permits (arrives_reaches 7)
              some_json some_json sends 1 bob bobs_stream bus (world db_stream_rotated new_broker) _ _
              reachable_stream_rotated (surjective_pairing _)) as (new & Hnew & _ & Hrev).
  intros m. rewrite Hnew. apply Hrev. exact Hrevoked.
Defined.

(** The native wire does not look at its credential again: the stream of the same
    rotated token replays the log and follows it. *)
Definition bobs_native_run : HttpWorld * StreamOutcome :=
  run_channel_stream (arrives 2) same_broker same_permits some_json some_json sends 1 Native
    bobs_stream bus (world db_stream_rotated new_broker).
Example native_stream_outlives_revocation :
  revoked_in bob db_stream_rotated
  ∧ map msg_seq (sent_messages (hw_log bobs_native_run.1)) = [1; 2]
  ∧ bobs_native_run.2 = StreamOpen 2.
Proof.
  split; [|by vm_compute]. exists (hd no_credential db_stream_rotated.(auth_credentials)).
  split; [apply list_elem_of_In; vm_compute; left; reflexivity|]. split; [reflexivity|discriminate].
Qed.

(** ** Grants *)

Definition issued : BrokerState * (IssuedStreamGrant + StreamGrantBrokerError) :=
  default (new_broker, inr BrokerRejected)
    (issue default_limits bobs_stream (protocol_as_str V1) 1000 [Some (entropy "g")] new_broker).
Definition bobs_grant : string := STREAM_GRANT_PREFIX +:+ b64_encode (entropy "g").
Definition granted : BrokerState := issued.1.
Example grant_issued :
  issued.2 = inl {| isg_grant := bobs_grant; isg_lifetime := STREAM_GRANT_REDEMPTION_LIFETIME |}.
Proof. by vm_compute. Qed.

Lemma default_limits_ok : limits_ok default_limits.
Proof. by vm_compute. Qed.

(** The grant is issued, taken, checked, revalidated and admitted. *)
Definition bobs_record : GrantRecord := issued_record default_limits bobs_stream (protocol_as_str V1) 1000.
Definition redemption (stage : Stage) : Redemption :=
  {| rd_digest := sha256 bobs_grant; rd_record := bobs_record; rd_protocol := protocol_as_str V1;
     rd_stage := stage |}.
Definition taken : BrokerState :=
  match take_grant bobs_grant granted with Some (s, _) => s | None => new_broker end.
Definition reserved : BrokerState := (reserve_active default_limits "K1" taken).1.
Definition bobs_slot : ActiveStreamSlot := {| slot_credential_id := "K1" |}.
Definition bobs_race : Racing :=
  mkRacing reserved (<[O := bobs_slot]> ∅) (delete O (<[O := redemption (StageRevalidated 2000 db_stream)]>
      (<[O := redemption (StageChecked 2000)]> (<[O := redemption StageTaken]> ∅))))
    ([] ++ [Issued (sha256 bobs_grant) bobs_record 1000]
     ++ [WasAdmitted (sha256 bobs_grant) bobs_record (protocol_as_str V1) 2000 db_stream]) 2000.

Lemma bobs_race_runs : broker_run default_limits (no_race 1000) bobs_race.
Proof.
  unfold bobs_race. rewrite app_assoc.
  eapply rtc_l; [eapply (step_issue default_limits new_broker ∅ ∅ [] 1000 bobs_stream (protocol_as_str V1) 1000
    [Some (entropy "g")] granted (inl {| isg_grant := bobs_grant; isg_lifetime := STREAM_GRANT_REDEMPTION_LIFETIME |}));
    [lia|by vm_compute]|].
  eapply rtc_l; [eapply (step_take default_limits granted ∅ ∅ _ 1000 O bobs_grant (protocol_as_str V1) taken bobs_record);
    [done|done|by vm_compute]|].
  eapply rtc_l; [eapply (step_check default_limits taken ∅ _ _ 1000 O _ 2000); [apply lookup_insert_eq|done|lia]|].
  eapply rtc_l; [eapply (step_revalidate default_limits taken ∅ _ _ 2000 O (redemption (StageChecked 2000)) 2000 db_stream);
    [apply lookup_insert_eq|done]|].
  apply rtc_once. eapply (step_reserve default_limits taken ∅ _ _ 2000 O
    (redemption (StageRevalidated 2000 db_stream)) 2000 db_stream reserved bobs_slot);
    [apply lookup_insert_eq|done|by vm_compute].
Qed.

Lemma grants_single_use_witness :
  limits_ok default_limits
  ∧ (admissions (sha256 bobs_grant) (rc_log bobs_race) <= issues (sha256 bobs_grant) (rc_log bobs_race))%nat.
Proof.
  split; [exact default_limits_ok|].
  apply (grants_single_use default_limits 1000 bobs_race default_limits_ok bobs_race_runs).
Defined.
Lemma capacity_is_in_use_witness :
  ∃ s' r, issue default_limits bobs_stream (protocol_as_str V1) 3000 [Some (entropy "h")] (rc_state bobs_race)
          = Some (s', r).
Proof.
  destruct (capacity_is_in_use default_limits 1000 bobs_race bobs_stream (protocol_as_str V1) 3000
              [Some (entropy "h")] default_limits_ok bobs_race_runs) as [(s' & r & H & _) _].
  exists s', r. exact H.
Defined.
Lemma grant_shape_exact_witness : grant_parse bobs_grant = Some bobs_grant.
Proof.
  apply (grant_shape_exact bobs_grant). exists (entropy "g"). split; reflexivity.
Defined.

(** ** Sockets *)

Definition loopback : SocketAddr := {| sa_ip := IpV4 (127, 0, 0, 1); sa_port := 8080 |}.
Definition policy : BrowserUpgradePolicy :=
  match for_http_listener loopback with
  | inl policy => policy
  | inr _ => {| bup_origin := ""; bup_authority := "" |}
  end.
Definition headers : HeaderMap :=
  [(ORIGIN, "http://127.0.0.1:8080"); (HOST, "127.0.0.1:8080"); (SEC_WEBSOCKET_PROTOCOL, BROWSER_STREAM_PROTOCOL)].
Definition early (n : nat) : Z := 2000.
(** The grant is issued while the connection is being switched. *)
Definition issues_late (n : nat) (b : BrokerState) : BrokerState :=
  if (n =? 0)%nat then
    match issue default_limits bobs_stream (protocol_as_str V1) 1000 [Some (entropy "g")] b with
    | Some (b', _) => b'
    | None => b
    end
  else b.
Lemma issues_late_keep : others_keep issues_late 0.
Proof.
  assert (∀ n mine b, counted mine b → counted mine (issues_late n b)) as Hkeep.
  { intros n mine b (slots & Hok & Hmine). unfold issues_late. destruct (_ =? _)%nat; [|by exists slots].
    destruct (issue_ok default_limits slots b bobs_stream (protocol_as_str V1) 1000 [Some (entropy "g")] Hok)
      as (b' & r & -> & Hok' & _). by exists slots. }
  split; intros; by apply Hkeep.
Qed.
Definition before_grant : HttpWorld := world db_stream new_broker.
Lemma before_grant_counted : counted None (hw_broker before_grant).
Proof. exists ∅. split; [apply new_broker_ok, default_limits_ok|done]. Qed.
Definition bobs_frames : list (option Received) :=
  [Some (RecvMessage WsPing); Some (RecvMessage (WsText bobs_grant))].
Definition bobs_socket (events : list StreamEvent) : HttpWorld * (SocketOutcome + Z * string) :=
  browser_channel_stream (arrives 10) issues_late same_permits some_json some_json sends early Some Some
    1 (Some policy) headers bobs_frames events before_grant.

Example socket_streams :
  (bobs_socket bus).2 = inl (SocketStreamed (StreamOpen 2))
  ∧ map msg_seq (sent_messages (hw_log (bobs_socket bus).1)) = [1; 2]
  ∧ (bobs_socket (bus ++ [Incoming RecvEnd])).2 = inl (SocketStreamed (StreamEnded ClientClosed))
  ∧ resources (hw_log (bobs_socket (bus ++ [Incoming RecvEnd])).1)
    = [PermitTaken; SlotTaken bobs_slot; PermitDropped; SlotDropped bobs_slot].
Proof. by vm_compute. Qed.

Lemma bobs_socket_open : bobs_socket bus = ((bobs_socket bus).1, inl (SocketStreamed (StreamOpen 2))).
Proof. rewrite (surjective_pairing (bobs_socket bus)) at 1. by apply pair_equal_spec; split; vm_compute. Qed.
Lemma bobs_socket_ended :
  bobs_socket (bus ++ [Incoming RecvEnd])
  = ((bobs_socket (bus ++ [Incoming RecvEnd])).1, inl (SocketStreamed (StreamEnded ClientClosed))).
Proof.
  rewrite (surjective_pairing (bobs_socket (bus ++ [Incoming RecvEnd]))) at 1.
  by apply pair_equal_spec; split; vm_compute.
Qed.


(** The grant was not there at the upgrade; it is when the frame has arrived. *)
Lemma stream_only_after_redemption_witness :
  bs_unused (hw_broker before_grant) = ∅
  ∧ ∃ grant digest record,
      parse_text_frame Some bobs_grant = inl grant ∧ grant_digest grant = Some digest
      ∧ bs_unused (hw_broker (Nat.iter 3 (hw_tick (arrives 10) issues_late same_permits) before_grant))
          !! digest = Some record
      ∧ 2000 < gr_expires_at record.
Proof.
  split; [reflexivity|].
  destruct (stream_only_after_redemption (arrives 10) issues_late same_permits some_json some_json sends
              early Some Some 1 (Some policy) headers bobs_frames bus before_grant _ _ bobs_socket_open)
    as (p & pings & text & rest & grant & digest & record & _ & _ & Hrec & _ & Hp & Hd & Hin & Hexp & _).
  destruct pings as [|ping1 [|ping2 [|ping3 pings]]]; try discriminate.
  injection Hrec as _ Htext _. rewrite <-Htext in Hp.
  exists grant, digest, record. split; [exact Hp|]. split; [exact Hd|]. split; [exact Hin|exact Hexp].
Defined.
