(* ===== verification/HttpProps.v ===== *)
(** * What a request may do

    A request writes only through one operation of the store, only when it answers
    with success (three routes answer with a read after their write), and only for a
    principal its route admits; a message it publishes is announced after its
    commit, unless a trigger published it.  Other requests act between any two awaits. *)

From stdpp Require Import gmap.
From S2P Require Import Prelude Action Proto Schema Channels Messages Triggers Seats Auth Deliveries.
From S2P Require Import SessionFence Observations Invocations Settlement Sessions Evidence Conversation.
From S2P Require Import Lifecycle Safety System Fence Preserve MessageProps Scenario AuthProps TriggerProps.
From S2P Require Import StreamBroker HttpCore ChannelStream ChannelStreamProps StreamSocketProps HttpRoutes.

Lemma andthen_assoc {S E A B D} (m : action S E A) (k : A → action S E B) (k' : B → action S E D) s :
  andthen m (λ a, andthen (k a) k') s = andthen (andthen m k) k' s.
Proof. unfold andthen. by destruct (m s) as [s' [a|e]]. Qed.

(** ** What the routes are for *)

Inductive Access :=
| OperatorOnly
| AnyAgent
| BoundAgent (agent_id : string)
| BoundTrigger (trigger_id : string)
| ChannelReader (channel_id : string).

Definition access `{SerdeJson} (request : Request) : Access :=
  match request with
  | ListConversationAttention | AdvanceConversationRead _ _ | AppendMessage _ _ => AnyAgent
  | ListChannelMembers c | ListMessages c _ | IssueBrowserStreamGrant c _ => ChannelReader c
  | ClaimDeliveriesRequest a _ | AcknowledgeDelivery a _ _ | RetryDeliveryRequest a _ _
  | BlockDeliveryRequest a _ _ | ReserveInvocations a _ | ArmInvocationRequest a _ _
  | CompleteInvocationRequest a _ _ => BoundAgent a
  | FireTrigger t _ => BoundTrigger t
  | _ => OperatorOnly
  end.
Definition permitted `{SerdeJson} (a : Access) (principal : Principal) (db : Db) : Prop :=
  match a with
  | OperatorOnly => is_operator principal = true
  | AnyAgent => is_Some (principal_agent_id principal)
  | BoundAgent agent_id => principal_agent_id principal = Some agent_id
  | BoundTrigger trigger_id => principal_trigger_id principal = Some trigger_id
  | ChannelReader c => has_access principal c db
  end.

(** The requests that change the store, and of these the ones that answer with a
    read after their write, and the ones that announce a message. *)
Definition mutates `{SerdeJson} (request : Request) : bool :=
  match request with
  | CreateAgentRequest _ | RotateAgentCredential _ | CreateChannelRequest _ | OpenDirectConversation _
  | RenameChannel _ _ | ArchiveChannel _ | AddMember _ _ _ | AdvanceConversationRead _ _
  | AppendMessage _ _ | ClaimDeliveriesRequest _ _ | AcknowledgeDelivery _ _ _
  | RetryDeliveryRequest _ _ _ | BlockDeliveryRequest _ _ _ | ResolveDeliveryBlockRequest _ _
  | ReserveInvocations _ _ | ArmInvocationRequest _ _ _ | CompleteInvocationRequest _ _ _
  | RegisterTriggerRequest _ | RetireTriggerRequest _ _ | RotateTriggerCredential _ | FireTrigger _ _
  | ConfigureSeat _ _ | RestartSeat _ => true
  | _ => false
  end.
Definition answers_after_write `{SerdeJson} (request : Request) : bool :=
  match request with
  | OpenDirectConversation _ | AdvanceConversationRead _ _ | RetireTriggerRequest _ _ => true
  | _ => false
  end.
Definition announces `{SerdeJson} (request : Request) : bool :=
  match request with AppendMessage _ _ | CompleteInvocationRequest _ _ _ => true | _ => false end.

(** The route of a trigger publishes without announcing. *)
Definition fires `{SerdeJson} (request : Request) : bool :=
  match request with FireTrigger _ _ => true | _ => false end.

(** The message of a reply that creates one. *)
Definition reply_message `{SerdeJson} (body : Body) : option Message :=
  match body with
  | BMessage message => Some message
  | BCompletion completion => Some (completion_result completion)
  | _ => None
  end.

Section routes.
Context `{J : SerdeJson} `{C : TokenCodec}.
Context (env_db : nat → Db → Db) (env_broker : nat → BrokerState → BrokerState)
  (env_permits : nat → Z → Z).
Context (now : nat → nat → Z) (uuid : nat → nat → string) (bytes : nat → string)
  (lease_token : nat → Db → string) (entropy : nat → list (option string)) (instant : nat → Z).
Context (sha256_hex : string → string).
(** The rest of the daemon runs its operations; a lease token is new to the store. *)
Context (Henv : ∀ n db, reaches sha256_hex db (env_db n db))
  (Hfresh : ∀ n db, fresh_token (lease_token n db) db).

#[local] Notation hw_tick := (hw_tick env_db env_broker env_permits).
#[local] Notation store_call := (store_call env_db env_broker env_permits).
#[local] Notation store_read := (store_read env_db env_broker env_permits).
#[local] Notation store_reads := (store_reads env_db env_broker env_permits).
#[local] Notation require_channel_access := (require_channel_access env_db env_broker env_permits).
#[local] Notation reaches := (reaches sha256_hex).
#[local] Notation transition := (transition sha256_hex).
#[local] Notation dispatch_request :=
  (dispatch_request env_db env_broker env_permits now uuid bytes lease_token entropy instant sha256_hex).
#[local] Notation serve :=
  (serve env_db env_broker env_permits now uuid bytes lease_token entropy instant sha256_hex).

(** ** Steps of a handler *)

(** Nothing was written or announced. *)
Definition read_only (w w' : HttpWorld) : Prop :=
  reaches (hw_db w) (hw_db w') ∧ hw_log w' = hw_log w.
#[local] Instance read_only_preorder : PreOrder read_only.
Proof.
  split; [intros w; split; [reflexivity|done]|].
  intros w1 w2 w3 [H1 E1] [H2 E2]. split; [by etrans|congruence].
Qed.
(** One operation was committed, on the store of its moment. *)
Definition wrote (w w' : HttpWorld) (a : Db) : Prop :=
  reaches (hw_db w) (hw_db w') ∧ hw_log w' = hw_log w ++ [Wrote a (hw_db w')]
  ∧ ∃ operator, transition operator a (hw_db w').

Lemma read_only_tick w : read_only w (hw_tick w).
Proof using Henv. split; [apply Henv|done]. Qed.
Lemma iter_read_only k w : read_only w (Nat.iter k hw_tick w).
Proof using Henv. induction k as [|k IH]; [reflexivity|]. etrans; [exact IH|apply read_only_tick]. Qed.

Lemma checked_read_only {A} (r : result A) : within read_only (checked r).
Proof. destruct r; [apply within_done|apply within_throw]; exact _. Qed.
Lemma store_read_only {A} (op : nat → Db → result A) : within read_only (store_read op).
Proof using Henv.
  intros w w' r. unfold HttpCore.store_read, hw_pass, andthen, act.
  case_match; intros [= <- <-]; apply read_only_tick.
Qed.
Lemma store_reads_only {A} k (op : nat → (nat → Db) → result A) : within read_only (store_reads k op).
Proof using Henv.
  intros w w' r. unfold HttpCore.store_reads. case_match; intros [= <- <-]; apply iter_read_only.
Qed.
Lemma on_broker_only {A} (f : nat → BrokerState → option (BrokerState * A)) : within read_only (on_broker f).
Proof.
  intros w w' r. unfold on_broker. destruct (f _ _) as [[b a]|]; intros [= <- <-]; split; done || reflexivity.
Qed.
Lemma replies_only {A} status (body : A → Body) (m : served A) :
  within read_only m → within read_only (replies status body m).
Proof. intros Hm. apply within_andthen; [exact _|done|intros a; apply within_done, _]. Qed.
Lemma access_only principal c : within read_only (require_channel_access principal c).
Proof using Henv.
  unfold HttpCore.require_channel_access. case_match; [apply within_done, _|].
  apply within_andthen; [exact _|apply checked_read_only|intros agent_id].
  apply within_andthen; [exact _|apply store_read_only|intros member].
  case_match; [apply within_done, _|apply within_throw, _].
Qed.

Lemma store_call_run {A} (op : nat → M A) w w' r :
  (∀ n db a db', op n db = Ok (a, db') → ∃ operator, transition operator db db') →
  store_call op w = (w', r) →
  match r with
  | inl a => ∃ n db, op n db = Ok (a, hw_db w') ∧ wrote w w' db
  | inr _ => read_only w w'
  end.
Proof using Henv.
  intros Hop H. unfold HttpCore.store_call, hw_pass, andthen, act in H.
  destruct (op _ _) as [[a db']|e] eqn:Hrun; injection H as <- <-; [|apply read_only_tick].
  exists (hw_awaits (hw_tick w)), (hw_db (hw_tick w)). split; [exact Hrun|].
  destruct (Hop _ _ _ _ Hrun) as [operator Ht]. split_and!; [|done|by exists operator].
  simpl. etrans; [apply Henv|]. apply rtc_once. exists operator. exact Ht.
Qed.

(** ** What a request leaves *)

Definition request_trace (request : Request) (w w' : HttpWorld) (r : HttpReply + Fault) : Prop :=
  reaches (hw_db w) (hw_db w')
  ∧ match r with
    | inr _ => hw_log w' = hw_log w
               ∨ answers_after_write request = true
                 ∧ ∃ operator a b, transition operator a b ∧ hw_log w' = hw_log w ++ [Wrote a b]
    | inl reply =>
        if negb (mutates request) then hw_log w' = hw_log w
        else ∃ operator a b rest, transition operator a b ∧ hw_log w' = hw_log w ++ Wrote a b :: rest
          ∧ if announces request then
              ∃ message, reply_message (rp_body reply) = Some message
              ∧ (rp_status reply = OK ∧ rest = [] ∧ b = a
                 ∨ rp_status reply = CREATED ∧ rest = [Announced (Committed message)]
                   ∧ ∃ row, b.(messages) = a.(messages) ++ [row] ∧ holds_message row message)
            else if fires request then
              rest = [] ∧ rp_status reply = OK
              ∧ ∃ fired, rp_body reply = BFired fired
                ∧ if fired_created fired then
                    ∃ row, b.(messages) = a.(messages) ++ [row] ∧ m_id row = fired_message_id fired
                  else b = a
            else rest = [] ∧ b.(messages) = a.(messages)
    end.

Lemma read_only_trace request (m : served HttpReply) w w' r :
  mutates request = false → within read_only m → m w = (w', r) → request_trace request w w' r.
Proof.
  intros Hmut Hm H. destruct (Hm _ _ _ H) as [Hr Hlog]. split; [done|].
  destruct r; [by rewrite Hmut|by left].
Qed.

(** A guard, one call, and an answer made of its value. *)
Lemma one_call_trace {A} request (g : served unit) (op : nat → M A) (f : A → HttpReply) w w' r :
  mutates request = true → announces request = false → fires request = false → within read_only g →
  (∀ n db a db', op n db = Ok (a, db') → ∃ operator, transition operator db db') →
  (∀ n (ms : list MessageRow), preserves (λ db, db.(messages) = ms) (op n)) →
  (g ;! let! a := store_call op in done_with (f a)) w = (w', r) → request_trace request w w' r.
Proof using Henv.
  intros Hmut Hann Hfire Hg Hop Hsame H.
  apply andthen_run in H as [([] & w1 & Hw1 & H)|(e & Hw1 & ->)]; apply Hg in Hw1 as [Hr1 Hl1].
  2:{ split; [done|by left]. }
  apply andthen_run in H as [(a & w2 & Hcall & H)|(e & Hcall & ->)];
    apply store_call_run in Hcall; try done.
  - injection H as <- <-. destruct Hcall as (n & db & Hrun & Hr2 & Hl2 & operator & Ht).
    split; [by etrans|]. rewrite Hmut, Hann, Hfire. simpl.
    exists operator, db, (hw_db w2), []. split_and!; [done|by rewrite Hl2, Hl1|done|].
    by eapply (Hsame n).
  - destruct Hcall as [Hr2 Hl2]. split; [by etrans|]. left. congruence.
Qed.

(** A write followed by reads. *)
Lemma write_then_read_trace {A B} request (g : served B) (op : B → nat → M A)
    (rest : B → A → served HttpReply) w w' r :
  mutates request = true → announces request = false → fires request = false →
  answers_after_write request = true → within read_only g → (∀ b a, within read_only (rest b a)) →
  (∀ b n db a db', op b n db = Ok (a, db') → ∃ operator, transition operator db db') →
  (∀ b n (ms : list MessageRow), preserves (λ db, db.(messages) = ms) (op b n)) →
  (let! b := g in let! a := store_call (op b) in rest b a) w = (w', r) → request_trace request w w' r.
Proof using Henv.
  intros Hmut Hann Hfire Hafter Hg Hrest Hop Hsame H.
  apply andthen_run in H as [(b & w1 & Hw1 & H)|(e & Hw1 & ->)]; apply Hg in Hw1 as [Hr1 Hl1].
  2:{ split; [done|by left]. }
  apply andthen_run in H as [(a & w2 & Hcall & H)|(e & Hcall & ->)];
    apply store_call_run in Hcall; try (by apply Hop).
  2:{ destruct Hcall as [Hr2 Hl2]. split; [by etrans|]. left. congruence. }
  destruct Hcall as (n & db & Hrun & Hr2 & Hl2 & operator & Ht). apply Hrest in H as [Hr3 Hl3].
  split; [by etrans; [|etrans]|]. rewrite Hmut, Hann, Hfire, Hafter. destruct r; simpl.
  - exists operator, db, (hw_db w2), []. split_and!; [done|by rewrite Hl3, Hl2, Hl1|done|].
    by eapply (Hsame b n).
  - right. split; [done|]. exists operator, db, (hw_db w2). split; [done|]. by rewrite Hl3, Hl2, Hl1.
Qed.

(** A firing: the message is in the store, and nobody is woken. *)
Lemma fired_trace {A} trigger_id occurrence (g : served A) w w' r :
  let request := FireTrigger trigger_id occurrence in
  within read_only g →
  (g ;! let! fired := store_call (λ n, fire sha256_hex trigger_id occurrence (uuid n 0) (now n 0) (now n 1)) in
        done_with (reply OK (BFired fired))) w = (w', r) →
  request_trace request w w' r.
Proof using Henv.
  intros request Hg H.
  apply andthen_run in H as [(u & w1 & Hw1 & H)|(e & Hw1 & ->)]; apply Hg in Hw1 as [Hr1 Hl1].
  2:{ split; [done|by left]. }
  apply andthen_run in H as [(a & w2 & Hcall & H)|(e & Hcall & ->)]; apply store_call_run in Hcall;
    try (intros n db fired db' Hop; eexists; by eapply t_fire).
  2:{ destruct Hcall as [Hr2 Hl2]. split; [by etrans|]. left. congruence. }
  injection H as <- <-. destruct Hcall as (n & db & Hrun & Hr2 & Hl2 & operator & Ht).
  split; [by etrans|]. simpl. exists operator, db, (hw_db w2), [].
  split_and!; [done|by rewrite Hl2, Hl1|done|done|]. exists a. split; [done|].
  by eapply fire_publishes.
Qed.

(** A call that may publish a message, and its announcement. *)
Lemma announced_trace {A B} request (g : served B) (op : B → nat → M A) (created : A → bool)
    (message : A → Message) (body : A → Body) w w' r :
  mutates request = true → announces request = true → within read_only g →
  (∀ b n db a db', op b n db = Ok (a, db') → ∃ operator, transition operator db db') →
  (∀ a, reply_message (body a) = Some (message a)) →
  (∀ b n db a db', op b n db = Ok (a, db') →
     created a = false ∧ db' = db
     ∨ created a = true ∧ ∃ row, db'.(messages) = db.(messages) ++ [row] ∧ holds_message row (message a)) →
  (let! b := g in let! a := store_call (op b) in
   (if created a then announce (Committed (message a)) else done_with tt) ;!
   done_with (reply (created_or_ok (created a)) (body a))) w = (w', r) →
  request_trace request w w' r.
Proof using Henv.
  intros Hmut Hann Hg Hop Hbody Hout H.
  apply andthen_run in H as [(b & w1 & Hw1 & H)|(e & Hw1 & ->)]; apply Hg in Hw1 as [Hr1 Hl1].
  2:{ split; [done|by left]. }
  apply andthen_run in H as [(a & w2 & Hcall & H)|(e & Hcall & ->)];
    apply store_call_run in Hcall; try (by apply Hop).
  2:{ destruct Hcall as [Hr2 Hl2]. split; [by etrans|]. left. congruence. }
  destruct Hcall as (n & db & Hrun & Hr2 & Hl2 & operator & Ht).
  destruct (Hout _ _ _ _ _ Hrun) as [[Hc Hsame]|(Hc & Hrow)]; rewrite Hc in H; injection H as <- <-.
  - split; [by etrans|]. rewrite Hmut, Hann. simpl. exists operator, db, (hw_db w2), [].
    split_and!; [done|by rewrite Hl2, Hl1|]. exists (message a). rewrite Hbody. split; [done|]. by left.
  - split; [simpl; by etrans|]. rewrite Hmut, Hann. simpl.
    exists operator, db, (hw_db w2), [Announced (Committed (message a))].
    split_and!; [done|by rewrite Hl2, Hl1, <- !app_assoc|]. exists (message a). rewrite Hbody. split; [done|].
    right. by split_and!.
Qed.

(** ** Every route *)

Lemma append_announced c input n at_ms db r db' :
  append_message_in_transaction c input n at_ms db = Ok (r, db') →
  append_created r = false ∧ db' = db
  ∨ append_created r = true
    ∧ ∃ row, db'.(messages) = db.(messages) ++ [row] ∧ holds_message row (append_message r).
Proof.
  intros [H|(Hc & _ & row & Hrow & Hm & _)]%append_outcome; [by left|right]. split; [done|]. by exists row.
Qed.
Lemma complete_announced a x input at_ now_ms u db r db' :
  complete_invocation a x input at_ u now_ms db = Ok (r, db') →
  r.2 = false ∧ db' = db
  ∨ r.2 = true
    ∧ ∃ row, db'.(messages) = db.(messages) ++ [row] ∧ holds_message row (completion_result r.1).
Proof.
  intros H. apply complete_ok in H as (i & d & m & _ & _ & _ & _ & _ & _ & _ & _ & _ & _
    & [(-> & _ & ?)|(_ & Hc & _ & db1 & Hins & ->)]); [by left|right]. split; [done|].
  apply insert_message_ok in Hins as (ch & payload & _ & _ & _ & _ & _ & Hp & _ & Hres & _ & ->).
  eexists. split; [done|]. rewrite Hres. by apply stored_holds.
Qed.

(** The forms of a handler that only reads. *)
Ltac head_of t := match t with ?f _ => head_of f | _ => t end.
Ltac only_reads :=
  lazymatch goal with
  | |- within _ (andthen _ _) => apply within_andthen; [exact _|only_reads|intros ?; only_reads]
  | |- within _ (checked _) => apply checked_read_only
  | |- within _ (HttpCore.store_read _ _ _ _) => by apply store_read_only
  | |- within _ (HttpCore.store_reads _ _ _ _ _) => by apply store_reads_only
  | |- within _ (HttpCore.require_channel_access _ _ _ _ _) => by apply access_only
  | |- within _ (replies _ _ _) => apply replies_only; only_reads
  | |- within _ (on_broker _) => apply on_broker_only
  | |- within _ (done_with _) => apply within_done, _
  | |- within _ (refused _) => apply within_throw, _
  | |- within _ ?m => let f := head_of m in unfold f; cbv beta; only_reads
  end.
Lemma issue_only c input principal :
  within read_only (issue_browser_stream_grant env_db env_broker env_permits now entropy instant c input principal).
Proof using Henv.
  unfold issue_browser_stream_grant. do 4 (apply within_andthen; [exact _|only_reads|intros ?]).
  case_match; [|only_reads]. apply within_andthen; [exact _|only_reads|intros ?].
  intros w w' r [= <- <-]. reflexivity.
Qed.

Lemma request_traced request principal w w' r :
  dispatch_request request principal w = (w', r) → request_trace request w w' r.
Proof using Henv Hfresh.
  intros H. destruct request; simpl in H;
    try (eapply read_only_trace; [done| |exact H]; (apply issue_only || only_reads); fail);
    try (eapply (one_call_trace _ (checked _)); [done|done|done|apply checked_read_only| | |exact H];
         [intros n db a db' Hop; try destruct a; eexists; econstructor; exact Hop
         |intros n ms; cbv beta; preserves_tac]; fail).
  - eapply write_then_read_trace; [done|done|done|done|apply checked_read_only| | | |exact H].
    + intros; cbv beta; only_reads.
    + intros u n db a db' Hop. eexists. eapply t_open_direct_pair; exact Hop.
    + intros u n ms. cbv beta. preserves_tac.
  - eapply write_then_read_trace; [done|done|done|done|apply checked_read_only| | | |exact H].
    + intros; cbv beta; only_reads.
    + intros agent_id n db a db' Hop. eexists. eapply t_advance_read; exact Hop.
    + intros agent_id n ms. cbv beta. preserves_tac.
  - eapply (announced_trace _ _ _ append_created append_message (λ a, BMessage (append_message a)));
      [done|done|apply checked_read_only| |done| |exact H].
    + intros agent_id n db a db' Hop. eexists. eapply t_append; exact Hop.
    + intros agent_id n db a db' Hop. eapply append_announced; exact Hop.
  - eapply (one_call_trace _ (checked _)); [done|done|done|apply checked_read_only| | |exact H].
    + intros n db a db' Hop. eexists. eapply t_claim; [apply (Hfresh n db)|exact Hop].
    + intros n ms. cbv beta. intros db a db' HI Hop. cbv beta in Hop.
      revert HI. apply (preserves_run (λ db, db.(messages) = ms) _ _ _ _ Hop). preserves_tac.
  - eapply (one_call_trace _ (checked _)); [done|done|done|apply checked_read_only| | |exact H].
    + intros n db a db' Hop. cbv beta delta [reserve_invocations] in Hop.
      eexists. eapply t_reserve; [apply (Hfresh n db)|exact Hop].
    + intros n ms. cbv beta. intros db a db' HI Hop. cbv beta in Hop.
      revert HI. apply (preserves_run (λ db, db.(messages) = ms) _ _ _ _ Hop). preserves_tac.
  - eapply (announced_trace _ _ (λ _, _) (λ a, a.2) (λ a, completion_result a.1) (λ a, BCompletion a.1));
      [done|done|apply checked_read_only| |done| |exact H].
    + intros u n db a db' Hop. eexists. eapply t_complete; exact Hop.
    + intros u n db a db' Hop. eapply complete_announced; exact Hop.
  - assert (H' : (let! _ := checked (require_operator principal) in
      let! _ := store_call (λ n, retire_trigger_transaction trigger_id reason (now n 0)) in
      replies OK BTrigger (store_read (λ _, read_at (get_trigger trigger_id)))) w = (w', r)).
    { rewrite <-H. unfold retire_trigger_route, replies, retire_trigger, andthen. by repeat case_match. }
    eapply write_then_read_trace; [done|done|done|done|apply checked_read_only| | | |exact H'].
    + intros; cbv beta; only_reads.
    + intros u n db a db' Hop. eexists. eapply t_retire_trigger; exact Hop.
    + intros u n ms. cbv beta. preserves_tac.
  - unfold rotate_trigger_credential_route in H.
    eapply (one_call_trace _ (checked _ ;! store_read _)); [done|done|done| | | |rewrite <- andthen_assoc; exact H].
    + only_reads.
    + intros n db a db' Hop. eexists. eapply t_rotate_trigger; exact Hop.
    + intros n ms. cbv beta. preserves_tac.
  - eapply fired_trace; [apply checked_read_only|exact H].
Qed.

(** ** Who may *)

Lemma authenticate_fails token db e :
  read_at (authenticate token) db = Err e →
  status_of e = 401 ∨ status_of e = 403 ∨ status_of e = 404 ∨ is_internal e = true.
Proof.
  unfold read_at, authenticate, bind, lift, fetch_optional, gets, refuse. intros H.
  destruct (_ || _); [injection H as <-; by left|]. simpl in H.
  destruct (List.find _ _) as [row|]; simpl in H; [|injection H as <-; by left].
  destruct (principal_from_row _ row) as [p|e'] eqn:Hp; simpl in H; [done|]. injection H as ->.
  unfold principal_from_row in Hp. repeat case_match; simplify_eq; simpl; auto.
Qed.


(** Refused as forbidden, or for want of the channel, after nothing but time
    passed. *)
Definition denial (e : FleetError) : Prop :=
  (∃ reason, e = Forbidden reason) ∨ ∃ c, e = NotFound "channel" c.
Definition denied {A} (w w' : HttpWorld) (r : A + Fault) : Prop :=
  ∃ k e, w' = Nat.iter k hw_tick w ∧ r = inr (Refused e) ∧ denial e.

Lemma guard_run {A B} (P : Prop) (guard : result A) (k : A → served B) w w' r :
  (∀ a, guard = Ok a → P) → (∀ e, guard = Err e → ∃ reason, e = Forbidden reason) →
  (let! a := checked guard in k a) w = (w', r) → P ∨ denied w w' r.
Proof.
  intros Hok Herr H. destruct guard as [a|e]; [left; by eapply Hok|right].
  injection H as <- <-. exists O, e. split_and!; [done|done|left; by apply Herr].
Qed.
Lemma operator_guard {B} principal (k : unit → served B) w w' r :
  (let! a := checked (require_operator principal) in k a) w = (w', r) →
  is_operator principal = true ∨ denied w w' r.
Proof.
  apply guard_run; unfold require_operator; destruct (is_operator principal); try done.
  intros e [= <-]. eauto.
Qed.
Lemma agent_guard {B} principal (k : string → served B) w w' r :
  (let! a := checked (require_agent principal) in k a) w = (w', r) →
  is_Some (principal_agent_id principal) ∨ denied w w' r.
Proof.
  apply guard_run; unfold require_agent; destruct (principal_agent_id principal); try done.
  intros e [= <-]. eauto.
Qed.
Lemma bound_agent_guard {B} principal agent_id (k : unit → served B) w w' r :
  (let! a := checked (require_bound_agent principal agent_id) in k a) w = (w', r) →
  principal_agent_id principal = Some agent_id ∨ denied w w' r.
Proof.
  apply guard_run; unfold require_bound_agent, require_agent;
    destruct (principal_agent_id principal) as [a|]; simpl; try done.
  - intros u. destruct (a ==? agent_id) eqn:Ha; [|done]. bool_facts. by subst.
  - intros e. destruct (a ==? agent_id); intros [= <-]. eauto.
  - intros e [= <-]. eauto.
Qed.
Lemma bound_trigger_guard {B} principal trigger_id (k : unit → served B) w w' r :
  (let! a := checked (require_bound_trigger principal trigger_id) in k a) w = (w', r) →
  principal_trigger_id principal = Some trigger_id ∨ denied w w' r.
Proof.
  apply guard_run; unfold require_bound_trigger.
  - intros u. destruct (_ ==? _) eqn:Ha; [|done]. by bool_facts.
  - intros e. destruct (_ ==? _); intros [= <-]. eauto.
Qed.
Lemma access_guard {B} principal c (k : unit → served B) w w' r :
  (let! a := require_channel_access principal c in k a) w = (w', r) →
  (∃ n, has_access principal c (hw_db (Nat.iter n hw_tick w))) ∨ denied w w' r.
Proof.
  unfold has_access, HttpCore.require_channel_access. destruct (is_operator principal).
  { intros _. left. exists O. by left. }
  unfold require_agent. destruct (principal_agent_id principal) as [agent_id|] eqn:Hp; simpl.
  2:{ intros [= <- <-]. right. eexists O, _. split_and!; [done|done|left; eauto]. }
  unfold andthen at 2. unfold HttpCore.store_read, hw_pass, andthen, act, checked, done_with. simpl.
  destruct (read_at _ _) as [[]|e] eqn:Hm; intros H.
  - left. exists 1%nat. right. by exists agent_id.
  - injection H as <- <-. right. eexists 1%nat, _. split_and!; [done|done|left; eauto].
  - injection H as <- <-. right. exists 1%nat, e. split_and!; [done|done|right]. exists c.
    unfold read_at in Hm. destruct (is_member _ _ _) as [[]|e'] eqn:Hmem; [done|]. injection Hm as ->.
    unfold is_member, ensure_exists, bind, lift, refuse, count, gets in Hmem. simpl in Hmem.
    destruct (length _ ==? 0%nat) in Hmem; simpl in Hmem; [by injection Hmem as <-|done].
Qed.

Lemma dispatch_permitted request principal w w' r :
  dispatch_request request principal w = (w', r) →
  (∃ k, permitted (access request) principal (hw_db (Nat.iter k hw_tick w))) ∨ denied w w' r.
Proof.
  intros H. destruct request; simpl in *;
    first [apply operator_guard in H|apply agent_guard in H|apply bound_agent_guard in H
          |apply bound_trigger_guard in H|apply access_guard in H];
    destruct H; (by right) || (by left) || (left; by exists O).
Qed.

(** C14 Every request is made by someone its route admits.  Unless a request came
    with the token of a credential the store held active for a principal that the
    route admits (the operator, an agent, the agent or the trigger it fresh_names, or a
    member of its channel), it is answered with 401, 403, 404 or an internal error,
    and nothing but time has passed: the store, the broker, the permits and the log
    are what the rest of the daemon made of them. *)
Theorem http_authority authorization request w w' r :
  serve authorization request w = (w', r) →
  (∃ header token principal db k,
     authorization = Some header ∧ parse_bearer_token header = Some token
     ∧ hw_db (hw_tick w) = db ∧ authenticate token db = Ok (principal, db)
     ∧ permitted (access request) principal (hw_db (Nat.iter k hw_tick w)))
  ∨ ∃ k e, w' = Nat.iter k hw_tick w ∧ r = inr (Refused e)
           ∧ (status_of e = 401 ∨ status_of e = 403 ∨ status_of e = 404 ∨ is_internal e = true).
Proof.
  intros H. unfold HttpRoutes.serve in H.
  apply andthen_run in H as [(principal & w1 & Ha & H)|(e & Ha & ->)].
  - unfold authenticate_request, andthen, checked in Ha.
    destruct (ok_or _ _) as [token|e] eqn:Htoken; [|done].
    unfold HttpCore.store_read, hw_pass, andthen, act, done_with in Ha.
    destruct (read_at _ _) as [p|e] eqn:Hauth; [|done]. injection Ha as <- <-.
    destruct authorization as [header|]; [|done]. simpl in Htoken.
    destruct (parse_bearer_token header) as [t|] eqn:Hparse; [|done]. injection Htoken as ->.
    unfold read_at in Hauth. destruct (authenticate token _) as [[p' db']|] eqn:Hp; [|done].
    injection Hauth as ->. pose proof Hp as Hp'. apply authenticate_ok in Hp' as [-> _].
    apply dispatch_permitted in H as [[k Hk]|(k & e & -> & -> & He)].
    + left. exists header, token, p, (hw_db (hw_tick w)), (k + 1)%nat.
      split_and!; try done. by rewrite Nat.iter_add.
    + right. exists (k + 1)%nat, e. split_and!; [by rewrite Nat.iter_add|done|].
      destruct He as [[reason ->]|[c ->]]; simpl; auto.
  - right. unfold authenticate_request, andthen, checked in Ha.
    destruct (ok_or _ _) as [token|e'] eqn:Htoken.
    + unfold HttpCore.store_read, hw_pass, andthen, act, done_with in Ha.
      destruct (read_at _ _) as [p|e'] eqn:Hauth; [done|]. injection Ha as <- <-.
      exists 1%nat, e'. split_and!; [done|done|]. by eapply authenticate_fails.
    + injection Ha as <- <-. exists O, e'. split_and!; [done|done|].
      destruct authorization as [header|]; simpl in Htoken.
      * destruct (parse_bearer_token header); [done|]. injection Htoken as <-. by left.
      * injection Htoken as <-. by left.
Qed.

(** C15 A request is at most one transition of the system.  The store it leaves is
    reached by operations of the daemon; a request that is refused wrote nothing
    (three routes may fail in the read after their write: opening a direct
    conversation, advancing a read cursor, retiring a trigger); a read writes nothing;
    a request that changes the store commits one operation before it answers.  A
    message an append or a completion created is in the store, is the one the reply
    carries with status 201, and is announced after its commit, while a replay
    changes nothing and announces nothing.  A firing of a trigger answers 200; the
    message it created, if it says that it created one, is in the store and is not
    announced.  No other request changes the log of messages. *)
Theorem requests_are_transitions authorization request w w' r :
  serve authorization request w = (w', r) → request_trace request w w' r.
Proof using Henv Hfresh.
  intros H. unfold HttpRoutes.serve in H.
  apply andthen_run in H as [(principal & w1 & Ha & H)|(e & Ha & ->)].
  - assert (read_only w w1) as [Hr1 Hl1].
    { eapply (_ : within read_only _), Ha. Unshelve. only_reads. }
    apply request_traced in H as [Hr2 Ht]. split; [by etrans|].
    rewrite Hl1 in Ht. exact Ht.
  - assert (read_only w w') as [Hr1 Hl1]; [|split; [done|by left]].
    eapply (_ : within read_only _), Ha. Unshelve. only_reads.
Qed.
End routes.

(** No text of a library's error reaches a client. *)
Lemma respond_hides_sources `{SerdeJson} text text' (r : HttpReply + Fault) : respond text r = respond text' r.
Proof. by destruct r as [reply|[[]|]]. Qed.

(** ** The theorems at concrete states *)

(** A lease token no row of the store holds. *)
Definition held_tokens (db : Db) : list string :=
  omap d_lease_token db.(agent_deliveries) ++ map b_lease_token db.(delivery_blocks)
  ++ omap d_last_settled_lease_token db.(agent_deliveries).
Definition new_lease_token (n : nat) (db : Db) : string :=
  fresh (list_to_set (held_tokens db) : gset string).
Lemma new_lease_token_fresh n db : fresh_token (new_lease_token n db) db.
Proof.
  assert (new_lease_token n db ∉ held_tokens db) as Hfresh.
  { pose proof (is_fresh (list_to_set (held_tokens db) : gset string)) as Hf.
    by rewrite elem_of_list_to_set in Hf. }
  unfold held_tokens in Hfresh. rewrite !not_elem_of_app in Hfresh. destruct Hfresh as (H1 & H2 & H3).
  split_and!.
  - intros d Hd Heq. apply H1, list_elem_of_omap. by exists d.
  - intros b Hb Heq. apply H2, list_elem_of_fmap. by exists b.
  - intros d Hd Heq. apply H3, list_elem_of_omap. by exists d.
Qed.

Definition clock (n k : nat) : Z := 70.
Definition fresh_names (n k : nat) : string := "U" +:+ pretty (Z.of_nat (10 * n + k)).
Definition random (n : nat) : string := entropy "r".
Definition grant_bytes (n : nat) : list (option string) := [Some (entropy "g")].
Definition bobs_answer : SendMessage :=
  {| sm_idempotency_key := None; sm_recipient_id := Some "A"; sm_kind := "answer"; sm_payload := "fine";
     sm_correlation_id := None; sm_causation_id := None |}.
Definition bearer (token : string) : option string := Some ("Bearer " +:+ token).
Definition served_by (authorization : option string) (request : Request) (db : Db)
    : HttpWorld * (HttpReply + Fault) :=
  serve (arrives 1) same_broker same_permits clock fresh_names random new_lease_token grant_bytes early plain_sha256
    authorization request (world db new_broker).
Definition posted : HttpWorld * (HttpReply + Fault) :=
  served_by (bearer old_token) (AppendMessage "C" bobs_answer) db_stream.

(** Bob answers in his channel; another message came between his authentication
    and the append. *)
Example answer_posted :
  option_map rp_status (match posted.2 with inl reply => Some reply | inr _ => None end) = Some CREATED
  ∧ map m_sender_id (hw_db posted.1).(messages) = ["A"; "A"; "B"]
  ∧ match hw_log posted.1 with
    | [Wrote _ _; Announced (Committed message)] => msg_seq message = 3
    | _ => False
    end.
Proof. by vm_compute. Qed.
(** With a token that was rotated away, or for another agent's inbox, nothing happens. *)
Example answer_refused :
  (served_by (bearer old_token) (AppendMessage "C" bobs_answer) db_stream_rotated).2 = inr (Refused Unauthorized)
  ∧ (served_by (bearer old_token)
       (ClaimDeliveriesRequest "A" {| claim_limit := 1; claim_lease_duration_ms := 1000 |}) db_stream).2
    = inr (Refused (Forbidden "credential is bound to another agent"))
  ∧ (served_by (bearer old_token) ListAgents db_stream).2
    = inr (Refused (Forbidden "operator credential required")).
Proof. by vm_compute. Qed.

Lemma served_by_eq authorization request db :
  serve (arrives 1) same_broker same_permits clock fresh_names random new_lease_token grant_bytes early plain_sha256
    authorization request (world db new_broker)
  = ((served_by authorization request db).1, (served_by authorization request db).2).
Proof. apply surjective_pairing. Qed.

Lemma requests_are_transitions_witness :
  reaches plain_sha256 (hw_db (world db_stream new_broker)) (hw_db posted.1).
Proof.
  destruct (requests_are_transitions (arrives 1) same_broker same_permits clock fresh_names random new_lease_token
              grant_bytes early plain_sha256 (arrives_reaches 1) new_lease_token_fresh
              (bearer old_token) (AppendMessage "C" bobs_answer) (world db_stream new_broker) posted.1 posted.2
              (served_by_eq _ _ _)) as [H _].
  exact H.
Defined.
Lemma http_authority_witness :
  ∃ header token principal db k,
     bearer old_token = Some header ∧ parse_bearer_token header = Some token
     ∧ hw_db (hw_tick (arrives 1) same_broker same_permits (world db_stream new_broker)) = db
     ∧ authenticate token db = Ok (principal, db)
     ∧ permitted (access (AppendMessage "C" bobs_answer)) principal
         (hw_db (Nat.iter k (hw_tick (arrives 1) same_broker same_permits) (world db_stream new_broker))).
Proof.
  destruct (http_authority (arrives 1) same_broker same_permits clock fresh_names random new_lease_token
              grant_bytes early plain_sha256
              (bearer old_token) (AppendMessage "C" bobs_answer) (world db_stream new_broker) posted.1 posted.2
              (served_by_eq _ _ _)) as [H|(k & e & _ & He & _)].
  - exact H.
  - exfalso. revert He. vm_compute. discriminate.
Defined.
