(* ===== verification/AcpHostProps.v ===== *)
(** * Properties of the ACP host: sessions and evidence

    What a turn keeps of its updates, over every run of the host; the exact check of
    the endpoints granted to a session; and what splitting a replay preserves. *)

From stdpp Require Import gmap.
From S2P Require Import Prelude Action Proto Schema Observations Sessions HarnessClient.
From S2P Require Import Supervisor Controller Projection ResultProps AcpSession AcpHost.

(** What the host relies on of the JSON it edits: a value with a member is an
    object, whose members an insertion keeps but for the one it sets. *)
Class JsonInsertLaws `{JT : JsonTree} := {
  insert_get : ∀ k k' v w o, json_get k' o = Some w →
    ∃ o', json_insert k v o = Some o' ∧ json_get k o' = Some v
      ∧ ∀ q, q ≠ k → json_get q o' = json_get q o;
}.

Section capture.
Context `{J : SerdeJson} {JT : JsonTree} {JL : JsonTreeLaws} {JI : JsonInsertLaws}.
Context {AL : AcpLibraries} (sha256_hex : string → string).
Implicit Types a : HostTurn.

(** ** The bytes kept of a turn *)

(** A text block counts its text, any other block its encoding. *)
Definition content_size (content : Value) : Z :=
  if get_str "type" content ==? Some "text"
  then from_option str_len 0 (get_str "text" content)
  else value_len content.
Definition total (sizes : list Z) : Z := fold_right Z.add 0 sizes.
Definition message_size (m : AssistantMessage) : Z := total (map content_size (am_content m)).
Definition captured_size (messages : list AssistantMessage) : Z :=
  total (map message_size messages).

Lemma total_app l k : total (l ++ k) = total l + total k.
Proof. induction l as [|x l IH]; simpl; [done|]. lia. Qed.
Lemma captured_snoc messages m :
  captured_size (messages ++ [m]) = captured_size messages + message_size m.
Proof. unfold captured_size. rewrite map_app, total_app. simpl. lia. Qed.
Lemma on_last_snoc {A} (f : A → A) l x : on_last f (l ++ [x]) = l ++ [f x].
Proof. unfold on_last. rewrite rev_app_distr. simpl. by rewrite rev_involutive. Qed.

Definition named_ids (messages : list AssistantMessage) : list string := omap am_message_id messages.
(** The bytes kept and those left stay within the limit, which the start of the turn
    bounded, and an identifier names one message. *)
Definition capture_ok a : Prop :=
  captured_size (ht_assistant_messages a) + remaining_capture a <= Z.max 0 (capture_limit a)
  ∧ capture_limit a <= HOST_MAX_CAPTURE_BYTES
  ∧ NoDup (named_ids (ht_assistant_messages a)).

Lemma substring_prefix_length n s :
  (n ≤ String.length s)%nat → String.length (String.substring 0 n s) = n.
Proof. revert s. induction n as [|n IH]; intros [|c s] Hn; simpl in *; try lia. rewrite IH; lia. Qed.

Lemma truncated_size content text s :
  get_str "type" content = Some "text" → get_str "text" content = Some text →
  content_size (truncated_text content s) = str_len s.
Proof using JL JI.
  intros Ht Hx. unfold get_str in Hx. destruct (json_get "text" content) as [w|] eqn:Hw; [|done].
  destruct (insert_get "text" "text" (json_string s) w content Hw) as (o' & Hins & Hget & Hkeep).
  unfold content_size, truncated_text, get_str. rewrite Hins. simpl.
  rewrite Hkeep by done. fold (get_str "type" content). rewrite Ht, bool_decide_true by done.
  rewrite Hget. simpl. by rewrite as_str_string.
Qed.

(** A state change that adds at most what it takes from the bytes left. *)
Lemma capture_grows a a' (content : list Value) messages m complete captured :
  ht_assistant_messages a = messages ++ [m] →
  a' = on_message (push_content content complete) captured a →
  total (map content_size content) + Z.max 0 (capture_limit a - captured) <= remaining_capture a →
  capture_ok a → capture_ok a'.
Proof.
  intros Hm -> Hsize (Hc & Hl & Hn). unfold capture_ok, on_message in *.
  rewrite Hm in *. rewrite on_last_snoc. simpl in *. split_and!.
  - rewrite captured_snoc in *. unfold message_size in *. simpl. rewrite map_app, total_app.
    unfold remaining_capture, capture_limit in *. simpl in *. lia.
  - done.
  - unfold named_ids in *. rewrite omap_app in *. done.
Qed.

Lemma capture_content_ok content a a' r messages m :
  ht_assistant_messages a = messages ++ [m] → capture_ok a →
  capture_content content a = (a', r) → capture_ok a'.
Proof using JL JI.
  intros Hm Hok H. unfold capture_content in H. apply andthen_run in H as [(rem & a1 & Hl & H)|(? & [=] & _)].
  injection Hl as <- <-. unfold remaining_capture in H.
  assert (0 <= remaining_capture a) as Hrem by (unfold remaining_capture; lia).
  destruct (get_str "type" content ==? Some "text") eqn:Ht.
  - apply bool_decide_eq_true in Ht.
    destruct (get_str "text" content) as [text|] eqn:Hx; [|by injection H as <- <-].
    fold (remaining_capture a) in H. destruct (str_len text <=? remaining_capture a) eqn:Hfit.
    + injection H as <- <-. eapply capture_grows; [done..| |done]. simpl. apply Z.leb_le in Hfit.
      unfold content_size. rewrite Ht, bool_decide_true, Hx by done. simpl.
      assert (0 <= str_len text) by (unfold str_len; lia).
      unfold remaining_capture in *. lia.
    + apply Z.leb_gt in Hfit. injection H as <- <-. eapply capture_grows; [done..| |done].
      rewrite Z.sub_diag. set (n := Z.to_nat _).
      pose proof (floor_boundary_ok text n) as (_ & Hle & _).
      assert (n ≤ String.length text)%nat by (unfold n, str_len in *; lia).
      destruct (0 <? floor_boundary text n)%nat; simpl; [|lia].
      rewrite (truncated_size _ text) by done. unfold str_len.
      rewrite substring_prefix_length by lia. unfold n in *. lia.
  - destruct (to_json content) as [encoded|] eqn:He; [|by injection H as <- <-].
    fold (remaining_capture a) in H. destruct (str_len encoded <=? remaining_capture a) eqn:Hfit.
    + injection H as <- <-. eapply capture_grows; [done..| |done]. simpl. apply Z.leb_le in Hfit.
      unfold content_size. rewrite Ht. unfold value_len, value_text. rewrite He. simpl.
      assert (0 <= str_len encoded) by (unfold str_len; lia).
      unfold remaining_capture in *. lia.
    + injection H as <- <-. eapply capture_grows; [done..| |done]. simpl. lia.
Qed.

Lemma begin_message_ok message_id event_seq a a' r :
  capture_ok a → begin_message message_id event_seq a = (a', r) →
  capture_ok a' ∧ ∀ u, r = inl u → ∃ messages m,
    ht_assistant_messages a' = messages ++ [m] ∧ am_message_id m = message_id.
Proof.
  intros Hok H. unfold begin_message in H.
  apply andthen_run in H as [(messages & a1 & Hl & H)|(? & [=] & _)]. injection Hl as <- <-.
  case_bool_decide as Hlast.
  - injection H as <- <-. split; [done|]. intros _ _.
    destruct (last _) as [m|] eqn:Hm; [|done]. injection Hlast as Hid.
    apply last_Some in Hm as [messages Hm]. eauto.
  - apply andthen_run in H as [([] & a1 & Ht & H)|(e & Ht & ->)].
    2:{ injection Ht as <- _. split; [done|]. by intros ? [=]. }
    injection Ht as <- Hfresh. injection H as <- <-. split; [|intros _ _; simpl; eauto].
    destruct Hok as (Hc & Hl & Hn). split_and!; simpl; [|done|].
    + rewrite captured_snoc. unfold message_size, remaining_capture, capture_limit in *. simpl in *. lia.
    + unfold named_ids. rewrite omap_app. simpl. destruct message_id as [id|]; simpl.
      * apply reject_ok in Hfresh. apply NoDup_app. split; [done|]. split; [|apply NoDup_singleton].
        intros x Hx ->%list_elem_of_singleton. apply list_elem_of_omap in Hx as (m & Hm & Hid).
        assert (existsb (λ m, am_message_id m ==? Some id) (ht_assistant_messages a) = true); [|congruence].
        apply existsb_exists. exists m. split; [by apply list_elem_of_In|]. by apply bool_decide_eq_true.
      * by rewrite app_nil_r.
Qed.

Lemma capture_update_ok event_seq update a a' r :
  capture_ok a → capture_update event_seq update a = (a', r) → capture_ok a'.
Proof using JL JI.
  intros Hok H. unfold capture_update in H.
  apply andthen_run in H as [([] & a1 & Ha & H)|(? & [=] & _)]. injection Ha as Ha.
  assert (capture_ok a1) as Hok1 by (subst a1; destruct (get_str _ _ ==? Some "usage_update"); exact Hok). clear Ha Hok a.
  destruct (_ !=? _); [by injection H as <- <-|].
  apply andthen_run in H as [(id & a2 & Ht & H)|(e & Ht & ->)]; [|by injection Ht as <- _].
  injection Ht as <- Hid.
  apply andthen_run in H as [(content & a2 & Ht & H)|(e & Ht & ->)]; [|by injection Ht as <- _].
  injection Ht as <- _.
  apply andthen_run in H as [([] & a2 & Hb & H)|(e & Hb & ->)];
    [|by destruct (begin_message_ok _ _ _ _ _ Hok1 Hb)].
  destruct (begin_message_ok _ _ _ _ _ Hok1 Hb) as [Hok2 Hm].
  destruct (Hm tt eq_refl) as (messages & m & Hms & _). clear Hm Hb.
  apply andthen_run in H as [([] & a3 & Ha & H)|(? & [=] & _)]. injection Ha as Ha.
  eapply capture_content_ok; [| |exact H]; subst a3; unfold on_message; simpl.
  - rewrite Hms. apply on_last_snoc.
  - destruct Hok2 as (Hc & Hl & Hn). rewrite Hms in *. unfold capture_ok, capture_limit, remaining_capture in *.
    simpl. rewrite on_last_snoc. split_and!; [|done|].
    + rewrite captured_snoc in *. done.
    + unfold named_ids in *. rewrite omap_app in *. done.
Qed.

Lemma observe_update_ok now update a a' r :
  capture_ok a → observe_update sha256_hex now update a = (a', r) → capture_ok a'.
Proof using JL JI.
  intros Hok H. unfold observe_update in H.
  apply andthen_run in H as [(seq & a1 & Ha & H)|(? & [=] & _)]. injection Ha as <- <-.
  apply andthen_run in H as [(next & a1 & Ht & H)|(e & Ht & ->)]; [|by injection Ht as <- _].
  injection Ht as <- _.
  apply andthen_run in H as [([] & a1 & Ha & H)|(? & [=] & _)]. injection Ha as <-.
  apply andthen_run in H as [([] & a2 & Ha & H)|(? & [=] & _)]. injection Ha as Ha.
  assert (capture_ok a2) as Hok2 by (subst a2; destruct (recognized_activity _); exact Hok). clear Ha.
  apply andthen_run in H as [([] & a3 & Hc & H)|(e & Hc & ->)]; [|by eapply capture_update_ok].
  eapply capture_update_ok in Hc; [|exact Hok2].
  apply andthen_run in H as [([] & a4 & Ha & H)|(? & [=] & _)]. injection Ha as Ha.
  apply andthen_run in H as [([] & a5 & Hb & H)|(? & [=] & _)]. injection Hb as Hb.
  injection H as <- _. subst a5. subst a4.
  destruct (_ ==? _), (_ <? _); exact Hc.
Qed.
(** *** What capturing leaves of a turn *)

(** The parts of a turn that capturing its output never changes. *)
Definition core a : nat * ExecutionFence * Z * TurnPolicy * TurnWatch :=
  (ht_turn a, ht_fence a, ht_next_event_seq a, ht_policy a, ht_watch a).

Lemma begin_message_core id seq a a' r : begin_message id seq a = (a', r) → core a' = core a.
Proof.
  unfold begin_message. intros H. a_inv. case_bool_decide; a_inv; done.
Qed.
Lemma capture_content_core content a a' r : capture_content content a = (a', r) → core a' = core a.
Proof.
  unfold capture_content. intros H. a_inv. destruct (_ ==? _).
  - destruct (get_str _ _) as [text|]; [|by a_inv]. destruct (_ <=? _); by a_inv.
  - destruct (to_json _); [|by a_inv]. destruct (_ <=? _); by a_inv.
Qed.
Lemma capture_update_core seq update a a' r : capture_update seq update a = (a', r) → core a' = core a.
Proof.
  unfold capture_update. intros H. apply andthen_run in H as [([] & a1 & Ha & H)|(? & [=] & _)].
  injection Ha as Ha. assert (core a1 = core a) as <- by (subst a1; by destruct (get_str _ _ ==? Some "usage_update")).
  clear Ha. destruct (_ !=? _); [by a_inv|]. a_inv; try done.
  all: repeat match goal with
       | Hb : begin_message _ _ _ = _ |- _ => apply begin_message_core in Hb
       | Hb : capture_content _ _ = _ |- _ => apply capture_content_core in Hb
       end; unfold core, on_message, with_capture in *; simpl in *; congruence.
Qed.

(** A turn keeps its number and its policy. *)
Definition same_turn a a' : Prop := ht_turn a' = ht_turn a ∧ ht_policy a' = ht_policy a.
Lemma observe_update_same now update a a' r :
  observe_update sha256_hex now update a = (a', r) → same_turn a a'.
Proof.
  intros H. unfold observe_update in H.
  apply andthen_run in H as [(seq & a1 & Ha & H)|(? & [=] & _)]. injection Ha as <- <-.
  apply andthen_run in H as [(next & a1 & Ht & H)|(e & Ht & ->)]; [|by injection Ht as <- _].
  injection Ht as <- _.
  apply andthen_run in H as [([] & a1 & Ha & H)|(? & [=] & _)]. injection Ha as <-.
  apply andthen_run in H as [([] & a2 & Ha & H)|(? & [=] & _)]. injection Ha as Ha.
  assert (same_turn a a2) as [H1 H2] by (subst a2; by destruct (recognized_activity _)). clear Ha.
  apply andthen_run in H as [([] & a3 & Hc & H)|(e & Hc & ->)]; apply capture_update_core in Hc;
    injection Hc as T3 _ _ P3 _; [|split; congruence].
  apply andthen_run in H as [([] & a4 & Ha & H)|(? & [=] & _)]. injection Ha as Ha.
  apply andthen_run in H as [([] & a5 & Hb & H)|(? & [=] & _)]. injection Hb as Hb.
  injection H as <- _. subst a5. subst a4. destruct (_ ==? _), (_ <? _); split; simpl; congruence.
Qed.

Lemma observe_permission_ok now permission_id raw a a' r :
  capture_ok a → observe_permission now permission_id raw a = (a', r) → capture_ok a'.
Proof. intros Hok [= <- _]. exact Hok. Qed.
Lemma new_turn_ok turn request :
  tp_max_captured_output_bytes (st_policy request) <= HOST_MAX_CAPTURE_BYTES →
  capture_ok (new_turn turn request).
Proof.
  intros Hl. split_and!; [|done|apply NoDup_nil_2].
  unfold remaining_capture, capture_limit. simpl. unfold captured_size. simpl. lia.
Qed.

(** ** The active turns *)

Definition actives (s : SharedState) : gmap string HostTurn := omap ss_active (sh_sessions s).

Lemma actives_put r session s :
  actives (put_session r session s)
  = match ss_active session with
    | Some a => <[r := a]> (actives s) | None => delete r (actives s) end.
Proof.
  unfold actives, put_session. simpl. destruct (ss_active session) as [a|] eqn:Ha.
  - by apply omap_insert_Some.
  - by apply omap_insert_None.
Qed.
Lemma actives_lookup r s : actives s !! r = sh_sessions s !! r ≫= ss_active.
Proof. apply lookup_omap. Qed.
Lemma actives_withdraw s ids : actives (fold_left withdraw_permission ids s) = actives s.
Proof.
  revert s. induction ids as [|id ids IH]; intros s; simpl; [done|]. rewrite IH.
  unfold withdraw_permission, send_outcome. destruct (_ !! id); [|done]. by destruct (_ !! id).
Qed.

Lemma on_active_run {A} ref session turn (m : action HostTurn DriverError A) s s' r :
  on_active ref session turn m s = (s', r) →
  s' = put_session ref (with_active (Some (m turn).1) session) s ∧ r = (m turn).2.
Proof. unfold on_active. by destruct (m turn) as [a x]; intros [= <- <-]. Qed.

(** A property of turns that a start establishes and every change of a turn keeps
    holds of the active turns, whatever step the host takes. *)
Section preserve.
Context (P : HostTurn → Prop) (adoption : AdoptionMethods) (profile : string).
Context (P_update : ∀ now update a a' r,
  P a → observe_update sha256_hex now update a = (a', r) → P a').
Context (P_permission : ∀ now permission_id raw a a' r,
  P a → observe_permission now permission_id raw a = (a', r) → P a').
Context (P_cancel : ∀ reason a, P a → P (send_cancellation reason a)).

Definition all_turns (s : SharedState) : Prop := map_Forall (λ _, P) (actives s).

Lemma all_turns_put r session s :
  all_turns s → (∀ a, ss_active session = Some a → P a) → all_turns (put_session r session s).
Proof using.
  unfold all_turns. rewrite actives_put. intros Hs Ha. destruct (ss_active session) as [a|].
  - apply map_Forall_insert_2; auto.
  - by apply map_Forall_delete.
Qed.
Lemma all_turns_at r session a s :
  all_turns s → sh_sessions s !! r = Some session → ss_active session = Some a → P a.
Proof using. intros Hs Hr Ha. apply (Hs r). by rewrite actives_lookup, Hr. Qed.

Lemma all_turns_open request reply s s' r :
  all_turns s → open_command sha256_hex adoption profile request reply s = (s', r) → all_turns s'.
Proof using.
  intros Hs H. unfold open_command, open_session in H. a_inv; [|done..].
  destruct x0 as [[ref resumed] raw]. a_inv; [|done..].
  apply all_turns_put; [|done]. unfold all_turns, actives, drop_turn in *.
  by destruct (_ ≫= _).
Qed.
Lemma all_turns_close request s s' r :
  all_turns s → close_session request s = (s', r) → all_turns s'.
Proof using.
  intros Hs H. unfold close_session in H. a_inv. destruct (_ !! _); [|by a_inv]. a_inv; [|done..].
  unfold all_turns, actives, with_sessions in *. simpl. rewrite omap_delete. by apply map_Forall_delete.
Qed.
Lemma all_turns_transcript request s s' r :
  all_turns s → start_transcript request adoption s = (s', r) → all_turns s'.
Proof using.
  intros Hs H. unfold start_transcript in H. a_inv; [|done].
  destruct (_ !! _) as [session|] eqn:Hr; [|by a_inv]. a_inv; [|done..].
  apply all_turns_put; [done|]. intros a Ha. by eapply all_turns_at.
Qed.
Lemma all_turns_begin_cancel request s s' r :
  all_turns s → begin_cancel request s = (s', r) → all_turns s'.
Proof using.
  intros Hs H. unfold begin_cancel in H. a_inv. destruct (List.find _ _) as [[ref ?]|]; a_inv; [|done].
  unfold all_turns, cancel_permissions_for_fence in *. by rewrite actives_withdraw.
Qed.
Lemma all_turns_finish_cancel ref reason s s' r :
  all_turns s → finish_cancel ref reason s = (s', r) → all_turns s'.
Proof using P_cancel.
  intros Hs H. unfold finish_cancel in H. a_inv. destruct (_ !! _) as [session|] eqn:Hr; [|by a_inv].
  destruct (ss_active session) as [a|] eqn:Ha; a_inv; [|done].
  apply all_turns_put; [done|]. intros ? [= <-]. apply P_cancel. by eapply all_turns_at.
Qed.
Lemma all_turns_update now raw s s' r :
  all_turns s → handle_session_update sha256_hex now raw s = (s', r) → all_turns s'.
Proof using P_update.
  intros Hs H. unfold handle_session_update in H.
  destruct (get_str _ _) as [ref|]; [|by a_inv]. destruct (json_get _ _) as [update|]; [|by a_inv].
  a_inv. destruct (_ !! ref) as [session|] eqn:Hr; [|by a_inv].
  destruct (ss_capturing session) as [capture|].
  - destruct (capture_transcript_entry _ _ _ _). a_inv. apply all_turns_put; [done|].
    intros a Ha. by eapply all_turns_at.
  - destruct (ss_active session) as [a|] eqn:Ha; [|by a_inv].
    a_inv; repeat match goal with Ho : on_active _ _ _ _ _ = _ |- _ => apply on_active_run in Ho as [-> _] end;
      apply all_turns_put; try done; intros ? [= <-]; (eapply P_update; [|apply surjective_pairing]);
      by eapply all_turns_at.
Qed.
Lemma all_turns_ask now permission_id raw s s' r :
  all_turns s → handle_permission_request now permission_id raw s = (s', r) → all_turns s'.
Proof using P_permission.
  intros Hs H. unfold handle_permission_request in H.
  destruct (get_str _ _) as [ref|]; [|by a_inv].
  a_inv. destruct (_ !! ref) as [session|] eqn:Hr; [|by a_inv].
  destruct (ss_active session) as [a|] eqn:Ha; [|by a_inv].
  a_inv; repeat match goal with Ho : on_active _ _ _ _ _ = _ |- _ => apply on_active_run in Ho as [-> _] end;
    apply all_turns_put; try done; intros ? [= <-]; (eapply (P_permission now permission_id raw a); [|reflexivity]);
    by eapply all_turns_at.
Qed.
Lemma all_turns_settle ref outcome s s' r :
  all_turns s → emit_terminal sha256_hex ref outcome s = (s', r) → all_turns s'.
Proof using.
  intros Hs H. unfold emit_terminal in H. a_inv. destruct (_ !! _) as [session|] eqn:Hr; [|by a_inv].
  destruct (ss_active session) as [a|] eqn:Ha; [|by a_inv]. a_inv. apply all_turns_put; [|done].
  unfold all_turns, actives, drop_turn in *. done.
Qed.
Lemma all_turns_same s s' : actives s' = actives s → all_turns s → all_turns s'.
Proof using. unfold all_turns. by intros ->. Qed.

Lemma command_shared {A} (m : action SharedState DriverError A) after h (Q : SharedState → Prop) :
  (∀ x h, h_shared (after x h) = h_shared h) →
  Q (h_shared h) → (∀ s' r, m (h_shared h) = (s', r) → Q s') → Q (h_shared (command m after h)).
Proof using.
  intros Hafter Hq Hm. unfold command. destruct (_ && _); [|done].
  destruct (m (h_shared h)) as [s' [x|e]] eqn:Hrun; [rewrite Hafter|]; simpl; by eapply Hm.
Qed.
Lemma all_turns_step step h :
  (∀ request s' x, step = StartCommand request →
     h_running h && (h_command h ==? None) = true →
     start_turn (h_next_turn h) request (h_shared h) = (s', inl x) →
     P (new_turn (h_next_turn h) request)) →
  all_turns (h_shared h) → all_turns (h_shared (host_act sha256_hex adoption profile step h)).
Proof using P_cancel P_permission P_update.
  intros Hstart Hs. destruct step as [now|request|request| |request reply|request|request| |request|raw|id raw|id|id|ref failure|t event|t|t|i]; simpl.
  - by destruct (_ <=? _).
  - unfold command. destruct (h_running h && (h_command h ==? None)) eqn:Hidle; [|done].
    enough (∀ s' r, start_turn (h_next_turn h) request (h_shared h) = (s', r) → all_turns s') as Hrun
      by (destruct (start_turn _ _ _) as [s' [x|e]] eqn:Hr; simpl; by eapply Hrun).
    intros s' r H. pose proof H as Hrun. unfold start_turn in H.
    a_inv; [|done..]. destruct (_ !! _) as [session|] eqn:Hr; [|by a_inv]. a_inv; [|done..].
    apply all_turns_put; [done|]. intros ? [= <-]. by eapply Hstart.
  - apply command_shared; [done..|]. intros s' r. by apply all_turns_begin_cancel.
  - destruct (h_command h) as [[ref reason]|]; [|done].
    destruct (finish_cancel _ _ _) as [s' [u|e]] eqn:H; simpl; by eapply all_turns_finish_cancel.
  - apply command_shared; [done..|]. intros s' r. by apply all_turns_open.
  - apply command_shared; [done..|]. intros s' r. by apply all_turns_close.
  - apply command_shared; [done..|]. intros s' r. by apply all_turns_transcript.
  - apply command_shared; [done..|]. intros s' r [= <- _]. eapply all_turns_same; [|done].
    apply actives_withdraw.
  - assert (actives (resolve_permission request (h_shared h)).1 = actives (h_shared h)) as Ha.
    { unfold resolve_permission, send_outcome. destruct (_ !! _); [|done].
      destruct (_ !=? _); [done|]. by destruct (_ !! _). }
    destruct (resolve_permission _ _) as [s' [u|e]]; simpl; by eapply all_turns_same.
  - destruct (handle_session_update _ _ _ _) as [s' [[[t n]|]|e]] eqn:H; simpl; by eapply all_turns_update.
  - unfold ask_permission. destruct (handle_permission_request _ _ _ _) as [s' [[t event]|e]] eqn:H;
      simpl; by eapply all_turns_ask.
  - unfold wake_permission. destruct (_ !! id) as [[]|]; try done. destruct (permission_ready _ _ _); done.
  - unfold reply_permission. by destruct (_ !! id) as [[]|].
  - destruct (bool_decide (ref ∈ h_replays h)); [|done]. unfold complete_transcript. destruct (_ !! ref) as [session|] eqn:Hr; [|done].
    apply all_turns_put; [done|]. intros a Ha. by eapply all_turns_at.
  - destruct (_ !! t); [|done]. by destruct (monitor_event _ _ _ _ _).
  - unfold settle_monitor. destruct (_ !! t) as [m|]; [|done]. destruct (mo_phase m); try done.
    destruct (emit_terminal _ _ _ _) as [s' [[[active terminal] ids]|e]] eqn:H; simpl;
      by eapply all_turns_settle.
  - unfold withdraw_next. destruct (_ !! t) as [m|]; [|done]. destruct (mo_phase m) as [| | |? ? [|id ids]|]; try done.
    eapply all_turns_same; [|done]. apply (actives_withdraw _ [id]).
  - unfold send_pending. destruct (_ !! i) as [[t n]|]; [|done]. unfold sent_wait.
    destruct n; try done. by destruct (_ !! _) as [[]|].
Qed.
End preserve.

(** ** What the host makes *)

Definition notified (e : HostEvent) : option (option nat * HarnessAcpNotification) :=
  match e with Notified turn n => Some (turn, n) | _ => None end.
Definition sent (h : Host) : list (option nat * HarnessAcpNotification) := omap notified (h_log h).
(** Everything made so far, sent or not. *)
Definition all_made (h : Host) : list (option nat * HarnessAcpNotification) := sent h ++ h_pending h.

Lemma sent_logging events h : sent (logging events h) = sent h ++ omap notified events.
Proof. unfold sent. simpl. by rewrite omap_app. Qed.
Lemma all_made_logging events h :
  omap notified events = [] → all_made (logging events h) = all_made h.
Proof. intros He. unfold all_made. by rewrite sent_logging, He, app_nil_r. Qed.
Lemma all_made_made t n h : all_made (made t n h) = all_made h ++ [(t, n)].
Proof. unfold all_made, sent, made. simpl. by rewrite (assoc_L (++)). Qed.
Lemma all_made_command {A} (m : action SharedState DriverError A) after h :
  (∀ x h, all_made (after x h) = all_made h) → all_made (command m after h) = all_made h.
Proof.
  intros Hafter. unfold command. destruct (_ && _); [|done].
  destruct (m (h_shared h)) as [s' [x|e]]; [by rewrite Hafter|reflexivity].
Qed.
Lemma all_made_drain before after h : all_made (logging (drain_call before after) h) = all_made h.
Proof. apply all_made_logging. unfold drain_call. by destruct (mo_phase before), (mo_phase after). Qed.
Lemma all_made_send i h : all_made (send_pending i h) ≡ₚ all_made h.
Proof.
  unfold send_pending. destruct (h_pending h !! i) as [[t n]|] eqn:Hi; [|done].
  assert (∀ h, all_made (sent_wait n h) = all_made h ∧ sent (sent_wait n h) = sent h
                 ∧ h_pending (sent_wait n h) = h_pending h) as Hw.
  { intros h'. unfold sent_wait. destruct n as [?|request|?|?|?]; try (split_and!; reflexivity).
    destruct (_ !! pq_permission_id request) as [[]|]; split_and!; reflexivity. }
  unfold all_made. rewrite sent_logging. simpl. destruct (Hw (with_pending (delete i (h_pending h)) (h_replays h) h)) as (_ & -> & ->).
  simpl. rewrite <- (assoc_L (++)). apply Permutation_app_head. symmetry. by apply delete_Permutation.
Qed.
Section bounded.
Context (adoption : AdoptionMethods) (profile : string).
Notation act_ := (host_act sha256_hex adoption profile).

Lemma command_log {A} (m : action SharedState DriverError A) after h :
  (∀ x h, ∃ new, h_log (after x h) = h_log h ++ new) →
  ∃ new, h_log (command m after h) = h_log h ++ new.
Proof.
  intros Hafter. unfold command. destruct (_ && _); [|exists []; by rewrite app_nil_r].
  destruct (m _) as [s' [x|e]]; [apply (Hafter x (sharing s' h))|exists []; by rewrite app_nil_r].
Qed.
Lemma log_grows step h : ∃ new, h_log (act_ step h) = h_log h ++ new.
Proof.
  assert (∃ new, h_log h = h_log h ++ new) as Hsame by (exists []; by rewrite app_nil_r).
  destruct step as [now|request|request| |request reply|request|request| |request|raw|id raw|id|id|ref failure|t event|t|t|i]; simpl.
  - by destruct (_ <=? _).
  - apply command_log. intros x h'. simpl. by eexists.
  - apply command_log. intros x h'. exists []. by rewrite app_nil_r.
  - destruct (h_command h) as [[ref reason]|]; [|done].
    destruct (finish_cancel _ _ _) as [s' [u|e]]; [by eexists|done].
  - apply command_log. intros x h'. exists []. by rewrite app_nil_r.
  - apply command_log. intros x h'. exists []. by rewrite app_nil_r.
  - apply command_log. intros x h'. simpl. by eexists.
  - apply command_log. intros x h'. exists []. by rewrite app_nil_r.
  - destruct (resolve_permission _ _) as [s' [u|e]]; [by eexists|done].
  - by destruct (handle_session_update _ _ _ _) as [s' [[[t n]|]|e]].
  - unfold ask_permission. destruct (handle_permission_request _ _ _ _) as [s' [[t event]|e]]; [done|by eexists].
  - unfold wake_permission. destruct (_ !! id) as [[]|]; try done. by destruct (permission_ready _ _ _).
  - unfold reply_permission. destruct (_ !! id) as [[]|]; try done. by eexists.
  - case_bool_decide; [|done]. by destruct (complete_transcript _ _ _).
  - destruct (_ !! t) as [m|]; [|done]. destruct (monitor_event _ _ _ _ _); [by eexists|done].
  - unfold settle_monitor. destruct (_ !! t) as [m|]; [|done]. destruct (mo_phase m); try done.
    by destruct (emit_terminal _ _ _ _) as [s' [[[active terminal] ids]|e]].
  - unfold withdraw_next. destruct (_ !! t) as [m|]; [|done]. by destruct (mo_phase m) as [| | |? ? []|].
  - unfold send_pending. destruct (_ !! i) as [[t n]|]; [|done]. exists [Notified t n]. simpl.
    unfold sent_wait. destruct n; try done. by destruct (_ !! _) as [[]|].
Qed.

(** The turn was started with its policy. *)
Definition begun (log : list HostEvent) a : Prop :=
  ∃ request, TurnStarted (ht_turn a) request ∈ log ∧ ht_policy a = st_policy request.
Definition capture_for (log : list HostEvent) a : Prop := capture_ok a ∧ begun log a.
(** What a terminal carries is within the policy its turn was started with. *)
Definition terminal_ok (log : list HostEvent) (t : nat) (terminal : TurnTerminal) : Prop :=
  ∃ request, TurnStarted t request ∈ log
    ∧ captured_size (tt_assistant_messages terminal)
      <= Z.max 0 (tp_max_captured_output_bytes (st_policy request))
    ∧ tp_max_captured_output_bytes (st_policy request) <= HOST_MAX_CAPTURE_BYTES
    ∧ NoDup (named_ids (tt_assistant_messages terminal)).
Definition made_ok (log : list HostEvent) (p : option nat * HarnessAcpNotification) : Prop :=
  match p.2 with
  | NTurnTerminal terminal => ∃ t, p.1 = Some t ∧ terminal_ok log t terminal
  | _ => True
  end.
Definition phase_ok (log : list HostEvent) (m : Monitor) : Prop :=
  match mo_phase m with Withdrawing t terminal _ => terminal_ok log t terminal | _ => True end.
Definition terminals_ok (log : list HostEvent) (h : Host) : Prop :=
  map_Forall (λ _, phase_ok log) (h_monitors h) ∧ Forall (made_ok log) (all_made h).

Lemma capture_for_mono log new a : capture_for log a → capture_for (log ++ new) a.
Proof. intros [Hok (request & Hin & Hp)]. split; [done|]. exists request. split; [set_solver|done]. Qed.
Lemma terminal_ok_mono log new t terminal : terminal_ok log t terminal → terminal_ok (log ++ new) t terminal.
Proof. intros (request & Hin & H). exists request. split; [set_solver|done]. Qed.
Lemma terminals_ok_mono log new h : terminals_ok log h → terminals_ok (log ++ new) h.
Proof.
  intros [H1 H2]. split.
  - intros t m Hm. specialize (H1 t m Hm). unfold phase_ok in *. destruct (mo_phase m); try done.
    by apply terminal_ok_mono.
  - eapply Forall_impl; [exact H2|]. intros [t n]. unfold made_ok. destruct n; try done.
    intros (t' & ? & ?). exists t'. split; [done|]. by apply terminal_ok_mono.
Qed.
Lemma turn_terminal_ok log a outcome :
  capture_for log a → terminal_ok log (ht_turn a) (turn_terminal sha256_hex a outcome).
Proof.
  intros [(Hc & Hl & Hn) (request & Hin & Hp)]. exists request. unfold turn_terminal.
  destruct (terminal_parts outcome) as [[[[raw certainty] quiescent] reason] stop]. simpl.
  unfold capture_limit, remaining_capture in *. rewrite Hp in *. split_and!; [done|lia|done|done].
Qed.
Section log.
Context (log : list HostEvent).
Lemma terminals_same h h' :
  h_monitors h' = h_monitors h → all_made h' = all_made h → terminals_ok log h → terminals_ok log h'.
Proof. unfold terminals_ok. by intros -> ->. Qed.
Lemma terminals_monitor t m h :
  phase_ok log m → terminals_ok log h → terminals_ok log (set_monitor t m h).
Proof. intros Hm [H1 H2]. split; [by apply map_Forall_insert_2|exact H2]. Qed.
Lemma terminals_made t n h :
  made_ok log (t, n) → terminals_ok log h → terminals_ok log (made t n h).
Proof.
  intros Hn [H1 H2]. split; [exact H1|]. rewrite all_made_made. apply Forall_app. split; [exact H2|].
  by apply Forall_singleton.
Qed.

(** The phases in which the turn of a monitor is still to be taken. *)
Definition before_terminal (phase : MonitorPhase) : bool :=
  match phase with Watching | Draining _ _ | Settled _ => true | _ => false end.
Lemma monitor_event_phase now t s event m m' :
  monitor_event now t s event m = Some m' →
  before_terminal (mo_phase m) = true ∧ before_terminal (mo_phase m') = true
  ∧ mo_session_ref m' = mo_session_ref m.
Proof.
  unfold monitor_event. destruct (mo_phase m) as [|reason deadline| | |] eqn:Hp; try done.
  - destruct (watch_of _ _ _) as [watch open]. unfold watching_event, start_drain.
    intros H. destruct event; repeat case_match; simplify_eq/=; rewrite ?Hp; done.
  - unfold draining_event. intros H. destruct event; repeat case_match; simplify_eq/=; done.
Qed.

Lemma update_makes now raw s s' t n :
  handle_session_update sha256_hex now raw s = (s', inl (Some (t, n))) →
  match n with NTurnTerminal _ | NTranscriptComplete _ | NPermissionRequested _ => False | _ => True end.
Proof.
  unfold handle_session_update. intros H.
  destruct (get_str _ _) as [ref|]; [|by a_inv]. destruct (json_get _ _) as [update|]; [|by a_inv].
  a_inv. destruct (_ !! ref) as [session|]; [|by a_inv].
  destruct (ss_capturing session) as [capture|].
  - destruct (capture_transcript_entry _ _ _ _) as [c' [entry|]]; a_inv; simplify_eq; done.
  - destruct (ss_active session); a_inv; by simplify_eq.
Qed.

Lemma terminals_step step h :
  all_turns (capture_for log) (h_shared h) → terminals_ok log h → terminals_ok log (act_ step h).
Proof.
  intros Hs Hok.
  destruct step as [now|request|request| |request reply|request|request| |request|raw|id raw|id|id|ref failure|t event|t|t|i]; simpl.
  - destruct (_ <=? _); exact Hok.
  - unfold command. destruct (_ && _); [|done]. destruct (start_turn _ _ _) as [s' [x|e]]; [|exact Hok].
    eapply (terminals_same (set_monitor (h_next_turn h) (new_monitor (h_now h) request) h)); [done| |].
    + unfold turn_started. by rewrite all_made_logging.
    + by apply terminals_monitor.
  - unfold command. destruct (_ && _); [|done]. destruct (begin_cancel _ _) as [s' [x|e]]; exact Hok.
  - destruct (h_command h) as [[ref reason]|]; [|done].
    destruct (finish_cancel _ _ _) as [s' [u|e]]; [|exact Hok].
    eapply terminals_same; [| |exact Hok]; [done|]. by rewrite all_made_logging.
  - unfold command. destruct (_ && _); [|done]. destruct (open_command _ _ _ _ _ _) as [s' [x|e]]; exact Hok.
  - unfold command. destruct (_ && _); [|done]. destruct (close_session _ _) as [s' [x|e]]; exact Hok.
  - unfold command. destruct (_ && _); [|done]. destruct (start_transcript _ _ _) as [s' [x|e]]; [|exact Hok].
    eapply terminals_same; [| |exact Hok]; [done|]. unfold transcript_started. by rewrite all_made_logging.
  - unfold command. destruct (_ && _); exact Hok.
  - destruct (resolve_permission _ _) as [s' [u|e]]; [|exact Hok].
    eapply terminals_same; [| |exact Hok]; [done|]. by rewrite all_made_logging.
  - destruct (handle_session_update _ _ _ _) as [s' [[[t n]|]|e]] eqn:H; [|exact Hok..].
    apply terminals_made; [|exact Hok]. apply update_makes in H. unfold made_ok. by destruct n.
  - unfold ask_permission. destruct (handle_permission_request _ _ _ _) as [s' [[t event]|e]].
    + apply terminals_made; [done|exact Hok].
    + eapply terminals_same; [| |exact Hok]; [done|]. by rewrite all_made_logging.
  - unfold wake_permission. destruct (_ !! id) as [[]|]; try done. destruct (permission_ready _ _ _); exact Hok.
  - unfold reply_permission. destruct (_ !! id) as [[]|]; try done.
    eapply terminals_same; [| |exact Hok]; [done|]. by rewrite all_made_logging.
  - case_bool_decide; [|done]. destruct (complete_transcript _ _ _). apply terminals_made; [done|exact Hok].
  - destruct (_ !! t) as [m|]; [|done]. destruct (monitor_event _ _ _ _ _) as [m'|] eqn:H; [|exact Hok].
    eapply (terminals_same (set_monitor t m' h)); [done|by rewrite all_made_drain|].
    apply terminals_monitor; [|done]. apply monitor_event_phase in H as (_ & H & _). unfold phase_ok.
    by destruct (mo_phase m').
  - unfold settle_monitor. destruct (_ !! t) as [m|]; [|done]. destruct (mo_phase m); try done.
    destruct (emit_terminal _ _ _ _) as [s' [[[active terminal] ids]|e]] eqn:H;
      apply terminals_monitor; try done; try exact Hok.
    unfold emit_terminal in H. a_inv. destruct (_ !! _) as [session|] eqn:Hr; [|by a_inv].
    destruct (ss_active session) as [a|] eqn:Ha; a_inv. simplify_eq. unfold phase_ok. simpl.
    apply turn_terminal_ok. by eapply all_turns_at.
  - unfold withdraw_next. destruct (h_monitors h !! t) as [m|] eqn:Hm; [|done].
    destruct Hok as [H1 H2]. pose proof (H1 t m Hm) as Hp. unfold phase_ok in Hp.
    destruct (mo_phase m) as [| | |? ? [|id ids]|]; try done.
    + apply terminals_made; [by eexists|]. by apply terminals_monitor.
    + apply terminals_monitor; [done|]. by split.
  - destruct Hok as [H1 H2]. split; [|by rewrite all_made_send].
    unfold send_pending. destruct (_ !! i) as [[t n]|]; [|done]. unfold sent_wait.
    destruct n; try done. by destruct (_ !! _) as [[]|].
Qed.

End log.

Lemma run_host_ind (I : Host → Prop) steps h :
  (∀ step h, I h → I (act_ step h)) → I h → I (run_host sha256_hex adoption profile steps h).
Proof.
  intros Hstep. unfold run_host. revert h. induction steps as [|step steps IH]; intros h Hh; [done|].
  simpl. apply IH. by apply Hstep.
Qed.

Lemma host_captures step h :
  all_turns (capture_for (h_log h)) (h_shared h) → terminals_ok (h_log h) h →
  all_turns (capture_for (h_log (act_ step h))) (h_shared (act_ step h))
  ∧ terminals_ok (h_log (act_ step h)) (act_ step h).
Proof using JL JI.
  intros Ha Ht. destruct (log_grows step h) as [new Hnew].
  assert (all_turns (capture_for (h_log (act_ step h))) (h_shared h)) as Ha'.
  { intros r a Hr. rewrite Hnew. by eapply capture_for_mono, Ha. }
  assert (terminals_ok (h_log (act_ step h)) h) as Ht' by (rewrite Hnew; by apply terminals_ok_mono).
  split; [|by apply terminals_step]. apply all_turns_step; [| |done| |done].
  - intros now update a a' r [Hok (request & Hin & Hp)] H.
    split; [by eapply observe_update_ok|]. apply observe_update_same in H as [Hturn Hpolicy].
    exists request. by rewrite Hturn, Hpolicy.
  - intros now id raw a a' r Hok H. injection H as <- _. exact Hok.
  - intros request s' x -> Hidle H. split.
    + apply new_turn_ok. unfold start_turn in H. a_inv.
      match goal with Hr : reject _ _ = inl _ |- _ => apply reject_ok, orb_false_iff in Hr as [_ Hr%Z.ltb_ge] end.
      done.
    + exists request. split; [|done]. simpl. unfold command. rewrite Hidle, H. simpl. set_solver.
Qed.

(** C27 The message content a turn keeps of its runtime is bounded by its policy: in
    every run of the host the content captured for an active turn - the text of text
    blocks, the encoding of the others - with the bytes it may still capture stays
    within the limit of the policy it was started with, which never exceeds 512 KiB;
    so does the content every terminal carries, by the policy of the turn it ends;
    and a message identifier names one message of its turn.  The other members of a
    text block and the value of the last usage update are not counted. *)
Theorem capture_bounded steps now h :
  run_host sha256_hex adoption profile steps (new_host now) = h →
  (∀ r a, actives (h_shared h) !! r = Some a →
     captured_size (ht_assistant_messages a) + remaining_capture a <= Z.max 0 (capture_limit a)
     ∧ capture_limit a <= HOST_MAX_CAPTURE_BYTES ∧ NoDup (named_ids (ht_assistant_messages a))
     ∧ ∃ request, TurnStarted (ht_turn a) request ∈ h_log h ∧ ht_policy a = st_policy request)
  ∧ ∀ p terminal, (p, NTurnTerminal terminal) ∈ all_made h →
     ∃ t request, p = Some t ∧ TurnStarted t request ∈ h_log h
     ∧ captured_size (tt_assistant_messages terminal)
       <= Z.max 0 (tp_max_captured_output_bytes (st_policy request))
     ∧ tp_max_captured_output_bytes (st_policy request) <= HOST_MAX_CAPTURE_BYTES
     ∧ NoDup (named_ids (tt_assistant_messages terminal)).
Proof using JL JI.
  intros <-. set (h := run_host _ _ _ _ _).
  assert (all_turns (capture_for (h_log h)) (h_shared h) ∧ terminals_ok (h_log h) h) as [Ha [_ Ht]].
  { unfold h. apply run_host_ind; [intros step h' [? ?]; by apply host_captures|].
    split; [by intros r a|]. split; [by intros t m|]. apply Forall_nil_2. }
  split.
  - intros r a Hr. destruct (Ha r a Hr) as [(? & ? & ?) ?]. by split_and!.
  - intros p terminal Hin. rewrite Forall_forall in Ht.
    destruct (Ht _ Hin) as (t & ? & request & ? & ? & ? & ?). by exists t, request.
Qed.

(** What is not counted: the usage a terminal carries is the last usage update as the
    runtime sent it, whatever the limit. *)
Theorem usage_not_bounded event_seq update a :
  get_str "sessionUpdate" update = Some "usage_update" →
  ∃ a', capture_update event_seq update a = (a', inl tt) ∧ ht_usage a' = update
    ∧ ∀ outcome, tt_usage (turn_terminal sha256_hex a' outcome) = update.
Proof.
  intros Hu. unfold capture_update, andthen, act. rewrite Hu. simpl. eexists. split; [done|].
  split; [done|]. intros outcome. unfold turn_terminal.
  by destruct (terminal_parts outcome) as [[[[raw certainty] quiescent] reason] stop].
Qed.
End bounded.
End capture.

(** ** Endpoints granted to a session *)

Section sessions.
Context `{J : SerdeJson} {JT : JsonTree} {AL : AcpLibraries}.

Definition grant_name_ok (name : string) : Prop := is_blank name = false ∧ str_len name <= 256.
Definition loopback_url (raw : string) : Prop :=
  ∃ url, url_parse raw = Some url ∧ url_scheme url = "http" ∧ url_host url = Some "127.0.0.1"
    ∧ url_port url ≠ None ∧ url_username url = "" ∧ url_password url = None
    ∧ url_query url = None ∧ url_fragment url = None.
(** Every header is one of HTTP, no two have the same normalized name. *)
Definition headers_ok (headers : list ResolvedMcpHttpHeader) : Prop :=
  ∃ names, Forall2 (λ header name,
      header_name_from_bytes (header_name header) = Some name
      ∧ header_value_from_str (header_value header) = true ∧ str_len (header_value header) <= 4096)
    headers names ∧ NoDup names.
Definition endpoint_ok (endpoint : ResolvedMcpEndpoint) : Prop :=
  match endpoint with
  | Http url headers => loopback_url url ∧ (length headers ≤ 16)%nat ∧ headers_ok headers
  end.
Definition server_of (name : string) (endpoint : ResolvedMcpEndpoint) : Value :=
  match endpoint with
  | Http url headers =>
      json_object [("type", json_string "http"); ("name", json_string name);
                   ("url", json_string url); ("headers", json_array (map header_to_value headers))]
  end.

Lemma requested_grants_exact requested names requested' :
  requested_grants requested names = inl requested' ↔
  Forall grant_name_ok names ∧ NoDup names ∧ (∀ n, n ∈ names → n ∉ requested)
  ∧ requested' = list_to_set names ∪ requested.
Proof.
  revert requested requested'. induction names as [|name names IH]; intros requested requested'; simpl.
  { split; [intros [= <-]|intros (_ & _ & _ & ->)]; [|f_equal; set_solver].
    split_and!; [done|apply NoDup_nil_2|set_solver|set_solver]. }
  destruct (is_blank name || (256 <? str_len name)) eqn:Hn.
  { split; [done|]. intros (Hok & _). apply Forall_cons in Hok as [[Hb Hl] _].
    apply Z.ltb_ge in Hl. by rewrite Hb, Hl in Hn. }
  apply orb_false_iff in Hn as [Hb Hl%Z.ltb_ge]. case_bool_decide as Hin.
  { split; [done|]. intros (_ & _ & Hfresh & _). exfalso. apply (Hfresh name); [left|done]. }
  rewrite IH. rewrite Forall_cons, NoDup_cons. split.
  - intros (? & ? & Hf & ->). split_and!; try done.
    + intros Hn. apply (Hf name Hn). set_solver.
    + intros n [->|Hn]%elem_of_cons; [done|]. intros Hr. apply (Hf n Hn). set_solver.
    + set_solver.
  - intros ([_ ?] & [Hnew ?] & Hf & ->). split_and!; try done.
    + intros n Hn [->%elem_of_singleton|Hr]%elem_of_union; [done|]. apply (Hf n); [by right|done].
    + set_solver.
Qed.
Lemma resolved_grants_exact requested grants resolved resolved' :
  resolved_grants requested resolved grants = inl resolved' ↔
  (∀ g, g ∈ grants → mcp_name g ∈ requested ∧ resolved !! mcp_name g = None)
  ∧ NoDup (map mcp_name grants)
  ∧ resolved' = list_to_map (map (λ g, (mcp_name g, g)) grants) ∪ resolved.
Proof.
  revert resolved resolved'. induction grants as [|g grants IH]; intros resolved resolved'; simpl.
  { rewrite (left_id_L ∅ (∪)). split; [intros [= <-]|by intros (_ & _ & ->)].
    split_and!; [set_solver|apply NoDup_nil_2|done]. }
  case_bool_decide as Hin; simpl.
  2:{ split; [done|]. intros (Hall & _). destruct (Hall g); [left|done]. }
  destruct (resolved !! mcp_name g) as [g'|] eqn:Hr; simpl.
  { split; [done|]. intros (Hall & _). destruct (Hall g); [left|congruence]. }
  rewrite IH, NoDup_cons. split.
  - intros (Hall & ? & ->). assert (mcp_name g ∉ map mcp_name grants) as Hnew.
    { intros (g' & Hg' & Hg)%list_elem_of_fmap. destruct (Hall g' Hg) as [_ Hn].
      rewrite Hg' in Hn. by rewrite lookup_insert_eq in Hn. }
    split_and!; try done.
    + intros g' [->|Hg]%elem_of_cons; [done|]. destruct (Hall g' Hg) as [? Hn]. split; [done|].
      by apply lookup_insert_None in Hn as [? _].
    + rewrite <- insert_union_l. rewrite insert_union_r; [done|]. apply not_elem_of_list_to_map_1.
      rewrite <- list_fmap_compose. exact Hnew.
  - intros (Hall & [Hnew ?] & ->). split_and!; [|done|].
    + intros g' Hg. destruct (Hall g') as [? Hn]; [by right|]. split; [done|].
      rewrite lookup_insert_ne; [done|]. intros Heq. apply Hnew. rewrite Heq.
      by apply (list_elem_of_fmap_2 mcp_name).
    + rewrite <- insert_union_l. rewrite insert_union_r; [done|]. apply not_elem_of_list_to_map_1.
      rewrite <- list_fmap_compose. exact Hnew.
Qed.
Lemma validate_headers_exact used headers :
  validate_mcp_headers used headers = inl tt ↔
  ∃ names, Forall2 (λ header name,
      header_name_from_bytes (header_name header) = Some name
      ∧ header_value_from_str (header_value header) = true ∧ str_len (header_value header) <= 4096)
    headers names ∧ NoDup names ∧ ∀ n, n ∈ names → n ∉ used.
Proof.
  revert used. induction headers as [|header headers IH]; intros used; simpl.
  { split; [intros _|done]. exists []. split_and!; [constructor|apply NoDup_nil_2|set_solver]. }
  destruct (header_name_from_bytes _) as [name|] eqn:Hname.
  2:{ split; [done|]. intros (names & H & _). apply Forall2_cons_inv_l in H as (? & ? & [? _] & _). congruence. }
  split.
  - intros H. apply both_ok in H as [[u1 Hv%reject_ok] H]. apply both_ok in H as [[u2 Hl%reject_ok] H].
    apply both_ok in H as [[u3 Hd%reject_ok] H]. apply IH in H as (names & H2 & Hnd & Hf).
    apply negb_false_iff in Hv. apply Z.ltb_ge in Hl. apply bool_decide_eq_false in Hd.
    exists (name :: names). split_and!.
    + by constructor.
    + constructor; [|done]. intros Hn. apply (Hf _ Hn). set_solver.
    + intros n [->|Hn]%elem_of_cons; [done|]. intros Hu. apply (Hf _ Hn). set_solver.
  - intros (names' & H2 & Hnd & Hf). apply Forall2_cons_inv_l in H2 as (n & names & (Hn & Hv & Hl) & H2 & ->).
    assert (n = name) as -> by congruence. apply NoDup_cons in Hnd as [Hnew Hnd].
    rewrite Hv. simpl. apply Z.ltb_ge in Hl. rewrite Hl. simpl.
    rewrite bool_decide_eq_false_2 by (apply Hf; left). simpl. apply IH. exists names. split_and!; [done..|].
    intros m Hm [->%elem_of_singleton|Hu]%elem_of_union; [done|]. apply (Hf m); [by right|done].
Qed.
Lemma loopback_exact raw : validate_loopback_mcp_url raw = inl tt ↔ loopback_url raw.
Proof.
  unfold validate_loopback_mcp_url, loopback_url. destruct (url_parse raw) as [url|]; [|split; [done|intros (? & ? & _); done]].
  split.
  - intros H%reject_ok. repeat (apply orb_false_iff in H as [H ?]). exists url.
    repeat match goal with
    | H : negb _ = false |- _ => apply negb_false_iff, bool_decide_eq_true in H
    | H : bool_decide _ = false |- _ => apply bool_decide_eq_false in H
    | H : is_some ?o = false |- _ => destruct o eqn:?; [done|clear H]
    end. done.
  - intros (? & [= <-] & -> & -> & Hp & -> & -> & -> & ->). rewrite !bool_decide_true by done. simpl.
    by rewrite bool_decide_false.
Qed.
Lemma mcp_server_exact name endpoint server :
  mcp_server name endpoint = inl server ↔ endpoint_ok endpoint ∧ server = server_of name endpoint.
Proof.
  destruct endpoint as [url headers]. simpl. unfold endpoint_ok, headers_ok.
  destruct (validate_loopback_mcp_url url ;: _) as [[]|e] eqn:H.
  - apply both_ok in H as [[[] Hu%loopback_exact] H]. apply both_ok in H as [[[] Hl%reject_ok] H].
    apply Z.ltb_ge in Hl. apply validate_headers_exact in H as (names & H2 & Hnd & _).
    split; [intros [= <-]|by intros (_ & ->)]. split_and!; try done; [lia|eauto].
  - split; [done|]. intros ((Hu%loopback_exact & Hl & names & H2 & Hnd) & _).
    rewrite Hu in H. simpl in H. assert ((16 <? Z.of_nat (length headers)) = false) as Hlt by lia.
    rewrite Hlt in H. simpl in H. assert (validate_mcp_headers ∅ headers = inl tt); [|congruence].
    apply validate_headers_exact. exists names. split_and!; try done; set_solver.
Qed.
Lemma mcp_servers_exact_for resolved names servers :
  mcp_servers resolved names = inl servers ↔
  Forall2 (λ name server, ∃ grant, resolved !! name = Some grant ∧ endpoint_ok (mcp_endpoint grant)
             ∧ server = server_of name (mcp_endpoint grant)) names servers.
Proof.
  revert servers. induction names as [|name names IH]; intros servers; simpl.
  { split; [intros [= <-]; constructor|]. by intros ->%Forall2_nil_inv_l. }
  split.
  - destruct (resolved !! name) as [grant|] eqn:Hr; [|done].
    destruct (mcp_server _ _) as [server|] eqn:Hs; [|done]. apply mcp_server_exact in Hs as [? ?].
    destruct (mcp_servers _ _) as [rest|] eqn:Hrest; [|done]. intros [= <-].
    constructor; [by eauto|]. by apply IH.
  - intros (server & rest & (grant & Hr & He & Hs) & H2 & ->)%Forall2_cons_inv_l. rewrite Hr.
    rewrite (proj2 (mcp_server_exact name (mcp_endpoint grant) server)) by done.
    by rewrite (proj2 (IH rest) H2).
Qed.

(** C26 The endpoints a session is opened with are exactly the granted ones: the host
    accepts a request when the grant names are distinct and of 1 to 256 bytes, every
    name has exactly one resolved endpoint and no other is resolved, and every
    endpoint is plain HTTP on 127.0.0.1 with an explicit port, no credentials, query
    or fragment, and at most 16 well-formed distinct headers; it then hands the
    runtime one server per name, in the order of the request. *)
Theorem mcp_servers_exact request servers :
  resolve_mcp_servers request = inl servers ↔
  Forall grant_name_ok (os_mcp_grants request) ∧ NoDup (os_mcp_grants request)
  ∧ NoDup (map mcp_name (os_resolved_mcp_grants request))
  ∧ (∀ name, name ∈ os_mcp_grants request ↔ name ∈ map mcp_name (os_resolved_mcp_grants request))
  ∧ Forall2 (λ name server, ∃ grant, grant ∈ os_resolved_mcp_grants request ∧ mcp_name grant = name
               ∧ endpoint_ok (mcp_endpoint grant) ∧ server = server_of name (mcp_endpoint grant))
      (os_mcp_grants request) servers.
Proof.
  unfold resolve_mcp_servers. set (names := os_mcp_grants request).
  set (grants := os_resolved_mcp_grants request).
  assert (∀ name grant, NoDup (map mcp_name grants) →
            (list_to_map (map (λ g, (mcp_name g, g)) grants) : gmap string ResolvedMcpGrant) !! name = Some grant
            ↔ grant ∈ grants ∧ mcp_name grant = name) as Hlookup.
  { intros name grant Hnd. rewrite <- elem_of_list_to_map; [|by rewrite <- list_fmap_compose].
    split; [intros (g & [= -> ->] & ?)%list_elem_of_fmap|intros [Hg <-]]; [done|].
    by apply (list_elem_of_fmap_2 (λ g, (mcp_name g, g))). }
  assert (∀ g, g ∈ grants → mcp_name g ∈ map mcp_name grants) as Hnames
    by (intros g; apply (list_elem_of_fmap_2 mcp_name)).
  split.
  - destruct (requested_grants ∅ names) as [requested|] eqn:Hreq; [|done].
    apply requested_grants_exact in Hreq as (Hok & Hnd & _ & ->). rewrite (right_id_L ∅ (∪)).
    destruct (resolved_grants _ ∅ grants) as [resolved|] eqn:Hres; [|done].
    apply resolved_grants_exact in Hres as (Hin & Hndr & ->). rewrite (right_id_L ∅ (∪)).
    case_bool_decide as Hsize; [|done]. simpl. rewrite mcp_servers_exact_for. intros H2.
    split_and!; try done.
    + intros name. split.
      * intros Hn. apply list_elem_of_lookup in Hn as [i Hi].
        destruct (Forall2_lookup_l _ _ _ _ _ H2 Hi) as (server & _ & grant & Hg & _).
        apply Hlookup in Hg as [Hg <-]; [by apply Hnames|done].
      * intros (g & -> & Hg)%list_elem_of_fmap. destruct (Hin g Hg) as [Hr _]. set_solver.
    + eapply Forall2_impl; [exact H2|]. intros name server (grant & Hg & ?). exists grant.
      apply Hlookup in Hg; [|done]. naive_solver.
  - intros (Hok & Hnd & Hndr & Hsame & H2).
    rewrite (proj2 (requested_grants_exact ∅ names (list_to_set names ∪ ∅))) by (split_and!; set_solver).
    rewrite (proj2 (resolved_grants_exact _ grants ∅ (list_to_map (map (λ g, (mcp_name g, g)) grants) ∪ ∅))).
    2:{ split_and!; try done. intros g Hg. split; [|done]. specialize (Hsame (mcp_name g)).
        specialize (Hnames g Hg). set_solver. }
    rewrite !(right_id_L ∅ (∪)). rewrite bool_decide_true; simpl.
    + rewrite mcp_servers_exact_for. eapply Forall2_impl; [exact H2|].
      intros name server (grant & Hg & Hn & ?). exists grant. rewrite Hlookup by done. done.
    + rewrite size_list_to_set by done. rewrite <- size_dom, dom_list_to_map_L.
      rewrite size_list_to_set; rewrite <- list_fmap_compose; [|exact Hndr].
      change (length names = length (map mcp_name grants)).
      apply Permutation_length, NoDup_Permutation; done.
Qed.

(** ** Replays *)

(** The entries of a replay of [updates], one after another. *)
Fixpoint capture_all (now : Z) (session_ref : string) (capture : TranscriptCapture)
    (updates : list Value) : TranscriptCapture * list TranscriptEntry :=
  match updates with
  | [] => (capture, [])
  | update :: updates =>
      let (capture, entry) := capture_transcript_entry now capture session_ref update in
      let (capture, entries) := capture_all now session_ref capture updates in
      (capture, option_list entry ++ entries)
  end.
Definition replayed (entries : list TranscriptEntry) : Z :=
  total (map (λ e, value_len (tre_raw_update e)) entries).
Definition capture_total (capture : TranscriptCapture) (entries : list TranscriptEntry) : Prop :=
  tc_entry_count capture = Z.of_nat (length entries)
  ∧ tc_next_entry_seq capture = 1 + Z.of_nat (length entries)
  ∧ tc_observed_payload_bytes capture = replayed entries
  ∧ Z.of_nat (length entries) <= MAX_TRANSCRIPT_ENTRIES ∧ replayed entries <= MAX_TRANSCRIPT_BYTES
  ∧ map tre_entry_seq entries = map (λ i, 1 + Z.of_nat i) (seq 0 (length entries)).

Lemma capture_entry_total now session_ref capture before update capture' entry :
  capture_total capture before → capture_transcript_entry now capture session_ref update = (capture', entry) →
  capture_total capture' (before ++ option_list entry)
  ∧ (tc_truncated capture = true → capture' = capture ∧ entry = None)
  ∧ (tc_truncated capture' = false → tc_truncated capture = false
       ∧ ∃ e, entry = Some e ∧ tre_raw_update e = update).
Proof.
  intros (Hc & Hn & Hb & Hlc & Hlb & Hseq) H. unfold capture_transcript_entry in H.
  destruct (tc_truncated capture) eqn:Ht.
  { injection H as <- <-. rewrite app_nil_r. rewrite Ht. split_and!; done. }
  destruct ((_ <=? _) || _) eqn:Hbound; injection H as <- <-; simpl.
  { rewrite app_nil_r. split_and!; done. }
  apply orb_false_iff in Hbound as [He%Z.leb_gt Hs%Z.ltb_ge].
  assert (0 <= value_len update) by (unfold value_len, str_len; lia).
  unfold MAX_TRANSCRIPT_ENTRIES, MAX_TRANSCRIPT_BYTES, saturating_add_u64, u64_max in *.
  split_and!; [|done|by eauto]. split_and!; simpl; rewrite ?length_app; simpl;
    unfold MAX_TRANSCRIPT_ENTRIES, MAX_TRANSCRIPT_BYTES; try lia.
  - unfold replayed in *. rewrite map_app, total_app. simpl. lia.
  - unfold replayed in *. rewrite map_app, total_app. simpl. lia.
  - rewrite map_app, Hseq. simpl. rewrite Nat.add_1_r, seq_S, map_app. simpl. by rewrite Hn.
Qed.
(** A replay is forwarded in order, numbered from 1, within its two bounds, and it is
    marked truncated whenever an update was left out. *)
Theorem replay_bounded now session_ref updates capture entries :
  capture_all now session_ref new_capture updates = (capture, entries) →
  capture_total capture entries
  ∧ (tc_truncated capture = false → map tre_raw_update entries = updates).
Proof.
  assert (∀ capture0 before, capture_total capture0 before →
            capture_all now session_ref capture0 updates = (capture, entries) →
            capture_total capture (before ++ entries)
            ∧ (tc_truncated capture = false → tc_truncated capture0 = false
                 ∧ map tre_raw_update entries = updates)) as Hgen.
  { revert entries. induction updates as [|update updates IH]; intros entries capture0 before Hok H; simpl in H.
    { injection H as <- <-. by rewrite app_nil_r. }
    destruct (capture_transcript_entry now capture0 session_ref update) as [capture1 entry] eqn:He.
    destruct (capture_all now session_ref capture1 updates) as [capture2 rest] eqn:Hall. injection H as <- <-.
    destruct (capture_entry_total _ _ _ _ _ _ _ Hok He) as (Hok1 & _ & Ht).
    destruct (IH _ _ _ Hok1 Hall) as [Hok2 Ht2]. rewrite <- (assoc_L (++)) in Hok2. split; [done|].
    intros Hf. destruct (Ht2 Hf) as [Hf1 <-]. destruct (Ht Hf1) as (Hf0 & e & -> & <-). done. }
  intros H. destruct (Hgen new_capture []) as [Hok Ht]; [|done|by split; [|intros ?; apply Ht]].
  split_and!; done.
Qed.

Definition is_prompt (entry : TranscriptEntry) : bool :=
  EventClass.parse (tre_classification entry) ==? EventClass.Prompt.
(** A turn of a replay: its entries follow the one that opened it, which names the
    invocation if it is a prompt. *)
Definition segment_ok (turn : TranscriptTurn) : Prop :=
  ∃ first rest, trt_entries turn = first :: rest
    ∧ trt_first_entry_seq turn = tre_entry_seq first
    ∧ trt_entry_count turn = Z.min u64_max (Z.of_nat (length (trt_entries turn)))
    ∧ trt_invocation_id turn = (if is_prompt first then prompt_invocation_id first else None)
    ∧ Forall (λ e, is_prompt e = false) rest.
Lemma segment_entry_ok turns entry :
  Forall segment_ok turns →
  Forall segment_ok (segment_entry turns entry)
  ∧ concat (map trt_entries (rev (segment_entry turns entry)))
    = concat (map trt_entries (rev turns)) ++ [entry].
Proof.
  intros Hok. unfold segment_entry. fold (is_prompt entry). destruct turns as [|turn before].
  - split; [|done]. apply Forall_singleton. exists entry, []. by destruct (is_prompt entry).
  - destruct (is_prompt entry) eqn:Hp.
    + split.
      * apply Forall_cons. split; [|done]. exists entry, []. rewrite Hp. split_and!; done.
      * simpl. rewrite !map_app, !concat_app. simpl. by rewrite !app_nil_r.
    + apply Forall_cons in Hok as [(first & rest & He & Hs & Hc & Hi & Hr) Hok]. split.
      * apply Forall_cons. split; [|done]. exists first, (rest ++ [entry]). simpl. rewrite Hc, He.
        split_and!; [done|done| |done|].
        -- unfold saturating_add_u64. simpl. rewrite length_app. simpl. lia.
        -- apply Forall_app. split; [done|]. by apply Forall_singleton.
      * simpl. rewrite !map_app, !concat_app. simpl. rewrite !app_nil_r. apply (assoc_L (++)).
Qed.
(** Splitting a replay loses and reorders nothing, every turn opens where its numbers
    say and counts its entries, and a prompt always opens one. *)
Theorem segments_are_the_replay entries :
  concat (map trt_entries (segment_transcript entries)) = entries
  ∧ Forall segment_ok (segment_transcript entries).
Proof.
  unfold segment_transcript.
  assert (∀ turns, Forall segment_ok turns →
            Forall segment_ok (fold_left segment_entry entries turns)
            ∧ concat (map trt_entries (rev (fold_left segment_entry entries turns)))
              = concat (map trt_entries (rev turns)) ++ entries) as Hgen.
  { induction entries as [|entry entries IH]; intros turns Hok; simpl; [by rewrite app_nil_r|].
    destruct (segment_entry_ok turns entry Hok) as [Hok' Hc]. destruct (IH _ Hok') as [Hall Hcat].
    split; [done|]. rewrite Hcat, Hc. by rewrite <- (assoc_L (++)). }
  destruct (Hgen [] (Forall_nil_2 _)) as [Hall Hcat]. split; [done|]. by apply Forall_rev.
Qed.
End sessions.
