(* ===== verification/AcpTurnProps.v ===== *)
(** * Turns of the ACP host

    Which answers a permission request can get, over every run of the host, and the
    composition with the harness client: what an orderly host sends of a turn is
    what [HarnessClient.next_notification] admits. *)

From stdpp Require Import gmap.
From S2P Require Import Prelude Action Proto Schema Observations Sessions HarnessClient.
From S2P Require Import Supervisor Controller Projection Scenario AcpSession AcpHost AcpHostProps.

Section turns.
Context `{J : SerdeJson} {JT : JsonTree} {AL : AcpLibraries} (sha256_hex : string → string).
Context (adoption : AdoptionMethods) (profile : string).
Notation act_ := (host_act sha256_hex adoption profile).
Implicit Types a : HostTurn.

(** ** What an update changes of a turn *)

(** The last cancellation of a turn, as the monitor reads it. *)
Definition cancellation a : option string := w_cancellation (ht_watch a).
(** What every update leaves of a turn, and what an admitted one makes. *)
Definition updated a a' : Prop :=
  ht_turn a' = ht_turn a ∧ ht_fence a' = ht_fence a
  ∧ (cancellation a' = cancellation a ∨ cancellation a' = Some "tool_budget").
Lemma observe_update_turn now update a a' r :
  observe_update sha256_hex now update a = (a', r) →
  updated a a'
  ∧ ∀ event, r = inl event →
      te_fence event = ht_fence a ∧ te_event_seq event = ht_next_event_seq a
      ∧ te_classification event = classify_update update
      ∧ ht_next_event_seq a' = ht_next_event_seq a + 1 ∧ ht_next_event_seq a + 1 <= u64_max.
Proof.
  unfold observe_update. intros H.
  apply andthen_run in H as [(seq & a1 & Ha & H)|(? & [=] & _)]. injection Ha as <- <-.
  apply andthen_run in H as [(next & a1 & Ht & H)|(e & Ht & ->)].
  2:{ injection Ht as <- _. split; [|by intros ? [=]]. split_and!; eauto. }
  injection Ht as <- Hnext. destruct (checked_add_u64 _ _) as [n|] eqn:Hadd; [|done]. injection Hnext as <-.
  unfold checked_add_u64 in Hadd. destruct (_ <=? u64_max) eqn:Hmax; [|done]. injection Hadd as <-.
  apply Z.leb_le in Hmax.
  apply andthen_run in H as [([] & a1 & Ha & H)|(? & [=] & _)]. injection Ha as <-.
  apply andthen_run in H as [([] & a2 & Ha & H)|(? & [=] & _)]. injection Ha as Ha.
  assert (ht_turn a2 = ht_turn a ∧ ht_fence a2 = ht_fence a ∧ cancellation a2 = cancellation a
          ∧ ht_next_event_seq a2 = ht_next_event_seq a + 1) as (T2 & F2 & C2 & N2)
    by (subst a2; by destruct (recognized_activity _)). clear Ha.
  apply andthen_run in H as [([] & a3 & Hc & H)|(e & Hc & ->)]; apply capture_update_core in Hc;
    unfold core in Hc; injection Hc as T3 F3 N3 _ W3.
  2:{ split; [|by intros ? [=]]. unfold updated, cancellation in *. rewrite W3. split_and!; try congruence. by left. }
  apply andthen_run in H as [([] & a4 & Ha & H)|(? & [=] & _)]. injection Ha as Ha.
  assert (core a4 = core a3) as H4 by (subst a4; by destruct (_ ==? _)). clear Ha.
  unfold core in H4. injection H4 as T4 F4 N4 _ W4.
  apply andthen_run in H as [([] & a5 & Ha & H)|(? & [=] & _)]. injection Ha as Ha.
  injection H as <- <-. unfold updated, cancellation in *. rewrite <- W4 in W3.
  subst a5. destruct (_ <? _); simpl.
  all: split; [split_and!; try congruence; rewrite ?W4, ?W3 in *; eauto; left; congruence|].
  all: intros event [= <-]; simpl; split_and!; congruence || lia.
Qed.

(** ** Answers to permission requests *)

Definition started (log : list HostEvent) (fence : ExecutionFence) : Prop :=
  ∃ t start, TurnStarted t start ∈ log ∧ st_fence start = fence.
(** A resolution the host accepted chose the option, under the fence of a turn. *)
Definition authorised (log : list HostEvent) (id option_id : string) : Prop :=
  ∃ request, PermissionResolved request ∈ log ∧ pr_permission_id request = id
    ∧ pr_outcome request = Selected option_id ∧ started log (pr_fence request).
Definition requests_ok (log : list HostEvent) (permissions : gmap string ExecutionFence)
    (receivers : gmap string (option PermissionOutcome)) : Prop :=
  map_Forall (λ _ fence, started log fence) permissions
  ∧ map_Forall (λ id o, ∀ opt, o = Some (Selected opt) → authorised log id opt) receivers.
Definition shared_ok (log : list HostEvent) (s : SharedState) : Prop :=
  all_turns (λ a, started log (ht_fence a)) s
  ∧ requests_ok log (sh_permissions s) (sh_receivers s).
Definition answers_ok (h : Host) : Prop :=
  shared_ok (h_log h) (h_shared h)
  ∧ map_Forall (λ id w, ∀ opt, w = Replying (Selected opt) → authorised (h_log h) id opt) (h_waits h)
  ∧ ∀ pre post id opt, h_log h = pre ++ PermissionAnswered id (Selected opt) :: post →
      authorised pre id opt.

Lemma started_mono log new fence : started log fence → started (log ++ new) fence.
Proof. intros (t & start & ? & ?). exists t, start. split; [set_solver|done]. Qed.
Lemma authorised_mono log new id opt : authorised log id opt → authorised (log ++ new) id opt.
Proof.
  intros (request & ? & ? & ? & ?). exists request. split_and!; [set_solver|done..|].
  by apply started_mono.
Qed.
Lemma requests_mono log new p q : requests_ok log p q → requests_ok (log ++ new) p q.
Proof.
  intros [Hp Hq]. split; intros x y Hx; [by eapply started_mono, Hp|].
  intros opt Ho. by eapply authorised_mono, (Hq x y).
Qed.
Lemma shared_mono log new s : shared_ok log s → shared_ok (log ++ new) s.
Proof.
  intros [Ha Hr]. split; [|by apply requests_mono]. intros r a Hra. by eapply started_mono, (Ha r).
Qed.
(** New events that answer nothing leave the answers as they are. *)
Lemma answers_log log new pre post id opt :
  (∀ id opt, PermissionAnswered id (Selected opt) ∉ new) →
  log ++ new = pre ++ PermissionAnswered id (Selected opt) :: post →
  ∃ post', log = pre ++ PermissionAnswered id (Selected opt) :: post'.
Proof.
  intros Hnew Heq. apply app_eq_app in Heq as (k & [[-> Hk]|[-> Hk]]).
  - destruct k as [|e k]; simplify_eq/=; [|by eauto]. exfalso. apply (Hnew id opt). left.
  - exfalso. apply (Hnew id opt). rewrite Hk. set_solver.
Qed.

(** Steps that log no answer: the shared state and the waits decide. *)
Lemma answers_keep h h' new :
  h_log h' = h_log h ++ new → (∀ id opt, PermissionAnswered id (Selected opt) ∉ new) →
  shared_ok (h_log h') (h_shared h') →
  (∀ id w, h_waits h' !! id = Some w → h_waits h !! id = Some w ∨ ∀ opt, w ≠ Replying (Selected opt)) →
  answers_ok h → answers_ok h'.
Proof.
  intros Hlog Hnew Hs Hw (_ & Hwaits & Hans). split_and!; [done| |].
  - intros id w Hid opt ->. destruct (Hw id _ Hid) as [Hold|Hno]; [|by destruct (Hno opt)].
    rewrite Hlog. by eapply authorised_mono, (Hwaits id _ Hold).
  - intros pre post id opt Heq. rewrite Hlog in Heq.
    destruct (answers_log _ _ _ _ _ _ Hnew Heq) as (post' & Hold). by eapply Hans.
Qed.

(** What each operation does with the requests. *)
Lemma requests_withdraw log ids s :
  requests_ok log (sh_permissions s) (sh_receivers s) →
  requests_ok log (sh_permissions (fold_left withdraw_permission ids s))
    (sh_receivers (fold_left withdraw_permission ids s)).
Proof.
  revert s. induction ids as [|id ids IH]; intros s [Hp Hr]; [done|]. simpl. apply IH.
  unfold withdraw_permission, send_outcome. destruct (sh_permissions s !! id); [|done]. simpl.
  destruct (sh_receivers s !! id); simpl; (split; [by apply map_Forall_delete|]); [|done].
  apply map_Forall_insert_2; [|done]. by intros opt [=].
Qed.
Definition keeps_requests {A} (m : action SharedState DriverError A) : Prop :=
  within (λ s s', sh_permissions s' = sh_permissions s ∧ sh_receivers s' = sh_receivers s) m.
Lemma start_keeps t request : keeps_requests (start_turn t request).
Proof.
  intros s s' r H. unfold start_turn in H. a_inv; try done. destruct (_ !! _); a_inv; done.
Qed.
Lemma open_keeps request reply : keeps_requests (open_command sha256_hex adoption profile request reply).
Proof.
  intros s s' r H. unfold open_command, open_session in H. a_inv; try done.
  destruct x0 as [[ref resumed] raw]. a_inv; try done. simpl. unfold drop_turn. by destruct (_ ≫= _).
Qed.
Lemma close_keeps request : keeps_requests (close_session request).
Proof. intros s s' r H. unfold close_session in H. a_inv. destruct (_ !! _); a_inv; done. Qed.
Lemma transcript_keeps request : keeps_requests (start_transcript request adoption).
Proof. intros s s' r H. unfold start_transcript in H. a_inv; try done. destruct (_ !! _); a_inv; done. Qed.
Lemma finish_cancel_keeps ref reason : keeps_requests (finish_cancel ref reason).
Proof.
  intros s s' r H. unfold finish_cancel in H. a_inv. destruct (_ !! _) as [session|]; [|by a_inv].
  destruct (ss_active session); by a_inv.
Qed.
Lemma update_keeps now raw : keeps_requests (handle_session_update sha256_hex now raw).
Proof.
  intros s s' r H. unfold handle_session_update in H.
  destruct (get_str _ _); [|by a_inv]. destruct (json_get _ _); [|by a_inv]. a_inv.
  destruct (_ !! _) as [session|]; [|by a_inv]. destruct (ss_capturing session).
  - destruct (capture_transcript_entry _ _ _ _). by a_inv.
  - destruct (ss_active session); [|by a_inv]. a_inv;
      repeat match goal with Ho : on_active _ _ _ _ _ = _ |- _ => apply on_active_run in Ho as [-> _] end; done.
Qed.
Lemma settle_keeps ref outcome : keeps_requests (emit_terminal sha256_hex ref outcome).
Proof.
  intros s s' r H. unfold emit_terminal in H. a_inv. destruct (_ !! _) as [session|]; [|by a_inv].
  destruct (ss_active session); by a_inv.
Qed.

(** A turn that keeps its fence keeps it started. *)
Lemma turns_started log step h :
  (∀ request s' x, step = StartCommand request →
     start_turn (h_next_turn h) request (h_shared h) = (s', inl x) → started log (st_fence request)) →
  all_turns (λ a, started log (ht_fence a)) (h_shared h) →
  all_turns (λ a, started log (ht_fence a)) (h_shared (act_ step h)).
Proof.
  intros Hstart Hs. apply all_turns_step; [| | |intros request s' x -> _; by apply Hstart|exact Hs].
  - intros now update a a' r Ha H. apply observe_update_turn in H as [(_ & -> & _) _]. exact Ha.
  - intros now id raw a a' r Ha [= <- _]. exact Ha.
  - intros reason a Ha. exact Ha.
Qed.
Lemma turns_stay_started step h :
  all_turns (λ a, started (h_log h) (ht_fence a)) (h_shared h) →
  all_turns (λ a, started (h_log (act_ step h)) (ht_fence a)) (h_shared (act_ step h)).
Proof.
  intros Hs. destruct (log_grows sha256_hex adoption profile step h) as [new Hnew].
  assert (all_turns (λ a, started (h_log (act_ step h)) (ht_fence a)) (h_shared h)) as Hs'.
  { intros r a Hra. rewrite Hnew. by eapply started_mono, (Hs r). }
  destruct step as [now|request| | | | | | | | | | | | | | | |]; try by apply turns_started.
  destruct (h_running h && (h_command h ==? None)) eqn:Hrun.
  - apply turns_started; [|done]. intros ? s' x [= <-] Hstart. exists (h_next_turn h), request.
    split; [|done]. simpl. unfold command. rewrite Hrun, Hstart. simpl. set_solver.
  - simpl in *. unfold command in *. by rewrite Hrun in *.
Qed.

Lemma requests_ask log now id raw s s' r :
  shared_ok log s → handle_permission_request now id raw s = (s', r) →
  requests_ok log (sh_permissions s') (sh_receivers s').
Proof.
  intros [Ha [Hp Hr]] H. unfold handle_permission_request in H.
  destruct (get_str _ _) as [ref|]; [|by a_inv]. a_inv.
  destruct (_ !! ref) as [session|] eqn:Href; [|by a_inv].
  destruct (ss_active session) as [a|] eqn:Hact; [|by a_inv].
  assert (started log (ht_fence a)) as Hst by exact (all_turns_at _ _ _ _ _ Ha Href Hact).
  a_inv; repeat match goal with Ho : on_active _ _ _ _ _ = _ |- _ => apply on_active_run in Ho as [-> Ho] end;
    [|done]. simplify_eq/=. split; simpl.
  - by apply map_Forall_insert_2.
  - apply map_Forall_insert_2; [by intros opt [=]|done].
Qed.


(** A command that keeps the requests, and what follows it. *)
Lemma answers_command {A} (m : action SharedState DriverError A) after
    (new : A → Host → list HostEvent) step h :
  act_ step h = command m after h → keeps_requests m →
  (∀ x h, h_log (after x h) = h_log h ++ new x h ∧ h_waits (after x h) = h_waits h
          ∧ h_shared (after x h) = h_shared h) →
  (∀ x h id opt, PermissionAnswered id (Selected opt) ∉ new x h) →
  answers_ok h → answers_ok (act_ step h).
Proof.
  intros Hact Hm Hafter Hnew Hok. pose proof Hok as ((Ha & Hreq) & _).
  pose proof (turns_stay_started step h Ha) as Ht. rewrite Hact in *. clear Hact. unfold command in *.
  destruct (_ && _); [|done]. destruct (m (h_shared h)) as [s' [x|e]] eqn:Hrun; apply Hm in Hrun as [Hp Hr].
  - destruct (Hafter x (sharing s' h)) as (Hlog & Hwaits & Hsh).
    eapply (answers_keep h _ (new x (sharing s' h))); [exact Hlog|done| |by rewrite Hwaits; left|done].
    split; [exact Ht|]. rewrite Hlog, Hsh. simpl. rewrite Hp, Hr. by apply requests_mono.
  - eapply (answers_keep h _ []); [by rewrite app_nil_r|set_solver| |by left|done].
    split; [exact Ht|]. simpl. by rewrite Hp, Hr.
Qed.

(** A step that logs nothing and leaves the waits. *)
Lemma answers_quiet step h :
  answers_ok h → h_log (act_ step h) = h_log h →
  requests_ok (h_log h) (sh_permissions (h_shared (act_ step h))) (sh_receivers (h_shared (act_ step h))) →
  (∀ id w, h_waits (act_ step h) !! id = Some w →
     h_waits h !! id = Some w ∨ ∀ opt, w ≠ Replying (Selected opt)) →
  answers_ok (act_ step h).
Proof.
  intros Hok Hlog Hreq Hw. pose proof Hok as ((Ha & _) & _).
  eapply (answers_keep h _ []); [by rewrite app_nil_r|set_solver| |exact Hw|done].
  split; [by apply turns_stay_started|]. by rewrite Hlog.
Qed.

Lemma answers_cancel request h : answers_ok h → answers_ok (act_ (CancelCommand request) h).
Proof.
  intros Hok. pose proof Hok as ((Ha & Hreq) & _).
  apply answers_quiet; [done|..]; simpl; unfold command; (destruct (_ && _); [|by eauto]);
    (destruct (begin_cancel request (h_shared h)) as [s' r] eqn:H; destruct r; simpl; try by eauto).
  all: unfold begin_cancel in H; a_inv; destruct (List.find _ _) as [[ref ?]|]; a_inv; try done;
    by apply requests_withdraw.
Qed.
Lemma answers_stop h : answers_ok h → answers_ok (act_ StopCommand h).
Proof.
  intros Hok. pose proof Hok as ((Ha & Hreq) & _).
  apply answers_quiet; [done|..]; simpl; unfold command; (destruct (_ && _); [|by eauto]); simpl; eauto.
  by apply requests_withdraw.
Qed.
Lemma answers_cancel_finishes h : answers_ok h → answers_ok (act_ CancelFinishes h).
Proof.
  intros Hok. pose proof Hok as ((Ha & Hreq) & _).
  pose proof (turns_stay_started CancelFinishes h Ha) as Ht. simpl in *.
  destruct (h_command h) as [[ref reason]|]; [|done].
  destruct (finish_cancel ref reason (h_shared h)) as [s' [u|e]] eqn:H; apply finish_cancel_keeps in H as [Hp Hr].
  - eapply (answers_keep h _ [cancel_notification ref]); [done|set_solver| |by left|done].
    split; [exact Ht|]. simpl. rewrite Hp, Hr. by apply requests_mono.
  - eapply (answers_keep h _ []); [by rewrite app_nil_r|set_solver| |by left|done].
    split; [exact Ht|]. simpl. by rewrite Hp, Hr.
Qed.
Lemma answers_resolve request h : answers_ok h → answers_ok (act_ (ResolveRequest request) h).
Proof.
  intros Hok. pose proof Hok as ((Ha & Hp & Hr) & _).
  pose proof (turns_stay_started (ResolveRequest request) h Ha) as Ht. simpl in *.
  unfold resolve_permission in *. destruct (sh_permissions (h_shared h) !! _) as [fence|] eqn:Hf.
  2:{ eapply (answers_keep h _ []); [by rewrite app_nil_r|set_solver| |by left|done]. by split. }
  destruct (fence !=? pr_fence request) eqn:Hne.
  { eapply (answers_keep h _ []); [by rewrite app_nil_r|set_solver| |by left|done].
    split; [done|]. split; [by apply map_Forall_delete|done]. }
  apply negb_false_iff, bool_decide_eq_true in Hne as ->.
  unfold send_outcome in *. simpl in *. destruct (sh_receivers (h_shared h) !! _) as [o|] eqn:Ho; simpl in *.
  - eapply (answers_keep h _ [PermissionResolved request]); [done|set_solver| |by left|done].
    split; [exact Ht|]. split; simpl.
    + apply map_Forall_delete. intros x y Hx. by eapply started_mono, (Hp x).
    + apply map_Forall_insert_2.
      * intros opt [= Hsel]. exists request. split_and!; [set_solver|done..|].
        by eapply started_mono, (Hp _ _ Hf).
      * intros x y Hx opt Hy. by eapply authorised_mono, (Hr x y).
  - eapply (answers_keep h _ []); [by rewrite app_nil_r|set_solver| |by left|done].
    split; [done|]. split; [by apply map_Forall_delete|done].
Qed.
Lemma answers_asked id raw h : answers_ok h → answers_ok (act_ (PermissionAsked id raw) h).
Proof.
  intros Hok. pose proof Hok as (Hs & _). pose proof Hs as (Ha & _).
  pose proof (turns_stay_started (PermissionAsked id raw) h Ha) as Ht. simpl in *. unfold ask_permission in *.
  destruct (handle_permission_request (h_now h) id raw (h_shared h)) as [s' [[t event]|e]] eqn:H.
  - pose proof (requests_ask _ _ _ _ _ _ _ Hs H) as Hreq.
    eapply (answers_keep h _ []); [by rewrite app_nil_r|set_solver|by split| |done].
    simpl. intros x w Hx. apply lookup_insert_Some in Hx as [[<- <-]|[_ Hx]]; [by right|by left].
  - pose proof (requests_ask _ _ _ _ _ _ _ Hs H) as Hreq.
    eapply (answers_keep h _ [PermissionAnswered id Cancelled]); [done|set_solver| |by left|done].
    split; [exact Ht|]. by apply requests_mono.
Qed.
Lemma answers_wakes id h : answers_ok h → answers_ok (act_ (PermissionWakes id) h).
Proof.
  intros Hok. pose proof Hok as ((Ha & Hp & Hr) & Hw & Hans). simpl. unfold wake_permission.
  destruct (h_waits h !! id) as [[|deadline|]|] eqn:Hid; try done.
  destruct (permission_ready _ _ _); [|done]. simpl. split_and!; simpl; try done.
  - split; [done|]. split; [done|]. by apply map_Forall_delete.
  - apply map_Forall_insert_2; [|done]. intros opt Hsel. injection Hsel as Hsel.
    destruct (sh_receivers (h_shared h) !! id) as [[o|]|] eqn:Ho; [|done..].
    apply (Hr id _ Ho). by f_equal.
Qed.
Lemma answers_replies id h : answers_ok h → answers_ok (act_ (PermissionReplies id) h).
Proof.
  intros Hok. pose proof Hok as ((Ha & Hp & Hr) & Hw & Hans). simpl. unfold reply_permission.
  destruct (h_waits h !! id) as [[| |outcome]|] eqn:Hid; try done. simpl. split_and!.
  - apply shared_mono. split; [done|]. split; [by apply map_Forall_delete|done].
  - apply map_Forall_delete. intros x w Hx opt Hsel. by eapply authorised_mono, (Hw x w).
  - intros pre post x opt Heq. simpl in Heq. destruct post as [|e post _] using rev_ind.
    + apply app_inj_tail in Heq as [<- Heq]. injection Heq as -> ->. by eapply Hw.
    + rewrite app_comm_cons, (assoc_L (++)) in Heq. apply app_inj_tail in Heq as [Heq _]. by eapply Hans.
Qed.

Lemma answers_step step h : answers_ok h → answers_ok (act_ step h).
Proof.
  intros Hok. pose proof Hok as ((Ha & Hreq) & _).
  destruct step as [now|request|request| |request reply|request|request| |request|raw|id raw|id|id|ref failure|t event|t|t|i].
  - apply answers_quiet; [done|..]; simpl; destruct (h_now h <=? now); eauto.
  - eapply (answers_command _ _ _ (StartCommand request)); [reflexivity|apply start_keeps|..|done]; [by intros x h'; split_and!; reflexivity|set_solver].
  - by apply answers_cancel.
  - by apply answers_cancel_finishes.
  - eapply (answers_command _ _ (λ _ _, []) (OpenCommand request reply)); [reflexivity|apply open_keeps|..|done]; [|set_solver].
    intros x h'. rewrite app_nil_r. by split_and!.
  - eapply (answers_command _ _ (λ _ _, []) (CloseCommand request)); [reflexivity|apply close_keeps|..|done]; [|set_solver].
    intros x h'. rewrite app_nil_r. by split_and!.
  - eapply (answers_command _ _ _ (TranscriptCommand request)); [reflexivity|apply transcript_keeps|..|done]; [by intros x h'; split_and!; reflexivity|set_solver].
  - by apply answers_stop.
  - by apply answers_resolve.
  - apply answers_quiet; [done|..]; simpl;
      destruct (handle_session_update _ _ _ _) as [s' r] eqn:H; apply update_keeps in H as [Hp Hr];
      destruct r as [[[t n]|]|e]; simpl; rewrite ?Hp, ?Hr; eauto.
  - by apply answers_asked.
  - by apply answers_wakes.
  - by apply answers_replies.
  - apply answers_quiet; [done|..]; simpl; (case_bool_decide; [|by eauto]);
      unfold complete_transcript; destruct (_ !! ref); simpl; eauto.
  - pose proof (turns_stay_started (MonitorWakes t event) h Ha) as Ht. simpl in *.
    destruct (_ !! t) as [m|]; [|done]. destruct (monitor_event _ _ _ _ _) as [m'|]; [|done].
    eapply (answers_keep h _ (drain_call m m')); [done| | |by left|done].
    + intros id opt. unfold drain_call. destruct (mo_phase m), (mo_phase m'); set_solver.
    + split; [exact Ht|]. by apply requests_mono.
  - apply answers_quiet; [done|..]; simpl; unfold settle_monitor; (destruct (_ !! t) as [m|]; [|by eauto]);
      destruct (mo_phase m); simpl; eauto;
      destruct (emit_terminal _ _ _ _) as [s' r] eqn:H; apply settle_keeps in H as [Hp Hr];
      destruct r as [[[active terminal] ids]|e]; simpl; rewrite ?Hp, ?Hr; eauto.
  - apply answers_quiet; [done|..]; simpl; unfold withdraw_next; (destruct (_ !! t) as [m|]; [|by eauto]);
      destruct (mo_phase m) as [| | |? ? [|id ids]|]; simpl; eauto.
    by apply (requests_withdraw _ [id]).
  - pose proof (turns_stay_started (Send i) h Ha) as Ht. simpl in *. unfold send_pending in *.
    destruct (_ !! i) as [[t n]|]; [|done].
    eapply (answers_keep h _ [Notified t n]); [|set_solver|split; [exact Ht|]| |done].
    all: unfold sent_wait; destruct n as [?|request|?|?|?]; simpl; try (by apply requests_mono); eauto.
    all: destruct (_ !! _) as [[]|] eqn:Hx; simpl; try (by apply requests_mono); eauto.
    intros x w Hw. apply lookup_insert_Some in Hw as [[<- <-]|[_ Hw]]; [by right|by left].
Qed.

(** C25 The runtime is told that a permission was granted only when it was: in every
    interleaving of requests, resolutions, deadlines, cancellations and terminals, an
    option is selected in a reply only after the host accepted a resolution of that
    request which selects that option and carries the fence of a turn it had started. *)
Theorem permission_answer_authorised steps now h pre post id option_id :
  run_host sha256_hex adoption profile steps (new_host now) = h →
  h_log h = pre ++ PermissionAnswered id (Selected option_id) :: post →
  ∃ request, PermissionResolved request ∈ pre ∧ pr_permission_id request = id
    ∧ pr_outcome request = Selected option_id
    ∧ ∃ t start, TurnStarted t start ∈ pre ∧ st_fence start = pr_fence request.
Proof.
  intros <- Hlog. eapply (run_host_ind sha256_hex adoption profile answers_ok); [apply answers_step| |exact Hlog].
  split_and!; [|by intros x|].
  - split; [by intros r a|]. by split; intros x y.
  - intros pre' post' x opt Heq. by destruct pre'.
Qed.

(** ** Orderly hosts *)

(** What the client asks of an identifier. *)
Definition id_ok (value : string) : Prop := is_blank value = false ∧ str_len value <= 256.
Lemma validate_id_ok kind value : validate_id kind value = inl tt ↔ id_ok value.
Proof.
  unfold validate_id, id_ok, MAX_FLEET_ID_BYTES. split.
  - intros [? ?%Z.ltb_ge]%reject_ok%orb_false_iff. done.
  - intros [-> ?%Z.ltb_ge]. simpl. by rewrite H.
Qed.

(** The surroundings of an orderly host: its requests are those a client sends, an
    update of a turn is one the host can capture, a session with an active turn is
    not opened again, the runtime names its stop reasons, event numbers do not reach
    their end, and tasks reach the channel in the order in which they made their
    notifications. *)
Definition orderly (h : Host) (step : HostStep) : Prop :=
  match step with
  | StartCommand request => validate_start_turn request = inl tt
  | CancelCommand request => validate_id "cancellation reason" (ct_reason request) = inl tt
  | OpenCommand request reply =>
      ∀ r resumed raw, opened_session request reply = inl (r, resumed, raw) →
        actives (h_shared h) !! r = None
  | UpdateArrives raw =>
      ∀ e, (handle_session_update sha256_hex (h_now h) raw (h_shared h)).2 ≠ inr e
  | PermissionAsked id raw =>
      id_ok id ∧ map_Forall (λ _ a, ht_next_event_seq a < u64_max) (actives (h_shared h))
  | MonitorWakes t (Replied (PromptResponse response)) =>
      id_ok (default "unknown" (get_str "stopReason" response))
  | Send i => i = O
  | _ => True
  end.
Fixpoint orderly_run (steps : list HostStep) (h : Host) : Prop :=
  match steps with
  | [] => True
  | step :: steps => orderly h step ∧ orderly_run steps (act_ step h)
  end.

(** ** The evidence of one turn *)

Definition turn_of (t : nat) (l : list (option nat * HarnessAcpNotification))
    : list HarnessAcpNotification :=
  omap (λ p, if p.1 ==? Some t then Some p.2 else None) l.
Lemma turn_of_app t l k : turn_of t (l ++ k) = turn_of t l ++ turn_of t k.
Proof. apply omap_app. Qed.

(** Evidence with the fence of its turn, a number and a valid name. *)
Definition evidence_at (fence : ExecutionFence) (seq : Z) (n : HarnessAcpNotification) : Prop :=
  match n with
  | NTurnEvent event =>
      te_fence event = fence ∧ te_event_seq event = seq ∧ id_ok (te_classification event)
  | NPermissionRequested request =>
      pq_fence request = fence ∧ pq_event_seq request = seq ∧ id_ok (pq_permission_id request)
  | _ => False
  end.
Fixpoint numbered (fence : ExecutionFence) (k : Z) (ns : list HarnessAcpNotification) : Prop :=
  match ns with
  | [] => True
  | n :: ns => evidence_at fence (k + 1) n ∧ numbered fence (k + 1) ns
  end.
Lemma numbered_app fence k ns ms :
  numbered fence k (ns ++ ms) ↔ numbered fence k ns ∧ numbered fence (k + Z.of_nat (length ns)) ms.
Proof.
  revert k. induction ns as [|n ns IH]; intros k; simpl.
  - rewrite Z.add_0_r. tauto.
  - rewrite IH. replace (k + 1 + Z.of_nat (length ns)) with (k + Z.of_nat (S (length ns))) by lia. tauto.
Qed.
(** Messages within the events of their turn. *)
Definition messages_within (last : Z) (messages : list AssistantMessage) : Prop :=
  Forall (λ m, 1 <= am_first_event_seq m ∧ am_first_event_seq m <= am_last_event_seq m
               ∧ am_last_event_seq m <= last) messages.
(** A terminal that accounts for a turn of [last] events. *)
Definition accounts (fence : ExecutionFence) (last : Z) (terminal : TurnTerminal) : Prop :=
  tt_fence terminal = fence ∧ tt_last_event_seq terminal = last ∧ last < u64_max ∧ id_ok (tt_stop_reason terminal)
  ∧ tt_execution_certainty terminal ≠ NotStarted
  ∧ (tt_session_quiescent terminal = true → tt_execution_certainty terminal ≠ OutcomeUnknown)
  ∧ messages_within last (tt_assistant_messages terminal).

Lemma messages_mono last last' messages :
  last <= last' → messages_within last messages → messages_within last' messages.
Proof. intros Hle Hm. eapply Forall_impl; [exact Hm|]. intros m ?. simpl in *. lia. Qed.
Lemma begin_message_within seq id a a' r :
  1 <= seq → messages_within seq (ht_assistant_messages a) →
  begin_message id seq a = (a', r) → messages_within seq (ht_assistant_messages a').
Proof.
  intros Hseq Hm H. unfold begin_message in H. a_inv. case_bool_decide; a_inv; [done| |done].
  apply Forall_app. split; [done|]. apply Forall_singleton. simpl. lia.
Qed.
Lemma on_message_within f captured seq a :
  (∀ m, am_first_event_seq (f m) = am_first_event_seq m) →
  (∀ m, am_last_event_seq (f m) = am_last_event_seq m ∨ am_last_event_seq (f m) = seq) →
  messages_within seq (ht_assistant_messages a) →
  messages_within seq (ht_assistant_messages (on_message f captured a)).
Proof.
  intros Hf Hl Hm. unfold on_message. simpl. unfold messages_within in *.
  destruct (ht_assistant_messages a) as [|m messages _] using rev_ind; [done|].
  rewrite on_last_snoc. apply Forall_app in Hm as [? Hm]. apply (proj1 (Forall_singleton _ _)) in Hm.
  apply Forall_app. split; [done|]. apply Forall_singleton. cbn beta in *. rewrite Hf. destruct (Hl m) as [->| ->]; lia.
Qed.
Lemma capture_content_within seq content a a' r :
  messages_within seq (ht_assistant_messages a) →
  capture_content content a = (a', r) → messages_within seq (ht_assistant_messages a').
Proof.
  intros Hm H. unfold capture_content in H. a_inv. destruct (_ ==? _).
  - destruct (get_str _ _) as [text|]; [|by a_inv].
    destruct (_ <=? _); a_inv; apply on_message_within; auto.
  - destruct (to_json _); [|by a_inv]. destruct (_ <=? _); a_inv; apply on_message_within; auto.
Qed.
Lemma capture_update_within seq update a a' r :
  1 <= seq → messages_within seq (ht_assistant_messages a) →
  capture_update seq update a = (a', r) → messages_within seq (ht_assistant_messages a').
Proof.
  intros Hseq Hm H. unfold capture_update in H.
  apply andthen_run in H as [([] & a1 & Ha & H)|(? & [=] & _)]. injection Ha as Ha.
  assert (ht_assistant_messages a1 = ht_assistant_messages a) as H1
    by (subst a1; by destruct (get_str _ _ ==? Some "usage_update")). rewrite <- H1 in Hm. clear Ha H1.
  destruct (_ !=? _); [by a_inv|]. a_inv; try done.
  all: repeat match goal with
       | Hb : begin_message _ _ _ = _ |- _ => apply begin_message_within in Hb; [|done..]
       | Hb : capture_content _ _ = _ |- _ => eapply capture_content_within; [|exact Hb]
       end; try done; apply on_message_within; auto.
Qed.
Lemma observe_update_within now update a a' r :
  1 <= ht_next_event_seq a → messages_within (ht_next_event_seq a - 1) (ht_assistant_messages a) →
  observe_update sha256_hex now update a = (a', r) →
  messages_within (ht_next_event_seq a) (ht_assistant_messages a').
Proof.
  intros Hseq Hm H. apply (messages_mono _ (ht_next_event_seq a)) in Hm; [|lia]. unfold observe_update in H.
  apply andthen_run in H as [(seq & a1 & Ha & H)|(? & [=] & _)]. injection Ha as <- <-.
  apply andthen_run in H as [(next & a1 & Ht & H)|(e & Ht & ->)]; injection Ht as <- _; [|done].
  apply andthen_run in H as [([] & a1 & Ha & H)|(? & [=] & _)]. injection Ha as <-.
  apply andthen_run in H as [([] & a2 & Ha & H)|(? & [=] & _)]. injection Ha as Ha.
  assert (ht_assistant_messages a2 = ht_assistant_messages a) as H2
    by (subst a2; by destruct (recognized_activity _)). rewrite <- H2 in Hm. clear Ha.
  apply andthen_run in H as [([] & a3 & Hc & H)|(e & Hc & ->)];
    (eapply capture_update_within in Hc; [|done..]); [|done].
  apply andthen_run in H as [([] & a4 & Ha & H)|(? & [=] & _)]. injection Ha as Ha.
  apply andthen_run in H as [([] & a5 & Hb & H)|(? & [=] & _)]. injection Hb as Hb.
  injection H as <- _. subst a5 a4. by destruct (_ <? _), (_ ==? _).
Qed.
Lemma classification_ok update : id_ok (classify_update update).
Proof.
  unfold classify_update. destruct (get_str _ _) as [kind|]; [|by split].
  repeat (case_bool_decide; [by split|]). simpl. repeat (case_bool_decide; [by split|]). by split.
Qed.

(** ** The turns of an orderly host *)

Definition starts (h : Host) : list (nat * StartTurn) :=
  omap (λ e, match e with TurnStarted t request => Some (t, request) | _ => None end) (h_log h).
Definition reason_ok (reason : option string) : Prop := ∀ r, reason = Some r → id_ok r.
Definition outcome_ok (outcome : PromptOutcome) : Prop := id_ok (terminal_parts outcome).1.2.
Definition phase_ok (phase : MonitorPhase) : Prop :=
  match phase with
  | Draining reason _ => id_ok reason
  | Settled outcome => outcome_ok outcome
  | _ => True
  end.
(** An active turn whose evidence so far is [made]. *)
Definition turn_ok (t : nat) (fence : ExecutionFence) (made : list HarnessAcpNotification) a : Prop :=
  ht_turn a = t ∧ ht_fence a = fence ∧ ht_next_event_seq a = 1 + Z.of_nat (length made)
  ∧ ht_next_event_seq a <= u64_max ∧ numbered fence 0 made
  ∧ messages_within (ht_next_event_seq a - 1) (ht_assistant_messages a)
  ∧ reason_ok (cancellation a).
Definition monitored (h : Host) (t : nat) (request : StartTurn) (m : Monitor) : Prop :=
  let fence := st_fence request in
  let made := turn_of t (all_made h) in
  match mo_phase m with
  | Withdrawing t' terminal _ =>
      t' = t ∧ numbered fence 0 made ∧ accounts fence (Z.of_nat (length made)) terminal
  | Ended =>
      ∃ events terminal, made = events ++ [NTurnTerminal terminal] ∧ numbered fence 0 events
        ∧ accounts fence (Z.of_nat (length events)) terminal
  | phase =>
      phase_ok phase ∧
      ∃ a, actives (h_shared h) !! st_session_ref request = Some a ∧ turn_ok t fence made a
  end.
Record orderly_ok (h : Host) : Prop := {
  ok_started : ∀ t request, (t, request) ∈ starts h →
    (t < h_next_turn h)%nat ∧ validate_start_turn request = inl tt
    ∧ ∃ m, h_monitors h !! t = Some m ∧ mo_session_ref m = st_session_ref request
           ∧ monitored h t request m;
  ok_unique : ∀ t r1 r2, (t, r1) ∈ starts h → (t, r2) ∈ starts h → r1 = r2;
  ok_monitor : ∀ t m, h_monitors h !! t = Some m → ∃ request, (t, request) ∈ starts h;
  ok_active : ∀ r a, actives (h_shared h) !! r = Some a →
    ∃ request m, (ht_turn a, request) ∈ starts h ∧ st_session_ref request = r
      ∧ h_monitors h !! ht_turn a = Some m ∧ before_terminal (mo_phase m) = true;
  ok_fresh : ∀ t, (h_next_turn h ≤ t)%nat → turn_of t (all_made h) = [];
  ok_command : ∀ r reason, h_command h = Some (r, reason) → id_ok reason;
}.

(** Steps that touch no turn. *)
Lemma orderly_keep h h' :
  actives (h_shared h') = actives (h_shared h) → h_monitors h' = h_monitors h →
  h_next_turn h' = h_next_turn h → starts h' = starts h →
  (∀ t, turn_of t (all_made h') = turn_of t (all_made h)) →
  (∀ r reason, h_command h' = Some (r, reason) → id_ok reason) →
  orderly_ok h → orderly_ok h'.
Proof.
  intros Ha Hm Hn Hs Ht Hc [O1 O2 O3 O4 O5 O6].
  split; rewrite ?Ha, ?Hm, ?Hn, ?Hs; try done.
  - intros t request Hin. destruct (O1 t request Hin) as (? & ? & m & ? & ? & Hmon).
    split_and!; try done. exists m. split_and!; try done. unfold monitored. rewrite Ha, Ht. exact Hmon.
  - intros t Hle. rewrite Ht. by apply O5.
Qed.

(** An update of the active turn of a session, with the evidence it makes. *)
Lemma orderly_update h h' r a a' ns :
  actives (h_shared h) !! r = Some a → actives (h_shared h') = <[r := a']> (actives (h_shared h)) →
  h_monitors h' = h_monitors h → h_next_turn h' = h_next_turn h → starts h' = starts h →
  (∀ t, turn_of t (all_made h') = turn_of t (all_made h) ++ (if bool_decide (t = ht_turn a) then ns else [])) →
  h_command h' = None ∨ h_command h' = h_command h →
  ht_turn a' = ht_turn a → ht_fence a' = ht_fence a →
  ht_next_event_seq a' = ht_next_event_seq a + Z.of_nat (length ns) → ht_next_event_seq a' <= u64_max →
  numbered (ht_fence a) (ht_next_event_seq a - 1) ns →
  (1 <= ht_next_event_seq a → messages_within (ht_next_event_seq a - 1) (ht_assistant_messages a) →
   messages_within (ht_next_event_seq a' - 1) (ht_assistant_messages a')) →
  (reason_ok (cancellation a) → reason_ok (cancellation a')) →
  orderly_ok h → orderly_ok h'.
Proof.
  intros Hr Ha Hm Hn Hs Ht Hc T F N Hmax Hnum Hmsg Hreason [O1 O2 O3 O4 O5 O6].
  destruct (O4 r a Hr) as (request & m & Hin & Href & Hmon & Hphase).
  split; rewrite ?Hm, ?Hn, ?Hs; try done.
  - intros t req Hin'. destruct (O1 t req Hin') as (? & ? & m' & Hmon' & ? & Hst).
    split_and!; try done. exists m'. split_and!; try done. unfold monitored in *. rewrite Ht.
    destruct (decide (t = ht_turn a)) as [->|Hne].
    + rewrite bool_decide_true by done. rewrite Hmon in Hmon'. injection Hmon' as <-.
      rewrite (O2 _ _ _ Hin' Hin), Href in *. rewrite Ha, lookup_insert_eq. rewrite Hr in Hst.
      destruct (mo_phase m); try done.
      all: destruct Hst as [? (? & [= <-] & T1 & F1 & N1 & _ & Hnum1 & Hmsg1 & Hreason1)]; split; [done|].
      all: exists a'; split; [done|]; split_and!; try congruence; try tauto.
      all: rewrite ?length_app, ?numbered_app, ?N, ?N1, ?F1 in *; try lia.
      all: try (split; [done|]; eapply (eq_ind _ (λ z, numbered _ z _)); [exact Hnum|lia]).
      all: rewrite <- ?N, <- ?N1 in *; apply Hmsg; [lia|done].
    + rewrite bool_decide_false by done. rewrite app_nil_r.
      destruct (mo_phase m'); try done.
      all: destruct Hst as [? (a2 & Ha2 & T2 & Hrest)]; split; [done|]; exists a2.
      all: rewrite Ha, lookup_insert_ne; [by split|].
      all: intros Heq; rewrite <- Heq, Hr in Ha2; injection Ha2 as <-; congruence.
  - intros r2 a2. rewrite Ha. intros [[<- <-]|[_ H2]]%lookup_insert_Some; [|by apply O4].
    rewrite T. by eauto 10.
  - intros t Hle. rewrite Ht, O5 by done. destruct (O1 _ _ Hin) as [Hlt _].
    rewrite bool_decide_false; [done|lia].
  - intros r2 reason Hcmd. destruct Hc as [Hc|Hc]; rewrite Hc in Hcmd; [done|by eapply O6].
Qed.

(** A move of one monitor that keeps its turn to be taken. *)
Lemma orderly_monitor h h' t m m' :
  h_monitors h !! t = Some m → h_monitors h' = <[t := m']> (h_monitors h) →
  h_shared h' = h_shared h → h_next_turn h' = h_next_turn h → starts h' = starts h →
  all_made h' = all_made h → h_command h' = h_command h →
  mo_session_ref m' = mo_session_ref m →
  before_terminal (mo_phase m) = true → before_terminal (mo_phase m') = true →
  (∀ a, actives (h_shared h) !! mo_session_ref m = Some a → ht_turn a = t → reason_ok (cancellation a) →
        phase_ok (mo_phase m) → phase_ok (mo_phase m')) →
  orderly_ok h → orderly_ok h'.
Proof.
  intros Hm Hm' Hs Hn Hst Hmade Hc Href Hb Hb' Hph [O1 O2 O3 O4 O5 O6].
  split; rewrite ?Hs, ?Hn, ?Hst, ?Hmade, ?Hc; try done.
  - intros t2 req Hin. destruct (O1 t2 req Hin) as (? & ? & m2 & Hm2 & Href2 & Hmon).
    split_and!; try done. rewrite Hm'. destruct (decide (t2 = t)) as [->|Hne].
    + rewrite Hm in Hm2. injection Hm2 as <-. exists m'. rewrite lookup_insert_eq.
      split_and!; [done|congruence|]. unfold monitored in *. rewrite Hs, Hmade.
      assert (phase_ok (mo_phase m) ∧ ∃ a, actives (h_shared h) !! st_session_ref req = Some a
                ∧ turn_ok t (st_fence req) (turn_of t (all_made h)) a) as [Hpo (a & Ha & Hok)]
        by (by destruct (mo_phase m)).
      assert (phase_ok (mo_phase m')) as Hpo'.
      { pose proof Hok as (Hat & _ & _ & _ & _ & _ & Hreason). apply (Hph a); try done. by rewrite Href2. }
      destruct (mo_phase m'); try done; by eauto.
    + exists m2. rewrite lookup_insert_ne by done. split_and!; try done.
      unfold monitored in *. by rewrite Hs, Hmade.
  - intros t2 m2. rewrite Hm'. intros [[<- <-]|[_ H2]]%lookup_insert_Some; by eapply O3.
  - intros r a Ha. destruct (O4 r a Ha) as (req & m2 & ? & ? & Hm2 & Hb2). rewrite Hm'.
    destruct (decide (ht_turn a = t)) as [<-|Hne].
    + exists req, m'. by rewrite lookup_insert_eq.
    + exists req, m2. by rewrite lookup_insert_ne.
Qed.

Lemma orderly_start h request s' x :
  start_turn (h_next_turn h) request (h_shared h) = (s', inl x) →
  validate_start_turn request = inl tt → h_command h = None →
  orderly_ok h → orderly_ok (turn_started request x (sharing s' h)).
Proof.
  intros H Hval Hcmd [O1 O2 O3 O4 O5 O6]. set (t := h_next_turn h).
  assert (actives (h_shared h) !! st_session_ref request = None
          ∧ actives s' = <[st_session_ref request := new_turn t request]> (actives (h_shared h))) as [Hnone Ha].
  { unfold start_turn in H. a_inv. destruct (_ !! _) as [session|] eqn:Hr; [|by a_inv]. a_inv.
    rewrite actives_put. simpl. split; [|done]. rewrite actives_lookup, Hr. simpl.
    match goal with Hx : reject (is_some (ss_active session)) _ = _ |- _ => apply reject_ok in Hx end.
    by destruct (ss_active session). }
  set (h' := turn_started _ _ _). assert (starts h' = starts h ++ [(t, request)]) as Hs
    by (unfold starts, h'; simpl; by rewrite omap_app).
  assert (∀ t2, turn_of t2 (all_made h') = turn_of t2 (all_made h)) as Hmade.
  { intros t2. unfold h', turn_started. by rewrite all_made_logging. }
  assert (∀ req, (t, req) ∉ starts h) as Hnew.
  { intros req Hin. destruct (O1 t req Hin) as [Hlt _]. unfold t in Hlt. lia. }
  assert (∀ t2 req, (t2, req) ∈ starts h' → (t2, req) ∈ starts h ∨ t2 = t ∧ req = request) as Hin.
  { intros t2 req. rewrite Hs. intros [?|Hx%list_elem_of_singleton]%elem_of_app; [by left|right]. by simplify_eq. }
  split.
  - intros t2 req [Hold|[-> ->]]%Hin.
    + destruct (O1 t2 req Hold) as (? & ? & m & Hm & Href & Hmon).
      assert (t2 ≠ t) by (intros ->; by eapply Hnew).
      split_and!; [simpl; unfold t in *; lia|done|]. exists m. simpl. rewrite lookup_insert_ne by done.
      split_and!; try done. unfold monitored in *. rewrite Hmade. destruct (mo_phase m); try done.
      all: destruct Hmon as [? (a & Hact & Hok)]; split; [done|]; exists a; split; [|done].
      all: simpl; rewrite Ha, lookup_insert_ne; [done|]; intros Heq; rewrite <- Heq in Hact; congruence.
    + split_and!; [simpl; unfold t; lia|done|]. exists (new_monitor (h_now h) request). simpl.
      rewrite lookup_insert_eq. split_and!; [done..|]. unfold monitored. simpl. split; [done|].
      exists (new_turn t request). rewrite Ha, lookup_insert_eq. split; [done|].
      fold h'. rewrite Hmade, (O5 t) by (unfold t; lia). split_and!; simpl; try done; try lia.
      constructor.
  - intros t2 r1 r2 [H1|[-> ->]]%Hin [H2|[? ->]]%Hin; try done; [by eapply O2| |].
    + subst t2. by destruct (Hnew r1).
    + by destruct (Hnew r2).
  - intros t2 m. simpl. intros [[<- <-]|[_ Hm]]%lookup_insert_Some.
    + exists request. rewrite Hs. set_solver.
    + destruct (O3 t2 m Hm) as [req Hreq]. exists req. rewrite Hs. set_solver.
  - intros r a. simpl. rewrite Ha. intros [[<- <-]|[_ Hr]]%lookup_insert_Some.
    + exists request, (new_monitor (h_now h) request). simpl. rewrite lookup_insert_eq, Hs. split_and!; try done. set_solver.
    + destruct (O4 r a Hr) as (req & m & Hreq & ? & Hm & ?). exists req, m.
      rewrite lookup_insert_ne; [split_and!; try done; rewrite Hs; set_solver|].
      intros Heq. apply (Hnew req). unfold t. by rewrite Heq.
  - intros t2 Hle. rewrite Hmade. apply O5. simpl in Hle. lia.
  - intros r reason Hc. simpl in Hc. congruence.
Qed.

Lemma bounds_accounts a t fence made outcome :
  turn_ok t fence made a → outcome_ok outcome →
  accounts fence (Z.of_nat (length made)) (turn_terminal sha256_hex a outcome).
Proof.
  intros (_ & <- & N & Hmax & _ & Hm & _) Hout. unfold turn_terminal, outcome_ok in *.
  rewrite N in Hm. replace (1 + Z.of_nat (length made) - 1) with (Z.of_nat (length made)) in Hm by lia.
  destruct outcome as [response [reason|]|evidence]; simpl in *; split_and!; try done; simpl; lia.
Qed.

Lemma emit_taken ref outcome s session a :
  sh_sessions s !! ref = Some session → ss_active session = Some a →
  emit_terminal sha256_hex ref outcome s
  = (put_session ref (with_active None session) (drop_turn (Some a) s),
     inl (ht_turn a, turn_terminal sha256_hex a outcome, permissions_of (ht_fence a) s)).
Proof. intros Hr Ha. unfold emit_terminal, andthen, look. simpl. rewrite Hr. by rewrite Ha. Qed.

(** The monitor takes its turn. *)
Lemma orderly_settle t h : orderly_ok h → orderly_ok (settle_monitor sha256_hex t h).
Proof.
  intros Hok. unfold settle_monitor. destruct (h_monitors h !! t) as [m|] eqn:Hm; [|done].
  destruct (mo_phase m) as [| |outcome| |] eqn:Hphase; try done.
  pose proof Hok as [O1 O2 O3 O4 O5 O6].
  destruct (O3 t m Hm) as [request Hin]. destruct (O1 t request Hin) as (Hlt & Hval & m2 & Hm2 & Href & Hmon).
  rewrite Hm in Hm2. injection Hm2 as <-. unfold monitored in Hmon. rewrite Hphase in Hmon.
  destruct Hmon as [Hout (a & Ha & Hturn)]. simpl in Hout. rewrite <- Href in Ha.
  pose proof Hturn as (Ht & Hf & _).
  rewrite actives_lookup in Ha.
  destruct (sh_sessions (h_shared h) !! mo_session_ref m) as [session|] eqn:Hr; [|done]. simpl in Ha.
  rewrite (emit_taken _ _ _ session a) by done. set (h' := set_monitor _ _ _).
  assert (actives (h_shared h') = delete (mo_session_ref m) (actives (h_shared h))) as Hact
    by (unfold h'; simpl; by rewrite actives_put).
  split; try done.
  - intros t2 req Hin2. destruct (O1 t2 req Hin2) as (? & ? & m2 & Hm2 & Href2 & Hmon2).
    split_and!; try done. simpl. destruct (decide (t2 = t)) as [->|Hne].
    + rewrite (O2 _ _ _ Hin2 Hin). rewrite lookup_insert_eq. eexists. split_and!; [done|done|].
      unfold monitored. simpl. split_and!; [done| |].
      * by destruct Hturn as (_ & _ & _ & _ & ? & _).
      * by eapply bounds_accounts.
    + exists m2. rewrite lookup_insert_ne by done. split_and!; try done.
      unfold monitored in *. change (all_made h') with (all_made h). rewrite Hact.
      destruct (mo_phase m2); try done.
      all: destruct Hmon2 as [? (a2 & Ha2 & Hok2)]; split; [done|]; exists a2.
      all: rewrite lookup_delete_ne; [done|]; intros Heq; rewrite <- Heq, actives_lookup, Hr in Ha2.
      all: simpl in Ha2; rewrite Ha in Ha2; injection Ha2 as <-; destruct Hok2 as [? _]; congruence.
  - intros t2 m2. simpl. intros [[<- <-]|[_ H2]]%lookup_insert_Some; by eapply O3.
  - intros r a2. rewrite Hact. intros [Hne Hr2]%lookup_delete_Some.
    destruct (O4 r a2 Hr2) as (req & m2 & Hin2 & Href2 & Hm2 & ?). exists req, m2. simpl.
    rewrite lookup_insert_ne; [done|]. intros Heq. rewrite <- Heq in Hin2.
    rewrite (O2 _ _ _ Hin2 Hin) in Href2. congruence.
Qed.

Lemma orderly_withdraw t h : orderly_ok h → orderly_ok (withdraw_next t h).
Proof.
  intros Hok. unfold withdraw_next. destruct (h_monitors h !! t) as [m|] eqn:Hm; [|done].
  destruct (mo_phase m) as [| | |t' terminal ids|] eqn:Hphase; try done.
  pose proof Hok as [O1 O2 O3 O4 O5 O6].
  destruct (O3 t m Hm) as [request Hin]. destruct (O1 t request Hin) as (Hlt & Hval & m2 & Hm2 & Href & Hmon).
  rewrite Hm in Hm2. injection Hm2 as <-. unfold monitored in Hmon. rewrite Hphase in Hmon.
  destruct Hmon as (-> & Hnum & Hacc).
  assert (∀ r a, actives (h_shared h) !! r = Some a → ht_turn a ≠ t) as Hno.
  { intros r a Ha Heq. destruct (O4 r a Ha) as (req & m2 & _ & _ & Hm2 & Hb). rewrite Heq, Hm in Hm2.
    injection Hm2 as <-. by rewrite Hphase in Hb. }
  assert (∀ h' m', actives (h_shared h') = actives (h_shared h) → starts h' = starts h →
            h_monitors h' = <[t := m']> (h_monitors h) → h_next_turn h' = h_next_turn h →
            h_command h' = h_command h → mo_session_ref m' = mo_session_ref m →
            (∀ t2, t2 ≠ t → turn_of t2 (all_made h') = turn_of t2 (all_made h)) →
            monitored h' t request m' → orderly_ok h') as Hgen.
  { intros h' m' Ha Hs Hmon' Hn Hc Href' Hmade Hnew. split; rewrite ?Ha, ?Hs, ?Hn, ?Hc; try done.
    - intros t2 req Hin2. destruct (O1 t2 req Hin2) as (? & ? & m2 & Hm2 & Href2 & Hmon2).
      split_and!; try done. rewrite Hmon'. destruct (decide (t2 = t)) as [->|Hne].
      + rewrite (O2 _ _ _ Hin2 Hin) in *. exists m'. rewrite lookup_insert_eq. split_and!; try done; congruence.
      + exists m2. rewrite lookup_insert_ne by done. split_and!; try done.
        unfold monitored in *. by rewrite Ha, Hmade.
    - intros t2 m2. rewrite Hmon'. intros [[<- <-]|[_ H2]]%lookup_insert_Some; by eapply O3.
    - intros r a Hr. destruct (O4 r a Hr) as (req & m2 & ? & ? & ? & ?). exists req, m2.
      rewrite Hmon', lookup_insert_ne; [done|]. by apply not_eq_sym, (Hno r).
    - intros t2 Hle. rewrite Hmade; [by apply O5|]. lia. }
  destruct ids as [|id ids].
  - eapply Hgen; [done|done|done|done|done|done| |].
    + intros t2 Hne. rewrite all_made_made, turn_of_app. unfold turn_of at 2. simpl.
      rewrite bool_decide_false by congruence. simpl. by rewrite app_nil_r.
    + unfold monitored. simpl. eexists _, terminal. rewrite all_made_made, turn_of_app. unfold turn_of at 2. simpl.
      rewrite bool_decide_true by done. simpl. done.
  - eapply Hgen; [|done|done|done|done|done|done|].
    + apply (actives_withdraw _ [id]).
    + unfold monitored. simpl. done.
Qed.

Lemma monitor_event_ok h now t s event m m' :
  orderly h (MonitorWakes t event) →
  monitor_event now t s event m = Some m' →
  ∀ a, actives s !! mo_session_ref m = Some a → ht_turn a = t → reason_ok (cancellation a) →
       phase_ok (mo_phase m) → phase_ok (mo_phase m').
Proof.
  intros Hord H a Ha Ht Hreason Hph. unfold monitor_event in H.
  destruct (mo_phase m) as [|reason deadline| | |] eqn:Hphase; try done.
  - unfold watch_of in H. rewrite actives_lookup in Ha. rewrite Ha in H.
    rewrite bool_decide_true in H by done. unfold watching_event in H.
    destruct event as [reply| | | | |]; simpl in H; try done.
    + injection H as <-. unfold phase_ok, outcome_ok. destruct reply; [exact Hord|by split..].
    + destruct (_ <=? _); [|done]. injection H as <-. by split.
    + destruct (_ <=? _); [|done]. injection H as <-. by split.
    + destruct (bool_decide _); [|done]. injection H as <-. simpl. by rewrite Hphase.
    + destruct (bool_decide _); [|done]. injection H as <-. fold (cancellation a).
      destruct (cancellation a) as [r|] eqn:Hc; simpl; [by apply Hreason|by rewrite Hphase].
  - unfold draining_event in H. destruct event as [reply| | | | |]; try done.
    + injection H as <-. unfold phase_ok, outcome_ok. destruct reply; [exact Hph|by split..].
    + destruct (_ <=? _); [|done]. injection H as <-. by split.
Qed.

Lemma orderly_of_update raw h :
  orderly h (UpdateArrives raw) → orderly_ok h → orderly_ok (act_ (UpdateArrives raw) h).
Proof.
  intros Hord Hok. pose proof Hok as [_ _ _ _ _ O6]. simpl in *.
  destruct (handle_session_update sha256_hex (h_now h) raw (h_shared h)) as [s' r] eqn:H.
  destruct r as [made|e]; [|by destruct (Hord e)]. clear Hord. unfold handle_session_update in H.
  destruct (get_str "sessionId" raw) as [ref|]; [|by a_inv]. destruct (json_get "update" raw) as [update|]; [|by a_inv].
  apply andthen_run in H as [(sessions & s1 & Hl & H)|(? & [=] & _)]. injection Hl as <- <-.
  destruct (sh_sessions (h_shared h) !! ref) as [session|] eqn:Hr.
  2:{ a_inv. eapply (orderly_keep h); (done || exact O6). }
  destruct (ss_capturing session) as [capture|].
  - destruct (capture_transcript_entry (h_now h) capture ref update) as [capture' entry] eqn:Hcap.
    a_inv. assert (actives (put_session ref (with_capturing (Some capture') session) (h_shared h))
                   = actives (h_shared h)) as Ha.
    { rewrite actives_put. simpl. destruct (ss_active session) as [a|] eqn:Ha.
      - apply insert_id. by rewrite actives_lookup, Hr.
      - apply delete_id. by rewrite actives_lookup, Hr. }
    destruct entry; simpl; (eapply (orderly_keep h); [exact Ha|done..| |exact O6|done]).
    + intros t2. rewrite all_made_made, turn_of_app. simpl. by rewrite app_nil_r.
    + done.
  - destruct (ss_active session) as [a|] eqn:Hact.
    2:{ a_inv. eapply (orderly_keep h); (done || exact O6). }
    apply andthen_run in H as [(event & s1 & Ho & H)|(e & Ho & [=])].
    apply on_active_run in Ho as [-> Ho]. a_inv.
    destruct (observe_update sha256_hex (h_now h) update a) as [a' r'] eqn:Hobs. simpl in Ho. subst r'.
    destruct (observe_update_turn _ _ _ _ _ Hobs) as ((T & F & C) & Hev).
    destruct (Hev event eq_refl) as (Ef & Es & Ec & N & Hmax).
    eapply (orderly_update h _ ref a a' [NTurnEvent event]); try done.
    + by rewrite actives_lookup, Hr.
    + simpl. by rewrite actives_put.
    + intros t. rewrite all_made_made, turn_of_app. simpl. unfold turn_of at 2. simpl. f_equal.
      case_bool_decide as Hq; case_bool_decide as Hq2; naive_solver.
    + by right.
    + simpl. lia.
    + simpl. split; [|done]. split_and!; [done|lia|]. rewrite Ec. apply classification_ok.
    + intros H1 Hm. rewrite N. replace (ht_next_event_seq a + 1 - 1) with (ht_next_event_seq a) by lia.
      by eapply observe_update_within.
    + intros Hre. destruct C as [->| ->]; [done|]. intros r [= <-]. by split.
Qed.

Lemma orderly_of_ask id raw h :
  orderly h (PermissionAsked id raw) → orderly_ok h → orderly_ok (act_ (PermissionAsked id raw) h).
Proof.
  intros [Hid Hmax] Hok. pose proof Hok as [_ _ _ _ _ O6]. simpl. unfold ask_permission.
  destruct (handle_permission_request (h_now h) id raw (h_shared h)) as [s' r] eqn:H.
  unfold handle_permission_request in H.
  assert (orderly_ok (logging [PermissionAnswered id Cancelled] (sharing (h_shared h) h))) as Hsame.
  { eapply (orderly_keep h); try done; try exact O6.
    - unfold starts. simpl. rewrite omap_app. simpl. by rewrite app_nil_r.
    - intros t. by rewrite all_made_logging. }
  destruct (get_str "sessionId" raw) as [ref|]; [|by a_inv].
  apply andthen_run in H as [(sessions & s1 & Hl & H)|(? & [=] & _)]. injection Hl as <- <-.
  destruct (sh_sessions (h_shared h) !! ref) as [session|] eqn:Hr; [|by a_inv].
  destruct (ss_active session) as [a|] eqn:Hact; [|by a_inv].
  apply andthen_run in H as [(event & s1 & Ho & H)|(e & Ho & ->)]; [|done].
  apply on_active_run in Ho as [-> Ho]. injection Ho as ->. a_inv.
  assert (actives (h_shared h) !! ref = Some a) as Ha by (by rewrite actives_lookup, Hr).
  pose proof (Hmax ref a Ha) as Hlt. cbn beta in Hlt.
  set (a' := report_activity (with_next (wrap_u64 (ht_next_event_seq a + 1)) a)).
  assert (∀ z, 0 <= z < u64_max → wrap_u64 (z + 1) = z + 1) as Hwrap
    by (intros z Hz; unfold wrap_u64; apply Z.mod_small; lia).
  assert (0 <= ht_next_event_seq a) as Hpos.
  { pose proof Hok as [O1 O2 _ O4 _ _]. destruct (O4 ref a Ha) as (req & m & Hin & Href & Hm & Hb).
    destruct (O1 _ _ Hin) as (_ & _ & m2 & Hm2 & _ & Hmon). rewrite Hm in Hm2. injection Hm2 as <-.
    unfold monitored in Hmon. rewrite Href, Ha in Hmon.
    destruct (mo_phase m); try done; destruct Hmon as [_ (? & [= <-] & _ & _ & -> & _)]; lia. }
  eapply (orderly_update h _ ref a a' [NPermissionRequested _]); try done.
  - exact (actives_put ref (with_active (Some a') session) (h_shared h)).
  - intros t. rewrite all_made_made, turn_of_app. simpl. unfold turn_of at 2. simpl. f_equal.
    case_bool_decide as Hq; case_bool_decide as Hq2; naive_solver.
  - by right.
  - simpl. rewrite Hwrap by done. lia.
  - simpl. rewrite Hwrap by done. lia.
  - simpl. split_and!; try done. lia.
  - intros _. simpl. rewrite Hwrap by done. apply messages_mono. lia.
Qed.

Lemma orderly_cancel_finishes h : orderly_ok h → orderly_ok (act_ CancelFinishes h).
Proof.
  intros Hok. pose proof Hok as [_ _ _ _ _ O6]. simpl.
  destruct (h_command h) as [[ref reason]|] eqn:Hc; [|done].
  destruct (finish_cancel ref reason (h_shared h)) as [s' r] eqn:H. unfold finish_cancel in H. a_inv.
  assert (orderly_ok (commanding (h_running h) None (sharing (h_shared h) h))) as Hsame
    by (by apply (orderly_keep h)).
  destruct (_ !! ref) as [session|] eqn:Hr; [|by a_inv].
  destruct (ss_active session) as [a|] eqn:Hact; [|by a_inv]. a_inv.
  eapply (orderly_update h _ ref a (send_cancellation reason a) []); try done.
  - by rewrite actives_lookup, Hr.
  - exact (actives_put ref (with_active (Some (send_cancellation reason a)) session) (h_shared h)).
  - unfold starts. simpl. rewrite omap_app. simpl. by rewrite app_nil_r.
  - intros t. rewrite all_made_logging by done. destruct (bool_decide _); by rewrite app_nil_r.
  - by left.
  - simpl. lia.
  - pose proof Hok as [O1 _ _ O4 _ _].
    assert (actives (h_shared h) !! ref = Some a) as Ha by (by rewrite actives_lookup, Hr).
    destruct (O4 ref a Ha) as (req & m & Hin & Href & Hm & Hb).
    destruct (O1 _ _ Hin) as (_ & _ & m2 & Hm2 & _ & Hmon). rewrite Hm in Hm2. injection Hm2 as <-.
    unfold monitored in Hmon. rewrite Href, Ha in Hmon. simpl.
    destruct (mo_phase m); try done; by destruct Hmon as [_ (? & [= <-] & _ & _ & _ & ? & _)].
  - intros _ r [= <-]. by eapply O6.
Qed.

Lemma orderly_send h : orderly_ok h → orderly_ok (act_ (Send O) h).
Proof.
  intros Hok. pose proof Hok as [_ _ _ _ _ O6]. simpl. unfold send_pending.
  destruct (h_pending h !! O) as [[t n]|] eqn:Hp; [|done].
  set (h1 := sent_wait n (with_pending (delete O (h_pending h)) (h_replays h) h)).
  assert (h_shared h1 = h_shared h ∧ h_monitors h1 = h_monitors h ∧ h_next_turn h1 = h_next_turn h
          ∧ h_log h1 = h_log h ∧ h_command h1 = h_command h ∧ h_pending h1 = delete O (h_pending h))
    as (H1 & H2 & H3 & H4 & H5 & H6).
  { unfold h1, sent_wait. destruct n as [?|request|?|?|?]; try (split_and!; reflexivity).
    destruct (_ !! pq_permission_id request) as [[]|]; split_and!; reflexivity. }
  apply (orderly_keep h); simpl; rewrite ?H1, ?H2, ?H3, ?H5; try done.
  - unfold starts. simpl. rewrite H4, omap_app. simpl. by rewrite app_nil_r.
  - intros t2. unfold all_made, sent. simpl. rewrite H4, H6, omap_app. simpl.
    destruct (h_pending h) as [|p pending]; [done|]. simpl in *. simplify_eq. by rewrite <- (assoc_L (++)).
Qed.

Lemma orderly_step step h : orderly h step → orderly_ok h → orderly_ok (act_ step h).
Proof.
  intros Hord Hok. pose proof Hok as [_ _ _ _ _ O6].
  destruct step as [now|request|request| |request reply|request|request| |request|raw|id raw|id|id|ref failure|t event|t|t|i].
  - simpl. destruct (_ <=? _); [|done]. by apply (orderly_keep h).
  - simpl. unfold command. destruct (h_running h); [|done]. simpl. case_bool_decide as Hc; [|done].
    destruct (start_turn _ _ _) as [s' [x|e]] eqn:H; [by apply orderly_start|].
    unfold start_turn in H. assert (s' = h_shared h) as ->; [|by apply (orderly_keep h)].
    a_inv; try done. destruct (_ !! _); by a_inv.
  - simpl in *. apply validate_id_ok in Hord. unfold command. destruct (_ && _); [|done].
    destruct (begin_cancel request (h_shared h)) as [s' r] eqn:H. unfold begin_cancel in H. a_inv.
    destruct (List.find _ _) as [[ref ?]|]; a_inv; [|by apply (orderly_keep h)].
    apply (orderly_keep h); try done.
    + apply actives_withdraw.
    + by intros ? ? [= <- <-].
  - by apply orderly_cancel_finishes.
  - simpl in *. unfold command. destruct (_ && _); [|done].
    destruct (open_command _ _ _ request reply (h_shared h)) as [s' r] eqn:H.
    assert (actives s' = actives (h_shared h)) as Ha; [|by destruct r; apply (orderly_keep h)].
    unfold open_command, open_session in H. a_inv; try done.
    match goal with Hx : opened_session _ _ = inl ?o |- _ =>
      rename Hx into Hopen; destruct o as [[ref resumed] raw] end.
    pose proof (Hord _ _ _ Hopen) as Hnone. a_inv; try done.
    rewrite actives_put. simpl. rewrite actives_lookup in Hnone.
    rewrite Hnone. simpl. apply delete_id. by rewrite actives_lookup.
  - simpl. unfold command. destruct (_ && _); [|done].
    destruct (close_session request (h_shared h)) as [s' r] eqn:H.
    assert (actives s' = actives (h_shared h)) as Ha; [|by destruct r; apply (orderly_keep h)].
    unfold close_session in H. a_inv. destruct (_ !! _) as [session|] eqn:Hr; [|by a_inv]. a_inv; try done.
    unfold actives. simpl. rewrite omap_delete. apply delete_id. rewrite lookup_omap, Hr. simpl.
    match goal with Hx : reject (is_some (ss_active session)) _ = _ |- _ => apply reject_ok in Hx end.
    by destruct (ss_active session).
  - simpl. unfold command. destruct (_ && _); [|done].
    destruct (start_transcript request adoption (h_shared h)) as [s' r] eqn:H.
    assert (actives s' = actives (h_shared h)) as Ha.
    { unfold start_transcript in H. a_inv; try done. destruct (_ !! _) as [session|] eqn:Hr; [|by a_inv]. a_inv; try done.
      rewrite actives_put. simpl.
      match goal with Hx : reject (is_some (ss_active session)) _ = _ |- _ => apply reject_ok in Hx end.
      destruct (ss_active session) eqn:Hact; [done|]. apply delete_id. by rewrite actives_lookup, Hr. }
    destruct r; apply (orderly_keep h); try done.
    + unfold starts. simpl. rewrite omap_app. simpl. by rewrite app_nil_r.
    + intros t. unfold transcript_started. by rewrite all_made_logging.
  - simpl. unfold command. destruct (_ && _); [|done]. apply (orderly_keep h); try done. apply actives_withdraw.
  - assert (actives (resolve_permission request (h_shared h)).1 = actives (h_shared h)) as Ha.
    { unfold resolve_permission, send_outcome. destruct (_ !! _); [|done].
      destruct (_ !=? _); [done|]. by destruct (_ !! _). }
    simpl. destruct (resolve_permission _ _) as [s' [u|e]]; apply (orderly_keep h); try done.
    + unfold starts. simpl. rewrite omap_app. simpl. by rewrite app_nil_r.
    + intros t. by rewrite all_made_logging.
  - by apply orderly_of_update.
  - by apply orderly_of_ask.
  - simpl. unfold wake_permission. destruct (_ !! id) as [[]|]; try done.
    destruct (permission_ready _ _ _); [|done]. by apply (orderly_keep h).
  - simpl. unfold reply_permission. destruct (_ !! id) as [[]|]; try done. apply (orderly_keep h); try done.
    + unfold starts. simpl. rewrite omap_app. simpl. by rewrite app_nil_r.
    + intros t. by rewrite all_made_logging.
  - simpl. case_bool_decide; [|done]. unfold complete_transcript.
    destruct (sh_sessions (h_shared h) !! ref) as [session|] eqn:Hr; simpl; apply (orderly_keep h); try done.
    2, 3: intros t; rewrite all_made_made, turn_of_app; simpl; by rewrite app_nil_r.
    etrans; [apply actives_put|]. simpl. destruct (ss_active session) as [a|] eqn:Ha.
    + apply insert_id. by rewrite actives_lookup, Hr.
    + apply delete_id. by rewrite actives_lookup, Hr.
  - simpl. destruct (h_monitors h !! t) as [m|] eqn:Hm; [|done].
    destruct (monitor_event _ _ _ _ _) as [m'|] eqn:H; [|done].
    pose proof (monitor_event_phase _ _ _ _ _ _ H) as (Hb & Hb' & Href).
    eapply (orderly_monitor h _ t m m'); try done.
    + unfold starts. simpl. rewrite omap_app. unfold drain_call.
      destruct (mo_phase m), (mo_phase m'); simpl; by rewrite app_nil_r.
    + exact (all_made_drain m m' (set_monitor t m' h)).
    + by eapply monitor_event_ok.
  - by apply orderly_settle.
  - by apply orderly_withdraw.
  - simpl in Hord. subst i. by apply orderly_send.
Qed.
Lemma orderly_reached steps now : orderly_run steps (new_host now) →
  orderly_ok (run_host sha256_hex adoption profile steps (new_host now)).
Proof.
  assert (orderly_ok (new_host now)) as H0 by (split; try done; intros; set_solver).
  generalize (new_host now), H0. clear. unfold run_host.
  induction steps as [|step steps IH]; intros h Hok; [done|]. simpl. intros [Hstep Hrun].
  apply IH; [by apply orderly_step|done].
Qed.

(** ** The client at the other end *)

Section client.
Context {HF : HarnessFrames} (sha256 : string → string) (Hjson : ∀ v, is_Some (to_json v)).

(** The notifications on their way to the client. *)
Definition channel : Type := list PluginNotification.
Definition closed_channel {A} : action channel PluginError A := throw (Transport "closed").
#[local] Instance channel_process : PluginProcess channel := {|
  call_describe := closed_channel;
  call_open_session := λ _, closed_channel;
  call_start_turn := λ _, closed_channel;
  call_resolve_permission := λ _, closed_channel;
  call_cancel_turn := λ _, closed_channel;
  call_start_transcript := λ _, closed_channel;
  call_close_session := λ _, closed_channel;
  receive_notification := λ q,
    match q with [] => (q, inr (Transport "closed")) | n :: q => (q, inl n) end;
|}.
(** The frame of a notification is read back as it was written. *)
Definition decodes (n : HarnessAcpNotification) : Prop :=
  match n with
  | NTurnEvent event => turn_event_from_value (turn_event_to_value event) = Some event
  | NPermissionRequested request => permission_from_value (permission_to_value request) = Some request
  | NTurnTerminal terminal => terminal_from_value (terminal_to_value terminal) = Some terminal
  | NTranscriptEntry entry => transcript_entry_from_value (transcript_entry_to_value entry) = Some entry
  | NTranscriptComplete complete =>
      transcript_complete_from_value (transcript_complete_to_value complete) = Some complete
  end.
(** The client is given each of the notifications, and refuses none. *)
Inductive receives : HarnessAcpClient channel → list HarnessAcpNotification
    → HarnessAcpClient channel → Prop :=
| receives_none c : receives c [] c
| receives_next c n c' ns c'' :
    next_notification sha256 c = (c', inl n) → receives c' ns c'' → receives c (n :: ns) c''.
(** The client after its request was accepted, with what is sent to it. *)
Definition accepted (request : StartTurn) (ns : list HarnessAcpNotification)
    : HarnessAcpClient channel :=
  {| hc_process := map driver_notification ns;
     hc_active_turn :=
       Some {| at_fence := st_fence request; at_last_event_seq := 0; at_seen := ∅ |} |}.

Lemma receives_app c ns c' ms c'' :
  receives c ns c' → receives c' ms c'' → receives c (ns ++ ms) c''.
Proof. induction 1; [done|]. intros H2. econstructor; eauto. Qed.

Lemma active_fence_ok seen fence last :
  validate_fence fence = inl tt →
  validate_active_fence (Some {| at_fence := fence; at_last_event_seq := last; at_seen := seen |}) fence
  = inl {| at_fence := fence; at_last_event_seq := last; at_seen := seen |}.
Proof. intros Hf. unfold validate_active_fence. rewrite Hf. simpl. by rewrite bool_decide_true. Qed.
Lemma admit_next fence last seen raw :
  validate_fence fence = inl tt → 0 <= last → last + 1 <= u64_max → seen !! (last + 1) = None →
  ∃ digest, admit_event sha256 (Some {| at_fence := fence; at_last_event_seq := last; at_seen := seen |})
    fence (last + 1) raw
  = inl {| at_fence := fence; at_last_event_seq := last + 1; at_seen := <[last + 1 := digest]> seen |}.
Proof using Hjson.
  intros Hf H0 Hmax Hseen. destruct (Hjson raw) as [bytes Hb]. exists (sha256 bytes).
  unfold admit_event. rewrite active_fence_ok by done. unfold validate_positive.
  rewrite bool_decide_false by lia. simpl. rewrite Hb, Hseen. unfold checked_add_u64.
  destruct (_ <=? u64_max) eqn:Hle; [|apply Z.leb_gt in Hle; lia]. by rewrite bool_decide_true.
Qed.
Lemma receive_one fence last seen n q :
  validate_fence fence = inl tt → 0 <= last → last + 1 <= u64_max → seen !! (last + 1) = None →
  evidence_at fence (last + 1) n → decodes n →
  ∃ digest, next_notification sha256
    {| hc_process := driver_notification n :: q;
       hc_active_turn := Some {| at_fence := fence; at_last_event_seq := last; at_seen := seen |} |}
  = ({| hc_process := q;
        hc_active_turn := Some {| at_fence := fence; at_last_event_seq := last + 1;
                                  at_seen := <[last + 1 := digest]> seen |} |}, inl n).
Proof using Hjson.
  intros Hf H0 Hmax Hseen Hev Hdec. destruct n as [event|request|terminal|entry|complete]; try done.
  - destruct Hev as (<- & Hseq & Hid). destruct (admit_next (te_fence event) last seen (turn_event_to_value event))
      as [digest Hd]; try done. exists digest.
    unfold next_notification, protocol_call, andthen, decode, try_, look, set_active_turn, act, done_with. simpl.
    simpl in Hdec. rewrite Hdec. simpl. apply (validate_id_ok "event classification") in Hid.
    rewrite Hid, Hseq, Hd. done.
  - destruct Hev as (<- & Hseq & Hid). destruct (admit_next (pq_fence request) last seen (permission_to_value request))
      as [digest Hd]; try done. exists digest.
    unfold next_notification, protocol_call, andthen, decode, try_, look, set_active_turn, act, done_with. simpl.
    simpl in Hdec. rewrite Hdec. simpl. apply (validate_id_ok "permission_id") in Hid.
    rewrite Hid, Hseq, Hd. done.
Qed.
Lemma receive_all fence ns : ∀ last seen q,
  validate_fence fence = inl tt → 0 <= last → last + Z.of_nat (length ns) <= u64_max →
  (∀ i d, seen !! i = Some d → i <= last) → numbered fence last ns → Forall decodes ns →
  ∃ seen', receives
    {| hc_process := map driver_notification ns ++ q;
       hc_active_turn := Some {| at_fence := fence; at_last_event_seq := last; at_seen := seen |} |} ns
    {| hc_process := q;
       hc_active_turn := Some {| at_fence := fence; at_last_event_seq := last + Z.of_nat (length ns);
                                 at_seen := seen' |} |}.
Proof using Hjson.
  induction ns as [|n ns IH]; intros last seen q Hf H0 Hmax Hseen Hnum Hdec; simpl.
  { exists seen. rewrite Z.add_0_r. constructor. }
  simpl in Hmax. destruct Hnum as [Hev Hnum]. apply Forall_cons in Hdec as [Hn Hdec].
  destruct (receive_one fence last seen n (map driver_notification ns ++ q)) as [digest Hd]; try done; [lia| |].
  { destruct (seen !! (last + 1)) eqn:Hs; [|done]. apply Hseen in Hs. lia. }
  destruct (IH (last + 1) (<[last + 1 := digest]> seen) q) as [seen' Hrest]; try done; try lia.
  { intros i d [[<- _]|[_ Hi]]%lookup_insert_Some; [lia|]. apply Hseen in Hi. lia. }
  exists seen'. econstructor; [exact Hd|].
  replace (last + Z.of_nat (S (length ns))) with (last + 1 + Z.of_nat (length ns)) by lia. exact Hrest.
Qed.
Lemma bounds_valid last messages :
  messages_within last messages → validate_message_bounds last messages = inl tt.
Proof.
  induction messages as [|m messages IH]; intros Hm; simpl; [done|].
  apply Forall_cons in Hm as [(H1 & H2 & H3) Hm]. rewrite bool_decide_false by lia.
  destruct (am_last_event_seq m <? am_first_event_seq m) eqn:Ha; [apply Z.ltb_lt in Ha; lia|].
  destruct (last <? am_last_event_seq m) eqn:Hb; [apply Z.ltb_lt in Hb; lia|]. by apply IH.
Qed.
Lemma receive_terminal fence last seen terminal :
  validate_fence fence = inl tt → accounts fence last terminal → decodes (NTurnTerminal terminal) →
  next_notification sha256
    {| hc_process := [driver_notification (NTurnTerminal terminal)];
       hc_active_turn := Some {| at_fence := fence; at_last_event_seq := last; at_seen := seen |} |}
  = ({| hc_process := []; hc_active_turn := None |}, inl (NTurnTerminal terminal)).
Proof.
  intros Hf (<- & Hl & _ & Hstop & Hcert & Hq & Hm) Hdec.
  unfold next_notification, protocol_call, andthen, decode, try_, look, set_active_turn, act, done_with. simpl.
  simpl in Hdec. rewrite Hdec. simpl.
  assert (validate_terminal (Some {| at_fence := tt_fence terminal; at_last_event_seq := last; at_seen := seen |})
            terminal = inl tt) as ->; [|done].
  unfold validate_terminal. rewrite active_fence_ok by done. simpl. rewrite Hl.
  rewrite bool_decide_true by done. simpl. apply (validate_id_ok "terminal stop reason") in Hstop.
  rewrite Hstop. simpl. rewrite bool_decide_false by done. simpl.
  assert (tt_session_quiescent terminal && (tt_execution_certainty terminal ==? OutcomeUnknown) = false) as ->.
  { destruct (tt_session_quiescent terminal); [|done]. simpl. apply bool_decide_eq_false. by apply Hq. }
  simpl. by apply bounds_valid.
Qed.
Lemma start_fence_ok request : validate_start_turn request = inl tt → validate_fence (st_fence request) = inl tt.
Proof. unfold validate_start_turn. intros [[[] H] _]%both_ok. exact H. Qed.

(** C24 What an orderly host sends of a turn is what the harness client admits: in
    every interleaving, the notifications sent so far of a turn the host accepted are
    received one after another without a refusal by a client whose request it was.
    As long as the client's turn is active they are events numbered from 1 without a
    gap; it ends with the terminal, which accounts for all of them, and nothing of
    the turn follows. *)
Theorem host_turn_admitted steps now h t request :
  orderly_run steps (new_host now) →
  run_host sha256_hex adoption profile steps (new_host now) = h →
  TurnStarted t request ∈ h_log h →
  Forall decodes (turn_of t (sent h)) →
  ∃ c, receives (accepted request (turn_of t (sent h))) (turn_of t (sent h)) c ∧ hc_process c = []
    ∧ match hc_active_turn c with
      | Some a => at_fence a = st_fence request
          ∧ at_last_event_seq a = Z.of_nat (length (turn_of t (sent h)))
          ∧ numbered (st_fence request) 0 (turn_of t (sent h))
      | None => ∃ events terminal, turn_of t (sent h) = events ++ [NTurnTerminal terminal]
          ∧ numbered (st_fence request) 0 events ∧ tt_fence terminal = st_fence request
          ∧ tt_last_event_seq terminal = Z.of_nat (length events)
      end.
Proof using Hjson.
  intros Hord <- Hstart Hdec. apply orderly_reached in Hord as [O1 _ _ _ _ _].
  set (h := run_host _ _ _ _ _) in *. set (ns := turn_of t (sent h)) in *.
  destruct (O1 t request) as (_ & Hval & m & _ & _ & Hmon).
  { apply list_elem_of_omap. by exists (TurnStarted t request). }
  apply start_fence_ok in Hval.
  assert (turn_of t (all_made h) = ns ++ turn_of t (h_pending h)) as Hmade by apply turn_of_app.
  assert (numbered (st_fence request) 0 ns → Z.of_nat (length ns) <= u64_max →
          ∃ c, receives (accepted request ns) ns c ∧ hc_process c = []
            ∧ hc_active_turn c ≠ None ∧ ∀ a : ActiveTurn, hc_active_turn c = Some a →
                at_fence a = st_fence request ∧ at_last_event_seq a = Z.of_nat (length ns)
                ∧ numbered (st_fence request) 0 ns) as Hopen.
  { intros Hnum Hmax. destruct (receive_all (st_fence request) ns 0 ∅ []) as [seen Hrec]; try done.
    rewrite app_nil_r in Hrec. eexists. split; [exact Hrec|]. split_and!; [done..|]. by intros a [= <-]. }
  assert (numbered (st_fence request) 0 (turn_of t (all_made h))
          ∧ Z.of_nat (length (turn_of t (all_made h))) <= u64_max
          ∨ ∃ events terminal, turn_of t (all_made h) = events ++ [NTurnTerminal terminal]
              ∧ numbered (st_fence request) 0 events
              ∧ accounts (st_fence request) (Z.of_nat (length events)) terminal) as Hstory.
  { unfold monitored in Hmon. destruct (mo_phase m).
    1-3: destruct Hmon as [_ (a & _ & _ & _ & N & Hmax & Hnum & _)]; left; split; [done|lia].
    - destruct Hmon as (_ & Hnum & _ & _ & Hmax & _). left. split; [done|lia].
    - right. exact Hmon. }
  destruct Hstory as [[Hnum Hmax]|(events & terminal & Hall & Hnum & Hacc)].
  - rewrite Hmade in Hnum, Hmax. apply numbered_app in Hnum as [Hnum _]. rewrite length_app in Hmax.
    destruct (Hopen Hnum) as (c & ? & ? & ? & Hc); [lia|]. exists c. split_and!; try done.
    destruct (hc_active_turn c); [by apply Hc|done].
  - pose proof Hacc as (Hf & Hl & Hmax & _). rewrite Hmade in Hall.
    destruct (turn_of t (h_pending h)) as [|n pending _] using rev_ind.
    + rewrite app_nil_r in Hall. rewrite Hall in *. apply Forall_app in Hdec as [Hdec Hterm].
      apply (proj1 (Forall_singleton _ _)) in Hterm.
      destruct (receive_all (st_fence request) events 0 ∅ [driver_notification (NTurnTerminal terminal)])
        as [seen Hrec]; try done; [lia|].
      exists {| hc_process := []; hc_active_turn := None |}. split_and!; [|done|exists events, terminal; split_and!; done].
      unfold accepted. rewrite map_app. eapply receives_app; [exact Hrec|].
      econstructor; [|constructor]. by apply (receive_terminal (st_fence request)).
    + rewrite (assoc_L (++)) in Hall. apply app_inj_tail in Hall as [Hall _].
      rewrite <- Hall in Hnum, Hmax. apply numbered_app in Hnum as [Hnum _]. rewrite length_app in Hmax.
      destruct (Hopen Hnum) as (c & ? & ? & ? & Hc); [lia|]. exists c. split_and!; try done.
      destruct (hc_active_turn c); [by apply Hc|done].
Qed.
End client.
End turns.

(** ** A run, and witnesses *)

#[global] Instance plain_acp : AcpLibraries := {|
  url_parse raw :=
    if raw ==? "http://127.0.0.1:49152/mcp"
    then Some {| url_scheme := "http"; url_host := Some "127.0.0.1"; url_port := Some 49152;
                 url_username := ""; url_password := None; url_query := None; url_fragment := None |}
    else None;
  header_name_from_bytes := Some;
  header_value_from_str := λ _, true;
  json_as_array v :=
    match v with
    | String c s => if c ==? Ascii.ascii_of_N 97 then decode_strings (S (String.length s)) s else None
    | EmptyString => None
    end;
  json_as_bool v := if v ==? "t" then Some true else if v ==? "f" then Some false else None;
  initialize_response_from_value := λ _, None;
  capabilities_to_value := λ _, empty_object;
  json_error := "json";
|}.
Lemma field_filter (k q : string) (l : list (string * string)) v :
  q ≠ k → field q (List.filter (λ p, negb (bool_decide (p.1 = k))) l ++ [(k, v)]) = field q l.
Proof.
  intros Hne. induction l as [|[a b] l IH]; simpl.
  - by rewrite bool_decide_false.
  - destruct (decide (a = k)) as [->|Ha].
    + rewrite bool_decide_true by done. simpl. rewrite IH. by rewrite (bool_decide_false (q = k)).
    + rewrite (bool_decide_false (a = k)) by done. simpl. rewrite IH. done.
Qed.
Lemma field_replaced (k : string) (l : list (string * string)) v :
  field k (List.filter (λ p, negb (bool_decide (p.1 = k))) l ++ [(k, v)]) = Some v.
Proof.
  induction l as [|[a b] l IH]; simpl; [by rewrite bool_decide_true|].
  destruct (decide (a = k)) as [->|Ha]; [by rewrite bool_decide_true by done|].
  rewrite (bool_decide_false (a = k)) by done. simpl. by rewrite bool_decide_false by congruence.
Qed.
#[global] Instance plain_insert_laws : JsonInsertLaws.
Proof.
  split. intros k k' v w o H. cbn -[decode_object encode_object] in *.
  destruct (decode_object o) as [l|] eqn:Hl; [|done].
  eexists. split; [done|]. rewrite decode_encode_object. cbn -[decode_object].
  split; [apply field_replaced|]. intros q Hq. by apply field_filter.
Qed.

Definition acp_binding : Binding := {| binding_id := "B1"; binding_generation := 1; owner_epoch := 1 |}.
Definition acp_fence : ExecutionFence :=
  {| fence_binding_id := "B1"; fence_binding_generation := 1; fence_owner_epoch := 1;
     fence_invocation_id := "I1"; fence_fence_token := "F1" |}.
Definition acp_open : OpenSession :=
  {| os_binding := acp_binding; os_mode := OpenCreate; os_working_directory := "/work";
     os_additional_directories := []; os_mcp_grants := []; os_resolved_mcp_grants := [];
     os_profile_digest := "P1" |}.
Definition acp_start : StartTurn :=
  {| st_fence := acp_fence; st_session_ref := "S1";
     st_source := {| ts_agent_id := "A1"; ts_message_id := "M1"; ts_channel_id := "C1";
                     ts_sender_id := "A2"; ts_correlation_id := None; ts_causation_id := None |};
     st_prompt := [PromptText "hello"];
     st_policy := {| tp_idle_timeout_ms := 1000; tp_wall_timeout_ms := 5000;
                     tp_cancel_drain_timeout_ms := 100; tp_max_captured_output_bytes := 8;
                     tp_permission_policy := "controller";
                     tp_tool_budget := {| tb_limit := 3; tb_required_enforcement := "observe_then_cancel" |};
                     tp_token_budget := None |} |}.
Definition chunk (fields : list (string * string)) : string :=
  json_object [("sessionId", json_string "S1");
               ("update", json_object (("sessionUpdate", json_string "agent_message_chunk") :: fields))].
Definition text_chunk (text : string) : string :=
  chunk [("content", json_object [("type", json_string "text"); ("text", json_string text)])].
Definition question : string :=
  json_object [("sessionId", json_string "S1"); ("options", json_array [])].
Definition reply_end_turn : PromptReply := PromptResponse (json_object [("stopReason", json_string "end_turn")]).
Definition plain_adoption : AdoptionMethods :=
  {| ad_load := true; ad_resume := true; ad_additional_directories := false |}.
Definition plain_hex (bytes : string) : string := bytes.
Notation run_plain steps := (run_host plain_hex plain_adoption "P1" steps (new_host 0)).

Definition opening : list HostStep :=
  [OpenCommand acp_open (inl (json_object [("sessionId", json_string "S1")])); StartCommand acp_start].
Definition ending : list HostStep :=
  [MonitorWakes 0 (Replied reply_end_turn); MonitorSettles 0; MonitorWithdraws 0; Send 0].
Definition acp_run : list HostStep :=
  opening ++
  [UpdateArrives (text_chunk "hello, "); UpdateArrives (text_chunk "world"); Send 0;
   PermissionAsked "Q1" question; Send 0; Send 0;
   ResolveRequest {| pr_fence := acp_fence; pr_permission_id := "Q1"; pr_outcome := Selected "yes" |};
   PermissionWakes "Q1"; PermissionReplies "Q1"] ++ ending.
Definition acp_host : Host := run_plain acp_run.
Definition acp_sent : list HarnessAcpNotification := Eval vm_compute in turn_of 0 (sent acp_host).
Lemma acp_sent_is : turn_of 0 (sent acp_host) = acp_sent.
Proof. by vm_compute. Qed.
Definition texts_of (n : HarnessAcpNotification) : list (list (option string)) :=
  match n with
  | NTurnTerminal terminal => map (λ m, map (get_str "text") (am_content m)) (tt_assistant_messages terminal)
  | _ => []
  end.
(** Twelve bytes arrive, the eight the policy allows are kept, in one message. *)
Example acp_host_sends :
  map (λ n, match n with
            | NTurnEvent e => te_event_seq e
            | NPermissionRequested q => pq_event_seq q
            | NTurnTerminal t => - tt_last_event_seq t
            | _ => 0
            end) acp_sent = [1; 2; 3; -3]
  ∧ flat_map texts_of acp_sent = [[Some "hello, "; Some "w"]].
Proof. split; by vm_compute. Qed.

Definition first_of {A} (f : HarnessAcpNotification → option A) : option A :=
  match omap f acp_sent with x :: _ => Some x | [] => None end.
(** The frames of the run are read back by looking them up. *)
#[local] Instance acp_frames : HarnessFrames := {|
  turn_event_from_value v :=
    first_of (λ n, match n with
                   | NTurnEvent e => if turn_event_to_value e ==? v then Some e else None | _ => None end);
  permission_from_value v :=
    first_of (λ n, match n with
                   | NPermissionRequested q => if permission_to_value q ==? v then Some q else None
                   | _ => None end);
  terminal_from_value v :=
    first_of (λ n, match n with
                   | NTurnTerminal t => if terminal_to_value t ==? v then Some t else None | _ => None end);
  transcript_entry_from_value := λ _, None;
  transcript_complete_from_value := λ _, None;
|}.

Ltac orderly_tac :=
  lazymatch goal with
  | |- orderly_run _ _ _ [] _ => exact I
  | |- orderly_run _ _ _ (_ :: _) _ => split; [|orderly_tac]
  end.
Lemma acp_run_orderly : orderly_run plain_hex plain_adoption "P1" acp_run (new_host 0).
Proof.
  unfold acp_run, opening, ending. cbn [app]. orderly_tac.
  - by intros r resumed raw _.
  - by vm_compute.
  - intros e. by vm_compute.
  - intros e. by vm_compute.
  - by vm_compute.
  - split; [by split|]. by apply (bool_decide_unpack _); vm_compute.
  - by vm_compute.
  - by vm_compute.
  - done.
  - done.
  - done.
  - by split.
  - done.
  - done.
  - by vm_compute.
Qed.

Lemma plain_json_total : ∀ v : @Value plain_json, is_Some (to_json v).
Proof. intros v. by exists v. Qed.
Lemma acp_sent_decodes : Forall decodes acp_sent.
Proof. unfold acp_sent. repeat (apply Forall_cons; split; [by vm_compute|]). by apply Forall_nil. Qed.

Lemma host_turn_admitted_witness :
  orderly_run plain_hex plain_adoption "P1" acp_run (new_host 0)
  ∧ ∃ c, receives (λ s, s) (accepted acp_start (turn_of 0 (sent acp_host))) (turn_of 0 (sent acp_host)) c
    ∧ hc_process c = [] ∧ hc_active_turn c = None.
Proof.
  split; [exact acp_run_orderly|].
  destruct (host_turn_admitted plain_hex plain_adoption "P1" (λ s, s)
              plain_json_total acp_run 0 acp_host 0 acp_start acp_run_orderly eq_refl)
    as (c & Hrec & Hp & Hc).
  - vm_compute. left.
  - rewrite acp_sent_is. exact acp_sent_decodes.
  - exists c. split; [exact Hrec|]. split; [exact Hp|]. destruct (hc_active_turn c) as [a|]; [|reflexivity].
    exfalso. destruct Hc as (_ & _ & Hnum). rewrite acp_sent_is in Hnum.
    destruct Hnum as (_ & _ & _ & Hlast & _). exact Hlast.
Defined.

Lemma permission_answer_authorised_witness :
  h_log acp_host = take 6 (h_log acp_host) ++ PermissionAnswered "Q1" (Selected "yes") :: drop 7 (h_log acp_host)
  ∧ ∃ request, PermissionResolved request ∈ take 6 (h_log acp_host) ∧ pr_permission_id request = "Q1".
Proof.
  assert (h_log acp_host = take 6 (h_log acp_host)
            ++ PermissionAnswered "Q1" (Selected "yes") :: drop 7 (h_log acp_host)) as Hlog
    by (vm_compute; reflexivity).
  split; [exact Hlog|].
  destruct (permission_answer_authorised plain_hex plain_adoption "P1" acp_run 0 acp_host _ _ "Q1" "yes" eq_refl Hlog)
    as (request & Hin & Hid & _).
  exists request. split; [exact Hin|exact Hid].
Defined.

(** Before its end the turn of the run keeps its eight bytes. *)
Definition acp_half : list HostStep :=
  opening ++ [UpdateArrives (text_chunk "hello, "); UpdateArrives (text_chunk "world")].
Lemma capture_bounded_witness :
  ∃ a, actives (h_shared (run_plain acp_half)) !! "S1" = Some a
    ∧ captured_size (ht_assistant_messages a) = 8
    ∧ captured_size (ht_assistant_messages a) + remaining_capture a <= Z.max 0 (capture_limit a).
Proof.
  destruct (capture_bounded plain_hex plain_adoption "P1" acp_half 0 (run_plain acp_half) eq_refl) as [H _].
  destruct (actives (h_shared (run_plain acp_half)) !! "S1") as [a|] eqn:Ha; [|vm_compute in Ha; discriminate Ha].
  exists a. split; [reflexivity|]. split.
  - vm_compute in Ha. injection Ha as <-. vm_compute. reflexivity.
  - exact (proj1 (H "S1" a Ha)).
Defined.

(** ** What an orderly host needs *)

(** An update that the host cannot capture uses up a number all the same: the
    terminal of its turn counts an event that was never made, and the client refuses
    it. *)
Definition lost_number : Host :=
  run_plain (opening ++ [UpdateArrives (chunk [])] ++ ending).
Theorem lost_number_refused :
  ∃ terminal, turn_of 0 (all_made lost_number) = [NTurnTerminal terminal]
    ∧ tt_last_event_seq terminal = 1
    ∧ validate_terminal (hc_active_turn (accepted acp_start [])) terminal
      = inr (Protocol "terminal event sequence does not match admitted evidence: expected 0, received 1").
Proof. eexists. split_and!; vm_compute; reflexivity. Qed.

(** An event and the terminal of its turn are sent by different tasks, so the
    terminal can reach the channel first; the client refuses it. *)
Definition overtaken : Host :=
  run_plain (opening ++ [UpdateArrives (text_chunk "hello")]
             ++ [MonitorWakes 0 (Replied reply_end_turn); MonitorSettles 0; MonitorWithdraws 0; Send 1]).
Theorem overtaken_terminal_refused :
  ∃ terminal, turn_of 0 (sent overtaken) = [NTurnTerminal terminal]
    ∧ validate_terminal (hc_active_turn (accepted acp_start [])) terminal
      = inr (Protocol "terminal event sequence does not match admitted evidence: expected 0, received 1").
Proof. eexists. split_and!; vm_compute; reflexivity. Qed.

(** Opening a session again, under its own binding, drops its active turn: the
    monitor finds its channels closed and nothing to take, and the turn, which was
    accepted, ends without a terminal. *)
Definition reopened : Host :=
  run_plain (opening
    ++ [UpdateArrives (text_chunk "hello"); Send 0;
        OpenCommand {| os_binding := acp_binding; os_mode := OpenResume "S1";
                       os_working_directory := "/work"; os_additional_directories := [];
                       os_mcp_grants := []; os_resolved_mcp_grants := [];
                       os_profile_digest := "P1" |} (inl empty_object);
        MonitorWakes 0 ActivityChanged; MonitorWakes 0 ActivityChanged; MonitorSettles 0]).
Theorem reopened_turn_never_ends :
  mo_phase <$> h_monitors reopened !! 0%nat = Some Ended
  ∧ h_pending reopened = []
  ∧ ∀ n, n ∈ turn_of 0 (all_made reopened) → match n with NTurnEvent _ => True | _ => False end.
Proof.
  split_and!; [by vm_compute..|]. intros n Hn. vm_compute in Hn.
  apply list_elem_of_singleton in Hn as ->. exact I.
Qed.

(** A resolution under another fence is refused, and takes the request away: its
    sender is dropped with it, so the runtime is told that it was cancelled. *)
Theorem wrong_fence_withdraws `{SerdeJson} request s fence :
  sh_permissions s !! pr_permission_id request = Some fence → fence ≠ pr_fence request →
  resolve_permission request s
  = (forget_permission (pr_permission_id request) s,
     inr (DriverError.Protocol "permission resolution fence does not match request"))
  ∧ (sh_receivers s !! pr_permission_id request = Some None →
     (permission_outcome (pr_permission_id request)
        (forget_permission (pr_permission_id request) s)).2 = Cancelled).
Proof.
  intros Hp Hne. split.
  - unfold resolve_permission. rewrite Hp. by rewrite bool_decide_false.
  - intros Hr. unfold permission_outcome, forget_permission. simpl. by rewrite Hr.
Qed.
