(* ===== verification/Correctness.v ===== *)
(** * System properties

    The theorems that hold of every reachable state and every run: the lease
    fence, the meaning of the recorded certainties, the refinement of the row
    lifecycles and what follows from it, and the append-only log.  Each theorem
    with hypotheses is applied to a state of Scenario.v. *)

From S2P Require Import Prelude Proto Schema Channels Messages Deliveries.
From S2P Require Import SessionFence Observations Invocations Settlement Sessions.
From S2P Require Import Lifecycle Safety System Fence Attempts Scenario.

(** ** What a batch holds *)

Section batch.
Context `{J : SerdeJson}.

(** What reserving a row returns. *)
Lemma reserve_rows_elem rows a t e now uuids k db invs db' i :
  reserve_rows rows a t e now uuids k db = Ok (invs, db') → i ∈ invs →
  ∃ r, r ∈ rows ∧ msg_seq (inv_message i) = m_seq r.2 ∧ inv_agent_id i = a.
Proof.
  revert k db invs. induction rows as [|[d m] rows IH]; intros k db invs H Hi;
    simpl in H; unfold reserve_row in H; m_inv; [by apply not_elem_of_nil in Hi|].
  match goal with H : message_from_row _ = Ok _ |- _ => apply message_from_row_ok in H as (Hs & _) end.
  apply elem_of_cons in Hi as [->|Hi]; [exists (d, m); set_solver|].
  match goal with H : reserve_rows _ _ _ _ _ _ _ _ = Ok _ |- _ =>
    destruct (IH _ _ _ H Hi) as (r & ? & ? & ?) end. exists r. set_solver.
Qed.
End batch.

(** ** The lease fence *)

Section fence.
Context `{J : SerdeJson} (sha256_hex : string → string).

(** C6 A claim never hands out a delivery whose attempt was armed: in every
    reachable state, if an agent has an invocation in state dispatch_armed for a
    message, no delivery of a batch it claims is for that message, whether the
    lease of that attempt is still live or has expired. *)
Theorem claim_never_redelivers_armed agent_id input now token db batch db' i del :
  reachable sha256_hex db → fresh_token token db →
  claim_deliveries agent_id input now token db = Ok (batch, db') →
  i ∈ db.(invocations) → i_state i = InvocationState.DispatchArmed → i_agent_id i = agent_id →
  del ∈ batch_deliveries batch →
  msg_seq (delivery_message del) ≠ i_message_seq i.
Proof.
  intros Hr Hfr Hrun Hi Harm Hag Hdel.
  pose proof (reachable_wf _ _ Hr) as Hwf. pose proof (reachable_fenced _ _ Hr) as Hf.
  unfold claim_deliveries, ensure_agent, ensure_exists in Hrun. m_inv. simpl in *.
  match goal with H : leased_batch _ _ _ = Ok _ |- _ =>
    eapply leased_batch_elem in H as (d & m & Hd & _ & _ & Hda & _ & Ht & -> & _); [|done] end.
  eapply lease_avoids_armed; eauto.
Qed.

(** A reservation never starts a second attempt at an armed message: no
    invocation it creates is for a message on which the agent has an attempt in
    state dispatch_armed. *)
Theorem reserve_never_restarts_armed agent_id input kinds now token uuids db invs db' i r :
  reachable sha256_hex db → fresh_token token db →
  reserve_invocations_filtered agent_id input kinds now token uuids db = Ok (invs, db') →
  i ∈ db.(invocations) → i_state i = InvocationState.DispatchArmed → i_agent_id i = agent_id →
  r ∈ invs → msg_seq (inv_message r) ≠ i_message_seq i.
Proof.
  intros Hr Hfr Hrun Hi Harm Hag Hin.
  pose proof (reachable_wf _ _ Hr) as Hwf. pose proof (reachable_fenced _ _ Hr) as Hf.
  unfold reserve_invocations_filtered, ensure_agent, ensure_exists in Hrun. m_inv.
  match goal with H : reserve_rows _ _ _ _ _ _ _ _ = Ok _ |- _ =>
    eapply reserve_rows_elem in H as (row & Hrow & -> & _); [|done] end.
  apply leased_rows_ok in Hrow as (Hd & _ & -> & Hda & _ & Ht).
  eapply lease_avoids_armed; eauto.
Qed.

(** C10 The lease fence: in every reachable state an invocation that is not
    terminal owns its delivery - the row for its message and agent is leased
    under the same token, expiry and attempt number. *)
Theorem live_attempt_owns_delivery db i :
  reachable sha256_hex db → i ∈ db.(invocations) → i_state i ≠ InvocationState.Terminal →
  ∃ d, d ∈ db.(agent_deliveries)
       ∧ d_message_seq d = i_message_seq i ∧ d_agent_id d = i_agent_id i
       ∧ d_state d = DeliveryState.Leased ∧ d_lease_token d = Some (i_lease_token i)
       ∧ d_lease_expires_at_ms d = Some (i_lease_expires_at_ms i)
       ∧ d_attempt d = i_delivery_attempt i.
Proof. intros Hr Hi Hl. exact (reachable_fenced _ _ Hr i Hi Hl). Qed.

(** At most one attempt at a message is live per agent. *)
Theorem one_live_attempt db i1 i2 :
  reachable sha256_hex db → i1 ∈ db.(invocations) → i2 ∈ db.(invocations) →
  i_state i1 ≠ InvocationState.Terminal → i_state i2 ≠ InvocationState.Terminal →
  i_message_seq i1 = i_message_seq i2 → i_agent_id i1 = i_agent_id i2 → i1 = i2.
Proof.
  intros Hr. apply live_same_key; [by eapply reachable_wf|by eapply reachable_fenced].
Qed.

(** An attempt recorded as not_started was never armed, so redelivering its
    message cannot repeat an effect. *)
Theorem not_started_was_never_armed db i :
  reachable sha256_hex db → i ∈ db.(invocations) →
  i_execution_certainty i = Some ExecutionCertainty.NotStarted →
  i_dispatch_armed_at_ms i = None.
Proof. intros Hr Hi. exact (reachable_certain _ _ Hr i Hi). Qed.

(** Recovery fences every expired armed attempt: after it, an attempt of the
    agent that was armed either is still the same row with an unexpired lease, or
    its delivery is blocked until an operator decides. *)
Theorem recovery_parks_expired_armed agent_id now db n db' i :
  reachable sha256_hex db →
  recover_expired_invocations_transaction agent_id now db = Ok (n, db') →
  i ∈ db.(invocations) → i_state i = InvocationState.DispatchArmed → i_agent_id i = agent_id →
  (i ∈ db'.(invocations) ∧ now < i_lease_expires_at_ms i)
  ∨ (∃ d, d ∈ db'.(agent_deliveries) ∧ d_message_seq d = i_message_seq i
          ∧ d_agent_id d = agent_id ∧ d_state d = DeliveryState.Blocked).
Proof.
  intros Hr Hrec Hi Ha Hag.
  apply recover_spec in Hrec as (_ & _ & Hexp & Hend);
    [|by eapply reachable_wf|by eapply reachable_fenced].
  destruct (Hend i Hi Ha) as [Hin|(d & ? & ? & ? & ?)]; [left|right].
  - split; [done|]. apply Hexp; [done| |done]. unfold live. congruence.
  - exists d. split_and!; congruence.
Qed.
End fence.

(** ** Refinement of the row lifecycles *)

Section lifecycles.
Context `{J : SerdeJson} (sha256_hex : string → string).

(** C7 Refinement: every transition of a reachable state preserves the schema's
    constraints and moves each row of each table only along its lifecycle; no row
    is ever deleted, and the moves out of a blocked delivery and the resolution
    of a block happen only in the operator's transition. *)
Theorem transitions_refine_lifecycles operator db db' :
  reachable sha256_hex db → transition sha256_hex operator db db' →
  wf db' ∧ evolves operator db db'.
Proof. intros Hr. apply transition_safe. by eapply reachable_wf. Qed.

(** A terminal invocation is immutable: whatever runs afterwards, its row is
    unchanged, so a late or replayed worker cannot rewrite an outcome. *)
Theorem terminal_invocation_immutable db db' i :
  reachable sha256_hex db → reaches sha256_hex db db' →
  i ∈ db.(invocations) → i_state i = InvocationState.Terminal → i ∈ db'.(invocations).
Proof.
  intros Hr Hrun Hi Ht.
  destruct (reaches_safe _ _ _ (reachable_wf _ _ Hr) Hrun) as [_ He].
  eapply stuck_elem; [apply (ev_invocations _ _ _ He)| |done].
  intros i2 Hs. inversion Hs; congruence.
Qed.

(** Acknowledged and abandoned deliveries are final: their rows never change
    again. *)
Theorem settled_delivery_final db db' d :
  reachable sha256_hex db → reaches sha256_hex db db' → d ∈ db.(agent_deliveries) →
  d_state d = DeliveryState.Acknowledged ∨ d_state d = DeliveryState.Dead →
  d ∈ db'.(agent_deliveries).
Proof.
  intros Hr Hrun Hd Hst.
  destruct (reaches_safe _ _ _ (reachable_wf _ _ Hr) Hrun) as [_ He].
  eapply stuck_elem; [apply (ev_deliveries _ _ _ He)| |done].
  intros d2 Hs. destruct Hs; intuition congruence.
Qed.

(** A blocked delivery stays exactly as it is through every run in which no
    operator resolves a block, including claims after its former lease expiry. *)
Theorem blocked_delivery_needs_operator db db' d :
  reachable sha256_hex db → worker_run sha256_hex db db' → d ∈ db.(agent_deliveries) →
  d_state d = DeliveryState.Blocked → d ∈ db'.(agent_deliveries).
Proof.
  intros Hr Hrun Hd Hst.
  destruct (worker_run_safe _ _ _ (reachable_wf _ _ Hr) Hrun) as [_ He].
  eapply stuck_elem; [apply (ev_deliveries _ _ _ He)| |done].
  intros d2 Hs. destruct Hs; intuition congruence.
Qed.

(** The message log is append-only and ordered: a run only adds messages after
    the existing ones, with strictly larger sequence numbers. *)
Theorem message_log_append_only db db' :
  reachable sha256_hex db → reaches sha256_hex db db' →
  ∃ added, db'.(messages) = db.(messages) ++ added
           ∧ StronglySorted (λ m1 m2, m_seq m1 < m_seq m2) (db.(messages) ++ added).
Proof.
  intros Hr Hrun.
  destruct (reaches_messages _ _ _ (reachable_wf _ _ Hr) Hrun) as [added Heq].
  exists added. split; [done|]. rewrite <-Heq.
  destruct (reaches_safe _ _ _ (reachable_wf _ _ Hr) Hrun) as [Hwf' _]. apply (wf_log _ Hwf').
Qed.

Lemma delivery_moves_monotone operator d d' :
  moves operator d d' →
  d_message_seq d' = d_message_seq d ∧ d_agent_id d' = d_agent_id d ∧ d_attempt d ≤ d_attempt d'.
Proof.
  induction 1 as [|d1 d2 d3 Hs _ (IH1 & IH2 & IH3)]; [done|].
  destruct Hs; simpl in *; split_and!; try done; lia.
Qed.

(** Delivery attempts only grow: the row of a delivery keeps its message and
    agent and its attempt count never decreases. *)
Theorem delivery_attempt_monotone db db' d :
  reachable sha256_hex db → reaches sha256_hex db db' → d ∈ db.(agent_deliveries) →
  ∃ d', d' ∈ db'.(agent_deliveries) ∧ d_message_seq d' = d_message_seq d
        ∧ d_agent_id d' = d_agent_id d ∧ d_attempt d ≤ d_attempt d'.
Proof.
  intros Hr Hrun Hd.
  destruct (reaches_safe _ _ _ (reachable_wf _ _ Hr) Hrun) as [_ He].
  destruct (table_rel_elem _ _ _ _ (ev_deliveries _ _ _ He) Hd) as (d' & ? & Hm).
  apply delivery_moves_monotone in Hm as (? & ? & ?). eauto.
Qed.

Lemma binding_moves_monotone operator s s' :
  moves operator s s' →
  s_binding_id s' = s_binding_id s ∧ s_binding_generation s' = s_binding_generation s
  ∧ s_agent_id s' = s_agent_id s ∧ s_owner_epoch s ≤ s_owner_epoch s'
  ∧ (s_owner_epoch s' = s_owner_epoch s → s_owner_instance_id s' = s_owner_instance_id s).
Proof.
  induction 1 as [|s1 s2 s3 Hs _ (IH1 & IH2 & IH3 & IH4 & IH5)]; [done|].
  destruct Hs; simpl in *; split_and!; try done; lia.
Qed.

(** Ownership of a session binding only moves forward: a binding generation
    keeps its identity, its owner epoch never decreases, and its owner instance
    changes only with a larger epoch. *)
Theorem owner_epoch_monotone db db' s :
  reachable sha256_hex db → reaches sha256_hex db db' → s ∈ db.(session_bindings) →
  ∃ s', s' ∈ db'.(session_bindings) ∧ s_binding_id s' = s_binding_id s
        ∧ s_binding_generation s' = s_binding_generation s ∧ s_agent_id s' = s_agent_id s
        ∧ s_owner_epoch s ≤ s_owner_epoch s'
        ∧ (s_owner_epoch s' = s_owner_epoch s →
           s_owner_instance_id s' = s_owner_instance_id s).
Proof.
  intros Hr Hrun Hs.
  destruct (reaches_safe _ _ _ (reachable_wf _ _ Hr) Hrun) as [_ He].
  destruct (table_rel_elem _ _ _ _ (ev_bindings _ _ _ He) Hs) as (s' & ? & Hm).
  apply binding_moves_monotone in Hm as (? & ? & ? & ? & ?). eauto 10.
Qed.
End lifecycles.

(** ** The theorems at concrete states *)

(** At time 5000 the armed attempt at message 1 has expired; the claim returns
    the delivery of message 2 instead. *)
Lemma claim_never_redelivers_armed_witness :
  ∃ batch db' del, claim_deliveries "B" claim_one 5000 "T2" db_two = Ok (batch, db')
    ∧ batch_deliveries batch = [del] ∧ msg_seq (delivery_message del) ≠ i_message_seq armed_row.
Proof.
  eexists _, _, _. split; [|split].
  - vm_compute. reflexivity.
  - simpl. reflexivity.
  - eapply (claim_never_redelivers_armed plain_sha256 "B" claim_one 5000 "T2" db_two).
    + exact reachable_two.
    + apply fresh_by_computation. vm_compute. reflexivity.
    + vm_compute. reflexivity.
    + in_rows.
    + reflexivity.
    + reflexivity.
    + simpl. apply list_elem_of_In. simpl. left. reflexivity.
Defined.

Lemma reserve_never_restarts_armed_witness :
  ∃ invs db' r,
    reserve_invocations_filtered "B" claim_one (Some ["ask"]) 5000 "T2" (λ k, "V" +:+ uuid_supply k)
      db_two = Ok (invs, db')
    ∧ invs = [r] ∧ msg_seq (inv_message r) ≠ i_message_seq armed_row.
Proof.
  eexists _, _, _. split; [|split].
  - vm_compute. reflexivity.
  - simpl. reflexivity.
  - eapply (reserve_never_restarts_armed plain_sha256 "B" claim_one (Some ["ask"]) 5000 "T2"
              (λ k, "V" +:+ uuid_supply k) db_two).
    + exact reachable_two.
    + apply fresh_by_computation. vm_compute. reflexivity.
    + vm_compute. reflexivity.
    + in_rows.
    + reflexivity.
    + reflexivity.
    + apply list_elem_of_In. simpl. left. reflexivity.
Defined.

Lemma live_attempt_owns_delivery_witness :
  ∃ d, d ∈ db_two.(agent_deliveries) ∧ d_message_seq d = 1 ∧ d_agent_id d = "B"
       ∧ d_state d = DeliveryState.Leased ∧ d_lease_token d = Some "T1"
       ∧ d_lease_expires_at_ms d = Some 1010 ∧ d_attempt d = 1.
Proof.
  apply (live_attempt_owns_delivery plain_sha256 db_two armed_row).
  - exact reachable_two.
  - in_rows.
  - discriminate.
Defined.

Lemma one_live_attempt_witness : armed_row = hd no_invocation db_two.(invocations).
Proof.
  apply (one_live_attempt plain_sha256 db_two); [exact reachable_two|in_rows|in_rows| | | |];
    first [discriminate | reflexivity].
Defined.

Lemma not_started_was_never_armed_witness :
  i_execution_certainty expired_row = Some ExecutionCertainty.NotStarted
  ∧ i_dispatch_armed_at_ms expired_row = None.
Proof.
  split; [reflexivity|].
  apply (not_started_was_never_armed plain_sha256 db_reclaimed);
    [exact reachable_reclaimed|in_rows|reflexivity].
Defined.

Lemma recovery_parks_expired_armed_witness :
  ∃ n db', recover_expired_invocations_transaction "B" 5000 db_armed = Ok (n, db')
    ∧ ((armed_row ∈ db'.(invocations) ∧ 5000 < i_lease_expires_at_ms armed_row)
       ∨ ∃ d, d ∈ db'.(agent_deliveries) ∧ d_message_seq d = 1 ∧ d_agent_id d = "B"
              ∧ d_state d = DeliveryState.Blocked).
Proof.
  eexists _, _. split; [vm_compute; reflexivity|].
  eapply (recovery_parks_expired_armed plain_sha256 "B" 5000 db_armed _ _ armed_row);
    [exact reachable_armed|vm_compute; reflexivity|in_rows|reflexivity|reflexivity].
Defined.

Lemma transitions_refine_lifecycles_witness :
  wf db_requeued ∧ evolves true db_parked db_requeued.
Proof.
  apply (transitions_refine_lifecycles plain_sha256 true); [exact reachable_parked|].
  apply (t_resolve _ 1 requeue 6000). vm_compute. reflexivity.
Defined.

(** The completed attempt survives a later recovery pass. *)
Definition db_later : Db := Eval vm_compute in exec op_recover db_completed.
Lemma run_later : reaches plain_sha256 db_completed db_later.
Proof. apply (run_once op_recover false); [intros; by eapply t_recover|done|done]. Qed.

Lemma terminal_invocation_immutable_witness : completed_row ∈ db_later.(invocations).
Proof.
  apply (terminal_invocation_immutable plain_sha256 db_completed);
    [exact reachable_completed|exact run_later|in_rows|reflexivity].
Defined.

Lemma settled_delivery_final_witness : acknowledged_delivery ∈ db_later.(agent_deliveries).
Proof.
  apply (settled_delivery_final plain_sha256 db_completed);
    [exact reachable_completed|exact run_later|in_rows|left; reflexivity].
Defined.

(** A claim long after the lease expired leaves the parked delivery alone. *)
Definition op_late_claim : M ClaimBatch := claim_deliveries "B" claim_one 90000 "T9".
Definition db_late : Db := Eval vm_compute in exec op_late_claim db_parked.

Lemma blocked_delivery_needs_operator_witness : blocked_delivery ∈ db_late.(agent_deliveries).
Proof.
  apply (blocked_delivery_needs_operator plain_sha256 db_parked);
    [exact reachable_parked| |in_rows|reflexivity].
  destruct (exec_ok op_late_claim db_parked) as [batch Hb]; [vm_compute; reflexivity|].
  apply rtc_once. eapply (t_claim _ "B" claim_one 90000 "T9" batch).
  - apply fresh_by_computation. vm_compute. reflexivity.
  - exact Hb.
Defined.

Lemma message_log_append_only_witness :
  ∃ added, db_completed.(messages) = db_asked.(messages) ++ added
           ∧ StronglySorted (λ m1 m2, m_seq m1 < m_seq m2) (db_asked.(messages) ++ added).
Proof.
  apply (message_log_append_only plain_sha256); [exact reachable_asked|].
  transitivity db_reserved; [|transitivity db_armed].
  - apply (run_once op_reserve false); [|done|done].
    intros. eapply t_reserve; [|done]. by apply fresh_by_computation.
  - apply (run_once op_arm false); [intros; by eapply t_arm|done|done].
  - apply (run_once op_complete false); [intros; by eapply t_complete|done|done].
Defined.

Lemma delivery_attempt_monotone_witness :
  ∃ d', d' ∈ db_requeued.(agent_deliveries) ∧ d_message_seq d' = 1
        ∧ d_agent_id d' = "B" ∧ 1 ≤ d_attempt d'.
Proof.
  apply (delivery_attempt_monotone plain_sha256 db_parked db_requeued blocked_delivery);
    [exact reachable_parked| |in_rows].
  apply (run_once op_requeue true); [|done|done]. intros [] db' H. by eapply t_resolve.
Defined.

Lemma owner_epoch_monotone_witness :
  ∃ s', s' ∈ db_adopted.(session_bindings) ∧ s_binding_id s' = "S"
        ∧ s_binding_generation s' = 1 ∧ s_agent_id s' = "B" ∧ 1 ≤ s_owner_epoch s'
        ∧ (s_owner_epoch s' = 1 → s_owner_instance_id s' = "W1").
Proof.
  apply (owner_epoch_monotone plain_sha256 db_opened db_adopted
           (hd (new_binding "" 0 "" lane "" 0) db_opened.(session_bindings)));
    [exact reachable_opened| |in_rows].
  apply (run_once op_adopt false); [intros; by eapply t_acquire|done|done].
Defined.
